(* ===== verification/_CoqProject ===== *)
-Q . S2P
Prelude.v
Varint.v
Text.v
Record.v
Digits.v
Format.v
Vfs.v
Header.v
Journal.v
Wal.v
Freelist.v
PageCache.v
Lock.v
Pager.v
Commit.v
Allocator.v
WalCommit.v
Transaction.v
Shm.v
Checkpoint.v
ModeSwitch.v
WalRace.v
BtreePage.v
BtreeSplice.v
BtreePayload.v
IndexKey.v
IndexTree.v
BtreeCursor.v
Ddl.v
Catalog.v
IndexCursor.v
Integrity.v
BtreeLeaf.v
BtreeStore.v
BtreeInsert.v
BtreeSplit.v
BtreeZip.v
BtreeInsertProof.v
BtreeInsertRow.v
BtreeOverflow.v
BtreeDelete.v
IndexWrite.v
BtreeDeleteProof.v
BtreeTable.v
TableSession.v
Master.v
BtreeFree.v
ColumnVfs.v
Machine.v
Thrift.v
ParquetEncoding.v
Snappy.v
ParquetMeta.v
ParquetReader.v
SchemaTree.v
Nested.v
Decimal.v
ParquetFile.v
NestedFile.v
