(* ===== verification/Prelude.v ===== *)
(** * Verification of db-storage

    db-storage is the storage layer of a database engine: a row store that
    reads and writes SQLite files, and a column store that reads Parquet
    files.  This library models the row store from the bytes of a record up
    to rows inserted into and deleted from a table through the pager, and
    the column store from the bytes of a varint up to the columns and nested
    values of a file, and proves the properties that make them correct.
    Every definition is executable and follows the Rust function of the same
    name; paths below are relative to [src/src].

    ** The program and the files that model it

    Bytes and formats:
    - this file: results, machine integers with their wrap-around and
      saturation, byte strings with the slice and big-endian operations the
      code uses, byte-wise buffer edits;
    - [Varint], [Text], [Record]: [row/record/] (varints, the three text
      encodings, serial types, the record encoder and the five ways of
      decoding a record);
    - [Digits]: the decimal text of integers; [Format]: [row/format.rs] (the
      renderings of values as list, query and CSV output);
    - [Header]: [row/header.rs] (the 100-byte header and page 1);
    - [Journal], [Wal], [Freelist]: [row/pager/journal.rs], [wal.rs] and
      [freelist.rs] (formats, writers, recovery scans).

    Files, locks and the pager:
    - [Vfs]: [row/vfs/].  A file is its durable bytes with the list of
      unsynced operations; a crash keeps any subset of them, each whole.
      The class [PageSource] is what a reader of pages may rely on;
    - [Lock]: the five-level lock ladder of [row/vfs/lock.rs] and [unix.rs];
      the class [Fcntl] states what is assumed of POSIX record locks and the
      class [FileLock] what the pager assumes of the ladder.  [step_up] and
      [step_down] are lists of fcntl calls, and the processes of the system
      interleave between any two of them; [set_level_runs] shows that the
      [set_level] the pager uses is the run of a process that is alone;
    - [Shm]: the reader slots, marks and locks of the WAL index
      ([row/vfs/shm.rs]);
    - [PageCache], [Pager]: [row/pager/mod.rs].  The pager's state is a
      record with the fields of the struct; its operations run in a small
      state and error monad that also emits the file operations, so that a
      crash can be placed between any two of them;
    - [Checkpoint]: [row/pager/checkpoint.rs] over the class [WalIndex];
      [ModeSwitch]: [set_journal_mode] of [row/pager/mod.rs]; [WalRace]: two
      writers of one log; [Transaction]: reads, edits, BEGINs and rollbacks
      in sequence.

    B-trees ([row/btree/]):
    - [BtreePage]: page headers, cells and whole-page writes; [BtreeSplice]:
      in-place insertion and deletion of a cell with freeblocks;
      [BtreePayload]: overflow chains; [BtreeCursor]: the table cursor and
      the row count; [BtreeLeaf]: the leaf search of the write path;
    - [BtreeStore]: the class [PageStore] of the operations the b-tree code
      calls on the pager, the class [PageStoreSpec] of their contract, and
      the instance that discharges it with the pager and its allocator;
    - [BtreeInsert], [BtreeDelete]: [table/insert.rs] and [table/delete.rs];
      [BtreeSplit], [BtreeZip], [BtreeInsertProof], [BtreeInsertRow],
      [BtreeOverflow], [BtreeDeleteProof]: their correctness, by zippers
      that carry the path from the root to the edited page;
    - [BtreeTable]: the abstraction of a tree of pages to a finite map from
      rowids to payloads; [TableSession]: sequences of operations;
      [BtreeFree]: the freeing of a whole tree;
    - [IndexKey]: the order of index keys; [IndexTree]: the entries of an
      index tree in order; [IndexCursor]: the index cursor of [index.rs];
      [IndexWrite]: [index/insert.rs] and [index/delete.rs].

    The schema and the check of a whole database:
    - [Ddl]: [row/schema/ddl_reader.rs], the reader of CREATE statements and
      the walk over the schema table; [Catalog]: the catalog that walk
      computes;
    - [Master]: [row/btree/master.rs] and [schema.rs], the rows of the schema
      table, of [sqlite_sequence] and of [sqlite_stat1], over the page store;
    - [Integrity]: [row/integrity.rs].

    The column store ([column/], mostly [column/parquet/]):
    - [ColumnVfs]: [vfs.rs] and [memory.rs], the file trait as a class and
      its in-memory backend;
    - [Machine]: what the column store does where the row store uses checked
      operators: panics of indexing and capacity, and the arithmetic of a
      debug and of a release build (the class [Build], a parameter of every
      definition that depends on it);
    - [Thrift]: [thrift.rs]; [ParquetEncoding]: [encoding.rs]; [Snappy]:
      [compression/snappy.rs]; [Decimal]: [decimal.rs];
    - [ParquetMeta]: [footer.rs] and [page.rs]; [ParquetReader]:
      [reader.rs], with the class [PlainCodec] of what a reader of PLAIN
      values promises; [SchemaTree]: [schema_tree.rs]; [Nested]:
      [nested.rs];
    - [ParquetFile]: [parquet_file.rs] and the rest of [compression/], with
      the class [ColumnCodec] of what the decoders of a column type promise
      and the class [Ruzstd] of the third-party decoder; [NestedFile]: its
      nested columns.

    ** What the theorems show

    - Durability ([Commit], [WalCommit], [Journal], [Wal], [Checkpoint],
      [ModeSwitch]): a crash at any point of a commit leaves the old or the
      new database, in both journal modes at synchronous=FULL, and in WAL
      mode also when each unsynced write is cut anywhere; a torn journal
      replays a prefix, a torn log publishes whole transactions only; a
      checkpoint pass that has frames to copy is invisible to every reader
      whose mark the WAL index reports and to readers at the end of the log;
      so is leaving WAL mode, for a log of valid, committed frames that no
      reader holds back, with frames left to copy or not, or with none.
    - The pager ([PageCache], [Transaction], [Allocator], [Commit]): cache,
      dirty set and WAL overlay together refine a map of committed pages and
      one of the transaction's, over any sequence of reads, edits, BEGINs and
      rollbacks; [flush] takes the lock to EXCLUSIVE and back and changes what
      no page reads; the page cache is an LRU list that keeps to its capacity
      (its heap of candidates is bounded after a hit only); the allocator
      refines a set of free pages and never hands out a page in use.
    - Locks ([Lock], [Shm]): mutual exclusion over all interleavings of the
      fcntl calls of any number of processes; a writer that waits at PENDING
      is let through once the readers that probed before it have finished; no
      checkpoint passes a live reader's mark.
    - Tables ([BtreeCursor], [BtreeSplice], [TableSession]): lookup, scans,
      insertion and deletion refine a finite map, with splits, collapses and
      overflow chains, through the page-store interface and through the
      pager itself, and no page is lost or shared; a dropped table gives
      back exactly its pages ([BtreeFree]).
    - System tables ([Master]): [sqlite_sequence] refines a map whose entries
      only grow, and ANALYZE removes exactly the statistics of its table.
      The b-tree theorems are about trees on pages the client owns, which
      page 1, the allocator's, is not: of the schema table itself reading is
      verified and writing is modelled only.
    - Indexes ([IndexCursor]): scans in both directions return every entry
      in order, and a seek finds the lower bound of its key.
    - The schema ([Ddl], [Catalog]): the names read off a CREATE TABLE
      statement are those of the columns it declares, by a specification of
      column and constraint definitions that does not use the code's own
      tests, whatever the strings, comments and parentheses hold (for names
      of one word, not behind a comment and not like a keyword); the walk
      over the schema table finds every table with its indexes.  The
      integrity check answers [ok] on exactly the databases that satisfy a
      description of its own, and some conditions its comments promise are
      shown to be overlooked ([Integrity]).
    - Parquet: every decoder inverts its encoding, stated against a writer
      that has all the freedom the format gives; together, a column chunk of
      any column type comes back from the bytes of a file, and rows of
      scalars, lists and maps of scalars, and structs of these, shredded into
      leaf columns, are put together again.  The thrift and Snappy
      decoders end on every input.
    - Formats ([Record], [Header], [Format]): round trips, agreement of the decoders, exact acceptance.
    - Errors: what each refused operation returns, and the places where the
      code does not do what it means to; these are theorems too.

    ** Bounds and fuel

    Loops whose number of rounds the source bounds carry the same bound as
    fuel ([MAX_PAGES_VISITED], [MAX_FREEBLOCKS], the length of the input);
    the error the source returns at the bound is returned when the fuel is
    used up.  Loops that the source does not bound get fuel that is proved
    sufficient: the header-length search of [Record], the overflow chain of
    [BtreeDelete], where [2 ^ 32] rounds see every page number, the readers
    of [Thrift], the page loops of [ParquetFile], which consume at least a
    byte per round.  [usize] and
    [u64] are 64 bits wide.  The theorems on tables are stated for fewer
    rows than the page budget [MAX_PAGES_VISITED] allows a descent to visit,
    and deletion for pages of at most 32768 bytes, where the cap on
    freeblocks cannot be reached.

    ** Not modelled

    System calls and their bindings ([row/vfs/fcntl.rs], file access of
    [unix.rs], the POSIX files and memory maps of the column store); a write
    that is torn within itself, outside the log of a WAL commit, whose crashes
    cut writes ([torn_crash]; the crashes of [Vfs] keep or lose each write
    whole, and torn journals are covered at the level of their bytes); the
    write lock and the frame count a WAL commit publishes in the -shm file,
    which [Shm] models apart from the pager; the ZSTD decoder, a third-party crate,
    which is a parameter, as are the text of a REAL and the rowid alias of a
    table, which db-core computes; [Decimal::to_f64].  Error display strings
    are left out throughout, and so are running out of memory and of stack.
    The switch out of WAL mode is modelled whole, but its theorem leaves out a
    log with an invalid tail, of which [Checkpoint] shows what goes wrong. *)

From stdpp Require Export base numbers list gmap sorting.
From Stdlib Require Export ZArith Lia.

#[global] Open Scope Z_scope.

(** ** Results

    [Result<A, E>] of the source.  [let?] is the [?] operator without an
    error conversion; a conversion is written with [map_err]. *)

Inductive result (E A : Type) : Type :=
| Ok (a : A)
| Err (e : E).
Arguments Ok {E A} _.
Arguments Err {E A} _.

Declare Scope dbs_scope.
Delimit Scope dbs_scope with dbs.
#[global] Open Scope dbs_scope.

Notation "'let?' p := m 'in' k" :=
  (match m with Ok p => k | Err e => Err e end)
  (at level 10, p strict pattern, m at level 100, k at level 200,
   format "'[v' 'let?'  p  :=  m  'in' '/' k ']'") : dbs_scope.

Definition map_err {E F A : Type} (f : E → F) (r : result E A) : result F A :=
  match r with Ok a => Ok a | Err e => Err (f e) end.

Definition ok_or {E A : Type} (o : option A) (e : E) : result E A :=
  match o with Some a => Ok a | None => Err e end.

Definition is_ok {E A : Type} (r : result E A) : bool :=
  match r with Ok _ => true | Err _ => false end.

#[global] Instance result_eq_dec {E A} `{EqDecision E, EqDecision A} :
  EqDecision (result E A).
Proof. solve_decision. Defined.

(** ** Machine integers

    [usize] and [u64] are 64 bits wide on the supported targets.  Unsigned
    values are [Z] in [0, 2^w); the wrap-around and the saturation are
    written out. *)

Definition U8_MAX : Z := 255.
Definition U16_MAX : Z := 65535.
Definition U32_MAX : Z := 4294967295.
Definition U64_MAX : Z := 18446744073709551615.
Definition USIZE_MAX : Z := U64_MAX.

Definition wrap8 (z : Z) : Z := z mod 256.
Definition wrap16 (z : Z) : Z := z mod 65536.
Definition wrap32 (z : Z) : Z := z mod 4294967296.
Definition wrap64 (z : Z) : Z := z mod 18446744073709551616.

(** [usize::saturating_add], [saturating_sub], [saturating_mul] (also of
    [u64], the same width). *)
Definition sat_add (a b : Z) : Z := Z.min (a + b) USIZE_MAX.
Definition sat_sub (a b : Z) : Z := Z.max (a - b) 0.
Definition sat_mul (a b : Z) : Z := Z.min (a * b) USIZE_MAX.
Definition sat_add32 (a b : Z) : Z := Z.min (a + b) U32_MAX.

(** [x as iN] for an unsigned [x] of the same width: two's complement. *)
Definition to_signed (w : Z) (z : Z) : Z :=
  let m := z mod 2 ^ w in
  if decide (m < 2 ^ (w - 1)) then m else m - 2 ^ w.

Definition as_i64 (z : Z) : Z := to_signed 64 z.

Definition u8_ok (z : Z) : Prop := 0 ≤ z < 256.
Definition u16_ok (z : Z) : Prop := 0 ≤ z < 65536.
Definition u32_ok (z : Z) : Prop := 0 ≤ z < 4294967296.
Definition u64_ok (z : Z) : Prop := 0 ≤ z < 18446744073709551616.
Definition i64_ok (z : Z) : Prop := -9223372036854775808 ≤ z < 9223372036854775808.

(** The largest length of a Rust slice or vector in bytes, [isize::MAX]. *)
Definition ISIZE_MAX : Z := 9223372036854775807.

Create HintDb machine.

#[global] Hint Unfold wrap8 wrap16 wrap32 wrap64 sat_add sat_sub sat_mul sat_add32
  u8_ok u16_ok u32_ok u64_ok i64_ok
  U8_MAX U16_MAX U32_MAX U64_MAX USIZE_MAX ISIZE_MAX : machine.

(** [mlia] opens the machine-integer definitions and calls [lia]. *)
Ltac mlia := autounfold with machine in *; lia.
Ltac mlia_div :=
  autounfold with machine in *; Z.div_mod_to_equations; lia.

(** ** Byte buffers

    A [&[u8]] or [Vec<u8>] is a list of [Z]; [bytes_ok] says every element
    is a byte. *)

Abbreviation bytes := (list Z).
Abbreviation zlen l := (Z.of_nat (length l)).

Definition bytes_ok (l : bytes) : Prop := Forall u8_ok l.

(** [buf.get(a..b)]: [None] when the range is out of bounds. *)
Definition get_range (buf : bytes) (a b : Z) : option bytes :=
  if decide (0 ≤ a ∧ a ≤ b ∧ b ≤ zlen buf)
  then Some (take (Z.to_nat (b - a)) (drop (Z.to_nat a) buf))
  else None.

(** [buf.get(a..)]. *)
Definition get_from (buf : bytes) (a : Z) : option bytes :=
  get_range buf a (zlen buf).

(** [buf.get(i)]. *)
Definition get_byte (buf : bytes) (i : Z) : option Z :=
  if decide (0 ≤ i < zlen buf) then buf !! Z.to_nat i else None.

(** [buf.get_mut(off..off+bs.len()).copy_from_slice(bs)]: [None] when the
    range is out of bounds. *)
Definition put_range (buf : bytes) (off : Z) (bs : bytes) : option bytes :=
  if decide (0 ≤ off ∧ off + zlen bs ≤ zlen buf)
  then Some (take (Z.to_nat off) buf ++ bs ++ drop (Z.to_nat (off + zlen bs)) buf)
  else None.

(** [vec![0u8; n]]. *)
Definition zeros (n : Z) : bytes := replicate (Z.to_nat n) 0.

(** ** Endian codecs: [uN::to_be_bytes], [from_be_bytes] and the
    little-endian forms. *)

Fixpoint be_bytes (n : nat) (v : Z) : bytes :=
  match n with
  | O => []
  | S m => (v / 2 ^ (8 * Z.of_nat m)) mod 256 :: be_bytes m v
  end.

Definition be_val (bs : bytes) : Z := foldl (λ acc b, acc * 256 + b) 0 bs.

Definition le_bytes (n : nat) (v : Z) : bytes := reverse (be_bytes n v).
Definition le_val (bs : bytes) : Z := be_val (reverse bs).

(** A big-endian read of [n] bytes at [off], [None] out of range; the
    per-module [read_u32]s of the source attach their own error. *)
Definition read_be (n : nat) (buf : bytes) (off : Z) : option Z :=
  be_val <$> get_range buf off (sat_add off (Z.of_nat n)).

(** ** Automation *)

Create HintDb dbs.

(** Case analysis on the [decide]s and matches of a hypothesis or goal. *)
Ltac case_all :=
  repeat (simplify_eq/=; first [case_decide | case_match]).

(** Destruct existentials and conjunctions in hypotheses. *)
Ltac deex :=
  repeat match goal with
  | H : ∃ x, _ |- _ => let x' := fresh x in destruct H as [x' H]
  | H : _ ∧ _ |- _ => destruct H
  end.

(** ** Lemmas on results *)

Lemma map_err_Ok {E F A} (f : E → F) (r : result E A) a :
  map_err f r = Ok a ↔ r = Ok a.
Proof. destruct r; simpl; split; congruence. Qed.

Lemma ok_or_Ok {E A} (o : option A) (e : E) a : ok_or o e = Ok a ↔ o = Some a.
Proof. destruct o; simpl; split; congruence. Qed.

Lemma ok_or_Err {E A} (o : option A) (e e' : E) :
  ok_or o e = Err e' ↔ o = None ∧ e = e'.
Proof. destruct o; simpl; naive_solver. Qed.

(** ** Lemmas on machine integers *)

Lemma sat_add_small a b : a + b ≤ USIZE_MAX → sat_add a b = a + b.
Proof. mlia. Qed.
Lemma sat_sub_ge a b : b ≤ a → sat_sub a b = a - b.
Proof. mlia. Qed.
Lemma sat_mul_small a b : a * b ≤ USIZE_MAX → sat_mul a b = a * b.
Proof. mlia. Qed.
(** A saturated sum below the maximum did not saturate. *)
Lemma sat_add_le a b c : sat_add a b ≤ c → c < USIZE_MAX → sat_add a b = a + b.
Proof.
  unfold sat_add. intros Hle Hc.
  destruct (Z.min_spec (a + b) USIZE_MAX) as [[_ ->]|[_ Heq]]; [done|].
  rewrite Heq in Hle. exfalso. revert Hle Hc. apply Zle_not_lt.
Qed.
Lemma isize_usize z : z ≤ ISIZE_MAX → z < USIZE_MAX.
Proof. intros. eapply Z.le_lt_trans; [done|reflexivity]. Qed.
Lemma sat_add_ge a b : 0 ≤ b → a ≤ USIZE_MAX → a ≤ sat_add a b.
Proof. mlia. Qed.
(** Offsets within a page never saturate. *)
Lemma sat_add_page a b : a ≤ 1048576 → b ≤ 1048576 → sat_add a b = a + b.
Proof. mlia. Qed.
Lemma sat_mul_page a b : 0 ≤ a ≤ 1048576 → 0 ≤ b ≤ 16 → sat_mul a b = a * b.
Proof. intros. apply sat_mul_small. unfold USIZE_MAX, U64_MAX. nia. Qed.
Lemma sat_add_nonneg a b : 0 ≤ a → 0 ≤ b → 0 ≤ sat_add a b.
Proof. intros. apply Z.min_glb; [lia|done]. Qed.

(** The midpoint of a binary search. *)
Lemma midpoint (lo hi : nat) :
  (lo < hi)%nat → Z.of_nat hi ≤ 65536 →
  sat_add (Z.of_nat lo) (sat_sub (Z.of_nat hi) (Z.of_nat lo) / 2) = Z.of_nat (lo + (hi - lo) / 2) ∧
  (lo ≤ lo + (hi - lo) / 2 < hi)%nat.
Proof.
  intros Hlt Hhi. assert (Hd : ((hi - lo) / 2 < hi - lo)%nat) by (apply Nat.div_lt; lia). split; [|lia].
  rewrite sat_sub_ge by lia. replace (Z.of_nat hi - Z.of_nat lo) with (Z.of_nat (hi - lo)) by lia.
  change 2 with (Z.of_nat 2). rewrite <- Nat2Z.inj_div, sat_add_page; lia.
Qed.


Lemma sat_sub_nonneg a b : 0 ≤ sat_sub a b.
Proof. apply Z.le_max_r. Qed.
Lemma wrap64_ok z : u64_ok (wrap64 z).
Proof. unfold wrap64, u64_ok. by apply Z.mod_pos_bound. Qed.
Lemma wrap64_small z : u64_ok z → wrap64 z = z.
Proof. intros. unfold wrap64. apply Z.mod_small. mlia. Qed.
Lemma wrap32_small z : u32_ok z → wrap32 z = z.
Proof. intros. unfold wrap32. apply Z.mod_small. mlia. Qed.
Lemma wrap32_ok z : u32_ok (wrap32 z).
Proof. unfold wrap32, u32_ok. apply Z.mod_pos_bound. lia. Qed.

Lemma to_signed_unsigned w z :
  0 < w → - 2 ^ (w - 1) ≤ z < 2 ^ (w - 1) → to_signed w (z mod 2 ^ w) = z.
Proof.
  intros Hw Hz. unfold to_signed.
  assert (Hp : 2 ^ w = 2 * 2 ^ (w - 1)).
  { rewrite <- Z.pow_succ_r by lia. f_equal. lia. }
  assert (0 < 2 ^ (w - 1)) by (apply Z.pow_pos_nonneg; lia).
  rewrite Z.mod_mod by lia.
  destruct (decide (0 ≤ z)).
  - rewrite Z.mod_small by lia. case_decide; lia.
  - rewrite <- (Z.mod_unique z (2 ^ w) (-1) (z + 2 ^ w)) by lia.
    case_decide; lia.
Qed.

Lemma to_signed_range w z :
  0 < w → - 2 ^ (w - 1) ≤ to_signed w z < 2 ^ (w - 1).
Proof.
  intros Hw. unfold to_signed.
  assert (Hp : 2 ^ w = 2 * 2 ^ (w - 1)).
  { rewrite <- Z.pow_succ_r by lia. f_equal. lia. }
  assert (0 < 2 ^ (w - 1)) by (apply Z.pow_pos_nonneg; lia).
  pose proof (Z.mod_pos_bound z (2 ^ w)). case_decide; lia.
Qed.

Lemma as_i64_wrap z : i64_ok z → as_i64 (wrap64 z) = z.
Proof.
  intros. unfold as_i64, wrap64.
  change 18446744073709551616 with (2 ^ 64).
  apply to_signed_unsigned; [lia|]. change (2 ^ (64 - 1)) with 9223372036854775808. mlia.
Qed.

Lemma as_i64_ok z : i64_ok (as_i64 z).
Proof. unfold as_i64. pose proof (to_signed_range 64 z ltac:(lia)). mlia. Qed.

(** ** Lemmas on slices *)

Lemma get_range_Some buf a b bs :
  get_range buf a b = Some bs ↔
  0 ≤ a ≤ b ∧ b ≤ zlen buf ∧ bs = take (Z.to_nat (b - a)) (drop (Z.to_nat a) buf).
Proof. unfold get_range. case_decide; naive_solver. Qed.

Lemma get_range_None buf a b :
  get_range buf a b = None ↔ ¬ (0 ≤ a ∧ a ≤ b ∧ b ≤ zlen buf).
Proof. unfold get_range. case_decide; naive_solver. Qed.

Lemma get_range_length buf a b bs :
  get_range buf a b = Some bs → zlen bs = b - a.
Proof.
  intros (? & ? & ->)%get_range_Some. rewrite length_take, length_drop. lia.
Qed.

Lemma get_range_is_Some buf a b :
  0 ≤ a ≤ b → b ≤ zlen buf → ∃ bs, get_range buf a b = Some bs.
Proof. intros. unfold get_range. rewrite decide_True by lia. eauto. Qed.

Lemma get_range_lookup buf a b bs (i : nat) :
  get_range buf a b = Some bs → Z.of_nat i < b - a →
  bs !! i = buf !! (Z.to_nat a + i)%nat.
Proof.
  intros (? & ? & ->)%get_range_Some ?.
  rewrite lookup_take_lt by lia. by rewrite lookup_drop.
Qed.

Lemma get_range_app3 (p m s : bytes) a b :
  a = zlen p → b = zlen p + zlen m →
  get_range (p ++ m ++ s) a b = Some m.
Proof.
  intros -> ->. unfold get_range. rewrite decide_True by (rewrite !length_app; lia).
  f_equal. rewrite drop_app_length' by lia. rewrite take_app_length' by lia. done.
Qed.

Lemma get_range_full buf : get_range buf 0 (zlen buf) = Some buf.
Proof.
  unfold get_range. rewrite decide_True by lia. f_equal.
  rewrite take_ge; [done|]. rewrite length_drop. lia.
Qed.

Lemma get_from_app (p s : bytes) a : a = zlen p → get_from (p ++ s) a = Some s.
Proof.
  intros ->. unfold get_from, get_range. rewrite length_app, decide_True by lia. f_equal.
  rewrite drop_app_length' by lia. apply take_ge. lia.
Qed.

Lemma get_from_Some buf a bs :
  get_from buf a = Some bs ↔ 0 ≤ a ≤ zlen buf ∧ bs = drop (Z.to_nat a) buf.
Proof.
  unfold get_from. rewrite get_range_Some. split.
  - intros (? & ? & ->). split; [lia|]. apply take_ge. rewrite length_drop. lia.
  - intros (? & ->). split; [lia|]. split; [lia|].
    symmetry. apply take_ge. rewrite length_drop. lia.
Qed.

Lemma get_from_0 buf : get_from buf 0 = Some buf.
Proof. apply get_range_full. Qed.

Lemma get_byte_Some buf i b :
  get_byte buf i = Some b ↔ 0 ≤ i ∧ buf !! Z.to_nat i = Some b.
Proof.
  unfold get_byte. case_decide; [naive_solver|]. split; [done|].
  intros [? Hl%lookup_lt_Some]. lia.
Qed.

Lemma get_byte_None buf i : get_byte buf i = None ↔ ¬ (0 ≤ i < zlen buf).
Proof.
  unfold get_byte. case_decide; [|naive_solver]. split; [|done].
  intros Hn%lookup_ge_None. lia.
Qed.

Lemma get_byte_app_l (p s : bytes) i :
  i < zlen p → get_byte (p ++ s) i = get_byte p i.
Proof.
  intros. unfold get_byte. rewrite length_app.
  destruct (decide (0 ≤ i)).
  - rewrite !decide_True by lia. by rewrite lookup_app_l by lia.
  - rewrite !decide_False by lia. done.
Qed.

Lemma get_byte_app_r (p s : bytes) i :
  zlen p ≤ i → get_byte (p ++ s) i = get_byte s (i - zlen p).
Proof.
  intros. unfold get_byte. rewrite length_app.
  destruct (decide (i < zlen p + zlen s)).
  - rewrite !decide_True by lia. rewrite lookup_app_r by lia. f_equal. lia.
  - rewrite !decide_False by lia. done.
Qed.

Lemma put_range_Some buf off bs buf' :
  put_range buf off bs = Some buf' ↔
  0 ≤ off ∧ off + zlen bs ≤ zlen buf ∧
  buf' = take (Z.to_nat off) buf ++ bs ++ drop (Z.to_nat (off + zlen bs)) buf.
Proof. unfold put_range. case_decide; naive_solver. Qed.

Lemma put_range_is_Some buf off bs :
  0 ≤ off → off + zlen bs ≤ zlen buf → ∃ buf', put_range buf off bs = Some buf'.
Proof. intros. unfold put_range. rewrite decide_True by lia. eauto. Qed.

Lemma put_range_length buf off bs buf' :
  put_range buf off bs = Some buf' → length buf' = length buf.
Proof.
  intros (? & ? & ->)%put_range_Some.
  rewrite !length_app, length_take, length_drop. lia.
Qed.

Lemma put_range_lookup buf off bs buf' (i : nat) :
  put_range buf off bs = Some buf' →
  buf' !! i =
    if decide (off ≤ Z.of_nat i < off + zlen bs) then bs !! (i - Z.to_nat off)%nat
    else buf !! i.
Proof.
  intros (? & ? & ->)%put_range_Some.
  assert (Hlt : length (take (Z.to_nat off) buf) = Z.to_nat off) by (rewrite length_take; lia).
  case_decide as Hd.
  - rewrite lookup_app_r by lia. rewrite lookup_app_l by lia. f_equal. lia.
  - destruct (decide (Z.of_nat i < off)).
    + rewrite lookup_app_l by lia. apply lookup_take_lt. lia.
    + rewrite lookup_app_r by lia. rewrite lookup_app_r by lia.
      rewrite lookup_drop. f_equal. lia.
Qed.

Lemma get_put_same buf off bs buf' b :
  put_range buf off bs = Some buf' → b = off + zlen bs →
  get_range buf' off b = Some bs.
Proof.
  intros (? & ? & ->)%put_range_Some ->.
  apply get_range_app3; rewrite length_take; lia.
Qed.

Lemma get_put_disjoint buf off bs buf' a b :
  put_range buf off bs = Some buf' → b ≤ off ∨ off + zlen bs ≤ a →
  get_range buf' a b = get_range buf a b.
Proof.
  intros Hp Hd. pose proof (put_range_length _ _ _ _ Hp) as Hl.
  unfold get_range. rewrite Hl. case_decide as Hr; [|done]. f_equal.
  apply list_eq. intros i.
  destruct (decide (Z.of_nat i < b - a)).
  - rewrite !lookup_take_lt by lia. rewrite !lookup_drop.
    rewrite (put_range_lookup _ _ _ _ _ Hp). rewrite decide_False by lia. done.
  - rewrite !lookup_take_ge by lia. done.
Qed.

Lemma get_byte_put_disjoint buf off bs buf' i :
  put_range buf off bs = Some buf' → i < off ∨ off + zlen bs ≤ i →
  get_byte buf' i = get_byte buf i.
Proof.
  intros Hp Hd. unfold get_byte. rewrite (put_range_length _ _ _ _ Hp).
  case_decide; [|done]. rewrite (put_range_lookup _ _ _ _ _ Hp).
  rewrite decide_False by lia. done.
Qed.

Lemma length_zeros n : 0 ≤ n → zlen (zeros n) = n.
Proof. intros. unfold zeros. rewrite length_replicate. lia. Qed.

Lemma zeros_add a b : 0 ≤ a → 0 ≤ b → zeros (a + b) = zeros a ++ zeros b.
Proof. intros. unfold zeros. rewrite Z2Nat.inj_add by lia. apply replicate_add. Qed.

(** *** [bytes_ok] *)

Lemma bytes_ok_app l k : bytes_ok (l ++ k) ↔ bytes_ok l ∧ bytes_ok k.
Proof. apply Forall_app. Qed.
Lemma bytes_ok_take n l : bytes_ok l → bytes_ok (take n l).
Proof. apply Forall_take. Qed.
Lemma bytes_ok_drop n l : bytes_ok l → bytes_ok (drop n l).
Proof. apply Forall_drop. Qed.
Lemma bytes_ok_zeros n : bytes_ok (zeros n).
Proof. apply Forall_replicate. mlia. Qed.
Lemma bytes_ok_get_range buf a b bs :
  bytes_ok buf → get_range buf a b = Some bs → bytes_ok bs.
Proof. intros ? (? & ? & ->)%get_range_Some. by apply bytes_ok_take, bytes_ok_drop. Qed.
Lemma bytes_ok_get_from buf a bs :
  bytes_ok buf → get_from buf a = Some bs → bytes_ok bs.
Proof. apply bytes_ok_get_range. Qed.
Lemma bytes_ok_get_byte buf i b : bytes_ok buf → get_byte buf i = Some b → u8_ok b.
Proof. intros Hok [_ Hl]%get_byte_Some. by eapply Forall_lookup_1 in Hok. Qed.
Lemma bytes_ok_put_range buf off bs buf' :
  bytes_ok buf → bytes_ok bs → put_range buf off bs = Some buf' → bytes_ok buf'.
Proof.
  intros ? ? (? & ? & ->)%put_range_Some.
  apply bytes_ok_app; split; [by apply bytes_ok_take|].
  apply bytes_ok_app; split; [done|by apply bytes_ok_drop].
Qed.

#[export] Hint Resolve bytes_ok_take bytes_ok_drop bytes_ok_zeros bytes_ok_get_range
  bytes_ok_get_from bytes_ok_get_byte bytes_ok_put_range : dbs.

(** ** Lemmas on the codecs *)

Lemma be_bytes_length n v : length (be_bytes n v) = n.
Proof. induction n; simpl; congruence. Qed.

Lemma be_bytes_ok n v : bytes_ok (be_bytes n v).
Proof.
  induction n; simpl; constructor; [|done]. unfold u8_ok. apply Z.mod_pos_bound. lia.
Qed.

Lemma le_bytes_length n v : length (le_bytes n v) = n.
Proof. unfold le_bytes. by rewrite length_reverse, be_bytes_length. Qed.

Lemma le_bytes_ok n v : bytes_ok (le_bytes n v).
Proof. unfold le_bytes, bytes_ok. rewrite Forall_reverse. apply be_bytes_ok. Qed.

#[export] Hint Resolve be_bytes_ok le_bytes_ok : dbs.

Lemma be_val_app l b : be_val (l ++ [b]) = be_val l * 256 + b.
Proof. unfold be_val. by rewrite foldl_app. Qed.

Lemma be_val_acc l acc :
  foldl (λ acc b, acc * 256 + b) acc l = acc * 2 ^ (8 * zlen l) + be_val l.
Proof.
  revert acc. unfold be_val. induction l as [|b l IH]; intros acc; [simpl; lia|].
  cbn [foldl length]. rewrite (IH (acc * 256 + b)), (IH (0 * 256 + b)).
  replace (8 * Z.of_nat (S (length l))) with (8 + 8 * zlen l) by lia.
  rewrite Z.pow_add_r by lia. change (2 ^ 8) with 256. ring.
Qed.

Lemma be_val_cons b l : be_val (b :: l) = b * 2 ^ (8 * zlen l) + be_val l.
Proof.
  change (be_val (b :: l)) with (foldl (λ acc b, acc * 256 + b) (0 * 256 + b) l).
  rewrite be_val_acc. lia.
Qed.

Lemma pow_8_S n : 2 ^ (8 * Z.of_nat (S n)) = 256 * 2 ^ (8 * Z.of_nat n).
Proof.
  replace (8 * Z.of_nat (S n)) with (8 + 8 * Z.of_nat n) by lia.
  by rewrite Z.pow_add_r by lia.
Qed.

Lemma be_val_bound l : bytes_ok l → 0 ≤ be_val l < 2 ^ (8 * zlen l).
Proof.
  induction 1 as [|b l Hb Hl IH]; [done|].
  rewrite be_val_cons. cbn [length]. rewrite pow_8_S. unfold u8_ok in Hb. nia.
Qed.

Lemma be_val_be_bytes n v : be_val (be_bytes n v) = v mod 2 ^ (8 * Z.of_nat n).
Proof.
  induction n as [|n IH]; [simpl; by rewrite Z.mod_1_r|].
  cbn [be_bytes]. rewrite be_val_cons, be_bytes_length, IH, pow_8_S.
  assert (0 < 2 ^ (8 * Z.of_nat n)) by (apply Z.pow_pos_nonneg; lia).
  rewrite (Z.mul_comm 256), Z.rem_mul_r by lia. lia.
Qed.

Lemma be_bytes_mod n v : be_bytes n (v mod 2 ^ (8 * Z.of_nat n)) = be_bytes n v.
Proof.
  assert (H : ∀ m k, (m ≤ k)%nat → be_bytes m (v mod 2 ^ (8 * Z.of_nat k)) = be_bytes m v).
  { induction m as [|m IH]; intros k Hk; [done|]. cbn [be_bytes].
    rewrite IH by lia. f_equal.
    replace (8 * Z.of_nat k) with (8 * Z.of_nat m + 8 * Z.of_nat (k - m)) by lia.
    rewrite Z.pow_add_r by lia.
    assert (0 < 2 ^ (8 * Z.of_nat m)) by (apply Z.pow_pos_nonneg; lia).
    assert (0 < 2 ^ (8 * Z.of_nat (k - m))) by (apply Z.pow_pos_nonneg; lia).
    set (A := 2 ^ (8 * Z.of_nat m)) in *. rewrite Z.rem_mul_r by lia.
    rewrite (Z.mul_comm A), Z.div_add by lia.
    rewrite (Z.div_small (v mod A)) by (apply Z.mod_pos_bound; lia).
    rewrite Z.add_0_l.
    replace (k - m)%nat with (S (k - S m)) by lia. rewrite pow_8_S.
    rewrite Z.rem_mul_r by (try apply Z.pow_nonzero; lia).
    rewrite Z.mul_comm, Z.mod_add by lia. by rewrite Z.mod_mod by lia. }
  by apply H.
Qed.

Lemma be_bytes_be_val l n : bytes_ok l → n = length l → be_bytes n (be_val l) = l.
Proof.
  intros Hl ->. induction Hl as [|b l Hb Hl IH]; [done|].
  cbn [length be_bytes]. rewrite be_val_cons.
  pose proof (be_val_bound l Hl).
  rewrite Z.div_add_l by (apply Z.pow_nonzero; lia).
  rewrite (Z.div_small (be_val l)) by lia. rewrite Z.add_0_r, Z.mod_small by mlia.
  f_equal. rewrite <- (be_bytes_mod (length l)), Z.add_comm, Z.mod_add
    by (apply Z.pow_nonzero; lia).
  by rewrite be_bytes_mod.
Qed.

Lemma le_val_le_bytes n v : le_val (le_bytes n v) = v mod 2 ^ (8 * Z.of_nat n).
Proof. unfold le_val, le_bytes. by rewrite reverse_involutive, be_val_be_bytes. Qed.

Lemma le_val_bound l : bytes_ok l → 0 ≤ le_val l < 2 ^ (8 * zlen l).
Proof.
  intros. unfold le_val. rewrite <- (length_reverse l). apply be_val_bound.
  unfold bytes_ok. by rewrite Forall_reverse.
Qed.

Lemma read_be_app n (p s : bytes) v off :
  off = zlen p → off + Z.of_nat n ≤ USIZE_MAX → 0 ≤ v < 2 ^ (8 * Z.of_nat n) →
  read_be n (p ++ be_bytes n v ++ s) off = Some v.
Proof.
  intros -> ? ?. unfold read_be. rewrite sat_add_small by lia.
  rewrite (get_range_app3 p (be_bytes n v) s) by (rewrite ?be_bytes_length; lia).
  simpl. rewrite be_val_be_bytes, Z.mod_small by lia. done.
Qed.

Lemma read_be_Some n buf off v :
  read_be n buf off = Some v → off + Z.of_nat n ≤ USIZE_MAX →
  0 ≤ off ∧ off + Z.of_nat n ≤ zlen buf ∧
  v = be_val (take n (drop (Z.to_nat off) buf)).
Proof.
  unfold read_be. intros (bs & Hr & Hv)%fmap_Some ?.
  rewrite sat_add_small in Hr by lia.
  apply get_range_Some in Hr as (? & ? & ->). split_and!; [lia..|].
  subst. do 2 f_equal. lia.
Qed.

Lemma read_be_is_Some n buf off :
  0 ≤ off → off + Z.of_nat n ≤ zlen buf → zlen buf ≤ USIZE_MAX →
  ∃ v, read_be n buf off = Some v.
Proof.
  intros. unfold read_be. rewrite sat_add_small by lia.
  destruct (get_range_is_Some buf off (off + Z.of_nat n)) as [bs ->]; [lia..|]. eauto.
Qed.

Lemma read_be_bound n buf off v :
  bytes_ok buf → read_be n buf off = Some v → off + Z.of_nat n ≤ USIZE_MAX →
  0 ≤ v < 2 ^ (8 * Z.of_nat n).
Proof.
  intros Hok Hr Hu. apply read_be_Some in Hr as (? & ? & ->); [|done].
  assert (Hl : length (take n (drop (Z.to_nat off) buf)) = n)
    by (rewrite length_take, length_drop; lia).
  pose proof (be_val_bound (take n (drop (Z.to_nat off) buf))) as Hb.
  rewrite Hl in Hb. apply Hb. by apply bytes_ok_take, bytes_ok_drop.
Qed.

Lemma read_be_put_same n buf off v buf' :
  put_range buf off (be_bytes n v) = Some buf' → off + Z.of_nat n ≤ USIZE_MAX →
  0 ≤ v < 2 ^ (8 * Z.of_nat n) → read_be n buf' off = Some v.
Proof.
  intros Hp ? ?. unfold read_be. rewrite sat_add_small by lia.
  rewrite (get_put_same _ _ _ _ _ Hp) by (rewrite be_bytes_length; lia).
  simpl. by rewrite be_val_be_bytes, Z.mod_small by lia.
Qed.

Lemma read_be_put_disjoint n buf off bs buf' o :
  put_range buf off bs = Some buf' → 0 ≤ o → o + Z.of_nat n ≤ USIZE_MAX →
  o + Z.of_nat n ≤ off ∨ off + zlen bs ≤ o →
  read_be n buf' o = read_be n buf o.
Proof.
  intros. unfold read_be. rewrite sat_add_small by lia.
  by erewrite get_put_disjoint by (eauto || lia).
Qed.

(** ** Bit lemmas *)

(** A decidable fact of all bytes is checked by evaluation. *)
Lemma byte_cases (P : Z → bool) :
  forallb P (seqZ 0 256) = true → ∀ b, u8_ok b → P b = true.
Proof.
  intros H b Hb. rewrite forallb_forall in H. apply H.
  apply list_elem_of_In, elem_of_seqZ. mlia.
Qed.

Lemma land_7f z : Z.land z 0x7f = z mod 128.
Proof. change 0x7f with (Z.ones 7). by rewrite Z.land_ones by lia. Qed.

Lemma land_ff z : Z.land z 0xff = z mod 256.
Proof. change 0xff with (Z.ones 8). by rewrite Z.land_ones by lia. Qed.

Lemma land_80 b : u8_ok b → Z.land b 0x80 = 0 ↔ b < 128.
Proof.
  intros Hb.
  pose proof (byte_cases (λ b, Bool.eqb (Z.land b 0x80 =? 0) (b <? 128))
                ltac:(vm_compute; reflexivity) b Hb) as H.
  apply Bool.eqb_prop in H. rewrite <- Z.eqb_eq, H. apply Z.ltb_lt.
Qed.

Lemma lor_80 b : 0 ≤ b < 128 → Z.lor b 0x80 = 128 + b.
Proof.
  intros Hb.
  pose proof (byte_cases (λ b, (128 <=? b) || (Z.lor b 0x80 =? 128 + b))
                ltac:(vm_compute; reflexivity) b ltac:(mlia)) as H.
  apply orb_true_iff in H as [H|H]; lia.
Qed.

Lemma testbit_small k x n : 0 ≤ x < 2 ^ k → k ≤ n → Z.testbit x n = false.
Proof.
  intros Hx Hn. destruct (decide (x = 0)) as [->|]; [apply Z.bits_0|].
  destruct (decide (0 ≤ k)); [|rewrite Z.pow_neg_r in Hx; lia].
  apply Z.bits_above_log2; [lia|]. apply Z.log2_lt_pow2; [lia|].
  eapply Z.lt_le_trans; [apply Hx|]. apply Z.pow_le_mono_r; lia.
Qed.

Lemma lor_shiftl_add k a x :
  0 ≤ k → 0 ≤ x < 2 ^ k → Z.lor (Z.shiftl a k) x = a * 2 ^ k + x.
Proof.
  intros Hk Hx. rewrite <- Z.shiftl_mul_pow2 by lia.
  assert (Hd : Z.land (Z.shiftl a k) x = 0).
  { apply Z.bits_inj'. intros n Hn. rewrite Z.land_spec, Z.bits_0.
    destruct (decide (n < k)); [by rewrite Z.shiftl_spec_low by lia|].
    by rewrite (testbit_small k x n), andb_false_r by lia. }
  rewrite Z.add_nocarry_lxor by done. by rewrite <- Z.lxor_lor.
Qed.

Lemma get_range_ext (l k : bytes) a b :
  0 ≤ a → b ≤ zlen l → b ≤ zlen k →
  (∀ i : nat, a ≤ Z.of_nat i < b → l !! i = k !! i) →
  get_range l a b = get_range k a b.
Proof.
  intros Ha Hl Hk Heq. unfold get_range.
  destruct (decide (a ≤ b)); [|by rewrite !decide_False by lia].
  rewrite !decide_True by lia. f_equal. apply list_eq. intros i.
  destruct (decide (Z.of_nat i < b - a)).
  - rewrite !lookup_take_lt, !lookup_drop by lia. apply Heq. lia.
  - rewrite !lookup_take_ge by lia. done.
Qed.

Lemma get_range_app_l (p s : bytes) a b :
  b ≤ zlen p → get_range (p ++ s) a b = get_range p a b.
Proof.
  intros Hb. unfold get_range. rewrite length_app.
  destruct (decide (0 ≤ a ∧ a ≤ b)); [|by rewrite !decide_False by lia].
  rewrite !decide_True by lia. f_equal.
  rewrite drop_app_le by lia. rewrite take_app_le; [done|]. rewrite length_drop. lia.
Qed.

Lemma read_be_app_l n (p s : bytes) off :
  off + Z.of_nat n ≤ zlen p → off + Z.of_nat n ≤ USIZE_MAX →
  read_be n (p ++ s) off = read_be n p off.
Proof.
  intros. unfold read_be. rewrite sat_add_small by lia. by rewrite get_range_app_l by lia.
Qed.

Lemma nil_or_snoc {A} (l : list A) : l = [] ∨ ∃ l' x, l = l' ++ [x].
Proof. induction l as [|x l _] using rev_ind; [by left|right; eauto]. Qed.

Lemma filter_none {A} (P : A → Prop) `{!∀ x, Decision (P x)} (l : list A) :
  (∀ x, x ∈ l → ¬ P x) → filter P l = [].
Proof.
  induction l as [|x l IH]; intros Hl; [done|]. rewrite filter_cons_False by (apply Hl; left).
  apply IH. intros y Hy. apply Hl. by right.
Qed.

Lemma list_filter_all {A} (P : A → Prop) `{!∀ x, Decision (P x)} (l : list A) :
  (∀ x, x ∈ l → P x) → filter P l = l.
Proof.
  induction l as [|x l IH]; intros Hl; [done|]. rewrite filter_cons_True by (apply Hl; left).
  f_equal. apply IH. intros y Hy. apply Hl. by right.
Qed.

(** Equal ranges have equal sub-ranges. *)
Lemma get_range_sub_eq buf buf' a b x y :
  get_range buf' a b = get_range buf a b → a ≤ b → 0 ≤ a → b ≤ zlen buf → b ≤ zlen buf' → a ≤ x → y ≤ b →
  get_range buf' x y = get_range buf x y.
Proof.
  intros Heq Hab Ha Hb Hb' Hx Hy. apply get_range_ext; [lia..|]. intros i Hi.
  destruct (get_range_is_Some buf a b) as [bs Hbs]; [lia..|]. rewrite Hbs in Heq.
  assert (Hi' : i = (Z.to_nat a + (i - Z.to_nat a))%nat) by lia. rewrite Hi'.
  rewrite <- (get_range_lookup _ _ _ _ _ Heq), <- (get_range_lookup _ _ _ _ _ Hbs) by lia. done.
Qed.

(** [Vec::insert] within bounds. *)
Definition insert_at {A} (i : nat) (x : A) (l : list A) : list A := take i l ++ x :: drop i l.

Lemma insert_at_lookup {A} (i j : nat) (x : A) l : (i ≤ length l)%nat →
  insert_at i x l !! j =
    if decide (j < i)%nat then l !! j else if decide (j = i) then Some x else l !! (j - 1)%nat.
Proof.
  intros Hi. unfold insert_at. pose proof (length_take l i).
  case_decide; [by rewrite lookup_app_l, lookup_take_lt by lia|].
  rewrite lookup_app_r by lia. case_decide.
  - subst. by replace (i - length (take i l))%nat with O by lia.
  - rewrite lookup_cons_ne_0, lookup_drop by lia. f_equal. lia.
Qed.

Lemma length_insert_at {A} (i : nat) (x : A) l : length (insert_at i x l) = S (length l).
Proof. unfold insert_at. rewrite length_app. cbn. rewrite length_take, length_drop. lia. Qed.

Lemma insert_at_perm {A} (i : nat) (x : A) l : insert_at i x l ≡ₚ x :: l.
Proof. unfold insert_at. rewrite <- (take_drop i l) at 3. symmetry. apply Permutation_middle. Qed.

Lemma delete_perm {A} (i : nat) (x : A) l : l !! i = Some x → l ≡ₚ x :: delete i l.
Proof. intros Hx. rewrite delete_take_drop, Permutation_middle. by rewrite take_drop_middle. Qed.

(** ** Buffers that agree outside a range *)

Definition same_outside (buf buf' : bytes) (a b : Z) : Prop :=
  length buf' = length buf ∧ ∀ i : nat, ¬ (a ≤ Z.of_nat i < b) → buf' !! i = buf !! i.

Lemma so_refl buf a b : same_outside buf buf a b.
Proof. done. Qed.

Lemma so_put buf off bs buf' :
  put_range buf off bs = Some buf' → same_outside buf buf' off (off + zlen bs).
Proof.
  intros Hp. split; [by eapply put_range_length|]. intros i Hi.
  rewrite (put_range_lookup _ _ _ _ _ Hp). by rewrite decide_False by lia.
Qed.

Lemma so_trans b1 b2 b3 a b a' b' lo hi :
  same_outside b1 b2 a b → same_outside b2 b3 a' b' → lo ≤ a → lo ≤ a' → b ≤ hi → b' ≤ hi →
  same_outside b1 b3 lo hi.
Proof.
  intros [L1 H1] [L2 H2] ? ? ? ?. split; [congruence|]. intros i Hi.
  rewrite H2 by lia. apply H1. lia.
Qed.

Lemma so_weaken buf buf' a b lo hi :
  same_outside buf buf' a b → lo ≤ a → b ≤ hi → same_outside buf buf' lo hi.
Proof. intros [L H] ? ?. split; [done|]. intros. apply H. lia. Qed.

Lemma so_get_range buf buf' a b x y :
  same_outside buf buf' a b → y ≤ a ∨ b ≤ x → get_range buf' x y = get_range buf x y.
Proof.
  intros [L H] Hd. unfold get_range. rewrite L. case_decide; [|done]. f_equal. apply list_eq.
  intros i. destruct (decide (Z.of_nat i < y - x)).
  - rewrite !lookup_take_lt, !lookup_drop by lia. apply H. lia.
  - by rewrite !lookup_take_ge by lia.
Qed.

Lemma so_read_be n buf buf' a b x :
  same_outside buf buf' a b → x + Z.of_nat n ≤ 1048576 → x + Z.of_nat n ≤ a ∨ b ≤ x →
  read_be n buf' x = read_be n buf x.
Proof.
  intros Hs ? ?. unfold read_be. rewrite sat_add_small.
  - by rewrite (so_get_range _ _ _ _ _ _ Hs).
  - etrans; [done|]. done.
Qed.

Lemma so_get_byte buf buf' a b i :
  same_outside buf buf' a b → i < a ∨ b ≤ i → get_byte buf' i = get_byte buf i.
Proof. intros [L H] Hd. unfold get_byte. rewrite L. case_decide; [apply H; lia|done]. Qed.
