(* ===== verification/Varint.v ===== *)
(** * SQLite varints ([row/record/varint.rs], [row/record/encode.rs])

    [decode_varint], [write_varint_into], [encode_varint] and [varint_len],
    with the round trip, minimality, the uniqueness of the minimal form, the
    error on truncated input and the locality of decoding. *)

From S2P Require Import Prelude.

(** [RecordError] of [row/record/error.rs]. *)
Inductive RecordError : Type :=
| UnexpectedEof (offset : Z)
| HeaderTooShort (declared varint_len : Z)
| HeaderOverrun (offset header_len : Z)
| TrailingData (trailing : Z)
| InvalidUtf8
| InvalidUtf16.

#[global] Instance RecordError_eq_dec : EqDecision RecordError.
Proof. solve_decision. Defined.

(** The loop [for i in 0..8] of [decode_varint] with [fuel = 8 - i] rounds
    left, then the unconditional ninth byte. *)
Fixpoint decode_varint_loop (buf : bytes) (fuel : nat) (i result : Z)
  : Prelude.result RecordError (Z * Z) :=
  match fuel with
  | S fuel' =>
      let? byte := ok_or (get_byte buf i) (UnexpectedEof i) in
      let result := Z.lor (wrap64 (Z.shiftl result 7)) (Z.land byte 0x7f) in
      if decide (Z.land byte 0x80 = 0) then Ok (result, i + 1)
      else decode_varint_loop buf fuel' (i + 1) result
  | O =>
      let? byte := ok_or (get_byte buf 8) (UnexpectedEof 8) in
      Ok (Z.lor (wrap64 (Z.shiftl result 8)) byte, 9)
  end.

Definition decode_varint (buf : bytes) : result RecordError (Z * Z) :=
  decode_varint_loop buf 8 0 0.

(** [while groups < 8 && value >= (1u64 << (7 * groups)) { groups += 1 }]
    with [fuel = 8 - groups]. *)
Fixpoint varint_groups (fuel : nat) (value groups : Z) : Z :=
  match fuel with
  | O => groups
  | S fuel' =>
      if decide (2 ^ (7 * groups) ≤ value) then varint_groups fuel' value (groups + 1)
      else groups
  end.

Definition write_varint_into (value : Z) (out : bytes) : bytes :=
  if decide (value < 2 ^ 56) then
    let groups := varint_groups 7 value 1 in
    out ++ map (λ i,
      let shift := 7 * (groups - 1 - i) in
      let byte := wrap8 (Z.land (Z.shiftr value shift) 0x7f) in
      if decide (i ≠ groups - 1) then Z.lor byte 0x80 else byte) (seqZ 0 groups)
  else
    let top56 := Z.shiftr value 8 in
    out ++ map (λ i,
      let shift := 7 * (7 - i) in
      Z.lor (wrap8 (Z.land (Z.shiftr top56 shift) 0x7f)) 0x80) (seqZ 0 8)
    ++ [wrap8 (Z.land value 0xff)].

Definition encode_varint (value : Z) : bytes := write_varint_into value [].

Definition varint_len (value : Z) : Z :=
  if decide (value < 2 ^ 56) then varint_groups 7 value 1 else 9.

Example decode_varint_ex : decode_varint [0x81; 0x80; 0x00; 7] = Ok (16384, 3).
Proof. reflexivity. Qed.
Example encode_varint_ex : encode_varint U64_MAX = replicate 9 255.
Proof. reflexivity. Qed.

(** ** Group count *)

Lemma varint_groups_spec fuel v g :
  1 ≤ g → g + Z.of_nat fuel = 8 → v < 2 ^ 56 → (g = 1 ∨ 2 ^ (7 * (g - 1)) ≤ v) →
  let r := varint_groups fuel v g in
  g ≤ r ≤ 8 ∧ v < 2 ^ (7 * r) ∧ (r = 1 ∨ 2 ^ (7 * (r - 1)) ≤ v).
Proof.
  revert g. induction fuel as [|fuel IH]; intros g Hg Hf Hv Hlo; cbn.
  - replace g with 8 in * by lia. split_and!; [lia..|done].
  - case_decide as Hd.
    + destruct (IH (g + 1)) as (? & ? & ?); [lia..| |split_and!; [lia..|done]].
      right. by replace (g + 1 - 1) with g by lia.
    + split_and!; [lia..|done].
Qed.

Lemma varint_len_spec v :
  let g := varint_len v in
  (g = 9 ∧ 2 ^ 56 ≤ v) ∨
  (1 ≤ g ≤ 8 ∧ v < 2 ^ (7 * g) ∧ (g = 1 ∨ 2 ^ (7 * (g - 1)) ≤ v)).
Proof.
  cbn. unfold varint_len. case_decide; [right|left; lia].
  apply (varint_groups_spec 7 v 1); try lia.
Qed.

Lemma varint_len_bounds v : 1 ≤ varint_len v ≤ 9.
Proof. destruct (varint_len_spec v) as [[-> _]|[? _]]; lia. Qed.

Lemma varint_len_le v n : 1 ≤ n ≤ 8 → v < 2 ^ (7 * n) → varint_len v ≤ n.
Proof.
  intros Hn Hv. destruct (varint_len_spec v) as [[-> Hg]|(? & _ & [->|Hg])]; [|lia|].
  - assert (2 ^ (7 * n) ≤ 2 ^ 56) by (apply Z.pow_le_mono_r; lia). lia.
  - destruct (decide (varint_len v ≤ n)); [done|].
    assert (2 ^ (7 * n) ≤ 2 ^ (7 * (varint_len v - 1))) by (apply Z.pow_le_mono_r; lia). lia.
Qed.

Lemma varint_len_mono u v : u ≤ v → varint_len u ≤ varint_len v.
Proof.
  intros Huv. destruct (varint_len_spec v) as [[Hv _]|(? & ? & _)].
  - pose proof (varint_len_bounds u). lia.
  - apply varint_len_le; lia.
Qed.

(** ** The bytes written *)

Lemma write_varint_into_app v out : write_varint_into v out = out ++ encode_varint v.
Proof. unfold encode_varint, write_varint_into. case_decide; done. Qed.

Lemma encode_varint_length v : zlen (encode_varint v) = varint_len v.
Proof.
  pose proof (varint_len_bounds v) as Hb.
  unfold encode_varint, write_varint_into, varint_len in *. case_decide; cbn [app].
  - rewrite length_map, length_seqZ. lia.
  - done.
Qed.

(** Byte [i] of a run of [m] continuation groups of [w]. *)
Definition cont_byte (w m i : Z) : Z := 128 + (w / 2 ^ (7 * (m - 1 - i))) mod 128.

Lemma div_128_pow v k : 0 ≤ k → v / 128 / 2 ^ k = v / 2 ^ (k + 7).
Proof.
  intros. rewrite Z.div_div by (try apply Z.pow_pos_nonneg; lia).
  rewrite Z.pow_add_r by lia. f_equal. lia.
Qed.

(** The two forms of [write_varint_into], byte by byte. *)
Lemma encode_varint_short v :
  v < 2 ^ 56 →
  encode_varint v = map (λ i,
    if decide (i ≠ varint_len v - 1) then cont_byte (v / 128) (varint_len v - 1) i
    else v mod 128) (seqZ 0 (varint_len v)).
Proof.
  intros Hv. unfold encode_varint, write_varint_into, varint_len.
  rewrite !(decide_True _ _ Hv). cbn [app]. set (g := varint_groups 7 v 1).
  apply list_fmap_ext. intros j i [-> Hj]%lookup_seqZ.
  rewrite land_7f. unfold wrap8.
  rewrite (Z.mod_small (_ mod 128) 256) by mlia_div. case_decide as Hd.
  - rewrite lor_80 by (apply Z.mod_pos_bound; lia). unfold cont_byte.
    rewrite Z.shiftr_div_pow2, div_128_pow by lia. do 4 f_equal. lia.
  - replace (g - 1 - (0 + Z.of_nat j)) with 0 by lia. by rewrite Z.shiftr_0_r.
Qed.

Lemma encode_varint_long v :
  2 ^ 56 ≤ v →
  encode_varint v = map (cont_byte (v / 256) 8) (seqZ 0 8) ++ [v mod 256].
Proof.
  intros Hv. unfold encode_varint, write_varint_into.
  rewrite decide_False by lia. cbn [app]. rewrite land_ff. unfold wrap8.
  rewrite Z.mod_mod by lia. f_equal.
  apply list_fmap_ext. intros j i [-> Hj]%lookup_seqZ.
  rewrite land_7f, (Z.mod_small (_ mod 128) 256) by mlia_div.
  rewrite lor_80 by (apply Z.mod_pos_bound; lia). unfold cont_byte.
  rewrite !Z.shiftr_div_pow2 by lia. do 4 f_equal; lia.
Qed.

Lemma get_byte_map_seqZ (f : Z → Z) n i s :
  0 ≤ i < n → get_byte (map f (seqZ 0 n) ++ s) i = Some (f i).
Proof.
  intros Hi. rewrite get_byte_app_l by (rewrite length_map, length_seqZ; lia).
  apply get_byte_Some. split; [lia|]. rewrite list_lookup_fmap, lookup_seqZ_lt by lia.
  simpl. do 2 f_equal. lia.
Qed.

(** ** Decoding *)

Lemma cont_byte_ok w m i : u8_ok (cont_byte w m i) ∧ Z.land (cont_byte w m i) 0x80 ≠ 0.
Proof.
  pose proof (Z.mod_pos_bound (w / 2 ^ (7 * (m - 1 - i))) 128 ltac:(lia)).
  assert (u8_ok (cont_byte w m i)) by (unfold cont_byte; mlia).
  split; [done|]. rewrite land_80 by done. unfold cont_byte. lia.
Qed.

Lemma decode_step_value w n :
  0 ≤ n < 8 → 0 ≤ w < 2 ^ 56 →
  Z.lor (wrap64 (Z.shiftl (w / 2 ^ (7 * (n + 1))) 7))
        (Z.land (128 + (w / 2 ^ (7 * n)) mod 128) 0x7f) = w / 2 ^ (7 * n).
Proof.
  intros Hn Hw. rewrite land_7f, Z.add_mod, Z.mod_same, Z.add_0_l, !Z.mod_mod by lia.
  assert (0 < 2 ^ (7 * n)) by (apply Z.pow_pos_nonneg; lia).
  assert (Hq : w / 2 ^ (7 * (n + 1)) = w / 2 ^ (7 * n) / 128).
  { rewrite Z.div_div, (Z.mul_comm _ 128) by lia. change 128 with (2 ^ 7).
    rewrite <- Z.pow_add_r by lia. do 2 f_equal. lia. }
  rewrite Hq. set (q := w / 2 ^ (7 * n)).
  assert (0 ≤ q ≤ w).
  { unfold q. split; [apply Z.div_pos; lia|]. apply Z.div_le_upper_bound; nia. }
  rewrite wrap64_small.
  2:{ rewrite Z.shiftl_mul_pow2 by lia. change (2 ^ 7) with 128. mlia_div. }
  rewrite lor_shiftl_add by (try apply Z.mod_pos_bound; lia).
  change (2 ^ 7) with 128. pose proof (Z.div_mod q 128). lia.
Qed.

(** Reading a run of continuation bytes leaves the loop at its end with the
    run's value. *)
Lemma decode_loop_cont buf m w :
  0 ≤ m ≤ 8 → 0 ≤ w < 2 ^ (7 * m) →
  (∀ i, 0 ≤ i < m → get_byte buf i = Some (cont_byte w m i)) →
  decode_varint buf = decode_varint_loop buf (Z.to_nat (8 - m)) m w.
Proof.
  intros Hm Hw Hb.
  assert (Hw' : 0 ≤ w < 2 ^ 56).
  { split; [lia|]. eapply Z.lt_le_trans; [apply Hw|]. apply Z.pow_le_mono_r; lia. }
  cut (∀ k : nat, Z.of_nat k ≤ m →
    decode_varint buf =
    decode_varint_loop buf (Z.to_nat (8 - Z.of_nat k)) (Z.of_nat k)
      (w / 2 ^ (7 * (m - Z.of_nat k)))).
  { intros Hk. rewrite (Hk (Z.to_nat m)) by lia. rewrite !Z2Nat.id by lia.
    rewrite Z.sub_diag, Z.mul_0_r, Z.pow_0_r, Z.div_1_r. done. }
  induction k as [|k IH]; intros Hk.
  - rewrite Z.sub_0_r, Z.div_small by (rewrite Z.sub_0_r; lia). done.
  - rewrite IH by lia.
    replace (Z.to_nat (8 - Z.of_nat k)) with (S (Z.to_nat (8 - Z.of_nat (S k)))) by lia.
    cbn [decode_varint_loop]. rewrite Hb by lia. cbn [ok_or].
    destruct (cont_byte_ok w m (Z.of_nat k)) as [_ Hc].
    rewrite decide_False by done.
    replace (Z.of_nat (S k)) with (Z.of_nat k + 1) by lia. f_equal.
    unfold cont_byte.
    replace (m - Z.of_nat k) with (m - 1 - Z.of_nat k + 1) by lia.
    rewrite decode_step_value by lia. do 3 f_equal. lia.
Qed.

(** Round trip: every [u64] survives encoding and decoding, whatever bytes
    follow it. *)
Lemma decode_encode_varint v s :
  u64_ok v → decode_varint (encode_varint v ++ s) = Ok (v, varint_len v).
Proof.
  intros Hv. destruct (varint_len_spec v) as [[Hg Hlo]|(Hg & Hhi & _)].
  - rewrite encode_varint_long by lia.
    rewrite (decode_loop_cont _ 8 (v / 256)).
    + change (Z.to_nat (8 - 8)) with O. cbn [decode_varint_loop]. rewrite <- app_assoc.
      rewrite get_byte_app_r by done.
      change (get_byte _ _) with (Some (v mod 256)). cbn [ok_or].
      f_equal. rewrite Hg. f_equal.
      rewrite wrap64_small by (rewrite Z.shiftl_mul_pow2 by lia; mlia_div).
      rewrite lor_shiftl_add by (try apply Z.mod_pos_bound; lia).
      change (2 ^ 8) with 256. pose proof (Z.div_mod v 256). lia.
    + lia.
    + change (2 ^ (7 * 8)) with (2 ^ 56). change (2 ^ 56) with 72057594037927936. mlia_div.
    + intros i Hi. rewrite <- app_assoc. by apply (get_byte_map_seqZ (cont_byte (v / 256) 8)).
  - assert (Hv56 : v < 2 ^ 56).
    { eapply Z.lt_le_trans; [apply Hhi|]. apply Z.pow_le_mono_r; lia. }
    rewrite encode_varint_short by done.
    rewrite (decode_loop_cont _ (varint_len v - 1) (v / 128)).
    + replace (Z.to_nat (8 - (varint_len v - 1)))
        with (S (Z.to_nat (8 - varint_len v))) by lia.
      cbn [decode_varint_loop]. rewrite get_byte_map_seqZ by lia. cbn [ok_or].
      rewrite (decide_False (P := varint_len v - 1 ≠ varint_len v - 1)) by lia.
      rewrite decide_True.
      2:{ apply land_80; [|]; mlia_div. }
      f_equal. f_equal; [|lia].
      rewrite wrap64_small.
      2:{ rewrite Z.shiftl_mul_pow2 by lia. change (2 ^ 7) with 128.
          change (2 ^ 56) with 72057594037927936 in *. mlia_div. }
      rewrite land_7f, Z.mod_mod by lia.
      rewrite lor_shiftl_add by (try apply Z.mod_pos_bound; lia).
      change (2 ^ 7) with 128. pose proof (Z.div_mod v 128). lia.
    + lia.
    + split; [mlia_div|]. apply Z.div_lt_upper_bound; [lia|].
      change 128 with (2 ^ 7). rewrite <- Z.pow_add_r by lia.
      eapply Z.lt_le_trans; [apply Hhi|]. apply Z.pow_le_mono_r; lia.
    + intros i Hi. rewrite get_byte_map_seqZ by lia. by rewrite decide_True by lia.
Qed.

(** ** What a successful decoding says *)

(** One round of the loop on an accumulator of [i] groups. *)
Lemma decode_acc_step i r b :
  0 ≤ i < 8 → 0 ≤ r < 2 ^ (7 * i) → u8_ok b →
  Z.lor (wrap64 (Z.shiftl r 7)) (Z.land b 0x7f) = r * 128 + b mod 128 ∧
  0 ≤ r * 128 + b mod 128 < 2 ^ (7 * (i + 1)).
Proof.
  intros Hi Hr Hb. pose proof (Z.mod_pos_bound b 128 ltac:(lia)).
  assert (Hp : 2 ^ (7 * (i + 1)) = 2 ^ (7 * i) * 128).
  { change 128 with (2 ^ 7). rewrite <- Z.pow_add_r by lia. f_equal. lia. }
  assert (2 ^ (7 * i) ≤ 2 ^ 49) by (apply Z.pow_le_mono_r; lia).
  change (2 ^ 49) with 562949953421312 in *.
  rewrite wrap64_small.
  2:{ rewrite Z.shiftl_mul_pow2 by lia. change (2 ^ 7) with 128. mlia. }
  rewrite land_7f, lor_shiftl_add by (change (2 ^ 7) with 128; lia).
  change (2 ^ 7) with 128. split; [done|]. lia.
Qed.

Lemma decode_acc_last r b :
  0 ≤ r < 2 ^ 56 → u8_ok b →
  Z.lor (wrap64 (Z.shiftl r 8)) b = r * 256 + b ∧ u64_ok (r * 256 + b).
Proof.
  intros Hr Hb. change (2 ^ 56) with 72057594037927936 in Hr.
  rewrite wrap64_small.
  2:{ rewrite Z.shiftl_mul_pow2 by lia. change (2 ^ 8) with 256. mlia. }
  rewrite lor_shiftl_add by (change (2 ^ 8) with 256; mlia).
  change (2 ^ 8) with 256. split; [done|]. mlia.
Qed.

Lemma decode_loop_Ok buf fuel i r v n :
  bytes_ok buf → i + Z.of_nat fuel = 8 → 0 ≤ i → 0 ≤ r < 2 ^ (7 * i) →
  decode_varint_loop buf fuel i r = Ok (v, n) →
  i < n ≤ 9 ∧ n ≤ zlen buf ∧ u64_ok v ∧ (n ≤ 8 → v < 2 ^ (7 * n)) ∧
  ∀ s, decode_varint_loop (take (Z.to_nat n) buf ++ s) fuel i r = Ok (v, n).
Proof.
  intros Hok. revert i r. induction fuel as [|fuel IH]; intros i r Hi Hi0 Hr; cbn.
  - replace i with 8 in * by lia. destruct (get_byte buf 8) as [b|] eqn:Hb; [|done].
    intros [= <- <-].
    destruct (decode_acc_last r b) as [-> Hv]; [done|by eapply bytes_ok_get_byte|].
    pose proof Hb as [_ Hl%lookup_lt_Some]%get_byte_Some.
    split_and!; try (done || lia). intros s.
    rewrite get_byte_app_l by (rewrite length_take; lia).
    assert (Hb' : get_byte (take (Z.to_nat 9) buf) 8 = Some b).
    { apply get_byte_Some in Hb as [_ Hb]. apply get_byte_Some. split; [lia|].
      rewrite lookup_take_lt by lia. done. }
    rewrite Hb'. cbn.
    destruct (decode_acc_last r b) as [-> _]; [done|by eapply bytes_ok_get_byte|done].
  - destruct (get_byte buf i) as [b|] eqn:Hb; [|done]. cbn [ok_or].
    pose proof (bytes_ok_get_byte _ _ _ Hok Hb) as Hbk.
    pose proof Hb as [_ Hl%lookup_lt_Some]%get_byte_Some.
    destruct (decode_acc_step i r b) as [Heq Hbd]; [lia|done|done|]. rewrite Heq.
    assert (Hpre : ∀ k s, i < k → get_byte (take (Z.to_nat k) buf ++ s) i = Some b).
    { intros k s Hk. rewrite get_byte_app_l by (rewrite length_take; lia).
      apply get_byte_Some in Hb as [_ Hb]. apply get_byte_Some. split; [lia|].
      rewrite lookup_take_lt by lia. done. }
    case_decide as Hd.
    + intros [= <- <-]. split_and!; try lia.
      * assert (2 ^ (7 * (i + 1)) ≤ 2 ^ 56) by (apply Z.pow_le_mono_r; lia).
        change (2 ^ 56) with 72057594037927936 in *. mlia.
      * intros s. rewrite Hpre by lia. cbn. by rewrite Heq, decide_True by done.
    + intros Hrec. destruct (IH (i + 1) (r * 128 + b mod 128)) as (? & ? & ? & ? & Hs);
        try (done || lia).
      split_and!; try (done || lia). intros s.
      rewrite Hpre by lia. cbn. rewrite Heq, decide_False by done. apply Hs.
Qed.

Lemma decode_varint_Ok buf v n :
  bytes_ok buf → decode_varint buf = Ok (v, n) →
  1 ≤ n ≤ 9 ∧ n ≤ zlen buf ∧ u64_ok v ∧ varint_len v ≤ n ∧
  ∀ s, decode_varint (take (Z.to_nat n) buf ++ s) = Ok (v, n).
Proof.
  intros Hok Hd. destruct (decode_loop_Ok buf 8 0 0 v n) as (? & ? & ? & Hv & ?);
    try (done || lia).
  split_and!; try (done || lia).
  destruct (decide (n ≤ 8)).
  - apply varint_len_le; [lia|]. by apply Hv.
  - pose proof (varint_len_bounds v). lia.
Qed.

(** Truncated input: the only error, exactly when the buffer ends inside
    the varint. *)
Lemma decode_loop_Err buf fuel i r e :
  bytes_ok buf → i + Z.of_nat fuel = 8 → 0 ≤ i →
  decode_varint_loop buf fuel i r = Err e ↔
  ∃ j, i ≤ j ≤ 8 ∧ e = UnexpectedEof j ∧ zlen buf ≤ j ∧
       ∀ k, i ≤ k < j → ∃ b, get_byte buf k = Some b ∧ 128 ≤ b.
Proof.
  intros Hok. revert i r. induction fuel as [|fuel IH]; intros i r Hi Hi0; cbn.
  - replace i with 8 in * by lia. destruct (get_byte buf 8) as [b|] eqn:Hb; cbn.
    + split; [done|]. intros (j & ? & _ & ? & _).
      apply get_byte_Some in Hb as [_ Hl%lookup_lt_Some]. lia.
    + apply get_byte_None in Hb. split.
      * intros [= <-]. exists 8. split_and!; try (done || lia).
      * intros (j & ? & -> & _). by replace j with 8 by lia.
  - destruct (get_byte buf i) as [b|] eqn:Hb; cbn.
    + pose proof (bytes_ok_get_byte _ _ _ Hok Hb) as Hbk.
      assert (Hl : i < zlen buf).
      { apply get_byte_Some in Hb as [_ Hl%lookup_lt_Some]. lia. }
      pose proof (land_80 b Hbk) as H80. case_decide as Hd.
      * split; [done|]. intros (j & Hj & _ & Hjl & Hall).
        destruct (Hall i) as (b' & Hb' & ?); [lia|]. simplify_eq. apply H80 in Hd. lia.
      * rewrite IH by lia. split.
        -- intros (j & ? & -> & ? & Hall). exists j. split_and!; [lia..|done|lia|].
           intros k Hk. destruct (decide (k = i)) as [->|]; [|apply Hall; lia].
           exists b. split; [done|]. destruct (decide (b < 128)); [|lia]. tauto.
        -- intros (j & ? & -> & ? & Hall). exists j. split_and!; [lia..|done|lia|].
           intros k Hk. apply Hall. lia.
    + apply get_byte_None in Hb. split.
      * intros [= <-]. exists i. split_and!; [lia..|done|lia|intros; lia].
      * intros (j & Hj & -> & Hl & Hall). destruct (decide (j = i)) as [->|]; [done|].
        destruct (Hall i) as (b & Hb' & _); [lia|].
        assert (¬ (0 ≤ i < zlen buf)) as Hn by done.
        apply get_byte_None in Hn. congruence.
Qed.

Lemma decode_varint_Err buf e :
  bytes_ok buf →
  decode_varint buf = Err e ↔
  e = UnexpectedEof (zlen buf) ∧ zlen buf ≤ 8 ∧ Forall (λ b, 128 ≤ b) buf.
Proof.
  intros Hok. unfold decode_varint. rewrite decode_loop_Err by (done || lia). split.
  - intros (j & Hj & -> & Hl & Hall).
    assert (Hlj : zlen buf = j).
    { destruct (decide (zlen buf < j)); [|lia].
      destruct (Hall (zlen buf)) as (b & [_ Hb%lookup_lt_Some]%get_byte_Some & _); lia. }
    subst j. split_and!; [done|lia|]. apply Forall_lookup. intros k b Hk.
    destruct (Hall (Z.of_nat k)) as (b' & [_ Hb']%get_byte_Some & ?).
    { apply lookup_lt_Some in Hk. lia. }
    rewrite Nat2Z.id in Hb'. by simplify_eq.
  - intros (-> & Hl & Hall). exists (zlen buf). split_and!; [lia..|done|lia|].
    intros k Hk. destruct (lookup_lt_is_Some_2 buf (Z.to_nat k)) as [b Hb]; [lia|].
    exists b. split.
    + apply get_byte_Some. split; [lia|done].
    + by eapply (Forall_lookup_1 (λ b, 128 ≤ b)) in Hall.
Qed.

(** ** Uniqueness of the minimal encoding *)

Lemma decode_loop_inj buf1 buf2 fuel i r1 r2 v n :
  bytes_ok buf1 → bytes_ok buf2 → i + Z.of_nat fuel = 8 → 0 ≤ i →
  0 ≤ r1 < 2 ^ (7 * i) → 0 ≤ r2 < 2 ^ (7 * i) →
  decode_varint_loop buf1 fuel i r1 = Ok (v, n) →
  decode_varint_loop buf2 fuel i r2 = Ok (v, n) →
  r1 = r2 ∧ ∀ k, i ≤ k < n → get_byte buf1 k = get_byte buf2 k.
Proof.
  intros Hok1 Hok2. revert i r1 r2.
  induction fuel as [|fuel IH]; intros i r1 r2 Hi Hi0 Hr1 Hr2; cbn.
  - replace i with 8 in * by lia.
    destruct (get_byte buf1 8) as [b1|] eqn:Hb1; [|done].
    destruct (get_byte buf2 8) as [b2|] eqn:Hb2; [|done]. cbn.
    pose proof (bytes_ok_get_byte _ _ _ Hok1 Hb1).
    pose proof (bytes_ok_get_byte _ _ _ Hok2 Hb2).
    destruct (decode_acc_last r1 b1) as [-> _]; [done..|].
    destruct (decode_acc_last r2 b2) as [-> _]; [done..|].
    intros [= Hv1 <-] [= Hv2]. assert (r1 = r2 ∧ b1 = b2) as [-> ->] by mlia.
    split; [done|]. intros k Hk. replace k with 8 by lia. congruence.
  - destruct (get_byte buf1 i) as [b1|] eqn:Hb1; [|done].
    destruct (get_byte buf2 i) as [b2|] eqn:Hb2; [|done]. cbn.
    pose proof (bytes_ok_get_byte _ _ _ Hok1 Hb1) as Hk1.
    pose proof (bytes_ok_get_byte _ _ _ Hok2 Hb2) as Hk2.
    destruct (decode_acc_step i r1 b1) as [-> Hn1]; [lia|done|done|].
    destruct (decode_acc_step i r2 b2) as [-> Hn2]; [lia|done|done|].
    pose proof (land_80 b1 Hk1) as H1. pose proof (land_80 b2 Hk2) as H2.
    assert (Hcons : ∀ a b : Z, r1 * 128 + b1 mod 128 = r2 * 128 + b2 mod 128 →
      r1 = r2 ∧ b1 mod 128 = b2 mod 128) by (intros; mlia_div).
    assert (Hhi : ∀ b, u8_ok b → ¬ b < 128 → b = 128 + b mod 128) by (intros; mlia_div).
    case_decide as Hd1; case_decide as Hd2.
    + intros [= Hv1 <-] [= Hv2]. destruct (Hcons 0 0) as [-> Hb]; [congruence|].
      apply H1 in Hd1. apply H2 in Hd2. rewrite !Z.mod_small in Hb by mlia.
      split; [done|]. intros k Hk. replace k with i by lia. congruence.
    + intros [= _ <-] Hrec.
      destruct (decode_loop_Ok _ fuel (i + 1) _ _ _ Hok2 ltac:(lia) ltac:(lia) Hn2 Hrec); lia.
    + intros Hrec [= _ <-].
      destruct (decode_loop_Ok _ fuel (i + 1) _ _ _ Hok1 ltac:(lia) ltac:(lia) Hn1 Hrec); lia.
    + intros Hrec1 Hrec2.
      destruct (IH (i + 1) _ _ ltac:(lia) ltac:(lia) Hn1 Hn2 Hrec1 Hrec2) as [Heq Hall].
      destruct (Hcons 0 0) as [-> Hb]; [done|]. split; [done|].
      intros k Hk. destruct (decide (k = i)) as [->|]; [|apply Hall; lia].
      rewrite Hb1, Hb2. f_equal.
      pose proof (Hhi b1 Hk1 ltac:(tauto)). pose proof (Hhi b2 Hk2 ltac:(tauto)). lia.
Qed.

Lemma encode_varint_ok v : bytes_ok (encode_varint v).
Proof.
  destruct (decide (v < 2 ^ 56)).
  - rewrite encode_varint_short by done. apply Forall_fmap, Forall_forall. intros i _.
    cbn. case_decide; [apply cont_byte_ok|mlia_div].
  - rewrite encode_varint_long by lia. apply bytes_ok_app. split.
    + apply Forall_fmap, Forall_forall. intros i _. apply cont_byte_ok.
    + repeat constructor; mlia_div.
Qed.
#[export] Hint Resolve encode_varint_ok : dbs.

Lemma decode_varint_minimal_unique buf v :
  bytes_ok buf → decode_varint buf = Ok (v, varint_len v) →
  take (Z.to_nat (varint_len v)) buf = encode_varint v.
Proof.
  intros Hok Hd. pose proof (decode_varint_Ok _ _ _ Hok Hd) as (Hn & Hl & Hv & _ & _).
  pose proof (decode_encode_varint v [] Hv) as He. rewrite app_nil_r in He.
  destruct (decode_loop_inj buf (encode_varint v) 8 0 0 0 v (varint_len v))
    as [_ Hall]; try (done || lia || apply encode_varint_ok).
  pose proof (encode_varint_length v). apply list_eq. intros k.
  destruct (decide (Z.of_nat k < varint_len v)).
  - specialize (Hall (Z.of_nat k) ltac:(lia)). unfold get_byte in Hall.
    rewrite !decide_True, Nat2Z.id in Hall by lia. by rewrite lookup_take_lt by lia.
  - rewrite lookup_take_ge by lia. symmetry. apply lookup_ge_None. lia.
Qed.

#[global] Arguments decode_varint : simpl never.
#[global] Arguments encode_varint : simpl never.
#[global] Arguments write_varint_into : simpl never.
#[global] Arguments varint_len : simpl never.

(** ** Properties *)

(** Every [u64] survives [encode_varint] and [decode_varint]: decoding
    an encoding, whatever bytes follow it, returns the value and consumes
    exactly the bytes written, and their number is what [varint_len]
    predicts. *)
Theorem varint_roundtrip (v : Z) (s : bytes) (Hv : u64_ok v) :
  decode_varint (encode_varint v ++ s) = Ok (v, zlen (encode_varint v)) ∧
  zlen (encode_varint v) = varint_len v.
Proof. rewrite encode_varint_length. split; [by apply decode_encode_varint|done]. Qed.
(** A successful [decode_varint] consumes between one and nine bytes,
    all inside the buffer, returns a [u64], never less than the minimal
    number of bytes of that value, and depends only on the bytes consumed.
    When the form read is minimal it is the one [encode_varint] writes. *)
Theorem varint_decode_sound (buf : bytes) (v n : Z)
    (Hok : bytes_ok buf) (Hd : decode_varint buf = Ok (v, n)) :
  1 ≤ n ≤ 9 ∧ n ≤ zlen buf ∧ u64_ok v ∧ varint_len v ≤ n ∧
  (∀ s, decode_varint (take (Z.to_nat n) buf ++ s) = Ok (v, n)) ∧
  (n = varint_len v → take (Z.to_nat n) buf = encode_varint v).
Proof.
  destruct (decode_varint_Ok _ _ _ Hok Hd) as (? & ? & ? & ? & ?).
  split_and!; try (done || lia). intros ->. by apply decode_varint_minimal_unique.
Qed.

(** [decode_varint] fails exactly on a buffer that ends inside the
    varint (at most eight bytes, all with the continuation bit), and then
    with [UnexpectedEof] at the buffer's end; it never fails otherwise. *)
Theorem varint_truncated (buf : bytes) (e : RecordError) (Hok : bytes_ok buf) :
  decode_varint buf = Err e ↔
  e = UnexpectedEof (zlen buf) ∧ zlen buf ≤ 8 ∧ Forall (λ b, 128 ≤ b) buf.
Proof. by apply decode_varint_Err. Qed.
