(* ===== verification/Text.v ===== *)
(** * Text: [str], UTF-8 and UTF-16 as the record codec uses them

    A Rust [str] is the list of its Unicode scalar values.  The file models
    what [row/record/encode.rs] and [row/record/decode.rs] use of the
    standard library ([str::len], [as_bytes], [encode_utf16], [from_utf8],
    [char::decode_utf16]) and the four functions of the source on top:
    [encoded_text_len], [write_text_body_into], [decode_text],
    [decode_utf16]. *)

From S2P Require Import Prelude Varint.

(** [TextEncoding]; its three variants are those of the header parser and
    of the record codec. *)
Inductive TextEncoding : Type := Utf8 | Utf16Le | Utf16Be.

#[global] Instance TextEncoding_eq_dec : EqDecision TextEncoding.
Proof. solve_decision. Defined.

(** A Unicode scalar value ([char]): no surrogates. *)
Definition scalar_ok (c : Z) : Prop := 0 ≤ c < 0xD800 ∨ 0xE000 ≤ c < 0x110000.
Definition str_ok (s : list Z) : Prop := Forall scalar_ok s.

(** ** UTF-8 *)

Definition utf8_char (c : Z) : bytes :=
  if decide (c < 0x80) then [c]
  else if decide (c < 0x800) then [0xC0 + c / 64; 0x80 + c mod 64]
  else if decide (c < 0x10000) then
    [0xE0 + c / 4096; 0x80 + c / 64 mod 64; 0x80 + c mod 64]
  else
    [0xF0 + c / 262144; 0x80 + c / 4096 mod 64; 0x80 + c / 64 mod 64; 0x80 + c mod 64].

(** [str::as_bytes]. *)
Definition as_bytes (s : list Z) : bytes := concat (map utf8_char s).

Definition is_cont (b : Z) : bool := (0x80 <=? b) && (b <? 0xC0).

(** [std::str::from_utf8]: the strict decoder (no overlong form, no
    surrogate, nothing above [0x10FFFF]). *)
Fixpoint from_utf8 (bs : bytes) : option (list Z) :=
  match bs with
  | [] => Some []
  | b0 :: r0 =>
      if b0 <? 0x80 then cons b0 <$> from_utf8 r0
      else match r0 with
      | [] => None
      | b1 :: r1 =>
          if (0xC2 <=? b0) && (b0 <? 0xE0) && is_cont b1
          then cons ((b0 - 0xC0) * 64 + (b1 - 0x80)) <$> from_utf8 r1
          else match r1 with
          | [] => None
          | b2 :: r2 =>
              if (0xE0 <=? b0) && (b0 <? 0xF0) && is_cont b1 && is_cont b2
                 && negb ((b0 =? 0xE0) && (b1 <? 0xA0))
                 && negb ((b0 =? 0xED) && (0xA0 <=? b1))
              then cons ((b0 - 0xE0) * 4096 + (b1 - 0x80) * 64 + (b2 - 0x80))
                     <$> from_utf8 r2
              else match r2 with
              | [] => None
              | b3 :: r3 =>
                  if (0xF0 <=? b0) && (b0 <? 0xF5) && is_cont b1 && is_cont b2 && is_cont b3
                     && negb ((b0 =? 0xF0) && (b1 <? 0x90))
                     && negb ((b0 =? 0xF4) && (0x90 <=? b1))
                  then cons ((b0 - 0xF0) * 262144 + (b1 - 0x80) * 4096
                             + (b2 - 0x80) * 64 + (b3 - 0x80)) <$> from_utf8 r3
                  else None
              end
          end
      end
  end.

(** ** UTF-16 *)

Definition utf16_char (c : Z) : list Z :=
  if decide (c < 0x10000) then [c]
  else [0xD800 + (c - 0x10000) / 1024; 0xDC00 + (c - 0x10000) mod 1024].

(** [str::encode_utf16]. *)
Definition encode_utf16 (s : list Z) : list Z := concat (map utf16_char s).

(** [char::decode_utf16(units).collect::<Result<String, _>>()]. *)
Fixpoint utf16_chars (us : list Z) : option (list Z) :=
  match us with
  | [] => Some []
  | u :: r =>
      if (u <? 0xD800) || (0xE000 <=? u) then cons u <$> utf16_chars r
      else if 0xDC00 <=? u then None
      else match r with
      | u2 :: r2 =>
          if (0xDC00 <=? u2) && (u2 <? 0xE000)
          then cons ((u - 0xD800) * 1024 + (u2 - 0xDC00) + 0x10000) <$> utf16_chars r2
          else None
      | [] => None
      end
  end.

(** [bytes.as_chunks::<2>().0] mapped through [unit_from_bytes]; the odd
    byte at the end, if any, is dropped. *)
Fixpoint chunks2 (unit_from_bytes : bytes → Z) (bs : bytes) : list Z :=
  match bs with
  | b0 :: b1 :: r => unit_from_bytes [b0; b1] :: chunks2 unit_from_bytes r
  | _ => []
  end.

Definition decode_utf16 (bs : bytes) (unit_from_bytes : bytes → Z)
  : result RecordError (list Z) :=
  if decide (zlen bs mod 2 ≠ 0) then Err InvalidUtf16
  else ok_or (utf16_chars (chunks2 unit_from_bytes bs)) InvalidUtf16.

Definition decode_text (bs : bytes) (encoding : TextEncoding)
  : result RecordError (list Z) :=
  match encoding with
  | Utf8 => ok_or (from_utf8 bs) InvalidUtf8
  | Utf16Le => decode_utf16 bs le_val
  | Utf16Be => decode_utf16 bs be_val
  end.

Definition encoded_text_len (s : list Z) (encoding : TextEncoding) : Z :=
  match encoding with
  | Utf8 => zlen (as_bytes s)
  | Utf16Le | Utf16Be => sat_mul (zlen (encode_utf16 s)) 2
  end.

Definition write_text_body_into (s : list Z) (encoding : TextEncoding) (out : bytes) : bytes :=
  match encoding with
  | Utf8 => out ++ as_bytes s
  | Utf16Le => out ++ concat (map (le_bytes 2) (encode_utf16 s))
  | Utf16Be => out ++ concat (map (be_bytes 2) (encode_utf16 s))
  end.

(** The bytes of a text body, [write_text_body_into] into an empty buffer. *)
Definition text_body (s : list Z) (encoding : TextEncoding) : bytes :=
  write_text_body_into s encoding [].

Lemma write_text_body_into_app s enc out :
  write_text_body_into s enc out = out ++ text_body s enc.
Proof. by destruct enc. Qed.

Ltac blia := Z.div_mod_to_equations; lia.

(** Evaluate the boolean guards of the decoders from arithmetic facts. *)
Ltac guards :=
  repeat match goal with
  | |- context [if ?b then _ else _] =>
      first [ replace b with true by (unfold is_cont; symmetry;
                rewrite ?andb_true_iff, ?orb_true_iff, ?negb_true_iff, ?andb_false_iff; blia)
            | replace b with false by (unfold is_cont; symmetry;
                rewrite ?andb_false_iff, ?orb_false_iff, ?negb_false_iff, ?andb_true_iff; blia) ]
  end.

Lemma from_utf8_char c s :
  scalar_ok c → from_utf8 (utf8_char c ++ s) = cons c <$> from_utf8 s.
Proof.
  unfold scalar_ok. intros Hc. unfold utf8_char.
  repeat case_decide; cbn [app from_utf8].
  - guards. done.
  - guards. f_equal. f_equal. blia.
  - guards. f_equal. f_equal. blia.
  - guards. f_equal. f_equal. blia.
Qed.

Lemma from_utf8_as_bytes s : str_ok s → from_utf8 (as_bytes s) = Some s.
Proof.
  induction 1 as [|c s Hc Hs IH]; [done|].
  unfold as_bytes in *. cbn. by rewrite from_utf8_char, IH.
Qed.

(** Turn the boolean guards in hypotheses into arithmetic. *)
Ltac unguard :=
  unfold is_cont in *;
  repeat match goal with
  | H : (_ && _) = true |- _ => apply andb_true_iff in H as [? ?]
  | H : negb (_ && _) = true |- _ =>
      apply negb_true_iff in H; apply andb_false_iff in H
  end.

Lemma from_utf8_sound bs s :
  bytes_ok bs → from_utf8 bs = Some s → as_bytes s = bs ∧ str_ok s.
Proof.
  remember (length bs) as n eqn:Hn. revert bs s Hn.
  induction (lt_wf n) as [n _ IH]. intros bs s -> Hok Hd.
  assert (Hrec : ∀ c p r, bs = p ++ r → p ≠ [] → scalar_ok c → utf8_char c = p →
    cons c <$> from_utf8 r = Some s → as_bytes s = bs ∧ str_ok s).
  { intros c p r -> Hp Hc Hpc (s' & Hs' & ->)%fmap_Some.
    apply bytes_ok_app in Hok as [_ Hokr].
    assert (Hlt : (length r < length (p ++ r))%nat).
    { rewrite length_app. destruct p; [done|]. cbn. lia. }
    destruct (IH _ Hlt r s' eq_refl Hokr Hs') as [Hb Ho].
    split; [|by constructor]. unfold as_bytes in *. cbn. by rewrite Hb, Hpc. }
  destruct bs as [|b0 r0]; cbn in Hd; [simplify_eq; split; [done|constructor]|].
  apply Forall_cons in Hok as Hok'. destruct Hok' as [Hb0 Hok0]. unfold u8_ok in Hb0.
  destruct (b0 <? 128) eqn:E0.
  { eapply (Hrec b0 [b0] r0); try done; [unfold scalar_ok; lia|].
    unfold utf8_char. by rewrite decide_True by lia. }
  destruct r0 as [|b1 r1]; [done|].
  apply Forall_cons in Hok0 as [Hb1 Hok1]. unfold u8_ok in Hb1.
  destruct ((194 <=? b0) && (b0 <? 224) && is_cont b1) eqn:E1.
  { unguard. eapply (Hrec _ [b0; b1] r1); try done; [unfold scalar_ok; lia|].
    unfold utf8_char. rewrite decide_False, decide_True by lia. repeat f_equal; blia. }
  destruct r1 as [|b2 r2]; [done|].
  apply Forall_cons in Hok1 as [Hb2 Hok2]. unfold u8_ok in Hb2.
  match type of Hd with (if ?b then _ else _) = _ => destruct b eqn:E2 end.
  { unguard. eapply (Hrec _ [b0; b1; b2] r2); try done; [unfold scalar_ok; lia|].
    unfold utf8_char. rewrite decide_False, decide_False, decide_True by lia.
    repeat f_equal; blia. }
  destruct r2 as [|b3 r3]; [done|].
  apply Forall_cons in Hok2 as [Hb3 Hok3]. unfold u8_ok in Hb3.
  match type of Hd with (if ?b then _ else _) = _ => destruct b eqn:E3 end; [|done].
  unguard. eapply (Hrec _ [b0; b1; b2; b3] r3); try done; [unfold scalar_ok; lia|].
  unfold utf8_char. rewrite !decide_False by lia. repeat f_equal; blia.
Qed.

Lemma utf8_char_bounds c :
  scalar_ok c → bytes_ok (utf8_char c) ∧ 1 ≤ zlen (utf8_char c) ≤ 4.
Proof.
  unfold scalar_ok, utf8_char, bytes_ok. intros.
  repeat case_decide; (split; [repeat constructor; blia|cbn; lia]).
Qed.

Lemma utf16_chars_char c s :
  scalar_ok c → utf16_chars (utf16_char c ++ s) = cons c <$> utf16_chars s.
Proof.
  unfold scalar_ok. intros Hc. unfold utf16_char.
  case_decide; cbn [app utf16_chars]; guards; [done|]. f_equal. f_equal. blia.
Qed.

Lemma utf16_chars_encode s : str_ok s → utf16_chars (encode_utf16 s) = Some s.
Proof.
  induction 1 as [|c s Hc Hs IH]; [done|].
  unfold encode_utf16 in *. cbn. by rewrite utf16_chars_char, IH.
Qed.

Lemma utf16_chars_sound us s :
  Forall u16_ok us → utf16_chars us = Some s → encode_utf16 s = us ∧ str_ok s.
Proof.
  remember (length us) as n eqn:Hn. revert us s Hn.
  induction (lt_wf n) as [n _ IH]. intros us s -> Hok Hd.
  assert (Hrec : ∀ c p r, us = p ++ r → p ≠ [] → scalar_ok c → utf16_char c = p →
    cons c <$> utf16_chars r = Some s → encode_utf16 s = us ∧ str_ok s).
  { intros c p r -> Hp Hc Hpc (s' & Hs' & ->)%fmap_Some.
    apply Forall_app in Hok as [_ Hokr].
    assert (Hlt : (length r < length (p ++ r))%nat).
    { rewrite length_app. destruct p; [done|]. cbn. lia. }
    destruct (IH _ Hlt r s' eq_refl Hokr Hs') as [Hb Ho].
    split; [|by constructor]. unfold encode_utf16 in *. cbn. by rewrite Hb, Hpc. }
  destruct us as [|u r]; cbn in Hd; [simplify_eq; split; [done|constructor]|].
  apply Forall_cons in Hok as Hok'. destruct Hok' as [Hu Hok0]. unfold u16_ok in Hu.
  destruct ((u <? 55296) || (57344 <=? u)) eqn:E0.
  { apply orb_true_iff in E0.
    eapply (Hrec u [u] r); try done; [unfold scalar_ok; lia|].
    unfold utf16_char. by rewrite decide_True by lia. }
  apply orb_false_iff in E0 as [? ?].
  destruct (56320 <=? u) eqn:E1; [done|]. destruct r as [|u2 r2]; [done|].
  destruct ((56320 <=? u2) && (u2 <? 57344)) eqn:E2; [|done]. unguard.
  eapply (Hrec _ [u; u2] r2); try done; [unfold scalar_ok; lia|].
  unfold utf16_char. rewrite decide_False by lia. repeat f_equal; blia.
Qed.

Lemma utf16_char_ok c : scalar_ok c → Forall u16_ok (utf16_char c).
Proof. unfold scalar_ok, utf16_char. intros. case_decide; repeat constructor; blia. Qed.

Lemma encode_utf16_ok s : str_ok s → Forall u16_ok (encode_utf16 s).
Proof.
  induction 1 as [|c s Hc Hs IH]; [constructor|].
  unfold encode_utf16 in *. cbn. apply Forall_app. split; [by apply utf16_char_ok|done].
Qed.

(** ** Code units to bytes and back, in either byte order *)
Section units.
Context (to_bytes : Z → bytes) (of_bytes : bytes → Z).
Context (to_bytes_length : ∀ u, length (to_bytes u) = 2%nat).
Context (of_to : ∀ u, u16_ok u → of_bytes (to_bytes u) = u).
Context (to_of : ∀ b0 b1, u8_ok b0 → u8_ok b1 →
           to_bytes (of_bytes [b0; b1]) = [b0; b1] ∧ u16_ok (of_bytes [b0; b1])).

Lemma chunks2_concat us :
  Forall u16_ok us → chunks2 of_bytes (concat (map to_bytes us)) = us.
Proof using to_bytes_length of_to.
  induction 1 as [|u us Hu Hus IH]; [done|]. cbn.
  specialize (to_bytes_length u). specialize (of_to u Hu).
  destruct (to_bytes u) as [|b0 [|b1 [|]]]; try done. cbn. by rewrite of_to, IH.
Qed.

Lemma concat_units_length us : zlen (concat (map to_bytes us)) = 2 * zlen us.
Proof using to_bytes_length.
  induction us as [|u us IH]; [done|]. cbn. rewrite length_app, to_bytes_length. lia.
Qed.

Lemma concat_chunks2 bs :
  bytes_ok bs → zlen bs mod 2 = 0 →
  concat (map to_bytes (chunks2 of_bytes bs)) = bs ∧ Forall u16_ok (chunks2 of_bytes bs).
Proof using to_of.
  remember (length bs) as n eqn:Hn. revert bs Hn.
  induction (lt_wf n) as [n _ IH]. intros [|b0 [|b1 r]] -> Hok Hev; try done.
  apply Forall_cons in Hok as [? Hok]. apply Forall_cons in Hok as [? Hok]. cbn.
  destruct (to_of b0 b1) as [-> ?]; [done..|].
  destruct (IH (length r) ltac:(cbn; lia) r eq_refl Hok) as [-> ?].
  { cbn [length] in Hev. blia. }
  split; [done|]. by constructor.
Qed.

Lemma decode_utf16_roundtrip s :
  str_ok s → decode_utf16 (concat (map to_bytes (encode_utf16 s))) of_bytes = Ok s.
Proof using to_bytes_length of_to.
  intros Hs. unfold decode_utf16. rewrite concat_units_length, decide_False by blia.
  rewrite chunks2_concat by (by apply encode_utf16_ok).
  by rewrite utf16_chars_encode.
Qed.

Lemma decode_utf16_sound bs s :
  bytes_ok bs → decode_utf16 bs of_bytes = Ok s →
  concat (map to_bytes (encode_utf16 s)) = bs ∧ str_ok s.
Proof using to_of.
  intros Hok. unfold decode_utf16. case_decide as Hd; [done|].
  intros Hu%ok_or_Ok. destruct (concat_chunks2 bs) as [Hc Ho]; [done|blia|].
  apply utf16_chars_sound in Hu as [-> Hs]; [|done]. done.
Qed.
End units.

Lemma be2_of_to u : u16_ok u → be_val (be_bytes 2 u) = u.
Proof. intros. rewrite be_val_be_bytes. apply Z.mod_small. mlia. Qed.
Lemma le2_of_to u : u16_ok u → le_val (le_bytes 2 u) = u.
Proof. intros. rewrite le_val_le_bytes. apply Z.mod_small. mlia. Qed.
Lemma be2_to_of b0 b1 :
  u8_ok b0 → u8_ok b1 → be_bytes 2 (be_val [b0; b1]) = [b0; b1] ∧ u16_ok (be_val [b0; b1]).
Proof.
  intros. split; [apply be_bytes_be_val; [unfold bytes_ok; rewrite !Forall_cons; auto|done]|].
  unfold be_val. cbn. mlia.
Qed.
Lemma le2_to_of b0 b1 :
  u8_ok b0 → u8_ok b1 → le_bytes 2 (le_val [b0; b1]) = [b0; b1] ∧ u16_ok (le_val [b0; b1]).
Proof.
  intros. unfold le_bytes, le_val. change (reverse [b0; b1]) with [b1; b0].
  destruct (be2_to_of b1 b0) as [-> ?]; done.
Qed.

Lemma decode_text_body s enc : str_ok s → decode_text (text_body s enc) enc = Ok s.
Proof.
  intros Hs. destruct enc; cbn.
  - by rewrite from_utf8_as_bytes.
  - by apply (decode_utf16_roundtrip (le_bytes 2) le_val (le_bytes_length 2) le2_of_to).
  - by apply (decode_utf16_roundtrip (be_bytes 2) be_val (be_bytes_length 2) be2_of_to).
Qed.

Lemma decode_text_sound bs enc s :
  bytes_ok bs → decode_text bs enc = Ok s → text_body s enc = bs ∧ str_ok s.
Proof.
  intros Hok. destruct enc; cbn.
  - intros H%ok_or_Ok. by apply from_utf8_sound.
  - by apply (decode_utf16_sound (le_bytes 2) le_val le2_to_of).
  - by apply (decode_utf16_sound (be_bytes 2) be_val be2_to_of).
Qed.

Lemma text_body_length s enc :
  zlen (text_body s enc) ≤ USIZE_MAX → zlen (text_body s enc) = encoded_text_len s enc.
Proof.
  destruct enc; [done|..]; unfold text_body, write_text_body_into, encoded_text_len; cbn [app].
  - rewrite (concat_units_length _ (le_bytes_length 2)). intros. rewrite sat_mul_small; lia.
  - rewrite (concat_units_length _ (be_bytes_length 2)). intros. rewrite sat_mul_small; lia.
Qed.

Lemma as_bytes_ok s : str_ok s → bytes_ok (as_bytes s).
Proof.
  induction 1 as [|c s Hc Hs IH]; [constructor|]. unfold as_bytes in *. cbn.
  apply bytes_ok_app. split; [by apply utf8_char_bounds|done].
Qed.

Lemma text_body_ok s enc : str_ok s → bytes_ok (text_body s enc).
Proof.
  intros Hs. destruct enc; [by apply as_bytes_ok|..];
    unfold text_body, write_text_body_into, bytes_ok; cbn [app];
    apply Forall_concat, Forall_fmap, Forall_forall; intros u _;
    [apply (le_bytes_ok 2 u)|apply (be_bytes_ok 2 u)].
Qed.
#[export] Hint Resolve text_body_ok : dbs.

(** ** Properties *)

(** In each of the three encodings, decoding the bytes written for a
    string returns the string, the byte count is the one
    [encoded_text_len] announces, and nothing else decodes to it: every
    byte string [decode_text] accepts is the encoding of a well-formed
    string. *)
Theorem text_roundtrip (s : list Z) (enc : TextEncoding) (bs : bytes)
    (Hs : str_ok s) (Hbs : bytes_ok bs) (Hlen : zlen (text_body s enc) ≤ USIZE_MAX) :
  decode_text (text_body s enc) enc = Ok s ∧
  zlen (text_body s enc) = encoded_text_len s enc ∧
  (∀ t, decode_text bs enc = Ok t → text_body t enc = bs ∧ str_ok t).
Proof.
  split_and!; [by apply decode_text_body|by apply text_body_length|].
  intros t. by apply decode_text_sound.
Qed.

