(* ===== verification/Record.v ===== *)
(** * The record format ([row/record/encode.rs], [row/record/decode.rs])

    Column values, serial types, the encoder and the family of decoders
    (whole record, one column, a prefix, a set of columns), with the round
    trip, the equivalence of the fast paths with the full decoder and the
    behaviour on malformed input. *)

From S2P Require Import Prelude Varint Text.

(** ** Values

    [Value] with the five variants the codec matches on; a [Real] is the bit
    pattern of its [f64], a [Text] its Unicode scalar values. *)
Inductive Value : Type :=
| Null
| Integer (i : Z)
| Real (bits : Z)
| TextV (s : list Z)
| Blob (b : bytes).

#[global] Instance Value_eq_dec : EqDecision Value.
Proof. solve_decision. Defined.

Definition value_ok (v : Value) : Prop :=
  match v with
  | Null => True
  | Integer i => i64_ok i
  | Real bits => u64_ok bits
  | TextV s => str_ok s
  | Blob b => bytes_ok b
  end.

(** [f64::is_nan] on the bit pattern. *)
Definition is_nan (bits : Z) : bool :=
  (Z.land (Z.shiftr bits 52) 0x7ff =? 0x7ff) && negb (Z.land bits (2 ^ 52 - 1) =? 0).

(** ** Encoding *)

Definition I24_MIN : Z := - 2 ^ 23.
Definition I24_MAX : Z := 2 ^ 23 - 1.
Definition I48_MIN : Z := - 2 ^ 47.
Definition I48_MAX : Z := 2 ^ 47 - 1.

Definition integer_serial_type (i : Z) : Z :=
  if decide (i = 0) then 8
  else if decide (i = 1) then 9
  else if decide (-128 ≤ i ≤ 127) then 1
  else if decide (-32768 ≤ i ≤ 32767) then 2
  else if decide (I24_MIN ≤ i ≤ I24_MAX) then 3
  else if decide (-2147483648 ≤ i ≤ 2147483647) then 4
  else if decide (I48_MIN ≤ i ≤ I48_MAX) then 5
  else 6.

Definition integer_body_len (serial_type : Z) : Z :=
  match serial_type with
  | 1 => 1 | 2 => 2 | 3 => 3 | 4 => 4 | 5 => 5 | 6 => 8
  | _ => 0
  end.

Definition write_integer_body_into (i serial_type : Z) (out : bytes) : bytes :=
  match serial_type with
  | 1 => out ++ [wrap8 i]
  | 2 => out ++ be_bytes 2 (wrap16 i)
  | 3 => out ++ drop 5 (be_bytes 8 i)
  | 4 => out ++ be_bytes 4 (wrap32 i)
  | 5 => out ++ drop 2 (be_bytes 8 i)
  | 6 => out ++ be_bytes 8 i
  | _ => out
  end.

(** [u64] saturation of [12 + 2 * len] and [13 + 2 * len]. *)
Definition blob_serial_type (len : Z) : Z := sat_add 12 (sat_mul 2 len).
Definition text_serial_type (len : Z) : Z := sat_add 13 (sat_mul 2 len).

Definition serial_type_and_body_len (value : Value) (encoding : TextEncoding) : Z * Z :=
  match value with
  | Null => (0, 0)
  | Integer i => let st := integer_serial_type i in (st, integer_body_len st)
  | Real _ => (7, 8)
  | Blob b => (blob_serial_type (zlen b), zlen b)
  | TextV s => let len := encoded_text_len s encoding in (text_serial_type len, len)
  end.

Definition write_body_into (value : Value) (serial_type : Z) (encoding : TextEncoding)
    (out : bytes) : bytes :=
  match value with
  | Null => out
  | Integer i => write_integer_body_into i serial_type out
  | Real r => out ++ be_bytes 8 r
  | Blob b => out ++ b
  | TextV s => write_text_body_into s encoding out
  end.

(** [while varint_len(header_len) + header_body_len != header_len
    { header_len += 1 }]; ten rounds are enough ([header_len_loop_done]). *)
Fixpoint header_len_loop (fuel : nat) (header_body_len header_len : Z) : Z :=
  match fuel with
  | O => header_len
  | S fuel' =>
      if decide (sat_add (varint_len header_len) header_body_len ≠ header_len)
      then header_len_loop fuel' header_body_len (sat_add header_len 1)
      else header_len
  end.

Definition header_body_len (serial_types : list (Z * Z)) : Z :=
  foldl (λ acc p, sat_add acc (varint_len p.1)) 0 serial_types.
Definition bodies_len (serial_types : list (Z * Z)) : Z :=
  foldl (λ acc p, sat_add acc p.2) 0 serial_types.

Definition record_header_len (serial_types : list (Z * Z)) : Z :=
  let hb := header_body_len serial_types in header_len_loop 10 hb (sat_add hb 1).

(** The capacity [encode_record_into] reserves in [out]. *)
Definition encode_record_reserve (values : list Value) (encoding : TextEncoding) : Z :=
  let serial_types := map (λ v, serial_type_and_body_len v encoding) values in
  sat_add (record_header_len serial_types) (bodies_len serial_types).

(** [encode_record_into]: the new contents of [out] and [serial_types]; both
    are cleared first, so the incoming contents do not matter. *)
Definition encode_record_into (values : list Value) (encoding : TextEncoding)
    (out : bytes) (serial_types : list (Z * Z)) : bytes * list (Z * Z) :=
  let serial_types := map (λ v, serial_type_and_body_len v encoding) values in
  let out := write_varint_into (record_header_len serial_types) [] in
  let out := foldl (λ out p, write_varint_into p.1 out) out serial_types in
  let out := foldl (λ out p, write_body_into p.1 p.2.1 encoding out)
               out (zip values serial_types) in
  (out, serial_types).

Definition encode_record (values : list Value) (encoding : TextEncoding) : bytes :=
  (encode_record_into values encoding [] []).1.

(** ** Decoding *)

(** [decode_varint_at]: errors carry the absolute offset. *)
Definition decode_varint_at (buf : bytes) (pos : Z) : result RecordError (Z * Z) :=
  let? slice := ok_or (get_from buf pos) (UnexpectedEof pos) in
  map_err (λ e, match e with
                | UnexpectedEof offset => UnexpectedEof (sat_add pos offset)
                | other => other
                end) (decode_varint slice).

(** [take]. *)
Definition take_bytes (buf : bytes) (pos len : Z) : result RecordError bytes :=
  if decide (pos + len ≤ USIZE_MAX)
  then ok_or (get_range buf pos (pos + len)) (UnexpectedEof pos)
  else Err (UnexpectedEof pos).

Definition serial_type_len (serial_type : Z) : Z :=
  if decide (serial_type = 0 ∨ 8 ≤ serial_type ≤ 11) then 0
  else if decide (serial_type = 1) then 1
  else if decide (serial_type = 2) then 2
  else if decide (serial_type = 3) then 3
  else if decide (serial_type = 4) then 4
  else if decide (serial_type = 5) then 6
  else if decide (serial_type = 6 ∨ serial_type = 7) then 8
  else if decide (serial_type mod 2 = 0) then wrap64 (serial_type - 12) / 2
  else wrap64 (serial_type - 13) / 2.

(** Serial types 3 and 5: shift the bytes in, then subtract [2^w] when the
    sign bit of the first byte is set. *)
Definition sign_extend (w : Z) (bs : bytes) : Z :=
  let v := foldl (λ v b, Z.lor (Z.shiftl v 8) b) 0 bs in
  match bs with
  | b0 :: _ => if decide (Z.land b0 0x80 ≠ 0) then v - 2 ^ w else v
  | [] => v
  end.

Definition decode_serial_value (serial_type : Z) (buf : bytes) (pos : Z)
    (encoding : TextEncoding) : result RecordError (Value * Z) :=
  if decide (serial_type = 0) then Ok (Null, 0)
  else if decide (serial_type = 1) then
    let? b := take_bytes buf pos 1 in Ok (Integer (to_signed 8 (be_val b)), 1)
  else if decide (serial_type = 2) then
    let? b := take_bytes buf pos 2 in Ok (Integer (to_signed 16 (be_val b)), 2)
  else if decide (serial_type = 3) then
    let? b := take_bytes buf pos 3 in Ok (Integer (sign_extend 24 b), 3)
  else if decide (serial_type = 4) then
    let? b := take_bytes buf pos 4 in Ok (Integer (to_signed 32 (be_val b)), 4)
  else if decide (serial_type = 5) then
    let? b := take_bytes buf pos 6 in Ok (Integer (sign_extend 48 b), 6)
  else if decide (serial_type = 6) then
    let? b := take_bytes buf pos 8 in Ok (Integer (to_signed 64 (be_val b)), 8)
  else if decide (serial_type = 7) then
    let? b := take_bytes buf pos 8 in
    let value := be_val b in
    if is_nan value then Ok (Null, 8) else Ok (Real value, 8)
  else if decide (serial_type = 8) then Ok (Integer 0, 0)
  else if decide (serial_type = 9) then Ok (Integer 1, 0)
  else if decide (serial_type = 10 ∨ serial_type = 11) then Ok (Null, 0)
  else if decide (serial_type mod 2 = 0) then
    let len := wrap64 (serial_type - 12) / 2 in
    let? b := take_bytes buf pos len in Ok (Blob b, len)
  else
    let len := wrap64 (serial_type - 13) / 2 in
    let? b := take_bytes buf pos len in
    let? text := decode_text b encoding in Ok (TextV text, len).

(** The header walks.  Each round consumes at least one byte of [payload],
    so [S (length payload)] rounds are enough; [header_fuel] in the lemmas
    below shows the bound is never what ends a walk. *)
Definition header_fuel (payload : bytes) : nat := S (length payload).

(** The header length varint and its check, shared by the four decoders. *)
Definition read_header_len (payload : bytes) : result RecordError (Z * Z) :=
  let? (header_len, n) := decode_varint_at payload 0 in
  if decide (header_len < n) then Err (HeaderTooShort header_len n)
  else Ok (header_len, n).

Fixpoint serial_types_loop (fuel : nat) (payload : bytes) (header_len pos : Z)
    (serial_types : list Z) : result RecordError (list Z) :=
  match fuel with
  | O => Err (UnexpectedEof pos)
  | S fuel' =>
      if decide (pos < header_len) then
        let? (serial_type, len) := decode_varint_at payload pos in
        if decide (header_len < sat_add pos len) then Err (HeaderOverrun pos header_len)
        else serial_types_loop fuel' payload header_len (sat_add pos len)
               (serial_types ++ [serial_type])
      else Ok serial_types
  end.

Fixpoint bodies_loop (serial_types : list Z) (payload : bytes) (encoding : TextEncoding)
    (body_pos : Z) (values : list Value) : result RecordError (list Value * Z) :=
  match serial_types with
  | [] => Ok (values, body_pos)
  | serial_type :: rest =>
      let? (value, len) := decode_serial_value serial_type payload body_pos encoding in
      bodies_loop rest payload encoding (sat_add body_pos len) (values ++ [value])
  end.

Definition decode_record (payload : bytes) (encoding : TextEncoding)
  : result RecordError (list Value) :=
  let? (header_len, n) := read_header_len payload in
  let? serial_types := serial_types_loop (header_fuel payload) payload header_len n [] in
  let? (values, body_pos) := bodies_loop serial_types payload encoding header_len [] in
  if decide (body_pos ≠ zlen payload)
  then Err (TrailingData (sat_sub (zlen payload) body_pos))
  else Ok values.

Fixpoint parse_header_loop (fuel : nat) (payload : bytes) (header_len pos body_pos : Z)
    (entries : list (Z * Z)) : result RecordError (list (Z * Z)) :=
  match fuel with
  | O => Err (UnexpectedEof pos)
  | S fuel' =>
      if decide (pos < header_len) then
        let? (serial_type, len) := decode_varint_at payload pos in
        if decide (header_len < sat_add pos len) then Err (HeaderOverrun pos header_len)
        else parse_header_loop fuel' payload header_len (sat_add pos len)
               (sat_add body_pos (serial_type_len serial_type))
               (entries ++ [(serial_type, body_pos)])
      else Ok entries
  end.

(** [parse_header_into]; [entries] is cleared first. *)
Definition parse_header_into (payload : bytes) (entries : list (Z * Z))
  : result RecordError (list (Z * Z)) :=
  let? (header_len, n) := read_header_len payload in
  parse_header_loop (header_fuel payload) payload header_len n header_len [].

Definition parse_header (payload : bytes) : result RecordError (list (Z * Z)) :=
  parse_header_into payload [].

Definition decode_column (payload : bytes) (idx : Z) (encoding : TextEncoding)
  : result RecordError Value :=
  let? entries := parse_header payload in
  match entries !! Z.to_nat idx with
  | Some (serial_type, offset) =>
      let? (value, _) := decode_serial_value serial_type payload offset encoding in Ok value
  | None => Ok Null
  end.

Definition record_column_count (payload : bytes) : result RecordError Z :=
  let? entries := parse_header payload in Ok (zlen entries).

Fixpoint decode_entries (entries : list (Z * Z)) (payload : bytes) (encoding : TextEncoding)
    (values : list Value) : result RecordError (list Value) :=
  match entries with
  | [] => Ok values
  | (serial_type, offset) :: rest =>
      let? (value, _) := decode_serial_value serial_type payload offset encoding in
      decode_entries rest payload encoding (values ++ [value])
  end.

Definition decode_record_upto_into (payload : bytes) (max_columns : Z)
    (encoding : TextEncoding) (entries : list (Z * Z)) : result RecordError (list Value) :=
  let? entries := parse_header_into payload entries in
  let n := Z.min max_columns (zlen entries) in
  decode_entries (take (Z.to_nat n) entries) payload encoding [].

Definition decode_record_upto (payload : bytes) (max_columns : Z) (encoding : TextEncoding)
  : result RecordError (list Value) :=
  decode_record_upto_into payload max_columns encoding [].

Fixpoint decode_single_loop (fuel : nat) (payload : bytes) (encoding : TextEncoding)
    (idx header_len pos body_pos col : Z) : result RecordError Value :=
  match fuel with
  | O => Err (UnexpectedEof pos)
  | S fuel' =>
      if decide (pos < header_len) then
        let? (serial_type, len) := decode_varint_at payload pos in
        if decide (header_len < sat_add pos len) then Err (HeaderOverrun pos header_len)
        else if decide (col = idx) then
          let? (value, _) := decode_serial_value serial_type payload body_pos encoding in
          Ok value
        else decode_single_loop fuel' payload encoding idx header_len (sat_add pos len)
               (sat_add body_pos (serial_type_len serial_type)) (sat_add col 1)
      else Ok Null
  end.

Definition decode_single_column (payload : bytes) (idx : Z) (encoding : TextEncoding)
  : result RecordError Value :=
  let? (header_len, n) := read_header_len payload in
  decode_single_loop (header_fuel payload) payload encoding idx header_len n header_len 0.

Fixpoint decode_wanted (wanted : list Z) (entries : list (Z * Z)) (payload : bytes)
    (encoding : TextEncoding) (values : list Value) : result RecordError (list Value) :=
  match wanted with
  | [] => Ok values
  | idx :: rest =>
      let? value :=
        match entries !! Z.to_nat idx with
        | Some (serial_type, offset) =>
            let? (value, _) := decode_serial_value serial_type payload offset encoding in
            Ok value
        | None => Ok Null
        end in
      decode_wanted rest entries payload encoding (values ++ [value])
  end.

Definition decode_record_only_into (payload : bytes) (wanted : list Z)
    (encoding : TextEncoding) (entries : list (Z * Z)) : result RecordError (list Value) :=
  match wanted with
  | [only] => let? v := decode_single_column payload only encoding in Ok [v]
  | _ =>
      let? entries := parse_header_into payload entries in
      decode_wanted wanted entries payload encoding []
  end.

Example encode_record_ex :
  encode_record [Integer 5; TextV [104; 105]; Null] Utf8 = [4; 1; 17; 0; 5; 104; 105].
Proof. vm_compute. reflexivity. Qed.
Example decode_record_ex :
  decode_record [4; 1; 17; 0; 5; 104; 105] Utf8 = Ok [Integer 5; TextV [104; 105]; Null].
Proof. vm_compute. reflexivity. Qed.

(** ** The encoder's output in closed form *)

Definition serial_type_of (enc : TextEncoding) (v : Value) : Z :=
  (serial_type_and_body_len v enc).1.
Definition value_body (enc : TextEncoding) (v : Value) : bytes :=
  write_body_into v (serial_type_of enc v) enc [].
Definition zsum (l : list Z) : Z := foldr Z.add 0 l.
Definition header_bytes (sts : list Z) : bytes := concat (map encode_varint sts).

Lemma write_body_into_app v st enc out :
  write_body_into v st enc out = out ++ write_body_into v st enc [].
Proof.
  destruct v; cbn [write_body_into]; rewrite ?app_nil_r; try done.
  - unfold write_integer_body_into. repeat case_match; cbn [app]; by rewrite ?app_nil_r.
  - apply write_text_body_into_app.
Qed.

Lemma foldl_app_concat {A} (f : bytes → A → bytes) (g : A → bytes) l out :
  (∀ a o, a ∈ l → f o a = o ++ g a) → foldl f out l = out ++ concat (map g l).
Proof.
  revert out. induction l as [|a l IH]; intros out Hf; cbn; [by rewrite app_nil_r|].
  rewrite Hf by set_solver. rewrite IH by set_solver. by rewrite app_assoc.
Qed.

Lemma encode_record_eq vs enc :
  encode_record vs enc =
  encode_varint (record_header_len (map (λ v, serial_type_and_body_len v enc) vs)) ++
  header_bytes (map (serial_type_of enc) vs) ++ concat (map (value_body enc) vs).
Proof.
  unfold encode_record, encode_record_into. cbn [fst].
  rewrite (foldl_app_concat _ (λ p, encode_varint p.1))
    by (intros; apply write_varint_into_app).
  rewrite (foldl_app_concat _ (λ p : Value * (Z * Z), write_body_into p.1 p.2.1 enc []))
    by (intros; apply write_body_into_app).
  rewrite <- app_assoc. f_equal. f_equal.
  - unfold header_bytes. by rewrite !map_map.
  - f_equal. induction vs as [|v vs IH]; [done|]. cbn. by rewrite IH.
Qed.

Lemma zsum_cons x l : zsum (x :: l) = x + zsum l.
Proof. done. Qed.
#[global] Arguments zsum : simpl never.

Lemma zsum_app l k : zsum (l ++ k) = zsum l + zsum k.
Proof. induction l; cbn; rewrite ?zsum_cons; [done|lia]. Qed.

Lemma zsum_nonneg l : Forall (λ x, 0 ≤ x) l → 0 ≤ zsum l.
Proof. induction 1; rewrite ?zsum_cons; [done|lia]. Qed.

Lemma foldl_sat_add {A} (f : A → Z) l acc :
  Forall (λ a, 0 ≤ f a) l → 0 ≤ acc → acc + zsum (map f l) ≤ USIZE_MAX →
  foldl (λ acc a, sat_add acc (f a)) acc l = acc + zsum (map f l).
Proof.
  intros Hl. revert acc. induction Hl as [|a l Ha Hl IH]; intros acc Hacc Hs; cbn [map foldl] in *;
    rewrite ?zsum_cons in *; [unfold zsum; cbn; lia|].
  assert (0 ≤ zsum (map f l)) by (by apply zsum_nonneg, Forall_fmap).
  rewrite sat_add_small by lia. rewrite IH; lia.
Qed.

Lemma header_bytes_length sts : zlen (header_bytes sts) = zsum (map varint_len sts).
Proof.
  unfold header_bytes. induction sts as [|st sts IH]; [done|]. cbn [map concat].
  rewrite zsum_cons, length_app, Nat2Z.inj_add, encode_varint_length. lia.
Qed.

Lemma header_body_len_eq vs enc :
  zlen (header_bytes (map (serial_type_of enc) vs)) ≤ USIZE_MAX →
  header_body_len (map (λ v, serial_type_and_body_len v enc) vs) =
  zlen (header_bytes (map (serial_type_of enc) vs)).
Proof.
  intros Hb. unfold header_body_len.
  assert (Hm : map (λ p : Z * Z, varint_len p.1) (map (λ v, serial_type_and_body_len v enc) vs)
               = map varint_len (map (serial_type_of enc) vs)) by (by rewrite !map_map).
  rewrite (foldl_sat_add (λ p : Z * Z, varint_len p.1)), Hm, <- header_bytes_length; [lia| |lia|].
  - apply Forall_forall. intros p _. pose proof (varint_len_bounds p.1). lia.
  - by rewrite Hm, <- header_bytes_length.
Qed.

(** The fixpoint search for the header length ends, at the right value. *)
Lemma header_len_loop_done hb fuel h :
  0 ≤ hb ≤ 2 ^ 62 → hb + 1 ≤ h ≤ varint_len h + hb → hb + 10 ≤ h + Z.of_nat fuel →
  let r := header_len_loop fuel hb h in
  varint_len r + hb = r ∧ hb + 1 ≤ r ≤ hb + 9.
Proof.
  change (2 ^ 62) with 4611686018427387904.
  revert h. induction fuel as [|fuel IH]; intros h Hb Hh Hf; cbn.
  - pose proof (varint_len_bounds h). lia.
  - pose proof (varint_len_bounds h). rewrite sat_add_small by mlia. case_decide.
    + rewrite sat_add_small by mlia.
      pose proof (varint_len_mono h (h + 1)). apply IH; lia.
    + lia.
Qed.

Lemma record_header_len_spec sts :
  0 ≤ header_body_len sts ≤ 2 ^ 62 →
  let r := record_header_len sts in
  varint_len r + header_body_len sts = r ∧
  header_body_len sts + 1 ≤ r ≤ header_body_len sts + 9.
Proof.
  change (2 ^ 62) with 4611686018427387904. intros Hb.
  unfold record_header_len. rewrite sat_add_small by mlia.
  apply header_len_loop_done; [done| |lia].
  pose proof (varint_len_bounds (header_body_len sts + 1)). lia.
Qed.

(** ** One value *)

(** What decoding returns for an encoded value: a NaN comes back as NULL. *)
Definition norm_value (v : Value) : Value :=
  match v with Real bits => if is_nan bits then Null else v | _ => v end.

Lemma take_bytes_app (p b s : bytes) pos len :
  pos = zlen p → len = zlen b → zlen p + zlen b ≤ USIZE_MAX →
  take_bytes (p ++ b ++ s) pos len = Ok b.
Proof.
  intros -> -> ?. unfold take_bytes. rewrite decide_True by lia.
  by rewrite get_range_app3.
Qed.

Lemma foldl_lor_be_val bs acc :
  bytes_ok bs → 0 ≤ acc →
  foldl (λ v b, Z.lor (Z.shiftl v 8) b) acc bs = foldl (λ acc b, acc * 256 + b) acc bs.
Proof.
  intros Hok. revert acc. induction Hok as [|b bs Hb Hok IH]; intros acc Hacc; [done|].
  cbn. rewrite lor_shiftl_add by (change (2 ^ 8) with 256; mlia).
  change (2 ^ 8) with 256. apply IH. mlia.
Qed.

Lemma sign_extend_be_val w b0 bs :
  bytes_ok (b0 :: bs) → w = 8 * zlen (b0 :: bs) →
  sign_extend w (b0 :: bs) = to_signed w (be_val (b0 :: bs)).
Proof.
  intros Hok ->. unfold sign_extend. rewrite foldl_lor_be_val by (done || lia).
  fold (be_val (b0 :: bs)). pose proof (be_val_bound _ Hok) as Hbd.
  pose proof Hok as [Hb0 Hbs]%Forall_cons.
  unfold to_signed. rewrite Z.mod_small by done. rewrite be_val_cons in *.
  pose proof (be_val_bound _ Hbs) as Hbd'. cbn [length] in *.
  rewrite !pow_8_S in *. set (P := 2 ^ (8 * zlen bs)) in *.
  assert (Hh : 2 ^ (8 * Z.of_nat (S (length bs)) - 1) = 128 * P).
  { unfold P. change 128 with (2 ^ 7). rewrite <- Z.pow_add_r by lia. f_equal. lia. }
  rewrite Hh. pose proof (land_80 b0 Hb0) as H80.
  destruct (decide (b0 < 128)) as [Hl|Hl].
  - rewrite (decide_False (P := Z.land b0 128 ≠ 0)) by tauto. rewrite decide_True by nia. done.
  - rewrite (decide_True (P := Z.land b0 128 ≠ 0)) by tauto. rewrite decide_False by nia. done.
Qed.

Lemma to_signed_be_bytes n w i :
  w = 8 * Z.of_nat n → (0 < n)%nat → - 2 ^ (w - 1) ≤ i < 2 ^ (w - 1) →
  to_signed w (be_val (be_bytes n i)) = i.
Proof.
  intros -> ? ?. rewrite be_val_be_bytes. apply to_signed_unsigned; lia.
Qed.

Lemma sign_extend_be_bytes n w i :
  w = 8 * Z.of_nat n → (0 < n)%nat → - 2 ^ (w - 1) ≤ i < 2 ^ (w - 1) →
  sign_extend w (be_bytes n i) = i.
Proof.
  intros Hw Hn Hi. pose proof (be_bytes_ok n i) as Hok. pose proof (be_bytes_length n i) as Hl.
  pose proof (to_signed_be_bytes n w i Hw Hn Hi) as Ht.
  destruct (be_bytes n i) as [|b0 bs]; [cbn in Hl; lia|].
  rewrite sign_extend_be_val; [done|done|]. rewrite Hl. done.
Qed.

(** Serial type and body of an integer, by width. *)
Lemma integer_body_cases i :
  i64_ok i →
  let st := integer_serial_type i in
  (st = 8 ∧ i = 0) ∨ (st = 9 ∧ i = 1) ∨
  (∃ n : nat, (st, n) ∈ [(1, 1%nat); (2, 2%nat); (3, 3%nat); (4, 4%nat); (5, 6%nat); (6, 8%nat)] ∧
     - 2 ^ (8 * Z.of_nat n - 1) ≤ i < 2 ^ (8 * Z.of_nat n - 1) ∧
     write_integer_body_into i st [] = be_bytes n i).
Proof.
  intros Hi. cbn. unfold integer_serial_type, I24_MIN, I24_MAX, I48_MIN, I48_MAX.
  repeat case_decide; subst; [by left|by right; left|..]; right; right.
  - exists 1%nat. split_and!; [set_solver|lia..|]. cbn. by rewrite Z.div_1_r.
  - exists 2%nat. split_and!; [set_solver|lia..|].
    cbn [write_integer_body_into app]. unfold wrap16. apply (be_bytes_mod 2).
  - exists 3%nat. split_and!; [set_solver|lia..|done].
  - exists 4%nat. split_and!; [set_solver|lia..|].
    cbn [write_integer_body_into app]. unfold wrap32. apply (be_bytes_mod 4).
  - exists 6%nat. split_and!; [set_solver|lia..|done].
  - exists 8%nat. split_and!; [set_solver|mlia..|done].
Qed.

Ltac st_decide :=
  repeat match goal with
  | |- context [decide ?P] =>
      first [rewrite (decide_True (P := P)) by lia | rewrite (decide_False (P := P)) by lia]
  end.

Lemma sat_serial k n : 0 ≤ k ≤ 13 → 0 ≤ n < 2 ^ 62 → sat_add k (sat_mul 2 n) = k + 2 * n.
Proof. change (2 ^ 62) with 4611686018427387904. mlia. Qed.

Lemma even_serial n : 0 ≤ n < 2 ^ 62 →
  (12 + 2 * n) mod 2 = 0 ∧ wrap64 (12 + 2 * n - 12) / 2 = n.
Proof.
  change (2 ^ 62) with 4611686018427387904. intros. split; [blia|].
  rewrite wrap64_small by mlia. blia.
Qed.
Lemma odd_serial n : 0 ≤ n < 2 ^ 62 →
  (13 + 2 * n) mod 2 ≠ 0 ∧ wrap64 (13 + 2 * n - 13) / 2 = n.
Proof.
  change (2 ^ 62) with 4611686018427387904. intros. split; [blia|].
  rewrite wrap64_small by mlia. blia.
Qed.

Lemma decode_serial_value_body enc v p s :
  value_ok v → zlen p + zlen (value_body enc v) < 2 ^ 62 →
  decode_serial_value (serial_type_of enc v) (p ++ value_body enc v ++ s) (zlen p) enc =
    Ok (norm_value v, zlen (value_body enc v)) ∧
  serial_type_len (serial_type_of enc v) = zlen (value_body enc v) ∧
  u64_ok (serial_type_of enc v).
Proof.
  intros Hv Hsz.
  assert (Htake : ∀ k, k = zlen (value_body enc v) →
            take_bytes (p ++ value_body enc v ++ s) (zlen p) k = Ok (value_body enc v)).
  { intros k Hk. apply take_bytes_app; try done. change (2 ^ 62) with 4611686018427387904 in Hsz. mlia. }
  destruct v as [|i|bits|t|b]; cbn in Hv.
  - split_and!; [done|done|]. cbn. mlia.
  - unfold serial_type_of, value_body, serial_type_and_body_len in *.
    cbn [fst write_body_into] in *. unfold serial_type_of in *. cbn [serial_type_and_body_len fst] in *.
    destruct (integer_body_cases i Hv) as [[Hst ->]|[[Hst ->]|(n & Hin & Hr & Hb)]];
      [by vm_compute|by vm_compute|].
    set (st := integer_serial_type i) in *. rewrite Hb in *. rewrite be_bytes_length in *.
    unfold decode_serial_value, serial_type_len, norm_value.
    repeat (apply elem_of_cons in Hin as [Heq|Hin];
      [injection Heq as Hst ->; clearbody st; subst st; st_decide;
       rewrite Htake by done;
       (split_and!; [|done|mlia]); do 3 f_equal;
       (apply to_signed_be_bytes || apply sign_extend_be_bytes); [done|lia|done]|]).
    by apply elem_of_nil in Hin.
  - split_and!; [|done|cbn; mlia].
    unfold value_body in *. cbn [write_body_into app] in *. rewrite be_bytes_length in *.
    unfold decode_serial_value, serial_type_of, serial_type_and_body_len. cbn [fst].
    st_decide. rewrite Htake by done. cbn zeta. rewrite be_val_be_bytes, Z.mod_small by (cbn; mlia).
    unfold norm_value. by case_match.
  - unfold value_body in *. cbn [write_body_into] in *.
    change (write_text_body_into t enc []) with (text_body t enc) in *.
    unfold serial_type_of, serial_type_and_body_len. cbn [fst].
    rewrite <- text_body_length by (change (2 ^ 62) with 4611686018427387904 in Hsz; mlia).
    unfold text_serial_type. rewrite sat_serial by lia.
    destruct (odd_serial (zlen (text_body t enc))) as [Hodd Hlen]; [lia|].
    unfold decode_serial_value, serial_type_len.
    rewrite Hlen. st_decide. rewrite Htake, decode_text_body by done.
    split_and!; [done|done|]. change (2 ^ 62) with 4611686018427387904 in Hsz. mlia.
  - unfold value_body in *. cbn [write_body_into app] in *.
    unfold serial_type_of, serial_type_and_body_len. cbn [fst].
    unfold blob_serial_type. rewrite sat_serial by lia.
    destruct (even_serial (zlen b)) as [Hev Hlen]; [lia|].
    unfold decode_serial_value, serial_type_len.
    rewrite Hlen. st_decide. rewrite Htake by done.
    split_and!; [done|done|]. change (2 ^ 62) with 4611686018427387904 in Hsz. mlia.
Qed.

(** ** Walking the header *)

Lemma decode_varint_at_app (p s : bytes) v pos :
  u64_ok v → pos = zlen p →
  decode_varint_at (p ++ encode_varint v ++ s) pos = Ok (v, varint_len v).
Proof.
  intros Hv ->. unfold decode_varint_at. rewrite get_from_app by done. cbn.
  by rewrite decode_encode_varint.
Qed.

Lemma serial_types_loop_app sts p s header_len acc fuel :
  Forall u64_ok sts → header_len = zlen p + zlen (header_bytes sts) →
  header_len ≤ USIZE_MAX → (length sts < fuel)%nat →
  serial_types_loop fuel (p ++ header_bytes sts ++ s) header_len (zlen p) acc = Ok (acc ++ sts).
Proof.
  intros Hsts. revert p acc fuel. induction Hsts as [|st sts Hst Hsts IH];
    intros p acc fuel Hhl Hmax Hf; (destruct fuel as [|fuel]; [cbn in Hf; lia|]);
    cbn [serial_types_loop].
  - rewrite decide_False by (cbn in Hhl; lia). by rewrite app_nil_r.
  - unfold header_bytes in *. cbn [map concat] in *.
    pose proof (encode_varint_length st). pose proof (varint_len_bounds st).
    rewrite length_app in Hhl.
    rewrite decide_True by lia.
    rewrite <- (app_assoc (encode_varint st)), decode_varint_at_app by done.
    rewrite sat_add_small by lia. rewrite decide_False by lia.
    replace (zlen p + varint_len st) with (zlen (p ++ encode_varint st))
      by (rewrite length_app; lia).
    rewrite app_assoc, IH; [by rewrite <- app_assoc|rewrite length_app; lia|lia|cbn in Hf; lia].
Qed.

Lemma bodies_loop_app enc vs p s acc :
  Forall value_ok vs →
  zlen p + zlen (concat (map (value_body enc) vs)) < 2 ^ 62 →
  bodies_loop (map (serial_type_of enc) vs)
    (p ++ concat (map (value_body enc) vs) ++ s) enc (zlen p) acc =
  Ok (acc ++ map norm_value vs, zlen p + zlen (concat (map (value_body enc) vs))).
Proof.
  intros Hvs. revert p acc. induction Hvs as [|v vs Hv Hvs IH]; intros p acc Hsz;
    cbn [map concat bodies_loop].
  - cbn. rewrite app_nil_r, Z.add_0_r. done.
  - cbn [map concat] in Hsz. rewrite length_app in *.
    rewrite <- (app_assoc (value_body enc v)).
    destruct (decode_serial_value_body enc v p (concat (map (value_body enc) vs) ++ s))
      as (-> & _ & _); [done|lia|].
    rewrite sat_add_small by (change (2 ^ 62) with 4611686018427387904 in Hsz; mlia).
    replace (zlen p + zlen (value_body enc v)) with (zlen (p ++ value_body enc v))
      by (rewrite length_app; lia).
    rewrite app_assoc, IH by (rewrite length_app; lia).
    rewrite <- app_assoc. do 2 f_equal. rewrite length_app. lia.
Qed.

Lemma header_bytes_count sts : (length sts ≤ length (header_bytes sts))%nat.
Proof.
  unfold header_bytes. induction sts as [|st sts IH]; [done|]. cbn.
  pose proof (encode_varint_length st). pose proof (varint_len_bounds st).
  rewrite length_app. lia.
Qed.

Lemma record_roundtrip_lemma vs enc :
  Forall value_ok vs → zlen (encode_record vs enc) < 2 ^ 62 →
  decode_record (encode_record vs enc) enc = Ok (map norm_value vs).
Proof.
  intros Hvs Hsz. pose proof (encode_record_eq vs enc) as Heq.
  set (sts := map (serial_type_of enc) vs) in *.
  set (pairs := map (λ v, serial_type_and_body_len v enc) vs) in *.
  set (hl := record_header_len pairs) in *.
  set (B := concat (map (value_body enc) vs)) in *.
  rewrite Heq in *. rewrite !length_app in Hsz.
  pose proof (encode_varint_length hl) as Hhl.
  change (2 ^ 62) with 4611686018427387904 in Hsz.
  assert (Hhb : header_body_len pairs = zlen (header_bytes sts)).
  { apply header_body_len_eq. fold sts. mlia. }
  destruct (record_header_len_spec pairs) as [Hfix Hrange].
  { rewrite Hhb. change (2 ^ 62) with 4611686018427387904. lia. }
  fold hl in Hfix, Hrange.
  assert (Hsts : Forall u64_ok sts).
  { apply Forall_fmap, Forall_forall. intros v Hv.
    assert (zlen (value_body enc v) ≤ zlen B).
    { unfold B. apply list_elem_of_split in Hv as (l1 & l2 & ->).
      rewrite map_app, concat_app. cbn. rewrite !length_app. lia. }
    eapply Forall_forall in Hvs; [|done].
    destruct (decode_serial_value_body enc v [] []) as (_ & _ & ?); [done| |done].
    change (2 ^ 62) with 4611686018427387904. cbn. lia. }
  unfold decode_record, read_header_len.
  assert (Hat : decode_varint_at (encode_varint hl ++ header_bytes sts ++ B) 0
                = Ok (hl, varint_len hl)).
  { apply (decode_varint_at_app [] (header_bytes sts ++ B)); [mlia|done]. }
  rewrite Hat. rewrite decide_False by lia.
  assert (Hloop : serial_types_loop (header_fuel (encode_varint hl ++ header_bytes sts ++ B))
            (encode_varint hl ++ header_bytes sts ++ B) hl (zlen (encode_varint hl)) [] = Ok sts).
  { apply serial_types_loop_app; [done|lia|mlia|].
    pose proof (header_bytes_count sts). unfold header_fuel. rewrite !length_app. lia. }
  rewrite Hhl in Hloop. rewrite Hloop.
  pose proof (bodies_loop_app enc vs (encode_varint hl ++ header_bytes sts) [] [] Hvs) as Hbl.
  rewrite app_nil_r, <- app_assoc in Hbl. fold sts B in Hbl.
  replace (zlen (encode_varint hl ++ header_bytes sts)) with hl in Hbl
    by (rewrite length_app; lia).
  rewrite Hbl by (change (2 ^ 62) with 4611686018427387904; lia).
  cbn [app]. rewrite decide_False; [done|]. rewrite !length_app. lia.
Qed.

(** ** The walks agree *)

Lemma decode_varint_at_Ok buf pos v n :
  bytes_ok buf → decode_varint_at buf pos = Ok (v, n) →
  0 ≤ pos ∧ 1 ≤ n ≤ 9 ∧ pos + n ≤ zlen buf ∧ u64_ok v.
Proof.
  intros Hok. unfold decode_varint_at.
  destruct (get_from buf pos) as [sl|] eqn:Hg; [cbn|done].
  intros Hd%map_err_Ok. pose proof (bytes_ok_get_from _ _ _ Hok Hg) as Hsl.
  apply decode_varint_Ok in Hd as (? & ? & ? & _); [|done].
  apply get_from_Some in Hg as [? ->]. rewrite length_drop in *. split_and!; try lia; done.
Qed.

Lemma serial_types_loop_acc fuel payload hl pos acc :
  serial_types_loop fuel payload hl pos acc =
  match serial_types_loop fuel payload hl pos [] with
  | Ok sts => Ok (acc ++ sts) | Err e => Err e end.
Proof.
  revert pos acc. induction fuel as [|fuel IH]; intros pos acc; cbn; [done|].
  case_decide; [|by rewrite app_nil_r].
  destruct (decode_varint_at payload pos) as [[st len]|e]; [|done].
  case_decide; [done|]. rewrite IH, (IH _ [st]).
  destruct (serial_types_loop fuel payload hl (sat_add pos len) []); [|done].
  by rewrite <- app_assoc.
Qed.

(** Termination: more rounds than the payload has bytes left change
    nothing. *)
Lemma serial_types_loop_fuel payload hl fuel1 fuel2 pos acc :
  bytes_ok payload → zlen payload ≤ ISIZE_MAX → 0 ≤ pos →
  zlen payload - pos < Z.of_nat fuel1 → zlen payload - pos < Z.of_nat fuel2 →
  (0 < fuel1)%nat → (0 < fuel2)%nat →
  serial_types_loop fuel1 payload hl pos acc = serial_types_loop fuel2 payload hl pos acc.
Proof.
  intros Hok Hmax. revert fuel2 pos acc.
  induction fuel1 as [|fuel1 IH]; intros fuel2 pos acc Hpos H1 H2 H3 H4; [lia|].
  destruct fuel2 as [|fuel2]; [lia|]. cbn. case_decide; [|done].
  destruct (decode_varint_at payload pos) as [[st len]|e] eqn:Hd; [|done].
  apply decode_varint_at_Ok in Hd as (? & ? & ? & _); [|done].
  case_decide; [done|]. apply IH; mlia.
Qed.

(** Body offsets of a run of serial types. *)
Fixpoint with_offsets (body_pos : Z) (sts : list Z) : list (Z * Z) :=
  match sts with
  | [] => []
  | st :: rest => (st, body_pos) :: with_offsets (sat_add body_pos (serial_type_len st)) rest
  end.

Lemma with_offsets_length bp sts : length (with_offsets bp sts) = length sts.
Proof. revert bp. induction sts; intros; cbn; congruence. Qed.

Lemma parse_header_loop_eq fuel payload hl pos bp entries :
  parse_header_loop fuel payload hl pos bp entries =
  match serial_types_loop fuel payload hl pos [] with
  | Ok sts => Ok (entries ++ with_offsets bp sts) | Err e => Err e end.
Proof.
  revert pos bp entries. induction fuel as [|fuel IH]; intros pos bp entries; cbn; [done|].
  case_decide; [|by rewrite app_nil_r].
  destruct (decode_varint_at payload pos) as [[st len]|e]; [|done].
  case_decide; [done|]. rewrite IH, (serial_types_loop_acc _ _ _ _ [st]).
  destruct (serial_types_loop fuel payload hl (sat_add pos len) []); [|done].
  by rewrite <- app_assoc.
Qed.

Definition decode_entry (payload : bytes) (enc : TextEncoding) (o : option (Z * Z))
  : result RecordError Value :=
  match o with
  | Some (st, offset) =>
      let? (value, _) := decode_serial_value st payload offset enc in Ok value
  | None => Ok Null
  end.

Lemma decode_single_loop_eq fuel payload enc idx hl pos bp col sts :
  serial_types_loop fuel payload hl pos [] = Ok sts →
  0 ≤ col ≤ idx → col + zlen sts ≤ USIZE_MAX →
  decode_single_loop fuel payload enc idx hl pos bp col =
  decode_entry payload enc (with_offsets bp sts !! Z.to_nat (idx - col)).
Proof.
  revert pos bp col sts. induction fuel as [|fuel IH]; intros pos bp col sts; cbn; [done|].
  case_decide; [|by intros [= <-]].
  destruct (decode_varint_at payload pos) as [[st len]|e]; [|done].
  case_decide; [done|]. rewrite serial_types_loop_acc. intros Hrec Hc Hm.
  destruct (serial_types_loop fuel payload hl (sat_add pos len) []) as [sts'|] eqn:Hs; [|done].
  simplify_eq. cbn [app length with_offsets] in *. case_decide.
  - subst. by rewrite Z.sub_diag.
  - rewrite (sat_add_small col 1) by lia. erewrite IH by (done || lia).
    replace (Z.to_nat (idx - col)) with (S (Z.to_nat (idx - (col + 1)))) by lia. done.
Qed.

(** The serial types of a record and its header length, when the header is
    well formed. *)
Definition header_types (payload : bytes) : result RecordError (Z * list Z) :=
  let? (hl, n) := read_header_len payload in
  let? sts := serial_types_loop (header_fuel payload) payload hl n [] in
  Ok (hl, sts).

Lemma parse_header_eq payload :
  parse_header payload =
  match header_types payload with
  | Ok (hl, sts) => Ok (with_offsets hl sts) | Err e => Err e end.
Proof.
  unfold parse_header, parse_header_into, header_types.
  destruct (read_header_len payload) as [[hl n]|]; [|done].
  rewrite parse_header_loop_eq. by case_match.
Qed.

Lemma serial_types_loop_length fuel payload hl pos sts :
  serial_types_loop fuel payload hl pos [] = Ok sts → (length sts < fuel)%nat.
Proof.
  revert pos sts. induction fuel as [|fuel IH]; intros pos sts; cbn; [done|].
  case_decide; [|intros [= <-]; cbn; lia].
  destruct (decode_varint_at payload pos) as [[st len]|e]; [|done].
  case_decide; [done|]. rewrite serial_types_loop_acc.
  destruct (serial_types_loop fuel payload hl (sat_add pos len) []) as [sts'|] eqn:Hs; [|done].
  intros [= <-]. apply IH in Hs. cbn. lia.
Qed.

Lemma decode_column_eq payload idx enc hl sts :
  header_types payload = Ok (hl, sts) →
  decode_column payload idx enc =
  decode_entry payload enc (with_offsets hl sts !! Z.to_nat idx).
Proof.
  intros Hh. unfold decode_column. rewrite parse_header_eq, Hh. done.
Qed.

Lemma decode_single_column_eq payload idx enc hl sts :
  zlen payload ≤ ISIZE_MAX → 0 ≤ idx → header_types payload = Ok (hl, sts) →
  decode_single_column payload idx enc = decode_column payload idx enc.
Proof.
  intros Hmax Hidx Hh. rewrite (decode_column_eq _ _ _ _ _ Hh).
  unfold decode_single_column, header_types in *.
  destruct (read_header_len payload) as [[hl' n]|]; [|done].
  destruct (serial_types_loop (header_fuel payload) payload hl' n []) as [sts'|] eqn:Hs; [|done].
  simplify_eq. erewrite decode_single_loop_eq by (done || lia ||
    (apply serial_types_loop_length in Hs; unfold header_fuel in Hs; mlia)).
  by rewrite Z.sub_0_r.
Qed.

Lemma decode_serial_value_len st buf pos enc v len :
  decode_serial_value st buf pos enc = Ok (v, len) → len = serial_type_len st.
Proof.
  unfold decode_serial_value, serial_type_len. intros H.
  repeat (case_decide; try lia); repeat case_match; simplify_eq; done.
Qed.

Lemma bodies_loop_entries sts payload enc bp acc vs e :
  bodies_loop sts payload enc bp acc = Ok (vs, e) →
  ∃ ws, vs = acc ++ ws ∧
    Forall2 (λ p w, decode_entry payload enc (Some p) = Ok w) (with_offsets bp sts) ws.
Proof.
  revert bp acc. induction sts as [|st sts IH]; intros bp acc; cbn [bodies_loop with_offsets].
  - intros [= <- <-]. exists []. rewrite app_nil_r. split; [done|constructor].
  - destruct (decode_serial_value st payload bp enc) as [[w len]|] eqn:Hd; [|done].
    rewrite (decode_serial_value_len _ _ _ _ _ _ Hd). intros (ws & -> & Hws)%IH.
    exists (w :: ws). rewrite <- app_assoc. split; [done|]. constructor; [|done].
    cbn. by rewrite Hd.
Qed.

(** A decodable record: its entries decode one by one to its values. *)
Lemma decode_record_entries payload enc vs :
  decode_record payload enc = Ok vs →
  ∃ hl sts, header_types payload = Ok (hl, sts) ∧
    Forall2 (λ p w, decode_entry payload enc (Some p) = Ok w) (with_offsets hl sts) vs.
Proof.
  unfold decode_record, header_types.
  destruct (read_header_len payload) as [[hl n]|]; [|done].
  destruct (serial_types_loop (header_fuel payload) payload hl n []) as [sts|]; [|done].
  destruct (bodies_loop sts payload enc hl []) as [[ws e]|] eqn:Hb; [|done].
  case_decide; [done|]. intros [= <-].
  apply bodies_loop_entries in Hb as (ws' & -> & Hf). eauto.
Qed.

Lemma decode_entry_lookup payload enc entries vs (k : nat) :
  Forall2 (λ p w, decode_entry payload enc (Some p) = Ok w) entries vs →
  decode_entry payload enc (entries !! k) = Ok (default Null (vs !! k)).
Proof.
  intros Hf. destruct (entries !! k) as [p|] eqn:Hk.
  - eapply Forall2_lookup_l in Hf as (w & -> & Hw); done.
  - apply lookup_ge_None in Hk. rewrite (Forall2_length _ _ _ Hf) in Hk.
    by rewrite (proj2 (lookup_ge_None vs k) Hk).
Qed.

Lemma decode_entries_Forall2 entries payload enc vs acc :
  Forall2 (λ p w, decode_entry payload enc (Some p) = Ok w) entries vs →
  decode_entries entries payload enc acc = Ok (acc ++ vs).
Proof.
  intros Hf. revert acc. induction Hf as [|[st off] w entries vs Hd Hf IH]; intros acc; cbn.
  - by rewrite app_nil_r.
  - cbn in Hd. destruct (decode_serial_value st payload off enc) as [[w' ?]|]; [|done].
    simplify_eq. by rewrite IH, <- app_assoc.
Qed.

Lemma decode_wanted_eq wanted entries payload enc vs acc :
  Forall2 (λ p w, decode_entry payload enc (Some p) = Ok w) entries vs →
  decode_wanted wanted entries payload enc acc =
  Ok (acc ++ map (λ idx, default Null (vs !! Z.to_nat idx)) wanted).
Proof.
  intros Hf. revert acc. induction wanted as [|idx wanted IH]; intros acc; cbn.
  - by rewrite app_nil_r.
  - pose proof (decode_entry_lookup _ _ _ _ (Z.to_nat idx) Hf) as He.
    unfold decode_entry in He. rewrite He. by rewrite IH, <- app_assoc.
Qed.

(** ** Properties *)

(** C21: [decode_record] inverts [encode_record] for every list of
    well-formed values and every text encoding (a NaN, which the decoder
    maps to NULL as stock SQLite does, apart). *)
Theorem record_roundtrip (vs : list Value) (enc : TextEncoding)
    (Hvs : Forall value_ok vs) (Hsz : zlen (encode_record vs enc) < 2 ^ 62) :
  decode_record (encode_record vs enc) enc = Ok (map norm_value vs).
Proof. by apply record_roundtrip_lemma. Qed.

Lemma record_roundtrip_witness :
  let vs := [Integer (-70000); Real 0x3ff8000000000000; Blob [1; 2]; TextV [0x20AC]; Null;
             Integer 1; Integer (2 ^ 47)] in
  decode_record (encode_record vs Utf16Be) Utf16Be = Ok vs.
Proof.
  apply (record_roundtrip
    [Integer (-70000); Real 0x3ff8000000000000; Blob [1; 2]; TextV [0x20AC]; Null;
     Integer 1; Integer (2 ^ 47)] Utf16Be).
  - repeat constructor; cbn; unfold u8_ok, scalar_ok; lia.
  - vm_compute. reflexivity.
Defined.

(** Whenever the whole record decodes, every partial decoder returns the
    matching part of it: [decode_column] the column (NULL past the end),
    [record_column_count] the number of columns, [decode_record_upto] the
    prefix and [decode_record_only_into] the wanted columns in the wanted
    order, including its single-column fast path. *)
Theorem record_accessors_agree (payload : bytes) (enc : TextEncoding) (vs : list Value)
    (Hmax : zlen payload ≤ ISIZE_MAX) (Hd : decode_record payload enc = Ok vs) :
  (∀ idx, 0 ≤ idx → decode_column payload idx enc = Ok (default Null (vs !! Z.to_nat idx))) ∧
  record_column_count payload = Ok (zlen vs) ∧
  (∀ n, 0 ≤ n → decode_record_upto payload n enc = Ok (take (Z.to_nat n) vs)) ∧
  (∀ wanted scratch, Forall (λ i, 0 ≤ i) wanted →
     decode_record_only_into payload wanted enc scratch =
     Ok (map (λ idx, default Null (vs !! Z.to_nat idx)) wanted)).
Proof.
  destruct (decode_record_entries _ _ _ Hd) as (hl & sts & Hh & Hf).
  assert (Hlen : length (with_offsets hl sts) = length vs) by (by eapply Forall2_length).
  assert (Hcol : ∀ idx, decode_column payload idx enc = Ok (default Null (vs !! Z.to_nat idx))).
  { intros idx. rewrite (decode_column_eq _ _ _ _ _ Hh). by apply decode_entry_lookup. }
  assert (Hph : ∀ scratch, parse_header_into payload scratch = Ok (with_offsets hl sts)).
  { intros. change (parse_header_into payload scratch) with (parse_header payload).
    by rewrite parse_header_eq, Hh. }
  split_and!.
  - intros idx _. apply Hcol.
  - unfold record_column_count, parse_header. by rewrite Hph, Hlen.
  - intros n Hn. unfold decode_record_upto, decode_record_upto_into. rewrite Hph.
    rewrite (decode_entries_Forall2 _ _ _ (take (Z.to_nat n) vs)); [done|].
    replace (take (Z.to_nat n) vs) with (take (Z.to_nat (Z.min n (zlen (with_offsets hl sts)))) vs).
    + by apply Forall2_take.
    + destruct (decide (n ≤ zlen vs)).
      * f_equal. lia.
      * rewrite !take_ge by lia. done.
  - intros wanted scratch Hw. unfold decode_record_only_into.
    assert (Hgen : (let? entries := parse_header_into payload scratch in
                    decode_wanted wanted entries payload enc []) =
              Ok (map (λ idx, default Null (vs !! Z.to_nat idx)) wanted)).
    { rewrite Hph. by rewrite (decode_wanted_eq _ _ _ _ vs) by done. }
    destruct wanted as [|i [|j wanted]]; [exact Hgen| |exact Hgen].
    apply Forall_cons in Hw as [Hi _].
    rewrite (decode_single_column_eq _ _ _ hl sts) by done. by rewrite Hcol.
Qed.

(** The single-column fast path never differs from the general path on
    a record whose header parses, also when the column's body is malformed:
    the same value or the same error. *)
Theorem single_column_fast_path (payload : bytes) (idx : Z) (enc : TextEncoding)
    (entries : list (Z * Z)) (Hmax : zlen payload ≤ ISIZE_MAX) (Hidx : 0 ≤ idx)
    (Hh : parse_header payload = Ok entries) :
  decode_single_column payload idx enc = decode_column payload idx enc.
Proof.
  rewrite parse_header_eq in Hh.
  destruct (header_types payload) as [[hl sts]|] eqn:Ht; [|done].
  by apply (decode_single_column_eq _ _ _ hl sts).
Qed.

(** The loops of the record codec end.  A header walk over a payload
    needs no more rounds than the payload has bytes left: any larger bound
    gives the same answer.  The encoder's search for a self-consistent
    header length ends within ten rounds at a length that counts its own
    varint. *)
Theorem record_loops_terminate (payload : bytes) (hl pos : Z) (acc : list Z) (extra : nat)
    (sts : list (Z * Z)) (Hok : bytes_ok payload) (Hmax : zlen payload ≤ ISIZE_MAX)
    (Hpos : 0 ≤ pos) (Hsts : 0 ≤ header_body_len sts ≤ 2 ^ 62) :
  serial_types_loop (header_fuel payload + extra) payload hl pos acc =
    serial_types_loop (header_fuel payload) payload hl pos acc ∧
  (let r := record_header_len sts in varint_len r + header_body_len sts = r).
Proof.
  split.
  - apply serial_types_loop_fuel; try done; unfold header_fuel; lia.
  - by apply record_header_len_spec.
Qed.

(** The body length [integer_body_len] announces for serial type 5 is
    one byte short of the six bytes [write_integer_body_into] writes, so the
    capacity [encode_record_into] reserves is too small for such a record;
    every other integer serial type is announced exactly. *)
Theorem integer_body_len_serial_5 (i : Z) :
  integer_body_len 5 = zlen (write_integer_body_into i 5 []) - 1 ∧
  (∀ st, st ≠ 5 → integer_body_len st = zlen (write_integer_body_into i st [])) ∧
  encode_record_reserve [Integer (2 ^ 40)] Utf8 =
    zlen (encode_record [Integer (2 ^ 40)] Utf8) - 1.
Proof.
  split_and!; [reflexivity| |vm_compute; reflexivity].
  intros st Hst. unfold integer_body_len, write_integer_body_into. by repeat case_match.
Qed.
