(* ===== verification/Digits.v ===== *)
(** * Decimal digits

    The text of integers as the standard library formats them, and what it
    denotes.  A text is the list of its characters. *)

From S2P Require Import Prelude.

(** [{}] of an unsigned integer: its decimal digits, at least one. *)
Fixpoint digits_loop (fuel : nat) (v : Z) (acc : list Z) : list Z :=
  match fuel with
  | O => acc
  | S fuel =>
      let acc := 48 + v mod 10 :: acc in
      if decide (v < 10) then acc else digits_loop fuel (v / 10) acc
  end.

(** A [u128] has at most 39 digits. *)
Definition show_u128 (v : Z) : list Z := digits_loop 39 v [].

Definition MINUS : Z := 45.
Definition DOT : Z := 46.

Definition show_i128 (v : Z) : list Z := if decide (v < 0) then MINUS :: show_u128 (- v) else show_u128 v.

(** [{:0width$}]. *)
Definition pad_left (width : Z) (s : list Z) : list Z := replicate (Z.to_nat (width - zlen s)) 48 ++ s.

Definition is_digit (c : Z) : bool := bool_decide (48 ≤ c ≤ 57).

(** The number a list of digits denotes, most significant first. *)
Definition digits_val (s : list Z) : Z := foldl (λ n c, 10 * n + (c - 48)) 0 s.

(** ** Digits *)

Lemma digits_val_app a b : digits_val (a ++ b) = digits_val a * 10 ^ zlen b + digits_val b.
Proof.
  unfold digits_val. rewrite foldl_app. generalize (foldl (λ n c, 10 * n + (c - 48)) 0 a). clear a.
  induction b as [|c b IH]; intros n; [cbn; lia|]. cbn [foldl length]. rewrite IH, (IH (10 * 0 + _)).
  rewrite Nat2Z.inj_succ, Z.pow_succ_r by lia. lia.
Qed.

Lemma digits_loop_ok (fuel : nat) v acc :
  0 ≤ v < 10 ^ Z.of_nat fuel → (1 ≤ fuel)%nat →
  ∃ ds, digits_loop fuel v acc = ds ++ acc ∧ digits_val ds = v ∧ forallb is_digit ds = true ∧ ds ≠ [] ∧
    ∀ k, 1 ≤ k → v < 10 ^ k → zlen ds ≤ k.
Proof.
  revert v acc. induction fuel as [|fuel IH]; intros v acc Hv Hf; [lia|]. cbn [digits_loop].
  assert (Hdig : ∀ x, is_digit (48 + x mod 10) = true).
  { intros x. apply bool_decide_eq_true_2. pose proof (Z.mod_pos_bound x 10). lia. }
  case_decide as E.
  - exists [48 + v mod 10]. rewrite Z.mod_small by lia. split_and!; [done|cbn; lia| |done|cbn; lia].
    cbn. rewrite <- (Z.mod_small v 10) by lia. by rewrite Hdig.
  - assert (Hfuel : (1 ≤ fuel)%nat) by (destruct fuel; [cbn in Hv; lia|lia]).
    rewrite Nat2Z.inj_succ, Z.pow_succ_r in Hv by lia.
    destruct (IH (v / 10) (48 + v mod 10 :: acc)) as (ds & -> & Hd & Hall & Hne & Hk); [split; [apply Z.div_pos; lia|apply Z.div_lt_upper_bound; lia]|done|].
    exists (ds ++ [48 + v mod 10]). split_and!.
    + by rewrite <- (assoc_L (++)).
    + rewrite digits_val_app, Hd. cbn. pose proof (Z.div_mod v 10). lia.
    + rewrite forallb_app, Hall. cbn. by rewrite Hdig.
    + by destruct ds.
    + intros k Hk1 Hvk. rewrite length_app. cbn [length].
      assert (k ≠ 1) by (intros ->; lia).
      assert (v / 10 < 10 ^ (k - 1)).
      { apply Z.div_lt_upper_bound; [lia|]. rewrite <- Z.pow_succ_r by lia. by replace (Z.succ (k - 1)) with k by lia. }
      specialize (Hk (k - 1) ltac:(lia) ltac:(done)). lia.
Qed.

Lemma show_u128_ok v : 0 ≤ v < 2 ^ 128 →
  digits_val (show_u128 v) = v ∧ forallb is_digit (show_u128 v) = true ∧ show_u128 v ≠ [] ∧
  ∀ k, 1 ≤ k → v < 10 ^ k → zlen (show_u128 v) ≤ k.
Proof.
  intros Hv. destruct (digits_loop_ok 39 v []) as (ds & Hds & Hd); [|lia|unfold show_u128; rewrite Hds, app_nil_r; exact Hd].
  change (10 ^ Z.of_nat 39) with 1000000000000000000000000000000000000000. change (2 ^ 128) with 340282366920938463463374607431768211456 in Hv. lia.
Qed.

Lemma pad_left_ok width s :
  zlen s ≤ width → forallb is_digit s = true →
  zlen (pad_left width s) = width ∧ digits_val (pad_left width s) = digits_val s ∧ forallb is_digit (pad_left width s) = true.
Proof.
  intros Hw Hs. unfold pad_left. rewrite length_app, length_replicate, digits_val_app, forallb_app, Hs, andb_true_r. split_and!; [lia| |].
  - assert (H0 : ∀ n, digits_val (replicate n 48) = 0); [|rewrite H0; lia].
    intros n. unfold digits_val. induction n as [|n IH]; [done|]. exact IH.
  - induction (Z.to_nat (width - zlen s)); [done|]. cbn. done.
Qed.

Lemma minus_not_digit : is_digit MINUS = false.
Proof. done. Qed.
