(* ===== verification/Format.v ===== *)
(** * Value rendering ([row/format.rs])

    The text of a value for dumps, query output and CSV.  Texts are lists of
    characters, query output is bytes.  [format_real] belongs to another
    crate and is a parameter. *)

From S2P Require Import Prelude Text Digits Record.

Definition QUOTE : Z := 34.
Definition APOSTROPHE : Z := 39.
Definition COMMA : Z := 44.
Definition NEWLINE : Z := 10.

(** [{byte:02X}]. *)
Definition hex_digit (n : Z) : Z := if decide (n < 10) then 48 + n else 55 + n.
Definition hex_byte (b : Z) : list Z := [hex_digit (b / 16); hex_digit (b mod 16)].

Definition format_blob (b : bytes) : list Z := [88; APOSTROPHE] ++ concat (map hex_byte b) ++ [APOSTROPHE].

(** Up to the first zero byte. *)
Definition truncate_at_nul (bs : bytes) : bytes :=
  match list_find (λ b, b = 0) bs with Some (i, _) => take i bs | None => bs end.

Definition write_truncated_at_nul (buf bs : bytes) : bytes := buf ++ truncate_at_nul bs.

Definition csv_char_forces_quote (c : Z) : bool :=
  negb (bool_decide (0x21 ≤ c ≤ 0x7E)) || bool_decide (c = QUOTE) || bool_decide (c = APOSTROPHE) || bool_decide (c = COMMA).

(** The characters with every quote doubled. *)
Definition double_quotes (s : list Z) : list Z :=
  concat (map (λ c, if decide (c = QUOTE) then [QUOTE; c] else [c]) s).

Definition csv_quote (s : list Z) : list Z :=
  let needs_quote := bool_decide (s = []) || existsb csv_char_forces_quote s in
  if negb needs_quote then s else [QUOTE] ++ double_quotes s ++ [QUOTE].

Section values.
Context (format_real : Z → list Z).

Definition format_list_value (v : Value) : list Z :=
  match v with
  | Null => [78; 85; 76; 76]
  | Integer i => show_i128 i
  | Real r => format_real r
  | TextV s => s
  | Blob b => format_blob b
  end.

Definition format_query_value (v : Value) : bytes :=
  match v with
  | Null => []
  | Integer i => as_bytes (show_i128 i)
  | Real r => as_bytes (format_real r)
  | TextV s => truncate_at_nul (as_bytes s)
  | Blob b => truncate_at_nul b
  end.

Definition write_query_value (buf : bytes) (v : Value) : bytes :=
  match v with
  | Null => buf
  | Integer i => buf ++ as_bytes (show_i128 i)
  | Real r => buf ++ as_bytes (format_real r)
  | TextV s => write_truncated_at_nul buf (as_bytes s)
  | Blob b => write_truncated_at_nul buf b
  end.

Definition format_csv_value (v : Value) : list Z :=
  match v with
  | Null => []
  | Integer i => show_i128 i
  | Real r => format_real r
  | TextV s => csv_quote s
  | Blob b => csv_quote (format_blob b)
  end.

Definition write_csv_value (buf : list Z) (v : Value) : list Z :=
  match v with
  | Null => buf
  | Integer i => buf ++ show_i128 i
  | Real r => buf ++ format_real r
  | TextV s => buf ++ csv_quote s
  | Blob b => buf ++ csv_quote (format_blob b)
  end.
End values.

(** ** Reading CSV and blob literals *)

(** The rest of a quoted field: a doubled quote is one quote. *)
Fixpoint read_quoted (s : list Z) : option (list Z * list Z) :=
  match s with
  | [] => None
  | c :: r =>
      if decide (c = QUOTE) then
        match r with
        | c2 :: r2 =>
            if decide (c2 = QUOTE) then (λ p, (QUOTE :: p.1, p.2)) <$> read_quoted r2 else Some ([], r)
        | [] => Some ([], [])
        end
      else (λ p, (c :: p.1, p.2)) <$> read_quoted r
  end.

Fixpoint read_bare (s : list Z) : list Z * list Z :=
  match s with
  | c :: r => if decide (c = COMMA ∨ c = NEWLINE) then ([], s) else let p := read_bare r in (c :: p.1, p.2)
  | [] => ([], [])
  end.

(** A field: NULL when nothing is there at all. *)
Definition read_field (s : list Z) : option (option (list Z) * list Z) :=
  match s with
  | c :: r =>
      if decide (c = QUOTE) then (λ p, (Some p.1, p.2)) <$> read_quoted r
      else let p := read_bare s in Some (match p.1 with [] => None | f => Some f end, p.2)
  | [] => Some (None, [])
  end.

Fixpoint read_row (fuel : nat) (s : list Z) : option (list (option (list Z)) * list Z) :=
  match fuel with
  | O => None
  | S fuel =>
      p ← read_field s;
      match p.2 with
      | c :: r =>
          if decide (c = COMMA) then (λ q, (p.1 :: q.1, q.2)) <$> read_row fuel r
          else if decide (c = NEWLINE) then Some ([p.1], r)
          else None
      | [] => None
      end
  end.

Definition unhex_digit (c : Z) : option Z :=
  if decide (48 ≤ c ≤ 57) then Some (c - 48) else if decide (65 ≤ c ≤ 70) then Some (c - 55) else None.

Fixpoint read_hex (s : list Z) : option bytes :=
  match s with
  | [c] => if decide (c = APOSTROPHE) then Some [] else None
  | a :: b :: r => h ← unhex_digit a; l ← unhex_digit b; cons (16 * h + l) <$> read_hex r
  | [] => None
  end.

Definition read_blob (s : list Z) : option bytes :=
  match s with
  | a :: b :: r => if decide (a = 88 ∧ b = APOSTROPHE) then read_hex r else None
  | _ => None
  end.

Fixpoint csv_row (format_real : Z → list Z) (vs : list Value) : list Z :=
  match vs with
  | [] => []
  | [v] => format_csv_value format_real v ++ [NEWLINE]
  | v :: vs => format_csv_value format_real v ++ COMMA :: csv_row format_real vs
  end.

(** The text a field of the row holds. *)
Definition field_text (format_real : Z → list Z) (v : Value) : option (list Z) :=
  match v with
  | Null => None
  | Integer i => Some (show_i128 i)
  | Real r => Some (format_real r)
  | TextV s => Some s
  | Blob b => Some (format_blob b)
  end.

(** ** Lemmas *)

Definition plain_text (s : list Z) : Prop := s ≠ [] ∧ Forall (λ c, csv_char_forces_quote c = false) s.

Lemma plain_char c : csv_char_forces_quote c = false → 0x21 ≤ c ≤ 0x7E ∧ c ≠ QUOTE ∧ c ≠ APOSTROPHE ∧ c ≠ COMMA.
Proof. unfold csv_char_forces_quote. repeat case_bool_decide; done. Qed.

Definition ends_field (r : list Z) : Prop := match r with c :: _ => c = COMMA ∨ c = NEWLINE | [] => True end.

Lemma read_bare_app s r : Forall (λ c, csv_char_forces_quote c = false) s → ends_field r → read_bare (s ++ r) = (s, r).
Proof.
  intros HF Hr. induction HF as [|c s Hc HF IH]; cbn [app].
  - destruct r as [|c r]; [done|]. cbn. by rewrite decide_True.
  - cbn [read_bare]. apply plain_char in Hc as (Hc & _ & _ & Hc2). rewrite decide_False by (unfold COMMA, NEWLINE in *; lia). by rewrite IH.
Qed.

Lemma read_field_plain s r : plain_text s → ends_field r → read_field (s ++ r) = Some (Some s, r).
Proof.
  intros [Hs HF] Hr. destruct s as [|c s]; [done|]. unfold read_field. change ((c :: s) ++ r) with (c :: (s ++ r)).
  pose proof HF as [Hc _]%Forall_cons. apply plain_char in Hc as (_ & Hq & _). rewrite decide_False by done.
  change (c :: s ++ r) with ((c :: s) ++ r). by rewrite read_bare_app.
Qed.

Lemma read_quoted_app s r : match r with c :: _ => c ≠ QUOTE | [] => True end → read_quoted (double_quotes s ++ QUOTE :: r) = Some (s, r).
Proof.
  intros Hr. unfold double_quotes. induction s as [|c s IH]; cbn [map concat app].
  - cbn [read_quoted]. rewrite decide_True by done. destruct r as [|c r]; [done|]. by rewrite decide_False.
  - rewrite <- (assoc_L (++)). case_decide as E.
    + subst c. cbn [app read_quoted]. rewrite !decide_True by done. by rewrite IH.
    + cbn [app read_quoted]. rewrite decide_False by done. by rewrite IH.
Qed.

Lemma read_field_quoted s r : ends_field r → read_field (csv_quote s ++ r) = Some (Some s, r).
Proof.
  intros Hr. unfold csv_quote. case_bool_decide as E; cbn [orb negb].
  - subst s. cbn [app]. unfold read_field. rewrite decide_True by done. cbn. rewrite !decide_True by done.
    destruct r as [|c r]; [done|]. rewrite decide_False; [done|]. destruct Hr as [->| ->]; done.
  - destruct (existsb csv_char_forces_quote s) eqn:Ex; cbn [negb].
    + rewrite <- !(assoc_L (++)). cbn [app]. unfold read_field. rewrite decide_True by done.
      rewrite read_quoted_app; [done|]. destruct r as [|c r]; [done|]. destruct Hr as [->| ->]; done.
    + apply read_field_plain; [|done]. split; [done|]. apply Forall_forall. intros c Hc. destruct (csv_char_forces_quote c) eqn:Ec; [|done].
      assert (existsb csv_char_forces_quote s = true); [|congruence]. apply existsb_exists. exists c. split; [by apply list_elem_of_In|done].
Qed.

Lemma digit_plain c : is_digit c = true → csv_char_forces_quote c = false.
Proof. intros Hc%bool_decide_eq_true_1. unfold csv_char_forces_quote, QUOTE, APOSTROPHE, COMMA. repeat case_bool_decide; try done; lia. Qed.

Lemma show_plain i : i64_ok i → plain_text (show_i128 i).
Proof.
  intros Hi. destruct (show_u128_ok (Z.abs i)) as (_ & Hd & Hne & _).
  { unfold i64_ok in Hi. change (2 ^ 128) with 340282366920938463463374607431768211456. mlia. }
  assert (HF : Forall (λ c, csv_char_forces_quote c = false) (show_u128 (Z.abs i))).
  { apply Forall_forall. intros c Hc. apply digit_plain. rewrite forallb_forall in Hd. apply Hd. by apply list_elem_of_In. }
  unfold show_i128. case_decide.
  - replace (- i) with (Z.abs i) by lia. split; [done|]. constructor; [done|exact HF].
  - replace i with (Z.abs i) by lia. by split.
Qed.

Lemma unhex_hex n : 0 ≤ n < 16 → unhex_digit (hex_digit n) = Some n.
Proof. intros Hn. unfold unhex_digit, hex_digit. repeat case_decide; try lia; f_equal; lia. Qed.

Lemma read_blob_ok b : bytes_ok b → read_blob (format_blob b) = Some b.
Proof.
  intros Hb. unfold format_blob, read_blob. cbn [app]. rewrite decide_True by done. induction Hb as [|x b Hx Hb IH]; [done|].
  cbn [map concat]. unfold hex_byte at 1. cbn [app read_hex]. unfold u8_ok in Hx.
  rewrite !unhex_hex by (first [apply Z.mod_pos_bound; lia | split; [apply Z.div_pos|apply Z.div_lt_upper_bound]; lia]). cbn.
  destruct (concat (map hex_byte b) ++ [APOSTROPHE]) as [|y l] eqn:E; [by destruct (concat (map hex_byte b))|].
  rewrite IH. cbn. do 2 f_equal. pose proof (Z.div_mod x 16). lia.
Qed.

(** Reusing a buffer renders the same. *)
Lemma write_values_append fr buf v :
  write_query_value fr buf v = buf ++ format_query_value fr v ∧ ∀ sbuf, write_csv_value fr sbuf v = sbuf ++ format_csv_value fr v.
Proof. destruct v; cbn; rewrite ?app_nil_r; (split; [done|intros]); by rewrite ?app_nil_r. Qed.

(** ** Properties *)

(** A CSV row says what its values were.  Reading a row of rendered values
    back gives one field per value: the text of a string character for
    character, with its commas, quotes and line breaks, a NULL told apart
    from an empty string, the digits of an integer, and for a blob a literal
    that denotes its bytes.  The text of a REAL is assumed to be made of
    printable characters that need no quotes. *)
Theorem csv_row_roundtrip (format_real : Z → list Z) (vs : list Value) (rest : list Z) :
  (∀ r, plain_text (format_real r)) → vs ≠ [] →
  Forall (λ v, match v with Integer i => i64_ok i | Blob b => bytes_ok b | _ => True end) vs →
  read_row (length vs) (csv_row format_real vs ++ rest) = Some (map (field_text format_real) vs, rest) ∧
  Forall (λ v, match v with Blob b => field_text format_real v ≫= read_blob = Some b | _ => True end) vs.
Proof.
  intros Hreal Hne HF. split.
  - assert (Hfield : ∀ v r, match v with Integer i => i64_ok i | Blob b => bytes_ok b | _ => True end → ends_field r → r ≠ [] →
      read_field (format_csv_value format_real v ++ r) = Some (field_text format_real v, r)).
    { intros v r Hv Hr Hr0. destruct v; cbn [format_csv_value field_text].
      - destruct r as [|c r]; [done|]. cbn [app]. unfold read_field. destruct Hr as [-> | ->]; done.
      - apply read_field_plain; [by apply show_plain|done].
      - by apply read_field_plain.
      - by apply read_field_quoted.
      - by apply read_field_quoted. }
    induction HF as [|v vs Hv HF IH]; [done|]. cbn [length read_row]. destruct vs as [|v2 vs].
    + cbn [csv_row map]. rewrite <- (assoc_L (++)). rewrite Hfield by (done || by right). done.
    + change (csv_row format_real (v :: v2 :: vs)) with (format_csv_value format_real v ++ COMMA :: csv_row format_real (v2 :: vs)).
      rewrite <- (assoc_L (++)). cbn [app]. rewrite Hfield by (done || by left). cbn [mbind option_bind fst snd].
      rewrite decide_True by done. rewrite IH by done. done.
  - eapply Forall_impl; [exact HF|]. intros [| | | |b]; try done. intros Hb. cbn. by apply read_blob_ok.
Qed.

