(* ===== verification/Vfs.v ===== *)
(** * Files and pages ([row/vfs/mod.rs], [row/vfs/memory.rs],
      [row/vfs/page_source.rs])

    A file keeps the bytes known to be on stable storage and the operations
    issued since the last [sync]; its contents, what the process reads back,
    are the first with the second applied, as [MemoryVfs] stores them.  A
    crash keeps any sub-sequence of the operations not yet synced.  On top:
    whole-page reads and writes, the [PageSource] interface of the b-tree,
    and the operations the pager performs, as a trace. *)

From stdpp Require Export strings.
From S2P Require Import Prelude.
#[global] Open Scope Z_scope.

(** ** Errors *)

Inductive VfsError : Type :=
| NotFound (path : string)
| Locked (path : string)
| Io (path : string).

Inductive PageError : Type :=
| InvalidPageNumber
| ShortRead (page_num expected got : Z)
| WrongLength (page_num expected got : Z)
| PageVfs (source : VfsError).

#[global] Instance VfsError_eq_dec : EqDecision VfsError.
Proof. solve_decision. Defined.
#[global] Instance PageError_eq_dec : EqDecision PageError.
Proof. solve_decision. Defined.

(** ** Contents of one file ([MemoryVfsFile]) *)

(** [read_at]: the bytes copied to the front of a buffer of length [len]. *)
Definition file_read_at (data : bytes) (len offset : Z) : bytes :=
  if decide (zlen data ≤ offset) then []
  else take (Z.to_nat (Z.min len (zlen data - offset))) (drop (Z.to_nat offset) data).

(** [Vec::resize(len, 0)]. *)
Definition resize (data : bytes) (len : Z) : bytes :=
  if decide (zlen data < len) then data ++ zeros (len - zlen data)
  else take (Z.to_nat len) data.

Definition file_write_at (data : bytes) (buf : bytes) (offset : Z) : bytes :=
  let e := sat_add offset (zlen buf) in
  let data := if decide (zlen data < e) then resize data e else data in
  take (Z.to_nat offset) data ++ buf ++ drop (Z.to_nat (offset + zlen buf)) data.

Definition file_truncate (data : bytes) (len : Z) : bytes := resize data len.

(** ** Files with a volatile tail *)

Inductive file_op : Type :=
| FWrite (offset : Z) (buf : bytes)
| FTruncate (len : Z).

Definition apply_op (data : bytes) (op : file_op) : bytes :=
  match op with
  | FWrite offset buf => file_write_at data buf offset
  | FTruncate len => file_truncate data len
  end.
Definition apply_ops (data : bytes) (ops : list file_op) : bytes := foldl apply_op data ops.

Record file : Type := File { durable : bytes; pending : list file_op }.
Definition contents (f : file) : bytes := apply_ops (durable f) (pending f).

(** The file system: a path to file map, as [MemoryVfs::files]. *)
Abbreviation fs := (gmap string file).

Definition companion_path (path suffix : string) : string := path +:+ suffix.

(** Bytes a reader of [path] sees. *)
Definition read_file (d : fs) (path : string) : option bytes := contents <$> d !! path.

(** The operations the pager issues, in the order it issues them. *)
Inductive io : Type :=
| CreateOrOpen (path : string)
| WriteAt (path : string) (offset : Z) (buf : bytes)
| TruncateF (path : string) (len : Z)
| SyncF (path : string)
| DeleteF (path : string).

Definition push_op (op : file_op) (f : file) : file := File (durable f) (pending f ++ [op]).

Definition exec_io (d : fs) (op : io) : fs :=
  match op with
  | CreateOrOpen p => match d !! p with Some _ => d | None => <[p := File [] []]> d end
  | WriteAt p offset buf => alter (push_op (FWrite offset buf)) p d
  | TruncateF p len => alter (push_op (FTruncate len)) p d
  | SyncF p => alter (λ f, File (contents f) []) p d
  | DeleteF p => delete p d
  end.
Definition exec_ios (d : fs) (ops : list io) : fs := foldl exec_io d ops.

(** *** Traced computations

    A handler that issues file operations and may fail part-way: the
    operations issued so far and its result. *)

Definition traced (E A : Type) : Type := (list io * result E A)%type.
Definition t_ok {E A} (a : A) : traced E A := ([], Ok a).
Definition t_lift {E A} (r : result E A) : traced E A := ([], r).
Definition t_emit {E} (ops : list io) : traced E () := (ops, Ok ()).
Definition t_bind {E A B} (m : traced E A) (k : A → traced E B) : traced E B :=
  match m with
  | (ops, Ok a) => let '(ops', r) := k a in (ops ++ ops', r)
  | (ops, Err e) => (ops, Err e)
  end.

Notation "'let!' p := m 'in' k" := (t_bind m (λ p, k))
  (at level 10, p strict pattern, m at level 100, k at level 200,
   format "'[v' 'let!'  p  :=  m  'in' '/' k ']'") : dbs_scope.

(** ** Crashes *)

(** Each operation not yet synced reached the disk or did not. *)
Inductive survives : bytes → list file_op → bytes → Prop :=
| survives_nil d : survives d [] d
| survives_keep d op ops d' : survives (apply_op d op) ops d' → survives d (op :: ops) d'
| survives_lose d op ops d' : survives d ops d' → survives d (op :: ops) d'.

(** After a crash every file is clean, with a surviving subset of its
    pending operations. *)
Definition crash (d d' : fs) : Prop :=
  ∀ p, match d !! p, d' !! p with
       | Some f, Some f' => survives (durable f) (pending f) (durable f') ∧ pending f' = []
       | None, None => True
       | _, _ => False
       end.

(** ** Pages *)

Definition page_offset (page_size page_num : Z) : Z := sat_mul (sat_sub page_num 1) page_size.

(** [read_page_at]. *)
Definition read_page_at (data : bytes) (page_size page_num : Z) : result PageError bytes :=
  if decide (page_num = 0) then Err InvalidPageNumber
  else
    let got := file_read_at data page_size (page_offset page_size page_num) in
    if decide (zlen got ≠ page_size)
    then Err (ShortRead page_num page_size (zlen got))
    else Ok got.

(** [WritablePageSource::write_page], on the file's contents. *)
Definition write_page_check (page_size page_num : Z) (bs : bytes) : result PageError Z :=
  if decide (page_num = 0) then Err InvalidPageNumber
  else if decide (zlen bs ≠ page_size) then Err (WrongLength page_num page_size (zlen bs))
  else Ok (page_offset page_size page_num).

Definition write_page (data : bytes) (page_size page_num : Z) (bs : bytes)
  : result PageError bytes :=
  let? offset := write_page_check page_size page_num bs in
  Ok (file_write_at data bs offset).

(** The [PageSource] trait: what the b-tree relies on is that a page read
    has the page size. *)
Class PageSource (S : Type) := {
  source_page_size : S → Z;
  source_read_page : S → Z → result PageError bytes;
  source_read_length s n bs :
    source_read_page s n = Ok bs → zlen bs = source_page_size s;
  source_read_zero s : source_read_page s 0 = Err InvalidPageNumber;
}.

(** ** Lemmas *)

Lemma resize_length data len : 0 ≤ len → zlen (resize data len) = len.
Proof.
  intros. unfold resize. case_decide.
  - rewrite length_app, Nat2Z.inj_add, length_zeros; lia.
  - rewrite length_take. lia.
Qed.

Lemma resize_lookup data len (i : nat) :
  (i < length data)%nat → Z.of_nat i < len → resize data len !! i = data !! i.
Proof.
  intros. unfold resize. case_decide; [by apply lookup_app_l|]. apply lookup_take_lt. lia.
Qed.

Lemma resize_id data len : len = zlen data → resize data len = data.
Proof. intros ->. unfold resize. rewrite decide_False by lia. apply take_ge. lia. Qed.

(** A file write is a slice overwrite on the extended contents. *)
Lemma file_write_at_put data buf offset :
  0 ≤ offset → offset + zlen buf ≤ USIZE_MAX →
  put_range (resize data (Z.max (zlen data) (offset + zlen buf))) offset buf
  = Some (file_write_at data buf offset).
Proof.
  intros Ho Hm. unfold file_write_at, put_range. rewrite sat_add_small by lia.
  rewrite decide_True by (rewrite resize_length; lia). do 2 f_equal.
  - case_decide; f_equal; [f_equal; lia|]. apply resize_id. lia.
  - f_equal. case_decide; f_equal; [f_equal; lia|]. apply resize_id. lia.
Qed.

Lemma file_write_at_length data buf offset :
  0 ≤ offset → offset + zlen buf ≤ USIZE_MAX →
  zlen (file_write_at data buf offset) = Z.max (zlen data) (offset + zlen buf).
Proof.
  intros. rewrite (put_range_length _ _ _ _ (file_write_at_put data buf offset ltac:(lia) ltac:(lia))).
  apply resize_length. lia.
Qed.

Lemma file_write_at_lookup data buf offset (i : nat) :
  0 ≤ offset → offset + zlen buf ≤ USIZE_MAX →
  (i < length data)%nat ∨ offset ≤ Z.of_nat i < offset + zlen buf →
  file_write_at data buf offset !! i =
  if decide (offset ≤ Z.of_nat i < offset + zlen buf) then buf !! (i - Z.to_nat offset)%nat
  else data !! i.
Proof.
  intros Ho Hm Hi.
  rewrite (put_range_lookup _ _ _ _ _ (file_write_at_put data buf offset Ho Hm)).
  case_decide; [done|]. apply resize_lookup; lia.
Qed.

Lemma file_write_at_bytes_ok data buf offset :
  bytes_ok data → bytes_ok buf → 0 ≤ offset → offset + zlen buf ≤ USIZE_MAX →
  bytes_ok (file_write_at data buf offset).
Proof.
  intros. eapply bytes_ok_put_range; [..|by apply file_write_at_put]; [|done].
  unfold resize. case_decide; [apply bytes_ok_app; split; auto with dbs|auto with dbs].
Qed.

(** Below the written range a byte is the old one, or 0 where the file was
    extended. *)
Lemma file_write_at_below data buf offset (i : nat) b :
  0 ≤ offset → offset + zlen buf ≤ USIZE_MAX → Z.of_nat i < offset →
  file_write_at data buf offset !! i = Some b → default 0 (data !! i) = b.
Proof.
  intros Ho Hm Hi.
  rewrite (put_range_lookup _ _ _ _ _ (file_write_at_put data buf offset Ho Hm)).
  rewrite decide_False by lia. unfold resize. case_decide.
  - destruct (decide (i < length data)%nat).
    + rewrite lookup_app_l by lia. by intros ->.
    + rewrite lookup_app_r by lia. unfold zeros.
      intros [-> _]%lookup_replicate. by rewrite lookup_ge_None_2 by lia.
  - rewrite lookup_take_lt by lia. by intros ->.
Qed.

(** Writes at or above [o], whatever subset of them survives, keep the
    bytes below [o] or make them zero where there were none. *)
Lemma survives_above D0 ops D o :
  survives D0 ops D → 0 ≤ o →
  Forall (λ op, match op with
                | FWrite off buf => o ≤ off ∧ off + zlen buf ≤ USIZE_MAX
                | FTruncate _ => False end) ops →
  zlen D0 ≤ zlen D ∧
  (∀ (i : nat) b, Z.of_nat i < o → D0 !! i = Some b → D !! i = Some b) ∧
  (∀ (i : nat) b, Z.of_nat i < o → D !! i = Some b → default 0 (D0 !! i) = b).
Proof.
  intros Hs Ho. induction Hs as [d|d op ops d' Hs IH|d op ops d' Hs IH]; intros Hall.
  - split_and!; [lia|done|]. by intros i b _ ->.
  - apply Forall_cons in Hall as [Hop Hall]. destruct op as [off buf|]; [|done].
    destruct Hop as [Hoff Hfit]. destruct (IH Hall) as (Hl & Hk & Hz). cbn [apply_op] in *.
    rewrite file_write_at_length in Hl by lia. split_and!; [lia| |].
    + intros i b Hi Hb. apply Hk; [done|]. pose proof (lookup_lt_Some _ _ _ Hb).
      rewrite file_write_at_lookup by lia. by rewrite decide_False by lia.
    + intros i b Hi Hb. destruct (file_write_at d buf off !! i) as [x|] eqn:Hx.
      * rewrite <- (Hz i b Hi Hb), Hx. cbn. eapply file_write_at_below; [..|done]; lia.
      * rewrite <- (Hz i b Hi Hb), Hx. cbn. rewrite lookup_ge_None_2; [done|].
        apply lookup_ge_None_1 in Hx. pose proof (file_write_at_length d buf off). lia.
  - apply Forall_cons in Hall as [_ Hall]. auto.
Qed.

Lemma file_write_at_append data buf offset :
  offset = zlen data → offset + zlen buf ≤ USIZE_MAX →
  file_write_at data buf offset = data ++ buf.
Proof.
  intros -> Hm. apply list_eq. intros i.
  pose proof (file_write_at_length data buf (zlen data) ltac:(lia) Hm) as Hl.
  destruct (decide (i < length (data ++ buf))%nat) as [Hi|Hi].
  - rewrite length_app in Hi. rewrite file_write_at_lookup by lia.
    case_decide; [|rewrite lookup_app_l by lia; done].
    rewrite lookup_app_r by lia. f_equal. lia.
  - rewrite length_app in Hi. rewrite !lookup_ge_None_2; [done|rewrite length_app; lia|lia].
Qed.

(** Overwriting the whole file. *)
Lemma file_write_at_whole data buf :
  zlen data ≤ zlen buf → zlen buf ≤ USIZE_MAX → file_write_at data buf 0 = buf.
Proof.
  intros Hl Hm. apply list_eq. intros i.
  pose proof (file_write_at_length data buf 0 ltac:(lia) ltac:(lia)) as Hlen.
  destruct (decide (i < length buf)%nat).
  - rewrite file_write_at_lookup by lia. rewrite decide_True by lia. f_equal. lia.
  - rewrite !lookup_ge_None_2; [done|lia|lia].
Qed.

Lemma file_read_at_range data len offset :
  0 ≤ offset → 0 ≤ len → offset + len ≤ zlen data →
  Some (file_read_at data len offset) = get_range data offset (offset + len).
Proof.
  intros. unfold file_read_at, get_range. case_decide; (case_decide; [|lia]).
  - replace (offset + len - offset) with 0 by lia. done.
  - do 2 f_equal. lia.
Qed.

Lemma file_read_at_length data len offset :
  0 ≤ offset → 0 ≤ len →
  zlen (file_read_at data len offset) = Z.max 0 (Z.min len (zlen data - offset)).
Proof.
  intros. unfold file_read_at. case_decide; [cbn; lia|].
  rewrite length_take, length_drop. lia.
Qed.

(** Page number and size in range: no arithmetic saturates. *)
Definition page_ok (page_size page_num : Z) : Prop :=
  1 ≤ page_num ≤ U32_MAX ∧ 512 ≤ page_size ≤ 65536.

Lemma page_offset_eq ps n : page_ok ps n →
  page_offset ps n = (n - 1) * ps ∧ 0 ≤ (n - 1) * ps ∧ n * ps ≤ 2 ^ 48.
Proof.
  intros [Hn Hp]. unfold page_offset. rewrite sat_sub_ge by lia.
  assert (Hle : n * ps ≤ 2 ^ 48).
  { change (2 ^ 48) with (4294967296 * 65536). apply Z.mul_le_mono_nonneg; mlia. }
  change (2 ^ 48) with 281474976710656 in *.
  rewrite sat_mul_small by mlia. split; [done|]. nia.
Qed.

Lemma read_page_at_Ok data ps n bs :
  page_ok ps n →
  read_page_at data ps n = Ok bs ↔ get_range data ((n - 1) * ps) (n * ps) = Some bs.
Proof.
  intros Hp. destruct (page_offset_eq ps n Hp) as (Ho & ? & ?).
  destruct Hp as [Hn Hps].
  unfold read_page_at. rewrite decide_False, Ho by lia.
  set (o := (n - 1) * ps) in *. assert (n * ps = o + ps) as -> by lia.
  rewrite file_read_at_length by lia.
  destruct (decide (o + ps ≤ zlen data)).
  - rewrite decide_False by lia. rewrite <- file_read_at_range by lia. naive_solver.
  - rewrite decide_True by lia. split; [done|].
    intros (? & ? & _)%get_range_Some. lia.
Qed.

Lemma read_page_at_Err data ps n e :
  page_ok ps n →
  read_page_at data ps n = Err e ↔
  zlen data < n * ps ∧ e = ShortRead n ps (Z.max 0 (zlen data - (n - 1) * ps)).
Proof.
  intros Hp. destruct (page_offset_eq ps n Hp) as (Ho & ? & ?).
  destruct Hp as [Hn Hps].
  unfold read_page_at. rewrite decide_False, Ho by lia.
  set (o := (n - 1) * ps) in *. assert (n * ps = o + ps) as -> by lia.
  rewrite file_read_at_length by lia. case_decide.
  - rewrite Z.min_r by lia. split; [intros [= <-]; split; [lia|done]|intros [_ ->]; done].
  - split; [done|lia].
Qed.

Lemma read_page_at_length data ps n bs :
  page_ok ps n → read_page_at data ps n = Ok bs → zlen bs = ps.
Proof.
  intros Hp Hr%read_page_at_Ok; [|done]. apply get_range_length in Hr. lia.
Qed.

Lemma read_write_page_same data ps n bs :
  page_ok ps n → zlen bs = ps →
  read_page_at (file_write_at data bs ((n - 1) * ps)) ps n = Ok bs.
Proof.
  intros Hp Hl. apply read_page_at_Ok; [done|].
  destruct (page_offset_eq ps n Hp) as (_ & ? & ?).
  change (2 ^ 48) with 281474976710656 in *.
  eapply get_put_same; [apply file_write_at_put|]; mlia.
Qed.

Lemma read_write_page_other data ps n m bs :
  page_ok ps n → page_ok ps m → n ≠ m → zlen bs = ps → m * ps ≤ zlen data →
  read_page_at (file_write_at data bs ((n - 1) * ps)) ps m = read_page_at data ps m.
Proof.
  intros Hp Hq Hne Hl Hm.
  destruct (page_offset_eq ps n Hp) as (_ & ? & ?).
  destruct (page_offset_eq ps m Hq) as (_ & ? & ?).
  change (2 ^ 48) with 281474976710656 in *.
  assert (Hext : get_range (file_write_at data bs ((n - 1) * ps)) ((m - 1) * ps) (m * ps)
               = get_range data ((m - 1) * ps) (m * ps)).
  { apply get_range_ext; [lia| |lia|].
    - rewrite file_write_at_length by mlia. lia.
    - intros i Hi. rewrite file_write_at_lookup by mlia.
      rewrite decide_False; [done|]. destruct Hp, Hq. nia. }
  destruct (read_page_at data ps m) as [bs'|e] eqn:Hr.
  - apply read_page_at_Ok; [done|]. rewrite Hext. by apply read_page_at_Ok.
  - apply read_page_at_Err in Hr as [? _]; [lia|done].
Qed.

(** *** Traces *)

Lemma t_bind_lift_Ok {E A B} (a : A) (k : A → traced E B) : t_bind ([], Ok a) k = k a.
Proof. unfold t_bind. by destruct (k a). Qed.

Lemma t_bind_t_ok {E A B} (a : A) (k : A → traced E B) : t_bind (t_ok a) k = k a.
Proof. apply t_bind_lift_Ok. Qed.
Lemma t_bind_t_lift {E A B} (a : A) (k : A → traced E B) : t_bind (t_lift (Ok a)) k = k a.
Proof. apply t_bind_lift_Ok. Qed.

Lemma t_bind_Ok {E A B} ops (a : A) (k : A → traced E B) :
  t_bind (ops, Ok a) k = (ops ++ (k a).1, (k a).2).
Proof. unfold t_bind. by destruct (k a). Qed.

(** *** Traces on one file *)

Definition as_io (p : string) (op : file_op) : io :=
  match op with
  | FWrite offset buf => WriteAt p offset buf
  | FTruncate len => TruncateF p len
  end.

Lemma exec_as_io d p op : exec_io d (as_io p op) = alter (push_op op) p d.
Proof. by destruct op. Qed.

Lemma exec_ios_app d ops1 ops2 : exec_ios d (ops1 ++ ops2) = exec_ios (exec_ios d ops1) ops2.
Proof. apply foldl_app. Qed.

Lemma alter_as_insert (g : file → file) p (d : fs) f :
  d !! p = Some f → alter g p d = <[p := g f]> d.
Proof.
  intros Hf. apply map_eq. intros q. destruct (decide (q = p)) as [->|Hne].
  - by rewrite lookup_alter_eq, lookup_insert_eq, Hf.
  - by rewrite lookup_alter_ne, lookup_insert_ne by done.
Qed.

Lemma exec_ios_writes d p f ops :
  d !! p = Some f →
  exec_ios d (map (as_io p) ops) = <[p := File (durable f) (pending f ++ ops)]> d.
Proof.
  revert d f. induction ops as [|op ops IH]; intros d f Hf; cbn [map].
  - rewrite app_nil_r. symmetry. apply insert_id. by destruct f.
  - change (exec_ios (exec_io d (as_io p op)) (map (as_io p) ops)
            = <[p:=File (durable f) (pending f ++ op :: ops)]> d).
    rewrite exec_as_io, (alter_as_insert _ _ _ f Hf).
    rewrite (IH _ (push_op op f)) by apply lookup_insert_eq.
    rewrite insert_insert_eq. unfold push_op. cbn. by rewrite <- (assoc_L (++)).
Qed.

Lemma read_file_insert (d : fs) p f : read_file (<[p := f]> d) p = Some (contents f).
Proof. unfold read_file. by rewrite lookup_insert_eq. Qed.

Lemma survives_all D ops : survives D ops (apply_ops D ops).
Proof. revert D. induction ops; intros D; cbn; by constructor. Qed.

(** ** The file-backed page source ([VfsPageSource], [WritablePageSource]) *)

Record VfsPageSource : Type := {
  vps_data : bytes;
  vps_page_size : Z;
}.

#[export] Program Instance VfsPageSource_source : PageSource VfsPageSource := {
  source_page_size s := vps_page_size s;
  source_read_page s n := read_page_at (vps_data s) (vps_page_size s) n;
}.
Next Obligation.
  intros s n bs. unfold read_page_at. case_decide; [done|]. case_decide as Hd; [done|].
  intros [= <-]. lia.
Qed.
Next Obligation. intros s. done. Qed.

(** ** Properties *)

(** Whole-page writes and reads of a database file: a page just written
    reads back, every other page that was in the file is unchanged, the file
    grows to hold the page and never shrinks, page 0 and a buffer of the
    wrong length are refused, and a read past the end is a short read. *)
Theorem page_write_read (data bs : bytes) (ps n : Z) (Hn : page_ok ps n) (Hbs : zlen bs = ps) :
  ∃ data', write_page data ps n bs = Ok data' ∧
    read_page_at data' ps n = Ok bs ∧
    (∀ m, page_ok ps m → m ≠ n → m * ps ≤ zlen data →
       read_page_at data' ps m = read_page_at data ps m) ∧
    zlen data' = Z.max (zlen data) (n * ps) ∧
    (∀ m, page_ok ps m → zlen data' < m * ps →
       ∃ got, read_page_at data' ps m = Err (ShortRead m ps got)) ∧
    write_page data ps 0 bs = Err InvalidPageNumber ∧
    (∀ bad, zlen bad ≠ ps → write_page data ps n bad = Err (WrongLength n ps (zlen bad))).
Proof.
  destruct (page_offset_eq ps n Hn) as (Ho & ? & ?).
  change (2 ^ 48) with 281474976710656 in *.
  exists (file_write_at data bs ((n - 1) * ps)).
  unfold write_page, write_page_check. rewrite Ho.
  rewrite (decide_False (P := n = 0)) by (destruct Hn; lia).
  rewrite (decide_False (P := zlen bs ≠ ps)) by lia.
  split_and!; [done|by apply read_write_page_same| | | |done|].
  - intros m Hm Hne Hle. by apply read_write_page_other.
  - rewrite file_write_at_length by mlia. f_equal. lia.
  - intros m Hm Hlt. eexists. apply read_page_at_Err; [done|]. split; [lia|reflexivity].
  - intros bad Hbad. case_decide; [destruct Hn; lia|]. by case_decide.
Qed.

