(* ===== verification/Header.v ===== *)
(** * The database header ([row/header.rs])

    Bytes 0-99 of page 1: [DatabaseHeader::parse] with its guards in the
    source's order, and the page 1 that bootstraps a new database file. *)

From S2P Require Import Prelude Text.

Definition HEADER_LEN : Z := 100.
Definition DEFAULT_PAGE_SIZE : Z := 4096.

(** [b"SQLite format 3\0"]. *)
Definition MAGIC : bytes :=
  [0x53; 0x51; 0x4c; 0x69; 0x74; 0x65; 0x20; 0x66;
   0x6f; 0x72; 0x6d; 0x61; 0x74; 0x20; 0x33; 0x00].

Inductive VersionField : Type := VersionWrite | VersionRead.

Inductive HeaderError : Type :=
| HeaderTooShort (len : Z)
| InvalidMagic
| InvalidPageSize (raw : Z)
| InvalidFileFormatVersion (field : VersionField) (value : Z)
| InvalidReservedSpace (reserved_space page_size : Z)
| InvalidTextEncoding (raw : Z).

Inductive JournalMode : Type := Legacy | WalMode.
Inductive SynchronousMode : Type := SyncOff | SyncNormal | SyncFull.

#[global] Instance VersionField_eq_dec : EqDecision VersionField.
Proof. solve_decision. Defined.
#[global] Instance HeaderError_eq_dec : EqDecision HeaderError.
Proof. solve_decision. Defined.
#[global] Instance JournalMode_eq_dec : EqDecision JournalMode.
Proof. solve_decision. Defined.
#[global] Instance SynchronousMode_eq_dec : EqDecision SynchronousMode.
Proof. solve_decision. Defined.

Record DatabaseHeader : Type := {
  page_size : Z;
  write_version : Z;
  read_version : Z;
  reserved_space : Z;
  page_count : Z;
  freelist_trunk_page : Z;
  freelist_page_count : Z;
  schema_cookie : Z;
  schema_format : Z;
  largest_root_btree_page : Z;
  text_encoding : TextEncoding;
  user_version : Z;
  application_id : Z;
}.

Definition header_read_u8 (buf : bytes) (offset : Z) : result HeaderError Z :=
  ok_or (get_byte buf offset) (HeaderTooShort (zlen buf)).

Definition header_read_u32 (buf : bytes) (offset : Z) : result HeaderError Z :=
  ok_or (read_be 4 buf offset) (HeaderTooShort (zlen buf)).

(** [put]: out of range it silently does nothing. *)
Definition put (buf : bytes) (offset : Z) (bs : bytes) : bytes :=
  default buf (put_range buf offset bs).

(** [u32::is_power_of_two]. *)
Definition is_power_of_two (z : Z) : bool := (0 <? z) && (Z.land z (z - 1) =? 0).

Definition DatabaseHeader_parse (buf : bytes) : result HeaderError DatabaseHeader :=
  if decide (zlen buf < HEADER_LEN) then Err (HeaderTooShort (zlen buf))
  else if decide (get_range buf 0 16 ≠ Some MAGIC) then Err InvalidMagic
  else
    let? b16 := header_read_u8 buf 16 in
    let? b17 := header_read_u8 buf 17 in
    let raw_page_size := be_val [b16; b17] in
    let page_size := if decide (raw_page_size = 1) then 65536 else raw_page_size in
    if (page_size <? 512) || negb (is_power_of_two page_size)
    then Err (InvalidPageSize raw_page_size)
    else
    let? write_version := header_read_u8 buf 18 in
    if negb ((write_version =? 1) || (write_version =? 2))
    then Err (InvalidFileFormatVersion VersionWrite write_version)
    else
    let? read_version := header_read_u8 buf 19 in
    if negb ((read_version =? 1) || (read_version =? 2))
    then Err (InvalidFileFormatVersion VersionRead read_version)
    else
    let? reserved_space := header_read_u8 buf 20 in
    if decide (page_size ≤ reserved_space)
    then Err (InvalidReservedSpace reserved_space page_size)
    else
    let? page_count := header_read_u32 buf 28 in
    let? freelist_trunk_page := header_read_u32 buf 32 in
    let? freelist_page_count := header_read_u32 buf 36 in
    let? schema_cookie := header_read_u32 buf 40 in
    let? schema_format := header_read_u32 buf 44 in
    let? largest_root_btree_page := header_read_u32 buf 52 in
    let? text_encoding_raw := header_read_u32 buf 56 in
    let? text_encoding :=
      (match text_encoding_raw with
       | 1 => Ok Utf8
       | 2 => Ok Utf16Le
       | 3 => Ok Utf16Be
       | other => Err (InvalidTextEncoding other)
       end) in
    let? user_version := header_read_u32 buf 60 in
    let? application_id := header_read_u32 buf 68 in
    Ok {| page_size := page_size; write_version := write_version;
          read_version := read_version; reserved_space := reserved_space;
          page_count := page_count; freelist_trunk_page := freelist_trunk_page;
          freelist_page_count := freelist_page_count; schema_cookie := schema_cookie;
          schema_format := schema_format;
          largest_root_btree_page := largest_root_btree_page;
          text_encoding := text_encoding; user_version := user_version;
          application_id := application_id |}.

Definition journal_mode (h : DatabaseHeader) : JournalMode :=
  if (write_version h =? 2) && (read_version h =? 2) then WalMode else Legacy.

(** The source subtracts with [-]: a [u32] underflow is excluded by
    [parse]'s reserved-space guard (see [header_parse_sound]). *)
Definition usable_page_size (h : DatabaseHeader) : Z :=
  wrap32 (page_size h - reserved_space h).

Definition new_empty_page1 (page_size : Z) : bytes :=
  let page1 := zeros page_size in
  let page1 := put page1 0 MAGIC in
  let raw_page_size := if decide (page_size = 65536) then 1 else wrap16 page_size in
  let page1 := put page1 16 (be_bytes 2 raw_page_size) in
  let page1 := put page1 18 [1] in
  let page1 := put page1 19 [1] in
  let page1 := put page1 21 [64] in
  let page1 := put page1 22 [32] in
  let page1 := put page1 23 [32] in
  let page1 := put page1 28 (be_bytes 4 1) in
  let page1 := put page1 44 (be_bytes 4 4) in
  let page1 := put page1 56 (be_bytes 4 1) in
  let page1 := put page1 HEADER_LEN [0x0d] in
  let content_start := if decide (page_size = 65536) then 0 else wrap16 page_size in
  put page1 (HEADER_LEN + 5) (be_bytes 2 content_start).

(** ** Lemmas *)

Definition valid_page_sizes : list Z := [512; 1024; 2048; 4096; 8192; 16384; 32768; 65536].
Definition valid_page_size (ps : Z) : Prop := ps ∈ valid_page_sizes.

#[global] Instance valid_page_size_dec ps : Decision (valid_page_size ps).
Proof. unfold valid_page_size. apply _. Defined.

Lemma valid_page_size_bounds ps : valid_page_size ps → 512 ≤ ps ≤ 65536.
Proof.
  unfold valid_page_size, valid_page_sizes. rewrite !elem_of_cons, elem_of_nil. lia.
Qed.

Lemma is_power_of_two_spec z : is_power_of_two z = true → z = 2 ^ Z.log2 z.
Proof.
  unfold is_power_of_two. rewrite andb_true_iff. intros [Hz Hl].
  pose proof (Z.log2_spec z ltac:(lia)) as [Hlo Hhi].
  rewrite Z.pow_succ_r in Hhi by apply Z.log2_nonneg.
  destruct (decide (z = 2 ^ Z.log2 z)); [done|exfalso].
  assert (Hk : Z.log2 (z - 1) = Z.log2 z).
  { apply Z.log2_unique; [apply Z.log2_nonneg|].
    rewrite Z.pow_succ_r by apply Z.log2_nonneg. lia. }
  assert (Hb : Z.testbit (Z.land z (z - 1)) (Z.log2 z) = true).
  { rewrite Z.land_spec, Z.bit_log2 by lia. rewrite <- Hk at 1.
    rewrite Z.bit_log2; [done|]. pose proof (Z.log2_nonneg z).
    assert (1 ≤ 2 ^ Z.log2 z) by lia. lia. }
  apply Z.eqb_eq in Hl. rewrite Hl, Z.bits_0 in Hb. done.
Qed.

Lemma power_of_two_page_size z :
  512 ≤ z ≤ 65536 → is_power_of_two z = true → valid_page_size z.
Proof.
  intros Hz Hp%is_power_of_two_spec. unfold valid_page_size, valid_page_sizes.
  pose proof (Z.log2_le_mono 512 z ltac:(lia)) as Hlo.
  pose proof (Z.log2_le_mono z 65536 ltac:(lia)) as Hhi.
  change (Z.log2 512) with 9 in Hlo. change (Z.log2 65536) with 16 in Hhi.
  rewrite Hp. set (k := Z.log2 z) in *. rewrite !elem_of_cons.
  assert (k = 9 ∨ k = 10 ∨ k = 11 ∨ k = 12 ∨ k = 13 ∨ k = 14 ∨ k = 15 ∨ k = 16) as Hk by lia.
  destruct Hk as [->|[->|[->|[->|[->|[->|[->| ->]]]]]]]; vm_compute; tauto.
Qed.

Lemma put_app_l (p s : bytes) off bs :
  0 ≤ off → off + zlen bs ≤ zlen p → put (p ++ s) off bs = put p off bs ++ s.
Proof.
  intros. unfold put, put_range. rewrite length_app, !decide_True by lia. simpl.
  rewrite take_app_le, drop_app_le by lia. by rewrite <- !(assoc_L (++)).
Qed.

Lemma put_length buf off bs : zlen (put buf off bs) = zlen buf.
Proof.
  unfold put. destruct (put_range buf off bs) eqn:Hp; [|done]. simpl.
  by rewrite (put_range_length _ _ _ _ Hp).
Qed.

Lemma put_bytes_ok buf off bs : bytes_ok buf → bytes_ok bs → bytes_ok (put buf off bs).
Proof.
  intros. unfold put. destruct (put_range buf off bs) eqn:Hp; [|done].
  by apply (bytes_ok_put_range buf off bs).
Qed.

(** ** The header's specification: where each field lies and which values
    are valid. *)

Definition encoding_number (e : TextEncoding) : Z :=
  match e with Utf8 => 1 | Utf16Le => 2 | Utf16Be => 3 end.

Definition header_fields (h : DatabaseHeader) : list (Z * Z) :=
  [(28, page_count h); (32, freelist_trunk_page h); (36, freelist_page_count h);
   (40, schema_cookie h); (44, schema_format h); (52, largest_root_btree_page h);
   (56, encoding_number (text_encoding h)); (60, user_version h); (68, application_id h)].

Record header_at (buf : bytes) (h : DatabaseHeader) : Prop := {
  ha_len : HEADER_LEN ≤ zlen buf;
  ha_magic : get_range buf 0 16 = Some MAGIC;
  ha_page_size : valid_page_size (page_size h) ∧
    read_be 2 buf 16 = Some (if decide (page_size h = 65536) then 1 else page_size h);
  ha_write_version : get_byte buf 18 = Some (write_version h) ∧ 1 ≤ write_version h ≤ 2;
  ha_read_version : get_byte buf 19 = Some (read_version h) ∧ 1 ≤ read_version h ≤ 2;
  ha_reserved : get_byte buf 20 = Some (reserved_space h) ∧ 0 ≤ reserved_space h < 256;
  ha_fields : Forall (λ f, read_be 4 buf f.1 = Some f.2) (header_fields h);
}.

Lemma read_be2_get_byte buf o b0 b1 :
  get_byte buf o = Some b0 → get_byte buf (o + 1) = Some b1 → o + 2 ≤ USIZE_MAX →
  read_be 2 buf o = Some (be_val [b0; b1]).
Proof.
  intros [Ho H0]%get_byte_Some [_ H1]%get_byte_Some Hu.
  pose proof (lookup_lt_Some _ _ _ H0). pose proof (lookup_lt_Some _ _ _ H1).
  unfold read_be. rewrite sat_add_small by lia. change (Z.of_nat 2) with 2.
  assert (get_range buf o (o + 2) = Some [b0; b1]) as ->; [|done].
  apply get_range_Some. split_and!; [lia..|].
  replace (Z.to_nat (o + 2 - o)) with 2%nat by lia.
  apply drop_S in H0. rewrite H0.
  replace (S (Z.to_nat o)) with (Z.to_nat (o + 1)) by lia.
  apply drop_S in H1. by rewrite H1.
Qed.

Lemma be_val2_bound b0 b1 : u8_ok b0 → u8_ok b1 → 0 ≤ be_val [b0; b1] < 65536.
Proof.
  intros ??. apply (be_val_bound [b0; b1]). apply Forall_cons; split; [done|]. by apply Forall_singleton.
Qed.

Lemma be_bytes_inj2 a b c d :
  u8_ok a → u8_ok b → u8_ok c → u8_ok d → be_val [a; b] = be_val [c; d] → a = c ∧ b = d.
Proof. cbn. mlia. Qed.

Lemma read_be2_bytes buf v :
  bytes_ok buf → read_be 2 buf 16 = Some v →
  ∃ b0 b1, get_byte buf 16 = Some b0 ∧ get_byte buf 17 = Some b1 ∧
           u8_ok b0 ∧ u8_ok b1 ∧ be_val [b0; b1] = v.
Proof.
  intros Hok Hr. pose proof Hr as (? & Hl & _)%read_be_Some; [|mlia].
  assert (∃ b0, get_byte buf 16 = Some b0) as [b0 H0].
  { destruct (get_byte buf 16) eqn:E; [eauto|]. apply get_byte_None in E. lia. }
  assert (∃ b1, get_byte buf 17 = Some b1) as [b1 H1].
  { destruct (get_byte buf 17) eqn:E; [eauto|]. apply get_byte_None in E. lia. }
  exists b0, b1. split_and!; eauto with dbs.
  assert (read_be 2 buf 16 = Some (be_val [b0; b1])) by (apply read_be2_get_byte; [done..|mlia]).
  congruence.
Qed.

Lemma version_guard v : negb ((v =? 1) || (v =? 2)) = false ↔ 1 ≤ v ≤ 2.
Proof. rewrite negb_false_iff, orb_true_iff. lia. Qed.

Lemma DatabaseHeader_parse_complete buf h :
  bytes_ok buf → header_at buf h → DatabaseHeader_parse buf = Ok h.
Proof.
  intros Hok [Hlen Hm [Hps Hr] [Hw Hwv] [Hrd Hrv] [Hs Hsv] Hf].
  apply (read_be2_bytes _ _ Hok) in Hr as (b0 & b1 & H0 & H1 & _ & _ & Hv).
  pose proof (valid_page_size_bounds _ Hps).
  unfold DatabaseHeader_parse, header_read_u8, header_read_u32.
  rewrite decide_False by lia. rewrite decide_False by (rewrite Hm; tauto).
  rewrite H0, H1. cbn [ok_or]. rewrite Hv.
  assert (Hps' : (if decide ((if decide (page_size h = 65536) then 1 else page_size h) = 1)
                  then 65536 else (if decide (page_size h = 65536) then 1 else page_size h))
                 = page_size h).
  { case_decide; [done|]. case_decide; lia. }
  rewrite Hps'.
  assert ((page_size h <? 512) || negb (is_power_of_two (page_size h)) = false) as ->.
  { clear -Hps. unfold valid_page_size, valid_page_sizes in Hps. revert Hps.
    rewrite !elem_of_cons, elem_of_nil.
    intros [->|[->|[->|[->|[->|[->|[->|[->|[]]]]]]]]]; reflexivity. }
  rewrite Hw. cbn [ok_or]. rewrite (proj2 (version_guard _) Hwv).
  rewrite Hrd. cbn [ok_or]. rewrite (proj2 (version_guard _) Hrv).
  rewrite Hs. cbn [ok_or]. rewrite decide_False by lia.
  unfold header_fields in Hf. rewrite !Forall_cons in Hf. cbn [fst snd] in Hf.
  destruct Hf as (-> & -> & -> & -> & -> & -> & -> & -> & -> & _). cbn [ok_or].
  destruct h as [? ? ? ? ? ? ? ? ? ? e ? ?]. cbn. by destruct e.
Qed.

Lemma DatabaseHeader_parse_sound buf h :
  bytes_ok buf → DatabaseHeader_parse buf = Ok h → header_at buf h.
Proof.
  intros Hok. unfold DatabaseHeader_parse, header_read_u8, header_read_u32.
  case_decide as Hlen; [done|]. case_decide as Hm; [done|].
  destruct (get_byte buf 16) as [b0|] eqn:H0; [|done]. cbn [ok_or].
  destruct (get_byte buf 17) as [b1|] eqn:H1; [|done]. cbn [ok_or].
  pose proof (be_val2_bound b0 b1 ltac:(eauto with dbs) ltac:(eauto with dbs)) as Hb.
  pose proof (read_be2_get_byte buf 16 b0 b1 H0 H1 ltac:(mlia)) as Hr.
  set (raw := be_val [b0; b1]) in *.
  set (ps := if decide (raw = 1) then 65536 else raw) in *.
  destruct (_ || _) eqn:Hg; [done|]. apply orb_false_iff in Hg as [Hg1 Hg2].
  apply negb_false_iff in Hg2. apply Z.ltb_ge in Hg1.
  assert (Hps : valid_page_size ps).
  { apply power_of_two_page_size; [|done]. unfold ps in *. case_decide; lia. }
  destruct (get_byte buf 18) as [w|] eqn:Hw; [|done]. cbn [ok_or].
  destruct (negb _) eqn:Hwv; [done|]. apply version_guard in Hwv.
  destruct (get_byte buf 19) as [r|] eqn:Hrd; [|done]. cbn [ok_or].
  destruct (negb _) eqn:Hrv; [done|]. apply version_guard in Hrv.
  destruct (get_byte buf 20) as [s|] eqn:Hs; [|done]. cbn [ok_or].
  case_decide; [done|].
  destruct (read_be 4 buf 28) eqn:?; [|done]. cbn [ok_or].
  destruct (read_be 4 buf 32) eqn:?; [|done]. cbn [ok_or].
  destruct (read_be 4 buf 36) eqn:?; [|done]. cbn [ok_or].
  destruct (read_be 4 buf 40) eqn:?; [|done]. cbn [ok_or].
  destruct (read_be 4 buf 44) eqn:?; [|done]. cbn [ok_or].
  destruct (read_be 4 buf 52) eqn:?; [|done]. cbn [ok_or].
  destruct (read_be 4 buf 56) as [e|] eqn:?; [|done]. cbn [ok_or].
  destruct (match e with 1 => _ | _ => _ end) as [enc|] eqn:He; [|done].
  assert (He' : encoding_number enc = e).
  { destruct e as [|[[| |]|[| |]|]|]; simplify_eq/=; done. }
  destruct (read_be 4 buf 60) eqn:?; [|done]. cbn [ok_or].
  destruct (read_be 4 buf 68) eqn:?; [|done]. cbn [ok_or].
  intros [= <-]. pose proof (bytes_ok_get_byte _ _ _ Hok Hs).
  split; cbn; [lia|done|split; [done|]|done|done|split; [done|mlia]|].
  - rewrite Hr. f_equal. unfold ps in *. repeat case_decide; lia.
  - unfold header_fields. cbn. rewrite He'. rewrite !Forall_cons. cbn. by split_and!.
Qed.

(** *** The bootstrap page *)

Definition page1_header (ps : Z) : DatabaseHeader :=
  {| page_size := ps; write_version := 1; read_version := 1; reserved_space := 0;
     page_count := 1; freelist_trunk_page := 0; freelist_page_count := 0;
     schema_cookie := 0; schema_format := 4; largest_root_btree_page := 0;
     text_encoding := Utf8; user_version := 0; application_id := 0 |}.

(** Its first 107 bytes: the file header and the header of an empty leaf. *)
Definition page1_prefix (raw content_start : Z) : bytes :=
  MAGIC ++ be_bytes 2 raw ++ [1; 1; 0; 64; 32; 32; 0; 0; 0; 0] ++ be_bytes 4 1 ++ zeros 12
  ++ be_bytes 4 4 ++ zeros 8 ++ be_bytes 4 1 ++ zeros 40 ++ [0x0d; 0; 0; 0; 0]
  ++ be_bytes 2 content_start.

Lemma page1_prefix_length raw cs : length (page1_prefix raw cs) = 107%nat.
Proof. reflexivity. Qed.

Lemma new_empty_page1_eq ps :
  valid_page_size ps →
  new_empty_page1 ps =
  page1_prefix (if decide (ps = 65536) then 1 else wrap16 ps)
               (if decide (ps = 65536) then 0 else wrap16 ps) ++ zeros (ps - 107).
Proof.
  intros Hps. pose proof (valid_page_size_bounds _ Hps). unfold new_empty_page1.
  replace (zeros ps) with (zeros 107 ++ zeros (ps - 107))
    by (rewrite <- zeros_add by lia; f_equal; lia).
  generalize (if decide (ps = 65536) then 1 else wrap16 ps) as raw.
  generalize (if decide (ps = 65536) then 0 else wrap16 ps) as cs. intros cs raw.
  assert (zlen (zeros 107) = 107) by done.
  repeat (rewrite put_app_l by (rewrite ?put_length, ?be_bytes_length; vm_compute; congruence)).
  f_equal.
Qed.

Lemma header_at_ext (buf buf' : bytes) h :
  HEADER_LEN ≤ zlen buf' →
  (∀ i : nat, Z.of_nat i < HEADER_LEN → buf' !! i = buf !! i) →
  header_at buf h → header_at buf' h.
Proof.
  unfold HEADER_LEN. intros Hl Heq [Hlen Hm [Hps Hr] [Hw Hwv] [Hrd Hrv] [Hs Hsv] Hf].
  unfold HEADER_LEN in Hlen.
  assert (Hg : ∀ a b, 0 ≤ a → b ≤ 100 → get_range buf' a b = get_range buf a b).
  { intros a b ??. apply get_range_ext; [lia..|]. intros i ?. apply Heq. lia. }
  assert (Hb : ∀ i, 0 ≤ i < 100 → get_byte buf' i = get_byte buf i).
  { intros i ?. unfold get_byte. rewrite !decide_True by lia. apply Heq. lia. }
  assert (Hbe : ∀ n o, 0 ≤ o → o + Z.of_nat n ≤ 100 → read_be n buf' o = read_be n buf o).
  { intros n o ??. unfold read_be. rewrite sat_add_small by mlia. by rewrite Hg by lia. }
  split; rewrite ?Hg, ?Hb, ?Hbe by lia; try done.
  unfold header_fields in *. rewrite !Forall_cons in *. cbn [fst snd] in *.
  rewrite !Hbe by lia. destruct Hf as (?&?&?&?&?&?&?&?&?&_). split_and!; [done..|apply Forall_nil_2].
Qed.

Lemma new_empty_page1_bytes_ok ps : bytes_ok (new_empty_page1 ps).
Proof.
  unfold new_empty_page1.
  repeat (apply put_bytes_ok; [|first [apply be_bytes_ok | apply Forall_singleton; mlia]]).
  apply put_bytes_ok; [apply bytes_ok_zeros|]. unfold MAGIC, bytes_ok.
  repeat (apply Forall_cons; split; [mlia|]). apply Forall_nil_2.
Qed.

(** ** Properties *)

(** Functional correctness of header parsing.  On any byte buffer
    [parse] succeeds with [h] exactly when the buffer holds the magic, a
    page size that is a power of two from 512 to 65536 (encoded as 1 when
    65536), versions 1 or 2, a known text encoding, and every field of [h]
    at its offset; the result then always leaves usable bytes in a page, and
    no larger buffer with the same first 100 bytes parses differently. *)
Theorem header_parse_spec (buf : bytes) (h : DatabaseHeader) (Hok : bytes_ok buf) :
  (DatabaseHeader_parse buf = Ok h ↔ header_at buf h) ∧
  (DatabaseHeader_parse buf = Ok h →
     usable_page_size h = page_size h - reserved_space h ∧
     256 < usable_page_size h ≤ 65536 ∧
     ∀ rest, bytes_ok rest → DatabaseHeader_parse (buf ++ rest) = Ok h).
Proof.
  split; [split; [by apply DatabaseHeader_parse_sound|by apply DatabaseHeader_parse_complete]|].
  intros Hp%DatabaseHeader_parse_sound; [|done].
  destruct (ha_page_size _ _ Hp) as [Hps%valid_page_size_bounds _].
  destruct (ha_reserved _ _ Hp) as [_ Hres]. unfold usable_page_size.
  rewrite wrap32_small by mlia. split_and!; [done|lia..|].
  intros rest Hrest. apply DatabaseHeader_parse_complete; [by apply bytes_ok_app|].
  pose proof (ha_len _ _ Hp). apply header_at_ext with buf; [rewrite length_app; lia| |done].
  intros i Hi. apply lookup_app_l. lia.
Qed.

(** The page 1 a new database file is bootstrapped with: for every
    valid page size it has exactly that size, parses back to a header with
    that page size, one page, no freelist, UTF-8 text and the rollback
    journal, and its b-tree header at byte 100 is an empty table leaf whose
    content area starts at the end of the page (0 standing for 65536). *)
Theorem new_empty_page1_parses (ps : Z) (Hps : valid_page_size ps) :
  zlen (new_empty_page1 ps) = ps ∧
  DatabaseHeader_parse (new_empty_page1 ps) = Ok (page1_header ps) ∧
  journal_mode (page1_header ps) = Legacy ∧
  get_range (new_empty_page1 ps) 100 105 = Some [0x0d; 0; 0; 0; 0] ∧
  read_be 2 (new_empty_page1 ps) 105 = Some (if decide (ps = 65536) then 0 else ps).
Proof.
  pose proof (valid_page_size_bounds _ Hps) as Hb. split_and!.
  - unfold new_empty_page1. rewrite !put_length. apply length_zeros. lia.
  - pose proof (new_empty_page1_bytes_ok ps) as Hok.
    rewrite new_empty_page1_eq in * by done.
    apply DatabaseHeader_parse_complete; [done|].
    eapply header_at_ext; [| |].
    { rewrite length_app, page1_prefix_length. unfold HEADER_LEN. lia. }
    { intros i Hi. apply lookup_app_l. rewrite page1_prefix_length. unfold HEADER_LEN in Hi. lia. }
    clear Hok Hb. unfold valid_page_size, valid_page_sizes in Hps. revert Hps.
    rewrite !elem_of_cons, elem_of_nil.
    intros [->|[->|[->|[->|[->|[->|[->|[->|[]]]]]]]]];
      (apply DatabaseHeader_parse_sound;
        [apply (bool_decide_unpack _); vm_compute; exact I|vm_compute; reflexivity]).
  - done.
  - rewrite new_empty_page1_eq by done. rewrite get_range_app_l by (rewrite page1_prefix_length; lia). reflexivity.
  - rewrite new_empty_page1_eq by done. rewrite read_be_app_l by (rewrite ?page1_prefix_length; mlia).
    change (Some (be_val (be_bytes 2 (if decide (ps = 65536) then 0 else wrap16 ps)))
            = Some (if decide (ps = 65536) then 0 else ps)).
    case_decide; [done|]. f_equal.
    unfold valid_page_size, valid_page_sizes in Hps. revert Hps.
    rewrite !elem_of_cons, elem_of_nil.
    intros [->|[->|[->|[->|[->|[->|[->|[->|[]]]]]]]]]; done.
Qed.

