(* ===== verification/Journal.v ===== *)
(** * The rollback journal ([row/pager/journal.rs])

    The header and record format, the writer, and the replay of a journal
    into a database file. *)

From S2P Require Import Prelude Vfs.

Definition JOURNAL_HEADER_LEN : Z := 28.

(** [JOURNAL_MAGIC] of [row/pager/mod.rs]. *)
Definition JOURNAL_MAGIC : bytes := [0xd9; 0xd5; 0x05; 0xf9; 0x20; 0xa1; 0x63; 0xd7].

Inductive JournalError : Type :=
| JHeaderTooShort (got : Z)
| RecordTruncated (index expected got : Z)
| JVfs (source : VfsError).

Definition record_len (page_size : Z) : Z := sat_add (sat_add 4 page_size) 4.

Record JournalHeader : Type := {
  n_rec : Z;
  nonce : Z;
  initial_page_count : Z;
  sector_size : Z;
  jh_page_size : Z;
}.

(** The closure [be32] of [parse] reads a fixed range of the 28 bytes. *)
Definition JournalHeader_parse (buf : bytes) : result JournalError JournalHeader :=
  match get_range buf 0 JOURNAL_HEADER_LEN with
  | None => Err (JHeaderTooShort (zlen buf))
  | Some bs =>
      let be32 a := be_val (take 4 (drop a bs)) in
      Ok {| n_rec := be32 8%nat; nonce := be32 12%nat; initial_page_count := be32 16%nat;
            sector_size := be32 20%nat; jh_page_size := be32 24%nat |}
  end.

Definition JournalHeader_serialize (h : JournalHeader) (magic : bytes) : bytes :=
  magic ++ be_bytes 4 (n_rec h) ++ be_bytes 4 (nonce h) ++ be_bytes 4 (initial_page_count h)
  ++ be_bytes 4 (sector_size h) ++ be_bytes 4 (jh_page_size h).

(** The [while] loop of [page_checksum]; [idx] falls by 200 until it is 0. *)
Fixpoint page_checksum_loop (fuel : nat) (page : bytes) (cksum idx : Z) : Z :=
  match fuel with
  | O => cksum
  | S fuel =>
      if decide (0 < idx ∧ idx < zlen page) then
        page_checksum_loop fuel page
          (wrap32 (cksum + default 0 (page !! Z.to_nat idx))) (sat_sub idx 200)
      else cksum
  end.

Definition page_checksum (nonce : Z) (page : bytes) : Z :=
  page_checksum_loop (S (length page)) page nonce (sat_sub (zlen page) 200).

Record JournalWriter : Type := {
  jw_path : string;
  jw_page_size : Z;
  jw_sector_size : Z;
  jw_nonce : Z;
}.

Definition JournalWriter_create (path : string)
    (page_size sector_size initial_page_count n_rec nonce : Z)
  : traced JournalError JournalWriter :=
  let! _ := t_emit [CreateOrOpen path] in
  let header := {| n_rec := n_rec; nonce := nonce; initial_page_count := initial_page_count;
                   sector_size := sector_size; jh_page_size := page_size |} in
  let region := zeros sector_size in
  let header_bytes := JournalHeader_serialize header JOURNAL_MAGIC in
  let! region := t_lift (ok_or (put_range region 0 header_bytes) (JHeaderTooShort sector_size)) in
  let! _ := t_emit [WriteAt path 0 region] in
  t_ok {| jw_path := path; jw_page_size := page_size; jw_sector_size := sector_size;
          jw_nonce := nonce |}.

Definition JournalWriter_write_record (w : JournalWriter) (index page_num : Z) (original : bytes)
  : traced JournalError () :=
  let offset := sat_add (jw_sector_size w) (sat_mul index (record_len (jw_page_size w))) in
  let buf := be_bytes 4 page_num ++ original
             ++ be_bytes 4 (page_checksum (jw_nonce w) original) in
  t_emit [WriteAt (jw_path w) offset buf].

Definition JournalWriter_sync (w : JournalWriter) : traced JournalError () :=
  t_emit [SyncF (jw_path w)].

Record RecoveredJournal : Type := {
  rj_initial_page_count : Z;
  rj_page_size : Z;
}.

(** One iteration of [recover]: [None] is a [break]. *)
Definition recover_record (journal_bytes : bytes) (h : JournalHeader) (index : Z)
  : option file_op :=
  let rlen := record_len (jh_page_size h) in
  let offset := sat_add (sector_size h) (sat_mul index rlen) in
  match get_range journal_bytes offset (sat_add offset rlen) with
  | None => None
  | Some rec =>
      match get_range rec 0 4 with
      | None => None
      | Some page_num_bytes =>
          let page_num := be_val page_num_bytes in
          match get_range rec 4 (sat_add 4 (jh_page_size h)) with
          | None => None
          | Some page_data =>
              match get_from rec (sat_add 4 (jh_page_size h)) with
              | None => None
              | Some checksum_bytes =>
                  if decide (length checksum_bytes ≠ 4%nat) then None
                  else if decide (page_checksum (nonce h) page_data ≠ be_val checksum_bytes)
                  then None
                  else Some (FWrite (sat_mul (sat_sub page_num 1) (jh_page_size h)) page_data)
              end
          end
      end
  end.

(** [for index in 0..header.n_rec]; the journal's length bounds the
    iterations, since a record past its end breaks the loop. *)
Fixpoint recover_loop (fuel : nat) (journal_bytes : bytes) (h : JournalHeader) (index : Z)
  : list file_op :=
  match fuel with
  | O => []
  | S fuel =>
      if decide (index < n_rec h) then
        match recover_record journal_bytes h index with
        | None => []
        | Some op => op :: recover_loop fuel journal_bytes h (index + 1)
        end
      else []
  end.

(** [recover]: the writes issued to the database file, and what
    [recover_hot_journal] needs to truncate it. *)
Definition recover (journal_bytes : bytes) : result JournalError (list file_op * RecoveredJournal) :=
  let? h := JournalHeader_parse journal_bytes in
  Ok (recover_loop (S (length journal_bytes)) journal_bytes h 0,
      {| rj_initial_page_count := initial_page_count h; rj_page_size := jh_page_size h |}).

(** ** The checksum *)

(** The bytes [pager_cksum] samples: offsets [len - 200], [len - 400], ...
    while positive. *)
Definition sample_offsets (len : nat) : list nat :=
  map (λ k, (len - 200 * k)%nat) (seq 1 ((len - 1) / 200)).
Definition sampled (page : bytes) : bytes :=
  map (λ i, default 0 (page !! i)) (sample_offsets (length page)).
Definition total (l : list Z) : Z := foldr Z.add 0 l.

Lemma wrap32_add_l a b : wrap32 (wrap32 a + b) = wrap32 (a + b).
Proof. unfold wrap32. by rewrite Z.add_mod_idemp_l by lia. Qed.

Lemma page_checksum_loop_eq page n k fuel c :
  (1 ≤ k)%nat → (k + n = S ((length page - 1) / 200))%nat → (n < fuel)%nat → u32_ok c →
  page_checksum_loop fuel page c (sat_sub (zlen page) (200 * Z.of_nat k)) =
  wrap32 (c + total (map (λ j, default 0 (page !! (length page - 200 * j)%nat)) (seq k n))).
Proof.
  revert k fuel c. induction n as [|n IH]; intros k fuel c Hk Hn Hf Hc;
    (destruct fuel as [|fuel]; [lia|]); cbn [page_checksum_loop seq map total foldr].
  - rewrite decide_False; [rewrite Z.add_0_r; symmetry; by apply wrap32_small|].
    pose proof (Nat.mul_succ_div_gt (length page - 1) 200 ltac:(lia)). mlia.
  - pose proof (Nat.div_mod (length page - 1) 200 ltac:(lia)).
    rewrite sat_sub_ge by lia. rewrite decide_True by lia.
    replace (sat_sub (zlen page - 200 * Z.of_nat k) 200)
      with (sat_sub (zlen page) (200 * Z.of_nat (S k))) by mlia.
    rewrite IH by (try apply wrap32_ok; lia).
    rewrite wrap32_add_l. f_equal. unfold total.
    replace (Z.to_nat (zlen page - 200 * Z.of_nat k)) with (length page - 200 * k)%nat by lia.
    lia.
Qed.

Lemma page_checksum_eq nonce page :
  u32_ok nonce → page_checksum nonce page = wrap32 (nonce + total (sampled page)).
Proof.
  intros Hn. unfold page_checksum, sampled, sample_offsets. rewrite map_map.
  change 200 with (200 * Z.of_nat 1) at 1.
  apply page_checksum_loop_eq; [lia..| |done].
  pose proof (Nat.Div0.div_le_upper_bound (length page - 1) 200 (length page - 1)). lia.
Qed.

Lemma sample_offsets_lt len i : i ∈ sample_offsets len → (0 < i < len)%nat.
Proof.
  unfold sample_offsets. rewrite list_elem_of_In, in_map_iff.
  intros (k & <- & [Hk1 Hk2]%in_seq).
  pose proof (Nat.Div0.mul_div_le (len - 1) 200). lia.
Qed.

Lemma sample_offsets_NoDup len : NoDup (sample_offsets len).
Proof.
  unfold sample_offsets. apply NoDup_fmap_2_strong; [|apply NoDup_seq].
  intros j k Hj%elem_of_seq Hk%elem_of_seq Heq.
  pose proof (Nat.Div0.mul_div_le (len - 1) 200). lia.
Qed.

Lemma total_insert (f g : nat → Z) l i :
  NoDup l → i ∈ l → (∀ j, j ≠ i → g j = f j) →
  total (map g l) = total (map f l) - f i + g i.
Proof.
  intros Hnd Hi Hext. induction Hnd as [|j l Hj Hnd IH]; [by apply elem_of_nil in Hi|].
  cbn [map total foldr]. fold (total (map g l)) (total (map f l)).
  apply elem_of_cons in Hi as [->|Hi].
  - assert (map g l = map f l) as ->; [|lia].
    apply map_ext_in. intros k Hk%list_elem_of_In. apply Hext. congruence.
  - rewrite IH by done. rewrite (Hext j); [lia|]. congruence.
Qed.

Lemma sampled_insert page i b :
  i ∈ sample_offsets (length page) →
  ∃ x, page !! i = Some x ∧ total (sampled (<[i := b]> page)) = total (sampled page) - x + b.
Proof.
  intros Hi. pose proof (sample_offsets_lt _ _ Hi) as Hlt.
  destruct (lookup_lt_is_Some_2 page i) as [x Hx]; [lia|]. exists x. split; [done|].
  unfold sampled. rewrite length_insert.
  rewrite (total_insert (λ i, default 0 (page !! i)) (λ j, default 0 (<[i:=b]> page !! j)) _ i);
    [|apply sample_offsets_NoDup|done|].
  - rewrite list_lookup_insert_eq by lia. by rewrite Hx.
  - intros j Hj. by rewrite list_lookup_insert_ne by congruence.
Qed.

Lemma page_checksum_ok nonce page : u32_ok nonce → u32_ok (page_checksum nonce page).
Proof. intros. rewrite page_checksum_eq by done. apply wrap32_ok. Qed.

Lemma page_checksum_zeros nonce n : u32_ok nonce → page_checksum nonce (zeros n) = nonce.
Proof.
  intros. rewrite page_checksum_eq by done.
  assert (∀ l, Forall (λ x, x = 0) l → total l = 0) as Ht.
  { induction 1; simpl; unfold total in *; lia. }
  rewrite Ht; [rewrite Z.add_0_r; by apply wrap32_small|].
  apply Forall_map, Forall_forall. intros i _. unfold zeros.
  destruct (replicate (Z.to_nat n) 0 !! i) eqn:E; [|done].
  by apply lookup_replicate in E as [-> _].
Qed.

(** ** Headers and records *)

Definition JournalHeader_ok (h : JournalHeader) : Prop :=
  u32_ok (n_rec h) ∧ u32_ok (nonce h) ∧ u32_ok (initial_page_count h) ∧
  u32_ok (sector_size h) ∧ u32_ok (jh_page_size h).

Lemma be4 v : u32_ok v → be_val (be_bytes 4 v) = v.
Proof. intros. rewrite be_val_be_bytes. apply Z.mod_small. mlia. Qed.

Lemma JournalHeader_serialize_length h magic :
  length magic = 8%nat → length (JournalHeader_serialize h magic) = 28%nat.
Proof. intros Hm. unfold JournalHeader_serialize. by rewrite !length_app, !be_bytes_length, Hm. Qed.

Lemma JournalHeader_parse_serialize h magic rest :
  JournalHeader_ok h → length magic = 8%nat →
  JournalHeader_parse (JournalHeader_serialize h magic ++ rest) = Ok h.
Proof.
  intros (? & ? & ? & ? & ?) Hm. unfold JournalHeader_parse.
  assert (get_range (JournalHeader_serialize h magic ++ rest) 0 JOURNAL_HEADER_LEN
          = Some (JournalHeader_serialize h magic)) as ->.
  { apply (get_range_app3 []); [done|]. by rewrite JournalHeader_serialize_length. }
  unfold JournalHeader_serialize.
  do 8 (destruct magic as [|? magic]; [done|]). destruct magic; [|done].
  cbn [app drop]. cbn -[be_bytes be_val].
  destruct h. cbn in *. f_equal. f_equal; by apply be4.
Qed.

Lemma JournalHeader_parse_app buf rest :
  28 ≤ zlen buf → JournalHeader_parse (buf ++ rest) = JournalHeader_parse buf.
Proof.
  intros. unfold JournalHeader_parse, get_range, JOURNAL_HEADER_LEN.
  rewrite length_app, !decide_True by lia. change (Z.to_nat 0) with 0%nat.
  rewrite !drop_0. by rewrite take_app_le by lia.
Qed.

(** The bytes of one record and of the header's padded sector. *)
Definition record_bytes (nonce : Z) (r : Z * bytes) : bytes :=
  be_bytes 4 r.1 ++ r.2 ++ be_bytes 4 (page_checksum nonce r.2).

Definition header_region (h : JournalHeader) : bytes :=
  JournalHeader_serialize h JOURNAL_MAGIC ++ zeros (sector_size h - 28).

Definition record_ok (ps : Z) (r : Z * bytes) : Prop :=
  1 ≤ r.1 < 4294967296 ∧ zlen r.2 = ps ∧ bytes_ok r.2.

(** What replaying a record writes to the database. *)
Definition replay_op (ps : Z) (r : Z * bytes) : file_op := FWrite ((r.1 - 1) * ps) r.2.

Lemma record_bytes_length ps nonce r :
  zlen r.2 = ps → zlen (record_bytes nonce r) = ps + 8.
Proof. intros <-. unfold record_bytes. rewrite !length_app, !be_bytes_length. lia. Qed.

Lemma record_len_eq ps : 0 ≤ ps < 4294967296 → record_len ps = ps + 8.
Proof. intros. unfold record_len. mlia. Qed.

(** A record in place is replayed. *)
Lemma recover_record_hit jb h index r :
  JournalHeader_ok h → record_ok (jh_page_size h) r → 0 ≤ index → zlen jb ≤ ISIZE_MAX →
  get_range jb (sector_size h + index * (jh_page_size h + 8))
               (sector_size h + index * (jh_page_size h + 8) + (jh_page_size h + 8))
  = Some (record_bytes (nonce h) r) →
  recover_record jb h index = Some (replay_op (jh_page_size h) r).
Proof.
  intros Hh (Hpg & Hl & Hb) Hi Hjb Hg. destruct Hh as (? & Hn & ? & ? & ?).
  set (ps := jh_page_size h) in *.
  pose proof (page_checksum_ok (nonce h) r.2 Hn) as Hck.
  pose proof Hg as (_ & Hgb & _)%get_range_Some.
  assert (0 ≤ index * (ps + 8)) by (apply Z.mul_nonneg_nonneg; mlia).
  unfold recover_record. fold ps. rewrite record_len_eq by mlia.
  rewrite (sat_mul_small index) by mlia. rewrite (sat_add_small (sector_size h)) by mlia.
  rewrite (sat_add_small _ (ps + 8)) by mlia. rewrite Hg.
  rewrite (sat_add_small 4 ps) by mlia. unfold record_bytes.
  rewrite (get_range_app_l (be_bytes 4 r.1) _ 0 4) by (rewrite be_bytes_length; done).
  change 4 with (zlen (be_bytes 4 r.1)) at 1. rewrite get_range_full.
  rewrite (get_range_app3 (be_bytes 4 r.1) r.2 _ 4 (4 + ps)) by (rewrite ?be_bytes_length; lia).
  rewrite (app_assoc (be_bytes 4 r.1)), get_from_app by (rewrite length_app, be_bytes_length; lia).
  rewrite decide_False by (rewrite be_bytes_length; tauto).
  rewrite !be4 by mlia. rewrite decide_False by tauto.
  unfold replay_op. rewrite sat_sub_ge by lia.
  assert ((r.1 - 1) * ps ≤ 4294967295 * 4294967295) by (apply Z.mul_le_mono_nonneg; mlia).
  by rewrite sat_mul_small by mlia.
Qed.

(** A record that reads as zeros is not: its page sums to 0, so its
    checksum should be the nonce. *)
Lemma recover_record_zeros jb h index :
  JournalHeader_ok h → nonce h ≠ 0 → 0 ≤ index →
  sector_size h + (index + 1) * (jh_page_size h + 8) ≤ ISIZE_MAX →
  (∀ i : nat, sector_size h + index * (jh_page_size h + 8) ≤ Z.of_nat i →
     Z.of_nat i < sector_size h + (index + 1) * (jh_page_size h + 8) →
     default 0 (jb !! i) = 0) →
  recover_record jb h index = None.
Proof.
  intros Hh Hnz Hi Hfit Hz. destruct Hh as (? & Hn & ? & ? & ?).
  set (ps := jh_page_size h) in *.
  assert (0 ≤ index * (ps + 8)) by (apply Z.mul_nonneg_nonneg; mlia).
  unfold recover_record. fold ps. rewrite record_len_eq by mlia.
  rewrite (sat_mul_small index) by mlia. rewrite (sat_add_small (sector_size h)) by mlia.
  rewrite (sat_add_small _ (ps + 8)) by mlia. rewrite (sat_add_small 4 ps) by mlia.
  destruct (get_range jb _ _) as [rec|] eqn:Hg; [|done].
  assert (Hrl : zlen rec = ps + 8) by (apply get_range_length in Hg; lia).
  assert (Hrec : rec = zeros (ps + 8)).
  { apply list_eq_same_length with (length rec); [|done|].
    - pose proof (length_zeros (ps + 8)). mlia.
    - intros i x y Hlt Hx Hy. rewrite (get_range_lookup _ _ _ _ _ Hg) in Hx by lia.
      unfold zeros in Hy. apply lookup_replicate in Hy as [-> _].
      specialize (Hz (Z.to_nat (sector_size h + index * (ps + 8)) + i)%nat).
      rewrite Hx in Hz. apply Hz; mlia. }
  rewrite Hrec. replace (ps + 8) with (4 + (ps + 4)) by lia. rewrite zeros_add by mlia.
  rewrite (zeros_add ps 4) by mlia.
  rewrite (get_range_app_l (zeros 4) _ 0 4) by done.
  change 4 with (zlen (zeros 4)) at 2. rewrite get_range_full.
  rewrite (get_range_app3 (zeros 4) (zeros ps) (zeros 4)) by (rewrite ?length_zeros; mlia).
  rewrite (app_assoc (zeros 4)), get_from_app
    by (rewrite length_app, Nat2Z.inj_add, !length_zeros; mlia).
  rewrite decide_False by (intros Hne; by apply Hne).
  rewrite page_checksum_zeros by done. rewrite decide_True; [done|].
  change (be_val (zeros 4)) with 0. done.
Qed.

(** ** Writing and replaying a whole journal *)

Section journal.
Context (h : JournalHeader) (Hh : JournalHeader_ok h).

Definition record_off (i : Z) : Z := sector_size h + i * (jh_page_size h + 8).

(** The operations that write records [i], [i+1], ... *)
Fixpoint record_ops (i : Z) (recs : list (Z * bytes)) : list file_op :=
  match recs with
  | [] => []
  | r :: recs => FWrite (record_off i) (record_bytes (nonce h) r) :: record_ops (i + 1) recs
  end.

Definition journal_ops (recs : list (Z * bytes)) : list file_op :=
  FWrite 0 (header_region h) :: record_ops 0 recs.

Lemma record_off_S i : record_off (i + 1) = record_off i + (jh_page_size h + 8).
Proof. unfold record_off. lia. Qed.

Lemma record_off_nonneg i : 0 ≤ i → 0 ≤ record_off i.
Proof. destruct Hh as (? & ? & ? & ? & ?). intros. unfold record_off, u32_ok in *. nia. Qed.

Lemma record_off_mono i j : i ≤ j → record_off i ≤ record_off j.
Proof. destruct Hh as (? & ? & ? & ? & ?). intros. unfold record_off, u32_ok in *. nia. Qed.

Lemma record_ops_above i recs :
  0 ≤ i → Forall (record_ok (jh_page_size h)) recs →
  record_off (i + zlen recs) ≤ ISIZE_MAX →
  Forall (λ op, match op with
                | FWrite off buf => record_off i ≤ off ∧ off + zlen buf ≤ ISIZE_MAX
                | FTruncate _ => False end) (record_ops i recs).
Proof.
  intros Hi Hrecs. revert i Hi.
  induction Hrecs as [|r recs (_ & Hl & _) _ IH]; intros i Hi Hfit; cbn [record_ops]; [done|].
  cbn [length] in Hfit. constructor.
  - rewrite (record_bytes_length (jh_page_size h)) by done. split; [lia|].
    rewrite <- record_off_S. etrans; [|exact Hfit]. apply record_off_mono. lia.
  - eapply Forall_impl; [apply IH; [lia|]|].
    + replace (i + 1 + zlen recs) with (i + Z.of_nat (S (length recs))) by lia. done.
    + intros [off buf|]; [|done]. rewrite record_off_S.
      destruct Hh as (? & ? & ? & ? & ?). mlia.
Qed.

(** Whatever subset of the record writes survives, the replay applies a
    prefix of the records. *)
Lemma recover_loop_torn recs i D0 D fuel :
  survives D0 (record_ops i recs) D → 0 ≤ i → zlen D0 ≤ record_off i →
  Forall (record_ok (jh_page_size h)) recs → nonce h ≠ 0 →
  n_rec h = i + zlen recs → record_off (n_rec h) ≤ ISIZE_MAX → zlen D ≤ ISIZE_MAX →
  ∃ k, recover_loop fuel D h i = map (replay_op (jh_page_size h)) (take k recs).
Proof.
  intros Hs Hi HD0 Hrecs Hnz. revert i D0 fuel Hs Hi HD0.
  induction Hrecs as [|r recs Hr Hrecs IH]; intros i D0 fuel Hs Hi HD0 Hn Hfit HD;
    (destruct fuel as [|fuel]; [by exists 0%nat|]); cbn [recover_loop record_ops] in *.
  { exists 0%nat. by rewrite decide_False by (cbn in Hn; lia). }
  cbn [length] in Hn. rewrite decide_True by lia.
  pose proof (record_off_nonneg i Hi) as Hoff.
  pose proof (record_ops_above (i + 1) recs ltac:(lia) Hrecs) as Habove.
  replace (i + 1 + zlen recs) with (n_rec h) in Habove by lia.
  specialize (Habove Hfit).
  pose proof (record_off_mono (i + 1) (n_rec h) ltac:(lia)) as Hle.
  pose proof (record_bytes_length _ (nonce h) r (proj1 (proj2 Hr))) as Hrlen.
  rewrite record_off_S in Hle.
  inversion Hs as [|? ? ? ? Hkeep|? ? ? ? Hlose]; subst.
  - (* the record was written *)
    destruct (survives_above _ _ _ (record_off (i + 1)) Hkeep) as (Hlen1 & Hlk & _).
    { apply record_off_nonneg. lia. }
    { eapply Forall_impl; [exact Habove|]. intros [|]; [mlia|done]. }
    cbn [apply_op] in *.
    assert (Hwlen : zlen (file_write_at D0 (record_bytes (nonce h) r) (record_off i))
                    = record_off (i + 1)).
    { rewrite file_write_at_length by mlia. rewrite record_off_S. lia. }
    destruct (IH (i + 1) (file_write_at D0 (record_bytes (nonce h) r) (record_off i)) fuel)
      as [k Hk]; [done|lia..|].
    exists (S k). cbn [take map].
    rewrite (recover_record_hit D h i r); [by rewrite Hk|done..|].
    change (sector_size h + i * (jh_page_size h + 8)) with (record_off i).
    rewrite <- record_off_S.
    transitivity (get_range (file_write_at D0 (record_bytes (nonce h) r) (record_off i))
                    (record_off i) (record_off (i + 1))).
    { apply get_range_ext; [lia..|]. intros j Hj. symmetry.
      destruct (lookup_lt_is_Some_2 (file_write_at D0 (record_bytes (nonce h) r) (record_off i)) j)
        as [x Hx]; [lia|].
      rewrite Hx. symmetry. apply Hlk; [lia|done]. }
    eapply get_put_same; [apply file_write_at_put; mlia|]. rewrite record_off_S. lia.
  - (* the record was lost *)
    exists 0%nat. rewrite recover_record_zeros; [done..| |].
    { change (sector_size h + (i + 1) * (jh_page_size h + 8)) with (record_off (i + 1)).
      rewrite record_off_S. lia. }
    destruct (survives_above _ _ _ (record_off (i + 1)) Hlose) as (_ & _ & Hz).
    { apply record_off_nonneg. lia. }
    { eapply Forall_impl; [exact Habove|]. intros [|]; [mlia|done]. }
    intros j Hlo Hhi. destruct (D !! j) as [x|] eqn:Hx; [|done]. cbn.
    rewrite <- (Hz j x); [|exact Hhi|done].
    rewrite lookup_ge_None_2; [done|]. unfold record_off in *. lia.
Qed.

Definition journal_image (recs : list (Z * bytes)) : bytes :=
  header_region h ++ concat (map (record_bytes (nonce h)) recs).

Lemma header_region_length : 28 ≤ sector_size h → zlen (header_region h) = sector_size h.
Proof.
  intros. unfold header_region. rewrite length_app, Nat2Z.inj_add, length_zeros by lia.
  rewrite JournalHeader_serialize_length by done. lia.
Qed.

Lemma records_length recs :
  Forall (record_ok (jh_page_size h)) recs →
  zlen (concat (map (record_bytes (nonce h)) recs)) = zlen recs * (jh_page_size h + 8).
Proof.
  induction 1 as [|r recs (_ & Hl & _) _ IH]; [done|]. cbn [map concat length].
  rewrite length_app, Nat2Z.inj_add, (record_bytes_length (jh_page_size h)) by done. lia.
Qed.

(** All record writes applied in order append the records. *)
Lemma apply_record_ops recs i D0 :
  0 ≤ i → zlen D0 = record_off i → Forall (record_ok (jh_page_size h)) recs →
  record_off (i + zlen recs) ≤ ISIZE_MAX →
  apply_ops D0 (record_ops i recs) = D0 ++ concat (map (record_bytes (nonce h)) recs).
Proof.
  intros Hi HD Hrecs. revert i D0 Hi HD.
  induction Hrecs as [|r recs Hr Hrecs IH]; intros i D0 Hi HD Hfit;
    cbn [record_ops map concat length] in *; [by rewrite app_nil_r|].
  pose proof (record_bytes_length _ (nonce h) r (proj1 (proj2 Hr))) as Hrl.
  replace (i + Z.of_nat (S (length recs))) with (i + 1 + zlen recs) in Hfit by lia.
  pose proof (record_off_mono (i + 1) (i + 1 + zlen recs) ltac:(lia)) as Hle.
  rewrite record_off_S in Hle.
  cbn [apply_ops foldl apply_op].
  rewrite (file_write_at_append D0) by mlia.
  fold (apply_ops (D0 ++ record_bytes (nonce h) r) (record_ops (i + 1) recs)).
  rewrite IH; [by rewrite <- (assoc_L (++))|lia| |done].
  rewrite length_app, record_off_S. lia.
Qed.

Lemma apply_journal_ops recs :
  28 ≤ sector_size h → Forall (record_ok (jh_page_size h)) recs →
  record_off (zlen recs) ≤ ISIZE_MAX →
  apply_ops [] (journal_ops recs) = journal_image recs.
Proof.
  intros Hs Hrecs Hfit. unfold journal_ops. cbn [apply_ops foldl apply_op].
  pose proof (header_region_length Hs) as Hl. destruct Hh as (? & ? & ? & ? & ?).
  rewrite file_write_at_whole by (cbn [length]; mlia).
  fold (apply_ops (header_region h) (record_ops 0 recs)).
  apply apply_record_ops; [done| |done|done]. unfold record_off. lia.
Qed.

Lemma recover_loop_full recs i pre fuel :
  0 ≤ i → zlen pre = record_off i → Forall (record_ok (jh_page_size h)) recs →
  n_rec h = i + zlen recs → record_off (n_rec h) ≤ ISIZE_MAX → (length recs < fuel)%nat →
  recover_loop fuel (pre ++ concat (map (record_bytes (nonce h)) recs)) h i
  = map (replay_op (jh_page_size h)) recs.
Proof.
  intros Hi HD Hrecs. revert i pre fuel Hi HD.
  induction Hrecs as [|r recs Hr Hrecs IH]; intros i pre fuel Hi HD Hn Hfit Hf;
    (destruct fuel as [|fuel]; [lia|]); cbn [recover_loop map concat length] in *.
  { by rewrite decide_False by lia. }
  rewrite decide_True by lia.
  pose proof (record_bytes_length _ (nonce h) r (proj1 (proj2 Hr))) as Hrl.
  rewrite (recover_record_hit _ h i r); [|done..| |].
  - f_equal. rewrite app_assoc. apply IH; [lia| |lia|done|lia].
    rewrite length_app, record_off_S. lia.
  - rewrite !length_app, !Nat2Z.inj_add, HD, Hrl, records_length by done.
    etrans; [|exact Hfit]. rewrite Hn. unfold record_off. lia.
  - apply get_range_app3; unfold record_off in *; lia.
Qed.

(** The record count covers the records and the journal fits a file. *)
Definition journal_fits (recs : list (Z * bytes)) : Prop :=
  28 ≤ sector_size h ∧ n_rec h = zlen recs ∧ record_off (n_rec h) ≤ ISIZE_MAX ∧
  Forall (record_ok (jh_page_size h)) recs.

Lemma recover_image recs :
  journal_fits recs →
  recover (journal_image recs) =
  Ok (map (replay_op (jh_page_size h)) recs,
      {| rj_initial_page_count := initial_page_count h; rj_page_size := jh_page_size h |}).
Proof.
  intros (Hs & Hn & Hfit & Hrecs). unfold recover, journal_image at 1, header_region.
  rewrite <- (assoc_L (++)), JournalHeader_parse_serialize by done.
  do 2 f_equal. apply recover_loop_full; [done| |done|lia|done|].
  - rewrite header_region_length by done. unfold record_off. lia.
  - pose proof (records_length recs Hrecs) as Hl. unfold journal_image.
    rewrite length_app. destruct Hh as (? & ? & ? & ? & ?). unfold u32_ok in *. nia.
Qed.
End journal.

(** ** Recovery after a crash *)

(** The hot-journal test of [Pager::open]: eight bytes were read and they
    are the magic. *)
Definition journal_is_hot (journal : bytes) : bool :=
  bool_decide (file_read_at journal 8 0 = JOURNAL_MAGIC).

Lemma journal_is_hot_first journal :
  journal_is_hot journal = true → journal !! 0%nat = Some 0xd9.
Proof.
  unfold journal_is_hot. rewrite bool_decide_eq_true. unfold file_read_at.
  case_decide; [done|]. destruct journal as [|b j]; [done|].
  change (Z.to_nat 0) with 0%nat. rewrite drop_0, Z.sub_0_r.
  destruct (Z.to_nat (Z.min 8 (zlen (b :: j)))) as [|n] eqn:E; [done|].
  cbn [take]. unfold JOURNAL_MAGIC. by intros [= -> _].
Qed.

Lemma JournalHeader_parse_prefix h D :
  JournalHeader_ok h →
  (∀ (i : nat) b, JournalHeader_serialize h JOURNAL_MAGIC !! i = Some b → D !! i = Some b) →
  JournalHeader_parse D = Ok h.
Proof.
  intros Hh Hp. pose proof (JournalHeader_serialize_length h JOURNAL_MAGIC eq_refl) as Hl.
  rewrite <- (take_drop 28 D).
  assert (take 28 D = JournalHeader_serialize h JOURNAL_MAGIC) as ->.
  { apply list_eq_same_length with 28%nat; [done| |].
    - rewrite length_take. apply Nat.min_l.
      destruct (lookup_lt_is_Some_2 (JournalHeader_serialize h JOURNAL_MAGIC) 27) as [x Hx]; [lia|].
      apply Hp, lookup_lt_Some in Hx. lia.
    - intros i x y Hi Hx Hy. rewrite lookup_take_lt in Hx by lia.
      apply Hp in Hy. congruence. }
  by apply JournalHeader_parse_serialize.
Qed.

Lemma recover_torn h recs D :
  JournalHeader_ok h → journal_fits h recs → nonce h ≠ 0 → zlen D ≤ ISIZE_MAX →
  survives [] (journal_ops h recs) D → journal_is_hot D = true →
  ∃ k, recover D =
    Ok (map (replay_op (jh_page_size h)) (take k recs),
        {| rj_initial_page_count := initial_page_count h; rj_page_size := jh_page_size h |}).
Proof.
  intros Hh (Hs & Hn & Hfit & Hrecs) Hnz HD Hsv Hhot. unfold journal_ops in Hsv.
  assert (Habove : Forall (λ op, match op with
      | FWrite off buf => sector_size h ≤ off ∧ off + zlen buf ≤ USIZE_MAX
      | FTruncate _ => False end) (record_ops h 0 recs)).
  { eapply Forall_impl; [apply (record_ops_above h Hh 0 recs); [done|done|by rewrite <- Hn]|].
    intros [|]; [|done]. unfold record_off. mlia. }
  pose proof (header_region_length h Hs) as Hreg.
  inversion Hsv as [|? ? ? ? Hkeep|? ? ? ? Hlose]; subst.
  - cbn [apply_op] in Hkeep. destruct Hh as (H1 & H2 & H3 & H4 & H5).
    rewrite file_write_at_whole in Hkeep by (cbn [length]; mlia).
    destruct (survives_above _ _ _ (sector_size h) Hkeep ltac:(mlia) Habove) as (_ & Hlk & _).
    unfold recover. rewrite (JournalHeader_parse_prefix h D); [|done|].
    2: { intros i b Hb. pose proof (lookup_lt_Some _ _ _ Hb) as Hlt.
         rewrite JournalHeader_serialize_length in Hlt by done.
         apply Hlk; [lia|]. by apply lookup_app_l_Some. }
    destruct (recover_loop_torn h (conj H1 (conj H2 (conj H3 (conj H4 H5)))) recs 0
                (header_region h) D (S (length D))) as [k Hk]; try done.
    { unfold record_off. lia. }
    exists k. by rewrite Hk.
  - destruct Hh as (H1 & H2 & H3 & H4 & H5).
    destruct (survives_above _ _ _ (sector_size h) Hlose ltac:(mlia) Habove) as (_ & _ & Hz).
    apply journal_is_hot_first in Hhot. specialize (Hz 0%nat _ ltac:(lia) Hhot). done.
Qed.

(** The record loop of [flush_locked]: one [write_record] per page, indexed
    in order. *)
Fixpoint write_records (w : JournalWriter) (index : Z) (recs : list (Z * bytes))
  : traced JournalError () :=
  match recs with
  | [] => t_ok ()
  | (page_num, original) :: recs =>
      let! _ := JournalWriter_write_record w index page_num original in
      write_records w (index + 1) recs
  end.

Definition write_journal (path : string) (page_size sector_size initial_page_count nonce : Z)
    (recs : list (Z * bytes)) : traced JournalError JournalWriter :=
  let! w := JournalWriter_create path page_size sector_size initial_page_count
              (zlen recs) nonce in
  let! _ := write_records w 0 recs in
  t_ok w.

Definition flush_header (page_size sector_size initial_page_count nonce : Z)
    (recs : list (Z * bytes)) : JournalHeader :=
  {| n_rec := zlen recs; nonce := nonce; initial_page_count := initial_page_count;
     sector_size := sector_size; jh_page_size := page_size |}.

Lemma write_records_trace h path recs i :
  JournalHeader_ok h → 0 ≤ i → record_off h (i + zlen recs) ≤ ISIZE_MAX →
  write_records {| jw_path := path; jw_page_size := jh_page_size h;
                   jw_sector_size := sector_size h; jw_nonce := nonce h |} i recs
  = (map (as_io path) (record_ops h i recs), Ok ()).
Proof.
  intros Hh. revert i. induction recs as [|[pg data] recs IH]; intros i Hi Hfit; [done|].
  cbn [length] in Hfit.
  pose proof (record_off_mono h Hh (i + 1) (i + Z.of_nat (S (length recs))) ltac:(lia)).
  rewrite record_off_S in *. destruct Hh as (H1 & H2 & H3 & H4 & H5).
  cbn [write_records record_ops map].
  replace (i + Z.of_nat (S (length recs))) with (i + 1 + zlen recs) in Hfit by lia.
  unfold t_bind at 1, JournalWriter_write_record, t_emit. rewrite IH by lia. cbn -[record_off].
  do 2 f_equal. unfold as_io. unfold record_off in *. rewrite record_len_eq by mlia.
  rewrite (sat_mul_small i) by mlia. rewrite sat_add_small by mlia. done.
Qed.

Lemma JournalWriter_create_trace path ps ss ipc nc recs :
  28 ≤ ss →
  JournalWriter_create path ps ss ipc (zlen recs) nc =
  ([CreateOrOpen path; WriteAt path 0 (header_region (flush_header ps ss ipc nc recs))],
   Ok {| jw_path := path; jw_page_size := ps; jw_sector_size := ss; jw_nonce := nc |}).
Proof.
  intros Hs. set (h := flush_header ps ss ipc nc recs).
  pose proof (JournalHeader_serialize_length h JOURNAL_MAGIC eq_refl) as Hl.
  assert (Hput : put_range (zeros ss) 0 (JournalHeader_serialize h JOURNAL_MAGIC)
                 = Some (header_region h)).
  { apply put_range_Some. rewrite length_zeros by lia. split_and!; [lia..|].
    unfold header_region. change (Z.to_nat 0) with 0%nat. rewrite take_0, Hl. cbn [app].
    f_equal. symmetry.
    unfold zeros. rewrite drop_replicate. f_equal. change (sector_size h) with ss. lia. }
  unfold JournalWriter_create.
  change ({| n_rec := _; nonce := _; initial_page_count := _; sector_size := _;
             jh_page_size := _ |}) with h.
  rewrite Hput. unfold t_emit, t_lift, t_ok. done.
Qed.

Lemma write_journal_trace path ps ss ipc nc recs :
  JournalHeader_ok (flush_header ps ss ipc nc recs) →
  28 ≤ ss → record_off (flush_header ps ss ipc nc recs) (zlen recs) ≤ ISIZE_MAX →
  write_journal path ps ss ipc nc recs =
  (CreateOrOpen path :: map (as_io path) (journal_ops (flush_header ps ss ipc nc recs) recs),
   Ok {| jw_path := path; jw_page_size := ps; jw_sector_size := ss; jw_nonce := nc |}).
Proof.
  intros Hh Hs Hfit. unfold write_journal. rewrite JournalWriter_create_trace by done.
  set (h := flush_header ps ss ipc nc recs) in *. cbn [t_bind].
  pose proof (write_records_trace h path recs 0 Hh ltac:(lia) Hfit) as Hw.
  change (jh_page_size h) with ps in Hw. change (sector_size h) with ss in Hw.
  change (nonce h) with nc in Hw. rewrite Hw. cbn [t_bind t_ok]. by rewrite app_nil_r.
Qed.

Lemma exec_journal_trace (d : fs) path ops :
  d !! path = None →
  exec_ios d (CreateOrOpen path :: map (as_io path) ops) = <[path := File [] ops]> d.
Proof.
  intros Hd. change (exec_ios d (CreateOrOpen path :: map (as_io path) ops))
    with (exec_ios (exec_io d (CreateOrOpen path)) (map (as_io path) ops)).
  cbn [exec_io]. rewrite Hd.
  rewrite (exec_ios_writes _ path (File [] [])) by apply lookup_insert_eq.
  by rewrite insert_insert_eq.
Qed.

Lemma image_hot h recs : 28 ≤ sector_size h → journal_is_hot (journal_image h recs) = true.
Proof.
  intros Hs. pose proof (header_region_length h Hs) as Hl.
  unfold journal_is_hot. apply bool_decide_eq_true. unfold file_read_at, journal_image.
  rewrite decide_False by (rewrite length_app; lia).
  change (Z.to_nat 0) with 0%nat. rewrite drop_0, Z.sub_0_r.
  replace (Z.to_nat _) with 8%nat; [done|]. rewrite length_app. lia.
Qed.

Lemma journal_ops_bound h recs :
  JournalHeader_ok h → journal_fits h recs →
  Forall (λ op, match op with
                | FWrite off buf => 0 ≤ off ∧ off + zlen buf ≤ ISIZE_MAX
                | FTruncate _ => False end) (journal_ops h recs).
Proof.
  intros Hh (Hs & Hn & Hfit & Hrecs). constructor.
  - rewrite header_region_length by done. destruct Hh as (? & ? & ? & ? & ?). mlia.
  - eapply Forall_impl; [apply (record_ops_above h Hh 0 recs); [done|done|by rewrite <- Hn]|].
    intros [|]; [|done]. pose proof (record_off_nonneg h Hh 0). lia.
Qed.

(** More fuel than the journal's length never changes the replay. *)
Lemma sat_offset_bound s i r len :
  0 ≤ s → 0 ≤ i → 8 ≤ r → sat_add (sat_add s (sat_mul i r)) r ≤ len → len ≤ ISIZE_MAX → i < len.
Proof.
  intros Hs Hi Hr. assert (Hx : i ≤ i * r) by nia. unfold sat_mul.
  generalize dependent (i * r). intros x Hx. mlia.
Qed.

Lemma recover_record_bound jb h index op :
  JournalHeader_ok h → 0 ≤ index → zlen jb ≤ ISIZE_MAX →
  recover_record jb h index = Some op → index < zlen jb.
Proof.
  intros (? & ? & ? & Hs & Hp) Hi Hjb. unfold recover_record, u32_ok in *.
  rewrite record_len_eq by lia.
  destruct (get_range jb _ _) as [rec|] eqn:Hg; [intros _|done].
  apply get_range_Some in Hg as (Hle & Hb & _).
  by eapply sat_offset_bound in Hb; [|lia..].
Qed.

Lemma recover_loop_fuel jb h fuel1 fuel2 index :
  JournalHeader_ok h → 0 ≤ index → zlen jb ≤ ISIZE_MAX →
  zlen jb < index + Z.of_nat fuel1 → zlen jb < index + Z.of_nat fuel2 →
  recover_loop fuel1 jb h index = recover_loop fuel2 jb h index.
Proof.
  intros Hh Hi Hjb. revert fuel2 index Hi.
  induction fuel1 as [|fuel1 IH]; intros [|fuel2] index Hi H1 H2; cbn [recover_loop]; [done| | |];
    (case_decide; [|done]);
    (destruct (recover_record jb h index) eqn:Hr; [|done]);
    apply recover_record_bound in Hr; try done; try lia.
  f_equal. apply IH; lia.
Qed.

Lemma recover_loop_count fuel jb h index :
  JournalHeader_ok h → 0 ≤ index → zlen jb ≤ ISIZE_MAX →
  zlen (recover_loop fuel jb h index) ≤ Z.max 0 (n_rec h - index) ∧
  zlen (recover_loop fuel jb h index) ≤ Z.max 0 (zlen jb - index).
Proof.
  intros Hh Hi Hjb. revert index Hi.
  induction fuel as [|fuel IH]; intros index Hi; cbn [recover_loop]; [cbn; lia|].
  case_decide; [|cbn; lia].
  destruct (recover_record jb h index) as [op|] eqn:Hr; [|cbn; lia].
  apply recover_record_bound in Hr; [|done..].
  destruct (IH (index + 1) ltac:(lia)). cbn [length]. lia.
Qed.

Lemma JournalHeader_parse_ok jb h :
  bytes_ok jb → JournalHeader_parse jb = Ok h → JournalHeader_ok h.
Proof.
  intros Hok. unfold JournalHeader_parse.
  destruct (get_range jb 0 JOURNAL_HEADER_LEN) as [bs|] eqn:Hg; [|done]. intros [= <-].
  pose proof (bytes_ok_get_range _ _ _ _ Hok Hg) as Hbs.
  apply get_range_length in Hg. unfold JOURNAL_HEADER_LEN in Hg.
  assert (∀ k, (k + 4 ≤ 28)%nat → u32_ok (be_val (take 4 (drop k bs)))) as Hf.
  { intros k Hk. pose proof (be_val_bound (take 4 (drop k bs))) as Hb.
    rewrite length_take, length_drop in Hb.
    replace (Z.of_nat (4 `min` (length bs - k))) with 4 in Hb by lia.
    apply Hb. by apply bytes_ok_take, bytes_ok_drop. }
  unfold JournalHeader_ok. cbn -[be_val take drop]. split_and!; apply Hf; lia.
Qed.

(** ** Properties *)

(** The journal's page checksum equals its specification: the nonce plus
    the bytes at offsets [len - 200], [len - 400], ... (never offset 0),
    modulo 2^32.  Consequently pages of the same length that agree on those
    bytes have the same checksum whatever the rest holds, and changing one
    sampled byte always changes it. *)
Theorem page_checksum_spec (nonce : Z) (page page' : bytes) (i : nat) (b : Z)
    (Hn : u32_ok nonce) (Hok : bytes_ok page) (Hlen : length page' = length page) :
  page_checksum nonce page = wrap32 (nonce + total (sampled page)) ∧
  (sampled page' = sampled page → page_checksum nonce page' = page_checksum nonce page) ∧
  (i ∈ sample_offsets (length page) → u8_ok b → page !! i ≠ Some b →
     page_checksum nonce (<[i := b]> page) ≠ page_checksum nonce page).
Proof.
  split; [by apply page_checksum_eq|]. split.
  { intros Hs. rewrite !page_checksum_eq by done. by rewrite Hs. }
  intros Hi Hb Hne. rewrite !page_checksum_eq by done.
  destruct (sampled_insert page i b Hi) as (x & Hx & ->).
  assert (u8_ok x) by (by eapply Forall_lookup_1 in Hx).
  rewrite Hx in Hne. assert (x ≠ b) by congruence. mlia_div.
Qed.

(** Journal round trip.  The writer's calls of one flush (create, then
    one record per page) succeed, leave every other file alone and produce a
    hot journal; replaying it writes back exactly the recorded pages, in
    order, at their offsets, and returns the page count and page size the
    journal was created with. *)
Theorem journal_roundtrip (d : fs) (path : string) (ps ss ipc nc : Z) (recs : list (Z * bytes))
    (Hd : d !! path = None)
    (Hh : JournalHeader_ok (flush_header ps ss ipc nc recs))
    (Hfit : journal_fits (flush_header ps ss ipc nc recs) recs) :
  ∃ ops w, write_journal path ps ss ipc nc recs = (ops, Ok w) ∧
    ∃ jb, read_file (exec_ios d ops) path = Some jb ∧
      (∀ p, p ≠ path → exec_ios d ops !! p = d !! p) ∧
      journal_is_hot jb = true ∧
      recover jb = Ok (map (replay_op ps) recs,
                       {| rj_initial_page_count := ipc; rj_page_size := ps |}).
Proof.
  set (h := flush_header ps ss ipc nc recs) in *.
  pose proof Hfit as (Hs & Hn & Hf & Hrecs).
  rewrite write_journal_trace by (try done; rewrite <- Hn; done).
  do 2 eexists. split; [done|]. exists (journal_image h recs).
  rewrite exec_journal_trace by done. split_and!.
  - rewrite read_file_insert. f_equal. apply apply_journal_ops; [done..|]. by rewrite <- Hn.
  - intros p Hp. by apply lookup_insert_ne.
  - by apply image_hot.
  - by rewrite (recover_image h Hh recs Hfit).
Qed.

(** C20: A torn journal is safe to replay.  Whatever subset of the journal's
    writes reached the disk when the machine crashed before the journal was
    synced, if its nonce is not zero, either the file is not recognised as
    hot, or replaying it writes back a prefix of the recorded pages and
    nothing else. *)
Theorem journal_torn_prefix (d d' : fs) (path : string) (ps ss ipc nc : Z)
    (recs : list (Z * bytes)) (ops : list io) (w : JournalWriter) (jb : bytes)
    (Hd : d !! path = None)
    (Hh : JournalHeader_ok (flush_header ps ss ipc nc recs))
    (Hfit : journal_fits (flush_header ps ss ipc nc recs) recs)
    (Hnc : nc ≠ 0)
    (Hw : write_journal path ps ss ipc nc recs = (ops, Ok w))
    (Hcrash : crash (exec_ios d ops) d')
    (Hread : read_file d' path = Some jb) (Hsize : zlen jb ≤ ISIZE_MAX) :
  journal_is_hot jb = false ∨
  ∃ k, recover jb = Ok (map (replay_op ps) (take k recs),
                        {| rj_initial_page_count := ipc; rj_page_size := ps |}).
Proof.
  set (h := flush_header ps ss ipc nc recs) in *.
  pose proof Hfit as (Hs & Hn & Hf & Hrecs).
  rewrite write_journal_trace in Hw by (try done; rewrite <- Hn; done).
  apply (f_equal fst) in Hw. cbn [fst] in Hw.
  rewrite <- Hw, exec_journal_trace in Hcrash by done.
  specialize (Hcrash path). rewrite lookup_insert_eq in Hcrash.
  unfold read_file in Hread. destruct (d' !! path) as [f'|]; [|done].
  destruct Hcrash as [Hsv Hp]. injection Hread as <-. unfold contents in *.
  rewrite Hp in *. cbn [apply_ops foldl] in *.
  destruct (journal_is_hot (durable f')) eqn:Hhot; [right|by left].
  by apply (recover_torn h recs).
Qed.

Lemma journal_torn_prefix_witness :
  let ops := fst (write_journal "db-journal" 512 512 2 9 [(1, zeros 512)]) in
  let jb := apply_ops [] [FWrite 512 (record_bytes 9 (1, zeros 512))] in
  journal_is_hot jb = false ∨
  ∃ k, recover jb = Ok (map (replay_op 512) (take k [(1, zeros 512)]),
                        {| rj_initial_page_count := 2; rj_page_size := 512 |}).
Proof.
  eapply (journal_torn_prefix ∅ {["db-journal" := File
            (apply_ops [] [FWrite 512 (record_bytes 9 (1, zeros 512))]) []]}
            "db-journal" 512 512 2 9 [(1, zeros 512)]).
  - reflexivity.
  - unfold JournalHeader_ok, u32_ok. cbn. lia.
  - unfold journal_fits. split_and!; [cbn; lia..|vm_compute; congruence|].
    apply Forall_singleton. split_and!; [cbn; lia..|reflexivity|apply bytes_ok_zeros].
  - lia.
  - reflexivity.
  - intros p. rewrite (exec_journal_trace ∅ "db-journal"
      (journal_ops (flush_header 512 512 2 9 [(1, zeros 512)]) [(1, zeros 512)])) by done.
    destruct (decide (p = "db-journal")) as [->|Hne].
    + rewrite lookup_insert_eq, lookup_singleton_eq. split; [|reflexivity].
      apply survives_lose, survives_keep, survives_nil.
    + rewrite lookup_insert_ne, lookup_singleton_ne by congruence. exact I.
  - reflexivity.
  - vm_compute. congruence.
Defined.

(** Hot-journal replay terminates on every input: on any journal bytes,
    however corrupt its header, running the record loop with more fuel than
    the journal has bytes gives the same writes, and there are at most as
    many writes as [n_rec] and as the journal has bytes.  The only error is
    a journal shorter than its header. *)
Theorem recover_total (jb : bytes) (fuel : nat) (Hok : bytes_ok jb) (Hlen : zlen jb ≤ ISIZE_MAX) :
  match recover jb with
  | Ok (ops, _) =>
      ∃ h, JournalHeader_parse jb = Ok h ∧
        ((length jb < fuel)%nat → recover_loop fuel jb h 0 = ops) ∧
        zlen ops ≤ n_rec h ∧ zlen ops ≤ zlen jb
  | Err e => e = JHeaderTooShort (zlen jb) ∧ zlen jb < JOURNAL_HEADER_LEN
  end.
Proof.
  unfold recover. destruct (JournalHeader_parse jb) as [h|e] eqn:Hp.
  - pose proof (JournalHeader_parse_ok jb h Hok Hp) as Hh. exists h. split; [done|]. split.
    + intros Hf. apply recover_loop_fuel; [done..|lia|lia].
    + destruct (recover_loop_count (S (length jb)) jb h 0 Hh) as [H1 H2]; [done..|].
      destruct Hh as (? & _). mlia.
  - unfold JournalHeader_parse in Hp.
    destruct (get_range jb 0 JOURNAL_HEADER_LEN) eqn:Hg; [done|].
    injection Hp as <-. split; [done|]. apply get_range_None in Hg.
    unfold JOURNAL_HEADER_LEN in *. lia.
Qed.

