(* ===== verification/Wal.v ===== *)
(** * The write-ahead log ([row/pager/wal.rs])

    The header and frame format with its running checksum, the scan that
    publishes committed frames through an undo log, and the writer that
    appends frames and resumes an existing log.  Checksums declared native
    are read in the byte order of the host, a parameter of the model. *)

From S2P Require Import Prelude Text Vfs Header.

Definition WAL_HEADER_LEN : Z := 32.
Definition FRAME_HEADER_LEN : Z := 24.
Definition FORMAT_VERSION : Z := 3007000.

Definition cksum : Type := (Z * Z)%type.

Inductive WalError : Type :=
| WalHeaderTooShort (len : Z)
| WalInvalidMagic (magic : Z)
| WalInvalidPageSize (page_size : Z)
| HeaderChecksumMismatch (stored computed : cksum)
| WalVfs (source : VfsError).

Record WalHeader : Type := {
  native_checksum : bool;
  wh_page_size : Z;
  salt1 : Z;
  salt2 : Z;
  format_version : Z;
  checkpoint_seq : Z;
  header_checksum : cksum;
}.

#[global] Instance WalHeader_eq_dec : EqDecision WalHeader.
Proof. unfold cksum. solve_decision. Defined.

Definition wal_read_u32 (buf : bytes) (offset : Z) : result WalError Z :=
  ok_or (read_be 4 buf offset) (WalHeaderTooShort (zlen buf)).

Definition read_u32_opt (buf : bytes) (offset : Z) : option Z :=
  if decide (offset + 4 ≤ USIZE_MAX) then be_val <$> get_range buf offset (offset + 4) else None.

(** ** The log under a host byte order *)

Section wal.
(** The host is little-endian; [u32::from_ne_bytes] depends on it. *)
Context (little_endian : bool).

Definition from_ne_bytes (b : bytes) : Z := if little_endian then le_val b else be_val b.

Definition read_word (native : bool) (b : bytes) : Z :=
  if native then from_ne_bytes b else be_val b.

Fixpoint checksum (native : bool) (data : bytes) (init : cksum) : cksum :=
  match data with
  | b0 :: b1 :: b2 :: b3 :: b4 :: b5 :: b6 :: b7 :: rest =>
      let w0 := read_word native [b0; b1; b2; b3] in
      let w1 := read_word native [b4; b5; b6; b7] in
      let s1 := wrap32 (wrap32 (init.1 + w0) + init.2) in
      let s2 := wrap32 (wrap32 (init.2 + w1) + s1) in
      checksum native rest (s1, s2)
  | _ => init
  end.

Definition WalHeader_parse (bs : bytes) : result WalError WalHeader :=
  if decide (zlen bs < WAL_HEADER_LEN) then Err (WalHeaderTooShort (zlen bs))
  else
    let? magic := wal_read_u32 bs 0 in
    let? native := (if decide (magic = 0x377f0682) then Ok true
                    else if decide (magic = 0x377f0683) then Ok false
                    else Err (WalInvalidMagic magic)) in
    let? page_size := wal_read_u32 bs 8 in
    if (page_size <? 512) || negb (is_power_of_two page_size) || (65536 <? page_size)
    then Err (WalInvalidPageSize page_size)
    else
      let? format_version := wal_read_u32 bs 4 in
      let? checkpoint_seq := wal_read_u32 bs 12 in
      let? salt1 := wal_read_u32 bs 16 in
      let? salt2 := wal_read_u32 bs 20 in
      let? c1 := wal_read_u32 bs 24 in
      let? c2 := wal_read_u32 bs 28 in
      let? checksummed := ok_or (get_range bs 0 24) (WalHeaderTooShort (zlen bs)) in
      let computed := checksum native checksummed (0, 0) in
      if decide (computed ≠ (c1, c2)) then Err (HeaderChecksumMismatch (c1, c2) computed)
      else Ok {| native_checksum := native; wh_page_size := page_size; salt1 := salt1;
                 salt2 := salt2; format_version := format_version;
                 checkpoint_seq := checkpoint_seq; header_checksum := (c1, c2) |}.

Definition WalHeader_serialize (h : WalHeader) : bytes :=
  be_bytes 4 (if native_checksum h then 0x377f0682 else 0x377f0683)
  ++ be_bytes 4 (format_version h) ++ be_bytes 4 (wh_page_size h)
  ++ be_bytes 4 (checkpoint_seq h) ++ be_bytes 4 (salt1 h) ++ be_bytes 4 (salt2 h)
  ++ be_bytes 4 (header_checksum h).1 ++ be_bytes 4 (header_checksum h).2.

Definition WalHeader_new (native : bool) (page_size salt1 salt2 checkpoint_seq : Z) : WalHeader :=
  let header := {| native_checksum := native; wh_page_size := page_size; salt1 := salt1;
                   salt2 := salt2; format_version := FORMAT_VERSION;
                   checkpoint_seq := checkpoint_seq; header_checksum := (0, 0) |} in
  let checksummed := take 24 (WalHeader_serialize header) in
  {| native_checksum := native; wh_page_size := page_size; salt1 := salt1; salt2 := salt2;
     format_version := FORMAT_VERSION; checkpoint_seq := checkpoint_seq;
     header_checksum := checksum native checksummed (0, 0) |}.

Definition frame_size (h : WalHeader) : Z := sat_add FRAME_HEADER_LEN (wh_page_size h).

(** One frame that passed the checks: page number, database size if it
    commits, content, and the running checksum after it. *)
Record frame : Type := {
  fr_page : Z;
  fr_db_size : Z;
  fr_content : bytes;
  fr_after : cksum;
}.

(** The body of [committed_pages]'s loop up to the checksum test; [None]
    is a [break]. *)
Definition scan_frame (h : WalHeader) (wal_bytes : bytes) (offset : Z) (running : cksum)
  : option frame :=
  fh ← get_range wal_bytes offset (sat_add offset FRAME_HEADER_LEN);
  page_number ← read_u32_opt fh 0;
  db_size ← read_u32_opt fh 4;
  s1 ← read_u32_opt fh 8;
  s2 ← read_u32_opt fh 12;
  c1 ← read_u32_opt fh 16;
  c2 ← read_u32_opt fh 20;
  if negb (bool_decide (s1 = salt1 h ∧ s2 = salt2 h)) then None
  else
    page_content ← get_range wal_bytes (sat_add offset FRAME_HEADER_LEN)
                                       (sat_add offset (frame_size h));
    fh_header_bytes ← get_range fh 0 8;
    let after_frame_header := checksum (native_checksum h) fh_header_bytes running in
    let after_page := checksum (native_checksum h) page_content after_frame_header in
    if decide (after_page ≠ (c1, c2)) then None
    else Some {| fr_page := page_number; fr_db_size := db_size;
                 fr_content := page_content; fr_after := after_page |}.

Definition restore (u : Z * option bytes) (pages : gmap Z bytes) : gmap Z bytes :=
  match u.2 with
  | Some content => <[u.1 := content]> pages
  | None => delete u.1 pages
  end.

(** The [while] loop of [committed_pages], then the unwinding of the undo
    log from its end. *)
Fixpoint committed_pages_loop (fuel : nat) (h : WalHeader) (wal_bytes : bytes) (offset : Z)
    (running : cksum) (pages : gmap Z bytes) (undo : list (Z * option bytes))
    (committed_db_size : Z) : gmap Z bytes * Z :=
  match fuel with
  | O => (foldr restore pages undo, committed_db_size)
  | S fuel =>
      if decide (sat_add offset (frame_size h) ≤ zlen wal_bytes) then
        match scan_frame h wal_bytes offset running with
        | None => (foldr restore pages undo, committed_db_size)
        | Some f =>
            let pre_image := pages !! fr_page f in
            let pages := <[fr_page f := fr_content f]> pages in
            let undo := undo ++ [(fr_page f, pre_image)] in
            let undo := if decide (fr_db_size f ≠ 0) then [] else undo in
            let committed_db_size :=
              if decide (fr_db_size f ≠ 0) then fr_db_size f else committed_db_size in
            committed_pages_loop fuel h wal_bytes (sat_add offset (frame_size h)) (fr_after f)
              pages undo committed_db_size
        end
      else (foldr restore pages undo, committed_db_size)
  end.

(** The log's length bounds the frames in it. *)
Definition committed_pages (h : WalHeader) (wal_bytes : bytes) : gmap Z bytes * Z :=
  committed_pages_loop (S (length wal_bytes)) h wal_bytes WAL_HEADER_LEN (header_checksum h)
    ∅ [] 0.

(** The body of [last_valid_frame_state]'s loop: the running checksum
    after a valid frame. *)
Definition valid_frame (h : WalHeader) (wal_bytes : bytes) (offset : Z) (running : cksum)
  : option cksum :=
  fh ← get_range wal_bytes offset (sat_add offset FRAME_HEADER_LEN);
  s1 ← read_u32_opt fh 8;
  s2 ← read_u32_opt fh 12;
  c1 ← read_u32_opt fh 16;
  c2 ← read_u32_opt fh 20;
  if negb (bool_decide (s1 = salt1 h ∧ s2 = salt2 h)) then None
  else
    page_content ← get_range wal_bytes (sat_add offset FRAME_HEADER_LEN)
                                       (sat_add offset (frame_size h));
    fh_header_bytes ← get_range fh 0 8;
    let after_frame_header := checksum (native_checksum h) fh_header_bytes running in
    let after_page := checksum (native_checksum h) page_content after_frame_header in
    if decide (after_page ≠ (c1, c2)) then None else Some after_page.

Fixpoint last_valid_frame_loop (fuel : nat) (h : WalHeader) (wal_bytes : bytes) (offset : Z)
    (running : cksum) : Z * cksum :=
  match fuel with
  | O => (offset, running)
  | S fuel =>
      if decide (sat_add offset (frame_size h) ≤ zlen wal_bytes) then
        match valid_frame h wal_bytes offset running with
        | None => (offset, running)
        | Some after_page =>
            last_valid_frame_loop fuel h wal_bytes (sat_add offset (frame_size h)) after_page
        end
      else (offset, running)
  end.

Definition last_valid_frame_state (h : WalHeader) (wal_bytes : bytes) : Z * cksum :=
  last_valid_frame_loop (S (length wal_bytes)) h wal_bytes WAL_HEADER_LEN (header_checksum h).

(** ** The writer *)

Record WalWriter : Type := {
  ww_path : string;
  ww_header : WalHeader;
  ww_running : cksum;
  ww_offset : Z;
  ww_pending_offset : option Z;
  ww_pending : bytes;
}.

Record WalResumeHint : Type := {
  rh_header : WalHeader;
  rh_offset : Z;
  rh_running : cksum;
  rh_expected_size : Z;
}.

Definition WalWriter_create (path : string) (header : WalHeader) : traced WalError WalWriter :=
  let! _ := t_emit [CreateOrOpen path; WriteAt path 0 (WalHeader_serialize header)] in
  t_ok {| ww_path := path; ww_header := header; ww_running := header_checksum header;
          ww_offset := WAL_HEADER_LEN; ww_pending_offset := None; ww_pending := [] |}.

(** The frame written for a page: its header, with the checksum after the
    frame, then the page. *)
Definition frame_bytes (h : WalHeader) (running : cksum) (page_num : Z) (page_data : bytes)
    (commit_db_size : Z) : bytes * cksum :=
  let prefix := be_bytes 4 page_num ++ be_bytes 4 commit_db_size in
  let after_header := checksum (native_checksum h) prefix running in
  let after_page := checksum (native_checksum h) page_data after_header in
  (prefix ++ be_bytes 4 (salt1 h) ++ be_bytes 4 (salt2 h)
   ++ be_bytes 4 after_page.1 ++ be_bytes 4 after_page.2 ++ page_data, after_page).

Definition WalWriter_append_frame (w : WalWriter) (page_num : Z) (page_data : bytes)
    (commit_db_size : Z) : WalWriter :=
  let '(scratch, after_page) :=
    frame_bytes (ww_header w) (ww_running w) page_num page_data commit_db_size in
  {| ww_path := ww_path w; ww_header := ww_header w; ww_running := after_page;
     ww_offset := sat_add (ww_offset w) (zlen scratch);
     ww_pending_offset := Some (default (ww_offset w) (ww_pending_offset w));
     ww_pending := ww_pending w ++ scratch |}.

Definition WalWriter_sync (w : WalWriter) : traced WalError WalWriter :=
  let! w :=
    (match ww_pending_offset w with
     | Some pending_offset =>
         let! _ := t_emit [WriteAt (ww_path w) pending_offset (ww_pending w)] in
         t_ok {| ww_path := ww_path w; ww_header := ww_header w; ww_running := ww_running w;
                 ww_offset := ww_offset w; ww_pending_offset := None; ww_pending := [] |}
     | None => t_ok w
     end) in
  let! _ := t_emit [SyncF (ww_path w)] in
  t_ok w.

Definition WalWriter_open_existing (d : fs) (path : string) (page_size : Z)
    (resume_hint : option WalResumeHint) : result WalError WalWriter :=
  let? file := ok_or (read_file d path) (WalVfs (NotFound path)) in
  let size := zlen file in
  let resume h running offset :=
    {| ww_path := path; ww_header := h; ww_running := running; ww_offset := offset;
       ww_pending_offset := None; ww_pending := [] |} in
  let rescan :=
    let bs := file_read_at file size 0 in
    let? header := WalHeader_parse bs in
    if decide (wh_page_size header ≠ page_size)
    then Err (WalInvalidPageSize (wh_page_size header))
    else
      let '(offset, running) := last_valid_frame_state header bs in
      Ok (resume header running offset) in
  match resume_hint with
  | Some hint =>
      let header_bytes := file_read_at file WAL_HEADER_LEN 0 in
      let read_header :=
        if decide (zlen header_bytes = WAL_HEADER_LEN)
        then match WalHeader_parse header_bytes with Ok h => Some h | Err _ => None end
        else None in
      if decide (rh_expected_size hint = size ∧ read_header = Some (rh_header hint))
      then Ok (resume (rh_header hint) (rh_running hint) (rh_offset hint))
      else rescan
  | None => rescan
  end.

Definition WalWriter_resume_hint (w : WalWriter) : WalResumeHint :=
  {| rh_header := ww_header w; rh_offset := ww_offset w; rh_running := ww_running w;
     rh_expected_size := ww_offset w |}.

Definition WalWriter_frame_count (w : WalWriter) : Z :=
  let fsize := Z.max (frame_size (ww_header w)) 1 in
  wrap32 (sat_sub (ww_offset w) WAL_HEADER_LEN / fsize).
End wal.

Arguments checksum : simpl never.

(** ** Specification: publish at commit *)

(** Frames update a candidate map; a commit frame publishes it. *)
Fixpoint publish (cand pub : gmap Z bytes) (db_size : Z) (frames : list frame)
  : gmap Z bytes * Z :=
  match frames with
  | [] => (pub, db_size)
  | f :: frames =>
      let cand := <[fr_page f := fr_content f]> cand in
      if decide (fr_db_size f ≠ 0) then publish cand cand (fr_db_size f) frames
      else publish cand pub db_size frames
  end.

Section proofs.
Context (le : bool).
Notation checksum := (checksum le).
Notation scan_frame := (scan_frame le).

(** The valid frames of a log from [offset] on. *)
Fixpoint scan_frames (fuel : nat) (h : WalHeader) (wal : bytes) (offset : Z) (running : cksum)
  : list frame :=
  match fuel with
  | O => []
  | S fuel =>
      if decide (sat_add offset (frame_size h) ≤ zlen wal) then
        match scan_frame h wal offset running with
        | None => []
        | Some f => f :: scan_frames fuel h wal (sat_add offset (frame_size h)) (fr_after f)
        end
      else []
  end.

Definition valid_frames (h : WalHeader) (wal : bytes) : list frame :=
  scan_frames (S (length wal)) h wal WAL_HEADER_LEN (header_checksum h).

Lemma restore_insert (pages : gmap Z bytes) p c :
  restore (p, pages !! p) (<[p := c]> pages) = pages.
Proof.
  unfold restore. cbn. destruct (pages !! p) eqn:E.
  - rewrite insert_insert_eq. by apply insert_id.
  - by apply delete_insert_id.
Qed.

Lemma committed_pages_loop_eq fuel h wal offset running pages undo db :
  committed_pages_loop le fuel h wal offset running pages undo db =
  publish pages (foldr restore pages undo) db (scan_frames fuel h wal offset running).
Proof.
  revert offset running pages undo db.
  induction fuel as [|fuel IH]; intros; cbn [committed_pages_loop scan_frames]; [done|].
  case_decide; [|done]. destruct (scan_frame _ _ _ _) as [f|]; [|done].
  rewrite IH. cbn [publish]. case_decide; [done|].
  rewrite foldr_app. cbn [foldr]. by rewrite restore_insert.
Qed.

Lemma committed_pages_eq h wal : committed_pages le h wal = publish ∅ ∅ 0 (valid_frames h wal).
Proof. unfold committed_pages. by rewrite committed_pages_loop_eq. Qed.

(** *** Frame headers never fall short *)

Lemma read_u32_opt_24 fh o :
  zlen fh = 24 → 0 ≤ o → o + 4 ≤ 24 → ∃ v, read_u32_opt fh o = Some v.
Proof.
  intros Hl ??. unfold read_u32_opt. rewrite decide_True by mlia.
  destruct (get_range_is_Some fh o (o + 4)) as [bs ->]; [lia..|]. by eexists.
Qed.

Lemma frame_header_length wal offset fh :
  0 ≤ offset → zlen wal ≤ ISIZE_MAX →
  get_range wal offset (sat_add offset FRAME_HEADER_LEN) = Some fh → zlen fh = 24.
Proof.
  intros Ho Hw Hg. pose proof Hg as (_ & Hb & _)%get_range_Some. apply get_range_length in Hg.
  rewrite (sat_add_le _ _ _ Hb) in Hg by (by apply isize_usize).
  unfold FRAME_HEADER_LEN in *. lia.
Qed.

Lemma valid_frame_eq h wal offset running :
  0 ≤ offset → sat_add offset (frame_size h) ≤ zlen wal → zlen wal ≤ ISIZE_MAX →
  valid_frame le h wal offset running = fr_after <$> scan_frame h wal offset running.
Proof.
  intros Ho Hle Hw. unfold valid_frame, Wal.scan_frame.
  destruct (get_range wal offset (sat_add offset FRAME_HEADER_LEN)) as [fh|] eqn:Hg; [|done].
  pose proof (frame_header_length _ _ _ Ho Hw Hg) as Hl.
  destruct (read_u32_opt_24 fh 0 Hl) as [pn Hpn]; [lia..|].
  destruct (read_u32_opt_24 fh 4 Hl) as [ds Hds]; [lia..|].
  cbn [mbind option_bind]. rewrite Hpn, Hds. cbn [mbind option_bind].
  destruct (read_u32_opt fh 8); [|done]. cbn [mbind option_bind].
  destruct (read_u32_opt fh 12); [|done]. cbn [mbind option_bind].
  destruct (read_u32_opt fh 16); [|done]. cbn [mbind option_bind].
  destruct (read_u32_opt fh 20); [|done]. cbn [mbind option_bind].
  destruct (negb _); [done|].
  destruct (get_range wal (sat_add offset FRAME_HEADER_LEN) _); [|done]. cbn [mbind option_bind].
  destruct (get_range fh 0 8); [|done]. cbn [mbind option_bind].
  by case_decide.
Qed.

Lemma frame_size_eq h : valid_page_size (wh_page_size h) → frame_size h = 24 + wh_page_size h.
Proof. intros ?%valid_page_size_bounds. unfold frame_size, FRAME_HEADER_LEN. mlia. Qed.

(** The running checksum after the frames. *)
Definition last_after (running : cksum) (frames : list frame) : cksum :=
  foldl (λ _ f, fr_after f) running frames.

Lemma last_valid_frame_loop_eq fuel h wal offset running :
  valid_page_size (wh_page_size h) → 0 ≤ offset → zlen wal ≤ ISIZE_MAX →
  last_valid_frame_loop le fuel h wal offset running =
  let frames := scan_frames fuel h wal offset running in
  (offset + zlen frames * frame_size h, last_after running frames).
Proof.
  intros Hps Hoff Hwal. revert offset running Hoff.
  induction fuel as [|fuel IH]; intros offset running Ho; cbn [last_valid_frame_loop scan_frames].
  { cbn. f_equal; lia. }
  case_decide as Hd; [|cbn; f_equal; lia]. rewrite valid_frame_eq by done.
  destruct (scan_frame h wal offset running) as [f|]; [|cbn; f_equal; lia].
  cbn [fmap option_fmap option_map].
  assert (Hsm : sat_add offset (frame_size h) = offset + frame_size h).
  { apply (sat_add_le _ _ _ Hd). by apply isize_usize. }
  rewrite Hsm. rewrite IH by (rewrite frame_size_eq by done;
    pose proof (valid_page_size_bounds _ Hps); lia).
  cbn [length last_after foldl]. unfold last_after. f_equal. lia.
Qed.

(** *** Fuel *)
Lemma scan_frames_fuel fuel1 fuel2 h wal offset running :
  valid_page_size (wh_page_size h) → 0 ≤ offset → zlen wal ≤ ISIZE_MAX →
  zlen wal < offset + Z.of_nat fuel1 → zlen wal < offset + Z.of_nat fuel2 →
  scan_frames fuel1 h wal offset running = scan_frames fuel2 h wal offset running.
Proof.
  intros Hps Ho Hw. revert fuel2 offset running Ho.
  pose proof (valid_page_size_bounds _ Hps). pose proof (frame_size_eq h Hps).
  induction fuel1 as [|fuel1 IH]; intros [|fuel2] offset running Ho H1 H2;
    cbn [scan_frames]; [done| | |];
    (case_decide as Hd; [|done]);
    pose proof (sat_add_le _ _ _ Hd ltac:(by apply isize_usize)) as Hsm;
    rewrite Hsm in Hd; [lia..|].
  destruct (scan_frame h wal offset running); [|done].
  f_equal. rewrite Hsm. apply IH; lia.
Qed.
End proofs.

(** ** Images: what the writer writes *)

(** A page to append: number, content, database size if it commits. *)
Abbreviation entry := (Z * bytes * Z)%type.

Definition cksum_ok (c : cksum) : Prop := u32_ok c.1 ∧ u32_ok c.2.

Section images.
Context (le : bool).
Notation checksum := (checksum le).

Lemma checksum_ok native data init : cksum_ok init → cksum_ok (checksum native data init).
Proof.
  remember (length data) as n eqn:Hn. revert data init Hn.
  induction (lt_wf n) as [n _ IH]; intros data init Hn Hi.
  do 8 (destruct data as [|? data]; [done|]).
  change (checksum native (z :: z0 :: z1 :: z2 :: z3 :: z4 :: z5 :: z6 :: data) init) with
    (let s1 := wrap32 (wrap32 (init.1 + read_word le native [z; z0; z1; z2]) + init.2) in
     let s2 := wrap32 (wrap32 (init.2 + read_word le native [z3; z4; z5; z6]) + s1) in
     checksum native data (s1, s2)).
  cbv zeta. eapply IH; [|done|].
  - rewrite Hn. cbn. lia.
  - split; apply wrap32_ok.
Qed.

(** Headers the writer makes. *)
Record WalHeader_ok (h : WalHeader) : Prop := {
  who_page_size : valid_page_size (wh_page_size h);
  who_fields : u32_ok (salt1 h) ∧ u32_ok (salt2 h) ∧ u32_ok (format_version h)
               ∧ u32_ok (checkpoint_seq h);
  who_checksum : header_checksum h =
                 checksum (native_checksum h) (take 24 (WalHeader_serialize h)) (0, 0);
}.

Lemma WalHeader_serialize_length h : length (WalHeader_serialize h) = 32%nat.
Proof. reflexivity. Qed.

Lemma header_checksum_ok h : WalHeader_ok h → cksum_ok (header_checksum h).
Proof. intros [_ _ ->]. apply checksum_ok. split; unfold u32_ok; cbn; lia. Qed.

Lemma WalHeader_new_ok native ps s1 s2 seq :
  valid_page_size ps → u32_ok s1 → u32_ok s2 → u32_ok seq →
  WalHeader_ok (WalHeader_new le native ps s1 s2 seq).
Proof.
  intros. split; [done| |reflexivity]. cbn [salt1 salt2 format_version checkpoint_seq WalHeader_new].
  unfold FORMAT_VERSION, u32_ok in *. lia.
Qed.

Lemma read_be4_at (p s : bytes) v o :
  u32_ok v → o = zlen p → o ≤ 32 → read_be 4 (p ++ be_bytes 4 v ++ s) o = Some v.
Proof.
  intros. apply read_be_app; [done| |]; [|mlia].
  transitivity 36; [lia|]. vm_compute. congruence.
Qed.

Lemma read_be4_0 v (s : bytes) : u32_ok v → read_be 4 (be_bytes 4 v ++ s) 0 = Some v.
Proof. intros. by apply (read_be4_at []). Qed.

Lemma WalHeader_parse_serialize h rest :
  WalHeader_ok h → WalHeader_parse le (WalHeader_serialize h ++ rest) = Ok h.
Proof.
  intros Hh. pose proof (header_checksum_ok h Hh) as [Hc1 Hc2].
  destruct Hh as [Hps (Hs1 & Hs2 & Hfv & Hseq) Hck].
  pose proof (valid_page_size_bounds _ Hps).
  unfold WalHeader_parse. rewrite decide_False
    by (rewrite length_app, WalHeader_serialize_length; unfold WAL_HEADER_LEN; lia).
  assert (Hg : get_range (WalHeader_serialize h ++ rest) 0 24
               = Some (take 24 (WalHeader_serialize h))).
  { apply get_range_Some. rewrite length_app, WalHeader_serialize_length.
    split_and!; [lia..|]. change (Z.to_nat 0) with 0%nat. rewrite drop_0.
    change (Z.to_nat (24 - 0)) with 24%nat.
    by rewrite take_app_le by (rewrite WalHeader_serialize_length; lia). }
  rewrite Hg. clear Hg. unfold wal_read_u32.
  set (m := if native_checksum h then 0x377f0682 else 0x377f0683).
  assert (Hm : u32_ok m) by (unfold m, u32_ok; destruct (native_checksum h); lia).
  assert (Hser : WalHeader_serialize h ++ rest =
    be_bytes 4 m ++ be_bytes 4 (format_version h) ++ be_bytes 4 (wh_page_size h)
    ++ be_bytes 4 (checkpoint_seq h) ++ be_bytes 4 (salt1 h) ++ be_bytes 4 (salt2 h)
    ++ be_bytes 4 (header_checksum h).1 ++ be_bytes 4 (header_checksum h).2 ++ rest).
  { unfold WalHeader_serialize. fold m. by rewrite <- !(assoc_L (++)). }
  rewrite Hser. generalize dependent (WalHeader_serialize h). intros ser Hck Hser.
  rewrite (read_be4_0 m) by done. cbn [ok_or].
  assert ((if decide (m = 0x377f0682) then Ok true
           else if decide (m = 0x377f0683) then Ok false
           else Err (WalInvalidMagic m)) = Ok (native_checksum h)) as ->.
  { unfold m. by destruct (native_checksum h). }
  set (A0 := be_bytes 4 m). set (A1 := be_bytes 4 (format_version h)).
  set (A3 := be_bytes 4 (checkpoint_seq h)). set (A4 := be_bytes 4 (salt1 h)).
  set (A2 := be_bytes 4 (wh_page_size h)). set (A5 := be_bytes 4 (salt2 h)).
  set (A6 := be_bytes 4 (header_checksum h).1).
  rewrite (app_assoc A0 A1 (A2 ++ _)) at 1.
  rewrite (read_be4_at (A0 ++ A1) _ (wh_page_size h) 8) by (done || mlia). cbn [ok_or].
  assert ((wh_page_size h <? 512) || negb (is_power_of_two (wh_page_size h))
          || (65536 <? wh_page_size h) = false) as ->.
  { clear -Hps. unfold valid_page_size, valid_page_sizes in Hps. revert Hps.
    rewrite !elem_of_cons, elem_of_nil.
    intros [->|[->|[->|[->|[->|[->|[->|[->|[]]]]]]]]]; reflexivity. }
  rewrite (read_be4_at A0 _ (format_version h) 4) by done. cbn [ok_or].
  rewrite (app_assoc A0 A1), (app_assoc (A0 ++ A1) A2).
  rewrite (read_be4_at ((A0 ++ A1) ++ A2) _ (checkpoint_seq h) 12) by done. cbn [ok_or].
  rewrite (app_assoc _ A3).
  rewrite (read_be4_at (((A0 ++ A1) ++ A2) ++ A3) _ (salt1 h) 16) by done. cbn [ok_or].
  rewrite (app_assoc _ A4).
  rewrite (read_be4_at ((((A0 ++ A1) ++ A2) ++ A3) ++ A4) _ (salt2 h) 20) by done. cbn [ok_or].
  rewrite (app_assoc _ A5).
  rewrite (read_be4_at (((((A0 ++ A1) ++ A2) ++ A3) ++ A4) ++ A5) _ (header_checksum h).1 24)
    by done. cbn [ok_or].
  rewrite (app_assoc _ A6).
  rewrite (read_be4_at ((((((A0 ++ A1) ++ A2) ++ A3) ++ A4) ++ A5) ++ A6) _
             (header_checksum h).2 28) by done. cbn [ok_or].
  rewrite <- Hck. rewrite decide_False by (destruct (header_checksum h); tauto).
  by destruct h as [? ? ? ? ? ? []].
Qed.

(** *** Frames *)

Definition entry_ok (ps : Z) (e : entry) : Prop :=
  u32_ok e.1.1 ∧ zlen e.1.2 = ps ∧ u32_ok e.2.

Fixpoint entries_bytes (h : WalHeader) (running : cksum) (es : list entry) : bytes :=
  match es with
  | [] => []
  | (p, d, c) :: es =>
      let '(b, after) := frame_bytes le h running p d c in b ++ entries_bytes h after es
  end.

Fixpoint entries_frames (h : WalHeader) (running : cksum) (es : list entry) : list frame :=
  match es with
  | [] => []
  | (p, d, c) :: es =>
      let '(_, after) := frame_bytes le h running p d c in
      {| fr_page := p; fr_db_size := c; fr_content := d; fr_after := after |}
        :: entries_frames h after es
  end.

Lemma frame_bytes_length h running p d c :
  zlen (frame_bytes le h running p d c).1 = 24 + zlen d.
Proof. unfold frame_bytes. cbn [fst]. rewrite !length_app, !be_bytes_length. lia. Qed.

Lemma frame_bytes_after_ok h running p d c :
  cksum_ok running → cksum_ok (frame_bytes le h running p d c).2.
Proof. intros. unfold frame_bytes. cbn [snd]. by do 2 apply checksum_ok. Qed.

Lemma read_u32_opt_at (p s : bytes) v o :
  u32_ok v → o = zlen p → o ≤ 32 → read_u32_opt (p ++ be_bytes 4 v ++ s) o = Some v.
Proof.
  intros Hv -> Ho. unfold read_u32_opt. rewrite decide_True by mlia.
  rewrite (get_range_app3 p) by (rewrite ?be_bytes_length; lia). cbn [fmap option_fmap option_map].
  by rewrite be_val_be_bytes, Z.mod_small by mlia.
Qed.

Lemma read_u32_opt_0 v (s : bytes) : u32_ok v → read_u32_opt (be_bytes 4 v ++ s) 0 = Some v.
Proof. intros. by apply (read_u32_opt_at []). Qed.

Lemma scan_frame_hit h wal offset running p d c :
  WalHeader_ok h → cksum_ok running → entry_ok (wh_page_size h) (p, d, c) →
  0 ≤ offset → zlen wal ≤ ISIZE_MAX →
  get_range wal offset (offset + (24 + wh_page_size h)) = Some (frame_bytes le h running p d c).1 →
  scan_frame le h wal offset running =
  Some {| fr_page := p; fr_db_size := c; fr_content := d;
          fr_after := (frame_bytes le h running p d c).2 |}.
Proof.
  intros [Hps (Hs1 & Hs2 & _ & _) _] Hrun (Hp & Hd & Hc) Ho Hw Hg. cbn [fst snd] in *.
  pose proof (valid_page_size_bounds _ Hps).
  pose proof Hg as (_ & Hfit & Heq)%get_range_Some.
  pose proof (isize_usize _ Hw) as Hu.
  pose proof (frame_bytes_after_ok h running p d c Hrun) as [Ha1 Ha2].
  set (after := (frame_bytes le h running p d c).2) in *.
  set (fh := be_bytes 4 p ++ be_bytes 4 c ++ be_bytes 4 (salt1 h) ++ be_bytes 4 (salt2 h)
             ++ be_bytes 4 after.1 ++ be_bytes 4 after.2).
  assert (Hfb : (frame_bytes le h running p d c).1 = fh ++ d).
  { unfold frame_bytes, fh, after. cbn [fst snd]. by rewrite <- !(assoc_L (++)). }
  rewrite Hfb in Heq.
  replace (Z.to_nat (offset + (24 + wh_page_size h) - offset))
    with (length (fh ++ d)) in Heq by (rewrite length_app; unfold fh;
      rewrite !length_app, !be_bytes_length; lia).
  assert (Hwal : wal = take (Z.to_nat offset) wal ++ (fh ++ d)
                       ++ drop (length (fh ++ d)) (drop (Z.to_nat offset) wal)).
  { rewrite Heq at 1. by rewrite take_drop, take_drop. }
  assert (Hfl : zlen fh = 24) by (unfold fh; rewrite !length_app, !be_bytes_length; lia).
  assert (Hpl : zlen (take (Z.to_nat offset) wal) = offset) by (rewrite length_take; lia).
  unfold scan_frame, FRAME_HEADER_LEN. rewrite frame_size_eq by done.
  rewrite !sat_add_small by lia. rewrite Hwal.
  rewrite <- (assoc_L (++) fh d). rewrite (get_range_app3 _ fh _ offset (offset + 24)) by lia. cbn [mbind option_bind].
  rewrite (app_assoc _ fh). rewrite (get_range_app3 _ d) by (rewrite ?length_app; lia).
  unfold fh.
  rewrite (read_u32_opt_0 p _ Hp). cbn [mbind option_bind].
  rewrite (read_u32_opt_at (be_bytes 4 p) _ c 4 Hc) by done. cbn [mbind option_bind].
  rewrite (app_assoc (be_bytes 4 p)).
  rewrite (read_u32_opt_at _ _ (salt1 h) 8 Hs1) by done. cbn [mbind option_bind].
  rewrite (app_assoc (_ ++ _) (be_bytes 4 (salt1 h))).
  rewrite (read_u32_opt_at _ _ (salt2 h) 12 Hs2) by done. cbn [mbind option_bind].
  rewrite (app_assoc ((_ ++ _) ++ _) (be_bytes 4 (salt2 h))).
  rewrite (read_u32_opt_at _ _ after.1 16 Ha1) by done. cbn [mbind option_bind].
  rewrite <- (app_nil_r (be_bytes 4 after.2)), (app_assoc (((_ ++ _) ++ _) ++ _)).
  rewrite (read_u32_opt_at _ [] after.2 20 Ha2) by done. cbn [mbind option_bind].
  rewrite bool_decide_eq_true_2 by done. cbn [negb].
  rewrite <- !(assoc_L (++)), (app_assoc (be_bytes 4 p)).
  rewrite get_range_app_l by done.
  change 8 with (zlen (be_bytes 4 p ++ be_bytes 4 c)). rewrite get_range_full.
  cbn [mbind option_bind].
  change (checksum (native_checksum h) d
    (checksum (native_checksum h) (be_bytes 4 p ++ be_bytes 4 c) running)) with after.
  rewrite decide_False; [done|]. destruct after; tauto.
Qed.
End images.

(** ** Logs *)

Definition apply_entries (m : gmap Z bytes) (es : list entry) : gmap Z bytes :=
  foldl (λ m e, <[e.1.1 := e.1.2]> m) m es.

(** A transaction: only its last frame commits. *)
Definition txn (es : list entry) : Prop :=
  ∃ pre e, es = pre ++ [e] ∧ e.2 ≠ 0 ∧ Forall (λ x : entry, x.2 = 0) pre.

(** A log whose last frame, if any, commits. *)
Definition committed_log (es : list entry) : Prop :=
  es = [] ∨ ∃ pre e, es = pre ++ [e] ∧ e.2 ≠ 0.

Lemma publish_uncommitted cand pub db fs0 fs1 :
  Forall (λ f, fr_db_size f = 0) fs1 →
  publish cand pub db (fs0 ++ fs1) = publish cand pub db fs0.
Proof.
  intros H1. revert cand pub db. induction fs0 as [|f fs0 IH]; intros; cbn [app publish].
  - revert cand. induction H1 as [|f fs1 Hf _ IH]; intros cand; cbn [publish]; [done|].
    rewrite decide_False by tauto. apply IH.
  - case_decide; apply IH.
Qed.

Definition ins_frame (m : gmap Z bytes) (f : frame) : gmap Z bytes := <[fr_page f := fr_content f]> m.

Lemma publish_committed cand pub db fs f :
  fr_db_size f ≠ 0 →
  publish cand pub db (fs ++ [f]) = (foldl ins_frame cand (fs ++ [f]), fr_db_size f).
Proof.
  intros Hf. revert cand pub db.
  induction fs as [|g fs IH]; intros; cbn [app publish foldl].
  - rewrite decide_True by done. done.
  - case_decide; apply IH.
Qed.

Section logs.
Context (le : bool) (h : WalHeader) (Hh : WalHeader_ok le h).

Definition wal_image (es : list entry) : bytes :=
  WalHeader_serialize h ++ entries_bytes le h (header_checksum h) es.

Definition log_frames (es : list entry) : list frame :=
  entries_frames le h (header_checksum h) es.

Definition log_running (es : list entry) : cksum := last_after (header_checksum h) (log_frames es).

Let ps := wh_page_size h.
Notation entries_ok es := (Forall (entry_ok ps) es).

Lemma entries_bytes_length running es :
  entries_ok es → zlen (entries_bytes le h running es) = zlen es * (24 + ps).
Proof.
  intros Hes. revert running. induction Hes as [|[[p d] c] es (_ & Hd & _) _ IH];
    intros running; [done|]. cbn [entries_bytes length].
  pose proof (frame_bytes_length le h running p d c) as Hfl. cbn [fst snd] in Hd.
  destruct (frame_bytes le h running p d c) as [b after]. cbn [fst] in Hfl.
  rewrite length_app, Nat2Z.inj_add, IH, Hfl. lia.
Qed.

Lemma entries_frames_app running es1 es2 :
  entries_frames le h running (es1 ++ es2) =
  entries_frames le h running es1
  ++ entries_frames le h (last_after running (entries_frames le h running es1)) es2.
Proof.
  revert running. induction es1 as [|[[p d] c] es1 IH]; intros running; [done|].
  cbn [app entries_frames]. destruct (frame_bytes _ _ _ _ _ _) as [b after].
  cbn [app]. by rewrite IH.
Qed.

Lemma entries_bytes_app running es1 es2 :
  entries_bytes le h running (es1 ++ es2) =
  entries_bytes le h running es1
  ++ entries_bytes le h (last_after running (entries_frames le h running es1)) es2.
Proof.
  revert running. induction es1 as [|[[p d] c] es1 IH]; intros running; [done|].
  cbn [app entries_frames entries_bytes]. destruct (frame_bytes _ _ _ _ _ _) as [b after].
  rewrite IH. by rewrite <- (assoc_L (++)).
Qed.

Lemma entries_frames_length running es : length (entries_frames le h running es) = length es.
Proof.
  revert running. induction es as [|[[p d] c] es IH]; intros running; [done|].
  cbn [entries_frames]. destruct (frame_bytes _ _ _ _ _ _) as [b after].
  cbn [length]. by rewrite IH.
Qed.

Lemma entries_frames_foldl running es m :
  foldl ins_frame m (entries_frames le h running es) = apply_entries m es.
Proof.
  revert running m. induction es as [|[[p d] c] es IH]; intros running m; [done|].
  cbn [entries_frames]. destruct (frame_bytes _ _ _ _ _ _) as [b after].
  cbn [foldl apply_entries]. apply IH.
Qed.

Lemma entries_frames_uncommitted running es :
  Forall (λ x : entry, x.2 = 0) es →
  Forall (λ f, fr_db_size f = 0) (entries_frames le h running es).
Proof.
  intros Hes. revert running. induction Hes as [|[[p d] c] es Hc _ IH]; intros running; [done|].
  cbn [entries_frames]. destruct (frame_bytes _ _ _ _ _ _) as [b after].
  by constructor.
Qed.

Lemma scan_frames_entries es pre post running fuel :
  cksum_ok running → entries_ok es → (length es < fuel)%nat →
  zlen post < 24 + ps → zlen (pre ++ entries_bytes le h running es ++ post) ≤ ISIZE_MAX →
  scan_frames le fuel h (pre ++ entries_bytes le h running es ++ post) (zlen pre) running
  = entries_frames le h running es.
Proof.
  intros Hrun Hes. revert pre running fuel Hrun.
  pose proof (who_page_size _ _ Hh) as Hps. pose proof (valid_page_size_bounds _ Hps) as Hb.
  fold ps in Hb.
  induction Hes as [|[[p d] c] es He _ IH]; intros pre running fuel Hrun Hf Hpost Hlen;
    (destruct fuel as [|fuel]; [lia|]); cbn [scan_frames entries_bytes entries_frames] in *.
  - case_decide as Hd; [|done]. exfalso.
    rewrite frame_size_eq in Hd by done. fold ps in Hd.
    pose proof (sat_add_le _ _ _ Hd ltac:(by apply isize_usize)) as Hsm. rewrite Hsm in Hd.
    rewrite !length_app in Hd. cbn [length] in Hd. lia.
  - pose proof (frame_bytes_length le h running p d c) as Hfl.
    pose proof (frame_bytes_after_ok le h running p d c Hrun) as Haft.
    pose proof (scan_frame_hit le h (pre ++ ((frame_bytes le h running p d c).1
      ++ entries_bytes le h (frame_bytes le h running p d c).2 es) ++ post)
      (zlen pre) running p d c Hh Hrun He ltac:(lia)) as Hhit.
    destruct He as (_ & Hd & _). cbn [fst snd] in Hd.
    destruct (frame_bytes le h running p d c) as [b after]. cbn [fst snd] in *.
    rewrite <- (assoc_L (++) b) in *.
    rewrite decide_True.
    2: { rewrite frame_size_eq by done. fold ps. unfold sat_add. etrans; [apply Z.le_min_l|].
         rewrite !length_app. lia. }
    rewrite Hhit; [|done|apply get_range_app3; [done|fold ps; lia]]. cbn [fr_after].
    f_equal. rewrite sat_add_small.
    2: { rewrite frame_size_eq by done. fold ps. pose proof (isize_usize _ Hlen).
         rewrite !length_app in *. lia. }
    rewrite frame_size_eq by done. fold ps.
    replace (zlen pre + (24 + ps)) with (zlen (pre ++ b)) by (rewrite length_app; lia).
    rewrite (app_assoc pre b) in *. cbn [length] in Hf. apply IH; [done|lia|done|done].
Qed.

Lemma wal_frames es post :
  entries_ok es → zlen post < 24 + ps → zlen (wal_image es ++ post) ≤ ISIZE_MAX →
  valid_frames le h (wal_image es ++ post) = log_frames es.
Proof.
  intros Hes Hpost Hlen. unfold valid_frames, wal_image, log_frames.
  rewrite <- (assoc_L (++)).
  replace WAL_HEADER_LEN with (zlen (WalHeader_serialize h)) by done.
  apply scan_frames_entries; [by eapply header_checksum_ok|done| |done|].
  - pose proof (entries_bytes_length (header_checksum h) es Hes) as Hl.
    pose proof (valid_page_size_bounds _ (who_page_size _ _ Hh)) as Hb. fold ps in Hb.
    rewrite !length_app. nia.
  - unfold wal_image in Hlen. by rewrite <- (assoc_L (++)) in Hlen.
Qed.

(** *** Torn logs *)

Lemma entries_bytes_take es running (m : nat) :
  entries_ok es →
  ∃ post, take m (entries_bytes le h running es)
          = entries_bytes le h running (take (m / Z.to_nat (24 + ps)) es) ++ post ∧
          zlen post < 24 + ps.
Proof.
  pose proof (valid_page_size_bounds _ (who_page_size _ _ Hh)) as Hb. fold ps in Hb.
  intros Hes. revert running m. induction Hes as [|[[p d] c] es (_ & Hd & _) _ IH];
    intros running m.
  { exists []. cbn [entries_bytes]. rewrite !take_nil. cbn. split; [done|lia]. }
  cbn [entries_bytes]. pose proof (frame_bytes_length le h running p d c) as Hfl.
  cbn [fst snd] in Hd.
  destruct (frame_bytes le h running p d c) as [b after] eqn:Hfb. cbn [fst] in Hfl.
  destruct (decide (m < Z.to_nat (24 + ps))%nat) as [Hlt|Hge].
  - rewrite Nat.div_small by done. exists (take m (b ++ entries_bytes le h after es)).
    split; [done|]. rewrite length_take. lia.
  - destruct (IH after (m - Z.to_nat (24 + ps))%nat) as (post & Hpost & Hpl).
    exists post. split; [|done].
    replace m with (1 * Z.to_nat (24 + ps) + (m - Z.to_nat (24 + ps)))%nat at 2 by lia.
    rewrite Nat.div_add_l by lia. cbn [Nat.add take entries_bytes]. rewrite Hfb.
    rewrite take_app_ge by lia. rewrite <- (assoc_L (++)), <- Hpost.
    do 2 f_equal. lia.
Qed.

Lemma committed_pages_image es post :
  entries_ok es → zlen post < 24 + ps → zlen (wal_image es ++ post) ≤ ISIZE_MAX →
  committed_pages le h (wal_image es ++ post) = publish ∅ ∅ 0 (log_frames es).
Proof. intros. rewrite committed_pages_eq. by rewrite wal_frames. Qed.

Lemma publish_log es :
  committed_log es → (publish ∅ ∅ 0 (log_frames es)).1 = apply_entries ∅ es.
Proof.
  intros [->|(pre & e & -> & He)]; [done|]. unfold log_frames.
  rewrite entries_frames_app. destruct e as [[p d] c]. cbn [entries_frames].
  destruct (frame_bytes _ _ _ _ _ _) as [b after] eqn:Hfb.
  rewrite publish_committed by done. cbn [fst].
  rewrite foldl_app, entries_frames_foldl. cbn [foldl ins_frame fr_page fr_content].
  unfold apply_entries. by rewrite foldl_app.
Qed.

Lemma publish_txn es0 es1 :
  committed_log es0 → txn es1 →
  publish ∅ ∅ 0 (log_frames (es0 ++ es1)) =
  (apply_entries (publish ∅ ∅ 0 (log_frames es0)).1 es1, default 0 (snd <$> last es1)).
Proof.
  intros H0 (pre & e & -> & He & _). rewrite publish_log by done.
  rewrite last_snoc. cbn [fmap option_fmap option_map default].
  assert (Hc : committed_log (es0 ++ pre ++ [e])).
  { right. exists (es0 ++ pre), e. by rewrite (assoc_L (++)). }
  rewrite (surjective_pairing (publish _ _ _ (log_frames (es0 ++ pre ++ [e])))). f_equal.
  - rewrite publish_log by done. unfold apply_entries. by rewrite !foldl_app.
  - unfold log_frames. rewrite (assoc_L (++)), entries_frames_app.
    destruct e as [[p d] c]. cbn [entries_frames].
    destruct (frame_bytes _ _ _ _ _ _) as [b after]. by rewrite publish_committed by done.
Qed.

Lemma wal_image_length es : entries_ok es → zlen (wal_image es) = 32 + zlen es * (24 + ps).
Proof.
  intros. unfold wal_image. rewrite length_app, Nat2Z.inj_add, entries_bytes_length by done.
  by rewrite WalHeader_serialize_length.
Qed.

Lemma wal_image_app es0 es1 :
  wal_image (es0 ++ es1) = wal_image es0 ++ entries_bytes le h (log_running es0) es1.
Proof. unfold wal_image. rewrite entries_bytes_app. by rewrite <- (assoc_L (++)). Qed.

(** A log cut anywhere after [es0] holds [es0] and whole frames of [es1]. *)
Lemma wal_image_cut es0 es1 (n : nat) :
  entries_ok es1 → (length (wal_image es0) ≤ n)%nat →
  ∃ k post, take n (wal_image (es0 ++ es1)) = wal_image (es0 ++ take k es1) ++ post ∧
            zlen post < 24 + ps ∧
            ((n < length (wal_image (es0 ++ es1)))%nat → (k < length es1)%nat).
Proof.
  intros H1 Hn. pose proof (valid_page_size_bounds _ (who_page_size _ _ Hh)) as Hb. fold ps in Hb.
  rewrite wal_image_app, take_app_ge by done.
  destruct (entries_bytes_take es1 (log_running es0) (n - length (wal_image es0)) H1)
    as (post & Hpost & Hpl).
  exists ((n - length (wal_image es0)) / Z.to_nat (24 + ps))%nat, post.
  rewrite Hpost, wal_image_app, <- (assoc_L (++)). split_and!; [done|done|].
  pose proof (entries_bytes_length (log_running es0) es1 H1) as Hl.
  rewrite length_app. intros Hlt. apply Nat.Div0.div_lt_upper_bound. lia.
Qed.

(** *** The writer *)

Definition append_all (w : WalWriter) (es : list entry) : WalWriter :=
  foldl (λ w e, WalWriter_append_frame le w e.1.1 e.1.2 e.2) w es.

(** The writer of a log that holds [es]. *)
Definition writer_state (path : string) (es : list entry) : WalWriter :=
  {| ww_path := path; ww_header := h; ww_running := log_running es;
     ww_offset := 32 + zlen es * (24 + ps); ww_pending_offset := None; ww_pending := [] |}.

Lemma log_running_snoc es p d c :
  log_running (es ++ [(p, d, c)]) = (frame_bytes le h (log_running es) p d c).2.
Proof.
  unfold log_running, log_frames. rewrite entries_frames_app. cbn [entries_frames].
  unfold last_after. rewrite foldl_app. fold (last_after (header_checksum h)
    (entries_frames le h (header_checksum h) es)). fold (log_frames es). fold (log_running es).
  by destruct (frame_bytes le h (log_running es) p d c).
Qed.

Lemma append_all_state path es0 es1 :
  es1 ≠ [] → entries_ok es1 → 32 + zlen (es0 ++ es1) * (24 + ps) ≤ ISIZE_MAX →
  append_all (writer_state path es0) es1 =
  {| ww_path := path; ww_header := h; ww_running := log_running (es0 ++ es1);
     ww_offset := 32 + zlen (es0 ++ es1) * (24 + ps);
     ww_pending_offset := Some (32 + zlen es0 * (24 + ps));
     ww_pending := entries_bytes le h (log_running es0) es1 |}.
Proof.
  intros Hne. pose proof (valid_page_size_bounds _ (who_page_size _ _ Hh)) as Hb. fold ps in Hb.
  induction es1 as [|[[p d] c] es1 IH] using rev_ind; [done|]. intros Hes Hfit.
  apply Forall_app in Hes as [Hes1 (_ & Hd & _)%Forall_singleton]. cbn [fst snd] in Hd.
  unfold append_all in *. rewrite foldl_app. cbn [foldl].
  assert (Hlen : zlen (es0 ++ es1 ++ [(p, d, c)]) = zlen (es0 ++ es1) + 1)
    by (rewrite !length_app; cbn [length]; lia).
  rewrite Hlen in Hfit |- *. rewrite (assoc_L (++)), log_running_snoc.
  rewrite entries_bytes_app. cbn [entries_bytes fst snd].
  assert (Hoff : sat_add (32 + zlen (es0 ++ es1) * (24 + ps)) (24 + ps)
                 = 32 + (zlen (es0 ++ es1) + 1) * (24 + ps)).
  { rewrite sat_add_small; [lia|]. pose proof (isize_usize _ Hfit). lia. }
  pose proof (frame_bytes_length le h (log_running (es0 ++ es1)) p d c) as Hfl.
  rewrite Hd in Hfl.
  assert (Hrun : last_after (log_running es0) (entries_frames le h (log_running es0) es1)
                 = log_running (es0 ++ es1)).
  { unfold log_running at 3, log_frames. rewrite entries_frames_app. unfold last_after.
    by rewrite foldl_app. }
  rewrite Hrun. destruct es1 as [|e1 es1'].
  - unfold WalWriter_append_frame.
    cbn [foldl writer_state ww_header ww_running ww_offset ww_pending ww_pending_offset ww_path].
    rewrite (app_nil_r es0) in Hoff, Hfl |- *.
    destruct (frame_bytes le h (log_running es0) p d c) as [b after]. cbn [fst snd] in *.
    rewrite Hfl. cbn [default app entries_bytes]. rewrite app_nil_r. f_equal. exact Hoff.
  - rewrite IH; [|done|done|lia]. unfold WalWriter_append_frame.
    cbn [writer_state ww_header ww_running ww_offset ww_pending ww_pending_offset ww_path].
    destruct (frame_bytes le h (log_running (es0 ++ e1 :: es1')) p d c) as [b after].
    cbn [fst snd default] in *. rewrite Hfl, app_nil_r. f_equal. exact Hoff.
Qed.

(** [create] on an absent file, and [sync] after appending. *)
Lemma create_exec (d : fs) path :
  d !! path = None →
  ∃ ops, WalWriter_create path h = (ops, Ok (writer_state path [])) ∧
         exec_ios d ops = <[path := File [] [FWrite 0 (WalHeader_serialize h)]]> d ∧
         apply_ops [] [FWrite 0 (WalHeader_serialize h)] = wal_image [].
Proof.
  intros Hd. eexists. split; [reflexivity|]. split.
  - cbn [app exec_ios foldl exec_io]. rewrite Hd.
    apply map_eq. intros q. destruct (decide (q = path)) as [->|Hne].
    + by rewrite lookup_alter_eq, !lookup_insert_eq.
    + by rewrite lookup_alter_ne, !lookup_insert_ne by done.
  - cbn [apply_ops foldl apply_op]. rewrite file_write_at_whole.
    + unfold wal_image. cbn [entries_bytes]. by rewrite app_nil_r.
    + cbn. lia.
    + cbn. vm_compute. congruence.
Qed.

Lemma sync_exec (d : fs) path es0 es1 f :
  d !! path = Some f → contents f = wal_image es0 → entries_ok es0 → entries_ok es1 →
  32 + zlen (es0 ++ es1) * (24 + ps) ≤ ISIZE_MAX →
  ∃ ops, WalWriter_sync (append_all (writer_state path es0) es1)
         = (ops, Ok (writer_state path (es0 ++ es1))) ∧
         exec_ios d ops = <[path := File (wal_image (es0 ++ es1)) []]> d.
Proof.
  intros Hd Hc H0 H1 Hfit. destruct (decide (es1 = [])) as [->|Hne].
  - eexists. split; [cbn; by rewrite app_nil_r|].
    cbn [app exec_ios foldl exec_io writer_state ww_path]. rewrite app_nil_r, <- Hc.
    exact (alter_as_insert (λ f, File (contents f) []) _ _ _ Hd).
  - rewrite append_all_state by done. eexists. split; [reflexivity|].
    cbn [app exec_ios foldl exec_io ww_path ww_pending].
    rewrite (alter_as_insert _ _ _ f Hd).
    rewrite (alter_as_insert _ _ _ (push_op (FWrite (32 + zlen es0 * (24 + ps))
      (entries_bytes le h (log_running es0) es1)) f)) by apply lookup_insert_eq.
    rewrite insert_insert_eq. do 2 f_equal. unfold contents, push_op in *. cbn [durable pending].
    unfold apply_ops in *. rewrite foldl_app. cbn [foldl apply_op]. rewrite Hc.
    rewrite wal_image_app. apply file_write_at_append.
    + by rewrite wal_image_length.
    + rewrite entries_bytes_length by done. pose proof (isize_usize _ Hfit).
      rewrite length_app in *. lia.
Qed.

Lemma open_existing_state (d : fs) path es (hint : bool) :
  read_file d path = Some (wal_image es) → entries_ok es → zlen (wal_image es) ≤ ISIZE_MAX →
  WalWriter_open_existing le d path ps
    (if hint then Some (WalWriter_resume_hint (writer_state path es)) else None)
  = Ok (writer_state path es).
Proof.
  intros Hr Hes Hlen. pose proof (valid_page_size_bounds _ (who_page_size _ _ Hh)) as Hb.
  fold ps in Hb. unfold WalWriter_open_existing. rewrite Hr. cbn [ok_or].
  assert (Hrd : file_read_at (wal_image es) (zlen (wal_image es)) 0 = wal_image es).
  { assert (Some (file_read_at (wal_image es) (zlen (wal_image es)) 0) = Some (wal_image es)) as Hs
      by (rewrite file_read_at_range by lia; apply get_range_full).
    congruence. }
  assert (Hparse : WalHeader_parse le (wal_image es) = Ok h)
    by (by apply WalHeader_parse_serialize).
  rewrite Hrd, Hparse. rewrite (decide_False (P := wh_page_size h ≠ ps)) by (intros Hne; by apply Hne).
  unfold last_valid_frame_state.
  rewrite last_valid_frame_loop_eq by (done || apply Hh).
  pose proof (wal_frames es [] Hes ltac:(cbn; lia)) as Hf. rewrite app_nil_r in Hf.
  unfold valid_frames in Hf. rewrite (Hf Hlen). cbv zeta.
  replace (zlen (log_frames es)) with (zlen es)
    by (unfold log_frames; by rewrite entries_frames_length).
  rewrite frame_size_eq by apply Hh. fold ps.
  change (last_after (header_checksum h) (log_frames es)) with (log_running es).
  destruct hint; [|done]. cbv zeta. case_decide; done.
Qed.

Lemma frame_count_state path es :
  zlen es < 4294967296 → 32 + zlen es * (24 + ps) ≤ ISIZE_MAX →
  WalWriter_frame_count (writer_state path es) = zlen es.
Proof.
  pose proof (valid_page_size_bounds _ (who_page_size _ _ Hh)) as Hb. fold ps in Hb.
  intros Hl Hf. unfold WalWriter_frame_count. cbn [writer_state ww_header ww_offset].
  rewrite frame_size_eq by apply Hh. fold ps. rewrite Z.max_l by lia.
  unfold WAL_HEADER_LEN. rewrite sat_sub_ge by lia.
  replace (32 + zlen es * (24 + ps) - 32) with (zlen es * (24 + ps)) by lia.
  rewrite Z.div_mul by lia. apply wrap32_small. mlia.
Qed.
End logs.

(** ** Properties *)

(** The WAL header round trip, in either host byte order: a header made
    by [WalHeader::new] serialises to 32 bytes that parse back to it,
    whatever follows them, and every buffer of fewer than 32 bytes is
    refused. *)
Theorem wal_header_roundtrip (le native : bool) (ps s1 s2 seq : Z) (rest short : bytes)
    (Hps : valid_page_size ps) (Hs1 : u32_ok s1) (Hs2 : u32_ok s2) (Hseq : u32_ok seq) :
  let h := WalHeader_new le native ps s1 s2 seq in
  length (WalHeader_serialize h) = 32%nat ∧
  WalHeader_parse le (WalHeader_serialize h ++ rest) = Ok h ∧
  (zlen short < 32 → WalHeader_parse le short = Err (WalHeaderTooShort (zlen short))).
Proof.
  split_and!; [done|by apply WalHeader_parse_serialize, WalHeader_new_ok|].
  intros Hl. unfold WalHeader_parse, WAL_HEADER_LEN. by rewrite decide_True.
Qed.

(** C19: The optimised scan equals its specification on every input.  On any
    bytes, [committed_pages], which keeps one map and an undo log, returns
    what publishing a candidate map at each commit frame returns; and
    [last_valid_frame_state] stops after exactly the same valid frames, with
    the running checksum of the last.  Both loops terminate: more fuel than
    the log has bytes changes nothing. *)
Theorem wal_scan_equiv (le : bool) (h : WalHeader) (wal : bytes) (fuel : nat)
    (Hps : valid_page_size (wh_page_size h)) (Hlen : zlen wal ≤ ISIZE_MAX) :
  let frames := valid_frames le h wal in
  committed_pages le h wal = publish ∅ ∅ 0 frames ∧
  last_valid_frame_state le h wal =
    (32 + zlen frames * (24 + wh_page_size h), last_after (header_checksum h) frames) ∧
  ((length wal < fuel)%nat →
     scan_frames le fuel h wal WAL_HEADER_LEN (header_checksum h) = frames).
Proof.
  intros frames. split; [apply committed_pages_eq|]. split.
  - unfold last_valid_frame_state. rewrite last_valid_frame_loop_eq by done.
    cbv zeta. by rewrite frame_size_eq by done.
  - intros Hf. unfold frames, valid_frames. apply scan_frames_fuel; unfold WAL_HEADER_LEN; done || lia.
Qed.

Definition wal_example_header : WalHeader := WalHeader_new true true 512 11 12 1.

Lemma wal_scan_equiv_witness :
  committed_pages true wal_example_header
    (wal_image true wal_example_header [(1, zeros 512, 0); (2, zeros 512, 2)])
  = publish ∅ ∅ 0 (valid_frames true wal_example_header
    (wal_image true wal_example_header [(1, zeros 512, 0); (2, zeros 512, 2)])).
Proof.
  apply (wal_scan_equiv true wal_example_header _ 0).
  - apply (bool_decide_unpack _). vm_compute. exact I.
  - vm_compute. congruence.
Defined.

(** What the WAL writer appends is what the reader and the next writer
    see.  Appending frames to the writer of a log and syncing succeeds,
    leaves the whole log durable with the new frames at its end, and makes
    [frame_count] the number of frames; reopening the file, with the cached
    resume hint or by rescanning it, returns the very same writer; and the
    committed pages are those of the frame list. *)
Theorem wal_writer_roundtrip (le : bool) (h : WalHeader) (d : fs) (path : string) (f : file)
    (es0 es1 : list entry) (hint : bool)
    (Hh : WalHeader_ok le h)
    (Hd : d !! path = Some f) (Hc : contents f = wal_image le h es0)
    (H0 : Forall (entry_ok (wh_page_size h)) es0) (H1 : Forall (entry_ok (wh_page_size h)) es1)
    (Hfit : 32 + zlen (es0 ++ es1) * (24 + wh_page_size h) ≤ ISIZE_MAX)
    (Hcnt : zlen (es0 ++ es1) < 4294967296) :
  ∃ ops w, WalWriter_sync (append_all le (writer_state le h path es0) es1) = (ops, Ok w) ∧
    let d' := exec_ios d ops in
    d' !! path = Some (File (wal_image le h (es0 ++ es1)) []) ∧
    (∀ p, p ≠ path → d' !! p = d !! p) ∧
    WalWriter_frame_count w = zlen (es0 ++ es1) ∧
    WalWriter_open_existing le d' path (wh_page_size h)
      (if hint then Some (WalWriter_resume_hint w) else None) = Ok w ∧
    committed_pages le h (wal_image le h (es0 ++ es1))
      = publish ∅ ∅ 0 (log_frames le h (es0 ++ es1)).
Proof.
  assert (H01 : Forall (entry_ok (wh_page_size h)) (es0 ++ es1)) by (by apply Forall_app).
  destruct (sync_exec le h Hh d path es0 es1 f) as (ops & Hs & He); [done..|].
  exists ops, (writer_state le h path (es0 ++ es1)). split; [done|]. cbv zeta. rewrite He.
  assert (Hl : zlen (wal_image le h (es0 ++ es1)) ≤ ISIZE_MAX) by (by rewrite wal_image_length).
  split_and!.
  - apply lookup_insert_eq.
  - intros p Hp. by apply lookup_insert_ne.
  - by apply frame_count_state.
  - apply open_existing_state; [done| |done|done]. by rewrite read_file_insert.
  - pose proof (committed_pages_image le h Hh (es0 ++ es1) [] H01) as Hcp.
    rewrite app_nil_r in Hcp. apply Hcp; [|done].
    pose proof (valid_page_size_bounds _ (who_page_size _ _ Hh)). cbn. lia.
Qed.

Lemma wal_example_header_ok : WalHeader_ok true wal_example_header.
Proof.
  apply WalHeader_new_ok; try (unfold u32_ok; lia).
  apply (bool_decide_unpack _). vm_compute. exact I.
Qed.

Lemma entry_ok_zeros p c : u32_ok p → u32_ok c → entry_ok 512 (p, zeros 512, c).
Proof. intros. split_and!; [done|reflexivity|done]. Qed.

(** WAL commits are atomic under a torn append.  Take a log that ends at
    a commit and append one transaction; cut the file at any byte past the
    old log.  Unless the whole transaction is there, the reader sees exactly
    the pages and size committed before it; when it is, exactly those pages
    with all of the transaction's pages written over them. *)
Theorem wal_commit_atomic (le : bool) (h : WalHeader) (es0 es1 : list entry) (n : nat)
    (Hh : WalHeader_ok le h)
    (H0 : Forall (entry_ok (wh_page_size h)) es0) (H1 : Forall (entry_ok (wh_page_size h)) es1)
    (Hc : committed_log es0) (Ht : txn es1)
    (Hn : (length (wal_image le h es0) ≤ n)%nat)
    (Hfit : zlen (wal_image le h (es0 ++ es1)) ≤ ISIZE_MAX) :
  let before := committed_pages le h (wal_image le h es0) in
  let after := committed_pages le h (take n (wal_image le h (es0 ++ es1))) in
  after = if decide (n < length (wal_image le h (es0 ++ es1)))%nat then before
          else (apply_entries before.1 es1, default 0 (snd <$> last es1)).
Proof.
  intros before after. pose proof (valid_page_size_bounds _ (who_page_size _ _ Hh)) as Hb.
  pose proof (wal_image_length le h (es0 ++ es1)) as Hl.
  pose proof (wal_image_length le h es0 H0) as Hl0.
  assert (Hbefore : before = publish ∅ ∅ 0 (log_frames le h es0)).
  { unfold before. pose proof (committed_pages_image le h Hh es0 [] H0) as Hcp.
    rewrite app_nil_r in Hcp. apply Hcp; [cbn; lia|].
    rewrite Hl0. rewrite Hl, length_app in Hfit by (by apply Forall_app). lia. }
  destruct (wal_image_cut le h Hh es0 es1 n H1 Hn) as (k & post & Hcut & Hpost & Hk).
  unfold after. case_decide as Hd.
  - rewrite Hcut. destruct Ht as (pre & e & -> & He & Hpre).
    rewrite length_app in Hk. cbn [length] in Hk. specialize (Hk Hd).
    rewrite take_app_le in Hcut |- * by lia.
    apply Forall_app in H1 as [H1 _].
    rewrite committed_pages_image; [|done| |done|].
    + rewrite Hbefore. unfold log_frames. rewrite entries_frames_app.
      apply publish_uncommitted, entries_frames_uncommitted. by apply Forall_take.
    + apply Forall_app. split; [done|by apply Forall_take].
    + rewrite <- Hcut, length_take. lia.
  - rewrite take_ge by lia. rewrite Hbefore.
    pose proof (committed_pages_image le h Hh (es0 ++ es1) []) as Hcp.
    rewrite app_nil_r in Hcp. rewrite Hcp; [|by apply Forall_app|cbn; lia|done].
    by apply publish_txn.
Qed.

(** C36: What [open_existing] does with a torn transaction.  If a crash left
    whole frames [torn] of an uncommitted transaction at the end of the log,
    readers do not see them; but the next writer resumes after them (it looks
    for the last valid frame, not the last committed one), so the next commit
    publishes [torn]'s pages together with its own. *)
Theorem wal_resume_publishes_torn (le : bool) (h : WalHeader) (d : fs) (path : string) (f : file)
    (es0 torn es1 : list entry)
    (Hh : WalHeader_ok le h)
    (Hd : d !! path = Some f) (Hc : contents f = wal_image le h (es0 ++ torn))
    (H0 : Forall (entry_ok (wh_page_size h)) es0)
    (Ht : Forall (entry_ok (wh_page_size h)) torn)
    (H1 : Forall (entry_ok (wh_page_size h)) es1)
    (Hlog : committed_log es0) (Htorn : Forall (λ e : entry, e.2 = 0) torn) (Htx : txn es1)
    (Hfit : 32 + zlen ((es0 ++ torn) ++ es1) * (24 + wh_page_size h) ≤ ISIZE_MAX) :
  let before := (committed_pages le h (wal_image le h es0)).1 in
  (committed_pages le h (contents f)).1 = before ∧
  ∃ w ops w' file', WalWriter_open_existing le d path (wh_page_size h) None = Ok w ∧
    WalWriter_sync (append_all le w es1) = (ops, Ok w') ∧
    read_file (exec_ios d ops) path = Some file' ∧
    (committed_pages le h file').1 = apply_entries (apply_entries before torn) es1.
Proof.
  intros before. pose proof (valid_page_size_bounds _ (who_page_size _ _ Hh)) as Hb.
  assert (H0t : Forall (entry_ok (wh_page_size h)) (es0 ++ torn)) by (by apply Forall_app).
  assert (Hall : Forall (entry_ok (wh_page_size h)) ((es0 ++ torn) ++ es1)) by (by apply Forall_app).
  assert (Himg : ∀ es, Forall (entry_ok (wh_page_size h)) es →
            (length es ≤ length ((es0 ++ torn) ++ es1))%nat →
            zlen (wal_image le h es) ≤ ISIZE_MAX ∧
            committed_pages le h (wal_image le h es) = publish ∅ ∅ 0 (log_frames le h es)).
  { intros es Hes Hle.
    assert (Hl : zlen (wal_image le h es) ≤ ISIZE_MAX) by (rewrite wal_image_length by done; nia).
    split; [done|]. pose proof (committed_pages_image le h Hh es [] Hes) as Hcp.
    rewrite app_nil_r in Hcp. apply Hcp; [cbn; lia|done]. }
  assert (Hbefore : before = apply_entries ∅ es0).
  { unfold before. rewrite (proj2 (Himg es0 H0 ltac:(rewrite !length_app; lia))).
    by apply publish_log. }
  split.
  { rewrite Hc, Hbefore. rewrite (proj2 (Himg _ H0t ltac:(rewrite !length_app; lia))).
    unfold log_frames. rewrite entries_frames_app.
    rewrite publish_uncommitted by (by apply entries_frames_uncommitted). by apply publish_log. }
  destruct (sync_exec le h Hh d path (es0 ++ torn) es1 f) as (ops & Hs & He); [done..|].
  do 4 eexists. split_and!.
  - apply (open_existing_state le h Hh d path (es0 ++ torn) false);
      [|done|apply (Himg _ H0t); rewrite !length_app; lia].
    unfold read_file. rewrite Hd. cbn. by rewrite Hc.
  - exact Hs.
  - rewrite He. apply read_file_insert.
  - cbn [contents durable pending apply_ops foldl].
    rewrite (proj2 (Himg _ Hall ltac:(lia))), Hbefore.
    destruct Htx as (pre & e & -> & Hce & _).
    rewrite publish_log by (right; exists ((es0 ++ torn) ++ pre), e; by rewrite <- !(assoc_L (++))).
    unfold apply_entries. by rewrite !foldl_app.
Qed.

Lemma wal_resume_publishes_torn_witness :
  let h := wal_example_header in
  let f := File (wal_image true h ([(1, zeros 512, 2)] ++ [(2, zeros 512, 0)])) [] in
  ∃ w ops w' file',
    WalWriter_open_existing true {["db-wal" := f]} "db-wal" 512 None = Ok w ∧
    WalWriter_sync (append_all true w [(1, zeros 512, 2)]) = (ops, Ok w') ∧
    read_file (exec_ios {["db-wal" := f]} ops) "db-wal" = Some file' ∧
    (committed_pages true h file').1 !! 2 = Some (zeros 512) ∧
    (committed_pages true h (contents f)).1 !! 2 = None.
Proof.
  intros h f.
  destruct (wal_resume_publishes_torn true h {["db-wal" := f]} "db-wal" f
              [(1, zeros 512, 2)] [(2, zeros 512, 0)] [(1, zeros 512, 2)])
    as (Hb & w & ops & w' & file' & Ho & Hs & Hr & Hc).
  - exact wal_example_header_ok.
  - apply lookup_singleton_eq.
  - reflexivity.
  - apply Forall_singleton, entry_ok_zeros; unfold u32_ok; lia.
  - apply Forall_singleton, entry_ok_zeros; unfold u32_ok; lia.
  - apply Forall_singleton, entry_ok_zeros; unfold u32_ok; lia.
  - right. exists [], (1, zeros 512, 2). split; [reflexivity|cbn; lia].
  - apply Forall_singleton. reflexivity.
  - exists [], (1, zeros 512, 2). split_and!; [reflexivity|cbn; lia|apply Forall_nil_2].
  - vm_compute. congruence.
  - exists w, ops, w', file'. split_and!; [exact Ho|exact Hs|exact Hr| |].
    + rewrite Hc. cbn [apply_entries foldl fst snd].
      rewrite lookup_insert_ne by lia. apply lookup_insert_eq.
    + rewrite Hb. vm_compute. reflexivity.
Defined.
