(* ===== verification/Freelist.v ===== *)
(** * Freelist trunk pages ([row/pager/freelist.rs])

    The on-disk form of one trunk page: the next trunk, a count and an array
    of free page numbers. *)

From S2P Require Import Prelude.

Inductive FreelistError : Type :=
| PageTooShort (offset len : Z).

#[global] Instance FreelistError_eq_dec : EqDecision FreelistError.
Proof. solve_decision. Defined.

Definition trunk_read_u32 (buf : bytes) (offset : Z) : result FreelistError Z :=
  ok_or (read_be 4 buf offset) (PageTooShort offset (zlen buf)).

(** [write_u32]: the buffer afterwards (unchanged on an error). *)
Definition trunk_write_u32 (buf : bytes) (offset value : Z) : bytes * result FreelistError () :=
  match put_range buf offset (be_bytes 4 value) with
  | Some buf' => (buf', Ok ())
  | None => (buf, Err (PageTooShort offset (zlen buf)))
  end.

Definition max_leaves_per_trunk (page_size : Z) : Z := sat_sub page_size 8 / 4.

Record TrunkPage : Type := { next_trunk : Z; leaves : list Z }.

#[global] Instance TrunkPage_eq_dec : EqDecision TrunkPage.
Proof. solve_decision. Defined.

Fixpoint parse_leaves (n : nat) (i : Z) (buf : bytes) : result FreelistError (list Z) :=
  match n with
  | O => Ok []
  | S n =>
      let? leaf := trunk_read_u32 buf (sat_add 8 (sat_mul i 4)) in
      let? rest := parse_leaves n (i + 1) buf in
      Ok (leaf :: rest)
  end.

Definition TrunkPage_parse (buf : bytes) : result FreelistError TrunkPage :=
  let? next_trunk := trunk_read_u32 buf 0 in
  let? claimed_count := trunk_read_u32 buf 4 in
  let max_fit := sat_sub (zlen buf) 8 / 4 in
  let leaf_count := Z.min claimed_count max_fit in
  let? leaves := parse_leaves (Z.to_nat leaf_count) 0 buf in
  Ok {| next_trunk := next_trunk; leaves := leaves |}.

(** Writing stops at the first field that does not fit, with the fields
    before it already in the buffer. *)
Fixpoint write_leaves (i : Z) (leaves : list Z) (buf : bytes) : bytes * result FreelistError () :=
  match leaves with
  | [] => (buf, Ok ())
  | leaf :: leaves =>
      match trunk_write_u32 buf (sat_add 8 (sat_mul i 4)) leaf with
      | (buf, Ok _) => write_leaves (i + 1) leaves buf
      | (buf, Err e) => (buf, Err e)
      end
  end.

Definition TrunkPage_write (t : TrunkPage) (buf : bytes) : bytes * result FreelistError () :=
  match trunk_write_u32 buf 0 (next_trunk t) with
  | (buf, Err e) => (buf, Err e)
  | (buf, Ok _) =>
      match trunk_write_u32 buf 4 (wrap32 (zlen (leaves t))) with
      | (buf, Err e) => (buf, Err e)
      | (buf, Ok _) =>
          match write_leaves 0 (leaves t) buf with
          | (buf, Err e) => (buf, Err e)
          | (buf, Ok _) =>
              let tail_start := sat_add 8 (sat_mul (zlen (leaves t)) 4) in
              (* [buf.get_mut(tail_start..)], then [fill(0)] *)
              if decide (tail_start ≤ zlen buf)
              then (take (Z.to_nat tail_start) buf ++ zeros (zlen buf - tail_start), Ok ())
              else (buf, Ok ())
          end
      end
  end.

(** ** Lemmas *)

(** The image of a trunk page of [ps] bytes. *)
Definition trunk_image (t : TrunkPage) (ps : Z) : bytes :=
  be_bytes 4 (next_trunk t) ++ be_bytes 4 (zlen (leaves t))
  ++ concat (map (be_bytes 4) (leaves t)) ++ zeros (ps - 8 - 4 * zlen (leaves t)).

Definition TrunkPage_ok (t : TrunkPage) : Prop :=
  u32_ok (next_trunk t) ∧ Forall u32_ok (leaves t).

Lemma leaves_bytes_length ls : zlen (concat (map (be_bytes 4) ls)) = 4 * zlen ls.
Proof.
  induction ls as [|l ls IH]; [done|]. cbn [map concat length].
  rewrite length_app, be_bytes_length. lia.
Qed.

Lemma trunk_image_length t ps :
  8 + 4 * zlen (leaves t) ≤ ps → zlen (trunk_image t ps) = ps.
Proof.
  intros Hfit. unfold trunk_image. rewrite !length_app, !be_bytes_length.
  pose proof (leaves_bytes_length (leaves t)).
  pose proof (length_zeros (ps - 8 - 4 * zlen (leaves t))). lia.
Qed.

Lemma put_range_app (p m s bs : bytes) off :
  off = zlen p → zlen m = zlen bs → put_range (p ++ m ++ s) off bs = Some (p ++ bs ++ s).
Proof.
  intros -> Hm. apply put_range_Some. rewrite !length_app. split_and!; [lia..|].
  rewrite Nat2Z.id, take_app_length. rewrite drop_app_ge by lia.
  replace (Z.to_nat (zlen p + zlen bs) - length p)%nat with (length m) by lia.
  by rewrite drop_app_length.
Qed.

Lemma put_range_app0 (m s bs : bytes) :
  zlen m = zlen bs → put_range (m ++ s) 0 bs = Some (bs ++ s).
Proof. intros. by apply (put_range_app []). Qed.

Lemma read_be_app0 n (s : bytes) v :
  Z.of_nat n ≤ USIZE_MAX → 0 ≤ v < 2 ^ (8 * Z.of_nat n) → read_be n (be_bytes n v ++ s) 0 = Some v.
Proof. intros. by apply (read_be_app n []). Qed.

Lemma split_at {A} (l : list A) n : (n ≤ length l)%nat →
  ∃ m s, l = m ++ s ∧ length m = n.
Proof.
  intros. exists (take n l), (drop n l). rewrite take_drop, length_take. split; [done|lia].
Qed.

Lemma trunk_off i : 0 ≤ i → 8 + i * 4 ≤ ISIZE_MAX → sat_add 8 (sat_mul i 4) = 8 + i * 4.
Proof. intros ? H%isize_usize. rewrite sat_mul_small by lia. apply sat_add_small. lia. Qed.

Lemma write_leaves_eq ls i p s :
  zlen p = 8 + i * 4 → 0 ≤ i → 4 * zlen ls ≤ zlen s → zlen p + zlen s ≤ ISIZE_MAX →
  ∃ s', write_leaves i ls (p ++ s) = (p ++ concat (map (be_bytes 4) ls) ++ s', Ok ()) ∧
        zlen s' = zlen s - 4 * zlen ls.
Proof.
  revert i p s. induction ls as [|l ls IH]; intros i p s Hp Hi Hs Hfit; cbn [write_leaves].
  { exists s. cbn. split; [done|lia]. }
  cbn [length] in Hs. rewrite trunk_off by lia.
  destruct (split_at s 4) as (m & s1 & -> & Hm); [lia|]. rewrite length_app in *.
  unfold trunk_write_u32. rewrite put_range_app by (rewrite ?be_bytes_length; lia).
  rewrite app_assoc. destruct (IH (i + 1) (p ++ be_bytes 4 l) s1) as (s' & Hw & Hl).
  - rewrite length_app, be_bytes_length. lia.
  - lia.
  - lia.
  - rewrite length_app, be_bytes_length. lia.
  - exists s'. rewrite Hw. cbn [map concat length]. rewrite <- !(assoc_L (++)). split; [done|lia].
Qed.

Lemma TrunkPage_write_eq t buf :
  8 + 4 * zlen (leaves t) ≤ zlen buf → zlen (leaves t) < 4294967296 → zlen buf ≤ ISIZE_MAX →
  TrunkPage_write t buf = (trunk_image t (zlen buf), Ok ()).
Proof.
  intros Hfit Hc Hl. unfold TrunkPage_write, trunk_write_u32, trunk_image.
  destruct (split_at buf 4) as (m0 & s0 & -> & H0); [lia|].
  rewrite put_range_app0 by (rewrite be_bytes_length; lia).
  rewrite length_app in *.
  destruct (split_at s0 4) as (m1 & s1 & -> & H1); [lia|]. rewrite length_app in *. cbn [app].
  rewrite (put_range_app (be_bytes 4 (next_trunk t)) m1)
    by (rewrite ?be_bytes_length; lia).
  rewrite wrap32_small by mlia. rewrite app_assoc.
  destruct (write_leaves_eq (leaves t) 0
    (be_bytes 4 (next_trunk t) ++ be_bytes 4 (zlen (leaves t))) s1) as (s' & Hw & Hs').
  1-4: rewrite ?length_app, ?be_bytes_length; lia.
  rewrite Hw. rewrite trunk_off by lia.
  rewrite decide_True by (rewrite !length_app, !be_bytes_length;
    pose proof (leaves_bytes_length (leaves t)); lia).
  assert (Hpl : Z.to_nat (8 + zlen (leaves t) * 4) =
    length ((be_bytes 4 (next_trunk t) ++ be_bytes 4 (zlen (leaves t)))
            ++ concat (map (be_bytes 4) (leaves t)))).
  { rewrite !length_app, !be_bytes_length. pose proof (leaves_bytes_length (leaves t)). lia. }
  rewrite (app_assoc _ (concat _) s'), Hpl, take_app_length.
  rewrite <- !(assoc_L (++)). do 5 f_equal.
  rewrite !length_app, !be_bytes_length. pose proof (leaves_bytes_length (leaves t)). lia.
Qed.

Lemma parse_leaves_eq ls p s i :
  zlen p = 8 + i * 4 → 0 ≤ i → Forall u32_ok ls →
  zlen p + 4 * zlen ls + zlen s ≤ ISIZE_MAX →
  parse_leaves (length ls) i (p ++ concat (map (be_bytes 4) ls) ++ s) = Ok ls.
Proof.
  intros Hp Hi Hls. revert p i Hp Hi.
  induction Hls as [|l ls Hl _ IH]; intros p i Hp Hi Hfit; [done|].
  cbn [length parse_leaves map concat] in *. unfold trunk_read_u32.
  rewrite trunk_off by lia. rewrite <- (assoc_L (++)).
  rewrite read_be_app; [|lia|apply isize_usize in Hfit; lia|mlia]. cbn [ok_or].
  rewrite app_assoc. rewrite IH; [done| |lia|].
  - rewrite length_app, be_bytes_length. lia.
  - rewrite length_app, be_bytes_length. lia.
Qed.

Lemma TrunkPage_parse_image t ps :
  TrunkPage_ok t → 8 + 4 * zlen (leaves t) ≤ ps → zlen (leaves t) < 4294967296 → ps ≤ ISIZE_MAX →
  TrunkPage_parse (trunk_image t ps) = Ok t.
Proof.
  intros [Hn Hls] Hfit Hc Hps. unfold TrunkPage_parse, trunk_read_u32.
  assert (Hlen : zlen (trunk_image t ps) = ps) by (apply trunk_image_length; lia).
  rewrite Hlen. unfold trunk_image.
  rewrite (read_be_app0 4) by (done || mlia). cbn [ok_or].
  rewrite (read_be_app 4 (be_bytes 4 (next_trunk t))) by (done || mlia). cbn [ok_or].
  rewrite sat_sub_ge by lia.
  assert (zlen (leaves t) ≤ (ps - 8) / 4) by (apply Z.div_le_lower_bound; lia).
  rewrite Z.min_l, Nat2Z.id by lia.
  rewrite (app_assoc (be_bytes 4 (next_trunk t))).
  rewrite parse_leaves_eq; [by destruct t|done|done|done|].
  rewrite length_app, !be_bytes_length.
  pose proof (length_zeros (ps - 8 - 4 * zlen (leaves t))). lia.
Qed.

Lemma parse_leaves_total n i buf :
  bytes_ok buf → 0 ≤ i → 8 + (i + Z.of_nat n) * 4 ≤ zlen buf → zlen buf ≤ ISIZE_MAX →
  ∃ ls, parse_leaves n i buf = Ok ls ∧ length ls = n ∧ Forall u32_ok ls.
Proof.
  intros Hok. revert i. induction n as [|n IH]; intros i Hi Hfit Hl; cbn [parse_leaves].
  { by exists []. }
  unfold trunk_read_u32. rewrite trunk_off by lia. pose proof (isize_usize _ Hl).
  destruct (read_be_is_Some 4 buf (8 + i * 4)) as [v Hv]; [lia..|]. rewrite Hv. cbn [ok_or].
  destruct (IH (i + 1)) as (ls & -> & Hlen & Hls); [lia..|]. exists (v :: ls).
  split_and!; [done|by cbn; rewrite Hlen|]. constructor; [|done].
  pose proof (read_be_bound 4 buf _ _ Hok Hv ltac:(lia)). mlia.
Qed.

Lemma max_leaves_fit ps n : 8 ≤ ps → n ≤ max_leaves_per_trunk ps ↔ 8 + 4 * n ≤ ps.
Proof.
  intros. unfold max_leaves_per_trunk. rewrite sat_sub_ge by lia. split; intros.
  - pose proof (Z.mul_div_le (ps - 8) 4). lia.
  - apply Z.div_le_lower_bound; lia.
Qed.

(** ** Properties *)

(** Trunk page round trip.  A trunk with no more leaves than
    [max_leaves_per_trunk] allows is written over any page, whatever it held,
    as exactly its image (header, leaf array, zeros), and parses back to
    itself. *)
Theorem trunk_roundtrip (t : TrunkPage) (buf : bytes)
    (Hlen : 512 ≤ zlen buf ≤ 65536) (Ht : TrunkPage_ok t)
    (Hfit : zlen (leaves t) ≤ max_leaves_per_trunk (zlen buf)) :
  TrunkPage_write t buf = (trunk_image t (zlen buf), Ok ()) ∧
  zlen (trunk_image t (zlen buf)) = zlen buf ∧
  TrunkPage_parse (trunk_image t (zlen buf)) = Ok t.
Proof.
  apply max_leaves_fit in Hfit; [|lia]. assert (zlen buf ≤ ISIZE_MAX) by mlia. split_and!.
  - apply TrunkPage_write_eq; [done|lia|done].
  - apply trunk_image_length. lia.
  - apply TrunkPage_parse_image; [done..|lia|done].
Qed.

(** Trunk pages parse defensively.  Any page of at least 8 bytes parses,
    whatever leaf count it claims: the count is cut to what the page can
    hold, and every entry is a 32-bit number read in order; a shorter page is
    an error naming the field that does not fit. *)
Theorem trunk_parse_total (buf : bytes) (Hok : bytes_ok buf) (Hlen : zlen buf ≤ ISIZE_MAX) :
  match TrunkPage_parse buf with
  | Ok t => 8 ≤ zlen buf ∧ TrunkPage_ok t ∧ 8 + 4 * zlen (leaves t) ≤ zlen buf ∧
            ∃ count, read_be 4 buf 4 = Some count ∧
                     zlen (leaves t) = Z.min count ((zlen buf - 8) / 4)
  | Err e => zlen buf < 8 ∧
             e = PageTooShort (if decide (zlen buf < 4) then 0 else 4) (zlen buf)
  end.
Proof.
  pose proof (isize_usize _ Hlen). unfold TrunkPage_parse, trunk_read_u32.
  destruct (read_be 4 buf 0) as [nt|] eqn:H0; cbn [ok_or].
  2: { destruct (decide (zlen buf < 4)) as [Hlt|Hge].
       - split; [lia|done].
       - destruct (read_be_is_Some 4 buf 0) as [v Hv]; [lia..|]. congruence. }
  pose proof H0 as (_ & Hl0 & _)%read_be_Some; [|mlia].
  destruct (read_be 4 buf 4) as [cnt|] eqn:H4; cbn [ok_or].
  2: { destruct (decide (8 ≤ zlen buf)).
       - destruct (read_be_is_Some 4 buf 4) as [v Hv]; [lia..|]. congruence.
       - rewrite decide_False by lia. split; [lia|done]. }
  pose proof H4 as (_ & Hl4 & _)%read_be_Some; [|mlia].
  pose proof (read_be_bound 4 buf 0 nt Hok H0 ltac:(mlia)) as Hb0.
  pose proof (read_be_bound 4 buf 4 cnt Hok H4 ltac:(mlia)) as Hb4.
  rewrite sat_sub_ge by lia.
  pose proof (Z.mul_div_le (zlen buf - 8) 4 ltac:(lia)) as Hd.
  assert (0 ≤ (zlen buf - 8) / 4) by (apply Z.div_pos; lia).
  destruct (parse_leaves_total (Z.to_nat (Z.min cnt ((zlen buf - 8) / 4))) 0 buf Hok)
    as (ls & -> & Hls & Hok'); [lia..|done|].
  cbn [leaves next_trunk]. split_and!; [lia|split; [cbn; mlia|done]|lia|].
  exists cnt. split; [done|lia].
Qed.
