(* ===== verification/PageCache.v ===== *)
(** * The page cache ([PageCache] of [row/pager/mod.rs])

    A bounded LRU: entries stamped with a tick, and a heap of
    (tick, page) eviction candidates that may be stale.  The refinement
    relates it to a plain recency list. *)

From S2P Require Import Prelude.

Definition DEFAULT_PAGE_CACHE_CAPACITY : Z := 2000.

Record PageCache : Type := {
  pc_capacity : Z;
  pc_entries : gmap Z (bytes * Z);
  pc_heap : list (Z * Z);
  pc_tick : Z;
}.

Definition PageCache_new (capacity : Z) : PageCache :=
  {| pc_capacity := capacity; pc_entries := ∅; pc_heap := []; pc_tick := 0 |}.

Definition next_tick (c : PageCache) : Z * PageCache :=
  let tick := wrap64 (pc_tick c + 1) in
  (tick, {| pc_capacity := pc_capacity c; pc_entries := pc_entries c;
            pc_heap := pc_heap c; pc_tick := tick |}).

(** [BinaryHeap::push] and [pop] on [Reverse((tick, page_num))]: the
    smallest pair, tick first, leaves the heap. *)
Definition pair_le (a b : Z * Z) : bool := (a.1 <? b.1) || ((a.1 =? b.1) && (a.2 <=? b.2)).

Fixpoint heap_pop (heap : list (Z * Z)) : option ((Z * Z) * list (Z * Z)) :=
  match heap with
  | [] => None
  | x :: heap =>
      match heap_pop heap with
      | None => Some (x, [])
      | Some (y, rest) => if pair_le x y then Some (x, heap) else Some (y, x :: rest)
      end
  end.

Definition compact_eviction_heap (c : PageCache) : PageCache :=
  {| pc_capacity := pc_capacity c; pc_entries := pc_entries c;
     pc_heap := map (λ e, (e.2.2, e.1)) (map_to_list (pc_entries c)); pc_tick := pc_tick c |}.

Definition PageCache_get (c : PageCache) (page_num : Z) : option bytes * PageCache :=
  let '(tick, c) := next_tick c in
  match pc_entries c !! page_num with
  | None => (None, c)
  | Some (page, _) =>
      let c := {| pc_capacity := pc_capacity c;
                  pc_entries := <[page_num := (page, tick)]> (pc_entries c);
                  pc_heap := (tick, page_num) :: pc_heap c; pc_tick := pc_tick c |} in
      let c := if decide (Z.max (sat_mul (pc_capacity c) 4) 16 < zlen (pc_heap c))
               then compact_eviction_heap c else c in
      (Some page, c)
  end.

(** [evict_one]: pops candidates until one is current; the heap's length
    bounds the pops. *)
Fixpoint evict_loop (fuel : nat) (c : PageCache) : option (Z * bytes) * PageCache :=
  match fuel with
  | O => (None, c)
  | S fuel =>
      match heap_pop (pc_heap c) with
      | None => (None, c)
      | Some ((candidate_tick, candidate_page), heap) =>
          let c := {| pc_capacity := pc_capacity c; pc_entries := pc_entries c;
                      pc_heap := heap; pc_tick := pc_tick c |} in
          match pc_entries c !! candidate_page with
          | Some (bs, current_tick) =>
              if decide (current_tick = candidate_tick) then
                (Some (candidate_page, bs),
                 {| pc_capacity := pc_capacity c;
                    pc_entries := delete candidate_page (pc_entries c);
                    pc_heap := heap; pc_tick := pc_tick c |})
              else evict_loop fuel c
          | None => evict_loop fuel c
          end
      end
  end.

Definition evict_one (c : PageCache) : option (Z * bytes) * PageCache :=
  evict_loop (S (length (pc_heap c))) c.

Definition PageCache_insert (c : PageCache) (page_num : Z) (bs : bytes) : PageCache :=
  let '(tick, c) := next_tick c in
  let c := {| pc_capacity := pc_capacity c;
              pc_entries := <[page_num := (bs, tick)]> (pc_entries c);
              pc_heap := (tick, page_num) :: pc_heap c; pc_tick := pc_tick c |} in
  if decide (pc_capacity c < Z.of_nat (size (pc_entries c))) then (evict_one c).2 else c.

Definition evict_one_if_full (c : PageCache) : option bytes * PageCache :=
  if decide (Z.of_nat (size (pc_entries c)) < pc_capacity c) then (None, c)
  else let '(victim, c) := evict_one c in (snd <$> victim, c).

Definition PageCache_invalidate (c : PageCache) (page_num : Z) : PageCache :=
  {| pc_capacity := pc_capacity c; pc_entries := delete page_num (pc_entries c);
     pc_heap := pc_heap c; pc_tick := pc_tick c |}.

(** ** Specification: a recency list, most recent first *)

Definition lru_remove (p : Z) (l : list (Z * bytes)) : list (Z * bytes) :=
  filter (λ x, x.1 ≠ p) l.

Fixpoint lru_lookup (p : Z) (l : list (Z * bytes)) : option bytes :=
  match l with
  | [] => None
  | (q, bs) :: l => if decide (q = p) then Some bs else lru_lookup p l
  end.

Definition lru_touch (p : Z) (bs : bytes) (l : list (Z * bytes)) : list (Z * bytes) :=
  (p, bs) :: lru_remove p l.

Definition lru_evict (l : list (Z * bytes)) : list (Z * bytes) := take (length l - 1) l.

(** ** Well-formed caches *)

Record wf (c : PageCache) : Prop := {
  wf_entry : ∀ p b t, pc_entries c !! p = Some (b, t) → t ≤ pc_tick c ∧ (t, p) ∈ pc_heap c;
  wf_heap : ∀ t p, (t, p) ∈ pc_heap c → t ≤ pc_tick c;
  wf_tick : 0 ≤ pc_tick c ≤ U64_MAX;
}.

(** The entries by falling tick, and their abstraction. *)
Definition ranked (c : PageCache) (l : list (Z * (bytes * Z))) : Prop :=
  l ≡ₚ map_to_list (pc_entries c) ∧ StronglySorted (λ x y, y.2.2 < x.2.2) l.

Definition abs (x : Z * (bytes * Z)) : Z * bytes := (x.1, x.2.1).

Definition refines (c : PageCache) (al : list (Z * bytes)) : Prop :=
  ∃ l, ranked c l ∧ al = map abs l.

(** ** Lemmas *)

Lemma pair_le_tick a b : pair_le a b = true → a.1 ≤ b.1.
Proof. unfold pair_le. rewrite orb_true_iff, andb_true_iff. lia. Qed.

Lemma pair_le_total a b : pair_le a b = false → pair_le b a = true.
Proof.
  unfold pair_le. rewrite orb_false_iff, orb_true_iff, andb_false_iff, andb_true_iff. lia.
Qed.

Lemma pair_le_trans a b c : pair_le a b = true → pair_le b c = true → pair_le a c = true.
Proof. unfold pair_le. rewrite !orb_true_iff, !andb_true_iff. lia. Qed.

Lemma heap_pop_None heap : heap_pop heap = None → heap = [].
Proof. destruct heap as [|x heap]; [done|]. cbn. by repeat case_match. Qed.

Lemma heap_pop_Some heap x rest :
  heap_pop heap = Some (x, rest) →
  heap ≡ₚ x :: rest ∧ ∀ y, y ∈ heap → x.1 ≤ y.1.
Proof.
  enough (H : heap_pop heap = Some (x, rest) →
              heap ≡ₚ x :: rest ∧ ∀ y, y ∈ rest → pair_le x y = true).
  { intros Hp. destruct (H Hp) as [Hperm Hmin]. split; [done|].
    intros y Hy. rewrite Hperm in Hy. apply elem_of_cons in Hy as [->|Hy]; [lia|].
    by apply pair_le_tick, Hmin. }
  revert x rest. induction heap as [|z heap IH]; intros x rest; cbn [heap_pop]; [done|].
  destruct (heap_pop heap) as [[y rest']|] eqn:Hp.
  - destruct (IH y rest' eq_refl) as [Hperm Hmin]. destruct (pair_le z y) eqn:Hle.
    + intros [= <- <-]. split; [done|]. intros w Hw. rewrite Hperm in Hw.
      apply elem_of_cons in Hw as [->|Hw]; [done|]. eapply pair_le_trans; [done|by apply Hmin].
    + intros [= <- <-]. split; [by rewrite Hperm; constructor|].
      intros w [->|Hw]%elem_of_cons; [by apply pair_le_total|by apply Hmin].
  - apply heap_pop_None in Hp as ->. intros [= <- <-]. split; [done|].
    intros y Hy. by apply elem_of_nil in Hy.
Qed.

(** What [evict_loop] does, with every entry's current tick in the heap. *)
Lemma evict_loop_spec fuel c :
  wf c → (length (pc_heap c) < fuel)%nat →
  match evict_loop fuel c with
  | (None, c') => pc_entries c = ∅ ∧ pc_entries c' = ∅ ∧ wf c' ∧
                  pc_capacity c' = pc_capacity c ∧ pc_tick c' = pc_tick c
  | (Some (p, b), c') =>
      ∃ t, pc_entries c !! p = Some (b, t) ∧
        (∀ q b' t', pc_entries c !! q = Some (b', t') → t ≤ t') ∧
        pc_entries c' = delete p (pc_entries c) ∧ wf c' ∧
        pc_capacity c' = pc_capacity c ∧ pc_tick c' = pc_tick c
  end.
Proof.
  revert c. induction fuel as [|fuel IH]; intros c Hwf Hf; [lia|]. cbn [evict_loop].
  destruct (heap_pop (pc_heap c)) as [[[ct cp] heap]|] eqn:Hp.
  2: { apply heap_pop_None in Hp.
       assert (He : pc_entries c = ∅).
       { apply map_empty. intros p. destruct (pc_entries c !! p) as [[b t]|] eqn:E; [|done].
         apply (wf_entry _ Hwf) in E as [_ E]. rewrite Hp in E. by apply elem_of_nil in E. }
       done. }
  apply heap_pop_Some in Hp as [Hperm Hmin]. cbn [fst] in Hmin.
  assert (Hsub : ∀ x, x ∈ heap → x ∈ pc_heap c)
    by (intros x Hx; rewrite Hperm; by apply list_elem_of_further).
  assert (Hstale : (∀ b t, pc_entries c !! cp = Some (b, t) → t ≠ ct) →
    wf {| pc_capacity := pc_capacity c; pc_entries := pc_entries c; pc_heap := heap;
          pc_tick := pc_tick c |}).
  { intros Hne. split; cbn; [|intros; by eapply wf_heap, Hsub|apply Hwf].
    intros p b t Hpb. destruct (wf_entry _ Hwf _ _ _ Hpb) as [Ht Hin]. split; [done|].
    rewrite Hperm in Hin. apply elem_of_cons in Hin as [[= -> ->]|Hin]; [|done].
    by destruct (Hne _ _ Hpb). }
  assert (Hlen : (length heap < fuel)%nat).
  { apply Permutation_length in Hperm. cbn in Hperm. lia. }
  cbn [pc_entries]. destruct (pc_entries c !! cp) as [[bs cur]|] eqn:Hcp.
  - case_decide as Hcur; [subst cur|].
    + exists ct. split_and!; [done| |done| |done|done].
      * intros q b' t' Hq. apply (wf_entry _ Hwf) in Hq as [_ Hq]. by apply Hmin in Hq.
      * split; cbn; [|intros; by eapply wf_heap, Hsub|apply Hwf].
        intros p b t [Hne Hpb]%lookup_delete_Some.
        destruct (wf_entry _ Hwf _ _ _ Hpb) as [Ht Hin]. split; [done|].
        rewrite Hperm in Hin. by apply elem_of_cons in Hin as [[= -> ->]|Hin].
    + apply (IH _ (Hstale ltac:(naive_solver)) Hlen).
  - apply (IH _ (Hstale ltac:(naive_solver)) Hlen).
Qed.

Lemma filter_all {A} (P : A → Prop) `{!∀ x, Decision (P x)} (l : list A) :
  (∀ x, x ∈ l → P x) → filter P l = l.
Proof.
  induction l as [|x l IH]; intros HP; [done|]. rewrite filter_cons.
  rewrite decide_True by (apply HP, list_elem_of_here). f_equal.
  apply IH. intros y Hy. apply HP. by apply list_elem_of_further.
Qed.

(** *** Rankings *)

Lemma abs_remove p l :
  map abs (filter (λ x : Z * (bytes * Z), x.1 ≠ p) l) = lru_remove p (map abs l).
Proof.
  induction l as [|[q [b t]] l IH]; [done|]. unfold lru_remove in *. cbn [map].
  rewrite !filter_cons. cbn [abs fst].
  destruct (decide (q ≠ p)); cbn [map]; [by rewrite IH|exact IH].
Qed.

Lemma ranked_elem c l p b t :
  ranked c l → (p, (b, t)) ∈ l ↔ pc_entries c !! p = Some (b, t).
Proof. intros [Hp _]. rewrite Hp. apply elem_of_map_to_list. Qed.

Lemma ranked_NoDup c l : ranked c l → NoDup (map fst l).
Proof.
  intros [Hp _]. change (map fst l) with (fst <$> l). rewrite Hp. apply NoDup_fst_map_to_list.
Qed.

Lemma ranked_lookup c l p :
  ranked c l → lru_lookup p (map abs l) = fst <$> pc_entries c !! p.
Proof.
  intros Hr. pose proof (ranked_NoDup _ _ Hr) as Hnd.
  assert (He : ∀ q b t, (q, (b, t)) ∈ l ↔ pc_entries c !! q = Some (b, t))
    by (intros; by apply ranked_elem).
  assert (Hin : ∀ b t, (p, (b, t)) ∈ l → lru_lookup p (map abs l) = Some b).
  { clear -Hnd. induction l as [|[q [b' t']] l IH]; intros b t.
    - by intros ?%elem_of_nil.
    - cbn in Hnd |- *. apply NoDup_cons in Hnd as [Hq Hnd]. intros [Heq|Hin]%elem_of_cons.
      + injection Heq as -> -> ->. by rewrite decide_True.
      + rewrite decide_False; [by eapply IH|]. intros ->. apply Hq.
        apply list_elem_of_fmap. by eexists (_, _). }
  destruct (pc_entries c !! p) as [[b t]|] eqn:E.
  - apply He in E. by rewrite (Hin _ _ E).
  - destruct (lru_lookup p (map abs l)) as [b|] eqn:Hl; [|done]. exfalso.
    clear -Hl He E. assert (∃ b t, (p, (b, t)) ∈ l) as (b' & t' & Hp).
    { clear He. induction l as [|[q [b' t']] l IH]; [done|]. cbn in Hl. case_decide.
      - subst. do 2 eexists. apply list_elem_of_here.
      - destruct (IH Hl) as (? & ? & ?). do 2 eexists. by apply list_elem_of_further. }
    apply He in Hp. congruence.
Qed.

Lemma ranked_filter c l p :
  ranked c l →
  filter (λ x : Z * (bytes * Z), x.1 ≠ p) l ≡ₚ map_to_list (delete p (pc_entries c)) ∧
  StronglySorted (λ x y : Z * (bytes * Z), y.2.2 < x.2.2)
    (filter (λ x : Z * (bytes * Z), x.1 ≠ p) l).
Proof.
  intros Hr. pose proof Hr as [Hp Hs]. split.
  - apply NoDup_Permutation.
    + apply NoDup_filter. rewrite Hp. apply NoDup_map_to_list.
    + apply NoDup_map_to_list.
    + intros [q [b t]]. rewrite list_elem_of_filter, elem_of_map_to_list, lookup_delete_Some.
      rewrite (ranked_elem c l) by done. cbn. naive_solver.
  - clear -Hs. induction Hs as [|x l Hs IH Hall]; [constructor|].
    rewrite filter_cons. case_decide; [|done]. constructor; [done|].
    apply Forall_forall. intros y [_ Hy]%list_elem_of_filter.
    by eapply Forall_forall in Hall.
Qed.

Lemma ranked_delete c c' l p :
  ranked c l → pc_entries c' = delete p (pc_entries c) →
  ranked c' (filter (λ x : Z * (bytes * Z), x.1 ≠ p) l).
Proof. intros Hr He. unfold ranked. rewrite He. by apply ranked_filter. Qed.

Lemma ranked_touch c c' l p b t :
  ranked c l → pc_entries c' = <[p := (b, t)]> (pc_entries c) →
  (∀ q b' t', pc_entries c !! q = Some (b', t') → t' < t) →
  ranked c' ((p, (b, t)) :: filter (λ x : Z * (bytes * Z), x.1 ≠ p) l).
Proof.
  intros Hr He Hmax. destruct (ranked_filter c l p Hr) as [Hperm Hs]. split.
  - rewrite He, <- insert_delete_eq, map_to_list_insert by apply lookup_delete_eq.
    by rewrite Hperm.
  - constructor; [done|]. apply Forall_forall.
    intros [q [b' t']] [_ Hq]%list_elem_of_filter. cbn.
    apply (ranked_elem c l) in Hq; [|done]. by eapply Hmax.
Qed.

(** The entry with the least tick is the last of the ranking. *)
Lemma ranked_min c l p b t :
  ranked c l → pc_entries c !! p = Some (b, t) →
  (∀ q b' t', pc_entries c !! q = Some (b', t') → t ≤ t') →
  filter (λ x : Z * (bytes * Z), x.1 ≠ p) l = take (length l - 1) l ∧ last l = Some (p, (b, t)).
Proof.
  intros Hr Hp Hmin. pose proof (ranked_NoDup _ _ Hr) as Hnd.
  apply (ranked_elem c l) in Hp; [|done].
  destruct l as [|x l _] using rev_ind; [by apply elem_of_nil in Hp|].
  destruct x as [q [b' t']].
  assert (Hq : pc_entries c !! q = Some (b', t')).
  { apply (ranked_elem _ _ _ _ _ Hr). apply elem_of_app. right. by apply list_elem_of_singleton. }
  specialize (Hmin _ _ _ Hq). destruct Hr as [_ Hs].
  apply StronglySorted_app in Hs as (Hlt & _ & _).
  rewrite map_app in Hnd. apply NoDup_app in Hnd as (_ & Hdisj & _).
  apply elem_of_app in Hp as [Hp|Hp%list_elem_of_singleton].
  - specialize (Hlt _ (q, (b', t')) Hp ltac:(by apply list_elem_of_singleton)). cbn in Hlt. lia.
  - injection Hp as -> -> ->. rewrite length_app, last_snoc. split; [|done].
    cbn [length]. replace (length l + 1 - 1)%nat with (length l) by lia.
    rewrite take_app_length, filter_app.
    assert (filter (λ x : Z * (bytes * Z), x.1 ≠ q) [(q, (b', t'))] = []) as ->.
    { rewrite filter_cons. cbn. rewrite decide_False by tauto. done. }
    rewrite app_nil_r. apply filter_all. intros [q' [b t]] Hin Heq.
    cbn in Heq. subst q'. apply (Hdisj q).
    + apply list_elem_of_fmap. by eexists (_, _).
    + by apply list_elem_of_singleton.
Qed.

(** *** The operations against the recency list *)

Lemma next_tick_eq c :
  wf c → pc_tick c < U64_MAX → wrap64 (pc_tick c + 1) = pc_tick c + 1.
Proof. intros Hwf Ht. apply wrap64_small. pose proof (wf_tick _ Hwf). mlia. Qed.

Lemma refines_length c al : refines c al → zlen al = Z.of_nat (size (pc_entries c)).
Proof.
  intros (l & [Hp _] & ->). rewrite length_map, (Permutation_length Hp).
  by rewrite length_map_to_list.
Qed.

(** Stamping a page with a fresh tick keeps the cache well formed. *)
Lemma stamp_wf c p b heap :
  wf c → pc_tick c < U64_MAX →
  (∀ x, x ∈ pc_heap c → x ∈ heap) → (pc_tick c + 1, p) ∈ heap →
  (∀ t q, (t, q) ∈ heap → t ≤ pc_tick c + 1) →
  wf {| pc_capacity := pc_capacity c; pc_entries := <[p := (b, pc_tick c + 1)]> (pc_entries c);
        pc_heap := heap; pc_tick := pc_tick c + 1 |}.
Proof.
  intros Hwf Ht Hsub Hin Hle. pose proof (wf_tick _ Hwf). split; cbn; [|done|mlia].
  intros q b' t [[<- [= <- <-]]|[Hne Hq]]%lookup_insert_Some; [split; [lia|done]|].
  apply (wf_entry _ Hwf) in Hq as [Hq1 Hq2]. split; [lia|auto].
Qed.

Lemma compact_wf c : wf c → wf (compact_eviction_heap c).
Proof.
  intros Hwf. split; cbn; [| |apply Hwf].
  - intros p b t Hp. split; [by apply (wf_entry _ Hwf) in Hp as [? _]|].
    apply list_elem_of_fmap. exists (p, (b, t)). by rewrite elem_of_map_to_list.
  - intros t p ([q [b t']] & [= -> ->] & Hq%elem_of_map_to_list)%list_elem_of_fmap.
    by apply (wf_entry _ Hwf) in Hq as [? _].
Qed.

Lemma ranked_entries c c' l : pc_entries c' = pc_entries c → ranked c l → ranked c' l.
Proof. unfold ranked. by intros ->. Qed.

Lemma PageCache_get_spec c p al :
  wf c → pc_tick c < U64_MAX → refines c al →
  let '(r, c') := PageCache_get c p in
  r = lru_lookup p al ∧
  refines c' (match r with Some b => lru_touch p b al | None => al end) ∧ wf c' ∧
  pc_capacity c' = pc_capacity c ∧ pc_tick c' = pc_tick c + 1 ∧
  (is_Some r → Z.of_nat (size (pc_entries c)) ≤ pc_capacity c →
   zlen (pc_heap c') ≤ Z.max (sat_mul (pc_capacity c) 4) 16 ∨
   zlen (pc_heap c') = Z.of_nat (size (pc_entries c'))).
Proof.
  intros Hwf Ht (l & Hr & ->). unfold PageCache_get, next_tick. cbn [pc_entries].
  rewrite (next_tick_eq c Hwf Ht). rewrite (ranked_lookup c l p Hr).
  assert (Hwf' : wf {| pc_capacity := pc_capacity c; pc_entries := pc_entries c;
                       pc_heap := pc_heap c; pc_tick := pc_tick c + 1 |}).
  { pose proof (wf_tick _ Hwf). split; cbn; [| |mlia].
    - intros q b t Hq. apply (wf_entry _ Hwf) in Hq as [? ?]. split; [lia|done].
    - intros t q Hq%(wf_heap _ Hwf). lia. }
  destruct (pc_entries c !! p) as [[b t]|] eqn:Hp; cbn [fmap option_fmap option_map fst].
  2: { split_and!; [done| |done|done|done|by intros []].
       exists l. split; [by apply (ranked_entries c)|done]. }
  cbn [pc_capacity pc_heap pc_tick].
  assert (Hws : wf {| pc_capacity := pc_capacity c;
      pc_entries := <[p := (b, pc_tick c + 1)]> (pc_entries c);
      pc_heap := (pc_tick c + 1, p) :: pc_heap c; pc_tick := pc_tick c + 1 |}).
  { apply stamp_wf; [done|done|intros; by apply list_elem_of_further|apply list_elem_of_here|].
    intros t' q [[= -> ->]|Hq%(wf_heap _ Hwf)]%elem_of_cons; lia. }
  assert (Hrs : ranked {| pc_capacity := pc_capacity c;
      pc_entries := <[p := (b, pc_tick c + 1)]> (pc_entries c);
      pc_heap := (pc_tick c + 1, p) :: pc_heap c; pc_tick := pc_tick c + 1 |}
      ((p, (b, pc_tick c + 1)) :: filter (λ x : Z * (bytes * Z), x.1 ≠ p) l)).
  { eapply ranked_touch; [exact Hr|done|]. intros q b' t' Hq%(wf_entry _ Hwf). lia. }
  case_decide as Hd.
  - split_and!; [done| |by apply compact_wf|done|done|].
    + eexists. split; [eapply ranked_entries, Hrs; done|].
      unfold lru_touch. cbn [map]. by rewrite abs_remove.
    + intros _ _. right. cbn. by rewrite length_map, length_map_to_list.
  - split_and!; [done| |done|done|done|].
    + eexists. split; [exact Hrs|]. unfold lru_touch.
      cbn [map]. by rewrite abs_remove.
    + intros _ _. left. cbn [pc_heap] in *. lia.
Qed.

Lemma evict_one_spec c al :
  wf c → refines c al →
  let '(r, c') := evict_one c in
  r = last al ∧ refines c' (lru_evict al) ∧ wf c' ∧
  pc_capacity c' = pc_capacity c ∧ pc_tick c' = pc_tick c.
Proof.
  intros Hwf (l & Hr & ->). pose proof (evict_loop_spec (S (length (pc_heap c))) c Hwf) as H.
  specialize (H ltac:(lia)). unfold evict_one.
  destruct (evict_loop _ c) as [[[p b]|] c'].
  - destruct H as (t & Hp & Hmin & He & Hw & Hc & Ht).
    destruct (ranked_min c l p b t Hr Hp Hmin) as [Hf Hl].
    split_and!; [|eexists; split; [by apply (ranked_delete c c' l p)|]|done..].
    + change (Some (p, b) = last (abs <$> l)). by rewrite fmap_last, Hl.
    + unfold lru_evict. rewrite length_map, Hf. apply firstn_map.
  - destruct H as (He & He' & Hw & Hc & Ht). destruct Hr as [Hp _].
    rewrite He, map_to_list_empty in Hp. apply Permutation_nil_r in Hp as ->.
    split_and!; [done| |done..]. exists []. split; [|done]. split; [|constructor].
    by rewrite He', map_to_list_empty.
Qed.

Lemma PageCache_insert_spec c p b al :
  wf c → pc_tick c < U64_MAX → refines c al →
  refines (PageCache_insert c p b)
    (if decide (pc_capacity c < zlen (lru_touch p b al)) then lru_evict (lru_touch p b al)
     else lru_touch p b al) ∧
  wf (PageCache_insert c p b) ∧
  pc_capacity (PageCache_insert c p b) = pc_capacity c ∧
  pc_tick (PageCache_insert c p b) = pc_tick c + 1.
Proof.
  intros Hwf Ht (l & Hr & ->). unfold PageCache_insert, next_tick.
  rewrite (next_tick_eq c Hwf Ht). cbn [pc_capacity pc_entries pc_heap pc_tick].
  set (c1 := {| pc_capacity := pc_capacity c;
                pc_entries := <[p := (b, pc_tick c + 1)]> (pc_entries c);
                pc_heap := (pc_tick c + 1, p) :: pc_heap c; pc_tick := pc_tick c + 1 |}).
  assert (Hwf1 : wf c1).
  { apply stamp_wf; [done|done|intros; by apply list_elem_of_further|apply list_elem_of_here|].
    intros t' q [[= -> ->]|Hq%(wf_heap _ Hwf)]%elem_of_cons; lia. }
  assert (Hr1 : refines c1 (lru_touch p b (map abs l))).
  { exists ((p, (b, pc_tick c + 1)) :: filter (λ x : Z * (bytes * Z), x.1 ≠ p) l). split.
    - eapply ranked_touch; [exact Hr|done|]. intros q b' t' Hq%(wf_entry _ Hwf). lia.
    - unfold lru_touch. cbn [map].
      by rewrite abs_remove. }
  rewrite (refines_length _ _ Hr1).
  change (<[p:=(b, pc_tick c + 1)]> (pc_entries c)) with (pc_entries c1).
  case_decide; [|done].
  pose proof (evict_one_spec c1 _ Hwf1 Hr1) as Hev. destruct (evict_one c1) as [r c2].
  destruct Hev as (_ & ? & ? & ? & ?). done.
Qed.

Lemma PageCache_invalidate_spec c p al :
  wf c → refines c al →
  refines (PageCache_invalidate c p) (lru_remove p al) ∧ wf (PageCache_invalidate c p).
Proof.
  intros Hwf (l & Hr & ->). split.
  - eexists. split; [by apply (ranked_delete c _ l p)|].
    by rewrite abs_remove.
  - split; cbn; [|apply Hwf|apply Hwf].
    intros q b t [_ Hq]%lookup_delete_Some. by apply (wf_entry _ Hwf) in Hq.
Qed.

(** *** What is cached

    These need no well-formedness: eviction only removes. *)

Definition cached (c : PageCache) (p : Z) : option bytes := fst <$> pc_entries c !! p.

Lemma evict_loop_cached fuel c q :
  cached (evict_loop fuel c).2 q = cached c q ∨ cached (evict_loop fuel c).2 q = None.
Proof.
  revert c. induction fuel as [|fuel IH]; intros c; cbn [evict_loop]; [by left|].
  destruct (heap_pop (pc_heap c)) as [[[ct cp] heap]|]; [|by left]. cbn [pc_entries].
  destruct (pc_entries c !! cp) as [[bs cur]|].
  - case_decide; [|apply (IH {| pc_entries := pc_entries c |})].
    unfold cached. cbn. destruct (decide (cp = q)) as [->|Hne].
    + right. by rewrite lookup_delete_eq.
    + left. by rewrite lookup_delete_ne.
  - apply (IH {| pc_entries := pc_entries c |}).
Qed.

Lemma cached_get c p q : cached (PageCache_get c p).2 q = cached c q.
Proof.
  unfold PageCache_get, next_tick, cached. cbn [pc_entries].
  destruct (pc_entries c !! p) as [[b t]|] eqn:Hp; [|done].
  assert (Hq : fst <$> <[p := (b, wrap64 (pc_tick c + 1))]> (pc_entries c) !! q
               = fst <$> pc_entries c !! q).
  { destruct (decide (p = q)) as [<-|Hne].
    - by rewrite lookup_insert_eq, Hp.
    - by rewrite lookup_insert_ne. }
  by case_decide.
Qed.

Lemma get_cached c p : (PageCache_get c p).1 = cached c p.
Proof.
  unfold PageCache_get, next_tick, cached. cbn [pc_entries].
  by destruct (pc_entries c !! p) as [[b t]|].
Qed.

Lemma cached_insert c p b q x :
  cached (PageCache_insert c p b) q = Some x → (q = p ∧ x = b) ∨ (q ≠ p ∧ cached c q = Some x).
Proof.
  unfold PageCache_insert, next_tick. cbn [pc_capacity pc_entries pc_heap pc_tick].
  set (c1 := {| pc_entries := <[p := (b, wrap64 (pc_tick c + 1))]> (pc_entries c) |}).
  assert (H1 : cached c1 q = Some x → (q = p ∧ x = b) ∨ (q ≠ p ∧ cached c q = Some x)).
  { unfold cached, c1. cbn. destruct (decide (p = q)) as [<-|Hne].
    - rewrite lookup_insert_eq. cbn. intros [= <-]. by left.
    - rewrite lookup_insert_ne by done. by right. }
  case_decide; [|done]. unfold evict_one.
  destruct (evict_loop_cached (S (length (pc_heap c1))) c1 q) as [->| ->]; [done|done].
Qed.

Lemma cached_evict_if_full c q :
  cached (evict_one_if_full c).2 q = cached c q ∨ cached (evict_one_if_full c).2 q = None.
Proof.
  unfold evict_one_if_full. case_decide; [by left|].
  pose proof (evict_loop_cached (S (length (pc_heap c))) c q) as H1. unfold evict_one.
  by destruct (evict_loop (S (length (pc_heap c))) c).
Qed.

Lemma cached_invalidate c p q :
  cached (PageCache_invalidate c p) q = if decide (q = p) then None else cached c q.
Proof.
  unfold cached, PageCache_invalidate. cbn. case_decide as Hq.
  - subst. by rewrite lookup_delete_eq.
  - by rewrite lookup_delete_ne by congruence.
Qed.

(** ** Reachable caches *)

Inductive cache_step : PageCache → PageCache → Prop :=
| step_get c p : cache_step c (PageCache_get c p).2
| step_insert c p b : cache_step c (PageCache_insert c p b)
| step_evict_if_full c : cache_step c (evict_one_if_full c).2
| step_invalidate c p : cache_step c (PageCache_invalidate c p).

(** [n] operations after [PageCache::new]. *)
Inductive reachable (capacity : Z) : Z → PageCache → Prop :=
| reach_new : reachable capacity 0 (PageCache_new capacity)
| reach_step n c c' :
    reachable capacity n c → cache_step c c' → reachable capacity (n + 1) c'.

Definition cache_inv (capacity n : Z) (c : PageCache) : Prop :=
  wf c ∧ (∃ al, refines c al) ∧ pc_capacity c = capacity ∧ 0 ≤ pc_tick c ≤ n ∧
  Z.of_nat (size (pc_entries c)) ≤ capacity.

Lemma lru_remove_length p al : zlen (lru_remove p al) ≤ zlen al.
Proof. unfold lru_remove. pose proof (length_filter (λ x : Z * bytes, x.1 ≠ p) al). lia. Qed.

Lemma lru_lookup_remove p al b :
  lru_lookup p al = Some b → (length (lru_remove p al) < length al)%nat.
Proof.
  induction al as [|[q b'] al IH]; [done|]. cbn [lru_lookup]. unfold lru_remove in *.
  rewrite filter_cons. cbn [fst]. intros Hl.
  pose proof (length_filter (λ x : Z * bytes, x.1 ≠ p) al).
  destruct (decide (q = p)).
  - rewrite decide_False by tauto. cbn. lia.
  - rewrite decide_True by done. specialize (IH Hl). cbn. lia.
Qed.

Lemma cache_step_inv capacity n c c' :
  0 ≤ capacity → n < U64_MAX → cache_inv capacity n c → cache_step c c' →
  cache_inv capacity (n + 1) c'.
Proof.
  intros Hcap Hn (Hwf & (al & Hr) & Hc & Ht & Hsz) Hstep.
  pose proof (refines_length _ _ Hr) as Hl.
  destruct Hstep as [c p|c p b|c|c p].
  - pose proof (PageCache_get_spec c p al Hwf ltac:(lia) Hr) as H.
    pose proof (cached_get c p) as Hcg.
    destruct (PageCache_get c p) as [r c']. destruct H as (-> & Hr' & Hwf' & Hc' & Ht' & _).
    cbn [snd]. unfold cache_inv. split_and!; try lia; [done|by eexists|].
    rewrite <- (refines_length _ _ Hr'). destruct (lru_lookup p al) as [b|] eqn:E; [|lia].
    cbn [lru_touch length]. pose proof (lru_lookup_remove p al b E). lia.
  - destruct (PageCache_insert_spec c p b al Hwf ltac:(lia) Hr) as (Hr' & Hwf' & Hc' & Ht').
    unfold cache_inv. split_and!; try lia; [done|by eexists|]. rewrite <- (refines_length _ _ Hr').
    pose proof (lru_remove_length p al). unfold lru_evict, lru_touch in *.
    case_decide; [|cbn [length] in *; lia].
    rewrite length_take. cbn [length] in *. lia.
  - unfold evict_one_if_full. case_decide; [unfold cache_inv; cbn [snd]; split_and!; try lia; [done|by eexists]|].
    pose proof (evict_one_spec c al Hwf Hr) as H1. destruct (evict_one c) as [r c'].
    destruct H1 as (_ & Hr' & Hwf' & Hc' & Ht'). cbn [snd].
    unfold cache_inv. split_and!; try lia; [done|by eexists|]. rewrite <- (refines_length _ _ Hr').
    unfold lru_evict. rewrite length_take. lia.
  - destruct (PageCache_invalidate_spec c p al Hwf Hr) as [Hr' Hwf'].
    unfold cache_inv. cbn [PageCache_invalidate pc_capacity pc_tick]. split_and!; try lia; [done|by eexists|].
    rewrite <- (refines_length _ _ Hr'). pose proof (lru_remove_length p al). lia.
Qed.

Lemma reachable_inv capacity n c :
  0 ≤ capacity → n ≤ U64_MAX → reachable capacity n c → cache_inv capacity n c.
Proof.
  intros Hcap Hn Hr. induction Hr as [|n c c' Hr IH Hs].
  - unfold cache_inv. split_and!; try (cbn; lia).
    + split; cbn; [done|by intros ? ? ?%elem_of_nil|mlia].
    + exists [], []. split; [split; [done|constructor]|done].
    + done.
  - apply (cache_step_inv _ _ c); [done|lia| |done]. apply IH. lia.
Qed.

(** *** The heap *)

Lemma evict_loop_heap fuel c : zlen (pc_heap (evict_loop fuel c).2) ≤ zlen (pc_heap c).
Proof.
  revert c. induction fuel as [|fuel IH]; intros c; cbn [evict_loop]; [done|].
  destruct (heap_pop (pc_heap c)) as [[[t p] heap]|] eqn:Hp; [|done].
  apply heap_pop_Some in Hp as [Hperm _]. apply Permutation_length in Hperm. cbn [length] in Hperm.
  cbn [pc_entries]. destruct (pc_entries c !! p) as [[b t']|]; [case_decide|]; cbn [snd pc_heap]; [lia|..];
    (etransitivity; [apply IH|]; cbn [pc_heap]; lia).
Qed.

(** An operation adds at most one candidate. *)
Lemma cache_step_heap capacity n c c' :
  capacity ≤ 65536 → cache_inv capacity n c → cache_step c c' → zlen (pc_heap c') ≤ zlen (pc_heap c) + 1.
Proof.
  intros Hcap (_ & _ & Hc & _ & Hsz) Hstep. destruct Hstep as [c p|c p b|c|c p].
  - unfold PageCache_get. cbn [next_tick pc_entries]. destruct (pc_entries c !! p) as [[b t]|] eqn:E; [|cbn; lia].
    cbn [snd pc_capacity pc_heap]. case_decide as Hd; [|cbn; lia]. cbn [compact_eviction_heap pc_heap pc_entries].
    rewrite length_map, length_map_to_list, map_size_insert_Some by eauto.
    rewrite sat_mul_small in Hd by (rewrite Hc; mlia). cbn [length] in Hd. lia.
  - unfold PageCache_insert. cbn [next_tick pc_capacity pc_entries pc_heap]. case_decide; [|cbn; lia].
    etransitivity; [apply evict_loop_heap|]. cbn. lia.
  - unfold evict_one_if_full. case_decide; [cbn; lia|]. pose proof (evict_loop_heap (S (length (pc_heap c))) c) as Hh.
    unfold evict_one. destruct (evict_loop _ c) as [v c']. cbn in *. lia.
  - cbn. lia.
Qed.

Lemma reachable_heap capacity n c :
  0 ≤ capacity ≤ 65536 → n ≤ U64_MAX → reachable capacity n c → zlen (pc_heap c) ≤ n.
Proof.
  intros Hcap Hn Hr. induction Hr as [|n c c' Hr IH Hs]; [done|].
  pose proof (cache_step_heap capacity n c c' ltac:(lia) (reachable_inv capacity n c ltac:(lia) ltac:(lia) Hr) Hs). specialize (IH ltac:(lia)). lia.
Qed.

(** Pages that are inserted and invalidated without a hit between leave their
    candidates behind. *)
Lemma heap_grows capacity (k : nat) :
  1 ≤ capacity → ∃ c, reachable capacity (2 * Z.of_nat k) c ∧ pc_entries c = ∅ ∧ zlen (pc_heap c) = Z.of_nat k ∧ pc_capacity c = capacity.
Proof.
  intros Hcap. induction k as [|k (c & Hr & He & Hh & Hc)].
  { exists (PageCache_new capacity). split_and!; [constructor|done|done|done]. }
  exists (PageCache_invalidate (PageCache_insert c 1 []) 1). split.
  { replace (2 * Z.of_nat (S k)) with (2 * Z.of_nat k + 1 + 1) by lia.
    eapply reach_step; [|constructor]. eapply reach_step; [exact Hr|constructor]. }
  assert (Hi : PageCache_insert c 1 [] = {| pc_capacity := capacity; pc_entries := {[1 := ([], wrap64 (pc_tick c + 1))]};
            pc_heap := (wrap64 (pc_tick c + 1), 1) :: pc_heap c; pc_tick := wrap64 (pc_tick c + 1) |}).
  { unfold PageCache_insert. cbn [next_tick pc_capacity pc_entries pc_heap pc_tick]. rewrite He, insert_empty, Hc.
    rewrite decide_False; [done|]. rewrite map_size_singleton. lia. }
  rewrite Hi. cbn [PageCache_invalidate pc_entries pc_heap pc_capacity length]. split_and!; [apply delete_singleton_eq|lia|done].
Qed.

(** ** Properties *)

(** C24: The tick-and-heap cache implements an LRU recency list.  With a
    cache that refines a list (most recent first): [get] returns what the
    list holds and moves a hit to its front; [insert] puts the page at the
    front and, above capacity, drops the list's last element, the least
    recently used one; [evict_one_if_full] evicts and returns that last
    element when the cache is full; [invalidate] removes the page.  Every
    operation keeps the cache well formed. *)
Theorem page_cache_refines_lru (c : PageCache) (p : Z) (b : bytes) (al : list (Z * bytes))
    (Hwf : wf c) (Ht : pc_tick c < U64_MAX) (Hr : refines c al) :
  (let '(r, c') := PageCache_get c p in
   r = lru_lookup p al ∧ wf c' ∧
   refines c' (match r with Some x => lru_touch p x al | None => al end)) ∧
  (let c' := PageCache_insert c p b in
   let al' := lru_touch p b al in
   wf c' ∧ refines c' (if decide (pc_capacity c < zlen al') then lru_evict al' else al')) ∧
  (let '(r, c') := evict_one_if_full c in
   wf c' ∧ if decide (zlen al < pc_capacity c) then r = None ∧ refines c' al
           else r = (snd <$> last al) ∧ refines c' (lru_evict al)) ∧
  (let c' := PageCache_invalidate c p in wf c' ∧ refines c' (lru_remove p al)).
Proof.
  split; [|split; [|split]].
  - pose proof (PageCache_get_spec c p al Hwf Ht Hr) as H.
    destruct (PageCache_get c p) as [r c']. by destruct H as (? & ? & ? & _).
  - destruct (PageCache_insert_spec c p b al Hwf Ht Hr) as (H1 & H2 & _). split; [exact H2|exact H1].
  - unfold evict_one_if_full. rewrite (refines_length _ _ Hr).
    case_decide; [done|]. pose proof (evict_one_spec c al Hwf Hr) as H1.
    destruct (evict_one c) as [r c']. by destruct H1 as (-> & ? & ? & _).
  - destruct (PageCache_invalidate_spec c p al Hwf Hr) as [H1 H2]. split; [exact H2|exact H1].
Qed.

Lemma page_cache_refines_lru_witness :
  let c := PageCache_insert (PageCache_new 2) 1 [7] in
  wf (PageCache_invalidate c 1) ∧ refines (PageCache_invalidate c 1) [].
Proof.
  assert (H0 : cache_inv 2 1 (PageCache_insert (PageCache_new 2) 1 [7])).
  { apply (reachable_inv 2 1); [lia|mlia|].
    apply (reach_step 2 0 (PageCache_new 2)); constructor. }
  destruct H0 as (Hwf & _ & _ & _ & _).
  apply (page_cache_refines_lru (PageCache_insert (PageCache_new 2) 1 [7]) 1 [8] [(1, [7])]).
  - exact Hwf.
  - vm_compute. reflexivity.
  - exists [(1, ([7], 1))]. split; [|reflexivity]. split; [|repeat constructor].
    vm_compute. reflexivity.
Defined.

(** C25: Cache bounds, by induction on the sequence of operations.  After any
    sequence of [n] operations on a new cache (fewer than 2^64), the cache is
    well formed, holds at most [capacity] pages, and its heap of eviction
    candidates at most [n] entries.  The heap is cut back by hits only: right
    after a hit it has at most [max (4 * capacity) 16] entries, but as many
    insertions and invalidations of one page as one likes leave as many
    candidates in the heap of an empty cache. *)
Theorem page_cache_bounded (capacity n : Z) (c : PageCache) (p : Z)
    (Hcap : 1 ≤ capacity ≤ 65536) (Hn : n < U64_MAX) (Hr : reachable capacity n c) :
  wf c ∧ Z.of_nat (size (pc_entries c)) ≤ capacity ∧ zlen (pc_heap c) ≤ n ∧
  (let '(r, c') := PageCache_get c p in
   is_Some r → zlen (pc_heap c') ≤ Z.max (capacity * 4) 16) ∧
  ∀ k : nat, ∃ c', reachable capacity (2 * Z.of_nat k) c' ∧ pc_entries c' = ∅ ∧ zlen (pc_heap c') = Z.of_nat k.
Proof.
  destruct (reachable_inv capacity n c) as (Hwf & (al & Hal) & Hc & Ht & Hsz); [lia..|done|].
  split; [done|]. split; [done|]. split; [apply (reachable_heap capacity); (done || lia)|]. split.
  2: { intros k. destruct (heap_grows capacity k) as (c' & ? & ? & ? & _); [lia|]. by exists c'. }
  pose proof (PageCache_get_spec c p al Hwf ltac:(lia) Hal) as H.
  assert (Hs : cache_inv capacity (n + 1) (PageCache_get c p).2).
  { apply (cache_step_inv capacity n c); [lia|done| |constructor].
    unfold cache_inv. split_and!; try lia; [done|by eexists]. }
  destruct (PageCache_get c p) as [r c']. destruct H as (_ & _ & _ & _ & _ & Hh).
  intros Hsome. destruct Hs as (_ & _ & _ & _ & Hsz'). cbn [snd] in Hsz'.
  rewrite Hc in Hh. rewrite sat_mul_small in Hh by mlia.
  destruct (Hh Hsome Hsz); lia.
Qed.

Lemma page_cache_bounded_witness :
  Z.of_nat (size (pc_entries (PageCache_insert (PageCache_new 1) 5 [7]))) ≤ 1.
Proof.
  apply (page_cache_bounded 1 1 _ 5).
  - lia.
  - mlia.
  - apply (reach_step 1 0 (PageCache_new 1)); constructor.
Defined.
