(* ===== verification/Lock.v ===== *)
(** * The journal-mode lock ladder ([row/vfs/lock.rs])

    SQLite's five levels over POSIX byte-range locks.  The kernel's
    [fcntl(F_SETLK)] and [fcntl(F_GETLK)] are parameters with their
    documented behaviour as laws; connections are identified by the process
    that owns them, as POSIX locks are.  [set_level] is the function of one
    connection; the system of several runs it one system call at a time. *)

From S2P Require Import Prelude Vfs.

Definition PENDING_BYTE : Z := 0x40000000.
Definition RESERVED_BYTE : Z := PENDING_BYTE + 1.
Definition SHARED_FIRST : Z := PENDING_BYTE + 2.
Definition SHARED_SIZE : Z := 510.

Inductive LockLevel : Type := Unlocked | Shared | Reserved | Pending | Exclusive.

#[global] Instance LockLevel_eq_dec : EqDecision LockLevel.
Proof. solve_decision. Defined.

(** The derived order of the enum. *)
Definition level_rank (l : LockLevel) : Z :=
  match l with Unlocked => 0 | Shared => 1 | Reserved => 2 | Pending => 3 | Exclusive => 4 end.
Definition level_lt (a b : LockLevel) : Prop := level_rank a < level_rank b.
Definition level_le (a b : LockLevel) : Prop := level_rank a ≤ level_rank b.

#[global] Instance level_lt_dec a b : Decision (level_lt a b).
Proof. unfold level_lt. apply _. Defined.
#[global] Instance level_le_dec a b : Decision (level_le a b).
Proof. unfold level_le. apply _. Defined.

Inductive lock_kind : Type := F_RDLCK | F_WRLCK.

#[global] Instance lock_kind_eq_dec : EqDecision lock_kind.
Proof. solve_decision. Defined.

(** What the pager needs of a lock ([FileLock] of [row/vfs/mod.rs]). *)
Class FileLock (L : Type) := {
  lock_set_level : L → LockLevel → result VfsError () * L;
  lock_check_reserved : L → result VfsError bool;
}.

(** The in-memory backend's [NoopLock]: nothing to coordinate with. *)
#[export] Instance NoopLock : FileLock () := {
  lock_set_level l _ := (Ok (), l);
  lock_check_reserved _ := Ok false;
}.

(** ** POSIX record locks

    [holds k p b] is the lock process [p] has on byte [b].  [F_SETLK]
    succeeds exactly when no other process has a conflicting lock in the
    range, and then changes the caller's locks on that range only; [F_GETLK]
    reports whether some other process has a lock conflicting with a write
    lock on the byte. *)

Class Fcntl (K : Type) := {
  holds : K → Z → Z → option lock_kind;
  setlk : K → Z → option lock_kind → Z → Z → option K;
  getlk : K → Z → Z → bool;
  setlk_ok k p kind start len :
    is_Some (setlk k p kind start len) ↔
    ∀ q b, q ≠ p → start ≤ b < start + len →
      match kind, holds k q b with
      | None, _ | _, None => True
      | Some F_RDLCK, Some F_RDLCK => True
      | _, _ => False
      end;
  setlk_holds k p kind start len k' q b :
    setlk k p kind start len = Some k' →
    holds k' q b = if decide (q = p ∧ start ≤ b < start + len) then kind else holds k q b;
  getlk_spec k p b : getlk k p b = true ↔ ∃ q, q ≠ p ∧ is_Some (holds k q b);
}.

(** ** The ladder *)

Section ladder.
Context `{Fcntl K}.

(** One process's [FileLockState]; the kernel's table is threaded. *)
Record FileLockState : Type := { fl_pid : Z; fl_level : LockLevel }.

Definition with_level (s : FileLockState) (l : LockLevel) : FileLockState :=
  {| fl_pid := fl_pid s; fl_level := l |}.

Definition fcntl_lock (k : K) (pid : Z) (kind : option lock_kind) (start len : Z) : result () K :=
  ok_or (setlk k pid kind start len) ().

(** One call of [fcntl_lock], and a sequence of them that stops at the first
    that fails ([?]). *)
Record call : Type := Call { c_kind : option lock_kind; c_start : Z; c_len : Z }.

Definition run_call (k : K) (pid : Z) (c : call) : result () K := fcntl_lock k pid (c_kind c) (c_start c) (c_len c).

Fixpoint run_calls (k : K) (pid : Z) (cs : list call) : K * bool :=
  match cs with
  | [] => (k, true)
  | c :: cs =>
      match run_call k pid c with
      | Err _ => (k, false)
      | Ok k => run_calls k pid cs
      end
  end.

(** The system calls of [step_up] at each level, and the level after them. *)
Definition up_calls (l : LockLevel) : list call :=
  match l with
  | Unlocked => [Call (Some F_RDLCK) PENDING_BYTE 1; Call None PENDING_BYTE 1;
                 Call (Some F_RDLCK) SHARED_FIRST SHARED_SIZE]
  | Shared => [Call (Some F_WRLCK) RESERVED_BYTE 1]
  | Reserved => [Call (Some F_WRLCK) PENDING_BYTE 1]
  | Pending => [Call (Some F_WRLCK) SHARED_FIRST SHARED_SIZE]
  | Exclusive => []
  end.
Definition level_up (l : LockLevel) : LockLevel :=
  match l with
  | Unlocked => Shared | Shared => Reserved | Reserved => Pending
  | Pending | Exclusive => Exclusive
  end.

(** The same for [step_down]. *)
Definition down_calls (l : LockLevel) : list call :=
  match l with
  | Exclusive => [Call (Some F_RDLCK) SHARED_FIRST SHARED_SIZE]
  | Pending => [Call None PENDING_BYTE 1]
  | Reserved => [Call None RESERVED_BYTE 1]
  | Shared => [Call None SHARED_FIRST SHARED_SIZE]
  | Unlocked => []
  end.
Definition level_down (l : LockLevel) : LockLevel :=
  match l with
  | Exclusive => Pending | Pending => Reserved | Reserved => Shared
  | Shared | Unlocked => Unlocked
  end.

(** A step returns the kernel's table after the calls it made, the state,
    and whether it succeeded. *)
Definition take_step (k : K) (s : FileLockState) (cs : list call) (next : LockLevel) : K * FileLockState * bool :=
  match run_calls k (fl_pid s) cs with
  | (k, true) => (k, with_level s next, true)
  | (k, false) => (k, s, false)
  end.

Definition step_up (k : K) (s : FileLockState) : K * FileLockState * bool :=
  take_step k s (up_calls (fl_level s)) (level_up (fl_level s)).

Definition step_down (k : K) (s : FileLockState) : K * FileLockState * bool :=
  take_step k s (down_calls (fl_level s)) (level_down (fl_level s)).

(** The two [while] loops of [set_level]; each iteration moves one of the
    five levels. *)
Fixpoint up_loop (fuel : nat) (k : K) (s : FileLockState) (target : LockLevel)
  : K * FileLockState * bool :=
  match fuel with
  | O => (k, s, true)
  | S fuel =>
      if decide (level_lt (fl_level s) target) then
        match step_up k s with
        | (k, s, true) => up_loop fuel k s target
        | r => r
        end
      else (k, s, true)
  end.

Fixpoint down_loop (fuel : nat) (k : K) (s : FileLockState) (target : LockLevel)
  : K * FileLockState * bool :=
  match fuel with
  | O => (k, s, true)
  | S fuel =>
      if decide (level_lt target (fl_level s)) then
        match step_down k s with
        | (k, s, true) => down_loop fuel k s target
        | r => r
        end
      else (k, s, true)
  end.

Definition set_level (k : K) (s : FileLockState) (target : LockLevel)
  : K * FileLockState * bool :=
  match up_loop 5 k s target with
  | (k, s, true) => down_loop 5 k s target
  | r => r
  end.

Definition check_reserved (k : K) (s : FileLockState) : bool := getlk k (fl_pid s) RESERVED_BYTE.

Definition is_write_locked (s : FileLockState) : bool :=
  bool_decide (level_le Reserved (fl_level s)).

(** ** A system of connections, one per process

    The processes run [set_level] concurrently, and the kernel serialises
    single system calls only: between two calls of one [set_level] the others
    may make theirs.  A process is idle, at the head of the loops of
    [set_level], or about to make the next call of a step. *)

Inductive activity : Type :=
| Idle
| Looping (target : LockLevel)
| Calling (target next : LockLevel) (c : call) (cs : list call).

Definition start_step (s : FileLockState) (target next : LockLevel) (cs : list call) : FileLockState * activity :=
  match cs with
  | [] => (with_level s next, Looping target)
  | c :: cs => (s, Calling target next c cs)
  end.

(** What a process does next; a failed call ends its [set_level]. *)
Definition advance (k : K) (s : FileLockState) (a : activity) : K * (FileLockState * activity) :=
  match a with
  | Idle => (k, (s, Idle))
  | Looping target =>
      if decide (level_lt (fl_level s) target) then (k, start_step s target (level_up (fl_level s)) (up_calls (fl_level s)))
      else if decide (level_lt target (fl_level s)) then (k, start_step s target (level_down (fl_level s)) (down_calls (fl_level s)))
      else (k, (s, Idle))
  | Calling target next c cs =>
      match run_call k (fl_pid s) c with
      | Err _ => (k, (s, Idle))
      | Ok k => (k, start_step s target next cs)
      end
  end.

Record system : Type := { sy_kernel : K; sy_proc : gmap Z (LockLevel * activity) }.

Definition level_of (y : system) (p : Z) : LockLevel := (default (Unlocked, Idle) (sy_proc y !! p)).1.
Definition activity_of (y : system) (p : Z) : activity := (default (Unlocked, Idle) (sy_proc y !! p)).2.

(** An idle process calls [set_level], or a process goes on. *)
Inductive event : Type :=
| Begin (p : Z) (target : LockLevel)
| Advance (p : Z).

Definition ev_pid (e : event) : Z := match e with Begin p _ => p | Advance p => p end.

Definition sys_exec (y : system) (e : event) : system :=
  match e with
  | Begin p target =>
      match activity_of y p with
      | Idle => {| sy_kernel := sy_kernel y; sy_proc := <[p := (level_of y p, Looping target)]> (sy_proc y) |}
      | _ => y
      end
  | Advance p =>
      let '(k, (s, a)) := advance (sy_kernel y) {| fl_pid := p; fl_level := level_of y p |} (activity_of y p) in
      {| sy_kernel := k; sy_proc := <[p := (fl_level s, a)]> (sy_proc y) |}
  end.

Definition sys_run (y : system) (es : list event) : system := foldl sys_exec y es.

(** The locks a level stands for, on the byte [b]. *)
Definition level_holds (l : LockLevel) (b : Z) : option lock_kind :=
  if decide (b = PENDING_BYTE) then (if decide (level_le Pending l) then Some F_WRLCK else None)
  else if decide (b = RESERVED_BYTE) then
    (if decide (level_le Reserved l) then Some F_WRLCK else None)
  else if decide (SHARED_FIRST ≤ b < SHARED_FIRST + SHARED_SIZE) then
    (if decide (l = Exclusive) then Some F_WRLCK
     else if decide (level_le Shared l) then Some F_RDLCK else None)
  else None.

(** No two processes hold conflicting locks on a byte. *)
Definition compatible (k : K) : Prop :=
  ∀ p q b, p ≠ q → holds k p b = Some F_WRLCK → holds k q b = None.

(** A process's locks are those of its level. *)
Definition consistent (k : K) (p : Z) (l : LockLevel) : Prop :=
  ∀ b, holds k p b = level_holds l b.

(** The read lock on the pending byte with which a new reader probes is held
    between two calls; no other step holds more than its level. *)
Definition probing (a : activity) : bool := match a with Calling _ _ _ [_] => true | _ => false end.

Definition proc_holds (l : LockLevel) (a : activity) (b : Z) : option lock_kind :=
  if decide (b = PENDING_BYTE ∧ probing a = true) then Some F_RDLCK else level_holds l b.

Fixpoint tails {A} (l : list A) : list (list A) := match l with [] => [] | _ :: l' => l :: tails l' end.

(** A process in a step has a rest of that step's calls before it. *)
Definition activity_ok (l : LockLevel) (a : activity) : Prop :=
  match a with
  | Calling _ next c cs =>
      (next = level_up l ∧ In (c :: cs) (tails (up_calls l))) ∨ (next = level_down l ∧ In (c :: cs) (tails (down_calls l)))
  | _ => True
  end.

Definition proc_ok (k : K) (p : Z) (l : LockLevel) (a : activity) : Prop :=
  activity_ok l a ∧ ∀ b, holds k p b = proc_holds l a b.

Definition sys_inv (y : system) : Prop :=
  compatible (sy_kernel y) ∧ ∀ p, proc_ok (sy_kernel y) p (level_of y p) (activity_of y p).

Inductive sys_reachable : system → Prop :=
| sys_init k : (∀ p b, holds k p b = None) → sys_reachable {| sy_kernel := k; sy_proc := ∅ |}
| sys_next y e : sys_reachable y → sys_reachable (sys_exec y e).

(** ** Lemmas *)

Lemma setlk_own k p kind start len k' :
  setlk k p kind start len = Some k' → compatible k →
  compatible k' ∧ (∀ q b, q ≠ p → holds k' q b = holds k q b) ∧
  (∀ b, holds k' p b = if decide (start ≤ b < start + len) then kind else holds k p b).
Proof.
  intros Hs Hc. pose proof (setlk_holds k p kind start len k') as Hh.
  pose proof (proj1 (setlk_ok k p kind start len) ltac:(eauto)) as Hok.
  assert (Ho : ∀ q b, q ≠ p → holds k' q b = holds k q b).
  { intros q b Hq. rewrite (Hh q b Hs). rewrite decide_False; [done|]. by intros [? _]. }
  assert (Hp : ∀ b, holds k' p b = if decide (start ≤ b < start + len) then kind else holds k p b).
  { intros b. rewrite (Hh p b Hs). destruct (decide (start ≤ b < start + len)).
    - by rewrite decide_True.
    - rewrite decide_False; [done|]. by intros [_ ?]. }
  split_and!; [|done|done]. intros q r b Hne. destruct (decide (q = p)) as [->|Hq].
  - rewrite Hp, (Ho r) by done. case_decide as Hd; [|by apply Hc].
    intros ->. specialize (Hok r b ltac:(done) Hd). by destruct (holds k r b).
  - rewrite (Ho q) by done. destruct (decide (r = p)) as [->|Hr]; [|rewrite Ho by done; by apply Hc].
    intros Hw. rewrite Hp. case_decide as Hd; [|by apply (Hc q)].
    specialize (Hok q b Hq Hd). rewrite Hw in Hok. by destruct kind as [[]|].
Qed.

(** What a call of the ladder leaves behind. *)
Definition after (k : K) (p : Z) (r : K * FileLockState * bool) : Prop :=
  let '(k', s', _) := r in
  compatible k' ∧ consistent k' p (fl_level s') ∧ fl_pid s' = p ∧
  ∀ q b, q ≠ p → holds k' q b = holds k q b.

Lemma after_trans k k' p r :
  (∀ q b, q ≠ p → holds k' q b = holds k q b) → after k' p r → after k p r.
Proof.
  destruct r as [[k2 s2] ok]. intros Hk (? & ? & ? & Ho). split_and!; [done..|].
  intros q b Hq. by rewrite Ho, Hk.
Qed.

Lemma after_refl k s ok :
  compatible k → consistent k (fl_pid s) (fl_level s) → after k (fl_pid s) (k, s, ok).
Proof. done. Qed.

Lemma after_setlk k s kind start len k' l ok :
  setlk k (fl_pid s) kind start len = Some k' → compatible k →
  consistent k (fl_pid s) (fl_level s) →
  (∀ b, (if decide (start ≤ b < start + len) then kind else level_holds (fl_level s) b)
        = level_holds l b) →
  after k (fl_pid s) (k', with_level s l, ok).
Proof.
  intros Hs Hc Hk Hl. destruct (setlk_own _ _ _ _ _ _ Hs Hc) as (Hc' & Ho & Hp).
  split_and!; [done| |done|done]. intros b. cbn. rewrite Hp, Hk. apply Hl.
Qed.

Ltac level_cases :=
  intros b; unfold level_holds, level_le, PENDING_BYTE, RESERVED_BYTE, SHARED_FIRST,
    SHARED_SIZE, PENDING_BYTE; cbn [level_rank];
  repeat (case_decide; try (exfalso; lia); try done).

Ltac step_simpl :=
  unfold take_step; cbn [fl_pid fl_level up_calls down_calls level_up level_down run_calls];
  unfold run_call, fcntl_lock; cbn [c_kind c_start c_len ok_or].

Lemma step_up_after k s :
  compatible k → consistent k (fl_pid s) (fl_level s) → after k (fl_pid s) (step_up k s).
Proof.
  intros Hc Hk. unfold step_up. destruct s as [p l]. cbn [fl_pid fl_level] in *.
  destruct l; step_simpl.
  - destruct (setlk k p (Some F_RDLCK) PENDING_BYTE 1) as [k1|] eqn:H1; [|done]. cbn [ok_or].
    destruct (setlk_own _ _ _ _ _ _ H1 Hc) as (Hc1 & Ho1 & Hp1).
    destruct (setlk k1 p None PENDING_BYTE 1) as [k2|] eqn:H2; cbn [ok_or].
    2: { exfalso. assert (is_Some (setlk k1 p None PENDING_BYTE 1)) as Hs by (by apply setlk_ok).
         rewrite H2 in Hs. by destruct Hs. }
    destruct (setlk_own _ _ _ _ _ _ H2 Hc1) as (Hc2 & Ho2 & Hp2).
    assert (Hk2 : consistent k2 p Unlocked).
    { intros b. rewrite Hp2, Hp1. pose proof (Hk b) as Hb. revert Hb.
      unfold level_holds, level_le. cbn [level_rank]. intros Hb.
      repeat case_decide; try done; try lia. }
    apply (after_trans k k2); [intros; by rewrite Ho2, Ho1|].
    destruct (setlk k2 p (Some F_RDLCK) SHARED_FIRST SHARED_SIZE) as [k3|] eqn:H3; [|done].
    apply (after_setlk k2 {| fl_pid := p; fl_level := Unlocked |} _ _ _ k3 Shared true H3 Hc2 Hk2).
    cbn [fl_level]. level_cases.
  - destruct (setlk k p (Some F_WRLCK) RESERVED_BYTE 1) as [k1|] eqn:H1; [|done].
    apply (after_setlk k {| fl_pid := p; fl_level := Shared |} _ _ _ k1 Reserved true H1 Hc Hk).
    cbn [fl_level]. level_cases.
  - destruct (setlk k p (Some F_WRLCK) PENDING_BYTE 1) as [k1|] eqn:H1; [|done].
    apply (after_setlk k {| fl_pid := p; fl_level := Reserved |} _ _ _ k1 Pending true H1 Hc Hk).
    cbn [fl_level]. level_cases.
  - destruct (setlk k p (Some F_WRLCK) SHARED_FIRST SHARED_SIZE) as [k1|] eqn:H1; [|done].
    apply (after_setlk k {| fl_pid := p; fl_level := Pending |} _ _ _ k1 Exclusive true H1 Hc Hk).
    cbn [fl_level]. level_cases.
  - done.
Qed.

Lemma step_down_after k s :
  compatible k → consistent k (fl_pid s) (fl_level s) → after k (fl_pid s) (step_down k s).
Proof.
  intros Hc Hk. unfold step_down. destruct s as [p l]. cbn [fl_pid fl_level] in *.
  destruct l; step_simpl; [done|..].
  - destruct (setlk k p None SHARED_FIRST SHARED_SIZE) as [k1|] eqn:H1; [|done].
    apply (after_setlk k {| fl_pid := p; fl_level := Shared |} _ _ _ k1 Unlocked true H1 Hc Hk).
    cbn [fl_level]. level_cases.
  - destruct (setlk k p None RESERVED_BYTE 1) as [k1|] eqn:H1; [|done].
    apply (after_setlk k {| fl_pid := p; fl_level := Reserved |} _ _ _ k1 Shared true H1 Hc Hk).
    cbn [fl_level]. level_cases.
  - destruct (setlk k p None PENDING_BYTE 1) as [k1|] eqn:H1; [|done].
    apply (after_setlk k {| fl_pid := p; fl_level := Pending |} _ _ _ k1 Reserved true H1 Hc Hk).
    cbn [fl_level]. level_cases.
  - destruct (setlk k p (Some F_RDLCK) SHARED_FIRST SHARED_SIZE) as [k1|] eqn:H1; [|done].
    apply (after_setlk k {| fl_pid := p; fl_level := Exclusive |} _ _ _ k1 Pending true H1 Hc Hk).
    cbn [fl_level]. level_cases.
Qed.

(** *** Levels a step reaches *)

Lemma step_up_level k s k' s' ok :
  step_up k s = (k', s', ok) →
  fl_level s' = if ok then level_up (fl_level s) else fl_level s.
Proof. unfold step_up, take_step. intros Hs. repeat case_match; by simplify_eq/=. Qed.

(** Going down never fails. *)
Lemma step_down_succeeds k s :
  compatible k → consistent k (fl_pid s) (fl_level s) →
  ∃ k', step_down k s = (k', with_level s (level_down (fl_level s)), true).
Proof.
  intros Hc Hk. unfold step_down.
  assert (Hun : ∀ start len, ∃ k', setlk k (fl_pid s) None start len = Some k').
  { intros start len. by apply setlk_ok. }
  destruct s as [p l]. destruct l; step_simpl; cbn [fl_pid fl_level with_level] in *.
  - by eexists.
  - destruct (Hun SHARED_FIRST SHARED_SIZE) as [k' ->]. by eexists.
  - destruct (Hun RESERVED_BYTE 1) as [k' ->]. by eexists.
  - destruct (Hun PENDING_BYTE 1) as [k' ->]. by eexists.
  - assert (is_Some (setlk k p (Some F_RDLCK) SHARED_FIRST SHARED_SIZE)) as [k' ->];
      [|by eexists].
    apply setlk_ok. intros q b Hq Hb. rewrite (Hc p q b); [done|done|]. rewrite Hk.
    unfold level_holds, PENDING_BYTE, RESERVED_BYTE, SHARED_FIRST, SHARED_SIZE, PENDING_BYTE in *.
    rewrite !decide_False by lia. rewrite decide_True by lia. by rewrite decide_True.
Qed.

Lemma up_loop_after fuel k s target :
  compatible k → consistent k (fl_pid s) (fl_level s) →
  after k (fl_pid s) (up_loop fuel k s target).
Proof.
  revert k s. induction fuel as [|fuel IH]; intros k s Hc Hk; cbn [up_loop]; [done|].
  case_decide; [|done]. pose proof (step_up_after k s Hc Hk) as Ha.
  destruct (step_up k s) as [[k' s'] ok]. destruct Ha as (Hc' & Hk' & Hp & Ho).
  destruct ok; [|by split_and!]. rewrite <- Hp in *.
  apply (after_trans k k'); [done|]. by apply IH.
Qed.

Lemma down_loop_spec fuel k s target :
  compatible k → consistent k (fl_pid s) (fl_level s) →
  level_rank (fl_level s) - level_rank target < Z.of_nat fuel →
  ∃ k' s', down_loop fuel k s target = (k', s', true) ∧
    after k (fl_pid s) (k', s', true) ∧
    level_rank (fl_level s') = Z.min (level_rank (fl_level s)) (level_rank target).
Proof.
  revert k s. induction fuel as [|fuel IH]; intros k s Hc Hk Hf; cbn [down_loop].
  { do 2 eexists. split; [done|]. split; [done|]. lia. }
  unfold level_lt. case_decide as Hd.
  - pose proof (step_down_after k s Hc Hk) as Ha.
    destruct (step_down_succeeds k s Hc Hk) as [k1 Hs]. rewrite Hs in *.
    destruct Ha as (Hc' & Hk' & Hp & Ho).
    destruct (IH k1 (with_level s (level_down (fl_level s)))) as (k' & s' & -> & Ha & Hr).
    + done.
    + done.
    + cbn [with_level fl_level]. destruct (fl_level s), target; cbn in *; lia.
    + do 2 eexists. split; [done|]. split; [by apply (after_trans k k1)|].
      rewrite Hr. cbn [with_level fl_level]. destruct (fl_level s), target; cbn in *; lia.
  - do 2 eexists. split; [done|]. split; [done|]. lia.
Qed.

Lemma up_loop_level fuel k s target k' s' ok :
  up_loop fuel k s target = (k', s', ok) →
  level_rank target - level_rank (fl_level s) < Z.of_nat fuel →
  level_rank (fl_level s) ≤ level_rank (fl_level s') ≤
    Z.max (level_rank (fl_level s)) (level_rank target) ∧
  (ok = true → level_rank target ≤ level_rank (fl_level s')).
Proof.
  revert k s. induction fuel as [|fuel IH]; intros k s; cbn [up_loop].
  { intros [= -> -> <-] Hf. split; [lia|]. lia. }
  unfold level_lt. case_decide as Hd.
  - destruct (step_up k s) as [[k1 s1] ok1] eqn:Hs. apply step_up_level in Hs.
    destruct ok1.
    + intros Hu Hf. apply IH in Hu.
      * rewrite Hs in Hu. destruct Hu as [Hu Hok]. split; [|exact Hok].
        clear -Hu Hd Hf. generalize dependent (level_rank (fl_level s')). intros r Hu.
        destruct (fl_level s), target; cbn in *; lia.
      * rewrite Hs. destruct (fl_level s), target; cbn in *; lia.
    + intros [= -> -> <-] _. rewrite Hs. split; [lia|done].
  - intros [= -> -> <-] _. split; [lia|]. lia.
Qed.

Lemma up_loop_fail fuel k s target k' s' ok :
  up_loop fuel k s target = (k', s', ok) → ok = false →
  level_rank (fl_level s') < level_rank target.
Proof.
  revert k s. induction fuel as [|fuel IH]; intros k s; cbn [up_loop]; [by intros [= -> -> <-]|].
  unfold level_lt. case_decide as Hd; [|by intros [= -> -> <-]].
  destruct (step_up k s) as [[k1 s1] ok1] eqn:Hs. apply step_up_level in Hs.
  destruct ok1; [apply IH|]. intros [= -> -> <-] _. by rewrite Hs.
Qed.

Lemma level_rank_inj a b : level_rank a = level_rank b → a = b.
Proof. by destruct a, b. Qed.

Lemma level_rank_bounds l : 0 ≤ level_rank l ≤ 4.
Proof. destruct l; cbn; lia. Qed.

Lemma set_level_spec k s target :
  compatible k → consistent k (fl_pid s) (fl_level s) →
  let '(k', s', ok) := set_level k s target in
  after k (fl_pid s) (k', s', ok) ∧
  (ok = true → fl_level s' = target) ∧
  (ok = false → level_le (fl_level s) (fl_level s') ∧ level_lt (fl_level s') target) ∧
  (level_le target (fl_level s) → ok = true).
Proof.
  intros Hc Hk. unfold set_level.
  pose proof (up_loop_after 5 k s target Hc Hk) as Ha.
  destruct (up_loop 5 k s target) as [[k1 s1] ok1] eqn:Hu.
  pose proof (level_rank_bounds target). pose proof (level_rank_bounds (fl_level s)).
  pose proof (up_loop_fail 5 k s target k1 s1 ok1 Hu) as Hfail.
  apply up_loop_level in Hu as [Hr Hok]; [|lia]. destruct Ha as (Hc1 & Hk1 & Hp1 & Ho1).
  unfold level_le, level_lt. destruct ok1.
  - rewrite <- Hp1 in *.
    destruct (down_loop_spec 5 k1 s1 target Hc1 Hk1) as (k' & s' & -> & Ha & Hmin).
    { pose proof (level_rank_bounds (fl_level s1)). lia. }
    split_and!; [by apply (after_trans k k1)| |done|done].
    intros _. apply level_rank_inj. rewrite Hmin. specialize (Hok eq_refl). lia.
  - specialize (Hfail eq_refl). split_and!; [done|done|split; [lia|exact Hfail]|].
    intros Hle. lia.
Qed.

(** *** The system *)

Lemma not_probing l a b : probing a = false → proc_holds l a b = level_holds l b.
Proof. intros Hp. unfold proc_holds. rewrite Hp. by rewrite decide_False by (by intros [_ ?]). Qed.

Lemma while_probing l a b :
  probing a = true → proc_holds l a b = if decide (b = PENDING_BYTE) then Some F_RDLCK else level_holds l b.
Proof. intros Hp. unfold proc_holds. repeat case_decide; naive_solver. Qed.

(** One call: it is made by [p] only, a failed one ends a step that has
    nothing to give back, a successful one leaves the locks of what follows. *)
Lemma call_inv k p l target next c cs :
  compatible k → proc_ok k p l (Calling target next c cs) →
  let '(k', (s', a')) := advance k {| fl_pid := p; fl_level := l |} (Calling target next c cs) in
  compatible k' ∧ fl_pid s' = p ∧ proc_ok k' p (fl_level s') a' ∧ ∀ q b, q ≠ p → holds k' q b = holds k q b.
Proof.
  intros Hc [Ha Hk]. cbn [advance fl_pid]. unfold run_call, fcntl_lock.
  destruct (setlk k p (c_kind c) (c_start c) (c_len c)) as [k1|] eqn:Hs; cbn [ok_or].
  - destruct (setlk_own _ _ _ _ _ _ Hs Hc) as (Hc1 & Ho1 & Hp1). unfold proc_ok.
    assert (Hh : ∀ b, holds k1 p b = if decide (c_start c ≤ b < c_start c + c_len c) then c_kind c
                                     else proc_holds l (Calling target next c cs) b)
      by (intros b; rewrite Hp1; by rewrite Hk).
    clear Hs Hp1 Hk. destruct Ha as [[-> Hin]|[-> Hin]]; destruct l; cbn in Hin; destruct_or?; simplify_eq; try done;
      cbn [start_step fl_pid fl_level with_level c_kind c_start c_len level_up level_down] in *;
      (split; [done|]); (split; [done|]); (split; [|done]); (split; [cbn; auto 7|]);
      intros b; rewrite Hh; clear; rewrite ?not_probing, ?while_probing, ?not_probing by done; revert b; level_cases.
  - split; [done|]. split; [done|]. split; [|done]. split; [done|]. intros b.
    rewrite Hk. cbn [fl_level]. rewrite (not_probing l Idle) by done. apply not_probing.
    destruct cs as [|c' [|c'' cs]]; [done| |done]. exfalso.
    assert (c_kind c = None) as Hn by (destruct Ha as [[-> Hin]|[-> Hin]]; destruct l; cbn in Hin; destruct_or?; by simplify_eq).
    assert (is_Some (setlk k p (c_kind c) (c_start c) (c_len c))) as [? ?]; [|congruence].
    rewrite Hn. by apply setlk_ok.
Qed.

Lemma advance_inv k p l a :
  compatible k → proc_ok k p l a →
  let '(k', (s', a')) := advance k {| fl_pid := p; fl_level := l |} a in
  compatible k' ∧ fl_pid s' = p ∧ proc_ok k' p (fl_level s') a' ∧ ∀ q b, q ≠ p → holds k' q b = holds k q b.
Proof.
  intros Hc Hok. destruct a as [|target|target next c cs]; [done| |by apply call_inv].
  destruct Hok as [_ Hk]. assert (Hno : ∀ b, holds k p b = level_holds l b) by (intros b; by rewrite Hk, not_probing).
  cbn [advance fl_level]. unfold proc_ok.
  repeat case_decide; destruct l; unfold level_lt in *; cbn in *;
    (split; [done|]); (split; [done|]); (split; [|done]); (split; [cbn; auto|]); intros b; rewrite Hno; clear;
    (by rewrite not_probing) || (cbn; pose proof (level_rank_bounds target); lia).
Qed.

Lemma sys_procs y p : (default (Unlocked, Idle) (sy_proc y !! p)) = (level_of y p, activity_of y p).
Proof. unfold level_of, activity_of. by destruct (default _ _). Qed.

Lemma exec_other y e q :
  ev_pid e ≠ q → level_of (sys_exec y e) q = level_of y q ∧ activity_of (sys_exec y e) q = activity_of y q.
Proof.
  intros Hne. unfold level_of, activity_of. destruct e as [p target|p]; cbn in *.
  - destruct (activity_of y p); cbn; [|done..]. by rewrite lookup_insert_ne.
  - destruct (advance _ _ _) as [k [s a]]. cbn. by rewrite lookup_insert_ne.
Qed.

Lemma exec_advance y p k s a :
  advance (sy_kernel y) {| fl_pid := p; fl_level := level_of y p |} (activity_of y p) = (k, (s, a)) →
  sy_kernel (sys_exec y (Advance p)) = k ∧ level_of (sys_exec y (Advance p)) p = fl_level s ∧ activity_of (sys_exec y (Advance p)) p = a.
Proof. intros Ha. unfold level_of, activity_of. cbn [sys_exec]. rewrite Ha. cbn. by rewrite lookup_insert_eq. Qed.

Lemma exec_begin y p target :
  activity_of y p = Idle →
  sy_kernel (sys_exec y (Begin p target)) = sy_kernel y ∧ level_of (sys_exec y (Begin p target)) p = level_of y p ∧
  activity_of (sys_exec y (Begin p target)) p = Looping target.
Proof. intros Ha. cbn [sys_exec]. rewrite Ha. split; [done|]. unfold level_of at 1, activity_of. cbn. by rewrite !lookup_insert_eq. Qed.

Lemma sys_exec_inv y e : sys_inv y → sys_inv (sys_exec y e).
Proof.
  intros [Hc Hk]. destruct e as [p target|p].
  - destruct (activity_of y p) eqn:Ha; [|by cbn [sys_exec]; rewrite Ha..].
    pose proof (exec_begin y p target Ha) as (Hk' & Hl & Ha'). unfold sys_inv. rewrite Hk'. split; [done|]. intros q.
    destruct (decide (p = q)) as [<-|Hne]; [|by destruct (exec_other y (Begin p target) q Hne) as [-> ->]].
    rewrite Hl, Ha'. destruct (Hk p) as [_ Hh]. split; [done|]. intros b. rewrite Hh, Ha. by rewrite !not_probing.
  - pose proof (advance_inv (sy_kernel y) p _ _ Hc (Hk p)) as Hadv.
    destruct (advance _ _ _) as [k' [s' a']] eqn:Ha. destruct Hadv as (Hc' & _ & Hok & Ho).
    pose proof (exec_advance _ _ _ _ _ Ha) as (Hk' & Hl & Ha'). unfold sys_inv. rewrite Hk'. split; [done|]. intros q.
    destruct (decide (p = q)) as [<-|Hne]; [by rewrite Hl, Ha'|].
    destruct (exec_other y (Advance p) q Hne) as [-> ->]. destruct (Hk q) as [Hact Hh]. split; [done|].
    intros b. by rewrite Ho by done.
Qed.

Lemma sys_reachable_inv y : sys_reachable y → sys_inv y.
Proof.
  induction 1 as [k Hk|y e _ IH]; [|by apply sys_exec_inv]. split.
  - intros p q b _. cbn. by rewrite Hk.
  - intros p. unfold level_of, activity_of. cbn. rewrite lookup_empty. split; [done|]. intros b.
    cbn. rewrite Hk, not_probing by done. revert b. level_cases.
Qed.

Lemma level_holds_shared l : level_holds l SHARED_FIRST = None ↔ l = Unlocked.
Proof. by destruct l. Qed.
Lemma level_holds_reserved l : level_holds l RESERVED_BYTE = None ↔ level_le l Shared.
Proof. unfold level_le. destruct l; vm_compute; split; intros; try done; by destruct H0. Qed.
Lemma level_holds_pending l : level_le Pending l → level_holds l PENDING_BYTE = Some F_WRLCK.
Proof. unfold level_le. destruct l; cbn; intros; try lia; reflexivity. Qed.

(** Off the pending byte a process holds what its level says, mid-step too. *)
Lemma proc_holds_level k p l a b : proc_ok k p l a → b ≠ PENDING_BYTE → holds k p b = level_holds l b.
Proof. intros [_ Hh] Hb. rewrite Hh. unfold proc_holds. by rewrite decide_False by (by intros [? _]). Qed.

Lemma sys_exclusive y p q :
  sys_inv y → p ≠ q → level_of y p = Exclusive → level_of y q = Unlocked.
Proof.
  intros [Hc Hk] Hne Hp. apply level_holds_shared. rewrite <- (proc_holds_level _ _ _ _ _ (Hk q)) by done.
  apply (Hc p q); [done|]. by rewrite (proc_holds_level _ _ _ _ _ (Hk p)), Hp by done.
Qed.

Lemma sys_reserved y p q :
  sys_inv y → p ≠ q → level_le Reserved (level_of y p) → level_le (level_of y q) Shared.
Proof.
  intros [Hc Hk] Hne Hp. apply level_holds_reserved. rewrite <- (proc_holds_level _ _ _ _ _ (Hk q)) by done.
  apply (Hc p q); [done|]. rewrite (proc_holds_level _ _ _ _ _ (Hk p)) by done. unfold level_le in Hp.
  destruct (level_of y p); cbn in Hp; try lia; reflexivity.
Qed.

(** *** A process that runs alone *)

(** [n] events of one process in a row. *)
Fixpoint advances (n : nat) (k : K) (s : FileLockState) (a : activity) : K * (FileLockState * activity) :=
  match n with
  | O => (k, (s, a))
  | S n => let '(k, (s, a)) := advance k s a in advances n k s a
  end.

Lemma advances_app n m k s a :
  advances (n + m) k s a = let '(k, (s, a)) := advances n k s a in advances m k s a.
Proof.
  revert k s a. induction n as [|n IH]; intros k s a; [done|]. cbn.
  destruct (advance k s a) as [k' [s' a']]. apply IH.
Qed.

Lemma advances_then n k s a k1 s1 a1 r :
  advances n k s a = (k1, (s1, a1)) → (∃ m, advances m k1 s1 a1 = r) → ∃ m, advances m k s a = r.
Proof. intros Hn [m Hm]. exists (n + m)%nat. by rewrite advances_app, Hn. Qed.

Lemma take_step_advances k s target next cs :
  let '(k', s', ok) := take_step k s cs next in
  ∃ n, advances n k (start_step s target next cs).1 (start_step s target next cs).2 = (k', (s', if ok : bool then Looping target else Idle)).
Proof.
  unfold take_step. revert k. induction cs as [|c cs IH]; intros k; cbn [run_calls start_step fst snd]; [by exists 0%nat|].
  destruct (run_call k (fl_pid s) c) as [k1|[]] eqn:Hc.
  - specialize (IH k1). destruct (run_calls k1 (fl_pid s) cs) as [k' []]; destruct IH as [n Hn]; exists (S n);
      cbn [advances advance]; rewrite Hc; by destruct (start_step s target next cs).
  - exists 1%nat. cbn [advances advance]. by rewrite Hc.
Qed.

Lemma up_loop_advances fuel k s target :
  let '(k', s', ok) := up_loop fuel k s target in
  ∃ n, advances n k s (Looping target) = (k', (s', if ok : bool then Looping target else Idle)).
Proof.
  revert k s. induction fuel as [|fuel IH]; intros k s; cbn [up_loop]; [by exists 0%nat|].
  case_decide as Hd; [|by exists 0%nat]. unfold step_up.
  pose proof (take_step_advances k s target (level_up (fl_level s)) (up_calls (fl_level s))) as Hstep.
  destruct (take_step _ _ _ _) as [[k1 s1] ok]. destruct Hstep as [n Hn].
  assert (Hn' : advances (S n) k s (Looping target) = (k1, (s1, if ok then Looping target else Idle))).
  { cbn [advances advance]. rewrite decide_True by done. by destruct (start_step _ _ _ _). }
  destruct ok; [|by eexists]. specialize (IH k1 s1). destruct (up_loop fuel k1 s1 target) as [[k' s'] ok].
  by eapply advances_then.
Qed.

Lemma down_loop_advances fuel k s target :
  level_le target (fl_level s) →
  let '(k', s', ok) := down_loop fuel k s target in
  ∃ n, advances n k s (Looping target) = (k', (s', if ok : bool then Looping target else Idle)).
Proof.
  revert k s. induction fuel as [|fuel IH]; intros k s Hle; cbn [down_loop]; [by exists 0%nat|].
  case_decide as Hd; [|by exists 0%nat]. unfold step_down.
  pose proof (take_step_advances k s target (level_down (fl_level s)) (down_calls (fl_level s))) as Hstep.
  destruct (take_step _ _ _ _) as [[k1 s1] ok] eqn:Ht. destruct Hstep as [n Hn].
  assert (Hn' : advances (S n) k s (Looping target) = (k1, (s1, if ok then Looping target else Idle))).
  { cbn [advances advance]. rewrite decide_False, decide_True by (done || (unfold level_le, level_lt in *; lia)).
    by destruct (start_step _ _ _ _). }
  destruct ok; [|by eexists]. specialize (IH k1 s1).
  assert (level_le target (fl_level s1)) as Hle1.
  { unfold take_step in Ht. destruct (run_calls _ _ _) as [? []]; simplify_eq. cbn.
    unfold level_le, level_lt in *. destruct (fl_level s), target; cbn in *; lia. }
  specialize (IH Hle1). destruct (down_loop fuel k1 s1 target) as [[k' s'] ok]. by eapply advances_then.
Qed.
(** [set_level] is what its events do when no other process runs between
    them. *)
Lemma set_level_advances k s target :
  compatible k → consistent k (fl_pid s) (fl_level s) →
  ∃ n, advances n k s (Looping target) = ((set_level k s target).1.1, ((set_level k s target).1.2, Idle)).
Proof.
  intros Hc Hk. pose proof (set_level_spec k s target Hc Hk) as Hs. revert Hs. unfold set_level.
  pose proof (level_rank_bounds target). pose proof (level_rank_bounds (fl_level s)).
  pose proof (up_loop_advances 5 k s target) as Hup. pose proof (up_loop_level 5 k s target) as Hlev.
  destruct (up_loop 5 k s target) as [[k1 s1] []]; [|intros _; exact Hup].
  destruct Hup as [n Hn]. destruct (Hlev _ _ _ eq_refl ltac:(lia)) as [_ Hle].
  pose proof (down_loop_advances 5 k1 s1 target (Hle eq_refl)) as Hdown.
  destruct (down_loop 5 k1 s1 target) as [[k2 s2] ok]. intros (_ & Hok & _). cbn [fst snd].
  apply (advances_then _ _ _ _ _ _ _ _ Hn). destruct Hdown as [m Hm]. apply (advances_then _ _ _ _ _ _ _ _ Hm).
  destruct ok; [|by exists 0%nat]. exists 1%nat. cbn [advances advance]. rewrite Hok by done.
  by rewrite !decide_False by (unfold level_lt; lia).
Qed.

Lemma sys_run_app y es es' : sys_run y (es ++ es') = sys_run (sys_run y es) es'.
Proof. apply foldl_app. Qed.

Lemma sys_run_advances n y p :
  let '(k, (s, a)) := advances n (sy_kernel y) {| fl_pid := p; fl_level := level_of y p |} (activity_of y p) in
  sys_inv y → let z := sys_run y (replicate n (Advance p)) in sy_kernel z = k ∧ level_of z p = fl_level s ∧ activity_of z p = a.
Proof.
  revert y. induction n as [|n IH]; intros y; [done|]. cbn [advances replicate sys_run foldl].
  destruct (advance _ _ _) as [k1 [s1 a1]] eqn:Ha. specialize (IH (sys_exec y (Advance p))).
  destruct (exec_advance _ _ _ _ _ Ha) as (Hk & Hl & Hact). rewrite Hk, Hl, Hact in IH.
  destruct (advances n k1 s1 a1) as [k2 [s2 a2]] eqn:Hn. intros Hinv.
  pose proof (advance_inv _ p _ _ (proj1 Hinv) (proj2 Hinv p)) as Hadv. rewrite Ha in Hadv. destruct Hadv as (_ & Hp & _).
  destruct s1 as [p1 l1]. cbn in Hp. subst p1. cbn [fl_level] in IH. rewrite Hn in IH. apply IH. by apply sys_exec_inv.
Qed.

Lemma set_level_runs y p target :
  sys_inv y → activity_of y p = Idle →
  ∃ n, let z := sys_run y (Begin p target :: replicate n (Advance p)) in
    let '(k, s, _) := set_level (sy_kernel y) {| fl_pid := p; fl_level := level_of y p |} target in
    sy_kernel z = k ∧ level_of z p = fl_level s ∧ activity_of z p = Idle.
Proof.
  intros Hinv Ha. destruct (exec_begin y p target Ha) as (Hk & Hl & Hact).
  destruct (set_level_advances (sy_kernel y) {| fl_pid := p; fl_level := level_of y p |} target) as [n Hn].
  - apply Hinv.
  - intros b. destruct Hinv as [_ Hp]. destruct (Hp p) as [_ Hh]. rewrite Ha in Hh. by rewrite Hh, not_probing.
  - exists n. cbn [sys_run foldl]. pose proof (sys_run_advances n (sys_exec y (Begin p target)) p) as Hrun.
    rewrite Hk, Hl, Hact, Hn in Hrun. destruct (set_level _ _ _) as [[k s] ok]. by apply Hrun, sys_exec_inv.
Qed.

(** *** A writer at PENDING *)

(** [q] holds no lock that a writer waits for, and is not past the probe that
    would give it one. *)
Definition outside (y : system) (q : Z) : Prop :=
  level_of y q = Unlocked ∧ match activity_of y q with Calling _ _ _ [] => False | _ => True end.

Lemma outside_stays y p q e :
  sys_inv y → p ≠ q → level_le Pending (level_of y p) → outside y q → outside (sys_exec y e) q.
Proof.
  intros [Hc Hk] Hne Hp [Hl Ha]. destruct (decide (ev_pid e = q)) as [He|He].
  2: { unfold outside. by destruct (exec_other y e q He) as [-> ->]. }
  assert (Hw : probing (activity_of y p) = false → holds (sy_kernel y) p PENDING_BYTE = Some F_WRLCK).
  { intros Hpr. destruct (Hk p) as [_ Hh]. by rewrite Hh, not_probing, level_holds_pending. }
  assert (Hw' : holds (sy_kernel y) p PENDING_BYTE = Some F_WRLCK).
  { apply Hw. destruct (Hk p) as [Hact _]. destruct (activity_of y p) as [| |? ? c [|c' [|? ?]]]; try done.
    exfalso. unfold level_le in Hp. destruct Hact as [[_ Hin]|[_ Hin]]; destruct (level_of y p); cbn in Hp, Hin; try lia; naive_solver. }
  destruct e as [r target|r]; cbn [ev_pid] in He; subst r.
  - destruct (activity_of y q) eqn:Hq; [|by cbn [sys_exec]; rewrite Hq; unfold outside; rewrite Hq..].
    destruct (exec_begin y q target Hq) as (_ & Hl' & Ha'). unfold outside. by rewrite Hl', Ha'.
  - destruct (advance (sy_kernel y) {| fl_pid := q; fl_level := level_of y q |} (activity_of y q)) as [k [s a]] eqn:Hadv.
    destruct (exec_advance _ _ _ _ _ Hadv) as (_ & Hl' & Ha'). unfold outside. rewrite Hl', Ha'. clear Hl' Ha'.
    rewrite Hl in Hadv. destruct (activity_of y q) as [|target|target next c cs] eqn:Hq; cbn [advance fl_level fl_pid] in Hadv.
    + by simplify_eq.
    + repeat case_decide; simplify_eq/=; done.
    + pose proof (Hk q) as [Hact Hh]. rewrite Hl, Hq in Hact. unfold run_call, fcntl_lock in Hadv.
      destruct (setlk _ _ _ _ _) as [k'|] eqn:Hs in Hadv; cbn [ok_or] in Hadv; [|by simplify_eq].
      exfalso. pose proof (Hc p q PENDING_BYTE Hne Hw') as Hno. rewrite Hh in Hno.
      destruct Hact as [[-> Hin]|[-> Hin]]; cbn in Hin; [|done].
      destruct_or?; simplify_eq; [|rewrite Hl, Hq in Hno; by rewrite while_probing, decide_True in Hno|done..].
      pose proof (proj1 (setlk_ok _ q (Some F_RDLCK) PENDING_BYTE 1) ltac:(eauto)) as Hok.
      specialize (Hok p PENDING_BYTE Hne ltac:(lia)). by rewrite Hw' in Hok.
Qed.

Lemma outside_run y p q es :
  sys_inv y → p ≠ q → level_le Pending (level_of y p) → Forall (λ e, ev_pid e ≠ p) es → outside y q → outside (sys_run y es) q.
Proof.
  intros Hinv Hne Hp HF. revert y Hinv Hp. induction HF as [|e es He HF IH]; intros y Hinv Hp Hq; [done|].
  cbn. apply IH; [by apply sys_exec_inv|by destruct (exec_other y e p He) as [-> _]|]. by apply (outside_stays y p).
Qed.

Lemma others_run y p es :
  Forall (λ e, ev_pid e ≠ p) es → level_of (sys_run y es) p = level_of y p ∧ activity_of (sys_run y es) p = activity_of y p.
Proof.
  intros HF. revert y. induction HF as [|e es He HF IH]; intros y; [done|].
  change (sys_run y (e :: es)) with (sys_run (sys_exec y e) es). destruct (IH (sys_exec y e)) as [-> ->]. by apply exec_other.
Qed.

Lemma sys_run_inv y es : sys_inv y → sys_inv (sys_run y es).
Proof. revert y. induction es as [|e es IH]; intros y Hy; [done|]. cbn. by apply IH, sys_exec_inv. Qed.

(** The next event of [p] in a sequence, after events of others. *)
Lemma next_event p es e rest :
  filter (λ e, ev_pid e = p) es = e :: rest →
  ∃ pre post, es = pre ++ e :: post ∧ Forall (λ e, ev_pid e ≠ p) pre ∧ ev_pid e = p ∧ filter (λ e, ev_pid e = p) post = rest.
Proof.
  induction es as [|e' es IH]; [done|]. rewrite filter_cons. case_decide as Hd.
  - intros [= -> <-]. by exists [], es.
  - intros (pre & post & -> & Hpre & He & Hpost)%IH. exists (e' :: pre), post. split_and!; [done| |done|done]. by constructor.
Qed.

(** [p] waits at PENDING or has EXCLUSIVE, and everybody else is outside. *)
Definition waited (y : system) (p : Z) (l : LockLevel) (a : activity) : Prop :=
  sys_inv y ∧ level_of y p = l ∧ activity_of y p = a ∧ ∀ q, q ≠ p → outside y q.

Lemma waited_run y p l a es :
  level_le Pending l → Forall (λ e, ev_pid e ≠ p) es → waited y p l a → waited (sys_run y es) p l a.
Proof.
  intros Hl HF (Hinv & Hlev & Ha & Hout). destruct (others_run y p es HF) as [Hl' Ha'].
  split_and!; [by apply sys_run_inv|by rewrite Hl'|by rewrite Ha'|]. intros q Hq. apply (outside_run y p); try done; [by rewrite Hlev|by apply Hout].
Qed.

Lemma waited_exec y p l a e l' a' :
  ev_pid e = p → level_le Pending l → waited y p l a → level_of (sys_exec y e) p = l' → activity_of (sys_exec y e) p = a' →
  waited (sys_exec y e) p l' a'.
Proof.
  intros He Hl (Hinv & Hlev & Ha & Hout) Hl' Ha'. split_and!; [by apply sys_exec_inv|done|done|].
  intros q Hq. apply (outside_stays y p); [done..|by rewrite Hlev|by apply Hout].
Qed.

Lemma waited_next y p l a es e rest l' a' :
  level_le Pending l → waited y p l a → filter (λ e, ev_pid e = p) es = e :: rest →
  (∀ z, waited z p l a → level_of (sys_exec z e) p = l' ∧ activity_of (sys_exec z e) p = a') →
  ∃ z es', waited z p l' a' ∧ filter (λ e, ev_pid e = p) es' = rest ∧ sys_run y es = sys_run z es'.
Proof.
  intros Hl Hw (pre & post & -> & Hpre & He & Hpost)%next_event Hstep.
  exists (sys_exec (sys_run y pre) e), post. pose proof (waited_run y p l a pre Hl Hpre Hw) as Hw'.
  destruct (Hstep _ Hw') as [Hl' Ha']. split_and!; [by apply (waited_exec _ p l a)|done|]. by rewrite sys_run_app.
Qed.

(** The calls of an attempt at EXCLUSIVE, wherever the others come between. *)
Lemma waited_exclusive y p es :
  waited y p Pending Idle →
  filter (λ e, ev_pid e = p) es = [Begin p Exclusive; Advance p; Advance p; Advance p] →
  waited (sys_run y es) p Exclusive Idle.
Proof.
  set (c := Call (Some F_WRLCK) SHARED_FIRST SHARED_SIZE).
  assert (Hadv : ∀ z l a l' a', (∃ k, advance (sy_kernel z) {| fl_pid := p; fl_level := l |} a = (k, ({| fl_pid := p; fl_level := l' |}, a'))) →
            waited z p l a → level_of (sys_exec z (Advance p)) p = l' ∧ activity_of (sys_exec z (Advance p)) p = a').
  { intros z l a l' a' [k Hz] (_ & Hl & Ha & _). rewrite <- Hl, <- Ha in Hz.
    by destruct (exec_advance _ _ _ _ _ Hz) as (_ & -> & ->). }
  assert (Hpp : level_le Pending Pending) by (unfold level_le; lia). assert (Hpe : level_le Pending Exclusive) by (unfold level_le; cbn; lia).
  intros Hw Hes.
  destruct (waited_next y p _ _ es _ _ Pending (Looping Exclusive) Hpp Hw Hes) as (y1 & es1 & Hw1 & Hes1 & ->).
  { intros z (_ & Hl & Ha & _). by destruct (exec_begin z p Exclusive Ha) as (_ & -> & ->). }
  destruct (waited_next y1 p _ _ es1 _ _ Pending (Calling Exclusive Exclusive c []) Hpp Hw1 Hes1) as (y2 & es2 & Hw2 & Hes2 & ->).
  { intros z Hz. apply (Hadv z Pending (Looping Exclusive)); [|exact Hz]. by eexists. }
  destruct (waited_next y2 p _ _ es2 _ _ Exclusive (Looping Exclusive) Hpp Hw2 Hes2) as (y3 & es3 & Hw3 & Hes3 & ->).
  { intros z Hz. apply (Hadv z Pending (Calling Exclusive Exclusive c [])); [|exact Hz]. cbn [advance fl_pid].
    destruct Hz as ([Hc Hk] & _ & _ & Hout). unfold run_call, fcntl_lock.
    assert (is_Some (setlk (sy_kernel z) p (c_kind c) (c_start c) (c_len c))) as [k ->]; [|by eexists].
    apply setlk_ok. intros q b Hq Hb. destruct (Hout q Hq) as [Hl _].
    rewrite (proc_holds_level _ _ _ _ b (Hk q)), Hl by (cbn in Hb; unfold SHARED_FIRST in Hb; lia).
    replace (level_holds Unlocked b) with (@None lock_kind); [done|]. clear. revert b. level_cases. }
  destruct (waited_next y3 p _ _ es3 _ _ Exclusive Idle Hpe Hw3 Hes3) as (y4 & es4 & Hw4 & Hes4 & ->).
  { intros z Hz. apply (Hadv z Exclusive (Looping Exclusive)); [|exact Hz]. by eexists. }
  apply waited_run; [exact Hpe| |done]. apply Forall_forall. intros e He Hp.
  assert (e ∈ filter (λ e, ev_pid e = p) es4) as Hin by (by apply list_elem_of_filter).
  rewrite Hes4 in Hin. by apply elem_of_nil in Hin.
Qed.

(** A writer at PENDING keeps new readers out. *)
Lemma pending_blocks k p q l :
  compatible k → consistent k p l → level_le Pending l → p ≠ q → consistent k q Unlocked →
  set_level k {| fl_pid := q; fl_level := Unlocked |} Shared
  = (k, {| fl_pid := q; fl_level := Unlocked |}, false).
Proof.
  intros Hc Hk Hl Hne Hq. unfold set_level. cbn [up_loop fl_level].
  rewrite decide_True by (unfold level_lt; cbn; lia).
  unfold step_up. step_simpl.
  destruct (setlk k q (Some F_RDLCK) PENDING_BYTE 1) as [k'|] eqn:Hs; [|done]. exfalso.
  pose proof (proj1 (setlk_ok k q (Some F_RDLCK) PENDING_BYTE 1) ltac:(eauto)) as Hok.
  specialize (Hok p PENDING_BYTE Hne ltac:(lia)).
  rewrite Hk, level_holds_pending in Hok by done. done.
Qed.

(** With nobody else holding anything, any level can be reached. *)
Lemma set_level_alone k s target :
  compatible k → consistent k (fl_pid s) (fl_level s) →
  (∀ q b, q ≠ fl_pid s → holds k q b = None) →
  ∃ k' s', set_level k s target = (k', s', true).
Proof.
  intros Hc Hk Halone.
  assert (Hup : ∀ fuel k s, compatible k → consistent k (fl_pid s) (fl_level s) →
            (∀ q b, q ≠ fl_pid s → holds k q b = None) →
            ∃ k' s', up_loop fuel k s target = (k', s', true)).
  { clear. induction fuel as [|fuel IH]; intros k s Hc Hk Ha; cbn [up_loop]; [eauto|].
    case_decide; [|eauto].
    assert (Hset : ∀ k1 kd a n, (∀ q b, q ≠ fl_pid s → holds k1 q b = None) →
               ∃ k2, setlk k1 (fl_pid s) kd a n = Some k2 ∧
                     ∀ q b, q ≠ fl_pid s → holds k2 q b = None).
    { intros k1 kd a n Ha1. assert (is_Some (setlk k1 (fl_pid s) kd a n)) as [k2 Hk2].
      { apply setlk_ok. intros q b Hq _. rewrite Ha1 by done. by destruct kd as [[]|]. }
      exists k2. split; [done|]. intros q b Hq. rewrite (setlk_holds _ _ _ _ _ _ q b Hk2).
      rewrite decide_False by (by intros [? _]). by apply Ha1. }
    pose proof (step_up_after k s Hc Hk) as Hst.
    assert (∃ k1 l1, step_up k s = (k1, with_level s l1, true)
              ∧ ∀ q b, q ≠ fl_pid s → holds k1 q b = None) as (k1 & l1 & Hs & Ha1).
    { unfold step_up. destruct (fl_level s) eqn:Hl; step_simpl.
      - destruct (Hset k (Some F_RDLCK) PENDING_BYTE 1 Ha) as (k1 & -> & Ha1). cbn [ok_or].
        destruct (Hset k1 None PENDING_BYTE 1 Ha1) as (k2 & -> & Ha2). cbn [ok_or].
        destruct (Hset k2 (Some F_RDLCK) SHARED_FIRST SHARED_SIZE Ha2) as (k3 & -> & Ha3). eauto.
      - destruct (Hset k (Some F_WRLCK) RESERVED_BYTE 1 Ha) as (k1 & -> & Ha1). eauto.
      - destruct (Hset k (Some F_WRLCK) PENDING_BYTE 1 Ha) as (k1 & -> & Ha1). eauto.
      - destruct (Hset k (Some F_WRLCK) SHARED_FIRST SHARED_SIZE Ha) as (k1 & -> & Ha1). eauto.
      - exists k, Exclusive. split; [|done]. unfold with_level. rewrite <- Hl. by destruct s. }
    rewrite Hs in *. destruct Hst as (Hc1 & Hk1 & _ & _). by apply IH. }
  unfold set_level. pose proof (up_loop_after 5 k s target Hc Hk) as Ha.
  destruct (Hup 5%nat k s Hc Hk Halone) as (k1 & s1 & Hu). rewrite Hu in *.
  destruct Ha as (Hc1 & Hk1 & Hp1 & _).
  pose proof (level_rank_bounds target). pose proof (level_rank_bounds (fl_level s1)).
  destruct (down_loop_spec 5 k1 s1 target Hc1) as (k' & s' & -> & _); [by rewrite Hp1|lia|].
  eauto.
Qed.
End ladder.

(** ** A kernel

    An executable table of record locks that obeys the laws. *)

Abbreviation lock_table := (gmap (Z * Z) lock_kind).

Definition table_conflict (kind : option lock_kind) (h : lock_kind) : Prop :=
  match kind, h with
  | None, _ => False
  | Some F_RDLCK, F_RDLCK => False
  | _, _ => True
  end.

#[global] Instance table_conflict_dec kind h : Decision (table_conflict kind h).
Proof. destruct kind as [[]|], h; cbn; apply _. Defined.

Definition table_set (k : lock_table) (p : Z) (kind : option lock_kind) (bs : list Z) : lock_table :=
  foldr (λ b m, partial_alter (λ _, kind) (p, b) m) k bs.

Definition table_setlk (k : lock_table) (p : Z) (kind : option lock_kind) (start len : Z)
  : option lock_table :=
  if decide (map_Forall (λ (pb : Z * Z) h,
       ¬ (pb.1 ≠ p ∧ start ≤ pb.2 < start + len ∧ table_conflict kind h)) k)
  then Some (table_set k p kind (seqZ start len)) else None.

Definition table_getlk (k : lock_table) (p b : Z) : bool :=
  negb (bool_decide (map_Forall (λ (pb : Z * Z) (_ : lock_kind), ¬ (pb.1 ≠ p ∧ pb.2 = b)) k)).

Lemma table_set_lookup k p kind bs q b :
  table_set k p kind bs !! (q, b) = if decide (q = p ∧ b ∈ bs) then kind else k !! (q, b).
Proof.
  induction bs as [|x bs IH]; cbn [table_set foldr].
  - rewrite decide_False; [done|]. by intros [_ ?%elem_of_nil].
  - fold (table_set k p kind bs). destruct (decide ((p, x) = (q, b))) as [Heq|Hne].
    + injection Heq as <- <-. rewrite lookup_partial_alter_eq.
      by rewrite decide_True by (split; [done|apply list_elem_of_here]).
    + rewrite lookup_partial_alter_ne, IH by done.
      destruct (decide (q = p ∧ b ∈ bs)) as [[-> Hin]|Hn].
      * by rewrite decide_True by (split; [done|by apply list_elem_of_further]).
      * rewrite decide_False; [done|]. intros [-> [->|?]%elem_of_cons]; [done|by apply Hn].
Qed.

#[export] Program Instance table_fcntl : Fcntl lock_table := {
  holds k p b := k !! (p, b);
  setlk := table_setlk;
  getlk := table_getlk;
}.
Next Obligation.
  intros k p kind start len. cbn. unfold table_setlk. split.
  - case_decide as Hd; [|by intros []]. intros _ q b Hq Hb.
    destruct (k !! (q, b)) as [h|] eqn:E; [|by destruct kind as [[]|]].
    specialize (Hd _ _ E). cbn in Hd. destruct kind as [[]|], h; cbn in *; tauto.
  - intros Hall. rewrite decide_True; [eauto|].
    intros [q b] h Hh (Hq & Hb & Hconf). cbn in *. specialize (Hall q b Hq Hb).
    rewrite Hh in Hall. destruct kind as [[]|], h; cbn in *; tauto.
Qed.
Next Obligation.
  intros k p kind start len k' q b. cbn. unfold table_setlk. case_decide; [|done]. intros [= <-].
  rewrite table_set_lookup.
  destruct (decide (q = p ∧ b ∈ seqZ start len)) as [[-> Hin%elem_of_seqZ]|Hn].
  - rewrite decide_True; [done|]. split; [done|lia].
  - rewrite decide_False; [done|]. intros [-> Hb]. apply Hn. split; [done|].
    apply elem_of_seqZ. lia.
Qed.
Next Obligation.
  intros k p b. cbn. unfold table_getlk. rewrite negb_true_iff, bool_decide_eq_false. split.
  - intros ([q b'] & h & Hh & Hn)%map_not_Forall; [|apply _]. cbn in Hn.
    apply dec_stable in Hn as [Hq ->]. exists q. split; [done|]. rewrite Hh. eauto.
  - intros (q & Hq & [h Hh]) Hall. specialize (Hall _ _ Hh). cbn in Hall. tauto.
Qed.

(** ** The Unix backend's lock guard *)

(** [UnixLockGuard]: the shared [FileLockState] and the path errors name;
    [to_lock_error] reports contention as [Locked]. *)
Record UnixLockGuard (K : Type) : Type := UnixLock {
  ug_kernel : K; ug_lock : FileLockState; ug_path : string;
}.
Arguments UnixLock {_} _ _ _.
Arguments ug_kernel {_} _.
Arguments ug_lock {_} _.
Arguments ug_path {_} _.

#[export] Instance UnixFileLock `{Fcntl K} : FileLock (UnixLockGuard K) := {
  lock_set_level g target :=
    let '(k, s, ok) := set_level (ug_kernel g) (ug_lock g) target in
    ((if ok : bool then Ok () else Err (Locked (ug_path g))), UnixLock k s (ug_path g));
  lock_check_reserved g := Ok (check_reserved (ug_kernel g) (ug_lock g));
}.

(** ** Properties *)

Lemma sys_run_reachable {K : Type} {F : Fcntl K} (y : @system K) (es : list event) : sys_reachable y → sys_reachable (sys_run y es).
Proof. revert y. induction es as [|e es IH]; intros y Hy; [done|]. cbn. by apply IH, sys_next. Qed.

(** The system in which no process has begun, over the executable kernel. *)
Definition no_locks : @system lock_table := {| sy_kernel := ∅; sy_proc := ∅ |}.

Lemma no_locks_reachable : sys_reachable no_locks.
Proof. apply sys_init. intros p b. apply lookup_empty. Qed.

(** C22: Mutual exclusion of the lock ladder, by induction on the events of
    the system.  However the system calls of the processes interleave,
    successful or not, each process holds exactly the byte ranges of its
    level, and beyond them only the read lock on the pending byte while it
    probes for a new SHARED; a process between two [set_level]s holds exactly
    those of its level; a process at EXCLUSIVE excludes every other process
    from every level; and at most one process is at RESERVED or above. *)
Theorem lock_mutual_exclusion {K : Type} {F : Fcntl K} (y : @system K) (Hy : sys_reachable y) :
  (∀ p b, holds (sy_kernel y) p b = proc_holds (level_of y p) (activity_of y p) b) ∧
  (∀ p, activity_of y p = Idle → consistent (sy_kernel y) p (level_of y p)) ∧
  (∀ p q, p ≠ q → level_of y p = Exclusive → level_of y q = Unlocked) ∧
  (∀ p q, p ≠ q → level_le Reserved (level_of y p) → level_le (level_of y q) Shared).
Proof.
  apply sys_reachable_inv in Hy as Hinv. split_and!.
  - intros p. apply Hinv.
  - intros p Ha b. destruct Hinv as [_ Hk]. destruct (Hk p) as [_ Hh]. by rewrite Hh, Ha, not_probing.
  - intros p q. by apply sys_exclusive.
  - intros p q. by apply sys_reserved.
Qed.

(** A reader that comes while a writer goes up, its calls between the
    writer's. *)
Definition lock_example : @system lock_table :=
  sys_run no_locks (Begin 1 Exclusive :: replicate 6 (Advance 1) ++ [Begin 2 Shared; Advance 2; Advance 2; Advance 1; Advance 2] ++
                    replicate 4 (Advance 1) ++ [Advance 2] ++ replicate 9 (Advance 1)).

Lemma lock_mutual_exclusion_witness :
  level_of lock_example 1 = Exclusive ∧ level_of lock_example 2 = Unlocked.
Proof.
  assert (Hr : sys_reachable lock_example) by (apply sys_run_reachable, no_locks_reachable).
  assert (H1 : level_of lock_example 1 = Exclusive) by (vm_compute; reflexivity).
  split; [exact H1|].
  destruct (lock_mutual_exclusion lock_example Hr) as (_ & _ & H & _).
  apply (H 1 2); [lia|exact H1].
Defined.

(** What [set_level] guarantees.  On success the held level is the
    target; on failure (only ever on the way up) it is some level between the
    old one and the target, never a half-acquired state: the process's byte
    locks are those of its recorded level, and no other process's locks
    changed.  Releasing never fails, and when no other process holds a lock
    any level is reached. *)
Theorem set_level_correct {K : Type} {F : Fcntl K} (k : K) (s : FileLockState) (target : LockLevel)
    (Hc : compatible k) (Hk : consistent k (fl_pid s) (fl_level s)) :
  let '(k', s', ok) := set_level k s target in
  compatible k' ∧ consistent k' (fl_pid s) (fl_level s') ∧
  (∀ q b, q ≠ fl_pid s → holds k' q b = holds k q b) ∧
  (ok = true → fl_level s' = target) ∧
  (ok = false → level_le (fl_level s) (fl_level s') ∧ level_lt (fl_level s') target) ∧
  (level_le target (fl_level s) → ok = true) ∧
  ((∀ q b, q ≠ fl_pid s → holds k q b = None) → ok = true).
Proof.
  pose proof (set_level_spec k s target Hc Hk) as Hs.
  assert (Halone : (∀ q b, q ≠ fl_pid s → holds k q b = None) →
                   ∃ k' s', set_level k s target = (k', s', true))
    by (by apply set_level_alone).
  destruct (set_level k s target) as [[k' s'] ok].
  destruct Hs as ((? & ? & ? & ?) & ? & ? & ?). split_and!; try done.
  intros Ha. destruct (Halone Ha) as (? & ? & [= _ _ ->]). done.
Qed.

(** C23: A waiting writer makes progress.  Let a process wait at PENDING while
    the others make any system calls of any [set_level]s in any order.  A
    process is outside when it holds no lock and is not past the probe of the
    pending byte; a reader that probed before the writer took PENDING still
    gets in.  As soon as each other process has been outside once, the
    writer's next attempt at EXCLUSIVE succeeds wherever the calls of the
    others come between its own: those that tried to read again were kept out. *)
Theorem pending_writer_progress {K : Type} {F : Fcntl K} (y : @system K) (p : Z) (es attempt : list event) :
  sys_reachable y → level_of y p = Pending → activity_of y p = Idle → Forall (λ e, ev_pid e ≠ p) es →
  (∀ q, q ≠ p → ∃ n, outside (sys_run y (take n es)) q) →
  filter (λ e, ev_pid e = p) attempt = [Begin p Exclusive; Advance p; Advance p; Advance p] →
  let z := sys_run y (es ++ attempt) in
  level_of z p = Exclusive ∧ activity_of z p = Idle ∧ ∀ q, q ≠ p → level_of z q = Unlocked.
Proof.
  intros Hy%sys_reachable_inv Hl Ha HF Hout Hatt z. subst z. rewrite sys_run_app.
  destruct (others_run y p es HF) as [Hl' Ha'].
  assert (Hw : waited (sys_run y es) p Pending Idle).
  { split_and!; [by apply sys_run_inv|by rewrite Hl'|by rewrite Ha'|]. intros q Hq. destruct (Hout q Hq) as [n Hn].
    rewrite <- (take_drop n es) in HF |- *. apply Forall_app in HF as [HF1 HF2]. rewrite sys_run_app.
    apply (outside_run _ p); [by apply sys_run_inv|done| |done|done].
    destruct (others_run y p (take n es) HF1) as [-> _]. rewrite Hl. unfold level_le. lia. }
  destruct (waited_exclusive _ p attempt Hw Hatt) as (_ & -> & -> & Hq). split_and!; [done|done|].
  intros q Hne. by destruct (Hq q Hne).
Qed.

(** Process 2 reads; process 3 has probed when process 1 takes PENDING, and
    still gets SHARED.  Both finish, and come back in vain before and during
    the writer's attempt. *)
Definition progress_start : @system lock_table :=
  sys_run no_locks (Begin 2 Shared :: replicate 5 (Advance 2) ++ Begin 3 Shared :: replicate 3 (Advance 3) ++
                    Begin 1 Pending :: replicate 9 (Advance 1)).
Definition progress_others : list event :=
  [Advance 3; Advance 3] ++ Begin 2 Unlocked :: replicate 3 (Advance 2) ++ Begin 3 Unlocked :: replicate 3 (Advance 3) ++
  Begin 2 Shared :: replicate 2 (Advance 2).
Definition progress_attempt : list event :=
  [Begin 3 Shared; Begin 1 Exclusive; Advance 3; Advance 1; Advance 3; Begin 2 Shared; Advance 1; Advance 2; Advance 2; Advance 1].

Lemma pending_writer_progress_witness :
  level_of progress_start 3 = Unlocked ∧
  level_of (sys_run progress_start [Advance 3]) 3 = Shared ∧ level_of (sys_run progress_start [Advance 3]) 1 = Pending ∧
  level_of (sys_run progress_start (progress_others ++ progress_attempt)) 1 = Exclusive.
Proof.
  do 3 (split; [vm_compute; reflexivity|]).
  apply pending_writer_progress.
  - apply sys_run_reachable, no_locks_reachable.
  - vm_compute; reflexivity.
  - vm_compute; reflexivity.
  - unfold progress_others. repeat (apply Forall_cons; split; [cbn; lia|]). apply Forall_nil_2.
  - intros q Hne. exists (length progress_others). rewrite firstn_all. destruct (decide (q = 2)) as [->|H2]; [vm_compute; done|].
    destruct (decide (q = 3)) as [->|H3]; [vm_compute; done|].
    unfold progress_others, progress_start. rewrite <- sys_run_app.
    match goal with |- outside (sys_run no_locks ?es) q =>
      destruct (others_run no_locks q es) as [Hl Ha]; [repeat (apply Forall_cons; split; [cbn; congruence|]); apply Forall_nil_2|] end.
    unfold outside. rewrite Hl, Ha. split; reflexivity.
  - vm_compute; reflexivity.
Defined.
