(* ===== verification/Pager.v ===== *)
(** * The pager ([row/pager/mod.rs], [row/pager/error.rs])

    Page access over the database file with the dirty-page buffer, the WAL
    overlay and the page cache; commit by rollback journal and by WAL;
    rollback; freelist allocation; and opening a database, with hot-journal
    recovery.  File operations are emitted as a trace, so a crash can be
    placed between any two of them.  The [-shm] coordination is that of the
    in-memory backend (the trait's default methods, which do nothing). *)

From S2P Require Import Prelude Text Vfs Header Journal Wal Freelist PageCache Lock.

Inductive PagerError : Type :=
| HotJournal (path : string)
| PJournal (source : JournalError)
| PWal (path : string) (source : WalError)
| PPage (source : PageError)
| PVfs (source : VfsError)
| PFreelist (source : FreelistError)
| PendingTransaction
| CheckpointIncomplete.

Definition PAGE_COUNT_OFFSET : Z := 28.
Definition FREELIST_TRUNK_PAGE_OFFSET : Z := 32.
Definition FREELIST_PAGE_COUNT_OFFSET : Z := 36.

Definition read_be_u32 (buf : bytes) (offset : Z) : result FreelistError Z :=
  ok_or (read_be 4 buf offset) (PageTooShort offset (zlen buf)).

Definition write_be_u32 (buf : bytes) (offset value : Z) : result FreelistError bytes :=
  ok_or (put_range buf offset (be_bytes 4 value)) (PageTooShort offset (zlen buf)).

Definition journal_to_pager_error (e : JournalError) : PagerError :=
  match e with JVfs source => PVfs source | other => PJournal other end.

Definition journal_mode_from_page1 (page1 : bytes) : JournalMode :=
  if decide (get_range page1 18 20 = Some [2; 2]) then WalMode else Legacy.

Definition patch_journal_mode_bytes (page1 : bytes) (value : bytes) : result PagerError bytes :=
  ok_or (put_range page1 18 value) (PPage (ShortRead 1 20 (zlen page1))).

(** The error conversions of [?] into [PagerError]. *)
Definition p_page {A} (r : result PageError A) : result PagerError A := map_err PPage r.
Definition p_free {A} (r : result FreelistError A) : result PagerError A := map_err PFreelist r.
Definition p_vfs {A} (r : result VfsError A) : result PagerError A := map_err PVfs r.

Definition t_map_err {E F A} (f : E → F) (m : traced E A) : traced F A := (m.1, map_err f m.2).

Section pager.
Context (le : bool) `{FileLock L}.

Record Pager : Type := {
  pg_lock : L;
  pg_tx_lock_level : LockLevel;
  pg_wal_resume : option WalResumeHint;
  pg_wal_pages : gmap Z bytes;
  pg_dirty : gmap Z bytes;
  pg_cache : PageCache;
  pg_page_size : Z;
  pg_db_path : string;
  pg_journal_path : string;
  pg_journal_mode : JournalMode;
  pg_synchronous : SynchronousMode;
}.

Definition set_lock (p : Pager) (l : L) : Pager :=
  {| pg_lock := l; pg_tx_lock_level := pg_tx_lock_level p; pg_wal_resume := pg_wal_resume p;
     pg_wal_pages := pg_wal_pages p; pg_dirty := pg_dirty p; pg_cache := pg_cache p;
     pg_page_size := pg_page_size p; pg_db_path := pg_db_path p;
     pg_journal_path := pg_journal_path p; pg_journal_mode := pg_journal_mode p;
     pg_synchronous := pg_synchronous p |}.
Definition set_tx_level (p : Pager) (l : LockLevel) : Pager :=
  {| pg_lock := pg_lock p; pg_tx_lock_level := l; pg_wal_resume := pg_wal_resume p;
     pg_wal_pages := pg_wal_pages p; pg_dirty := pg_dirty p; pg_cache := pg_cache p;
     pg_page_size := pg_page_size p; pg_db_path := pg_db_path p;
     pg_journal_path := pg_journal_path p; pg_journal_mode := pg_journal_mode p;
     pg_synchronous := pg_synchronous p |}.
Definition set_dirty (p : Pager) (m : gmap Z bytes) : Pager :=
  {| pg_lock := pg_lock p; pg_tx_lock_level := pg_tx_lock_level p;
     pg_wal_resume := pg_wal_resume p;
     pg_wal_pages := pg_wal_pages p; pg_dirty := m; pg_cache := pg_cache p;
     pg_page_size := pg_page_size p; pg_db_path := pg_db_path p;
     pg_journal_path := pg_journal_path p; pg_journal_mode := pg_journal_mode p;
     pg_synchronous := pg_synchronous p |}.
Definition set_cache (p : Pager) (c : PageCache) : Pager :=
  {| pg_lock := pg_lock p; pg_tx_lock_level := pg_tx_lock_level p;
     pg_wal_resume := pg_wal_resume p;
     pg_wal_pages := pg_wal_pages p; pg_dirty := pg_dirty p; pg_cache := c;
     pg_page_size := pg_page_size p; pg_db_path := pg_db_path p;
     pg_journal_path := pg_journal_path p; pg_journal_mode := pg_journal_mode p;
     pg_synchronous := pg_synchronous p |}.
Definition set_wal (p : Pager) (m : gmap Z bytes) (hint : option WalResumeHint) : Pager :=
  {| pg_lock := pg_lock p; pg_tx_lock_level := pg_tx_lock_level p; pg_wal_resume := hint;
     pg_wal_pages := m; pg_dirty := pg_dirty p; pg_cache := pg_cache p;
     pg_page_size := pg_page_size p; pg_db_path := pg_db_path p;
     pg_journal_path := pg_journal_path p; pg_journal_mode := pg_journal_mode p;
     pg_synchronous := pg_synchronous p |}.

(** ** Reading *)

(** [self.source.read_page]: the file as the process sees it. *)
Definition source_read (p : Pager) (d : fs) (page_num : Z) : result PageError bytes :=
  let? data := ok_or (read_file d (pg_db_path p)) (PageVfs (NotFound (pg_db_path p))) in
  read_page_at data (pg_page_size p) page_num.

(** The free function [read_page]: WAL overlay, then the file. *)
Definition read_page (p : Pager) (d : fs) (page_num : Z) : result PageError bytes :=
  match pg_wal_pages p !! page_num with
  | Some page => Ok page
  | None => source_read p d page_num
  end.

(** [PageSource::read_page].  A buffer recycled from an evicted page is
    fully overwritten by the read, so it is not distinguished from a fresh
    one. *)
Definition Pager_read_page (p : Pager) (d : fs) (page_num : Z)
  : result PageError bytes * Pager :=
  match pg_dirty p !! page_num with
  | Some page => (Ok page, p)
  | None =>
      match pg_wal_pages p !! page_num with
      | Some page => (Ok page, p)
      | None =>
          let '(hit, c) := PageCache_get (pg_cache p) page_num in
          match hit with
          | Some page => (Ok page, set_cache p c)
          | None =>
              let '(_, c) := evict_one_if_full c in
              match source_read p d page_num with
              | Err e => (Err e, set_cache p c)
              | Ok bs => (Ok bs, set_cache p (PageCache_insert c page_num bs))
              end
          end
      end
  end.

(** [get_page_mut]: afterwards the page is dirty; the caller edits the
    returned buffer in place, which [write_dirty] stores. *)
Definition get_page_mut (p : Pager) (d : fs) (page_num : Z) : result PagerError bytes * Pager :=
  let p := set_cache p (PageCache_invalidate (pg_cache p) page_num) in
  match pg_dirty p !! page_num with
  | Some page => (Ok page, p)
  | None =>
      match p_page (read_page p d page_num) with
      | Ok page => (Ok page, set_dirty p (<[page_num := page]> (pg_dirty p)))
      | Err e => (Err e, p)
      end
  end.

Definition write_dirty (p : Pager) (page_num : Z) (bs : bytes) : Pager :=
  set_dirty p (<[page_num := bs]> (pg_dirty p)).

(** ** Locks held by transactions *)

Definition p_set_level (p : Pager) (l : LockLevel) : result PagerError () * Pager :=
  let '(r, lk) := lock_set_level (pg_lock p) l in (p_vfs r, set_lock p lk).

Definition begin_immediate (p : Pager) : result PagerError () * Pager :=
  match p_set_level p Reserved with
  | (Ok _, p) => (Ok (), set_tx_level p Reserved)
  | (Err e, p) => (Err e, p)
  end.

Definition begin_exclusive (p : Pager) : result PagerError () * Pager :=
  match p_set_level p Exclusive with
  | (Ok _, p) => (Ok (), set_tx_level p Exclusive)
  | (Err e, p) => (Err e, p)
  end.

Definition release_tx_lock (p : Pager) : result PagerError () * Pager :=
  if decide (level_lt Shared (pg_tx_lock_level p)) then
    match p_set_level p Shared with
    | (Ok _, p) => (Ok (), set_tx_level p Shared)
    | (Err e, p) => (Err e, p)
    end
  else (Ok (), p).

Definition rollback (p : Pager) : result PagerError () * Pager :=
  release_tx_lock (set_dirty p ∅).

(** ** Commit by rollback journal *)

(** [dirty.keys()], sorted. *)
Definition dirty_pages (p : Pager) : list Z := merge_sort Z.le (fst <$> map_to_list (pg_dirty p)).

(** The pre-images to journal, read from the database file. *)
Fixpoint journal_pages (p : Pager) (d : fs) (w : JournalWriter) (index : Z) (pages : list Z)
  : traced PagerError () :=
  match pages with
  | [] => t_ok ()
  | page_num :: pages =>
      let! original := t_lift (p_page (source_read p d page_num)) in
      let! _ := t_map_err journal_to_pager_error
                  (JournalWriter_write_record w index page_num original) in
      journal_pages p d w (index + 1) pages
  end.

Fixpoint write_pages (p : Pager) (pages : list Z) : traced PagerError () :=
  match pages with
  | [] => t_ok ()
  | page_num :: pages =>
      let! _ := (match pg_dirty p !! page_num with
                 | Some bs =>
                     let! offset := t_lift (p_page (write_page_check (pg_page_size p) page_num bs)) in
                     t_emit [WriteAt (pg_db_path p) offset bs]
                 | None => t_ok ()
                 end) in
      write_pages p pages
  end.

Definition flush_locked (p : Pager) (d : fs) (nonce : Z) : traced PagerError Pager :=
  let page_nums := dirty_pages p in
  let! page1 := t_lift (p_page (source_read p d 1)) in
  let! initial_page_count := t_lift (p_free (read_be_u32 page1 PAGE_COUNT_OFFSET)) in
  let to_journal := filter (λ n, n ≤ initial_page_count) page_nums in
  let! _ :=
    (if decide (to_journal ≠ []) then
       let! w := t_map_err journal_to_pager_error
         (JournalWriter_create (pg_journal_path p) (pg_page_size p) (pg_page_size p)
            initial_page_count (wrap32 (zlen to_journal)) nonce) in
       let! _ := journal_pages p d w 0 to_journal in
       if decide (pg_synchronous p ≠ SyncOff)
       then t_map_err journal_to_pager_error (JournalWriter_sync w)
       else t_ok ()
     else t_ok ()) in
  let! _ := write_pages p page_nums in
  let! _ := (if decide (pg_synchronous p = SyncFull) then t_emit [SyncF (pg_db_path p)]
             else t_ok ()) in
  let! _ := (if decide (to_journal ≠ []) then t_emit [DeleteF (pg_journal_path p)]
             else t_ok ()) in
  t_ok (set_dirty p ∅).

(** ** Commit by WAL *)

Definition append_dirty (p : Pager) (w : WalWriter) (page_nums : list Z) (post_page_count : Z)
  : WalWriter :=
  let last_index := sat_sub (zlen page_nums) 1 in
  foldl (λ w ip,
    match pg_dirty p !! ip.2 with
    | Some bs =>
        WalWriter_append_frame le w ip.2 bs
          (if decide (ip.1 = last_index) then post_page_count else 0)
    | None => w
    end) w (imap (λ i n, (Z.of_nat i, n)) page_nums).

(** [recreate_wal_locked]: a fresh log and [-shm] file.
    [fresh_shm] stands for [shm::fresh_shm_bytes()]. *)
Definition create_wal (p : Pager) (salt1 salt2 : Z) (fresh_shm : bytes) : traced PagerError WalWriter :=
  let wal_path := companion_path (pg_db_path p) "-wal" in
  let shm_path := companion_path (pg_db_path p) "-shm" in
  let header := WalHeader_new le true (pg_page_size p) salt1 (Z.lxor salt2 0x5A5A5A5A) 1 in
  let! w := t_map_err (PWal wal_path) (WalWriter_create wal_path header) in
  let! _ := t_emit [CreateOrOpen shm_path; WriteAt shm_path 0 fresh_shm; SyncF shm_path] in
  t_ok w.

Definition flush_wal_locked (p : Pager) (d : fs) (salt1 salt2 : Z) (fresh_shm : bytes)
  : traced PagerError Pager * Pager :=
  let page_nums := dirty_pages p in
  let wal_path := companion_path (pg_db_path p) "-wal" in
  let '(page1, p) := Pager_read_page p d 1 in
  let outcome :=
    let! page1 := t_lift (p_page page1) in
    let! post_page_count := t_lift (p_free (read_be_u32 page1 PAGE_COUNT_OFFSET)) in
    let! w :=
      (match WalWriter_open_existing le d wal_path (pg_page_size p) (pg_wal_resume p) with
       | Ok w => t_ok w
       | Err (WalVfs (NotFound _)) => create_wal p salt1 salt2 fresh_shm
       | Err source => t_lift (Err (PWal wal_path source))
       end) in
    let w := append_dirty p w page_nums post_page_count in
    let! w := (if decide (pg_synchronous p = SyncFull)
               then t_map_err (PWal wal_path) (WalWriter_sync w) else t_ok w) in
    t_ok (set_dirty (set_wal p (pg_dirty p ∪ pg_wal_pages p) (Some (WalWriter_resume_hint w))) ∅) in
  (outcome, p).

(** ** [flush] *)

(** The trace, the result, and the pager afterwards. *)
Definition flush (p : Pager) (d : fs) (nonce salt1 salt2 : Z) (fresh_shm : bytes)
  : list io * result PagerError () * Pager :=
  if decide (pg_dirty p = ∅) then
    let '(r, p) := release_tx_lock p in ([], r, p)
  else if decide (pg_journal_mode p = WalMode) then
    let '((ops, result), p) := flush_wal_locked p d salt1 salt2 fresh_shm in
    let p := match result with Ok p => p | Err _ => p end in
    let '(r, p) := release_tx_lock p in
    (ops, match r with Err e => Err e | Ok _ => match result with Ok _ => Ok () | Err e => Err e end end, p)
  else
    match p_set_level p Exclusive with
    | (Err e, p) => ([], Err e, p)
    | (Ok _, p) =>
        let '(ops, result) := flush_locked p d nonce in
        let p := match result with Ok p => p | Err _ => p end in
        match p_set_level p Shared with
        | (Err e, p) => (ops, Err e, p)
        | (Ok _, p) =>
            (ops, match result with Ok _ => Ok () | Err e => Err e end, set_tx_level p Shared)
        end
    end.

(** ** Opening a database *)

(** [recover_hot_journal]: replay, truncate, sync, delete. *)
Definition recover_hot_journal (d : fs) (path journal_path : string) : traced PagerError () :=
  let! journal_bytes := t_lift (p_vfs (ok_or (read_file d journal_path) (NotFound journal_path))) in
  let! recovered := t_lift (map_err journal_to_pager_error (recover journal_bytes)) in
  let '(writes, rj) := recovered in
  let! _ := t_emit (map (as_io path) writes) in
  t_emit [TruncateF path (sat_mul (rj_initial_page_count rj) (rj_page_size rj));
          SyncF path; DeleteF journal_path].

Definition read_wal_pages (d : fs) (path : string) (page_size : Z)
  : result PagerError (gmap Z bytes) :=
  let wal_path := companion_path path "-wal" in
  match read_file d wal_path with
  | None => Ok ∅
  | Some bs =>
      if decide (zlen bs < WAL_HEADER_LEN) then Ok ∅
      else
        let? header := map_err (PWal wal_path) (WalHeader_parse le bs) in
        if decide (wh_page_size header ≠ page_size)
        then Err (PWal wal_path (WalInvalidPageSize (wh_page_size header)))
        else Ok (committed_pages le header bs).1
  end.

(** [Pager::open] with the SHARED lock [lk] already taken.  The page-1 read
    and the WAL are those after recovery. *)
Definition Pager_open (d : fs) (lk : L) (path : string) (page_size : Z) : traced PagerError Pager :=
  let journal_path := companion_path path "-journal" in
  let journal_is_hot :=
    match read_file d journal_path with
    | Some journal => Journal.journal_is_hot journal
    | None => false
    end in
  let! _ := t_lift (p_vfs (ok_or (read_file d path) (NotFound path))) in
  let! lk :=
    (if journal_is_hot then
       let! reserved := t_lift (p_vfs (lock_check_reserved lk)) in
       if reserved then t_lift (Err (PVfs (Locked path)))
       else
         let '(r, lk) := lock_set_level lk Exclusive in
         let! _ := t_lift (p_vfs r) in
         let! _ := recover_hot_journal d path journal_path in
         let '(r, lk) := lock_set_level lk Shared in
         let! _ := t_lift (p_vfs r) in
         t_ok lk
     else t_ok lk) in
  let d := if journal_is_hot
           then exec_ios d (recover_hot_journal d path journal_path).1 else d in
  let! wal_pages := t_lift (read_wal_pages d path page_size) in
  let! page1 := t_lift (p_page (let? data := ok_or (read_file d path) (PageVfs (NotFound path)) in
                                read_page_at data page_size 1)) in
  t_ok {| pg_lock := lk; pg_tx_lock_level := Shared; pg_wal_resume := None;
          pg_wal_pages := wal_pages; pg_dirty := ∅;
          pg_cache := PageCache_new DEFAULT_PAGE_CACHE_CAPACITY;
          pg_page_size := page_size; pg_db_path := path; pg_journal_path := journal_path;
          pg_journal_mode := journal_mode_from_page1 page1; pg_synchronous := SyncFull |}.

(** ** The freelist *)

(** Pager computations that may fail part-way, with the pager after. *)
Definition PM (A : Type) : Type := Pager → fs → result PagerError A * Pager.
Definition pm_ok {A} (a : A) : PM A := λ p _, (Ok a, p).
Definition pm_lift {A} (r : result PagerError A) : PM A := λ p _, (r, p).
Definition pm_bind {A B} (m : PM A) (k : A → PM B) : PM B := λ p d,
  match m p d with
  | (Ok a, p) => k a p d
  | (Err e, p) => (Err e, p)
  end.
Notation "'let*' x := m 'in' k" := (pm_bind m (λ x, k))
  (at level 10, x strict pattern, m at level 100, k at level 200,
   format "'[v' 'let*'  x  :=  m  'in' '/' k ']'").

Definition pm_read (page_num : Z) : PM bytes := λ p d,
  let '(r, p) := Pager_read_page p d page_num in (p_page r, p).

(** [get_page_mut] and an edit of the buffer: the edited buffer is kept,
    also when the edit fails part-way. *)
Definition pm_edit (page_num : Z) (edit : bytes → bytes * result PagerError ()) : PM () := λ p d,
  match get_page_mut p d page_num with
  | (Ok buf, p) => let '(buf, r) := edit buf in (r, write_dirty p page_num buf)
  | (Err e, p) => (Err e, p)
  end.

Definition edit_u32 (offset value : Z) (buf : bytes) : bytes * result PagerError () :=
  match write_be_u32 buf offset value with
  | Ok buf => (buf, Ok ())
  | Err e => (buf, Err (PFreelist e))
  end.

Definition edit_trunk (t : TrunkPage) (buf : bytes) : bytes * result PagerError () :=
  let '(buf, r) := TrunkPage_write t buf in (buf, p_free r).

(** The two header writes after an allocation or a deallocation share one
    borrow of page 1; the second is attempted only if the first succeeds. *)
Definition edit_freelist (trunk count : Z) (buf : bytes) : bytes * result PagerError () :=
  match edit_u32 FREELIST_TRUNK_PAGE_OFFSET trunk buf with
  | (buf, Ok _) => edit_u32 FREELIST_PAGE_COUNT_OFFSET count buf
  | r => r
  end.

Definition pm_insert_zeros (page_num : Z) : PM () := λ p _,
  (Ok (), write_dirty p page_num (zeros (pg_page_size p))).

Definition pm_page_size : PM Z := λ p _, (Ok (pg_page_size p), p).

Definition allocate_page : PM Z :=
  let* header := pm_read 1 in
  let* page_count := pm_lift (p_free (read_be_u32 header PAGE_COUNT_OFFSET)) in
  let* freelist_trunk_page := pm_lift (p_free (read_be_u32 header FREELIST_TRUNK_PAGE_OFFSET)) in
  let* freelist_page_count := pm_lift (p_free (read_be_u32 header FREELIST_PAGE_COUNT_OFFSET)) in
  if decide (freelist_trunk_page = 0) then
    let new_page_num := sat_add32 page_count 1 in
    let* _ := pm_insert_zeros new_page_num in
    let* _ := pm_edit 1 (edit_u32 PAGE_COUNT_OFFSET new_page_num) in
    pm_ok new_page_num
  else
    let* trunk_buf := pm_read freelist_trunk_page in
    let* trunk := pm_lift (p_free (TrunkPage_parse trunk_buf)) in
    let* an :=
      (match last (leaves trunk) with
       | Some leaf =>
           let trunk := {| next_trunk := next_trunk trunk;
                           leaves := take (length (leaves trunk) - 1) (leaves trunk) |} in
           let* _ := pm_edit freelist_trunk_page (edit_trunk trunk) in
           pm_ok (leaf, freelist_trunk_page)
       | None => pm_ok (freelist_trunk_page, next_trunk trunk)
       end) in
    let* _ := pm_edit 1 (edit_freelist an.2 (sat_sub freelist_page_count 1)) in
    pm_ok an.1.

Definition deallocate_page (page_num : Z) : PM () :=
  let* header := pm_read 1 in
  let* freelist_trunk_page := pm_lift (p_free (read_be_u32 header FREELIST_TRUNK_PAGE_OFFSET)) in
  let* freelist_page_count := pm_lift (p_free (read_be_u32 header FREELIST_PAGE_COUNT_OFFSET)) in
  let* page_size := pm_page_size in
  let max_leaves := max_leaves_per_trunk page_size in
  let* new_trunk_page :=
    (if decide (freelist_trunk_page ≠ 0) then
       let* trunk_buf := pm_read freelist_trunk_page in
       let* trunk := pm_lift (p_free (TrunkPage_parse trunk_buf)) in
       if decide (zlen (leaves trunk) < max_leaves) then
         let trunk := {| next_trunk := next_trunk trunk; leaves := leaves trunk ++ [page_num] |} in
         let* _ := pm_edit freelist_trunk_page (edit_trunk trunk) in
         pm_ok freelist_trunk_page
       else
         let* _ := pm_edit page_num
                     (edit_trunk {| next_trunk := freelist_trunk_page; leaves := [] |}) in
         pm_ok page_num
     else
       let* _ := pm_edit page_num (edit_trunk {| next_trunk := 0; leaves := [] |}) in
       pm_ok page_num) in
  pm_edit 1 (edit_freelist new_trunk_page (sat_add32 freelist_page_count 1)).
End pager.

(** ** What a reader sees *)

Section view.
Context (le : bool) `{FileLock L}.
Implicit Types (p : Pager (L := L)) (d : fs) (n : Z).

(** Dirty pages, then the WAL overlay, then the file. *)
Definition view p d n : result PageError bytes :=
  match pg_dirty p !! n with Some b => Ok b | None => read_page p d n end.

(** The cache holds pages of the file, and no dirty page. *)
Definition coherent p d : Prop :=
  (∀ n b, cached (pg_cache p) n = Some b → source_read p d n = Ok b) ∧
  (∀ n, is_Some (pg_dirty p !! n) → cached (pg_cache p) n = None).

(** Fields a read does not touch. *)
Definition same_but_cache p p' : Prop := p' = set_cache p (pg_cache p').

Lemma set_cache_id p : set_cache p (pg_cache p) = p.
Proof. by destruct p. Qed.

Lemma view_same_but_cache p p' d n : same_but_cache p p' → view p' d n = view p d n.
Proof. by intros ->. Qed.

Lemma coherent_cache p d c :
  coherent p d → (∀ n b, cached c n = Some b → cached (pg_cache p) n = Some b) →
  coherent (set_cache p c) d.
Proof.
  intros [Hc Hd] Hsub. split.
  - intros n b Hn. by apply Hc, Hsub.
  - intros n Hn. cbn. destruct (cached c n) as [b|] eqn:E; [|done].
    apply Hsub in E. rewrite Hd in E by done. done.
Qed.

Lemma Pager_read_page_spec p d n :
  coherent p d →
  ∃ p', Pager_read_page p d n = (view p d n, p') ∧ same_but_cache p p' ∧ coherent p' d.
Proof.
  intros Hco. pose proof Hco as [Hc Hd].
  unfold Pager_read_page, view, read_page, same_but_cache.
  destruct (pg_dirty p !! n) as [b|] eqn:Hdn; [exists p; by rewrite set_cache_id|].
  destruct (pg_wal_pages p !! n) as [b|]; [exists p; by rewrite set_cache_id|].
  pose proof (get_cached (pg_cache p) n) as Hg. pose proof (cached_get (pg_cache p) n) as Hcg.
  destruct (PageCache_get (pg_cache p) n) as [hit c]. cbn [fst snd] in *. subst hit.
  destruct (cached (pg_cache p) n) as [b|] eqn:Hn.
  - exists (set_cache p c). rewrite (Hc _ _ Hn). split_and!; [done|done|].
    apply coherent_cache; [done|]. intros m b'. by rewrite Hcg.
  - pose proof (cached_evict_if_full c) as He.
    destruct (evict_one_if_full c) as [v c1]. cbn [snd] in *.
    assert (Hsub : ∀ m b, cached c1 m = Some b → cached (pg_cache p) m = Some b).
    { intros m b Hm. destruct (He m) as [Hm'|Hm']; rewrite Hm' in Hm; [by rewrite <- Hcg|done]. }
    destruct (source_read p d n) as [bs|e] eqn:Hs.
    + exists (set_cache p (PageCache_insert c1 n bs)). split_and!; [done|done|].
      split; cbn [set_cache pg_cache pg_dirty].
      * intros m b [[-> ->]|[Hne Hm]]%cached_insert; [done|].
        change (source_read (set_cache p (PageCache_insert c1 n bs)) d m) with (source_read p d m).
        by apply Hc, Hsub.
      * intros m Hm. destruct (cached (PageCache_insert c1 n bs) m) as [b|] eqn:E; [|done].
        apply cached_insert in E as [[-> ->]|[Hne E]].
        -- rewrite Hdn in Hm. by destruct Hm.
        -- apply Hsub in E. rewrite Hd in E by done. done.
    + exists (set_cache p c1). split_and!; [done|done|]. by apply coherent_cache.
Qed.

Lemma coherent_invalidate p d n :
  coherent p d → coherent (set_cache p (PageCache_invalidate (pg_cache p) n)) d.
Proof.
  intros Hco. apply coherent_cache; [done|]. intros m b. rewrite cached_invalidate.
  by case_decide.
Qed.

Lemma get_page_mut_spec p d n :
  coherent p d →
  ∃ p', get_page_mut p d n = (p_page (view p d n), p') ∧ coherent p' d ∧
    (∀ m, view p' d m = view p d m) ∧
    (∀ b, view p d n = Ok b → pg_dirty p' = <[n := b]> (pg_dirty p)) ∧
    (∀ e, view p d n = Err e → pg_dirty p' = pg_dirty p) ∧
    p' = set_cache (set_dirty p (pg_dirty p')) (PageCache_invalidate (pg_cache p) n).
Proof.
  intros Hco. pose proof (coherent_invalidate p d n Hco) as [Hc Hd].
  unfold get_page_mut. cbn [set_cache pg_dirty].
  unfold view. destruct (pg_dirty p !! n) as [b|] eqn:Hn.
  - eexists. split; [done|]. split_and!; [by apply coherent_invalidate|done| |done|by destruct p].
    intros b' [= ->]. cbn. symmetry. by apply insert_id.
  - change (read_page (set_cache p _) d n) with (read_page p d n).
    destruct (read_page p d n) as [b|e] eqn:Hr; cbn [p_page map_err].
    + eexists. split; [done|]. split_and!; [| | |done|by destruct p].
      * split; [exact Hc|]. intros m. cbn [set_dirty pg_dirty pg_cache set_cache].
        intros Hm. destruct (decide (m = n)) as [->|Hne].
        -- rewrite cached_invalidate. by rewrite decide_True.
        -- rewrite lookup_insert_ne in Hm by congruence. by apply Hd.
      * intros m. cbn [set_dirty pg_dirty set_cache]. destruct (decide (m = n)) as [->|Hne].
        -- rewrite lookup_insert_eq, Hn, Hr. done.
        -- by rewrite lookup_insert_ne by congruence.
      * by intros b' [= ->].
    + eexists. split; [done|].
      split_and!; [by apply coherent_invalidate|done|done|done|by destruct p].
Qed.
End view.
