(* ===== verification/Commit.v ===== *)
(** * Commit by rollback journal: durability and atomicity

    The trace of [Pager::flush_locked] (see [Pager.v]), what the database
    file holds after it, and what [Pager::open] restores after a crash
    between any two of its operations. *)

From S2P Require Import Prelude Text Vfs Header Journal Wal Freelist PageCache Lock Pager.

(** ** Page-aligned writes *)

Definition page_of (ps : Z) (i : nat) : Z := Z.of_nat i / ps + 1.

Definition page_write_ok (ps : Z) (w : Z * bytes) : Prop := page_ok ps w.1 ∧ zlen w.2 = ps.

Lemma page_of_range ps n (i : nat) :
  0 < ps → (n - 1) * ps ≤ Z.of_nat i < (n - 1) * ps + ps ↔ page_of ps i = n.
Proof.
  intros Hps. unfold page_of. pose proof (Z.div_mod (Z.of_nat i) ps).
  pose proof (Z.mod_pos_bound (Z.of_nat i) ps). split; intros.
  - assert (Z.of_nat i / ps = n - 1); [|lia]. symmetry.
    apply (Z.div_unique_pos _ _ _ (Z.of_nat i - (n - 1) * ps)); lia.
  - assert (Z.of_nat i / ps = n - 1) as Hq by lia. rewrite Hq in *. lia.
Qed.

Lemma page_write_fits ps w : page_write_ok ps w →
  0 ≤ (w.1 - 1) * ps ∧ (w.1 - 1) * ps + zlen w.2 ≤ 281474976710656 ∧ 0 < ps.
Proof.
  intros [Hp Hl]. destruct (page_offset_eq _ _ Hp) as (_ & ? & Hb).
  change (2 ^ 48) with 281474976710656 in Hb. destruct Hp. lia.
Qed.

Lemma write_page_lookup ps w D (i : nat) :
  page_write_ok ps w → (i < length D)%nat ∨ page_of ps i = w.1 →
  apply_op D (replay_op ps w) !! i =
  if decide (page_of ps i = w.1) then w.2 !! (i - Z.to_nat ((w.1 - 1) * ps))%nat else D !! i.
Proof.
  intros Hw Hi. destruct (page_write_fits _ _ Hw) as (? & ? & Hps). destruct Hw as [_ Hl].
  cbn [replay_op apply_op].
  assert (Hu : (w.1 - 1) * ps + zlen w.2 ≤ USIZE_MAX) by mlia.
  pose proof (page_of_range ps w.1 i Hps) as Hr.
  rewrite file_write_at_lookup; [|lia|done|].
  - destruct (decide (page_of ps i = w.1)) as [Hp|Hp].
    + rewrite decide_True; [done|]. apply Hr in Hp. lia.
    + rewrite decide_False; [done|]. intros Hx. apply Hp, Hr. lia.
  - destruct Hi as [?|Hp]; [by left|right]. apply Hr in Hp. lia.
Qed.

Lemma write_page_length ps w D :
  page_write_ok ps w →
  zlen D ≤ zlen (apply_op D (replay_op ps w)) ≤ Z.max (zlen D) 281474976710656.
Proof.
  intros Hw. destruct (page_write_fits _ _ Hw) as (? & ? & Hps). cbn [replay_op apply_op].
  rewrite file_write_at_length by mlia. lia.
Qed.

(** Whatever subset of page writes survives, the other pages do. *)
Lemma survives_pages ps ws D0 D :
  survives D0 (map (replay_op ps) ws) D → Forall (page_write_ok ps) ws →
  zlen D0 ≤ zlen D ≤ Z.max (zlen D0) 281474976710656 ∧
  ∀ i, (i < length D0)%nat → page_of ps i ∉ map fst ws → D !! i = D0 !! i.
Proof.
  revert D0. induction ws as [|w ws IH]; intros D0 Hs Hws; cbn [map] in *.
  { inversion Hs; subst. split; [lia|done]. }
  apply Forall_cons in Hws as [Hw Hws].
  inversion Hs as [|? ? ? ? Hk|? ? ? ? Hk]; subst.
  - pose proof (write_page_length ps w D0 Hw) as Hl.
    destruct (IH _ Hk Hws) as [Hlen Hi]. split; [lia|].
    intros i Hlt Hn. rewrite not_elem_of_cons in Hn. destruct Hn as [Hn1 Hn2].
    rewrite Hi by (done || lia). rewrite write_page_lookup by (try done; by left).
    by rewrite decide_False.
  - destruct (IH _ Hk Hws) as [Hlen Hi]. split; [done|].
    intros i Hlt Hn. rewrite not_elem_of_cons in Hn. destruct Hn as [Hn1 Hn2]. by apply Hi.
Qed.

(** Page [n] of a file. *)
Definition page_bytes (data : bytes) (ps n : Z) : bytes :=
  take (Z.to_nat ps) (drop (Z.to_nat ((n - 1) * ps)) data).

Lemma page_bytes_read data ps n :
  page_ok ps n → n * ps ≤ zlen data → read_page_at data ps n = Ok (page_bytes data ps n).
Proof.
  intros Hp Hn. apply read_page_at_Ok; [done|].
  destruct (page_offset_eq ps n Hp) as (_ & ? & _). destruct Hp.
  apply get_range_Some. split_and!; [lia..|]. unfold page_bytes. f_equal. lia.
Qed.

Lemma page_bytes_length data ps n :
  page_ok ps n → n * ps ≤ zlen data → zlen (page_bytes data ps n) = ps.
Proof.
  intros Hp Hn. destruct (page_offset_eq ps n Hp) as (_ & ? & _). destruct Hp.
  unfold page_bytes. rewrite length_take, length_drop. lia.
Qed.

Lemma page_bytes_lookup data ps n (i : nat) :
  page_ok ps n → page_of ps i = n →
  page_bytes data ps n !! (i - Z.to_nat ((n - 1) * ps))%nat = data !! i.
Proof.
  intros Hp Hi. destruct (page_offset_eq ps n Hp) as (_ & ? & _). destruct Hp as [_ Hps].
  apply page_of_range in Hi; [|lia]. unfold page_bytes.
  rewrite lookup_take_lt, lookup_drop by lia. f_equal. lia.
Qed.

(** ** Rolling back *)

(** Replaying pre-images of [data] over a file that differs from it only on
    the replayed pages, then truncating, gives [data]. *)
Lemma replay_restores data ps recs D :
  Forall (λ r, page_ok ps r.1 ∧ r.1 * ps ≤ zlen data ∧ r.2 = page_bytes data ps r.1) recs →
  zlen data ≤ zlen D →
  (∀ i, (i < length data)%nat → D !! i = data !! i ∨ page_of ps i ∈ map fst recs) →
  file_truncate (apply_ops D (map (replay_op ps) recs)) (zlen data) = data.
Proof.
  intros Hrecs. revert D. induction Hrecs as [|r recs (Hp & Hle & Hr) _ IH]; intros D Hlen Hd.
  - cbn [map apply_ops foldl]. unfold file_truncate, resize. rewrite decide_False by lia.
    rewrite Nat2Z.id. apply list_eq. intros i. destruct (decide (i < length data)%nat).
    + rewrite lookup_take_lt by lia. destruct (Hd i ltac:(lia)) as [->|Hin]; [done|].
      by apply elem_of_nil in Hin.
    + rewrite !lookup_ge_None_2; [done|lia|]. rewrite length_take. lia.
  - assert (Hw : page_write_ok ps r) by (split; [done|]; rewrite Hr; by apply page_bytes_length).
    pose proof (write_page_length ps r D Hw) as Hl.
    change (apply_ops D (map (replay_op ps) (r :: recs)))
      with (apply_ops (apply_op D (replay_op ps r)) (map (replay_op ps) recs)).
    apply IH; [lia|]. intros i Hi.
    rewrite write_page_lookup by (try done; left; lia).
    destruct (decide (page_of ps i = r.1)) as [Hpi|Hpi].
    + left. rewrite Hr, <- Hpi. apply page_bytes_lookup; [by rewrite Hpi|done].
    + destruct (Hd i Hi) as [?|Hin]; [by left|right]. cbn in Hin.
      by apply elem_of_cons in Hin as [?|?].
Qed.

(** Replaying pre-images over [data] itself changes nothing. *)
Lemma replay_noop data ps recs :
  Forall (λ r, page_ok ps r.1 ∧ r.1 * ps ≤ zlen data ∧ r.2 = page_bytes data ps r.1) recs →
  file_truncate (apply_ops data (map (replay_op ps) recs)) (zlen data) = data.
Proof. intros. apply replay_restores; [done|lia|by left]. Qed.

(** Applying page writes to distinct pages. *)
Lemma apply_pages ps ws D n :
  Forall (page_write_ok ps) ws → NoDup (map fst ws) → page_ok ps n →
  (∀ b, (n, b) ∈ ws → read_page_at (apply_ops D (map (replay_op ps) ws)) ps n = Ok b) ∧
  (n ∉ map fst ws → n * ps ≤ zlen D →
   read_page_at (apply_ops D (map (replay_op ps) ws)) ps n = read_page_at D ps n).
Proof.
  intros Hws. revert D. induction Hws as [|[m c] ws Hw Hws IH]; intros D Hnd Hn.
  { split; [by intros b ?%elem_of_nil|done]. }
  cbn [map] in Hnd. apply NoDup_cons in Hnd as [Hm Hnd].
  pose proof (write_page_length ps (m, c) D Hw) as Hl.
  destruct (IH (apply_op D (replay_op ps (m, c))) Hnd Hn) as [Hin Hout].
  change (apply_ops D (map (replay_op ps) ((m, c) :: ws)))
    with (apply_ops (apply_op D (replay_op ps (m, c))) (map (replay_op ps) ws)).
  destruct Hw as [Hpm Hlc]. cbn [fst snd] in *.
  assert (Hsame : read_page_at (apply_op D (replay_op ps (m, c))) ps m = Ok c)
    by (cbn [replay_op apply_op fst snd]; by apply read_write_page_same).
  split.
  - intros b [[= -> ->]|Hb]%elem_of_cons; [|by apply Hin]. rewrite Hout; [done|done|].
    cbn [replay_op apply_op fst snd]. destruct (page_offset_eq _ _ Hpm) as (_ & ? & Hb').
    change (2 ^ 48) with 281474976710656 in Hb'.
    rewrite file_write_at_length by mlia. lia.
  - intros [Hne Hnot]%not_elem_of_cons Hlen. rewrite Hout by (done || lia).
    cbn [replay_op apply_op fst snd]. by apply read_write_page_other.
Qed.

(** ** Crashes and recovery *)

Lemma crash_Some (d d' : fs) q f :
  crash d d' → d !! q = Some f →
  ∃ D, d' !! q = Some (File D []) ∧ survives (durable f) (pending f) D.
Proof.
  intros Hc Hf. specialize (Hc q). rewrite Hf in Hc.
  destruct (d' !! q) as [[D pend]|]; [|done]. destruct Hc as [Hs Hp]. cbn in *. subst. eauto.
Qed.

Lemma crash_None (d d' : fs) q : crash d d' → d !! q = None → d' !! q = None.
Proof. intros Hc Hf. specialize (Hc q). rewrite Hf in Hc. by destruct (d' !! q). Qed.

Lemma cons_eq_inv {A} (x y : A) l k : x :: l = y :: k → x = y ∧ l = k.
Proof. by intros [= -> ->]. Qed.

Lemma survives_nil_inv D D' : survives D [] D' → D' = D.
Proof. by inversion 1. Qed.

(** Losing later operations as well. *)
Lemma survives_app D ops1 ops2 D' : survives D ops1 D' → survives D (ops1 ++ ops2) D'.
Proof.
  induction 1 as [D|D op ops D' Hs IH|D op ops D' Hs IH]; cbn [app].
  - induction ops2; by constructor.
  - by apply survives_keep.
  - by apply survives_lose.
Qed.

Lemma survives_bound D ops D' B :
  survives D ops D' → 0 ≤ B ≤ USIZE_MAX → zlen D ≤ B →
  Forall (λ op, match op with
                | FWrite off buf => 0 ≤ off ∧ off + zlen buf ≤ B
                | FTruncate _ => False end) ops → zlen D' ≤ B.
Proof.
  intros Hs HB. induction Hs as [D|D op ops D' Hs IH|D op ops D' Hs IH]; intros HD Hall; [done| |].
  - apply Forall_cons in Hall as [Hop Hall]. destruct op as [off buf|]; [|done].
    apply IH; [|done]. cbn [apply_op]. rewrite file_write_at_length by lia. lia.
  - apply Forall_cons in Hall as [_ Hall]. auto.
Qed.

Lemma companion_ne path suffix : suffix ≠ "" → companion_path path suffix ≠ path.
Proof.
  unfold companion_path. intros Hs. induction path as [|c path IH]; [done|]. cbn.
  intros [= Hp]. by apply IH.
Qed.

(** What [Pager::open] does to the files before it reads a page. *)
Definition hot_journal_recovery (d : fs) (path : string) : list io :=
  let journal_path := companion_path path "-journal" in
  match read_file d journal_path with
  | Some jb => if journal_is_hot jb then (recover_hot_journal d path journal_path).1 else []
  | None => []
  end.

(** A lock nobody contends for. *)
Definition lock_free `{FileLock L} (lk : L) : Prop :=
  lock_check_reserved lk = Ok false ∧
  ∃ lk1 lk2, lock_set_level lk Exclusive = (Ok (), lk1) ∧ lock_set_level lk1 Shared = (Ok (), lk2).

Lemma Pager_open_ops `{FileLock L} le (d : fs) (lk : L) path ps :
  lock_free lk → is_Some (d !! path) →
  (Pager_open le d lk path ps).1 = hot_journal_recovery d path.
Proof.
  intros (Hr & lk1 & lk2 & H1 & H2) [f Hf]. unfold Pager_open, hot_journal_recovery.
  assert (Hrf : read_file d path = Some (contents f)) by (unfold read_file; by rewrite Hf).
  rewrite Hrf. unfold p_vfs. cbn [ok_or map_err]. rewrite t_bind_t_lift.
  assert (Htail : ∀ (lk : L) d,
    (t_bind (t_lift (read_wal_pages le d path ps)) (λ wal_pages,
       t_bind (t_lift (p_page (let? data := ok_or (read_file d path) (PageVfs (NotFound path)) in
                               read_page_at data ps 1))) (λ page1,
         t_ok {| pg_lock := lk; pg_tx_lock_level := Shared; pg_wal_resume := None;
            pg_wal_pages := wal_pages; pg_dirty := ∅;
            pg_cache := PageCache_new DEFAULT_PAGE_CACHE_CAPACITY;
            pg_page_size := ps; pg_db_path := path;
            pg_journal_path := companion_path path "-journal";
            pg_journal_mode := journal_mode_from_page1 page1; pg_synchronous := SyncFull |}))).1
    = @nil io).
  { intros lk' d'. unfold t_lift. destruct (read_wal_pages le d' path ps); [|done]. cbn.
    by destruct (p_page _). }
  destruct (read_file d (companion_path path "-journal")) as [jb|].
  2: { rewrite t_bind_t_ok. apply Htail. }
  destruct (journal_is_hot jb).
  2: { rewrite t_bind_t_ok. apply Htail. }
  rewrite Hr. cbn [map_err]. rewrite t_bind_t_lift, H1. cbn [map_err]. rewrite t_bind_t_lift.
  destruct (recover_hot_journal d path (companion_path path "-journal")) as [ops [u|e]]; [|done].
  rewrite t_bind_Ok, H2. cbn [map_err]. rewrite t_bind_t_lift.
  unfold t_ok at 1 2. cbn [fst snd]. rewrite t_bind_Ok. cbn [fst snd]. rewrite app_nil_r.
  etrans; [|apply app_nil_r]. f_equal. apply Htail.
Qed.

Lemma recover_exec (d : fs) path D jb ops rj :
  d !! path = Some (File D []) →
  read_file d (companion_path path "-journal") = Some jb → journal_is_hot jb = true →
  recover jb = Ok (ops, rj) →
  exec_ios d (hot_journal_recovery d path) =
  delete (companion_path path "-journal")
    (<[path := File (file_truncate (apply_ops D ops)
         (sat_mul (rj_initial_page_count rj) (rj_page_size rj))) []]> d).
Proof.
  intros Hf Hj Hhot Hr. unfold hot_journal_recovery, recover_hot_journal. rewrite Hj, Hhot.
  cbn [ok_or p_vfs map_err]. unfold t_lift. rewrite t_bind_lift_Ok, Hr. cbn [map_err].
  rewrite t_bind_lift_Ok. unfold t_emit. cbn [t_bind fst].
  rewrite exec_ios_app, (exec_ios_writes _ _ _ _ Hf). cbn [exec_ios foldl exec_io durable pending app].
  rewrite (alter_as_insert (push_op _) _ _ (File D ops)) by apply lookup_insert_eq.
  rewrite insert_insert_eq.
  rewrite (alter_as_insert _ _ _ (push_op (FTruncate
    (sat_mul (rj_initial_page_count rj) (rj_page_size rj))) (File D ops)))
    by apply lookup_insert_eq.
  rewrite insert_insert_eq. unfold contents, push_op. cbn [durable pending].
  unfold apply_ops. by rewrite foldl_app.
Qed.

Lemma no_recovery (d : fs) path :
  (∀ jb, read_file d (companion_path path "-journal") = Some jb → journal_is_hot jb = false) →
  hot_journal_recovery d path = [].
Proof.
  intros Hj. unfold hot_journal_recovery.
  destruct (read_file d (companion_path path "-journal")) as [jb|]; [|done]. by rewrite Hj.
Qed.

(** ** The trace of a commit *)

Section commit.
Context `{FileLock L}.
Implicit Types (p : Pager (L := L)) (d : fs).

(** A pager about to commit: its file is on disk with as many pages as its
    header says, no journal is there, dirty pages have the page size and
    one of them is a page the file already had (page 1, when anything was
    allocated). *)
Record flush_ready p d (data : bytes) (ipc nonce : Z) : Prop := {
  fr_file : d !! pg_db_path p = Some (File data []);
  fr_no_journal : d !! pg_journal_path p = None;
  fr_paths : pg_journal_path p = companion_path (pg_db_path p) "-journal";
  fr_page_size : valid_page_size (pg_page_size p);
  fr_bytes : bytes_ok data;
  fr_len : zlen data = ipc * pg_page_size p;
  fr_count : read_be 4 data PAGE_COUNT_OFFSET = Some ipc;
  fr_ipc : 1 ≤ ipc ≤ U32_MAX;
  fr_dirty : map_Forall (λ n b, 1 ≤ n ≤ U32_MAX ∧ zlen b = pg_page_size p) (pg_dirty p);
  fr_some : ∃ n, is_Some (pg_dirty p !! n) ∧ n ≤ ipc;
  fr_nonce : 0 < nonce < 4294967296;
}.

Definition to_journal p (ipc : Z) : list Z := filter (λ n, n ≤ ipc) (dirty_pages p).
Definition pre_images p (data : bytes) (ipc : Z) : list (Z * bytes) :=
  map (λ n, (n, page_bytes data (pg_page_size p) n)) (to_journal p ipc).
Definition dirty_writes p : list (Z * bytes) :=
  map (λ n, (n, default [] (pg_dirty p !! n))) (dirty_pages p).

Lemma elem_of_dirty_pages p n : n ∈ dirty_pages p ↔ is_Some (pg_dirty p !! n).
Proof.
  unfold dirty_pages. rewrite merge_sort_Permutation, list_elem_of_fmap. split.
  - intros ([m b] & -> & Hm%elem_of_map_to_list). eauto.
  - intros [b Hb]. exists (n, b). by rewrite elem_of_map_to_list.
Qed.

Lemma NoDup_dirty_pages p : NoDup (dirty_pages p).
Proof. unfold dirty_pages. rewrite merge_sort_Permutation. apply NoDup_fst_map_to_list. Qed.

Lemma dirty_writes_fst p : map fst (dirty_writes p) = dirty_pages p.
Proof. unfold dirty_writes. rewrite map_map. apply map_id. Qed.

Lemma pre_images_fst p data ipc : map fst (pre_images p data ipc) = to_journal p ipc.
Proof. unfold pre_images. rewrite map_map. apply map_id. Qed.

Section ready.
Context (p : Pager (L := L)) (d : fs) (data : bytes) (ipc nonce : Z)
        (Hready : flush_ready p d data ipc nonce).
Let ps := pg_page_size p.
Let db := pg_db_path p.
Let j := pg_journal_path p.

Lemma ready_ps : 512 ≤ ps ≤ 65536.
Proof. apply valid_page_size_bounds, Hready. Qed.

Lemma dirty_page_ok n b : pg_dirty p !! n = Some b → page_ok ps n ∧ zlen b = ps.
Proof.
  intros Hn. pose proof (fr_dirty _ _ _ _ _ Hready n b Hn) as [? ?].
  pose proof ready_ps. unfold page_ok. done.
Qed.

Lemma to_journal_ok n : n ∈ to_journal p ipc → page_ok ps n ∧ n * ps ≤ zlen data.
Proof.
  unfold to_journal. rewrite list_elem_of_filter, elem_of_dirty_pages.
  intros [Hle [b Hb]]. apply dirty_page_ok in Hb as [Hp _]. split; [done|].
  rewrite (fr_len _ _ _ _ _ Hready). fold ps. pose proof ready_ps. nia.
Qed.

Lemma to_journal_length : zlen (to_journal p ipc) ≤ ipc.
Proof.
  pose proof (fr_ipc _ _ _ _ _ Hready). pose proof ready_ps as Hb.
  assert (Hsub : to_journal p ipc ⊆+ seqZ 1 ipc).
  { apply NoDup_submseteq; [apply NoDup_filter, NoDup_dirty_pages|].
    intros n Hn. pose proof Hn as [[Hn1 _] _]%to_journal_ok.
    unfold to_journal in Hn. apply list_elem_of_filter in Hn as [Hle _].
    apply elem_of_seqZ. lia. }
  apply submseteq_length in Hsub. rewrite length_seqZ in Hsub. lia.
Qed.

Lemma to_journal_nonempty : to_journal p ipc ≠ [].
Proof.
  destruct (fr_some _ _ _ _ _ Hready) as (n & Hn & Hle). intros He.
  assert (n ∈ to_journal p ipc) as Hin.
  { unfold to_journal. by rewrite list_elem_of_filter, elem_of_dirty_pages. }
  rewrite He in Hin. by apply elem_of_nil in Hin.
Qed.

Lemma pre_images_spec :
  Forall (λ r, page_ok ps r.1 ∧ r.1 * ps ≤ zlen data ∧ r.2 = page_bytes data ps r.1)
         (pre_images p data ipc).
Proof.
  apply Forall_map, Forall_forall. intros n Hn. cbn.
  destruct (to_journal_ok n Hn). done.
Qed.

Definition commit_header : JournalHeader := flush_header ps ps ipc nonce (pre_images p data ipc).

Lemma pre_images_length : zlen (pre_images p data ipc) = zlen (to_journal p ipc).
Proof. unfold pre_images. by rewrite length_map. Qed.

Lemma commit_header_ok : JournalHeader_ok commit_header.
Proof.
  pose proof ready_ps. pose proof (fr_ipc _ _ _ _ _ Hready).
  pose proof (fr_nonce _ _ _ _ _ Hready). pose proof to_journal_length.
  pose proof pre_images_length.
  unfold JournalHeader_ok, commit_header, flush_header, u32_ok, U32_MAX in *. cbn. lia.
Qed.

Lemma record_off_commit : record_off commit_header (zlen (pre_images p data ipc)) ≤ ISIZE_MAX.
Proof.
  pose proof ready_ps. pose proof to_journal_length. pose proof pre_images_length.
  pose proof (fr_ipc _ _ _ _ _ Hready).
  unfold record_off, commit_header, flush_header, ISIZE_MAX, U32_MAX in *. cbn. nia.
Qed.

Lemma commit_fits : journal_fits commit_header (pre_images p data ipc).
Proof.
  pose proof ready_ps. unfold journal_fits. split_and!; [cbn; lia|done| |].
  - apply record_off_commit.
  - eapply Forall_impl; [apply pre_images_spec|]. intros r (Hp & Hle & Hr). split_and!.
    + destruct Hp. mlia.
    + destruct Hp. mlia.
    + rewrite Hr. by apply page_bytes_length.
    + rewrite Hr. unfold page_bytes. apply bytes_ok_take, bytes_ok_drop, Hready.
Qed.

Lemma source_read_ready n :
  page_ok ps n → n * ps ≤ zlen data → source_read p d n = Ok (page_bytes data ps n).
Proof.
  intros Hp Hn. unfold source_read, read_file. rewrite (fr_file _ _ _ _ _ Hready).
  cbn. by apply page_bytes_read.
Qed.

Lemma journal_pages_eq w i pages :
  (∀ n, n ∈ pages → page_ok ps n ∧ n * ps ≤ zlen data) →
  journal_pages p d w i pages =
  t_map_err journal_to_pager_error
    (write_records w i (map (λ n, (n, page_bytes data ps n)) pages)).
Proof.
  revert i. induction pages as [|n pages IH]; intros i Hin; [done|].
  destruct (Hin n) as [Hp Hle]; [apply list_elem_of_here|].
  cbn [journal_pages map write_records].
  rewrite source_read_ready by done. cbn [p_page map_err t_lift t_bind].
  rewrite IH by (intros m Hm; apply Hin; by apply list_elem_of_further).
  unfold JournalWriter_write_record, t_emit, t_map_err. cbn [t_bind fst snd map_err].
  by destruct (write_records w (i + 1) _) as [ops r].
Qed.

Lemma write_pages_eq pages :
  (∀ n, n ∈ pages → is_Some (pg_dirty p !! n)) →
  write_pages p pages =
  (map (as_io db) (map (replay_op ps) (map (λ n, (n, default [] (pg_dirty p !! n))) pages)),
   Ok ()).
Proof.
  induction pages as [|n pages IH]; intros Hin; [done|]. cbn [write_pages map].
  destruct (Hin n) as [b Hb]; [apply list_elem_of_here|]. rewrite Hb.
  destruct (dirty_page_ok n b Hb) as [Hp Hl].
  destruct (page_offset_eq _ _ Hp) as (Ho & _ & _).
  unfold write_page_check. fold ps. rewrite decide_False by (destruct Hp; lia).
  rewrite decide_False by (rewrite Hl; tauto). cbn [p_page map_err t_lift].
  rewrite IH by (intros m Hm; apply Hin; by apply list_elem_of_further).
  cbn. by rewrite Ho.
Qed.

(** The journal's operations, and those on the database file. *)
Definition jops : list file_op := journal_ops commit_header (pre_images p data ipc).
Definition wops : list file_op := map (replay_op ps) (dirty_writes p).

Definition commit_trace : list io :=
  (CreateOrOpen j :: map (as_io j) jops) ++ [SyncF j] ++ map (as_io db) wops
  ++ [SyncF db] ++ [DeleteF j].

Lemma flush_locked_ops :
  pg_synchronous p ≠ SyncOff →
  flush_locked p d nonce =
  ((CreateOrOpen j :: map (as_io j) jops) ++ [SyncF j] ++ map (as_io db) wops
   ++ (if decide (pg_synchronous p = SyncFull) then [SyncF db] else []) ++ [DeleteF j],
   Ok (set_dirty p ∅)).
Proof.
  intros Hsync. pose proof ready_ps as Hb. pose proof (fr_ipc _ _ _ _ _ Hready) as Hipc.
  assert (Hp1 : page_ok ps 1) by (unfold page_ok, U32_MAX; lia).
  assert (H1 : 1 * ps ≤ zlen data) by (rewrite (fr_len _ _ _ _ _ Hready); fold ps; nia).
  unfold flush_locked. rewrite source_read_ready by done.
  unfold t_lift, p_page. cbn [map_err]. rewrite t_bind_lift_Ok.
  assert (Hcnt : read_be_u32 (page_bytes data ps 1) PAGE_COUNT_OFFSET = Ok ipc).
  { unfold read_be_u32. pose proof (fr_count _ _ _ _ _ Hready) as Hc.
    rewrite <- (take_drop (Z.to_nat ps) data) in Hc.
    rewrite read_be_app_l in Hc by (unfold PAGE_COUNT_OFFSET; rewrite ?length_take; mlia).
    unfold page_bytes. change (Z.to_nat ((1 - 1) * ps)) with 0%nat. rewrite drop_0, Hc. done. }
  rewrite Hcnt. unfold p_free. cbn [map_err]. rewrite t_bind_lift_Ok.
  change (filter (λ n, n ≤ ipc) (dirty_pages p)) with (to_journal p ipc).
  rewrite !(decide_True (P := to_journal p ipc ≠ [])) by apply to_journal_nonempty.
  rewrite wrap32_small by (pose proof to_journal_length; mlia).
  rewrite <- pre_images_length. fold ps j.
  rewrite JournalWriter_create_trace by lia. fold commit_header.
  unfold t_map_err at 1. cbn [fst snd map_err].
  rewrite (t_bind_Ok [CreateOrOpen _; WriteAt _ _ _]).
  rewrite journal_pages_eq by apply to_journal_ok.
  change (map (λ n, (n, page_bytes data ps n)) (to_journal p ipc)) with (pre_images p data ipc).
  pose proof (write_records_trace commit_header j (pre_images p data ipc) 0 commit_header_ok
                ltac:(lia) record_off_commit) as Hw.
  change (jh_page_size commit_header) with ps in Hw.
  change (sector_size commit_header) with ps in Hw.
  change (Journal.nonce commit_header) with nonce in Hw. rewrite Hw.
  rewrite (decide_True (P := pg_synchronous p ≠ SyncOff)) by done.
  rewrite write_pages_eq by apply elem_of_dirty_pages.
  unfold t_map_err, JournalWriter_sync, t_emit, t_ok. cbn [fst snd map_err].
  rewrite !t_bind_Ok. cbn [fst snd]. unfold jops, journal_ops, wops, dirty_writes.
  destruct (decide (pg_synchronous p = SyncFull)); rewrite !t_bind_Ok; cbn [fst snd];
    rewrite ?t_bind_Ok; cbn [fst snd map as_io]; by rewrite app_nil_r, <- !(assoc_L (++)).
Qed.

Lemma flush_locked_trace :
  pg_synchronous p = SyncFull → flush_locked p d nonce = (commit_trace, Ok (set_dirty p ∅)).
Proof.
  intros Hsync. rewrite flush_locked_ops by congruence. by rewrite decide_True.
Qed.

Definition new_data : bytes := apply_ops data wops.

Lemma jpath : companion_path db "-journal" = j.
Proof. symmetry. apply (fr_paths _ _ _ _ _ Hready). Qed.

Lemma jne : j ≠ db.
Proof. rewrite <- jpath. by apply companion_ne. Qed.

Lemma dirty_writes_ok : Forall (page_write_ok ps) (dirty_writes p).
Proof.
  apply Forall_map, Forall_forall. intros n [b Hb]%elem_of_dirty_pages. cbn. rewrite Hb. cbn.
  destruct (dirty_page_ok n b Hb). done.
Qed.

(** The file system at the points of the trace. *)
Definition fs_journal (jo : list file_op) : fs := <[j := File [] jo]> d.
Definition fs_writes (wo : list file_op) : fs :=
  <[db := File data wo]> (<[j := File (journal_image commit_header (pre_images p data ipc)) []]> d).
Definition fs_synced : fs :=
  <[db := File new_data []]>
    (<[j := File (journal_image commit_header (pre_images p data ipc)) []]> d).

Lemma exec_journal jo :
  exec_ios d (CreateOrOpen j :: map (as_io j) jo) = fs_journal jo.
Proof. apply exec_journal_trace, Hready. Qed.

Lemma journal_synced : exec_io (fs_journal jops) (SyncF j) = fs_writes [].
Proof.
  unfold fs_journal, fs_writes. cbn [exec_io].
  rewrite (alter_as_insert _ _ _ (File [] jops)) by apply lookup_insert_eq.
  rewrite insert_insert_eq. unfold contents. cbn [durable pending]. unfold jops.
  rewrite apply_journal_ops by (try apply commit_header_ok; try apply commit_fits;
    pose proof record_off_commit; try done; apply commit_fits).
  symmetry. apply insert_id. rewrite lookup_insert_ne by apply jne. apply Hready.
Qed.

Lemma exec_writes wo : exec_ios (fs_writes []) (map (as_io db) wo) = fs_writes wo.
Proof.
  unfold fs_writes. rewrite (exec_ios_writes _ db (File data [])) by apply lookup_insert_eq.
  by rewrite insert_insert_eq.
Qed.

Lemma db_synced : exec_io (fs_writes wops) (SyncF db) = fs_synced.
Proof.
  unfold fs_writes, fs_synced. cbn [exec_io].
  rewrite (alter_as_insert _ _ _ (File data wops)) by apply lookup_insert_eq.
  by rewrite insert_insert_eq.
Qed.

Lemma commit_len :
  sat_mul (rj_initial_page_count {| rj_initial_page_count := initial_page_count commit_header;
                                    rj_page_size := jh_page_size commit_header |})
          (rj_page_size {| rj_initial_page_count := initial_page_count commit_header;
                           rj_page_size := jh_page_size commit_header |}) = zlen data.
Proof.
  change (sat_mul ipc ps = zlen data). rewrite (fr_len _ _ _ _ _ Hready). fold ps.
  pose proof (fr_ipc _ _ _ _ _ Hready). pose proof ready_ps. apply sat_mul_small.
  transitivity (4294967295 * 65536); [|vm_compute; congruence].
  apply Z.mul_le_mono_nonneg; mlia.
Qed.

(** After a crash while the journal is being written, the file is old. *)
Lemma crash_in_journal jo1 jo2 d' :
  jops = jo1 ++ jo2 → crash (fs_journal jo1) d' →
  read_file (exec_ios d' (hot_journal_recovery d' db)) db = Some data.
Proof.
  intros Hsplit Hc. pose proof ready_ps as Hb.
  destruct (crash_Some _ _ db (File data []) Hc) as (D & Hdb & HD).
  { unfold fs_journal. rewrite lookup_insert_ne by apply jne. apply Hready. }
  apply survives_nil_inv in HD. cbn in HD. subst D.
  destruct (crash_Some _ _ j (File [] jo1) Hc) as (J & Hj & HJ);
    [apply lookup_insert_eq|]. cbn in HJ.
  assert (HJ' : survives [] jops J) by (rewrite Hsplit; by apply survives_app).
  assert (Hrj : read_file d' (companion_path db "-journal") = Some J).
  { rewrite jpath. unfold read_file. by rewrite Hj. }
  destruct (journal_is_hot J) eqn:Hhot.
  - destruct (recover_torn commit_header (pre_images p data ipc) J) as [k Hk]; [| | | | |done|].
    + apply commit_header_ok.
    + apply commit_fits.
    + pose proof (fr_nonce _ _ _ _ _ Hready). cbn. lia.
    + apply (survives_bound [] jops J ISIZE_MAX); [done|vm_compute; split; congruence|done|].
      apply journal_ops_bound; [apply commit_header_ok|apply commit_fits].
    + done.
    + rewrite (recover_exec d' db data J _ _ Hdb Hrj Hhot Hk).
      unfold read_file. rewrite lookup_delete_ne, lookup_insert_eq.
      2: { rewrite jpath. apply jne. }
      cbn [fmap option_fmap option_map contents]. f_equal. unfold contents.
      cbn [durable pending apply_ops foldl]. rewrite commit_len. apply replay_noop.
      apply Forall_take, pre_images_spec.
  - rewrite no_recovery.
    + unfold read_file. cbn. by rewrite Hdb.
    + intros jb. rewrite Hrj. by intros [= <-].
Qed.

(** With the journal on disk, whatever happened to the file is undone. *)
Lemma crash_after_journal D d' :
  d' !! db = Some (File D []) → zlen data ≤ zlen D →
  (∀ i, (i < length data)%nat → page_of ps i ∉ dirty_pages p → D !! i = data !! i) →
  d' !! j = Some (File (journal_image commit_header (pre_images p data ipc)) []) →
  read_file (exec_ios d' (hot_journal_recovery d' db)) db = Some data.
Proof.
  intros Hdb Hlen HD Hj. pose proof ready_ps as Hb.
  set (img := journal_image commit_header (pre_images p data ipc)) in *.
  assert (Hrj : read_file d' (companion_path db "-journal") = Some img).
  { rewrite jpath. unfold read_file. by rewrite Hj. }
  rewrite (recover_exec d' db D img _ _ Hdb Hrj (image_hot _ _ (proj1 commit_fits))
    (recover_image commit_header commit_header_ok _ commit_fits)).
  unfold read_file. rewrite lookup_delete_ne, lookup_insert_eq.
  2: { rewrite jpath. apply jne. }
  cbn [fmap option_fmap option_map contents]. f_equal. unfold contents.
  cbn [durable pending apply_ops foldl]. rewrite commit_len.
  apply replay_restores; [apply pre_images_spec|done|].
  intros i Hi. destruct (decide (page_of ps i ∈ dirty_pages p)) as [Hin|Hin]; [right|left; auto].
  rewrite pre_images_fst. unfold to_journal. apply list_elem_of_filter. split; [|done].
  unfold page_of. pose proof (fr_len _ _ _ _ _ Hready) as Hl. fold ps in Hl.
  assert (Hq : Z.of_nat i / ps < ipc) by (apply Z.div_lt_upper_bound; lia).
  change (jh_page_size commit_header) with ps. lia.
Qed.

Lemma data_survives wo1 wo2 D :
  wops = wo1 ++ wo2 → survives data wo1 D →
  zlen data ≤ zlen D ∧
  ∀ i, (i < length data)%nat → page_of ps i ∉ dirty_pages p → D !! i = data !! i.
Proof.
  intros Hsplit HD. destruct (survives_pages ps (dirty_writes p) data D) as [Hl Hi].
  - fold wops. rewrite Hsplit. by apply survives_app.
  - apply dirty_writes_ok.
  - split; [lia|]. intros i Hlt Hn. apply Hi; [done|]. by rewrite dirty_writes_fst.
Qed.

(** A crash at any point of the trace. *)
Lemma crash_anywhere ops1 ops2 d' :
  commit_trace = ops1 ++ ops2 → crash (exec_ios d ops1) d' →
  read_file (exec_ios d' (hot_journal_recovery d' db)) db
  = Some (if decide (ops2 = []) then new_data else data).
Proof.
  intros Hops Hc. unfold commit_trace in Hops.
  apply app_eq_app in Hops as (l & [[HA HB]|[HA HB]]).
  - (* creating and writing the journal *)
    rewrite decide_False by (rewrite HB; by destruct l).
    destruct ops1 as [|op ops1].
    + cbn [exec_ios foldl] in Hc. destruct (crash_Some _ _ db _ Hc (fr_file _ _ _ _ _ Hready))
        as (D & Hdb & HD). apply survives_nil_inv in HD. cbn in HD. subst D.
      rewrite no_recovery; [unfold read_file; cbn; by rewrite Hdb|].
      intros jb. unfold read_file. rewrite jpath. unfold j.
      by rewrite (crash_None _ _ _ Hc (fr_no_journal _ _ _ _ _ Hready)).
    + change (CreateOrOpen j :: map (as_io j) jops = op :: (ops1 ++ l)) in HA.
      apply cons_eq_inv in HA as [<- HA]. apply map_eq_app in HA as (jo1 & jo2 & Hj & <- & _).
      rewrite exec_journal in Hc. by eapply crash_in_journal.
  - subst ops1. rewrite exec_ios_app, exec_journal in Hc.
    destruct l as [|op l].
    { rewrite decide_False by (cbn in HB; by rewrite <- HB). cbn [exec_ios foldl] in Hc.
      eapply (crash_in_journal jops []); [by rewrite app_nil_r|done]. }
    change (SyncF j :: (map (as_io db) wops ++ [SyncF db] ++ [DeleteF j]) = op :: (l ++ ops2)) in HB.
    apply cons_eq_inv in HB as [<- HB].
    change (exec_ios (fs_journal jops) (SyncF j :: l))
      with (exec_ios (exec_io (fs_journal jops) (SyncF j)) l) in Hc.
    rewrite journal_synced in Hc.
    apply app_eq_app in HB as (l' & [[HA HB]|[HA HB]]).
    + (* writing the database *)
      rewrite decide_False by (rewrite HB; by destruct l').
      apply map_eq_app in HA as (wo1 & wo2 & Hw & <- & _).
      rewrite exec_writes in Hc.
      destruct (crash_Some _ _ db (File data wo1) Hc) as (D & Hdb & HD);
        [apply lookup_insert_eq|].
      destruct (crash_Some _ _ j (File (journal_image commit_header (pre_images p data ipc)) []) Hc)
        as (J & Hj & HJ).
      { unfold fs_writes. rewrite lookup_insert_ne by (symmetry; apply jne).
        apply lookup_insert_eq. }
      apply survives_nil_inv in HJ. cbn in HJ. subst J. cbn in HD.
      destruct (data_survives wo1 wo2 D Hw HD) as [Hl Hi].
      by apply (crash_after_journal D).
    + subst l. rewrite exec_ios_app, exec_writes in Hc.
      destruct l' as [|op l'].
      { rewrite decide_False by (cbn in HB; by rewrite <- HB). cbn [exec_ios foldl] in Hc.
        destruct (crash_Some _ _ db (File data wops) Hc) as (D & Hdb & HD);
          [apply lookup_insert_eq|].
        destruct (crash_Some _ _ j
          (File (journal_image commit_header (pre_images p data ipc)) []) Hc) as (J & Hj & HJ).
        { unfold fs_writes. rewrite lookup_insert_ne by (symmetry; apply jne).
          apply lookup_insert_eq. }
        apply survives_nil_inv in HJ. cbn in HJ. subst J. cbn in HD.
        destruct (data_survives wops [] D ltac:(by rewrite app_nil_r) HD) as [Hl Hi].
        by apply (crash_after_journal D). }
      injection HB as <- HB.
      change (exec_ios (fs_writes wops) (SyncF db :: l'))
        with (exec_ios (exec_io (fs_writes wops) (SyncF db)) l') in Hc.
      rewrite db_synced in Hc.
      destruct l' as [|op l'].
      * (* synced, journal still there *)
        rewrite decide_False by (cbn in HB; by rewrite <- HB). cbn [exec_ios foldl] in Hc.
        destruct (crash_Some _ _ db (File new_data []) Hc) as (D & Hdb & HD);
          [apply lookup_insert_eq|].
        destruct (crash_Some _ _ j
          (File (journal_image commit_header (pre_images p data ipc)) []) Hc) as (J & Hj & HJ).
        { unfold fs_synced. rewrite lookup_insert_ne by (symmetry; apply jne).
          apply lookup_insert_eq. }
        apply survives_nil_inv in HJ, HD. cbn in HJ, HD. subst J D.
        destruct (data_survives wops [] new_data) as [Hl Hi];
          [by rewrite app_nil_r|apply survives_all|]. by apply (crash_after_journal new_data).
      * (* committed *)
        injection HB as <- HB. symmetry in HB. apply app_eq_nil in HB as [-> ->].
        rewrite decide_True by done. cbn [exec_ios foldl exec_io] in Hc.
        destruct (crash_Some _ _ db (File new_data []) Hc) as (D & Hdb & HD).
        { rewrite lookup_delete_ne by apply jne. apply lookup_insert_eq. }
        apply survives_nil_inv in HD. cbn in HD. subst D.
        rewrite no_recovery; [unfold read_file; cbn; by rewrite Hdb|].
        intros jb. unfold read_file. rewrite jpath.
        by rewrite (crash_None _ _ _ Hc (lookup_delete_eq _ _)).
Qed.

(** What the committed file holds. *)
Lemma new_data_pages n :
  page_ok ps n →
  (∀ b, pg_dirty p !! n = Some b → read_page_at new_data ps n = Ok b) ∧
  (pg_dirty p !! n = None → n ≤ ipc → read_page_at new_data ps n = read_page_at data ps n).
Proof.
  intros Hn. pose proof ready_ps as Hb.
  destruct (apply_pages ps (dirty_writes p) data n) as [Hin Hout];
    [apply dirty_writes_ok|rewrite dirty_writes_fst; apply NoDup_dirty_pages|done|]. split.
  - intros b Hbn. apply Hin. unfold dirty_writes. apply list_elem_of_fmap. exists n.
    rewrite Hbn. split; [done|]. apply elem_of_dirty_pages. eauto.
  - intros Hnone Hle. apply Hout.
    + rewrite dirty_writes_fst, elem_of_dirty_pages, Hnone. by intros [].
    + rewrite (fr_len _ _ _ _ _ Hready). fold ps. nia.
Qed.

Lemma commit_exec_all :
  exec_ios d commit_trace = delete j fs_synced.
Proof.
  unfold commit_trace. rewrite exec_ios_app, exec_journal.
  change (exec_ios (fs_journal jops) ([SyncF j] ++ map (as_io db) wops ++ [SyncF db] ++ [DeleteF j]))
    with (exec_ios (exec_io (fs_journal jops) (SyncF j))
            (map (as_io db) wops ++ [SyncF db] ++ [DeleteF j])).
  rewrite journal_synced, exec_ios_app, exec_writes.
  change (exec_ios (fs_writes wops) ([SyncF db] ++ [DeleteF j]))
    with (delete j (exec_io (fs_writes wops) (SyncF db))).
  by rewrite db_synced.
Qed.
End ready.
End commit.

Lemma exec_io_keeps (d : fs) op q :
  is_Some (d !! q) → op ≠ DeleteF q → is_Some (exec_io d op !! q).
Proof.
  intros Hq Hne. destruct op as [r|r off buf|r len|r|r]; cbn [exec_io].
  - destruct (d !! r) eqn:E; [done|]. destruct (decide (r = q)) as [->|].
    + rewrite lookup_insert_eq. eauto.
    + by rewrite lookup_insert_ne.
  - destruct (decide (r = q)) as [->|]; [|by rewrite lookup_alter_ne].
    rewrite lookup_alter_eq. by apply fmap_is_Some.
  - destruct (decide (r = q)) as [->|]; [|by rewrite lookup_alter_ne].
    rewrite lookup_alter_eq. by apply fmap_is_Some.
  - destruct (decide (r = q)) as [->|]; [|by rewrite lookup_alter_ne].
    rewrite lookup_alter_eq. by apply fmap_is_Some.
  - rewrite lookup_delete_ne; [done|congruence].
Qed.

Lemma exec_ios_keeps (d : fs) ops q :
  is_Some (d !! q) → DeleteF q ∉ ops → is_Some (exec_ios d ops !! q).
Proof.
  revert d. induction ops as [|op ops IH]; intros d Hq Hn; [done|].
  apply not_elem_of_cons in Hn as [H1 H2]. apply (IH (exec_io d op)); [|done].
  apply exec_io_keeps; [done|congruence].
Qed.

Lemma not_deleted p ops : DeleteF p ∉ map (as_io p) ops.
Proof. induction ops as [|[|] ops IH]; cbn; rewrite ?elem_of_nil, ?elem_of_cons; naive_solver. Qed.

Lemma not_deleted_other p q ops : DeleteF q ∉ map (as_io p) ops.
Proof. induction ops as [|[|] ops IH]; cbn; rewrite ?elem_of_nil, ?elem_of_cons; naive_solver. Qed.

Lemma commit_keeps_db `{FileLock L} (p : Pager (L := L)) d data ipc nonce :
  flush_ready p d data ipc nonce → DeleteF (pg_db_path p) ∉ commit_trace p data ipc nonce.
Proof.
  intros Hr. pose proof (jne p d data ipc nonce Hr). unfold commit_trace.
  rewrite !elem_of_app, elem_of_cons, !list_elem_of_singleton.
  pose proof (not_deleted_other (pg_journal_path p) (pg_db_path p) (jops p data ipc nonce)).
  pose proof (not_deleted_other (pg_db_path p) (pg_db_path p) (wops p)).
  intros [[?|?]|[?|[?|[?|Heq]]]]; try done. congruence.
Qed.

(** ** Properties *)

(** C1: Commits are atomic and durable across a crash at any point.  The
    rollback-journal commit with [synchronous = FULL] succeeds; crash the
    machine between any two of its file operations, with any subset of the
    operations not yet synced lost, and reopen the database: its file is
    byte for byte the one before the transaction, unless the journal's
    deletion had been reached, and then it is the committed one. *)
Theorem commit_crash_atomic {L : Type} {F : FileLock L} (le : bool) (p : Pager (L := L)) (d : fs)
    (data : bytes) (ipc nonce : Z) (lk : L)
    (Hready : flush_ready p d data ipc nonce) (Hsync : pg_synchronous p = SyncFull)
    (Hlk : lock_free lk) :
  ∃ ops new,
    flush_locked p d nonce = (ops, Ok (set_dirty p ∅)) ∧
    read_file (exec_ios d ops) (pg_db_path p) = Some new ∧
    ∀ ops1 ops2 d', ops = ops1 ++ ops2 → crash (exec_ios d ops1) d' →
      read_file (exec_ios d' (Pager_open le d' lk (pg_db_path p) (pg_page_size p)).1)
                (pg_db_path p)
      = Some (if decide (ops2 = []) then new else data).
Proof.
  exists (commit_trace p data ipc nonce), (new_data p data).
  split; [by apply flush_locked_trace|]. split.
  { rewrite (commit_exec_all p d data ipc nonce Hready). unfold read_file.
    rewrite lookup_delete_ne by (by eapply jne). unfold fs_synced. by rewrite lookup_insert_eq. }
  intros ops1 ops2 d' Hops Hc. rewrite Pager_open_ops; [|done|].
  - by apply (crash_anywhere p d data ipc nonce Hready ops1 ops2).
  - assert (is_Some (exec_ios d ops1 !! pg_db_path p)) as [f Hf].
    { apply exec_ios_keeps; [rewrite (fr_file _ _ _ _ _ Hready); eauto|].
      pose proof (commit_keeps_db p d data ipc nonce Hready) as Hn. rewrite Hops in Hn.
      intros Hin. apply Hn, elem_of_app. by left. }
    destruct (crash_Some _ _ _ _ Hc Hf) as (D & -> & _). eauto.
Qed.

(** A two-transaction example: page 1 of a one-page database is rewritten. *)
Definition example_pager (sync : SynchronousMode) (dirty : gmap Z bytes) : Pager (L := ()) :=
  {| pg_lock := (); pg_tx_lock_level := Shared; pg_wal_resume := None; pg_wal_pages := ∅;
     pg_dirty := dirty; pg_cache := PageCache_new 8; pg_page_size := 512;
     pg_db_path := "db"; pg_journal_path := "db-journal"; pg_journal_mode := Legacy;
     pg_synchronous := sync |}.

Definition example_fs : fs := {["db" := File (new_empty_page1 512) []]}.

Lemma example_ready sync :
  flush_ready (example_pager sync {[1 := zeros 512]}) example_fs (new_empty_page1 512) 1 7.
Proof.
  split; cbn [pg_db_path pg_journal_path pg_page_size pg_dirty example_pager].
  - apply lookup_singleton_eq.
  - unfold example_fs. by rewrite lookup_singleton_ne.
  - reflexivity.
  - apply (bool_decide_unpack _). vm_compute. exact I.
  - apply new_empty_page1_bytes_ok.
  - reflexivity.
  - vm_compute. reflexivity.
  - unfold U32_MAX. lia.
  - apply map_Forall_singleton. split; [unfold U32_MAX; lia|reflexivity].
  - exists 1. rewrite lookup_singleton_eq. split; [eauto|lia].
  - lia.
Qed.

Lemma noop_lock_free : lock_free ().
Proof. split; [reflexivity|]. exists (), (). split; reflexivity. Qed.

Lemma commit_crash_atomic_witness :
  let p := example_pager SyncFull {[1 := zeros 512]} in
  ∃ ops, flush_locked p example_fs 7 = (ops, Ok (set_dirty p ∅)) ∧
    read_file (exec_ios example_fs (Pager_open true example_fs () "db" 512).1) "db"
    = Some (new_empty_page1 512).
Proof.
  destruct (commit_crash_atomic true (example_pager SyncFull {[1 := zeros 512]}) example_fs
    (new_empty_page1 512) 1 7 () (example_ready SyncFull) eq_refl noop_lock_free)
    as (ops & new & Hf & _ & Hcrash).
  exists ops. split; [exact Hf|].
  assert (Hne : ops ≠ []).
  { pose proof (flush_locked_trace _ _ _ _ _ (example_ready SyncFull) eq_refl) as Ht.
    rewrite Hf in Ht. injection Ht as ->. discriminate. }
  pose proof (Hcrash [] ops example_fs eq_refl) as Hr. rewrite decide_False in Hr by exact Hne.
  apply Hr. intros q. cbn [exec_ios foldl]. destruct (example_fs !! q) as [f|] eqn:E; [|exact I].
  unfold example_fs in E. apply lookup_singleton_Some in E as [_ <-]. split; [apply survives_nil|reflexivity].
Defined.

(** What [flush_locked] leaves a coherent pager with. *)
Lemma flush_locked_view {L : Type} {F : FileLock L} (p : Pager (L := L)) (d : fs)
    (data : bytes) (ipc nonce : Z)
    (Hready : flush_ready p d data ipc nonce) (Hsync : pg_synchronous p = SyncFull)
    (Hco : coherent p d) (Hwal : pg_wal_pages p = ∅)
    (Hkeys : ∀ n, is_Some (cached (pg_cache p) n) → 1 ≤ n ≤ U32_MAX) :
  ∃ ops, flush_locked p d nonce = (ops, Ok (set_dirty p ∅)) ∧
    let d' := exec_ios d ops in
    coherent (set_dirty p ∅) d' ∧ d' !! pg_journal_path p = None ∧
    ∀ n, page_ok (pg_page_size p) n → is_Some (pg_dirty p !! n) ∨ n ≤ ipc →
      view (set_dirty p ∅) d' n = view p d n.
Proof.
  exists (commit_trace p data ipc nonce). split; [by apply flush_locked_trace|]. cbv zeta.
  rewrite (commit_exec_all p d data ipc nonce Hready).
  set (d' := delete _ _).
  assert (Hd' : read_file d' (pg_db_path p) = Some (new_data p data)).
  { unfold read_file, d'. rewrite lookup_delete_ne by (by eapply jne).
    unfold fs_synced. by rewrite lookup_insert_eq. }
  assert (Hsrc : ∀ n, source_read (set_dirty p ∅) d' n
                      = read_page_at (new_data p data) (pg_page_size p) n).
  { intros n. unfold source_read. cbn [set_dirty pg_db_path pg_page_size]. by rewrite Hd'. }
  assert (Hold : ∀ n, source_read p d n = read_page_at data (pg_page_size p) n).
  { intros n. unfold source_read, read_file. by rewrite (fr_file _ _ _ _ _ Hready). }
  pose proof (ready_ps p d data ipc nonce Hready) as Hb.
  split_and!.
  - split; [|intros n; cbn; rewrite lookup_empty; by intros []].
    intros n b Hn. cbn [set_dirty pg_cache] in Hn. destruct Hco as [Hc Hdc].
    pose proof (Hc n b Hn) as Hrd. rewrite Hold in Hrd. rewrite Hsrc.
    assert (Hp : page_ok (pg_page_size p) n) by (split; [apply Hkeys; rewrite Hn; eauto|done]).
    destruct (new_data_pages p d data ipc nonce Hready n Hp) as [_ Hout].
    rewrite Hout; [done| |].
    + destruct (pg_dirty p !! n) eqn:E; [|done].
      rewrite Hdc in Hn by (by rewrite E). done.
    + apply read_page_at_Ok in Hrd; [|done]. apply get_range_Some in Hrd as (_ & Hle & _).
      rewrite (fr_len _ _ _ _ _ Hready) in Hle. nia.
  - unfold d'. apply lookup_delete_eq.
  - intros n Hp Hn. unfold view, read_page. cbn [set_dirty pg_dirty pg_wal_pages].
    rewrite lookup_empty, Hwal, lookup_empty, Hsrc, Hold.
    destruct (new_data_pages p d data ipc nonce Hready n Hp) as [Hin Hout].
    destruct (pg_dirty p !! n) as [b|] eqn:E; [by apply Hin|]. apply Hout; [done|].
    destruct Hn as [Hs|Hle]; [by destruct Hs|done].
Qed.

Lemma example_coherent sync dirty : coherent (example_pager sync dirty) example_fs.
Proof.
  split.
  - intros n b Hn. exfalso. revert Hn. unfold cached. cbn. rewrite lookup_empty. discriminate.
  - intros n _. unfold cached. cbn. by rewrite lookup_empty.
Qed.

(** C13: What a commit makes visible.  [flush] in the rollback-journal mode at
    [synchronous = FULL], with no overlay of a log, takes the lock to EXCLUSIVE
    and, when that succeeds, commits and gives the lock back down to SHARED,
    with the transaction's level at SHARED too.  Every page that was dirty or
    in the file then reads, through the emptied dirty buffer and from the
    file, exactly as it read before the commit; the cache is still coherent
    with the new file, and the journal is gone.  When the lock is refused, the
    commit fails with its error, no file is touched and every page reads as
    before, the dirty ones included. *)
Theorem commit_preserves_view {L : Type} {F : FileLock L} (le : bool) (p : Pager (L := L)) (d : fs)
    (data : bytes) (ipc nonce s1 s2 : Z) (fresh_shm : bytes)
    (Hready : flush_ready p d data ipc nonce) (Hmode : pg_journal_mode p = Legacy) (Hsync : pg_synchronous p = SyncFull)
    (Hco : coherent p d) (Hwal : pg_wal_pages p = ∅)
    (Hkeys : ∀ n, is_Some (cached (pg_cache p) n) → 1 ≤ n ≤ U32_MAX) :
  (∀ lk lk', lock_set_level (pg_lock p) Exclusive = (Ok (), lk) → lock_set_level lk Shared = (Ok (), lk') →
     ∃ ops p', flush le p d nonce s1 s2 fresh_shm = (ops, Ok (), p') ∧
       pg_dirty p' = ∅ ∧ pg_lock p' = lk' ∧ pg_tx_lock_level p' = Shared ∧
       let d' := exec_ios d ops in
       coherent p' d' ∧ d' !! pg_journal_path p = None ∧
       ∀ n, page_ok (pg_page_size p) n → is_Some (pg_dirty p !! n) ∨ n ≤ ipc →
         view p' d' n = view p d n ∧ source_read p' d' n = view p d n) ∧
  (∀ e lk, lock_set_level (pg_lock p) Exclusive = (Err e, lk) →
     ∃ p', flush le p d nonce s1 s2 fresh_shm = ([], Err (PVfs e), p') ∧ pg_dirty p' = pg_dirty p ∧ coherent p' d ∧
       ∀ n, view p' d n = view p d n).
Proof.
  assert (Hne : pg_dirty p ≠ ∅).
  { destruct (fr_some _ _ _ _ _ Hready) as (n & [b Hb] & _). intros He. rewrite He, lookup_empty in Hb. done. }
  unfold flush, p_set_level. rewrite (decide_False (P := pg_dirty p = ∅)) by done. rewrite Hmode. rewrite decide_False by done. split.
  - intros lk lk' H1 H2. rewrite H1. cbn [p_vfs map_err].
    assert (Hready' : flush_ready (set_lock p lk) d data ipc nonce) by (destruct Hready; by split).
    destruct (flush_locked_view (set_lock p lk) d data ipc nonce Hready' Hsync Hco Hwal Hkeys) as (ops & Hf & Hco' & Hj & Hv).
    rewrite Hf. cbn [set_dirty set_lock pg_lock]. rewrite H2. cbn [p_vfs map_err]. eexists _, _. split; [reflexivity|].
    do 3 (split; [done|]). cbv zeta. split; [exact Hco'|]. split; [exact Hj|]. intros n Hn Hor. specialize (Hv n Hn Hor).
    split; [exact Hv|]. rewrite <- (Hv : view (set_dirty (set_lock p lk) ∅) _ n = view p d n). unfold view, read_page.
    cbn [set_dirty set_lock set_tx_level pg_dirty pg_wal_pages]. by rewrite Hwal, !lookup_empty.
  - intros e lk H1. rewrite H1. cbn [p_vfs map_err]. eexists. split; [reflexivity|]. by split_and!.
Qed.

Lemma commit_preserves_view_witness :
  let p := example_pager SyncFull {[1 := zeros 512]} in
  ∃ ops p', flush true p example_fs 7 0 0 [] = (ops, Ok (), p') ∧ pg_tx_lock_level p' = Shared ∧
    view p' (exec_ios example_fs ops) 1 = Ok (zeros 512).
Proof.
  destruct (commit_preserves_view true (example_pager SyncFull {[1 := zeros 512]}) example_fs
    (new_empty_page1 512) 1 7 0 0 [] (example_ready SyncFull) eq_refl eq_refl
    (example_coherent SyncFull _) eq_refl) as [Hok _].
  - intros n [b Hn]. exfalso. revert Hn. unfold cached. cbn. rewrite lookup_empty. discriminate.
  - destruct (Hok () () eq_refl eq_refl) as (ops & p' & Hf & _ & _ & Hl & _ & _ & Hv).
    exists ops, p'. split; [exact Hf|]. split; [exact Hl|].
    destruct (Hv 1) as [Hv1 _]; [split; unfold U32_MAX; cbn; lia|right; lia|].
    etransitivity; [exact Hv1|].
    unfold view. cbn [pg_dirty example_pager]. by rewrite lookup_singleton_eq.
Defined.
