(* ===== verification/Allocator.v ===== *)
(** * The page allocator ([Pager::allocate_page], [Pager::deallocate_page])

    The freelist as a chain of trunk pages in what the pager's reader sees,
    and the refinement of the two operations to an abstract allocator: a
    page count and a set of free pages. *)

From S2P Require Import Prelude Vfs Header Freelist PageCache Lock Pager Commit.

(** ** The abstract allocator *)

Record allocator : Type := { al_count : Z; al_free : gset Z }.

(** Allocation takes any free page, and extends the database only when there
    is none. *)
Definition alloc_spec (a : allocator) (n : Z) (a' : allocator) : Prop :=
  (al_free a = ∅ ∧ n = al_count a + 1 ∧ a' = {| al_count := n; al_free := ∅ |}) ∨
  (n ∈ al_free a ∧ a' = {| al_count := al_count a; al_free := al_free a ∖ {[n]} |}).

Definition dealloc_spec (a : allocator) (n : Z) (a' : allocator) : Prop :=
  a' = {| al_count := al_count a; al_free := {[n]} ∪ al_free a |}.

(** The pages in use by the client: everything but page 1 and free pages. *)
Definition live (a : allocator) (n : Z) : Prop := 2 ≤ n ≤ al_count a ∧ n ∉ al_free a.

(** ** The freelist on disk *)

(** A freelist is a list of trunks, each a page number and its leaves. *)
Fixpoint free_pages (ts : list (Z * list Z)) : list Z :=
  match ts with
  | [] => []
  | (t, ls) :: ts => t :: ls ++ free_pages ts
  end.

Definition free_set (ts : list (Z * list Z)) : gset Z := list_to_set (free_pages ts).

Fixpoint chain (vw : Z → result PageError bytes) (ps head : Z) (ts : list (Z * list Z)) : Prop :=
  match ts with
  | [] => head = 0
  | (t, ls) :: ts =>
      head = t ∧ ∃ next buf, vw t = Ok buf ∧ zlen buf = ps ∧
        TrunkPage_parse buf = Ok {| next_trunk := next; leaves := ls |} ∧
        zlen ls ≤ max_leaves_per_trunk ps ∧ chain vw ps next ts
  end.

(** Page 1 of a well-formed database. *)
Definition page1_holds (vw : Z → result PageError bytes) (ps count head free : Z) : Prop :=
  ∃ b1, vw 1 = Ok b1 ∧ zlen b1 = ps ∧ read_be 4 b1 PAGE_COUNT_OFFSET = Some count ∧
    read_be 4 b1 FREELIST_TRUNK_PAGE_OFFSET = Some head ∧
    read_be 4 b1 FREELIST_PAGE_COUNT_OFFSET = Some free.

Record alloc_inv `{FileLock L} (p : Pager (L := L)) (d : fs) (count : Z) (ts : list (Z * list Z))
  : Prop := {
  ai_coherent : coherent p d;
  ai_ps : 512 ≤ pg_page_size p ≤ 65536;
  ai_head : ∃ head, page1_holds (view p d) (pg_page_size p) count head (zlen (free_pages ts)) ∧
                    chain (view p d) (pg_page_size p) head ts;
  ai_nodup : NoDup (free_pages ts);
  ai_range : Forall (λ n, 2 ≤ n ≤ count) (free_pages ts);
  ai_count : 1 ≤ count < U32_MAX;
  ai_pages : ∀ n, 1 ≤ n ≤ count → ∃ b, view p d n = Ok b ∧ zlen b = pg_page_size p;
  ai_end : ∀ n b, count < n → source_read p d n ≠ Ok b;
}.

(** ** Lists of pages *)

Lemma range_length (l : list Z) c : NoDup l → Forall (λ n, 2 ≤ n ≤ c) l → 1 ≤ c → zlen l ≤ c - 1.
Proof.
  intros Hnd Hr Hc. assert (Hsub : l ⊆+ seqZ 2 (c - 1)).
  { apply NoDup_submseteq; [done|]. intros x Hx. apply elem_of_seqZ.
    rewrite Forall_forall in Hr. specialize (Hr x Hx). lia. }
  apply submseteq_length in Hsub. rewrite length_seqZ in Hsub. lia.
Qed.

Lemma chain_ext vw vw' ps ts head :
  (∀ t, t ∈ ts.*1 → vw' t = vw t) → chain vw ps head ts → chain vw' ps head ts.
Proof.
  revert head. induction ts as [|[t ls] ts IH]; intros head Hext; cbn [chain]; [done|].
  intros (-> & next & buf & Hv & Hl & Hp & Hm & Hch). split; [done|]. exists next, buf.
  rewrite Hext by (cbn; left). split_and!; try done. apply IH; [|done].
  intros u Hu. apply Hext. cbn. by right.
Qed.

Lemma trunks_free ts t : t ∈ ts.*1 → t ∈ free_pages ts.
Proof.
  induction ts as [|[u ls] ts IH]; cbn; [by intros ?%elem_of_nil|].
  rewrite !elem_of_cons, elem_of_app. naive_solver.
Qed.

Lemma free_pages_leaf t ls leaf ts :
  free_pages ((t, ls ++ [leaf]) :: ts) ≡ₚ leaf :: free_pages ((t, ls) :: ts).
Proof. cbn [free_pages]. rewrite <- (assoc_L (++)). cbn [app]. solve_Permutation. Qed.

Lemma chain_head_ok vw ps head ts c :
  chain vw ps head ts → Forall (λ n, 2 ≤ n ≤ c) (free_pages ts) → c < U32_MAX → 0 ≤ head ≤ c ∨ head = 0.
Proof.
  destruct ts as [|[t ls] ts]; cbn [chain free_pages]; [by right|].
  intros [-> _] [? _]%Forall_cons _. left. lia.
Qed.

Lemma chain_zero vw ps ts c :
  chain vw ps 0 ts → Forall (λ n, 2 ≤ n ≤ c) (free_pages ts) → ts = [].
Proof.
  destruct ts as [|[t ls] ts]; cbn [chain free_pages]; [done|].
  intros [<- _] [? _]%Forall_cons. lia.
Qed.

(** ** Edits *)

Lemma edit_u32_spec buf off v :
  0 ≤ off → off + 4 ≤ zlen buf → zlen buf ≤ 65536 → 0 ≤ v ≤ U32_MAX →
  ∃ buf', edit_u32 off v buf = (buf', Ok ()) ∧ length buf' = length buf ∧
    read_be 4 buf' off = Some v ∧
    ∀ o, 0 ≤ o → o + 4 ≤ zlen buf → o + 4 ≤ off ∨ off + 4 ≤ o →
      read_be 4 buf' o = read_be 4 buf o.
Proof.
  intros H0 Hl Hm Hv. unfold edit_u32, write_be_u32.
  destruct (put_range_is_Some buf off (be_bytes 4 v)) as [buf' Hp];
    [done|rewrite be_bytes_length; lia|].
  rewrite Hp. cbn [ok_or]. exists buf'. split; [done|]. split; [by eapply put_range_length|]. split.
  - eapply read_be_put_same; [done|mlia|unfold U32_MAX in Hv; lia].
  - intros o Ho Hol Hdis. eapply read_be_put_disjoint; [done|done|mlia|].
    rewrite be_bytes_length. lia.
Qed.

Lemma edit_freelist_spec buf trunk count :
  512 ≤ zlen buf ≤ 65536 → 0 ≤ trunk ≤ U32_MAX → 0 ≤ count ≤ U32_MAX →
  ∃ buf', edit_freelist trunk count buf = (buf', Ok ()) ∧ length buf' = length buf ∧
    read_be 4 buf' FREELIST_TRUNK_PAGE_OFFSET = Some trunk ∧
    read_be 4 buf' FREELIST_PAGE_COUNT_OFFSET = Some count ∧
    read_be 4 buf' PAGE_COUNT_OFFSET = read_be 4 buf PAGE_COUNT_OFFSET.
Proof.
  intros Hl Ht Hc. unfold edit_freelist, FREELIST_TRUNK_PAGE_OFFSET, FREELIST_PAGE_COUNT_OFFSET,
    PAGE_COUNT_OFFSET.
  destruct (edit_u32_spec buf 32 trunk) as (b1 & -> & L1 & R1 & O1); [lia..|done|].
  destruct (edit_u32_spec b1 36 count) as (b2 & -> & L2 & R2 & O2); [lia..|done|].
  exists b2. split; [done|]. split; [congruence|]. split_and!; [|done|].
  - rewrite O2; [done|lia..].
  - rewrite O2, O1; [done|lia..].
Qed.

Lemma edit_trunk_spec t buf :
  512 ≤ zlen buf ≤ 65536 → TrunkPage_ok t → zlen (leaves t) ≤ max_leaves_per_trunk (zlen buf) →
  edit_trunk t buf = (trunk_image t (zlen buf), Ok ()) ∧
  zlen (trunk_image t (zlen buf)) = zlen buf ∧
  TrunkPage_parse (trunk_image t (zlen buf)) = Ok t.
Proof.
  intros Hl Ht Hfit. apply max_leaves_fit in Hfit; [|lia].
  assert (zlen buf ≤ ISIZE_MAX) by mlia.
  unfold edit_trunk. rewrite TrunkPage_write_eq by (done || lia). split_and!; [done| |].
  - by apply trunk_image_length.
  - apply TrunkPage_parse_image; [done..|lia|done].
Qed.

Section allocator.
Context `{FileLock L}.
Implicit Types (p : Pager (L := L)) (d : fs) (n : Z).

(** [p'] is [p] after changes to what a reader sees, given by [vw]. *)
Record moved p d p' (vw : Z → result PageError bytes) : Prop := {
  mv_coherent : coherent p' d;
  mv_view : ∀ m, view p' d m = vw m;
  mv_ps : pg_page_size p' = pg_page_size p;
  mv_src : ∀ m, source_read p' d m = source_read p d m;
}.

Definition upd (vw : Z → result PageError bytes) n (b : bytes) : Z → result PageError bytes :=
  λ m, if decide (m = n) then Ok b else vw m.

Lemma upd_same vw n b : upd vw n b n = Ok b.
Proof. unfold upd. by rewrite decide_True. Qed.

Lemma upd_other vw n b m : m ≠ n → upd vw n b m = vw m.
Proof. unfold upd. intros. by rewrite decide_False. Qed.

Lemma upd_ext vw vw' n b : (∀ m, vw m = vw' m) → ∀ m, upd vw n b m = upd vw' n b m.
Proof. intros Hext m. unfold upd. by case_decide. Qed.

Lemma view_insert p d n b m :
  view (set_dirty p (<[n := b]> (pg_dirty p))) d m = upd (view p d) n b m.
Proof.
  unfold view, upd. cbn [set_dirty pg_dirty]. case_decide as Hm.
  - subst. by rewrite lookup_insert_eq.
  - by rewrite lookup_insert_ne by congruence.
Qed.

Lemma moved_write p d n b :
  coherent p d → cached (pg_cache p) n = None → moved p d (write_dirty p n b) (upd (view p d) n b).
Proof.
  intros [Hc Hd] Hn. split; [split; [exact Hc|]|apply view_insert|done|done].
  intros m. cbn [write_dirty set_dirty pg_dirty pg_cache]. destruct (decide (m = n)) as [->|]; [done|].
  rewrite lookup_insert_ne by congruence. apply Hd.
Qed.

Lemma moved_trans p1 p2 p3 d vw2 vw3 :
  moved p1 d p2 vw2 → moved p2 d p3 vw3 → moved p1 d p3 vw3.
Proof.
  intros M1 M2. split.
  - apply (mv_coherent _ _ _ _ M2).
  - apply (mv_view _ _ _ _ M2).
  - rewrite (mv_ps _ _ _ _ M2). apply (mv_ps _ _ _ _ M1).
  - intros m. rewrite (mv_src _ _ _ _ M2). apply (mv_src _ _ _ _ M1).
Qed.

Lemma moved_ext p d p' vw vw' : (∀ m, vw m = vw' m) → moved p d p' vw → moved p d p' vw'.
Proof. intros Hext []. split; try done. intros m. rewrite <- Hext. done. Qed.

Lemma pm_read_spec p d n :
  coherent p d → ∃ p', pm_read n p d = (p_page (view p d n), p') ∧ moved p d p' (view p d).
Proof.
  intros Hco. destruct (Pager_read_page_spec p d n Hco) as (p' & Hr & Hs & Hco').
  unfold pm_read. rewrite Hr. exists p'. split; [done|]. rewrite Hs in Hco' |- *. by split.
Qed.

Lemma pm_read_ps p d n r p' :
  coherent p d → pm_read n p d = (r, p') → pg_page_size p' = pg_page_size p.
Proof.
  intros Hco Hr. destruct (pm_read_spec p d n Hco) as (q & Hq & M). rewrite Hq in Hr.
  injection Hr as _ <-. apply (mv_ps _ _ _ _ M).
Qed.

Lemma pm_edit_spec p d n b b' edit r :
  coherent p d → view p d n = Ok b → edit b = (b', r) →
  ∃ p', pm_edit n edit p d = (r, p') ∧ moved p d p' (upd (view p d) n b').
Proof.
  intros Hco Hv He. destruct (get_page_mut_spec p d n Hco) as (p1 & Hg & Hco1 & Hv1 & Hd1 & _ & Hp1).
  unfold pm_edit. rewrite Hg, Hv. cbn [p_page map_err]. rewrite He.
  exists (write_dirty p1 n b'). split; [done|].
  assert (Hn : cached (pg_cache p1) n = None).
  { destruct Hco1 as [_ Hd]. apply Hd. rewrite (Hd1 b Hv), lookup_insert_eq. eauto. }
  destruct (moved_write p1 d n b' Hco1 Hn) as [M1 M2 M3 M4]. split; [done| | |].
  - intros m. rewrite M2. unfold upd. by rewrite Hv1.
  - rewrite M3. by rewrite Hp1.
  - intros m. rewrite M4. by rewrite Hp1.
Qed.
Lemma pm_bind_Ok {A B} (m : PM (L := L) A) (k : A → PM (L := L) B) p d a p1 :
  m p d = (Ok a, p1) → pm_bind m k p d = k a p1 d.
Proof. unfold pm_bind. by intros ->. Qed.

Lemma pm_lift_Ok {A B} (r : result PagerError A) (k : A → PM (L := L) B) p d a :
  r = Ok a → pm_bind (pm_lift r) k p d = k a p d.
Proof. by intros ->. Qed.

(** The invariant after an operation, from what the operation did. *)
Lemma inv_rebuild p d p' vw count ts count' ts' head :
  alloc_inv p d count ts → moved p d p' vw →
  page1_holds vw (pg_page_size p) count' head (zlen (free_pages ts')) →
  chain vw (pg_page_size p) head ts' →
  NoDup (free_pages ts') → Forall (λ n, 2 ≤ n ≤ count') (free_pages ts') →
  count ≤ count' < U32_MAX →
  (∀ n, 1 ≤ n ≤ count' → ∃ b, vw n = Ok b ∧ zlen b = pg_page_size p) →
  alloc_inv p' d count' ts'.
Proof.
  intros I [M1 M2 M3 M4] H1 Hch Hnd Hr Hc Hpg. split; rewrite ?M3; try done.
  - apply (ai_ps _ _ _ _ I).
  - exists head. split.
    + destruct H1 as (b1 & Hb & ?). exists b1. by rewrite M2.
    + apply (chain_ext vw); [intros; apply M2|done].
  - pose proof (ai_count _ _ _ _ I). lia.
  - intros n Hn. rewrite M2. by apply Hpg.
  - intros n b Hn. rewrite M4. apply (ai_end _ _ _ _ I). lia.
Qed.

Lemma inv_read p d p' count ts :
  alloc_inv p d count ts → moved p d p' (view p d) → alloc_inv p' d count ts.
Proof.
  intros I M. destruct (ai_head _ _ _ _ I) as (head & H1 & Hch). eapply inv_rebuild; try done.
  - apply (ai_nodup _ _ _ _ I).
  - apply (ai_range _ _ _ _ I).
  - pose proof (ai_count _ _ _ _ I). lia.
  - apply (ai_pages _ _ _ _ I).
Qed.

(** A page past the end of the database is not cached. *)
Lemma fresh_not_cached p d count ts n :
  alloc_inv p d count ts → count < n → cached (pg_cache p) n = None.
Proof.
  intros I Hn. destruct (ai_coherent _ _ _ _ I) as [Hc _].
  destruct (cached (pg_cache p) n) as [b|] eqn:E; [|done].
  apply Hc in E. by apply (ai_end _ _ _ _ I) in E.
Qed.

(** The writable image of page 1 stays well formed. *)
Lemma page1_update p d count head free vw trunk' count' :
  512 ≤ pg_page_size p ≤ 65536 → page1_holds (view p d) (pg_page_size p) count head free →
  vw 1 = view p d 1 → 0 ≤ trunk' ≤ U32_MAX → 0 ≤ count' ≤ U32_MAX →
  ∃ b1 b1', vw 1 = Ok b1 ∧ edit_freelist trunk' count' b1 = (b1', Ok ()) ∧
    zlen b1' = pg_page_size p ∧ page1_holds (upd vw 1 b1') (pg_page_size p) count trunk' count'.
Proof.
  intros Hps (b1 & Hv & Hl & Hc & _) -> Ht Hc'.
  destruct (edit_freelist_spec b1 trunk' count') as (b1' & He & Hl' & Ht' & Hf' & Hc1); [lia|done..|].
  exists b1, b1'. split_and!; [done|done|lia|]. exists b1'. rewrite upd_same, Hc1.
  split_and!; try done. lia.
Qed.

Lemma upd_pages (vw : Z → result PageError bytes) ps c n b :
  (∀ m, 1 ≤ m ≤ c → ∃ b, vw m = Ok b ∧ zlen b = ps) → zlen b = ps →
  ∀ m, 1 ≤ m ≤ c → ∃ b', upd vw n b m = Ok b' ∧ zlen b' = ps.
Proof. intros Hvw Hb m Hm. unfold upd. case_decide; [by exists b|by apply Hvw]. Qed.

(** What an operation leaves alone. *)
Definition untouched p p' d (ts : list (Z * list Z)) n : Prop :=
  ∀ m, m ≠ 1 → m ≠ n → m ∉ free_pages ts → view p' d m = view p d m.

Lemma be_u32_Ok b off v : read_be 4 b off = Some v → p_free (read_be_u32 b off) = Ok v.
Proof. unfold read_be_u32. by intros ->. Qed.

(** The header fields both operations start from. *)
Lemma read_header p d count ts :
  alloc_inv p d count ts →
  ∃ p1 b1 head, pm_read 1 p d = (Ok b1, p1) ∧ moved p d p1 (view p d) ∧ alloc_inv p1 d count ts ∧
    (view p d 1 = Ok b1 ∧ zlen b1 = pg_page_size p ∧ read_be 4 b1 PAGE_COUNT_OFFSET = Some count ∧
     read_be 4 b1 FREELIST_TRUNK_PAGE_OFFSET = Some head ∧
     read_be 4 b1 FREELIST_PAGE_COUNT_OFFSET = Some (zlen (free_pages ts))) ∧
    chain (view p d) (pg_page_size p) head ts.
Proof.
  intros I. destruct (pm_read_spec p d 1 (ai_coherent _ _ _ _ I)) as (p1 & Hr & M1).
  destruct (ai_head _ _ _ _ I) as (head & (b1 & Hv & ?) & ?). rewrite Hv in Hr.
  exists p1, b1, head. split_and!; try done; [|tauto..]. by eapply inv_read.
Qed.

Lemma allocate_extend p d count :
  alloc_inv p d count [] →
  ∃ p', allocate_page p d = (Ok (count + 1), p') ∧
    (count + 1 < U32_MAX → alloc_inv p' d (count + 1) []) ∧
    untouched p p' d [] (count + 1) ∧ view p' d (count + 1) = Ok (zeros (pg_page_size p)).
Proof.
  intros I. pose proof (ai_ps _ _ _ _ I) as Hps. pose proof (ai_count _ _ _ _ I) as Hcb.
  destruct (read_header p d count [] I) as (p1 & b1 & head & Hr & M1 & I1 & (Hv & Hl & Hc & Hh & Hf) & ->).
  unfold allocate_page. rewrite (pm_bind_Ok _ _ _ _ _ _ Hr).
  rewrite (pm_lift_Ok _ _ _ _ _ (be_u32_Ok _ _ _ Hc)), (pm_lift_Ok _ _ _ _ _ (be_u32_Ok _ _ _ Hh)),
    (pm_lift_Ok _ _ _ _ _ (be_u32_Ok _ _ _ Hf)).
  rewrite decide_True by done.
  assert (Hsat : sat_add32 count 1 = count + 1) by (unfold sat_add32, U32_MAX in *; lia). rewrite Hsat.
  cbn beta iota zeta. rewrite (pm_bind_Ok _ _ _ _ () (write_dirty p1 (count + 1) (zeros (pg_page_size p1))))
    by done.
  pose proof (moved_write p1 d (count + 1) (zeros (pg_page_size p1)) (mv_coherent _ _ _ _ M1)
    (fresh_not_cached _ _ _ _ (count + 1) I1 ltac:(lia))) as M2.
  set (p2 := write_dirty p1 _ _) in *.
  destruct (edit_u32_spec b1 PAGE_COUNT_OFFSET (count + 1)) as (b1' & He & Hl' & Hr' & Ho');
    [unfold PAGE_COUNT_OFFSET; mlia..|].
  assert (Hv2 : view p2 d 1 = Ok b1).
  { rewrite (mv_view _ _ _ _ M2), upd_other by lia. by rewrite (mv_view _ _ _ _ M1). }
  destruct (pm_edit_spec p2 d 1 b1 b1' _ _ (mv_coherent _ _ _ _ M2) Hv2 He) as (p3 & Hp3 & M3).
  rewrite (pm_bind_Ok _ _ _ _ _ _ Hp3). exists p3. split; [done|].
  assert (Hvw : ∀ m, upd (view p2 d) 1 b1' m
                     = upd (upd (view p d) (count + 1) (zeros (pg_page_size p))) 1 b1' m).
  { apply upd_ext. intros m. rewrite (mv_view _ _ _ _ M2), (mv_ps _ _ _ _ M1).
    apply upd_ext, (mv_view _ _ _ _ M1). }
  pose proof (moved_ext _ _ _ _ _ Hvw (moved_trans _ _ _ _ _ _ M1
    (moved_trans _ _ _ _ _ _ M2 M3))) as M. split_and!.
  - intros Hlt. eapply (inv_rebuild _ _ _ _ _ _ _ _ 0 I M); try done; cbn [free_pages];
      [|apply NoDup_nil_2|lia|].
    + exists b1'. rewrite upd_same. split_and!; [done|lia|done| |].
      * rewrite Ho'; [done|unfold PAGE_COUNT_OFFSET, FREELIST_TRUNK_PAGE_OFFSET; lia..].
      * rewrite Ho'; [done|unfold PAGE_COUNT_OFFSET, FREELIST_PAGE_COUNT_OFFSET; lia..].
    + apply upd_pages; [|lia]. intros m Hm. unfold upd. case_decide.
      * exists (zeros (pg_page_size p)). split; [done|]. apply length_zeros. lia.
      * apply (ai_pages _ _ _ _ I). lia.
  - intros m H1 Hn _. rewrite (mv_view _ _ _ _ M), !upd_other by done. done.
  - rewrite (mv_view _ _ _ _ M), upd_other by lia. apply upd_same.
Qed.

(** Rewriting a free page's image, then the two freelist fields of page 1. *)
Lemma edit_then_header p d count head free t buf img edit trunk' count' :
  coherent p d → 512 ≤ pg_page_size p ≤ 65536 →
  page1_holds (view p d) (pg_page_size p) count head free →
  t ≠ 1 → view p d t = Ok buf → edit buf = (img, Ok ()) →
  0 ≤ trunk' ≤ U32_MAX → 0 ≤ count' ≤ U32_MAX →
  ∃ p1 p2 b1', pm_edit t edit p d = (Ok (), p1) ∧
    pm_edit 1 (edit_freelist trunk' count') p1 d = (Ok (), p2) ∧ zlen b1' = pg_page_size p ∧
    moved p d p2 (upd (upd (view p d) t img) 1 b1') ∧
    page1_holds (upd (upd (view p d) t img) 1 b1') (pg_page_size p) count trunk' count'.
Proof.
  intros Hco Hps H1 Ht Hv He Ht' Hc'.
  destruct (pm_edit_spec p d t buf img _ _ Hco Hv He) as (p1 & Hp1 & M1).
  destruct (page1_update p d count head free (upd (view p d) t img) trunk' count')
    as (b1 & b1' & Hb1 & He1 & Hl1 & Hh1); try done; [by apply upd_other|].
  rewrite <- (mv_view _ _ _ _ M1) in Hb1.
  destruct (pm_edit_spec p1 d 1 b1 b1' _ _ (mv_coherent _ _ _ _ M1) Hb1 He1) as (p2 & Hp2 & M2).
  exists p1, p2, b1'. split_and!; try done.
  apply (moved_ext _ _ _ (upd (view p1 d) 1 b1')); [apply upd_ext, (mv_view _ _ _ _ M1)|].
  by eapply moved_trans.
Qed.

Lemma free_bounds p d count ts :
  alloc_inv p d count ts → 0 ≤ zlen (free_pages ts) ≤ count - 1.
Proof.
  intros I. pose proof (range_length _ _ (ai_nodup _ _ _ _ I) (ai_range _ _ _ _ I)
    ltac:(apply (ai_count _ _ _ _ I))). lia.
Qed.

Lemma range_ne_1 count l n : Forall (λ n, 2 ≤ n ≤ count) l → n ∈ l → n ≠ 1.
Proof. intros Hf Hn. rewrite Forall_forall in Hf. specialize (Hf n Hn). lia. Qed.

Lemma range_u32 count l : Forall (λ n, 2 ≤ n ≤ count) l → count < U32_MAX → Forall u32_ok l.
Proof. intros Hf Hc. eapply Forall_impl; [done|]. cbn. intros. mlia. Qed.

(** A freelist whose first trunk [t] has the image [img] of [ls']. *)
Lemma chain_retrunk p d ps t ls' ts img next b1' :
  chain (view p d) ps next ts → NoDup (t :: free_pages ts) →
  (∀ n, n ∈ t :: free_pages ts → n ≠ 1) → zlen img = ps →
  TrunkPage_parse img = Ok {| next_trunk := next; leaves := ls' |} →
  zlen ls' ≤ max_leaves_per_trunk ps →
  chain (upd (upd (view p d) t img) 1 b1') ps t ((t, ls') :: ts).
Proof.
  intros Hch [Hnt _]%NoDup_cons Hne Hl Hp Hm. cbn [chain]. split; [done|]. exists next, img.
  assert (t ≠ 1) by (apply Hne; left).
  rewrite upd_other, upd_same by done. split_and!; try done.
  apply (chain_ext (view p d)); [|done]. intros u Hu%trunks_free.
  rewrite !upd_other; [done| |].
  - intros ->. done.
  - apply Hne. by right.
Qed.

(** The reads both operations make when there is a first trunk. *)
Lemma read_trunk p d count t ls ts :
  alloc_inv p d count ((t, ls) :: ts) →
  ∃ p1 b1 p2 buf next,
    pm_read 1 p d = (Ok b1, p1) ∧ pm_read t p1 d = (Ok buf, p2) ∧ alloc_inv p2 d count ((t, ls) :: ts) ∧
    (∀ m, view p2 d m = view p d m) ∧ pg_page_size p2 = pg_page_size p ∧
    (read_be 4 b1 PAGE_COUNT_OFFSET = Some count ∧
     read_be 4 b1 FREELIST_TRUNK_PAGE_OFFSET = Some t ∧
     read_be 4 b1 FREELIST_PAGE_COUNT_OFFSET = Some (zlen (free_pages ((t, ls) :: ts)))) ∧
    page1_holds (view p2 d) (pg_page_size p2) count t (zlen (free_pages ((t, ls) :: ts))) ∧
    (view p2 d t = Ok buf ∧ zlen buf = pg_page_size p2 ∧
     TrunkPage_parse buf = Ok {| next_trunk := next; leaves := ls |} ∧
     zlen ls ≤ max_leaves_per_trunk (pg_page_size p2) ∧ chain (view p2 d) (pg_page_size p2) next ts) ∧
    2 ≤ t ≤ count ∧ 0 ≤ next ≤ count.
Proof.
  intros I. pose proof (ai_range _ _ _ _ I) as Hrg. pose proof (ai_count _ _ _ _ I) as Hcb.
  destruct (read_header p d count _ I)
    as (p1 & b1 & head & Hr & M1 & I1 & (Hv & Hl & Hc & Hh & Hf) & Hch).
  destruct Hch as (-> & next & buf & Hvt & Hlb & Hpt & Hmx & Hch).
  destruct (pm_read_spec p1 d t (mv_coherent _ _ _ _ M1)) as (p2 & Hr2 & M2).
  rewrite (mv_view _ _ _ _ M1), Hvt in Hr2.
  assert (M : moved p d p2 (view p d)).
  { apply (moved_trans _ p1 _ _ (view p d)); [done|].
    apply (moved_ext _ _ _ (view p1 d)); [apply (mv_view _ _ _ _ M1)|done]. }
  pose proof (mv_view _ _ _ _ M) as Hvw. cbn [free_pages] in Hrg.
  apply Forall_cons in Hrg as [Ht [_ Hrg]%Forall_app].
  exists p1, b1, p2, buf, next. rewrite (mv_ps _ _ _ _ M), Hvw.
  split_and!; try done; try lia.
  - by eapply inv_read.
  - exists b1. by rewrite Hvw.
  - apply (chain_ext (view p d)); [intros; apply Hvw|done].
  - destruct (chain_head_ok _ _ _ _ _ Hch Hrg); lia.
  - destruct (chain_head_ok _ _ _ _ _ Hch Hrg); lia.
Qed.

(** Writing [t] as the first trunk, with leaves [ls'], before the chain [ts]. *)
Lemma retrunk p d count ts0 t ls' next ts :
  alloc_inv p d count ts0 → chain (view p d) (pg_page_size p) next ts →
  NoDup (free_pages ((t, ls') :: ts)) → Forall (λ n, 2 ≤ n ≤ count) (free_pages ((t, ls') :: ts)) →
  zlen ls' ≤ max_leaves_per_trunk (pg_page_size p) →
  ∃ p1 p2, pm_edit t (edit_trunk {| next_trunk := next; leaves := ls' |}) p d = (Ok (), p1) ∧
    pm_edit 1 (edit_freelist t (zlen (free_pages ((t, ls') :: ts)))) p1 d = (Ok (), p2) ∧
    alloc_inv p2 d count ((t, ls') :: ts) ∧
    ∀ m, m ≠ 1 → m ≠ t → view p2 d m = view p d m.
Proof.
  intros I Hch Hnd Hrg Hmx. pose proof (ai_ps _ _ _ _ I) as Hps.
  pose proof (ai_count _ _ _ _ I) as Hcb. destruct (ai_head _ _ _ _ I) as (head & H1 & _).
  pose proof (range_length _ _ Hnd Hrg ltac:(lia)) as Hfl.
  pose proof Hrg as [Ht [Hls Hts]%Forall_app]%Forall_cons.
  destruct (ai_pages _ _ _ _ I t ltac:(lia)) as (buf & Hvt & Hlb).
  set (tr := {| next_trunk := next; leaves := ls' |}).
  destruct (edit_trunk_spec tr buf) as (He & Hli & Hpi); [lia| |cbn; by rewrite Hlb|].
  { split; [cbn|by apply (range_u32 count); [|lia]].
    destruct (chain_head_ok _ _ _ _ _ Hch Hts); mlia. }
  destruct (edit_then_header p d count head _ t buf _ (edit_trunk tr) t
    (zlen (free_pages ((t, ls') :: ts))) (ai_coherent _ _ _ _ I) Hps H1
    ltac:(lia) Hvt He ltac:(lia) ltac:(lia)) as (p1 & p2 & b1' & Hp1 & Hp2 & Hl' & M & H1').
  exists p1, p2. split_and!; try done.
  - eapply (inv_rebuild _ _ _ _ _ _ _ _ t I M); try done; [|lia|].
    + apply (chain_retrunk _ _ _ _ _ _ _ next); try done; [| |by rewrite Hli].
      * cbn [free_pages] in Hnd. apply NoDup_cons in Hnd as [Hnt Hnd].
        apply NoDup_app in Hnd as (_ & _ & Hnd). apply NoDup_cons. set_solver.
      * intros n Hn. apply (range_ne_1 count (free_pages ((t, ls') :: ts))); [done|]. cbn. set_solver.
    + apply upd_pages; [|done]. apply upd_pages; [apply (ai_pages _ _ _ _ I)|by rewrite Hli].
  - intros m Hm1 Hmt. rewrite (mv_view _ _ _ _ M), !upd_other by done. done.
Qed.

Lemma allocate_leaf p d count t ls leaf ts :
  alloc_inv p d count ((t, ls ++ [leaf]) :: ts) →
  ∃ p', allocate_page p d = (Ok leaf, p') ∧ alloc_inv p' d count ((t, ls) :: ts) ∧
    untouched p p' d ((t, ls ++ [leaf]) :: ts) leaf.
Proof.
  intros I. destruct (read_trunk p d count t _ ts I) as (p1 & b1 & p2 & buf & next & Hr1 & Hr2 & I2 &
    Hvw & Hps2 & (Hc & Hh & Hf) & H1 & (Hvt & Hlb & Hpt & Hmx & Hch) & Ht & Hn).
  pose proof (ai_nodup _ _ _ _ I2) as Hnd. pose proof (ai_range _ _ _ _ I2) as Hrg.
  rewrite free_pages_leaf in Hnd, Hrg, Hf.
  apply NoDup_cons in Hnd as [Hnl Hnd]. apply Forall_cons in Hrg as [Hlf Hrg].
  rewrite length_app in Hmx. cbn [length] in Hmx.
  destruct (retrunk p2 d count _ t ls next ts I2 Hch Hnd Hrg ltac:(lia))
    as (p3 & p4 & Hp3 & Hp4 & I4 & Hv4).
  unfold allocate_page. rewrite (pm_bind_Ok _ _ _ _ _ _ Hr1).
  rewrite (pm_lift_Ok _ _ _ _ _ (be_u32_Ok _ _ _ Hc)), (pm_lift_Ok _ _ _ _ _ (be_u32_Ok _ _ _ Hh)),
    (pm_lift_Ok _ _ _ _ _ (be_u32_Ok _ _ _ Hf)).
  rewrite decide_False by lia. rewrite (pm_bind_Ok _ _ _ _ _ _ Hr2).
  rewrite (pm_lift_Ok _ _ _ _ {| next_trunk := next; leaves := ls ++ [leaf] |}) by (by rewrite Hpt).
  cbn [leaves next_trunk]. rewrite last_snoc, length_app. cbn [length].
  rewrite Nat.add_sub, take_app_length. exists p4.
  rewrite (pm_bind_Ok (pm_bind _ _) _ _ _ (leaf, t) p3) by (by rewrite (pm_bind_Ok _ _ _ _ _ _ Hp3)).
  cbn [fst snd]. rewrite sat_sub_ge by lia.
  replace (Z.of_nat (S _) - 1) with (zlen (free_pages ((t, ls) :: ts))) by lia.
  rewrite (pm_bind_Ok _ _ _ _ _ _ Hp4). split_and!; [done|done|].
  intros m Hm1 Hml Hmf. rewrite <- Hvw. apply Hv4; [done|]. intros ->. apply Hmf. cbn. left.
Qed.

Lemma allocate_trunk p d count t ts :
  alloc_inv p d count ((t, []) :: ts) →
  ∃ p', allocate_page p d = (Ok t, p') ∧ alloc_inv p' d count ts ∧ untouched p p' d ((t, []) :: ts) t.
Proof.
  intros I. destruct (read_trunk p d count t _ ts I) as (p1 & b1 & p2 & buf & next & Hr1 & Hr2 & I2 &
    Hvw & Hps2 & (Hc & Hh & Hf) & H1 & (Hvt & Hlb & Hpt & Hmx & Hch) & Ht & Hn).
  pose proof (ai_count _ _ _ _ I2) as Hcb. pose proof (free_bounds _ _ _ _ I2) as Hfb.
  pose proof (ai_nodup _ _ _ _ I2) as [Hnt Hnd]%NoDup_cons.
  pose proof (ai_range _ _ _ _ I2) as [_ Hrg]%Forall_cons.
  cbn [free_pages app length] in Hf, Hfb, Hnt, Hnd, Hrg.
  destruct (page1_update p2 d count t _ (view p2 d) next (zlen (free_pages ts)) (ai_ps _ _ _ _ I2) H1
    eq_refl ltac:(lia) ltac:(lia)) as (b2 & b2' & Hv2 & He2 & Hl2 & Hh2).
  destruct (pm_edit_spec p2 d 1 b2 b2' _ _ (ai_coherent _ _ _ _ I2) Hv2 He2) as (p3 & Hp3 & M3).
  unfold allocate_page. rewrite (pm_bind_Ok _ _ _ _ _ _ Hr1).
  rewrite (pm_lift_Ok _ _ _ _ _ (be_u32_Ok _ _ _ Hc)), (pm_lift_Ok _ _ _ _ _ (be_u32_Ok _ _ _ Hh)),
    (pm_lift_Ok _ _ _ _ _ (be_u32_Ok _ _ _ Hf)).
  rewrite decide_False by lia. rewrite (pm_bind_Ok _ _ _ _ _ _ Hr2).
  rewrite (pm_lift_Ok _ _ _ _ {| next_trunk := next; leaves := [] |}) by (by rewrite Hpt).
  cbn [leaves next_trunk last]. exists p3. rewrite (pm_bind_Ok _ _ _ _ (t, next) p2) by done.
  cbn [fst snd]. rewrite sat_sub_ge by lia.
  replace (Z.of_nat (S _) - 1) with (zlen (free_pages ts)) by lia.
  rewrite (pm_bind_Ok _ _ _ _ _ _ Hp3). split_and!; [done| |].
  - eapply (inv_rebuild _ _ _ _ _ _ _ _ next I2 M3); try done; [|lia|].
    + apply (chain_ext (view p2 d)); [|done]. intros u Hu%trunks_free. apply upd_other.
      by apply (range_ne_1 count (free_pages ts)).
    + apply upd_pages; [apply (ai_pages _ _ _ _ I2)|done].
  - intros m Hm1 Hmt _. rewrite (mv_view _ _ _ _ M3), upd_other by done. apply Hvw.
Qed.

(** Deallocation, by where the page goes. *)
Lemma deallocate_append p d count t ls ts n :
  alloc_inv p d count ((t, ls) :: ts) → 2 ≤ n ≤ count → n ∉ free_pages ((t, ls) :: ts) →
  zlen ls < max_leaves_per_trunk (pg_page_size p) →
  ∃ p', deallocate_page n p d = (Ok (), p') ∧ alloc_inv p' d count ((t, ls ++ [n]) :: ts) ∧
    untouched p p' d ((t, ls) :: ts) n.
Proof.
  intros I Hnr Hnf Hroom.
  destruct (read_trunk p d count t _ ts I) as (p1 & b1 & p2 & buf & next & Hr1 & Hr2 & I2 &
    Hvw & Hps2 & (Hc & Hh & Hf) & H1 & (Hvt & Hlb & Hpt & Hmx & Hch) & Ht & Hn).
  pose proof (pm_read_ps _ _ _ _ _ (ai_coherent _ _ _ _ I) Hr1) as Hps1.
  pose proof (free_bounds _ _ _ _ I2) as Hfb. pose proof (ai_count _ _ _ _ I2) as Hcb.
  destruct (retrunk p2 d count _ t (ls ++ [n]) next ts I2 Hch) as (p3 & p4 & Hp3 & Hp4 & I4 & Hv4).
  { rewrite free_pages_leaf. apply NoDup_cons. split; [done|]. apply (ai_nodup _ _ _ _ I2). }
  { rewrite free_pages_leaf. apply Forall_cons. split; [done|]. apply (ai_range _ _ _ _ I2). }
  { rewrite length_app, Hps2. cbn. lia. }
  unfold deallocate_page. rewrite (pm_bind_Ok _ _ _ _ _ _ Hr1).
  rewrite (pm_lift_Ok _ _ _ _ _ (be_u32_Ok _ _ _ Hh)), (pm_lift_Ok _ _ _ _ _ (be_u32_Ok _ _ _ Hf)).
  rewrite (pm_bind_Ok _ _ _ _ (pg_page_size p) p1) by (unfold pm_page_size; by rewrite Hps1).
  exists p4. rewrite decide_True by lia. rewrite (pm_bind_Ok _ _ _ _ t p3).
  2: { rewrite (pm_bind_Ok _ _ _ _ _ _ Hr2).
       rewrite (pm_lift_Ok _ _ _ _ {| next_trunk := next; leaves := ls |}) by (by rewrite Hpt).
       cbn [leaves next_trunk]. rewrite decide_True by done.
       by rewrite (pm_bind_Ok _ _ _ _ _ _ Hp3). }
  rewrite free_pages_leaf in Hp4. split_and!; [|done|].
  - rewrite <- Hp4. cbn [length]. do 2 f_equal. unfold sat_add32. cbn in Hfb |- *. mlia.
  - intros m Hm1 Hml Hmf. rewrite <- Hvw. apply Hv4; [done|]. intros ->. apply Hmf. cbn. left.
Qed.

Lemma deallocate_full p d count t ls ts n :
  alloc_inv p d count ((t, ls) :: ts) → 2 ≤ n ≤ count → n ∉ free_pages ((t, ls) :: ts) →
  ¬ zlen ls < max_leaves_per_trunk (pg_page_size p) →
  ∃ p', deallocate_page n p d = (Ok (), p') ∧ alloc_inv p' d count ((n, []) :: (t, ls) :: ts) ∧
    untouched p p' d ((t, ls) :: ts) n.
Proof.
  intros I Hnr Hnf Hfull.
  destruct (read_trunk p d count t _ ts I) as (p1 & b1 & p2 & buf & next & Hr1 & Hr2 & I2 &
    Hvw & Hps2 & (Hc & Hh & Hf) & H1 & (Hvt & Hlb & Hpt & Hmx & Hch) & Ht & Hn).
  pose proof (pm_read_ps _ _ _ _ _ (ai_coherent _ _ _ _ I) Hr1) as Hps1.
  pose proof (free_bounds _ _ _ _ I2) as Hfb. pose proof (ai_count _ _ _ _ I2) as Hcb.
  destruct (retrunk p2 d count _ n [] t ((t, ls) :: ts) I2) as (p3 & p4 & Hp3 & Hp4 & I4 & Hv4).
  { split; [done|]. by exists next, buf. }
  { apply NoDup_cons. split; [done|]. apply (ai_nodup _ _ _ _ I2). }
  { apply Forall_cons. split; [done|]. apply (ai_range _ _ _ _ I2). }
  { cbn. lia. }
  unfold deallocate_page. rewrite (pm_bind_Ok _ _ _ _ _ _ Hr1).
  rewrite (pm_lift_Ok _ _ _ _ _ (be_u32_Ok _ _ _ Hh)), (pm_lift_Ok _ _ _ _ _ (be_u32_Ok _ _ _ Hf)).
  rewrite (pm_bind_Ok _ _ _ _ (pg_page_size p) p1) by (unfold pm_page_size; by rewrite Hps1).
  exists p4. rewrite decide_True by lia. rewrite (pm_bind_Ok _ _ _ _ n p3).
  2: { rewrite (pm_bind_Ok _ _ _ _ _ _ Hr2).
       rewrite (pm_lift_Ok _ _ _ _ {| next_trunk := next; leaves := ls |}) by (by rewrite Hpt).
       cbn [leaves next_trunk]. rewrite decide_False by done.
       by rewrite (pm_bind_Ok _ _ _ _ _ _ Hp3). }
  split_and!; [|done|].
  - rewrite <- Hp4. do 2 f_equal. unfold sat_add32. cbn in Hfb |- *. mlia.
  - intros m Hm1 Hml Hmf. rewrite <- Hvw. by apply Hv4.
Qed.

Lemma deallocate_first p d count n :
  alloc_inv p d count [] → 2 ≤ n ≤ count →
  ∃ p', deallocate_page n p d = (Ok (), p') ∧ alloc_inv p' d count [(n, [])] ∧ untouched p p' d [] n.
Proof.
  intros I Hnr.
  destruct (read_header p d count _ I) as (p1 & b1 & head & Hr & M1 & I1 & (_ & _ & _ & Hh & Hf) & ->).
  pose proof (ai_ps _ _ _ _ I1) as Hps. pose proof (mv_ps _ _ _ _ M1) as Hps1.
  destruct (retrunk p1 d count _ n [] 0 [] I1) as (p3 & p4 & Hp3 & Hp4 & I4 & Hv4).
  { done. }
  { apply NoDup_singleton. }
  { by apply Forall_singleton. }
  { cbn. unfold max_leaves_per_trunk. rewrite sat_sub_ge by lia. apply Z.div_pos; lia. }
  unfold deallocate_page. rewrite (pm_bind_Ok _ _ _ _ _ _ Hr).
  rewrite (pm_lift_Ok _ _ _ _ _ (be_u32_Ok _ _ _ Hh)), (pm_lift_Ok _ _ _ _ _ (be_u32_Ok _ _ _ Hf)).
  rewrite (pm_bind_Ok _ _ _ _ (pg_page_size p) p1) by (unfold pm_page_size; by rewrite Hps1).
  exists p4. rewrite decide_False by tauto. rewrite (pm_bind_Ok _ _ _ _ n p3)
    by (by rewrite (pm_bind_Ok _ _ _ _ _ _ Hp3)).
  split_and!; [done|done|].
  intros m Hm1 Hml Hmf. rewrite Hv4 by done. apply (mv_view _ _ _ _ M1).
Qed.

(** ** The refinement *)

(** The abstract state a well-formed pager represents. *)
Definition abstract (count : Z) (ts : list (Z * list Z)) : allocator :=
  {| al_count := count; al_free := free_set ts |}.

Lemma allocate_page_ok p d count ts :
  alloc_inv p d count ts → count + 1 < U32_MAX →
  ∃ n p' count' ts', allocate_page p d = (Ok n, p') ∧ alloc_inv p' d count' ts' ∧
    alloc_spec (abstract count ts) n (abstract count' ts') ∧ untouched p p' d ts n ∧
    (ts = [] → view p' d n = Ok (zeros (pg_page_size p))).
Proof.
  intros I Hc. destruct ts as [|[t ls] ts].
  - destruct (allocate_extend p d count I) as (p' & Hal & Hi & Hu & Hz).
    exists (count + 1), p', (count + 1), []. split_and!; try done; [by apply Hi|]. by left.
  - pose proof (ai_nodup _ _ _ _ I) as Hnd.
    destruct (nil_or_snoc ls) as [->|(ls' & leaf & ->)].
    + destruct (allocate_trunk p d count t ts I) as (p' & Hal & Hi & Hu).
      exists t, p', count, ts. split_and!; try done. right. cbn in Hnd |- *.
      apply NoDup_cons in Hnd as [Hnt _]. split; [set_solver|]. unfold abstract. f_equal.
      unfold free_set. cbn [free_pages app list_to_set]. set_solver.
    + destruct (allocate_leaf p d count t ls' leaf ts I) as (p' & Hal & Hi & Hu).
      exists leaf, p', count, ((t, ls') :: ts). split_and!; try done. right.
      rewrite free_pages_leaf in Hnd. apply NoDup_cons in Hnd as [Hnl _].
      unfold abstract, free_set. cbn [al_free al_count].
      rewrite (list_to_set_perm_L _ _ (free_pages_leaf t ls' leaf ts)).
      cbn [list_to_set]. split; [set_solver|]. f_equal. set_solver.
Qed.

Lemma deallocate_page_ok p d count ts n :
  alloc_inv p d count ts → live (abstract count ts) n →
  ∃ p' ts', deallocate_page n p d = (Ok (), p') ∧ alloc_inv p' d count ts' ∧
    dealloc_spec (abstract count ts) n (abstract count ts') ∧ untouched p p' d ts n ∧
    ∃ t ls rest, ts' = (t, ls) :: rest ∧ (last ls = Some n ∨ (ls = [] ∧ t = n)).
Proof.
  intros I [Hr Hnf]. cbn in Hr, Hnf. unfold free_set in Hnf. rewrite elem_of_list_to_set in Hnf.
  destruct ts as [|[t ls] ts].
  - destruct (deallocate_first p d count n I Hr) as (p' & Hd & Hi & Hu).
    exists p', [(n, [])]. split_and!; try done. exists n, [], []. naive_solver.
  - destruct (decide (zlen ls < max_leaves_per_trunk (pg_page_size p))) as [Hlt|Hge].
    + destruct (deallocate_append p d count t ls ts n I Hr Hnf Hlt) as (p' & Hd & Hi & Hu).
      exists p', ((t, ls ++ [n]) :: ts). split_and!; try done.
      * unfold dealloc_spec, abstract, free_set. cbn [al_count al_free]. f_equal.
        by rewrite (list_to_set_perm_L _ _ (free_pages_leaf t ls n ts)).
      * exists t, (ls ++ [n]), ts. rewrite last_snoc. naive_solver.
    + destruct (deallocate_full p d count t ls ts n I Hr Hnf Hge) as (p' & Hd & Hi & Hu).
      exists p', ((n, []) :: (t, ls) :: ts). split_and!; try done. exists n, [], ((t, ls) :: ts).
      naive_solver.
Qed.

(** ** A client of the allocator *)

(** The client owns pages, with the contents it last gave them; it allocates,
    frees pages it owns, and rewrites pages it owns. *)
Inductive client_step d : Pager (L := L) * gmap Z bytes → Pager (L := L) * gmap Z bytes → Prop :=
| cs_alloc p own n b p' :
    allocate_page p d = (Ok n, p') → view p' d n = Ok b →
    client_step d (p, own) (p', <[n := b]> own)
| cs_free p own n p' :
    is_Some (own !! n) → deallocate_page n p d = (Ok (), p') →
    client_step d (p, own) (p', delete n own)
| cs_write p own n b p' :
    is_Some (own !! n) → zlen b = pg_page_size p →
    pm_edit n (λ _, (b, Ok ())) p d = (Ok (), p') →
    client_step d (p, own) (p', <[n := b]> own).

Definition owns p d count ts (own : gmap Z bytes) : Prop :=
  alloc_inv p d count ts ∧
  ∀ n b, own !! n = Some b → live (abstract count ts) n ∧ view p d n = Ok b.

Lemma live_untouched p p' d ts n count m :
  untouched p p' d ts n → live (abstract count ts) m → m ≠ n → view p' d m = view p d m.
Proof.
  intros Hu [Hr Hf] Hne. cbn in Hr, Hf. apply Hu; [lia|done|].
  unfold free_set in Hf. by rewrite elem_of_list_to_set in Hf.
Qed.

Lemma alloc_spec_live a n a' :
  alloc_spec a n a' → 1 ≤ al_count a → (∀ x, x ∈ al_free a → 2 ≤ x ≤ al_count a) →
  ¬ live a n ∧ n ≠ 1 ∧ (∀ m, live a' m ↔ m = n ∨ live a m) ∧
  al_count a ≤ al_count a' ≤ al_count a + 1.
Proof.
  intros [(Hf & -> & ->)|(Hn & ->)] Hc Hr; unfold live; cbn [al_count al_free].
  - rewrite Hf. split_and!; [lia|lia| |lia|lia]. intros m. set_solver by lia.
  - pose proof (Hr n Hn). split_and!; [naive_solver|lia| |lia|lia]. intros m.
    destruct (decide (m = n)); set_solver.
Qed.

Lemma free_set_range p d count ts x :
  alloc_inv p d count ts → x ∈ free_set ts → 2 ≤ x ≤ count.
Proof.
  intros I Hx. unfold free_set in Hx. rewrite elem_of_list_to_set in Hx.
  pose proof (ai_range _ _ _ _ I) as Hr. rewrite Forall_forall in Hr. by apply Hr.
Qed.

Lemma owns_write p d count ts own n b p' :
  owns p d count ts own → is_Some (own !! n) → zlen b = pg_page_size p →
  pm_edit n (λ _, (b, Ok ())) p d = (Ok (), p') → owns p' d count ts (<[n := b]> own).
Proof.
  intros [I Hown] [b0 Hn] Hl He. destruct (Hown n b0 Hn) as [[Hr Hf] Hv]. cbn in Hr, Hf.
  unfold free_set in Hf. rewrite elem_of_list_to_set in Hf.
  destruct (pm_edit_spec p d n b0 b (λ _, (b, Ok ())) (Ok ()) (ai_coherent _ _ _ _ I) Hv eq_refl)
    as (q & Hq & M). rewrite Hq in He. injection He as ->.
  destruct (ai_head _ _ _ _ I) as (head & (b1 & Hb1 & H1) & Hch). split.
  - eapply (inv_rebuild _ _ _ _ _ _ _ _ head I M).
    + exists b1. by rewrite upd_other by lia.
    + apply (chain_ext (view p d)); [|done]. intros u Hu%trunks_free. apply upd_other. by intros ->.
    + apply (ai_nodup _ _ _ _ I).
    + apply (ai_range _ _ _ _ I).
    + pose proof (ai_count _ _ _ _ I). lia.
    + apply upd_pages; [apply (ai_pages _ _ _ _ I)|done].
  - intros m bm. rewrite (mv_view _ _ _ _ M). destruct (decide (m = n)) as [->|Hne].
    + rewrite lookup_insert_eq, upd_same. intros [= ->]. split; [by apply (Hown n b0)|done].
    + rewrite lookup_insert_ne, upd_other by congruence. apply Hown.
Qed.

Lemma owns_free p d count ts own n p' :
  owns p d count ts own → is_Some (own !! n) → deallocate_page n p d = (Ok (), p') →
  ∃ ts', owns p' d count ts' (delete n own).
Proof.
  intros [I Hown] [b0 Hn] Hd. destruct (Hown n b0 Hn) as [Hln _].
  destruct (deallocate_page_ok p d count ts n I Hln) as (q & ts' & Hd' & I' & Hsp & Hu & _).
  rewrite Hd in Hd'. injection Hd' as <-. exists ts'. split; [done|].
  intros m bm Hm. apply lookup_delete_Some in Hm as [Hne Hm]. destruct (Hown m bm Hm) as [Hlm Hvm].
  rewrite (live_untouched _ _ _ _ _ _ _ Hu Hlm) by congruence. split; [|done].
  unfold dealloc_spec in Hsp. injection Hsp as Hfs. unfold live in Hlm |- *. cbn in Hlm |- *.
  rewrite Hfs. set_solver.
Qed.

Lemma owns_step p own p' own' d count ts :
  client_step d (p, own) (p', own') → owns p d count ts own → count + 1 < U32_MAX →
  ∃ count' ts', owns p' d count' ts' own' ∧ count ≤ count' ≤ count + 1.
Proof.
  intros Hs Ho Hc. pose proof Ho as [I Hown]. inversion Hs as [? ? n b ? Hal Hv|? ? n ? Hn Hd|]; subst.
  - destruct (allocate_page_ok p d count ts I Hc) as (n' & q & c' & ts' & Hal' & I' & Hsp & Hu & _).
    rewrite Hal in Hal'. injection Hal' as <- <-.
    destruct (alloc_spec_live _ _ _ Hsp) as (Hnl & _ & Hl & Hcc);
      [apply (ai_count _ _ _ _ I)|intros x; by apply (free_set_range _ _ _ _ _ I)|].
    exists c', ts'. split; [|done]. split; [done|]. intros m bm.
    destruct (decide (m = n)) as [->|Hne].
    + rewrite lookup_insert_eq. intros [= <-]. split; [|done]. apply Hl. by left.
    + rewrite lookup_insert_ne by congruence. intros Hm. destruct (Hown m bm Hm) as [Hlm Hvm].
      split; [apply Hl; by right|]. by rewrite (live_untouched _ _ _ _ _ _ _ Hu Hlm Hne).
  - destruct (owns_free _ _ _ _ _ _ _ Ho Hn Hd) as [ts' Ho']. exists count, ts'. split; [done|lia].
  - exists count, ts. split; [|lia]. by eapply owns_write.
Qed.

Lemma owns_steps k p own p' own' d count ts :
  nsteps (client_step d) k (p, own) (p', own') → owns p d count ts own → count + Z.of_nat k < U32_MAX →
  ∃ count' ts', owns p' d count' ts' own' ∧ count ≤ count' ≤ count + Z.of_nat k.
Proof.
  revert p own count ts. induction k as [|k IH]; intros p own count ts Hst Ho Hc.
  - inversion Hst; subst. exists count, ts. split; [done|lia].
  - inversion Hst as [|? ? [p1 own1] ? H1 H2]; subst.
    destruct (owns_step _ _ _ _ _ _ _ H1 Ho ltac:(lia)) as (c1 & ts1 & Ho1 & Hc1).
    destruct (IH p1 own1 c1 ts1 H2 Ho1 ltac:(lia)) as (c2 & ts2 & Ho2 & Hc2).
    exists c2, ts2. split; [done|lia].
Qed.
End allocator.

(** ** Properties *)

(** Allocation refines the abstract allocator.  On a well-formed
    database [allocate_page] succeeds and takes a page from the freelist
    (the last leaf of the first trunk, or that trunk when it has no leaves),
    extending the database by one zeroed page only when the freelist is
    empty; the freelist stays well formed with its on-page count exact, and
    no page outside the header, the freelist and the allocated page changes. *)
Theorem allocate_page_refines {L : Type} {F : FileLock L} (p : Pager (L := L)) (d : fs) (count : Z)
    (ts : list (Z * list Z)) (Hinv : alloc_inv p d count ts) (Hc : count + 1 < U32_MAX) :
  ∃ n p' count' ts',
    allocate_page p d = (Ok n, p') ∧ alloc_inv p' d count' ts' ∧
    alloc_spec (abstract count ts) n (abstract count' ts') ∧ untouched p p' d ts n ∧
    (ts = [] → view p' d n = Ok (zeros (pg_page_size p))).
Proof. by apply allocate_page_ok. Qed.

Lemma example_alloc_inv : alloc_inv (example_pager SyncFull ∅) example_fs 1 [].
Proof.
  assert (Hs : ∀ n, source_read (example_pager SyncFull ∅) example_fs n
                    = read_page_at (new_empty_page1 512) 512 n).
  { intros n. unfold source_read, example_fs, read_file. cbn [example_pager pg_db_path pg_page_size].
    by rewrite lookup_singleton_eq. }
  assert (Hl : length (new_empty_page1 512) = 512%nat) by reflexivity.
  assert (Hv : view (example_pager SyncFull ∅) example_fs 1 = Ok (new_empty_page1 512)).
  { unfold view, read_page. cbn [example_pager pg_dirty pg_wal_pages]. rewrite !lookup_empty, Hs.
    reflexivity. }
  split; cbn [pg_page_size example_pager free_pages].
  - apply example_coherent.
  - lia.
  - exists 0. split; [|done]. exists (new_empty_page1 512). split; [exact Hv|].
    split_and!; reflexivity.
  - apply NoDup_nil_2.
  - apply Forall_nil_2.
  - unfold U32_MAX. lia.
  - intros n Hn. replace n with 1 by lia. exists (new_empty_page1 512).
    split; [exact Hv|by rewrite Hl].
  - intros n b Hn. rewrite Hs. unfold read_page_at, file_read_at, page_offset.
    rewrite decide_False by lia. rewrite Hl.
    rewrite (decide_True (P := Z.of_nat 512 ≤ _)) by (rewrite sat_sub_ge by lia; mlia).
    cbn. discriminate.
Qed.

(** Deallocation refines the abstract allocator and is undone by the
    next allocation.  Freeing a page in use succeeds, adds exactly that page
    to the free set (as a leaf of the first trunk while it has room, as a
    new first trunk otherwise), leaves every other page in use unchanged,
    and the next [allocate_page] returns that very page and restores the
    free set. *)
Theorem deallocate_page_refines {L : Type} {F : FileLock L} (p : Pager (L := L)) (d : fs) (count : Z)
    (ts : list (Z * list Z)) (n : Z) (Hinv : alloc_inv p d count ts)
    (Hlive : live (abstract count ts) n) (Hc : count + 1 < U32_MAX) :
  ∃ p' ts', deallocate_page n p d = (Ok (), p') ∧ alloc_inv p' d count ts' ∧
    dealloc_spec (abstract count ts) n (abstract count ts') ∧ untouched p p' d ts n ∧
    ∃ p'' ts'', allocate_page p' d = (Ok n, p'') ∧ alloc_inv p'' d count ts'' ∧
      free_set ts'' = free_set ts.
Proof.
  destruct (deallocate_page_ok p d count ts n Hinv Hlive)
    as (p' & ts' & Hd & I' & Hsp & Hu & t & ls & rest & -> & Hlast).
  exists p', ((t, ls) :: rest). split_and!; try done.
  destruct Hlive as [_ Hnf]. cbn in Hnf. unfold dealloc_spec in Hsp. injection Hsp as Hfs.
  pose proof (ai_nodup _ _ _ _ I') as Hnd. destruct Hlast as [Hl|[-> ->]].
  - apply last_Some in Hl as [ls' ->].
    destruct (allocate_leaf p' d count t ls' n rest I') as (p'' & Hal & I'' & _).
    exists p'', ((t, ls') :: rest). split_and!; try done.
    rewrite free_pages_leaf in Hnd. apply NoDup_cons in Hnd as [Hnl _].
    unfold abstract, free_set in *. cbn [al_free] in *.
    rewrite (list_to_set_perm_L _ _ (free_pages_leaf t ls' n rest)) in Hfs. set_solver.
  - destruct (allocate_trunk p' d count n rest I') as (p'' & Hal & I'' & _).
    exists p'', rest. split_and!; try done. cbn in Hnd. apply NoDup_cons in Hnd as [Hnl _].
    unfold abstract, free_set in *. cbn in Hfs, Hnf. set_solver.
Qed.

(** The example database, extended by one page. *)
Lemma example_two_pages :
  ∃ p1, allocate_page (example_pager SyncFull ∅) example_fs = (Ok 2, p1) ∧
        alloc_inv p1 example_fs 2 [] ∧ view p1 example_fs 2 = Ok (zeros 512).
Proof.
  destruct (allocate_extend _ _ _ example_alloc_inv) as (p1 & Hal & Hi & _ & Hz).
  exists p1. split; [exact Hal|]. split; [|exact Hz]. apply Hi. unfold U32_MAX. lia.
Qed.

Lemma example_live_2 : live (abstract 2 []) 2.
Proof. split; [cbn; lia|]. cbn. unfold free_set. cbn. set_solver. Qed.

(** C11: No page is ever handed out twice.  Whatever sequence of
    allocations, frees of pages it owns and writes to pages it owns a client
    performs, starting from a well-formed database, the database stays well
    formed, every page the client owns still holds exactly what the client
    last put there, and the next allocation succeeds with a page that is
    neither page 1 nor one the client owns. *)
Theorem alloc_never_shares {L : Type} {F : FileLock L} (d : fs) (k : nat) (p p' : Pager (L := L))
    (own own' : gmap Z bytes) (count : Z) (ts : list (Z * list Z))
    (Howns : owns p d count ts own) (Hsteps : nsteps (client_step d) k (p, own) (p', own'))
    (Hroom : count + Z.of_nat k + 1 < U32_MAX) :
  (∃ count' ts', owns p' d count' ts' own') ∧
  ∃ n p'', allocate_page p' d = (Ok n, p'') ∧ n ≠ 1 ∧ own' !! n = None.
Proof.
  destruct (owns_steps k p own p' own' d count ts Hsteps Howns ltac:(lia))
    as (c' & ts' & Ho & Hc). split; [by exists c', ts'|].
  destruct Ho as [I Hown].
  destruct (allocate_page_ok p' d c' ts' I ltac:(lia)) as (n & p'' & c2 & ts2 & Hal & _ & Hsp & _).
  destruct (alloc_spec_live _ _ _ Hsp) as (Hnl & Hn1 & _);
    [apply (ai_count _ _ _ _ I)|intros x; by apply (free_set_range _ _ _ _ _ I)|].
  exists n, p''. split_and!; [done|done|].
  destruct (own' !! n) as [b|] eqn:E; [|done]. by destruct (Hown n b E).
Qed.

Lemma alloc_never_shares_witness :
  ∃ p1 n p2, allocate_page (example_pager SyncFull ∅) example_fs = (Ok 2, p1) ∧
    allocate_page p1 example_fs = (Ok n, p2) ∧ n ≠ 2.
Proof.
  destruct example_two_pages as (p1 & Hal & _ & Hz).
  destruct (alloc_never_shares example_fs 1 (example_pager SyncFull ∅) p1 ∅ {[2 := zeros 512]} 1 [])
    as [_ (n & p2 & Hal2 & _ & Hn)].
  - split; [exact example_alloc_inv|]. intros n b Hn. rewrite lookup_empty in Hn. discriminate.
  - eapply nsteps_l; [|apply nsteps_O]. apply cs_alloc; [exact Hal|exact Hz].
  - unfold U32_MAX. lia.
  - exists p1, n, p2. split; [exact Hal|]. split; [exact Hal2|].
    intros ->. rewrite lookup_singleton_eq in Hn. discriminate.
Defined.
