(* ===== verification/WalCommit.v ===== *)
(** * Commit by write-ahead log ([Pager::flush_wal_locked])

    The WAL commit appends the dirty pages as frames, the last one marked
    with the new page count, and syncs the log.  The theorems relate it to
    what the log's readers see, at every crash point. *)

From S2P Require Import Prelude Vfs Header Wal PageCache Lock Pager Commit.

(** ** Torn writes *)

(** A crash may also cut a write that was not synced: of its bytes it keeps a
    prefix.  Any subset of the writes, each so cut, reaches the disk. *)
Definition torn (o o' : file_op) : Prop :=
  o' = o ∨ match o with FWrite off buf => ∃ n, o' = FWrite off (take n buf) | FTruncate _ => False end.

Definition tear (d d1 : fs) : Prop :=
  ∀ q, match d !! q, d1 !! q with
       | Some f, Some f1 => durable f1 = durable f ∧ Forall2 torn (pending f) (pending f1)
       | None, None => True
       | _, _ => False
       end.

Definition torn_crash (d d' : fs) : Prop := ∃ d1, tear d d1 ∧ crash d1 d'.

(** What a file is after such a crash. *)
Lemma torn_crash_Some d d' q D ops :
  torn_crash d d' → d !! q = Some (File D ops) →
  ∃ ops' D', Forall2 torn ops ops' ∧ survives D ops' D' ∧ d' !! q = Some (File D' []).
Proof.
  intros (d1 & Ht & Hc) Hq. specialize (Ht q). rewrite Hq in Ht. destruct (d1 !! q) as [[D1 ops1]|] eqn:E; [|done].
  destruct Ht as [Hd Ho]. cbn in Hd, Ho. subst D1. destruct (crash_Some _ _ _ _ Hc E) as (D' & Hd' & Hs). by exists ops1, D'.
Qed.

(** One unsynced write, cut after [n] bytes. *)
Lemma torn_crash_one d q D off buf n :
  d !! q = Some (File D [FWrite off buf]) → (∀ q' f, q' ≠ q → d !! q' = Some f → pending f = []) →
  torn_crash d (<[q := File (file_write_at D (take n buf) off) []]> d).
Proof.
  intros Hq Hclean. exists (<[q := File D [FWrite off (take n buf)]]> d). split.
  - intros q'. destruct (decide (q = q')) as [<-|Hne].
    + rewrite Hq, lookup_insert_eq. cbn. split; [done|]. apply Forall2_cons. split; [right; by exists n|apply Forall2_nil_2].
    + rewrite lookup_insert_ne by done. destruct (d !! q') as [f|]; [|done]. split; [done|].
      apply Forall_Forall2_diag, Forall_true. intros o. by left.
  - intros q'. destruct (decide (q = q')) as [<-|Hne].
    + rewrite !lookup_insert_eq. split; [|done]. apply survives_keep, survives_nil.
    + rewrite !lookup_insert_ne by done. destruct (d !! q') as [f|] eqn:E; [|done].
      assert (pending f = []) as Hp by (by apply (Hclean q')). rewrite Hp. split; [|done]. apply survives_nil.
Qed.

Lemma crash_torn d d' : crash d d' → torn_crash d d'.
Proof.
  intros Hc. exists d. split; [|done]. intros q. destruct (d !! q) as [f|]; [|done]. split; [done|].
  apply Forall_Forall2_diag, Forall_true. intros o. by left.
Qed.

(** ** The frames of a transaction *)

Section walcommit.
Context (le : bool) `{FileLock L}.
Implicit Types (p : Pager (L := L)) (d : fs).

Definition dirty_entry p (last_index post : Z) (ip : Z * Z) : entry :=
  (ip.2, default [] (pg_dirty p !! ip.2), if decide (ip.1 = last_index) then post else 0).

(** What [append_dirty] appends, in order. *)
Definition dirty_entries p (post : Z) : list entry :=
  map (dirty_entry p (sat_sub (zlen (dirty_pages p)) 1) post)
      (imap (λ i n, (Z.of_nat i, n)) (dirty_pages p)).

Lemma append_dirty_entries p w post :
  append_dirty le p w (dirty_pages p) post = append_all le w (dirty_entries p post).
Proof.
  unfold append_dirty, append_all, dirty_entries.
  assert (Hin : Forall (λ ip : Z * Z, is_Some (pg_dirty p !! ip.2))
                  (imap (λ i n, (Z.of_nat i, n)) (dirty_pages p))).
  { apply Forall_forall. intros [i n] Hin. apply elem_of_lookup_imap in Hin as (j & m & [= _ ->] & Hm).
    apply elem_of_dirty_pages. by eapply list_elem_of_lookup_2. }
  revert w. induction Hin as [|[i n] l [b Hb] _ IH]; intros w; cbn [foldl map]; [done|].
  cbn [fst snd] in Hb |- *. rewrite IH. cbn [dirty_entry fst snd]. by rewrite Hb.
Qed.

Lemma dirty_entries_keys p post : map (λ e : entry, e.1.1) (dirty_entries p post) = dirty_pages p.
Proof.
  unfold dirty_entries. rewrite map_map. cbn [dirty_entry fst].
  generalize (dirty_pages p) as l. intros l. apply list_eq. intros i.
  rewrite list_lookup_fmap, list_lookup_imap. by destruct (l !! i).
Qed.

Lemma dirty_entries_txn p post : pg_dirty p ≠ ∅ → post ≠ 0 → txn (dirty_entries p post).
Proof.
  intros Hne Hpost. unfold dirty_entries. destruct (nil_or_snoc (dirty_pages p)) as [E|(ns & n & E)].
  { exfalso. apply map_choose in Hne as (k & b & Hk).
    assert (k ∈ dirty_pages p) as Hin by (apply elem_of_dirty_pages; eauto).
    rewrite E in Hin. by apply elem_of_nil in Hin. }
  rewrite E, imap_app, map_app, length_app. cbn [length imap map].
  rewrite sat_sub_ge by lia. replace (Z.of_nat (length ns + 1) - 1) with (zlen ns) by lia.
  eexists _, _. split; [reflexivity|]. split.
  - cbn [dirty_entry fst snd compose]. rewrite decide_True by lia. done.
  - apply Forall_forall. intros e (ip & -> & Hip)%list_elem_of_fmap.
    apply elem_of_lookup_imap in Hip as (i & m & -> & Hm). cbn [dirty_entry fst snd].
    apply lookup_lt_Some in Hm. by rewrite decide_False by lia.
Qed.

Lemma dirty_entries_in p post e :
  e ∈ dirty_entries p post → pg_dirty p !! e.1.1 = Some e.1.2 ∧ (e.2 = 0 ∨ e.2 = post).
Proof.
  intros (ip & -> & Hip)%list_elem_of_fmap. apply elem_of_lookup_imap in Hip as (i & m & -> & Hm).
  apply list_elem_of_lookup_2, elem_of_dirty_pages in Hm as [b Hb].
  cbn [dirty_entry fst snd]. rewrite Hb. split; [done|]. case_decide; [by right|by left].
Qed.

Lemma dirty_entries_ok p post :
  map_Forall (λ n b, u32_ok n ∧ zlen b = pg_page_size p) (pg_dirty p) → u32_ok post →
  Forall (entry_ok (pg_page_size p)) (dirty_entries p post).
Proof.
  intros Hd Hpost. apply Forall_forall. intros e [Hb Hc]%dirty_entries_in.
  destruct (Hd _ _ Hb) as [Hn Hl]. split_and!; [done|done|].
  destruct Hc as [->| ->]; [unfold u32_ok; lia|done].
Qed.

(** Entries that agree with a map overlay it. *)
Lemma apply_entries_lookup (es : list entry) (D m : gmap Z bytes) n :
  Forall (λ e : entry, D !! e.1.1 = Some e.1.2) es →
  apply_entries m es !! n = if decide (n ∈ map (λ e : entry, e.1.1) es) then D !! n else m !! n.
Proof.
  induction es as [|e es IH] using rev_ind; intros Hall; [done|].
  apply Forall_app in Hall as [Hes [He _]%Forall_cons].
  unfold apply_entries in *. rewrite foldl_app. cbn [foldl]. rewrite map_app. cbn [map].
  destruct (decide (n = e.1.1)) as [->|Hne].
  - rewrite lookup_insert_eq, decide_True by set_solver. done.
  - rewrite lookup_insert_ne, IH by done. destruct (decide (n ∈ map _ es)).
    + rewrite decide_True by set_solver. done.
    + rewrite decide_False by set_solver. done.
Qed.

Lemma apply_dirty p post m : apply_entries m (dirty_entries p post) = pg_dirty p ∪ m.
Proof.
  apply map_eq. intros n. rewrite (apply_entries_lookup _ (pg_dirty p)).
  - rewrite dirty_entries_keys. case_decide as Hn; rewrite elem_of_dirty_pages in Hn.
    + destruct Hn as [b Hb]. rewrite Hb. symmetry. by apply lookup_union_Some_l.
    + symmetry. apply lookup_union_r. by apply eq_None_not_Some.
  - apply Forall_forall. by intros e [He _]%dirty_entries_in.
Qed.

(** ** The commit *)

Definition wal_path p : string := companion_path (pg_db_path p) "-wal".

(** A pager in WAL mode whose overlay is that of the log on disk. *)
Record wal_ready p d (h : WalHeader) (es : list entry) (pc : Z) : Prop := {
  wr_header : WalHeader_ok le h;
  wr_ps : wh_page_size h = pg_page_size p;
  wr_log : d !! wal_path p = Some (File (wal_image le h es) []);
  wr_committed : committed_log es;
  wr_entries : Forall (entry_ok (pg_page_size p)) es;
  wr_overlay : pg_wal_pages p = apply_entries ∅ es;
  wr_hint : pg_wal_resume p = None ∨
            pg_wal_resume p = Some (WalWriter_resume_hint (writer_state le h (wal_path p) es));
  wr_coherent : coherent p d;
  wr_page1 : ∃ b1, view p d 1 = Ok b1 ∧ read_be 4 b1 PAGE_COUNT_OFFSET = Some pc;
  wr_pc : 0 < pc ≤ U32_MAX;
  wr_dirty : map_Forall (λ n b, u32_ok n ∧ zlen b = pg_page_size p) (pg_dirty p);
  wr_some : pg_dirty p ≠ ∅;
  wr_fit : 32 + zlen (es ++ dirty_entries p pc) * (24 + pg_page_size p) ≤ ISIZE_MAX;
}.

(** What a reader of the log sees. *)
Lemma read_wal_image d path ps h es :
  WalHeader_ok le h → wh_page_size h = ps → Forall (entry_ok ps) es → committed_log es →
  32 + zlen es * (24 + ps) ≤ ISIZE_MAX →
  read_file d (companion_path path "-wal") = Some (wal_image le h es) →
  read_wal_pages le d path ps = Ok (apply_entries ∅ es).
Proof.
  intros Hh <- Hes Hc Hfit Hr. unfold read_wal_pages. rewrite Hr.
  pose proof (wal_image_length le h es Hes) as Hl.
  pose proof (valid_page_size_bounds _ (who_page_size _ _ Hh)) as Hb.
  rewrite decide_False by (unfold WAL_HEADER_LEN; lia).
  assert (Hp : WalHeader_parse le (wal_image le h es) = Ok h) by (by apply WalHeader_parse_serialize).
  rewrite Hp. cbn [map_err]. rewrite decide_False by tauto.
  pose proof (committed_pages_image le h Hh es [] Hes) as Hcp. rewrite app_nil_r in Hcp.
  rewrite Hcp; [|cbn; lia|lia]. by rewrite publish_log.
Qed.

(** The same of a log whose last transaction was cut anywhere. *)
Lemma read_wal_torn d path ps h es new (n : nat) :
  WalHeader_ok le h → wh_page_size h = ps → Forall (entry_ok ps) es → Forall (entry_ok ps) new →
  committed_log es → txn new → (length (wal_image le h es) ≤ n)%nat →
  32 + zlen (es ++ new) * (24 + ps) ≤ ISIZE_MAX →
  read_file d (companion_path path "-wal") = Some (take n (wal_image le h (es ++ new))) →
  read_wal_pages le d path ps =
  Ok (apply_entries ∅ (if decide (n < length (wal_image le h (es ++ new)))%nat then es else es ++ new)).
Proof.
  intros Hh <- Hes Hnew Hc Ht Hn Hfit Hr. unfold read_wal_pages. rewrite Hr.
  pose proof (wal_image_length le h (es ++ new)) as Hl. pose proof (wal_image_length le h es Hes) as Hl0.
  assert (Forall (entry_ok (wh_page_size h)) (es ++ new)) as Hall by (by apply Forall_app). specialize (Hl Hall).
  pose proof (valid_page_size_bounds _ (who_page_size _ _ Hh)) as Hb.
  rewrite decide_False by (unfold WAL_HEADER_LEN; rewrite length_take; lia).
  assert (Hp : WalHeader_parse le (take n (wal_image le h (es ++ new))) = Ok h).
  { unfold wal_image. rewrite take_app_ge by (rewrite WalHeader_serialize_length; lia). by apply WalHeader_parse_serialize. }
  rewrite Hp. cbn [map_err]. rewrite decide_False by tauto.
  assert (Hfit' : zlen (wal_image le h (es ++ new)) ≤ ISIZE_MAX) by (rewrite Hl; lia).
  rewrite (wal_commit_atomic le h es new n Hh Hes Hnew Hc Ht Hn Hfit').
  assert (Hold : committed_pages le h (wal_image le h es) = publish ∅ ∅ 0 (log_frames le h es)).
  { pose proof (committed_pages_image le h Hh es [] Hes) as Hcp. rewrite app_nil_r in Hcp.
    apply Hcp; [cbn; lia|]. rewrite Hl0. rewrite length_app in Hfit. nia. }
  rewrite Hold. case_decide; cbn [fst]; rewrite publish_log by done; [done|]. unfold apply_entries. by rewrite foldl_app.
Qed.

Lemma dirty_entries_cache p c post : dirty_entries (set_cache p c) post = dirty_entries p post.
Proof. done. Qed.

Section ready.
Context (p : Pager (L := L)) (d : fs) (h : WalHeader) (es : list entry) (pc : Z)
        (R : wal_ready p d h es pc).

Definition wal_file (l : list entry) : fs := <[wal_path p := File (wal_image le h l) []]> d.
Definition wal_write : io :=
  WriteAt (wal_path p) (32 + zlen es * (24 + wh_page_size h))
    (entries_bytes le h (log_running le h es) (dirty_entries p pc)).
Definition wal_trace : list io := [wal_write; SyncF (wal_path p)].

Lemma new_entries_ok : Forall (entry_ok (wh_page_size h)) (dirty_entries p pc).
Proof.
  rewrite (wr_ps _ _ _ _ _ R). apply dirty_entries_ok; [apply (wr_dirty _ _ _ _ _ R)|].
  pose proof (wr_pc _ _ _ _ _ R). mlia.
Qed.

Lemma old_entries_ok : Forall (entry_ok (wh_page_size h)) es.
Proof. rewrite (wr_ps _ _ _ _ _ R). apply (wr_entries _ _ _ _ _ R). Qed.

Lemma new_entries_txn : txn (dirty_entries p pc).
Proof.
  apply dirty_entries_txn; [apply (wr_some _ _ _ _ _ R)|]. pose proof (wr_pc _ _ _ _ _ R). lia.
Qed.

Lemma new_entries_ne : dirty_entries p pc ≠ [].
Proof. destruct new_entries_txn as (pre & e & -> & _). by destruct pre. Qed.

Lemma new_log_committed : committed_log (es ++ dirty_entries p pc).
Proof.
  destruct new_entries_txn as (pre & e & -> & He & _). right. exists (es ++ pre), e.
  by rewrite (assoc_L (++)).
Qed.

Lemma wal_fit_old : 32 + zlen es * (24 + wh_page_size h) ≤ ISIZE_MAX.
Proof.
  pose proof (wr_fit _ _ _ _ _ R) as Hf.
  pose proof (valid_page_size_bounds _ (who_page_size _ _ (wr_header _ _ _ _ _ R))).
  rewrite <- (wr_ps _ _ _ _ _ R), length_app in Hf. nia.
Qed.

Lemma wal_exec_write :
  exec_io d wal_write !! wal_path p =
  Some (File (wal_image le h es)
          [FWrite (32 + zlen es * (24 + wh_page_size h))
             (entries_bytes le h (log_running le h es) (dirty_entries p pc))]).
Proof.
  unfold wal_write. cbn [exec_io]. rewrite lookup_alter_eq, (wr_log _ _ _ _ _ R). done.
Qed.

Lemma wal_write_contents :
  file_write_at (wal_image le h es)
    (entries_bytes le h (log_running le h es) (dirty_entries p pc))
    (32 + zlen es * (24 + wh_page_size h))
  = wal_image le h (es ++ dirty_entries p pc).
Proof.
  rewrite wal_image_app. apply file_write_at_append.
  - by rewrite wal_image_length by apply old_entries_ok.
  - rewrite entries_bytes_length by apply new_entries_ok.
    pose proof (wr_fit _ _ _ _ _ R) as Hf. rewrite <- (wr_ps _ _ _ _ _ R), length_app in Hf.
    pose proof (isize_usize _ Hf). lia.
Qed.

Lemma wal_exec_trace : exec_ios d wal_trace = wal_file (es ++ dirty_entries p pc).
Proof.
  unfold wal_trace, wal_write. cbn [exec_ios foldl exec_io].
  rewrite (alter_as_insert _ _ _ _ (wr_log _ _ _ _ _ R)) by done.
  rewrite (alter_as_insert _ _ _ _ (lookup_insert_eq _ _ _)), insert_insert_eq.
  unfold wal_file, contents. cbn [push_op durable pending app apply_ops foldl apply_op].
  by rewrite wal_write_contents.
Qed.

(** The appended frames, cut anywhere. *)
Lemma wal_torn_contents (n : nat) :
  file_write_at (wal_image le h es)
    (take n (entries_bytes le h (log_running le h es) (dirty_entries p pc)))
    (32 + zlen es * (24 + wh_page_size h))
  = take (length (wal_image le h es) + n) (wal_image le h (es ++ dirty_entries p pc)).
Proof.
  rewrite wal_image_app, take_app_add. apply file_write_at_append.
  - by rewrite wal_image_length by apply old_entries_ok.
  - rewrite length_take. rewrite Nat2Z.inj_min, entries_bytes_length by apply new_entries_ok.
    pose proof (wr_fit _ _ _ _ _ R) as Hf. rewrite <- (wr_ps _ _ _ _ _ R), length_app in Hf.
    pose proof (isize_usize _ Hf). lia.
Qed.

(** The log after a crash is the old one with none, some or all of the bytes
    appended to it. *)
Lemma wal_crash_log ops1 ops2 d' :
  wal_trace = ops1 ++ ops2 → torn_crash (exec_ios d ops1) d' →
  ∃ n : nat, d' !! wal_path p = Some (File (take (length (wal_image le h es) + n) (wal_image le h (es ++ dirty_entries p pc))) []) ∧
    (ops2 = [] → (length (wal_image le h (es ++ dirty_entries p pc)) ≤ length (wal_image le h es) + n)%nat).
Proof.
  intros Hops Hc. destruct ops1 as [|o1 [|o2 ops1]]; cbn [app] in Hops.
  - destruct (torn_crash_Some _ _ _ _ _ Hc (wr_log _ _ _ _ _ R)) as (ops' & D & ->%Forall2_nil_inv_l & ->%survives_nil_inv & Hd').
    exists 0%nat. rewrite Hd', Nat.add_0_r, wal_image_app, take_app_length. split; [done|]. intros ->. discriminate.
  - apply cons_eq_inv in Hops as [<- <-].
    destruct (torn_crash_Some _ _ _ _ _ Hc wal_exec_write) as (ops' & D & Ht & Hs & Hd').
    apply Forall2_cons_inv_l in Ht as (o & ops1 & Ho & ->%Forall2_nil_inv_l & ->).
    assert (∃ n, o = FWrite (32 + zlen es * (24 + wh_page_size h)) (take n (entries_bytes le h (log_running le h es) (dirty_entries p pc)))) as [n ->].
    { destruct Ho as [->|Ho]; [|exact Ho]. eexists (length _). by rewrite firstn_all. }
    inversion Hs as [|? ? ? ? Hs1|? ? ? ? Hs1]; subst; apply survives_nil_inv in Hs1 as ->.
    + exists n. cbn [apply_op] in Hd'. rewrite wal_torn_contents in Hd'. split; [done|discriminate].
    + exists 0%nat. rewrite Hd', Nat.add_0_r, wal_image_app, take_app_length. split; [done|discriminate].
  - apply cons_eq_inv in Hops as [<- Hops]. apply cons_eq_inv in Hops as [<- Hops].
    symmetry in Hops. apply app_nil in Hops as [-> ->].
    change (exec_ios d [wal_write; SyncF (wal_path p)]) with (exec_ios d wal_trace) in Hc.
    rewrite wal_exec_trace in Hc.
    destruct (torn_crash_Some _ _ _ _ _ Hc (lookup_insert_eq _ _ _)) as (ops' & D & ->%Forall2_nil_inv_l & ->%survives_nil_inv & Hd').
    exists (length (wal_image le h (es ++ dirty_entries p pc))). rewrite Hd'. split; [by rewrite take_ge by lia|]. lia.
Qed.

(** The overlay after a crash is the old one or the new one. *)
Lemma wal_crash ops1 ops2 d' :
  wal_trace = ops1 ++ ops2 → torn_crash (exec_ios d ops1) d' →
  ∃ l, read_wal_pages le d' (pg_db_path p) (pg_page_size p) = Ok (apply_entries ∅ l) ∧
    (l = es ∨ l = es ++ dirty_entries p pc) ∧ (ops2 = [] → l = es ++ dirty_entries p pc).
Proof.
  intros Hops Hc. destruct (wal_crash_log ops1 ops2 d' Hops Hc) as (n & Hl & Hend).
  eexists. split.
  - apply (read_wal_torn d' _ _ h es (dirty_entries p pc) (length (wal_image le h es) + n));
      [apply (wr_header _ _ _ _ _ R)|apply (wr_ps _ _ _ _ _ R)|apply (wr_entries _ _ _ _ _ R)| |
       apply (wr_committed _ _ _ _ _ R)|apply new_entries_txn|lia|apply (wr_fit _ _ _ _ _ R)|].
    + rewrite <- (wr_ps _ _ _ _ _ R). apply new_entries_ok.
    + unfold read_file. fold (wal_path p). by rewrite Hl.
  - case_decide as Hd; [|by auto]. split; [by left|]. intros Hnil. specialize (Hend Hnil). lia.
Qed.

(** The writer [flush_wal_locked] opens, and the pager it returns. *)
Lemma wal_open_writer c :
  WalWriter_open_existing le d (companion_path (pg_db_path p) "-wal") (pg_page_size (set_cache p c))
    (pg_wal_resume (set_cache p c)) = Ok (writer_state le h (wal_path p) es).
Proof.
  cbn [set_cache pg_page_size pg_wal_resume]. fold (wal_path p).
  assert (Hr : read_file d (wal_path p) = Some (wal_image le h es))
    by (unfold read_file; by rewrite (wr_log _ _ _ _ _ R)).
  pose proof (open_existing_state le h (wr_header _ _ _ _ _ R) d (wal_path p) es) as Ho.
  rewrite <- (wr_ps _ _ _ _ _ R).
  assert (Hl : zlen (wal_image le h es) ≤ ISIZE_MAX)
    by (rewrite wal_image_length by apply old_entries_ok; apply wal_fit_old).
  destruct (wr_hint _ _ _ _ _ R) as [-> | ->].
  - by apply (Ho false Hr old_entries_ok Hl).
  - by apply (Ho true Hr old_entries_ok Hl).
Qed.

Definition wal_committed (p1 : Pager (L := L)) (hint : option WalResumeHint) : Pager (L := L) :=
  set_dirty (set_wal p1 (pg_dirty p ∪ pg_wal_pages p) hint) ∅.

(** The commit up to the writer's sync. *)
Lemma flush_wal_head s1 s2 fresh_shm :
  ∃ p1, same_but_cache p p1 ∧ coherent p1 d ∧
    flush_wal_locked le p d s1 s2 fresh_shm =
    ((let w := append_all le (writer_state le h (wal_path p) es) (dirty_entries p pc) in
      let! w := (if decide (pg_synchronous p = SyncFull)
                 then t_map_err (PWal (wal_path p)) (WalWriter_sync w) else t_ok w) in
      t_ok (wal_committed p1 (Some (WalWriter_resume_hint w)))), p1).
Proof.
  destruct (Pager_read_page_spec p d 1 (wr_coherent _ _ _ _ _ R))
    as (p1 & Hr & Hs & Hco). destruct (wr_page1 _ _ _ _ _ R) as (b1 & Hv & Hpc).
  exists p1. split_and!; [done|done|]. unfold flush_wal_locked. rewrite Hr, Hv.
  cbn [p_page map_err]. rewrite t_bind_t_lift. unfold read_be_u32. rewrite Hpc.
  cbn [ok_or p_free map_err]. rewrite t_bind_t_lift. rewrite Hs. rewrite wal_open_writer, t_bind_t_ok.
  change (append_dirty le (set_cache p _) _ _ _)
    with (append_dirty le p (writer_state le h (wal_path p) es) (dirty_pages p) pc).
  by rewrite append_dirty_entries.
Qed.

Lemma flush_wal_trace s1 s2 fresh_shm :
  pg_synchronous p = SyncFull →
  ∃ p1 hint, same_but_cache p p1 ∧ coherent p1 d ∧
    flush_wal_locked le p d s1 s2 fresh_shm = ((wal_trace, Ok (wal_committed p1 (Some hint))), p1).
Proof.
  intros Hsync. destruct (flush_wal_head s1 s2 fresh_shm) as (p1 & Hs & Hco & ->).
  exists p1. cbv zeta. rewrite decide_True by done.
  rewrite append_all_state; [|apply (wr_header _ _ _ _ _ R)|apply new_entries_ne|
    apply new_entries_ok|rewrite (wr_ps _ _ _ _ _ R); apply (wr_fit _ _ _ _ _ R)].
  eexists. split_and!; [done|done|]. reflexivity.
Qed.
End ready.
End walcommit.

(** ** Properties *)

(** C2: WAL commits are atomic and durable across a crash.  In WAL mode with
    [synchronous = FULL] the commit succeeds, empties the dirty buffer and
    leaves every page reading as it did inside the transaction; crash the
    machine between any two of its file operations, losing any subset of
    unsynced ones and cutting each that reaches the disk after any of its
    bytes, so that the log can hold some of the transaction's frames and a
    piece of the next, and the log's readers see exactly the pages committed
    before or exactly those overlaid with all of the transaction's pages,
    always the latter once the commit returned.  The database file is not
    touched. *)
Theorem wal_commit_crash_atomic {L : Type} {F : FileLock L} (le : bool) (p : Pager (L := L)) (d : fs)
    (h : WalHeader) (es : list entry) (pc s1 s2 : Z) (fresh_shm : bytes)
    (Hready : wal_ready le p d h es pc) (Hsync : pg_synchronous p = SyncFull) :
  ∃ ops p' p1, flush_wal_locked le p d s1 s2 fresh_shm = ((ops, Ok p'), p1) ∧
    pg_dirty p' = ∅ ∧ (∀ n, view p' (exec_ios d ops) n = view p d n) ∧
    (∀ q, q ≠ wal_path p → exec_ios d ops !! q = d !! q) ∧
    ∀ ops1 ops2 d', ops = ops1 ++ ops2 → torn_crash (exec_ios d ops1) d' →
      ∃ overlay, read_wal_pages le d' (pg_db_path p) (pg_page_size p) = Ok overlay ∧
        (overlay = pg_wal_pages p ∨ overlay = pg_dirty p ∪ pg_wal_pages p) ∧
        (ops2 = [] → overlay = pg_dirty p ∪ pg_wal_pages p).
Proof.
  destruct (flush_wal_trace le p d h es pc Hready s1 s2 fresh_shm Hsync) as (p1 & hint & Hs & Hco & Hf).
  assert (Hother : ∀ q, q ≠ wal_path p → exec_ios d (wal_trace le p h es pc) !! q = d !! q).
  { intros q Hq. rewrite (wal_exec_trace le p d h es pc Hready). by apply lookup_insert_ne. }
  do 3 eexists. split; [exact Hf|]. split_and!; [done| |done|].
  - intros n. unfold view, read_page. cbn [wal_committed set_dirty set_wal pg_dirty pg_wal_pages].
    rewrite lookup_empty, lookup_union. destruct (pg_dirty p !! n) as [b|] eqn:E.
    + by destruct (pg_wal_pages p !! n).
    + rewrite (left_id_L None _). destruct (pg_wal_pages p !! n); [done|].
      unfold source_read, read_file. rewrite Hs. cbn [set_dirty set_wal set_cache pg_db_path pg_page_size].
      rewrite Hother; [done|]. unfold wal_path. intros Heq. by apply (companion_ne (pg_db_path p) "-wal").
  - intros ops1 ops2 d' Hops Hc.
    destruct (wal_crash le p d h es pc Hready ops1 ops2 d' Hops Hc) as (l & Hr & Hor & Hend).
    assert (Hnew : apply_entries ∅ (es ++ dirty_entries p pc) = pg_dirty p ∪ pg_wal_pages p).
    { rewrite (wr_overlay _ _ _ _ _ _ Hready), <- (apply_dirty p pc).
      unfold apply_entries. by rewrite foldl_app. }
    exists (apply_entries ∅ l). split; [done|]. split.
    + destruct Hor as [->| ->]; [left; symmetry; apply (wr_overlay _ _ _ _ _ _ Hready)|by right].
    + intros H2. by rewrite (Hend H2).
Qed.

(** The example database in WAL mode, with an empty log. *)
Definition wal_example_pager (sync : SynchronousMode) : Pager (L := ()) :=
  {| pg_lock := (); pg_tx_lock_level := Shared; pg_wal_resume := None; pg_wal_pages := ∅;
     pg_dirty := {[1 := new_empty_page1 512]}; pg_cache := PageCache_new 8; pg_page_size := 512;
     pg_db_path := "db"; pg_journal_path := "db-journal"; pg_journal_mode := WalMode;
     pg_synchronous := sync |}.

Definition wal_example_fs : fs :=
  {["db" := File (new_empty_page1 512) [];
    "db-wal" := File (wal_image true wal_example_header []) []]}.

Lemma wal_example_ready sync :
  wal_ready true (wal_example_pager sync) wal_example_fs wal_example_header [] 1.
Proof.
  split.
  - exact wal_example_header_ok.
  - reflexivity.
  - unfold wal_example_fs, wal_path. cbn [wal_example_pager pg_db_path].
    change (companion_path "db" "-wal") with "db-wal". by rewrite lookup_insert_ne, lookup_singleton_eq.
  - by left.
  - apply Forall_nil_2.
  - reflexivity.
  - by left.
  - split; [intros n b Hn; revert Hn; unfold cached; cbn; by rewrite lookup_empty|].
    intros n _. unfold cached. cbn. by rewrite lookup_empty.
  - exists (new_empty_page1 512). unfold view. cbn [wal_example_pager pg_dirty].
    rewrite lookup_singleton_eq. split; reflexivity.
  - unfold U32_MAX. lia.
  - apply map_Forall_singleton. split; [unfold u32_ok; lia|reflexivity].
  - intros He. apply (f_equal (lookup 1)) in He. cbn [wal_example_pager pg_dirty] in He.
    rewrite lookup_singleton_eq, lookup_empty in He. discriminate.
  - vm_compute. congruence.
Qed.

(** The same with two dirty pages: the second frame is the commit frame. *)
Definition two_pages_page1 : bytes := put (new_empty_page1 512) PAGE_COUNT_OFFSET (be_bytes 4 2).

Definition wal_torn_pager : Pager (L := ()) :=
  set_dirty (wal_example_pager SyncFull) {[1 := two_pages_page1; 2 := zeros 512]}.

Lemma wal_torn_ready : wal_ready true wal_torn_pager wal_example_fs wal_example_header [] 2.
Proof.
  destruct (wal_example_ready SyncFull) as [? ? ? ? ? ? ? [Hc1 Hc2] ? ? ? ? ?].
  split; try assumption.
  - by split.
  - exists two_pages_page1. split; [|vm_compute; reflexivity]. unfold view. cbn [wal_torn_pager set_dirty pg_dirty].
    by rewrite lookup_insert_eq.
  - unfold wal_torn_pager. cbn [set_dirty pg_dirty pg_page_size wal_example_pager]. apply map_Forall_insert_2; [split; [unfold u32_ok; lia|vm_compute; reflexivity]|].
    apply map_Forall_singleton. split; [unfold u32_ok; lia|reflexivity].
  - intros He. apply (f_equal (lookup 1)) in He. cbn [wal_torn_pager set_dirty pg_dirty] in He.
    rewrite lookup_insert_eq, lookup_empty in He. discriminate.
Qed.

(** The commit's write cut after the first frame and 100 bytes of the second:
    the reader sees nothing of the transaction. *)
Lemma wal_commit_crash_atomic_witness :
  ∃ w b p' p1, flush_wal_locked true wal_torn_pager wal_example_fs 3 4 [] = (([w; SyncF "db-wal"], Ok p'), p1) ∧
    pg_dirty p' = ∅ ∧ view p' (exec_ios wal_example_fs [w; SyncF "db-wal"]) 1 = Ok two_pages_page1 ∧
    w = WriteAt "db-wal" 32 b ∧
    ∃ overlay, read_wal_pages true (<["db-wal" := File (wal_image true wal_example_header [] ++ take 636 b) []]> wal_example_fs) "db" 512 = Ok overlay ∧
      (overlay = ∅ ∨ overlay = pg_dirty wal_torn_pager).
Proof.
  destruct (wal_commit_crash_atomic true wal_torn_pager wal_example_fs wal_example_header
    [] 2 3 4 [] wal_torn_ready eq_refl) as (ops & p' & p1 & Hf & Hd & Hv & _ & Hcrash).
  destruct (flush_wal_trace true wal_torn_pager wal_example_fs wal_example_header [] 2 wal_torn_ready 3 4 [] eq_refl)
    as (p2 & hint & _ & _ & Hf').
  rewrite Hf in Hf'. assert (ops = wal_trace true wal_torn_pager wal_example_header [] 2) as -> by (injection Hf'; auto).
  clear Hf'. eexists _, _, p', p1. split; [exact Hf|]. split; [exact Hd|]. split; [|split; [reflexivity|]].
  - etransitivity; [exact (Hv 1)|]. unfold view. cbn [wal_torn_pager set_dirty pg_dirty]. by rewrite lookup_insert_eq.
  - destruct (Hcrash [wal_write true wal_torn_pager wal_example_header [] 2] [SyncF (wal_path wal_torn_pager)]
      (<["db-wal" := File (wal_image true wal_example_header [] ++
           take 636 (entries_bytes true wal_example_header (log_running true wal_example_header []) (dirty_entries wal_torn_pager 2))) []]> wal_example_fs)
      eq_refl) as (overlay & Ho & Hor & _).
    + replace (wal_image true wal_example_header [] ++ take 636 (entries_bytes true wal_example_header (log_running true wal_example_header []) (dirty_entries wal_torn_pager 2)))
        with (take (length (wal_image true wal_example_header []) + 636) (wal_image true wal_example_header ([] ++ dirty_entries wal_torn_pager 2)))
        by (rewrite wal_image_app; apply take_app_add).
      rewrite <- (wal_torn_contents true wal_torn_pager wal_example_fs wal_example_header [] 2 wal_torn_ready).
      set (X := File (file_write_at _ _ _) []).
      pose proof (wal_exec_write true wal_torn_pager wal_example_fs wal_example_header [] 2 wal_torn_ready) as Hw.
      replace (<["db-wal" := X]> wal_example_fs)
        with (<["db-wal" := X]> (exec_io wal_example_fs (wal_write true wal_torn_pager wal_example_header [] 2))).
      * apply (torn_crash_one _ _ _ _ _ _ Hw). intros q' f Hne. unfold wal_write. cbn [exec_io].
        change (wal_path wal_torn_pager) with "db-wal" in Hne |- *. rewrite lookup_alter_ne by done.
        unfold wal_example_fs. rewrite lookup_insert_Some, lookup_singleton_Some. by intros [[_ <-]|[_ [_ <-]]].
      * unfold wal_write. cbn [exec_io]. change (wal_path wal_torn_pager) with "db-wal".
        rewrite (alter_as_insert _ _ _ _ (wr_log _ _ _ _ _ _ wal_torn_ready)) by done. apply insert_insert_eq.
    + exists overlay. split; [exact Ho|]. destruct Hor as [->| ->]; [by left|right]. apply (right_id_L ∅ (∪)).
Defined.

(** C34: What a WAL commit does with [synchronous] other than FULL.  It
    reports success, empties the dirty buffer and shows the transaction to
    its own connection, but issues no file operation at all: the frames stay
    in the writer's buffer, which is dropped, so every other reader, and the
    same database reopened, sees only what was committed before. *)
Theorem wal_commit_unsynced_lost {L : Type} {F : FileLock L} (le : bool) (p : Pager (L := L)) (d : fs)
    (h : WalHeader) (es : list entry) (pc s1 s2 : Z) (fresh_shm : bytes)
    (Hready : wal_ready le p d h es pc) (Hsync : pg_synchronous p ≠ SyncFull) :
  ∃ p' p1, flush_wal_locked le p d s1 s2 fresh_shm = (([], Ok p'), p1) ∧
    pg_dirty p' = ∅ ∧ pg_wal_pages p' = pg_dirty p ∪ pg_wal_pages p ∧
    read_wal_pages le (exec_ios d []) (pg_db_path p) (pg_page_size p) = Ok (pg_wal_pages p).
Proof.
  destruct (flush_wal_head le p d h es pc Hready s1 s2 fresh_shm) as (p1 & _ & _ & Hf).
  cbv zeta in Hf. rewrite decide_False in Hf by done. rewrite t_bind_t_ok in Hf.
  do 2 eexists. split; [exact Hf|]. split_and!; [done|done|].
  rewrite (wr_overlay _ _ _ _ _ _ Hready).
  apply (read_wal_image le _ _ _ h); try apply Hready.
  - rewrite <- (wr_ps _ _ _ _ _ _ Hready). by apply (wal_fit_old le p d h es pc).
  - unfold read_file. fold (wal_path p). cbn [exec_ios foldl]. by rewrite (wr_log _ _ _ _ _ _ Hready).
Qed.

Lemma wal_commit_unsynced_lost_witness :
  ∃ p' p1, flush_wal_locked true (wal_example_pager SyncNormal) wal_example_fs 3 4 [] = (([], Ok p'), p1) ∧
    pg_wal_pages p' !! 1 = Some (new_empty_page1 512) ∧
    read_wal_pages true wal_example_fs "db" 512 = Ok ∅.
Proof.
  destruct (wal_commit_unsynced_lost true (wal_example_pager SyncNormal) wal_example_fs
    wal_example_header [] 1 3 4 [] (wal_example_ready SyncNormal) ltac:(discriminate))
    as (p' & p1 & Hf & _ & Hw & Hr).
  exists p', p1. split; [exact Hf|]. split; [|exact Hr]. rewrite Hw.
  cbn [wal_example_pager pg_dirty pg_wal_pages]. by rewrite (right_id_L ∅ (∪)), lookup_singleton_eq.
Defined.
