(* ===== verification/Transaction.v ===== *)
(** * Transactions as a client of the pager sees them

    Reads and in-place edits through the dirty buffer, the WAL overlay and
    the page cache refine a plain map from page numbers to pages; rollback
    restores the committed one.  Then what a commit does when it cannot get
    its lock, and when the journal is deleted before the file is synced. *)

From S2P Require Import Prelude Vfs Header Journal PageCache Lock Pager Commit.

(** ** Client operations *)

Inductive page_op : Type :=
| ReadPage (page_num : Z)
| EditPage (page_num : Z) (edit : bytes → bytes)
| BeginTx (exclusive : bool)
| RollbackTx.

(** What a client gets back. *)
Inductive page_answer : Type :=
| PageIs (r : result PagerError bytes)
| Done (r : result PagerError ()).

Section transaction.
Context `{FileLock L}.
Implicit Types (p : Pager (L := L)) (d : fs).

(** On the pager: a read; [get_page_mut] and an edit of the buffer; [BEGIN
    IMMEDIATE] or [BEGIN EXCLUSIVE]; a rollback. *)
Definition run_op p d (op : page_op) : page_answer * Pager (L := L) :=
  match op with
  | ReadPage n => let '(r, p) := Pager_read_page p d n in (PageIs (p_page r), p)
  | EditPage n f =>
      match get_page_mut p d n with
      | (Ok b, p) => (PageIs (Ok b), write_dirty p n (f b))
      | (Err e, p) => (PageIs (Err e), p)
      end
  | BeginTx exclusive => let '(r, p) := (if exclusive then begin_exclusive else begin_immediate) p in (Done r, p)
  | RollbackTx => let '(r, p) := rollback p in (Done r, p)
  end.

Fixpoint run_ops p d (ops : list page_op) : list page_answer * Pager (L := L) :=
  match ops with
  | [] => ([], p)
  | op :: ops =>
      let '(r, p) := run_op p d op in
      let '(rs, p) := run_ops p d ops in (r :: rs, p)
  end.

(** The specification: the committed pages, the pages inside the transaction,
    the lock and the level the transaction has taken it to. *)
Record tx_state : Type := TxState {
  tx_committed : Z → result PageError bytes;
  tx_pages : Z → result PageError bytes;
  tx_lock : L;
  tx_level : LockLevel;
}.

Definition tx_of p d : tx_state := TxState (read_page p d) (view p d) (pg_lock p) (pg_tx_lock_level p).

(** Moving the lock: the level is that reached when it succeeds. *)
Definition spec_move (t : tx_state) (target : LockLevel) : page_answer * tx_state :=
  match lock_set_level (tx_lock t) target with
  | (Ok _, lk) => (Done (Ok ()), TxState (tx_committed t) (tx_pages t) lk target)
  | (Err e, lk) => (Done (Err (PVfs e)), TxState (tx_committed t) (tx_pages t) lk (tx_level t))
  end.

(** A rollback forgets every edit, and gives back a lock beyond SHARED. *)
Definition spec_op (t : tx_state) (op : page_op) : page_answer * tx_state :=
  match op with
  | ReadPage n => (PageIs (p_page (tx_pages t n)), t)
  | EditPage n f =>
      match tx_pages t n with
      | Ok b => (PageIs (Ok b), TxState (tx_committed t) (λ k, if decide (k = n) then Ok (f b) else tx_pages t k) (tx_lock t) (tx_level t))
      | Err e => (PageIs (Err (PPage e)), t)
      end
  | BeginTx exclusive => spec_move t (if exclusive then Exclusive else Reserved)
  | RollbackTx =>
      let t := TxState (tx_committed t) (tx_committed t) (tx_lock t) (tx_level t) in
      if decide (level_lt Shared (tx_level t)) then spec_move t Shared else (Done (Ok ()), t)
  end.

Fixpoint spec_ops (t : tx_state) (ops : list page_op) : list page_answer * tx_state :=
  match ops with
  | [] => ([], t)
  | op :: ops =>
      let '(r, t) := spec_op t op in
      let '(rs, t) := spec_ops t ops in (r :: rs, t)
  end.

(** The pager implements the specification's state. *)
Definition tx_refines p d (t : tx_state) : Prop :=
  coherent p d ∧ (∀ n, view p d n = tx_pages t n) ∧ (∀ n, read_page p d n = tx_committed t n) ∧
  pg_lock p = tx_lock t ∧ pg_tx_lock_level p = tx_level t.

(** Reads and locks look at some of the pager's fields only. *)
Lemma tx_refines_move p d t target :
  tx_refines p d t →
  let '(r, p1) := (let '(r, p1) := p_set_level p target in
                   match r with Ok _ => (Ok (), set_tx_level p1 target) | Err e => (Err e, p1) end) in
  let '(r', t') := spec_move t target in
  Done r = r' ∧ tx_refines p1 d t'.
Proof.
  intros (Hco & Hv & Hr & Hl & Ht). unfold p_set_level, spec_move. rewrite Hl.
  destruct (lock_set_level (tx_lock t) target) as [[[]|e] lk]; cbn; split; try done; by split_and!.
Qed.

Lemma run_op_refines p d op t :
  tx_refines p d t →
  let '(r, p') := run_op p d op in let '(r', t') := spec_op t op in r = r' ∧ tx_refines p' d t'.
Proof.
  intros HR. destruct op as [n|n f|exclusive|]; cbn [run_op spec_op].
  - destruct HR as (Hco & Hv & Hr & Hl & Ht). destruct (Pager_read_page_spec p d n Hco) as (p' & -> & Hs & Hco'). rewrite Hv.
    split; [done|]. unfold same_but_cache in Hs. split_and!; [done| | |by rewrite Hs|by rewrite Hs].
    + intros k. rewrite (view_same_but_cache p p') by done. apply Hv.
    + intros k. rewrite <- Hr. by rewrite Hs.
  - destruct HR as (Hco & Hv & Hr & Hl & Ht).
    destruct (get_page_mut_spec p d n Hco) as (p1 & -> & Hco1 & Hv1 & Hd1 & He1 & Hp1).
    rewrite <- Hv. destruct (view p d n) as [b|e] eqn:Hn; cbn [p_page map_err].
    + specialize (Hd1 b eq_refl). split; [done|]. split_and!.
      * destruct Hco1 as [Hc Hd]. split; [exact Hc|]. intros k Hk.
        cbn [write_dirty set_dirty pg_dirty pg_cache] in *. apply Hd.
        rewrite Hd1 in Hk |- *. rewrite insert_insert_eq in Hk.
        destruct (decide (k = n)) as [->|]; [rewrite lookup_insert_eq; eauto|].
        rewrite lookup_insert_ne in Hk |- * by congruence. done.
      * intros k. unfold view, write_dirty. cbn [set_dirty pg_dirty tx_pages]. case_decide as Hk.
        -- subst. by rewrite lookup_insert_eq.
        -- rewrite lookup_insert_ne by done. rewrite <- Hv, <- Hv1. done.
      * intros k. cbn [tx_committed]. rewrite <- Hr. rewrite Hp1. done.
      * cbn. by rewrite Hp1.
      * cbn. by rewrite Hp1.
    + split; [done|]. split_and!; [done|intros k; by rewrite Hv1| |by rewrite Hp1|by rewrite Hp1].
      intros k. rewrite <- Hr. by rewrite Hp1.
  - pose proof (tx_refines_move p d t (if exclusive then Exclusive else Reserved) HR) as Hmove.
    destruct exclusive; [unfold begin_exclusive|unfold begin_immediate]; destruct (p_set_level p _) as [[[]|e] p1];
      by destruct (spec_move t _) as [r' t'].
  - set (t0 := TxState (tx_committed t) (tx_committed t) (tx_lock t) (tx_level t)).
    assert (HR0 : tx_refines (set_dirty p ∅) d t0).
    { destruct HR as ([Hc _] & Hv & Hr & Hl & Ht). split_and!; [|intros n|done|done|done].
      - split; [exact Hc|]. intros n. cbn [set_dirty pg_dirty]. rewrite lookup_empty. by intros [].
      - unfold view. cbn [set_dirty pg_dirty]. rewrite lookup_empty. apply Hr. }
    assert (Hlev : pg_tx_lock_level (set_dirty p ∅) = tx_level t) by apply HR0.
    unfold rollback, release_tx_lock. rewrite Hlev. cbn [tx_level t0]. case_decide as Hd; [|done].
    pose proof (tx_refines_move (set_dirty p ∅) d t0 Shared HR0) as Hmove.
    destruct (p_set_level (set_dirty p ∅) Shared) as [[[]|e] p1]; by destruct (spec_move t0 Shared) as [r' t'].
Qed.

Lemma run_ops_refines ops p d t :
  tx_refines p d t → (run_ops p d ops).1 = (spec_ops t ops).1 ∧ tx_refines (run_ops p d ops).2 d (spec_ops t ops).2.
Proof.
  revert p t. induction ops as [|op ops IH]; intros p t HR; cbn [run_ops spec_ops]; [done|].
  pose proof (run_op_refines p d op t HR) as Hop.
  destruct (run_op p d op) as [r p1], (spec_op t op) as [r' t1]. destruct Hop as [-> HR1].
  destruct (IH p1 t1 HR1) as [Hr HR2].
  destruct (run_ops p1 d ops) as [rs p2], (spec_ops t1 ops) as [rs' t2]. cbn [fst snd] in *. by rewrite Hr.
Qed.

(** A pager starts coherent. *)
Lemma opened_coherent le d (lk : L) path ps ops p : Pager_open le d lk path ps = (ops, Ok p) → coherent p (exec_ios d ops).
Proof.
  intros Ho. assert (pg_dirty p = ∅ ∧ pg_cache p = PageCache_new DEFAULT_PAGE_CACHE_CAPACITY) as [Hd Hc].
  { unfold Pager_open, t_bind, t_lift, t_ok in Ho. repeat case_match; simplify_eq/=; done. }
  split; [|rewrite Hd; intros n; rewrite lookup_empty; by intros []].
  rewrite Hc. intros n b. unfold cached. cbn. by rewrite lookup_empty.
Qed.

Lemma release_tx_lock_view p d k : view (release_tx_lock p).2 d k = view p d k.
Proof.
  unfold release_tx_lock, p_set_level. case_decide; [|done].
  by destruct (lock_set_level (pg_lock p) Shared) as [[|] ?].
Qed.
End transaction.

(** A crash that keeps every operation, but leaves [D] in one file. *)
Lemma crash_choose (d : fs) q f D :
  d !! q = Some f → survives (durable f) (pending f) D →
  crash d (<[q := File D []]> ((λ f, File (contents f) []) <$> d)).
Proof.
  intros Hq Hs r. destruct (decide (r = q)) as [->|Hne].
  - by rewrite Hq, lookup_insert_eq.
  - rewrite lookup_insert_ne, lookup_fmap by done. destruct (d !! r) as [g|]; [|done]. cbn.
    split; [apply survives_all|done].
Qed.

(** ** Properties *)

(** C12: The pager refines a plain page map with rollback.  From a pager whose
    cache holds what the file holds (as a pager just opened does), take any
    sequence of page reads, in-place page edits, [BEGIN IMMEDIATE]s, [BEGIN
    EXCLUSIVE]s and rollbacks in any order.  Every answer, errors included, is
    that of the same sequence on two plain maps, the committed pages and the
    pages of the transaction, of which a rollback makes the second the first
    again, although each operation goes through the dirty buffer, the WAL
    overlay and the evicting page cache; a lock is taken, and given back by a
    rollback, as the specification's; and afterwards the pager stands for those
    two maps with its cache still that of the file. *)
Theorem pager_refines_page_map {L : Type} {F : FileLock L} (p : Pager (L := L)) (d : fs)
    (ops : list page_op) (Hco : coherent p d) :
  let '(rs, p') := run_ops p d ops in
  let '(rs', t) := spec_ops (tx_of p d) ops in
  rs = rs' ∧ coherent p' d ∧ (∀ n, view p' d n = tx_pages t n) ∧ (∀ n, read_page p' d n = tx_committed t n) ∧
  pg_lock p' = tx_lock t ∧ pg_tx_lock_level p' = tx_level t.
Proof.
  pose proof (run_ops_refines ops p d (tx_of p d)) as Hrun.
  destruct (run_ops p d ops) as [rs p'], (spec_ops (tx_of p d) ops) as [rs' t]. cbn [fst snd] in *.
  apply Hrun. by split_and!.
Qed.

(** A rollback between two edits of page 1. *)
Definition tx_example_ops : list page_op :=
  [BeginTx false; EditPage 1 (λ _, zeros 512); ReadPage 1; RollbackTx; EditPage 1 (λ b, b); ReadPage 1].

Lemma pager_refines_page_map_witness :
  let p := example_pager SyncFull ∅ in
  (run_ops p example_fs tx_example_ops).1
  = [Done (Ok ()); PageIs (Ok (new_empty_page1 512)); PageIs (Ok (zeros 512)); Done (Ok ());
     PageIs (Ok (new_empty_page1 512)); PageIs (Ok (new_empty_page1 512))].
Proof.
  intros p. pose proof (pager_refines_page_map p example_fs tx_example_ops (example_coherent SyncFull ∅)) as H.
  assert (Hr : read_page p example_fs 1 = Ok (new_empty_page1 512)).
  { unfold read_page, source_read, read_file, example_fs.
    cbn [p example_pager pg_wal_pages pg_db_path pg_page_size].
    rewrite !lookup_empty, lookup_singleton_eq. vm_compute. reflexivity. }
  assert (Hv : view p example_fs 1 = Ok (new_empty_page1 512)).
  { unfold view. cbn [p example_pager pg_dirty]. rewrite lookup_empty. exact Hr. }
  destruct (run_ops p example_fs _) as [rs p'].
  destruct (spec_ops (tx_of p example_fs) tx_example_ops) as [rs' t] eqn:Hs. destruct H as (-> & _).
  assert (rs' = (spec_ops (tx_of p example_fs) tx_example_ops).1) as -> by (by rewrite Hs).
  clear Hs. unfold tx_of. revert Hr Hv. generalize (read_page p example_fs) as R, (view p example_fs) as V. intros R V HR HV.
  unfold tx_example_ops. cbn. rewrite HV. cbn.
  rewrite (decide_True (P := level_lt Shared Reserved)) by (unfold level_lt; cbn; lia). cbn. rewrite HR. reflexivity.
Defined.

(** A statement outside an explicit transaction: each [flush] takes and
    gives back its own lock. *)
Definition autocommit {L} (p : Pager (L := L)) : Prop :=
  pg_journal_mode p = Legacy ∧ pg_tx_lock_level p = Shared.

(** The database file once the directory a crash left behind is reopened. *)
Definition reopened {L} `{FileLock L} (le : bool) (p : Pager (L := L)) (d : fs) (lk : L) : option bytes :=
  read_file (exec_ios d (Pager_open le d lk (pg_db_path p) (pg_page_size p)).1) (pg_db_path p).

(** A commit that cannot get EXCLUSIVE leaves its lock behind.  When
    another process still reads, [flush] fails before it writes anything and
    keeps the transaction, as it should; but the lock stays at the level the
    ladder reached, the pager still believes it holds only SHARED, and so
    [rollback] succeeds without releasing it. *)
Theorem failed_flush_keeps_lock {L : Type} {F : FileLock L} (le : bool) (p : Pager (L := L)) (d : fs)
    (nonce s1 s2 : Z) (fresh_shm : bytes) (e : VfsError) (lk : L)
    (Hdirty : pg_dirty p ≠ ∅) (Hauto : autocommit p)
    (Hbusy : lock_set_level (pg_lock p) Exclusive = (Err e, lk)) :
  ∃ p1 p2, flush le p d nonce s1 s2 fresh_shm = ([], Err (PVfs e), p1) ∧
    pg_dirty p1 = pg_dirty p ∧ pg_lock p1 = lk ∧
    rollback p1 = (Ok (), p2) ∧ pg_dirty p2 = ∅ ∧ pg_lock p2 = lk.
Proof.
  destruct Hauto as [Hmode Htx].
  unfold flush, p_set_level. rewrite decide_False by done. rewrite Hmode, Hbusy.
  rewrite decide_False by done. cbn [p_vfs map_err].
  exists (set_lock p lk), (set_dirty (set_lock p lk) ∅). split_and!; [done..| |done|done].
  unfold rollback, release_tx_lock. cbn [set_dirty set_lock pg_tx_lock_level]. rewrite Htx.
  by rewrite decide_False by (unfold level_lt; cbn; lia).
Qed.

(** Processes 1 and 2 read; process 1 commits. *)
Definition contended_locks : lock_table :=
  (set_level (set_level ∅ {| fl_pid := 2; fl_level := Unlocked |} Shared).1.1
             {| fl_pid := 1; fl_level := Unlocked |} Shared).1.1.

Definition contended_pager : Pager (L := UnixLockGuard lock_table) :=
  {| pg_lock := UnixLock contended_locks {| fl_pid := 1; fl_level := Shared |} "db";
     pg_tx_lock_level := Shared; pg_wal_resume := None; pg_wal_pages := ∅;
     pg_dirty := {[1 := zeros 512]}; pg_cache := PageCache_new 8; pg_page_size := 512;
     pg_db_path := "db"; pg_journal_path := "db-journal"; pg_journal_mode := Legacy;
     pg_synchronous := SyncFull |}.

(** C33: What [synchronous = NORMAL] gives up.  The rollback-journal commit
    deletes the journal without having synced the database file, so a crash
    after it returned may keep any subset of its page writes: whatever such a
    subset leaves in the file is what the reopened database holds, with
    nothing to recover from. *)
Theorem normal_commit_not_atomic {L : Type} {F : FileLock L} (le : bool) (p : Pager (L := L)) (d : fs)
    (data : bytes) (ipc nonce : Z) (lk : L)
    (Hready : flush_ready p d data ipc nonce) (Hsync : pg_synchronous p = SyncNormal)
    (Hlk : lock_free lk) :
  ∃ ops, flush_locked p d nonce = (ops, Ok (set_dirty p ∅)) ∧
    ∀ D, survives data (wops p) D → ∃ d', crash (exec_ios d ops) d' ∧ reopened le p d' lk = Some D.
Proof.
  pose proof (flush_locked_ops p d data ipc nonce Hready ltac:(congruence)) as Hf.
  rewrite decide_False in Hf by congruence. eexists. split; [exact Hf|]. intros D Hs.
  pose proof (jne p d data ipc nonce Hready) as Hjne.
  set (ops := _ ++ _).
  assert (He : exec_ios d ops = delete (pg_journal_path p) (fs_writes p d data ipc nonce (wops p))).
  { unfold ops. rewrite exec_ios_app, (exec_journal p d data ipc nonce Hready).
    rewrite exec_ios_app. change (exec_ios _ [SyncF (pg_journal_path p)])
      with (exec_io (fs_journal p d (jops p data ipc nonce)) (SyncF (pg_journal_path p))).
    rewrite (journal_synced p d data ipc nonce Hready), exec_ios_app.
    by rewrite (exec_writes p d data ipc nonce). }
  assert (Hdb : exec_ios d ops !! pg_db_path p = Some (File data (wops p))).
  { rewrite He, lookup_delete_ne by done. unfold fs_writes. apply lookup_insert_eq. }
  eexists. split; [by apply (crash_choose _ _ _ D Hdb)|].
  set (d' := <[pg_db_path p := File D []]> _).
  assert (Hd' : d' !! pg_db_path p = Some (File D [])) by apply lookup_insert_eq.
  assert (Hj : read_file d' (pg_journal_path p) = None).
  { unfold read_file, d'. rewrite lookup_insert_ne by done. by rewrite lookup_fmap, He, lookup_delete_eq. }
  unfold reopened. rewrite Pager_open_ops by eauto. rewrite no_recovery.
  - unfold read_file. cbn [exec_ios foldl]. by rewrite Hd'.
  - rewrite (jpath p d data ipc nonce Hready), Hj. done.
Qed.

(** Two pages rewritten, of which only the first reaches the disk. *)
Definition two_page_data : bytes := put (new_empty_page1 512) 28 (be_bytes 4 2) ++ zeros 512.
Definition ones : bytes := replicate 512 1.
Definition two_page_pager : Pager (L := ()) := example_pager SyncNormal {[1 := ones; 2 := ones]}.
Definition two_page_fs : fs := {["db" := File two_page_data []]}.

Lemma two_page_ready : flush_ready two_page_pager two_page_fs two_page_data 2 7.
Proof.
  split; cbn [two_page_pager pg_db_path pg_journal_path pg_page_size pg_dirty example_pager].
  - apply lookup_singleton_eq.
  - unfold two_page_fs. by rewrite lookup_singleton_ne.
  - reflexivity.
  - apply (bool_decide_unpack _). vm_compute. exact I.
  - apply bytes_ok_app. split; [|apply bytes_ok_zeros].
    apply put_bytes_ok; [apply new_empty_page1_bytes_ok|apply be_bytes_ok].
  - reflexivity.
  - vm_compute. reflexivity.
  - unfold U32_MAX. lia.
  - apply map_Forall_insert_2; [split; [unfold U32_MAX; lia|reflexivity]|].
    apply map_Forall_singleton. split; [unfold U32_MAX; lia|reflexivity].
  - exists 1. rewrite lookup_insert_eq. split; [eauto|lia].
  - lia.
Qed.

Lemma normal_commit_not_atomic_witness :
  ∃ ops d' D, flush_locked two_page_pager two_page_fs 7 = (ops, Ok (set_dirty two_page_pager ∅)) ∧
    crash (exec_ios two_page_fs ops) d' ∧
    reopened true two_page_pager d' () = Some D ∧
    read_page_at D 512 1 = Ok ones ∧ read_page_at D 512 2 = Ok (zeros 512).
Proof.
  destruct (normal_commit_not_atomic true two_page_pager two_page_fs two_page_data 2 7 ()
    two_page_ready eq_refl noop_lock_free) as (ops & Hf & Hcrash).
  assert (Hw : wops two_page_pager = [FWrite 0 ones; FWrite 512 ones]) by (vm_compute; reflexivity).
  destruct (Hcrash (file_write_at two_page_data ones 0)) as (d' & Hc & Hr).
  { rewrite Hw. apply survives_keep, survives_lose, survives_nil. }
  exists ops, d', (file_write_at two_page_data ones 0).
  split; [exact Hf|]. split; [exact Hc|]. split; [exact Hr|]. split; vm_compute; reflexivity.
Defined.
