(* ===== verification/Shm.v ===== *)
(** * The wal-index ([row/vfs/shm.rs])

    Reader marks, the backfill counter and the write and checkpoint locks of
    the [-shm] file, over POSIX record locks on its bytes.  The file is a
    byte list beside the kernel's lock table; fields are in host byte
    order. *)

From S2P Require Import Prelude Vfs Wal Lock.

Definition MX_FRAME_OFFSET : Z := 16.
Definition READ_MARK_BASE_OFFSET : Z := 100.
Definition READ_MARK_UNUSED : Z := 0xFFFFFFFF.
Definition MIN_SHM_LEN : Z := READ_MARK_BASE_OFFSET + 20.
Definition SHM_REGION_SIZE : Z := 32 * 1024.
Definition MAX_SHM_LEN : Z := SHM_REGION_SIZE * 8.
Definition UNIX_SHM_BASE : Z := 120.
Definition WAL_WRITE_LOCK_BYTE : Z := UNIX_SHM_BASE.
Definition WAL_CKPT_LOCK_BYTE : Z := UNIX_SHM_BASE + 1.
Definition N_BACKFILL_OFFSET : Z := 96.

Definition wal_read_lock_byte (slot : Z) : Z := UNIX_SHM_BASE + 3 + slot.
Definition read_mark_offset (slot : Z) : Z := sat_add READ_MARK_BASE_OFFSET (sat_mul slot 4).

(** [io::Error], by the cases the code distinguishes. *)
Inductive shm_error : Type :=
| ShmContended
| ShmMissing
| ShmInvalid (why : string)
| ShmEof.

Section shm.
Context (le : bool) `{Fcntl K}.

Definition to_ne_bytes (v : Z) : bytes := if le then le_bytes 4 v else be_bytes 4 v.

(** [read_exact_at] and [write_all_at] of a [u32]. *)
Definition read_u32_at (file : bytes) (offset : Z) : result shm_error Z :=
  let buf := file_read_at file 4 offset in
  if decide (zlen buf = 4) then Ok (from_ne_bytes le buf) else Err ShmEof.

Definition write_u32_at (file : bytes) (offset value : Z) : bytes :=
  file_write_at file (to_ne_bytes value) offset.

Definition validate_shm_len (file : bytes) : result shm_error () :=
  if decide (zlen file < MIN_SHM_LEN) then Err (ShmInvalid "too short for a wal-index header")
  else if decide (zlen file > MAX_SHM_LEN) then Err (ShmInvalid "larger than any cooperating writer's")
  else Ok ().

Definition fresh_shm_bytes : bytes :=
  foldl (λ bs slot,
    default bs (put_range bs (read_mark_offset slot) (to_ne_bytes READ_MARK_UNUSED)))
    (zeros SHM_REGION_SIZE) [0; 1; 2; 3; 4].

(** The [-shm] file, if it exists, and the kernel's locks on it. *)
Record shm : Type := { sh_kernel : K; sh_file : option bytes }.

Definition with_kernel (s : shm) (k : K) : shm := {| sh_kernel := k; sh_file := sh_file s |}.
Definition with_file (s : shm) (f : bytes) : shm := {| sh_kernel := sh_kernel s; sh_file := Some f |}.

(** [open_shm_shared]: one descriptor per process, so no close releases
    locks while another user of the file remains. *)
Definition open_shm (s : shm) : result shm_error bytes := ok_or (sh_file s) ShmMissing.

(** [fcntl_lock] on one byte of the file. *)
Definition shm_lock (s : shm) (pid : Z) (kind : option lock_kind) (byte : Z) : option shm :=
  with_kernel s <$> setlk (sh_kernel s) pid kind byte 1.

Definition mx_frame (file : bytes) : result shm_error Z := read_u32_at file MX_FRAME_OFFSET.
Definition read_mark (file : bytes) (slot : Z) : result shm_error Z :=
  read_u32_at file (read_mark_offset slot).

(** [claim_wal_write_lock], [claim_wal_checkpoint_lock]: one exclusive
    byte. *)
Definition claim_byte (s : shm) (pid byte : Z) : result shm_error shm :=
  let? file := open_shm s in
  let? _ := validate_shm_len file in
  ok_or (shm_lock s pid (Some F_WRLCK) byte) ShmContended.

Definition claim_wal_write_lock (s : shm) (pid : Z) : result shm_error shm :=
  claim_byte s pid WAL_WRITE_LOCK_BYTE.
Definition claim_wal_checkpoint_lock (s : shm) (pid : Z) : result shm_error shm :=
  claim_byte s pid WAL_CKPT_LOCK_BYTE.

(** The [Drop] of a guard: best effort. *)
Definition release_byte (s : shm) (pid byte : Z) : shm := default s (shm_lock s pid None byte).

(** [active_reader_marks]: probe each slot with a transient exclusive
    claim. *)
Fixpoint probe_slots (s : shm) (file : bytes) (pid : Z) (slots : list Z)
  : result shm_error (list Z) * shm :=
  match slots with
  | [] => (Ok [], s)
  | slot :: slots =>
      let byte := wal_read_lock_byte slot in
      match shm_lock s pid (Some F_WRLCK) byte with
      | Some s =>
          match shm_lock s pid None byte with
          | Some s => probe_slots s file pid slots
          | None => (Err ShmContended, s)
          end
      | None =>
          match read_mark file slot with
          | Err e => (Err e, s)
          | Ok mark =>
              match probe_slots s file pid slots with
              | (Ok marks, s) => (Ok (mark :: marks), s)
              | r => r
              end
          end
      end
  end.

Definition active_reader_marks (s : shm) (pid : Z) : result shm_error (list Z) * shm :=
  match (let? file := open_shm s in let? _ := validate_shm_len file in Ok file) with
  | Err e => (Err e, s)
  | Ok file => probe_slots s file pid [1; 2; 3; 4]
  end.

Definition read_backfill (s : shm) : result shm_error Z :=
  let? file := open_shm s in read_u32_at file N_BACKFILL_OFFSET.

Definition publish_backfill (s : shm) (n_backfill : Z) : result shm_error shm :=
  let? file := open_shm s in Ok (with_file s (write_u32_at file N_BACKFILL_OFFSET n_backfill)).

Definition publish_mx_frame (s : shm) (mx : Z) : result shm_error shm :=
  let? file := open_shm s in Ok (with_file s (write_u32_at file MX_FRAME_OFFSET mx)).

(** [claim_wal_read_lock]: the first slot whose lock is free, its mark set
    to the current [mxFrame]. *)
Fixpoint claim_slots (s : shm) (file : bytes) (pid : Z) (slots : list Z)
  : result shm_error Z * shm :=
  match slots with
  | [] => (Err ShmContended, s)
  | slot :: slots =>
      let byte := wal_read_lock_byte slot in
      match shm_lock s pid (Some F_WRLCK) byte with
      | None => claim_slots s file pid slots
      | Some s =>
          match mx_frame file with
          | Err e => (Err e, s)
          | Ok mx =>
              let s := with_file s (write_u32_at file (read_mark_offset slot) mx) in
              match shm_lock s pid (Some F_RDLCK) byte with
              | None => (Err ShmContended, s)
              | Some s => (Ok slot, s)
              end
          end
      end
  end.

Definition claim_wal_read_lock (s : shm) (pid : Z) : result shm_error (option Z) * shm :=
  match sh_file s with
  | None => (Ok None, s)
  | Some file =>
      match validate_shm_len file with
      | Err e => (Err e, s)
      | Ok _ =>
          match claim_slots s file pid [1; 2; 3; 4] with
          | (Ok slot, s) => (Ok (Some slot), s)
          | (Err e, s) => (Err e, s)
          end
      end
  end.

(** ** Readers, checkpointers and writers, one per process *)

(** The slot and mark each reading process was given. *)
Record world : Type := { w_shm : shm; w_readers : gmap Z (Z * Z) }.

Inductive world_step : world → world → Prop :=
| ws_claim w pid slot s' file mx :
    w_readers w !! pid = None → sh_file (w_shm w) = Some file → mx_frame file = Ok mx →
    claim_wal_read_lock (w_shm w) pid = (Ok (Some slot), s') →
    world_step w {| w_shm := s'; w_readers := <[pid := (slot, mx)]> (w_readers w) |}
| ws_release w pid slot m :
    w_readers w !! pid = Some (slot, m) →
    world_step w {| w_shm := release_byte (w_shm w) pid (wal_read_lock_byte slot);
                    w_readers := delete pid (w_readers w) |}
| ws_probe w pid :
    w_readers w !! pid = None →
    world_step w {| w_shm := (active_reader_marks (w_shm w) pid).2; w_readers := w_readers w |}
| ws_mx w mx s' :
    publish_mx_frame (w_shm w) mx = Ok s' →
    world_step w {| w_shm := s'; w_readers := w_readers w |}
| ws_backfill w n s' :
    publish_backfill (w_shm w) n = Ok s' →
    world_step w {| w_shm := s'; w_readers := w_readers w |}
| ws_lock w pid byte s' :
    byte = WAL_WRITE_LOCK_BYTE ∨ byte = WAL_CKPT_LOCK_BYTE →
    claim_byte (w_shm w) pid byte = Ok s' →
    world_step w {| w_shm := s'; w_readers := w_readers w |}
| ws_unlock w pid byte :
    byte = WAL_WRITE_LOCK_BYTE ∨ byte = WAL_CKPT_LOCK_BYTE →
    world_step w {| w_shm := release_byte (w_shm w) pid byte; w_readers := w_readers w |}.

(** A fresh wal-index, nobody attached. *)
Inductive world_reachable : world → Prop :=
| wr_init k : (∀ p b, holds k p b = None) →
    world_reachable {| w_shm := {| sh_kernel := k; sh_file := Some fresh_shm_bytes |}; w_readers := ∅ |}
| wr_next w w' : world_reachable w → world_step w w' → world_reachable w'.

(** ** Fields *)

Definition shm_ok (file : bytes) : Prop := MIN_SHM_LEN ≤ zlen file ≤ MAX_SHM_LEN.

Lemma to_ne_bytes_length v : length (to_ne_bytes v) = 4%nat.
Proof. unfold to_ne_bytes. destruct le; [apply le_bytes_length|apply be_bytes_length]. Qed.

Lemma from_to_ne v : u32_ok v → from_ne_bytes le (to_ne_bytes v) = v.
Proof.
  intros Hv. unfold from_ne_bytes, to_ne_bytes. destruct le.
  - rewrite le_val_le_bytes. apply Z.mod_small. mlia.
  - rewrite be_val_be_bytes. apply Z.mod_small. mlia.
Qed.

Lemma write_u32_length file off v :
  0 ≤ off → off + 4 ≤ zlen file → zlen file ≤ MAX_SHM_LEN → zlen (write_u32_at file off v) = zlen file.
Proof.
  intros H0 H1 H2. unfold write_u32_at. unfold MAX_SHM_LEN, SHM_REGION_SIZE in H2.
  rewrite file_write_at_length by (rewrite ?to_ne_bytes_length; mlia).
  rewrite to_ne_bytes_length. lia.
Qed.

Lemma read_u32_range file off :
  0 ≤ off → off + 4 ≤ zlen file →
  ∃ bs, get_range file off (off + 4) = Some bs ∧ read_u32_at file off = Ok (from_ne_bytes le bs).
Proof.
  intros H0 H1. destruct (get_range_is_Some file off (off + 4)) as [bs Hbs]; [lia..|].
  exists bs. split; [done|]. unfold read_u32_at. pose proof (file_read_at_range file 4 off) as Hr.
  rewrite Hbs in Hr. specialize (Hr ltac:(lia) ltac:(lia) ltac:(lia)). injection Hr as ->.
  rewrite decide_True; [done|]. apply get_range_length in Hbs. lia.
Qed.

Lemma read_write_same file off v :
  0 ≤ off → off + 4 ≤ zlen file → zlen file ≤ MAX_SHM_LEN → u32_ok v →
  read_u32_at (write_u32_at file off v) off = Ok v.
Proof.
  intros H0 H1 H2 Hv. destruct (read_u32_range (write_u32_at file off v) off) as (bs & Hg & ->);
    [done|by rewrite write_u32_length|].
  f_equal. rewrite <- (from_to_ne v Hv). f_equal.
  assert (Hput : put_range file off (to_ne_bytes v) = Some (write_u32_at file off v)).
  { unfold write_u32_at. unfold MAX_SHM_LEN, SHM_REGION_SIZE in H2.
    rewrite <- (file_write_at_put file (to_ne_bytes v) off)
      by (rewrite ?to_ne_bytes_length; mlia).
    rewrite Z.max_l by (rewrite to_ne_bytes_length; lia). by rewrite resize_id. }
  apply list_eq. intros i. destruct (decide (i < 4)%nat) as [Hi|Hi].
  - rewrite (get_range_lookup _ _ _ _ _ Hg) by lia. rewrite (put_range_lookup _ _ _ _ _ Hput).
    rewrite to_ne_bytes_length. rewrite decide_True by lia. f_equal. lia.
  - rewrite !lookup_ge_None_2; [done|rewrite to_ne_bytes_length; lia|].
    apply get_range_length in Hg. lia.
Qed.

Lemma read_write_other file off v o :
  0 ≤ off → off + 4 ≤ zlen file → zlen file ≤ MAX_SHM_LEN → 0 ≤ o → o + 4 ≤ zlen file →
  o + 4 ≤ off ∨ off + 4 ≤ o → read_u32_at (write_u32_at file off v) o = read_u32_at file o.
Proof.
  intros H0 H1 H2 H3 H4 Hdis.
  destruct (read_u32_range (write_u32_at file off v) o) as (bs & Hg & ->); [done|by rewrite write_u32_length|].
  destruct (read_u32_range file o) as (bs' & Hg' & ->); [done..|]. do 2 f_equal.
  enough (get_range (write_u32_at file off v) o (o + 4) = get_range file o (o + 4)) by congruence.
  apply get_range_ext; [done|by rewrite write_u32_length|done|]. intros i Hi.
  unfold write_u32_at. unfold MAX_SHM_LEN, SHM_REGION_SIZE in H2.
  rewrite file_write_at_lookup by (rewrite ?to_ne_bytes_length; mlia).
  rewrite decide_False; [done|]. rewrite to_ne_bytes_length. lia.
Qed.

Lemma read_u32_is_Ok file off : 0 ≤ off → off + 4 ≤ zlen file → ∃ v, read_u32_at file off = Ok v.
Proof. intros. destruct (read_u32_range file off) as (bs & _ & ->); eauto. Qed.

Lemma mark_off slot : 1 ≤ slot ≤ 4 → read_mark_offset slot = 100 + 4 * slot.
Proof.
  intros. unfold read_mark_offset, READ_MARK_BASE_OFFSET.
  rewrite sat_mul_small, sat_add_small by mlia. lia.
Qed.

Lemma read_mark_is_Ok file slot : shm_ok file → 1 ≤ slot ≤ 4 → ∃ v, read_mark file slot = Ok v.
Proof.
  intros [Hl _] Hs. unfold read_mark. rewrite mark_off by done.
  unfold MIN_SHM_LEN, READ_MARK_BASE_OFFSET in Hl. apply read_u32_is_Ok; lia.
Qed.

Lemma mx_frame_is_Ok file : shm_ok file → ∃ v, mx_frame file = Ok v.
Proof.
  intros [Hl _]. unfold MIN_SHM_LEN, READ_MARK_BASE_OFFSET in Hl.
  apply read_u32_is_Ok; unfold MX_FRAME_OFFSET; lia.
Qed.

Lemma shm_ok_set_mark file slot v :
  shm_ok file → 1 ≤ slot ≤ 4 → shm_ok (write_u32_at file (read_mark_offset slot) v).
Proof.
  intros [Hl Hm] Hs. pose proof Hl as Hl'. unfold MIN_SHM_LEN, READ_MARK_BASE_OFFSET in Hl'.
  unfold shm_ok. rewrite (mark_off slot Hs), write_u32_length by lia. done.
Qed.

Lemma validate_ok file : shm_ok file → validate_shm_len file = Ok ().
Proof. intros [? ?]. unfold validate_shm_len. rewrite !decide_False by lia. done. Qed.

Lemma read_u32_bound file off v : bytes_ok file → read_u32_at file off = Ok v → u32_ok v.
Proof.
  intros Hok. unfold read_u32_at. case_decide as Hl; [|done]. intros [= <-].
  assert (Hb : bytes_ok (file_read_at file 4 off)).
  { unfold file_read_at. case_decide; [apply Forall_nil_2|]. by apply bytes_ok_take, bytes_ok_drop. }
  unfold from_ne_bytes. destruct le.
  - pose proof (le_val_bound _ Hb) as Hv. rewrite Hl in Hv. mlia.
  - pose proof (be_val_bound _ Hb) as Hv. rewrite Hl in Hv. mlia.
Qed.

Lemma to_ne_bytes_ok v : bytes_ok (to_ne_bytes v).
Proof. unfold to_ne_bytes. destruct le; auto with dbs. Qed.

Lemma write_u32_ok file off v :
  bytes_ok file → 0 ≤ off → off + 4 ≤ zlen file → zlen file ≤ MAX_SHM_LEN →
  bytes_ok (write_u32_at file off v).
Proof.
  intros Hok H0 H1 H2. unfold MAX_SHM_LEN, SHM_REGION_SIZE in H2.
  apply file_write_at_bytes_ok; [done|apply to_ne_bytes_ok|done|rewrite to_ne_bytes_length; mlia].
Qed.

(** ** Locks *)

Lemma wrlck_free k p b : is_Some (setlk k p (Some F_WRLCK) b 1) ↔ getlk k p b = false.
Proof.
  rewrite setlk_ok, <- not_true_iff_false, getlk_spec. split.
  - intros Hok (q & Hq & [l Hl]). specialize (Hok q b Hq ltac:(lia)). by rewrite Hl in Hok.
  - intros Hno q b' Hq Hb. replace b' with b by lia. destruct (holds k q b) eqn:E; [|done].
    exfalso. apply Hno. exists q. by rewrite E.
Qed.

Lemma wrlck_cases k p b :
  (getlk k p b = true ∧ setlk k p (Some F_WRLCK) b 1 = None) ∨
  (getlk k p b = false ∧ ∃ k', setlk k p (Some F_WRLCK) b 1 = Some k').
Proof.
  pose proof (wrlck_free k p b) as Hf. destruct (getlk k p b).
  - left. split; [done|]. destruct (setlk k p (Some F_WRLCK) b 1) as [k'|] eqn:E; [|done].
    assert (true = false) by (apply Hf; eauto). done.
  - right. split; [done|]. by apply Hf.
Qed.

Lemma unlck_ok k p b : ∃ k', setlk k p None b 1 = Some k'.
Proof. apply setlk_ok. done. Qed.

(** Nobody else at a byte, then the owner may take any lock there. *)
Lemma setlk_owner k p kind b : getlk k p b = false → ∃ k', setlk k p kind b 1 = Some k'.
Proof.
  intros Hg. apply setlk_ok. intros q b' Hq Hb. replace b' with b by lia.
  destruct kind as [[]|]; [..|done]; destruct (holds k q b) as [l|] eqn:E; try done;
    (assert (getlk k p b = true) as Hx by (apply getlk_spec; exists q; rewrite E; eauto);
     rewrite Hg in Hx; discriminate).
Qed.

(** [k'] differs from [k] only in [p]'s lock on [b]. *)
Definition relock (k k' : K) (p b : Z) (kind : option lock_kind) : Prop :=
  ∀ q c, holds k' q c = if decide (q = p ∧ c = b) then kind else holds k q c.

Lemma setlk_relock k k' p kind b : setlk k p kind b 1 = Some k' → relock k k' p b kind.
Proof.
  intros Hs q c. rewrite (setlk_holds _ _ _ _ _ _ q c Hs).
  destruct (decide (q = p ∧ c = b)) as [[-> ->]|Hn].
  - by rewrite decide_True by lia.
  - rewrite decide_False; [done|]. intros [-> ?]. apply Hn. split; [done|lia].
Qed.

Lemma relock_trans k k1 k2 p b l1 l2 :
  relock k k1 p b l1 → relock k1 k2 p b l2 → relock k k2 p b l2.
Proof. intros R1 R2 q c. rewrite R2. case_decide; [done|]. rewrite R1. by rewrite decide_False. Qed.

Lemma relock_getlk k k' p b kind c : relock k k' p b kind → getlk k' p c = getlk k p c.
Proof.
  intros R. destruct (getlk k' p c) eqn:E1, (getlk k p c) eqn:E2; try done.
  - apply getlk_spec in E1 as (q & Hq & Hl). rewrite R, decide_False in Hl by tauto.
    assert (getlk k p c = true) by (apply getlk_spec; eauto). congruence.
  - apply getlk_spec in E2 as (q & Hq & Hl).
    assert (getlk k' p c = true); [|congruence]. apply getlk_spec. exists q. split; [done|].
    by rewrite R, decide_False by tauto.
Qed.

(** What probing does: the marks of slots somebody else holds; the
    prober's own locks on the other slots are gone. *)
Definition mark_of (file : bytes) (slot : Z) : Z := match read_mark file slot with Ok v => v | Err _ => 0 end.

Lemma probe_slots_spec s file pid slots :
  shm_ok file → Forall (λ x, 1 ≤ x ≤ 4) slots →
  ∃ k', probe_slots s file pid slots =
    (Ok (map (mark_of file) (filter (λ x, getlk (sh_kernel s) pid (wal_read_lock_byte x) = true) slots)),
     with_kernel s k') ∧
    ∀ q c, holds k' q c =
      if decide (q = pid ∧ c ∈ map wal_read_lock_byte
           (filter (λ x, getlk (sh_kernel s) pid (wal_read_lock_byte x) = false) slots))
      then None else holds (sh_kernel s) q c.
Proof.
  intros Hok Hsl. revert s. induction Hsl as [|x slots Hx _ IH]; intros [k f]; cbn [probe_slots].
  { exists k. split; [done|]. intros q c. rewrite decide_False; [done|]. intros [_ Hc]. set_solver. }
  unfold shm_lock. cbn [sh_kernel].
  destruct (wrlck_cases k pid (wal_read_lock_byte x)) as [[Hg Hs]|[Hg (k1 & Hs)]]; rewrite Hs; cbn [fmap option_fmap option_map].
  - destruct (read_mark_is_Ok file x Hok Hx) as [v Hv]. rewrite Hv.
    destruct (IH {| sh_kernel := k; sh_file := f |}) as (k' & -> & Hk'). cbn [sh_kernel] in *.
    exists k'. rewrite !filter_cons, Hg. rewrite decide_True, decide_False by done.
    cbn [map]. unfold mark_of at 2. rewrite Hv. done.
  - destruct (unlck_ok k1 pid (wal_read_lock_byte x)) as [k2 Hs2]. cbn [with_kernel sh_kernel].
    rewrite Hs2. cbn [fmap option_fmap option_map with_kernel sh_kernel sh_file].
    pose proof (relock_trans _ _ _ _ _ _ _ (setlk_relock _ _ _ _ _ Hs) (setlk_relock _ _ _ _ _ Hs2)) as R.
    destruct (IH {| sh_kernel := k2; sh_file := f |}) as (k' & Hp & Hk'). cbn [sh_kernel with_kernel sh_file] in *.
    change (with_kernel (with_kernel _ k1) k2) with {| sh_kernel := k2; sh_file := f |}.
    rewrite Hp. exists k'. rewrite !filter_cons, Hg. rewrite (decide_False (P := false = true)) by done.
    rewrite (decide_True (P := false = false)) by done. split.
    + do 3 f_equal. apply list_filter_iff. intros y. by rewrite (relock_getlk _ _ _ _ _ _ R).
    + intros q c. rewrite Hk'. cbn [map].
      rewrite (list_filter_iff (λ y, getlk k2 pid (wal_read_lock_byte y) = false)
                 (λ y, getlk k pid (wal_read_lock_byte y) = false))
        by (intros y; by rewrite (relock_getlk _ _ _ _ _ _ R)).
      destruct (decide (q = pid ∧ c ∈ map _ (filter _ slots))) as [[-> Hc]|Hn].
      * rewrite decide_True by set_solver. done.
      * rewrite R. destruct (decide (q = pid ∧ c = wal_read_lock_byte x)) as [[-> ->]|Hn2].
        -- rewrite decide_True by set_solver. done.
        -- rewrite decide_False; [done|]. set_solver.
Qed.

(** Claiming: the first slot nobody else holds, or nothing at all. *)
Lemma claim_slots_spec s file pid slots mx :
  sh_file s = Some file → mx_frame file = Ok mx → Forall (λ x, 1 ≤ x ≤ 4) slots →
  (∃ slot k', slot ∈ slots ∧ getlk (sh_kernel s) pid (wal_read_lock_byte slot) = false ∧
     claim_slots s file pid slots =
       (Ok slot, {| sh_kernel := k'; sh_file := Some (write_u32_at file (read_mark_offset slot) mx) |}) ∧
     relock (sh_kernel s) k' pid (wal_read_lock_byte slot) (Some F_RDLCK)) ∨
  (Forall (λ x, getlk (sh_kernel s) pid (wal_read_lock_byte x) = true) slots ∧
   claim_slots s file pid slots = (Err ShmContended, s)).
Proof.
  intros Hf Hmx Hsl. induction Hsl as [|x slots Hx _ IH]; cbn [claim_slots]; [by right|].
  unfold shm_lock.
  destruct (wrlck_cases (sh_kernel s) pid (wal_read_lock_byte x)) as [[Hg Hs]|[Hg (k1 & Hs)]];
    rewrite Hs; cbn [fmap option_fmap option_map].
  - destruct IH as [(slot & k' & Hin & Hrest)|[Hall Herr]].
    + left. exists slot, k'. split; [by right|done].
    + right. split; [by constructor|done].
  - rewrite Hmx. left. pose proof (setlk_relock _ _ _ _ _ Hs) as R1.
    destruct (setlk_owner k1 pid (Some F_RDLCK) (wal_read_lock_byte x)) as [k2 Hs2].
    { by rewrite (relock_getlk _ _ _ _ _ _ R1). }
    exists x, k2. split; [left|]. split; [done|]. cbn [with_file with_kernel sh_kernel].
    rewrite Hs2. split; [done|]. eapply relock_trans; [done|]. by apply setlk_relock.
Qed.

(** ** The invariant *)

Record world_inv (w : world) (file : bytes) : Prop := {
  wi_file : sh_file (w_shm w) = Some file;
  wi_ok : shm_ok file;
  wi_bytes : bytes_ok file;
  wi_compat : compatible (sh_kernel (w_shm w));
  wi_readers : ∀ pid slot m, w_readers w !! pid = Some (slot, m) →
    1 ≤ slot ≤ 4 ∧ holds (sh_kernel (w_shm w)) pid (wal_read_lock_byte slot) = Some F_RDLCK ∧
    read_mark file slot = Ok m;
}.

Lemma wal_read_lock_byte_inj x y : wal_read_lock_byte x = wal_read_lock_byte y → x = y.
Proof. unfold wal_read_lock_byte. lia. Qed.

Lemma relock_compatible k k' p kind b :
  setlk k p kind b 1 = Some k' → compatible k → compatible k'.
Proof. intros Hs Hc. by destruct (setlk_own _ _ _ _ _ _ Hs Hc). Qed.

Lemma compatible_sub k k' :
  compatible k → (∀ q c l, holds k' q c = Some l → holds k q c = Some l) → compatible k'.
Proof.
  intros Hc Hsub p q b Hne Hw. destruct (holds k' q b) as [l|] eqn:E; [|done].
  apply Hsub in E, Hw. rewrite (Hc p q b Hne Hw) in E. done.
Qed.

(** Writing a [u32] field outside the marks of the readers. *)
Lemma inv_write_field w file off v :
  world_inv w file → 0 ≤ off → off + 4 ≤ 100 →
  world_inv {| w_shm := with_file (w_shm w) (write_u32_at file off v); w_readers := w_readers w |}
    (write_u32_at file off v).
Proof.
  intros [Hf Hok Hb Hc Hr] H0 H1. pose proof Hok as [Hl Hm].
  unfold MIN_SHM_LEN, READ_MARK_BASE_OFFSET in Hl. split; cbn [w_shm w_readers with_file sh_file sh_kernel].
  - done.
  - unfold shm_ok. rewrite write_u32_length by lia. done.
  - apply write_u32_ok; [done|lia..].
  - done.
  - intros pid slot m Hp. destruct (Hr pid slot m Hp) as (Hs & Hh & Hk). split_and!; [lia..|done|].
    unfold read_mark in *. rewrite mark_off in Hk |- * by done. rewrite read_write_other; [done|lia..].
Qed.

Lemma inv_claim w file pid slot mx s' :
  world_inv w file → w_readers w !! pid = None → mx_frame file = Ok mx →
  claim_wal_read_lock (w_shm w) pid = (Ok (Some slot), s') →
  ∃ file', world_inv {| w_shm := s'; w_readers := <[pid := (slot, mx)]> (w_readers w) |} file'.
Proof.
  intros [Hf Hok Hb Hc Hr] Hn Hmx Hcl. pose proof Hok as [Hl Hm].
  unfold MIN_SHM_LEN, READ_MARK_BASE_OFFSET in Hl.
  unfold claim_wal_read_lock in Hcl. rewrite Hf, validate_ok in Hcl by done.
  destruct (claim_slots_spec (w_shm w) file pid [1; 2; 3; 4] mx Hf Hmx)
    as [(x & k' & Hin & Hg & Hcs & R)|[_ Hcs]]; [repeat constructor; lia| |];
    rewrite Hcs in Hcl; [|done]. injection Hcl as <- <-.
  assert (Hx : 1 ≤ x ≤ 4).
  { rewrite !elem_of_cons, elem_of_nil in Hin. lia. }
  assert (Hfree : ∀ q, q ≠ pid → holds (sh_kernel (w_shm w)) q (wal_read_lock_byte x) = None).
  { intros q Hq. destruct (holds _ q _) as [l|] eqn:E; [|done]. exfalso.
    apply not_true_iff_false in Hg. apply Hg, getlk_spec. exists q. rewrite E. eauto. }
  exists (write_u32_at file (read_mark_offset x) mx).
  rewrite (mark_off x Hx). split; cbn [w_shm w_readers sh_file sh_kernel].
  - done.
  - unfold shm_ok. rewrite write_u32_length by lia. done.
  - apply write_u32_ok; [done|lia..].
  - intros p q b Hne Hw. rewrite R in Hw |- *.
    destruct (decide (p = pid ∧ b = wal_read_lock_byte x)) as [[-> ->]|Hp]; [done|].
    destruct (decide (q = pid ∧ b = wal_read_lock_byte x)) as [[-> ->]|Hq]; [|by apply (Hc p)].
    rewrite (Hfree p) in Hw by done. done.
  - intros q y m. rewrite lookup_insert_Some. intros [[<- [= <- <-]]|[Hne Hq]].
    + split_and!; [lia..| |].
      * rewrite R. by rewrite decide_True.
      * unfold read_mark. rewrite mark_off by done. apply read_write_same; [lia..|].
        by eapply read_u32_bound.
    + destruct (Hr q y m Hq) as (Hy & Hh & Hk). split_and!; [lia..| |].
      * rewrite R, decide_False; [done|]. intros [-> _]. done.
      * assert (y ≠ x) by (intros ->; rewrite Hfree in Hh by congruence; done).
        unfold read_mark in *. rewrite mark_off in Hk |- * by done.
        rewrite read_write_other; [done|lia..].
Qed.

Lemma inv_release w file pid byte :
  world_inv w file → (∀ slot m, w_readers w !! pid = Some (slot, m) → byte ≠ wal_read_lock_byte slot) →
  world_inv {| w_shm := release_byte (w_shm w) pid byte; w_readers := w_readers w |} file.
Proof.
  intros [Hf Hok Hb Hc Hr] Hown. unfold release_byte, shm_lock.
  destruct (unlck_ok (sh_kernel (w_shm w)) pid byte) as [k' Hs]. rewrite Hs.
  pose proof (setlk_relock _ _ _ _ _ Hs) as R.
  split; cbn [w_shm w_readers with_kernel sh_kernel sh_file fmap option_fmap option_map default]; try done.
  - by eapply relock_compatible.
  - intros q y m Hq. destruct (Hr q y m Hq) as (? & Hh & ?). split_and!; [lia..| |done].
    rewrite R, decide_False; [done|]. intros [-> Heq]. symmetry in Heq. by apply (Hown y m).
Qed.

Lemma inv_forget w file pid : world_inv w file →
  world_inv {| w_shm := w_shm w; w_readers := delete pid (w_readers w) |} file.
Proof.
  intros [Hf Hok Hb Hc Hr]. split; try done. intros q y m Hq. cbn [w_readers] in Hq.
  apply lookup_delete_Some in Hq as [_ Hq]. by apply Hr.
Qed.

Lemma inv_probe w file pid :
  world_inv w file → w_readers w !! pid = None →
  world_inv {| w_shm := (active_reader_marks (w_shm w) pid).2; w_readers := w_readers w |} file.
Proof.
  intros [Hf Hok Hb Hc Hr] Hn. unfold active_reader_marks, open_shm. rewrite Hf. cbn [ok_or].
  rewrite validate_ok by done.
  destruct (probe_slots_spec (w_shm w) file pid [1; 2; 3; 4] Hok) as (k' & -> & Hk');
    [repeat constructor; lia|].
  split; cbn [w_shm w_readers with_kernel sh_kernel sh_file snd]; try done.
  - apply (compatible_sub _ _ Hc). intros q c l. rewrite Hk'. by case_decide.
  - intros q y m Hq. destruct (Hr q y m Hq) as (? & Hh & ?). split_and!; [lia..| |done].
    rewrite Hk', decide_False; [done|]. intros [-> _]. congruence.
Qed.

Lemma inv_lock w file pid byte s' :
  world_inv w file → byte = WAL_WRITE_LOCK_BYTE ∨ byte = WAL_CKPT_LOCK_BYTE →
  claim_byte (w_shm w) pid byte = Ok s' →
  world_inv {| w_shm := s'; w_readers := w_readers w |} file.
Proof.
  intros [Hf Hok Hb Hc Hr] Hby. unfold claim_byte, open_shm. rewrite Hf. cbn [ok_or].
  rewrite validate_ok by done. unfold shm_lock.
  destruct (setlk _ pid _ byte 1) as [k'|] eqn:Hs; [|done]. cbn. intros [= <-].
  pose proof (setlk_relock _ _ _ _ _ Hs) as R.
  split; cbn [w_shm w_readers with_kernel sh_kernel sh_file]; try done.
  - by eapply relock_compatible.
  - intros q y m Hq. destruct (Hr q y m Hq) as (? & Hh & ?). split_and!; [lia..| |done].
    rewrite R, decide_False; [done|]. intros [_ Heq].
    unfold wal_read_lock_byte, WAL_WRITE_LOCK_BYTE, WAL_CKPT_LOCK_BYTE in *. lia.
Qed.

Lemma fresh_shm_ok : shm_ok fresh_shm_bytes ∧ bytes_ok fresh_shm_bytes.
Proof.
  unfold fresh_shm_bytes. assert (Hstep : ∀ slots bs, shm_ok bs ∧ bytes_ok bs →
    let r := foldl (λ bs slot, default bs (put_range bs (read_mark_offset slot)
               (to_ne_bytes READ_MARK_UNUSED))) bs slots in shm_ok r ∧ bytes_ok r).
  { induction slots as [|x slots IH]; intros bs [Hl Hb]; cbn [foldl]; [done|]. apply IH.
    destruct (put_range bs _ _) as [bs'|] eqn:E; [|done].
    change (default bs (Some bs')) with bs'. split.
    - unfold shm_ok. by rewrite (put_range_length _ _ _ _ E).
    - eapply bytes_ok_put_range; [done|apply to_ne_bytes_ok|done]. }
  apply Hstep. split; [|apply bytes_ok_zeros].
  unfold shm_ok, MIN_SHM_LEN, MAX_SHM_LEN, READ_MARK_BASE_OFFSET, SHM_REGION_SIZE.
  rewrite length_zeros; lia.
Qed.

Lemma world_step_inv w w' file : world_step w w' → world_inv w file → ∃ file', world_inv w' file'.
Proof.
  intros Hs I. pose proof (wi_file _ _ I) as Hf. destruct Hs as
    [w pid slot s' f mx Hn Hf' Hmx Hcl|w pid slot m Hr|w pid Hn|w mx s' Hp|w n s' Hp
    |w pid byte s' Hby Hcl|w pid byte Hby].
  - rewrite Hf in Hf'. injection Hf' as <-. by eapply inv_claim.
  - exists file. pose proof (inv_release {| w_shm := w_shm w; w_readers := delete pid (w_readers w) |}
      file pid (wal_read_lock_byte slot) (inv_forget w file pid I)) as Hrel. apply Hrel.
    intros y m' Hy. cbn [w_readers] in Hy. by rewrite lookup_delete_eq in Hy.
  - exists file. by apply inv_probe.
  - unfold publish_mx_frame, open_shm in Hp. rewrite Hf in Hp. injection Hp as <-.
    eexists. apply inv_write_field; [done|unfold MX_FRAME_OFFSET; lia..].
  - unfold publish_backfill, open_shm in Hp. rewrite Hf in Hp. injection Hp as <-.
    eexists. apply inv_write_field; [done|unfold N_BACKFILL_OFFSET; lia..].
  - exists file. by eapply inv_lock.
  - exists file. apply inv_release; [done|]. intros y m Hy Heq.
    destruct (wi_readers _ _ I _ _ _ Hy) as [? _].
    unfold wal_read_lock_byte, WAL_WRITE_LOCK_BYTE, WAL_CKPT_LOCK_BYTE in *. lia.
Qed.

Lemma world_reachable_inv w : world_reachable w → ∃ file, world_inv w file.
Proof.
  induction 1 as [k Hk|w w' _ [file I] Hs]; [|by eapply world_step_inv].
  exists fresh_shm_bytes. destruct fresh_shm_ok. split; try done.
  intros p q b _ Hw. cbn in Hw. by rewrite Hk in Hw.
Qed.
End shm.

(** ** Properties *)

(** C26: A live reader's mark is always seen.  In every interleaving of
    processes that claim and release reader slots, publish frames and
    backfill counts, take the write and checkpoint locks and probe for
    readers (at most one reader per process), the mark a reader was given
    stays published in its slot, another process that probes succeeds and
    finds it, and at most one process holds the write lock. *)
Theorem reader_marks_protected {K : Type} {F : Fcntl K} (le : bool) (w : @world K)
    (Hw : world_reachable le w) :
  (∀ q slot m p, w_readers w !! q = Some (slot, m) → p ≠ q →
     ∃ marks s', active_reader_marks le (w_shm w) p = (Ok marks, s') ∧ m ∈ marks) ∧
  (∀ p q, p ≠ q → holds (sh_kernel (w_shm w)) p WAL_WRITE_LOCK_BYTE = Some F_WRLCK →
     holds (sh_kernel (w_shm w)) q WAL_WRITE_LOCK_BYTE = None).
Proof.
  destruct (world_reachable_inv le w Hw) as (file & [Hf Hok Hb Hc Hr]).
  split; [|intros p q; by apply Hc]. intros q slot m p Hq Hne.
  destruct (Hr q slot m Hq) as (Hs & Hh & Hm).
  unfold active_reader_marks, open_shm. rewrite Hf. cbn [ok_or]. rewrite validate_ok by done.
  destruct (probe_slots_spec le (w_shm w) file p [1; 2; 3; 4] Hok) as (k' & -> & _);
    [repeat constructor; lia|].
  do 2 eexists. split; [done|]. apply list_elem_of_fmap. exists slot.
  unfold mark_of. rewrite Hm. split; [done|]. apply list_elem_of_filter. split.
  - apply getlk_spec. exists q. rewrite Hh. eauto.
  - assert (slot = 1 ∨ slot = 2 ∨ slot = 3 ∨ slot = 4) as Hcase by lia. set_solver.
Qed.

Definition fresh_shm : @shm lock_table := {| sh_kernel := ∅; sh_file := Some (fresh_shm_bytes true) |}.

Lemma fresh_claim pid :
  ∃ slot mx k', 1 ≤ slot ≤ 4 ∧ mx_frame true (fresh_shm_bytes true) = Ok mx ∧
    claim_wal_read_lock true fresh_shm pid = (Ok (Some slot),
      {| sh_kernel := k'; sh_file := Some (write_u32_at true (fresh_shm_bytes true) (read_mark_offset slot) mx) |}) ∧
    relock (∅ : lock_table) k' pid (wal_read_lock_byte slot) (Some F_RDLCK).
Proof.
  destruct (fresh_shm_ok true) as [Hok Hb]. destruct (mx_frame_is_Ok true _ Hok) as [mx Hmx].
  destruct (claim_slots_spec true fresh_shm (fresh_shm_bytes true) pid [1; 2; 3; 4] mx eq_refl Hmx)
    as [(x & k' & Hin & _ & Hc & R)|[Hall _]]; [repeat constructor; lia| |].
  - exists x, mx, k'. split; [rewrite !elem_of_cons, elem_of_nil in Hin; lia|]. split; [exact Hmx|].
    split; [|exact R]. unfold claim_wal_read_lock. cbn [fresh_shm sh_file].
    rewrite validate_ok by exact Hok. by rewrite Hc.
  - exfalso. apply Forall_cons in Hall as [Hg _].
    apply (getlk_spec (K := lock_table)) in Hg as (q & _ & Hh). cbn in Hh.
    rewrite lookup_empty in Hh. by destruct Hh.
Qed.

Lemma reader_marks_protected_witness :
  ∃ (w : @world lock_table) m marks s', world_reachable true w ∧
    active_reader_marks true (w_shm w) 2 = (Ok marks, s') ∧ m ∈ marks.
Proof.
  destruct (fresh_claim 1) as (slot & mx & k' & _ & Hmx & Hc & _).
  set (w := {| w_shm := {| sh_kernel := k'; sh_file := Some (write_u32_at true (fresh_shm_bytes true)
                 (read_mark_offset slot) mx) |}; w_readers := {[1 := (slot, mx)]} |} : @world lock_table).
  assert (Hr : world_reachable true w).
  { apply (wr_next true {| w_shm := fresh_shm; w_readers := ∅ |}).
    - apply (wr_init true (∅ : lock_table)). intros p b. apply lookup_empty.
    - apply (ws_claim true {| w_shm := fresh_shm; w_readers := ∅ |} 1 slot _ (fresh_shm_bytes true) mx);
        [apply lookup_empty|reflexivity|exact Hmx|exact Hc]. }
  destruct (reader_marks_protected true w Hr) as [Hp _].
  destruct (Hp 1 slot mx 2 (lookup_singleton_eq _ _) ltac:(lia)) as (marks & s' & Ha & Hm).
  exists w, mx, marks, s'. split; [exact Hr|]. split; [exact Ha|exact Hm].
Defined.

(** Claiming a reader slot.  With a valid wal-index the claim takes the
    first slot no other process holds, publishes the current frame count
    there, and ends with a shared lock on that slot only; every other lock
    and every other mark is unchanged.  It fails only when other processes
    hold all four slots, and then changes nothing. *)
Theorem claim_read_lock_correct {K : Type} {F : Fcntl K} (le : bool) (s : @shm K) (file : bytes) (pid mx : Z)
    (Hf : sh_file s = Some file) (Hok : shm_ok file) (Hb : bytes_ok file) (Hmx : mx_frame le file = Ok mx) :
  (∃ slot k' file', claim_wal_read_lock le s pid =
       (Ok (Some slot), {| sh_kernel := k'; sh_file := Some file' |}) ∧ 1 ≤ slot ≤ 4 ∧
     relock (sh_kernel s) k' pid (wal_read_lock_byte slot) (Some F_RDLCK) ∧
     (∀ q, q ≠ pid → holds (sh_kernel s) q (wal_read_lock_byte slot) = None) ∧
     read_mark le file' slot = Ok mx ∧ shm_ok file' ∧
     ∀ x, 1 ≤ x ≤ 4 → x ≠ slot → read_mark le file' x = read_mark le file x) ∨
  ((∀ x, 1 ≤ x ≤ 4 → ∃ q, q ≠ pid ∧ is_Some (holds (sh_kernel s) q (wal_read_lock_byte x))) ∧
   claim_wal_read_lock le s pid = (Err ShmContended, s)).
Proof.
  pose proof Hok as [Hl Hm]. unfold MIN_SHM_LEN, READ_MARK_BASE_OFFSET in Hl.
  unfold claim_wal_read_lock. rewrite Hf, validate_ok by done.
  destruct (claim_slots_spec le s file pid [1; 2; 3; 4] mx Hf Hmx)
    as [(x & k' & Hin & Hg & -> & R)|[Hall ->]]; [repeat constructor; lia| |].
  - left. assert (Hx : 1 ≤ x ≤ 4) by (rewrite !elem_of_cons, elem_of_nil in Hin; lia).
    do 3 eexists. split; [reflexivity|]. rewrite (mark_off x Hx). split_and!; [lia..|done| | | |].
    + intros q Hq. destruct (holds _ q _) as [l|] eqn:E; [|done]. exfalso.
      apply not_true_iff_false in Hg. apply Hg, getlk_spec. exists q. rewrite E. eauto.
    + unfold read_mark. rewrite mark_off by done. apply read_write_same; [lia..|].
      by eapply read_u32_bound.
    + unfold shm_ok. rewrite write_u32_length by lia. done.
    + intros y Hy Hne. unfold read_mark. rewrite mark_off by done. apply read_write_other; lia.
  - right. split; [|done]. intros x Hx. rewrite Forall_forall in Hall.
    assert (x ∈ [1; 2; 3; 4]) as Hin
      by (assert (x = 1 ∨ x = 2 ∨ x = 3 ∨ x = 4) as Hcase by lia; set_solver).
    specialize (Hall x Hin). by apply getlk_spec in Hall.
Qed.

(** Locks belong to processes, not to guards.  When a process that
    holds a reader slot itself probes for readers, its probe of that slot
    succeeds, so the slot's mark is not reported and the final unlock
    releases the reader's lock: afterwards the process holds no reader slot
    at all, and others' probes no longer see its mark. *)
Theorem probe_drops_own_reader {K : Type} {F : Fcntl K} (le : bool) (s : @shm K) (file : bytes)
    (pid slot : Z) (Hf : sh_file s = Some file) (Hok : shm_ok file) (Hs : 1 ≤ slot ≤ 4)
    (Hown : holds (sh_kernel s) pid (wal_read_lock_byte slot) = Some F_RDLCK)
    (Halone : ∀ q x, q ≠ pid → holds (sh_kernel s) q (wal_read_lock_byte x) = None) :
  ∃ s', active_reader_marks le s pid = (Ok [], s') ∧
    holds (sh_kernel s') pid (wal_read_lock_byte slot) = None ∧
    ∀ p, ∃ s'', active_reader_marks le s' p = (Ok [], s'').
Proof.
  assert (Hno : ∀ x, getlk (sh_kernel s) pid (wal_read_lock_byte x) = false).
  { intros x. apply not_true_iff_false. rewrite getlk_spec. intros (q & Hq & Hh).
    rewrite Halone in Hh by done. by destruct Hh. }
  assert (Hslots : Forall (λ x, 1 ≤ x ≤ 4) [1; 2; 3; 4]) by (repeat constructor; lia).
  assert (Hin : ∀ x, 1 ≤ x ≤ 4 → x ∈ [1; 2; 3; 4])
    by (intros x Hx; assert (x = 1 ∨ x = 2 ∨ x = 3 ∨ x = 4) as Hcase by lia; set_solver).
  unfold active_reader_marks, open_shm. rewrite Hf. cbn [ok_or]. rewrite validate_ok by done.
  destruct (probe_slots_spec le s file pid [1; 2; 3; 4] Hok Hslots) as (k' & -> & Hk').
  rewrite filter_none by (intros x _; by rewrite Hno).
  assert (Hgone : ∀ x, 1 ≤ x ≤ 4 → ∀ q, holds k' q (wal_read_lock_byte x) = None).
  { intros x Hx q. rewrite Hk'. destruct (decide (q = pid)) as [->|Hq].
    - rewrite decide_True; [done|]. split; [done|]. apply list_elem_of_fmap. exists x.
      split; [done|]. apply list_elem_of_filter. split; [apply Hno|by apply Hin].
    - rewrite decide_False by tauto. by apply Halone. }
  exists (with_kernel s k'). split; [done|]. split; [by apply Hgone|]. intros p.
  cbn [with_kernel sh_file]. rewrite Hf. cbn [ok_or]. rewrite validate_ok by done.
  destruct (probe_slots_spec le (with_kernel s k') file p [1; 2; 3; 4] Hok Hslots) as (k2 & -> & _).
  eexists. rewrite filter_none; [done|]. intros x Hx. cbn [with_kernel sh_kernel].
  rewrite getlk_spec. intros (q & _ & Hq). rewrite Hgone in Hq; [by destruct Hq|].
  rewrite Forall_forall in Hslots. by apply Hslots.
Qed.

