(* ===== verification/Checkpoint.v ===== *)
(** * Checkpoints

    [row/pager/checkpoint.rs].  The wal-index is an interface, implemented by the
    in-memory backend (nothing to coordinate) and by [Shm.v]. *)

From S2P Require Import Prelude Vfs Header Journal Wal PageCache Lock Pager Commit WalCommit Shm.

(** ** The wal-index, as [Vfs] offers it *)

Class WalIndex (S : Type) := {
  wx_claim_checkpoint : S → string → result VfsError S;
  wx_release_checkpoint : S → S;
  wx_reader_marks : S → string → result VfsError (list Z) * S;
  wx_read_backfill : S → string → result VfsError Z;
  wx_publish_backfill : S → string → Z → result VfsError S;
}.

(** The default methods of [Vfs], used by [MemoryVfs]. *)
#[export] Instance MemoryWalIndex : WalIndex () := {
  wx_claim_checkpoint s _ := Ok s;
  wx_release_checkpoint s := s;
  wx_reader_marks s _ := (Ok [], s);
  wx_read_backfill _ _ := Ok 0;
  wx_publish_backfill s _ _ := Ok s;
}.

(** [UnixVfs]: the [-shm] file as the process [ux_pid] uses it; a missing
    file means there is nobody to coordinate with. *)
Record unix_index (K : Type) : Type := UnixIndex { ux_shm : @shm K; ux_pid : Z; ux_le : bool }.
Arguments UnixIndex {_} _ _ _.
Arguments ux_shm {_} _.
Arguments ux_pid {_} _.
Arguments ux_le {_} _.

Definition to_vfs_error (path : string) (e : shm_error) : VfsError :=
  match e with ShmMissing => NotFound path | _ => Io path end.
Definition to_lock_error (path : string) (e : shm_error) : VfsError :=
  match e with ShmContended => Locked path | _ => to_vfs_error path e end.

Definition with_shm {K} (x : unix_index K) (s : @shm K) : unix_index K :=
  UnixIndex s (ux_pid x) (ux_le x).

#[export] Instance UnixWalIndex `{Fcntl K} : WalIndex (unix_index K) := {
  wx_claim_checkpoint x path :=
    if decide (sh_file (ux_shm x) = None) then Ok x
    else let? s := map_err (to_lock_error (companion_path path "-shm"))
                     (claim_wal_checkpoint_lock (ux_shm x) (ux_pid x)) in
         Ok (with_shm x s);
  wx_release_checkpoint x := with_shm x (release_byte (ux_shm x) (ux_pid x) WAL_CKPT_LOCK_BYTE);
  wx_reader_marks x path :=
    if decide (sh_file (ux_shm x) = None) then (Ok [], x)
    else let '(r, s) := active_reader_marks (ux_le x) (ux_shm x) (ux_pid x) in
         (map_err (to_vfs_error (companion_path path "-shm")) r, with_shm x s);
  wx_read_backfill x path :=
    if decide (sh_file (ux_shm x) = None) then Ok 0
    else map_err (to_vfs_error (companion_path path "-shm")) (read_backfill (ux_le x) (ux_shm x));
  wx_publish_backfill x path n :=
    if decide (sh_file (ux_shm x) = None) then Ok x
    else let? s := map_err (to_vfs_error (companion_path path "-shm"))
                     (publish_backfill (ux_le x) (ux_shm x) n) in
         Ok (with_shm x s);
}.

(** ** [checkpoint_passive] *)

Record CheckpointResult : Type := {
  backfilled_frames : Z;
  total_frames : Z;
  checkpoint_complete : bool;
}.

Definition nothing_to_do : CheckpointResult :=
  {| backfilled_frames := 0; total_frames := 0; checkpoint_complete := true |}.

Definition page_count_from_size (size page_size : Z) : Z :=
  let n := sat_add size (sat_sub page_size 1) / Z.max page_size 1 in
  if decide (n ≤ U32_MAX) then n else 0.

(** [marks.filter(> 0).min().unwrap_or(total).min(total)]. *)
Definition safe_frame (marks : list Z) (total : Z) : Z :=
  match filter (λ m, 0 < m) marks with
  | [] => total
  | m :: ms => Z.min (foldr Z.min m ms) total
  end.

Definition sorted_pages (pages : gmap Z bytes) : list (Z * bytes) :=
  map (λ n, (n, default [] (pages !! n))) (merge_sort Z.le (fst <$> map_to_list pages)).

Section checkpoint.
Context (le : bool) `{WalIndex X}.

(** The pages a pass copies, and where. *)
Definition backfill_writes (pages : gmap Z bytes) (max_page page_size : Z) : list file_op :=
  map (λ nb : Z * bytes, FWrite (sat_mul (sat_sub nb.1 1) page_size) nb.2)
      (filter (λ nb : Z * bytes, ¬ (nb.1 = 0 ∨ nb.1 > max_page)) (sorted_pages pages)).

(** With the checkpoint lock held. *)
Definition checkpoint_locked (d : fs) (x : X) (db_path : string) (expected_page_size : Z)
    (wal_bytes : bytes) : list io * result PagerError CheckpointResult * X :=
  let wal_path := companion_path db_path "-wal" in
  if decide (zlen wal_bytes < WAL_HEADER_LEN) then ([], Ok nothing_to_do, x)
  else
    match map_err (PWal wal_path) (WalHeader_parse le wal_bytes) with
    | Err e => ([], Err e, x)
    | Ok header =>
        if decide (wh_page_size header ≠ expected_page_size)
        then ([], Err (PWal wal_path (WalInvalidPageSize (wh_page_size header))), x)
        else
          let frame_size := sat_add FRAME_HEADER_LEN (wh_page_size header) in
          let total := wrap32 (sat_sub (zlen wal_bytes) WAL_HEADER_LEN / Z.max frame_size 1) in
          if decide (total = 0) then ([], Ok nothing_to_do, x)
          else
            let '(marks, x) := wx_reader_marks x db_path in
            match p_vfs marks with
            | Err e => ([], Err e, x)
            | Ok marks =>
                let safe := safe_frame marks total in
                if decide (safe = 0)
                then ([], Ok {| backfilled_frames := 0; total_frames := total;
                                checkpoint_complete := false |}, x)
                else
                  match p_vfs (wx_read_backfill x db_path) with
                  | Err e => ([], Err e, x)
                  | Ok already =>
                      if decide (safe ≤ already)
                      then ([], Ok {| backfilled_frames := already; total_frames := total;
                                      checkpoint_complete := bool_decide (already = total) |}, x)
                      else
                        let boundary_len := sat_add WAL_HEADER_LEN (sat_mul safe frame_size) in
                        let boundary := default wal_bytes (get_range wal_bytes 0 boundary_len) in
                        let '(pages, db_size) := committed_pages le header boundary in
                        match p_vfs (ok_or (read_file d db_path) (NotFound db_path)) with
                        | Err e => ([], Err e, x)
                        | Ok data =>
                            let current := page_count_from_size (zlen data) (wh_page_size header) in
                            let ops := map (as_io db_path)
                                         (backfill_writes pages (Z.max db_size current) (wh_page_size header))
                                       ++ [SyncF db_path] in
                            match p_vfs (wx_publish_backfill x db_path safe) with
                            | Err e => (ops, Err e, x)
                            | Ok x =>
                                (ops, Ok {| backfilled_frames := safe; total_frames := total;
                                            checkpoint_complete := bool_decide (safe = total) |}, x)
                            end
                        end
                  end
            end
    end.

Definition checkpoint_passive (d : fs) (x : X) (db_path : string) (expected_page_size : Z)
  : list io * result PagerError CheckpointResult * X :=
  match read_file d (companion_path db_path "-wal") with
  | None => ([], Ok nothing_to_do, x)
  | Some wal_bytes =>
      match p_vfs (wx_claim_checkpoint x db_path) with
      | Err e => ([], Err e, x)
      | Ok x =>
          let '(ops, r, x) := checkpoint_locked d x db_path expected_page_size wal_bytes in
          (ops, r, wx_release_checkpoint x)
      end
  end.
End checkpoint.

(** ** Lemmas *)

Lemma safe_frame_spec marks total :
  0 < total → 0 < safe_frame marks total ≤ total ∧
  ∀ m, m ∈ marks → 0 < m → safe_frame marks total ≤ m.
Proof.
  intros Ht. unfold safe_frame.
  assert (Hf : ∀ m, m ∈ filter (λ m, 0 < m) marks ↔ 0 < m ∧ m ∈ marks)
    by (intros m; apply list_elem_of_filter).
  destruct (filter (λ m, 0 < m) marks) as [|m0 ms].
  { split; [lia|]. intros m Hm Hp. destruct (not_elem_of_nil m). apply Hf. by split. }
  assert (Hmin : ∀ l a, (∀ m, m ∈ a :: l → 0 < m) → 0 < foldr Z.min a l ∧ ∀ m, m ∈ a :: l → foldr Z.min a l ≤ m).
  { induction l as [|b l IH]; intros a Hpos; cbn [foldr].
    - split; [apply Hpos; left|]. intros m Hm. apply list_elem_of_singleton in Hm as ->. lia.
    - destruct (IH a) as [Hp Hle].
      { intros m Hm. apply Hpos. clear -Hm. set_solver. }
      assert (0 < b) by (apply Hpos; set_solver). split; [lia|].
      intros m Hm. rewrite !elem_of_cons in Hm. destruct Hm as [->|[->|Hm]]; [|lia|].
      + specialize (Hle a ltac:(left)). lia.
      + specialize (Hle m ltac:(by right)). lia. }
  destruct (Hmin ms m0) as [Hp Hle]; [intros m Hm; by apply Hf|]. split; [lia|].
  intros m Hm Hpm. specialize (Hle m ltac:(by apply Hf)). lia.
Qed.

Lemma sorted_pages_fst (m : gmap Z bytes) :
  map fst (sorted_pages m) = merge_sort Z.le (fst <$> map_to_list m).
Proof. unfold sorted_pages. rewrite map_map. apply map_id. Qed.

Lemma sorted_pages_NoDup (m : gmap Z bytes) : NoDup (map fst (sorted_pages m)).
Proof. rewrite sorted_pages_fst, merge_sort_Permutation. apply NoDup_fst_map_to_list. Qed.

Lemma elem_of_sorted_pages (m : gmap Z bytes) n b : (n, b) ∈ sorted_pages m ↔ m !! n = Some b.
Proof.
  unfold sorted_pages. rewrite list_elem_of_fmap. split.
  - intros (k & [= -> ->] & Hk). rewrite merge_sort_Permutation, list_elem_of_fmap in Hk.
    destruct Hk as ([k' b'] & -> & Hk%elem_of_map_to_list). cbn. by rewrite Hk.
  - intros Hn. exists n. rewrite Hn. split; [done|].
    rewrite merge_sort_Permutation, list_elem_of_fmap. exists (n, b). by rewrite elem_of_map_to_list.
Qed.

Lemma elem_of_sorted_fst (m : gmap Z bytes) n : n ∈ map fst (sorted_pages m) ↔ is_Some (m !! n).
Proof.
  rewrite list_elem_of_fmap. split.
  - intros ([k b] & -> & Hk%elem_of_sorted_pages). eauto.
  - intros [b Hb]. exists (n, b). by rewrite elem_of_sorted_pages.
Qed.

(** The database size the last commit of a log recorded. *)
Definition log_size (es : list entry) : Z := default 0 (snd <$> last es).

Lemma publish_log_size le h es :
  committed_log es → publish ∅ ∅ 0 (log_frames le h es) = (apply_entries ∅ es, log_size es).
Proof.
  intros Hc. pose proof (publish_log le h es Hc) as H1. destruct Hc as [->|(pre & e & -> & He)]; [done|].
  rewrite (surjective_pairing (publish _ _ _ _)), H1. f_equal. unfold log_size. rewrite last_snoc.
  unfold log_frames. rewrite entries_frames_app. destruct e as [[p d] c]. cbn [entries_frames].
  destruct (frame_bytes _ _ _ _ _ _) as [b after]. by rewrite publish_committed by done.
Qed.

(** A log's bytes up to a frame are the log of its first frames. *)
Lemma wal_image_prefix le h es k :
  WalHeader_ok le h → Forall (entry_ok (wh_page_size h)) es → 0 ≤ k ≤ zlen es →
  get_range (wal_image le h es) 0 (32 + k * (24 + wh_page_size h))
  = Some (wal_image le h (take (Z.to_nat k) es)).
Proof.
  intros Hh Hes Hk. pose proof (valid_page_size_bounds _ (who_page_size _ _ Hh)) as Hb.
  rewrite <- (take_drop (Z.to_nat k) es) at 1. rewrite wal_image_app.
  pose proof (wal_image_length le h (take (Z.to_nat k) es) ltac:(by apply Forall_take)) as Hl.
  rewrite length_take in Hl.
  replace (Z.of_nat (Z.to_nat k `min` length es)) with k in Hl by lia.
  rewrite <- Hl. rewrite get_range_app_l by lia. apply get_range_full.
Qed.

Lemma backfill_writes_eq pages max_page ps :
  512 ≤ ps ≤ 65536 → (∀ n b, pages !! n = Some b → 1 ≤ n ≤ max_page ∧ n ≤ U32_MAX) →
  backfill_writes pages max_page ps = map (replay_op ps) (sorted_pages pages).
Proof.
  intros Hps Hp. unfold backfill_writes.
  assert (Hall : ∀ nb, nb ∈ sorted_pages pages → 1 ≤ nb.1 ≤ max_page ∧ nb.1 ≤ U32_MAX).
  { intros [n b] Hn. apply elem_of_sorted_pages in Hn. by apply (Hp n b). }
  rewrite list_filter_all by (intros nb Hnb; specialize (Hall nb Hnb); lia).
  apply list_fmap_ext. intros i nb Hnb%list_elem_of_lookup_2. specialize (Hall nb Hnb).
  unfold replay_op. destruct (page_offset_eq ps nb.1) as (Ho & _ & _); [split; lia|].
  unfold page_offset in Ho. by rewrite Ho.
Qed.

(** ** A checkpoint pass on a well-formed log *)

Section pass.
Context (le : bool) `{WalIndex X}.

Record ckpt_ready (d : fs) (db : string) (ps : Z) (h : WalHeader) (es : list entry) (data : bytes)
    (x x1 x2 : X) (marks : list Z) (already : Z) : Prop := {
  cr_header : WalHeader_ok le h;
  cr_ps : wh_page_size h = ps;
  cr_wal : d !! companion_path db "-wal" = Some (File (wal_image le h es) []);
  cr_db : d !! db = Some (File data []);
  cr_entries : Forall (entry_ok ps) es;
  cr_some : 0 < zlen es < 4294967296;
  cr_fit : 32 + zlen es * (24 + ps) ≤ ISIZE_MAX;
  cr_marks : ∃ x0, wx_claim_checkpoint x db = Ok x0 ∧ wx_reader_marks x0 db = (Ok marks, x1);
  cr_backfill : wx_read_backfill x1 db = Ok already;
  cr_progress : already < safe_frame marks (zlen es);
  cr_publish : wx_publish_backfill x1 db (safe_frame marks (zlen es)) = Ok x2;
  cr_committed : committed_log (take (Z.to_nat (safe_frame marks (zlen es))) es);
  cr_pages : Forall (λ e : entry, 1 ≤ e.1.1 ≤ Z.max
      (log_size (take (Z.to_nat (safe_frame marks (zlen es))) es)) (page_count_from_size (zlen data) ps))
      (take (Z.to_nat (safe_frame marks (zlen es))) es);
}.

Section ready.
Context (d : fs) (db : string) (ps : Z) (h : WalHeader) (es : list entry) (data : bytes)
  (x x1 x2 : X) (marks : list Z) (already : Z)
  (R : ckpt_ready d db ps h es data x x1 x2 marks already).

Definition safe : Z := safe_frame marks (zlen es).
Definition safe_log : list entry := take (Z.to_nat safe) es.
Definition safe_pages : gmap Z bytes := apply_entries ∅ safe_log.
Definition ckpt_writes : list (Z * bytes) := sorted_pages safe_pages.

Lemma ckpt_ps : 512 ≤ ps ≤ 65536.
Proof.
  pose proof (valid_page_size_bounds _ (who_page_size _ _ (cr_header _ _ _ _ _ _ _ _ _ _ _ R))) as Hb.
  by rewrite (cr_ps _ _ _ _ _ _ _ _ _ _ _ R) in Hb.
Qed.

Lemma safe_bounds : 0 < safe ≤ zlen es.
Proof. apply safe_frame_spec, (cr_some _ _ _ _ _ _ _ _ _ _ _ R). Qed.

(** Every page of an overlay comes from an entry of its log. *)
Lemma apply_entries_in (l : list entry) (m : gmap Z bytes) n b :
  apply_entries m l !! n = Some b → m !! n = Some b ∨ ∃ e, e ∈ l ∧ e.1.1 = n ∧ e.1.2 = b.
Proof.
  unfold apply_entries. revert m. induction l as [|e l IH]; intros m Hn; cbn [foldl] in Hn; [by left|].
  apply IH in Hn as [Hn|(e' & He' & ?)].
  - apply lookup_insert_Some in Hn as [[<- <-]|[_ Hn]]; [|by left]. right. exists e.
    split; [left|done].
  - right. exists e'. split; [by right|done].
Qed.

Lemma safe_pages_ok n b : safe_pages !! n = Some b →
  zlen b = ps ∧ 1 ≤ n ≤ Z.max (log_size safe_log) (page_count_from_size (zlen data) ps) ∧ n ≤ U32_MAX.
Proof.
  intros Hn. apply apply_entries_in in Hn as [Hn|(e & He & <- & <-)]; [by rewrite lookup_empty in Hn|].
  pose proof (cr_pages _ _ _ _ _ _ _ _ _ _ _ R) as Hp. rewrite Forall_forall in Hp.
  specialize (Hp e He). pose proof (cr_entries _ _ _ _ _ _ _ _ _ _ _ R) as Hes.
  rewrite Forall_forall in Hes.
  destruct (Hes e) as (Hu & Hl & _); [by eapply elem_of_take in He as (? & ? & _); eapply list_elem_of_lookup_2|].
  split; [done|]. split; [done|]. mlia.
Qed.

Lemma ckpt_writes_ok : Forall (page_write_ok ps) ckpt_writes.
Proof.
  apply Forall_forall. intros [n b] Hn%elem_of_sorted_pages.
  destruct (safe_pages_ok n b Hn) as (Hl & Hr & Hu). split; [|done].
  pose proof ckpt_ps. split; cbn; lia.
Qed.

Lemma total_frames_eq (tail : bytes) :
  zlen (wal_image le h es ++ tail) ≤ ISIZE_MAX →
  sat_sub (zlen (wal_image le h es ++ tail)) WAL_HEADER_LEN
    / Z.max (sat_add FRAME_HEADER_LEN (wh_page_size h)) 1 = zlen es + zlen tail / (24 + ps).
Proof.
  intros Hfit. pose proof ckpt_ps as Hps. rewrite (cr_ps _ _ _ _ _ _ _ _ _ _ _ R).
  pose proof (wal_image_length le h es) as Hl. rewrite (cr_ps _ _ _ _ _ _ _ _ _ _ _ R) in Hl.
  specialize (Hl (cr_entries _ _ _ _ _ _ _ _ _ _ _ R)).
  unfold FRAME_HEADER_LEN, WAL_HEADER_LEN. rewrite sat_add_small by mlia.
  rewrite Z.max_l by lia. rewrite length_app, Nat2Z.inj_add, Hl. rewrite sat_sub_ge by lia.
  replace (32 + zlen es * (24 + ps) + zlen tail - 32) with (zlen es * (24 + ps) + zlen tail) by lia.
  by rewrite Z.div_add_l by lia.
Qed.

Lemma ckpt_boundary :
  committed_pages le h
    (default (wal_image le h es) (get_range (wal_image le h es) 0
       (sat_add WAL_HEADER_LEN (sat_mul safe (sat_add FRAME_HEADER_LEN (wh_page_size h))))))
  = (safe_pages, log_size safe_log).
Proof.
  pose proof ckpt_ps as Hps. pose proof safe_bounds as Hs.
  pose proof (cr_ps _ _ _ _ _ _ _ _ _ _ _ R) as Hpe. pose proof (cr_fit _ _ _ _ _ _ _ _ _ _ _ R) as Hfit.
  pose proof (isize_usize _ Hfit) as Hu. pose proof (cr_header _ _ _ _ _ _ _ _ _ _ _ R) as Hh.
  assert (Hsm : safe * (24 + ps) ≤ zlen es * (24 + ps)) by nia.
  assert (Hes : Forall (entry_ok (wh_page_size h)) es)
    by (rewrite Hpe; apply (cr_entries _ _ _ _ _ _ _ _ _ _ _ R)).
  unfold FRAME_HEADER_LEN, WAL_HEADER_LEN. rewrite (sat_add_small 24) by (rewrite Hpe; mlia).
  rewrite sat_mul_small, sat_add_small by (rewrite ?Hpe; nia).
  rewrite wal_image_prefix by (done || lia).
  change (default _ (Some (wal_image le h (take (Z.to_nat safe) es)))) with (wal_image le h safe_log).
  assert (Hsl : Forall (entry_ok (wh_page_size h)) safe_log) by (by apply Forall_take).
  pose proof (committed_pages_image le h Hh safe_log [] Hsl) as Hcp. rewrite app_nil_r in Hcp.
  rewrite Hcp; [|cbn; lia|].
  - apply publish_log_size, (cr_committed _ _ _ _ _ _ _ _ _ _ _ R).
  - rewrite wal_image_length, Hpe by done. unfold safe_log. rewrite length_take.
    replace (Z.of_nat (Z.to_nat safe `min` length es)) with safe by lia. lia.
Qed.

Definition ckpt_trace : list io :=
  map (as_io db) (map (replay_op ps) ckpt_writes) ++ [SyncF db].

Lemma checkpoint_trace :
  checkpoint_passive le d x db ps =
  (ckpt_trace, Ok {| backfilled_frames := safe; total_frames := zlen es;
                     checkpoint_complete := bool_decide (safe = zlen es) |},
   wx_release_checkpoint x2).
Proof.
  pose proof (cr_ps _ _ _ _ _ _ _ _ _ _ _ R) as Hpe. pose proof ckpt_ps as Hps.
  pose proof safe_bounds as Hsb. pose proof (cr_some _ _ _ _ _ _ _ _ _ _ _ R) as Hn.
  destruct (cr_marks _ _ _ _ _ _ _ _ _ _ _ R) as (x0 & Hclaim & Hmarks).
  assert (Hes : Forall (entry_ok (wh_page_size h)) es)
    by (rewrite Hpe; apply (cr_entries _ _ _ _ _ _ _ _ _ _ _ R)).
  assert (Hl : zlen (wal_image le h es) = 32 + zlen es * (24 + ps))
    by (rewrite wal_image_length, Hpe by done; done).
  unfold checkpoint_passive, read_file. rewrite (cr_wal _ _ _ _ _ _ _ _ _ _ _ R).
  cbn [fmap option_fmap option_map]. rewrite Hclaim. cbn [p_vfs map_err].
  change (contents (File (wal_image le h es) [])) with (wal_image le h es).
  unfold checkpoint_locked. rewrite decide_False by (unfold WAL_HEADER_LEN; nia).
  assert (Hparse : WalHeader_parse le (wal_image le h es) = Ok h)
    by (apply WalHeader_parse_serialize, (cr_header _ _ _ _ _ _ _ _ _ _ _ R)).
  rewrite Hparse. cbn [map_err]. rewrite (decide_False (P := wh_page_size h ≠ ps)) by tauto.
  pose proof (total_frames_eq []) as Htot. rewrite app_nil_r in Htot.
  rewrite Htot by (rewrite Hl; apply (cr_fit _ _ _ _ _ _ _ _ _ _ _ R)).
  change (zlen [] / (24 + ps)) with (0 / (24 + ps)). rewrite Z.div_0_l, Z.add_0_r by lia.
  rewrite wrap32_small by mlia. rewrite decide_False by lia.
  rewrite Hmarks. cbn [p_vfs map_err]. fold safe. rewrite decide_False by lia.
  rewrite (cr_backfill _ _ _ _ _ _ _ _ _ _ _ R). cbn [p_vfs map_err].
  rewrite (decide_False (P := safe ≤ already)) by (pose proof (cr_progress _ _ _ _ _ _ _ _ _ _ _ R); unfold safe; lia).
  rewrite ckpt_boundary. unfold read_file. rewrite (cr_db _ _ _ _ _ _ _ _ _ _ _ R).
  cbn [fmap option_fmap option_map ok_or p_vfs map_err].
  change (contents (File data [])) with data.
  assert (Hpub : wx_publish_backfill x1 db safe = Ok x2) by apply (cr_publish _ _ _ _ _ _ _ _ _ _ _ R).
  rewrite Hpub. cbn [p_vfs map_err].
  rewrite Hpe. rewrite backfill_writes_eq; [done|done|].
  intros n b Hb. destruct (safe_pages_ok n b Hb) as (_ & ? & ?). lia.
Qed.

Lemma wal_ne_db : companion_path db "-wal" ≠ db.
Proof. by apply companion_ne. Qed.

Lemma ckpt_exec :
  exec_ios d ckpt_trace
  = <[db := File (apply_ops data (map (replay_op ps) ckpt_writes)) []]> d.
Proof.
  unfold ckpt_trace. rewrite exec_ios_app, (exec_ios_writes _ _ _ _ (cr_db _ _ _ _ _ _ _ _ _ _ _ R)).
  cbn [exec_ios foldl exec_io durable pending app].
  rewrite (alter_as_insert _ _ _ _ (lookup_insert_eq _ _ _)), insert_insert_eq. done.
Qed.

(** The file at every point of the pass. *)
Lemma ckpt_prefix ops1 ops2 :
  ckpt_trace = ops1 ++ ops2 →
  ∃ D pend ws, exec_ios d ops1 = <[db := File D pend]> d ∧
    pend = map (replay_op ps) ws ∧ ws ⊆ ckpt_writes ∧
    (D = data ∨ (pend = [] ∧ D = apply_ops data (map (replay_op ps) ckpt_writes))).
Proof.
  unfold ckpt_trace. intros Hops. symmetry in Hops.
  apply app_eq_app in Hops as (l & [[-> Hl]|[Hl ->]]).
  - destruct l as [|o l]; [|apply cons_eq_inv in Hl as [<- Hl]; symmetry in Hl;
      apply app_nil in Hl as [-> ->]].
    + rewrite app_nil_r, (exec_ios_writes _ _ _ _ (cr_db _ _ _ _ _ _ _ _ _ _ _ R)). cbn.
      exists data, (map (replay_op ps) ckpt_writes), ckpt_writes. split_and!; [done..|by left].
    + exists (apply_ops data (map (replay_op ps) ckpt_writes)), [], [].
      split; [apply ckpt_exec|]. split_and!; [done|set_solver|by right].
  - apply map_eq_app in Hl as (o1 & o2 & Ho & <- & _). apply map_eq_app in Ho as (w1 & w2 & Hw & <- & _).
    rewrite (exec_ios_writes _ _ _ _ (cr_db _ _ _ _ _ _ _ _ _ _ _ R)). cbn.
    exists data, (map (replay_op ps) w1), w1. split_and!; [done|done| |by left].
    rewrite Hw. set_solver.
Qed.
End ready.
End pass.

(** Later frames of a log only add pages to an overlay. *)
Lemma overlay_grows (es : list entry) (k m : nat) n :
  (k ≤ m)%nat → is_Some (apply_entries ∅ (take k es) !! n) → is_Some (apply_entries ∅ (take m es) !! n).
Proof.
  intros Hkm. replace (take m es) with (take k es ++ drop k (take m es)).
  2: { replace (take k es) with (take k (take m es)) by (rewrite take_take; f_equal; lia). apply take_drop. }
  unfold apply_entries. rewrite foldl_app.
  generalize (foldl (λ m e, <[e.1.1:=e.1.2]> m) (∅ : gmap Z bytes) (take k es)) as acc.
  induction (drop k (take m es)) as [|e l IH]; intros acc Hs; cbn [foldl]; [done|].
  apply IH. destruct (decide (n = e.1.1)) as [->|]; [rewrite lookup_insert_eq; eauto|].
  by rewrite lookup_insert_ne.
Qed.

(** What a reader pinned at frame [m] of the log sees. *)
Definition reader_view (es : list entry) (m : Z) (data : bytes) (ps n : Z) : result PageError bytes :=
  match apply_entries ∅ (take (Z.to_nat m) es) !! n with
  | Some b => Ok b
  | None => read_page_at data ps n
  end.

(** Pages outside a set of writes read the same, whichever writes survive. *)
Lemma survives_read ps ws D0 D n :
  survives D0 (map (replay_op ps) ws) D → Forall (page_write_ok ps) ws →
  page_ok ps n → n * ps ≤ zlen D0 → n ∉ map fst ws → read_page_at D ps n = read_page_at D0 ps n.
Proof.
  intros Hs Hws Hn Hlen Hnot. destruct (survives_pages ps ws D0 D Hs Hws) as [Hl Hi].
  rewrite !page_bytes_read by (done || lia). f_equal.
  pose proof (page_bytes_length D ps n Hn ltac:(lia)) as L1.
  pose proof (page_bytes_length D0 ps n Hn Hlen) as L2.
  destruct (page_offset_eq ps n Hn) as (_ & Hoff & _).
  apply list_eq. intros i. destruct (decide (i < Z.to_nat ps)%nat) as [Hlt|Hge].
  - assert (Hpg : page_of ps (Z.to_nat ((n - 1) * ps) + i) = n)
      by (apply page_of_range; destruct Hn; lia).
    pose proof (page_bytes_lookup D ps n (Z.to_nat ((n - 1) * ps) + i) Hn Hpg) as E1.
    pose proof (page_bytes_lookup D0 ps n (Z.to_nat ((n - 1) * ps) + i) Hn Hpg) as E2.
    replace (Z.to_nat ((n - 1) * ps) + i - Z.to_nat ((n - 1) * ps))%nat with i in E1, E2 by lia.
    rewrite E1, E2. apply Hi; [destruct Hn; lia|by rewrite Hpg].
  - rewrite !lookup_ge_None_2; [done|lia|lia].
Qed.

(** A pass over a log whose frames are all in the file already. *)
Lemma checkpoint_caught_up (le : bool) {X : Type} {W : WalIndex X} (d : fs) (db : string) (ps : Z)
    (h : WalHeader) (es : list entry) (x x0 x1 : X) (marks : list Z) (already : Z) :
  WalHeader_ok le h → wh_page_size h = ps → d !! companion_path db "-wal" = Some (File (wal_image le h es) []) →
  Forall (entry_ok ps) es → 0 < zlen es < 4294967296 → 32 + zlen es * (24 + ps) ≤ ISIZE_MAX →
  wx_claim_checkpoint x db = Ok x0 → wx_reader_marks x0 db = (Ok marks, x1) → wx_read_backfill x1 db = Ok already →
  safe_frame marks (zlen es) ≤ already →
  checkpoint_passive le d x db ps =
  ([], Ok {| backfilled_frames := already; total_frames := zlen es; checkpoint_complete := bool_decide (already = zlen es) |},
   wx_release_checkpoint x1).
Proof.
  intros Hh <- Hw Hes Hn Hfit Hclaim Hmarks Hback Hle.
  pose proof (valid_page_size_bounds _ (who_page_size _ _ Hh)) as Hps. pose proof (wal_image_length le h es Hes) as Hl.
  unfold checkpoint_passive, read_file. rewrite Hw. cbn [fmap option_fmap option_map]. rewrite Hclaim. cbn [p_vfs map_err].
  change (contents (File (wal_image le h es) [])) with (wal_image le h es).
  unfold checkpoint_locked. rewrite decide_False by (unfold WAL_HEADER_LEN; nia).
  assert (Hparse : WalHeader_parse le (wal_image le h es) = Ok h) by (by apply WalHeader_parse_serialize).
  rewrite Hparse. cbn [map_err]. rewrite (decide_False (P := wh_page_size h ≠ wh_page_size h)) by tauto.
  unfold FRAME_HEADER_LEN, WAL_HEADER_LEN. rewrite sat_add_small by mlia. rewrite Z.max_l, Hl, sat_sub_ge by lia.
  replace (32 + zlen es * (24 + wh_page_size h) - 32) with (zlen es * (24 + wh_page_size h)) by lia.
  rewrite Z.div_mul by lia. rewrite wrap32_small by mlia. rewrite decide_False by lia.
  rewrite Hmarks. cbn [p_vfs map_err]. destruct (safe_frame_spec marks (zlen es)) as [Hs _]; [lia|].
  rewrite decide_False by lia. rewrite Hback. cbn [p_vfs map_err]. by rewrite decide_True by done.
Qed.

(** A pass without a log, with one that has no header yet, or no frame. *)
Lemma checkpoint_no_frames (le : bool) {X : Type} {W : WalIndex X} (d : fs) (db : string) (ps : Z) (x x0 : X) (bs : bytes) :
  read_file d (companion_path db "-wal") = Some bs →
  zlen bs < WAL_HEADER_LEN ∨ (∃ h, WalHeader_ok le h ∧ wh_page_size h = ps ∧ bs = wal_image le h []) →
  wx_claim_checkpoint x db = Ok x0 →
  checkpoint_passive le d x db ps = ([], Ok nothing_to_do, wx_release_checkpoint x0).
Proof.
  intros Hr Hbs Hclaim. unfold checkpoint_passive. rewrite Hr, Hclaim. cbn [p_vfs map_err]. unfold checkpoint_locked.
  destruct Hbs as [Hlt|(h & Hh & Hp & ->)]; [by rewrite decide_True|].
  pose proof (valid_page_size_bounds _ (who_page_size _ _ Hh)) as Hps.
  assert (Hl : zlen (wal_image le h []) = 32) by (rewrite wal_image_length by apply Forall_nil_2; cbn; lia).
  rewrite decide_False by (rewrite Hl; unfold WAL_HEADER_LEN; lia).
  assert (Hparse : WalHeader_parse le (wal_image le h []) = Ok h) by (by apply WalHeader_parse_serialize).
  rewrite Hparse. cbn [map_err]. rewrite (decide_False (P := wh_page_size h ≠ ps)) by tauto.
  rewrite Hl. unfold FRAME_HEADER_LEN, WAL_HEADER_LEN. rewrite sat_add_small by mlia. rewrite sat_sub_ge by lia.
  change (32 - 32) with 0. rewrite Z.div_0_l by lia. by rewrite (decide_True (P := wrap32 0 = 0)) by done.
Qed.

(** ** Logs with an invalid tail *)

(** A wal-index that is only its backfill counter: no reader is attached. *)
#[export] Instance CounterIndex : WalIndex Z := {
  wx_claim_checkpoint s _ := Ok s;
  wx_release_checkpoint s := s;
  wx_reader_marks s _ := (Ok [], s);
  wx_read_backfill s _ := Ok s;
  wx_publish_backfill _ _ n := Ok n;
}.

Lemma file_read_at_full (data : bytes) : file_read_at data (zlen data) 0 = data.
Proof.
  assert (Hs : Some (file_read_at data (zlen data) 0) = Some data)
    by (rewrite file_read_at_range by lia; apply get_range_full).
  congruence.
Qed.

Lemma file_write_at_tail (a b c : bytes) :
  zlen b ≤ zlen c → zlen a + zlen c ≤ USIZE_MAX → file_write_at (a ++ b) c (zlen a) = a ++ c.
Proof.
  intros Hbc Hm. pose proof (file_write_at_length (a ++ b) c (zlen a) ltac:(lia) Hm) as Hl.
  rewrite length_app in Hl. apply list_eq. intros i.
  destruct (decide (i < length (a ++ c))%nat) as [Hi|Hi]; rewrite length_app in Hi.
  - rewrite file_write_at_lookup by (rewrite ?length_app; lia). case_decide.
    + rewrite lookup_app_r by lia. f_equal. lia.
    + rewrite !lookup_app_l by lia. done.
  - rewrite !lookup_ge_None_2; [done|rewrite length_app; lia|lia].
Qed.

Section tail.
Context (le : bool) (h : WalHeader) (d : fs) (db : string) (es0 es1 : list entry)
  (garbage data : bytes) (Hh : WalHeader_ok le h).
Let ps := wh_page_size h.
Context (Hwal : d !! companion_path db "-wal" = Some (File (wal_image le h es0 ++ garbage) []))
  (Hdb : d !! db = Some (File data []))
  (H0 : Forall (entry_ok ps) es0) (H1 : Forall (entry_ok ps) es1)
  (Hc : committed_log es0) (Ht : txn es1)
  (Hscan : valid_frames le h (wal_image le h es0 ++ garbage) = log_frames le h es0)
  (Hg : zlen garbage = zlen es1 * (24 + ps))
  (Hfit : 32 + zlen (es0 ++ es1) * (24 + ps) ≤ ISIZE_MAX) (Hcnt : zlen (es0 ++ es1) < 4294967296).

Lemma tail_ps : 512 ≤ ps ≤ 65536.
Proof. apply valid_page_size_bounds, (who_page_size _ _ Hh). Qed.

Lemma tail_total : zlen es0 + zlen es1 = zlen (es0 ++ es1).
Proof. rewrite length_app. lia. Qed.

Lemma tail_some : 0 < zlen es1.
Proof. destruct Ht as (pre & e & -> & _). rewrite length_app. cbn. lia. Qed.

(** A pass over [bs], whose length is that of the whole log. *)
Lemma tail_total_frames (bs : bytes) :
  zlen bs = 32 + zlen (es0 ++ es1) * (24 + ps) →
  wrap32 (sat_sub (zlen bs) WAL_HEADER_LEN / Z.max (sat_add FRAME_HEADER_LEN ps) 1) = zlen (es0 ++ es1).
Proof.
  pose proof tail_ps as Hps. intros Hl. unfold FRAME_HEADER_LEN, WAL_HEADER_LEN.
  rewrite sat_add_small by mlia. rewrite Z.max_l, Hl, sat_sub_ge by lia.
  replace (32 + zlen (es0 ++ es1) * (24 + ps) - 32) with (zlen (es0 ++ es1) * (24 + ps)) by lia.
  rewrite Z.div_mul by lia. apply wrap32_small. mlia.
Qed.

Lemma tail_wal_length : zlen (wal_image le h es0 ++ garbage) = 32 + zlen (es0 ++ es1) * (24 + ps).
Proof. rewrite length_app, Nat2Z.inj_add, wal_image_length by done. fold ps. rewrite length_app, Hg. lia. Qed.

(** The first pass counts the invalid frames. *)
Lemma tail_first_pass :
  ∃ ops data', checkpoint_passive le d 0 db ps =
    (ops, Ok {| backfilled_frames := zlen (es0 ++ es1); total_frames := zlen (es0 ++ es1);
                checkpoint_complete := true |}, zlen (es0 ++ es1)) ∧
    exec_ios d ops = <[db := File data' []]> d.
Proof.
  pose proof tail_ps as Hps. pose proof tail_total. pose proof tail_some. pose proof tail_wal_length as Hl.
  unfold checkpoint_passive, read_file. rewrite Hwal. cbn [fmap option_fmap option_map p_vfs map_err wx_claim_checkpoint CounterIndex].
  change (contents (File (wal_image le h es0 ++ garbage) [])) with (wal_image le h es0 ++ garbage).
  unfold checkpoint_locked. rewrite decide_False by (unfold WAL_HEADER_LEN; nia).
  assert (Hparse : WalHeader_parse le (wal_image le h es0 ++ garbage) = Ok h).
  { unfold wal_image. rewrite <- (assoc_L (++)). by apply WalHeader_parse_serialize. }
  rewrite Hparse. cbn [map_err]. fold ps. rewrite (decide_False (P := ps ≠ ps)) by tauto.
  rewrite tail_total_frames by done. rewrite decide_False by lia.
  cbn [wx_reader_marks wx_read_backfill wx_publish_backfill wx_release_checkpoint CounterIndex p_vfs map_err].
  unfold safe_frame. cbn [filter list_filter].
  rewrite decide_False by lia. rewrite decide_False by lia.
  rewrite committed_pages_eq.
  assert (Hb : default (wal_image le h es0 ++ garbage) (get_range (wal_image le h es0 ++ garbage) 0
      (sat_add WAL_HEADER_LEN (sat_mul (zlen (es0 ++ es1)) (sat_add FRAME_HEADER_LEN ps))))
      = wal_image le h es0 ++ garbage).
  { pose proof (isize_usize _ Hfit). unfold FRAME_HEADER_LEN, WAL_HEADER_LEN.
    rewrite (sat_add_small 24) by mlia. rewrite sat_mul_small, sat_add_small by nia.
    rewrite <- Hl. by rewrite get_range_full. }
  rewrite Hb, Hscan, publish_log_size by done. unfold read_file. rewrite Hdb.
  cbn [fmap option_fmap option_map ok_or map_err].
  rewrite bool_decide_true by done. do 2 eexists. split; [reflexivity|].
  rewrite exec_ios_app, (exec_ios_writes _ _ _ _ Hdb). cbn [exec_ios foldl exec_io].
  rewrite (alter_as_insert _ _ _ _ (lookup_insert_eq _ _ _)), insert_insert_eq. done.
Qed.

(** The next writer starts where the valid frames end, over the tail. *)
Lemma tail_writer (d1 : fs) :
  d1 !! companion_path db "-wal" = Some (File (wal_image le h es0 ++ garbage) []) →
  WalWriter_open_existing le d1 (companion_path db "-wal") ps None
  = Ok (writer_state le h (companion_path db "-wal") es0).
Proof.
  intros Hd1. pose proof tail_wal_length as Hl. unfold WalWriter_open_existing, read_file. rewrite Hd1.
  cbn [fmap option_fmap option_map ok_or].
  change (contents (File (wal_image le h es0 ++ garbage) [])) with (wal_image le h es0 ++ garbage).
  rewrite file_read_at_full.
  assert (Hparse : WalHeader_parse le (wal_image le h es0 ++ garbage) = Ok h).
  { unfold wal_image. rewrite <- (assoc_L (++)). by apply WalHeader_parse_serialize. }
  rewrite Hparse. rewrite (decide_False (P := wh_page_size h ≠ ps)) by (intros Hne; by apply Hne).
  unfold last_valid_frame_state.
  rewrite last_valid_frame_loop_eq by (try apply Hh; unfold WAL_HEADER_LEN; lia).
  unfold valid_frames in Hscan. rewrite Hscan. cbv zeta.
  replace (zlen (log_frames le h es0)) with (zlen es0)
    by (unfold log_frames; by rewrite entries_frames_length).
  by rewrite frame_size_eq by apply Hh.
Qed.

Lemma tail_commit (d1 : fs) :
  d1 !! companion_path db "-wal" = Some (File (wal_image le h es0 ++ garbage) []) →
  ∃ ops w, WalWriter_sync (append_all le (writer_state le h (companion_path db "-wal") es0) es1) = (ops, Ok w) ∧
    exec_ios d1 ops = <[companion_path db "-wal" := File (wal_image le h (es0 ++ es1)) []]> d1.
Proof.
  intros Hd1. pose proof tail_some. pose proof tail_ps. pose proof (isize_usize _ Hfit) as Hu.
  rewrite append_all_state; [|done|by destruct es1|done|done]. do 2 eexists. split; [reflexivity|].
  cbn [app exec_ios foldl exec_io ww_path ww_pending].
  rewrite (alter_as_insert _ _ _ _ Hd1), (alter_as_insert _ _ _ _ (lookup_insert_eq _ _ _)), insert_insert_eq.
  do 2 f_equal. unfold contents, push_op. cbn [durable pending app apply_ops foldl apply_op].
  rewrite wal_image_app. fold ps.
  replace (32 + zlen es0 * (24 + ps)) with (zlen (wal_image le h es0)) by (by rewrite wal_image_length).
  pose proof (entries_bytes_length le h (log_running le h es0) es1 H1) as Hel. fold ps in Hel.
  pose proof (wal_image_length le h es0 H0) as Hil. fold ps in Hil. pose proof tail_total.
  apply file_write_at_tail; rewrite Hel; [lia|]. rewrite Hil. nia.
Qed.

(** A pass over the new log, whose frames the counter already covers. *)
Lemma tail_second_pass (d2 : fs) :
  d2 !! companion_path db "-wal" = Some (File (wal_image le h (es0 ++ es1)) []) →
  checkpoint_passive le d2 (zlen (es0 ++ es1)) db ps =
  ([], Ok {| backfilled_frames := zlen (es0 ++ es1); total_frames := zlen (es0 ++ es1);
             checkpoint_complete := true |}, zlen (es0 ++ es1)).
Proof.
  intros Hd2. pose proof tail_ps as Hps. pose proof tail_total. pose proof tail_some.
  assert (Hall : Forall (entry_ok ps) (es0 ++ es1)) by (by apply Forall_app).
  pose proof (wal_image_length le h (es0 ++ es1) Hall) as Hl. fold ps in Hl.
  unfold checkpoint_passive, read_file. rewrite Hd2. cbn [fmap option_fmap option_map p_vfs map_err wx_claim_checkpoint CounterIndex].
  change (contents (File (wal_image le h (es0 ++ es1)) [])) with (wal_image le h (es0 ++ es1)).
  unfold checkpoint_locked. rewrite decide_False by (unfold WAL_HEADER_LEN; nia).
  assert (Hparse : WalHeader_parse le (wal_image le h (es0 ++ es1)) = Ok h)
    by (by apply WalHeader_parse_serialize).
  rewrite Hparse. cbn [map_err]. fold ps. rewrite (decide_False (P := ps ≠ ps)) by tauto.
  rewrite tail_total_frames by done. rewrite decide_False by lia.
  cbn [wx_reader_marks wx_read_backfill wx_publish_backfill wx_release_checkpoint CounterIndex p_vfs map_err].
  unfold safe_frame. cbn [filter list_filter].
  rewrite decide_False by lia. rewrite decide_True by lia. by rewrite bool_decide_true.
Qed.
End tail.

(** One committed frame rewriting page 1. *)
Definition ckpt_example_log : list entry := [(1, zeros 512, 1)].
Definition ckpt_example_fs : fs :=
  {["db" := File (new_empty_page1 512) [];
    "db-wal" := File (wal_image true wal_example_header ckpt_example_log) []]}.

Lemma ckpt_example_wal :
  ckpt_example_fs !! companion_path "db" "-wal"
  = Some (File (wal_image true wal_example_header ckpt_example_log) []).
Proof.
  unfold ckpt_example_fs. change (companion_path "db" "-wal") with "db-wal".
  by rewrite lookup_insert_ne, lookup_singleton_eq.
Qed.

Lemma ckpt_example_entries : Forall (entry_ok 512) ckpt_example_log.
Proof. apply Forall_singleton, entry_ok_zeros; unfold u32_ok; lia. Qed.

Lemma ckpt_example_ready :
  ckpt_ready (X := ()) true ckpt_example_fs "db" 512 wal_example_header ckpt_example_log
    (new_empty_page1 512) () () () [] 0.
Proof.
  split.
  - exact wal_example_header_ok.
  - reflexivity.
  - exact ckpt_example_wal.
  - unfold ckpt_example_fs. apply lookup_insert_eq.
  - exact ckpt_example_entries.
  - cbn. lia.
  - vm_compute. congruence.
  - exists (). split; reflexivity.
  - reflexivity.
  - cbn. lia.
  - reflexivity.
  - right. exists [], (1, zeros 512, 1). split; [reflexivity|cbn; lia].
  - apply Forall_singleton. cbn [fst]. change (log_size _) with 1. lia.
Qed.

(** ** Properties *)

(** A checkpoint pass copies exactly what it may.  On a log that is
    well formed up to the frame the oldest reader allows, the pass succeeds;
    the frame it backfills to is at most the log's length and at most every
    live reader's mark; afterwards the database file, durably, holds for
    every page its latest version among those frames, every other page of
    the file is unchanged, and no other file is touched; it reports itself
    complete exactly when it reached the end of the log. *)
Theorem checkpoint_backfills {X : Type} {W : WalIndex X} (le : bool) (d : fs) (db : string) (ps : Z)
    (h : WalHeader) (es : list entry) (data : bytes) (x x1 x2 : X) (marks : list Z) (already : Z)
    (R : ckpt_ready le d db ps h es data x x1 x2 marks already) :
  ∃ ops r data', checkpoint_passive le d x db ps = (ops, Ok r, wx_release_checkpoint x2) ∧
    exec_ios d ops = <[db := File data' []]> d ∧
    backfilled_frames r = safe_frame marks (zlen es) ∧ total_frames r = zlen es ∧
    (checkpoint_complete r = true ↔ backfilled_frames r = zlen es) ∧
    (∀ m, m ∈ marks → 0 < m → backfilled_frames r ≤ m) ∧
    ∀ n, page_ok ps n → is_Some (apply_entries ∅ (take (Z.to_nat (backfilled_frames r)) es) !! n) ∨ n * ps ≤ zlen data →
      read_page_at data' ps n = reader_view es (backfilled_frames r) data ps n.
Proof.
  do 3 eexists. split; [apply (checkpoint_trace le d db ps h es data x x1 x2 marks already R)|].
  split; [apply (ckpt_exec le d db ps h es data x x1 x2 marks already R)|].
  cbn [backfilled_frames total_frames checkpoint_complete]. split; [done|]. split; [done|]. split.
  { by rewrite bool_decide_eq_true. }
  destruct (safe_frame_spec marks (zlen es) ltac:(apply (cr_some _ _ _ _ _ _ _ _ _ _ _ _ R))) as [_ Hm].
  split; [exact Hm|]. intros n Hn Hor.
  destruct (apply_pages ps (ckpt_writes es marks) data n) as [Hin Hout];
    [apply (ckpt_writes_ok le d db ps h es data x x1 x2 marks already R)|apply sorted_pages_NoDup|done|].
  unfold reader_view. change (apply_entries ∅ (take (Z.to_nat (safe es marks)) es)) with (safe_pages es marks) in *.
  destruct (safe_pages es marks !! n) as [b|] eqn:E.
  - apply Hin. by apply elem_of_sorted_pages.
  - apply Hout; [|destruct Hor as [[? ?]|?]; done]. unfold ckpt_writes.
    rewrite elem_of_sorted_fst, E. by intros [].
Qed.

(** Crashes during a checkpoint pass. *)
Lemma checkpoint_crash {X : Type} {W : WalIndex X} (le : bool) (d : fs) (db : string) (ps : Z)
    (h : WalHeader) (es : list entry) (data : bytes) (x x1 x2 : X) (marks : list Z) (already : Z)
    (R : ckpt_ready le d db ps h es data x x1 x2 marks already) :
  ∃ ops r, checkpoint_passive le d x db ps = (ops, Ok r, wx_release_checkpoint x2) ∧
    ∀ ops1 ops2 d', ops = ops1 ++ ops2 → crash (exec_ios d ops1) d' →
      d' !! companion_path db "-wal" = d !! companion_path db "-wal" ∧
      ∃ D, d' !! db = Some (File D []) ∧
        ∀ m n, backfilled_frames r ≤ m → page_ok ps n → n * ps ≤ zlen data →
          reader_view es m D ps n = reader_view es m data ps n.
Proof.
  do 2 eexists. split; [apply (checkpoint_trace le d db ps h es data x x1 x2 marks already R)|].
  intros ops1 ops2 d' Hops Hc. cbn [backfilled_frames].
  pose proof (ckpt_writes_ok le d db ps h es data x x1 x2 marks already R) as Hws.
  pose proof (safe_bounds le d db ps h es data x x1 x2 marks already R) as Hsb.
  destruct (ckpt_prefix le d db ps h es data x x1 x2 marks already R ops1 ops2 Hops)
    as (D0 & pend & ws & He & -> & Hsub & Hcase).
  rewrite He in Hc. split.
  { pose proof (cr_wal _ _ _ _ _ _ _ _ _ _ _ _ R) as Hw.
    assert (Hw' : <[db := File D0 (map (replay_op ps) ws)]> d !! companion_path db "-wal"
                  = Some (File (wal_image le h es) [])) by (by rewrite lookup_insert_ne by (symmetry; apply wal_ne_db)).
    destruct (crash_Some _ _ _ _ Hc Hw') as (D & -> & Hs). apply survives_nil_inv in Hs as ->. by rewrite Hw. }
  destruct (crash_Some _ _ _ _ Hc (lookup_insert_eq _ _ _)) as (D & Hd' & Hs). exists D. split; [done|].
  cbn [durable pending] in Hs. intros m n Hm Hn Hlen. unfold reader_view.
  destruct (apply_entries ∅ (take (Z.to_nat m) es) !! n) as [b|] eqn:E; [done|].
  assert (Hnone : n ∉ map fst (ckpt_writes es marks)).
  { unfold ckpt_writes. rewrite elem_of_sorted_fst. intros Hsome.
    apply (overlay_grows es (Z.to_nat (safe es marks)) (Z.to_nat m)) in Hsome; [|lia].
    rewrite E in Hsome. by destruct Hsome. }
  assert (Hn' : n ∉ map fst ws) by (intros Hin; apply Hnone; set_solver).
  assert (Hws' : Forall (page_write_ok ps) ws).
  { rewrite Forall_forall in Hws |- *. intros w Hw. apply Hws, Hsub, Hw. }
  destruct Hcase as [->|[Hnil ->]].
  - by apply (survives_read ps ws).
  - rewrite Hnil in Hs. apply survives_nil_inv in Hs as ->.
    apply (apply_pages ps (ckpt_writes es marks)); [done|apply sorted_pages_NoDup|done|done|done].
Qed.

(** C3: Checkpoints are invisible.  Take a pass that has frames to copy over
    a log that is committed up to the frame the oldest reader allows.  Crash
    the machine at any point of the pass, losing any subset of its unsynced
    writes (or do not crash at all): the log is untouched, and every reader,
    be it one whose mark the wal-index reports (any positive mark, wherever
    it stands in the log) or one that begins at the end of the log, reads every
    page it could read, through the frames up to its mark and then the file,
    exactly as before the pass. *)
Theorem checkpoint_invisible {X : Type} {W : WalIndex X} (le : bool) (d : fs) (db : string) (ps : Z)
    (h : WalHeader) (es : list entry) (data : bytes) (x x1 x2 : X) (marks : list Z) (already : Z)
    (R : ckpt_ready le d db ps h es data x x1 x2 marks already) :
  ∃ ops r, checkpoint_passive le d x db ps = (ops, Ok r, wx_release_checkpoint x2) ∧
    ∀ ops1 ops2 d', ops = ops1 ++ ops2 → crash (exec_ios d ops1) d' →
      d' !! companion_path db "-wal" = d !! companion_path db "-wal" ∧
      ∃ D, d' !! db = Some (File D []) ∧
        ∀ m n, m ∈ marks ∧ 0 < m ∨ zlen es ≤ m → page_ok ps n →
          n * ps ≤ zlen data ∨ is_Some (apply_entries ∅ (take (Z.to_nat m) es) !! n) →
          reader_view es m D ps n = reader_view es m data ps n.
Proof.
  destruct (checkpoint_crash le d db ps h es data x x1 x2 marks already R) as (ops & r & Hc & Hcrash).
  exists ops, r. split; [exact Hc|]. intros ops1 ops2 d' Hops Hd. destruct (Hcrash ops1 ops2 d' Hops Hd) as (Hw & D & HD & Hv).
  split; [exact Hw|]. exists D. split; [exact HD|]. intros m n Hm Hn [Hlen|[b Hb]]; [|unfold reader_view; by rewrite Hb].
  apply Hv; [|done|done]. rewrite (checkpoint_trace le d db ps h es data x x1 x2 marks already R) in Hc.
  assert (backfilled_frames r = safe_frame marks (zlen es)) as -> by (by injection Hc as _ <-).
  destruct (safe_frame_spec marks (zlen es)) as [Hle Hmark]; [apply (cr_some _ _ _ _ _ _ _ _ _ _ _ _ R)|].
  destruct Hm as [[Hin Hpos]|Hall]; [by apply Hmark|lia].
Qed.

(** A wal-index with a backfill counter and the marks of attached readers. *)
#[export] Instance MarksIndex : WalIndex (list Z * Z) := {
  wx_claim_checkpoint s _ := Ok s;
  wx_release_checkpoint s := s;
  wx_reader_marks s _ := (Ok s.1, s);
  wx_read_backfill s _ := Ok s.2;
  wx_publish_backfill s _ n := Ok (s.1, n);
}.

(** Two transactions that both rewrite page 1. *)
Definition marks_log : list entry := [(1, repeat 7 512, 1); (1, repeat 9 512, 1)].
Definition marks_fs : fs :=
  {["db" := File (new_empty_page1 512) [];
    "db-wal" := File (wal_image true wal_example_header marks_log) []]}.

Lemma marks_ready :
  ckpt_ready (X := list Z * Z) true marks_fs "db" 512 wal_example_header marks_log
    (new_empty_page1 512) ([0; 1], 0) ([0; 1], 0) ([0; 1], 1) [0; 1] 0.
Proof.
  assert (He : ∀ b, entry_ok 512 (1, repeat b 512, 1)).
  { intros b. split; [unfold u32_ok; cbn; lia|]. split; [reflexivity|unfold u32_ok; cbn; lia]. }
  split.
  - exact wal_example_header_ok.
  - reflexivity.
  - unfold marks_fs. change (companion_path "db" "-wal") with "db-wal". by rewrite lookup_insert_ne, lookup_singleton_eq.
  - unfold marks_fs. apply lookup_insert_eq.
  - apply Forall_cons. split; [apply He|]. apply Forall_singleton, He.
  - cbn. lia.
  - vm_compute. congruence.
  - eexists. split; reflexivity.
  - reflexivity.
  - vm_compute. reflexivity.
  - reflexivity.
  - right. exists [], (1, repeat 7 512, 1). split; [reflexivity|cbn; lia].
  - apply Forall_singleton. cbn [fst]. change (log_size _) with 1. lia.
Qed.

(** The reader at mark 1 sees the first transaction wherever the pass is cut;
    the pass stops there, short of the second. *)
Lemma checkpoint_invisible_witness :
  ∃ ops r, checkpoint_passive true marks_fs ([0; 1], 0) "db" 512 = (ops, Ok r, ([0; 1], 1)) ∧
    checkpoint_complete r = false ∧
    ∀ ops1 ops2 d', ops = ops1 ++ ops2 → crash (exec_ios marks_fs ops1) d' → ∃ D, d' !! "db" = Some (File D []) ∧
      reader_view marks_log 1 D 512 1 = Ok (repeat 7 512) ∧ reader_view marks_log 2 D 512 1 = Ok (repeat 9 512).
Proof.
  destruct (checkpoint_invisible true marks_fs "db" 512 wal_example_header marks_log
    (new_empty_page1 512) ([0; 1], 0) ([0; 1], 0) ([0; 1], 1) [0; 1] 0 marks_ready) as (ops & r & Hc & Hcrash).
  exists ops, r. split; [exact Hc|]. split.
  { rewrite (checkpoint_trace _ _ _ _ _ _ _ _ _ _ _ _ marks_ready) in Hc. injection Hc as _ <-. reflexivity. }
  intros ops1 ops2 d' Hops Hd. destruct (Hcrash ops1 ops2 d' Hops Hd) as (_ & D & HD & Hv). exists D. split; [exact HD|].
  assert (Hok : page_ok 512 1) by (split; unfold U32_MAX; cbn; lia).
  split; (etransitivity; [apply Hv|]).
  - left. split; [right; left|lia].
  - exact Hok.
  - right. eexists. reflexivity.
  - reflexivity.
  - right. cbn. lia.
  - exact Hok.
  - right. eexists. reflexivity.
  - reflexivity.
Defined.

(** C38: How a checkpoint can lose a committed transaction.  [total_frames]
    is computed from the log's length, so a pass over a log whose last
    frames are invalid (left by a torn write, say) counts them as backfilled.
    The next writer, which resumes after the last valid frame, overwrites
    them with a new transaction; the log then says that transaction is
    committed, but the next pass copies nothing and reports the checkpoint
    complete, which is what [switch_wal_to_journal] waits for before it
    deletes the log. *)
Theorem checkpoint_skips_overwritten_tail (le : bool) (h : WalHeader) (d : fs) (db : string)
    (es0 es1 : list entry) (garbage data : bytes)
    (Hh : WalHeader_ok le h)
    (Hwal : d !! companion_path db "-wal" = Some (File (wal_image le h es0 ++ garbage) []))
    (Hdb : d !! db = Some (File data []))
    (H0 : Forall (entry_ok (wh_page_size h)) es0) (H1 : Forall (entry_ok (wh_page_size h)) es1)
    (Hc : committed_log es0) (Ht : txn es1)
    (Hscan : valid_frames le h (wal_image le h es0 ++ garbage) = log_frames le h es0)
    (Hg : zlen garbage = zlen es1 * (24 + wh_page_size h))
    (Hfit : 32 + zlen (es0 ++ es1) * (24 + wh_page_size h) ≤ ISIZE_MAX)
    (Hcnt : zlen (es0 ++ es1) < 4294967296) :
  let ps := wh_page_size h in let wal := companion_path db "-wal" in
  ∃ ops1 r1 n, checkpoint_passive le d 0 db ps = (ops1, Ok r1, n) ∧ checkpoint_complete r1 = true ∧
    let d1 := exec_ios d ops1 in
    ∃ w0 ops2 w, WalWriter_open_existing le d1 wal ps None = Ok w0 ∧
      WalWriter_sync (append_all le w0 es1) = (ops2, Ok w) ∧
      let d2 := exec_ios d1 ops2 in
      read_wal_pages le d2 db ps = Ok (apply_entries ∅ (es0 ++ es1)) ∧
      ∃ r2, checkpoint_passive le d2 n db ps = ([], Ok r2, n) ∧ checkpoint_complete r2 = true.
Proof.
  intros ps wal.
  destruct (tail_first_pass le h d db es0 es1 garbage data Hh Hwal Hdb H0 H1 Hc Ht Hscan Hg Hfit Hcnt)
    as (ops1 & data' & Hp1 & He1).
  do 3 eexists. split; [exact Hp1|]. split; [done|]. cbv zeta. rewrite He1.
  assert (Hd1 : <[db := File data' []]> d !! wal = Some (File (wal_image le h es0 ++ garbage) []))
    by (by rewrite lookup_insert_ne by (symmetry; by apply companion_ne)).
  destruct (tail_commit le h db es0 es1 garbage Hh H0 H1 Ht Hg Hfit Hcnt _ Hd1) as (ops2 & w & Hs & He2).
  do 3 eexists. split; [by apply (tail_writer le h db es0 es1 garbage Hh H0 Hscan Hg Hfit)|].
  split; [exact Hs|]. rewrite He2. split.
  - apply (read_wal_image le _ _ _ h); [done|done|by apply Forall_app| |done|].
    + destruct Ht as (pre & e & -> & He & _). right. exists (es0 ++ pre), e. by rewrite (assoc_L (++)).
    + apply read_file_insert.
  - eexists. split; [apply (tail_second_pass le h db es0 es1 garbage Hh H0 H1 Ht Hg Hfit Hcnt), lookup_insert_eq|done].
Qed.

(** One committed frame, then a frame's worth of zeros. *)
Definition tail_example_fs : fs :=
  {["db" := File (new_empty_page1 512) [];
    "db-wal" := File (wal_image true wal_example_header ckpt_example_log ++ zeros 536) []]}.

Lemma checkpoint_skips_overwritten_tail_witness :
  ∃ ops1 r1 n ops2 r2, checkpoint_passive true tail_example_fs 0 "db" 512 = (ops1, Ok r1, n) ∧
    let d2 := exec_ios (exec_ios tail_example_fs ops1) ops2 in
    read_wal_pages true d2 "db" 512 = Ok {[1 := new_empty_page1 512]} ∧
    checkpoint_passive true d2 n "db" 512 = ([], Ok r2, n) ∧ checkpoint_complete r2 = true.
Proof.
  destruct (checkpoint_skips_overwritten_tail true wal_example_header tail_example_fs "db"
    ckpt_example_log [(1, new_empty_page1 512, 1)] (zeros 536) (new_empty_page1 512))
    as (ops1 & r1 & n & Hp & _ & w0 & ops2 & w & _ & _ & Hr & r2 & Hp2 & Hc2).
  - exact wal_example_header_ok.
  - unfold tail_example_fs. change (companion_path "db" "-wal") with "db-wal".
    by rewrite lookup_insert_ne, lookup_singleton_eq.
  - unfold tail_example_fs. apply lookup_insert_eq.
  - exact ckpt_example_entries.
  - apply Forall_singleton. split_and!; [unfold u32_ok; cbn; lia|reflexivity|unfold u32_ok; cbn; lia].
  - right. exists [], (1, zeros 512, 1). split; [reflexivity|cbn; lia].
  - exists [], (1, new_empty_page1 512, 1). split_and!; [reflexivity|cbn; lia|apply Forall_nil_2].
  - vm_compute. reflexivity.
  - vm_compute. reflexivity.
  - vm_compute. congruence.
  - vm_compute. reflexivity.
  - exists ops1, r1, n, ops2, r2. split; [exact Hp|]. cbv zeta. split; [|split; [exact Hp2|exact Hc2]].
    exact Hr.
Defined.
