(* ===== verification/ModeSwitch.v ===== *)
(** * Switching the journal mode ([Pager::set_journal_mode])

    [row/pager/mod.rs]: from the rollback journal to a write-ahead log and
    back, with the log drained by checkpoints first.  Leaving WAL mode keeps
    what every page reads, wherever the machine crashes, for the logs that
    [log_state] describes; entering it leaves an unsynced log behind. *)

From S2P Require Import Prelude Text Vfs Header Journal Wal Freelist PageCache Lock Pager Commit WalCommit Shm Checkpoint.

Section switch.
Context (le : bool) `{FileLock L} `{WalIndex X}.
(** The destructor of the reader's lock ([wal_lock]), on the wal-index. *)
Context (drop_wal_lock : X → X).
Implicit Types (p : Pager (L := L)) (d : fs).

Definition set_mode p (mode : JournalMode) : Pager (L := L) :=
  {| pg_lock := pg_lock p; pg_tx_lock_level := pg_tx_lock_level p; pg_wal_resume := pg_wal_resume p;
     pg_wal_pages := pg_wal_pages p; pg_dirty := pg_dirty p; pg_cache := pg_cache p;
     pg_page_size := pg_page_size p; pg_db_path := pg_db_path p;
     pg_journal_path := pg_journal_path p; pg_journal_mode := mode;
     pg_synchronous := pg_synchronous p |}.

Definition set_synchronous p (mode : SynchronousMode) : Pager (L := L) :=
  {| pg_lock := pg_lock p; pg_tx_lock_level := pg_tx_lock_level p; pg_wal_resume := pg_wal_resume p;
     pg_wal_pages := pg_wal_pages p; pg_dirty := pg_dirty p; pg_cache := pg_cache p;
     pg_page_size := pg_page_size p; pg_db_path := pg_db_path p;
     pg_journal_path := pg_journal_path p; pg_journal_mode := pg_journal_mode p;
     pg_synchronous := mode |}.

(** [switch_journal_to_wal]: the files it creates are those of
    [recreate_wal_locked]. *)
Definition switch_journal_to_wal p (salt1 salt2 : Z) (fresh_shm : bytes) : traced PagerError Pager :=
  let! _ := create_wal le p salt1 salt2 fresh_shm in
  t_ok (set_wal p (pg_wal_pages p) None).

Definition MAX_PASSES : nat := 1000.

(** The checkpoint loop: whether some pass was complete. *)
Fixpoint checkpoint_passes (passes : nat) d (x : X) (db_path : string) (page_size : Z) : list io * result PagerError bool * X :=
  match passes with
  | O => ([], Ok false, x)
  | S passes =>
      match checkpoint_passive le d x db_path page_size with
      | (ops, Err e, x) => (ops, Err e, x)
      | (ops, Ok result, x) =>
          if checkpoint_complete result then (ops, Ok true, x)
          else let '(ops', r, x) := checkpoint_passes passes (exec_ios d ops) x db_path page_size in (ops ++ ops', r, x)
      end
  end.

Definition switch_wal_to_journal p d (x : X) : traced PagerError Pager * X :=
  let wal_path := companion_path (pg_db_path p) "-wal" in
  let shm_path := companion_path (pg_db_path p) "-shm" in
  let '(ops, complete, x) := checkpoint_passes MAX_PASSES d (drop_wal_lock x) (pg_db_path p) (pg_page_size p) in
  ((let! complete := (ops, complete) in
    if complete : bool then
      let! _ := t_emit [DeleteF wal_path; DeleteF shm_path] in
      t_ok (set_wal p ∅ None)
    else t_lift (Err CheckpointIncomplete)), x).

Definition version_bytes (mode : JournalMode) : bytes :=
  match mode with WalMode => [2; 2] | Legacy => [1; 1] end.

(** The end of [set_journal_mode]: page 1, read again, gets the version
    bytes of the new mode. *)
Definition write_mode p d (mode : JournalMode) : traced PagerError () :=
  let! page1 := t_lift (p_page (source_read p d 1)) in
  let! page1 := t_lift (patch_journal_mode_bytes page1 (version_bytes mode)) in
  let! offset := t_lift (p_page (write_page_check (pg_page_size p) 1 page1)) in
  t_emit [WriteAt (pg_db_path p) offset page1; SyncF (pg_db_path p)].

(** The trace, the result, and the pager and wal-index afterwards: the
    pager keeps the new mode even if page 1 cannot be written. *)
Definition set_journal_mode p d (x : X) (mode : JournalMode) (salt1 salt2 : Z) (fresh_shm : bytes)
  : list io * result PagerError () * Pager (L := L) * X :=
  if decide (pg_dirty p ≠ ∅ ∨ level_lt Shared (pg_tx_lock_level p)) then ([], Err PendingTransaction, p, x)
  else if decide (pg_journal_mode p = mode) then ([], Ok (), p, x)
  else
    let '(switched, x) :=
      match mode with
      | WalMode => (switch_journal_to_wal p salt1 salt2 fresh_shm, x)
      | Legacy => switch_wal_to_journal p d x
      end in
    match switched with
    | (ops, Err e) => (ops, Err e, p, x)
    | (ops, Ok p) =>
        let p := set_mode p mode in
        match write_mode p (exec_ios d ops) mode with
        | (ops', Err e) => (ops ++ ops', Err e, p, x)
        | (ops', Ok _) => (ops ++ ops', Ok (), set_cache p (PageCache_invalidate (pg_cache p) 1), x)
        end
    end.
End switch.

(** ** Reopening *)

Lemma companion_inj path s1 s2 : companion_path path s1 = companion_path path s2 → s1 = s2.
Proof. unfold companion_path. induction path as [|c path IH]; cbn; [done|]. intros Heq. injection Heq as Heq. by apply IH. Qed.

(** A database without a hot journal opens without a change to any file. *)
Lemma reopen `{FileLock L} le (d : fs) (lk : L) path ps D o b1 :
  d !! path = Some (File D []) → d !! companion_path path "-journal" = None →
  read_wal_pages le d path ps = Ok o → read_page_at D ps 1 = Ok b1 →
  ∃ q, Pager_open le d lk path ps = ([], Ok q) ∧ pg_journal_mode q = journal_mode_from_page1 b1 ∧
    pg_db_path q = path ∧ pg_page_size q = ps ∧ pg_lock q = lk ∧ pg_tx_lock_level q = Shared ∧ pg_wal_resume q = None ∧ pg_dirty q = ∅ ∧
    ∀ n, view q d n = match o !! n with Some b => Ok b | None => read_page_at D ps n end.
Proof.
  intros Hd Hj Ho H1. unfold Pager_open.
  assert (Hr : read_file d path = Some D) by (unfold read_file; by rewrite Hd).
  assert (Hrj : read_file d (companion_path path "-journal") = None) by (unfold read_file; by rewrite Hj).
  rewrite Hr, Hrj. unfold p_vfs. cbn [ok_or map_err]. rewrite t_bind_t_lift, t_bind_t_ok, Ho, t_bind_t_lift.
  rewrite Hr. unfold p_page. cbn [ok_or]. rewrite H1. cbn [map_err]. rewrite t_bind_t_lift. eexists. split; [reflexivity|]. cbn. split_and!; [done..|].
  intros n. unfold view, read_page, source_read. cbn [pg_dirty pg_wal_pages pg_db_path pg_page_size]. rewrite lookup_empty.
  destruct (o !! n); [done|]. by rewrite Hr.
Qed.

Lemma read_wal_short le (d : fs) path ps :
  (∀ bs, read_file d (companion_path path "-wal") = Some bs → zlen bs < WAL_HEADER_LEN) → read_wal_pages le d path ps = Ok ∅.
Proof.
  intros Hs. unfold read_wal_pages. destruct (read_file d _) as [bs|]; [|done]. by rewrite decide_True by (by apply Hs).
Qed.

(** ** The write of page 1 *)

Section page1.
Context (db : string) (ps : Z) (mode : JournalMode) (D b1 b1' : bytes).
Context (Hps : 512 ≤ ps ≤ 65536) (Hb1 : read_page_at D ps 1 = Ok b1).
Context (Hb1' : put_range b1 18 (version_bytes mode) = Some b1').

Lemma page1_ok : page_ok ps 1.
Proof. split; [unfold U32_MAX; lia|done]. Qed.

Lemma page1_length : zlen b1' = ps.
Proof. rewrite (put_range_length _ _ _ _ Hb1'). exact (read_page_at_length _ _ _ _ page1_ok Hb1). Qed.

Lemma page1_file : ps ≤ zlen D.
Proof. apply read_page_at_Ok in Hb1; [|apply page1_ok]. apply get_range_Some in Hb1. lia. Qed.

Lemma page1_mode : journal_mode_from_page1 b1' = mode.
Proof.
  unfold journal_mode_from_page1. assert (get_range b1' 18 20 = Some (version_bytes mode)) as ->; [|by destruct mode].
  assert (Hv : zlen (version_bytes mode) = 2) by (by destruct mode). apply (get_put_same _ _ _ _ _ Hb1'); lia.
Qed.

Definition mode_write : list io := [WriteAt db 0 b1'; SyncF db].
Definition moded : bytes := file_write_at D b1' 0.

Lemma moded_read n : page_ok ps n → n * ps ≤ zlen D → read_page_at moded ps n = if decide (n = 1) then Ok b1' else read_page_at D ps n.
Proof.
  intros Hn Hle. pose proof page1_length as Hl.
  destruct (apply_pages ps [(1, b1')] D n) as [Hin Hout].
  - apply Forall_singleton. split; [apply page1_ok|done].
  - apply NoDup_singleton.
  - done.
  - change (apply_ops D (map (replay_op ps) [(1, b1')])) with moded in *. case_decide as H1; [subst; apply Hin; by left|].
    apply Hout; [|done]. cbn [map fst]. by intros ->%list_elem_of_singleton.
Qed.

Lemma mode_write_exec (d : fs) ops1 ops2 :
  d !! db = Some (File D []) → mode_write = ops1 ++ ops2 →
  ∃ D0 pend, exec_ios d ops1 = <[db := File D0 pend]> d ∧
    ((D0, pend) = (D, []) ∨ (D0, pend) = (D, [FWrite 0 b1']) ∨ (D0, pend) = (moded, [])) ∧ (ops2 = [] → (D0, pend) = (moded, [])).
Proof.
  intros Hd Hops. unfold mode_write in Hops. destruct ops1 as [|o1 [|o2 ops1]]; cbn [app] in Hops.
  - exists D, []. split_and!; [symmetry; by apply insert_id|by left|]. intros ->. discriminate.
  - apply cons_eq_inv in Hops as [<- Hops]. exists D, [FWrite 0 b1']. split_and!; [|by right; left|intros ->; discriminate].
    cbn [exec_ios foldl exec_io]. by rewrite (alter_as_insert _ _ _ _ Hd).
  - apply cons_eq_inv in Hops as [<- Hops]. apply cons_eq_inv in Hops as [<- Hops]. symmetry in Hops. apply app_nil in Hops as [-> ->].
    exists moded, []. split_and!; [|by right; right|done].
    cbn [exec_ios foldl exec_io]. rewrite (alter_as_insert _ _ _ _ Hd), (alter_as_insert _ _ _ _ (lookup_insert_eq _ _ _)), insert_insert_eq. done.
Qed.

(** What a connection that opens the database after a crash reads. *)
Lemma mode_write_crash `{FileLock L} le (lk : L) (d d' : fs) ops1 ops2 :
  d !! db = Some (File D []) → d !! companion_path db "-journal" = None → mode_write = ops1 ++ ops2 →
  crash (exec_ios d ops1) d' →
  (∀ f bs, d !! companion_path db "-wal" = Some f → survives (durable f) (pending f) bs →
     zlen bs < WAL_HEADER_LEN ∨ ∃ h, WalHeader_ok le h ∧ wh_page_size h = ps ∧ bs = wal_image le h []) →
  ∃ q, Pager_open le d' lk db ps = ([], Ok q) ∧ (ops2 = [] → pg_journal_mode q = mode) ∧
    ∀ n, page_ok ps n → n * ps ≤ zlen D → view q d' n = read_page_at D ps n ∨ n = 1 ∧ view q d' 1 = Ok b1'.
Proof.
  intros Hd Hj Hops Hc Hwal. destruct (mode_write_exec d ops1 ops2 Hd Hops) as (D0 & pend & He & Hcase & Hend). rewrite He in Hc.
  destruct (crash_Some _ _ _ _ Hc (lookup_insert_eq _ _ _)) as (D' & Hd' & Hs). cbn [durable pending] in Hs.
  assert (HD' : (D' = D ∨ D' = moded) ∧ (ops2 = [] → D' = moded)).
  { split.
    - destruct Hcase as [[= -> ->]|[[= -> ->]|[= -> ->]]].
      + apply survives_nil_inv in Hs. by left.
      + inversion Hs as [|? ? ? ? Hs1|? ? ? ? Hs1]; subst; apply survives_nil_inv in Hs1 as ->; [by right|by left].
      + apply survives_nil_inv in Hs. by right.
    - intros Hnil. specialize (Hend Hnil). injection Hend as -> ->. by apply survives_nil_inv in Hs. }
  assert (Hj' : d' !! companion_path db "-journal" = None).
  { apply (crash_None _ _ _ Hc). by rewrite lookup_insert_ne by (apply not_eq_sym, companion_ne; done). }
  assert (Ho : read_wal_pages le d' db ps = Ok ∅).
  { assert (Hne : companion_path db "-wal" ≠ db) by (by apply companion_ne).
    destruct (d !! companion_path db "-wal") as [f|] eqn:Hf.
    - rewrite <- (lookup_insert_ne d db _ (File D0 pend)) in Hf by done. destruct (crash_Some _ _ _ _ Hc Hf) as (bs & Hbs & Hsv).
      assert (Hr : read_file d' (companion_path db "-wal") = Some bs) by (unfold read_file; by rewrite Hbs).
      destruct (Hwal f bs eq_refl Hsv) as [Hlt|(h & Hh & Hhp & ->)].
      + apply read_wal_short. rewrite Hr. by intros ? [= <-].
      + change (∅ : gmap Z bytes) with (apply_entries ∅ []). apply (read_wal_image le d' db ps h []); [done..|by left|unfold ISIZE_MAX; cbn; lia|done].
    - rewrite <- (lookup_insert_ne d db _ (File D0 pend)) in Hf by done. apply (crash_None _ _ _ Hc) in Hf.
      apply read_wal_short. unfold read_file. by rewrite Hf. }
  pose proof page1_file as Hlen.
  destruct HD' as [[->| ->] Hm].
  - destruct (reopen le d' lk db ps D ∅ b1 Hd' Hj' Ho Hb1) as (q & Hq & Hmode & _ & _ & _ & _ & _ & _ & Hv). exists q.
    split; [done|]. split; [|intros n _ _; left; by rewrite Hv, lookup_empty].
    intros Hnil. specialize (Hm Hnil). rewrite Hmode. pose proof (moded_read 1 page1_ok ltac:(lia)) as Hr.
    rewrite decide_True in Hr by done. rewrite <- Hm, Hb1 in Hr. injection Hr as Hbb. rewrite Hbb. apply page1_mode.
  - pose proof (moded_read 1 page1_ok ltac:(lia)) as Hr. rewrite decide_True in Hr by done.
    destruct (reopen le d' lk db ps moded ∅ b1' Hd' Hj' Ho Hr) as (q & Hq & Hmode & _ & _ & _ & _ & _ & _ & Hv). exists q.
    split; [done|]. split; [intros _; rewrite Hmode; apply page1_mode|].
    intros n Hn Hle. rewrite Hv, lookup_empty, (moded_read n Hn Hle). case_decide as H1; [|by left]. subst. right. split; [done|].
    by rewrite Hv, lookup_empty.
Qed.
End page1.

(** ** Both directions *)

Section proof.
Context (le : bool) `{FileLock L} `{WalIndex X} (drop_wal_lock : X → X).
Implicit Types (p q : Pager (L := L)) (d : fs).

Lemma patch_ok ps b1 mode : 512 ≤ ps → zlen b1 = ps → ∃ b1', put_range b1 18 (version_bytes mode) = Some b1'.
Proof. intros Hps Hl. apply put_range_is_Some; [lia|]. destruct mode; cbn; lia. Qed.

Lemma write_mode_trace p d mode D b1 b1' :
  512 ≤ pg_page_size p ≤ 65536 → d !! pg_db_path p = Some (File D []) → read_page_at D (pg_page_size p) 1 = Ok b1 →
  put_range b1 18 (version_bytes mode) = Some b1' →
  write_mode p d mode = (mode_write (pg_db_path p) b1', Ok ()).
Proof.
  intros Hps Hd Hb1 Hb1'. unfold write_mode, source_read, read_file. rewrite Hd. cbn [fmap option_fmap option_map ok_or].
  change (contents (File D [])) with D. rewrite Hb1. cbn [p_page map_err]. rewrite t_bind_t_lift.
  unfold patch_journal_mode_bytes. rewrite Hb1'. cbn [ok_or]. rewrite t_bind_t_lift. unfold write_page_check.
  rewrite decide_False by done. rewrite (page1_length _ _ _ _ _ Hps Hb1 Hb1'), decide_False by tauto.
  destruct (page_offset_eq (pg_page_size p) 1 (page1_ok _ Hps)) as (-> & _). reflexivity.
Qed.

Lemma read_in_file (D : bytes) (ps n : Z) b : page_ok ps n → read_page_at D ps n = Ok b → n * ps ≤ zlen D.
Proof. intros Hn Hr%read_page_at_Ok; [|done]. apply get_range_Some in Hr. lia. Qed.

(** The pager that has written the new mode to page 1 of the file [D]. *)
Lemma moded_coherent p (mode : JournalMode) (D b1 b1' : bytes) (d1 : fs) :
  512 ≤ pg_page_size p ≤ 65536 → read_page_at D (pg_page_size p) 1 = Ok b1 → put_range b1 18 (version_bytes mode) = Some b1' →
  pg_dirty p = ∅ → (∀ n b, cached (pg_cache p) n = Some b → page_ok (pg_page_size p) n ∧ read_page_at D (pg_page_size p) n = Ok b) →
  d1 !! pg_db_path p = Some (File (moded D b1') []) →
  let p' := set_cache (set_mode (set_wal p ∅ None) mode) (PageCache_invalidate (pg_cache p) 1) in
  coherent p' d1 ∧ ∀ n, page_ok (pg_page_size p) n → n * pg_page_size p ≤ zlen D →
    view p' d1 n = if decide (n = 1) then Ok b1' else read_page_at D (pg_page_size p) n.
Proof.
  intros Hps Hb1 Hb1' Hclean Hcached Hd1 p'.
  assert (Hsrc : ∀ n, source_read p' d1 n = read_page_at (moded D b1') (pg_page_size p) n).
  { intros n. unfold source_read, read_file. cbn [p' set_cache set_mode set_wal pg_db_path pg_page_size]. by rewrite Hd1. }
  assert (Hread : ∀ n, page_ok (pg_page_size p) n → n * pg_page_size p ≤ zlen D →
    source_read p' d1 n = if decide (n = 1) then Ok b1' else read_page_at D (pg_page_size p) n).
  { intros n Hn Hle. by rewrite Hsrc, (moded_read _ mode D b1 b1' Hps Hb1 Hb1' n Hn Hle). }
  split; [split|].
  - intros n b. cbn [p' set_cache set_mode set_wal pg_cache]. rewrite cached_invalidate. case_decide as Hn1; [done|]. intros Hc.
    destruct (Hcached n b Hc) as [Hn Hr]. rewrite (Hread n Hn), decide_False by (done || by eapply read_in_file). done.
  - intros n. cbn [p' set_cache set_mode set_wal pg_dirty]. rewrite Hclean, lookup_empty. by intros [].
  - intros n Hn Hle. rewrite <- (Hread n Hn Hle). unfold view, read_page. cbn [p' set_cache set_mode set_wal pg_dirty pg_wal_pages].
    by rewrite Hclean, !lookup_empty.
Qed.

(** The log at the start of the switch, no reader holding it back, and the
    wal-index before and after the pass over it.  It has frames to copy; or
    they have all been copied and the file has their pages; or it has no frame,
    because it is missing, or begun and perhaps not synced. *)
Inductive log_state d (db : string) (ps : Z) (es : list entry) (data : bytes) : X → X → Prop :=
| log_to_copy h x x1 x2 marks already :
    ckpt_ready le d db ps h es data x x1 x2 marks already → safe_frame marks (zlen es) = zlen es →
    log_state d db ps es data x (wx_release_checkpoint x2)
| log_copied h x x0 x1 marks :
    WalHeader_ok le h → wh_page_size h = ps → d !! companion_path db "-wal" = Some (File (wal_image le h es) []) →
    Forall (entry_ok ps) es → committed_log es → 0 < zlen es < 4294967296 → 32 + zlen es * (24 + ps) ≤ ISIZE_MAX →
    wx_claim_checkpoint x db = Ok x0 → wx_reader_marks x0 db = (Ok marks, x1) → safe_frame marks (zlen es) = zlen es →
    wx_read_backfill x1 db = Ok (zlen es) →
    (∀ n b, apply_entries ∅ es !! n = Some b → read_page_at data ps n = Ok b) →
    log_state d db ps es data x (wx_release_checkpoint x1)
| log_missing x :
    es = [] → d !! companion_path db "-wal" = None → log_state d db ps es data x x
| log_empty f x x0 :
    es = [] → d !! companion_path db "-wal" = Some f →
    (∀ bs, survives (durable f) (pending f) bs →
       zlen bs < WAL_HEADER_LEN ∨ ∃ h, WalHeader_ok le h ∧ wh_page_size h = ps ∧ bs = wal_image le h []) →
    wx_claim_checkpoint x db = Ok x0 → log_state d db ps es data x (wx_release_checkpoint x0).

(** A pager in WAL mode with nothing pending, which has seen every frame of
    the log, and a log in one of those states. *)
Record drain_ready p d (x : X) (es : list entry) (data : bytes) (x' : X) : Prop := {
  dr_mode : pg_journal_mode p = WalMode;
  dr_clean : pg_dirty p = ∅;
  dr_level : ¬ level_lt Shared (pg_tx_lock_level p);
  dr_overlay : pg_wal_pages p = apply_entries ∅ es;
  dr_coherent : coherent p d;
  dr_cached : ∀ n, is_Some (cached (pg_cache p) n) → page_ok (pg_page_size p) n ∧ pg_wal_pages p !! n = None;
  dr_ps : valid_page_size (pg_page_size p);
  dr_db : d !! pg_db_path p = Some (File data []);
  dr_log : log_state d (pg_db_path p) (pg_page_size p) es data (drop_wal_lock x) x';
  dr_journal : d !! companion_path (pg_db_path p) "-journal" = None;
  dr_page1 : pg_page_size p ≤ zlen data;
}.

(** The pages of the database. *)
Definition in_db p (data : bytes) (n : Z) : Prop :=
  page_ok (pg_page_size p) n ∧ (is_Some (pg_wal_pages p !! n) ∨ n * pg_page_size p ≤ zlen data).

(** What the rest of the switch needs of the passes: the trace [ck], the file
    [D'] they leave, and what a new connection reads if they are cut short. *)
Record drained_by p d (x : X) (data D' : bytes) (ck : list io) (x' : X) : Prop := {
  dn_passes : checkpoint_passes le MAX_PASSES d (drop_wal_lock x) (pg_db_path p) (pg_page_size p) = (ck, Ok true, x');
  dn_exec : exec_ios d ck = <[pg_db_path p := File D' []]> d;
  dn_read : ∀ n, in_db p data n → read_page_at D' (pg_page_size p) n = view p d n;
  dn_file : ∀ n, in_db p data n → n * pg_page_size p ≤ zlen D';
  dn_crash : ∀ (lk : L) ops1 ops2 d', ck = ops1 ++ ops2 → crash (exec_ios d ops1) d' →
    ∃ q, Pager_open le d' lk (pg_db_path p) (pg_page_size p) = ([], Ok q) ∧ ∀ n, in_db p data n → view q d' n = view p d n;
}.

Lemma complete_pass n p d (x : X) (ck : list io) r x' :
  checkpoint_passive le d (drop_wal_lock x) (pg_db_path p) (pg_page_size p) = (ck, Ok r, x') → checkpoint_complete r = true →
  checkpoint_passes le (S n) d (drop_wal_lock x) (pg_db_path p) (pg_page_size p) = (ck, Ok true, x').
Proof. intros Hc Hr. cbn [checkpoint_passes]. by rewrite Hc, Hr. Qed.

Lemma complete_passes p d (x : X) (ck : list io) r x' :
  checkpoint_passive le d (drop_wal_lock x) (pg_db_path p) (pg_page_size p) = (ck, Ok r, x') → checkpoint_complete r = true →
  checkpoint_passes le MAX_PASSES d (drop_wal_lock x) (pg_db_path p) (pg_page_size p) = (ck, Ok true, x').
Proof. exact (complete_pass 999 p d x ck r x'). Qed.

Section ready.
Context (p : Pager (L := L)) (d : fs) (x : X) (es : list entry) (data : bytes) (x' : X).
Context (R : drain_ready p d x es data x').
Notation db := (pg_db_path p) (only parsing).
Notation ps := (pg_page_size p) (only parsing).
Notation wal := (companion_path (pg_db_path p) "-wal") (only parsing).

Lemma drain_ps : 512 ≤ ps ≤ 65536.
Proof. exact (valid_page_size_bounds _ (dr_ps _ _ _ _ _ _ R)). Qed.

Lemma drain_view n : view p d n = reader_view es (zlen es) data ps n.
Proof.
  unfold view, reader_view, read_page, source_read, read_file. rewrite (dr_clean _ _ _ _ _ _ R), lookup_empty.
  rewrite (dr_overlay _ _ _ _ _ _ R), Nat2Z.id, firstn_all, (dr_db _ _ _ _ _ _ R). done.
Qed.

Lemma drain_page1 : in_db p data 1.
Proof.
  pose proof (page1_ok _ drain_ps). split; [done|]. right. pose proof (dr_page1 _ _ _ _ _ _ R). lia.
Qed.

(** A new connection that finds the log and a file with the same pages. *)
Lemma drain_reopen (lk : L) d' (D : bytes) :
  d' !! db = Some (File D []) → d' !! companion_path db "-journal" = None → ps ≤ zlen D →
  read_wal_pages le d' db ps = Ok (apply_entries ∅ es) →
  (∀ n, page_ok ps n → n * ps ≤ zlen data → reader_view es (zlen es) D ps n = view p d n) →
  ∃ q, Pager_open le d' lk db ps = ([], Ok q) ∧ ∀ n, in_db p data n → view q d' n = view p d n.
Proof.
  intros Hd' Hj HlD Ho Hread. pose proof drain_ps as Hps.
  pose proof (page_bytes_read D ps 1 (page1_ok _ Hps) ltac:(lia)) as Hp1.
  destruct (reopen le d' lk db ps D _ _ Hd' Hj Ho Hp1) as (q & Hq & _ & _ & _ & _ & _ & _ & _ & Hview). exists q. split; [done|].
  intros n [Hn Hor]. rewrite Hview. destruct (apply_entries ∅ es !! n) as [b|] eqn:E.
  - rewrite drain_view. unfold reader_view. by rewrite Nat2Z.id, firstn_all, E.
  - rewrite <- Hread; [|done|].
    + unfold reader_view. by rewrite Nat2Z.id, firstn_all, E.
    + destruct Hor as [Hs|]; [|done]. rewrite (dr_overlay _ _ _ _ _ _ R), E in Hs. by destruct Hs.
Qed.

(** *** Frames to copy *)

Section copy.
Context (h : WalHeader) (x1 x2 : X) (marks : list Z) (already : Z).
Context (C : ckpt_ready le d db ps h es data (drop_wal_lock x) x1 x2 marks already) (Hreach : safe_frame marks (zlen es) = zlen es).
Notation ck := (ckpt_trace db ps es marks) (only parsing).

Definition drained : bytes := apply_ops data (map (replay_op ps) (ckpt_writes es marks)).

Lemma copy_exec : exec_ios d ck = <[db := File drained []]> d.
Proof. exact (ckpt_exec _ _ _ _ _ _ _ _ _ _ _ _ C). Qed.

Lemma copy_read n : in_db p data n → read_page_at drained ps n = view p d n.
Proof.
  intros [Hn Hor]. rewrite drain_view.
  destruct (checkpoint_backfills le d db ps h es data _ x1 x2 marks already C) as (ops & r & data' & Hc & He & Hb & _ & _ & _ & Hr).
  rewrite (checkpoint_trace _ _ _ _ _ _ _ _ _ _ _ _ C) in Hc. injection Hc as <- <-. rewrite copy_exec in He.
  assert (data' = drained) as ->.
  { apply (f_equal (lookup db)) in He. rewrite !lookup_insert_eq in He. by injection He. }
  cbn [backfilled_frames] in *. rewrite (Hreach : safe es marks = zlen es) in Hr. apply Hr; [done|].
  rewrite Nat2Z.id, firstn_all, <- (dr_overlay _ _ _ _ _ _ R). exact Hor.
Qed.

Lemma copy_file n : in_db p data n → n * ps ≤ zlen drained.
Proof.
  intros Hn. pose proof (copy_read n Hn) as Hr. rewrite drain_view in Hr. destruct Hn as [Hn Hor].
  assert (∃ b, read_page_at drained ps n = Ok b) as [b Hb]; [|by eapply read_in_file].
  rewrite Hr. unfold reader_view. rewrite Nat2Z.id, firstn_all, <- (dr_overlay _ _ _ _ _ _ R).
  destruct (pg_wal_pages p !! n) as [b|]; [by exists b|]. destruct Hor as [[? ?]|Hle]; [done|].
  eexists. by apply page_bytes_read.
Qed.

(** During the checkpoint a new connection still reads through the log. *)
Lemma copy_crash (lk : L) ops1 ops2 d' :
  ck = ops1 ++ ops2 → crash (exec_ios d ops1) d' →
  ∃ q, Pager_open le d' lk db ps = ([], Ok q) ∧ ∀ n, in_db p data n → view q d' n = view p d n.
Proof.
  intros Hops Hc. pose proof drain_ps as Hps.
  destruct (checkpoint_crash le d db ps h es data _ x1 x2 marks already C) as (ops & r & Htr & Hcr).
  rewrite (checkpoint_trace _ _ _ _ _ _ _ _ _ _ _ _ C) in Htr. injection Htr as <- <-.
  destruct (Hcr ops1 ops2 d' Hops Hc) as (Hw & D & Hd' & Hv). cbn [backfilled_frames] in Hv.
  assert (Hj : d' !! companion_path db "-journal" = None ∧ ps ≤ zlen D).
  { destruct (ckpt_prefix _ _ _ _ _ _ _ _ _ _ _ _ C ops1 ops2 Hops) as (D0 & pend & ws & He & -> & Hsub & HD0). rewrite He in Hc. split.
    - apply (crash_None _ _ _ Hc). rewrite lookup_insert_ne by (apply not_eq_sym, companion_ne; done). exact (dr_journal _ _ _ _ _ _ R).
    - destruct (crash_Some _ _ _ _ Hc (lookup_insert_eq _ _ _)) as (D1 & HD1 & Hs). rewrite Hd' in HD1. injection HD1 as <-.
      pose proof (ckpt_writes_ok _ _ _ _ _ _ _ _ _ _ _ _ C) as Hws.
      assert (Hws' : Forall (page_write_ok ps) ws) by (rewrite Forall_forall in Hws |- *; auto).
      destruct (survives_pages ps ws D0 D Hs Hws') as [Hl _]. pose proof (dr_page1 _ _ _ _ _ _ R).
      destruct HD0 as [->|[_ ->]]; [lia|]. pose proof (copy_file 1 drain_page1) as Hf. unfold drained in Hf. lia. }
  destruct Hj as [Hj HlD]. apply (drain_reopen lk d' D Hd' Hj HlD).
  - apply (read_wal_image le d' db ps h es).
    + exact (cr_header _ _ _ _ _ _ _ _ _ _ _ _ C).
    + exact (cr_ps _ _ _ _ _ _ _ _ _ _ _ _ C).
    + exact (cr_entries _ _ _ _ _ _ _ _ _ _ _ _ C).
    + pose proof (cr_committed _ _ _ _ _ _ _ _ _ _ _ _ C) as Hcm. by rewrite Hreach, Nat2Z.id, firstn_all in Hcm.
    + exact (cr_fit _ _ _ _ _ _ _ _ _ _ _ _ C).
    + unfold read_file. by rewrite Hw, (cr_wal _ _ _ _ _ _ _ _ _ _ _ _ C).
  - intros n Hn Hle. rewrite drain_view. apply Hv; [|done|done]. change (safe es marks) with (safe_frame marks (zlen es)). rewrite Hreach. lia.
Qed.

Lemma copy_drained : drained_by p d x data drained ck (wx_release_checkpoint x2).
Proof.
  split; [|exact copy_exec|exact copy_read|exact copy_file|exact copy_crash].
  eapply complete_passes; [exact (checkpoint_trace _ _ _ _ _ _ _ _ _ _ _ _ C)|]. by apply bool_decide_true.
Qed.
End copy.

(** *** Nothing to copy *)

Lemma idle_drained r y' :
  checkpoint_passive le d (drop_wal_lock x) db ps = ([], Ok r, y') → checkpoint_complete r = true →
  (∀ n b, apply_entries ∅ es !! n = Some b → read_page_at data ps n = Ok b) →
  (∀ d', crash d d' → read_wal_pages le d' db ps = Ok (apply_entries ∅ es)) →
  drained_by p d x data data [] y'.
Proof.
  intros Hc Hr Hheld Hcrash.
  assert (Hread : ∀ n, read_page_at data ps n = view p d n).
  { intros n. rewrite drain_view. unfold reader_view. rewrite Nat2Z.id, firstn_all.
    destruct (apply_entries ∅ es !! n) as [b|] eqn:E; [by apply Hheld|done]. }
  split.
  - by eapply complete_passes.
  - symmetry. apply insert_id, (dr_db _ _ _ _ _ _ R).
  - intros n _. apply Hread.
  - intros n [Hn Hor]. destruct Hor as [Hs|]; [|done]. rewrite (dr_overlay _ _ _ _ _ _ R) in Hs. destruct Hs as [b Hb].
    eapply read_in_file; [done|]. by apply Hheld.
  - intros lk ops1 ops2 d' Hops Hd'. symmetry in Hops. apply app_nil in Hops as [-> ->].
    destruct (crash_Some _ _ _ _ Hd' (dr_db _ _ _ _ _ _ R)) as (D & HD & Hs). apply survives_nil_inv in Hs as ->.
    apply (drain_reopen lk d' data HD).
    + apply (crash_None _ _ _ Hd'), (dr_journal _ _ _ _ _ _ R).
    + apply (dr_page1 _ _ _ _ _ _ R).
    + by apply Hcrash.
    + intros n _ _. by rewrite drain_view.
Qed.

Lemma state_drained y y' :
  log_state d db ps es data y y' → y = drop_wal_lock x → ∃ D' ck, drained_by p d x data D' ck y'.
Proof.
  pose proof idle_drained as Hidle.
  intros [h y0 x1 x2 marks already C Hreach|h y0 x0 x1 marks Hh Hp Hw Hes Hcm Hn Hfit Hclaim Hmarks Hreach Hback Hheld|y0 Hnil Hw|f y0 x0 Hnil Hw Hf Hclaim] ->.
  - eexists _, _. by eapply copy_drained.
  - exists data, []. apply (Hidle {| backfilled_frames := zlen es; total_frames := zlen es; checkpoint_complete := true |}); [|done|exact Hheld|].
    + rewrite (checkpoint_caught_up le d db ps h es _ x0 x1 marks (zlen es)) by (done || lia). by rewrite bool_decide_true.
    + intros d' Hd'. destruct (crash_Some _ _ _ _ Hd' Hw) as (D & HD & Hs). apply survives_nil_inv in Hs as ->.
      apply (read_wal_image le d' db ps h es); try done. unfold read_file. by rewrite HD.
  - exists data, []. apply (Hidle nothing_to_do); [|done| |].
    + unfold checkpoint_passive, read_file. by rewrite Hw.
    + rewrite Hnil. intros n b. cbn. by rewrite lookup_empty.
    + intros d' Hd'. rewrite Hnil. apply read_wal_short. unfold read_file. by rewrite (crash_None _ _ _ Hd' Hw).
  - exists data, []. apply (Hidle nothing_to_do); [|done| |].
    + eapply checkpoint_no_frames; [|apply (Hf (contents f)), survives_all|done]. unfold read_file. by rewrite Hw.
    + rewrite Hnil. intros n b. cbn. by rewrite lookup_empty.
    + intros d' Hd'. destruct f as [D ops]. destruct (crash_Some _ _ _ _ Hd' Hw) as (D' & HD' & Hs).
      assert (Hr : read_file d' wal = Some D') by (unfold read_file; by rewrite HD'). rewrite Hnil.
      destruct (Hf D' Hs) as [Hlt|(h & Hh & Hp & ->)].
      * apply read_wal_short. rewrite Hr. by intros ? [= <-].
      * apply (read_wal_image le d' db ps h []); [done..|by left|unfold ISIZE_MAX; cbn; lia|done].
Qed.

Lemma ready_drained : ∃ D' ck, drained_by p d x data D' ck x'.
Proof. by eapply state_drained; [exact (dr_log _ _ _ _ _ _ R)|]. Qed.
End ready.

Section drain.
Context (p : Pager (L := L)) (d : fs) (x : X) (es : list entry) (data : bytes) (x' : X) (D' : bytes) (ck : list io).
Context (R : drain_ready p d x es data x') (N : drained_by p d x data D' ck x').
Notation db := (pg_db_path p) (only parsing).
Notation ps := (pg_page_size p) (only parsing).
Notation wal := (companion_path (pg_db_path p) "-wal") (only parsing).
Notation shm := (companion_path (pg_db_path p) "-shm") (only parsing).

Lemma drain_b1 : ∃ b1 b1', view p d 1 = Ok b1 ∧ read_page_at D' ps 1 = Ok b1 ∧ put_range b1 18 (version_bytes Legacy) = Some b1'.
Proof.
  pose proof (drain_ps _ _ _ _ _ _ R) as Hps. pose proof (dn_file _ _ _ _ _ _ _ N 1 (drain_page1 _ _ _ _ _ _ R)) as Hle.
  pose proof (page_bytes_read D' ps 1 (page1_ok _ Hps) Hle) as Hb.
  destruct (patch_ok ps (page_bytes D' ps 1) Legacy ltac:(lia) (page_bytes_length D' ps 1 (page1_ok _ Hps) Hle)) as [b1' Hb1'].
  exists (page_bytes D' ps 1), b1'. split_and!; [|done|done]. by rewrite <- (dn_read _ _ _ _ _ _ _ N 1 (drain_page1 _ _ _ _ _ _ R)).
Qed.

Lemma shm_wal : shm ≠ wal.
Proof. intros Heq%companion_inj. discriminate. Qed.

(** The database once the log is deleted; then once the index is. *)
Lemma drain_deleted (d1 : fs) l :
  exec_ios d (ck ++ l) = d1 → l = [DeleteF wal] ∨ l = [DeleteF wal; DeleteF shm] →
  d1 !! db = Some (File D' []) ∧ d1 !! wal = None ∧ d1 !! companion_path db "-journal" = None.
Proof.
  intros <- Hl. rewrite exec_ios_app, (dn_exec _ _ _ _ _ _ _ N).
  assert (Hj : <[db:=File D' []]> d !! companion_path db "-journal" = None).
  { rewrite lookup_insert_ne by (apply not_eq_sym, companion_ne; done). exact (dr_journal _ _ _ _ _ _ R). }
  assert (Hw : db ≠ wal) by (apply not_eq_sym, companion_ne; done). assert (Hs : db ≠ shm) by (apply not_eq_sym, companion_ne; done).
  destruct Hl as [->| ->]; cbn [exec_ios foldl exec_io].
  - split_and!; [by rewrite lookup_delete_ne, lookup_insert_eq by done|apply lookup_delete_eq|].
    rewrite lookup_delete_ne by (intros E%companion_inj; discriminate). exact Hj.
  - split_and!; [by rewrite !lookup_delete_ne, lookup_insert_eq by done| |].
    + rewrite lookup_delete_ne by exact shm_wal. apply lookup_delete_eq.
    + rewrite !lookup_delete_ne by (intros E%companion_inj; discriminate). exact Hj.
Qed.

(** The pager after the switch. *)
Definition legacy_pager : Pager (L := L) :=
  set_cache (set_mode (set_wal p ∅ None) Legacy) (PageCache_invalidate (pg_cache p) 1).

Lemma drain_switch b1 b1' s1 s2 fresh_shm :
  read_page_at D' ps 1 = Ok b1 → put_range b1 18 (version_bytes Legacy) = Some b1' →
  set_journal_mode le drop_wal_lock p d x Legacy s1 s2 fresh_shm =
    (ck ++ [DeleteF wal; DeleteF shm] ++ mode_write db b1', Ok (), legacy_pager, x').
Proof.
  intros Hb1 Hb1'. unfold set_journal_mode. rewrite decide_False; [|intros [Hd|Hl]; [by destruct Hd; exact (dr_clean _ _ _ _ _ _ R)|by apply (dr_level _ _ _ _ _ _ R)]].
  rewrite decide_False by (rewrite (dr_mode _ _ _ _ _ _ R); done). unfold switch_wal_to_journal.
  rewrite (dn_passes _ _ _ _ _ _ _ N). cbn [t_bind t_emit t_ok]. rewrite app_nil_r.
  destruct (drain_deleted (exec_ios d (ck ++ [DeleteF wal; DeleteF shm])) _ eq_refl ltac:(by right)) as (Hd & _ & _).
  rewrite (write_mode_trace (set_mode (set_wal p ∅ None) Legacy) _ Legacy D' b1 b1' (drain_ps _ _ _ _ _ _ R) Hd Hb1 Hb1').
  by rewrite <- (assoc_L (++)).
Qed.

(** After the log is gone a new connection reads the D' file. *)
Lemma drain_crash_late (lk : L) b1 b1' (d1 d' : fs) l l' ops2 :
  read_page_at D' ps 1 = Ok b1 → put_range b1 18 (version_bytes Legacy) = Some b1' →
  l = [DeleteF wal] ∨ l = [DeleteF wal; DeleteF shm] → mode_write db b1' = l' ++ ops2 → crash (exec_ios d (ck ++ l ++ l')) d' →
  ∃ q, Pager_open le d' lk db ps = ([], Ok q) ∧ (ops2 = [] → pg_journal_mode q = Legacy) ∧
    ∀ n, in_db p data n → view q d' n = view p d n ∨ n = 1 ∧ view q d' 1 = Ok b1'.
Proof.
  intros Hb1 Hb1' Hl Hops Hc. destruct (drain_deleted _ l eq_refl Hl) as (Hd & Hw & Hj).
  rewrite (assoc_L (++)), exec_ios_app in Hc.
  destruct (mode_write_crash db ps Legacy D' b1 b1' (drain_ps _ _ _ _ _ _ R) Hb1 Hb1' le lk _ d' l' ops2 Hd Hj Hops Hc) as (q & Hq & Hm & Hv).
  { intros f bs Hf. by rewrite Hw in Hf. }
  exists q. split_and!; [done|done|]. intros n Hn. rewrite <- (dn_read _ _ _ _ _ _ _ N n Hn). apply Hv; [apply Hn|by apply (dn_file _ _ _ _ _ _ _ N)].
Qed.

(** What is left of the trace after a prefix of it. *)
Lemma drain_trace_cases b1' ops1 ops2 :
  ck ++ [DeleteF wal; DeleteF shm] ++ mode_write db b1' = ops1 ++ ops2 →
  (∃ l, ck = ops1 ++ l ∧ ops2 ≠ []) ∨
  ∃ l l', ops1 = ck ++ l ++ l' ∧ (l = [DeleteF wal] ∧ l' = [] ∧ ops2 ≠ [] ∨ l = [DeleteF wal; DeleteF shm] ∧ mode_write db b1' = l' ++ ops2).
Proof.
  intros Hops. apply app_eq_app in Hops as (l & [[-> Heq]|[-> Heq]]).
  - left. exists l. split; [done|]. intros ->. symmetry in Heq. apply app_nil in Heq as [_ Heq]. discriminate.
  - destruct l as [|o1 [|o2 l]]; cbn [app] in Heq.
    + left. exists []. rewrite !app_nil_r. split; [done|]. intros ->. discriminate.
    + apply cons_eq_inv in Heq as [<- Heq]. right. exists [DeleteF wal], []. split; [done|]. left. split_and!; [done|done|]. intros ->. discriminate.
    + apply cons_eq_inv in Heq as [<- Heq]. apply cons_eq_inv in Heq as [<- Heq]. right. exists [DeleteF wal; DeleteF shm], l. split; [done|]. by right.
Qed.

Lemma drain_coherent b1 b1' :
  read_page_at D' ps 1 = Ok b1 → put_range b1 18 (version_bytes Legacy) = Some b1' →
  ∀ d1, d1 !! db = Some (File (moded D' b1') []) →
  coherent legacy_pager d1 ∧ ∀ n, in_db p data n → view legacy_pager d1 n = if decide (n = 1) then Ok b1' else view p d n.
Proof.
  intros Hb1 Hb1' d1 Hd1.
  destruct (moded_coherent p Legacy D' b1 b1' d1 (drain_ps _ _ _ _ _ _ R) Hb1 Hb1' (dr_clean _ _ _ _ _ _ R)) as [Hco Hv]; [|done|].
  - intros n b Hc. destruct (dr_cached _ _ _ _ _ _ R n ltac:(eauto)) as [Hn Hno]. split; [done|].
    pose proof (dr_coherent _ _ _ _ _ _ R) as [Hco _]. specialize (Hco n b Hc).
    rewrite (dn_read _ _ _ _ _ _ _ N); [unfold view; rewrite (dr_clean _ _ _ _ _ _ R), lookup_empty; unfold read_page; by rewrite Hno|].
    split; [done|]. right. unfold source_read, read_file in Hco. rewrite (dr_db _ _ _ _ _ _ R) in Hco. by eapply read_in_file.
  - split; [exact Hco|]. intros n Hn. unfold legacy_pager. rewrite (Hv n (proj1 Hn) (dn_file _ _ _ _ _ _ _ N n Hn)), (dn_read _ _ _ _ _ _ _ N n Hn). done.
Qed.
End drain.

(** ** Into WAL mode *)

(** A pager in the rollback-journal mode with nothing pending, and no log. *)
Record enter_ready p d (data : bytes) (s1 s2 : Z) : Prop := {
  er_mode : pg_journal_mode p = Legacy;
  er_clean : pg_dirty p = ∅;
  er_level : ¬ level_lt Shared (pg_tx_lock_level p);
  er_overlay : pg_wal_pages p = ∅;
  er_coherent : coherent p d;
  er_cached : ∀ n, is_Some (cached (pg_cache p) n) → page_ok (pg_page_size p) n;
  er_ps : valid_page_size (pg_page_size p);
  er_salts : u32_ok s1 ∧ u32_ok (Z.lxor s2 0x5A5A5A5A);
  er_db : d !! pg_db_path p = Some (File data []);
  er_wal : d !! companion_path (pg_db_path p) "-wal" = None;
  er_journal : d !! companion_path (pg_db_path p) "-journal" = None;
  er_page1 : pg_page_size p ≤ zlen data;
}.

Section enter.
Context (p : Pager (L := L)) (d : fs) (data : bytes) (s1 s2 : Z) (fresh_shm : bytes).
Context (R : enter_ready p d data s1 s2).
Notation db := (pg_db_path p) (only parsing).
Notation ps := (pg_page_size p) (only parsing).
Notation wal := (companion_path (pg_db_path p) "-wal") (only parsing).
Notation shm := (companion_path (pg_db_path p) "-shm") (only parsing).

Definition new_header : WalHeader := WalHeader_new le true ps s1 (Z.lxor s2 0x5A5A5A5A) 1.
Definition enter_trace : list io :=
  [CreateOrOpen wal; WriteAt wal 0 (WalHeader_serialize new_header);
   CreateOrOpen shm; WriteAt shm 0 fresh_shm; SyncF shm].

Lemma enter_ps : 512 ≤ ps ≤ 65536.
Proof. exact (valid_page_size_bounds _ (er_ps _ _ _ _ _ R)). Qed.

Lemma enter_header : WalHeader_ok le new_header.
Proof. destruct (er_salts _ _ _ _ _ R). apply WalHeader_new_ok; [apply (er_ps _ _ _ _ _ R)|done|done|unfold u32_ok; lia]. Qed.

(** The log while it is being created. *)
Definition wal_created (f : option file) : Prop :=
  f = None ∨ f = Some (File [] []) ∨ f = Some (File [] [FWrite 0 (WalHeader_serialize new_header)]).

Lemma exec_shm (d1 : fs) op (q : string) : op = CreateOrOpen shm ∨ op = WriteAt shm 0 fresh_shm ∨ op = SyncF shm → q ≠ shm → exec_io d1 op !! q = d1 !! q.
Proof.
  intros Hop Hq. destruct Hop as [->|[->| ->]]; cbn [exec_io].
  - destruct (d1 !! shm); [done|]. by rewrite lookup_insert_ne.
  - by rewrite lookup_alter_ne.
  - by rewrite lookup_alter_ne.
Qed.

Lemma enter_prefix l l2 (q : string) :
  enter_trace = l ++ l2 → q ≠ wal → q ≠ shm → exec_ios d l !! q = d !! q ∧ wal_created (exec_ios d l !! wal) ∧
    (l2 = [] → exec_ios d l !! wal = Some (File [] [FWrite 0 (WalHeader_serialize new_header)])).
Proof.
  intros Hops Hw Hs. pose proof (er_wal _ _ _ _ _ R) as Hnone. unfold enter_trace in Hops.
  assert (Hws : wal ≠ shm) by (intros E%companion_inj; discriminate).
  assert (H1 : exec_ios d [CreateOrOpen wal] = <[wal := File [] []]> d) by (cbn [exec_ios foldl exec_io]; by rewrite Hnone).
  set (w := WriteAt wal 0 (WalHeader_serialize new_header)) in *.
  assert (H2 : exec_ios d [CreateOrOpen wal; w] = <[wal := File [] [FWrite 0 (WalHeader_serialize new_header)]]> d).
  { change (exec_ios d [CreateOrOpen wal; w]) with (exec_io (exec_ios d [CreateOrOpen wal]) w). rewrite H1. unfold w. cbn [exec_io].
    by rewrite (alter_as_insert _ _ _ _ (lookup_insert_eq _ _ _)), insert_insert_eq. }
  assert (Hrest : ∀ r, Forall (λ op, op = CreateOrOpen shm ∨ op = WriteAt shm 0 fresh_shm ∨ op = SyncF shm) r →
    ∀ d1 (q : string), q ≠ shm → exec_ios d1 r !! q = d1 !! q).
  { induction 1 as [|op r Hop _ IH]; intros d1 q' Hq'; [done|]. cbn [exec_ios foldl]. etrans; [by apply IH|]. by apply exec_shm. }
  destruct l as [|o1 [|o2 l]]; cbn [app] in Hops.
  - split_and!; [done|left; exact Hnone|]. intros ->. discriminate.
  - apply cons_eq_inv in Hops as [<- Hops]. rewrite H1. split_and!; [by rewrite lookup_insert_ne|right; left; apply lookup_insert_eq|].
    intros ->. discriminate.
  - apply cons_eq_inv in Hops as [<- Hops]. apply cons_eq_inv in Hops as [<- Hops].
    change (CreateOrOpen wal :: w :: l) with ([CreateOrOpen wal; w] ++ l). rewrite exec_ios_app, H2.
    assert (Hl : Forall (λ op, op = CreateOrOpen shm ∨ op = WriteAt shm 0 fresh_shm ∨ op = SyncF shm) l).
    { assert (Hall : Forall (λ op, op = CreateOrOpen shm ∨ op = WriteAt shm 0 fresh_shm ∨ op = SyncF shm) (l ++ l2)) by (rewrite <- Hops; repeat constructor; auto).
      by apply Forall_app in Hall as [? _]. }
    rewrite !(Hrest l Hl) by done. split_and!; [by rewrite lookup_insert_ne|right; right; apply lookup_insert_eq|intros _; apply lookup_insert_eq].
Qed.

Lemma created_short f bs :
  wal_created (Some f) → survives (durable f) (pending f) bs →
  zlen bs < WAL_HEADER_LEN ∨ ∃ h, WalHeader_ok le h ∧ wh_page_size h = ps ∧ bs = wal_image le h [].
Proof.
  intros [Hf|[[= ->]|[= ->]]] Hs; [done| |]; cbn [durable pending] in Hs.
  - apply survives_nil_inv in Hs as ->. left. cbn. unfold WAL_HEADER_LEN. lia.
  - inversion Hs as [|? ? ? ? Hs1|? ? ? ? Hs1]; subst; apply survives_nil_inv in Hs1 as ->.
    + right. exists new_header. split_and!; [apply enter_header|done|]. cbn [apply_op].
      rewrite file_write_at_whole; [unfold wal_image; cbn [entries_bytes]; by rewrite app_nil_r|cbn; lia|cbn; vm_compute; congruence].
    + left. cbn. unfold WAL_HEADER_LEN. lia.
Qed.

(** The pager after the switch. *)
Definition wal_pager : Pager (L := L) :=
  set_cache (set_mode (set_wal p (pg_wal_pages p) None) WalMode) (PageCache_invalidate (pg_cache p) 1).

Lemma enter_b1 : ∃ b1 b1', read_page_at data ps 1 = Ok b1 ∧ put_range b1 18 (version_bytes WalMode) = Some b1'.
Proof.
  pose proof enter_ps as Hps. pose proof (er_page1 _ _ _ _ _ R) as Hle.
  destruct (patch_ok ps (page_bytes data ps 1) WalMode) as [b1' Hb1']; [lia|apply page_bytes_length; [by apply page1_ok|lia]|].
  exists (page_bytes data ps 1), b1'. split; [|done]. apply page_bytes_read; [by apply page1_ok|lia].
Qed.

Lemma enter_files l l2 : enter_trace = l ++ l2 →
  exec_ios d l !! db = Some (File data []) ∧ exec_ios d l !! companion_path db "-journal" = None ∧ wal_created (exec_ios d l !! wal).
Proof.
  intros Hl. destruct (enter_prefix l l2 db Hl) as (Hd & Hw & _); [by apply not_eq_sym, companion_ne..|].
  destruct (enter_prefix l l2 (companion_path db "-journal") Hl) as (Hj & _ & _); [intros E%companion_inj; discriminate..|].
  rewrite Hd, Hj. split_and!; [apply (er_db _ _ _ _ _ R)|apply (er_journal _ _ _ _ _ R)|done].
Qed.

Lemma enter_switch (x : X) b1 b1' :
  read_page_at data ps 1 = Ok b1 → put_range b1 18 (version_bytes WalMode) = Some b1' →
  set_journal_mode le drop_wal_lock p d x WalMode s1 s2 fresh_shm = (enter_trace ++ mode_write db b1', Ok (), wal_pager, x).
Proof.
  intros Hb1 Hb1'. unfold set_journal_mode.
  rewrite decide_False; [|intros [Hd|Hl]; [by destruct Hd; exact (er_clean _ _ _ _ _ R)|by apply (er_level _ _ _ _ _ R)]].
  rewrite decide_False by (rewrite (er_mode _ _ _ _ _ R); done).
  change (switch_journal_to_wal le p s1 s2 fresh_shm) with (enter_trace, Ok (E := PagerError) (set_wal p (pg_wal_pages p) None)).
  destruct (enter_files enter_trace [] ltac:(by rewrite app_nil_r)) as (Hd & _ & _).
  by rewrite (write_mode_trace (set_mode (set_wal p (pg_wal_pages p) None) WalMode) _ WalMode data b1 b1' enter_ps Hd Hb1 Hb1').
Qed.
End enter.

(** C4: Leaving WAL mode loses nothing.  Take a log whose frames are all valid
    and committed, all seen by this connection and held back by no reader,
    whether it has frames left to copy, has none left, or has no frame at all
    (missing, shorter than its header, a header not yet synced).
    [set_journal_mode] copies what is left, deletes the log and succeeds; the
    pager then reads every page of the database as before, page 1 apart, which
    has got the version bytes of the new mode, and its cache is still that of
    the file.  Crash the machine anywhere on the way, losing any subset of the
    unsynced writes: the database opens without recovery, and every page
    reads as before, page 1 with the old or with the new version bytes. *)
Theorem leave_wal_crash_safe p d (x : X) es data x' s1 s2 fresh_shm (R : drain_ready p d x es data x') :
  ∃ ops p' b1 b1', set_journal_mode le drop_wal_lock p d x Legacy s1 s2 fresh_shm = (ops, Ok (), p', x') ∧
    view p d 1 = Ok b1 ∧ put_range b1 18 [1; 1] = Some b1' ∧
    pg_journal_mode p' = Legacy ∧ coherent p' (exec_ios d ops) ∧
    exec_ios d ops !! companion_path (pg_db_path p) "-wal" = None ∧
    (∀ n, in_db p data n → view p' (exec_ios d ops) n = if decide (n = 1) then Ok b1' else view p d n) ∧
    ∀ ops1 ops2 d' lk, ops = ops1 ++ ops2 → crash (exec_ios d ops1) d' →
      ∃ q, Pager_open le d' lk (pg_db_path p) (pg_page_size p) = ([], Ok q) ∧ (ops2 = [] → pg_journal_mode q = Legacy) ∧
        ∀ n, in_db p data n → view q d' n = view p d n ∨ n = 1 ∧ view q d' 1 = Ok b1'.
Proof.
  destruct (ready_drained _ _ _ _ _ _ R) as (D' & ck & N). pose proof (drain_ps _ _ _ _ _ _ R) as Hps.
  destruct (drain_b1 _ _ _ _ _ _ _ _ R N) as (b1 & b1' & Hv & Hb1 & Hb1').
  destruct (drain_deleted _ _ _ _ _ _ _ _ R N _ [DeleteF (companion_path (pg_db_path p) "-wal"); DeleteF (companion_path (pg_db_path p) "-shm")]
    eq_refl ltac:(by right)) as (Hd & Hw & _).
  destruct (mode_write_exec (pg_db_path p) D' b1' _ (mode_write (pg_db_path p) b1') [] Hd ltac:(by rewrite app_nil_r))
    as (D0 & pend & He & _ & Hend). specialize (Hend eq_refl). injection Hend as -> ->.
  eexists _, _, b1, b1'. split; [by apply (drain_switch _ _ _ _ _ _ _ _ R N b1 b1')|]. split; [done|]. split; [done|]. split; [done|].
  rewrite (assoc_L (++)), exec_ios_app, He. match type of Hd with ?d1 !! _ = _ => set (dd := d1) in * end.
  destruct (drain_coherent _ _ _ _ _ _ _ _ R N b1 b1' Hb1 Hb1' (<[pg_db_path p := File (moded D' b1') []]> dd)
    (lookup_insert_eq _ _ _)) as [Hco Hview]. split; [exact Hco|]. split.
  { rewrite lookup_insert_ne by (apply not_eq_sym, companion_ne; done). exact Hw. }
  split; [exact Hview|]. intros ops1 ops2 d' lk Hops Hc. rewrite <- (assoc_L (++)) in Hops.
  destruct (drain_trace_cases _ _ _ _ _ _ _ N _ _ _ Hops) as [(l & Hl & Hne)|(l & l' & -> & Hl)].
  - destruct (dn_crash _ _ _ _ _ _ _ N lk ops1 l d' Hl Hc) as (q & Hq & Hqv). exists q. split_and!; [done|done|].
    intros n Hn. left. by apply Hqv.
  - destruct Hl as [(-> & -> & Hne)|[-> Hl]].
    + destruct (drain_crash_late _ _ _ _ _ _ _ _ R N lk b1 b1' d d' _ [] _ Hb1 Hb1' ltac:(by left) eq_refl Hc) as (q & Hq & _ & Hqv).
      exists q. split_and!; [done|done|exact Hqv].
    + exact (drain_crash_late _ _ _ _ _ _ _ _ R N lk b1 b1' d d' _ l' ops2 Hb1 Hb1' ltac:(by right) Hl Hc).
Qed.

(** Entering WAL mode loses nothing either. *)
Theorem enter_wal_crash_safe p d (x : X) data s1 s2 fresh_shm (R : enter_ready p d data s1 s2) :
  ∃ ops p' b1 b1', set_journal_mode le drop_wal_lock p d x WalMode s1 s2 fresh_shm = (ops, Ok (), p', x) ∧
    view p d 1 = Ok b1 ∧ put_range b1 18 [2; 2] = Some b1' ∧
    pg_journal_mode p' = WalMode ∧ coherent p' (exec_ios d ops) ∧
    (∀ n, in_db p data n → view p' (exec_ios d ops) n = if decide (n = 1) then Ok b1' else view p d n) ∧
    ∀ ops1 ops2 d' lk, ops = ops1 ++ ops2 → crash (exec_ios d ops1) d' →
      ∃ q, Pager_open le d' lk (pg_db_path p) (pg_page_size p) = ([], Ok q) ∧ (ops2 = [] → pg_journal_mode q = WalMode) ∧
        ∀ n, in_db p data n → view q d' n = view p d n ∨ n = 1 ∧ view q d' 1 = Ok b1'.
Proof.
  pose proof (enter_ps _ _ _ _ _ R) as Hps. destruct (enter_b1 _ _ _ _ _ R) as (b1 & b1' & Hb1 & Hb1').
  assert (Hview : ∀ n, in_db p data n → n * pg_page_size p ≤ zlen data ∧ view p d n = read_page_at data (pg_page_size p) n).
  { intros n [Hn Hor]. rewrite (er_overlay _ _ _ _ _ R), lookup_empty in Hor. split; [by destruct Hor as [[? ?]|]|].
    unfold view, read_page, source_read, read_file. by rewrite (er_clean _ _ _ _ _ R), (er_overlay _ _ _ _ _ R), !lookup_empty, (er_db _ _ _ _ _ R). }
  assert (H1 : in_db p data 1).
  { split; [by apply page1_ok|]. right. pose proof (er_page1 _ _ _ _ _ R). lia. }
  destruct (enter_files p d data s1 s2 fresh_shm R (enter_trace p s1 s2 fresh_shm) [] ltac:(by rewrite app_nil_r)) as (Hd & Hj & Hw).
  destruct (mode_write_exec (pg_db_path p) data b1' _ (mode_write (pg_db_path p) b1') [] Hd ltac:(by rewrite app_nil_r))
    as (D0 & pend & He & _ & Hend). specialize (Hend eq_refl). injection Hend as -> ->.
  exists (enter_trace p s1 s2 fresh_shm ++ mode_write (pg_db_path p) b1'), (wal_pager p), b1, b1'.
  split; [by eapply (enter_switch p d data s1 s2 fresh_shm R)|]. split; [by rewrite (proj2 (Hview 1 H1))|]. split; [done|]. split; [done|].
  rewrite exec_ios_app, He. match type of Hd with ?d1 !! _ = _ => set (dd := d1) in * end.
  unfold wal_pager. rewrite (er_overlay _ _ _ _ _ R).
  destruct (moded_coherent p WalMode data b1 b1' (<[pg_db_path p := File (moded data b1') []]> dd) Hps Hb1 Hb1' (er_clean _ _ _ _ _ R)) as [Hco Hv];
    [|apply lookup_insert_eq|].
  { intros n b Hc. split; [apply (er_cached _ _ _ _ _ R); eauto|]. pose proof (er_coherent _ _ _ _ _ R) as [Hco _].
    specialize (Hco n b Hc). unfold source_read, read_file in Hco. by rewrite (er_db _ _ _ _ _ R) in Hco. }
  split; [exact Hco|]. split.
  { intros n Hn. destruct (Hview n Hn) as [Hle ->]. by apply Hv; [apply Hn|]. }
  intros ops1 ops2 d' lk Hops Hc.
  assert (Hcase : ∃ l l' l2, enter_trace p s1 s2 fresh_shm = l ++ l2 ∧ ops1 = l ++ l' ∧ ∃ o, mode_write (pg_db_path p) b1' = l' ++ o ∧ (ops2 = [] → o = [])).
  { apply app_eq_app in Hops as (l & [[Hl Heq]|[-> Heq]]).
    - exists ops1, [], l. split_and!; [done|by rewrite app_nil_r|]. eexists. split; [reflexivity|]. intros ->. symmetry in Heq. by apply app_nil in Heq as [_ Heq].
    - exists (enter_trace p s1 s2 fresh_shm), l, []. split_and!; [by rewrite app_nil_r|done|]. eauto. }
  destruct Hcase as (l & l' & l2 & Hl & -> & o & Ho & Hnil). rewrite exec_ios_app in Hc.
  destruct (enter_files p d data s1 s2 fresh_shm R l l2 Hl) as (Hdl & Hjl & Hwl).
  destruct (mode_write_crash (pg_db_path p) (pg_page_size p) WalMode data b1 b1' Hps Hb1 Hb1' le lk _ d' l' o Hdl Hjl Ho Hc) as (q & Hq & Hm & Hqv).
  { intros f bs Hf Hs. rewrite Hf in Hwl. by apply (created_short p d data s1 s2 R f). }
  exists q. split; [done|]. split; [intros Hn; by apply Hm, Hnil|]. intros n Hn. destruct (Hview n Hn) as [Hle ->]. by apply Hqv; [apply Hn|].
Qed.

Lemma Pager_read_page_cache p d n : ∃ c, (Pager_read_page p d n).2 = set_cache p c.
Proof.
  unfold Pager_read_page. destruct (pg_dirty p !! n); [exists (pg_cache p); by rewrite set_cache_id|].
  destruct (pg_wal_pages p !! n); [exists (pg_cache p); by rewrite set_cache_id|].
  destruct (PageCache_get _ _) as [[b|] c]; [by exists c|]. destruct (evict_one_if_full c) as [v c']. destruct (source_read p d n); eauto.
Qed.

(** A log without a header refuses every commit. *)
Lemma empty_log_refuses q d m nonce t1 t2 shm :
  pg_journal_mode q = WalMode → pg_tx_lock_level q = Shared → pg_wal_resume q = None →
  read_file d (companion_path (pg_db_path q) "-wal") = Some [] → m ≠ ∅ →
  ∃ e q', flush le (set_dirty q m) d nonce t1 t2 shm = ([], Err e, q').
Proof.
  intros Hm Hl Hr Hw Hne. unfold flush. rewrite decide_False by done. rewrite decide_True by done. unfold flush_wal_locked.
  destruct (Pager_read_page_cache (set_dirty q m) d 1) as [c Hc]. destruct (Pager_read_page (set_dirty q m) d 1) as [page1 p1].
  cbn [snd] in Hc. subst p1. cbn [set_dirty set_cache pg_db_path pg_page_size pg_wal_resume].
  assert (Ho : ∀ ps, WalWriter_open_existing le d (companion_path (pg_db_path q) "-wal") ps (pg_wal_resume q) = Err (WalHeaderTooShort 0)).
  { intros ps. unfold WalWriter_open_existing. rewrite Hw, Hr. reflexivity. }
  assert (Hrel : ∀ c, release_tx_lock (set_cache (set_dirty q m) c) = (Ok (), set_cache (set_dirty q m) c)).
  { intros c0. unfold release_tx_lock. cbn [set_cache set_dirty pg_tx_lock_level]. rewrite Hl. by rewrite decide_False by (unfold level_lt; lia). }
  destruct page1 as [page1|e]; cbn [p_page map_err]; [|unfold t_lift, t_bind; rewrite Hrel; eauto].
  rewrite t_bind_t_lift. destruct (read_be_u32 page1 PAGE_COUNT_OFFSET) as [pc|e]; cbn [p_free map_err]; [|unfold t_lift, t_bind; rewrite Hrel; eauto].
  rewrite t_bind_t_lift, Ho. unfold t_lift, t_bind. rewrite Hrel. eauto.
Qed.

(** C35: The switch into WAL mode is not durable.  It syncs the index and the
    database file, but never the new log: a crash after [set_journal_mode]
    has returned can leave a database that is in WAL mode with an empty log.
    It opens, and reads as before, and every commit on it fails. *)
Theorem enter_wal_unsynced_stuck p d (x : X) data s1 s2 fresh_shm (R : enter_ready p d data s1 s2) :
  ∃ ops p' d', set_journal_mode le drop_wal_lock p d x WalMode s1 s2 fresh_shm = (ops, Ok (), p', x) ∧
    crash (exec_ios d ops) d' ∧
    ∀ lk, ∃ q, Pager_open le d' lk (pg_db_path p) (pg_page_size p) = ([], Ok q) ∧ pg_journal_mode q = WalMode ∧
      (∀ n, in_db p data n → n ≠ 1 → view q d' n = view p d n) ∧
      ∀ m nonce t1 t2 shm, m ≠ ∅ → ∃ e q', flush le (set_dirty q m) d' nonce t1 t2 shm = ([], Err e, q').
Proof.
  pose proof (enter_ps _ _ _ _ _ R) as Hps. destruct (enter_b1 _ _ _ _ _ R) as (b1 & b1' & Hb1 & Hb1').
  destruct (enter_files p d data s1 s2 fresh_shm R (enter_trace p s1 s2 fresh_shm) [] ltac:(by rewrite app_nil_r)) as (Hd & Hj & _).
  destruct (enter_prefix p d data s1 s2 fresh_shm R (enter_trace p s1 s2 fresh_shm) [] (pg_db_path p) ltac:(by rewrite app_nil_r))
    as (_ & _ & Hw); [by apply not_eq_sym, companion_ne..|]. specialize (Hw eq_refl).
  destruct (mode_write_exec (pg_db_path p) data b1' _ (mode_write (pg_db_path p) b1') [] Hd ltac:(by rewrite app_nil_r))
    as (D0 & pend & He & _ & Hend). specialize (Hend eq_refl). injection Hend as -> ->.
  set (dd := exec_ios d (enter_trace p s1 s2 fresh_shm)) in *. set (wal := companion_path (pg_db_path p) "-wal") in *.
  set (df := <[pg_db_path p := File (moded data b1') []]> dd) in *.
  assert (Hwdb : wal ≠ pg_db_path p) by (by apply companion_ne). assert (Hwf : df !! wal = dd !! wal) by (by apply lookup_insert_ne).
  set (d' := <[wal := File [] []]> ((λ f, File (contents f) []) <$> df)).
  assert (Hother : ∀ path, path ≠ wal → d' !! path = (λ f, File (contents f) []) <$> df !! path).
  { intros path Hp. unfold d'. by rewrite lookup_insert_ne, lookup_fmap by done. }
  eexists _, _, d'. split; [by eapply (enter_switch p d data s1 s2 fresh_shm R)|]. rewrite exec_ios_app. fold dd. rewrite He. fold df. split.
  { intros path. destruct (decide (path = wal)) as [->|Hp].
    - rewrite Hwf, Hw. unfold d'. rewrite lookup_insert_eq. cbn [durable pending]. split; [apply survives_lose, survives_nil|done].
    - rewrite (Hother path Hp). destruct (df !! path) as [f|]; cbn; [|done]. split; [apply survives_all|done]. }
  intros lk. destruct (reopen le d' lk (pg_db_path p) (pg_page_size p) (moded data b1') ∅ b1') as (q & Hq & Hm & Hpath & _ & _ & Hl & Hr & _ & Hv).
  - rewrite Hother by done. unfold df. by rewrite lookup_insert_eq.
  - rewrite Hother by (intros E%companion_inj; discriminate). unfold df. rewrite lookup_insert_ne by (apply not_eq_sym, companion_ne; done). by rewrite Hj.
  - apply read_wal_short. intros bs. unfold read_file, d'. fold wal. rewrite lookup_insert_eq. cbn. intros [= <-]. unfold WAL_HEADER_LEN. cbn. lia.
  - pose proof (er_page1 _ _ _ _ _ R). by rewrite (moded_read _ WalMode data b1 b1' Hps Hb1 Hb1' 1 (page1_ok _ Hps) ltac:(lia)), decide_True.
  - exists q. split; [done|]. assert (Hmode : pg_journal_mode q = WalMode) by (rewrite Hm; by eapply page1_mode).
    split_and!; [done| |].
    + intros n [Hn Hor] H1. rewrite (er_overlay _ _ _ _ _ R), lookup_empty in Hor. destruct Hor as [[? ?]|Hle]; [done|].
      rewrite Hv, lookup_empty, (moded_read _ WalMode data b1 b1' Hps Hb1 Hb1' n Hn Hle), decide_False by done.
      unfold view, read_page, source_read, read_file. by rewrite (er_clean _ _ _ _ _ R), (er_overlay _ _ _ _ _ R), !lookup_empty, (er_db _ _ _ _ _ R).
    + intros m nonce t1 t2 shm Hne. apply empty_log_refuses; try done. rewrite Hpath. fold wal. unfold read_file, d'. by rewrite lookup_insert_eq.
Qed.
End proof.

(** ** Examples *)

(** The log of [Checkpoint]'s example, as its own pager sees it. *)
Definition example_wal_pager : Pager (L := ()) :=
  set_mode (set_wal (example_pager SyncFull ∅) (apply_entries ∅ ckpt_example_log) None) WalMode.

Lemma example_uncached n : cached (PageCache_new 8) n = None.
Proof. unfold cached. cbn. by rewrite lookup_empty. Qed.

Lemma example_drain_ready :
  drain_ready (X := ()) true (λ x, x) example_wal_pager ckpt_example_fs () ckpt_example_log (new_empty_page1 512) ().
Proof.
  split.
  - reflexivity.
  - reflexivity.
  - cbn. unfold level_lt. cbn. lia.
  - reflexivity.
  - split; intros n; cbn [example_wal_pager set_mode set_wal pg_cache pg_dirty example_pager]; [|done]. by rewrite example_uncached.
  - intros n. cbn [example_wal_pager set_mode set_wal pg_cache example_pager]. rewrite example_uncached. by intros [].
  - apply (bool_decide_unpack _). vm_compute. exact I.
  - apply (cr_db _ _ _ _ _ _ _ _ _ _ _ _ ckpt_example_ready).
  - change (log_state true ckpt_example_fs "db" 512 ckpt_example_log (new_empty_page1 512) () (wx_release_checkpoint (S := ()) ())).
    eapply log_to_copy; [exact ckpt_example_ready|reflexivity].
  - vm_compute. reflexivity.
  - vm_compute. congruence.
Qed.

(** The same database whose log was only begun. *)
Definition begun_fs : fs :=
  {["db" := File (new_empty_page1 512) []; "db-wal" := File [] [FWrite 0 (wal_image true wal_example_header [])]]}.

Lemma begun_drain_ready :
  drain_ready (X := ()) true (λ x, x) (set_mode (example_pager SyncFull ∅) WalMode) begun_fs () [] (new_empty_page1 512) ().
Proof.
  split.
  - reflexivity.
  - reflexivity.
  - cbn. unfold level_lt. cbn. lia.
  - reflexivity.
  - split; intros n; cbn [set_mode pg_cache pg_dirty example_pager]; [|done]. by rewrite example_uncached.
  - intros n. cbn [set_mode pg_cache example_pager]. rewrite example_uncached. by intros [].
  - apply (bool_decide_unpack _). vm_compute. exact I.
  - unfold begun_fs. apply lookup_insert_eq.
  - change (log_state true begun_fs "db" 512 [] (new_empty_page1 512) () (wx_release_checkpoint (S := ()) ())).
    apply (log_empty true _ _ _ _ _ (File [] [FWrite 0 (wal_image true wal_example_header [])])); [done| | |reflexivity].
    + unfold begun_fs. change (companion_path _ "-wal") with "db-wal". by rewrite lookup_insert_ne, lookup_singleton_eq.
    + intros bs Hs. cbn [durable pending] in Hs. inversion Hs as [|? ? ? ? Hs1|? ? ? ? Hs1]; subst; apply survives_nil_inv in Hs1 as ->.
      * right. exists wal_example_header. split; [exact wal_example_header_ok|]. split; [reflexivity|]. vm_compute. reflexivity.
      * left. vm_compute. reflexivity.
  - vm_compute. reflexivity.
  - vm_compute. congruence.
Qed.

Lemma leave_wal_crash_safe_witness :
  (∃ ops p', set_journal_mode true (λ x, x) example_wal_pager ckpt_example_fs () Legacy 1 2 [] = (ops, Ok (), p', ()) ∧
     pg_journal_mode p' = Legacy ∧ exec_ios ckpt_example_fs ops !! "db-wal" = None) ∧
  ∃ ops p', set_journal_mode true (λ x, x) (set_mode (example_pager SyncFull ∅) WalMode) begun_fs () Legacy 1 2 [] = (ops, Ok (), p', ()) ∧
    pg_journal_mode p' = Legacy ∧ exec_ios begun_fs ops !! "db-wal" = None.
Proof.
  split.
  - destruct (leave_wal_crash_safe true (λ x, x) example_wal_pager ckpt_example_fs () ckpt_example_log (new_empty_page1 512) ()
      1 2 [] example_drain_ready) as (ops & p' & b1 & b1' & Hs & _ & _ & Hm & _ & Hw & _).
    exists ops, p'. split; [exact Hs|]. split; [exact Hm|exact Hw].
  - destruct (leave_wal_crash_safe true (λ x, x) (set_mode (example_pager SyncFull ∅) WalMode) begun_fs () [] (new_empty_page1 512) ()
      1 2 [] begun_drain_ready) as (ops & p' & b1 & b1' & Hs & _ & _ & Hm & _ & Hw & _).
    exists ops, p'. split; [exact Hs|]. split; [exact Hm|exact Hw].
Defined.

Lemma example_enter_ready : enter_ready (example_pager SyncFull ∅) example_fs (new_empty_page1 512) 1 2.
Proof.
  split; cbn [example_pager pg_journal_mode pg_dirty pg_wal_pages pg_page_size pg_db_path pg_tx_lock_level].
  - reflexivity.
  - reflexivity.
  - unfold level_lt. cbn. lia.
  - reflexivity.
  - apply example_coherent.
  - intros n. cbn [pg_cache example_pager]. rewrite example_uncached. by intros [].
  - apply (bool_decide_unpack _). vm_compute. exact I.
  - split; apply (bool_decide_unpack _); vm_compute; exact I.
  - apply lookup_singleton_eq.
  - vm_compute. reflexivity.
  - vm_compute. reflexivity.
  - vm_compute. congruence.
Qed.

Lemma enter_wal_unsynced_stuck_witness :
  ∃ ops p' d', set_journal_mode (X := ()) true (λ x, x) (example_pager SyncFull ∅) example_fs () WalMode 1 2 [] = (ops, Ok (), p', ()) ∧
    crash (exec_ios example_fs ops) d' ∧
    ∃ q, Pager_open true d' () "db" 512 = ([], Ok q) ∧
      ∃ e q', flush true (set_dirty q {[1 := zeros 512]}) d' 7 1 2 [] = ([], Err e, q').
Proof.
  destruct (enter_wal_unsynced_stuck (X := ()) true (λ x, x) (example_pager SyncFull ∅) example_fs () (new_empty_page1 512) 1 2 []
    example_enter_ready) as (ops & p' & d' & Hs & Hc & Hq).
  destruct (Hq ()) as (q & Ho & _ & _ & Hf). exists ops, p', d'. split; [exact Hs|]. split; [exact Hc|]. exists q. split; [exact Ho|].
  apply Hf. discriminate.
Defined.
