(* ===== verification/WalRace.v ===== *)
(** * Two writers of one log

    [flush_wal_locked] takes the write lock for the commit only, and resumes
    the log where it ends; whether the log has grown since the transaction
    began to read is not asked.  So a transaction may be committed that was
    computed from pages another connection has changed meanwhile. *)

From S2P Require Import Prelude Vfs Header Wal PageCache Lock Pager Commit WalCommit.

Section race.
Context (le : bool) `{FileLock L}.
Implicit Types (p q : Pager (L := L)) (d : fs).

(** With page 1 dirty a commit does not depend on the overlay. *)
Lemma flush_wal_overlay p o d s1 s2 fresh_shm b ops q' q1 :
  pg_dirty p !! 1 = Some b → pg_wal_resume p = None →
  flush_wal_locked le (set_wal p o None) d s1 s2 fresh_shm = ((ops, Ok q'), q1) →
  ∃ q, flush_wal_locked le p d s1 s2 fresh_shm = ((ops, Ok q), p) ∧ pg_wal_pages q = pg_dirty p ∪ pg_wal_pages p.
Proof.
  intros Hd Hr. unfold flush_wal_locked, Pager_read_page. cbn [set_wal pg_dirty pg_wal_pages pg_cache pg_db_path pg_page_size pg_wal_resume pg_synchronous].
  rewrite Hd, Hr. cbn [p_page map_err]. rewrite !t_bind_t_lift.
  destruct (read_be_u32 b PAGE_COUNT_OFFSET) as [pc|e]; cbn [p_free map_err]; [|by intros [= ]]. rewrite !t_bind_t_lift.
  change (create_wal le (set_wal p o None) s1 s2 fresh_shm) with (create_wal le p s1 s2 fresh_shm).
  change (pg_page_size (set_wal p o None)) with (pg_page_size p).
  change (pg_wal_resume (set_wal p o None)) with (@None WalResumeHint).
  change (pg_synchronous (set_wal p o None)) with (pg_synchronous p).
  match goal with |- context [t_bind ?m _] => destruct m as [o1 [w|e]] end; [|by intros [= ]].
  rewrite !t_bind_Ok.
  change (dirty_pages (set_wal p o None)) with (dirty_pages p).
  change (append_dirty le (set_wal p o None) w (dirty_pages p) pc) with (append_dirty le p w (dirty_pages p) pc).
  match goal with |- context [t_bind ?m _] => destruct m as [o2 [w2|e]] end; [|by intros [= ]].
  rewrite !t_bind_Ok. intros [= <- _ _]. eexists. split; [reflexivity|done].
Qed.

(** A pager that began before a commit, as its log is after it. *)
Lemma race_ready p1 p2 d h es pc1 pc2 :
  wal_ready le p1 d h es pc1 → wal_ready le p2 d h es pc2 →
  pg_db_path p2 = pg_db_path p1 → pg_page_size p2 = pg_page_size p1 → is_Some (pg_dirty p2 !! 1) →
  32 + zlen ((es ++ dirty_entries p1 pc1) ++ dirty_entries p2 pc2) * (24 + pg_page_size p1) ≤ ISIZE_MAX →
  wal_ready le (set_wal p2 (apply_entries ∅ (es ++ dirty_entries p1 pc1)) None)
    (wal_file le p1 d h (es ++ dirty_entries p1 pc1)) h (es ++ dirty_entries p1 pc1) pc2.
Proof.
  intros R1 R2 Hdb Hps [b Hb] Hfit. assert (Hw : wal_path p2 = wal_path p1) by (unfold wal_path; by rewrite Hdb).
  assert (Hsrc : ∀ n, source_read p2 (wal_file le p1 d h (es ++ dirty_entries p1 pc1)) n = source_read p2 d n).
  { intros n. unfold source_read, read_file, wal_file. rewrite lookup_insert_ne; [done|]. unfold wal_path. rewrite Hdb. by apply companion_ne. }
  split.
  - exact (wr_header _ _ _ _ _ _ R1).
  - exact (wr_ps _ _ _ _ _ _ R2).
  - change (wal_path (set_wal p2 _ None)) with (wal_path p2). rewrite Hw. apply lookup_insert_eq.
  - by apply (new_log_committed le p1 d h es pc1).
  - cbn [set_wal pg_page_size]. rewrite Hps. apply Forall_app. split; [exact (wr_entries _ _ _ _ _ _ R1)|].
    pose proof (new_entries_ok le p1 d h es pc1 R1) as Hn. by rewrite (wr_ps _ _ _ _ _ _ R1) in Hn.
  - done.
  - by left.
  - destruct (wr_coherent _ _ _ _ _ _ R2) as [Hc Hd]. split; [|exact Hd]. intros n c Hn.
    change (source_read (set_wal p2 _ None) ?d n) with (source_read p2 d n). rewrite Hsrc. by apply Hc.
  - destruct (wr_page1 _ _ _ _ _ _ R2) as (b1 & Hv & Hpc). unfold view in *. rewrite Hb in Hv. injection Hv as <-.
    exists b. unfold view. cbn [set_wal pg_dirty]. by rewrite Hb.
  - exact (wr_pc _ _ _ _ _ _ R2).
  - exact (wr_dirty _ _ _ _ _ _ R2).
  - exact (wr_some _ _ _ _ _ _ R2).
  - cbn [set_wal pg_page_size]. rewrite Hps. exact Hfit.
Qed.

(** C32: WAL commits can lose an update.  Two connections begin from the same
    log; the first commits, and the second, which has not seen that commit,
    commits too (for its first time, with page 1 among its changes: it
    allocated or freed a page).  Both commits succeed, and from then on every reader of the log
    sees, for each page both changed, the version of the second, which was
    computed from what the page held before the first commit; the second
    connection itself goes on without the first one's changes. *)
Theorem wal_lost_update p1 p2 d h es pc1 pc2 s1 s2 s3 s4 shm1 shm2
    (R1 : wal_ready le p1 d h es pc1) (R2 : wal_ready le p2 d h es pc2)
    (Hdb : pg_db_path p2 = pg_db_path p1) (Hps : pg_page_size p2 = pg_page_size p1)
    (Hsync1 : pg_synchronous p1 = SyncFull) (Hsync2 : pg_synchronous p2 = SyncFull)
    (Hhint : pg_wal_resume p2 = None) (Hpage1 : is_Some (pg_dirty p2 !! 1))
    (Hfit : 32 + zlen ((es ++ dirty_entries p1 pc1) ++ dirty_entries p2 pc2) * (24 + pg_page_size p1) ≤ ISIZE_MAX) :
  ∃ ops1 q1 p1' ops2 q2, flush_wal_locked le p1 d s1 s2 shm1 = ((ops1, Ok q1), p1') ∧
    flush_wal_locked le p2 (exec_ios d ops1) s3 s4 shm2 = ((ops2, Ok q2), p2) ∧
    (∀ n, view p2 (exec_ios d ops1) n = view p2 d n) ∧
    pg_wal_pages q2 = pg_dirty p2 ∪ pg_wal_pages p2 ∧
    read_wal_pages le (exec_ios (exec_ios d ops1) ops2) (pg_db_path p1) (pg_page_size p1)
      = Ok (pg_dirty p2 ∪ (pg_dirty p1 ∪ pg_wal_pages p1)).
Proof.
  destruct (flush_wal_trace le p1 d h es pc1 R1 s1 s2 shm1 Hsync1) as (p1' & hint & _ & _ & Hf1).
  pose proof (race_ready p1 p2 d h es pc1 pc2 R1 R2 Hdb Hps Hpage1 Hfit) as R.
  destruct (flush_wal_trace le _ _ h _ pc2 R s3 s4 shm2 Hsync2) as (p2' & hint2 & _ & _ & Hf2).
  destruct Hpage1 as [b Hb]. rewrite <- (wal_exec_trace le p1 d h es pc1 R1) in Hf2.
  destruct (flush_wal_overlay p2 _ _ s3 s4 shm2 b _ _ _ Hb Hhint Hf2) as (q2 & Hq2 & Hw2).
  eexists _, _, _, _, _. split; [exact Hf1|]. split; [exact Hq2|]. split; [|split; [exact Hw2|]].
  - intros n. unfold view, read_page, source_read, read_file. rewrite (wal_exec_trace le p1 d h es pc1 R1). unfold wal_file.
    rewrite lookup_insert_ne; [done|]. unfold wal_path. rewrite Hdb. by apply companion_ne.
  - assert (Hnew : apply_entries ∅ ((es ++ dirty_entries p1 pc1) ++ dirty_entries p2 pc2) = pg_dirty p2 ∪ (pg_dirty p1 ∪ pg_wal_pages p1)).
    { rewrite (wr_overlay _ _ _ _ _ _ R1), <- (apply_dirty p1 pc1), <- (apply_dirty p2 pc2). unfold apply_entries. by rewrite !foldl_app. }
    rewrite <- Hnew. rewrite (wal_exec_trace le p1 d h es pc1 R1).
    pose proof (wal_exec_trace le _ _ h _ pc2 R) as He.
    apply (read_wal_image le _ _ _ h); [exact (wr_header _ _ _ _ _ _ R1)|exact (wr_ps _ _ _ _ _ _ R1)| | |exact Hfit|].
    + apply Forall_app. pose proof (wr_entries _ _ _ _ _ _ R) as Ho. cbn [set_wal pg_page_size] in Ho. rewrite Hps in Ho. split; [exact Ho|].
      pose proof (new_entries_ok le _ _ h _ pc2 R) as Hn. rewrite (wr_ps _ _ _ _ _ _ R1) in Hn. exact Hn.
    + exact (new_log_committed le _ _ h _ pc2 R).
    + unfold read_file. rewrite He. unfold wal_file at 1. change (wal_path (set_wal p2 _ None)) with (wal_path p2).
      replace (companion_path (pg_db_path p1) "-wal") with (wal_path p2) by (unfold wal_path; by rewrite Hdb).
      by rewrite lookup_insert_eq.
Qed.
End race.

(** Two connections that both extend the database by page 2. *)
Definition example_writer (b : bytes) : Pager (L := ()) :=
  set_dirty (wal_example_pager SyncFull) {[1 := new_empty_page1 512; 2 := b]}.

Lemma example_writer_ready b : zlen b = 512 → wal_ready true (example_writer b) wal_example_fs wal_example_header [] 1.
Proof.
  intros Hb. destruct (wal_example_ready SyncFull) as [H1 H2 H3 H4 H5 H6 H7 H8 H9 H10 H11 H12 H13].
  split; [exact H1|exact H2|exact H3|exact H4|exact H5|exact H6|exact H7| | |exact H10| | |].
  - split; [intros n c Hn; revert Hn; unfold cached; cbn; by rewrite lookup_empty|].
    intros n _. unfold cached. cbn. by rewrite lookup_empty.
  - exists (new_empty_page1 512). unfold view. cbn [example_writer set_dirty pg_dirty]. rewrite lookup_insert_eq. split; reflexivity.
  - cbn [example_writer set_dirty pg_dirty pg_page_size wal_example_pager]. intros n c Hn. apply lookup_insert_Some in Hn as [[<- <-]|[_ Hn]].
    + split; [unfold u32_ok; lia|reflexivity].
    + apply lookup_singleton_Some in Hn as [<- <-]. split; [unfold u32_ok; lia|done].
  - cbn [example_writer set_dirty pg_dirty]. apply insert_non_empty.
  - assert (Hl : zlen (dirty_entries (example_writer b) 1) = 2).
    { transitivity (zlen (map (λ e : entry, e.1.1) (dirty_entries (example_writer b) 1))); [by rewrite length_map|].
      rewrite dirty_entries_keys. unfold dirty_pages. rewrite merge_sort_Permutation. cbn [example_writer set_dirty pg_dirty].
      rewrite length_fmap, length_map_to_list, map_size_insert_None by (by rewrite lookup_singleton_ne). by rewrite map_size_singleton. }
    cbn [app]. rewrite Hl. vm_compute. congruence.
Qed.

Lemma wal_lost_update_witness :
  ∃ ops1 q1 p1' ops2 q2 overlay,
    flush_wal_locked true (example_writer (zeros 512)) wal_example_fs 3 4 [] = ((ops1, Ok q1), p1') ∧
    flush_wal_locked true (example_writer (repeat 1 512)) (exec_ios wal_example_fs ops1) 5 6 [] = ((ops2, Ok q2), example_writer (repeat 1 512)) ∧
    read_wal_pages true (exec_ios (exec_ios wal_example_fs ops1) ops2) "db" 512 = Ok overlay ∧ overlay !! 2 = Some (repeat 1 512).
Proof.
  destruct (wal_lost_update true (example_writer (zeros 512)) (example_writer (repeat 1 512)) wal_example_fs wal_example_header [] 1 1 3 4 5 6 [] []
    (example_writer_ready (zeros 512) eq_refl) (example_writer_ready (repeat 1 512) eq_refl)) as (ops1 & q1 & p1' & ops2 & q2 & H1 & H2 & _ & _ & Hr).
  - reflexivity.
  - reflexivity.
  - reflexivity.
  - reflexivity.
  - reflexivity.
  - exists (new_empty_page1 512). apply lookup_insert_eq.
  - vm_compute. congruence.
  - eexists ops1, q1, p1', ops2, q2, _. split; [exact H1|]. split; [exact H2|]. split; [exact Hr|]. vm_compute. reflexivity.
Defined.
