(* ===== verification/BtreePage.v ===== *)
(** * B-tree pages ([row/btree/mod.rs], [row/btree/index.rs])

    The byte layout of table and index b-tree pages: page headers, the
    cell-pointer array, cell heads and the local payload size, the readers
    that collect the cells of a page, and the writers that rebuild a page
    from its cells.  Functions over [&mut [u8]] are state transformers of the
    buffer, which keeps what was written before an error. *)

From S2P Require Import Prelude Varint Text Record Vfs Freelist Pager.

Inductive BtreeError : Type :=
| InvalidKeyRecord (source : RecordError)
| BPageSource (page_num : Z) (source : PageError)
| BPageTooShort (page_num len : Z)
| CursorNotPositioned (operation required : string)
| UnexpectedPageType (page_num page_type : Z)
| InvalidCellPointer (page_num index : Z)
| InvalidCellVarint (page_num : Z) (source : RecordError)
| PayloadTooShort (page_num : Z)
| PayloadTooLarge (page_num payload_len : Z)
| OverflowChainTooLong (page_num max : Z)
| OverflowChainCycle (page_num revisited_page : Z)
| OverflowChainTruncated (page_num : Z)
| TraversalTooLong (max : Z)
| BPager (source : PagerError)
| DuplicateRowid (rowid : Z)
| MissingChildRoute (page_num child : Z)
| RowidNotFound (rowid : Z)
| DuplicateKey
| KeyNotFound
| InvalidRootPage (name : list Z) (rootpage : Z)
| MasterEntryNotFound (name : list Z)
| BInternal (msg : string).

Definition LEAF_TABLE : Z := 0x0d.
Definition INTERIOR_TABLE : Z := 0x05.
Definition LEAF_INDEX : Z := 0x0a.
Definition INTERIOR_INDEX : Z := 0x02.
Definition MAX_PAYLOAD_LEN : Z := 2147483647.
Definition MAX_PAGES_VISITED : Z := 1000000.
Definition MIN_FREEBLOCK_SIZE : Z := 4.
Definition MAX_FREEBLOCKS : Z := 10000.

(** ** Field readers *)

Definition page1_header_start (page_num : Z) : Z := if decide (page_num = 1) then 100 else 0.

Definition read_page_type (page : bytes) (header_start page_num : Z) : result BtreeError Z :=
  ok_or (get_byte page header_start) (BPageTooShort page_num (zlen page)).

Definition read_num_cells (page : bytes) (header_start page_num : Z) : result BtreeError Z :=
  ok_or (be_val <$> get_range page (sat_add header_start 3) (sat_add header_start 5))
        (BPageTooShort page_num (zlen page)).

Definition require_interior_header (page : bytes) (header_start page_num : Z)
  : result BtreeError () :=
  if decide (zlen page < sat_add header_start 12) then Err (BPageTooShort page_num (zlen page))
  else Ok ().

Definition read_u32 (page : bytes) (offset page_num : Z) : result BtreeError Z :=
  ok_or (read_be 4 page offset) (BPageTooShort page_num (zlen page)).

Definition read_u16 (page : bytes) (offset page_num : Z) : result BtreeError Z :=
  ok_or (read_be 2 page offset) (BPageTooShort page_num (zlen page)).

Definition read_cell_pointer (page : bytes) (ptr_off page_num cell_index : Z)
  : result BtreeError Z :=
  ok_or (read_be 2 page ptr_off) (InvalidCellPointer page_num cell_index).

Definition cell_ptr_offset (base i : Z) : Z := sat_add base (sat_mul i 2).

Definition read_content_start (page : bytes) (header_start page_num : Z) : result BtreeError Z :=
  let? v := read_u16 page (sat_add header_start 5) page_num in
  Ok (if decide (v = 0) then 65536 else v).

Definition read_first_freeblock (page : bytes) (header_start page_num : Z)
  : result BtreeError Z := read_u16 page (sat_add header_start 1) page_num.

Definition read_fragmented_bytes (page : bytes) (header_start page_num : Z)
  : result BtreeError Z :=
  ok_or (get_byte page (sat_add header_start 7)) (BPageTooShort page_num (zlen page)).

(** ** Cells *)

(** Head of a table leaf cell: [(rowid, payload_len, tail_start)]. *)
Definition decode_cell_head (page : bytes) (cell_start page_num : Z)
  : result BtreeError (Z * Z * Z) :=
  let? cell := ok_or (get_from page cell_start) (InvalidCellPointer page_num cell_start) in
  let? pn := map_err (InvalidCellVarint page_num) (decode_varint cell) in
  let? rest := ok_or (get_from cell pn.2) (PayloadTooShort page_num) in
  let? rn := map_err (InvalidCellVarint page_num) (decode_varint rest) in
  Ok (as_i64 rn.1, pn.1, sat_add (sat_add cell_start pn.2) rn.2).

(** Head of an index value cell: [(payload_len, tail_start)]. *)
Definition decode_payload_len (page : bytes) (offset page_num : Z) : result BtreeError (Z * Z) :=
  let? cell := ok_or (get_from page offset) (InvalidCellPointer page_num offset) in
  let? pn := map_err (InvalidCellVarint page_num) (decode_varint cell) in
  Ok (pn.1, sat_add offset pn.2).

(** [u32::saturating_sub] agrees with [sat_sub] on [u32] operands. *)
Definition local_payload_size (usable_size payload_len : Z) (is_index : bool) : Z :=
  let max_local :=
    if is_index then sat_sub (sat_mul (sat_sub usable_size 12) 64 / 255) 23
    else sat_sub usable_size 35 in
  if decide (payload_len ≤ max_local) then payload_len
  else
    let min_local := sat_sub (sat_mul (sat_sub usable_size 12) 32 / 255) 23 in
    let denom := Z.max (sat_sub usable_size 4) 1 in
    let k := sat_add min_local (sat_sub payload_len min_local mod denom) in
    if decide (k ≤ max_local) then k else min_local.

(** Where the cell whose payload starts at [tail_start] ends: the local
    payload and, with an overflow chain, its 4-byte page number. *)
Definition cell_end (usable_size payload_len tail_start : Z) (is_index : bool) : Z :=
  let local_size := local_payload_size usable_size payload_len is_index in
  let has_overflow := bool_decide (local_size < payload_len) in
  sat_add (sat_add tail_start local_size) (if has_overflow then 4 else 0).

Definition first_overflow_page (buf : bytes) (tail_start payload_len usable_size page_num : Z)
    (is_index : bool) : result BtreeError (option Z) :=
  let local_size := local_payload_size usable_size payload_len is_index in
  if decide (local_size < payload_len) then
    let? n := read_u32 buf (sat_add tail_start local_size) page_num in Ok (Some n)
  else Ok None.

(** ** Collecting the cells of a page *)

(** The loop [for i in i..i+n] of [collect_leaf_cells]. *)
Fixpoint collect_leaf_loop (n : nat) (i : Z) (buf : bytes) (ptr_base page_num usable_size : Z)
  : result BtreeError (list (Z * bytes)) :=
  match n with
  | O => Ok []
  | S n =>
      let? cell_start := read_cell_pointer buf (cell_ptr_offset ptr_base i) page_num i in
      let? h := decode_cell_head buf cell_start page_num in
      let '(rowid, payload_len, tail_start) := h in
      let? cell_bytes := ok_or (get_range buf cell_start (cell_end usable_size payload_len tail_start false))
                               (PayloadTooShort page_num) in
      let? out := collect_leaf_loop n (i + 1) buf ptr_base page_num usable_size in
      Ok ((rowid, cell_bytes) :: out)
  end.

Definition collect_leaf_cells (buf : bytes) (header_start page_num usable_size : Z)
  : result BtreeError (list (Z * bytes)) :=
  let? num_cells := read_num_cells buf header_start page_num in
  collect_leaf_loop (Z.to_nat num_cells) 0 buf (sat_add header_start 8) page_num usable_size.

(** [scan_leaf_cells]: [(insert_pos, num_cells, total_bytes)]. *)
Fixpoint scan_leaf_loop (n : nat) (i : Z) (buf : bytes) (ptr_base page_num usable_size rowid num_cells : Z)
    (insert_pos total_bytes : Z) : result BtreeError (Z * Z) :=
  match n with
  | O => Ok (insert_pos, total_bytes)
  | S n =>
      let? cell_start := read_cell_pointer buf (cell_ptr_offset ptr_base i) page_num i in
      let? h := decode_cell_head buf cell_start page_num in
      let '(cell_rowid, payload_len, tail_start) := h in
      if decide (cell_rowid = rowid) then Err (DuplicateRowid rowid)
      else
        let insert_pos :=
          if decide (rowid < cell_rowid ∧ insert_pos = num_cells) then i else insert_pos in
        let e := cell_end usable_size payload_len tail_start false in
        if decide (zlen buf < e) then Err (PayloadTooShort page_num)
        else scan_leaf_loop n (i + 1) buf ptr_base page_num usable_size rowid num_cells
               insert_pos (sat_add total_bytes (sat_sub e cell_start))
  end.

Definition scan_leaf_cells (buf : bytes) (header_start page_num usable_size rowid : Z)
  : result BtreeError (Z * Z * Z) :=
  let? num_cells := read_num_cells buf header_start page_num in
  let? r := scan_leaf_loop (Z.to_nat num_cells) 0 buf (sat_add header_start 8) page_num
              usable_size rowid num_cells num_cells 0 in
  Ok (r.1, num_cells, r.2).

(** [find_leaf_cell]: [(pos, num_cells, overflow_page)]. *)
Fixpoint find_leaf_loop (n : nat) (i : Z) (buf : bytes) (ptr_base page_num usable_size rowid : Z)
  : result BtreeError (option (Z * Z)) :=
  match n with
  | O => Ok None
  | S n =>
      let? cell_start := read_cell_pointer buf (cell_ptr_offset ptr_base i) page_num i in
      let? h := decode_cell_head buf cell_start page_num in
      let '(cell_rowid, payload_len, tail_start) := h in
      if decide (cell_rowid ≠ rowid)
      then find_leaf_loop n (i + 1) buf ptr_base page_num usable_size rowid
      else
        let local_size := local_payload_size usable_size payload_len false in
        let? overflow_page :=
          (if decide (local_size < payload_len)
           then read_u32 buf (sat_add tail_start local_size) page_num else Ok 0) in
        Ok (Some (i, overflow_page))
  end.

Definition find_leaf_cell (buf : bytes) (header_start page_num usable_size rowid : Z)
  : result BtreeError (option (Z * Z * Z)) :=
  let? num_cells := read_num_cells buf header_start page_num in
  let? r := find_leaf_loop (Z.to_nat num_cells) 0 buf (sat_add header_start 8) page_num
              usable_size rowid in
  Ok (match r with Some (i, o) => Some (i, num_cells, o) | None => None end).

Fixpoint collect_interior_loop (n : nat) (i : Z) (buf : bytes) (ptr_base page_num : Z)
  : result BtreeError (list (Z * Z)) :=
  match n with
  | O => Ok []
  | S n =>
      let? cell_start := read_cell_pointer buf (cell_ptr_offset ptr_base i) page_num i in
      let? child := read_u32 buf cell_start page_num in
      let? rest := ok_or (get_from buf (sat_add cell_start 4)) (PayloadTooShort page_num) in
      let? kn := map_err (InvalidCellVarint page_num) (decode_varint rest) in
      let? out := collect_interior_loop n (i + 1) buf ptr_base page_num in
      Ok ((child, as_i64 kn.1) :: out)
  end.

Definition collect_interior_entries (buf : bytes) (header_start page_num : Z)
  : result BtreeError (list (Z * Z) * Z) :=
  let? num_cells := read_num_cells buf header_start page_num in
  let? out := collect_interior_loop (Z.to_nat num_cells) 0 buf (sat_add header_start 12) page_num in
  let? rightmost := read_u32 buf (sat_add header_start 8) page_num in
  Ok (out, rightmost).

Definition build_interior_cell (child key : Z) : bytes :=
  be_bytes 4 child ++ encode_varint (wrap64 key).

Definition cell_bytes {K} (cells : list (K * bytes)) : list bytes := map snd cells.

(** ** Writing pages

    A function on [&mut [u8]]: the buffer afterwards and the result. *)

Definition buf_op (A : Type) : Type := bytes → bytes * result BtreeError A.
Definition b_ok {A} (a : A) : buf_op A := λ buf, (buf, Ok a).
Definition b_get {A} (f : bytes → result BtreeError A) : buf_op A := λ buf, (buf, f buf).
Definition b_bind {A B} (m : buf_op A) (k : A → buf_op B) : buf_op B := λ buf,
  match m buf with
  | (buf, Ok a) => k a buf
  | (buf, Err e) => (buf, Err e)
  end.
Notation "'let&' p := m 'in' k" := (b_bind m (λ p, k))
  (at level 10, p strict pattern, m at level 100, k at level 200,
   format "'[v' 'let&'  p  :=  m  'in' '/' k ']'") : dbs_scope.

Definition bt_put (offset : Z) (bs : bytes) (page_num : Z) : buf_op () := λ buf,
  match put_range buf offset bs with
  | Some buf => (buf, Ok ())
  | None => (buf, Err (BPageTooShort page_num (zlen buf)))
  end.

Definition put_u8 (offset value page_num : Z) : buf_op () := bt_put offset [value] page_num.

Definition write_u16 (offset value page_num : Z) : buf_op () :=
  bt_put offset (be_bytes 2 (wrap16 value)) page_num.

Definition write_content_start (header_start value page_num : Z) : buf_op () :=
  write_u16 (sat_add header_start 5) (if decide (65536 ≤ value) then 0 else value) page_num.

Definition write_fragmented_bytes (header_start value page_num : Z) : buf_op () :=
  put_u8 (sat_add header_start 7) value page_num.

(** [buf.get_mut(start..).fill(0)]. *)
Definition clear_from (start page_num : Z) : buf_op () := λ buf,
  if decide (start ≤ zlen buf)
  then (take (Z.to_nat start) buf ++ zeros (zlen buf - start), Ok ())
  else (buf, Err (BPageTooShort page_num (zlen buf))).

(** [for cell in cells.iter().rev()], on the reversed list; [offs] is
    [ptr_offsets], already in the order of the cells. *)
Fixpoint place_cells (page_num : Z) (rev_cells : list bytes) (content_end : Z) (offs : list Z)
  : buf_op (Z * list Z) :=
  match rev_cells with
  | [] => b_ok (content_end, offs)
  | cell :: rest =>
      let content_end := sat_sub content_end (zlen cell) in
      let& _ := bt_put content_end cell page_num in
      place_cells page_num rest content_end (content_end :: offs)
  end.

Fixpoint write_pointers (page_num ptr_base i : Z) (offs : list Z) : buf_op () :=
  match offs with
  | [] => b_ok ()
  | off :: offs =>
      let v := if decide (65536 ≤ off) then 0 else wrap16 off in
      let& _ := bt_put (sat_add ptr_base (sat_mul i 2)) (be_bytes 2 v) page_num in
      write_pointers page_num ptr_base (i + 1) offs
  end.

Definition write_page_common (header_start page_num page_type header_len : Z)
    (cells : list bytes) : buf_op () := λ buf,
  let ptr_base := sat_add header_start header_len in
  let num_cells := zlen cells in
  let needed := foldl sat_add ptr_base (map (λ c, sat_add (zlen c) 2) cells) in
  if decide (zlen buf < needed) then (buf, Err (BInternal "cells do not fit in page"))
  else
    (let& _ := clear_from header_start page_num in
     let& _ := put_u8 header_start page_type page_num in
     let& co := place_cells page_num (reverse cells) (zlen buf) [] in
     let& _ := write_pointers page_num ptr_base 0 co.2 in
     let& _ := bt_put (sat_add header_start 3) (be_bytes 2 (wrap16 num_cells)) page_num in
     let& _ := bt_put (sat_add header_start 5)
                 (be_bytes 2 (if decide (65536 ≤ co.1) then 0 else wrap16 co.1)) page_num in
     put_u8 (sat_add header_start 7) 0 page_num) buf.

Definition write_leaf_page (header_start page_num : Z) (cells : list bytes) : buf_op () :=
  write_page_common header_start page_num LEAF_TABLE 8 cells.

Definition write_interior_page (header_start page_num : Z) (cells : list bytes) (rightmost : Z)
  : buf_op () :=
  let& _ := write_page_common header_start page_num INTERIOR_TABLE 12 cells in
  bt_put (sat_add header_start 8) (be_bytes 4 rightmost) page_num.

Definition write_index_leaf_page (header_start page_num : Z) (cells : list bytes) : buf_op () :=
  write_page_common header_start page_num LEAF_INDEX 8 cells.

Definition write_index_interior_page (header_start page_num : Z) (cells : list bytes)
    (rightmost : Z) : buf_op () :=
  let& _ := write_page_common header_start page_num INTERIOR_INDEX 12 cells in
  bt_put (sat_add header_start 8) (be_bytes 4 rightmost) page_num.

Definition build_index_interior_cell (child : Z) (value_cell_bytes : bytes) : bytes :=
  be_bytes 4 child ++ value_cell_bytes.

(** ** Cells in a page

    [has_cells] is the abstract content of a page: its cells in pointer
    order and where they lie.  [hl] is the length of the page header. *)

Record has_cells (buf : bytes) (hs hl : Z) (cells : list bytes) (offs : list Z) : Prop := {
  hc_num : read_be 2 buf (hs + 3) = Some (zlen cells);
  hc_len : length offs = length cells;
  hc_ptr i off : offs !! i = Some off → read_be 2 buf (hs + hl + 2 * Z.of_nat i) = Some off;
  hc_cell i off c : offs !! i = Some off → cells !! i = Some c →
    get_range buf off (off + zlen c) = Some c;
}.

(** A table leaf cell is exactly as long as its head says. *)
Definition table_cell (usable : Z) (c : bytes) : Prop :=
  bytes_ok c ∧ ∃ rowid pl t, decode_cell_head c 0 0 = Ok (rowid, pl, t) ∧
    zlen c = cell_end usable pl t false.

Definition cell_rowid (c : bytes) : Z :=
  match decode_cell_head c 0 0 with Ok (rowid, _, _) => rowid | Err _ => 0 end.

Definition index_cell (usable : Z) (c : bytes) : Prop :=
  bytes_ok c ∧ ∃ pl t, decode_payload_len c 0 0 = Ok (pl, t) ∧ zlen c = cell_end usable pl t true.

Definition keyed (c : bytes) : Z * bytes := (cell_rowid c, c).

(** ** Lemmas: reading cells *)

Lemma read_num_cells_eq buf hs pn :
  0 ≤ hs ≤ 65536 → read_num_cells buf hs pn = ok_or (read_be 2 buf (hs + 3)) (BPageTooShort pn (zlen buf)).
Proof.
  intros. unfold read_num_cells, read_be. do 2 f_equal.
  change (Z.of_nat 2) with 2. rewrite !sat_add_page by lia. f_equal. lia.
Qed.

Lemma cell_ptr_offset_eq base i : 0 ≤ base ≤ 131072 → 0 ≤ i ≤ 65536 → cell_ptr_offset base i = base + 2 * i.
Proof. intros. unfold cell_ptr_offset. rewrite sat_mul_page by lia. rewrite sat_add_page by lia. lia. Qed.

Lemma local_payload_size_nonneg u pl b : 0 ≤ pl → 0 ≤ local_payload_size u pl b.
Proof.
  intros. unfold local_payload_size. case_decide; [done|]. case_decide; [|apply sat_sub_nonneg].
  apply sat_add_nonneg; [apply sat_sub_nonneg|apply Z.mod_pos_bound; lia].
Qed.

Lemma cell_end_ge u pl t b : 0 ≤ pl → 0 ≤ t ≤ USIZE_MAX → t ≤ cell_end u pl t b.
Proof.
  intros Hp Ht. unfold cell_end. pose proof (local_payload_size_nonneg u pl b Hp).
  unfold sat_add. generalize dependent USIZE_MAX. intros M ?. case_bool_decide; lia.
Qed.

Lemma cell_end_shift u pl t b off :
  0 ≤ pl → 0 ≤ t → 0 ≤ off ≤ 65536 → cell_end u pl t b ≤ 65536 →
  cell_end u pl (off + t) b = off + cell_end u pl t b.
Proof.
  intros Hp Ht Ho He. unfold cell_end in *. pose proof (local_payload_size_nonneg u pl b Hp).
  set (l := local_payload_size u pl b) in *. clearbody l.
  assert (HM : 200000 < USIZE_MAX) by reflexivity. unfold sat_add in *.
  generalize dependent USIZE_MAX. intros M HM ?. case_bool_decide; lia.
Qed.

Lemma get_from_of_range buf off c :
  get_range buf off (off + zlen c) = Some c → ∃ s, get_from buf off = Some (c ++ s).
Proof.
  intros (? & ? & Hc)%get_range_Some. exists (drop (Z.to_nat (off + zlen c)) buf).
  apply get_from_Some. split; [lia|].
  rewrite <- (take_drop (length c) (drop (Z.to_nat off) buf)). f_equal.
  - rewrite Hc at 1. f_equal. lia.
  - rewrite drop_drop. f_equal. lia.
Qed.

Lemma decode_varint_prefix c s v n :
  bytes_ok c → decode_varint c = Ok (v, n) → decode_varint (c ++ s) = Ok (v, n).
Proof.
  intros Hok Hd. pose proof (decode_varint_Ok _ _ _ Hok Hd) as (_ & _ & _ & _ & Hs).
  rewrite <- (take_drop (Z.to_nat n) c), <- (assoc_L (++)). apply Hs.
Qed.

Lemma decode_cell_head_Ok c pn r pl t :
  bytes_ok c → zlen c ≤ 65536 → decode_cell_head c 0 pn = Ok (r, pl, t) →
  ∃ n1 n2 v2, decode_varint c = Ok (pl, n1) ∧ decode_varint (drop (Z.to_nat n1) c) = Ok (v2, n2) ∧
    r = as_i64 v2 ∧ t = n1 + n2 ∧ 1 ≤ n1 ∧ 1 ≤ n2 ∧ t ≤ zlen c ∧ u64_ok pl ∧ t ≤ 18.
Proof.
  intros Hok Hlen. unfold decode_cell_head. rewrite get_from_0. cbn [ok_or].
  destruct (decode_varint c) as [[pl' n1]|e] eqn:H1; [|done]. cbn [map_err fst snd].
  destruct (get_from c n1) as [rest|] eqn:Hr; [|done]. cbn [ok_or].
  apply get_from_Some in Hr as [? ->].
  destruct (decode_varint (drop _ c)) as [[v2 n2]|e] eqn:H2; [|done]. cbn [map_err fst snd].
  intros [= <- <- <-].
  pose proof (decode_varint_Ok _ _ _ Hok H1) as (? & ? & ? & _).
  pose proof (decode_varint_Ok _ _ _ (bytes_ok_drop _ _ Hok) H2) as (? & Hl2 & _).
  rewrite length_drop in Hl2. exists n1, n2, v2.
  rewrite (sat_add_page 0), sat_add_page by lia. split_and!; try done; lia.
Qed.

Lemma decode_cell_head_in buf off c r pl t pn :
  bytes_ok c → zlen buf ≤ 65536 → get_range buf off (off + zlen c) = Some c →
  decode_cell_head c 0 0 = Ok (r, pl, t) →
  decode_cell_head buf off pn = Ok (r, pl, off + t) ∧ 0 ≤ t ≤ zlen c ∧ 0 ≤ pl.
Proof.
  intros Hok Hlen Hg Hd. pose proof Hg as (? & ? & _)%get_range_Some.
  apply decode_cell_head_Ok in Hd as (n1 & n2 & v2 & H1 & H2 & -> & -> & ? & ? & ? & [? _] & _); [|done|lia].
  destruct (get_from_of_range _ _ _ Hg) as [s Hs].
  unfold decode_cell_head. rewrite Hs. cbn [ok_or].
  rewrite (decode_varint_prefix c s _ _ Hok H1). cbn [map_err fst snd].
  assert (get_from (c ++ s) n1 = Some (drop (Z.to_nat n1) c ++ s)) as ->.
  { apply get_from_Some. rewrite length_app. split; [lia|]. rewrite drop_app_le by lia. done. }
  cbn [ok_or]. rewrite (decode_varint_prefix _ s _ _ (bytes_ok_drop _ _ Hok) H2).
  cbn [map_err fst snd]. rewrite (sat_add_page off), sat_add_page by lia. split_and!; [|lia..].
  f_equal. f_equal. lia.
Qed.

Lemma table_cell_read u buf off c pn :
  table_cell u c → zlen buf ≤ 65536 → get_range buf off (off + zlen c) = Some c →
  ∃ pl t, decode_cell_head buf off pn = Ok (cell_rowid c, pl, t) ∧
    cell_end u pl t false = off + zlen c ∧ 0 ≤ pl ∧ off ≤ t ≤ off + zlen c ∧
    decode_cell_head c 0 0 = Ok (cell_rowid c, pl, t - off).
Proof.
  intros (Hok & r & pl & t & Hd & Hl) Hlen Hg. pose proof Hg as (? & ? & _)%get_range_Some.
  destruct (decode_cell_head_in _ _ _ _ _ _ pn Hok Hlen Hg Hd) as (Hb & ? & ?).
  exists pl, (off + t). unfold cell_rowid. rewrite Hd. split_and!; [done| |lia..|].
  - rewrite cell_end_shift by lia. lia.
  - do 2 f_equal. lia.
Qed.

Lemma hc_bounds buf hs hl cells offs i off c :
  has_cells buf hs hl cells offs → offs !! i = Some off → cells !! i = Some c →
  0 ≤ off ∧ off + zlen c ≤ zlen buf.
Proof. intros H Ho Hc. pose proof (hc_cell _ _ _ _ _ H i off c Ho Hc) as (? & ? & _)%get_range_Some. lia. Qed.

Lemma hc_length buf hs hl cells offs :
  has_cells buf hs hl cells offs → bytes_ok buf → 0 ≤ hs ≤ 100 → zlen cells < 65536.
Proof.
  intros H Hok ?. pose proof (read_be_bound 2 buf _ _ Hok (hc_num _ _ _ _ _ H) ltac:(mlia)). lia.
Qed.

(** A walk over the cells of a page reads pointer [i] of the array. *)
Lemma hc_pointer buf hs hl cells offs i off pn :
  has_cells buf hs hl cells offs → 0 ≤ hs ≤ 100 → 0 ≤ hl ≤ 12 → zlen cells ≤ 65536 →
  offs !! i = Some off →
  read_cell_pointer buf (cell_ptr_offset (sat_add hs hl) (Z.of_nat i)) pn (Z.of_nat i) = Ok off.
Proof.
  intros H ? ? Hn Ho. pose proof (lookup_lt_Some _ _ _ Ho). rewrite (hc_len _ _ _ _ _ H) in *.
  unfold read_cell_pointer. rewrite sat_add_page by lia. rewrite cell_ptr_offset_eq by lia.
  by rewrite (hc_ptr _ _ _ _ _ H i off Ho).
Qed.

Lemma hc_lookup buf hs hl cells offs i c :
  has_cells buf hs hl cells offs → cells !! i = Some c → ∃ off, offs !! i = Some off.
Proof. intros H Hc%lookup_lt_Some. apply lookup_lt_is_Some. by rewrite (hc_len _ _ _ _ _ H). Qed.

Lemma collect_leaf_loop_eq u buf hs cells offs pn n i :
  has_cells buf hs 8 cells offs → 0 ≤ hs ≤ 100 → zlen buf ≤ 65536 → zlen cells ≤ 65536 →
  Forall (table_cell u) cells → (i + n = length cells)%nat →
  collect_leaf_loop n (Z.of_nat i) buf (sat_add hs 8) pn u = Ok (map keyed (drop i cells)).
Proof.
  intros H ? ? ? Hw. revert i. induction n as [|n IH]; intros i Hi; cbn [collect_leaf_loop].
  { by rewrite drop_ge by lia. }
  destruct (lookup_lt_is_Some_2 cells i ltac:(lia)) as [c Hc].
  destruct (hc_lookup _ _ _ _ _ _ _ H Hc) as [off Ho].
  rewrite (hc_pointer _ _ _ _ _ _ _ pn H) by (done || lia).
  pose proof (hc_cell _ _ _ _ _ H i off c Ho Hc) as Hg.
  destruct (table_cell_read u buf off c pn) as (pl & t & -> & -> & _); [|done..|].
  { by eapply Forall_lookup_1 in Hw. }
  rewrite Hg. cbn [ok_or]. replace (Z.of_nat i + 1) with (Z.of_nat (S i)) by lia.
  rewrite IH by lia. by rewrite (drop_S _ _ _ Hc).
Qed.

Lemma collect_leaf_cells_eq u buf hs cells offs pn :
  has_cells buf hs 8 cells offs → 0 ≤ hs ≤ 100 → zlen buf ≤ 65536 → zlen cells ≤ 65536 →
  Forall (table_cell u) cells → collect_leaf_cells buf hs pn u = Ok (map keyed cells).
Proof.
  intros H ? ? ? Hw. unfold collect_leaf_cells. rewrite read_num_cells_eq by lia.
  rewrite (hc_num _ _ _ _ _ H). cbn [ok_or]. rewrite Nat2Z.id.
  by apply (collect_leaf_loop_eq u buf hs cells offs pn (length cells) 0).
Qed.

(** ** Lemmas: writing pages *)

Fixpoint cell_offs (start : Z) (cells : list bytes) : list Z :=
  match cells with
  | [] => []
  | c :: cells => start :: cell_offs (start + zlen c) cells
  end.

(** Bytes a page needs for [cells], pointers included. *)
Definition cells_need (cells : list bytes) : Z := zlen (concat cells) + 2 * zlen cells.

Lemma cells_need_cons c cells : cells_need (c :: cells) = zlen c + 2 + cells_need cells.
Proof. unfold cells_need. cbn [concat length]. rewrite length_app. lia. Qed.

Lemma cells_need_app l k : cells_need (l ++ k) = cells_need l + cells_need k.
Proof. unfold cells_need. rewrite concat_app, !length_app. lia. Qed.

Lemma cells_need_elem c cells : c ∈ cells → zlen c + 2 ≤ cells_need cells.
Proof.
  intros (l & k & ->)%list_elem_of_split. rewrite cells_need_app, cells_need_cons. unfold cells_need. lia.
Qed.

(** The [needed] of [write_page_common], saturating as the code does. *)
Lemma needed_fits base cells len :
  0 ≤ base → len ≤ ISIZE_MAX →
  foldl sat_add base (map (λ c, sat_add (zlen c) 2) cells) ≤ len ↔ base + cells_need cells ≤ len.
Proof.
  intros Hb Hl. assert (Hu : len < USIZE_MAX) by (by apply isize_usize).
  assert (HI : 0 ≤ USIZE_MAX) by done.
  revert base Hb. induction cells as [|c cells IH]; intros base Hb; cbn [map foldl].
  { unfold cells_need. cbn. lia. }
  rewrite cells_need_cons, IH by (apply sat_add_nonneg; [done|apply sat_add_nonneg; lia]).
  unfold sat_add, cells_need. generalize dependent USIZE_MAX. intros M ? ?. lia.
Qed.

Lemma concat_reverse_cons (c : bytes) rest :
  concat (reverse (c :: rest)) = concat (reverse rest) ++ c.
Proof. rewrite reverse_cons, concat_app. cbn. by rewrite app_nil_r. Qed.

Lemma cell_offs_app start l k :
  cell_offs start (l ++ k) = cell_offs start l ++ cell_offs (start + zlen (concat l)) k.
Proof.
  revert start. induction l as [|c l IH]; intros start; cbn; [f_equal; lia|].
  rewrite IH, length_app. do 3 f_equal. lia.
Qed.

Lemma length_cell_offs start cells : length (cell_offs start cells) = length cells.
Proof. revert start. induction cells; intros; cbn; auto. Qed.

Lemma cell_offs_lookup start cells i off :
  cell_offs start cells !! i = Some off → off = start + zlen (concat (take i cells)).
Proof.
  revert start i. induction cells as [|c cells IH]; intros start [|i]; cbn; [done..| |].
  - intros [= <-]. lia.
  - intros Hi%IH. rewrite length_app. lia.
Qed.

Lemma place_cells_eq pn rc P k s offs :
  zlen (concat (reverse rc)) ≤ k →
  place_cells pn rc (zlen P + k) offs (P ++ zeros k ++ s) =
    let ce := zlen P + (k - zlen (concat (reverse rc))) in
    (P ++ zeros (k - zlen (concat (reverse rc))) ++ concat (reverse rc) ++ s,
     Ok (ce, cell_offs ce (reverse rc) ++ offs)).
Proof.
  revert k s offs. induction rc as [|c rc IH]; intros k s offs Hk; cbn [place_cells].
  { cbn. rewrite Z.sub_0_r. done. }
  rewrite concat_reverse_cons, length_app in Hk. unfold b_bind, bt_put.
  rewrite sat_sub_ge by lia.
  replace (zlen P + k - zlen c) with (zlen P + (k - zlen c)) by lia.
  replace (zeros k) with (zeros (k - zlen c) ++ zeros (zlen c))
    by (rewrite <- zeros_add by lia; f_equal; lia).
  rewrite <- (assoc_L (++)).
  rewrite (app_assoc P), put_range_app, <- (assoc_L (++)) by
    (rewrite ?length_app, ?length_zeros; pose proof (length_zeros (k - zlen c)); pose proof (length_zeros (zlen c)); lia).
  rewrite IH by lia. cbn zeta. rewrite concat_reverse_cons, length_app.
  rewrite Nat2Z.inj_add.
  replace (k - zlen c - zlen (concat (reverse rc))) with (k - (zlen (concat (reverse rc)) + zlen c)) by lia.
  f_equal.
  - by rewrite <- !(assoc_L (++)).
  - do 2 f_equal. rewrite reverse_cons, cell_offs_app, <- (assoc_L (++)). f_equal. cbn.
    f_equal. lia.
Qed.

Lemma write_pointers_eq pn base offs p m s i :
  zlen p = base + 2 * i → 0 ≤ base → 0 ≤ i → zlen m = 2 * zlen offs →
  base + 2 * (i + zlen offs) ≤ 200000 → Forall u16_ok offs →
  write_pointers pn base i offs (p ++ m ++ s) =
    (p ++ concat (map (be_bytes 2) offs) ++ s, Ok ()).
Proof.
  intros Hp Hb Hi Hm Hle Hok. revert p m i Hp Hi Hm Hle.
  induction Hok as [|off offs Ho Hok IH]; intros p m i Hp Hi Hm Hle; cbn [write_pointers].
  { destruct m; [done|cbn in Hm; lia]. }
  cbn [length] in Hm, Hle. unfold b_bind, bt_put.
  rewrite sat_mul_page, sat_add_page by lia.
  destruct (split_at m 2) as (m0 & m1 & -> & Hm0); [lia|]. rewrite length_app in Hm.
  rewrite <- (assoc_L (++)), put_range_app by (rewrite ?be_bytes_length; lia).
  rewrite app_assoc, IH; [..|lia|]; rewrite ?length_app, ?be_bytes_length; try lia.
  cbn [map concat]. rewrite decide_False by mlia. unfold wrap16. rewrite Z.mod_small by done.
  by rewrite <- !(assoc_L (++)).
Qed.

Lemma length_pointers offs : zlen (concat (map (be_bytes 2) offs)) = 2 * zlen offs.
Proof.
  induction offs as [|o offs IH]; [done|]. cbn [map concat length].
  rewrite length_app, be_bytes_length. lia.
Qed.

(** The image [write_page_common] leaves behind: [pre] is what precedes
    the page header, [extra] the 4 bytes of an interior header. *)
Definition page_image (pre : bytes) (typ : Z) (extra : bytes) (cells : list bytes) (len : Z) : bytes :=
  let cs := len - zlen (concat cells) in
  pre ++ [typ; 0; 0] ++ be_bytes 2 (zlen cells) ++ be_bytes 2 (if decide (cs = 65536) then 0 else cs)
  ++ [0] ++ extra ++ concat (map (be_bytes 2) (cell_offs cs cells))
  ++ zeros (len - zlen pre - 8 - zlen extra - cells_need cells) ++ concat cells.

(** Cells as they occur: not empty. *)
Definition nonempty_cells (cells : list bytes) : Prop := Forall (λ c, 1 ≤ zlen c) cells.

Lemma nonempty_count cells : nonempty_cells cells → zlen cells ≤ zlen (concat cells).
Proof. induction 1; cbn; rewrite ?length_app; lia. Qed.

Lemma cell_offs_u16 start cells :
  nonempty_cells cells → 0 ≤ start → start + zlen (concat cells) ≤ 65536 →
  Forall u16_ok (cell_offs start cells).
Proof.
  intros Hn. revert start. induction Hn as [|c cells Hc Hn IH]; intros start Hs Hle; cbn; [done|].
  cbn [concat] in Hle. rewrite length_app in Hle. constructor; [mlia|]. apply IH; lia.
Qed.

Lemma bt_put_app off bs pn p m s :
  off = zlen p → zlen m = zlen bs → bt_put off bs pn (p ++ m ++ s) = (p ++ bs ++ s, Ok ()).
Proof. intros. unfold bt_put. by rewrite put_range_app. Qed.

(** The header fields written last. *)
Lemma write_header_eq hs pn typ n cs p s :
  zlen p = hs → hs ≤ 65536 →
  (let& _ := bt_put (sat_add hs 3) (be_bytes 2 n) pn in
   let& _ := bt_put (sat_add hs 5) (be_bytes 2 cs) pn in
   put_u8 (sat_add hs 7) 0 pn) (p ++ [typ; 0; 0; 0; 0; 0; 0; 0] ++ s) =
  (p ++ [typ; 0; 0] ++ be_bytes 2 n ++ be_bytes 2 cs ++ [0] ++ s, Ok ()).
Proof.
  intros Hp Hh. rewrite !sat_add_page by lia. unfold b_bind, put_u8.
  change (p ++ [typ; 0; 0; 0; 0; 0; 0; 0] ++ s)
    with (p ++ [typ; 0; 0] ++ [0; 0] ++ [0; 0; 0] ++ s).
  rewrite (app_assoc p), bt_put_app by (rewrite ?length_app, ?be_bytes_length; cbn; lia).
  change ([0; 0; 0] ++ s) with ([0; 0] ++ [0] ++ s).
  rewrite (app_assoc (p ++ _)), bt_put_app by (rewrite ?length_app, ?be_bytes_length; cbn; lia).
  rewrite (app_assoc (_ ++ _)), bt_put_app by (rewrite ?length_app, ?be_bytes_length; cbn; lia).
  by rewrite <- !(assoc_L (++)).
Qed.

(** What is cleared, cut where the cells and the pointers go. *)
Lemma zeros_split hl n gap T :
  8 ≤ hl → 0 ≤ n → 0 ≤ gap → 0 ≤ T →
  zeros (hl + n + gap + T) =
  [0] ++ [0; 0; 0; 0; 0; 0; 0] ++ zeros (hl - 8) ++ zeros n ++ zeros (gap + T).
Proof.
  intros. change [0; 0; 0; 0; 0; 0; 0] with (zeros 7). change [0] with (zeros 1). rewrite <- !zeros_add by lia. f_equal. lia.
Qed.

Lemma write_page_common_eq hs pn typ hl cells buf :
  8 ≤ hl ≤ 12 → 0 ≤ hs → hs + hl + cells_need cells ≤ zlen buf → zlen buf ≤ 65536 →
  nonempty_cells cells →
  write_page_common hs pn typ hl cells buf =
    (page_image (take (Z.to_nat hs) buf) typ (zeros (hl - 8)) cells (zlen buf), Ok ()).
Proof.
  intros Hhl Hhs Hfit Hlen Hne. unfold page_image.
  set (T := zlen (concat cells)). set (n := 2 * zlen cells).
  assert (HT : cells_need cells = T + n) by done.
  pose proof (nonempty_count _ Hne) as Hcnt. fold T in Hcnt.
  unfold write_page_common. rewrite sat_add_page by lia.
  rewrite decide_False by (apply Z.le_ngt; apply needed_fits; [lia|mlia|lia]).
  unfold b_bind at 1, clear_from. rewrite decide_True by lia.
  set (pre := take (Z.to_nat hs) buf).
  assert (Hpre : zlen pre = hs) by (unfold pre; rewrite length_take; lia).
  rewrite (length_zeros (hl - 8)), Hpre by lia.
  set (gap := zlen buf - hs - 8 - (hl - 8) - cells_need cells).
  replace (zlen buf - hs) with (hl + n + gap + T) by lia. rewrite zeros_split by lia.
  unfold b_bind at 1, put_u8 at 1.
  rewrite (bt_put_app hs [typ] pn pre [0] _ (eq_sym Hpre) eq_refl).
  set (P := pre ++ ([typ; 0; 0; 0; 0; 0; 0; 0] ++ zeros (hl - 8)) ++ zeros n).
  assert (HP : zlen P = hs + hl + n).
  { unfold P. rewrite !length_app. pose proof (length_zeros (hl - 8)).
    pose proof (length_zeros n). cbn [length]. lia. }
  replace (pre ++ [typ] ++ _) with (P ++ zeros (gap + T) ++ [])
    by (unfold P; by rewrite <- !(assoc_L (++)), app_nil_r).
  unfold b_bind at 1. replace (zlen buf) with (zlen P + (gap + T)) at 1 by lia.
  rewrite place_cells_eq by (rewrite reverse_involutive; lia).
  rewrite reverse_involutive. fold T. cbn zeta. rewrite !app_nil_r.
  replace (gap + T - T) with gap by lia. replace (zlen P + gap) with (zlen buf - T) by lia.
  cbn [fst snd]. set (cs := zlen buf - T). set (offs := cell_offs cs cells).
  assert (Ho : Forall u16_ok offs) by (apply cell_offs_u16; [done|lia|lia]).
  assert (Hol : zlen offs = zlen cells) by (unfold offs; by rewrite length_cell_offs).
  unfold P. rewrite (app_assoc pre), <- (assoc_L (++) _ (zeros n)).
  unfold b_bind at 1. rewrite (write_pointers_eq pn (hs + hl) offs).
  2-7: try (done || lia || (rewrite length_zeros; lia)).
  2: { rewrite !length_app. pose proof (length_zeros (hl - 8)). cbn [length]. lia. }
  rewrite <- !(assoc_L (++)).
  replace (if decide (65536 ≤ cs) then 0 else wrap16 cs) with (if decide (cs = 65536) then 0 else cs).
  2: { unfold wrap16. case_decide as Hcs; [by rewrite decide_True by lia|].
       rewrite decide_False by lia. by rewrite Z.mod_small by lia. }
  replace (wrap16 (zlen cells)) with (zlen cells) by (unfold wrap16; rewrite Z.mod_small; lia).
  by rewrite (write_header_eq hs pn typ) by lia.
Qed.

Lemma page_image_length pre typ extra cells len :
  zlen pre + 8 + zlen extra + cells_need cells ≤ len → zlen (page_image pre typ extra cells len) = len.
Proof.
  intros Hfit. unfold page_image. rewrite !length_app, !be_bytes_length.
  pose proof (length_pointers (cell_offs (len - zlen (concat cells)) cells)) as Hp.
  rewrite length_cell_offs in Hp.
  pose proof (length_zeros (len - zlen pre - 8 - zlen extra - cells_need cells)) as Hz.
  unfold cells_need in *. cbn [length]. lia.
Qed.

Lemma page_image_ok pre typ extra cells len :
  bytes_ok pre → u8_ok typ → bytes_ok extra → Forall bytes_ok cells →
  bytes_ok (page_image pre typ extra cells len).
Proof.
  intros Hp Ht He Hc. unfold page_image. rewrite !bytes_ok_app. split_and!; auto using be_bytes_ok, bytes_ok_zeros.
  - repeat constructor; try done; mlia.
  - repeat constructor; mlia.
  - apply Forall_concat, Forall_map, Forall_true. intros. apply be_bytes_ok.
  - by apply Forall_concat.
Qed.

Lemma concat_split {A} (l : list (list A)) i x :
  l !! i = Some x → concat l = concat (take i l) ++ x ++ concat (drop (S i) l).
Proof.
  intros Hx. rewrite <- (take_drop_middle _ _ _ Hx) at 1. rewrite concat_app. done.
Qed.

Lemma concat_pointers_take offs i : (i ≤ length offs)%nat →
  zlen (concat (take i (map (be_bytes 2) offs))) = 2 * Z.of_nat i.
Proof. intros. rewrite <- fmap_take. rewrite length_pointers, length_take. lia. Qed.

Section image.
Context (pre extra : bytes) (typ : Z) (cells : list bytes) (len hs hl : Z).
Hypothesis (Hhs : zlen pre = hs) (Hhl : hl = 8 + zlen extra) (Hsmall : 0 ≤ hs ≤ 100)
  (Hfit : hs + hl + cells_need cells ≤ len) (Hlen : len ≤ 65536) (Hne : nonempty_cells cells).

Let cs : Z := len - zlen (concat cells).
Let img : bytes := page_image pre typ extra cells len.
Let offs : list Z := cell_offs cs cells.

Lemma image_u16 : Forall u16_ok offs ∧ zlen cells < 65536 ∧ 0 ≤ cs ≤ 65536 ∧
  cs = len - cells_need cells + 2 * zlen cells.
Proof.
  pose proof (nonempty_count _ Hne) as Hcnt. unfold cells_need in *.
  split; [apply cell_offs_u16; [done|lia|lia]|]. unfold cs. lia.
Qed.

Lemma image_header :
  read_be 2 img (hs + 1) = Some 0 ∧ read_be 2 img (hs + 3) = Some (zlen cells) ∧
  read_be 2 img (hs + 5) = Some (if decide (cs = 65536) then 0 else cs) ∧
  get_byte img hs = Some typ ∧ get_byte img (hs + 7) = Some 0 ∧
  get_range img (hs + 8) (hs + hl) = Some extra ∧ get_range img 0 hs = Some pre.
Proof.
  destruct image_u16 as (_ & Hn & Hcs & _). unfold img, page_image. fold cs.
  assert (Hu : ∀ z, z ≤ 200000 → z ≤ USIZE_MAX) by mlia. split_and!.
  - change [typ; 0; 0] with ([typ] ++ be_bytes 2 0). rewrite <- (assoc_L (++) [typ]), (app_assoc pre).
    apply read_be_app; [rewrite length_app; cbn; lia|apply Hu; lia|lia].
  - rewrite (app_assoc pre). apply read_be_app; [rewrite length_app; cbn; lia|apply Hu; lia|lia].
  - rewrite (app_assoc pre), (app_assoc (pre ++ _)).
    apply read_be_app; [rewrite !length_app, be_bytes_length; cbn; lia|apply Hu; lia|].
    case_decide; lia.
  - rewrite get_byte_app_r by lia. by rewrite Hhs, Z.sub_diag.
  - rewrite (app_assoc pre), (app_assoc (pre ++ _)), (app_assoc ((pre ++ _) ++ _)).
    rewrite get_byte_app_r by (rewrite !length_app, !be_bytes_length; cbn; lia).
    rewrite !length_app, !be_bytes_length. cbn [length].
    replace (hs + 7 - Z.of_nat (length pre + 3 + 2 + 2)) with 0 by lia. done.
  - rewrite (app_assoc pre), (app_assoc (pre ++ _)), (app_assoc ((pre ++ _) ++ _)),
      (app_assoc (((pre ++ _) ++ _) ++ _)).
    apply get_range_app3; rewrite !length_app, !be_bytes_length; cbn [length]; lia.
  - apply (get_range_app3 []); cbn; lia.
Qed.

Lemma image_split : ∃ X Y Z, img = X ++ concat cells ∧ zlen X = cs ∧
  img = Y ++ concat (map (be_bytes 2) offs) ++ Z ∧ zlen Y = hs + hl.
Proof.
  pose proof (page_image_length pre typ extra cells len ltac:(lia)) as Hl. fold img in Hl.
  eexists _, (pre ++ [typ; 0; 0] ++ be_bytes 2 _ ++ be_bytes 2 _ ++ [0] ++ extra), _. split_and!.
  - unfold img, page_image. rewrite !app_assoc. reflexivity.
  - assert (Ha : img = _ ++ concat cells) by (unfold img, page_image; rewrite !app_assoc; reflexivity).
    rewrite Ha, length_app in Hl. unfold cs. lia.
  - unfold img, page_image. rewrite <- !(assoc_L (++)). reflexivity.
  - rewrite !length_app, !be_bytes_length. cbn [length]. lia.
Qed.

Lemma image_has_cells : has_cells img hs hl cells offs.
Proof.
  destruct image_u16 as (Ho & Hn & Hcs & Hcs'). destruct image_header as (_ & Hnum & _).
  destruct image_split as (X & Y & Z & HX & HlX & HY & HlY).
  assert (Hlo : length offs = length cells) by apply length_cell_offs.
  split; [done|done| |].
  - intros i off Hi. pose proof (Forall_lookup_1 _ _ _ _ Ho Hi) as Hoff.
    pose proof (lookup_lt_Some _ _ _ Hi) as Hlt.
    assert (Hmi : map (be_bytes 2) offs !! i = Some (be_bytes 2 off)) by (rewrite list_lookup_fmap, Hi; done).
    rewrite HY, (concat_split _ _ _ Hmi), <- !(assoc_L (++)), (app_assoc Y).
    apply read_be_app; [|mlia|exact Hoff].
    rewrite length_app. pose proof (concat_pointers_take offs i ltac:(lia)). lia.
  - intros i off c Hi Hc. apply cell_offs_lookup in Hi as ->.
    rewrite HX, (concat_split _ _ _ Hc), (app_assoc X).
    apply get_range_app3; rewrite length_app; lia.
Qed.
End image.

(** ** Interior cells *)

Definition interior_cell (c : bytes) (e : Z * Z) : Prop :=
  bytes_ok c ∧ 4 < zlen c ∧ read_be 4 c 0 = Some e.1 ∧
  ∃ k n, decode_varint (drop 4 c) = Ok (k, n) ∧ e.2 = as_i64 k.

Definition entry_ok (e : Z * Z) : Prop := u32_ok e.1 ∧ i64_ok e.2.

Lemma build_interior_cell_length e : 5 ≤ zlen (build_interior_cell e.1 e.2) ≤ 13.
Proof.
  unfold build_interior_cell. rewrite length_app, be_bytes_length.
  pose proof (encode_varint_length (wrap64 e.2)). pose proof (varint_len_bounds (wrap64 e.2)). lia.
Qed.

Lemma build_interior_cell_ok e : entry_ok e → interior_cell (build_interior_cell e.1 e.2) e.
Proof.
  intros [Hc Hk]. pose proof (build_interior_cell_length e). unfold build_interior_cell in *. split_and!.
  - apply bytes_ok_app. split; [apply be_bytes_ok|apply encode_varint_ok].
  - lia.
  - apply read_be_app0; [mlia|exact Hc].
  - exists (wrap64 e.2), (varint_len (wrap64 e.2)). rewrite drop_app_length' by (by rewrite be_bytes_length).
    pose proof (decode_encode_varint (wrap64 e.2) [] (wrap64_ok _)) as Hd. rewrite app_nil_r in Hd.
    split; [done|]. by rewrite as_i64_wrap.
Qed.

Lemma get_range_sub buf off c a b s :
  get_range buf off (off + zlen c) = Some c → 0 ≤ a → get_range c a b = Some s →
  get_range buf (off + a) (off + b) = Some s.
Proof.
  intros (? & ? & Hc)%get_range_Some Ha (? & ? & ->)%get_range_Some. apply get_range_Some.
  split_and!; [lia..|]. rewrite Hc. rewrite skipn_firstn_comm, firstn_firstn, drop_drop.
  f_equal; [lia|]. f_equal. lia.
Qed.

Lemma read_be_sub n buf off c a v :
  get_range buf off (off + zlen c) = Some c → zlen buf ≤ 65536 → 0 ≤ a →
  read_be n c a = Some v → read_be n buf (off + a) = Some v.
Proof.
  intros Hg Hl Ha. pose proof Hg as (? & ? & _)%get_range_Some. unfold read_be.
  intros (bs & Hr & ->)%fmap_Some. assert (HU : 200000 ≤ USIZE_MAX) by done.
  pose proof Hr as (? & Hb & _)%get_range_Some. 
  assert (Hs : sat_add a (Z.of_nat n) = a + Z.of_nat n) by (apply (sat_add_le _ _ (zlen c)); lia).
  rewrite Hs in Hr, Hb. rewrite sat_add_small by lia. replace (off + a + Z.of_nat n) with (off + (a + Z.of_nat n)) by lia.
  by rewrite (get_range_sub _ _ _ _ _ _ Hg Ha Hr).
Qed.

Lemma interior_cell_read buf off c e pn :
  interior_cell c e → zlen buf ≤ 65536 → get_range buf off (off + zlen c) = Some c →
  read_u32 buf off pn = Ok e.1 ∧
  ∃ rest k n, get_from buf (sat_add off 4) = Some rest ∧ decode_varint rest = Ok (k, n) ∧ e.2 = as_i64 k.
Proof.
  intros (Hok & Hl & Hr & k & n & Hd & Hk) Hlen Hg. pose proof Hg as (? & ? & _)%get_range_Some. split.
  - unfold read_u32. rewrite <- (Z.add_0_r off), (read_be_sub _ _ _ _ _ _ Hg) by done. done.
  - destruct (get_from_of_range _ _ _ Hg) as [s Hs]. exists (drop 4 c ++ s), k, n. split_and!; [| |done].
    + rewrite sat_add_page by lia. apply get_from_Some in Hs as [? Hs]. apply get_from_Some.
      split; [lia|]. replace (Z.to_nat (off + 4)) with (Z.to_nat off + 4)%nat by lia.
      rewrite <- drop_drop, <- Hs, drop_app_le by lia. done.
    + apply decode_varint_prefix; [by apply bytes_ok_drop|done].
Qed.

Lemma collect_interior_loop_eq buf hs cells offs es pn n i :
  has_cells buf hs 12 cells offs → 0 ≤ hs ≤ 100 → zlen buf ≤ 65536 → zlen cells ≤ 65536 →
  Forall2 interior_cell cells es → (i + n = length cells)%nat →
  collect_interior_loop n (Z.of_nat i) buf (sat_add hs 12) pn = Ok (drop i es).
Proof.
  intros H ? ? ? Hw. pose proof (Forall2_length _ _ _ Hw) as Hle.
  revert i. induction n as [|n IH]; intros i Hi; cbn [collect_interior_loop].
  { by rewrite drop_ge by lia. }
  destruct (lookup_lt_is_Some_2 cells i ltac:(lia)) as [c Hc].
  destruct (Forall2_lookup_l _ _ _ _ _ Hw Hc) as (e & He & Hce).
  destruct (hc_lookup _ _ _ _ _ _ _ H Hc) as [off Ho].
  rewrite (hc_pointer _ _ _ _ _ _ _ pn H) by (done || lia).
  destruct (interior_cell_read buf off c e pn Hce) as (-> & rest & k & m & -> & Hd & Hk);
    [done|by apply (hc_cell _ _ _ _ _ H i)|].
  cbn [ok_or]. rewrite Hd. cbn [map_err fst].
  replace (Z.of_nat i + 1) with (Z.of_nat (S i)) by lia. rewrite IH by lia.
  rewrite (drop_S _ _ _ He), <- Hk. by destruct e.
Qed.

Lemma collect_interior_entries_eq buf hs cells offs es right pn :
  has_cells buf hs 12 cells offs → 0 ≤ hs ≤ 100 → zlen buf ≤ 65536 → zlen cells ≤ 65536 →
  Forall2 interior_cell cells es → read_be 4 buf (hs + 8) = Some right →
  collect_interior_entries buf hs pn = Ok (es, right).
Proof.
  intros H ? ? ? Hw Hr. unfold collect_interior_entries. rewrite read_num_cells_eq by lia.
  rewrite (hc_num _ _ _ _ _ H). cbn [ok_or]. rewrite Nat2Z.id.
  pose proof (collect_interior_loop_eq buf hs cells offs es pn (length cells) 0) as Hc.
  change (Z.of_nat 0) with 0 in Hc. rewrite drop_0 in Hc. rewrite Hc by (done || lia).
  unfold read_u32. rewrite sat_add_page by lia. by rewrite Hr.
Qed.

Definition interior_cells (es : list (Z * Z)) : list bytes := map (λ e, build_interior_cell e.1 e.2) es.

Lemma interior_cells_ok es : Forall entry_ok es → Forall2 interior_cell (interior_cells es) es.
Proof. induction 1; constructor; [by apply build_interior_cell_ok|done]. Qed.

Lemma interior_cells_nonempty es : nonempty_cells (interior_cells es).
Proof.
  apply Forall_map, Forall_true. intros e. pose proof (build_interior_cell_length e). cbn. lia.
Qed.

Lemma table_cell_length u c : zlen c ≤ 65536 → table_cell u c → 2 ≤ zlen c.
Proof.
  intros Hl (Hok & r & pl & t & Hd & He).
  apply decode_cell_head_Ok in Hd as (n1 & n2 & _ & _ & _ & _ & -> & ? & ? & ? & _); [lia|done|done].
Qed.

Lemma concat_length_ge (l : list bytes) c : c ∈ l → zlen c ≤ zlen (concat l).
Proof. induction 1; cbn; rewrite length_app; lia. Qed.

Lemma table_cells_nonempty u cells :
  Forall (table_cell u) cells → zlen (concat cells) ≤ 65536 → nonempty_cells cells.
Proof.
  intros Hw Hl. apply Forall_forall. intros c Hc. pose proof (concat_length_ge _ _ Hc).
  assert (2 ≤ zlen c); [|lia]. apply (table_cell_length u); [lia|]. by eapply Forall_forall in Hw.
Qed.

(** What a rebuilt page holds. *)
Record rebuilt (buf buf' : bytes) (hs hl typ : Z) (cells : list bytes) : Prop := {
  rb_length : zlen buf' = zlen buf;
  rb_prefix : get_range buf' 0 hs = get_range buf 0 hs;
  rb_type : get_byte buf' hs = Some typ;
  rb_cells : has_cells buf' hs hl cells (cell_offs (zlen buf - zlen (concat cells)) cells);
  rb_free : read_be 2 buf' (hs + 1) = Some 0;
  rb_frag : get_byte buf' (hs + 7) = Some 0;
  rb_content : read_be 2 buf' (hs + 5) =
    Some (if decide (zlen buf - zlen (concat cells) = 65536) then 0 else zlen buf - zlen (concat cells));
}.

Lemma write_page_rebuilt hs pn typ hl cells buf :
  8 ≤ hl ≤ 12 → 0 ≤ hs ≤ 100 → hs + hl + cells_need cells ≤ zlen buf → zlen buf ≤ 65536 →
  nonempty_cells cells →
  ∃ buf', write_page_common hs pn typ hl cells buf = (buf', Ok ()) ∧ rebuilt buf buf' hs hl typ cells ∧
    (bytes_ok (take (Z.to_nat hs) buf) → u8_ok typ → Forall bytes_ok cells → bytes_ok buf').
Proof.
  intros Hhl Hhs Hfit Hlen Hne. eexists. split; [by apply write_page_common_eq; try lia|].
  pose proof (length_zeros (hl - 8)) as Hz.
  assert (Hpre : zlen (take (Z.to_nat hs) buf) = hs).
  { rewrite length_take. pose proof (nonempty_count _ Hne). unfold cells_need in *. lia. }
  destruct (image_header (take (Z.to_nat hs) buf) (zeros (hl - 8)) typ cells (zlen buf) hs hl)
    as (? & ? & ? & ? & ? & ? & Hp); [done|lia|lia|lia|lia|done|].
  split.
  - split; try done.
    + apply page_image_length. lia.
    + rewrite Hp. symmetry. apply get_range_Some. rewrite length_take in Hpre.
      split_and!; [lia..|]. rewrite drop_0. f_equal. lia.
    + apply image_has_cells; (done || lia).
  - intros. apply page_image_ok; auto using bytes_ok_zeros.
Qed.

Lemma write_page_refused hs pn typ hl cells buf :
  0 ≤ hs ≤ 100 → 0 ≤ hl ≤ 12 → zlen buf ≤ 65536 → zlen buf < hs + hl + cells_need cells →
  write_page_common hs pn typ hl cells buf = (buf, Err (BInternal "cells do not fit in page")).
Proof.
  intros ? ? Hlen Hno. unfold write_page_common. rewrite sat_add_page by lia.
  rewrite decide_True; [done|]. apply Z.nle_gt. rewrite needed_fits by mlia. lia.
Qed.

Lemma cell_offs_ge start cells i off : cell_offs start cells !! i = Some off → start ≤ off.
Proof. intros ->%cell_offs_lookup. lia. Qed.

(** A write that avoids the cell count, the pointers and the cells. *)
Lemma has_cells_put buf hs hl cells offs off bs buf' :
  has_cells buf hs hl cells offs → 0 ≤ hs ≤ 100 → 5 ≤ hl ≤ 12 → zlen cells ≤ 65536 →
  put_range buf off bs = Some buf' → hs + 5 ≤ off →
  (off + zlen bs ≤ hs + hl ∨ hs + hl + 2 * zlen cells ≤ off) →
  (∀ i o c, offs !! i = Some o → cells !! i = Some c → off + zlen bs ≤ o ∨ o + zlen c ≤ off) →
  has_cells buf' hs hl cells offs.
Proof.
  intros H ? ? ? Hp Ho Hd Hc. assert (HU : 400000 ≤ USIZE_MAX) by done. split.
  - rewrite (read_be_put_disjoint _ _ _ _ _ _ Hp) by lia. apply H.
  - apply H.
  - intros i o Hi. pose proof (lookup_lt_Some _ _ _ Hi). rewrite (hc_len _ _ _ _ _ H) in *.
    rewrite (read_be_put_disjoint _ _ _ _ _ _ Hp) by lia. by apply H.
  - intros i o c Hi Hci. rewrite (get_put_disjoint _ _ _ _ _ _ Hp).
    + by apply (hc_cell _ _ _ _ _ H i).
    + destruct (Hc i o c Hi Hci); lia.
Qed.

(** A table interior page: its entries and rightmost child. *)
Definition interior_page (buf : bytes) (hs : Z) (es : list (Z * Z)) (right : Z) : Prop :=
  get_byte buf hs = Some INTERIOR_TABLE ∧ read_be 4 buf (hs + 8) = Some right ∧ zlen es < 65536 ∧
  ∃ cells offs, has_cells buf hs 12 cells offs ∧ Forall2 interior_cell cells es.

Lemma interior_page_collect buf hs es right pn :
  interior_page buf hs es right → 0 ≤ hs ≤ 100 → zlen buf ≤ 65536 →
  collect_interior_entries buf hs pn = Ok (es, right).
Proof.
  intros (_ & Hr & Hn & cells & offs & Hc & Hw) ? ?. pose proof (Forall2_length _ _ _ Hw).
  by apply (collect_interior_entries_eq buf hs cells offs); try lia.
Qed.

Lemma write_interior_page_ok hs pn right es buf :
  0 ≤ hs ≤ 100 → zlen buf ≤ 65536 → Forall entry_ok es → u32_ok right → bytes_ok (take (Z.to_nat hs) buf) →
  hs + 12 + cells_need (interior_cells es) ≤ zlen buf →
  ∃ buf', write_interior_page hs pn (interior_cells es) right buf = (buf', Ok ()) ∧
    interior_page buf' hs es right ∧ zlen buf' = zlen buf ∧ bytes_ok buf' ∧
    get_range buf' 0 hs = get_range buf 0 hs.
Proof.
  intros Hhs Hlen Hes Hr Hok Hfit. pose proof (interior_cells_nonempty es) as Hn.
  pose proof (interior_cells_ok es Hes) as Hw. assert (HU : 400000 ≤ USIZE_MAX) by done.
  assert (Hbo : Forall bytes_ok (interior_cells es)).
  { apply Forall_forall. intros c Hc. apply list_elem_of_lookup in Hc as [i Hi].
    by destruct (Forall2_lookup_l _ _ _ _ _ Hw Hi) as (e & _ & Hb & _). }
  pose proof (nonempty_count _ Hn) as Hcnt. pose proof (Forall2_length _ _ _ Hw) as Hl2.
  destruct (write_page_rebuilt hs pn INTERIOR_TABLE 12 (interior_cells es) buf)
    as (b1 & Hw1 & Hb & Hok1); [lia..|done|].
  unfold write_interior_page, b_bind. rewrite Hw1, sat_add_page by lia.
  unfold cells_need in Hfit. pose proof (rb_length _ _ _ _ _ _ Hb) as Hl1.
  destruct (put_range_is_Some b1 (hs + 8) (be_bytes 4 right)) as [b2 Hp];
    [lia|rewrite be_bytes_length; lia|].
  unfold bt_put. rewrite Hp. exists b2. pose proof (put_range_length _ _ _ _ Hp).
  pose proof (be_bytes_length 4 right). split_and!; [done| |lia| |].
  - split_and!.
    + rewrite (get_byte_put_disjoint _ _ _ _ _ Hp) by lia. apply Hb.
    + by apply (read_be_put_same _ _ _ _ _ Hp); [lia|].
    + lia.
    + eexists _, _. split; [|done]. apply (has_cells_put b1 _ _ _ _ _ _ _ (rb_cells _ _ _ _ _ _ Hb))
        with (1 := Hhs) (4 := Hp); try lia.
      intros i o c ->%cell_offs_lookup _. lia.
  - apply (bytes_ok_put_range b1 (hs + 8) (be_bytes 4 right)); [|apply be_bytes_ok|done].
    apply Hok1; [done|by unfold u8_ok|done].
  - rewrite (get_put_disjoint _ _ _ _ _ _ Hp) by lia. apply Hb.
Qed.

(** A table leaf cell as the writer frames it. *)
Lemma cell_head_intro rowid pl tail :
  i64_ok rowid → u64_ok pl →
  decode_cell_head (encode_varint pl ++ encode_varint (wrap64 rowid) ++ tail) 0 0 =
    Ok (rowid, pl, varint_len pl + varint_len (wrap64 rowid)).
Proof.
  intros Hr Hp. pose proof (encode_varint_length pl) as L1. pose proof (varint_len_bounds pl).
  pose proof (encode_varint_length (wrap64 rowid)) as L2. pose proof (varint_len_bounds (wrap64 rowid)).
  unfold decode_cell_head. rewrite get_from_0. cbn [ok_or].
  rewrite decode_encode_varint by done. cbn [map_err fst snd].
  rewrite get_from_app by done. cbn [ok_or].
  rewrite decode_encode_varint by apply wrap64_ok. cbn [map_err fst snd].
  rewrite as_i64_wrap by done. rewrite (sat_add_page 0), sat_add_page by lia. done.
Qed.

Lemma table_cell_intro u rowid pl tail :
  i64_ok rowid → u64_ok pl → bytes_ok tail →
  zlen tail = cell_end u pl 0 false → zlen tail ≤ 65536 →
  table_cell u (encode_varint pl ++ encode_varint (wrap64 rowid) ++ tail) ∧
  cell_rowid (encode_varint pl ++ encode_varint (wrap64 rowid) ++ tail) = rowid.
Proof.
  intros Hr Hp Hok Ht Hl. pose proof (cell_head_intro rowid pl tail Hr Hp) as Hd. set (c := _ ++ _) in *.
  pose proof (encode_varint_length pl) as L1. pose proof (varint_len_bounds pl).
  pose proof (encode_varint_length (wrap64 rowid)) as L2. pose proof (varint_len_bounds (wrap64 rowid)).
  split; [|unfold cell_rowid; by rewrite Hd]. split.
  - unfold c. rewrite !bytes_ok_app. split_and!; auto using encode_varint_ok.
  - exists rowid, pl, (varint_len pl + varint_len (wrap64 rowid)). split; [done|].
    rewrite <- (Z.add_0_r (_ + _)), cell_end_shift by (destruct Hp; lia).
    unfold c. rewrite !length_app. lia.
Qed.

(** ** Properties *)

(** Leaf page round trip.  Rebuilding a leaf from well-formed cells
    succeeds exactly when header, pointers and cells fit the page; then the
    page is a table leaf of the same size with the bytes before its header
    (the file header on page 1) kept, and reading it back gives the same
    cells in the same order.  Otherwise the page is left untouched and the
    write is refused. *)
Theorem leaf_page_roundtrip (usable pn hs : Z) (cells : list bytes) (buf : bytes)
    (Hhs : 0 ≤ hs ≤ 100) (Hbuf : zlen buf ≤ 65536) (Hcells : Forall (table_cell usable) cells) :
  if decide (hs + 8 + cells_need cells ≤ zlen buf) then
    ∃ buf', write_leaf_page hs pn cells buf = (buf', Ok ()) ∧
      collect_leaf_cells buf' hs pn usable = Ok (map keyed cells) ∧
      read_page_type buf' hs pn = Ok LEAF_TABLE ∧
      zlen buf' = zlen buf ∧ get_range buf' 0 hs = get_range buf 0 hs
  else write_leaf_page hs pn cells buf = (buf, Err (BInternal "cells do not fit in page")).
Proof.
  case_decide as Hfit; [|apply write_page_refused; lia].
  assert (Hn : nonempty_cells cells)
    by (apply (table_cells_nonempty usable); [done|unfold cells_need in *; lia]).
  destruct (write_page_rebuilt hs pn LEAF_TABLE 8 cells buf) as (buf' & Hw & Hr & _); [lia..|done|].
  exists buf'. split_and!; [done| |by unfold read_page_type; rewrite (rb_type _ _ _ _ _ _ Hr)|apply Hr..].
  eapply collect_leaf_cells_eq; [apply Hr|lia|rewrite (rb_length _ _ _ _ _ _ Hr); lia| |done].
  unfold cells_need in *. lia.
Qed.

(** Interior page round trip.  An interior page rebuilt from routing
    entries and a rightmost child reads back as exactly those, on page 1 with
    the file header kept; a set of entries that does not fit is refused and
    leaves the page untouched. *)
Theorem interior_page_roundtrip (pn hs right : Z) (es : list (Z * Z)) (buf : bytes)
    (Hhs : 0 ≤ hs ≤ 100) (Hbuf : zlen buf ≤ 65536) (Hok : bytes_ok buf) (Hes : Forall entry_ok es) (Hright : u32_ok right) :
  if decide (hs + 12 + cells_need (interior_cells es) ≤ zlen buf) then
    ∃ buf', write_interior_page hs pn (interior_cells es) right buf = (buf', Ok ()) ∧
      collect_interior_entries buf' hs pn = Ok (es, right) ∧
      read_page_type buf' hs pn = Ok INTERIOR_TABLE ∧
      zlen buf' = zlen buf ∧ get_range buf' 0 hs = get_range buf 0 hs
  else write_interior_page hs pn (interior_cells es) right buf
       = (buf, Err (BInternal "cells do not fit in page")).
Proof.
  case_decide as Hfit.
  - destruct (write_interior_page_ok hs pn right es buf) as (buf' & Hw & Hi & Hl & _ & Hp);
      [done..|by apply bytes_ok_take|done|].
    exists buf'. split_and!; [done| | |done|done].
    + apply interior_page_collect; [done|lia|lia].
    + unfold read_page_type. destruct Hi as [-> _]. done.
  - unfold write_interior_page, b_bind. by rewrite write_page_refused by lia.
Qed.

