(* ===== verification/BtreeSplice.v ===== *)
(** * In-place edits of leaf pages ([row/btree/mod.rs])

    [splice_insert_cell] and [splice_delete_cell] change one cell of a leaf
    without rebuilding it, with the freeblock chain and the content-start
    field as bookkeeping.  [leaf_layout] is the invariant they keep: cells
    and freeblocks are disjoint extents of the content area, and the chain
    lists the freeblocks in order, never two of them adjacent. *)

From S2P Require Import Prelude Varint Vfs Freelist Pager BtreePage.

(** ** Operations *)

(** The loop of [walk_freeblocks] with [fuel = MAX_FREEBLOCKS - n]. *)
Fixpoint walk_freeblocks_loop (fuel : nat) (page : bytes) (page_num off : Z)
  : result BtreeError (list (Z * Z)) :=
  if decide (off = 0) then Ok []
  else
    match fuel with
    | O => Err (TraversalTooLong MAX_FREEBLOCKS)
    | S fuel =>
        let? next := read_u16 page off page_num in
        let? size := read_u16 page (sat_add off 2) page_num in
        let? out := walk_freeblocks_loop fuel page page_num next in
        Ok ((off, size) :: out)
    end.

Definition walk_freeblocks (page : bytes) (header_start page_num : Z)
  : result BtreeError (list (Z * Z)) :=
  let? off := read_first_freeblock page header_start page_num in
  walk_freeblocks_loop (Z.to_nat MAX_FREEBLOCKS) page page_num off.

Definition first_block (blocks : list (Z * Z)) : Z :=
  match blocks with (o, _) :: _ => o | [] => 0 end.

Fixpoint write_blocks (page_num : Z) (blocks : list (Z * Z)) : buf_op () :=
  match blocks with
  | [] => b_ok ()
  | (off, size) :: rest =>
      let& _ := write_u16 off (first_block rest) page_num in
      let& _ := write_u16 (sat_add off 2) size page_num in
      write_blocks page_num rest
  end.

Definition write_freeblock_chain (header_start page_num : Z) (blocks : list (Z * Z)) : buf_op () :=
  let& _ := write_blocks page_num blocks in
  write_u16 (sat_add header_start 1) (first_block blocks) page_num.

(** [blocks.partition_point(|&(o, _)| o < start)], for blocks in ascending
    order. *)
Fixpoint partition_point (start : Z) (blocks : list (Z * Z)) : nat :=
  match blocks with
  | (o, _) :: rest => if decide (o < start) then S (partition_point start rest) else O
  | [] => O
  end.

Definition add_freeblock (blocks : list (Z * Z)) (start size : Z) : list (Z * Z) :=
  let pos := partition_point start blocks in
  let '(new_start, new_size, insert_pos, blocks) :=
    match pos with
    | O => (start, size, pos, blocks)
    | S prev =>
        match blocks !! prev with
        | Some (prev_off, prev_size) =>
            if decide (sat_add prev_off prev_size = start)
            then (prev_off, sat_add size prev_size, prev, delete prev blocks)
            else (start, size, pos, blocks)
        | None => (start, size, pos, blocks)
        end
    end in
  let '(new_size, blocks) :=
    match blocks !! insert_pos with
    | Some (next_off, next_size) =>
        if decide (sat_add new_start new_size = next_off)
        then (sat_add new_size next_size, delete insert_pos blocks)
        else (new_size, blocks)
    | None => (new_size, blocks)
    end in
  insert_at insert_pos (new_start, new_size) blocks.

(** [for i in (index..index+k).rev()]: pointers [index..] one place up. *)
Fixpoint shift_right (k : nat) (index ptr_base page_num : Z) : buf_op () :=
  match k with
  | O => b_ok ()
  | S k =>
      let i := index + Z.of_nat k in
      let& v := b_get (λ buf, read_cell_pointer buf (cell_ptr_offset ptr_base i) page_num i) in
      let& _ := write_u16 (cell_ptr_offset ptr_base (sat_add i 1)) v page_num in
      shift_right k index ptr_base page_num
  end.

Definition splice_insert_cell (header_start page_num index : Z) (cell : bytes) : buf_op bool :=
  let& num_cells := b_get (λ buf, read_num_cells buf header_start page_num) in
  let ptr_base := sat_add header_start 8 in
  let& content_start := b_get (λ buf, read_content_start buf header_start page_num) in
  let ptr_end := cell_ptr_offset ptr_base num_cells in
  let needed := sat_add (zlen cell) 2 in
  if decide (content_start < ptr_end ∨ sat_sub content_start ptr_end < needed) then b_ok false
  else
    let new_content_start := sat_sub content_start (zlen cell) in
    let& _ := bt_put new_content_start cell page_num in
    let& _ := shift_right (Z.to_nat (num_cells - index)) index ptr_base page_num in
    let& _ := write_u16 (cell_ptr_offset ptr_base index) new_content_start page_num in
    let& _ := write_content_start header_start new_content_start page_num in
    let& _ := write_u16 (sat_add header_start 3) (sat_add num_cells 1) page_num in
    b_ok true.

(** [for i in i..i+k]: pointers above [i] one place down. *)
Fixpoint shift_left (k : nat) (i ptr_base page_num : Z) : buf_op () :=
  match k with
  | O => b_ok ()
  | S k =>
      let& v := b_get (λ buf, read_cell_pointer buf (cell_ptr_offset ptr_base (sat_add i 1)) page_num
                                (sat_add i 1)) in
      let& _ := write_u16 (cell_ptr_offset ptr_base i) v page_num in
      shift_left k (i + 1) ptr_base page_num
  end.

(** [if let Some(slice) = buf.get_mut(a..b) { slice.fill(0) }]. *)
Definition fill_zero (a b : Z) : buf_op () := λ buf,
  (if decide (a ≤ b) then default buf (put_range buf a (zeros (b - a))) else buf, Ok ()).

(** The [while let Some(pos)] loop: the content area starts past every
    freeblock that begins where it starts. *)
Fixpoint absorb_blocks (fuel : nat) (blocks : list (Z * Z)) (content_start : Z)
  : list (Z * Z) * Z :=
  match fuel with
  | O => (blocks, content_start)
  | S fuel =>
      match list_find (λ b : Z * Z, b.1 = content_start) blocks with
      | Some (pos, (_, size)) =>
          absorb_blocks fuel (delete pos blocks) (sat_add content_start size)
      | None => (blocks, content_start)
      end
  end.

Definition splice_delete_cell (header_start page_num usable_size index : Z) (has_rowid : bool)
  : buf_op () :=
  let& num_cells := b_get (λ buf, read_num_cells buf header_start page_num) in
  if decide (num_cells ≤ index)
  then b_get (λ _, Err (BInternal "splice_delete_cell: index out of bounds"))
  else
    let ptr_base := sat_add header_start 8 in
    let& cell_start := b_get (λ buf, read_cell_pointer buf (cell_ptr_offset ptr_base index) page_num index) in
    let& pt := b_get (λ buf,
      if has_rowid then
        let? h := decode_cell_head buf cell_start page_num in
        let '(_, payload_len, tail_start) := h in Ok (payload_len, tail_start)
      else decode_payload_len buf cell_start page_num) in
    let e := cell_end usable_size pt.1 pt.2 (negb has_rowid) in
    let cell_len := sat_sub e cell_start in
    let& _ := shift_left (Z.to_nat (sat_sub num_cells 1 - index)) index ptr_base page_num in
    let& _ := write_u16 (sat_add header_start 3) (sat_sub num_cells 1) page_num in
    let& _ := fill_zero cell_start e in
    let& content_start := b_get (λ buf, read_content_start buf header_start page_num) in
    if decide (cell_start = content_start) then
      let& blocks := b_get (λ buf, walk_freeblocks buf header_start page_num) in
      let '(blocks, new_content_start) := absorb_blocks (length blocks) blocks e in
      let& _ := write_content_start header_start new_content_start page_num in
      write_freeblock_chain header_start page_num blocks
    else if decide (cell_len < MIN_FREEBLOCK_SIZE) then
      let& frag := b_get (λ buf, read_fragmented_bytes buf header_start page_num) in
      write_fragmented_bytes header_start (Z.min (frag + wrap8 cell_len) U8_MAX) page_num
    else
      let& blocks := b_get (λ buf, walk_freeblocks buf header_start page_num) in
      write_freeblock_chain header_start page_num (add_freeblock blocks cell_start cell_len).

(** ** Extents *)

Definition apart (e f : Z * Z) : Prop := e.1 + e.2 ≤ f.1 ∨ f.1 + f.2 ≤ e.1.

Fixpoint separate (l : list (Z * Z)) : Prop :=
  match l with [] => True | e :: l => Forall (apart e) l ∧ separate l end.

#[global] Instance apart_sym : Symmetric apart.
Proof. intros e f [?|?]; [by right|by left]. Qed.

#[global] Instance separate_proper : Proper ((≡ₚ) ==> iff) separate.
Proof.
  assert (H : ∀ l k, l ≡ₚ k → separate l → separate k).
  { induction 1 as [|e l k Hp IH|e f l|l1 l2 l3 _ IH1 _ IH2]; cbn; [done| | |auto].
    - intros [Hf Hs]. split; [by rewrite <- Hp|auto].
    - rewrite !Forall_cons. intros ([He ?] & ? & ?). split_and!; try done; by symmetry. }
  intros l k Hp. split; apply H; [done|by symmetry].
Qed.

Lemma separate_app l k :
  separate (l ++ k) ↔ separate l ∧ separate k ∧ Forall (λ e, Forall (apart e) k) l.
Proof.
  induction l as [|e l IH]; cbn; [rewrite Forall_nil; tauto|].
  rewrite Forall_app, Forall_cons, IH. tauto.
Qed.

(** Freeblocks in chain order: ascending and never adjacent. *)
Abbreviation ascending := (StronglySorted (λ a b : Z * Z, a.1 + a.2 < b.1)).

Lemma ascending_separate l : Forall (λ b, 0 ≤ b.2) l → ascending l → separate l.
Proof.
  intros Hn Hs. induction Hs as [|b l Hs IH Hb]; [done|]. apply Forall_cons in Hn as [? Hn].
  split; [|by apply IH]. eapply Forall_impl; [exact Hb|]. intros f Hf. left. cbn in Hf. lia.
Qed.

Lemma ascending_app l k :
  ascending (l ++ k) ↔ ascending l ∧ ascending k ∧ Forall (λ a, Forall (λ b, a.1 + a.2 < b.1) k) l.
Proof.
  induction l as [|e l IH]; cbn.
  { split; [|tauto]. intros. split_and!; [constructor|done|constructor]. }
  split.
  - intros Hs. apply StronglySorted_inv in Hs as [Hs Hf]. apply Forall_app in Hf as [? ?].
    apply IH in Hs as (? & ? & ?). split_and!; [by constructor|done|by constructor].
  - intros (Hs & Hk & Hf). apply StronglySorted_inv in Hs as [? ?].
    apply Forall_cons in Hf as [? ?]. constructor; [by apply IH|by apply Forall_app].
Qed.

Definition block_total (l : list (Z * Z)) : Z := foldr (λ b acc, b.2 + acc) 0 l.

Lemma block_total_app l k : block_total (l ++ k) = block_total l + block_total k.
Proof. unfold block_total. induction l as [|b l IH]; cbn; [done|]. rewrite IH. lia. Qed.

Lemma block_total_cons b l : block_total (b :: l) = b.2 + block_total l.
Proof. done. Qed.

(** ** The freeblock list *)

Lemma partition_point_split start blocks :
  ascending blocks → Forall (λ b, 0 ≤ b.2) blocks →
  ∃ L R, blocks = L ++ R ∧ partition_point start blocks = length L ∧
    Forall (λ b, b.1 < start) L ∧ Forall (λ b, start ≤ b.1) R.
Proof.
  induction 1 as [|[o s] l Hs IH Hb]; intros Hn; cbn [partition_point].
  { by exists [], []. }
  apply Forall_cons in Hn as [Hs0 Hn]. cbn in Hs0. case_decide.
  - destruct IH as (L & R & -> & -> & ? & ?); [done|]. exists ((o, s) :: L), R.
    split_and!; [done..|by constructor|done].
  - exists [], ((o, s) :: l). split_and!; [done..|]. constructor; [cbn; lia|].
    eapply Forall_impl; [exact Hb|]. cbn. intros. lia.
Qed.

Lemma sat_sum_small a b : a + b ≤ 131072 → sat_add a b = a + b.
Proof. intros. apply sat_add_small. etrans; [done|]. done. Qed.

Lemma insert_at_app {A} (l k : list A) x : insert_at (length l) x (l ++ k) = l ++ x :: k.
Proof. unfold insert_at. by rewrite take_app_length, drop_app_length. Qed.

Lemma delete_app {A} (l k : list A) x : delete (length l) (l ++ x :: k) = l ++ k.
Proof. by rewrite delete_middle. Qed.

(** The second half of [add_freeblock]: merging with the block after. *)
Lemma add_next A R ns sz :
  ascending R → Forall (λ b, 1 ≤ b.2 ∧ 0 ≤ b.1 ∧ b.1 + b.2 ≤ 65536) R → 0 ≤ ns → 0 ≤ sz → ns + sz ≤ 65536 →
  Forall (λ b, ns + sz ≤ b.1) R →
  ∃ N R', R = N ++ R' ∧ (N = [] ∨ ∃ nz, N = [(ns + sz, nz)]) ∧
    Forall (λ b, ns + (sz + block_total N) < b.1) R' ∧
    (let '(sz', B) :=
       match (A ++ R) !! length A with
       | Some (no, nz) =>
           if decide (sat_add ns sz = no) then (sat_add sz nz, delete (length A) (A ++ R)) else (sz, A ++ R)
       | None => (sz, A ++ R)
       end in insert_at (length A) (ns, sz') B) = A ++ (ns, sz + block_total N) :: R'.
Proof.
  intros Hs Hb Hns Hsz He HR. rewrite lookup_app_r, Nat.sub_diag by lia.
  destruct R as [|[no nz] R].
  { exists [], []. cbn. rewrite insert_at_app. split_and!; [done|by left|done|]. by rewrite Z.add_0_r. }
  cbn [lookup list_lookup]. rewrite sat_sum_small by lia.
  apply StronglySorted_inv in Hs as [Hs Hlt]. apply Forall_cons in HR as [Hno HR].
  apply Forall_cons in Hb as [[? [? ?]] Hb]. cbn in *. case_decide as Heq.
  - subst no. exists [(ns + sz, nz)], R. rewrite delete_app, insert_at_app, sat_sum_small by lia.
    split_and!; [done|by right; eauto| |].
    + eapply Forall_impl; [exact Hlt|]. cbn. intros. lia.
    + cbn. by rewrite Z.add_0_r.
  - exists [], ((no, nz) :: R). rewrite insert_at_app. split_and!; [done|by left| |].
    + cbn. constructor; [cbn; lia|]. eapply Forall_impl; [exact Hlt|]. cbn. intros. lia.
    + cbn. by rewrite Z.add_0_r.
Qed.

(** Where a freed extent goes: [P] and [N] are the blocks it merges with. *)
Lemma add_freeblock_merges blocks start size :
  ascending blocks → Forall (λ b, 1 ≤ b.2) blocks → 1 ≤ size →
  Forall (apart (start, size)) blocks →
  Forall (λ b, 0 ≤ b.1 ∧ b.1 + b.2 ≤ 65536) ((start, size) :: blocks) →
  ∃ L P N R, blocks = L ++ P ++ N ++ R ∧
    (P = [] ∨ ∃ po ps, P = [(po, ps)] ∧ po + ps = start) ∧
    (N = [] ∨ ∃ nz, N = [(start + size, nz)]) ∧
    let x := (start - block_total P, block_total P + size + block_total N) in
    Forall (λ b, b.1 + b.2 < x.1) L ∧ Forall (λ b, x.1 + x.2 < b.1) R ∧
    add_freeblock blocks start size = L ++ x :: R.
Proof.
  intros Hs Hn Hsz Hap Hbd. apply Forall_cons in Hbd as [Hb0 Hbd]. cbn in Hb0.
  destruct (partition_point_split start blocks Hs) as (L & R & -> & Hpos & HL & HR).
  { eapply Forall_impl; [exact Hn|]. cbn. lia. }
  apply ascending_app in Hs as (HsL & HsR & HLR).
  apply Forall_app in Hn as [HnL HnR]. apply Forall_app in Hap as [HaL HaR].
  apply Forall_app in Hbd as [HbL HbR].
  (* everything in [L] ends by [start], everything in [R] begins past the extent *)
  assert (HeL : Forall (λ b, b.1 + b.2 ≤ start) L).
  { apply Forall_forall. intros b Hb. rewrite Forall_forall in HL, HnL, HaL.
    specialize (HL b Hb). specialize (HnL b Hb). destruct (HaL b Hb); cbn in *; lia. }
  assert (HeR : Forall (λ b, start + size ≤ b.1) R).
  { apply Forall_forall. intros b Hb. rewrite Forall_forall in HR, HnR, HaR.
    specialize (HR b Hb). specialize (HnR b Hb). destruct (HaR b Hb); cbn in *; lia. }
  assert (Hb2 : Forall (λ b : Z * Z, 1 ≤ b.2 ∧ 0 ≤ b.1 ∧ b.1 + b.2 ≤ 65536) R)
    by (apply Forall_and; split; [done|apply Forall_and; split; (eapply Forall_impl; [exact HbR|]; tauto)]).
  unfold add_freeblock. rewrite Hpos.
  destruct (nil_or_snoc L) as [->|(L' & [po ps] & ->)]; cbn [length].
  { destruct (add_next [] R start size HsR) as (N & R' & -> & HN & HR' & Hadd); [done|lia..|done|].
    exists [], [], N, R'. split_and!; [done|by left| |done| |].
    - destruct HN as [->|[nz ->]]; eauto.
    - cbn. eapply Forall_impl; [exact HR'|]. cbn. intros. lia.
    - cbn [app length] in Hadd |- *. rewrite Hadd. cbn. do 2 f_equal; lia. }
  rewrite length_app. cbn [length]. rewrite Nat.add_1_r.
  rewrite lookup_app_l, lookup_app_r, Nat.sub_diag by (rewrite ?length_app; cbn; lia). cbn [lookup list_lookup].
  apply ascending_app in HsL as (_ & _ & HsL).
  apply Forall_app in HeL as [HeL HeP]. apply Forall_app in HnL as [_ HnP]. apply Forall_app in HbL as [HbL' HbP].
  apply Forall_cons in HeP as [HeP _], HnP as [HnP _], HbP as [HbP _]. cbn in HeP, HnP, HbP.
  assert (HL' : Forall (λ b, b.1 + b.2 < po) L').
  { apply Forall_forall. intros b Hb. rewrite Forall_forall in HsL.
    specialize (HsL b Hb). by apply Forall_cons in HsL as [? _]. }
  rewrite (sat_sum_small po) by lia. case_decide as Heq.
  - rewrite <- (assoc_L (++) L'). cbn [app]. rewrite delete_app, (sat_sum_small size) by lia.
    destruct (add_next L' R po (size + ps) HsR) as (N & R' & -> & HN & HR' & Hadd); [done|lia..| |].
    { eapply Forall_impl; [exact HeR|]. cbn. intros. lia. }
    exists L', [(po, ps)], N, R'. split_and!; [done|by right; eauto| | | |].
    + destruct HN as [->|[nz ->]]; [by left|right]. exists nz. do 2 f_equal. lia.
    + cbn. eapply Forall_impl; [exact HL'|]. cbn. intros. lia.
    + cbn. eapply Forall_impl; [exact HR'|]. cbn. intros. lia.
    + rewrite Hadd. cbn. do 2 f_equal. f_equal; lia.
  - replace (S (length L')) with (length (L' ++ [(po, ps)])) by (rewrite length_app; cbn; lia).
    destruct (add_next (L' ++ [(po, ps)]) R start size HsR) as (N & R' & -> & HN & HR' & Hadd);
      [done|lia..|done|].
    exists (L' ++ [(po, ps)]), [], N, R'. split_and!; [done|by left| | | |].
    + destruct HN as [->|[nz ->]]; eauto.
    + cbn. rewrite Z.sub_0_r. apply Forall_app. split; [|constructor; [cbn; lia|done]].
      eapply Forall_impl; [exact HL'|]. cbn. intros. lia.
    + cbn. eapply Forall_impl; [exact HR'|]. cbn. intros. lia.
    + rewrite Hadd. cbn. do 2 f_equal. f_equal; lia.
Qed.

(** ** The chain on the page *)

Fixpoint free_chain (buf : bytes) (off : Z) (blocks : list (Z * Z)) : Prop :=
  match blocks with
  | [] => off = 0
  | (o, s) :: rest => off = o ∧ o ≠ 0 ∧ read_be 2 buf (o + 2) = Some s ∧
      ∃ next, read_be 2 buf o = Some next ∧ free_chain buf next rest
  end.

Definition in_page (len lo : Z) (e : Z * Z) : Prop := lo ≤ e.1 ∧ 1 ≤ e.2 ∧ e.1 + e.2 ≤ len.

Lemma free_chain_ext buf buf' off blocks :
  length buf' = length buf → zlen buf ≤ 65536 →
  Forall (λ b, get_range buf' b.1 (b.1 + 4) = get_range buf b.1 (b.1 + 4) ∧ 0 ≤ b.1 ∧ b.1 + 4 ≤ zlen buf) blocks →
  free_chain buf off blocks → free_chain buf' off blocks.
Proof.
  intros Hlen Hle Hf. revert off. induction Hf as [|[o s] l [Hg Ho] _ IH]; intros off; cbn; [done|].
  cbn in Hg, Ho. intros (-> & ? & Hs & next & Hn & Hc).
  assert (Hr : ∀ d, 0 ≤ d ≤ 2 → read_be 2 buf' (o + d) = read_be 2 buf (o + d)).
  { intros d Hd. unfold read_be. change (Z.of_nat 2) with 2. rewrite sat_add_page by lia. f_equal.
    apply get_range_sub_eq with (1 := Hg); lia. }
  split_and!; [done..|by rewrite Hr by lia|]. exists next. split; [|by apply IH].
  rewrite <- Hn, <- (Z.add_0_r o). apply Hr. lia.
Qed.

Lemma walk_freeblocks_eq buf hs pn first blocks :
  0 ≤ hs ≤ 100 → read_be 2 buf (hs + 1) = Some first → free_chain buf first blocks →
  Forall (in_page 65536 0) blocks → zlen blocks ≤ MAX_FREEBLOCKS → walk_freeblocks buf hs pn = Ok blocks.
Proof.
  intros Hhs Hf Hc Hin Hn. unfold walk_freeblocks, read_first_freeblock, read_u16.
  rewrite sat_add_page, Hf by lia. cbn [ok_or].
  assert (Hfuel : (length blocks ≤ Z.to_nat MAX_FREEBLOCKS)%nat) by lia. clear Hn Hf.
  revert first Hc Hfuel. generalize (Z.to_nat MAX_FREEBLOCKS) as fuel.
  induction Hin as [|[o s] l Ho _ IH]; intros fuel first Hc Hfuel; cbn [free_chain] in Hc.
  { subst. by destruct fuel. }
  destruct Hc as (-> & Ho0 & Hs & next & Hn & Hc). destruct fuel as [|fuel]; cbn in Hfuel; [lia|].
  cbn [walk_freeblocks_loop]. rewrite decide_False by done. unfold read_u16.
  unfold in_page in Ho. cbn in Ho. rewrite Hn. cbn [ok_or]. rewrite sat_add_page, Hs by lia. cbn [ok_or].
  by rewrite (IH fuel next) by (done || lia).
Qed.

Lemma write_u16_ok off v pn buf :
  0 ≤ off → off + 2 ≤ zlen buf → zlen buf ≤ 65536 → 0 ≤ v < 65536 →
  ∃ buf', write_u16 off v pn buf = (buf', Ok ()) ∧ same_outside buf buf' off (off + 2) ∧
    read_be 2 buf' off = Some v ∧ (bytes_ok buf → bytes_ok buf').
Proof.
  intros Ho Hl Hlen Hv. unfold write_u16, bt_put, wrap16. rewrite Z.mod_small by done.
  destruct (put_range_is_Some buf off (be_bytes 2 v)) as [buf' Hp]; [done|rewrite be_bytes_length; lia|].
  rewrite Hp. exists buf'. split_and!; [done| | |].
  - pose proof (so_put _ _ _ _ Hp) as Hs. by rewrite be_bytes_length in Hs.
  - apply (read_be_put_same _ _ _ _ _ Hp); [|done]. apply (Z.le_trans _ 131072); [lia|done].
  - intros. eapply bytes_ok_put_range; [done|apply be_bytes_ok|done].
Qed.

Lemma first_block_u16 blocks : Forall (in_page 65536 0) blocks → 0 ≤ first_block blocks < 65536.
Proof. destruct 1 as [|[o s] l Ho _]; cbn; [lia|]. unfold in_page in Ho. cbn in Ho. lia. Qed.

(** Rewriting the chain touches only the freeblocks. *)
Lemma write_blocks_ok pn blocks buf :
  zlen buf ≤ 65536 → ascending blocks →
  Forall (λ b, 0 < b.1 ∧ 4 ≤ b.2 < 65536 ∧ b.1 + b.2 ≤ zlen buf) blocks →
  ∃ buf', write_blocks pn blocks buf = (buf', Ok ()) ∧ length buf' = length buf ∧
    (bytes_ok buf → bytes_ok buf') ∧ free_chain buf' (first_block blocks) blocks ∧
    ∀ x y, Forall (λ b, y ≤ b.1 ∨ b.1 + b.2 ≤ x) blocks → get_range buf' x y = get_range buf x y.
Proof.
  intros Hlen Hs. revert buf Hlen. induction Hs as [|[o s] l Hs IH Hlt]; intros buf Hlen Hin; cbn [write_blocks].
  { exists buf. done. }
  apply Forall_cons in Hin as [Ho Hin]. cbn in Ho.
  assert (Hin' : Forall (in_page 65536 0) l).
  { eapply Forall_impl; [exact Hin|]. intros [a z]. unfold in_page. cbn. lia. }
  destruct (write_u16_ok o (first_block l) pn buf) as (b1 & H1 & S1 & R1 & K1); [lia..|by apply first_block_u16|].
  destruct S1 as [L1 S1]. assert (S1' : same_outside buf b1 o (o + 2)) by done.
  destruct (write_u16_ok (o + 2) s pn b1) as (b2 & H2 & S2 & R2 & K2); [lia..|].
  destruct S2 as [L2 S2]. assert (S2' : same_outside b1 b2 (o + 2) (o + 2 + 2)) by done.
  destruct (IH b2) as (b3 & H3 & L3 & K3 & C3 & G3); [lia|by rewrite L2, L1|].
  assert (Hhead : get_range b3 o (o + 4) = get_range b2 o (o + 4)).
  { apply G3. eapply Forall_impl; [exact Hlt|]. cbn. intros. lia. }
  assert (Hr : ∀ d, 0 ≤ d ≤ 2 → read_be 2 b3 (o + d) = read_be 2 b2 (o + d)).
  { intros d Hd. unfold read_be. change (Z.of_nat 2) with 2. rewrite sat_add_page by lia. f_equal.
    apply get_range_sub_eq with (1 := Hhead); lia. }
  exists b3. unfold b_bind. rewrite H1, sat_add_page, H2 by lia. split_and!; [done|congruence|tauto| |].
  - cbn. split_and!; [done|lia|by rewrite Hr by lia|]. exists (first_block l). split; [|done].
    rewrite <- (Z.add_0_r o), Hr, Z.add_0_r by lia. by rewrite (so_read_be 2 _ _ _ _ _ S2') by lia.
  - intros x y Hxy. apply Forall_cons in Hxy as [? Hxy]. cbn in *. rewrite G3 by done.
    rewrite (so_get_range _ _ _ _ _ _ S2'), (so_get_range _ _ _ _ _ _ S1') by lia. done.
Qed.

Lemma write_chain_ok hs pn blocks buf :
  0 ≤ hs ≤ 100 → zlen buf ≤ 65536 → ascending blocks →
  Forall (λ b, hs + 8 ≤ b.1 ∧ 4 ≤ b.2 < 65536 ∧ b.1 + b.2 ≤ zlen buf) blocks → hs + 8 ≤ zlen buf →
  ∃ buf', write_freeblock_chain hs pn blocks buf = (buf', Ok ()) ∧ length buf' = length buf ∧
    (bytes_ok buf → bytes_ok buf') ∧
    read_be 2 buf' (hs + 1) = Some (first_block blocks) ∧ free_chain buf' (first_block blocks) blocks ∧
    ∀ x y, Forall (λ b, y ≤ b.1 ∨ b.1 + b.2 ≤ x) blocks → (y ≤ hs + 1 ∨ hs + 3 ≤ x) →
      get_range buf' x y = get_range buf x y.
Proof.
  intros Hhs Hlen Hs Hin Hl8.
  destruct (write_blocks_ok pn blocks buf) as (b1 & H1 & L1 & K1 & C1 & G1); [done..| |].
  { eapply Forall_impl; [exact Hin|]. cbn. intros. lia. }
  destruct (write_u16_ok (hs + 1) (first_block blocks) pn b1) as (b2 & H2 & S2 & R2 & K2); [lia..| |].
  { apply first_block_u16. eapply Forall_impl; [exact Hin|]. unfold in_page. intros. lia. }
  exists b2. unfold write_freeblock_chain, b_bind. rewrite H1, sat_add_page, H2 by lia.
  pose proof (proj1 S2) as L2. split_and!; [done|congruence|tauto|done| |].
  - eapply free_chain_ext; [exact L2|lia| |exact C1].
    eapply Forall_impl; [exact Hin|]. cbn. intros b Hb. split_and!; [|lia..].
    apply (so_get_range _ _ _ _ _ _ S2). lia.
  - intros x y Hxy Hd. rewrite (so_get_range _ _ _ _ _ _ S2) by lia. by apply G1.
Qed.

(** ** Layout of a leaf page *)

Definition cell_exts (cells : list bytes) (offs : list Z) : list (Z * Z) :=
  zip_with (λ o c, (o, zlen c)) offs cells.

Record leaf_layout (buf : bytes) (hs : Z) (cells : list bytes) (offs : list Z) (cs : Z)
    (blocks : list (Z * Z)) : Prop := {
  ll_ok : bytes_ok buf;
  ll_size : zlen buf ≤ 65536;
  ll_hs : 0 ≤ hs ≤ 100;
  ll_cells : has_cells buf hs 8 cells offs;
  ll_content : read_be 2 buf (hs + 5) = Some (if decide (cs = 65536) then 0 else cs);
  ll_gap : hs + 8 + 2 * zlen cells ≤ cs ≤ zlen buf;
  ll_chain : ∃ first, read_be 2 buf (hs + 1) = Some first ∧ free_chain buf first blocks;
  ll_in : Forall (in_page (zlen buf) cs) (cell_exts cells offs ++ blocks);
  ll_sep : separate (cell_exts cells offs ++ blocks);
  ll_min : Forall (λ b, 4 ≤ b.2) blocks;
  ll_asc : ascending blocks;
}.

Lemma cell_exts_lookup cells offs i o c :
  offs !! i = Some o → cells !! i = Some c → cell_exts cells offs !! i = Some (o, zlen c).
Proof. intros Ho Hc. unfold cell_exts. by rewrite lookup_zip_with, Ho, Hc. Qed.

Lemma leaf_read_content buf hs cells offs cs blocks pn :
  leaf_layout buf hs cells offs cs blocks → read_content_start buf hs pn = Ok cs.
Proof.
  intros H. pose proof (ll_hs _ _ _ _ _ _ H). pose proof (ll_gap _ _ _ _ _ _ H).
  pose proof (ll_size _ _ _ _ _ _ H). unfold read_content_start, read_u16.
  rewrite sat_add_page, (ll_content _ _ _ _ _ _ H) by lia. cbn [ok_or]. f_equal.
  destruct (decide (cs = 65536)) as [->|]; [done|]. by rewrite decide_False by lia.
Qed.

Lemma leaf_count buf hs cells offs cs blocks :
  leaf_layout buf hs cells offs cs blocks → zlen cells ≤ 32768 ∧ length offs = length cells.
Proof.
  intros H. pose proof (ll_gap _ _ _ _ _ _ H). pose proof (ll_size _ _ _ _ _ _ H).
  pose proof (ll_hs _ _ _ _ _ _ H). split; [lia|apply (ll_cells _ _ _ _ _ _ H)].
Qed.

Lemma length_cell_exts cells offs : length offs = length cells → length (cell_exts cells offs) = length cells.
Proof. intros. unfold cell_exts. rewrite length_zip_with. lia. Qed.

Lemma cell_exts_insert cells offs i o c :
  length offs = length cells → (i ≤ length cells)%nat →
  cell_exts (insert_at i c cells) (insert_at i o offs) = insert_at i (o, zlen c) (cell_exts cells offs).
Proof.
  intros Hl Hi. unfold cell_exts, insert_at.
  rewrite zip_with_app by (rewrite !length_take; lia). cbn. f_equal; [symmetry; apply zip_with_take|].
  f_equal. by rewrite zip_with_drop.
Qed.

(** ** Moving the cell pointers *)

Lemma shift_right_ok k index base pn buf :
  0 ≤ index → 0 ≤ base ≤ 200 → index + Z.of_nat k ≤ 65536 → zlen buf ≤ 65536 → bytes_ok buf →
  base + 2 * (index + Z.of_nat k + 1) ≤ zlen buf →
  ∃ buf', shift_right k index base pn buf = (buf', Ok ()) ∧ bytes_ok buf' ∧
    same_outside buf buf' (base + 2 * index) (base + 2 * (index + Z.of_nat k + 1)) ∧
    ∀ j, index ≤ j < index + Z.of_nat k → read_be 2 buf' (base + 2 * (j + 1)) = read_be 2 buf (base + 2 * j).
Proof.
  intros Hi Hb Hk Hlen. revert buf Hlen. induction k as [|k IH]; intros buf Hlen Hok Hfit; cbn [shift_right].
  { exists buf. split_and!; [done|done|apply so_refl|lia]. }
  set (i := index + Z.of_nat k). unfold b_bind at 1, b_get, read_cell_pointer.
  rewrite (cell_ptr_offset_eq base i) by lia.
  assert (HU : 400000 ≤ USIZE_MAX) by done.
  destruct (read_be_is_Some 2 buf (base + 2 * i)) as [v Hv]; [lia..|]. rewrite Hv. cbn [ok_or].
  pose proof (read_be_bound 2 buf _ _ Hok Hv ltac:(lia)) as Hvb.
  rewrite (sat_add_page i), cell_ptr_offset_eq by lia.
  destruct (write_u16_ok (base + 2 * (i + 1)) v pn buf) as (b1 & H1 & S1 & R1 & K1); [lia..|].
  unfold b_bind at 1. rewrite H1. pose proof (proj1 S1) as L1.
  destruct (IH ltac:(lia) b1 ltac:(lia) (K1 Hok) ltac:(lia)) as (b2 & H2 & K2 & S2 & R2).
  rewrite H2. exists b2. split_and!; [done|done| |].
  - apply (so_trans _ _ _ _ _ _ _ _ _ S1 S2); lia.
  - intros j Hj. destruct (decide (j = i)) as [->|Hne].
    + rewrite (so_read_be 2 _ _ _ _ _ S2) by lia. by rewrite R1.
    + rewrite R2 by lia. by rewrite (so_read_be 2 _ _ _ _ _ S1) by lia.
Qed.

Lemma shift_left_ok k i base pn buf :
  0 ≤ i → 0 ≤ base ≤ 200 → i + Z.of_nat k < 65536 → zlen buf ≤ 65536 → bytes_ok buf →
  base + 2 * (i + Z.of_nat k + 1) ≤ zlen buf →
  ∃ buf', shift_left k i base pn buf = (buf', Ok ()) ∧ bytes_ok buf' ∧
    same_outside buf buf' (base + 2 * i) (base + 2 * (i + Z.of_nat k)) ∧
    ∀ j, i ≤ j < i + Z.of_nat k → read_be 2 buf' (base + 2 * j) = read_be 2 buf (base + 2 * (j + 1)).
Proof.
  intros Hi Hb. revert i Hi buf. induction k as [|k IH]; intros i Hi buf Hk Hlen Hok Hfit; cbn [shift_left].
  { exists buf. split_and!; [done|done|apply so_refl|lia]. }
  unfold b_bind at 1, b_get, read_cell_pointer.
  rewrite (sat_add_page i), !cell_ptr_offset_eq by lia.
  assert (HU : 400000 ≤ USIZE_MAX) by done.
  destruct (read_be_is_Some 2 buf (base + 2 * (i + 1))) as [v Hv]; [lia..|]. rewrite Hv. cbn [ok_or].
  pose proof (read_be_bound 2 buf _ _ Hok Hv ltac:(lia)) as Hvb.
  destruct (write_u16_ok (base + 2 * i) v pn buf) as (b1 & H1 & S1 & R1 & K1); [lia..|].
  unfold b_bind at 1. rewrite H1. pose proof (proj1 S1) as L1.
  destruct (IH (i + 1) ltac:(lia) b1 ltac:(lia) ltac:(lia) (K1 Hok) ltac:(lia)) as (b2 & H2 & K2 & S2 & R2).
  rewrite H2. exists b2. split_and!; [done|done| |].
  - apply (so_trans _ _ _ _ _ _ _ _ _ S1 S2); lia.
  - intros j Hj. destruct (decide (j = i)) as [->|Hne].
    + rewrite (so_read_be 2 _ _ _ _ _ S2) by lia. by rewrite R1.
    + rewrite R2 by lia. by rewrite (so_read_be 2 _ _ _ _ _ S1) by lia.
Qed.

(** ** Inserting a cell *)

(** The five writes of a successful splice, composed: everything at or above
    the old content start and everything before the page header is kept. *)
Lemma splice_insert_writes buf hs cells offs cs blocks index cell pn :
  leaf_layout buf hs cells offs cs blocks → 0 ≤ index ≤ zlen cells → 1 ≤ zlen cell → bytes_ok cell →
  hs + 8 + 2 * (zlen cells + 1) + zlen cell ≤ cs →
  ∃ buf', splice_insert_cell hs pn index cell buf = (buf', Ok true) ∧ bytes_ok buf' ∧
    length buf' = length buf ∧
    read_be 2 buf' (hs + 3) = Some (zlen cells + 1) ∧
    read_be 2 buf' (hs + 5) = Some (cs - zlen cell) ∧
    get_range buf' (cs - zlen cell) cs = Some cell ∧
    (∀ j, 0 ≤ j < index → read_be 2 buf' (hs + 8 + 2 * j) = read_be 2 buf (hs + 8 + 2 * j)) ∧
    read_be 2 buf' (hs + 8 + 2 * index) = Some (cs - zlen cell) ∧
    (∀ j, index ≤ j < zlen cells → read_be 2 buf' (hs + 8 + 2 * (j + 1)) = read_be 2 buf (hs + 8 + 2 * j)) ∧
    (∀ x y, y ≤ hs + 3 ∨ cs ≤ x → get_range buf' x y = get_range buf x y).
Proof.
  intros H Hidx Hc1 Hck Hfit. pose proof (leaf_count _ _ _ _ _ _ H) as [Hcnt _].
  pose proof H as [Hok Hsz Hhs Hcells Hcont Hgap _ _ _ _ _].
  assert (HU : 400000 ≤ USIZE_MAX) by done.
  unfold splice_insert_cell, b_bind at 1, b_get at 1. rewrite read_num_cells_eq by lia.
  rewrite (hc_num _ _ _ _ _ Hcells). cbn [ok_or]. unfold b_bind at 1, b_get at 1.
  rewrite (leaf_read_content _ _ _ _ _ _ pn H).
  rewrite (sat_add_page hs 8), (cell_ptr_offset_eq (hs + 8) (zlen cells)), (sat_add_page (zlen cell) 2) by lia.
  rewrite (sat_sub_ge cs (hs + 8 + _)), (sat_sub_ge cs (zlen cell)) by lia.
  rewrite decide_False by lia.
  destruct (put_range_is_Some buf (cs - zlen cell) cell) as [b1 P1]; [lia..|].
  pose proof (so_put _ _ _ _ P1) as S1. pose proof (proj1 S1) as L1.
  assert (K1 : bytes_ok b1) by (by apply (bytes_ok_put_range _ _ _ _ Hok Hck P1)).
  unfold b_bind at 1, bt_put. rewrite P1.
  destruct (shift_right_ok (Z.to_nat (zlen cells - index)) index (hs + 8) pn b1)
    as (b2 & H2 & K2 & S2 & R2); [lia..|done|lia|].
  pose proof (proj1 S2) as L2. unfold b_bind at 1. rewrite H2, cell_ptr_offset_eq by lia.
  rewrite Z2Nat.id in S2, R2 by lia. replace (index + (zlen cells - index)) with (zlen cells) in S2, R2 by lia.
  destruct (write_u16_ok (hs + 8 + 2 * index) (cs - zlen cell) pn b2) as (b3 & H3 & S3 & R3 & K3); [lia..|].
  pose proof (proj1 S3) as L3. unfold b_bind at 1. rewrite H3.
  unfold write_content_start. rewrite decide_False, (sat_add_page hs 5) by lia.
  destruct (write_u16_ok (hs + 5) (cs - zlen cell) pn b3) as (b4 & H4 & S4 & R4 & K4); [lia..|].
  pose proof (proj1 S4) as L4. unfold b_bind at 1. rewrite H4, !sat_add_page by lia.
  destruct (write_u16_ok (hs + 3) (zlen cells + 1) pn b4) as (b5 & H5 & S5 & R5 & K5); [lia..|].
  pose proof (proj1 S5) as L5. unfold b_bind at 1. rewrite H5. exists b5. split_and!.
  - done.
  - auto.
  - congruence.
  - done.
  - by rewrite (so_read_be 2 _ _ _ _ _ S5) by lia.
  - rewrite (so_get_range _ _ _ _ _ _ S5), (so_get_range _ _ _ _ _ _ S4), (so_get_range _ _ _ _ _ _ S3),
      (so_get_range _ _ _ _ _ _ S2) by lia. apply (get_put_same _ _ _ _ _ P1). lia.
  - intros j Hj. rewrite (so_read_be 2 _ _ _ _ _ S5), (so_read_be 2 _ _ _ _ _ S4), (so_read_be 2 _ _ _ _ _ S3),
      (so_read_be 2 _ _ _ _ _ S2), (so_read_be 2 _ _ _ _ _ S1) by lia. done.
  - by rewrite (so_read_be 2 _ _ _ _ _ S5), (so_read_be 2 _ _ _ _ _ S4) by lia.
  - intros j Hj. rewrite (so_read_be 2 _ _ _ _ _ S5), (so_read_be 2 _ _ _ _ _ S4), (so_read_be 2 _ _ _ _ _ S3) by lia.
    rewrite R2 by lia. by rewrite (so_read_be 2 _ _ _ _ _ S1) by lia.
  - intros x y Hxy. rewrite (so_get_range _ _ _ _ _ _ S5), (so_get_range _ _ _ _ _ _ S4),
      (so_get_range _ _ _ _ _ _ S3), (so_get_range _ _ _ _ _ _ S2), (so_get_range _ _ _ _ _ _ S1) by lia. done.
Qed.

Lemma read_be_range_eq n buf buf' x :
  x + Z.of_nat n ≤ 1048576 → get_range buf' x (x + Z.of_nat n) = get_range buf x (x + Z.of_nat n) →
  read_be n buf' x = read_be n buf x.
Proof. intros Hx Hg. unfold read_be. rewrite sat_add_small; [by rewrite Hg|]. by etrans. Qed.

Lemma leaf_splice_insert buf hs cells offs cs blocks (index : nat) cell pn :
  leaf_layout buf hs cells offs cs blocks → (index ≤ length cells)%nat → 1 ≤ zlen cell → bytes_ok cell →
  hs + 8 + 2 * (zlen cells + 1) + zlen cell ≤ cs →
  ∃ buf', splice_insert_cell hs pn (Z.of_nat index) cell buf = (buf', Ok true) ∧
    length buf' = length buf ∧ (∀ x y, y ≤ hs + 1 → get_range buf' x y = get_range buf x y) ∧
    leaf_layout buf' hs (insert_at index cell cells) (insert_at index (cs - zlen cell) offs)
      (cs - zlen cell) blocks.
Proof.
  intros H Hidx Hc1 Hck Hfit. pose proof (leaf_count _ _ _ _ _ _ H) as [Hcnt Hlo].
  destruct (splice_insert_writes buf hs cells offs cs blocks (Z.of_nat index) cell pn H)
    as (buf' & Hsp & Hok' & Hl & Hnum & Hcont' & Hcell & Hlow & Hat & Hhigh & Hrest); [lia|done..|].
  pose proof H as [Hok Hsz Hhs Hcells _ Hgap (first & Hf & Hch) Hin Hsep Hmin Hasc].
  apply Forall_app in Hin as [Hin1 Hin2].
  exists buf'. split_and!; [done|done|intros; apply Hrest; lia|].
  assert (Hexts : cell_exts (insert_at index cell cells) (insert_at index (cs - zlen cell) offs)
                  ≡ₚ (cs - zlen cell, zlen cell) :: cell_exts cells offs)
    by (rewrite cell_exts_insert by done; apply insert_at_perm).
  split; try done.
  - lia.
  - split.
    + rewrite Hnum, length_insert_at. f_equal. lia.
    + rewrite !length_insert_at. lia.
    + intros i off. rewrite insert_at_lookup by lia. case_decide; [|case_decide as Heq].
      * intros Hi. rewrite Hlow by lia. by apply (hc_ptr _ _ _ _ _ Hcells).
      * intros [= <-]. by rewrite Heq.
      * intros Hi. pose proof (lookup_lt_Some _ _ _ Hi).
        replace (Z.of_nat i) with (Z.of_nat (i - 1) + 1) by lia. rewrite Hhigh by lia.
        by apply (hc_ptr _ _ _ _ _ Hcells).
    + intros i off c. rewrite !insert_at_lookup by lia.
      assert (Hold : ∀ k, offs !! k = Some off → cells !! k = Some c → get_range buf' off (off + zlen c) = Some c).
      { intros k Ho Hc. rewrite Hrest; [by apply (hc_cell _ _ _ _ _ Hcells k)|].
        pose proof (Forall_lookup_1 _ _ _ _ Hin1 (cell_exts_lookup _ _ _ _ _ Ho Hc)) as [? _]. cbn in *. lia. }
      case_decide; [apply Hold|]. case_decide; [|apply Hold]. intros [= <-] [= <-].
      replace (cs - zlen cell + zlen cell) with cs by lia. done.
  - rewrite Hcont'. by rewrite decide_False by lia.
  - rewrite length_insert_at. lia.
  - exists first. split.
    + rewrite <- Hf. apply read_be_range_eq; [lia|]. apply Hrest. lia.
    + eapply free_chain_ext; [exact Hl|lia| |exact Hch]. rewrite Forall_forall in Hin2, Hmin |- *.
      intros b Hb. destruct (Hin2 b Hb) as (? & ? & ?). specialize (Hmin b Hb).
      split_and!; [apply Hrest|..]; lia.
  - rewrite Hexts. cbn [app]. constructor; [unfold in_page; cbn; lia|]. rewrite Hl.
    apply Forall_app. split; [eapply Forall_impl; [exact Hin1|]|eapply Forall_impl; [exact Hin2|]]; unfold in_page; intros; lia.
  - rewrite Hexts. cbn [app separate]. split; [|done].
    apply Forall_app. split; [eapply Forall_impl; [exact Hin1|]|eapply Forall_impl; [exact Hin2|]]; unfold in_page, apart; cbn; intros; lia.
Qed.

Lemma splice_insert_no_room buf hs cells offs cs blocks index cell pn :
  leaf_layout buf hs cells offs cs blocks → zlen cell ≤ 65536 →
  cs < hs + 8 + 2 * (zlen cells + 1) + zlen cell →
  splice_insert_cell hs pn index cell buf = (buf, Ok false).
Proof.
  intros H Hc Hno. pose proof (leaf_count _ _ _ _ _ _ H) as [Hcnt _].
  pose proof H as [_ Hsz Hhs Hcells _ Hgap _ _ _ _ _].
  unfold splice_insert_cell, b_bind at 1, b_get at 1. rewrite read_num_cells_eq by lia.
  rewrite (hc_num _ _ _ _ _ Hcells). cbn [ok_or]. unfold b_bind at 1, b_get at 1.
  rewrite (leaf_read_content _ _ _ _ _ _ pn H).
  rewrite (sat_add_page hs 8), (cell_ptr_offset_eq (hs + 8) (zlen cells)), (sat_add_page (zlen cell) 2) by lia.
  rewrite (sat_sub_ge cs (hs + 8 + _)) by lia. by rewrite decide_True by lia.
Qed.

(** ** Deleting a cell *)

Definition cell_shape (has_rowid : bool) (usable : Z) (c : bytes) : Prop :=
  if has_rowid then table_cell usable c else index_cell usable c.

Lemma index_cell_read u buf off c pn :
  index_cell u c → zlen buf ≤ 65536 → get_range buf off (off + zlen c) = Some c →
  ∃ pl t, decode_payload_len buf off pn = Ok (pl, t) ∧ cell_end u pl t true = off + zlen c.
Proof.
  intros (Hok & pl & t & Hd & Hl) Hlen Hg. pose proof Hg as (? & ? & _)%get_range_Some.
  unfold decode_payload_len in Hd. rewrite get_from_0 in Hd. cbn [ok_or] in Hd.
  destruct (decode_varint c) as [[pl' n1]|] eqn:H1; [|done]. cbn in Hd.
  pose proof (decode_varint_Ok _ _ _ Hok H1) as (? & ? & [? _] & _).
  rewrite sat_add_page, Z.add_0_l in Hd by lia. injection Hd as <- <-.
  destruct (get_from_of_range _ _ _ Hg) as [s Hs]. exists pl', (off + n1).
  unfold decode_payload_len. rewrite Hs. cbn [ok_or]. rewrite (decode_varint_prefix c s _ _ Hok H1).
  cbn [map_err fst snd]. rewrite sat_add_page by lia. split; [done|].
  rewrite (cell_end_shift u pl' n1 true off) by lia. by rewrite Hl.
Qed.

(** The head of a cell, as [splice_delete_cell] reads it. *)
Lemma cell_shape_read hr u buf off c pn :
  cell_shape hr u c → zlen buf ≤ 65536 → get_range buf off (off + zlen c) = Some c →
  ∃ pt, (if hr then
           let? h := decode_cell_head buf off pn in
           let '(_, payload_len, tail_start) := h in Ok (payload_len, tail_start)
         else decode_payload_len buf off pn) = Ok pt ∧
    cell_end u pt.1 pt.2 (negb hr) = off + zlen c.
Proof.
  destruct hr; cbn [cell_shape negb]; intros Hc Hlen Hg.
  - destruct (table_cell_read u buf off c pn Hc Hlen Hg) as (pl & t & -> & He & _). by exists (pl, t).
  - destruct (index_cell_read u buf off c pn Hc Hlen Hg) as (pl & t & -> & He). by exists (pl, t).
Qed.

Lemma cell_exts_delete cells offs i :
  cell_exts (delete i cells) (delete i offs) = delete i (cell_exts cells offs).
Proof.
  unfold cell_exts. revert offs i. induction cells as [|c cells IH]; intros [|o offs] [|i]; cbn; try done.
  - by destruct offs.
  - f_equal. apply IH.
Qed.

(** Every field of the layout but the freeblocks, from which the chain can
    be rewritten. *)
Lemma leaf_relink buf hs cells offs cs blocks pn :
  bytes_ok buf → zlen buf ≤ 65536 → 0 ≤ hs ≤ 100 → has_cells buf hs 8 cells offs →
  read_be 2 buf (hs + 5) = Some (if decide (cs = 65536) then 0 else cs) →
  hs + 8 + 2 * zlen cells ≤ cs ≤ zlen buf →
  Forall (in_page (zlen buf) cs) (cell_exts cells offs ++ blocks) →
  separate (cell_exts cells offs ++ blocks) → Forall (λ b, 4 ≤ b.2) blocks → ascending blocks →
  ∃ buf', write_freeblock_chain hs pn blocks buf = (buf', Ok ()) ∧ length buf' = length buf ∧
    (∀ x y, y ≤ hs + 1 → get_range buf' x y = get_range buf x y) ∧
    leaf_layout buf' hs cells offs cs blocks.
Proof.
  intros Hok Hsz Hhs Hcells Hcont Hgap Hin Hsep Hmin Hasc. pose proof Hin as [Hin1 Hin2]%Forall_app.
  assert (Hlow : Forall (λ b : Z * Z, hs + 8 + 2 * zlen cells ≤ b.1 ∧ b.1 + b.2 ≤ zlen buf ∧ 4 ≤ b.2) blocks).
  { rewrite Forall_forall in Hin2, Hmin |- *. intros b Hb. specialize (Hmin b Hb). destruct (Hin2 b Hb). lia. }
  destruct (write_chain_ok hs pn blocks buf) as (b' & Hw & Hl & Hok' & Hfirst & Hch & Hkeep);
    [done..| |lia|].
  { eapply Forall_impl; [exact Hlow|]. cbn. intros. lia. }
  exists b'. split_and!; [done|done| |].
  { intros x y Hy. apply Hkeep; [|lia]. eapply Forall_impl; [exact Hlow|]. cbn. intros. lia. }
  assert (Hbelow : ∀ x y, y ≤ hs + 8 + 2 * zlen cells → hs + 3 ≤ x → get_range b' x y = get_range buf x y).
  { intros x y Hy Hx. apply Hkeep; [|lia]. eapply Forall_impl; [exact Hlow|]. cbn. intros. lia. }
  pose proof (hc_len _ _ _ _ _ Hcells) as Hlo.
  split; try done; rewrite ?Hl; try done; [by auto| | |by exists (first_block blocks)].
  - split.
    + rewrite <- (hc_num _ _ _ _ _ Hcells). apply read_be_range_eq; [lia|]. apply Hbelow; lia.
    + done.
    + intros i off Hi. pose proof (lookup_lt_Some _ _ _ Hi). rewrite <- (hc_ptr _ _ _ _ _ Hcells i off Hi).
      apply read_be_range_eq; [lia|]. apply Hbelow; lia.
    + intros i off c Hi Hc. rewrite <- (hc_cell _ _ _ _ _ Hcells i off c Hi Hc).
      pose proof (list_elem_of_lookup_2 _ _ _ (cell_exts_lookup _ _ _ _ _ Hi Hc)) as He.
      rewrite Forall_forall in Hin1. destruct (Hin1 _ He) as (? & _ & _). cbn in *.
      apply Hkeep; [|lia]. apply separate_app in Hsep as (_ & _ & Hap). rewrite Forall_forall in Hap.
      eapply Forall_impl; [exact (Hap _ He)|]. unfold apart. cbn. intros. lia.
  - rewrite <- Hcont. apply read_be_range_eq; [lia|]. apply Hbelow; lia.
Qed.

Lemma ascending_delete i l : ascending l → ascending (delete i l).
Proof.
  intros Hs. revert i. induction Hs as [|b l Hs IH Hb]; intros [|i]; cbn; [constructor..|done|].
  constructor; [apply IH|]. by apply Forall_delete.
Qed.

Lemma absorb_blocks_ok fuel blocks c0 len :
  (length blocks ≤ fuel)%nat → ascending blocks → Forall (in_page len c0) blocks → 0 ≤ c0 ≤ len → len ≤ 65536 →
  let '(blocks', c1) := absorb_blocks fuel blocks c0 in
  ascending blocks' ∧ Forall (in_page len c1) blocks' ∧ c0 ≤ c1 ≤ len ∧ blocks' `sublist_of` blocks ∧
  ∀ e, 1 ≤ e.2 → c0 ≤ e.1 → Forall (apart e) blocks → c1 ≤ e.1.
Proof.
  revert blocks c0. induction fuel as [|fuel IH]; intros blocks c0 Hf Hasc Hin Hc Hlen; cbn [absorb_blocks].
  { split_and!; [done..|lia|done|]. intros. lia. }
  destruct (list_find _ blocks) as [[pos [o s]]|] eqn:Hfind; [|split_and!; [done..|lia|done|intros; lia]].
  apply list_find_Some in Hfind as (Hpos & Ho & _). cbn in Ho. subst o.
  pose proof (Forall_lookup_1 _ _ _ _ Hin Hpos) as (_ & Hs1 & Hse). cbn in Hs1, Hse.
  rewrite sat_sum_small by lia.
  pose proof (delete_perm _ _ _ Hpos) as Hperm.
  assert (Hsub : delete pos blocks `sublist_of` blocks) by apply sublist_delete.
  assert (Hasc' : ascending (delete pos blocks)) by (by apply ascending_delete).
  assert (Hsepd : separate blocks).
  { apply ascending_separate; [|done]. eapply Forall_impl; [exact Hin|]. unfold in_page. intros. lia. }
  rewrite Hperm in Hsepd, Hin. destruct Hsepd as [Hap _]. apply Forall_cons in Hin as [_ Hin].
  specialize (IH (delete pos blocks) (c0 + s)).
  destruct (absorb_blocks fuel (delete pos blocks) (c0 + s)) as [blocks' c1].
  destruct IH as (? & ? & ? & Hsub' & Hext); try done; try lia.
  - rewrite Hperm in Hf. cbn in Hf. lia.
  - rewrite Forall_forall in Hin, Hap |- *. intros b Hb. destruct (Hin b Hb) as (? & ? & ?).
    unfold in_page. destruct (Hap b Hb); cbn in *; lia.
  - split_and!; [done..|lia|lia|by etrans|]. intros e He1 He2 Hae.
    rewrite Hperm in Hae. apply Forall_cons in Hae as [Hae1 Hae]. apply Hext; [done| |done].
    destruct Hae1; cbn in *; lia.
Qed.

(** After the pointers moved, the count dropped and the cell was cleared,
    the page is a layout of the remaining cells with the freed extent
    unused. *)
Lemma leaf_drop_cell buf hs cells offs cs blocks (i : nat) o c pn b1 b2 b3 :
  leaf_layout buf hs cells offs cs blocks → offs !! i = Some o → cells !! i = Some c →
  shift_left (Z.to_nat (zlen cells - 1 - Z.of_nat i)) (Z.of_nat i) (hs + 8) pn buf = (b1, Ok ()) →
  write_u16 (hs + 3) (zlen cells - 1) pn b1 = (b2, Ok ()) →
  fill_zero o (o + zlen c) b2 = (b3, Ok ()) →
  leaf_layout b3 hs (delete i cells) (delete i offs) cs blocks ∧ length b3 = length buf ∧
  ∀ x y, y ≤ hs + 1 → get_range b3 x y = get_range buf x y.
Proof.
  intros H Ho Hc H1 H2 H3. pose proof (leaf_count _ _ _ _ _ _ H) as [Hcnt Hlo].
  pose proof H as [Hok Hsz Hhs Hcells Hcont Hgap (first & Hf & Hch) Hin Hsep Hmin Hasc].
  pose proof (lookup_lt_Some _ _ _ Hc) as Hi. pose proof (cell_exts_lookup _ _ _ _ _ Ho Hc) as Hx.
  apply Forall_app in Hin as [Hin1 Hin2].
  pose proof (Forall_lookup_1 _ _ _ _ Hin1 Hx) as (Hxo & Hx1 & Hxe). cbn in Hxo, Hx1, Hxe.
  destruct (shift_left_ok (Z.to_nat (zlen cells - 1 - Z.of_nat i)) (Z.of_nat i) (hs + 8) pn buf)
    as (b1' & H1' & K1 & S1 & R1); [lia..|done|lia|].
  rewrite H1 in H1'. injection H1' as <-.
  rewrite Z2Nat.id in S1, R1 by lia.
  replace (Z.of_nat i + (zlen cells - 1 - Z.of_nat i)) with (zlen cells - 1) in S1, R1 by lia.
  pose proof (proj1 S1) as L1.
  destruct (write_u16_ok (hs + 3) (zlen cells - 1) pn b1) as (b2' & H2' & S2 & R2 & K2); [lia..|].
  rewrite H2 in H2'. injection H2' as <-. pose proof (proj1 S2) as L2.
  unfold fill_zero in H3. rewrite decide_True in H3 by lia.
  destruct (put_range_is_Some b2 o (zeros (zlen c))) as [b3' P3]; [lia|rewrite length_zeros; lia|].
  replace (o + zlen c - o) with (zlen c) in H3 by lia. rewrite P3 in H3. cbn in H3. injection H3 as <-.
  pose proof (so_put _ _ _ _ P3) as S3. rewrite length_zeros in S3 by lia. pose proof (proj1 S3) as L3.
  assert (Hsep' : separate ((o, zlen c) :: delete i (cell_exts cells offs) ++ blocks)).
  { rewrite (delete_perm _ _ _ Hx) in Hsep. exact Hsep. }
  destruct Hsep' as [Hap Hsep']. apply Forall_app in Hap as [Hap1 Hap2].
  assert (Hlow : ∀ x, x + 2 ≤ hs + 3 ∨ hs + 5 ≤ x → x + 2 ≤ hs + 8 →
    read_be 2 b3' x = read_be 2 buf x).
  { intros x Hx1' Hx2'. rewrite (so_read_be 2 _ _ _ _ _ S3), (so_read_be 2 _ _ _ _ _ S2),
      (so_read_be 2 _ _ _ _ _ S1) by lia. done. }
  assert (Hhigh : ∀ x y, cs ≤ x → y ≤ o ∨ o + zlen c ≤ x → get_range b3' x y = get_range buf x y).
  { intros x y Hx1' Hx2'. rewrite (so_get_range _ _ _ _ _ _ S3), (so_get_range _ _ _ _ _ _ S2),
      (so_get_range _ _ _ _ _ _ S1) by lia. done. }
  split_and!; [|congruence|].
  2: { intros x y Hy. rewrite (so_get_range _ _ _ _ _ _ S3), (so_get_range _ _ _ _ _ _ S2),
         (so_get_range _ _ _ _ _ _ S1) by lia. done. }
  split; try done.
  - eapply bytes_ok_put_range; [|apply bytes_ok_zeros|exact P3]. auto.
  - lia.
  - split.
    + rewrite (so_read_be 2 _ _ _ _ _ S3), R2, length_delete by (done || lia). f_equal. lia.
    + rewrite !length_delete by eauto. lia.
    + intros k off Hk. pose proof (lookup_lt_Some _ _ _ Hk) as Hk'. rewrite length_delete in Hk' by eauto.
      rewrite (so_read_be 2 _ _ _ _ _ S3), (so_read_be 2 _ _ _ _ _ S2) by lia.
      destruct (decide (k < i)%nat).
      * rewrite list_lookup_delete_lt in Hk by lia. rewrite (so_read_be 2 _ _ _ _ _ S1) by lia.
        by apply (hc_ptr _ _ _ _ _ Hcells).
      * rewrite list_lookup_delete_ge in Hk by lia. rewrite R1 by lia.
        rewrite <- (hc_ptr _ _ _ _ _ Hcells (S k) off Hk). f_equal. lia.
    + intros k off ck Hk Hck. assert (Hex : cell_exts (delete i cells) (delete i offs) !! k = Some (off, zlen ck))
        by (by apply cell_exts_lookup).
      rewrite cell_exts_delete in Hex. apply list_elem_of_lookup_2 in Hex.
      assert (Hge : cs ≤ off ∧ (off + zlen ck ≤ o ∨ o + zlen c ≤ off)).
      { pose proof (Forall_delete _ _ i Hin1) as Hin1'. rewrite Forall_forall in Hap1, Hin1'.
        destruct (Hin1' _ Hex) as [? _]. destruct (Hap1 _ Hex); cbn in *; lia. }
      rewrite Hhigh by lia. destruct (decide (k < i)%nat).
      * rewrite list_lookup_delete_lt in Hk by lia. rewrite list_lookup_delete_lt in Hck by lia. by apply (hc_cell _ _ _ _ _ Hcells k).
      * rewrite list_lookup_delete_ge in Hk by lia. rewrite list_lookup_delete_ge in Hck by lia. by apply (hc_cell _ _ _ _ _ Hcells (S k)).
  - rewrite Hlow by lia. done.
  - rewrite length_delete by eauto. lia.
  - exists first. rewrite Hlow by lia. split; [done|].
    apply (free_chain_ext buf); [congruence|lia| |exact Hch].
    rewrite Forall_forall in Hin2, Hmin, Hap2 |- *. intros b Hb. specialize (Hmin b Hb).
    destruct (Hin2 b Hb) as (? & ? & ?). split_and!; [|lia..]. apply Hhigh; [lia|].
    destruct (Hap2 b Hb); cbn in *; lia.
  - rewrite cell_exts_delete. replace (zlen b3') with (zlen buf) by lia.
    apply Forall_app. split; [by apply Forall_delete|done].
  - by rewrite cell_exts_delete.
Qed.

Lemma Forall_sublist_of {A} (P : A → Prop) (l k : list A) : l `sublist_of` k → Forall P k → Forall P l.
Proof. induction 1; rewrite ?Forall_cons; naive_solver. Qed.

Lemma blocks_count len lo blocks :
  ascending blocks → Forall (in_page len lo) blocks → Forall (λ b, 4 ≤ b.2) blocks → lo ≤ len →
  4 * zlen blocks ≤ len - lo.
Proof.
  intros Hs. revert lo. induction Hs as [|[o s] l Hs IH Hb]; intros lo Hin Hm Hlo; cbn [length]; [lia|].
  apply Forall_cons in Hin as [(? & ? & ?) Hin]. apply Forall_cons in Hm as [? Hm]. cbn in *.
  assert (4 * zlen l ≤ len - (o + s)); [|lia]. apply IH; [|done|lia].
  rewrite Forall_forall in Hin, Hb |- *. intros b Hbl. destruct (Hin b Hbl) as (? & ? & ?).
  specialize (Hb b Hbl). unfold in_page. lia.
Qed.

Lemma leaf_walk buf hs cells offs cs blocks pn :
  leaf_layout buf hs cells offs cs blocks → zlen buf ≤ 32768 → walk_freeblocks buf hs pn = Ok blocks.
Proof.
  intros H Hsm. pose proof H as [_ _ Hhs _ _ Hgap (first & Hf & Hch) Hin _ Hmin Hasc].
  apply Forall_app in Hin as [_ Hin].
  pose proof (blocks_count _ _ _ Hasc Hin Hmin ltac:(lia)) as Hcount.
  eapply walk_freeblocks_eq; [done|exact Hf|exact Hch| |unfold MAX_FREEBLOCKS; lia].
  eapply Forall_impl; [exact Hin|]. unfold in_page. intros. lia.
Qed.

Section freed.
Context (buf : bytes) (hs cs o n pn : Z) (cells : list bytes) (offs : list Z) (blocks : list (Z * Z)).
Hypothesis (H : leaf_layout buf hs cells offs cs blocks) (Hsm : zlen buf ≤ 32768)
  (Hap : Forall (apart (o, n)) (cell_exts cells offs ++ blocks))
  (Hon : in_page (zlen buf) cs (o, n)).

(** The freed extent bordered the gap: the content area shrinks. *)
Lemma freed_at_content : o = cs →
  ∃ buf' cs' blocks',
    (let& blocks := b_get (λ buf, walk_freeblocks buf hs pn) in
     let '(blocks, new_content_start) := absorb_blocks (length blocks) blocks (o + n) in
     let& _ := write_content_start hs new_content_start pn in
     write_freeblock_chain hs pn blocks) buf = (buf', Ok ()) ∧ length buf' = length buf ∧
    (∀ x y, y ≤ hs + 1 → get_range buf' x y = get_range buf x y) ∧
    leaf_layout buf' hs cells offs cs' blocks'.
Proof.
  intros Ho. pose proof (leaf_count _ _ _ _ _ _ H) as [Hcnt Hlo].
  pose proof H as [Hok Hsz Hhs Hcells _ Hgap _ Hin Hsep Hmin Hasc].
  destruct Hon as (_ & Hn & He). cbn in Hn, He.
  unfold b_bind at 1, b_get. rewrite (leaf_walk _ _ _ _ _ _ pn H) by done.
  assert (Hge : Forall (in_page (zlen buf) (o + n)) (cell_exts cells offs ++ blocks)).
  { rewrite Forall_forall in Hin, Hap |- *. intros b Hb. destruct (Hin b Hb) as (? & ? & ?).
    unfold in_page. destruct (Hap b Hb); cbn in *; lia. }
  apply Forall_app in Hge as [Hge1 Hge2]. apply separate_app in Hsep as (Hs1 & Hs2 & Hs12).
  pose proof (absorb_blocks_ok (length blocks) blocks (o + n) (zlen buf)) as Hab.
  destruct (absorb_blocks _ _ _) as [blocks' c1].
  destruct Hab as (Hasc' & Hin' & Hc1 & Hsub & Hext); [lia|done|done|lia|lia|].
  unfold write_content_start. rewrite decide_False, sat_add_page by lia.
  destruct (write_u16_ok (hs + 5) c1 pn buf) as (b4 & H4 & S4 & R4 & K4); [lia..|].
  pose proof (proj1 S4) as L4. unfold b_bind. rewrite H4.
  assert (Hin1' : Forall (in_page (zlen buf) c1) (cell_exts cells offs)).
  { rewrite Forall_forall in Hge1, Hs12 |- *. intros e Hel. destruct (Hge1 e Hel) as (? & ? & ?).
    split; [|done]. apply Hext; [done|lia|]. by apply Hs12. }
  destruct (leaf_relink b4 hs cells offs c1 blocks' pn) as (b5 & H5 & L5 & G5 & Hlay).
  - auto.
  - lia.
  - done.
  - destruct (put_range_is_Some buf (hs + 5) (be_bytes 2 (wrap16 c1))) as [b Hp];
      [lia|rewrite be_bytes_length; lia|].
    assert (b = b4) as -> by (unfold write_u16, bt_put in H4; rewrite Hp in H4; by injection H4).
    apply (has_cells_put buf _ _ _ _ (hs + 5) (be_bytes 2 (wrap16 c1))); try done; rewrite ?be_bytes_length; try lia.
    intros i x c Hx Hc. left.
    pose proof (Forall_lookup_1 _ _ _ _ Hin1' (cell_exts_lookup _ _ _ _ _ Hx Hc)) as [? _]. cbn in *. lia.
  - rewrite R4. by rewrite decide_False by lia.
  - lia.
  - rewrite L4. by apply Forall_app.
  - apply separate_app. split_and!; [done| |].
    + apply ascending_separate; [|done]. eapply Forall_impl; [exact Hin'|]. unfold in_page. intros. lia.
    + eapply Forall_impl; [exact Hs12|]. intros e He'. by apply (Forall_sublist_of _ _ blocks).
  - by apply (Forall_sublist_of _ _ blocks).
  - done.
  - exists b5, c1, blocks'. split_and!; [done|congruence| |done]. intros x y Hy. rewrite G5 by done.
    apply (so_get_range _ _ _ _ _ _ S4). lia.
Qed.

(** Too small for a freeblock: only the fragment counter changes. *)
Lemma freed_fragment v : u8_ok v →
  ∃ buf', write_fragmented_bytes hs v pn buf = (buf', Ok ()) ∧ length buf' = length buf ∧
    (∀ x y, y ≤ hs + 1 → get_range buf' x y = get_range buf x y) ∧ leaf_layout buf' hs cells offs cs blocks.
Proof.
  intros Hv. pose proof (leaf_count _ _ _ _ _ _ H) as [Hcnt Hlo].
  pose proof H as [Hok Hsz Hhs Hcells Hcont Hgap (first & Hf & Hch) Hin Hsep Hmin Hasc].
  unfold write_fragmented_bytes, put_u8, bt_put. rewrite sat_add_page by lia.
  destruct (put_range_is_Some buf (hs + 7) [v]) as [b Hp]; [lia|cbn; lia|].
  pose proof (so_put _ _ _ _ Hp) as S. change (zlen [v]) with 1 in S. pose proof (proj1 S) as Hl.
  rewrite Hp. exists b. split_and!; [done|done|intros; apply (so_get_range _ _ _ _ _ _ S); lia|].
  apply Forall_app in Hin as [Hin1 Hin2].
  split; try done; rewrite ?Hl; try done.
  - eapply bytes_ok_put_range; [exact Hok|by constructor; [|constructor]|exact Hp].
  - apply (has_cells_put buf _ _ _ _ (hs + 7) [v]); try done; cbn [length]; try lia.
    intros i x c Hx Hc. left.
    pose proof (Forall_lookup_1 _ _ _ _ Hin1 (cell_exts_lookup _ _ _ _ _ Hx Hc)) as [? _]. cbn in *. lia.
  - by rewrite (so_read_be 2 _ _ _ _ _ S) by lia.
  - exists first. split; [by rewrite (so_read_be 2 _ _ _ _ _ S) by lia|].
    apply (free_chain_ext buf); [done|lia| |exact Hch].
    rewrite Forall_forall in Hin2, Hmin |- *. intros e He. destruct (Hin2 e He) as (? & ? & ?).
    specialize (Hmin e He). split_and!; [apply (so_get_range _ _ _ _ _ _ S)|..]; lia.
  - by apply Forall_app.
Qed.

(** Otherwise the extent joins the chain, merged with its neighbours. *)
Lemma freed_block : 4 ≤ n →
  ∃ buf' blocks',
    (let& blocks := b_get (λ buf, walk_freeblocks buf hs pn) in
     write_freeblock_chain hs pn (add_freeblock blocks o n)) buf = (buf', Ok ()) ∧
    length buf' = length buf ∧ (∀ x y, y ≤ hs + 1 → get_range buf' x y = get_range buf x y) ∧
    leaf_layout buf' hs cells offs cs blocks' ∧ block_total blocks' = block_total blocks + n.
Proof.
  intros Hn4. pose proof (leaf_count _ _ _ _ _ _ H) as [Hcnt Hlo].
  pose proof H as [Hok Hsz Hhs Hcells Hcont Hgap _ Hin Hsep Hmin Hasc].
  apply Forall_app in Hin as [Hin1 Hin2]. apply separate_app in Hsep as (Hs1 & Hs2 & Hs12).
  apply Forall_app in Hap as [Hap1 Hap2]. destruct Hon as (Ho & Hn & He). cbn in Ho, Hn, He.
  unfold b_bind, b_get. rewrite (leaf_walk _ _ _ _ _ _ pn H) by done.
  destruct (add_freeblock_merges blocks o n Hasc) as (L & P & N & R & Hb & HP & HN & HL & HR & Hadd).
  { eapply Forall_impl; [exact Hmin|]. cbn. intros. lia. }
  { done. }
  { done. }
  { constructor; [cbn; lia|]. eapply Forall_impl; [exact Hin2|]. unfold in_page. intros. lia. }
  rewrite Hadd. set (x := (o - block_total P, block_total P + n + block_total N)) in *.
  rewrite Hb in Hin2, Hmin, Hasc, Hs12, Hap2. 
  assert (Hx : in_page (zlen buf) cs x ∧ 4 ≤ x.2).
  { apply Forall_app in Hin2 as [_ Hin2]. apply Forall_app in Hin2 as [HiP Hin2]. apply Forall_app in Hin2 as [HiN _].
    unfold x, in_page. destruct HP as [->|(po & ps & -> & ?)]; destruct HN as [->|[nz ->]];
      repeat (match goal with Hq : Forall _ [_] |- _ => apply Forall_cons in Hq as [(? & ? & ?) _] end);
      cbn in *; lia. }
  assert (Hasc' : ascending (L ++ x :: R)).
  { apply ascending_app in Hasc as (HaL & Ha & HLR). apply ascending_app in Ha as (_ & Ha & _).
    apply ascending_app in Ha as (_ & HaR & _). apply ascending_app. split_and!; [done|by constructor|].
    rewrite Forall_forall in HL, HLR |- *. intros b Hbl. constructor; [by apply HL|].
    specialize (HLR b Hbl). apply Forall_app in HLR as [_ HLR]. by apply Forall_app in HLR as [_ ?]. }
  destruct (leaf_relink buf hs cells offs cs (L ++ x :: R) pn) as (b' & Hw & Hl & G & Hlay); try done.
  - apply Forall_app. split; [done|]. apply Forall_app in Hin2 as [? Hin2].
    apply Forall_app in Hin2 as [_ Hin2]. apply Forall_app in Hin2 as [_ ?].
    apply Forall_app. split; [done|]. constructor; [by apply Hx|done].
  - apply separate_app. split_and!; [done| |].
    + apply ascending_separate; [|done]. apply Forall_app in Hmin as [Hm1 Hmin].
      apply Forall_app in Hmin as [_ Hmin]. apply Forall_app in Hmin as [_ Hm2].
      apply Forall_app. split; [|constructor; [apply (Z.le_trans _ 4); [done|apply Hx]|]].
      * eapply Forall_impl; [exact Hm1|]. cbn. intros. lia.
      * eapply Forall_impl; [exact Hm2|]. cbn. intros. lia.
    + rewrite Forall_forall in Hs12, Hap1, Hin1 |- *. intros e Hel. specialize (Hs12 e Hel).
      specialize (Hap1 e Hel). destruct (Hin1 e Hel) as (_ & He1 & _).
      apply Forall_app in Hs12 as [? Hs12]. apply Forall_app in Hs12 as [HeP Hs12].
      apply Forall_app in Hs12 as [HeN ?]. apply Forall_app. split; [done|]. constructor; [|done].
      unfold x, apart in *. destruct HP as [->|(po & ps & -> & ?)]; destruct HN as [->|[nz ->]];
        repeat (match goal with Hq : Forall _ [_] |- _ => apply Forall_cons in Hq as [? _] end);
        cbn in *; lia.
  - apply Forall_app in Hmin as [? Hmin]. apply Forall_app in Hmin as [_ Hmin].
    apply Forall_app in Hmin as [_ ?]. apply Forall_app. split; [done|]. constructor; [by apply Hx|done].
  - exists b', (L ++ x :: R). split_and!; try done. rewrite Hb, !block_total_app, block_total_cons.
    unfold x. cbn [snd]. lia.
Qed.
End freed.

Lemma leaf_splice_delete buf hs cells offs cs blocks (i : nat) c u hr pn :
  leaf_layout buf hs cells offs cs blocks → zlen buf ≤ 32768 → cells !! i = Some c → cell_shape hr u c →
  ∃ buf' cs' blocks', splice_delete_cell hs pn u (Z.of_nat i) hr buf = (buf', Ok ()) ∧
    length buf' = length buf ∧ (∀ x y, y ≤ hs + 1 → get_range buf' x y = get_range buf x y) ∧
    leaf_layout buf' hs (delete i cells) (delete i offs) cs' blocks'.
Proof.
  intros H Hsm Hc Hshape. pose proof (leaf_count _ _ _ _ _ _ H) as [Hcnt Hlo].
  pose proof H as [Hok Hsz Hhs Hcells _ Hgap _ Hin Hsep _ _].
  pose proof (lookup_lt_Some _ _ _ Hc) as Hi. destruct (hc_lookup _ _ _ _ _ _ _ Hcells Hc) as [o Ho].
  pose proof (cell_exts_lookup _ _ _ _ _ Ho Hc) as Hx. apply Forall_app in Hin as [Hin1 Hin2].
  pose proof (Forall_lookup_1 _ _ _ _ Hin1 Hx) as Hon. pose proof Hon as (Hxo & Hx1 & Hxe). cbn in Hxo, Hx1, Hxe.
  destruct (cell_shape_read hr u buf o c pn Hshape Hsz (hc_cell _ _ _ _ _ Hcells i o c Ho Hc)) as (pt & Hpt & Hend).
  unfold splice_delete_cell, b_bind at 1, b_get at 1. rewrite read_num_cells_eq by lia.
  rewrite (hc_num _ _ _ _ _ Hcells). cbn [ok_or]. rewrite decide_False by lia.
  unfold b_bind at 1, b_get at 1. rewrite (hc_pointer _ _ _ _ _ _ _ pn Hcells) by (done || lia).
  unfold b_bind at 1, b_get at 1. rewrite Hpt, Hend. rewrite !(sat_sub_ge (zlen cells) 1) by lia.
  rewrite (sat_add_page hs 8), (sat_add_page hs 3), (sat_sub_ge (o + zlen c) o) by lia.
  destruct (shift_left_ok (Z.to_nat (zlen cells - 1 - Z.of_nat i)) (Z.of_nat i) (hs + 8) pn buf)
    as (b1 & H1 & K1 & S1 & _); [lia..|done|lia|].
  pose proof (proj1 S1) as L1. unfold b_bind at 1. rewrite H1.
  destruct (write_u16_ok (hs + 3) (zlen cells - 1) pn b1) as (b2 & H2 & S2 & _); [lia..|].
  pose proof (proj1 S2) as L2. unfold b_bind at 1. rewrite H2.
  destruct (fill_zero o (o + zlen c) b2) as [b3 r3] eqn:H3.
  assert (r3 = Ok ()) as -> by (unfold fill_zero in H3; by injection H3).
  unfold b_bind at 1. rewrite H3.
  destruct (leaf_drop_cell buf hs cells offs cs blocks i o c pn b1 b2 b3 H Ho Hc H1 H2 H3) as (Hlay & L3 & G3).
  unfold b_bind at 1, b_get at 1. rewrite (leaf_read_content _ _ _ _ _ _ pn Hlay).
  assert (Hap : Forall (apart (o, zlen c)) (cell_exts (delete i cells) (delete i offs) ++ blocks)).
  { rewrite cell_exts_delete. rewrite (delete_perm _ _ _ Hx) in Hsep. apply Hsep. }
  rewrite <- L3 in Hon. assert (Hsm3 : zlen b3 ≤ 32768) by lia.
  replace (o + zlen c - o) with (zlen c) by lia. case_decide as Hoc.
  - destruct (freed_at_content b3 hs cs o (zlen c) pn _ _ _ Hlay Hsm3 Hap Hon Hoc)
      as (b' & cs' & bl' & Hw & Hl & G & Hlay'). exists b', cs', bl'.
    split_and!; [exact Hw|congruence| |done]. intros x y Hy. by rewrite G, G3.
  - unfold MIN_FREEBLOCK_SIZE. case_decide as Hmin.
    + destruct (get_byte b3 (hs + 7)) as [f|] eqn:Hf; [|apply get_byte_None in Hf; lia].
      unfold b_bind, b_get, read_fragmented_bytes. rewrite sat_add_page, Hf by lia. cbn [ok_or].
      destruct (freed_fragment b3 hs cs pn _ _ _ Hlay Hsm3 (Z.min (f + wrap8 (zlen c)) U8_MAX)) as (b' & Hw & Hl & G & Hlay').
      { pose proof (bytes_ok_get_byte _ _ _ (ll_ok _ _ _ _ _ _ Hlay) Hf) as Hfb.
        unfold wrap8, U8_MAX, u8_ok in *. rewrite Z.mod_small by lia. lia. }
      exists b', cs, blocks. split_and!; [exact Hw|congruence| |done]. intros x y Hy. by rewrite G, G3.
    + destruct (freed_block b3 hs cs o (zlen c) pn _ _ _ Hlay Hsm3 Hap Hon) as (b' & bl' & Hw & Hl & G & Hlay' & _); [lia|].
      exists b', cs, bl'. split_and!; [exact Hw|congruence| |done]. intros x y Hy. by rewrite G, G3.
Qed.

(** ** Sequences of edits *)

(** The branch of [insert_into_leaf] for a cell that fits: the splice, or
    the rebuild that also reclaims freed space. *)
Definition insert_fitting (header_start page_num usable_size index rowid : Z) (cell : bytes) : buf_op () :=
  let& spliced := splice_insert_cell header_start page_num index cell in
  if spliced then b_ok ()
  else
    let& cells := b_get (λ buf, collect_leaf_cells buf header_start page_num usable_size) in
    write_leaf_page header_start page_num
      (cell_bytes (insert_at (Z.to_nat index) (rowid, cell) cells)).

Lemma cell_offs_exts start cells len :
  nonempty_cells cells → start + zlen (concat cells) ≤ len →
  Forall (in_page len start) (cell_exts cells (cell_offs start cells)) ∧
  separate (cell_exts cells (cell_offs start cells)).
Proof.
  intros Hn. revert start. induction Hn as [|c cells Hc Hn IH]; intros start Hle; [done|].
  cbn [concat] in Hle. rewrite length_app in Hle.
  destruct (IH (start + zlen c)) as [Hin Hs]; [lia|]. unfold cell_exts in *. cbn [cell_offs zip_with separate].
  split_and!; [|by eapply Forall_impl; [exact Hin|]; unfold in_page, apart; cbn; intros; lia|done].
  constructor; [unfold in_page; cbn; lia|]. eapply Forall_impl; [exact Hin|]. unfold in_page. intros. lia.
Qed.

Lemma rebuilt_layout buf buf' hs typ cells :
  rebuilt buf buf' hs 8 typ cells → bytes_ok buf' → 0 ≤ hs ≤ 100 → zlen buf ≤ 65536 → nonempty_cells cells →
  hs + 8 + cells_need cells ≤ zlen buf →
  leaf_layout buf' hs cells (cell_offs (zlen buf - zlen (concat cells)) cells) (zlen buf - zlen (concat cells)) [].
Proof.
  intros [Hl Hp Ht Hc Hf _ Hcs] Hok Hhs Hlen Hn Hfit. unfold cells_need in Hfit.
  destruct (cell_offs_exts (zlen buf - zlen (concat cells)) cells (zlen buf) Hn) as [Hin Hs]; [lia|].
  split; try done; rewrite ?app_nil_r, ?Hl; try done; try lia.
  - exists 0. done.
  - constructor.
Qed.

Inductive leaf_edit : Type :=
| InsertCell (index : nat) (cell : bytes)
| DeleteCell (index : nat).

Definition run_edit (u hs pn : Z) (e : leaf_edit) : buf_op () :=
  match e with
  | InsertCell i c => insert_fitting hs pn u (Z.of_nat i) (cell_rowid c) c
  | DeleteCell i => splice_delete_cell hs pn u (Z.of_nat i) true
  end.

Fixpoint run_edits (u hs pn : Z) (es : list leaf_edit) : buf_op () :=
  match es with
  | [] => b_ok ()
  | e :: es => let& _ := run_edit u hs pn e in run_edits u hs pn es
  end.

(** What an edit may ask of a page of [len] bytes, and what it does to the
    list of its cells. *)
Definition edit_ok (u hs len : Z) (cells : list bytes) (e : leaf_edit) : Prop :=
  match e with
  | InsertCell i c => (i ≤ length cells)%nat ∧ table_cell u c ∧ hs + 8 + cells_need cells + zlen c + 2 ≤ len
  | DeleteCell i => (i < length cells)%nat
  end.

Definition edit_cells (e : leaf_edit) (cells : list bytes) : list bytes :=
  match e with
  | InsertCell i c => insert_at i c cells
  | DeleteCell i => delete i cells
  end.

Fixpoint edits_ok (u hs len : Z) (cells : list bytes) (es : list leaf_edit) : Prop :=
  match es with
  | [] => True
  | e :: es => edit_ok u hs len cells e ∧ edits_ok u hs len (edit_cells e cells) es
  end.

(** A page that is a table leaf holding [cells], whatever its free space. *)
Definition table_leaf (u hs : Z) (cells : list bytes) (buf : bytes) : Prop :=
  get_byte buf hs = Some LEAF_TABLE ∧ Forall (table_cell u) cells ∧
  ∃ offs cs blocks, leaf_layout buf hs cells offs cs blocks.

Lemma get_range_byte buf buf' i :
  get_range buf' i (i + 1) = get_range buf i (i + 1) → get_byte buf' i = get_byte buf i.
Proof.
  intros Hg. unfold get_byte. destruct (get_range buf i (i + 1)) as [bs|] eqn:Hb.
  - pose proof Hb as (? & ? & _)%get_range_Some. pose proof Hg as (? & ? & _)%get_range_Some.
    rewrite !decide_True by lia. pose proof (get_range_lookup _ _ _ _ 0 Hb ltac:(lia)) as Hx.
    pose proof (get_range_lookup _ _ _ _ 0 Hg ltac:(lia)) as Hy. rewrite Nat.add_0_r in Hx, Hy. congruence.
  - apply get_range_None in Hb, Hg. by rewrite !decide_False by lia.
Qed.

Lemma table_leaf_collect u hs cells buf pn :
  table_leaf u hs cells buf → collect_leaf_cells buf hs pn u = Ok (map keyed cells).
Proof.
  intros (_ & Hw & offs & cs & blocks & H). pose proof (leaf_count _ _ _ _ _ _ H) as [Hn _].
  eapply collect_leaf_cells_eq; [apply H|apply H|apply H|lia|done].
Qed.

Lemma cell_bytes_keyed cells i c rowid :
  cell_bytes (insert_at i (rowid, c) (map keyed cells)) = insert_at i c cells.
Proof.
  unfold cell_bytes, insert_at. rewrite map_app. cbn. rewrite <- !fmap_take, <- !fmap_drop.
  change (map snd) with (fmap (M := list) (@snd Z bytes)). unfold keyed.
  rewrite <- !list_fmap_compose. unfold compose. cbn. by rewrite !list_fmap_id.
Qed.

Lemma cells_need_insert i c cells : cells_need (insert_at i c cells) = cells_need cells + zlen c + 2.
Proof.
  unfold insert_at. rewrite cells_need_app, cells_need_cons.
  rewrite <- (take_drop i cells) at 3. rewrite cells_need_app. lia.
Qed.

Lemma write_leaf_page_ok u hs pn cells buf :
  0 ≤ hs ≤ 100 → zlen buf ≤ 65536 → bytes_ok (take (Z.to_nat hs) buf) → Forall (table_cell u) cells →
  hs + 8 + cells_need cells ≤ zlen buf →
  ∃ buf', write_leaf_page hs pn cells buf = (buf', Ok ()) ∧ table_leaf u hs cells buf' ∧
    length buf' = length buf ∧ get_range buf' 0 hs = get_range buf 0 hs.
Proof.
  intros Hhs Hsz Hbo Hw Hfit.
  assert (Hne : nonempty_cells cells).
  { apply (table_cells_nonempty u); [done|]. unfold cells_need in *. lia. }
  destruct (write_page_rebuilt hs pn LEAF_TABLE 8 cells buf) as (b' & Hwr & Hr & Hok'); [lia..|done|].
  exists b'. split_and!; [done| |pose proof (rb_length _ _ _ _ _ _ Hr); lia|apply Hr].
  split_and!; [apply Hr|done|]. eexists _, _, _. eapply rebuilt_layout; try done.
  apply Hok'; [done|done|]. eapply Forall_impl; [exact Hw|]. by intros ? [? _].
Qed.

Lemma insert_fitting_ok u hs cells buf pn i c :
  table_leaf u hs cells buf → edit_ok u hs (zlen buf) cells (InsertCell i c) →
  ∃ buf', insert_fitting hs pn u (Z.of_nat i) (cell_rowid c) c buf = (buf', Ok ()) ∧
    table_leaf u hs (insert_at i c cells) buf' ∧ length buf' = length buf ∧
    get_range buf' 0 hs = get_range buf 0 hs.
Proof.
  intros Hleaf (Hi & Hc & Hfit). pose proof (table_leaf_collect _ _ _ _ pn Hleaf) as Hcol.
  destruct Hleaf as (Ht & Hw & offs & cs & blocks & H). pose proof (leaf_count _ _ _ _ _ _ H) as [Hn Hlo].
  pose proof (ll_hs _ _ _ _ _ _ H) as Hhs. pose proof (ll_size _ _ _ _ _ _ H) as Hsz.
  pose proof (cells_need_insert i c cells) as Hneed.
  assert (0 ≤ cells_need cells) by (unfold cells_need; lia).
  pose proof (table_cell_length u c ltac:(lia) Hc) as Hc2.
  assert (Hwi : Forall (table_cell u) (insert_at i c cells)) by (rewrite insert_at_perm; by constructor).
  unfold insert_fitting, b_bind at 1.
  destruct (decide (hs + 8 + 2 * (zlen cells + 1) + zlen c ≤ cs)) as [Hroom|Hroom].
  - destruct (leaf_splice_insert buf hs cells offs cs blocks i c pn H Hi) as (b' & -> & Hl & G & Hlay);
      [lia|apply Hc|done|].
    exists b'. split_and!; [done| |done|by apply G; lia]. split_and!; [|done|eauto].
    rewrite <- Ht. apply get_range_byte. apply G. lia.
  - rewrite (splice_insert_no_room buf hs cells offs cs blocks) by (done || lia).
    unfold b_bind, b_get. rewrite Hcol, Nat2Z.id, cell_bytes_keyed. 
    apply write_leaf_page_ok; [lia|done|apply bytes_ok_take, H|done|lia].
Qed.

Lemma run_edit_ok u hs cells buf pn e :
  table_leaf u hs cells buf → zlen buf ≤ 32768 → edit_ok u hs (zlen buf) cells e →
  ∃ buf', run_edit u hs pn e buf = (buf', Ok ()) ∧ table_leaf u hs (edit_cells e cells) buf' ∧
    length buf' = length buf ∧ get_range buf' 0 hs = get_range buf 0 hs.
Proof.
  intros Hleaf Hsm He. destruct e as [i c|i]; cbn [run_edit edit_cells]; [by apply insert_fitting_ok|].
  destruct Hleaf as (Ht & Hw & offs & cs & blocks & H). cbn in He.
  destruct (lookup_lt_is_Some_2 cells i He) as [c Hc].
  destruct (leaf_splice_delete buf hs cells offs cs blocks i c u true pn) as (b' & cs' & bl' & -> & Hl & G & Hlay);
    [done..|by eapply Forall_lookup_1 in Hw|].
  exists b'. pose proof (ll_hs _ _ _ _ _ _ H) as Hhs. split_and!; [done| |done|by apply G; lia].
  split_and!; [|by apply Forall_delete|eauto]. rewrite <- Ht. apply get_range_byte, G. lia.
Qed.

(** ** Property *)

(** Leaf edits refine list edits.  On a table leaf of at most 32768
    bytes, any sequence of cell insertions that fit and cell deletions,
    through the in-place splices with their freeblock chain and the rebuild
    fallback, succeeds, and the page then reads back as the list of cells
    with the same insertions and deletions done to it; the layout invariant
    (cells and freeblocks disjoint, chain ascending and coalesced) holds
    throughout and the bytes before the page header never change. *)
Theorem leaf_edits_refine (usable hs pn : Z) (cells : list bytes) (buf : bytes) (es : list leaf_edit)
    (Hleaf : table_leaf usable hs cells buf) (Hsize : zlen buf ≤ 32768)
    (Hes : edits_ok usable hs (zlen buf) cells es) :
  ∃ buf', run_edits usable hs pn es buf = (buf', Ok ()) ∧
    let cells' := foldl (flip edit_cells) cells es in
    table_leaf usable hs cells' buf' ∧
    collect_leaf_cells buf' hs pn usable = Ok (map keyed cells') ∧
    zlen buf' = zlen buf ∧ get_range buf' 0 hs = get_range buf 0 hs.
Proof.
  revert cells buf Hleaf Hsize Hes. induction es as [|e es IH]; intros cells buf Hleaf Hsize; cbn [edits_ok run_edits].
  - intros _. exists buf. split_and!; try done. by apply table_leaf_collect.
  - intros [He Hes]. destruct (run_edit_ok usable hs cells buf pn e Hleaf Hsize He) as (b1 & H1 & Hl1 & L1 & G1).
    destruct (IH (edit_cells e cells) b1) as (b2 & H2 & Hl2 & Hc2 & L2 & G2); [done|lia|by rewrite L1|].
    exists b2. unfold b_bind. rewrite H1. split_and!; [done|done|done|lia|congruence].
Qed.

