(* ===== verification/BtreePayload.v ===== *)
(** * Payloads and overflow chains ([row/btree/mod.rs])

    [reassemble_payload] returns a payload stored locally in its cell or
    spread over a chain of overflow pages.  [payload_at] is what a page and
    the chain have to hold, and the reader returns exactly that. *)

From S2P Require Import Prelude Varint Record Vfs Header Freelist Pager BtreePage.

(** ** Payloads *)

Inductive Payload : Type :=
| PayloadLocal (page : bytes) (start len : Z)
| PayloadOwned (bs : bytes).

(** [Deref]: indexing [page[start..start+len]] panics out of range; the
    constructor is only built in range. *)
Definition payload_bytes (p : Payload) : bytes :=
  match p with
  | PayloadLocal page start len => default [] (get_range page start (sat_add start len))
  | PayloadOwned bs => bs
  end.

Section source.
Context `{PageSource Src} (src : Src).

Definition bt_read (page_num : Z) : result BtreeError bytes :=
  map_err (BPageSource page_num) (source_read_page src page_num).

(** The [while remaining > 0] loop, with [fuel] bounding its rounds: each
    takes at least one byte of a payload of at most [MAX_PAYLOAD_LEN]. *)
Fixpoint overflow_loop (fuel : nat) (page_num available overflow_page remaining hops : Z)
    (visited : list Z) (result : bytes) : Prelude.result BtreeError bytes :=
  if decide (remaining ≤ 0) then Ok result
  else
    match fuel with
    | O => Err (BInternal "overflow_loop: out of fuel")
    | S fuel =>
        if decide (overflow_page = 0) then Err (OverflowChainTruncated page_num)
        else if decide (overflow_page ∈ visited)
        then Err (OverflowChainCycle page_num overflow_page)
        else
          let hops := sat_add hops 1 in
          if decide (MAX_PAGES_VISITED < hops)
          then Err (OverflowChainTooLong page_num MAX_PAGES_VISITED)
          else
            let? page := bt_read overflow_page in
            let? next := read_u32 page 0 overflow_page in
            let take := Z.min remaining available in
            let? chunk := ok_or (get_range page 4 (sat_add 4 take))
                                (BPageTooShort overflow_page (zlen page)) in
            overflow_loop fuel page_num available next (sat_sub remaining take) hops
              (overflow_page :: visited) (result ++ chunk)
    end.

Definition reassemble_payload (usable_size page_num : Z) (page : bytes) (tail_start payload_len : Z)
    (is_index : bool) : result BtreeError Payload :=
  if decide (MAX_PAYLOAD_LEN < payload_len) then Err (PayloadTooLarge page_num payload_len)
  else
    let? cell_tail := ok_or (get_from page tail_start) (PayloadTooShort page_num) in
    let local_size := local_payload_size usable_size payload_len is_index in
    let? local_bytes := ok_or (get_range cell_tail 0 local_size) (PayloadTooShort page_num) in
    if decide (local_size = payload_len) then Ok (PayloadLocal page tail_start local_size)
    else
      let? overflow_bytes := ok_or (get_range cell_tail local_size (sat_add local_size 4))
                                   (PayloadTooShort page_num) in
      let remaining := sat_sub payload_len local_size in
      let available := Z.max (sat_sub usable_size 4) 1 in
      let? bs := overflow_loop (Z.to_nat remaining) page_num available (be_val overflow_bytes)
                   remaining 0 [] local_bytes in
      Ok (PayloadOwned bs).

End source.

(** ** What a stored payload is *)

Lemma local_payload_size_le u pl b : 0 ≤ pl → local_payload_size u pl b ≤ pl.
Proof.
  intros Hp. unfold local_payload_size. case_decide as Hm; [done|]. case_decide as Hk; [lia|].
  etrans; [|apply Z.lt_le_incl, Z.nle_gt, Hm]. unfold sat_sub, sat_mul.
  assert (HU : 0 ≤ USIZE_MAX) by done. generalize dependent USIZE_MAX. intros M HU.
  destruct b.
  - apply Z.max_le_compat_r, Z.sub_le_mono_r, Z.div_le_mono; lia.
  - assert ((Z.max (u - 12) 0 * 32) `min` M / 255 ≤ Z.max (u - 12) 0); [|lia].
    apply Z.div_le_upper_bound; lia.
Qed.

Section chain.
Context (rd : Z → result PageError bytes) (avail : Z).

(** The pages [pgs], linked by their first four bytes, hold [data]. *)
Fixpoint chain_at (pgs : list Z) (data : bytes) : Prop :=
  match pgs with
  | [] => data = []
  | p :: pgs =>
      data ≠ [] ∧ p ≠ 0 ∧
      ∃ buf, rd p = Ok buf ∧ read_be 4 buf 0 = Some (hd 0 pgs) ∧
        get_range buf 4 (4 + Z.min (zlen data) avail) = Some (take (Z.to_nat (Z.min (zlen data) avail)) data) ∧
        chain_at pgs (drop (Z.to_nat (Z.min (zlen data) avail)) data)
  end.

End chain.

(** The payload [bs] of a cell whose head ends at [tail]. *)
Definition payload_at (rd : Z → result PageError bytes) (usable : Z) (is_index : bool) (buf : bytes) (tail : Z)
    (bs : bytes) : Prop :=
  let loc := local_payload_size usable (zlen bs) is_index in
  zlen bs ≤ MAX_PAYLOAD_LEN ∧
  get_range buf tail (tail + loc) = Some (take (Z.to_nat loc) bs) ∧
  (loc < zlen bs → ∃ pgs, NoDup pgs ∧ zlen pgs ≤ MAX_PAGES_VISITED ∧
     read_be 4 buf (tail + loc) = Some (hd 0 pgs) ∧
     chain_at rd (Z.max (sat_sub usable 4) 1) pgs (drop (Z.to_nat loc) bs)).

(** Reading a page inside a slice of it. *)
Lemma get_range_in (buf c : bytes) off x y :
  get_range buf off (off + zlen c) = Some c → 0 ≤ x → x ≤ y → y ≤ zlen c →
  get_range buf (off + x) (off + y) = get_range c x y.
Proof.
  intros Hg Hx Hxy Hy. pose proof Hg as (Ho & He & _)%get_range_Some.
  destruct (get_range_is_Some c x y) as [r Hr]; [lia..|]. rewrite Hr.
  apply get_range_Some in Hr as (_ & _ & ->). apply get_range_Some in Hg as (_ & _ & Hg). rewrite Hg.
  apply get_range_Some. split_and!; [lia..|]. rewrite skipn_firstn_comm, take_take, drop_drop.
  replace (off + y - (off + x)) with (y - x) by lia. f_equal; [lia|]. f_equal. lia.
Qed.

Lemma read_be_in n (buf c : bytes) off x v :
  get_range buf off (off + zlen c) = Some c → read_be n c x = Some v → 0 ≤ x → off + x + Z.of_nat n ≤ USIZE_MAX →
  read_be n buf (off + x) = Some v.
Proof.
  intros Hg Hr Hx Hu. pose proof Hg as (Ho & _)%get_range_Some. unfold read_be in *.
  rewrite sat_add_small in Hr |- * by lia. apply fmap_Some in Hr as (y & Hy & Hv).
  pose proof Hy as (_ & Hle & _)%get_range_Some. rewrite <- Z.add_assoc, (get_range_in _ _ _ _ _ Hg) by lia. by rewrite Hy, Hv.
Qed.

Lemma payload_at_in rd u b buf off c tail bs :
  0 ≤ tail → zlen buf ≤ 65536 → get_range buf off (off + zlen c) = Some c →
  payload_at rd u b c tail bs → payload_at rd u b buf (off + tail) bs.
Proof.
  intros Ht Hb Hg (Hm & Hl & Hc). pose proof Hg as (Ho & He & _)%get_range_Some.
  pose proof Hl as (Hl1 & Hl2 & _)%get_range_Some. pose proof (local_payload_size_nonneg u (zlen bs) b).
  set (loc := local_payload_size _ _ _) in *. split; [done|]. fold loc. split.
  - rewrite <- Z.add_assoc. by rewrite (get_range_in _ _ _ _ _ Hg) by lia.
  - intros Hlt. destruct (Hc Hlt) as (pgs & ? & ? & Hr & ?). exists pgs. split_and!; try done.
    assert (HU : 400000 ≤ USIZE_MAX) by done. rewrite <- Z.add_assoc. by apply (read_be_in 4 _ _ _ _ _ Hg Hr); lia.
Qed.

Section read.
Context `{PageSource Src} (src : Src).

Lemma overflow_loop_ok fuel pn avail pgs data hops visited acc :
  0 < avail → chain_at (source_read_page src) avail pgs data → (length data ≤ fuel)%nat →
  NoDup pgs → (∀ p, p ∈ pgs → p ∉ visited) → 0 ≤ hops → hops + zlen pgs ≤ MAX_PAGES_VISITED →
  zlen data ≤ MAX_PAYLOAD_LEN →
  overflow_loop src fuel pn avail (hd 0 pgs) (zlen data) hops visited acc = Ok (acc ++ data).
Proof.
  assert (HM : MAX_PAGES_VISITED = 1000000) by done. assert (HL : MAX_PAYLOAD_LEN = 2147483647) by done.
  assert (HU : 9000000000 ≤ USIZE_MAX) by done.
  intros Ha. revert fuel pgs hops visited acc.
  induction data as [data IH] using (induction_ltof1 _ length); unfold ltof in IH.
  intros fuel pgs hops visited acc Hc Hf Hnd Hv Hh Hn Hd.
  destruct pgs as [|p pgs]; cbn [chain_at] in Hc.
  { subst. cbn. rewrite app_nil_r. by destruct fuel. }
  destruct Hc as (Hne & Hp & buf & Hrd & Hnext & Hchunk & Hc).
  assert (0 < length data)%nat by (destruct data; [done|cbn; lia]).
  destruct fuel as [|fuel]; [lia|]. cbn [overflow_loop hd]. rewrite decide_False by lia.
  rewrite decide_False by done. rewrite decide_False by (apply Hv; left).
  cbn [length] in Hn. rewrite (sat_add_page hops) by lia. rewrite decide_False by lia.
  unfold bt_read. rewrite Hrd. cbn [map_err]. unfold read_u32. rewrite Hnext. cbn [ok_or].
  set (take' := Z.min (zlen data) avail) in *.
  rewrite sat_add_small by lia. rewrite Hchunk. cbn [ok_or].
  apply NoDup_cons in Hnd as [Hnp Hnd].
  rewrite sat_sub_ge by lia. replace (zlen data - take') with (zlen (drop (Z.to_nat take') data)) by (rewrite length_drop; lia).
  rewrite IH; try done; try (rewrite ?length_drop; lia).
  - by rewrite <- (assoc_L (++)), take_drop.
  - intros q Hq [->|Hq']%elem_of_cons; [done|]. apply (Hv q); [by right|done].
Qed.

Lemma reassemble_ok usable pn page tail is_index bs :
  0 ≤ tail → zlen page ≤ 65536 → payload_at (source_read_page src) usable is_index page tail bs →
  ∃ p, reassemble_payload src usable pn page tail (zlen bs) is_index = Ok p ∧ payload_bytes p = bs.
Proof.
  intros Ht Hpg (Hm & Hl & Hc). unfold reassemble_payload. rewrite decide_False by lia.
  assert (HU : 400000 ≤ USIZE_MAX) by done.
  pose proof (local_payload_size_nonneg usable (zlen bs) is_index ltac:(lia)) as Hnn.
  pose proof (local_payload_size_le usable (zlen bs) is_index ltac:(lia)) as Hle.
  set (loc := local_payload_size _ _ _) in *. pose proof Hl as (Hb1 & Hb2 & Hb3)%get_range_Some.
  assert (Hfrom : get_from page tail = Some (drop (Z.to_nat tail) page)) by (apply get_from_Some; split; [lia|done]).
  rewrite Hfrom. cbn [ok_or].
  assert (Hsub : ∀ x y, 0 ≤ x → get_range (drop (Z.to_nat tail) page) x y = get_range page (tail + x) (tail + y)).
  { intros x y Hx. unfold get_range. rewrite length_drop. repeat case_decide; try lia; [|done].
    rewrite drop_drop. do 2 f_equal; [lia|]. f_equal. lia. }
  rewrite Hsub, Z.add_0_r, Hl by lia. cbn [ok_or]. case_decide as He.
  - eexists. split; [done|]. cbn. rewrite sat_add_page, Hl by lia. cbn. rewrite He, Nat2Z.id, firstn_all. done.
  - destruct (Hc ltac:(lia)) as (pgs & Hnd & Hn & Hr & Hch).
    assert (Hend : tail + loc + 4 ≤ zlen page).
    { apply read_be_Some in Hr as (_ & Hr & _); lia. }
    rewrite sat_add_page by lia. rewrite Hsub by lia. unfold read_be in Hr. rewrite sat_add_page in Hr by lia.
    apply fmap_Some in Hr as (ob & Hob & Hhd). replace (tail + (loc + 4)) with (tail + loc + Z.of_nat 4) by (cbn; lia).
    rewrite Hob. cbn [ok_or]. rewrite <- Hhd. rewrite sat_sub_ge by lia.
    replace (zlen bs - loc) with (zlen (drop (Z.to_nat loc) bs)) by (rewrite length_drop; lia).
    rewrite (overflow_loop_ok _ pn _ pgs (drop (Z.to_nat loc) bs) 0 []); try done; try lia.
    + eexists. split; [done|]. cbn. apply take_drop.
    + intros ? _. apply not_elem_of_nil.
    + rewrite length_drop. lia.
Qed.
End read.
