(* ===== verification/IndexKey.v ===== *)
(** * The order of index keys ([row/btree/index.rs])

    [compare_values] and [compare_keys], with the IEEE comparison of doubles
    and the rounding of [i64 as f64] written out.  On keys whose integers are
    exact doubles (or that hold no doubles at all) the comparison is a total
    order; in general it is not even transitive. *)

From S2P Require Import Prelude Varint Text Record.

(** ** Doubles

    A double that is not a NaN is an integer multiple of [2 ^ -1074]; its
    value is that integer.  Infinity is the next power of two. *)

Definition f64_value (bits : Z) : Z :=
  let e := Z.land (Z.shiftr bits 52) 0x7ff in
  let f := Z.land bits (2 ^ 52 - 1) in
  let mag := if decide (e = 0) then f else Z.shiftl (f + 2 ^ 52) (e - 1) in
  if Z.testbit bits 63 then - mag else mag.

(** [x as f64]: the nearest value with 53 significant bits, ties to even. *)
Definition round_to_f64 (x : Z) : Z :=
  let a := Z.abs x in
  let n := Z.log2 a in
  if decide (n < 53) then x
  else
    let s := n - 52 in
    let q := Z.shiftr a s in
    let rem := Z.land a (2 ^ s - 1) in
    let half := 2 ^ (s - 1) in
    let q := if decide (half < rem ∨ rem = half ∧ Z.odd q = true) then q + 1 else q in
    Z.sgn x * Z.shiftl q s.

Definition F64_SCALE : Z := 2 ^ 1074.
Definition i64_as_f64 (x : Z) : Z := round_to_f64 x * F64_SCALE.

(** [partial_cmp(..).unwrap_or(Equal)] where one side may be a NaN. *)
Definition f64_cmp (nan : bool) (x y : Z) : comparison := if nan then Eq else x ?= y.

(** ** Comparison *)

Fixpoint lex_compare {A} (cmp : A → A → comparison) (a b : list A) : comparison :=
  match a, b with
  | [], [] => Eq
  | [], _ :: _ => Lt
  | _ :: _, [] => Gt
  | x :: a, y :: b => match cmp x y with Eq => lex_compare cmp a b | c => c end
  end.

(** [Ord] of byte slices. *)
Definition bytes_cmp : bytes → bytes → comparison := lex_compare Z.compare.

Definition value_rank (v : Value) : Z :=
  match v with
  | Null => 0
  | Integer _ | Real _ => 1
  | TextV _ => 2
  | Blob _ => 3
  end.

Definition compare_values (a b : Value) : comparison :=
  let ra := value_rank a in
  let rb := value_rank b in
  if decide (ra ≠ rb) then ra ?= rb
  else
    match a, b with
    | Null, Null => Eq
    | Integer x, Integer y => x ?= y
    | Real x, Real y => f64_cmp (is_nan x || is_nan y) (f64_value x) (f64_value y)
    | Integer x, Real y => f64_cmp (is_nan y) (i64_as_f64 x) (f64_value y)
    | Real x, Integer y => f64_cmp (is_nan x) (f64_value x) (i64_as_f64 y)
    | TextV x, TextV y => bytes_cmp (as_bytes x) (as_bytes y)
    | Blob x, Blob y => bytes_cmp x y
    | _, _ => Eq
    end.

(** The loop over the zipped columns. *)
Fixpoint compare_columns (l : list (Value * Value)) : comparison :=
  match l with
  | [] => Eq
  | (x, y) :: l => match compare_values x y with Eq => compare_columns l | c => c end
  end.

Definition compare_keys (a b : list Value) : comparison :=
  match compare_columns (zip a b) with
  | Eq => zlen a ?= zlen b
  | c => c
  end.

(** ** Orders given by a comparison *)

Class CompareOrder {A} (D : A → Prop) (cmp : A → A → comparison) : Prop := {
  cmp_refl x : D x → cmp x x = Eq;
  cmp_antisym x y : D x → D y → cmp y x = CompOpp (cmp x y);
  cmp_eq_l x y z : D x → D y → D z → cmp x y = Eq → cmp x z = cmp y z;
  cmp_trans x y z : D x → D y → D z → cmp x y = Lt → cmp y z = Lt → cmp x z = Lt;
}.

#[export] Instance Z_compare_order : CompareOrder (λ _, True) Z.compare.
Proof.
  split; intros *.
  - intros _. apply Z.compare_refl.
  - intros _ _. apply Z.compare_antisym.
  - intros _ _ _ ->%Z.compare_eq. done.
  - intros _ _ _. rewrite !Z.compare_lt_iff. lia.
Qed.

(** Comparing by an image. *)
Lemma compare_order_pull {A B} (f : A → B) (D : A → Prop) (E : B → Prop) cmp cmp' :
  CompareOrder E cmp → (∀ x, D x → E (f x)) → (∀ x y, D x → D y → cmp' x y = cmp (f x) (f y)) →
  CompareOrder D cmp'.
Proof.
  intros Hc HE Heq. split; intros *.
  - intros Hx. rewrite Heq by done. apply cmp_refl; auto.
  - intros Hx Hy. rewrite !Heq by done. apply cmp_antisym; auto.
  - intros Hx Hy Hz. rewrite !Heq by done. apply cmp_eq_l; auto.
  - intros Hx Hy Hz. rewrite !Heq by done. apply cmp_trans; auto.
Qed.

(** First one comparison, then another. *)
Definition then_compare {A B} (ca : A → A → comparison) (cb : B → B → comparison) (x y : A * B) : comparison :=
  match ca x.1 y.1 with Eq => cb x.2 y.2 | c => c end.

#[export] Instance then_compare_order {A B} (D : A → Prop) (E : B → Prop) ca cb :
  CompareOrder D ca → CompareOrder E cb → CompareOrder (λ x : A * B, D x.1 ∧ E x.2) (then_compare ca cb).
Proof.
  intros Ha Hb. unfold then_compare. split; intros *.
  - intros [Hx Hx']. rewrite (cmp_refl x.1), (cmp_refl x.2); done.
  - intros [Hx Hx'] [Hy Hy']. rewrite (cmp_antisym x.1 y.1), (cmp_antisym x.2 y.2) by done.
    by destruct (ca x.1 y.1).
  - intros [Hx Hx'] [Hy Hy'] [Hz Hz']. destruct (ca x.1 y.1) eqn:E1; [|done..]. intros E2.
    rewrite (cmp_eq_l x.1 y.1 z.1), (cmp_eq_l x.2 y.2 z.2); done.
  - intros [Hx Hx'] [Hy Hy'] [Hz Hz']. destruct (ca x.1 y.1) eqn:E1; [|intros _|done].
    + intros E2. rewrite (cmp_eq_l x.1 y.1 z.1) by done. destruct (ca y.1 z.1); [|done..]. by apply cmp_trans.
    + destruct (ca y.1 z.1) eqn:E3; [intros _|intros _|done].
      * assert (E4 : ca z.1 y.1 = Eq) by (rewrite (cmp_antisym y.1 z.1), E3; done).
        rewrite (cmp_antisym z.1 x.1), (cmp_eq_l z.1 y.1 x.1), (cmp_antisym x.1 y.1), E1; done.
      * by rewrite (cmp_trans x.1 y.1 z.1).
Qed.

#[export] Instance lex_compare_order {A} (D : A → Prop) cmp :
  CompareOrder D cmp → CompareOrder (Forall D) (lex_compare cmp).
Proof.
  intros Hc. split.
  - induction x as [|a x IH]; [done|]. intros [Ha Hx]%Forall_cons. cbn. rewrite (cmp_refl a) by done. auto.
  - induction x as [|a x IH]; intros [|b y]; cbn; [done..|]. intros [Ha Hx]%Forall_cons [Hb Hy]%Forall_cons.
    rewrite (cmp_antisym a b) by done. destruct (cmp a b); [by apply IH|done..].
  - induction x as [|a x IH]; intros [|b y] [|c z]; cbn; try done.
    intros [Ha Hx]%Forall_cons [Hb Hy]%Forall_cons [Hc' Hz]%Forall_cons.
    destruct (cmp a b) eqn:E; [|done..]. intros E2. rewrite (cmp_eq_l a b c) by done. by rewrite (IH y z).
  - induction x as [|a x IH]; intros [|b y] [|c z]; cbn; try done.
    intros [Ha Hx]%Forall_cons [Hb Hy]%Forall_cons [Hc' Hz]%Forall_cons E1 E2.
    destruct (cmp a b) eqn:E; [rewrite (cmp_eq_l a b c) by done; destruct (cmp b c); [by apply (IH y)|done..]| |done].
    destruct (cmp b c) eqn:E3; [|by rewrite (cmp_trans a b c)|done].
    assert (E4 : cmp c b = Eq) by (rewrite (cmp_antisym b c), E3; done).
    rewrite (cmp_antisym c a), (cmp_eq_l c b a), (cmp_antisym a b), E; done.
Qed.

(** ** Keys on which the comparison is an order *)

Lemma compare_keys_lex a b : compare_keys a b = lex_compare compare_values a b.
Proof.
  unfold compare_keys. revert b. induction a as [|x a IH]; intros [|y b]; cbn [zip_with compare_columns lex_compare length];
    [done|by apply Z.compare_lt_iff|by apply Z.compare_gt_iff|].
  destruct (compare_values x y); [|done..]. rewrite <- IH. destruct (compare_columns (zip a b)); [|done..].
  rewrite !Nat2Z.inj_succ. destruct (Z.compare_spec (zlen a) (zlen b)); [apply Z.compare_eq_iff|apply Z.compare_lt_iff|apply Z.compare_gt_iff]; lia.
Qed.

(** Either no column holds a double, or every integer is an exact double and
    no double is a NaN. *)
Definition comparable (doubles : bool) (v : Value) : Prop :=
  match v with
  | Integer x => doubles = true → round_to_f64 x = x
  | Real b => doubles = true ∧ is_nan b = false
  | _ => True
  end.

(** The class of a value, its number and its bytes. *)
Definition value_code (v : Value) : Z * (Z * bytes) :=
  match v with
  | Null => (0, (0, []))
  | Integer x => (1, (x * F64_SCALE, []))
  | Real b => (1, (f64_value b, []))
  | TextV s => (2, (0, as_bytes s))
  | Blob b => (3, (0, b))
  end.

Definition code_compare : Z * (Z * bytes) → Z * (Z * bytes) → comparison :=
  then_compare Z.compare (then_compare Z.compare bytes_cmp).

Lemma scale_compare x y : (x * F64_SCALE ?= y * F64_SCALE) = (x ?= y).
Proof.
  assert (HF : 0 < F64_SCALE) by done. generalize dependent F64_SCALE. intros F HF.
  destruct (Z.compare_spec x y); [apply Z.compare_eq_iff|apply Z.compare_lt_iff|apply Z.compare_gt_iff]; nia.
Qed.

Lemma compare_values_code d a b :
  comparable d a → comparable d b → compare_values a b = code_compare (value_code a) (value_code b).
Proof.
  assert (Hid : ∀ c : comparison, c = match c with Eq => Eq | Lt => Lt | Gt => Gt end) by (by intros []).
  intros Ha Hb. unfold compare_values, code_compare, then_compare.
  destruct a, b; cbn -[F64_SCALE Z.mul]; try done; cbn in Ha, Hb.
  - rewrite scale_compare. apply Hid.
  - destruct Hb as [-> ->]. cbn [f64_cmp]. unfold i64_as_f64. rewrite Ha by done. apply Hid.
  - destruct Ha as [-> ->]. cbn [f64_cmp]. unfold i64_as_f64. rewrite Hb by done. apply Hid.
  - destruct Ha as [_ ->], Hb as [_ ->]. apply Hid.
Qed.

#[export] Instance compare_values_order d : CompareOrder (comparable d) compare_values.
Proof.
  apply (compare_order_pull value_code _ (λ x, True ∧ True ∧ Forall (λ _, True) x.2.2) code_compare);
    [|intros x _; split_and!; [done..|by apply Forall_true]|apply compare_values_code].
  apply (then_compare_order (λ _, True) (λ y : Z * bytes, True ∧ Forall (λ _, True) y.2) Z.compare (then_compare Z.compare bytes_cmp)).
  - apply Z_compare_order.
  - apply (then_compare_order (λ _ : Z, True) (Forall (λ _, True)) Z.compare bytes_cmp); [apply Z_compare_order|].
    apply (lex_compare_order (λ _, True)), Z_compare_order.
Qed.

#[export] Instance compare_keys_compare_order d : CompareOrder (Forall (comparable d)) compare_keys.
Proof.
  apply (compare_order_pull id _ (Forall (comparable d)) (lex_compare compare_values));
    [apply (lex_compare_order _), _|done|intros; apply compare_keys_lex].
Qed.

(** Integers up to [2 ^ 53] are exact doubles. *)
Lemma round_small x : - 2 ^ 53 < x < 2 ^ 53 → round_to_f64 x = x.
Proof.
  intros Hx. unfold round_to_f64. rewrite decide_True; [done|]. destruct (decide (x = 0)) as [->|]; [done|].
  apply Z.log2_lt_pow2; lia.
Qed.

(** Index keys are totally ordered.  When the integers of the keys are
    exact doubles and no double is a NaN, or when the keys hold no doubles,
    [compare_keys] is a total order: reflexive, antisymmetric and transitive,
    and keys that compare equal compare alike with every other key. *)
Theorem compare_keys_total_order (doubles : bool) (a b c : list Value) :
  Forall (comparable doubles) a → Forall (comparable doubles) b → Forall (comparable doubles) c →
  compare_keys a a = Eq ∧ compare_keys b a = CompOpp (compare_keys a b) ∧
  (compare_keys a b = Eq → compare_keys a c = compare_keys b c) ∧
  (compare_keys a b = Lt → compare_keys b c = Lt → compare_keys a c = Lt).
Proof.
  intros Ha Hb Hc. split_and!.
  - by apply (cmp_refl (D := Forall (comparable doubles))).
  - by apply (cmp_antisym (D := Forall (comparable doubles))).
  - by apply (cmp_eq_l (D := Forall (comparable doubles))).
  - by apply (cmp_trans (D := Forall (comparable doubles))).
Qed.

(** The comparison of mixed keys is not transitive.  [Integer] against
    [Real] rounds the integer to a double first, so an integer above [2 ^ 53]
    and its successor can both compare equal to one double, while they are
    ordered between themselves. *)
Theorem compare_values_not_transitive :
  ∃ x y z : Value, value_ok x ∧ value_ok y ∧ value_ok z ∧
    compare_values x y = Eq ∧ compare_values y z = Eq ∧ compare_values x z = Lt.
Proof.
  exists (Integer (2 ^ 53)), (Real 0x4340000000000000), (Integer (2 ^ 53 + 1)).
  split_and!; first [split; vm_compute; congruence|vm_compute; reflexivity].
Qed.
