(* ===== verification/IndexTree.v ===== *)
(** * Index b-trees on their pages

    What a page of an index b-tree holds, the tree of pages as an [itree]
    whose interior nodes carry entries between their children, and reading
    one entry of a page. *)

From S2P Require Import Prelude Varint Text Record Vfs Header Freelist Pager BtreePage BtreeSplice BtreePayload IndexKey.

(** ** Pages *)

(** An index leaf holding [cells], whatever its free space. *)
Definition index_leaf (u hs : Z) (cells : list bytes) (buf : bytes) : Prop :=
  get_byte buf hs = Some LEAF_INDEX ∧ Forall (index_cell u) cells ∧
  ∃ offs cs blocks, leaf_layout buf hs cells offs cs blocks.

Definition node_cells (es : list (Z * bytes)) : list bytes := map (λ e, build_index_interior_cell e.1 e.2) es.

Definition node_entry (u : Z) (e : Z * bytes) : Prop := u32_ok e.1 ∧ index_cell u e.2.

(** An index interior page: children with the entries after them, and the
    rightmost child. *)
Definition index_node (u hs : Z) (es : list (Z * bytes)) (right : Z) (buf : bytes) : Prop :=
  get_byte buf hs = Some INTERIOR_INDEX ∧ read_be 4 buf (hs + 8) = Some right ∧ zlen es < 65536 ∧
  bytes_ok buf ∧ zlen buf ≤ 65536 ∧ Forall (node_entry u) es ∧
  ∃ offs, has_cells buf hs 12 (node_cells es) offs.

(** ** Trees *)

Inductive itree : Type :=
| ILeaf (pn : Z) (cells : list bytes)
| INode (pn : Z) (kids : list (itree * bytes)) (rt : itree).

Section itree_ind.
Context (P : itree → Prop).
Hypothesis (HL : ∀ pn cells, P (ILeaf pn cells))
  (HN : ∀ pn kids rt, Forall (λ k, P k.1) kids → P rt → P (INode pn kids rt)).

Fixpoint itree_rect' (t : itree) : P t :=
  match t with
  | ILeaf pn cells => HL pn cells
  | INode pn kids rt =>
      HN pn kids rt
        ((fix go (l : list (itree * bytes)) : Forall (λ k, P k.1) l :=
            match l with
            | [] => List.Forall_nil _
            | k :: l => List.Forall_cons _ _ _ (itree_rect' k.1) (go l)
            end) kids)
        (itree_rect' rt)
  end.
End itree_ind.

Definition iroot (t : itree) : Z := match t with ILeaf pn _ | INode pn _ _ => pn end.

(** The entries in order. *)
Fixpoint ientries (t : itree) : list bytes :=
  match t with
  | ILeaf _ cells => cells
  | INode _ kids rt => concat (map (λ k, ientries k.1 ++ [k.2]) kids) ++ ientries rt
  end.

(** Pages of the tree itself; overflow pages are not counted. *)
Fixpoint ipages (t : itree) : list Z :=
  match t with
  | ILeaf pn _ => [pn]
  | INode pn kids rt => pn :: concat (map (λ k, ipages k.1) kids) ++ ipages rt
  end.

Definition routes (kids : list (itree * bytes)) : list (Z * bytes) := map (λ k, (iroot k.1, k.2)) kids.

Section itree_at.
Context (usable : Z) (rd : Z → result PageError bytes).

Fixpoint itree_at (t : itree) : Prop :=
  match t with
  | ILeaf pn cells => ∃ buf, rd pn = Ok buf ∧ index_leaf usable (page1_header_start pn) cells buf
  | INode pn kids rt =>
      (∃ buf, rd pn = Ok buf ∧ index_node usable (page1_header_start pn) (routes kids) (iroot rt) buf) ∧
      foldr (λ k P, itree_at k.1 ∧ P) True kids ∧ itree_at rt
  end.

Lemma itree_at_kids kids :
  foldr (λ k P, itree_at k.1 ∧ P) True kids ↔ Forall (λ k : itree * bytes, itree_at k.1) kids.
Proof. induction kids as [|k kids IH]; cbn; [by rewrite Forall_nil|]. by rewrite Forall_cons, IH. Qed.

(** The payload of an entry and the key it holds. *)
Definition entry_payload (c bs : bytes) : Prop :=
  ∃ n, decode_payload_len c 0 0 = Ok (zlen bs, n) ∧ 0 ≤ n ∧ payload_at rd usable true c n bs.

Definition entry_key (enc : TextEncoding) (c : bytes) (key : list Value) : Prop :=
  ∃ bs, entry_payload c bs ∧ decode_record bs enc = Ok key.
End itree_at.

Lemma ipages_pos t : 1 ≤ zlen (ipages t).
Proof. destruct t; cbn; lia. Qed.

Lemma length_routes kids : length (routes kids) = length kids.
Proof. apply length_map. Qed.

Lemma length_node_cells es : length (node_cells es) = length es.
Proof. apply length_map. Qed.

Lemma header_start_bounds pn : 0 ≤ page1_header_start pn ≤ 100.
Proof. unfold page1_header_start. case_decide; lia. Qed.

(** ** Reading entries *)

Lemma decode_payload_len_shift buf off c pl n pn :
  bytes_ok c → zlen buf ≤ 65536 → get_range buf off (off + zlen c) = Some c → 
  decode_payload_len c 0 0 = Ok (pl, n) → decode_payload_len buf off pn = Ok (pl, off + n).
Proof.
  intros Hok Hlen Hg Hd. pose proof Hg as (? & ? & _)%get_range_Some.
  unfold decode_payload_len in *. rewrite get_from_0 in Hd. cbn [ok_or] in Hd.
  destruct (decode_varint c) as [[pl' n1]|] eqn:H1; [|done]. cbn in Hd.
  pose proof (decode_varint_Ok _ _ _ Hok H1) as (? & ? & [? _] & _).
  rewrite sat_add_page, Z.add_0_l in Hd by lia. injection Hd as <- <-.
  destruct (get_from_of_range _ _ _ Hg) as [s Hs]. rewrite Hs. cbn [ok_or].
  rewrite (decode_varint_prefix c s _ _ Hok H1). cbn [map_err fst snd]. by rewrite sat_add_page by lia.
Qed.

(** The cell of an interior page and the entry in it. *)
Lemma node_cell_at buf off child c pn :
  zlen buf ≤ 65536 → u32_ok child →
  get_range buf off (off + zlen (build_index_interior_cell child c)) = Some (build_index_interior_cell child c) →
  read_u32 buf off pn = Ok child ∧ get_range buf (off + 4) (off + 4 + zlen c) = Some c.
Proof.
  intros Hlen Hch Hg. unfold build_index_interior_cell in *. split.
  - unfold read_u32. rewrite <- (Z.add_0_r off), (read_be_sub 4 _ _ _ 0 child Hg); [done..|].
    apply read_be_app0; [mlia|exact Hch].
  - pose proof (be_bytes_length 4 child) as H4. rewrite length_app in Hg.
    rewrite <- Z.add_assoc. eapply (get_range_sub _ _ _ 4 (4 + zlen c)).
    + by rewrite length_app.
    + lia.
    + apply get_range_Some. rewrite length_app. split_and!; [lia..|].
      rewrite drop_app_length' by lia. rewrite take_ge; [done|lia].
Qed.

(** ** Writing pages *)

Lemma index_cell_length u c : index_cell u c → 1 ≤ zlen c.
Proof.
  intros (Hok & pl & t & Hd & Hl). unfold decode_payload_len in Hd. rewrite get_from_0 in Hd. cbn [ok_or] in Hd.
  destruct (decode_varint c) as [[pl' n1]|] eqn:H1; [|done]. 
  pose proof (decode_varint_Ok _ _ _ Hok H1) as (? & ? & [? _] & _). lia.
Qed.

Lemma index_cells_nonempty u cells : Forall (index_cell u) cells → nonempty_cells cells.
Proof. intros Hw. eapply Forall_impl; [exact Hw|]. intros c. apply index_cell_length. Qed.

Lemma write_index_leaf_page_ok u hs pn cells buf :
  0 ≤ hs ≤ 100 → zlen buf ≤ 65536 → bytes_ok (take (Z.to_nat hs) buf) → Forall (index_cell u) cells →
  hs + 8 + cells_need cells ≤ zlen buf →
  ∃ buf', write_index_leaf_page hs pn cells buf = (buf', Ok ()) ∧ index_leaf u hs cells buf' ∧
    length buf' = length buf ∧ get_range buf' 0 hs = get_range buf 0 hs.
Proof.
  intros Hhs Hsz Hbo Hw Hfit. pose proof (index_cells_nonempty u cells Hw) as Hne.
  destruct (write_page_rebuilt hs pn LEAF_INDEX 8 cells buf) as (b' & Hwr & Hr & Hok'); [lia..|done|].
  exists b'. split_and!; [done| |pose proof (rb_length _ _ _ _ _ _ Hr); lia|apply Hr].
  split_and!; [apply Hr|done|]. eexists _, _, _. eapply rebuilt_layout; try done.
  apply Hok'; [done|done|]. eapply Forall_impl; [exact Hw|]. by intros ? [? _].
Qed.

Lemma node_cells_ok u es : Forall (node_entry u) es → Forall bytes_ok (node_cells es) ∧ nonempty_cells (node_cells es).
Proof.
  intros Hes. split; apply Forall_map; (eapply Forall_impl; [exact Hes|]); intros e [_ [He _]]; unfold build_index_interior_cell.
  - apply bytes_ok_app. split; [apply be_bytes_ok|done].
  - rewrite length_app, be_bytes_length. lia.
Qed.

Lemma write_index_interior_page_ok u hs pn right es buf :
  0 ≤ hs ≤ 100 → zlen buf ≤ 65536 → Forall (node_entry u) es → u32_ok right → bytes_ok (take (Z.to_nat hs) buf) →
  hs + 12 + cells_need (node_cells es) ≤ zlen buf →
  ∃ buf', write_index_interior_page hs pn (node_cells es) right buf = (buf', Ok ()) ∧
    index_node u hs es right buf' ∧ length buf' = length buf ∧ get_range buf' 0 hs = get_range buf 0 hs.
Proof.
  intros Hhs Hlen Hes Hr Hok Hfit. destruct (node_cells_ok u es Hes) as [Hbo Hn].
  assert (HU : 400000 ≤ USIZE_MAX) by done. pose proof (nonempty_count _ Hn) as Hcnt. rewrite length_node_cells in Hcnt.
  destruct (write_page_rebuilt hs pn INTERIOR_INDEX 12 (node_cells es) buf) as (b1 & Hw1 & Hb & Hok1); [lia..|done|].
  unfold write_index_interior_page, b_bind. rewrite Hw1, sat_add_page by lia.
  unfold cells_need in Hfit. rewrite length_node_cells in Hfit. pose proof (rb_length _ _ _ _ _ _ Hb) as Hl1.
  destruct (put_range_is_Some b1 (hs + 8) (be_bytes 4 right)) as [b2 Hp]; [lia|rewrite be_bytes_length; lia|].
  unfold bt_put. rewrite Hp. exists b2. pose proof (put_range_length _ _ _ _ Hp).
  pose proof (be_bytes_length 4 right). split_and!; [done| |lia|].
  - split_and!; [| | | |lia|done|].
    + rewrite (get_byte_put_disjoint _ _ _ _ _ Hp) by lia. apply Hb.
    + by apply (read_be_put_same _ _ _ _ _ Hp); [lia|].
    + lia.
    + apply (bytes_ok_put_range b1 (hs + 8) (be_bytes 4 right)); [|apply be_bytes_ok|done].
      apply Hok1; [done|by unfold u8_ok|done].
    + eexists. apply (has_cells_put b1 _ _ _ _ _ _ _ (rb_cells _ _ _ _ _ _ Hb)) with (1 := Hhs) (4 := Hp); rewrite ?length_node_cells; try lia.
      intros i o c ->%cell_offs_lookup _. lia.
  - rewrite (get_put_disjoint _ _ _ _ _ _ Hp) by lia. apply Hb.
Qed.

(** Entries lie within a page. *)
Lemma has_cells_short buf hs hl cells offs :
  has_cells buf hs hl cells offs → zlen buf ≤ 65536 → Forall (λ c, zlen c ≤ 65536) cells.
Proof.
  intros Hc Hsz. apply Forall_lookup_2. intros i c Hi. destruct (hc_lookup _ _ _ _ _ _ _ Hc Hi) as [off Ho].
  pose proof (hc_cell _ _ _ _ _ Hc i off c Ho Hi) as (? & ? & _)%get_range_Some. lia.
Qed.

Lemma entries_short usable rd t : itree_at usable rd t → Forall (λ c, zlen c ≤ 65536) (ientries t).
Proof.
  induction t as [pn cells|pn kids rt IHk IHr] using itree_rect'; cbn [itree_at ientries].
  - intros (buf & _ & _ & _ & offs & cs & bl & Hl). eapply has_cells_short; [apply (ll_cells _ _ _ _ _ _ Hl)|apply Hl].
  - intros ((buf & _ & _ & _ & _ & _ & Hsz & _ & offs & Hc) & Hk%itree_at_kids & Hr). apply Forall_app. split; [|by apply IHr].
    pose proof (has_cells_short _ _ _ _ _ Hc Hsz) as Hs. clear Hc. induction kids as [|k kids IH]; cbn; [constructor|].
    apply Forall_cons in IHk as [IHk0 IHk], Hk as [Hk0 Hk]. cbn [routes node_cells map fst snd] in Hs. apply Forall_cons in Hs as [Hs0 Hs].
    apply Forall_app. split; [|by apply IH]. apply Forall_app. split; [by apply IHk0|]. constructor; [|constructor].
    unfold build_index_interior_cell in Hs0. rewrite length_app in Hs0. lia.
Qed.

Section read.
Context `{PageSource Src} (src : Src) (usable : Z).

Lemma entry_read buf off c bs pn :
  index_cell usable c → zlen buf ≤ 65536 → get_range buf off (off + zlen c) = Some c →
  entry_payload usable (source_read_page src) c bs →
  ∃ n p, decode_payload_len buf off pn = Ok (zlen bs, n) ∧
    reassemble_payload src usable pn buf n (zlen bs) true = Ok p ∧ payload_bytes p = bs.
Proof.
  intros [Hok _] Hlen Hg (n & Hd & Hn & Hp). pose proof Hg as (? & _)%get_range_Some.
  pose proof (payload_at_in _ _ _ buf off c n bs Hn Hlen Hg Hp) as Hp'.
  destruct (reassemble_ok src usable pn buf (off + n) true bs) as (p & Hr & Hb); [lia|done|done|].
  exists (off + n), p. split; [by eapply decode_payload_len_shift|done].
Qed.

(** The key of a cell, read from the source. *)
Definition cell_key (enc : TextEncoding) (c : bytes) : option (list Value) :=
  match decode_payload_len c 0 0 with
  | Ok (pl, n) =>
      match reassemble_payload src usable 0 c n pl true with
      | Ok p => match decode_record (payload_bytes p) enc with Ok key => Some key | Err _ => None end
      | Err _ => None
      end
  | Err _ => None
  end.

Lemma cell_key_ok enc c key :
  zlen c ≤ 65536 → entry_key usable (source_read_page src) enc c key → cell_key enc c = Some key.
Proof.
  intros Hlen (bs & (n & Hd & Hn & Hp) & Hk). unfold cell_key. rewrite Hd.
  destruct (reassemble_ok src usable 0 c n true bs) as (p & -> & ->); [done|done|done|]. by rewrite Hk.
Qed.
End read.
