(* ===== verification/BtreeCursor.v ===== *)
(** * Reading table b-trees ([row/btree/mod.rs])

    The [TableCursor] with its traversal stack in both directions, point
    lookup by binary search, payload reassembly over overflow chains, and the
    row count.  The abstract side is a tree of pages: [tree_at] ties it to
    the pages of a source, [ordered] says its separator keys route, and the
    cursor yields exactly its rows. *)

From S2P Require Import Prelude Varint Record Vfs Header Freelist Pager BtreePage BtreeSplice BtreePayload.

Record TableRow : Type := { tr_rowid : Z; tr_payload : Payload }.

Section source.
Context `{PageSource Src} (src : Src).

(** ** The cursor *)

Record Frame : Type := {
  tf_page_num : Z;
  tf_is_interior : bool;
  tf_num_cells : Z;
  tf_cell_ptr_base : Z;
  tf_next_cell : Z;
  tf_rightmost : Z;
  tf_rightmost_done : bool;
  tf_page : bytes;
}.

Record CurrentCell : Type := {
  cc_page : bytes;
  cc_page_num : Z;
  cc_tail_start : Z;
  cc_payload_len : Z;
}.

(** [source] is the section's [src]; the top of [stack] is its head. *)
Record TableCursor : Type := {
  tc_usable_size : Z;
  tc_root_page : Z;
  tc_stack : list Frame;
  tc_pages_visited : Z;
  tc_positioned_reverse : bool;
  tc_current : option CurrentCell;
}.

Definition TableCursor_new (header : DatabaseHeader) (root_page : Z) : TableCursor :=
  {| tc_usable_size := usable_page_size header; tc_root_page := root_page; tc_stack := [];
     tc_pages_visited := 0; tc_positioned_reverse := false; tc_current := None |}.

Definition set_stack (c : TableCursor) (st : list Frame) : TableCursor :=
  {| tc_usable_size := tc_usable_size c; tc_root_page := tc_root_page c; tc_stack := st;
     tc_pages_visited := tc_pages_visited c; tc_positioned_reverse := tc_positioned_reverse c;
     tc_current := tc_current c |}.

Definition set_visited (c : TableCursor) (n : Z) : TableCursor :=
  {| tc_usable_size := tc_usable_size c; tc_root_page := tc_root_page c; tc_stack := tc_stack c;
     tc_pages_visited := n; tc_positioned_reverse := tc_positioned_reverse c;
     tc_current := tc_current c |}.

Definition set_current (c : TableCursor) (x : option CurrentCell) : TableCursor :=
  {| tc_usable_size := tc_usable_size c; tc_root_page := tc_root_page c; tc_stack := tc_stack c;
     tc_pages_visited := tc_pages_visited c; tc_positioned_reverse := tc_positioned_reverse c;
     tc_current := x |}.

Definition reset (c : TableCursor) (reverse : bool) : TableCursor :=
  {| tc_usable_size := tc_usable_size c; tc_root_page := tc_root_page c; tc_stack := [];
     tc_pages_visited := 0; tc_positioned_reverse := reverse; tc_current := tc_current c |}.

Definition frame_at (f : Frame) (next_cell : Z) (rightmost_done : bool) : Frame :=
  {| tf_page_num := tf_page_num f; tf_is_interior := tf_is_interior f; tf_num_cells := tf_num_cells f;
     tf_cell_ptr_base := tf_cell_ptr_base f; tf_next_cell := next_cell; tf_rightmost := tf_rightmost f;
     tf_rightmost_done := rightmost_done; tf_page := tf_page f |}.

Definition cursor_read_page (c : TableCursor) (page_num : Z) : result BtreeError bytes * TableCursor :=
  let c := set_visited c (sat_add (tc_pages_visited c) 1) in
  (if decide (MAX_PAGES_VISITED < tc_pages_visited c) then Err (TraversalTooLong MAX_PAGES_VISITED)
   else bt_read src page_num, c).

(** The frame [push_page] builds from a page. *)
Definition page_frame (page : bytes) (page_num : Z) (reverse : bool) : result BtreeError Frame :=
  let header_start := page1_header_start page_num in
  let? page_type := read_page_type page header_start page_num in
  let? is_interior :=
    (if decide (page_type = LEAF_TABLE) then Ok false
     else if decide (page_type = INTERIOR_TABLE) then Ok true
     else Err (UnexpectedPageType page_num page_type)) in
  let? _ := (if is_interior : bool then require_interior_header page header_start page_num else Ok ()) in
  let? num_cells := read_num_cells page header_start page_num in
  let? br := (if is_interior : bool then
                let? r := read_u32 page (sat_add header_start 8) page_num in
                Ok (sat_add header_start 12, r)
              else Ok (sat_add header_start 8, 0)) in
  Ok {| tf_page_num := page_num; tf_is_interior := is_interior; tf_num_cells := num_cells;
        tf_cell_ptr_base := br.1; tf_next_cell := (if reverse then num_cells else 0);
        tf_rightmost := br.2; tf_rightmost_done := negb is_interior; tf_page := page |}.

Definition push_page (c : TableCursor) (page_num : Z) (reverse : bool)
  : result BtreeError () * TableCursor :=
  let '(r, c) := cursor_read_page c page_num in
  match r with
  | Err e => (Err e, c)
  | Ok page =>
      match page_frame page page_num reverse with
      | Err e => (Err e, c)
      | Ok f => (Ok (), set_stack c (f :: tc_stack c))
      end
  end.

Definition read_interior_child (f : Frame) (cell_index : Z) : result BtreeError Z :=
  let? cell_start := read_cell_pointer (tf_page f) (cell_ptr_offset (tf_cell_ptr_base f) cell_index)
                       (tf_page_num f) cell_index in
  read_u32 (tf_page f) cell_start (tf_page_num f).

Definition decode_leaf_cell (c : TableCursor) (f : Frame) (cell_index : Z)
  : result BtreeError (option Z) * TableCursor :=
  match (let? cell_start := read_cell_pointer (tf_page f) (cell_ptr_offset (tf_cell_ptr_base f) cell_index)
                              (tf_page_num f) cell_index in
         decode_cell_head (tf_page f) cell_start (tf_page_num f)) with
  | Err e => (Err e, c)
  | Ok (rowid, payload_len, tail_start) =>
      (Ok (Some rowid), set_current c (Some {| cc_page := tf_page f; cc_page_num := tf_page_num f;
                                               cc_tail_start := tail_start; cc_payload_len := payload_len |}))
  end.

(** Every round of [advance] pops a frame, or reads a page and pushes one:
    twice the reads left plus the stack bounds the rounds. *)
Definition advance_fuel (c : TableCursor) : nat :=
  Z.to_nat (2 * Z.max (MAX_PAGES_VISITED - tc_pages_visited c) 0 + zlen (tc_stack c) + 1).

Fixpoint advance_loop (fuel : nat) (c : TableCursor) : result BtreeError (option Z) * TableCursor :=
  match fuel with
  | O => (Err (BInternal "advance: out of fuel"), c)
  | S fuel =>
      match tc_stack c with
      | [] => (Ok None, set_current c None)
      | f :: rest =>
          let next_cell := tf_next_cell f in
          if tf_is_interior f then
            if decide (next_cell < tf_num_cells f) then
              let c := set_stack c (frame_at f (sat_add next_cell 1) (tf_rightmost_done f) :: rest) in
              match read_interior_child f next_cell with
              | Err e => (Err e, c)
              | Ok child =>
                  match push_page c child false with
                  | (Err e, c) => (Err e, c)
                  | (Ok _, c) => advance_loop fuel c
                  end
              end
            else if tf_rightmost_done f then advance_loop fuel (set_stack c rest)
            else
              match push_page (set_stack c (frame_at f next_cell true :: rest)) (tf_rightmost f) false with
              | (Err e, c) => (Err e, c)
              | (Ok _, c) => advance_loop fuel c
              end
          else if decide (tf_num_cells f ≤ next_cell) then advance_loop fuel (set_stack c rest)
          else
            let c := set_stack c (frame_at f (sat_add next_cell 1) (tf_rightmost_done f) :: rest) in
            decode_leaf_cell c f next_cell
      end
  end.

Definition advance (c : TableCursor) : result BtreeError (option Z) * TableCursor :=
  advance_loop (advance_fuel c) c.

Fixpoint advance_rev_loop (fuel : nat) (c : TableCursor) : result BtreeError (option Z) * TableCursor :=
  match fuel with
  | O => (Err (BInternal "advance_rev: out of fuel"), c)
  | S fuel =>
      match tc_stack c with
      | [] => (Ok None, set_current c None)
      | f :: rest =>
          let next_cell := tf_next_cell f in
          if tf_is_interior f then
            if tf_rightmost_done f then
              if decide (0 < next_cell) then
                let idx := sat_sub next_cell 1 in
                let c := set_stack c (frame_at f idx true :: rest) in
                match read_interior_child f idx with
                | Err e => (Err e, c)
                | Ok child =>
                    match push_page c child true with
                    | (Err e, c) => (Err e, c)
                    | (Ok _, c) => advance_rev_loop fuel c
                    end
                end
              else advance_rev_loop fuel (set_stack c rest)
            else
              match push_page (set_stack c (frame_at f next_cell true :: rest)) (tf_rightmost f) true with
              | (Err e, c) => (Err e, c)
              | (Ok _, c) => advance_rev_loop fuel c
              end
          else if decide (next_cell = 0) then advance_rev_loop fuel (set_stack c rest)
          else
            let idx := sat_sub next_cell 1 in
            let c := set_stack c (frame_at f idx (tf_rightmost_done f) :: rest) in
            decode_leaf_cell c f idx
      end
  end.

Definition advance_rev (c : TableCursor) : result BtreeError (option Z) * TableCursor :=
  advance_rev_loop (advance_fuel c) c.

Definition cursor_first (c : TableCursor) : result BtreeError (option Z) * TableCursor :=
  match push_page (reset c false) (tc_root_page c) false with
  | (Err e, c) => (Err e, c)
  | (Ok _, c) => advance c
  end.

Definition cursor_next (c : TableCursor) : result BtreeError (option Z) * TableCursor := advance c.

Definition cursor_last (c : TableCursor) : result BtreeError (option Z) * TableCursor :=
  match push_page (reset c true) (tc_root_page c) true with
  | (Err e, c) => (Err e, c)
  | (Ok _, c) => advance_rev c
  end.

Definition cursor_prev (c : TableCursor) : result BtreeError (option Z) * TableCursor :=
  if tc_positioned_reverse c then advance_rev c
  else (Err (CursorNotPositioned "TableCursor::prev()" "TableCursor::last()"), c).

Definition current_payload (c : TableCursor) : result BtreeError Payload :=
  let? cur := ok_or (tc_current c)
    (CursorNotPositioned "TableCursor::current_payload()"
       "first()/next()/last()/prev()/seek() returning Some(rowid)") in
  reassemble_payload src (tc_usable_size c) (cc_page_num cur) (cc_page cur) (cc_tail_start cur)
    (cc_payload_len cur) false.

(** [first_row], [next_row], [last_row], [prev_row] and [seek_row]: the
    eager forms. *)
Definition with_payload (rc : result BtreeError (option Z) * TableCursor)
  : result BtreeError (option TableRow) * TableCursor :=
  let '(r, c) := rc in
  (let? o := r in
   match o with
   | None => Ok None
   | Some rowid => let? p := current_payload c in Ok (Some {| tr_rowid := rowid; tr_payload := p |})
   end, c).

Definition first_row (c : TableCursor) := with_payload (cursor_first c).
Definition next_row (c : TableCursor) := with_payload (cursor_next c).
Definition last_row (c : TableCursor) := with_payload (cursor_last c).
Definition prev_row (c : TableCursor) := with_payload (cursor_prev c).

(** ** Point lookup *)

(** The leaf search: [Some (tail_start, payload_len)] of the cell found. *)
Fixpoint seek_leaf (fuel : nat) (page : bytes) (page_num cell_ptr_base target_rowid lo hi : Z)
  : result BtreeError (option (Z * Z)) :=
  match fuel with
  | O => Ok None
  | S fuel =>
      if decide (lo < hi) then
        let mid := sat_add lo (sat_sub hi lo / 2) in
        let? cell_start := read_cell_pointer page (cell_ptr_offset cell_ptr_base mid) page_num mid in
        let? h := decode_cell_head page cell_start page_num in
        let '(rowid, payload_len, tail_start) := h in
        match rowid ?= target_rowid with
        | Eq => Ok (Some (tail_start, payload_len))
        | Lt => seek_leaf fuel page page_num cell_ptr_base target_rowid (sat_add mid 1) hi
        | Gt => seek_leaf fuel page page_num cell_ptr_base target_rowid lo mid
        end
      else Ok None
  end.

(** The interior search for the child to descend into. *)
Fixpoint seek_child (fuel : nat) (page : bytes) (page_num cell_ptr_base target_rowid lo hi next_page : Z)
  : result BtreeError Z :=
  match fuel with
  | O => Ok next_page
  | S fuel =>
      if decide (lo < hi) then
        let mid := sat_add lo (sat_sub hi lo / 2) in
        let? cell_start := read_cell_pointer page (cell_ptr_offset cell_ptr_base mid) page_num mid in
        let? key_bytes := ok_or (get_from page (sat_add cell_start 4)) (InvalidCellPointer page_num mid) in
        let? kn := map_err (InvalidCellVarint page_num) (decode_varint key_bytes) in
        if decide (target_rowid ≤ as_i64 kn.1) then
          let? child := read_u32 page cell_start page_num in
          seek_child fuel page page_num cell_ptr_base target_rowid lo mid child
        else seek_child fuel page page_num cell_ptr_base target_rowid (sat_add mid 1) hi next_page
      else Ok next_page
  end.

(** The outer loop with [fuel = MAX_PAGES_VISITED - visited]. *)
Fixpoint seek_loop (fuel : nat) (c : TableCursor) (target_rowid page_num : Z)
  : result BtreeError (option Z) * TableCursor :=
  match fuel with
  | O => (Err (TraversalTooLong MAX_PAGES_VISITED), c)
  | S fuel =>
      match bt_read src page_num with
      | Err e => (Err e, c)
      | Ok page =>
          let header_start := page1_header_start page_num in
          match (let? page_type := read_page_type page header_start page_num in
                 let? num_cells := read_num_cells page header_start page_num in
                 Ok (page_type, num_cells)) with
          | Err e => (Err e, c)
          | Ok (page_type, num_cells) =>
              if decide (page_type = LEAF_TABLE) then
                match seek_leaf (S (Z.to_nat num_cells)) page page_num (sat_add header_start 8) target_rowid 0 num_cells with
                | Err e => (Err e, c)
                | Ok None => (Ok None, c)
                | Ok (Some (tail_start, payload_len)) =>
                    (Ok (Some target_rowid),
                     set_current c (Some {| cc_page := page; cc_page_num := page_num;
                                            cc_tail_start := tail_start; cc_payload_len := payload_len |}))
                end
              else if decide (page_type = INTERIOR_TABLE) then
                match (let? _ := require_interior_header page header_start page_num in
                       let? rightmost := read_u32 page (sat_add header_start 8) page_num in
                       seek_child (S (Z.to_nat num_cells)) page page_num (sat_add header_start 12) target_rowid
                         0 num_cells rightmost) with
                | Err e => (Err e, c)
                | Ok next_page => seek_loop fuel c target_rowid next_page
                end
              else (Err (UnexpectedPageType page_num page_type), c)
          end
      end
  end.

Definition seek (c : TableCursor) (target_rowid : Z) : result BtreeError (option Z) * TableCursor :=
  seek_loop (Z.to_nat MAX_PAGES_VISITED) (set_current c None) target_rowid (tc_root_page c).

Definition seek_row (c : TableCursor) (target_rowid : Z) := with_payload (seek c target_rowid).

(** ** Row count *)

(** [fuel] bounds the depth: every nested call raises [visited]. *)
Fixpoint count_table_rows_inner (fuel : nat) (page_num visited total : Z) : result BtreeError (Z * Z) :=
  match fuel with
  | O => Err (TraversalTooLong MAX_PAGES_VISITED)
  | S fuel =>
      let visited := sat_add visited 1 in
      if decide (MAX_PAGES_VISITED < visited) then Err (TraversalTooLong MAX_PAGES_VISITED)
      else
        let? buf := bt_read src page_num in
        let header_start := page1_header_start page_num in
        let? page_type := read_page_type buf header_start page_num in
        if decide (page_type = LEAF_TABLE) then
          let? num_cells := read_num_cells buf header_start page_num in
          Ok (visited, Z.min (total + num_cells) 9223372036854775807)
        else if decide (page_type = INTERIOR_TABLE) then
          let? er := collect_interior_entries buf header_start page_num in
          let? vt := foldl (λ acc e, let? vt := acc in
                                     count_table_rows_inner fuel (e : Z * Z).1 vt.1 vt.2)
                       (Ok (visited, total)) er.1 in
          count_table_rows_inner fuel er.2 vt.1 vt.2
        else Err (UnexpectedPageType page_num page_type)
  end.

Definition count_table_rows (root_page : Z) : result BtreeError Z :=
  let? vt := count_table_rows_inner (Z.to_nat (MAX_PAGES_VISITED + 1)) root_page 0 0 in
  Ok vt.2.
End source.

(** ** Abstract trees

    [kids] pairs each separator key with its subtree. *)

Inductive tree : Type :=
| Leaf (pn : Z) (cells : list bytes)
| Node (pn : Z) (kids : list (Z * tree)) (rt : tree).

Section tree_ind.
Context (P : tree → Prop).
Hypothesis (HL : ∀ pn cells, P (Leaf pn cells))
  (HN : ∀ pn kids rt, Forall (λ k, P k.2) kids → P rt → P (Node pn kids rt)).

Fixpoint tree_rect' (t : tree) : P t :=
  match t with
  | Leaf pn cells => HL pn cells
  | Node pn kids rt =>
      HN pn kids rt
        ((fix go (l : list (Z * tree)) : Forall (λ k, P k.2) l :=
            match l with
            | [] => List.Forall_nil _
            | k :: l => List.Forall_cons _ _ _ (tree_rect' k.2) (go l)
            end) kids)
        (tree_rect' rt)
  end.
End tree_ind.

Definition root_of (t : tree) : Z := match t with Leaf pn _ | Node pn _ _ => pn end.

Fixpoint rows (t : tree) : list bytes :=
  match t with
  | Leaf _ cells => cells
  | Node _ kids rt => concat (map (λ k, rows k.2) kids) ++ rows rt
  end.

(** Pages of the tree itself; overflow pages are not counted. *)
Fixpoint pages (t : tree) : list Z :=
  match t with
  | Leaf pn _ => [pn]
  | Node pn kids rt => pn :: concat (map (λ k, pages k.2) kids) ++ pages rt
  end.

Definition entries (kids : list (Z * tree)) : list (Z * Z) := map (λ k, (root_of k.2, k.1)) kids.

(** The tree as it lies in the pages [rd] returns. *)
Section tree_at.
Context (usable : Z) (rd : Z → result PageError bytes).

Fixpoint tree_at (t : tree) : Prop :=
  match t with
  | Leaf pn cells => ∃ buf, rd pn = Ok buf ∧ table_leaf usable (page1_header_start pn) cells buf
  | Node pn kids rt =>
      (∃ buf, rd pn = Ok buf ∧ zlen buf ≤ 65536 ∧ bytes_ok buf ∧
         interior_page buf (page1_header_start pn) (entries kids) (root_of rt)) ∧
      foldr (λ k P, tree_at k.2 ∧ P) True kids ∧ tree_at rt
  end.

Lemma tree_at_kids kids : foldr (λ k P, tree_at k.2 ∧ P) True kids ↔ Forall (λ k : Z * tree, tree_at k.2) kids.
Proof. induction kids as [|k kids IH]; cbn; [by rewrite Forall_nil|]. by rewrite Forall_cons, IH. Qed.
End tree_at.

(** Rowids of [t] lie in [(lo, hi]] and each separator bounds its subtree. *)
Fixpoint ordered (lo hi : Z) (t : tree) : Prop :=
  match t with
  | Leaf _ cells => StronglySorted Z.lt (map cell_rowid cells) ∧ Forall (λ c, lo < cell_rowid c ≤ hi) cells
  | Node _ kids rt =>
      (fix go (lo : Z) (l : list (Z * tree)) : Prop :=
         match l with
         | [] => lo ≤ hi ∧ ordered lo hi rt
         | k :: l => lo ≤ k.1 ∧ ordered lo k.1 k.2 ∧ go k.1 l
         end) lo kids
  end.

Fixpoint ordered_kids (lo hi : Z) (kids : list (Z * tree)) (rt : tree) : Prop :=
  match kids with
  | [] => lo ≤ hi ∧ ordered lo hi rt
  | k :: kids => lo ≤ k.1 ∧ ordered lo k.1 k.2 ∧ ordered_kids k.1 hi kids rt
  end.

Lemma ordered_node lo hi pn kids rt : ordered lo hi (Node pn kids rt) ↔ ordered_kids lo hi kids rt.
Proof.
  cbn. revert lo. induction kids as [|k kids IH]; intros lo; [done|]. cbn. by rewrite IH.
Qed.

(** ** Frames and the stack *)

Section cursor.
Context `{PageSource Src} (src : Src) (usable : Z).
Implicit Types (c : TableCursor) (f : Frame) (t : tree).

Abbreviation at_ := (tree_at usable (source_read_page src)).

Record leaf_frame f (cells : list bytes) (i : nat) : Prop := {
  lf_interior : tf_is_interior f = false;
  lf_num : tf_num_cells f = zlen cells;
  lf_base : tf_cell_ptr_base f = page1_header_start (tf_page_num f) + 8;
  lf_next : tf_next_cell f = Z.of_nat i;
  lf_le : (i ≤ length cells)%nat;
  lf_page : table_leaf usable (page1_header_start (tf_page_num f)) cells (tf_page f);
}.

Record node_frame f (kids : list (Z * tree)) (rt : tree) (i : nat) (fin : bool) : Prop := {
  nf_interior : tf_is_interior f = true;
  nf_num : tf_num_cells f = zlen kids;
  nf_base : tf_cell_ptr_base f = page1_header_start (tf_page_num f) + 12;
  nf_next : tf_next_cell f = Z.of_nat i;
  nf_le : (i ≤ length kids)%nat;
  nf_right : tf_rightmost f = root_of rt;
  nf_done : tf_rightmost_done f = fin;
  nf_size : zlen (tf_page f) ≤ 65536;
  nf_page : interior_page (tf_page f) (page1_header_start (tf_page_num f)) (entries kids) (root_of rt);
  nf_kids : Forall (λ k : Z * tree, at_ k.2) kids;
  nf_at : at_ rt;
}.

Definition tree_frame f t (reverse : bool) : Prop :=
  match t with
  | Leaf _ cells => leaf_frame f cells (if reverse then length cells else 0)
  | Node _ kids rt => node_frame f kids rt (if reverse then length kids else 0) false
  end.

Lemma hs_bounds pn : 0 ≤ page1_header_start pn ≤ 100.
Proof. unfold page1_header_start. case_decide; lia. Qed.

Lemma length_entries kids : length (entries kids) = length kids.
Proof. apply length_map. Qed.

Lemma page_frame_ok t buf reverse :
  at_ t → source_read_page src (root_of t) = Ok buf →
  ∃ f, page_frame buf (root_of t) reverse = Ok f ∧ tree_frame f t reverse.
Proof.
  intros Ht Hrd. pose proof (hs_bounds (root_of t)) as Hhs. unfold page_frame.
  destruct t as [pn cells|pn kids rt]; cbn [root_of tree_at] in *.
  - destruct Ht as (buf' & Hrd' & Hleaf). rewrite Hrd in Hrd'. injection Hrd' as <-.
    pose proof Hleaf as (Hty & _ & offs & cs & bl & Hlay).
    unfold read_page_type. rewrite Hty. cbn [ok_or]. rewrite decide_True by done.
    rewrite read_num_cells_eq by lia. rewrite (hc_num _ _ _ _ _ (ll_cells _ _ _ _ _ _ Hlay)). cbn [ok_or].
    eexists. split; [done|]. cbn [fst snd]. split; cbn; try done.
    + rewrite sat_add_page by lia. done.
    + by destruct reverse.
    + by destruct reverse; lia.
  - destruct Ht as ((buf' & Hrd' & Hsz & Hok & Hpage) & Hk & Hr). rewrite Hrd in Hrd'. injection Hrd' as <-.
    pose proof Hpage as (Hty & Hright & _ & cells & offs & Hc & Hw).
    unfold read_page_type. rewrite Hty. cbn [ok_or]. rewrite decide_False, decide_True by done.
    assert (Hl : page1_header_start pn + 12 ≤ zlen buf).
    { assert (HU : 400000 ≤ USIZE_MAX) by done.
      apply read_be_Some in Hright as (_ & Hle & _); [|lia]. lia. }
    unfold require_interior_header. rewrite sat_add_page, decide_False by lia.
    rewrite read_num_cells_eq by lia. rewrite (hc_num _ _ _ _ _ Hc). cbn [ok_or].
    unfold read_u32. rewrite !sat_add_page, Hright by lia. cbn [ok_or].
    pose proof (Forall2_length _ _ _ Hw) as Hlen. rewrite length_entries in Hlen.
    eexists. split; [done|]. cbn [fst snd]. split; cbn; try done.
    + lia.
    + destruct reverse; [lia|done].
    + by destruct reverse; lia.
    + by apply tree_at_kids.
Qed.

Lemma push_page_ok c t reverse :
  at_ t → 0 ≤ tc_pages_visited c → tc_pages_visited c < MAX_PAGES_VISITED →
  ∃ f, push_page src c (root_of t) reverse =
         (Ok (), set_stack (set_visited c (tc_pages_visited c + 1)) (f :: tc_stack c)) ∧
       tree_frame f t reverse.
Proof.
  intros Ht Hv0 Hv. unfold push_page, cursor_read_page, MAX_PAGES_VISITED in *.
  rewrite sat_add_page by lia. cbn [set_visited tc_pages_visited]. rewrite decide_False by lia.
  assert (∃ buf, source_read_page src (root_of t) = Ok buf) as [buf Hrd].
  { destruct t; cbn in Ht; [destruct Ht as (? & ? & ?)|destruct Ht as ((? & ? & ?) & ?)]; eauto. }
  destruct (page_frame_ok t buf reverse Ht Hrd) as (f & Hf & Htf).
  unfold bt_read. rewrite Hrd. cbn [map_err]. rewrite Hf. by exists f.
Qed.

Lemma read_interior_child_ok f kids rt i fin j k :
  node_frame f kids rt i fin → kids !! j = Some k →
  read_interior_child f (Z.of_nat j) = Ok (root_of k.2).
Proof.
  intros Hf Hk. pose proof (hs_bounds (tf_page_num f)) as Hhs.
  destruct (nf_page _ _ _ _ _ Hf) as (_ & _ & Hn & cells & offs & Hc & Hw).
  pose proof (Forall2_length _ _ _ Hw) as Hlen.
  assert (He : entries kids !! j = Some (root_of k.2, k.1)) by (unfold entries; by rewrite list_lookup_fmap, Hk).
  destruct (Forall2_lookup_r _ _ _ _ _ Hw He) as (cl & Hcl & Hcell).
  destruct (hc_lookup _ _ _ _ _ _ _ Hc Hcl) as [off Ho].
  unfold read_interior_child. rewrite (nf_base _ _ _ _ _ Hf), <- (sat_add_page _ 12) by lia.
  rewrite (hc_pointer _ _ _ _ _ _ _ (tf_page_num f) Hc) by (done || lia).
  destruct (interior_cell_read (tf_page f) off cl (root_of k.2, k.1) (tf_page_num f) Hcell) as (-> & _);
    [apply (nf_size _ _ _ _ _ Hf)|by apply (hc_cell _ _ _ _ _ Hc j)|done].
Qed.

(** The cursor stands on cell [r]. *)
Definition current_is c (r : bytes) : Prop :=
  ∃ buf pn off pl n, tc_current c = Some {| cc_page := buf; cc_page_num := pn; cc_tail_start := off + n;
                                            cc_payload_len := pl |} ∧
    zlen buf ≤ 65536 ∧ get_range buf off (off + zlen r) = Some r ∧ table_cell usable r ∧
    decode_cell_head r 0 0 = Ok (cell_rowid r, pl, n).

Lemma decode_leaf_cell_ok c f cells i j r :
  leaf_frame f cells i → cells !! j = Some r →
  ∃ x, decode_leaf_cell c f (Z.of_nat j) = (Ok (Some (cell_rowid r)), set_current c (Some x)) ∧
    ∀ c', tc_current c' = Some x → current_is c' r.
Proof.
  intros Hf Hj. pose proof (hs_bounds (tf_page_num f)) as Hhs.
  destruct (lf_page _ _ _ Hf) as (_ & Hw & offs & cs & bl & Hlay).
  pose proof (ll_cells _ _ _ _ _ _ Hlay) as Hc. pose proof (leaf_count _ _ _ _ _ _ Hlay) as [Hn _].
  pose proof (ll_size _ _ _ _ _ _ Hlay) as Hsz.
  destruct (hc_lookup _ _ _ _ _ _ _ Hc Hj) as [off Ho].
  pose proof (hc_cell _ _ _ _ _ Hc j off r Ho Hj) as Hg.
  pose proof (Forall_lookup_1 _ _ _ _ Hw Hj) as Hcell.
  destruct (table_cell_read usable (tf_page f) off r (tf_page_num f) Hcell Hsz Hg) as (pl & n & Hd & _ & _ & _ & Hd0).
  unfold decode_leaf_cell. rewrite (lf_base _ _ _ Hf), <- (sat_add_page _ 8) by lia.
  rewrite (hc_pointer _ _ _ _ _ _ _ (tf_page_num f) Hc) by (done || lia). rewrite Hd.
  eexists. split; [done|]. intros c' Hc'. exists (tf_page f), (tf_page_num f), off, pl, (n - off).
  rewrite Hc'. split_and!; try done. do 2 f_equal. lia.
Qed.

(** Subtrees a node frame has still to visit. *)
Inductive stack_fwd : list Frame → list bytes → Z → Prop :=
| fwd_nil : stack_fwd [] [] 0
| fwd_leaf f cells i st rs n :
    leaf_frame f cells i → stack_fwd st rs n → stack_fwd (f :: st) (drop i cells ++ rs) n
| fwd_node f kids rt i st rs n :
    node_frame f kids rt i false → stack_fwd st rs n →
    stack_fwd (f :: st) (concat (map (λ k, rows k.2) (drop i kids)) ++ rows rt ++ rs)
      (zlen (concat (map (λ k, pages k.2) (drop i kids))) + zlen (pages rt) + n)
| fwd_done f kids rt st rs n :
    node_frame f kids rt (length kids) true → stack_fwd st rs n → stack_fwd (f :: st) rs n.

Inductive stack_rev : list Frame → list bytes → Z → Prop :=
| rev_nil : stack_rev [] [] 0
| rev_leaf f cells i st rs n :
    leaf_frame f cells i → stack_rev st rs n → stack_rev (f :: st) (rs ++ take i cells) n
| rev_node f kids rt i st rs n :
    node_frame f kids rt i true → stack_rev st rs n →
    stack_rev (f :: st) (rs ++ concat (map (λ k, rows k.2) (take i kids)))
      (zlen (concat (map (λ k, pages k.2) (take i kids))) + n)
| rev_fresh f kids rt st rs n :
    node_frame f kids rt (length kids) false → stack_rev st rs n →
    stack_rev (f :: st) (rs ++ concat (map (λ k, rows k.2) kids) ++ rows rt)
      (zlen (concat (map (λ k, pages k.2) kids)) + zlen (pages rt) + n).

Lemma stack_fwd_nonneg st rs n : stack_fwd st rs n → 0 ≤ n.
Proof. induction 1; lia. Qed.
Lemma stack_rev_nonneg st rs n : stack_rev st rs n → 0 ≤ n.
Proof. induction 1; lia. Qed.

Lemma pages_pos t : 1 ≤ zlen (pages t).
Proof. destruct t; cbn; lia. Qed.

Lemma fwd_push f t st rs n :
  tree_frame f t false → stack_fwd st rs n → stack_fwd (f :: st) (rows t ++ rs) (zlen (pages t) - 1 + n).
Proof.
  intros Hf Hst. destruct t as [pn cells|pn kids rt]; cbn [tree_frame rows pages] in *.
  - replace (zlen [pn] - 1 + n) with n by (cbn; lia). by apply (fwd_leaf f cells 0).
  - rewrite <- (assoc_L (++)). pose proof (fwd_node f kids rt 0 st rs n Hf Hst) as H1. rewrite drop_0 in H1.
    cbn [length]. rewrite length_app.
    replace (Z.of_nat (S _) - 1 + n) with (zlen (concat (map (λ k, pages k.2) kids)) + zlen (pages rt) + n) by lia.
    done.
Qed.

Lemma rev_push f t st rs n :
  tree_frame f t true → stack_rev st rs n → stack_rev (f :: st) (rs ++ rows t) (zlen (pages t) - 1 + n).
Proof.
  intros Hf Hst. destruct t as [pn cells|pn kids rt]; cbn [tree_frame rows pages] in *.
  - replace (zlen [pn] - 1 + n) with n by (cbn; lia).
    pose proof (rev_leaf f cells (length cells) st rs n Hf Hst) as H1. by rewrite firstn_all in H1.
  - pose proof (rev_fresh f kids rt st rs n Hf Hst) as H1. cbn [length]. rewrite length_app.
    replace (Z.of_nat (S _) - 1 + n) with (zlen (concat (map (λ k, pages k.2) kids)) + zlen (pages rt) + n) by lia.
    done.
Qed.

(** What a cursor keeps while it moves. *)
Definition same_cursor c c' : Prop :=
  tc_usable_size c' = tc_usable_size c ∧ tc_root_page c' = tc_root_page c ∧
  tc_positioned_reverse c' = tc_positioned_reverse c.

(** One [advance]: the first of the remaining rows, or exhaustion. *)
Definition advances (stack : list Frame → list bytes → Z → Prop) (next : list bytes → option (bytes * list bytes))
    c (res : result BtreeError (option Z) * TableCursor) (rs : list bytes) (total : Z) : Prop :=
  let '(r, c') := res in
  same_cursor c c' ∧
  match next rs with
  | None => r = Ok None ∧ tc_stack c' = [] ∧ tc_current c' = None
  | Some (x, rs') => r = Ok (Some (cell_rowid x)) ∧ current_is c' x ∧
      ∃ n', stack (tc_stack c') rs' n' ∧ 0 ≤ tc_pages_visited c' ∧ tc_pages_visited c' + n' ≤ total
  end.

Definition uncons (rs : list bytes) : option (bytes * list bytes) :=
  match rs with [] => None | x :: rs => Some (x, rs) end.

Lemma node_frame_at f kids rt i fin j fin' :
  node_frame f kids rt i fin → (j ≤ length kids)%nat → node_frame (frame_at f (Z.of_nat j) fin') kids rt j fin'.
Proof. intros [] Hj. by split. Qed.

Lemma leaf_frame_at f cells i j :
  leaf_frame f cells i → (j ≤ length cells)%nat → leaf_frame (frame_at f (Z.of_nat j) (tf_rightmost_done f)) cells j.
Proof. intros [] Hj. by split. Qed.

Lemma advances_same stack next c c1 res rs total :
  same_cursor c c1 → advances stack next c1 res rs total → advances stack next c res rs total.
Proof.
  unfold advances, same_cursor. destruct res as [r c']. intros (-> & -> & ->). done.
Qed.

Lemma advance_loop_ok fuel c rs n total :
  stack_fwd (tc_stack c) rs n → 0 ≤ tc_pages_visited c → tc_pages_visited c + n ≤ total →
  total ≤ MAX_PAGES_VISITED → 2 * n + zlen (tc_stack c) < Z.of_nat fuel →
  advances stack_fwd uncons c (advance_loop src fuel c) rs total.
Proof.
  revert c rs n. induction fuel as [|fuel IH]; intros c rs n Hst Hv0 Hv Hmax Hfuel;
    [pose proof (stack_fwd_nonneg _ _ _ Hst); lia|].
  assert (HM : MAX_PAGES_VISITED = 1000000) by done.
  cbn [advance_loop]. inversion Hst as [Hs|f cells i st rs1 n1 Hf Hst1 Hs|f kids rt i st rs1 n1 Hf Hst1 Hs
    |f kids rt st rs1 n1 Hf Hst1 Hs]; subst; rewrite <- Hs in *; cbn [length] in Hfuel.
  - done.
  - rewrite (lf_interior _ _ _ Hf), (lf_next _ _ _ Hf), (lf_num _ _ _ Hf). case_decide as Hi.
    + pose proof (lf_le _ _ _ Hf). rewrite drop_ge by lia. eapply (advances_same _ _ c (set_stack c st)); [done|].
      eapply IH; try done. cbn. lia.
    + destruct (lookup_lt_is_Some_2 cells i ltac:(lia)) as [r Hr].
      pose proof (hs_bounds (tf_page_num f)). destruct (lf_page _ _ _ Hf) as (_ & _ & ? & ? & ? & Hlay).
      pose proof (leaf_count _ _ _ _ _ _ Hlay) as [Hcnt _].
      rewrite sat_add_page by lia. replace (Z.of_nat i + 1) with (Z.of_nat (S i)) by lia.
      set (c1 := set_stack _ _).
      destruct (decode_leaf_cell_ok c1 f cells i i r Hf Hr) as (cur & -> & Hx).
      rewrite (drop_S _ _ _ Hr). cbn [app advances uncons]. split_and!; [done|done|by apply Hx|].
      exists n. split_and!; [|done|done]. cbn. apply fwd_leaf; [|done]. apply (leaf_frame_at f cells i); [done|lia].
  - rewrite (nf_interior _ _ _ _ _ Hf), (nf_next _ _ _ _ _ Hf), (nf_num _ _ _ _ _ Hf). case_decide as Hi.
    + destruct (lookup_lt_is_Some_2 kids i ltac:(lia)) as [k Hk]. rewrite (drop_S _ _ _ Hk) in *.
      cbn [map concat] in *. rewrite length_app in Hfuel, Hv.
      rewrite (read_interior_child_ok f kids rt i false i k Hf Hk).
      destruct (nf_page _ _ _ _ _ Hf) as (_ & _ & Hcnt & _). rewrite length_entries in Hcnt.
      rewrite sat_add_page by lia. replace (Z.of_nat i + 1) with (Z.of_nat (S i)) by lia.
      pose proof (Forall_lookup_1 _ _ _ _ (nf_kids _ _ _ _ _ Hf) Hk) as Hat. cbn in Hat.
      pose proof (pages_pos k.2). pose proof (stack_fwd_nonneg _ _ _ Hst1).
      set (c1 := set_stack _ _).
      destruct (push_page_ok c1 k.2 false Hat) as (f' & -> & Hf'); [done|cbn; lia|].
      rewrite <- (assoc_L (++)). eapply advances_same; cycle 1.
      * eapply IH; [cbn; eapply fwd_push; [done|]; apply fwd_node; [|done]; rewrite (nf_done _ _ _ _ _ Hf);
          apply (node_frame_at f kids rt i false); [done|lia]|..]; cbn [set_stack set_visited tc_pages_visited tc_stack length];
          cbn; lia.
      * done.
    + pose proof (nf_le _ _ _ _ _ Hf). rewrite (nf_done _ _ _ _ _ Hf), (nf_right _ _ _ _ _ Hf).
      rewrite drop_ge in * by lia. cbn [map concat app length] in *.
      pose proof (pages_pos rt). pose proof (stack_fwd_nonneg _ _ _ Hst1).
      set (c1 := set_stack _ _).
      destruct (push_page_ok c1 rt false (nf_at _ _ _ _ _ Hf)) as (f' & -> & Hf'); [done|cbn; lia|].
      eapply advances_same; cycle 1.
      * eapply IH; [cbn; eapply fwd_push; [done|]; eapply fwd_done; [|done]; replace i with (length kids) in * by lia;
          apply (node_frame_at f kids rt (length kids) false); done|..];
          cbn [set_stack set_visited tc_pages_visited tc_stack length]; cbn; lia.
      * done.
  - rewrite (nf_interior _ _ _ _ _ Hf), (nf_next _ _ _ _ _ Hf), (nf_num _ _ _ _ _ Hf).
    rewrite decide_False by lia. rewrite (nf_done _ _ _ _ _ Hf).
    eapply (advances_same _ _ c (set_stack c st)); [done|]. eapply IH; try done. cbn. lia.
Qed.

Definition unsnoc (rs : list bytes) : option (bytes * list bytes) :=
  match rev rs with [] => None | x :: rs => Some (x, rev rs) end.

Lemma unsnoc_snoc rs x : unsnoc (rs ++ [x]) = Some (x, rs).
Proof. unfold unsnoc. rewrite rev_app_distr. cbn. by rewrite rev_involutive. Qed.

Lemma advance_rev_loop_ok fuel c rs n total :
  stack_rev (tc_stack c) rs n → 0 ≤ tc_pages_visited c → tc_pages_visited c + n ≤ total →
  total ≤ MAX_PAGES_VISITED → 2 * n + zlen (tc_stack c) < Z.of_nat fuel →
  advances stack_rev unsnoc c (advance_rev_loop src fuel c) rs total.
Proof.
  revert c rs n. induction fuel as [|fuel IH]; intros c rs n Hst Hv0 Hv Hmax Hfuel;
    [pose proof (stack_rev_nonneg _ _ _ Hst); lia|].
  assert (HM : MAX_PAGES_VISITED = 1000000) by done.
  cbn [advance_rev_loop]. inversion Hst as [Hs|f cells i st rs1 n1 Hf Hst1 Hs|f kids rt i st rs1 n1 Hf Hst1 Hs
    |f kids rt st rs1 n1 Hf Hst1 Hs]; subst; rewrite <- Hs in *; cbn [length] in Hfuel.
  - done.
  - rewrite (lf_interior _ _ _ Hf), (lf_next _ _ _ Hf). case_decide as Hi.
    + assert (i = 0%nat) as -> by lia. cbn [take]. rewrite app_nil_r.
      eapply (advances_same _ _ c (set_stack c st)); [done|]. eapply IH; try done. cbn. lia.
    + pose proof (lf_le _ _ _ Hf). destruct i as [|i]; [done|].
      destruct (lookup_lt_is_Some_2 cells i ltac:(lia)) as [r Hr].
      rewrite sat_sub_ge by lia. replace (Z.of_nat (S i) - 1) with (Z.of_nat i) by lia.
      set (c1 := set_stack _ _).
      destruct (decode_leaf_cell_ok c1 f cells (S i) i r Hf Hr) as (cur & -> & Hx).
      rewrite (take_S_r _ _ _ Hr), (assoc_L (++)). unfold advances. rewrite unsnoc_snoc.
      split_and!; [done|done|by apply Hx|].
      exists n. split_and!; [|done|done]. cbn. apply rev_leaf; [|done]. apply (leaf_frame_at f cells (S i)); [done|lia].
  - rewrite (nf_interior _ _ _ _ _ Hf), (nf_next _ _ _ _ _ Hf), (nf_done _ _ _ _ _ Hf). case_decide as Hi.
    + pose proof (nf_le _ _ _ _ _ Hf). destruct i as [|i]; [done|].
      destruct (lookup_lt_is_Some_2 kids i ltac:(lia)) as [k Hk].
      rewrite sat_sub_ge by lia. replace (Z.of_nat (S i) - 1) with (Z.of_nat i) by lia.
      rewrite (take_S_r _ _ _ Hk), map_app, concat_app, length_app in *. cbn [map concat] in *. rewrite app_nil_r in *.
      rewrite (read_interior_child_ok f kids rt (S i) true i k Hf Hk).
      pose proof (Forall_lookup_1 _ _ _ _ (nf_kids _ _ _ _ _ Hf) Hk) as Hat. cbn in Hat.
      pose proof (pages_pos k.2). pose proof (stack_rev_nonneg _ _ _ Hst1).
      set (c1 := set_stack _ _).
      destruct (push_page_ok c1 k.2 true Hat) as (f' & -> & Hf'); [done|cbn; lia|].
      rewrite (assoc_L (++)). eapply advances_same; cycle 1.
      * eapply IH; [cbn; eapply rev_push; [done|]; apply (rev_node _ kids rt i); [|done];
          apply (node_frame_at f kids rt (S i) true); [done|lia]|..];
          cbn [set_stack set_visited tc_pages_visited tc_stack length]; cbn; lia.
      * done.
    + assert (i = 0%nat) as -> by lia. cbn [take map concat length] in *. rewrite app_nil_r.
      eapply (advances_same _ _ c (set_stack c st)); [done|]. eapply IH; try done; cbn; lia.
  - rewrite (nf_interior _ _ _ _ _ Hf), (nf_next _ _ _ _ _ Hf), (nf_done _ _ _ _ _ Hf), (nf_right _ _ _ _ _ Hf).
    pose proof (pages_pos rt). pose proof (stack_rev_nonneg _ _ _ Hst1).
    set (c1 := set_stack _ _).
    destruct (push_page_ok c1 rt true (nf_at _ _ _ _ _ Hf)) as (f' & -> & Hf'); [done|cbn; lia|].
    rewrite (assoc_L (++)). eapply advances_same; cycle 1.
    + eapply IH; [cbn; eapply rev_push; [done|]; rewrite <- (firstn_all kids) at 2; apply (rev_node _ kids rt (length kids)); [|done];
        apply (node_frame_at f kids rt (length kids) false); done|..];
        cbn [set_stack set_visited tc_pages_visited tc_stack length]; rewrite ?firstn_all; cbn; lia.
    + done.
Qed.

(** ** Scans *)

Definition row_payload (r bs : bytes) : Prop :=
  ∃ n, decode_cell_head r 0 0 = Ok (cell_rowid r, zlen bs, n) ∧ 0 ≤ n ∧
       payload_at (source_read_page src) usable false r n bs.

Lemma current_payload_ok c r bs :
  current_is c r → tc_usable_size c = usable → row_payload r bs →
  ∃ p, current_payload src c = Ok p ∧ payload_bytes p = bs.
Proof.
  intros (buf & pn & off & pl & n & Hc & Hsz & Hg & _ & Hd) Hu (n' & Hd' & Hn & Hp).
  rewrite Hd in Hd'. injection Hd' as -> ->. unfold current_payload. rewrite Hc. cbn [ok_or].
  cbn [cc_page_num cc_page cc_tail_start cc_payload_len]. rewrite Hu.
  apply reassemble_ok; [|done|].
  - apply get_range_Some in Hg as (? & _). lia.
  - by apply (payload_at_in _ _ _ buf off r).
Qed.

(** The rows [step] returns until it is exhausted. *)
Fixpoint drain (step : TableCursor → result BtreeError (option TableRow) * TableCursor) (fuel : nat)
    (rc : result BtreeError (option TableRow) * TableCursor) : result BtreeError (list (Z * bytes)) :=
  match fuel with
  | O => Err (BInternal "drain: out of fuel")
  | S fuel =>
      let? o := rc.1 in
      match o with
      | None => Ok []
      | Some row =>
          let? rest := drain step fuel (step rc.2) in
          Ok ((tr_rowid row, payload_bytes (tr_payload row)) :: rest)
      end
  end.

Lemma drain_Some step fuel rowid p c :
  drain step (S fuel) (Ok (Some {| tr_rowid := rowid; tr_payload := p |}), c) =
    (let? rest := drain step fuel (step c) in Ok ((rowid, payload_bytes p) :: rest)).
Proof. done. Qed.

Definition row_pairs (rs : list bytes) (bss : list bytes) : list (Z * bytes) := zip (map cell_rowid rs) bss.

Lemma advance_fuel_enough c n :
  0 ≤ tc_pages_visited c → tc_pages_visited c + n ≤ MAX_PAGES_VISITED →
  2 * n + zlen (tc_stack c) < Z.of_nat (advance_fuel c).
Proof. intros. unfold advance_fuel. lia. Qed.

Lemma drain_fwd rs bss c0 res :
  advances stack_fwd uncons c0 res rs MAX_PAGES_VISITED → tc_usable_size c0 = usable →
  Forall2 row_payload rs bss →
  drain (next_row src) (S (length rs)) (with_payload src res) = Ok (row_pairs rs bss).
Proof.
  intros Hadv Hu Hp. revert c0 res Hadv Hu. induction Hp as [|r bs rs bss Hr Hp IH]; intros c0 [o c] (Hs & Hm) Hu.
  - cbn in Hm. destruct Hm as (-> & _). done.
  - cbn [uncons] in Hm. destruct Hm as (-> & Hcur & n & Hst & Hv0 & Hv).
    destruct Hs as (Hu' & _). destruct (current_payload_ok c r bs) as (p & Hpay & Hb); [done|congruence|done|].
    cbn [with_payload length]. rewrite Hpay, drain_Some, Hb.
    unfold next_row, cursor_next.
    rewrite (IH c (advance src c)); [done| |congruence].
    apply (advance_loop_ok (advance_fuel c) c rs n); try done. by apply advance_fuel_enough.
Qed.

Lemma drain_rev rs bss c0 res :
  advances stack_rev unsnoc c0 res rs MAX_PAGES_VISITED → tc_usable_size c0 = usable →
  tc_positioned_reverse c0 = true → Forall2 row_payload rs bss →
  drain (prev_row src) (S (length rs)) (with_payload src res) = Ok (rev (row_pairs rs bss)).
Proof.
  revert bss c0 res. induction rs as [|r rs IH] using rev_ind; intros bss c0 [o c] (Hs & Hm) Hu Hrev Hp.
  - apply Forall2_nil_inv_l in Hp as ->. cbn in Hm. destruct Hm as (-> & _). done.
  - rewrite unsnoc_snoc in Hm. destruct Hm as (-> & Hcur & n & Hst & Hv0 & Hv).
    apply Forall2_app_inv_l in Hp as (bss' & l & Hp & Hl & ->).
    apply Forall2_cons_inv_l in Hl as (bs & l' & Hr & Hl & ->). apply Forall2_nil_inv_l in Hl as ->.
    destruct Hs as (Hu' & _ & Hrev'). destruct (current_payload_ok c r bs) as (p & Hpay & Hb); [done|congruence|done|].
    rewrite length_app. cbn [length]. rewrite Nat.add_1_r.
    cbn [with_payload length]. rewrite Hpay, drain_Some, Hb.
    unfold prev_row, cursor_prev. rewrite Hrev', Hrev.
    pose proof (Forall2_length _ _ _ Hp) as Hlen.
    rewrite (IH bss' c (advance_rev src c)); [| |congruence..|done].
    + unfold row_pairs. rewrite map_app, zip_with_app by (by rewrite length_map). cbn.
      by rewrite rev_app_distr.
    + apply (advance_rev_loop_ok (advance_fuel c) c rs n); try done. by apply advance_fuel_enough.
Qed.

Lemma first_ok c t :
  at_ t → zlen (pages t) ≤ MAX_PAGES_VISITED → tc_root_page c = root_of t →
  advances stack_fwd uncons (reset c false) (cursor_first src c) (rows t) MAX_PAGES_VISITED.
Proof.
  intros Ht Hn Hroot. unfold cursor_first. rewrite Hroot. pose proof (pages_pos t).
  assert (HM : MAX_PAGES_VISITED = 1000000) by done.
  destruct (push_page_ok (reset c false) t false Ht) as (f & -> & Hf); [done|cbn; lia|].
  set (c1 := set_stack _ _).
  eapply (advances_same _ _ _ c1); [done|]. rewrite <- (app_nil_r (rows t)).
  apply (advance_loop_ok (advance_fuel c1) c1 _ (zlen (pages t) - 1 + 0)); [|cbn; lia..|done|].
  - cbn. apply fwd_push; [done|constructor].
  - apply advance_fuel_enough; cbn; lia.
Qed.

Lemma last_ok c t :
  at_ t → zlen (pages t) ≤ MAX_PAGES_VISITED → tc_root_page c = root_of t →
  advances stack_rev unsnoc (reset c true) (cursor_last src c) (rows t) MAX_PAGES_VISITED.
Proof.
  intros Ht Hn Hroot. unfold cursor_last. rewrite Hroot. pose proof (pages_pos t).
  assert (HM : MAX_PAGES_VISITED = 1000000) by done.
  destruct (push_page_ok (reset c true) t true Ht) as (f & -> & Hf); [done|cbn; lia|].
  set (c1 := set_stack _ _).
  eapply (advances_same _ _ _ c1); [done|]. change (rows t) with ([] ++ rows t).
  apply (advance_rev_loop_ok (advance_fuel c1) c1 _ (zlen (pages t) - 1 + 0)); [|cbn; lia..|done|].
  - apply (rev_push f t [] [] 0); [done|constructor].
  - apply advance_fuel_enough; cbn; lia.
Qed.
End cursor.

(** ** A three-page tree with an overflow page *)

Record mem_source : Type := { ms_page_size : Z; ms_pages : Z → option bytes }.

#[export] Program Instance mem_source_pages : PageSource mem_source := {
  source_page_size := ms_page_size;
  source_read_page s n :=
    match ms_pages s n with
    | Some b => if decide (n ≠ 0 ∧ zlen b = ms_page_size s) then Ok b else Err InvalidPageNumber
    | None => Err InvalidPageNumber
    end;
}.
Next Obligation. intros s n bs. cbn. destruct (ms_pages s n); [case_decide|]; naive_solver. Qed.
Next Obligation. intros s. cbn. destruct (ms_pages s 0); [case_decide|]; naive_solver. Qed.

Definition example_payload : bytes := repeat 7 600.
Definition example_cell1 : bytes := [1; 5; 9].
Definition example_cell2 : bytes := [2; 8; 3; 4].
Definition example_cell3 : bytes := encode_varint 600 ++ [20] ++ repeat 7 92 ++ be_bytes 4 5.

Definition example_src : mem_source := {| ms_page_size := 512; ms_pages n :=
  if decide (n = 2) then Some (write_interior_page 0 2 (interior_cells [(3, 8)]) 4 (zeros 512)).1
  else if decide (n = 3) then Some (write_leaf_page 0 3 [example_cell1; example_cell2] (zeros 512)).1
  else if decide (n = 4) then Some (write_leaf_page 0 4 [example_cell3] (zeros 512)).1
  else if decide (n = 5) then Some (be_bytes 4 0 ++ repeat 7 508)
  else None |}.

Definition example_tree : tree := Node 2 [(8, Leaf 3 [example_cell1; example_cell2])] (Leaf 4 [example_cell3]).

Definition example_cursor : TableCursor :=
  {| tc_usable_size := 512; tc_root_page := 2; tc_stack := []; tc_pages_visited := 0;
     tc_positioned_reverse := false; tc_current := None |}.

Lemma bytes_ok_b bs : forallb (λ z, (0 <=? z) && (z <? 256)) bs = true → bytes_ok bs.
Proof.
  intros Hb. apply Forall_forall. intros z Hz. rewrite forallb_forall in Hb. specialize (Hb z).
  rewrite <- list_elem_of_In in Hb. specialize (Hb Hz). unfold u8_ok. lia.
Qed.

Lemma table_cell_b c rowid pl t :
  forallb (λ z, (0 <=? z) && (z <? 256)) c = true → decode_cell_head c 0 0 = Ok (rowid, pl, t) →
  zlen c = cell_end 512 pl t false → table_cell 512 c.
Proof. intros Hb Hd Hl. split; [by apply bytes_ok_b|]. by exists rowid, pl, t. Qed.

Lemma example_cell1_ok : table_cell 512 example_cell1.
Proof. apply (table_cell_b _ 5 1 2); reflexivity. Qed.
Lemma example_cell2_ok : table_cell 512 example_cell2.
Proof. apply (table_cell_b _ 8 2 2); reflexivity. Qed.
Lemma example_cell3_ok : table_cell 512 example_cell3.
Proof. apply (table_cell_b _ 20 600 3); vm_compute; reflexivity. Qed.

Lemma example_read n b :
  n ≠ 0 → ms_pages example_src n = Some b → zlen b = 512 → source_read_page example_src n = Ok b.
Proof. intros Hn Hb Hl. cbn. cbn in Hb. rewrite Hb. by rewrite decide_True by (split; [done|exact Hl]). Qed.

Lemma example_leaf n cells :
  n ≠ 0 → ms_pages example_src n = Some (write_leaf_page (page1_header_start n) n cells (zeros 512)).1 →
  Forall (table_cell 512) cells → page1_header_start n + 8 + cells_need cells ≤ 512 →
  tree_at 512 (source_read_page example_src) (Leaf n cells).
Proof.
  intros Hn Hp Hw Hfit. pose proof (hs_bounds n).
  destruct (write_leaf_page_ok 512 (page1_header_start n) n cells (zeros 512)) as (b & Hb & Hl & Hlen & _);
    [lia|rewrite length_zeros; lia|apply bytes_ok_take, bytes_ok_zeros|done|rewrite length_zeros; lia|].
  exists b. split; [|done]. rewrite Hb in Hp. apply example_read; [done|done|]. rewrite Hlen, length_zeros; lia.
Qed.

Lemma example_at : tree_at 512 (source_read_page example_src) example_tree.
Proof.
  cbn [tree_at example_tree foldr snd]. split_and!; [| |exact I|].
  - destruct (write_interior_page_ok 0 2 4 [(3, 8)] (zeros 512)) as (b & Hb & Hp & Hl & Hok & _);
      [lia|rewrite length_zeros; lia| |split; vm_compute; congruence|apply bytes_ok_take, bytes_ok_zeros|vm_compute; congruence|].
    { constructor; [split; split; vm_compute; congruence|constructor]. }
    rewrite length_zeros in Hl by lia. exists b. split_and!; [|lia|done|done].
    apply example_read; [done| |done]. cbn [ms_pages example_src]. rewrite decide_True by done. by rewrite Hb.
  - apply (example_leaf 3); [done|reflexivity| |vm_compute; congruence].
    constructor; [apply example_cell1_ok|constructor; [apply example_cell2_ok|constructor]].
  - apply (example_leaf 4); [done|reflexivity| |vm_compute; congruence].
    constructor; [apply example_cell3_ok|constructor].
Qed.

Lemma example_payloads :
  Forall2 (row_payload example_src 512) (rows example_tree) [[9]; [3; 4]; example_payload].
Proof.
  cbn [rows example_tree map concat app snd].
  constructor; [|constructor; [|constructor; [|constructor]]].
  - exists 2. split_and!; [reflexivity|lia|]. split_and!;
      [vm_compute; congruence|reflexivity|intros Hl; vm_compute in Hl; discriminate Hl].
  - exists 2. split_and!; [reflexivity|lia|]. split_and!;
      [vm_compute; congruence|reflexivity|intros Hl; vm_compute in Hl; discriminate Hl].
  - exists 3. split_and!; [vm_compute; reflexivity|lia|]. split_and!; [vm_compute; congruence|vm_compute; reflexivity|].
    intros _. exists [5]. split_and!; [apply NoDup_singleton|vm_compute; congruence|vm_compute; reflexivity|].
    cbn [chain_at]. split_and!; [vm_compute; done|done|]. exists (be_bytes 4 0 ++ repeat 7 508).
    split_and!; [vm_compute; reflexivity|vm_compute; reflexivity|vm_compute; reflexivity|vm_compute; reflexivity].
Qed.

(** On the pages of a table b-tree, a scan with [first_row] and then
    [next_row] until exhaustion returns every row of the tree once, in order,
    with its rowid and its whole payload (overflow pages included); a scan
    with [last_row] and [prev_row] returns the same rows in reverse. *)
Theorem table_scan_complete {Src} `{PageSource Src} (src : Src) (c : TableCursor) (t : tree) (bss : list bytes) :
  tree_at (tc_usable_size c) (source_read_page src) t →
  zlen (pages t) ≤ MAX_PAGES_VISITED → tc_root_page c = root_of t →
  Forall2 (row_payload src (tc_usable_size c)) (rows t) bss →
  drain (next_row src) (S (length (rows t))) (first_row src c) = Ok (row_pairs (rows t) bss) ∧
  drain (prev_row src) (S (length (rows t))) (last_row src c) = Ok (rev (row_pairs (rows t) bss)).
Proof.
  intros Ht Hn Hroot Hp. split.
  - by apply (drain_fwd src (tc_usable_size c) (rows t) bss (reset c false)); [apply first_ok|..].
  - by apply (drain_rev src (tc_usable_size c) (rows t) bss (reset c true)); [apply last_ok|..].
Qed.

(** ** Termination on arbitrary pages *)

Definition internal {A} (r : result BtreeError A) : Prop := ∃ msg, r = Err (BInternal msg).

Section termination.
Context `{PageSource Src} (src : Src).
Implicit Types (c : TableCursor) (f : Frame).

Ltac not_internal :=
  intros [msg Heq]; revert Heq;
  unfold read_u32, read_cell_pointer, read_page_type, read_num_cells, require_interior_header, ok_or,
    decode_cell_head, map_err, bt_read;
  repeat (case_match; cbn; simplify_eq; try done).

Lemma page_frame_not_internal page pn rev : ¬ internal (page_frame page pn rev).
Proof. unfold page_frame. not_internal. Qed.

Lemma read_interior_child_not_internal f i : ¬ internal (read_interior_child f i).
Proof. unfold read_interior_child. not_internal. Qed.

Lemma decode_cell_head_not_internal page off pn : ¬ internal (decode_cell_head page off pn).
Proof.
  unfold decode_cell_head. destruct (get_from page off) as [cell|]; cbn [ok_or]; [|by intros [??]].
  destruct (decode_varint cell) as [[v n]|e]; cbn [map_err fst snd]; [|by intros [??]].
  destruct (get_from cell n) as [rest|]; cbn [ok_or]; [|by intros [??]].
  destruct (decode_varint rest) as [[w m]|e]; cbn; by intros [??].
Qed.

Lemma decode_leaf_cell_not_internal c f i : ¬ internal (decode_leaf_cell c f i).1.
Proof.
  unfold decode_leaf_cell, read_cell_pointer, ok_or. destruct (read_be _ _ _) as [v|]; [|by intros [??]].
  pose proof (decode_cell_head_not_internal (tf_page f) v (tf_page_num f)) as Hn.
  destruct (decode_cell_head _ _ _) as [[[??]?]|e]; [by intros [??]|]. intros [msg He]. apply Hn. exists msg.
  cbn in He. congruence.
Qed.

Lemma push_page_cases c pn rev :
  match push_page src c pn rev with
  | (Err e, _) => ¬ internal (Err (A := ()) e)
  | (Ok _, c') => tc_pages_visited c' = sat_add (tc_pages_visited c) 1 ∧ tc_pages_visited c' ≤ MAX_PAGES_VISITED ∧
      length (tc_stack c') = S (length (tc_stack c))
  end.
Proof.
  unfold push_page, cursor_read_page. set (c1 := set_visited _ _). case_decide as Hv; [by intros [??]|].
  unfold bt_read. destruct (source_read_page src pn) as [page|e]; cbn [map_err]; [|by intros [??]].
  pose proof (page_frame_not_internal page pn rev) as Hn.
  destruct (page_frame page pn rev) as [f|e]; [|intros [msg He]; apply Hn; exists msg; congruence].
  cbn in *. split_and!; [done|lia|done].
Qed.

(** Twice the page reads left, plus the frames to pop. *)
Definition budget c : Z := 2 * Z.max (MAX_PAGES_VISITED - tc_pages_visited c) 0 + zlen (tc_stack c).

Lemma push_page_budget c pn rev c' :
  0 ≤ tc_pages_visited c → push_page src c pn rev = (Ok (), c') → 
  0 ≤ tc_pages_visited c' ∧ budget c' < budget c.
Proof.
  intros Hc Hp. pose proof (push_page_cases c pn rev) as Hx. rewrite Hp in Hx. destruct Hx as (Hv & Hm & Hl).
  assert (HM : MAX_PAGES_VISITED = 1000000) by done. assert (HU : 4000000 ≤ USIZE_MAX) by done.
  unfold budget. rewrite Hl. unfold sat_add in Hv. generalize dependent USIZE_MAX. intros M HU Hv. lia.
Qed.

Lemma push_page_err c pn rev e c' : push_page src c pn rev = (Err e, c') → ∀ {A}, ¬ internal (Err (A := A) e).
Proof.
  intros Hp A [msg He]. pose proof (push_page_cases c pn rev) as Hx. rewrite Hp in Hx. apply Hx. exists msg. congruence.
Qed.

Lemma advance_loop_total fuel c :
  0 ≤ tc_pages_visited c → budget c < Z.of_nat fuel →
  ¬ internal (advance_loop src fuel c).1 ∧ ¬ internal (advance_rev_loop src fuel c).1.
Proof.
  revert c. induction fuel as [|fuel IH]; intros c Hc Hb; [unfold budget in Hb; lia|].
  cbn [advance_loop advance_rev_loop]. destruct (tc_stack c) as [|f rest] eqn:Hst; [split; by intros [??]|].
  assert (Hpop : budget (set_stack c rest) < Z.of_nat fuel).
  { unfold budget in *. rewrite Hst in Hb. cbn in *. lia. }
  assert (Hpush : ∀ f' pn rev,
    match push_page src (set_stack c (f' :: rest)) pn rev with
    | (Err e, _) => ∀ A, ¬ internal (Err (A := A) e)
    | (Ok _, c') => ¬ internal (advance_loop src fuel c').1 ∧ ¬ internal (advance_rev_loop src fuel c').1
    end).
  { intros f' pn rev. destruct (push_page _ _ _ _) as [[[]|e] c'] eqn:Hp; [|by eapply push_page_err].
    apply push_page_budget in Hp as [? Hp]; [|done]. apply IH; [done|]. 
    unfold budget in *. rewrite Hst in Hb. cbn in *. lia. }
  assert (Hchild : ∀ f' i rev, match read_interior_child f i with
    | Err e => ∀ A, ¬ internal (Err (A := A) e)
    | Ok child => match push_page src (set_stack c (f' :: rest)) child rev with
      | (Err e, _) => ∀ A, ¬ internal (Err (A := A) e)
      | (Ok _, c') => ¬ internal (advance_loop src fuel c').1 ∧ ¬ internal (advance_rev_loop src fuel c').1
      end
    end).
  { intros f' i rev. pose proof (read_interior_child_not_internal f i) as Hn.
    destruct (read_interior_child f i) as [child|e]; [apply Hpush|]. intros A [msg He]. apply Hn. exists msg. congruence. }
  destruct (IH (set_stack c rest)) as [Hp1 Hp2]; [done|done|].
  split; destruct (tf_is_interior f).
  - case_decide; [|destruct (tf_rightmost_done f); [done|]].
    + specialize (Hchild (frame_at f (sat_add (tf_next_cell f) 1) (tf_rightmost_done f)) (tf_next_cell f) false).
      destruct (read_interior_child _ _) as [child|e]; [|apply Hchild].
      destruct (push_page _ _ _ _) as [[[]|e] c']; apply Hchild.
    + specialize (Hpush (frame_at f (tf_next_cell f) true) (tf_rightmost f) false).
      destruct (push_page _ _ _ _) as [[[]|e] c']; apply Hpush.
  - case_decide; [done|]. apply decode_leaf_cell_not_internal.
  - destruct (tf_rightmost_done f); [case_decide; [|done]|].
    + specialize (Hchild (frame_at f (sat_sub (tf_next_cell f) 1) true) (sat_sub (tf_next_cell f) 1) true).
      destruct (read_interior_child _ _) as [child|e]; [|apply Hchild].
      destruct (push_page _ _ _ _) as [[[]|e] c']; apply Hchild.
    + specialize (Hpush (frame_at f (tf_next_cell f) true) (tf_rightmost f) true).
      destruct (push_page _ _ _ _) as [[[]|e] c']; apply Hpush.
  - case_decide; [done|]. apply decode_leaf_cell_not_internal.
Qed.
End termination.

(** C27: [first], [next], [last] and [prev] terminate on every file, however
    corrupt or cyclic its pages: whatever the source returns, the traversal
    loops finish within their page budget (the out-of-fuel error of the model
    is never the result). *)
Theorem cursor_moves_terminate {Src} `{PageSource Src} (src : Src) (c : TableCursor) :
  0 ≤ tc_pages_visited c →
  ¬ internal (cursor_first src c).1 ∧ ¬ internal (cursor_next src c).1 ∧
  ¬ internal (cursor_last src c).1 ∧ ¬ internal (cursor_prev src c).1.
Proof.
  intros Hc.
  assert (Hadv : ∀ c, 0 ≤ tc_pages_visited c → ¬ internal (advance src c).1 ∧ ¬ internal (advance_rev src c).1).
  { intros c' Hc'. apply advance_loop_total; [done|]. unfold budget, advance_fuel. lia. }
  split_and!.
  - unfold cursor_first. destruct (push_page _ _ _ _) as [[[]|e] c'] eqn:Hp; [|by eapply push_page_err].
    apply Hadv. by apply push_page_budget in Hp as [? _].
  - by apply Hadv.
  - unfold cursor_last. destruct (push_page _ _ _ _) as [[[]|e] c'] eqn:Hp; [|by eapply push_page_err].
    apply Hadv. by apply push_page_budget in Hp as [? _].
  - unfold cursor_prev. destruct (tc_positioned_reverse c); [by apply Hadv|]. by intros [??].
Qed.

Lemma cursor_moves_terminate_witness :
  ¬ internal (cursor_first example_src example_cursor).1 ∧ ¬ internal (cursor_next example_src example_cursor).1.
Proof.
  destruct (cursor_moves_terminate example_src example_cursor) as (H1 & H2 & _); [cbn; lia|]. split; assumption.
Defined.

(** ** Point lookup *)

Lemma ss_lookup (l : list Z) i j x y :
  StronglySorted Z.lt l → l !! i = Some x → l !! j = Some y → (i < j)%nat → x < y.
Proof.
  intros Hs. revert i j. induction Hs as [|a l Hs IH Ha]; intros i j Hx Hy Hij; [done|].
  destruct j as [|j]; [lia|]. cbn in Hy. destruct i as [|i]; cbn in Hx.
  - injection Hx as <-. by apply (Forall_lookup_1 _ _ _ _ Ha Hy).
  - apply (IH i j); [done..|lia].
Qed.

Section seek.
Context `{PageSource Src} (src : Src) (usable : Z).

Abbreviation at_ := (tree_at usable (source_read_page src)).

Lemma leaf_cell_at buf hs cells pn j r :
  table_leaf usable hs cells buf → 0 ≤ hs ≤ 100 → cells !! j = Some r →
  ∃ off pl n, read_cell_pointer buf (cell_ptr_offset (sat_add hs 8) (Z.of_nat j)) pn (Z.of_nat j) = Ok off ∧
    decode_cell_head buf off pn = Ok (cell_rowid r, pl, off + n) ∧
    (∀ c cpn, tc_current c = Some {| cc_page := buf; cc_page_num := cpn; cc_tail_start := off + n; cc_payload_len := pl |} →
       current_is usable c r).
Proof.
  intros (_ & Hw & offs & cs & bl & Hlay) Hhs Hj.
  pose proof (ll_cells _ _ _ _ _ _ Hlay) as Hc. pose proof (leaf_count _ _ _ _ _ _ Hlay) as [Hn _].
  pose proof (ll_size _ _ _ _ _ _ Hlay) as Hsz. destruct (hc_lookup _ _ _ _ _ _ _ Hc Hj) as [off Ho].
  pose proof (hc_cell _ _ _ _ _ Hc j off r Ho Hj) as Hg.
  pose proof (Forall_lookup_1 _ _ _ _ Hw Hj) as Hcell.
  destruct (table_cell_read usable buf off r pn Hcell Hsz Hg) as (pl & n & Hd & _ & _ & _ & Hd0).
  exists off, pl, (n - off). split_and!.
  - by rewrite (hc_pointer _ _ _ _ _ _ _ pn Hc) by (done || lia).
  - rewrite Hd. do 2 f_equal. lia.
  - intros c cpn Hcur. exists buf, cpn, off, pl, (n - off). by split_and!.
Qed.

(** Every row of index below [lo] is smaller than the target, every row
    from [hi] on is greater. *)
Lemma seek_leaf_ok fuel buf hs cells pn target (lo hi : nat) :
  table_leaf usable hs cells buf → 0 ≤ hs ≤ 100 → StronglySorted Z.lt (map cell_rowid cells) →
  (∀ j r, cells !! j = Some r → (j < lo)%nat → cell_rowid r < target) →
  (∀ j r, cells !! j = Some r → (hi ≤ j)%nat → target < cell_rowid r) →
  (lo ≤ hi ≤ length cells)%nat → (hi - lo < fuel)%nat →
  ∃ o, seek_leaf fuel buf pn (sat_add hs 8) target (Z.of_nat lo) (Z.of_nat hi) = Ok o ∧
    match o with
    | None => target ∉ map cell_rowid cells
    | Some (tail, pl) => ∃ r, r ∈ cells ∧ cell_rowid r = target ∧
        ∀ c cpn, tc_current c = Some {| cc_page := buf; cc_page_num := cpn; cc_tail_start := tail; cc_payload_len := pl |} →
          current_is usable c r
    end.
Proof.
  intros Hleaf Hhs Hs. pose proof Hleaf as (_ & _ & ? & ? & ? & Hlay). pose proof (leaf_count _ _ _ _ _ _ Hlay) as [Hn _].
  revert lo hi. induction fuel as [|fuel IH]; intros lo hi Hlo Hhi Hb Hf; [lia|]. cbn [seek_leaf]. case_decide as Hlt.
  - set (mid := (lo + (hi - lo) / 2)%nat).
    destruct (midpoint lo hi) as [Hm Hmid]; [lia..|]. fold mid in Hm, Hmid.
    rewrite Hm. destruct (lookup_lt_is_Some_2 cells mid ltac:(lia)) as [r Hr].
    destruct (leaf_cell_at buf hs cells pn mid r Hleaf Hhs Hr) as (off & pl & n & -> & -> & Hcur).
    assert (Hord : ∀ j r', cells !! j = Some r' → ((j < mid)%nat → cell_rowid r' < cell_rowid r) ∧
        ((mid < j)%nat → cell_rowid r < cell_rowid r')).
    { intros j r' Hj. split; intros Hjm; eapply (ss_lookup _ _ _ _ _ Hs); try exact Hjm;
        by rewrite list_lookup_fmap, ?Hj, ?Hr. }
    destruct (Z.compare_spec (cell_rowid r) target) as [He|Hl|Hg].
    + eexists. split; [done|]. exists r. split_and!; [by eapply list_elem_of_lookup_2|done|done].
    + rewrite (sat_add_page (Z.of_nat mid)) by lia. replace (Z.of_nat mid + 1) with (Z.of_nat (S mid)) by lia. apply IH; try lia; [|done].
      intros j r' Hj Hjm. destruct (decide (j = mid)) as [->|]; [congruence|].
      destruct (Hord j r' Hj) as [Ho _]. pose proof (Ho ltac:(lia)). lia.
    + apply IH; try lia; [done|].
      intros j r' Hj Hjm. destruct (decide (j = mid)) as [->|]; [congruence|].
      destruct (Hord j r' Hj) as [_ Ho]. pose proof (Ho ltac:(lia)). lia.
  - eexists. split; [done|]. cbn. intros (r & -> & [j Hj]%list_elem_of_lookup)%list_elem_of_fmap.
    destruct (decide (j < lo)%nat) as [Hjl|Hjl]; [specialize (Hlo j r Hj Hjl)|specialize (Hhi j r Hj ltac:(lia))]; lia.
Qed.

(** The subtree a lookup of [target] descends into. *)
Fixpoint route (target : Z) (kids : list (Z * tree)) (rt : tree) : tree :=
  match kids with
  | [] => rt
  | k :: kids => if decide (target ≤ k.1) then k.2 else route target kids rt
  end.

Lemma route_at target kids rt (i : nat) :
  (∀ j k, kids !! j = Some k → (j < i)%nat → k.1 < target) →
  (∀ k, kids !! i = Some k → target ≤ k.1) →
  route target kids rt = match kids !! i with Some k => k.2 | None => rt end.
Proof.
  revert i. induction kids as [|k kids IH]; intros i Hlo Hhi; [done|]. cbn [route]. destruct i as [|i].
  - rewrite decide_True by (by apply Hhi). done.
  - rewrite decide_False. 2:{ pose proof (Hlo 0%nat k eq_refl ltac:(lia)). lia. }
    apply IH; [|done]. intros j k' Hj Hji. apply (Hlo (S j)); [done|lia].
Qed.

Lemma ordered_kids_ge lo hi kids rt j k : ordered_kids lo hi kids rt → kids !! j = Some k → lo ≤ k.1.
Proof.
  revert lo j. induction kids as [|k' kids IH]; intros lo j; [done|]. cbn [ordered_kids]. intros (? & _ & Hk).
  destruct j as [|j]; cbn; [intros [= ->]; lia|]. intros Hj. pose proof (IH k'.1 j Hk Hj). lia.
Qed.

Lemma ordered_kids_lookup lo hi kids rt i j k1 k2 :
  ordered_kids lo hi kids rt → kids !! i = Some k1 → kids !! j = Some k2 → (i ≤ j)%nat → k1.1 ≤ k2.1.
Proof.
  revert lo i j. induction kids as [|k kids IH]; intros lo i j; [done|]. cbn [ordered_kids]. intros (? & _ & Hk) Hi Hj Hij.
  destruct i as [|i], j as [|j]; cbn in Hi, Hj; simplify_eq; [lia| |lia|].
  - by eapply ordered_kids_ge.
  - eapply (IH k.1 i j); [done..|lia].
Qed.

Lemma node_key_at buf hs kids rt pn j k :
  interior_page buf hs (entries kids) (root_of rt) → zlen buf ≤ 65536 → 0 ≤ hs ≤ 100 → kids !! j = Some k →
  ∃ off rest key n, read_cell_pointer buf (cell_ptr_offset (sat_add hs 12) (Z.of_nat j)) pn (Z.of_nat j) = Ok off ∧
    get_from buf (sat_add off 4) = Some rest ∧ decode_varint rest = Ok (key, n) ∧ as_i64 key = k.1 ∧
    read_u32 buf off pn = Ok (root_of k.2).
Proof.
  intros (_ & _ & Hn & cells & offs & Hc & Hw) Hsz Hhs Hk. pose proof (Forall2_length _ _ _ Hw) as Hlen.
  assert (He : entries kids !! j = Some (root_of k.2, k.1)) by (unfold entries; by rewrite list_lookup_fmap, Hk).
  destruct (Forall2_lookup_r _ _ _ _ _ Hw He) as (cl & Hcl & Hcell).
  destruct (hc_lookup _ _ _ _ _ _ _ Hc Hcl) as [off Ho].
  destruct (interior_cell_read buf off cl (root_of k.2, k.1) pn Hcell Hsz) as (Hr & rest & key & n & Hg & Hd & Hkey);
    [by apply (hc_cell _ _ _ _ _ Hc j)|].
  exists off, rest, key, n. split_and!; try done.
  by rewrite (hc_pointer _ _ _ _ _ _ _ pn Hc) by (done || lia).
Qed.

Lemma seek_child_ok fuel buf hs kids rt pn target (lo hi : nat) next klo khi :
  interior_page buf hs (entries kids) (root_of rt) → zlen buf ≤ 65536 → 0 ≤ hs ≤ 100 →
  ordered_kids klo khi kids rt →
  (∀ j k, kids !! j = Some k → (j < lo)%nat → k.1 < target) →
  (∀ j k, kids !! j = Some k → (hi ≤ j)%nat → target ≤ k.1) →
  next = root_of (match kids !! hi with Some k => k.2 | None => rt end) →
  (lo ≤ hi ≤ length kids)%nat → (hi - lo < fuel)%nat →
  seek_child fuel buf pn (sat_add hs 12) target (Z.of_nat lo) (Z.of_nat hi) next = Ok (root_of (route target kids rt)).
Proof.
  intros Hpage Hsz Hhs Hord. pose proof Hpage as (_ & _ & Hn & _). rewrite length_entries in Hn.
  revert lo hi next. induction fuel as [|fuel IH]; intros lo hi next Hlo Hhi Hnext Hb Hf; [lia|]. cbn [seek_child].
  case_decide as Hlt.
  - set (mid := (lo + (hi - lo) / 2)%nat). destruct (midpoint lo hi) as [Hm Hmid]; [lia..|]. fold mid in Hm, Hmid.
    rewrite Hm. destruct (lookup_lt_is_Some_2 kids mid ltac:(lia)) as [k Hk].
    destruct (node_key_at buf hs kids rt pn mid k Hpage Hsz Hhs Hk) as (off & rest & key & n & -> & Hg & Hd & Hkey & Hchild).
    rewrite Hg. cbn [ok_or]. rewrite Hd. cbn [map_err fst]. rewrite Hkey. case_decide as Ht.
    + rewrite Hchild. apply IH; try lia; [done| |by rewrite Hk].
      intros j k' Hj Hjm. pose proof (ordered_kids_lookup _ _ _ _ mid j k k' Hord Hk Hj Hjm). lia.
    + rewrite (sat_add_page (Z.of_nat mid)) by lia. replace (Z.of_nat mid + 1) with (Z.of_nat (S mid)) by lia.
      apply IH; try lia; [|done].
      intros j k' Hj Hjm. pose proof (ordered_kids_lookup _ _ _ _ j mid k' k Hord Hj Hk ltac:(lia)). lia.
  - rewrite (route_at target kids rt hi), Hnext; [done| |].
    + intros j k Hj Hjh. apply (Hlo j k Hj). lia.
    + intros k Hk. by apply (Hhi hi).
Qed.

Lemma ordered_bounds lo hi t r : ordered lo hi t → r ∈ rows t → lo < cell_rowid r ≤ hi.
Proof.
  revert lo hi. induction t as [pn cells|pn kids rt Hk IHr] using tree_rect'; intros lo hi.
  - cbn. intros [_ Hf] Hr. by eapply Forall_forall in Hf.
  - rewrite ordered_node. cbn [rows].
    assert (Hle : ∀ kids lo, ordered_kids lo hi kids rt → lo ≤ hi).
    { clear. intros kids. induction kids as [|k kids IH]; intros lo; [by intros [? _]|].
      cbn. intros (? & _ & ?%IH). lia. }
    revert lo. induction Hk as [|k kids Hk _ IH]; intros lo Ho Hr; cbn in *.
    + apply (IHr lo hi); [apply Ho|done].
    + destruct Ho as (? & Hok & Ho). rewrite <- (assoc_L (++)) in Hr. apply elem_of_app in Hr as [Hr|Hr].
      * pose proof (Hk _ _ Hok Hr). pose proof (Hle _ _ Ho). lia.
      * pose proof (IH _ Ho Hr). lia.
Qed.

(** Routing keeps the answer. *)
Lemma route_rows lo hi target kids rt pn :
  ordered lo hi (Node pn kids rt) →
  (∃ lo' hi', ordered lo' hi' (route target kids rt)) ∧
  (target ∈ map cell_rowid (rows (Node pn kids rt)) ↔ target ∈ map cell_rowid (rows (route target kids rt))).
Proof.
  rewrite ordered_node. revert lo. induction kids as [|k kids IH]; intros lo Ho; cbn in *.
  - destruct Ho. split; [eauto|done].
  - destruct Ho as (? & Hk & Ho). case_decide as Ht.
    + split; [eauto|]. rewrite <- (assoc_L (++)), map_app, elem_of_app. split; [|by left].
      intros [|(r & -> & Hr)%list_elem_of_fmap]; [done|].
      pose proof (ordered_bounds k.1 hi (Node pn kids rt) r) as Hb. rewrite ordered_node in Hb. specialize (Hb Ho Hr). lia.
    + destruct (IH _ Ho) as [He Hiff]. split; [done|]. rewrite <- (assoc_L (++)), map_app, elem_of_app, Hiff. split; [|by right].
      intros [(r & -> & Hr)%list_elem_of_fmap|]; [|done]. pose proof (ordered_bounds _ _ _ _ Hk Hr). lia.
Qed.

Lemma route_at_pages v rd target kids rt pn :
  tree_at v rd (Node pn kids rt) → tree_at v rd (route target kids rt) ∧ zlen (pages (route target kids rt)) < zlen (pages (Node pn kids rt)).
Proof.
  cbn [tree_at pages length]. intros (_ & Hk & Hr). apply tree_at_kids in Hk. rewrite length_app.
  induction Hk as [|k kids Hk _ IH]; cbn [route map concat length].
  - split; [done|lia].
  - rewrite length_app. case_decide; split; try done; try apply IH; lia.
Qed.

(** [seek] from [t] on: the answer, and the current cell it leaves. *)
Definition sought (target : Z) (t : tree) (c : TableCursor) (rc : result BtreeError (option Z) * TableCursor) : Prop :=
  rc.2 = set_current c (tc_current rc.2) ∧
  if decide (target ∈ map cell_rowid (rows t))
  then rc.1 = Ok (Some target) ∧ ∃ r, r ∈ rows t ∧ cell_rowid r = target ∧ current_is usable rc.2 r
  else rc.1 = Ok None ∧ tc_current rc.2 = None.

Lemma set_current_id c : set_current c (tc_current c) = c.
Proof. by destruct c. Qed.

Lemma seek_loop_ok fuel t c target lo hi :
  at_ t → ordered lo hi t → zlen (pages t) ≤ Z.of_nat fuel → tc_current c = None →
  sought target t c (seek_loop src fuel c target (root_of t)).
Proof.
  revert t lo hi. induction fuel as [|fuel IH]; intros t lo hi Ht Ho Hf Hc.
  { pose proof (pages_pos t). lia. }
  pose proof (hs_bounds (root_of t)) as Hhs. cbn [seek_loop]. unfold bt_read.
  destruct t as [pn cells|pn kids rt]; cbn [root_of] in *.
  - destruct Ht as (buf & -> & Hleaf). pose proof Hleaf as (Hty & _ & offs & cs & bl & Hlay). cbn [map_err].
    unfold read_page_type. rewrite Hty. cbn [ok_or].
    rewrite read_num_cells_eq by lia. rewrite (hc_num _ _ _ _ _ (ll_cells _ _ _ _ _ _ Hlay)). cbn [ok_or].
    rewrite decide_True by done. destruct Ho as [Hs _].
    destruct (seek_leaf_ok (S (Z.to_nat (zlen cells))) buf (page1_header_start pn) cells pn target 0 (length cells))
      as (o & Hseek & Hres); try done; try lia.
    { intros j r Hj%lookup_lt_Some Hl. lia. }
    change (Z.of_nat 0) with 0 in Hseek. rewrite Hseek. unfold sought. cbn [rows].
    destruct o as [[tail pl]|]; cbn [fst snd].
    + destruct Hres as (r & Hr & <- & Hcur). split; [done|].
      rewrite decide_True by (by apply list_elem_of_fmap_2). split; [done|]. exists r. split_and!; [done|done|by eapply Hcur].
    + split; [by rewrite set_current_id|]. by rewrite decide_False.
  - destruct (route_at_pages _ _ target kids rt pn Ht) as [Hat Hpg].
    destruct (route_rows lo hi target kids rt pn Ho) as [(lo' & hi' & Ho') Hiff].
    destruct Ht as ((buf & -> & Hsz & Hok & Hpage) & _). cbn [map_err].
    pose proof Hpage as (Hty & Hright & _ & cells & offs & Hcl & Hw).
    pose proof (Forall2_length _ _ _ Hw) as Hlen. rewrite length_entries in Hlen.
    unfold read_page_type. rewrite Hty. cbn [ok_or].
    rewrite read_num_cells_eq by lia. rewrite (hc_num _ _ _ _ _ Hcl). cbn [ok_or].
    rewrite decide_False, decide_True by done.
    assert (Hl : page1_header_start pn + 12 ≤ zlen buf).
    { assert (HU : 400000 ≤ USIZE_MAX) by done.
      apply read_be_Some in Hright as (_ & Hle & _); [|lia]. lia. }
    unfold require_interior_header. rewrite (sat_add_page _ 12), decide_False by lia.
    unfold read_u32 at 1. rewrite (sat_add_page _ 8), Hright by lia. cbn [ok_or].
    rewrite Hlen, <- (sat_add_page _ 12) by lia. apply ordered_node in Ho.
    assert (Hsk : seek_child (S (Z.to_nat (zlen kids))) buf pn (sat_add (page1_header_start pn) 12) target 0
        (zlen kids) (root_of rt) = Ok (root_of (route target kids rt))).
    { apply (seek_child_ok _ buf _ kids rt pn target 0 (length kids) (root_of rt) lo hi); try done; try lia.
      - intros j k Hj%lookup_lt_Some Hjl. lia.
      - by rewrite lookup_ge_None_2 by lia. }
    rewrite Hsk.
    specialize (IH (route target kids rt) lo' hi' Hat Ho' ltac:(lia) Hc). unfold sought in *.
    destruct IH as [Hcur IH]. split; [done|]. destruct (decide (target ∈ map cell_rowid (rows (route target kids rt)))) as [Hin|Hin].
    + rewrite decide_True by (by apply Hiff). destruct IH as (Hr & r & Hmem & Hrow & Hcr). split; [done|].
        assert (Hsub : ∀ ks, r ∈ rows (route target ks rt) → r ∈ rows (Node pn ks rt)).
        { clear. intros ks. induction ks as [|k ks IHk]; cbn; [done|]. rewrite <- (assoc_L (++)), elem_of_app.
          case_decide; [by left|]. right. by apply IHk. }
        exists r. split_and!; [by apply Hsub|done|done].
    + rewrite decide_False; [done|]. by rewrite Hiff.
Qed.

Lemma ss_app (l k : list Z) :
  StronglySorted Z.lt l → StronglySorted Z.lt k → (∀ x y, x ∈ l → y ∈ k → x < y) → StronglySorted Z.lt (l ++ k).
Proof.
  intros Hl Hk Hx. induction Hl as [|a l Hl IH Ha]; [done|]. cbn. constructor.
  - apply IH. intros x y ? ?. apply Hx; [by right|done].
  - apply Forall_app. split; [done|]. apply Forall_forall. intros y Hy. apply Hx; [by left|done].
Qed.

Lemma rows_sorted lo hi t : ordered lo hi t → StronglySorted Z.lt (map cell_rowid (rows t)).
Proof.
  revert lo hi. induction t as [pn cells|pn kids rt Hk IHr] using tree_rect'; intros lo hi; [by intros [? _]|].
  rewrite ordered_node. cbn [rows]. revert lo. induction Hk as [|k kids Hk _ IH]; intros lo Ho; cbn in *.
  - by eapply IHr; apply Ho.
  - destruct Ho as (? & Hok & Ho). rewrite <- (assoc_L (++)), map_app. apply ss_app; [by eapply Hk|by eapply IH|].
    intros x y (r & -> & Hr)%list_elem_of_fmap (r' & -> & Hr')%list_elem_of_fmap.
    pose proof (ordered_bounds _ _ _ _ Hok Hr).
    pose proof (ordered_bounds k.1 hi (Node pn kids rt) r') as Hb. rewrite ordered_node in Hb. specialize (Hb Ho Hr'). lia.
Qed.

Lemma rowid_inj lo hi t i j r r' :
  ordered lo hi t → rows t !! i = Some r → rows t !! j = Some r' → cell_rowid r = cell_rowid r' → i = j.
Proof.
  intros Ho%rows_sorted Hi Hj He.
  assert (Hi' : map cell_rowid (rows t) !! i = Some (cell_rowid r)) by (by rewrite list_lookup_fmap, Hi).
  assert (Hj' : map cell_rowid (rows t) !! j = Some (cell_rowid r')) by (by rewrite list_lookup_fmap, Hj).
  destruct (Nat.lt_trichotomy i j) as [Hl|[->|Hl]]; [|done|].
  - pose proof (ss_lookup _ _ _ _ _ Ho Hi' Hj' Hl). lia.
  - pose proof (ss_lookup _ _ _ _ _ Ho Hj' Hi' Hl). lia.
Qed.
End seek.

Lemma seek_row_ok {Src} `{PageSource Src} (src : Src) (c : TableCursor) (t : tree) (bss : list bytes)
    (lo hi target : Z) :
  tree_at (tc_usable_size c) (source_read_page src) t → ordered lo hi t →
  zlen (pages t) ≤ MAX_PAGES_VISITED → tc_root_page c = root_of t →
  Forall2 (row_payload src (tc_usable_size c)) (rows t) bss →
  (target ∉ (row_pairs (rows t) bss).*1 → (seek_row src c target).1 = Ok None) ∧
  (∀ bs, (target, bs) ∈ row_pairs (rows t) bss →
     ∃ p, (seek_row src c target).1 = Ok (Some {| tr_rowid := target; tr_payload := p |}) ∧ payload_bytes p = bs).
Proof.
  intros Ht Ho Hn Hroot Hp.
  assert (Hs : sought (tc_usable_size c) target t (set_current c None) (seek src c target)).
  { unfold seek. rewrite Hroot. apply (seek_loop_ok src _ _ t _ target lo hi); [done..|lia|done]. }
  pose proof (Forall2_length _ _ _ Hp) as Hlen. unfold seek_row, row_pairs.
  destruct (seek src c target) as [r c'], Hs as [Hc' Hs]. cbn [fst snd] in *. split.
  - rewrite fst_zip by (rewrite length_map; lia). intros Hnin. rewrite decide_False in Hs by done.
    destruct Hs as [-> _]. done.
  - intros bs (i & Hi)%list_elem_of_lookup. apply lookup_zip_with_Some in Hi as (k & bs' & [= <- <-] & Hk & Hbs).
    rewrite list_lookup_fmap in Hk. apply fmap_Some in Hk as (x & Hx & Hxt).
    rewrite decide_True in Hs.
    2:{ rewrite Hxt. apply list_elem_of_fmap_2. by eapply list_elem_of_lookup_2. }
    destruct Hs as (-> & y & (j & Hj)%list_elem_of_lookup & Hy & Hcur).
    assert (i = j) as <- by (eapply rowid_inj; [done..|congruence]). simplify_eq.
    pose proof (Forall2_lookup_lr _ _ _ _ _ _ Hp Hj Hbs) as Hpay.
    destruct (current_payload_ok src (tc_usable_size c) c' y bs Hcur) as (p & Hpl & Hb); [by rewrite Hc'|done|].
    cbn. rewrite Hpl. eauto.
Qed.

(** On the pages of a table b-tree whose separator keys order its rows,
    [seek_row] finds a row exactly when the tree has one with that rowid, and
    returns that row's whole payload: the binary searches of the interior and
    leaf pages decide membership in the tree's sequence of rows. *)
Theorem seek_row_correct {Src} `{PageSource Src} (src : Src) (c : TableCursor) (t : tree) (bss : list bytes)
    (lo hi target : Z) :
  tree_at (tc_usable_size c) (source_read_page src) t → ordered lo hi t →
  zlen (pages t) ≤ MAX_PAGES_VISITED → tc_root_page c = root_of t →
  Forall2 (row_payload src (tc_usable_size c)) (rows t) bss →
  (target ∉ (row_pairs (rows t) bss).*1 → (seek_row src c target).1 = Ok None) ∧
  (∀ bs, (target, bs) ∈ row_pairs (rows t) bss →
     ∃ p, (seek_row src c target).1 = Ok (Some {| tr_rowid := target; tr_payload := p |}) ∧ payload_bytes p = bs).
Proof. by apply seek_row_ok. Qed.

(** ** Counting rows *)

Section count.
Context `{PageSource Src} (src : Src) (usable : Z).

Definition counts (fuel : nat) (t : tree) (visited total : Z) : Prop :=
  count_table_rows_inner src fuel (root_of t) visited total =
    Ok (visited + zlen (pages t), total + zlen (rows t)).

Definition countable (visited total : Z) (t : tree) : Prop :=
  0 ≤ visited ∧ visited + zlen (pages t) ≤ MAX_PAGES_VISITED ∧ 0 ≤ total ≤ 32768 * visited.

Lemma rows_le_pages t : tree_at usable (source_read_page src) t → zlen (rows t) ≤ 32768 * zlen (pages t).
Proof.
  induction t as [pn cells|pn kids rt Hk IHr] using tree_rect'; cbn [tree_at rows pages length].
  - intros (buf & _ & _ & _ & ? & ? & ? & Hlay). pose proof (leaf_count _ _ _ _ _ _ Hlay). lia.
  - intros (_ & Hks%tree_at_kids & Hr). rewrite !length_app. specialize (IHr Hr).
    assert (zlen (concat (map (λ k, rows k.2) kids)) ≤ 32768 * zlen (concat (map (λ k, pages k.2) kids))); [|lia].
    clear IHr Hr. induction Hks as [|k kids Hk1 _ IH]; [done|]. apply Forall_cons in Hk as [Hk0 Hk]. cbn.
    rewrite !length_app. specialize (IH Hk). specialize (Hk0 Hk1). lia.
Qed.

Lemma countable_after visited total t :
  tree_at usable (source_read_page src) t → countable visited total t →
  0 ≤ total + zlen (rows t) ≤ 32768 * (visited + zlen (pages t)).
Proof. intros Ht (? & ? & ?). pose proof (rows_le_pages t Ht). lia. Qed.

Lemma count_ok fuel t visited total :
  tree_at usable (source_read_page src) t → zlen (pages t) ≤ Z.of_nat fuel → countable visited total t →
  counts fuel t visited total.
Proof.
  revert t visited total. induction fuel as [|fuel IH]; intros t visited total Ht Hf Hc.
  { pose proof (pages_pos t). lia. }
  unfold counts. pose proof (hs_bounds (root_of t)) as Hhs. cbn [count_table_rows_inner]. pose proof (pages_pos t).
  pose proof Hc as (Hv0 & Hv & Htot). assert (HM : MAX_PAGES_VISITED = 1000000) by done.
  rewrite sat_add_page, decide_False by lia. unfold bt_read.
  destruct t as [pn cells|pn kids rt]; cbn [root_of] in *.
  - destruct Ht as (buf & -> & Hleaf). pose proof Hleaf as (Hty & _ & offs & cs & bl & Hlay). cbn [map_err].
    unfold read_page_type. rewrite Hty. cbn [ok_or].
    rewrite decide_True by done. rewrite read_num_cells_eq by lia.
    rewrite (hc_num _ _ _ _ _ (ll_cells _ _ _ _ _ _ Hlay)). cbn [ok_or rows pages length].
    pose proof (leaf_count _ _ _ _ _ _ Hlay). rewrite Z.min_l by (clear -Htot Hv HM H1; cbn in Hv; lia). done.
  - destruct Ht as ((buf & -> & Hsz & Hok & Hpage) & Hks%tree_at_kids & Hr). cbn [map_err].
    pose proof Hpage as (Hty & _). unfold read_page_type. rewrite Hty. cbn [ok_or].
    rewrite decide_False, decide_True by done.
    rewrite (interior_page_collect _ _ _ _ pn Hpage) by lia. cbn [fst snd].
    cbn [pages rows length] in *. rewrite !length_app in *. pose proof (rows_le_pages rt Hr).
    pose proof (pages_pos rt).
    assert (Hfold : ∀ v tot,
      0 ≤ v ∧ v + zlen (concat (map (λ k, pages k.2) kids)) + zlen (pages rt) ≤ MAX_PAGES_VISITED ∧ 0 ≤ tot ≤ 32768 * v →
      foldl (λ acc e, let? vt := acc in count_table_rows_inner src fuel (e : Z * Z).1 vt.1 vt.2) (Ok (v, tot)) (entries kids) =
        Ok (v + zlen (concat (map (λ k, pages k.2) kids)), tot + zlen (concat (map (λ k, rows k.2) kids))) ∧
      0 ≤ tot + zlen (concat (map (λ k, rows k.2) kids)) ≤ 32768 * (v + zlen (concat (map (λ k, pages k.2) kids)))).
    { clear Hpage Hc Hv0 Hv Htot. induction Hks as [|k kids Hk _ IHk]; intros v tot (? & Hb & ?).
      - cbn. rewrite !Z.add_0_r. split; [done|lia].
      - cbn [map concat] in Hb. rewrite !length_app in Hb. cbn [entries map foldl concat].
        cbn [map concat length] in Hf. rewrite !length_app in *.
        assert (Hck : countable v tot k.2) by (unfold countable; lia).
        pose proof (countable_after v tot k.2 Hk Hck).
        cbn [fst snd]. rewrite (IH k.2 v tot Hk ltac:(lia) Hck : count_table_rows_inner _ _ _ _ _ = _).
        destruct (IHk ltac:(lia) ltac:(lia) (v + zlen (pages k.2)) (tot + zlen (rows k.2))) as [Hfo Hbd].
        { lia. }
        cbn [fst snd]. unfold entries in Hfo. rewrite Hfo. split; [do 2 f_equal; lia|lia]. }
    destruct (Hfold (visited + 1) total) as [-> Hbd].
    { lia. }
    cbn [fst snd]. eassert (Hlast : counts fuel rt _ _).
    { apply (IH rt _ _ Hr ltac:(lia)). split; [|split; [|exact Hbd]]; lia. }
    unfold counts in Hlast. rewrite Hlast. do 2 f_equal; lia.
Qed.
End count.

(** [count_table_rows] returns the number of rows a full scan yields: the
    sum of the leaf cell counts over the pages of the tree. *)
Theorem count_table_rows_correct {Src} `{PageSource Src} (src : Src) (usable : Z) (t : tree) :
  tree_at usable (source_read_page src) t → zlen (pages t) ≤ MAX_PAGES_VISITED →
  count_table_rows src (root_of t) = Ok (zlen (rows t)).
Proof.
  intros Ht Hn. unfold count_table_rows.
  assert (Hc : counts src (Z.to_nat (MAX_PAGES_VISITED + 1)) t 0 0).
  { apply (count_ok src usable); [done|lia|]. unfold countable. lia. }
  unfold counts in Hc. by rewrite Hc.
Qed.

