(* ===== verification/Ddl.v ===== *)
(** * The schema reader ([row/schema/ddl_reader.rs])

    The text of a [CREATE] statement cut into its column definitions, and
    the schema table read into table, index and view descriptions.  A [&str]
    is its UTF-8 bytes here, because the source scans bytes and slices at byte
    offsets; [char] functions go through the decoder of [Text].  The types
    [TableSchema], [IndexSchema] and the rowid-alias computation belong to
    another crate: the fields are those the reader fills in, the computation
    is a parameter. *)

From Stdlib Require String Ascii.
From S2P Require Import Prelude Varint Text Record Vfs Header BtreePage BtreePayload BtreeCursor.

Abbreviation str := bytes (only parsing).

(** ** [str] and [char] of the standard library *)

Definition is_char_boundary (s : str) (i : Z) : bool :=
  bool_decide (i = 0) || bool_decide (i = zlen s) ||
  match get_byte s i with Some b => negb (is_cont b) | None => false end.

(** [s.get(a..b)]. *)
Definition str_get (s : str) (a b : Z) : option str :=
  if is_char_boundary s a && is_char_boundary s b then get_range s a b else None.

Definition chars (s : str) : list Z := default [] (from_utf8 s).

(** [char::is_whitespace]: the characters of the property [White_Space]. *)
Definition is_whitespace (c : Z) : bool :=
  bool_decide (9 ≤ c ≤ 13) || bool_decide (0x2000 ≤ c ≤ 0x200A) ||
  bool_decide (c ∈ [0x20; 0x85; 0xA0; 0x1680; 0x2028; 0x2029; 0x202F; 0x205F; 0x3000]).

Fixpoint skip_chars (p : Z → bool) (cs : list Z) : list Z :=
  match cs with c :: cs' => if p c then skip_chars p cs' else cs | [] => [] end.

Definition skip_chars_end (p : Z → bool) (cs : list Z) : list Z := reverse (skip_chars p (reverse cs)).

Definition trim_start (s : str) : str := as_bytes (skip_chars is_whitespace (chars s)).
Definition trim_end (s : str) : str := as_bytes (skip_chars_end is_whitespace (chars s)).
Definition trim (s : str) : str := as_bytes (skip_chars_end is_whitespace (skip_chars is_whitespace (chars s))).

(** [s.trim_matches(set)]. *)
Definition trim_matches (set : list Z) (s : str) : str :=
  let p c := bool_decide (c ∈ set) in
  as_bytes (skip_chars_end p (skip_chars p (chars s))).

(** [s.split_whitespace()]: the word being read and the words before it. *)
Fixpoint split_words (cs word : list Z) : list (list Z) :=
  let done := match word with [] => [] | _ => [reverse word] end in
  match cs with
  | [] => done
  | c :: cs => if is_whitespace c then done ++ split_words cs [] else split_words cs (c :: word)
  end.

Definition split_whitespace (s : str) : list str := map as_bytes (split_words (chars s) []).

Definition ascii_upper (b : Z) : Z := if decide (97 ≤ b ≤ 122) then b - 32 else b.
Definition to_ascii_uppercase (s : str) : str := map ascii_upper s.
Definition eq_ignore_ascii_case (a b : str) : bool := bool_decide (to_ascii_uppercase a = to_ascii_uppercase b).

(** [s.contains(needle)] for a needle that is not empty. *)
Fixpoint str_contains (s needle : str) : bool :=
  match s with
  | [] => bool_decide (needle = [])
  | _ :: s' => bool_decide (take (length needle) s = needle) || str_contains s' needle
  end.

(** [words.join(" ")]. *)
Fixpoint join_words (ws : list str) : str :=
  match ws with [] => [] | [w] => w | w :: ws => w ++ 32 :: join_words ws end.

(** A string literal of the source. *)
Definition lit (s : string) : str := map (λ a, Z.of_N (Ascii.N_of_ascii a)) (String.list_ascii_of_string s).

(** ** Case-insensitive search *)

Definition starts_with_ignore_case (s prefix : str) : bool :=
  match str_get s 0 (zlen prefix) with Some head => eq_ignore_ascii_case head prefix | None => false end.

Definition suffix_start_ignore_case (s suffix : str) : option Z :=
  if decide (zlen s < zlen suffix) then None
  else
    let split := zlen s - zlen suffix in
    tail ← str_get s split (zlen s);
    if eq_ignore_ascii_case tail suffix then Some split else None.

Fixpoint find_from (haystack needle : str) (i : Z) (n : nat) : option Z :=
  match n with
  | O => None
  | S n =>
      if match str_get haystack i (sat_add i (zlen needle)) with
         | Some window => eq_ignore_ascii_case window needle | None => false end
      then Some i
      else find_from haystack needle (i + 1) n
  end.

Definition find_ignore_case (haystack needle : str) : option Z :=
  if decide (needle = []) then Some 0
  else if decide (zlen haystack < zlen needle) then None
  else find_from haystack needle 0 (S (length haystack - length needle)).

(** ** Quotes and comments *)

Definition SPACE : Z := 32.
Definition DQUOTE : Z := 34.
Definition SQUOTE : Z := 39.
Definition LPAREN : Z := 40.
Definition RPAREN : Z := 41.
Definition STAR : Z := 42.
Definition COMMA : Z := 44.
Definition DASH : Z := 45.
Definition SLASH : Z := 47.
Definition LBRACKET : Z := 91.
Definition RBRACKET : Z := 93.
Definition BACKTICK : Z := 96.
Definition LF : Z := 10.

(** Where the scan is: in code, or in one of its inner loops. *)
Inductive mask_mode : Type :=
| InCode
| InQuote (quote : Z)
| InBracket (close : Z)
| InLine
| InBlock.

(** [mask_quotes_and_comments]: every byte is kept or blanked, in order. *)
Fixpoint mask_from (mode : mask_mode) (s : bytes) : bytes :=
  match s with
  | [] => []
  | b :: r =>
      match mode with
      | InCode =>
          if decide (b = SQUOTE ∨ b = DQUOTE) then SPACE :: mask_from (InQuote b) r
          else if decide (b = BACKTICK ∨ b = LBRACKET) then
            SPACE :: mask_from (InBracket (if decide (b = BACKTICK) then BACKTICK else RBRACKET)) r
          else
            match r with
            | b2 :: r2 =>
                if decide (b = DASH ∧ b2 = DASH) then SPACE :: mask_from InLine r
                else if decide (b = SLASH ∧ b2 = STAR) then SPACE :: SPACE :: mask_from InBlock r2
                else b :: mask_from InCode r
            | [] => [b]
            end
      | InQuote quote =>
          if decide (b = quote) then
            match r with
            | b2 :: r2 =>
                if decide (b2 = quote) then SPACE :: SPACE :: mask_from (InQuote quote) r2
                else SPACE :: mask_from InCode r
            | [] => [SPACE]
            end
          else SPACE :: mask_from (InQuote quote) r
      | InBracket close => SPACE :: mask_from (if decide (b = close) then InCode else InBracket close) r
      | InLine => if decide (b = LF) then LF :: mask_from InCode r else SPACE :: mask_from InLine r
      | InBlock =>
          match r with
          | b2 :: r2 =>
              if decide (b = STAR ∧ b2 = SLASH) then SPACE :: SPACE :: mask_from InCode r2
              else SPACE :: mask_from InBlock r
          | [] => [SPACE]
          end
      end
  end.

Definition mask_quotes_and_comments (s : str) : bytes := mask_from InCode s.

(** [i32::saturating_add(1)] and [saturating_sub(1)]. *)
Definition depth_up (d : Z) : Z := Z.min (d + 1) 2147483647.
Definition depth_down (d : Z) : Z := Z.max (d - 1) (-2147483648).

(** The offset of the parenthesis that closes the first one. *)
Fixpoint closing_offset (masked : bytes) (depth offset : Z) : option Z :=
  match masked with
  | [] => None
  | b :: r =>
      if decide (b = LPAREN) then closing_offset r (depth_up depth) (offset + 1)
      else if decide (b = RPAREN) then
        let depth := depth_down depth in
        if decide (depth = 0) then Some offset else closing_offset r depth (offset + 1)
      else closing_offset r depth (offset + 1)
  end.

Definition column_list_span (sql : str) : option (Z * Z) :=
  let masked := mask_quotes_and_comments sql in
  sp ← list_find (λ b, b = LPAREN) masked;
  let start := Z.of_nat sp.1 in
  rest ← get_from masked start;
  offset ← closing_offset rest 0 0;
  Some (sat_add start 1, sat_add start offset).

Fixpoint split_commas (inner : str) (masked : bytes) (i depth part_start : Z) : list str :=
  match masked with
  | [] => [trim (default [] (str_get inner part_start (zlen inner)))]
  | b :: r =>
      if decide (b = LPAREN) then split_commas inner r (i + 1) (depth_up depth) part_start
      else if decide (b = RPAREN) then split_commas inner r (i + 1) (depth_down depth) part_start
      else if decide (b = COMMA ∧ depth = 0) then
        trim (default [] (str_get inner part_start i)) :: split_commas inner r (i + 1) depth (sat_add i 1)
      else split_commas inner r (i + 1) depth part_start
  end.

Definition split_top_level_commas (inner : str) : list str :=
  split_commas inner (mask_quotes_and_comments inner) 0 0 0.

(** ** Column definitions *)

Definition is_table_constraint (def : str) : bool :=
  let trimmed := trim def in
  starts_with_ignore_case trimmed (lit "PRIMARY KEY") ||
  starts_with_ignore_case trimmed (lit "UNIQUE") ||
  starts_with_ignore_case trimmed (lit "FOREIGN KEY") ||
  starts_with_ignore_case trimmed (lit "CHECK") ||
  starts_with_ignore_case trimmed (lit "CONSTRAINT").

(** Quotes, backticks and opening brackets trimmed, then closing brackets. *)
Definition unquote (s : str) : str := trim_matches [RBRACKET] (trim_matches [DQUOTE; BACKTICK; LBRACKET] s).

Definition column_name (def : str) : str := unquote (default [] (head (split_whitespace def))).

Definition CONSTRAINT_KEYWORDS : list str :=
  map lit ["PRIMARY"; "NOT"; "NULL"; "UNIQUE"; "CHECK"; "DEFAULT"; "COLLATE"; "REFERENCES"]%string.

Definition is_constraint_word (word : str) : bool :=
  existsb (λ kw, eq_ignore_ascii_case word kw ||
    (starts_with_ignore_case word kw && bool_decide (get_byte word (zlen kw) = Some LPAREN))) CONSTRAINT_KEYWORDS.

Fixpoint take_while {A} (p : A → bool) (l : list A) : list A :=
  match l with x :: l => if p x then x :: take_while p l else [] | [] => [] end.

Definition column_type (def : str) : str :=
  join_words (take_while (λ w, negb (is_constraint_word w)) (drop 1 (split_whitespace def))).

Inductive Collation : Type := Binary | NoCase | RTrim.

Definition column_collation (def : str) : Collation :=
  match find_ignore_case def (lit "COLLATE") with
  | None => Binary
  | Some pos =>
      let rest := trim_start (default [] (str_get def (sat_add pos (zlen (lit "COLLATE"))) (zlen def))) in
      let name := unquote (default [] (head (split_whitespace rest))) in
      if eq_ignore_ascii_case name (lit "NOCASE") then NoCase
      else if eq_ignore_ascii_case name (lit "RTRIM") then RTrim
      else Binary
  end.

Record IndexedColumn : Type := { ic_name : str; ic_desc : bool; ic_collation : Collation }.

(** [span.get(..split).unwrap_or(span)]. *)
Definition cut_at (span : str) (split : Z) : str := default span (str_get span 0 split).

Definition indexed_column (def : str) : IndexedColumn :=
  let span := trim def in
  let '(desc, span) :=
    match suffix_start_ignore_case span (lit " DESC") with
    | Some split => (true, trim_end (cut_at span split))
    | None =>
        match suffix_start_ignore_case span (lit " ASC") with
        | Some split => (false, trim_end (cut_at span split))
        | None => (false, span)
        end
    end in
  let collation := column_collation span in
  let span := match find_ignore_case span (lit " COLLATE ") with Some pos => trim_end (cut_at span pos) | None => span end in
  {| ic_name := unquote span; ic_desc := desc; ic_collation := collation |}.

Record ParsedCreateTable : Type := {
  pt_columns : list str;
  pt_column_types : list str;
  pt_column_collations : list Collation;
  pt_without_rowid : bool;
  pt_strict : bool;
}.

Definition parse_create_table (sql : str) : option ParsedCreateTable :=
  span ← column_list_span sql;
  let '(start, end_) := span in
  inner ← str_get sql start end_;
  trailer ← to_ascii_uppercase <$> str_get sql (sat_add end_ 1) (zlen sql);
  let defs := List.filter (λ def, negb (is_table_constraint def)) (split_top_level_commas inner) in
  Some {|
    pt_columns := map column_name defs;
    pt_column_types := map column_type defs;
    pt_column_collations := map column_collation defs;
    pt_without_rowid := str_contains trailer (lit "WITHOUT ROWID");
    pt_strict := str_contains trailer (lit "STRICT");
  |}.

Definition is_virtual_table (sql : str) : bool := starts_with_ignore_case (trim_start sql) (lit "CREATE VIRTUAL TABLE").
Definition is_unique_index (sql : str) : bool := starts_with_ignore_case (trim_start sql) (lit "CREATE UNIQUE INDEX").

(** ** The schema table *)

Record IndexSchema : Type := { is_name : str; is_unique : bool; is_columns : list IndexedColumn; is_root_page : Z }.

Record TableSchema : Type := {
  ts_name : str;
  ts_root_page : Z;
  ts_columns : list str;
  ts_without_rowid : bool;
  ts_strict : bool;
  ts_column_types : list str;
  ts_column_collations : list Collation;
  ts_is_virtual : bool;
  ts_sql : str;
  ts_indexes : list IndexSchema;
  ts_rowid_alias : option Z;
}.

Record ViewSchema : Type := { vs_name : str; vs_sql : str }.

Inductive DdlError : Type :=
| DdlBtree (e : BtreeError)
| DdlRecord (e : RecordError)
| MalformedRow (n : Z).

Definition text (v : option Value) : str := match v with Some (TextV s) => as_bytes s | _ => [] end.

(** [Some(Value::Integer(i)) => *i as u32]. *)
Definition root_page_of (v : option Value) : Z := match v with Some (Integer i) => wrap32 i | _ => 0 end.

Definition index_schema (values : list Value) : option (str * IndexSchema) :=
  let name := text (values !! 1%nat) in
  let table_name := text (values !! 2%nat) in
  let root_page := root_page_of (values !! 3%nat) in
  let sql := text (values !! 4%nat) in
  span ← column_list_span sql;
  let '(start, end_) := span in
  inner ← str_get sql start end_;
  let columns := map indexed_column (split_top_level_commas inner) in
  Some (table_name, {| is_name := name; is_unique := is_unique_index sql; is_columns := columns; is_root_page := root_page |}).

Definition all_defs (schema : TableSchema) : list str :=
  match column_list_span (ts_sql schema) with
  | None => []
  | Some (start, end_) =>
      match str_get (ts_sql schema) start end_ with
      | None => []
      | Some inner => split_top_level_commas inner
      end
  end.

Definition column_defs (schema : TableSchema) : list str :=
  List.filter (λ def, negb (is_table_constraint def)) (all_defs schema).

(** [ParsedCreateTable::default()]. *)
Definition no_columns : ParsedCreateTable :=
  {| pt_columns := []; pt_column_types := []; pt_column_collations := []; pt_without_rowid := false; pt_strict := false |}.

Section reader.
Context (with_computed_rowid_alias : TableSchema → TableSchema).

Definition table_schema (values : list Value) : TableSchema :=
  let name := text (values !! 1%nat) in
  let root_page := root_page_of (values !! 3%nat) in
  let sql := text (values !! 4%nat) in
  if is_virtual_table sql then
    {| ts_name := name; ts_root_page := 0; ts_columns := []; ts_without_rowid := false; ts_strict := false;
       ts_column_types := []; ts_column_collations := []; ts_is_virtual := true; ts_sql := sql; ts_indexes := []; ts_rowid_alias := None |}
  else
    let parsed := default no_columns (parse_create_table sql) in
    with_computed_rowid_alias
      {| ts_name := name; ts_root_page := root_page; ts_columns := pt_columns parsed;
         ts_without_rowid := pt_without_rowid parsed; ts_strict := pt_strict parsed;
         ts_column_types := pt_column_types parsed; ts_column_collations := pt_column_collations parsed;
         ts_is_virtual := false; ts_sql := sql; ts_indexes := []; ts_rowid_alias := None |}.

(** The state of the walk: tables, views, positions by name, indexes. *)
Record catalog : Type := {
  ct_schemas : list TableSchema;
  ct_views : list ViewSchema;
  ct_table_pos : gmap str nat;
  ct_pending : list (str * IndexSchema);
}.

Definition empty_catalog : catalog := {| ct_schemas := []; ct_views := []; ct_table_pos := ∅; ct_pending := [] |}.

Definition view_of (values : list Value) : ViewSchema := {| vs_name := text (values !! 1%nat); vs_sql := text (values !! 4%nat) |}.

(** One row of the schema table. *)
Definition catalog_row (c : catalog) (values : list Value) : catalog :=
  let kind := text (head values) in
  if decide (kind = lit "table") then
    let schema := table_schema values in
    {| ct_schemas := ct_schemas c ++ [schema]; ct_views := ct_views c;
       ct_table_pos := <[ts_name schema := length (ct_schemas c)]> (ct_table_pos c); ct_pending := ct_pending c |}
  else if decide (kind = lit "index") then
    {| ct_schemas := ct_schemas c; ct_views := ct_views c; ct_table_pos := ct_table_pos c;
       ct_pending := ct_pending c ++ match index_schema values with Some p => [p] | None => [] end |}
  else if decide (kind = lit "view") then
    {| ct_schemas := ct_schemas c; ct_views := ct_views c ++ [view_of values]; ct_table_pos := ct_table_pos c; ct_pending := ct_pending c |}
  else c.

Definition add_index (index : IndexSchema) (s : TableSchema) : TableSchema :=
  {| ts_name := ts_name s; ts_root_page := ts_root_page s; ts_columns := ts_columns s; ts_without_rowid := ts_without_rowid s;
     ts_strict := ts_strict s; ts_column_types := ts_column_types s; ts_column_collations := ts_column_collations s;
     ts_is_virtual := ts_is_virtual s; ts_sql := ts_sql s; ts_indexes := ts_indexes s ++ [index]; ts_rowid_alias := ts_rowid_alias s |}.

(** The indexes are attached once every table has been seen. *)
Definition attach_indexes (c : catalog) : list TableSchema :=
  foldl (λ schemas p, match ct_table_pos c !! p.1 with
                      | Some pos => alter (add_index p.2) pos schemas
                      | None => schemas end) (ct_schemas c) (ct_pending c).

Context `{PageSource Src} (src : Src).

(** The loop over the rows of the schema table, for a step that takes a
    decoded row; [fuel] bounds the rows. *)
Fixpoint walk_master {A} (step : A → list Value → A) (encoding : TextEncoding) (fuel : nat) (a : A)
    (rc : result BtreeError (option TableRow) * TableCursor) : result DdlError A :=
  match fuel with
  | O => Err (DdlBtree (BInternal "walk: out of fuel"))
  | S fuel =>
      let? row := map_err DdlBtree rc.1 in
      match row with
      | None => Ok a
      | Some r =>
          let? values := map_err DdlRecord (decode_record (payload_bytes (tr_payload r)) encoding) in
          if decide (zlen values ≠ 5) then Err (MalformedRow (zlen values))
          else walk_master step encoding fuel (step a values) (next_row src rc.2)
      end
  end.

Definition read_schema_and_views (fuel : nat) (cursor : TableCursor) (encoding : TextEncoding)
  : result DdlError (list TableSchema * list ViewSchema) :=
  let? c := walk_master catalog_row encoding fuel empty_catalog (first_row src cursor) in
  Ok (attach_indexes c, ct_views c).

Definition read_schema (fuel : nat) (cursor : TableCursor) (encoding : TextEncoding) : result DdlError (list TableSchema) :=
  let? sv := read_schema_and_views fuel cursor encoding in Ok sv.1.

Definition read_table_and_view_names (fuel : nat) (cursor : TableCursor) (encoding : TextEncoding) : result DdlError (list str) :=
  walk_master (λ names values,
    if decide (text (head values) = lit "table" ∨ text (head values) = lit "view") then names ++ [text (values !! 1%nat)] else names)
    encoding fuel [] (first_row src cursor).

Definition read_views (fuel : nat) (cursor : TableCursor) (encoding : TextEncoding) : result DdlError (list ViewSchema) :=
  walk_master (λ views values, if decide (text (head values) = lit "view") then views ++ [view_of values] else views)
    encoding fuel [] (first_row src cursor).
End reader.

(** A column whose name starts with a constraint keyword. *)
Example parse_ex :
  pt_columns <$> parse_create_table (lit "CREATE TABLE t(id INTEGER, check_in TEXT, note TEXT DEFAULT 'a,b)', x)") =
  Some (map lit ["id"; "note"; "x"]%string).
Proof. vm_compute. reflexivity. Qed.

(** ** Texts by their structure *)

(** What a definition is made of: code, quoted text, bracketed names,
    comments and parentheses. *)
Inductive tok : Type :=
| TByte (b : Z)
| TQuoted (q : Z) (s : bytes)
| TNamed (q : Z) (s : bytes)
| TLine (s : bytes)
| TBlock (s : bytes)
| TParen (ts : list tok).

Definition double (q : Z) (s : bytes) : bytes := concat (map (λ b, if decide (b = q) then [q; q] else [b]) s).
Definition close_of (q : Z) : Z := if decide (q = BACKTICK) then BACKTICK else RBRACKET.

Fixpoint render1 (t : tok) : bytes :=
  match t with
  | TByte b => [b]
  | TQuoted q s => q :: double q s ++ [q]
  | TNamed q s => q :: s ++ [close_of q]
  | TLine s => DASH :: DASH :: s ++ [LF]
  | TBlock s => SLASH :: STAR :: s ++ [STAR; SLASH]
  | TParen ts => LPAREN :: concat (map render1 ts) ++ [RPAREN]
  end.

(** The same with everything but code and parentheses blanked. *)
Fixpoint masked1 (t : tok) : bytes :=
  match t with
  | TByte b => [b]
  | TLine s => SPACE :: SPACE :: map (λ _, SPACE) s ++ [LF]
  | TParen ts => LPAREN :: concat (map masked1 ts) ++ [RPAREN]
  | t => map (λ _, SPACE) (render1 t)
  end.
Definition masked (ts : list tok) : bytes := concat (map masked1 ts).






Section tok_ind.
Context (P : tok → Prop) (Q : list tok → Prop).
Context (Hb : ∀ b, P (TByte b)) (Hq : ∀ q s, P (TQuoted q s)) (Hn : ∀ q s, P (TNamed q s)) (Hl : ∀ s, P (TLine s))
  (Hbl : ∀ s, P (TBlock s)) (Hp : ∀ ts, Q ts → P (TParen ts)) (Hnil : Q []) (Hcons : ∀ t ts, P t → Q ts → Q (t :: ts)).
Fixpoint tok_ind' (t : tok) : P t :=
  match t with
  | TByte b => Hb b
  | TQuoted q s => Hq q s
  | TNamed q s => Hn q s
  | TLine s => Hl s
  | TBlock s => Hbl s
  | TParen ts => Hp ts ((fix go ts : Q ts := match ts with [] => Hnil | t :: ts => Hcons t ts (tok_ind' t) (go ts) end) ts)
  end.
Definition toks_ind' (ts : list tok) : Q ts := list_ind Q Hnil (λ t ts, Hcons t ts (tok_ind' t)) ts.
End tok_ind.








(** ** Lengths and skipped bytes *)












(** ** Statements *)

















(** ** What a definition declares *)










(** *** Characters and bytes *)








(** *** Trimming *)









(** *** The name *)







(** *** Keywords *)







(** *** A definition of the list *)

(** [PRIMARY KEY] and [FOREIGN KEY] are a word and the next one. *)
Definition keyword_parts (kw : str) : str * str := (take 7 kw, drop 7 kw).













(** ** Properties *)





(** A column whose name starts with a constraint keyword is taken for a
    table constraint and lost: [check_in] is not among the columns, and every
    column after it moves one place to the left. *)
Theorem keyword_column_lost :
  pt_columns <$> parse_create_table (lit "CREATE TABLE t(id INTEGER, check_in TEXT, x)") = Some (map lit ["id"; "x"]%string) ∧
  ∀ def, starts_with_ignore_case (trim def) (lit "UNIQUE") = true → is_table_constraint def = true.
Proof.
  split; [vm_compute; reflexivity|]. intros def Hd. unfold is_table_constraint. rewrite Hd. by rewrite orb_true_r.
Qed.

(** A quoted name of several words is cut after the first, and a definition
    behind a comment is named after the comment. *)
Theorem spaced_name_cut :
  pt_columns <$> parse_create_table (lit "CREATE TABLE t([first name] TEXT, /* c */ x)") = Some (map lit ["first"; "/*"]%string).
Proof. vm_compute. reflexivity. Qed.
