(* ===== verification/Catalog.v ===== *)
(** * The catalog read from the schema table

    The readers of [row/schema/ddl_reader.rs] walk the rows of the schema
    table in one pass and attach the indexes at the end.  Here the walk over
    the pages of a table b-tree is shown to compute a catalog that is stated
    without a walk: the tables are the rows of type [table], each with the
    indexes that name it, wherever these stand among the rows. *)

From S2P Require Import Prelude Varint Text Record Vfs Header BtreePage BtreeSplice BtreePayload BtreeCursor Ddl.
From Stdlib Require String Ascii.

(** ** The walk over decoded rows *)

(** The walk over the payloads of the rows, without pages. *)
Fixpoint walk_payloads {A} (step : A → list Value → A) (encoding : TextEncoding) (a : A) (bss : list bytes) : result DdlError A :=
  match bss with
  | [] => Ok a
  | bs :: bss =>
      let? values := map_err DdlRecord (decode_record bs encoding) in
      if decide (zlen values ≠ 5) then Err (MalformedRow (zlen values)) else walk_payloads step encoding (step a values) bss
  end.

Lemma walk_master_payloads {Src} `{PageSource Src} (src : Src) {A} (step : A → list Value → A) enc fuel a rc rs :
  drain (next_row src) fuel rc = Ok rs → walk_master src step enc fuel a rc = walk_payloads step enc a rs.*2.
Proof.
  revert a rc rs. induction fuel as [|fuel IH]; intros a [r c] rs Hd; [done|]. cbn in Hd |- *.
  destruct r as [[row|]|e]; [| |done].
  - destruct (drain _ fuel _) as [rest|] eqn:Hr; [|done]. injection Hd as <-. cbn.
    destruct (decode_record _ enc) as [values|]; [|done]. cbn. case_decide; [done|]. by apply IH.
  - by injection Hd as <-.
Qed.

(** A payload that holds the five values of a row of the schema table. *)
Definition schema_row (enc : TextEncoding) (bs : bytes) (vs : list Value) : Prop := decode_record bs enc = Ok vs ∧ zlen vs = 5.

Lemma walk_payloads_ok {A} (step : A → list Value → A) enc a bss vss :
  Forall2 (schema_row enc) bss vss → walk_payloads step enc a bss = Ok (foldl step a vss).
Proof.
  intros HF. revert a. induction HF as [|bs vs bss vss [Hd Hl] HF IH]; intros a; [done|].
  cbn. rewrite Hd. cbn. rewrite decide_False by lia. apply IH.
Qed.

(** The first row that is not a row of the schema table ends the walk. *)
Lemma walk_payloads_err {A} (step : A → list Value → A) enc a bss vss bs rest :
  Forall2 (schema_row enc) bss vss →
  walk_payloads step enc a (bss ++ bs :: rest) =
    match decode_record bs enc with
    | Err e => Err (DdlRecord e)
    | Ok vs => if decide (zlen vs = 5) then walk_payloads step enc (step (foldl step a vss) vs) rest else Err (MalformedRow (zlen vs))
    end.
Proof.
  intros HF. revert a. induction HF as [|bs' vs bss vss [Hd Hl] HF IH]; intros a; cbn.
  - destruct (decode_record bs enc); [|done]. cbn. repeat case_decide; (done || lia).
  - rewrite Hd. cbn. rewrite decide_False by lia. apply IH.
Qed.

(** ** The catalog, by kind of row *)

Definition kind_is (k : string) (vs : list Value) : bool := bool_decide (text (head vs) = lit k).

Definition index_rows (vss : list (list Value)) : list (str * IndexSchema) := omap index_schema (List.filter (kind_is "index") vss).

Section catalog.
Context (with_computed_rowid_alias : TableSchema → TableSchema).

Notation table_schema := (table_schema with_computed_rowid_alias).

Definition table_rows (vss : list (list Value)) : list TableSchema := map table_schema (List.filter (kind_is "table") vss).
Definition view_rows (vss : list (list Value)) : list ViewSchema := map view_of (List.filter (kind_is "view") vss).

(** The indexes of the table named [name], in the order of their rows. *)
Definition indexes_of (idx : list (str * IndexSchema)) (name : str) : list IndexSchema :=
  (List.filter (λ p, bool_decide (p.1 = name)) idx).*2.

Definition with_indexes (idx : list (str * IndexSchema)) (s : TableSchema) : TableSchema :=
  foldl (λ s i, add_index i s) s (indexes_of idx (ts_name s)).

Definition catalog_tables (vss : list (list Value)) : list TableSchema := map (with_indexes (index_rows vss)) (table_rows vss).

Definition catalog_names (vss : list (list Value)) : list str :=
  map (λ vs, text (vs !! 1%nat)) (List.filter (λ vs, kind_is "table" vs || kind_is "view" vs) vss).

Lemma kinds_differ vs a b : lit a ≠ lit b → kind_is a vs = true → kind_is b vs = false.
Proof. unfold kind_is. intros Hne Ha. apply bool_decide_eq_true in Ha. apply bool_decide_eq_false. congruence. Qed.

(** Positions by name. *)
Fixpoint positions (m : gmap str nat) (n : nat) (ss : list TableSchema) : gmap str nat :=
  match ss with [] => m | s :: ss => positions (<[ts_name s := n]> m) (S n) ss end.

Lemma positions_snoc m n ss s : positions m n (ss ++ [s]) = <[ts_name s := (n + length ss)%nat]> (positions m n ss).
Proof.
  revert m n. induction ss as [|x ss IH]; intros m n; cbn; [by rewrite Nat.add_0_r|].
  rewrite IH. by rewrite <- Nat.add_succ_comm.
Qed.

Lemma filter_snoc {A} (p : A → bool) l x : List.filter p (l ++ [x]) = List.filter p l ++ if p x then [x] else [].
Proof. rewrite List.filter_app. cbn. by destruct (p x). Qed.

Lemma catalog_rows vss :
  foldl (catalog_row with_computed_rowid_alias) empty_catalog vss =
  {| ct_schemas := table_rows vss; ct_views := view_rows vss; ct_table_pos := positions ∅ 0 (table_rows vss); ct_pending := index_rows vss |}.
Proof.
  induction vss as [|vs vss IH] using rev_ind; [done|]. rewrite foldl_snoc, IH.
  unfold catalog_row, table_rows, view_rows, index_rows. rewrite !filter_snoc.
  assert (Hk : ∀ k, kind_is k vs = if decide (text (head vs) = lit k) then true else false).
  { intros k. unfold kind_is. case_decide; [by apply bool_decide_eq_true_2|by apply bool_decide_eq_false_2]. }
  rewrite !Hk.
  destruct (decide (text (head vs) = lit "table")) as [Ht|Ht];
    [|destruct (decide (text (head vs) = lit "index")) as [Hi|Hi]; [|destruct (decide (text (head vs) = lit "view")) as [Hv|Hv]]];
    cbn [ct_schemas ct_views ct_table_pos ct_pending].
  - rewrite (decide_False (P := _ = lit "view")), (decide_False (P := _ = lit "index")) by (rewrite Ht; vm_compute; congruence).
    rewrite !app_nil_r, map_app. cbn [map]. by rewrite positions_snoc, length_map.
  - rewrite (decide_False (P := _ = lit "view")) by (rewrite Hi; vm_compute; congruence).
    rewrite !app_nil_r, omap_app. by f_equal.
  - by rewrite !app_nil_r, map_app.
  - by rewrite !app_nil_r.
Qed.

(** Under distinct names the map of positions finds each table. *)
Lemma positions_other m n ss name : name ∉ map ts_name ss → positions m n ss !! name = m !! name.
Proof.
  revert m n. induction ss as [|s ss IH]; intros m n Hn; [done|]. cbn in Hn |- *.
  apply not_elem_of_cons in Hn as [Hne Hn]. rewrite IH by done. by rewrite lookup_insert_ne.
Qed.

Lemma positions_lookup m n ss i s :
  NoDup (map ts_name ss) → ss !! i = Some s → positions m n ss !! ts_name s = Some (n + i)%nat.
Proof.
  revert m n i. induction ss as [|x ss IH]; intros m n i Hd Hi; [done|]. cbn in Hd |- *. apply NoDup_cons in Hd as [Hx Hd].
  destruct i as [|i]; cbn in Hi.
  - injection Hi as ->. rewrite positions_other by done. rewrite lookup_insert_eq. f_equal. lia.
  - rewrite (IH _ _ i) by done. f_equal. lia.
Qed.

Lemma positions_Some ss name i : positions ∅ 0 ss !! name = Some i → ∃ s, ss !! i = Some s ∧ ts_name s = name.
Proof.
  revert i. induction ss as [|s ss IH] using rev_ind; intros i; [done|]. rewrite positions_snoc.
  destruct (decide (ts_name s = name)) as [<-|Hne].
  - rewrite lookup_insert_eq. intros [= <-]. exists s. split; [|done]. by rewrite list_lookup_middle.
  - rewrite lookup_insert_ne by done. intros (s' & Hs & Hn)%IH. exists s'. split; [|done]. by apply lookup_app_l_Some.
Qed.

Lemma with_indexes_snoc idx p s :
  with_indexes (idx ++ [p]) s = if decide (p.1 = ts_name s) then add_index p.2 (with_indexes idx s) else with_indexes idx s.
Proof.
  unfold with_indexes, indexes_of. rewrite filter_snoc, fmap_app, foldl_app.
  case_decide; [by rewrite bool_decide_eq_true_2|by rewrite bool_decide_eq_false_2].
Qed.

(** Attaching the pending indexes one by one gives each table its own. *)
Lemma attach_tables views ss idx :
  NoDup (map ts_name ss) →
  attach_indexes {| ct_schemas := ss; ct_views := views; ct_table_pos := positions ∅ 0 ss; ct_pending := idx |} = map (with_indexes idx) ss.
Proof.
  intros Hd. unfold attach_indexes. cbn [ct_schemas ct_table_pos ct_pending].
  induction idx as [|p idx IH] using rev_ind.
  - cbn. symmetry. apply map_id.
  - rewrite foldl_snoc, IH. apply list_eq. intros i. rewrite list_lookup_fmap.
    destruct (positions ∅ 0 ss !! p.1) as [pos|] eqn:Hp.
    + destruct (positions_Some _ _ _ Hp) as (s & Hs & Hn).
      destruct (decide (i = pos)) as [->|Hne].
      * rewrite list_lookup_alter_eq, list_lookup_fmap, Hs. cbn. by rewrite with_indexes_snoc, decide_True.
      * rewrite list_lookup_alter_ne, list_lookup_fmap by done. destruct (ss !! i) as [s'|] eqn:Hi; [|done]. cbn.
        rewrite with_indexes_snoc, decide_False; [done|]. intros Heq.
        pose proof (positions_lookup ∅ 0 ss i s' Hd Hi) as Hl. rewrite <- Heq, Hp in Hl. injection Hl as ->. lia.
    + rewrite list_lookup_fmap. destruct (ss !! i) as [s'|] eqn:Hi; [|done]. cbn.
      rewrite with_indexes_snoc, decide_False; [done|]. intros Heq.
      pose proof (positions_lookup ∅ 0 ss i s' Hd Hi) as Hl. by rewrite <- Heq, Hp in Hl.
Qed.

Lemma fold_filter {A B} (p : A → bool) (f : A → B) (step : list B → A → list B) l :
  (∀ acc x, step acc x = if p x then acc ++ [f x] else acc) → foldl step [] l = map f (List.filter p l).
Proof.
  intros Hs. induction l as [|x l IH] using rev_ind; [done|]. rewrite foldl_snoc, IH, Hs, filter_snoc.
  destruct (p x); [by rewrite map_app|by rewrite app_nil_r].
Qed.
End catalog.

(** C17: The schema readers compute the catalog the rows of the schema table
    describe.  Over the pages of a table b-tree whose rows decode to five
    values each, and whose tables have distinct names, the walk returns the
    tables in row order, each with the indexes that name it in row order,
    wherever the index rows stand; the views; and the names of both.
    Computing the rowid alias is assumed to keep the name of a table. *)
Theorem schema_walk_complete {Src} `{PageSource Src} (src : Src) (alias : TableSchema → TableSchema) (c : TableCursor) (enc : TextEncoding)
    (t : tree) (bss : list bytes) (vss : list (list Value)) :
  tree_at (tc_usable_size c) (source_read_page src) t → zlen (pages t) ≤ MAX_PAGES_VISITED → tc_root_page c = root_of t →
  Forall2 (row_payload src (tc_usable_size c)) (rows t) bss → Forall2 (schema_row enc) bss vss →
  (∀ s, ts_name (alias s) = ts_name s) →
  NoDup (map (λ vs, text (vs !! 1%nat)) (List.filter (kind_is "table") vss)) →
  let fuel := S (length bss) in
  read_schema_and_views alias src fuel c enc = Ok (catalog_tables alias vss, view_rows vss) ∧
  read_schema alias src fuel c enc = Ok (catalog_tables alias vss) ∧
  read_views src fuel c enc = Ok (view_rows vss) ∧
  read_table_and_view_names src fuel c enc = Ok (catalog_names vss).
Proof.
  intros Ht Hn Hroot Hp Hrows Halias Hd fuel.
  assert (Hwalk : ∀ A (step : A → list Value → A) a, walk_master src step enc fuel a (first_row src c) = Ok (foldl step a vss)).
  { intros A step a. pose proof (Forall2_length _ _ _ Hp) as Hlen.
    rewrite (walk_master_payloads src step enc fuel a _ (row_pairs (rows t) bss)).
    - unfold row_pairs. rewrite snd_zip by (rewrite length_map; lia). by apply walk_payloads_ok.
    - unfold fuel. rewrite <- Hlen. by apply table_scan_complete. }
  assert (Hsv : read_schema_and_views alias src fuel c enc = Ok (catalog_tables alias vss, view_rows vss)).
  { unfold read_schema_and_views. rewrite Hwalk, catalog_rows. cbn [ct_views]. rewrite attach_tables; [done|].
    unfold table_rows. rewrite map_map. erewrite map_ext; [exact Hd|]. intros vs. unfold table_schema.
    case_match; [done|]. by rewrite Halias. }
  do 1 (split; [done|]). split; [unfold read_schema; by rewrite Hsv|]. unfold read_views, read_table_and_view_names. rewrite !Hwalk.
  split; f_equal; apply fold_filter; intros acc vs; unfold kind_is; repeat case_decide; repeat case_bool_decide; naive_solver.
Qed.

(** ** A schema table with an index row before the row of its table *)

Definition schema_values : list (list Value) :=
  let row kind name tbl root sql :=
    [TextV (lit kind); TextV (lit name); TextV (lit tbl); Integer root; TextV (lit sql)] in
  [row "index" "i" "t" 3 "CREATE UNIQUE INDEX i ON t(b DESC)"; row "view" "v" "v" 0 "CREATE VIEW v AS SELECT a FROM t";
   row "table" "t" "t" 2 "CREATE TABLE t(a INTEGER, b TEXT)"]%string.

Definition schema_payloads : list bytes := map (λ vs, encode_record vs Utf8) schema_values.

Definition schema_cells : list bytes := imap (λ i bs, encode_varint (zlen bs) ++ [Z.of_nat i + 1] ++ bs) schema_payloads.

Definition example_schema_src : mem_source :=
  {| ms_page_size := 512; ms_pages n := if decide (n = 1) then Some (write_leaf_page 100 1 schema_cells (zeros 512)).1 else None |}.

Definition example_schema_cursor : TableCursor :=
  {| tc_usable_size := 512; tc_root_page := 1; tc_stack := []; tc_pages_visited := 0; tc_positioned_reverse := false; tc_current := None |}.

Definition table_cell_b (c : bytes) : bool :=
  match decode_cell_head c 0 0 with
  | Ok (_, pl, t) => forallb (λ z, (0 <=? z) && (z <? 256)) c && (zlen c =? cell_end 512 pl t false)
  | Err _ => false
  end.

Lemma table_cells_ok cs : forallb table_cell_b cs = true → Forall (table_cell 512) cs.
Proof.
  intros Hb. apply Forall_forall. intros c Hc. rewrite forallb_forall in Hb.
  specialize (Hb c). rewrite <- list_elem_of_In in Hb. specialize (Hb Hc). unfold table_cell_b in Hb.
  destruct (decode_cell_head c 0 0) as [[[rowid pl] t]|] eqn:Hd; [|done]. apply andb_true_iff in Hb as [Hb Hl].
  apply (BtreeCursor.table_cell_b c rowid pl t); [done|done|lia].
Qed.

Lemma schema_cells_ok : Forall (table_cell 512) schema_cells.
Proof. apply table_cells_ok. vm_compute. reflexivity. Qed.

Lemma mem_table_leaf (s : mem_source) n cells :
  ms_page_size s = 512 → n ≠ 0 → ms_pages s n = Some (write_leaf_page (page1_header_start n) n cells (zeros 512)).1 →
  Forall (table_cell 512) cells → page1_header_start n + 8 + cells_need cells ≤ 512 →
  tree_at 512 (source_read_page s) (Leaf n cells).
Proof.
  intros Hs Hn Hp Hw Hfit. pose proof (hs_bounds n).
  destruct (write_leaf_page_ok 512 (page1_header_start n) n cells (zeros 512)) as (b & Hb & Hl & Hlen & _);
    [lia|rewrite length_zeros; lia|apply bytes_ok_take, bytes_ok_zeros|done|rewrite length_zeros; lia|].
  exists b. split; [|done]. rewrite Hb in Hp. cbn. rewrite Hp. cbn. rewrite Hs. apply decide_True.
  split; [done|]. rewrite Hlen. exact (length_zeros 512 ltac:(lia)).
Qed.

Lemma local_row_payload {Src} `{PageSource Src} (src : Src) c bs n :
  decode_cell_head c 0 0 = Ok (cell_rowid c, zlen bs, n) → 0 ≤ n → zlen bs ≤ 400 → get_range c n (n + zlen bs) = Some bs →
  row_payload src 512 c bs.
Proof.
  intros Hd Hn Hl Hg. exists n. do 2 (split; [done|]). unfold payload_at. cbv zeta.
  assert (Hloc : local_payload_size 512 (zlen bs) false = zlen bs).
  { unfold local_payload_size. apply decide_True. change (sat_sub 512 35) with 477. lia. }
  rewrite Hloc. split; [etrans; [exact Hl|vm_compute; congruence]|].
  split; [by rewrite Nat2Z.id, firstn_all|]. intros Hlt. destruct (Z.lt_irrefl _ Hlt).
Qed.

Lemma example_schema_at : tree_at 512 (source_read_page example_schema_src) (Leaf 1 schema_cells).
Proof. apply mem_table_leaf; [done|done|reflexivity|exact schema_cells_ok|vm_compute; congruence]. Qed.

Lemma example_schema_payloads : Forall2 (row_payload example_schema_src 512) (rows (Leaf 1 schema_cells)) schema_payloads.
Proof.
  cbn [rows]. apply Forall2_same_length_lookup_2; [reflexivity|]. intros i c bs Hc Hb. apply (local_row_payload _ _ _ 2);
    (destruct i as [|[|[|i]]]; [..|vm_compute in Hc; discriminate Hc]);
    vm_compute in Hc, Hb; injection Hc as <-; injection Hb as <-; first [lia|vm_compute; reflexivity|vm_compute; congruence].
Qed.

Lemma example_schema_rows : Forall2 (schema_row Utf8) schema_payloads schema_values.
Proof. repeat (constructor; [split; vm_compute; reflexivity|]). constructor. Qed.

Lemma schema_walk_complete_witness :
  ∃ table, read_schema id example_schema_src 4 example_schema_cursor Utf8 = Ok [table] ∧
    ts_columns table = map lit ["a"; "b"]%string ∧ map is_unique (ts_indexes table) = [true] ∧
    read_table_and_view_names example_schema_src 4 example_schema_cursor Utf8 = Ok (map lit ["v"; "t"]%string).
Proof.
  destruct (schema_walk_complete example_schema_src id example_schema_cursor Utf8 (Leaf 1 schema_cells) schema_payloads schema_values)
    as (_ & Hs & _ & Hn).
  - exact example_schema_at.
  - vm_compute. congruence.
  - reflexivity.
  - exact example_schema_payloads.
  - exact example_schema_rows.
  - done.
  - apply (bool_decide_unpack _). vm_compute. exact I.
  - eexists. split; [etrans; [exact Hs|vm_compute; reflexivity]|]. do 2 (split; [vm_compute; reflexivity|]).
    etrans; [exact Hn|vm_compute; reflexivity].
Defined.
