(* ===== verification/IndexCursor.v ===== *)
(** * Reading index b-trees ([row/btree/index.rs])

    The [IndexCursor]: traversal in both directions over a tree whose
    interior cells carry entries of their own, and [seek] by binary search.
    The abstract side is [itree]; the cursor yields its entries in order, and
    [seek] the first that is not less than its target. *)

From S2P Require Import Prelude Varint Text Record Vfs Header Freelist Pager BtreePage BtreeSplice BtreePayload BtreeCursor IndexKey IndexTree.

Record IndexRow : Type := { ir_payload : Payload }.

Section source.
Context `{PageSource Src} (src : Src).

(** ** The cursor *)

Record IndexFrame : Type := {
  xf_page_num : Z;
  xf_is_interior : bool;
  xf_num_cells : Z;
  xf_cell_ptr_base : Z;
  xf_rightmost : Z;
  xf_step : Z;
  xf_page : bytes;
}.

(** [source] is the section's [src]; the top of [stack] is its head. *)
Record IndexCursor : Type := {
  xc_usable_size : Z;
  xc_root_page : Z;
  xc_stack : list IndexFrame;
  xc_pages_visited : Z;
}.

Definition IndexCursor_new (usable_size root_page : Z) : IndexCursor :=
  {| xc_usable_size := usable_size; xc_root_page := root_page; xc_stack := []; xc_pages_visited := 0 |}.

Definition xc_at (c : IndexCursor) (st : list IndexFrame) (visited : Z) : IndexCursor :=
  {| xc_usable_size := xc_usable_size c; xc_root_page := xc_root_page c; xc_stack := st;
     xc_pages_visited := visited |}.

Definition xc_set_stack (c : IndexCursor) (st : list IndexFrame) : IndexCursor := xc_at c st (xc_pages_visited c).

Definition xf_at (f : IndexFrame) (step : Z) : IndexFrame :=
  {| xf_page_num := xf_page_num f; xf_is_interior := xf_is_interior f; xf_num_cells := xf_num_cells f;
     xf_cell_ptr_base := xf_cell_ptr_base f; xf_rightmost := xf_rightmost f; xf_step := step;
     xf_page := xf_page f |}.

Definition index_read_page (c : IndexCursor) (page_num : Z) : result BtreeError bytes * IndexCursor :=
  let c := xc_at c (xc_stack c) (sat_add (xc_pages_visited c) 1) in
  (if decide (MAX_PAGES_VISITED < xc_pages_visited c) then Err (TraversalTooLong MAX_PAGES_VISITED)
   else bt_read src page_num, c).

(** The frame [push_page] builds from a page. *)
Definition index_frame (page : bytes) (page_num : Z) : result BtreeError IndexFrame :=
  let header_start := page1_header_start page_num in
  let? page_type := read_page_type page header_start page_num in
  let? is_interior :=
    (if decide (page_type = LEAF_INDEX) then Ok false
     else if decide (page_type = INTERIOR_INDEX) then Ok true
     else Err (UnexpectedPageType page_num page_type)) in
  let? _ := (if is_interior : bool then require_interior_header page header_start page_num else Ok ()) in
  let? num_cells := read_num_cells page header_start page_num in
  let? br := (if is_interior : bool then
                let? r := read_u32 page (sat_add header_start 8) page_num in
                Ok (sat_add header_start 12, r)
              else Ok (sat_add header_start 8, 0)) in
  Ok {| xf_page_num := page_num; xf_is_interior := is_interior; xf_num_cells := num_cells;
        xf_cell_ptr_base := br.1; xf_rightmost := br.2; xf_step := 0; xf_page := page |}.

Definition index_push_page (c : IndexCursor) (page_num : Z) : result BtreeError () * IndexCursor :=
  let '(r, c) := index_read_page c page_num in
  match r with
  | Err e => (Err e, c)
  | Ok page =>
      match index_frame page page_num with
      | Err e => (Err e, c)
      | Ok f => (Ok (), xc_set_stack c (f :: xc_stack c))
      end
  end.

(** The step a frame starts from when it is walked downwards. *)
Definition last_step (f : IndexFrame) : Z :=
  if xf_is_interior f then sat_add (sat_mul (xf_num_cells f) 2) 1 else xf_num_cells f.

Definition push_page_desc (c : IndexCursor) (page_num : Z) : result BtreeError () * IndexCursor :=
  match index_push_page c page_num with
  | (Err e, c) => (Err e, c)
  | (Ok _, c) =>
      match xc_stack c with
      | [] => (Ok (), c)
      | f :: st => (Ok (), xc_set_stack c (xf_at f (last_step f) :: st))
      end
  end.

Definition index_interior_child (f : IndexFrame) (cell_index : Z) : result BtreeError Z :=
  let? cell_start := read_cell_pointer (xf_page f) (cell_ptr_offset (xf_cell_ptr_base f) cell_index)
                       (xf_page_num f) cell_index in
  read_u32 (xf_page f) cell_start (xf_page_num f).

Definition decode_leaf_entry (c : IndexCursor) (f : IndexFrame) (cell_index : Z) : result BtreeError IndexRow :=
  let? cell_start := read_cell_pointer (xf_page f) (cell_ptr_offset (xf_cell_ptr_base f) cell_index)
                       (xf_page_num f) cell_index in
  let? pt := decode_payload_len (xf_page f) cell_start (xf_page_num f) in
  let? payload := reassemble_payload src (xc_usable_size c) (xf_page_num f) (xf_page f) pt.2 pt.1 true in
  Ok {| ir_payload := payload |}.

Definition decode_interior_entry (c : IndexCursor) (f : IndexFrame) (cell_index : Z) : result BtreeError IndexRow :=
  let? cell_start := read_cell_pointer (xf_page f) (cell_ptr_offset (xf_cell_ptr_base f) cell_index)
                       (xf_page_num f) cell_index in
  let? pt := decode_payload_len (xf_page f) (sat_add cell_start 4) (xf_page_num f) in
  let? payload := reassemble_payload src (xc_usable_size c) (xf_page_num f) (xf_page f) pt.2 pt.1 true in
  Ok {| ir_payload := payload |}.

(** Every round of [advance] pops a frame, or reads a page and pushes one. *)
Definition index_fuel (c : IndexCursor) : nat :=
  Z.to_nat (2 * Z.max (MAX_PAGES_VISITED - xc_pages_visited c) 0 + zlen (xc_stack c) + 1).

Definition some_row (r : result BtreeError IndexRow) : result BtreeError (option IndexRow) :=
  let? row := r in Ok (Some row).

Fixpoint index_advance_loop (fuel : nat) (c : IndexCursor) : result BtreeError (option IndexRow) * IndexCursor :=
  match fuel with
  | O => (Err (BInternal "advance: out of fuel"), c)
  | S fuel =>
      match xc_stack c with
      | [] => (Ok None, c)
      | f :: rest =>
          let step := xf_step f in
          let stepped := xc_set_stack c (xf_at f (sat_add step 1) :: rest) in
          if xf_is_interior f then
            let total_steps := sat_mul (xf_num_cells f) 2 in
            if decide (total_steps < step) then index_advance_loop fuel (xc_set_stack c rest)
            else if decide (step = total_steps) then
              match index_push_page stepped (xf_rightmost f) with
              | (Err e, c) => (Err e, c)
              | (Ok _, c) => index_advance_loop fuel c
              end
            else if decide (step mod 2 = 0) then
              match index_interior_child f (step / 2) with
              | Err e => (Err e, stepped)
              | Ok child =>
                  match index_push_page stepped child with
                  | (Err e, c) => (Err e, c)
                  | (Ok _, c) => index_advance_loop fuel c
                  end
              end
            else (some_row (decode_interior_entry c f (sat_sub step 1 / 2)), stepped)
          else if decide (xf_num_cells f ≤ step) then index_advance_loop fuel (xc_set_stack c rest)
          else (some_row (decode_leaf_entry c f step), stepped)
      end
  end.

Definition index_advance (c : IndexCursor) : result BtreeError (option IndexRow) * IndexCursor :=
  index_advance_loop (index_fuel c) c.

Fixpoint advance_desc_loop (fuel : nat) (c : IndexCursor) : result BtreeError (option IndexRow) * IndexCursor :=
  match fuel with
  | O => (Err (BInternal "advance_desc: out of fuel"), c)
  | S fuel =>
      match xc_stack c with
      | [] => (Ok None, c)
      | f :: rest =>
          let step := xf_step f in
          if decide (step = 0) then advance_desc_loop fuel (xc_set_stack c rest)
          else
            let a := sat_sub step 1 in
            let stepped := xc_set_stack c (xf_at f a :: rest) in
            if xf_is_interior f then
              if decide (a mod 2 = 0) then
                let child_index := a / 2 in
                match (if decide (child_index = xf_num_cells f) then Ok (xf_rightmost f)
                       else index_interior_child f child_index) with
                | Err e => (Err e, stepped)
                | Ok child =>
                    match push_page_desc stepped child with
                    | (Err e, c) => (Err e, c)
                    | (Ok _, c) => advance_desc_loop fuel c
                    end
                end
              else (some_row (decode_interior_entry c f (sat_sub a 1 / 2)), stepped)
            else (some_row (decode_leaf_entry c f a), stepped)
      end
  end.

Definition advance_desc (c : IndexCursor) : result BtreeError (option IndexRow) * IndexCursor :=
  advance_desc_loop (index_fuel c) c.

Definition index_first (c : IndexCursor) : result BtreeError (option IndexRow) * IndexCursor :=
  match index_push_page (xc_at c [] 0) (xc_root_page c) with
  | (Err e, c) => (Err e, c)
  | (Ok _, c) => index_advance c
  end.

Definition index_next (c : IndexCursor) : result BtreeError (option IndexRow) * IndexCursor := index_advance c.

Definition index_last (c : IndexCursor) : result BtreeError (option IndexRow) * IndexCursor :=
  match push_page_desc (xc_at c [] 0) (xc_root_page c) with
  | (Err e, c) => (Err e, c)
  | (Ok _, c) => advance_desc c
  end.

Definition index_prev (c : IndexCursor) : result BtreeError (option IndexRow) * IndexCursor := advance_desc c.

(** ** Seek *)

(** [fuel] exceeds the width of the interval, which every round shrinks. *)
Fixpoint search_page_loop (fuel : nat) (c : IndexCursor) (f : IndexFrame) (target : list Value)
    (encoding : TextEncoding) (lo hi : Z) : result BtreeError Z :=
  match fuel with
  | O => Ok lo
  | S fuel =>
      if decide (lo < hi) then
        let mid := sat_add lo (sat_sub hi lo / 2) in
        let? row := (if xf_is_interior f then decode_interior_entry c f mid else decode_leaf_entry c f mid) in
        let? key := map_err InvalidKeyRecord (decode_record (payload_bytes (ir_payload row)) encoding) in
        if decide (compare_keys key target ≠ Lt)
        then search_page_loop fuel c f target encoding lo mid
        else search_page_loop fuel c f target encoding (sat_add mid 1) hi
      else Ok lo
  end.

Definition binary_search_page (c : IndexCursor) (f : IndexFrame) (target : list Value) (encoding : TextEncoding)
  : result BtreeError Z :=
  search_page_loop (S (Z.to_nat (xf_num_cells f))) c f target encoding 0 (xf_num_cells f).

(** Every round but the last reads a page.  An empty stack, on which
    indexing would panic, does not occur: a page was just pushed. *)
Fixpoint index_seek_loop (fuel : nat) (c : IndexCursor) (target : list Value) (encoding : TextEncoding)
  : result BtreeError () * IndexCursor :=
  match fuel, xc_stack c with
  | O, _ | _, [] => (Err (BInternal "seek: out of fuel"), c)
  | S fuel, f :: rest =>
      match binary_search_page c f target encoding with
      | Err e => (Err e, c)
      | Ok i =>
          if xf_is_interior f then
            let num_cells := xf_num_cells f in
            let step := sat_add (sat_mul (if decide (i < num_cells) then i else num_cells) 2) 1 in
            let c := xc_set_stack c (xf_at f step :: rest) in
            match (if decide (i < num_cells) then index_interior_child f i else Ok (xf_rightmost f)) with
            | Err e => (Err e, c)
            | Ok child =>
                match index_push_page c child with
                | (Err e, c) => (Err e, c)
                | (Ok _, c) => index_seek_loop fuel c target encoding
                end
            end
          else (Ok (), xc_set_stack c (xf_at f i :: rest))
      end
  end.

Definition index_seek (c : IndexCursor) (target : list Value) (encoding : TextEncoding)
  : result BtreeError (option IndexRow) * IndexCursor :=
  match index_push_page (xc_at c [] 0) (xc_root_page c) with
  | (Err e, c) => (Err e, c)
  | (Ok _, c) =>
      match index_seek_loop (S (Z.to_nat MAX_PAGES_VISITED)) c target encoding with
      | (Err e, c) => (Err e, c)
      | (Ok _, c) => index_advance c
      end
  end.
End source.

(** ** Frames

    A page is walked item by item: the entries of a leaf, or the children of
    an interior page with the entries between them.  The step counter of a
    frame is a position in that list, from the left going forwards and from
    the right going backwards. *)

Inductive item : Type :=
| Sub (t : itree)
| Ent (c : bytes).

Definition item_entries (x : item) : list bytes := match x with Sub t => ientries t | Ent c => [c] end.
Definition item_pages (x : item) : list Z := match x with Sub t => ipages t | Ent _ => [] end.
Definition items_entries (l : list item) : list bytes := concat (map item_entries l).
Definition items_pages (l : list item) : Z := zlen (concat (map item_pages l)).

Fixpoint node_items (kids : list (itree * bytes)) (rt : itree) : list item :=
  match kids with
  | [] => [Sub rt]
  | k :: kids => Sub k.1 :: Ent k.2 :: node_items kids rt
  end.

Definition items (t : itree) : list item :=
  match t with
  | ILeaf _ cells => map Ent cells
  | INode _ kids rt => node_items kids rt
  end.

Lemma items_entries_app l k : items_entries (l ++ k) = items_entries l ++ items_entries k.
Proof. unfold items_entries. by rewrite map_app, concat_app. Qed.
Lemma items_pages_app l k : items_pages (l ++ k) = items_pages l + items_pages k.
Proof. unfold items_pages. rewrite map_app, concat_app, length_app. lia. Qed.
Lemma items_pages_nonneg l : 0 ≤ items_pages l.
Proof. unfold items_pages. lia. Qed.

Lemma entries_items t : ientries t = items_entries (items t).
Proof.
  unfold items_entries. destruct t as [pn cells|pn kids rt]; cbn.
  - induction cells; cbn; congruence.
  - induction kids as [|k kids IH]; cbn; [by rewrite app_nil_r|]. rewrite <- !(assoc_L (++)), IH. done.
Qed.

Lemma pages_items t : zlen (ipages t) = 1 + items_pages (items t).
Proof.
  unfold items_pages. destruct t as [pn cells|pn kids rt]; cbn [ipages items].
  - induction cells; cbn in *; lia.
  - cbn [length]. induction kids as [|k kids IH]; cbn [node_items map concat item_pages] in *; [rewrite app_nil_r; cbn; lia|].
    rewrite <- (assoc_L (++)), length_app. rewrite (length_app (ipages k.1)). cbn [app]. lia.
Qed.

Lemma length_node_items kids rt : length (node_items kids rt) = (2 * length kids + 1)%nat.
Proof. induction kids; cbn [node_items length]; lia. Qed.

Lemma node_item_even kids rt i : (i ≤ length kids)%nat →
  node_items kids rt !! (2 * i)%nat = Some (Sub (from_option fst rt (kids !! i))).
Proof.
  revert i. induction kids as [|k kids IH]; intros [|i] Hi; cbn [length] in *; [done|lia|done|].
  replace (2 * S i)%nat with (S (S (2 * i))) by lia. cbn. apply IH. lia.
Qed.

Lemma node_item_odd kids rt i k : kids !! i = Some k → node_items kids rt !! (2 * i + 1)%nat = Some (Ent k.2).
Proof.
  revert i. induction kids as [|k0 kids IH]; intros [|i] Hk; cbn in Hk; [done..|by injection Hk as ->|].
  replace (2 * S i + 1)%nat with (S (S (2 * i + 1))) by lia. cbn. by apply IH.
Qed.

Section cursor.
Context `{PageSource Src} (src : Src) (usable : Z).
Implicit Types (c : IndexCursor) (f : IndexFrame) (t : itree).

Abbreviation at_ := (itree_at usable (source_read_page src)).
Abbreviation payload_of := (entry_payload usable (source_read_page src)).

(** Frame [f] is a page of [t], wherever its counter stands. *)
Definition frame_of f t : Prop :=
  let hs := page1_header_start (xf_page_num f) in
  match t with
  | ILeaf _ cells => xf_is_interior f = false ∧ xf_num_cells f = zlen cells ∧ xf_cell_ptr_base f = hs + 8 ∧
      index_leaf usable hs cells (xf_page f)
  | INode _ kids rt => xf_is_interior f = true ∧ xf_num_cells f = zlen kids ∧ xf_cell_ptr_base f = hs + 12 ∧
      xf_rightmost f = iroot rt ∧ index_node usable hs (routes kids) (iroot rt) (xf_page f) ∧
      Forall (λ k : itree * bytes, at_ k.1) kids ∧ at_ rt
  end.

Lemma frame_of_step f t s : frame_of f t → frame_of (xf_at f s) t.
Proof. by destruct t. Qed.

Lemma index_frame_ok t buf :
  at_ t → source_read_page src (iroot t) = Ok buf →
  ∃ f, index_frame buf (iroot t) = Ok f ∧ frame_of f t ∧ xf_step f = 0.
Proof.
  intros Ht Hrd. pose proof (header_start_bounds (iroot t)) as Hhs. unfold index_frame.
  destruct t as [pn cells|pn kids rt]; cbn [iroot itree_at] in *.
  - destruct Ht as (buf' & Hrd' & Hleaf). rewrite Hrd in Hrd'. injection Hrd' as <-.
    pose proof Hleaf as (Hty & _ & offs & cs & bl & Hlay).
    unfold read_page_type. rewrite Hty. cbn [ok_or]. rewrite decide_True by done.
    rewrite read_num_cells_eq by lia. rewrite (hc_num _ _ _ _ _ (ll_cells _ _ _ _ _ _ Hlay)). cbn [ok_or].
    eexists. split; [done|]. cbn [fst snd]. rewrite sat_add_page by lia. done.
  - destruct Ht as ((buf' & Hrd' & Hpage) & Hk & Hr). rewrite Hrd in Hrd'. injection Hrd' as <-.
    pose proof Hpage as (Hty & Hright & _ & _ & Hsz & _ & offs & Hc).
    unfold read_page_type. rewrite Hty. cbn [ok_or]. rewrite decide_False, decide_True by done.
    assert (Hl : page1_header_start pn + 12 ≤ zlen buf).
    { assert (HU : 400000 ≤ USIZE_MAX) by done.
      apply read_be_Some in Hright as (_ & Hle & _); [|lia]. lia. }
    unfold require_interior_header. rewrite sat_add_page, decide_False by lia.
    rewrite read_num_cells_eq by lia. rewrite (hc_num _ _ _ _ _ Hc), length_node_cells, length_routes. cbn [ok_or].
    unfold read_u32. rewrite !sat_add_page, Hright by lia. cbn [ok_or].
    eexists. split; [done|]. cbn [fst snd]. split; [|done]. split_and!; try done. by apply itree_at_kids.
Qed.

Lemma index_push_ok c t :
  at_ t → 0 ≤ xc_pages_visited c → xc_pages_visited c < MAX_PAGES_VISITED →
  ∃ f, index_push_page src c (iroot t) = (Ok (), xc_at c (f :: xc_stack c) (xc_pages_visited c + 1)) ∧
       frame_of f t ∧ xf_step f = 0.
Proof.
  intros Ht Hv0 Hv. unfold index_push_page, index_read_page, MAX_PAGES_VISITED in *.
  rewrite sat_add_page by lia. cbn [xc_at xc_pages_visited]. rewrite decide_False by lia.
  assert (∃ buf, source_read_page src (iroot t) = Ok buf) as [buf Hrd].
  { destruct t; cbn in Ht; [destruct Ht as (? & ? & ?)|destruct Ht as ((? & ? & ?) & ?)]; eauto. }
  destruct (index_frame_ok t buf Ht Hrd) as (f & Hf & Htf).
  unfold bt_read. rewrite Hrd. cbn [map_err]. rewrite Hf. by exists f.
Qed.

Lemma items_bound f t : frame_of f t → zlen (items t) ≤ 131073.
Proof.
  destruct t as [pn cells|pn kids rt]; cbn [frame_of items].
  - intros (_ & _ & _ & _ & _ & offs & cs & bl & Hl). pose proof (leaf_count _ _ _ _ _ _ Hl). rewrite length_map. lia.
  - intros (_ & _ & _ & _ & (_ & _ & Hn & _) & _). rewrite length_node_items. rewrite length_routes in Hn. lia.
Qed.

Lemma last_step_ok f t : frame_of f t → last_step f = zlen (items t).
Proof.
  intros Hf. pose proof (items_bound f t Hf) as Hb. unfold last_step.
  destruct t as [pn cells|pn kids rt]; cbn [frame_of items] in *.
  - destruct Hf as (-> & -> & _). by rewrite length_map.
  - destruct Hf as (-> & -> & _). rewrite length_node_items in *. rewrite sat_mul_page, sat_add_page by lia. lia.
Qed.

Lemma push_desc_ok c t :
  at_ t → 0 ≤ xc_pages_visited c → xc_pages_visited c < MAX_PAGES_VISITED →
  ∃ f, push_page_desc src c (iroot t) = (Ok (), xc_at c (f :: xc_stack c) (xc_pages_visited c + 1)) ∧
       frame_of f t ∧ xf_step f = zlen (items t).
Proof.
  intros Ht Hv0 Hv. unfold push_page_desc. destruct (index_push_ok c t Ht Hv0 Hv) as (f & -> & Hf & _).
  cbn [xc_at xc_stack]. eexists. split; [reflexivity|]. split; [by apply frame_of_step|]. by apply last_step_ok.
Qed.

(** Reading the cell of an interior page. *)
Lemma node_cell_read f kids rt pn j k :
  frame_of f (INode pn kids rt) → kids !! j = Some k →
  ∃ off, read_cell_pointer (xf_page f) (cell_ptr_offset (xf_cell_ptr_base f) (Z.of_nat j)) (xf_page_num f) (Z.of_nat j) = Ok off ∧
    0 ≤ off ≤ 65536 ∧ read_u32 (xf_page f) off (xf_page_num f) = Ok (iroot k.1) ∧ index_cell usable k.2 ∧
    get_range (xf_page f) (off + 4) (off + 4 + zlen k.2) = Some k.2.
Proof.
  intros (_ & _ & Hbase & _ & (_ & _ & Hn & _ & Hsz & Hw & offs & Hc) & _) Hk.
  pose proof (header_start_bounds (xf_page_num f)) as Hhs.
  assert (He : routes kids !! j = Some (iroot k.1, k.2)) by (unfold routes; by rewrite list_lookup_fmap, Hk).
  assert (Hcl : node_cells (routes kids) !! j = Some (build_index_interior_cell (iroot k.1) k.2))
    by (unfold node_cells; by rewrite list_lookup_fmap, He).
  destruct (hc_lookup _ _ _ _ _ _ _ Hc Hcl) as [off Ho].
  pose proof (hc_cell _ _ _ _ _ Hc j off _ Ho Hcl) as Hg.
  destruct (Forall_lookup_1 _ _ _ _ Hw He) as [Hu Hi]. cbn [fst snd] in *.
  destruct (node_cell_at _ _ _ _ (xf_page_num f) Hsz Hu Hg) as [Hr Hg'].
  exists off. rewrite Hbase, <- (sat_add_page _ 12) by lia.
  rewrite (hc_pointer _ _ _ _ _ _ _ (xf_page_num f) Hc) by (done || (rewrite length_node_cells; lia)).
  pose proof Hg as (? & ? & _)%get_range_Some. split_and!; try done; lia.
Qed.

Lemma child_ok f kids rt pn j k :
  frame_of f (INode pn kids rt) → kids !! j = Some k → index_interior_child f (Z.of_nat j) = Ok (iroot k.1).
Proof.
  intros Hf Hk. destruct (node_cell_read f kids rt pn j k Hf Hk) as (off & Hp & _ & Hr & _).
  unfold index_interior_child. by rewrite Hp.
Qed.

(** [r] is the entry [x], if [x] has a payload at all. *)
Definition yields (r : result BtreeError IndexRow) (x : bytes) : Prop :=
  ∀ bs, payload_of x bs → ∃ row, r = Ok row ∧ payload_bytes (ir_payload row) = bs.

Lemma interior_entry_ok c f kids rt pn j k :
  frame_of f (INode pn kids rt) → xc_usable_size c = usable → kids !! j = Some k →
  yields (decode_interior_entry src c f (Z.of_nat j)) k.2.
Proof.
  intros Hf Hu Hk bs Hbs. destruct (node_cell_read f kids rt pn j k Hf Hk) as (off & Hp & Ho & _ & Hi & Hg).
  destruct Hf as (_ & _ & _ & _ & (_ & _ & _ & _ & Hsz & _) & _).
  unfold decode_interior_entry. rewrite Hp, sat_add_page by lia.
  destruct (entry_read src usable _ _ _ _ (xf_page_num f) Hi Hsz Hg Hbs) as (n & p & -> & Hr & Hb).
  cbn [fst snd]. rewrite Hu, Hr. by exists {| ir_payload := p |}.
Qed.

Lemma leaf_entry_ok c f cells pn j x :
  frame_of f (ILeaf pn cells) → xc_usable_size c = usable → cells !! j = Some x →
  yields (decode_leaf_entry src c f (Z.of_nat j)) x.
Proof.
  intros (_ & _ & Hbase & _ & Hw & offs & cs & bl & Hlay) Hu Hx bs Hbs.
  pose proof (header_start_bounds (xf_page_num f)) as Hhs. pose proof (ll_cells _ _ _ _ _ _ Hlay) as Hc.
  pose proof (leaf_count _ _ _ _ _ _ Hlay) as [Hn _]. pose proof (ll_size _ _ _ _ _ _ Hlay) as Hsz.
  destruct (hc_lookup _ _ _ _ _ _ _ Hc Hx) as [off Ho].
  pose proof (hc_cell _ _ _ _ _ Hc j off x Ho Hx) as Hg. pose proof (Forall_lookup_1 _ _ _ _ Hw Hx) as Hi.
  unfold decode_leaf_entry. rewrite Hbase, <- (sat_add_page _ 8) by lia.
  rewrite (hc_pointer _ _ _ _ _ _ _ (xf_page_num f) Hc) by (done || lia).
  destruct (entry_read src usable _ _ _ _ (xf_page_num f) Hi Hsz Hg Hbs) as (n & p & -> & Hr & Hb).
  cbn [fst snd]. rewrite Hu, Hr. by exists {| ir_payload := p |}.
Qed.

(** ** Stacks *)

(** The frames still have the entries [rs] to yield, on [n] unread pages. *)
Inductive frames_fwd : list IndexFrame → list bytes → Z → Prop :=
| frames_fwd_nil : frames_fwd [] [] 0
| frames_fwd_cons f t (s : nat) st rs n :
    frame_of f t → xf_step f = Z.of_nat s → (s ≤ length (items t))%nat → frames_fwd st rs n →
    frames_fwd (f :: st) (items_entries (drop s (items t)) ++ rs) (items_pages (drop s (items t)) + n).

Inductive frames_rev : list IndexFrame → list bytes → Z → Prop :=
| frames_rev_nil : frames_rev [] [] 0
| frames_rev_cons f t (s : nat) st rs n :
    frame_of f t → xf_step f = Z.of_nat s → (s ≤ length (items t))%nat → frames_rev st rs n →
    frames_rev (f :: st) (rev (items_entries (take s (items t))) ++ rs) (items_pages (take s (items t)) + n).

Lemma frames_fwd_nonneg st rs n : frames_fwd st rs n → 0 ≤ n.
Proof. induction 1 as [|f t s]; [done|]. pose proof (items_pages_nonneg (drop s (items t))). lia. Qed.
Lemma frames_rev_nonneg st rs n : frames_rev st rs n → 0 ≤ n.
Proof. induction 1 as [|f t s]; [done|]. pose proof (items_pages_nonneg (take s (items t))). lia. Qed.

Lemma frames_fwd_push f t st rs n :
  frame_of f t → xf_step f = 0 → frames_fwd st rs n →
  frames_fwd (f :: st) (ientries t ++ rs) (zlen (ipages t) - 1 + n).
Proof.
  intros Hf Hs Hst. rewrite entries_items, pages_items. pose proof (frames_fwd_cons f t 0 st rs n Hf Hs) as Hc.
  rewrite drop_0 in Hc. replace (1 + items_pages (items t) - 1) with (items_pages (items t)) by lia. apply Hc; [lia|done].
Qed.

Lemma frames_rev_push f t st rs n :
  frame_of f t → xf_step f = zlen (items t) → frames_rev st rs n →
  frames_rev (f :: st) (rev (ientries t) ++ rs) (zlen (ipages t) - 1 + n).
Proof.
  intros Hf Hs Hst. rewrite entries_items, pages_items. pose proof (frames_rev_cons f t _ st rs n Hf Hs) as Hc.
  rewrite firstn_all in Hc. replace (1 + items_pages (items t) - 1) with (items_pages (items t)) by lia. apply Hc; [lia|done].
Qed.

(** One move: the first of the entries left, or exhaustion. *)
Definition moves (frames : list IndexFrame → list bytes → Z → Prop) (res : result BtreeError (option IndexRow) * IndexCursor)
    (rs : list bytes) (total : Z) : Prop :=
  let '(r, c') := res in
  xc_usable_size c' = usable ∧
  match rs with
  | [] => r = Ok None ∧ xc_stack c' = []
  | x :: rs' => (∃ r0, r = some_row r0 ∧ yields r0 x) ∧
      ∃ n', frames (xc_stack c') rs' n' ∧ 0 ≤ xc_pages_visited c' ∧ xc_pages_visited c' + n' ≤ total
  end.

Lemma items_drop_S {t} {s : nat} {x} : items t !! s = Some x →
  items_entries (drop s (items t)) = item_entries x ++ items_entries (drop (S s) (items t)) ∧
  items_pages (drop s (items t)) = zlen (item_pages x) + items_pages (drop (S s) (items t)).
Proof.
  intros Hx. rewrite (drop_S _ _ _ Hx). split; [done|]. unfold items_pages. cbn. rewrite length_app. lia.
Qed.

Lemma items_take_S {t} {s : nat} {x} : items t !! s = Some x →
  rev (items_entries (take (S s) (items t))) = rev (item_entries x) ++ rev (items_entries (take s (items t))) ∧
  items_pages (take (S s) (items t)) = zlen (item_pages x) + items_pages (take s (items t)).
Proof.
  intros Hx. rewrite (take_S_r _ _ _ Hx), items_entries_app, items_pages_app. unfold items_entries, items_pages. cbn.
  rewrite !app_nil_r. split; [by rewrite rev_app_distr|lia].
Qed.

Lemma items_pos t (s : nat) x : items t !! s = Some x → (s < length (items t))%nat.
Proof. apply lookup_lt_Some. Qed.

(** One round of the loop, item by item. *)
Lemma advance_round fuel c f t (s : nat) rest :
  xc_stack c = f :: rest → xc_usable_size c = usable → frame_of f t → xf_step f = Z.of_nat s →
  (s ≤ length (items t))%nat →
  let stepped := xc_set_stack c (xf_at f (Z.of_nat (S s)) :: rest) in
  match items t !! s with
  | None => index_advance_loop src (S fuel) c = index_advance_loop src fuel (xc_set_stack c rest)
  | Some (Sub t') => at_ t' ∧ index_advance_loop src (S fuel) c =
      match index_push_page src stepped (iroot t') with
      | (Err e, c) => (Err e, c)
      | (Ok _, c) => index_advance_loop src fuel c
      end
  | Some (Ent x) => ∃ r, yields r x ∧ index_advance_loop src (S fuel) c = (some_row r, stepped)
  end.
Proof.
  intros Hst Hu Hf Hs Hle stepped. pose proof (items_bound f t Hf) as Hb. cbn [index_advance_loop]. rewrite Hst, Hs.
  assert (Hstep : xc_set_stack c (xf_at f (sat_add (Z.of_nat s) 1) :: rest) = stepped).
  { unfold stepped. do 3 f_equal. rewrite sat_add_page by lia. lia. }
  rewrite Hstep. clear Hstep. destruct t as [pn cells|pn kids rt]; cbn [items] in *.
  - pose proof Hf as (-> & -> & _). rewrite length_map in *. rewrite list_lookup_fmap.
    destruct (cells !! s) as [x|] eqn:Hx; cbn.
    + pose proof (lookup_lt_Some _ _ _ Hx). rewrite decide_False by lia. eexists. split; [|done]. by eapply leaf_entry_ok.
    + apply lookup_ge_None in Hx. by rewrite decide_True by lia.
  - pose proof Hf as (-> & -> & _ & -> & _ & Hk & Hr). rewrite length_node_items in *. rewrite sat_mul_page by lia.
    destruct (decide (s = 2 * length kids + 1)%nat) as [->|Hne].
    { rewrite lookup_ge_None_2 by (rewrite length_node_items; lia). by rewrite decide_True by lia. }
    rewrite decide_False by lia. destruct (decide (s = 2 * length kids)%nat) as [->|Hne2].
    { rewrite node_item_even by lia. rewrite lookup_ge_None_2 by lia. cbn [from_option]. rewrite decide_True by lia. done. }
    rewrite decide_False by lia. destruct (Nat.Even_or_Odd s) as [[i ->]|[i ->]].
    + destruct (lookup_lt_is_Some_2 kids i ltac:(lia)) as [k Hki]. rewrite node_item_even by lia. rewrite Hki.
      cbn [from_option]. replace (Z.of_nat (2 * i)) with (Z.of_nat i * 2) by lia.
      rewrite Z.mod_mul, Z.div_mul, decide_True by lia. split; [exact (Forall_lookup_1 _ _ _ _ Hk Hki)|].
      by rewrite (child_ok f kids rt pn i k Hf Hki).
    + destruct (lookup_lt_is_Some_2 kids i ltac:(lia)) as [k Hki]. rewrite (node_item_odd _ _ _ _ Hki).
      rewrite decide_False by (rewrite Nat2Z.inj_add, Nat2Z.inj_mul, Z.add_comm, Z.mul_comm, Z.mod_add by lia; done).
      rewrite sat_sub_ge by lia. replace (Z.of_nat (2 * i + 1) - 1) with (Z.of_nat i * 2) by lia. rewrite Z.div_mul by lia.
      eexists. split; [|done]. by eapply interior_entry_ok.
Qed.

Lemma advance_ok fuel c rs n total :
  frames_fwd (xc_stack c) rs n → xc_usable_size c = usable → 0 ≤ xc_pages_visited c →
  xc_pages_visited c + n ≤ total → total ≤ MAX_PAGES_VISITED → 2 * n + zlen (xc_stack c) < Z.of_nat fuel →
  moves frames_fwd (index_advance_loop src fuel c) rs total.
Proof.
  revert c rs n. induction fuel as [|fuel IH]; intros c rs n Hst Hu Hv0 Hv Ht Hfuel.
  { pose proof (frames_fwd_nonneg _ _ _ Hst). lia. }
  inversion Hst as [He|f t s st rs0 n0 Hf Hs Hle Hst0 He]; subst.
  { cbn. by rewrite <- He. }
  pose proof (advance_round fuel c f t s st (eq_sym He) Hu Hf Hs Hle) as Hround. cbv zeta in Hround.
  pose proof (frames_fwd_nonneg _ _ _ Hst0) as Hn0. rewrite <- He in Hfuel. cbn [length] in Hfuel.
  destruct (items t !! s) as [[t'|x]|] eqn:Hx.
  - destruct Hround as [Hat ->]. destruct (items_drop_S Hx) as [-> Hp]. rewrite Hp in *. cbn [item_entries item_pages] in *.
    pose proof (ipages_pos t'). pose proof (items_pages_nonneg (drop (S s) (items t))).
    set (c1 := xc_set_stack _ _). destruct (index_push_ok c1 t' Hat) as (f' & -> & Hf' & Hs'); [cbn; lia..|].
    rewrite <- (assoc_L (++)).
    apply (IH _ _ (zlen (ipages t') - 1 + (items_pages (drop (S s) (items t)) + n0))); [|done|cbn; lia..].
    apply frames_fwd_push; [done..|]. apply frames_fwd_cons; [by apply frame_of_step|done|by eapply items_pos|done].
  - destruct Hround as (r & Hy & ->). destruct (items_drop_S Hx) as [-> Hp]. rewrite Hp in *. cbn [item_entries item_pages length app] in *.
    split; [done|]. split; [by exists r|]. exists (items_pages (drop (S s) (items t)) + n0). split; [|cbn; lia].
    apply frames_fwd_cons; [by apply frame_of_step|done|by eapply items_pos|done].
  - rewrite Hround. apply lookup_ge_None in Hx. rewrite drop_ge in * by lia.
    change (items_pages []) with 0 in *. apply (IH _ _ n0); try done; cbn; lia.
Qed.

Lemma desc_round fuel c f t (s : nat) rest :
  xc_stack c = f :: rest → xc_usable_size c = usable → frame_of f t → xf_step f = Z.of_nat s →
  (s ≤ length (items t))%nat →
  match s with
  | O => advance_desc_loop src (S fuel) c = advance_desc_loop src fuel (xc_set_stack c rest)
  | S s =>
      let stepped := xc_set_stack c (xf_at f (Z.of_nat s) :: rest) in
      match items t !! s with
      | None => False
      | Some (Sub t') => at_ t' ∧ advance_desc_loop src (S fuel) c =
          match push_page_desc src stepped (iroot t') with
          | (Err e, c) => (Err e, c)
          | (Ok _, c) => advance_desc_loop src fuel c
          end
      | Some (Ent x) => ∃ r, yields r x ∧ advance_desc_loop src (S fuel) c = (some_row r, stepped)
      end
  end.
Proof.
  intros Hst Hu Hf Hs Hle. pose proof (items_bound f t Hf) as Hb. cbn [advance_desc_loop]. rewrite Hst, Hs.
  destruct s as [|s]; [done|]. rewrite decide_False by lia.
  replace (sat_sub (Z.of_nat (S s)) 1) with (Z.of_nat s) by (rewrite sat_sub_ge by lia; lia).
  set (stepped := xc_set_stack c (xf_at f (Z.of_nat s) :: rest)).
  destruct t as [pn cells|pn kids rt]; cbn [items] in *.
  - pose proof Hf as (-> & _). rewrite length_map in *. rewrite list_lookup_fmap.
    destruct (lookup_lt_is_Some_2 cells s ltac:(lia)) as [x Hx]. rewrite Hx. cbn.
    eexists. split; [|done]. by eapply leaf_entry_ok.
  - pose proof Hf as (-> & -> & _ & -> & _ & Hk & Hr). rewrite length_node_items in *.
    destruct (Nat.Even_or_Odd s) as [[i ->]|[i ->]].
    + rewrite node_item_even by lia. replace (Z.of_nat (2 * i)) with (Z.of_nat i * 2) by lia.
      rewrite Z.mod_mul, Z.div_mul, decide_True by lia. destruct (kids !! i) as [k|] eqn:Hki; cbn [from_option].
      * pose proof (lookup_lt_Some _ _ _ Hki). split; [exact (Forall_lookup_1 _ _ _ _ Hk Hki)|].
        rewrite decide_False by lia. by rewrite (child_ok f kids rt pn i k Hf Hki).
      * apply lookup_ge_None in Hki. split; [done|]. by rewrite decide_True by lia.
    + destruct (lookup_lt_is_Some_2 kids i ltac:(lia)) as [k Hki]. rewrite (node_item_odd _ _ _ _ Hki).
      rewrite decide_False by (rewrite Nat2Z.inj_add, Nat2Z.inj_mul, Z.add_comm, Z.mul_comm, Z.mod_add by lia; done).
      rewrite sat_sub_ge by lia. replace (Z.of_nat (2 * i + 1) - 1) with (Z.of_nat i * 2) by lia. rewrite Z.div_mul by lia.
      eexists. split; [|done]. by eapply interior_entry_ok.
Qed.

Lemma desc_ok fuel c rs n total :
  frames_rev (xc_stack c) rs n → xc_usable_size c = usable → 0 ≤ xc_pages_visited c →
  xc_pages_visited c + n ≤ total → total ≤ MAX_PAGES_VISITED → 2 * n + zlen (xc_stack c) < Z.of_nat fuel →
  moves frames_rev (advance_desc_loop src fuel c) rs total.
Proof.
  revert c rs n. induction fuel as [|fuel IH]; intros c rs n Hst Hu Hv0 Hv Ht Hfuel.
  { pose proof (frames_rev_nonneg _ _ _ Hst). lia. }
  inversion Hst as [He|f t s st rs0 n0 Hf Hs Hle Hst0 He]; subst.
  { cbn. by rewrite <- He. }
  pose proof (desc_round fuel c f t s st (eq_sym He) Hu Hf Hs Hle) as Hround. cbv zeta in Hround.
  pose proof (frames_rev_nonneg _ _ _ Hst0) as Hn0. rewrite <- He in Hfuel. cbn [length] in Hfuel.
  destruct s as [|s].
  { rewrite Hround, take_0 in *. change (items_pages []) with 0 in *. apply (IH _ _ n0); try done; cbn; lia. }
  destruct (items t !! s) as [[t'|x]|] eqn:Hx; [| |done].
  - destruct Hround as [Hat ->]. destruct (items_take_S Hx) as [-> Hp]. rewrite Hp in *. cbn [item_entries item_pages] in *.
    pose proof (ipages_pos t'). pose proof (items_pages_nonneg (take s (items t))).
    set (c1 := xc_set_stack _ _). destruct (push_desc_ok c1 t' Hat) as (f' & -> & Hf' & Hs'); [cbn; lia..|].
    rewrite <- (assoc_L (++)).
    apply (IH _ _ (zlen (ipages t') - 1 + (items_pages (take s (items t)) + n0))); [|done|cbn; lia..].
    apply frames_rev_push; [done..|]. apply frames_rev_cons; [by apply frame_of_step|done|lia|done].
  - destruct Hround as (r & Hy & ->). destruct (items_take_S Hx) as [-> Hp]. rewrite Hp in *. cbn [item_entries item_pages length app rev] in *.
    split; [done|]. split; [by exists r|]. exists (items_pages (take s (items t)) + n0). split; [|cbn; lia].
    apply frames_rev_cons; [by apply frame_of_step|done|lia|done].
Qed.

(** ** Scans *)

(** The payloads [step] returns until it is exhausted. *)
Fixpoint index_drain (step : IndexCursor → result BtreeError (option IndexRow) * IndexCursor) (fuel : nat)
    (rc : result BtreeError (option IndexRow) * IndexCursor) : result BtreeError (list bytes) :=
  match fuel with
  | O => Err (BInternal "drain: out of fuel")
  | S fuel =>
      let? o := rc.1 in
      match o with
      | None => Ok []
      | Some row =>
          let? rest := index_drain step fuel (step rc.2) in
          Ok (payload_bytes (ir_payload row) :: rest)
      end
  end.

Lemma index_fuel_enough c n :
  0 ≤ xc_pages_visited c → xc_pages_visited c + n ≤ MAX_PAGES_VISITED →
  2 * n + zlen (xc_stack c) < Z.of_nat (index_fuel c).
Proof. intros. unfold index_fuel. lia. Qed.

Lemma drain_ok frames step res rs bss :
  (∀ c rs n, frames (xc_stack c) rs n → xc_usable_size c = usable → 0 ≤ xc_pages_visited c →
     xc_pages_visited c + n ≤ MAX_PAGES_VISITED → moves frames (step c) rs MAX_PAGES_VISITED) →
  moves frames res rs MAX_PAGES_VISITED → Forall2 payload_of rs bss →
  index_drain step (S (length rs)) res = Ok bss.
Proof.
  intros Hstep Hres Hp. revert res Hres. induction Hp as [|x bs rs bss Hx Hp IH]; intros [r c] [Hu Hm].
  - destruct Hm as (-> & _). done.
  - destruct Hm as ((r0 & -> & Hy) & n & Hst & Hv0 & Hv). destruct (Hy bs Hx) as (row & -> & Hb).
    cbn [length]. change (index_drain step (S (S (length rs))) (some_row (Ok row), c)) with
      (let? rest := index_drain step (S (length rs)) (step c) in Ok (payload_bytes (ir_payload row) :: rest)).
    rewrite (IH (step c)); [by rewrite Hb|by eapply Hstep].
Qed.

Lemma index_advance_ok c rs n :
  frames_fwd (xc_stack c) rs n → xc_usable_size c = usable → 0 ≤ xc_pages_visited c →
  xc_pages_visited c + n ≤ MAX_PAGES_VISITED → moves frames_fwd (index_advance src c) rs MAX_PAGES_VISITED.
Proof. intros. apply (advance_ok _ _ _ n); try done. by apply index_fuel_enough. Qed.

Lemma advance_desc_ok c rs n :
  frames_rev (xc_stack c) rs n → xc_usable_size c = usable → 0 ≤ xc_pages_visited c →
  xc_pages_visited c + n ≤ MAX_PAGES_VISITED → moves frames_rev (advance_desc src c) rs MAX_PAGES_VISITED.
Proof. intros. apply (desc_ok _ _ _ n); try done. by apply index_fuel_enough. Qed.

Lemma index_first_ok c t :
  at_ t → zlen (ipages t) ≤ MAX_PAGES_VISITED → xc_usable_size c = usable → xc_root_page c = iroot t →
  moves frames_fwd (index_first src c) (ientries t) MAX_PAGES_VISITED.
Proof.
  intros Ht Hn Hu Hroot. unfold index_first. rewrite Hroot. pose proof (ipages_pos t).
  destruct (index_push_ok (xc_at c [] 0) t Ht) as (f & -> & Hf & Hs); [done|done|].
  rewrite <- (app_nil_r (ientries t)).
  apply (index_advance_ok _ _ (zlen (ipages t) - 1 + 0)); [|done|cbn; lia..]. apply frames_fwd_push; [done..|constructor].
Qed.

Lemma index_last_ok c t :
  at_ t → zlen (ipages t) ≤ MAX_PAGES_VISITED → xc_usable_size c = usable → xc_root_page c = iroot t →
  moves frames_rev (index_last src c) (rev (ientries t)) MAX_PAGES_VISITED.
Proof.
  intros Ht Hn Hu Hroot. unfold index_last. rewrite Hroot. pose proof (ipages_pos t).
  destruct (push_desc_ok (xc_at c [] 0) t Ht) as (f & -> & Hf & Hs); [done|done|].
  rewrite <- (app_nil_r (rev (ientries t))).
  apply (advance_desc_ok _ _ (zlen (ipages t) - 1 + 0)); [|done|cbn; lia..]. apply frames_rev_push; [done..|constructor].
Qed.

(** ** Seek *)

Section seek.
Context (target : list Value) (enc : TextEncoding) (below : bytes → bool).

(** [below] tells of every entry whether its key is less than the target,
    and an entry after one that is not less is not less either. *)
Definition judged (x : bytes) : Prop :=
  ∃ key, entry_key usable (source_read_page src) enc x key ∧ (below x = true ↔ compare_keys key target = Lt).

Definition monotone (l : list bytes) : Prop := StronglySorted (λ x y, below x = false → below y = false) l.

Definition own_entries t : list bytes := match t with ILeaf _ cells => cells | INode _ kids _ => map snd kids end.

Lemma own_entry_ok c f t j x :
  frame_of f t → xc_usable_size c = usable → own_entries t !! j = Some x →
  yields (if xf_is_interior f then decode_interior_entry src c f (Z.of_nat j)
          else decode_leaf_entry src c f (Z.of_nat j)) x.
Proof.
  intros Hf Hu Hx. destruct t as [pn cells|pn kids rt]; cbn [own_entries] in Hx.
  - pose proof Hf as (-> & _). by eapply leaf_entry_ok.
  - pose proof Hf as (-> & _). rewrite list_lookup_fmap in Hx. apply fmap_Some in Hx as (k & Hk & ->).
    by eapply interior_entry_ok.
Qed.

Lemma frame_count f t : frame_of f t → xf_num_cells f = zlen (own_entries t) ∧ zlen (own_entries t) ≤ 65536.
Proof.
  destruct t as [pn cells|pn kids rt]; cbn [frame_of own_entries].
  - intros (_ & -> & _ & _ & _ & offs & cs & bl & Hl). pose proof (leaf_count _ _ _ _ _ _ Hl). split; [done|lia].
  - intros (_ & -> & _ & _ & (_ & _ & Hn & _) & _). rewrite length_map. rewrite length_routes in Hn. split; [done|lia].
Qed.

Lemma monotone_lookup l i j x y :
  monotone l → (i ≤ j)%nat → l !! i = Some x → l !! j = Some y → below x = false → below y = false.
Proof.
  intros Hm Hij Hx Hy. destruct (decide (i = j)) as [->|]; [congruence|].
  rewrite <- (take_drop j l) in Hm. unfold monotone in Hm. rewrite StronglySorted_app in Hm. destruct Hm as [Hm _].
  apply Hm.
  - apply (list_elem_of_lookup_2 _ i). by rewrite lookup_take_lt by lia.
  - apply (list_elem_of_lookup_2 _ 0). by rewrite lookup_drop, Nat.add_0_r.
Qed.

Lemma search_page_ok fuel c f t (lo hi : nat) :
  frame_of f t → xc_usable_size c = usable → Forall judged (own_entries t) → monotone (own_entries t) →
  (lo ≤ hi ≤ length (own_entries t))%nat → (hi - lo < fuel)%nat →
  Forall (λ x, below x = true) (take lo (own_entries t)) → Forall (λ x, below x = false) (drop hi (own_entries t)) →
  ∃ i : nat, search_page_loop src fuel c f target enc (Z.of_nat lo) (Z.of_nat hi) = Ok (Z.of_nat i) ∧
    (i ≤ length (own_entries t))%nat ∧
    Forall (λ x, below x = true) (take i (own_entries t)) ∧ Forall (λ x, below x = false) (drop i (own_entries t)).
Proof.
  intros Hf Hu Hj Hm. pose proof (frame_count f t Hf) as [_ Hcnt].
  revert lo hi. induction fuel as [|fuel IH]; intros lo hi Hle Hfuel Hlo Hhi; [lia|].
  cbn [search_page_loop]. destruct (decide (lo < hi)%nat) as [Hlt|Hge].
  2:{ rewrite decide_False by lia. exists lo. assert (lo = hi) as -> by lia. split_and!; [done|lia|done|done]. }
  rewrite decide_True by lia.
  destruct (midpoint lo hi Hlt ltac:(lia)) as [-> Hmid]. set (mid := (lo + (hi - lo) / 2)%nat) in *.
  destruct (lookup_lt_is_Some_2 (own_entries t) mid ltac:(lia)) as [x Hx].
  destruct (Forall_lookup_1 _ _ _ _ Hj Hx) as (key & (bs & Hbs & Hkey) & Hbelow).
  destruct (own_entry_ok c f t mid x Hf Hu Hx bs Hbs) as (row & -> & Hb). rewrite Hb, Hkey. cbn [map_err].
  destruct (decide (compare_keys key target = Lt)) as [Hlt'|Hge'].
  - rewrite decide_False by (by intros ?). rewrite sat_add_page by lia.
    replace (Z.of_nat mid + 1) with (Z.of_nat (S mid)) by lia. apply IH; [lia|lia| |done].
    apply Forall_lookup_2. intros j y Hy. destruct (decide (j < S mid)%nat) as [Hj'|]; [|by rewrite lookup_take_ge in Hy by lia].
    rewrite lookup_take_lt in Hy by lia. destruct (below y) eqn:Ey; [done|].
    assert (below x = false); [|rewrite (proj2 Hbelow Hlt') in *; done].
    eapply (monotone_lookup _ j mid); [done|lia|done..].
  - rewrite decide_True by done. apply IH; [lia|lia|done|].
    assert (Ex : below x = false) by (destruct (below x) eqn:E; [by destruct Hge'; apply Hbelow|done]).
    apply Forall_lookup_2. intros j y Hy. rewrite lookup_drop in Hy. eapply (monotone_lookup _ mid (mid + j)); [done|lia|done..].
Qed.

(** A monotone list is cut by an entry on either side. *)
Lemma below_before l x : monotone (l ++ [x]) → below x = true → Forall (λ y, below y = true) l.
Proof.
  intros Hm Hx. apply Forall_forall. intros y Hy. destruct (below y) eqn:E; [done|].
  rewrite <- Hx. symmetry. unfold monotone in Hm. rewrite StronglySorted_app in Hm. apply (proj1 Hm y x Hy); [by left|done].
Qed.

Lemma not_below_after l x : monotone (x :: l) → below x = false → Forall (λ y, below y = false) l.
Proof.
  intros Hm Hx. apply Forall_forall. intros y Hy. inversion Hm as [|? ? _ Hall]; subst.
  rewrite Forall_forall in Hall. by apply Hall.
Qed.

Abbreviation reached l := (filter (λ x, below x = false) l).

Lemma reached_below l : Forall (λ x, below x = true) l → reached l = [].
Proof. induction 1 as [|x l Hx _ IH]; [done|]. rewrite filter_cons_False; [done|congruence]. Qed.
Lemma reached_all l : Forall (λ x, below x = false) l → reached l = l.
Proof. induction 1 as [|x l Hx _ IH]; [done|]. rewrite filter_cons_True; [by rewrite IH|done]. Qed.

(** The entries of a node around child [i]. *)
Lemma node_split pn kids rt (i : nat) :
  (i ≤ length kids)%nat → let t := INode pn kids rt in
  ientries t = items_entries (take (2 * i) (items t)) ++ ientries (from_option fst rt (kids !! i)) ++
    items_entries (drop (S (2 * i)) (items t)).
Proof.
  intros Hi t. rewrite (entries_items t). rewrite <- (take_drop (2 * i) (items t)) at 1.
  rewrite items_entries_app, (drop_S (items t) _ (2 * i) (node_item_even kids rt i Hi)). done.
Qed.

Lemma node_before pn kids rt (i : nat) :
  (i ≤ length kids)%nat → let t := INode pn kids rt in
  monotone (ientries t) → Forall (λ x, below x = true) (take i (map snd kids)) →
  Forall (λ x, below x = true) (items_entries (take (2 * i) (items t))).
Proof.
  intros Hi t Hm Hb. destruct i as [|i]; [constructor|].
  destruct (lookup_lt_is_Some_2 kids i ltac:(lia)) as [k Hk].
  change (items t) with (node_items kids rt) in *. replace (2 * S i)%nat with (S (2 * i + 1)) by lia.
  rewrite (take_S_r _ _ _ (node_item_odd kids rt i k Hk)), items_entries_app. cbn [items_entries map concat item_entries app].
  assert (Hkb : below k.2 = true).
  { apply (Forall_lookup_1 _ _ i _ Hb). rewrite lookup_take_lt by lia. by rewrite list_lookup_fmap, Hk. }
  apply Forall_app. split; [|by repeat constructor]. eapply below_before; [|done].
  pose proof (node_split pn kids rt (S i) Hi) as Hsp. cbv zeta in Hsp. fold t in Hsp. rewrite Hsp in Hm.
  change (items t) with (node_items kids rt) in *. apply StronglySorted_app_1_l in Hm. replace (2 * S i)%nat with (S (2 * i + 1)) in Hm by lia.
  by rewrite (take_S_r _ _ _ (node_item_odd kids rt i k Hk)), items_entries_app in Hm.
Qed.

Lemma node_after pn kids rt (i : nat) :
  (i ≤ length kids)%nat → let t := INode pn kids rt in
  monotone (ientries t) → Forall (λ x, below x = false) (drop i (map snd kids)) →
  Forall (λ x, below x = false) (items_entries (drop (S (2 * i)) (items t))).
Proof.
  intros Hi t Hm Hb. destruct (decide (i = length kids)) as [->|Hne].
  { rewrite drop_ge; [constructor|]. cbn [items t]. rewrite length_node_items. lia. }
  destruct (lookup_lt_is_Some_2 kids i ltac:(lia)) as [k Hk].
  pose proof (node_item_odd kids rt i k Hk) as Hodd. replace (2 * i + 1)%nat with (S (2 * i)) in Hodd by lia.
  assert (Hkb : below k.2 = false).
  { apply (Forall_lookup_1 _ _ 0%nat _ Hb). rewrite lookup_drop, Nat.add_0_r. by rewrite list_lookup_fmap, Hk. }
  pose proof (node_split pn kids rt i Hi) as Hsp. cbv zeta in Hsp. fold t in Hsp. rewrite Hsp in Hm.
  do 2 apply StronglySorted_app_1_r in Hm. change (items t) with (node_items kids rt) in *. rewrite (drop_S _ _ _ Hodd) in *. cbn [items_entries map concat item_entries app] in *.
  constructor; [done|]. by eapply not_below_after.
Qed.

Lemma index_seek_loop_ok fuel c t f st rs n :
  xc_stack c = f :: st → frame_of f t → xc_usable_size c = usable → frames_fwd st rs n →
  Forall judged (ientries t) → monotone (ientries t) → 0 ≤ xc_pages_visited c →
  xc_pages_visited c + (zlen (ipages t) - 1 + n) ≤ MAX_PAGES_VISITED → zlen (ipages t) ≤ Z.of_nat fuel →
  ∃ c' n', index_seek_loop src fuel c target enc = (Ok (), c') ∧ xc_usable_size c' = usable ∧
    frames_fwd (xc_stack c') (reached (ientries t) ++ rs) n' ∧
    0 ≤ xc_pages_visited c' ∧ xc_pages_visited c' + n' ≤ MAX_PAGES_VISITED.
Proof.
  revert c t f st rs n. induction fuel as [|fuel IH]; intros c t f st rs n Hst Hf Hu Hfr Hj Hm Hv0 Hv Hfuel.
  { pose proof (ipages_pos t). lia. }
  cbn [index_seek_loop]. rewrite Hst. unfold binary_search_page.
  destruct (frame_count f t Hf) as [Hcnt Hc6]. rewrite Hcnt. change 0 with (Z.of_nat 0) at 1.
  assert (Hsub : own_entries t `sublist_of` ientries t).
  { destruct t as [pn cells|pn kids rt]; [done|]. cbn. apply sublist_inserts_r.
    clear. induction kids as [|k kids IH]; cbn; [done|]. rewrite <- (assoc_L (++)). by apply sublist_inserts_l, sublist_skip. }
  destruct (search_page_ok (S (Z.to_nat (zlen (own_entries t)))) c f t 0 (length (own_entries t))) as (i & -> & Hi & Hb & Ha);
    [done|done|by eapply Forall_sublist_of| |lia|lia|constructor|by rewrite drop_ge|].
  { clear -Hsub Hm. unfold monotone in *. induction Hsub as [|x l k Hs IH|x l k Hs IH]; [constructor| |].
    - apply StronglySorted_inv in Hm as [Hm Hx]. constructor; [by apply IH|]. by eapply Forall_sublist_of.
    - apply StronglySorted_inv in Hm as [Hm Hx]. by apply IH. }
  pose proof (frames_fwd_nonneg _ _ _ Hfr) as Hn0.
  destruct t as [pn cells|pn kids rt]; pose proof Hf as Hf0.
  - destruct Hf0 as (-> & _). eexists _, (items_pages (drop i (items (ILeaf pn cells))) + n).
    split_and!; [reflexivity|done| |done|].
    + cbn [ientries own_entries] in *.
      replace (reached cells) with (items_entries (drop i (items (ILeaf pn cells)))).
      * apply frames_fwd_cons; [by apply frame_of_step|done|cbn; rewrite length_map; lia|done].
      * rewrite <- (take_drop i cells) at 2. rewrite filter_app, reached_below, reached_all by done.
        cbn [items]. rewrite skipn_map. symmetry. exact (entries_items (ILeaf pn (drop i cells))).
    + cbn [xc_set_stack xc_at xc_pages_visited]. rewrite pages_items in Hv.
      pose proof (items_pages_app (take i (items (ILeaf pn cells))) (drop i (items (ILeaf pn cells)))) as Hp.
      rewrite take_drop in Hp. pose proof (items_pages_nonneg (take i (items (ILeaf pn cells)))). lia.
  - destruct Hf0 as (-> & _ & _ & Hright & _ & Hk & Hr). cbn [own_entries] in *. rewrite length_map in *.
    set (t := INode pn kids rt) in *. set (t' := from_option fst rt (kids !! i)).
    pose proof (node_split pn kids rt i Hi) as Hsp. cbv zeta in Hsp. fold t t' in Hsp.
    pose proof (node_before pn kids rt i Hi Hm Hb) as Hbef. pose proof (node_after pn kids rt i Hi Hm Ha) as Haft. fold t in Hbef, Haft.
    assert (Hstep : sat_add (sat_mul (if decide (Z.of_nat i < zlen kids) then Z.of_nat i else zlen kids) 2) 1 = Z.of_nat (S (2 * i))).
    { case_decide; rewrite sat_mul_page, sat_add_page by lia; lia. }
    rewrite Hstep. clear Hstep. set (c1 := xc_set_stack _ _).
    assert (Hchild : (if decide (Z.of_nat i < zlen kids) then index_interior_child f (Z.of_nat i) else Ok (xf_rightmost f)) = Ok (iroot t') ∧ at_ t').
    { unfold t'. destruct (kids !! i) as [k|] eqn:Hki; cbn [from_option].
      - pose proof (lookup_lt_Some _ _ _ Hki). rewrite decide_True by lia. rewrite (child_ok f kids rt pn i k Hf Hki).
        split; [done|exact (Forall_lookup_1 _ _ _ _ Hk Hki)].
      - apply lookup_ge_None in Hki. rewrite decide_False by lia. by rewrite Hright. }
    destruct Hchild as [-> Hat].
    destruct (items_drop_S (t := t) (node_item_even kids rt i Hi)) as [_ Hpg]. fold t' in Hpg. cbn [item_pages] in Hpg.
    pose proof (items_pages_app (take (2 * i) (items t)) (drop (2 * i) (items t))) as Hp. rewrite take_drop in Hp.
    pose proof (items_pages_nonneg (take (2 * i) (items t))). pose proof (items_pages_nonneg (drop (S (2 * i)) (items t))).
    pose proof (ipages_pos t'). rewrite pages_items in Hv, Hfuel.
    destruct (index_push_ok c1 t' Hat) as (f' & -> & Hf' & Hs'); [done|cbn; lia|].
    destruct (IH (xc_at c1 (f' :: xc_stack c1) (xc_pages_visited c1 + 1)) t' f' (xc_stack c1)
      (items_entries (drop (S (2 * i)) (items t)) ++ rs) (items_pages (drop (S (2 * i)) (items t)) + n))
      as (c' & n' & Hrun & Hu' & Hfr' & Hv0' & Hv'); [done|done|done| | | |cbn; lia|cbn [c1 xc_at xc_set_stack xc_pages_visited]; lia|lia|].
    + apply frames_fwd_cons; [by apply frame_of_step|done| |done]. cbn [items t]. rewrite length_node_items. lia.
    + rewrite Hsp in Hj. by apply Forall_app in Hj as [_ [? _]%Forall_app].
    + rewrite Hsp in Hm. apply StronglySorted_app_1_r in Hm. by apply StronglySorted_app_1_l in Hm.
    + exists c', n'. split_and!; try done. rewrite Hsp, !filter_app, (reached_below _ Hbef), (reached_all _ Haft). cbn [app].
      by rewrite <- (assoc_L (++)).
Qed.

Lemma index_seek_ok c t :
  at_ t → zlen (ipages t) ≤ MAX_PAGES_VISITED → xc_usable_size c = usable → xc_root_page c = iroot t →
  Forall judged (ientries t) → monotone (ientries t) →
  moves frames_fwd (index_seek src c target enc) (reached (ientries t)) MAX_PAGES_VISITED.
Proof.
  intros Ht Hn Hu Hroot Hj Hm. unfold index_seek. rewrite Hroot. pose proof (ipages_pos t).
  destruct (index_push_ok (xc_at c [] 0) t Ht) as (f & -> & Hf & Hs); [done|done|].
  destruct (index_seek_loop_ok (S (Z.to_nat MAX_PAGES_VISITED)) (xc_at (xc_at c [] 0) (f :: xc_stack (xc_at c [] 0)) (xc_pages_visited (xc_at c [] 0) + 1))
    t f [] [] 0) as (c' & n' & -> & Hu' & Hfr & Hv0 & Hv); [done|done|done|constructor|done|done|cbn; lia|cbn; lia|lia|].
  rewrite app_nil_r in Hfr. by eapply index_advance_ok.
Qed.
End seek.
End cursor.

(** ** Sorted keys *)

Section sorted.
Context `{PageSource Src} (src : Src) (usable : Z) (enc : TextEncoding) (target : list Value).

Definition key_below (c : bytes) : bool :=
  match cell_key src usable enc c with Some key => bool_decide (compare_keys key target = Lt) | None => false end.

Abbreviation key_of := (entry_key usable (source_read_page src) enc).

Lemma key_below_eq c key : zlen c ≤ 65536 → key_of c key → key_below c = bool_decide (compare_keys key target = Lt).
Proof. intros Hl Hk. unfold key_below. by rewrite (cell_key_ok src usable enc c key Hl Hk). Qed.

Lemma judged_keys cells keys :
  Forall (λ c, zlen c ≤ 65536) cells → Forall2 key_of cells keys →
  Forall (judged src usable target enc key_below) cells.
Proof.
  intros Hl Hk. induction Hk as [|c key cells keys Hc Hk IH]; [constructor|]. apply Forall_cons in Hl as [Hlc Hl].
  constructor; [|by apply IH]. exists key. split; [done|]. rewrite (key_below_eq c key) by done. by rewrite bool_decide_eq_true.
Qed.

Lemma monotone_keys d cells keys :
  Forall (λ c, zlen c ≤ 65536) cells → Forall2 key_of cells keys →
  Forall (comparable d) target → Forall (Forall (comparable d)) keys →
  StronglySorted (λ a b, compare_keys a b = Lt) keys → monotone key_below cells.
Proof.
  intros Hl Hk Hct Hck Hs. induction Hk as [|c key cells keys Hc Hk IH]; [constructor|].
  apply Forall_cons in Hl as [Hlc Hl]. apply Forall_cons in Hck as [Hcc Hck]. apply StronglySorted_inv in Hs as [Hs Hlt].
  constructor; [by apply IH|]. apply Forall_lookup_2. intros i y Hy. destruct (Forall2_lookup_l _ _ _ _ _ Hk Hy) as (key' & Hky & Hy').
  rewrite (key_below_eq c key), (key_below_eq y key'); [|by apply (Forall_lookup_1 _ _ _ _ Hl Hy)|done..].
  rewrite !bool_decide_eq_false. intros Hge Hlt'. apply Hge.
  eapply (cmp_trans (D := Forall (comparable d)) key key' target); [done|by apply (Forall_lookup_1 _ _ _ _ Hck Hky)|done| |done].
  by apply (Forall_lookup_1 _ _ _ _ Hlt Hky).
Qed.

(** The payloads whose keys are not less than the target. *)
Definition from_target (bss : list bytes) (keys : list (list Value)) : list bytes :=
  map fst (filter (λ bk, compare_keys bk.2 target ≠ Lt) (zip bss keys)).

Lemma reached_from_target cells bss keys :
  Forall (λ c, zlen c ≤ 65536) cells → Forall2 (entry_payload usable (source_read_page src)) cells bss →
  Forall2 (λ bs key, decode_record bs enc = Ok key) bss keys →
  Forall2 (entry_payload usable (source_read_page src)) (filter (λ x, key_below x = false) cells) (from_target bss keys).
Proof.
  intros Hl Hp. revert keys. induction Hp as [|c bs cells bss Hc Hp IH]; intros keys Hk; [constructor|].
  apply Forall_cons in Hl as [Hlc Hl]. apply Forall2_cons_inv_l in Hk as (key & keys' & Hd & Hk & ->).
  unfold from_target. cbn [zip_with]. pose proof (key_below_eq c key Hlc ltac:(by exists bs)) as Hb.
  destruct (decide (compare_keys key target = Lt)) as [Hlt|Hge].
  - rewrite filter_cons_False, filter_cons_False; [by apply IH|by intros ?|]. rewrite Hb, bool_decide_eq_false. by intros ?.
  - rewrite filter_cons_True, filter_cons_True; [constructor; [done|by apply IH]|done|by rewrite Hb, bool_decide_eq_false].
Qed.
End sorted.

(** ** A tree of three pages and an overflow page *)

Definition example_key (a rowid : Z) : list Value := [Integer a; Integer rowid].
Definition example_long : list Value := [TextV (repeat 120 1000); Integer 4].

Definition index_cell_of (key : list Value) : bytes :=
  let bs := encode_record key Utf8 in encode_varint (zlen bs) ++ bs.

Definition example_long_cell : bytes :=
  let bs := encode_record example_long Utf8 in
  encode_varint (zlen bs) ++ take (Z.to_nat (local_payload_size 512 (zlen bs) true)) bs ++ be_bytes 4 9.

Definition example_overflow : bytes :=
  let bs := encode_record example_long Utf8 in
  be_bytes 4 10 ++ take 508 (drop (Z.to_nat (local_payload_size 512 (zlen bs) true)) bs).

Definition example_overflow2 : bytes :=
  let bs := encode_record example_long Utf8 in
  let tail := drop (508 + Z.to_nat (local_payload_size 512 (zlen bs) true)) bs in
  be_bytes 4 0 ++ tail ++ zeros (508 - zlen tail).

Definition example_itree : itree :=
  INode 6 [(ILeaf 7 [index_cell_of (example_key 10 1); index_cell_of (example_key 20 2)], index_cell_of (example_key 30 3))]
    (ILeaf 8 [example_long_cell]).

Definition example_index : mem_source := {| ms_page_size := 512; ms_pages n :=
  if decide (n = 6) then Some (write_index_interior_page 0 6 (node_cells [(7, index_cell_of (example_key 30 3))]) 8 (zeros 512)).1
  else if decide (n = 7) then
    Some (write_index_leaf_page 0 7 [index_cell_of (example_key 10 1); index_cell_of (example_key 20 2)] (zeros 512)).1
  else if decide (n = 8) then Some (write_index_leaf_page 0 8 [example_long_cell] (zeros 512)).1
  else if decide (n = 9) then Some example_overflow
  else if decide (n = 10) then Some example_overflow2
  else None |}.

Lemma index_cell_b c pl t :
  forallb (λ z, (0 <=? z) && (z <? 256)) c = true → decode_payload_len c 0 0 = Ok (pl, t) →
  zlen c = cell_end 512 pl t true → index_cell 512 c.
Proof. intros Hb Hd Hl. split; [by apply bytes_ok_b|]. by exists pl, t. Qed.

Lemma mem_read (s : mem_source) n b :
  n ≠ 0 → ms_pages s n = Some b → zlen b = ms_page_size s → source_read_page s n = Ok b.
Proof. intros Hn Hb Hl. cbn. rewrite Hb. by rewrite decide_True by done. Qed.

Lemma mem_index_leaf (s : mem_source) n cells :
  ms_page_size s = 512 → n ≠ 0 → ms_pages s n = Some (write_index_leaf_page (page1_header_start n) n cells (zeros 512)).1 →
  Forall (index_cell 512) cells → page1_header_start n + 8 + cells_need cells ≤ 512 →
  itree_at 512 (source_read_page s) (ILeaf n cells).
Proof.
  intros Hs Hn Hp Hw Hfit. pose proof (header_start_bounds n).
  destruct (write_index_leaf_page_ok 512 (page1_header_start n) n cells (zeros 512)) as (b & Hb & Hl & Hlen & _);
    [lia|rewrite length_zeros; lia|apply bytes_ok_take, bytes_ok_zeros|done|rewrite length_zeros; lia|].
  exists b. split; [|done]. rewrite Hb in Hp. apply mem_read; [done|done|]. rewrite Hlen, Hs. exact (length_zeros 512 ltac:(lia)).
Qed.

Lemma example_cells_ok :
  index_cell 512 (index_cell_of (example_key 10 1)) ∧ index_cell 512 (index_cell_of (example_key 20 2)) ∧
  index_cell 512 (index_cell_of (example_key 30 3)) ∧ index_cell 512 example_long_cell.
Proof.
  split_and!; [apply (index_cell_b _ 4 1)|apply (index_cell_b _ 5 1)|apply (index_cell_b _ 5 1)|apply (index_cell_b _ 1005 2)];
    vm_compute; reflexivity.
Qed.

Lemma example_itree_at : itree_at 512 (source_read_page example_index) example_itree.
Proof.
  destruct example_cells_ok as (H1 & H2 & H3 & H4). cbn [itree_at example_itree foldr fst]. split_and!; [| |exact I|].
  - destruct (write_index_interior_page_ok 512 0 6 8 [(7, index_cell_of (example_key 30 3))] (zeros 512)) as (b & Hb & Hp & Hl & _);
      [lia|rewrite length_zeros; lia| |split; vm_compute; congruence|apply bytes_ok_take, bytes_ok_zeros|vm_compute; congruence|].
    { constructor; [split; [split; vm_compute; congruence|done]|constructor]. }
    exists b. split; [|done]. apply mem_read; [done| |rewrite Hl; exact (length_zeros 512 ltac:(lia))].
    cbn [ms_pages example_index]. rewrite decide_True by done. by rewrite Hb.
  - apply (mem_index_leaf _ 7); [done|done|reflexivity| |vm_compute; congruence].
    apply Forall_cons. split; [done|]. by apply Forall_singleton.
  - apply (mem_index_leaf _ 8); [done|done|reflexivity| |vm_compute; congruence]. by apply Forall_singleton.
Qed.

Lemma local_payload_b rd c bs n :
  decode_payload_len c 0 0 = Ok (zlen bs, n) → 0 ≤ n → zlen bs ≤ 400 →
  local_payload_size 512 (zlen bs) true = zlen bs → get_range c n (n + zlen bs) = Some bs →
  entry_payload 512 rd c bs.
Proof.
  intros Hd Hn Hl Hloc Hg. exists n. split_and!; [done|done|]. unfold payload_at. cbv zeta. rewrite Hloc.
  split_and!; [unfold MAX_PAYLOAD_LEN; lia|by rewrite Nat2Z.id, firstn_all|lia].
Qed.

Definition example_keys : list (list Value) := [example_key 10 1; example_key 20 2; example_key 30 3; example_long].

Lemma example_index_payloads :
  Forall2 (entry_payload 512 (source_read_page example_index)) (ientries example_itree)
    (map (λ k, encode_record k Utf8) example_keys).
Proof.
  cbn [ientries example_itree map concat app fst snd example_keys]. repeat (apply Forall2_cons; split); [..|constructor].
  1-3: apply (local_payload_b _ _ _ 1); first [lia|vm_compute; congruence].
  exists 2. split_and!; [vm_compute; reflexivity|lia|]. split_and!; [vm_compute; congruence|vm_compute; reflexivity|].
  intros _. exists [9; 10]. split_and!; [apply (bool_decide_unpack _); vm_compute; exact I|vm_compute; congruence|vm_compute; reflexivity|].
  cbn [chain_at]. split_and!; [vm_compute; done|done|]. exists example_overflow.
  split_and!; [vm_compute; reflexivity|vm_compute; reflexivity|vm_compute; reflexivity|vm_compute; done|done|].
  exists example_overflow2.
  split_and!; vm_compute; reflexivity.
Qed.

(** ** Properties *)

(** C14: On the pages of an index b-tree, a scan with [first] and [next] until
    exhaustion returns every entry of the tree once, those of the leaves and
    those of the interior pages between them, in order and with its whole
    payload; a scan with [last] and [prev] returns the same in reverse. *)
Theorem index_scan_complete {Src} `{PageSource Src} (src : Src) (c : IndexCursor) (t : itree) (bss : list bytes) :
  let usable := xc_usable_size c in
  itree_at usable (source_read_page src) t → zlen (ipages t) ≤ MAX_PAGES_VISITED → xc_root_page c = iroot t →
  Forall2 (entry_payload usable (source_read_page src)) (ientries t) bss →
  index_drain (index_next src) (S (length bss)) (index_first src c) = Ok bss ∧
  index_drain (index_prev src) (S (length bss)) (index_last src c) = Ok (rev bss).
Proof.
  intros usable Ht Hn Hroot Hp. pose proof (Forall2_length _ _ _ Hp) as Hlen. split.
  - rewrite <- Hlen. eapply (drain_ok src usable (frames_fwd src usable)); [|by apply index_first_ok|done].
    intros c0 rs n. apply index_advance_ok.
  - rewrite <- Hlen, <- (length_rev (ientries t)). eapply (drain_ok src usable (frames_rev src usable)); [|by apply index_last_ok|].
    + intros c0 rs n. apply advance_desc_ok.
    + rewrite !rev_alt. by apply Forall2_reverse.
Qed.

Definition example_payloads_of : list bytes := map (λ k, encode_record k Utf8) example_keys.

Lemma index_scan_complete_witness :
  index_drain (index_next example_index) (S (length example_payloads_of)) (index_first example_index (IndexCursor_new 512 6)) =
    Ok example_payloads_of ∧
  index_drain (index_prev example_index) (S (length example_payloads_of)) (index_last example_index (IndexCursor_new 512 6)) =
    Ok (rev example_payloads_of).
Proof.
  apply (index_scan_complete example_index (IndexCursor_new 512 6) example_itree example_payloads_of).
  - exact example_itree_at.
  - vm_compute. congruence.
  - reflexivity.
  - exact example_index_payloads.
Defined.

(** C15: [seek] positions at the lower bound.  On an index whose keys are
    strictly ascending, where no double is a NaN and the keys and the target
    do not mix doubles with integers that are no exact doubles (above 2^53),
    [seek] followed by [next] until exhaustion returns exactly the entries
    whose key is not less than the target, from the first of them on. *)
Theorem index_seek_correct {Src} `{PageSource Src} (src : Src) (c : IndexCursor) (t : itree) (bss : list bytes)
    (keys : list (list Value)) (target : list Value) (enc : TextEncoding) (doubles : bool) :
  let usable := xc_usable_size c in
  itree_at usable (source_read_page src) t → zlen (ipages t) ≤ MAX_PAGES_VISITED → xc_root_page c = iroot t →
  Forall2 (entry_payload usable (source_read_page src)) (ientries t) bss →
  Forall2 (λ bs key, decode_record bs enc = Ok key) bss keys →
  StronglySorted (λ a b, compare_keys a b = Lt) keys → Forall (Forall (comparable doubles)) (target :: keys) →
  index_drain (index_next src) (S (length (from_target target bss keys))) (index_seek src c target enc) =
    Ok (from_target target bss keys).
Proof.
  intros usable Ht Hn Hroot Hp Hk Hs [Hct Hck]%Forall_cons. pose proof (entries_short _ _ _ Ht) as Hl.
  assert (Hkey : Forall2 (entry_key usable (source_read_page src) enc) (ientries t) keys).
  { clear -Hp Hk. revert keys Hk. induction Hp as [|x bs l bss Hx Hp IH]; intros keys Hk.
    - apply Forall2_nil_inv_l in Hk as ->. constructor.
    - apply Forall2_cons_inv_l in Hk as (key & keys' & Hd & Hk & ->). constructor; [by exists bs|by apply IH]. }
  pose proof (reached_from_target src usable enc target (ientries t) bss keys Hl Hp Hk) as Hr.
  pose proof (Forall2_length _ _ _ Hr) as Hlen. rewrite <- Hlen.
  eapply (drain_ok src usable (frames_fwd src usable)); [intros c0 rs n; apply index_advance_ok| |exact Hr].
  apply index_seek_ok; [done..|by eapply judged_keys|by eapply monotone_keys].
Qed.

Lemma index_seek_correct_witness :
  let from := from_target [Integer 25] example_payloads_of example_keys in
  from = [encode_record (example_key 30 3) Utf8; encode_record example_long Utf8] ∧
  index_drain (index_next example_index) (S (length from)) (index_seek example_index (IndexCursor_new 512 6) [Integer 25] Utf8) =
    Ok from.
Proof.
  intros from. split; [vm_compute; reflexivity|].
  apply (index_seek_correct example_index (IndexCursor_new 512 6) example_itree
    example_payloads_of example_keys [Integer 25] Utf8 false).
  - exact example_itree_at.
  - vm_compute. congruence.
  - reflexivity.
  - exact example_index_payloads.
  - unfold example_payloads_of, example_keys. repeat (apply Forall2_cons; split); [vm_compute; reflexivity..|constructor].
  - repeat constructor; vm_compute; reflexivity.
  - repeat constructor; discriminate.
Defined.
