(* ===== verification/Integrity.v ===== *)
(** * The integrity check ([row/integrity.rs])

    [PRAGMA integrity_check] and [quick_check]: the walk over the tables, the
    indexes and the freelist, which collects the problems it finds.  A problem
    is a value of [Problem] with what the message names.  On pages that form
    b-trees the check is shown to be exact: it answers [ok] on the databases
    described by [clean] and on no others; what [clean] does not demand is
    what the check overlooks. *)

From S2P Require Import Prelude Varint Text Record Vfs Header Freelist Pager Allocator BtreePage BtreeSplice BtreePayload IndexKey IndexTree BtreeCursor Ddl Catalog IndexCursor.

Inductive Problem : Type :=
| AutoVacuum
| MasterUnreadable (e : DdlError)
| TableUnreadable (table : str) (e : BtreeError)
| RowidOutOfOrder (table : str) (rowid prev : Z)
| RowidDuplicate (table : str) (rowid : Z)
| IndexUnreadable (index : str) (e : BtreeError)
| MalformedEntry (index : str) (e : RecordError)
| NoTrailingRowid (index : str)
| RowidNotInTable (index : str) (rowid : Z) (table : str)
| KeysOutOfOrder (index : str)
| WrongEntryCount (index : str) (expected found : Z)
| NoTrunkPage (count : Z)
| TrunkChainTooLong
| TrunkOutOfRange (trunk : Z)
| TrunkUnreadable (trunk : Z) (e : PageError)
| TrunkMalformed (trunk : Z) (e : FreelistError)
| LeafOutOfRange (leaf : Z)
| WrongFreelistCount (expected total : Z).

(** The rows of the answer: [vec!["ok"]], or a row per problem. *)
Inductive Report : Type := AllOk | Problems (problems : list Problem).

(** ** Comparing index keys

    Unlike the comparison of the b-tree, values of different types that are
    not NULL compare equal here. *)

Definition check_compare_values (a b : Value) : comparison :=
  match a, b with
  | Null, Null => Eq
  | Null, _ => Lt
  | _, Null => Gt
  | Integer x, Integer y => x ?= y
  | Real x, Real y => f64_cmp (is_nan x || is_nan y) (f64_value x) (f64_value y)
  | Integer x, Real y => f64_cmp (is_nan y) (i64_as_f64 x) (f64_value y)
  | Real x, Integer y => f64_cmp (is_nan x) (f64_value x) (i64_as_f64 y)
  | TextV x, TextV y => bytes_cmp (as_bytes x) (as_bytes y)
  | Blob x, Blob y => bytes_cmp x y
  | _, _ => Eq
  end.

Fixpoint compare_zipped (l : list (Value * Value)) : comparison :=
  match l with
  | [] => Eq
  | (x, y) :: l => match check_compare_values x y with Eq => compare_zipped l | c => c end
  end.

Definition compare_index_keys (a b : list Value) : comparison :=
  match compare_zipped (zip a b) with
  | Eq => zlen a ?= zlen b
  | c => c
  end.

Section source.
Context `{PageSource Src} (src : Src).

(** ** Tables

    Loops over rows have fuel; [None] means it ran out. *)

Fixpoint check_rows (fuel : nat) (name : str) (rc : result BtreeError (option Z) * TableCursor) (prev : option Z)
    (rowids : gset Z) (problems : list Problem) : option (list Problem * gset Z) :=
  match fuel with
  | O => None
  | S fuel =>
      match rc.1 with
      | Err e => Some (problems ++ [TableUnreadable name e], rowids)
      | Ok None => Some (problems, rowids)
      | Ok (Some rowid) =>
          let problems := match prev with
                          | Some p => if decide (rowid ≤ p) then problems ++ [RowidOutOfOrder name rowid p] else problems
                          | None => problems
                          end in
          let problems := if decide (rowid ∈ rowids) then problems ++ [RowidDuplicate name rowid] else problems in
          check_rows fuel name (cursor_next src rc.2) (Some rowid) ({[rowid]} ∪ rowids) problems
      end
  end.

Definition check_table (fuel : nat) (header : DatabaseHeader) (table : TableSchema) (problems : list Problem)
  : option (list Problem * gset Z) :=
  check_rows fuel (ts_name table) (cursor_first src (TableCursor_new header (ts_root_page table))) None ∅ problems.

(** ** Indexes *)

(** [advance]: an error is reported and ends the walk. *)
Definition advance_entry (index : IndexSchema) (cursor : IndexCursor) (problems : list Problem)
  : option IndexRow * IndexCursor * list Problem :=
  match index_next src cursor with
  | (Ok r, cursor) => (r, cursor, problems)
  | (Err e, cursor) => (None, cursor, problems ++ [IndexUnreadable (is_name index) e])
  end.

Section entries.
Context (encoding : TextEncoding) (table : TableSchema) (index : IndexSchema) (table_rowids : gset Z).

(** What one entry adds to the problems, the previous key and the count. *)
Definition check_entry (payload : bytes) (prev_key : option (list Value)) (seen : Z) (problems : list Problem)
  : option (list Value) * Z * list Problem :=
  match decode_record payload encoding with
  | Err e => (prev_key, seen, problems ++ [MalformedEntry (is_name index) e])
  | Ok decoded =>
      match last decoded with
      | Some (Integer rowid) =>
          let problems := if decide (rowid ∈ table_rowids) then problems
                          else problems ++ [RowidNotInTable (is_name index) rowid (ts_name table)] in
          let key := take (length decoded - 1) decoded in
          let problems := match prev_key with
                          | Some p => if decide (compare_index_keys p key = Gt) then problems ++ [KeysOutOfOrder (is_name index)]
                                      else problems
                          | None => problems
                          end in
          (Some key, sat_add seen 1, problems)
      | _ => (prev_key, seen, problems ++ [NoTrailingRowid (is_name index)])
      end
  end.

Fixpoint check_entries (fuel : nat) (row : option IndexRow) (cursor : IndexCursor) (prev_key : option (list Value)) (seen : Z)
    (problems : list Problem) : option (list Problem) :=
  match fuel with
  | O => None
  | S fuel =>
      match row with
      | None =>
          Some (if decide (seen ≠ Z.of_nat (size table_rowids))
                then problems ++ [WrongEntryCount (is_name index) (Z.of_nat (size table_rowids)) seen] else problems)
      | Some entry =>
          let '(prev_key, seen, problems) := check_entry (payload_bytes (ir_payload entry)) prev_key seen problems in
          let '(row, cursor, problems) := advance_entry index cursor problems in
          check_entries fuel row cursor prev_key seen problems
      end
  end.
End entries.

Definition check_index (fuel : nat) (header : DatabaseHeader) (table : TableSchema) (index : IndexSchema) (table_rowids : gset Z)
    (problems : list Problem) : option (list Problem) :=
  match index_first src (IndexCursor_new (usable_page_size header) (is_root_page index)) with
  | (Err e, _) => Some (problems ++ [IndexUnreadable (is_name index) e])
  | (Ok row, cursor) => check_entries (text_encoding header) table index table_rowids fuel row cursor None 0 problems
  end.

(** ** The freelist *)

Definition leaf_problems (page_count : Z) (leaves : list Z) : list Problem :=
  map LeafOutOfRange (List.filter (λ leaf, bool_decide (leaf = 0 ∨ page_count < leaf)) leaves).

(** The trunks seen, the leaves counted and the problems. *)
Fixpoint check_trunks (fuel : nat) (page_count trunk hops : Z) (seen_trunks : gset Z) (total_leaves : Z) (problems : list Problem)
  : option (gset Z * Z * list Problem) :=
  match fuel with
  | O => None
  | S fuel =>
      if decide (trunk = 0) then Some (seen_trunks, total_leaves, problems)
      else
        let hops := sat_add32 hops 1 in
        if decide (sat_add32 page_count 1 < hops) then Some (seen_trunks, total_leaves, problems ++ [TrunkChainTooLong])
        else if decide (page_count < trunk) then Some (seen_trunks, total_leaves, problems ++ [TrunkOutOfRange trunk])
        else if decide (trunk ∈ seen_trunks) then Some (seen_trunks, total_leaves, problems ++ [TrunkOutOfRange trunk])
        else
          let seen_trunks := {[trunk]} ∪ seen_trunks in
          match source_read_page src trunk with
          | Err e => Some (seen_trunks, total_leaves, problems ++ [TrunkUnreadable trunk e])
          | Ok buf =>
              match TrunkPage_parse buf with
              | Err e => Some (seen_trunks, total_leaves, problems ++ [TrunkMalformed trunk e])
              | Ok page =>
                  let problems := problems ++ leaf_problems page_count (leaves page) in
                  let total_leaves := sat_add32 total_leaves (wrap32 (zlen (leaves page))) in
                  check_trunks fuel page_count (next_trunk page) hops seen_trunks total_leaves problems
              end
          end
  end.

(** Trunks seen are distinct pages up to [page_count]. *)
Definition check_freelist (header : DatabaseHeader) (problems : list Problem) : option (list Problem) :=
  if decide (freelist_trunk_page header = 0) then
    Some (if decide (freelist_page_count header ≠ 0) then problems ++ [NoTrunkPage (freelist_page_count header)] else problems)
  else
    match check_trunks (Z.to_nat (page_count header + 2)) (page_count header) (freelist_trunk_page header) 0 ∅ 0 problems with
    | None => None
    | Some (seen_trunks, total_leaves, problems) =>
        let total := sat_add32 total_leaves (wrap32 (Z.of_nat (size seen_trunks))) in
        Some (if decide (total ≠ freelist_page_count header) then problems ++ [WrongFreelistCount (freelist_page_count header) total]
              else problems)
    end.

(** ** The whole check *)

Fixpoint check_indexes (fuel : nat) (header : DatabaseHeader) (table : TableSchema) (indexes : list IndexSchema) (table_rowids : gset Z)
    (problems : list Problem) : option (list Problem) :=
  match indexes with
  | [] => Some problems
  | index :: indexes =>
      problems ← check_index fuel header table index table_rowids problems;
      check_indexes fuel header table indexes table_rowids problems
  end.

Fixpoint check_tables (fuel : nat) (header : DatabaseHeader) (quick : bool) (schemas : list TableSchema) (problems : list Problem)
  : option (list Problem) :=
  match schemas with
  | [] => Some problems
  | table :: schemas =>
      if ts_is_virtual table then check_tables fuel header quick schemas problems
      else
        '(problems, table_rowids) ← check_table fuel header table problems;
        problems ← (if quick then Some problems
                    else check_indexes fuel header table (ts_indexes table) table_rowids problems);
        check_tables fuel header quick schemas problems
  end.

Definition run_integrity_check (with_computed_rowid_alias : TableSchema → TableSchema) (fuel : nat) (header : DatabaseHeader) (quick : bool)
  : option Report :=
  let problems := if decide (largest_root_btree_page header ≠ 0) then [AutoVacuum] else [] in
  match read_schema with_computed_rowid_alias src fuel (TableCursor_new header 1) (text_encoding header) with
  | Err e => Some (Problems (problems ++ [MasterUnreadable e]))
  | Ok schemas =>
      problems ← check_tables fuel header quick schemas problems;
      problems ← check_freelist header problems;
      Some (match problems with [] => AllOk | _ => Problems problems end)
  end.
End source.

(** ** Tables, exactly *)

(** What the walk reports of rowids read in the order [ids]. *)
Fixpoint rowid_problems (name : str) (prev : option Z) (seen : gset Z) (ids : list Z) : list Problem :=
  match ids with
  | [] => []
  | rowid :: ids =>
      match prev with Some p => if decide (rowid ≤ p) then [RowidOutOfOrder name rowid p] else [] | None => [] end ++
      (if decide (rowid ∈ seen) then [RowidDuplicate name rowid] else []) ++
      rowid_problems name (Some rowid) ({[rowid]} ∪ seen) ids
  end.

Definition ascending (ids : list Z) : Prop := StronglySorted Z.lt ids.

Lemma rowid_problems_none name ids prev seen :
  (∀ x, x ∈ seen → match prev with Some p => x ≤ p | None => False end) →
  rowid_problems name prev seen ids = [] ↔ ascending (option_list prev ++ ids).
Proof.
  revert prev seen. induction ids as [|i ids IH]; intros prev seen Hseen; cbn [rowid_problems].
  - rewrite app_nil_r. split; [|done]. intros _. destruct prev; cbn; repeat constructor.
  - assert (Hs : prev = None ∨ (∃ p, prev = Some p ∧ p < i) → ∀ x, x ∈ {[i]} ∪ seen → x ≤ i).
    { intros Hp x [->%elem_of_singleton|Hx]%elem_of_union; [lia|]. specialize (Hseen x Hx).
      destruct Hp as [->|(p & -> & Hp)]; [done|lia]. }
    rewrite !app_nil. destruct prev as [p|]; cbn [option_list app].
    + destruct (decide (i ≤ p)) as [Hle|Hgt].
      * split; [by intros [? _]|]. intros [_ HF]%StronglySorted_inv. apply Forall_cons in HF as [? _]. lia.
      * rewrite (decide_False (P := i ∈ seen)) by (intros Hx; specialize (Hseen i Hx); cbn in Hseen; lia).
        rewrite IH by (apply Hs; right; exists p; split; [done|lia]). cbn [option_list app]. split.
        -- intros (_ & _ & Hss). constructor; [exact Hss|]. apply StronglySorted_inv in Hss as [_ HF].
           constructor; [lia|]. eapply Forall_impl; [exact HF|]. cbn. lia.
        -- intros [Hss _]%StronglySorted_inv. done.
    + rewrite (decide_False (P := i ∈ seen)) by (intros Hx; exact (Hseen i Hx)).
      rewrite IH by (apply Hs; by left). naive_solver.
Qed.

Section tables.
Context `{PageSource Src} (src : Src).

Lemma check_rows_ok usable name rs fuel prev seen problems c0 rc :
  advances usable (stack_fwd src usable) uncons c0 rc rs MAX_PAGES_VISITED → (length rs < fuel)%nat →
  check_rows src fuel name rc prev seen problems =
    Some (problems ++ rowid_problems name prev seen (map cell_rowid rs), list_to_set (map cell_rowid rs) ∪ seen).
Proof.
  revert c0 rc prev seen problems fuel. induction rs as [|r rs IH]; intros c0 [o c] prev seen problems [|fuel] (Hs & Hm) Hf;
    cbn [length] in Hf; try lia; cbn [check_rows fst snd].
  - cbn in Hm. destruct Hm as (-> & _). cbn. rewrite app_nil_r. f_equal. f_equal. set_solver.
  - cbn [uncons] in Hm. destruct Hm as (-> & Hcur & n & Hst & Hv0 & Hv). cbn [map rowid_problems list_to_set].
    rewrite (IH c (cursor_next src c)); [|apply (advance_loop_ok src usable (advance_fuel c) c rs n); try done; by apply advance_fuel_enough|lia].
    f_equal. f_equal; [|set_solver]. destruct prev as [p|]; repeat case_decide; by rewrite <- ?app_assoc, ?app_nil_l.
Qed.

Lemma check_table_ok fuel header table t problems :
  tree_at (usable_page_size header) (source_read_page src) t → zlen (pages t) ≤ MAX_PAGES_VISITED →
  ts_root_page table = root_of t → (length (rows t) < fuel)%nat →
  check_table src fuel header table problems =
    Some (problems ++ rowid_problems (ts_name table) None ∅ (map cell_rowid (rows t)), list_to_set (map cell_rowid (rows t))).
Proof.
  intros Ht Hn Hroot Hf. unfold check_table.
  rewrite (check_rows_ok (usable_page_size header) _ (rows t) _ _ _ _ (reset (TableCursor_new header (ts_root_page table)) false));
    [f_equal; f_equal; set_solver| |done].
  by apply first_ok.
Qed.
End tables.

(** ** Indexes, exactly *)

Section entries_exact.
Context (enc : TextEncoding) (table : TableSchema) (index : IndexSchema) (rowids : gset Z).

Fixpoint scan_entries (bss : list bytes) (prev : option (list Value)) (seen : Z) (problems : list Problem)
  : option (list Value) * Z * list Problem :=
  match bss with
  | [] => (prev, seen, problems)
  | bs :: bss => let '(prev, seen, problems) := check_entry enc table index rowids bs prev seen problems in
                 scan_entries bss prev seen problems
  end.

(** An entry that holds [key] and the rowid of a row of the table. *)
Definition index_entry (bs : bytes) (key : list Value) : Prop :=
  ∃ rowid, decode_record bs enc = Ok (key ++ [Integer rowid]) ∧ rowid ∈ rowids.

Definition keys_ordered (keys : list (list Value)) : Prop := Sorted (λ a b, compare_index_keys a b ≠ Gt) keys.

Lemma check_entry_ok bs key prev seen problems :
  index_entry bs key →
  check_entry enc table index rowids bs prev seen problems =
    (Some key, sat_add seen 1,
     problems ++ match prev with Some p => if decide (compare_index_keys p key = Gt) then [KeysOutOfOrder (is_name index)] else [] | None => [] end).
Proof.
  intros (rowid & Hd & Hr). unfold check_entry. rewrite Hd, last_snoc, decide_True by done.
  rewrite length_app. cbn [length]. rewrite Nat.add_sub, take_app_length.
  destruct prev; [case_decide|]; by rewrite ?app_nil_r.
Qed.

(** The key of an entry, if it holds one. *)
Definition entry_of (bs : bytes) : option (list Value) :=
  match decode_record bs enc with
  | Ok decoded => match last decoded with
                  | Some (Integer rowid) => if decide (rowid ∈ rowids) then Some (take (length decoded - 1) decoded) else None
                  | _ => None
                  end
  | Err _ => None
  end.

Lemma entry_of_Some bs key : entry_of bs = Some key ↔ index_entry bs key.
Proof.
  unfold entry_of, index_entry. split.
  - destruct (decode_record bs enc) as [decoded|] eqn:Hd; [|done]. destruct (last decoded) as [[]|] eqn:Hl; try done.
    case_decide; [|done]. intros [= <-]. apply last_Some in Hl as [k ->]. exists i.
    rewrite length_app. cbn [length]. rewrite Nat.add_sub, take_app_length. done.
  - intros (rowid & -> & Hr). rewrite last_snoc, decide_True by done.
    rewrite length_app. cbn [length]. by rewrite Nat.add_sub, take_app_length.
Qed.

Lemma check_entry_bad bs prev seen problems :
  entry_of bs = None →
  ∃ prev' seen' e es, check_entry enc table index rowids bs prev seen problems = (prev', seen', problems ++ e :: es).
Proof.
  unfold entry_of, check_entry. intros Hbad. destruct (decode_record bs enc) as [decoded|e]; [|by eauto].
  destruct (last decoded) as [[]|]; try by eauto. case_decide; [done|].
  destruct prev; [case_decide|]; rewrite <- ?app_assoc; cbn [app]; by eauto 6.
Qed.

Lemma scan_extends bss prev seen problems : ∃ prev' seen' extra, scan_entries bss prev seen problems = (prev', seen', problems ++ extra).
Proof.
  revert prev seen problems. induction bss as [|bs bss IH]; intros prev seen problems; cbn [scan_entries].
  - exists prev, seen, []. by rewrite app_nil_r.
  - assert (∃ prev' seen' extra, check_entry enc table index rowids bs prev seen problems = (prev', seen', problems ++ extra)) as (p & s & ex & ->).
    { destruct (entry_of bs) as [key|] eqn:Hk; [rewrite entry_of_Some in Hk; rewrite (check_entry_ok _ _ _ _ _ Hk); by eauto|].
      destruct (check_entry_bad bs prev seen problems Hk) as (? & ? & ? & ? & ->). by eauto. }
    destruct (IH p s (problems ++ ex)) as (p' & s' & ex' & ->). exists p', s', (ex ++ ex'). by rewrite app_assoc.
Qed.

Lemma keys_ordered_cons prev key keys :
  keys_ordered (option_list prev ++ key :: keys) ↔
    match prev with Some p => compare_index_keys p key ≠ Gt | None => True end ∧ keys_ordered (key :: keys).
Proof.
  unfold keys_ordered. destruct prev as [p|]; cbn [option_list app]; [|naive_solver]. split.
  - intros [Hs Hh]%Sorted_inv. inversion Hh. done.
  - intros [Hp Hs]. constructor; [done|]. by constructor.
Qed.

Lemma scan_clean bss prev seen problems :
  0 ≤ seen → seen + zlen bss ≤ USIZE_MAX →
  ∃ prev' seen' extra, scan_entries bss prev seen problems = (prev', seen', problems ++ extra) ∧
    (extra = [] ↔ ∃ keys, Forall2 index_entry bss keys ∧ keys_ordered (option_list prev ++ keys)) ∧
    (extra = [] → seen' = seen + zlen bss).
Proof.
  revert prev seen problems. induction bss as [|bs bss IH]; intros prev seen problems H0 Hmax; cbn [scan_entries length] in *.
  - exists prev, seen, []. rewrite app_nil_r. split; [done|split; [|lia]]. split; [|done].
    intros _. exists []. split; [constructor|]. rewrite app_nil_r. unfold keys_ordered. destruct prev; repeat constructor.
  - destruct (entry_of bs) as [key|] eqn:Hk.
    + rewrite entry_of_Some in Hk. rewrite (check_entry_ok _ _ _ _ _ Hk).
      assert (Hs : sat_add seen 1 = seen + 1) by (unfold sat_add; lia). rewrite Hs.
      set (here := match prev with Some p => _ | None => _ end).
      destruct (IH (Some key) (seen + 1) (problems ++ here)) as (p & s & ex & -> & Hex & Hseen); [lia..|].
      exists p, s, (here ++ ex). rewrite <- app_assoc. split; [done|]. split.
      * rewrite app_nil, Hex. assert (Hh : here = [] ↔ match prev with Some p => compare_index_keys p key ≠ Gt | None => True end).
        { unfold here. destruct prev; [case_decide|]; naive_solver. }
        rewrite Hh. split.
        -- intros [Hp (keys & HF & Hs')]. exists (key :: keys). split; [by constructor|]. by apply keys_ordered_cons.
        -- intros (keys & HF & Hs'). apply Forall2_cons_inv_l in HF as (key' & keys' & Hk' & HF & ->).
           apply entry_of_Some in Hk, Hk'. replace key' with key in * by congruence.
           apply keys_ordered_cons in Hs' as [Hp Hs']. split; [done|]. by exists keys'.
      * intros [_ Hn]%app_nil. rewrite (Hseen Hn). lia.
    + destruct (check_entry_bad bs prev seen problems Hk) as (p & s & e & es & ->).
      destruct (scan_extends bss p s (problems ++ e :: es)) as (p' & s' & ex & ->).
      exists p', s', (e :: es ++ ex). rewrite <- app_assoc. split; [done|]. split; [|done]. split; [done|].
      intros (keys & HF & _). apply Forall2_cons_inv_l in HF as (key' & keys' & Hk' & _ & _).
      apply entry_of_Some in Hk'. congruence.
Qed.
End entries_exact.

Section indexes.
Context `{PageSource Src} (src : Src) (header : DatabaseHeader) (table : TableSchema) (index : IndexSchema) (rowids : gset Z).
Let usable := usable_page_size header.
Let enc := text_encoding header.

Lemma check_entries_ok xs bss fuel prev seen problems r c :
  moves src usable (frames_fwd src usable) (Ok r, c) xs MAX_PAGES_VISITED →
  Forall2 (entry_payload usable (source_read_page src)) xs bss → (length bss < fuel)%nat →
  check_entries src enc table index rowids fuel r c prev seen problems =
    let '(_, seen, problems) := scan_entries enc table index rowids bss prev seen problems in
    Some (if decide (seen ≠ Z.of_nat (size rowids))
          then problems ++ [WrongEntryCount (is_name index) (Z.of_nat (size rowids)) seen] else problems).
Proof.
  intros Hm HF. revert fuel prev seen problems r c Hm. induction HF as [|x bs xs bss Hx HF IH]; intros [|fuel] prev seen problems r c [Hu Hm] Hf;
    cbn [length] in Hf; try lia.
  - destruct Hm as ([= ->] & _). done.
  - destruct Hm as ((r0 & Hr & Hy) & n & Hst & Hv0 & Hv). destruct (Hy bs Hx) as (row & -> & Hb). injection Hr as ->.
    cbn [check_entries scan_entries]. rewrite Hb.
    destruct (check_entry enc table index rowids bs prev seen problems) as [[p s] pr].
    pose proof (index_advance_ok src usable c xs n Hst Hu Hv0 Hv) as Hnext.
    unfold advance_entry, index_next. destruct (index_advance src c) as [[r'|e] c'] eqn:Hadv.
    + apply IH; [exact Hnext|lia].
    + exfalso. destruct Hnext as [_ Hn]. destruct HF as [|y bs' xs' bss' Hy' HF']; [by destruct Hn|].
      destruct Hn as ((r1 & Hr1 & Hy1) & _). destruct (Hy1 bs' Hy') as (row' & -> & _). done.
Qed.

(** The entries of an index with a table of [rowids]. *)
Definition index_good (bss : list bytes) : Prop :=
  (∃ keys, Forall2 (index_entry enc rowids) bss keys ∧ keys_ordered keys) ∧ length bss = size rowids.

Lemma check_index_ok t bss fuel problems :
  itree_at usable (source_read_page src) t → zlen (ipages t) ≤ MAX_PAGES_VISITED → is_root_page index = iroot t →
  Forall2 (entry_payload usable (source_read_page src)) (ientries t) bss → (length bss < fuel)%nat → zlen bss ≤ USIZE_MAX →
  ∃ extra, check_index src fuel header table index rowids problems = Some (problems ++ extra) ∧ (extra = [] ↔ index_good bss).
Proof.
  intros Ht Hn Hroot HF Hf Hmax. unfold check_index.
  pose proof (index_first_ok src usable (IndexCursor_new usable (is_root_page index)) t Ht Hn eq_refl Hroot) as Hfirst.
  fold usable enc. destruct (index_first src (IndexCursor_new usable (is_root_page index))) as [[r|e] c].
  2: { exfalso. destruct Hfirst as [_ Hm]. destruct HF as [|y bs' xs' bss' Hy' HF']; [by destruct Hm|].
       destruct Hm as ((r1 & Hr1 & Hy1) & _). destruct (Hy1 bs' Hy') as (row' & -> & _). done. }
  rewrite (check_entries_ok _ bss fuel None 0 problems r c Hfirst HF Hf).
  destruct (scan_clean enc table index rowids bss None 0 problems) as (p & s & ex & Heq & Hex & Hseen); [lia..|].
  rewrite Heq. case_decide as Hs.
  - exists (ex ++ [WrongEntryCount (is_name index) (Z.of_nat (size rowids)) s]). rewrite app_assoc. split; [done|].
    split; [by intros [_ ?]%app_nil|]. intros [Hk Hl]. apply Hex in Hk as He. exfalso. apply Hs. rewrite (Hseen He). lia.
  - exists ex. split; [done|]. unfold index_good. rewrite Hex. split; [|tauto]. intros Hk. split; [done|].
    apply Hex in Hk as He. rewrite (Hseen He) in Hs. lia.
Qed.
End indexes.

(** ** The freelist, exactly *)

Section freelist.
Context `{PageSource Src} (src : Src) (page_count : Z).

Definition leaf_ok (leaf : Z) : Prop := 1 ≤ leaf ≤ page_count.

(** Trunks not in [seen], all trunks and leaves within the file. *)
Definition freelist_good (seen : gset Z) (head : Z) (ts : list (Z * list Z)) : Prop :=
  chain (source_read_page src) (source_page_size src) head ts ∧ NoDup ts.*1 ∧
  Forall (λ t, t.1 ∉ seen ∧ t.1 ≤ page_count ∧ Forall leaf_ok t.2) ts.

Lemma leaf_problems_none ls : Forall u32_ok ls → leaf_problems page_count ls = [] ↔ Forall leaf_ok ls.
Proof.
  unfold leaf_problems, leaf_ok, u32_ok. induction 1 as [|l ls Hl HF IH]; [done|]. cbn [List.filter].
  rewrite Forall_cons. case_bool_decide; cbn [map]; [split; [done|]; lia|]. rewrite IH. split; [|tauto]. intros; split; [lia|done].
Qed.

Context (Hbytes : ∀ n b, source_read_page src n = Ok b → bytes_ok b) (Hps : source_page_size src ≤ 65536) (Hcount : u32_ok page_count).

Lemma parse_ok n buf page :
  source_read_page src n = Ok buf → TrunkPage_parse buf = Ok page →
  zlen buf = source_page_size src ∧ TrunkPage_ok page ∧ zlen (leaves page) ≤ max_leaves_per_trunk (source_page_size src) ∧
  zlen (leaves page) ≤ 65536.
Proof.
  intros Hr Hp. pose proof (source_read_length src n buf Hr) as Hl.
  pose proof (trunk_parse_total buf (Hbytes _ _ Hr) ltac:(rewrite Hl; mlia)) as Ht. rewrite Hp in Ht.
  destruct Ht as (H8 & Hok & Hfit & _). do 2 (split; [done|]). split; [apply max_leaves_fit; lia|lia].
Qed.

(** Trunks seen are distinct pages of the file. *)
Definition seen_ok (seen : gset Z) : Prop := ∀ t, t ∈ seen → 1 ≤ t ≤ page_count.

Lemma seen_size seen : seen_ok seen → Z.of_nat (size seen) ≤ page_count.
Proof.
  intros Hs. assert (Hsub : elements seen ⊆+ seqZ 1 page_count).
  { apply NoDup_submseteq; [apply NoDup_elements|]. intros x Hx%elem_of_elements. apply elem_of_seqZ. specialize (Hs x Hx). lia. }
  apply submseteq_length in Hsub. rewrite length_seqZ in Hsub. unfold u32_ok in Hcount. change (length (elements seen)) with (size seen) in Hsub. lia.
Qed.

Lemma size_add seen t : t ∉ seen → size ({[t]} ∪ seen : gset Z) = S (size seen).
Proof. intros Ht. rewrite size_union by set_solver. by rewrite size_singleton. Qed.

Lemma freelist_good_cons seen t page buf ts :
  source_read_page src t = Ok buf → TrunkPage_parse buf = Ok page → t ∉ seen → t ≤ page_count →
  freelist_good seen t ts ↔
    t ≠ 0 ∧ Forall leaf_ok (leaves page) ∧ ∃ ts', ts = (t, leaves page) :: ts' ∧ freelist_good ({[t]} ∪ seen) (next_trunk page) ts'.
Proof.
  intros Hr Hp Hns Hle. destruct (parse_ok _ _ _ Hr Hp) as (Hl & _ & Hfit & _).
  assert (Ht0 : t ≠ 0). { intros ->. by rewrite source_read_zero in Hr. }
  unfold freelist_good. split.
  - intros (Hc & Hnd & HF). split; [done|]. destruct ts as [|[t' ls] ts]; cbn [chain] in Hc; [done|].
    destruct Hc as (<- & next & buf' & Hr' & _ & Hp' & _ & Hc). rewrite Hr in Hr'. injection Hr' as <-. rewrite Hp in Hp'. injection Hp' as ->.
    cbn in Hnd |- *. apply NoDup_cons in Hnd as [Hnt Hnd]. apply Forall_cons in HF as [(_ & _ & Hlv) HF]. cbn in Hlv.
    split; [done|]. exists ts. split; [done|]. do 2 (split; [done|]). apply Forall_forall. intros x Hx.
    rewrite Forall_forall in HF. destruct (HF x Hx) as (Hn & Hx'). split; [|done]. apply not_elem_of_union. split; [|done].
    intros Heq%elem_of_singleton. apply Hnt. rewrite <- Heq. by apply (list_elem_of_fmap_2 fst).
  - intros (_ & Hlv & ts' & -> & Hc & Hnd & HF). cbn [chain fmap list_fmap fst]. split; [|split].
    + split; [done|]. exists (next_trunk page), buf. destruct page. done.
    + apply NoDup_cons. split; [|done]. intros (x & Hx & Hin)%list_elem_of_fmap. rewrite Forall_forall in HF.
      destruct (HF x Hin) as (Hn & _). apply Hn. apply elem_of_union_l. subst t. by apply elem_of_singleton.
    + apply Forall_cons. split; [done|]. eapply Forall_impl; [exact HF|]. intros x (Hn & Hx). split; [|done]. set_solver.
Qed.
Definition leaf_total (ts : list (Z * list Z)) : Z := zlen (concat (map snd ts)).

Lemma free_pages_length ts : zlen (free_pages ts) = zlen ts + leaf_total ts.
Proof.
  unfold leaf_total. induction ts as [|[t ls] ts IH]; [done|]. cbn [free_pages map concat snd length]. rewrite !length_app. lia.
Qed.

Lemma check_trunks_ok fuel head seen total problems :
  seen_ok seen → u32_ok head → 0 ≤ total ≤ U32_MAX → page_count - Z.of_nat (size seen) + 1 < Z.of_nat fuel →
  ∃ seen' total' extra,
    check_trunks src fuel page_count head (Z.of_nat (size seen)) seen total problems = Some (seen', total', problems ++ extra) ∧
    (extra = [] ↔ ∃ ts, freelist_good seen head ts) ∧
    (∀ ts, freelist_good seen head ts → seen_ok seen' ∧ Z.of_nat (size seen') = Z.of_nat (size seen) + zlen ts ∧ total' = Z.min (total + leaf_total ts) U32_MAX).
Proof.
  revert head seen total problems. induction fuel as [|fuel IH]; intros head seen total problems Hseen Hh Ht Hf;
    pose proof (seen_size seen Hseen) as Hsz; [lia|]. cbn [check_trunks]. unfold u32_ok in Hcount, Hh.
  destruct (decide (head = 0)) as [->|Hh0].
  { exists seen, total, []. rewrite app_nil_r. split; [done|]. split.
    - split; [|done]. intros _. exists []. split; [done|]. split; [apply NoDup_nil_2|done].
    - intros [|[t ls] ts] (Hc & _ & HF); cbn [chain] in Hc.
      + unfold leaf_total. cbn. split; [done|lia].
      + exfalso. destruct Hc as (<- & next & buf & Hr & _). by rewrite source_read_zero in Hr. }
  rewrite decide_False by (unfold sat_add32, U32_MAX; lia).
  assert (Hstuck : ∀ (seen' : gset Z) (e : Problem), (¬ ∃ ts, freelist_good seen head ts) → ∃ seen'' total' extra,
    Some (seen', total, problems ++ [e]) = Some (seen'', total', problems ++ extra) ∧ (extra = [] ↔ ∃ ts, freelist_good seen head ts) ∧
    (∀ ts, freelist_good seen head ts → seen_ok seen'' ∧ Z.of_nat (size seen'') = Z.of_nat (size seen) + zlen ts ∧ total' = Z.min (total + leaf_total ts) U32_MAX)).
  { intros seen' e Hno. exists seen', total, [e]. split; [done|]. split; [naive_solver|]. intros ts Hg. exfalso. apply Hno. by exists ts. }
  assert (Hhead : ∀ ts, freelist_good seen head ts → head ∉ seen ∧ head ≤ page_count ∧ ∃ buf page, source_read_page src head = Ok buf ∧ TrunkPage_parse buf = Ok page).
  { intros [|[t ls] ts] (Hc & _ & HF); cbn [chain] in Hc; [done|]. apply Forall_cons in HF as [(Hn & Hle & _) _].
    destruct Hc as (-> & next & buf & Hr & _ & Hp & _). do 2 (split; [done|]). by exists buf, {| next_trunk := next; leaves := ls |}. }
  destruct (decide (page_count < head)) as [Hgt|Hle]; [apply Hstuck; intros [ts Hg]; destruct (Hhead ts Hg) as (_ & ? & _); lia|].
  destruct (decide (head ∈ seen)) as [Hin|Hns]; [apply Hstuck; intros [ts Hg]; by destruct (Hhead ts Hg) as (? & _)|].
  destruct (source_read_page src head) as [buf|e] eqn:Hr; [|apply Hstuck; intros [ts Hg]; destruct (Hhead ts Hg) as (_ & _ & ? & ? & ? & _); congruence].
  destruct (TrunkPage_parse buf) as [page|e] eqn:Hp;
    [|apply Hstuck; intros [ts Hg]; destruct (Hhead ts Hg) as (_ & _ & ? & ? & ? & ?); congruence].
  destruct (parse_ok _ _ _ Hr Hp) as (_ & [Hnext Hlv] & _ & Hlen).
  assert (Hseen' : seen_ok ({[head]} ∪ seen)). { intros x [->%elem_of_singleton|Hx]%elem_of_union; [lia|by apply Hseen]. }
  pose proof (seen_size _ Hseen') as Hsz'. pose proof (size_add seen head Hns) as Hadd.
  assert (Hhops : sat_add32 (Z.of_nat (size seen)) 1 = Z.of_nat (size ({[head]} ∪ seen : gset Z))) by (unfold sat_add32, U32_MAX; lia).
  assert (Hw : wrap32 (zlen (leaves page)) = zlen (leaves page)) by (unfold wrap32; apply Z.mod_small; lia).
  rewrite Hhops, Hw.
  destruct (IH (next_trunk page) ({[head]} ∪ seen) (sat_add32 total (zlen (leaves page))) (problems ++ leaf_problems page_count (leaves page)))
    as (seen' & total' & ex & -> & Hex & Hfin); [done|done|unfold sat_add32; lia|lia|].
  exists seen', total', (leaf_problems page_count (leaves page) ++ ex). rewrite <- app_assoc. split; [done|].
  apply Z.nlt_ge in Hle. pose proof (λ ts, freelist_good_cons seen head page buf ts Hr Hp Hns Hle) as Hcons. split.
  - rewrite app_nil, (leaf_problems_none _ Hlv), Hex. split.
    + intros (Hl & ts & Hg). exists ((head, leaves page) :: ts). apply Hcons. do 2 (split; [done|]). by exists ts.
    + intros [ts (_ & Hl & ts' & _ & Hg)%Hcons]. split; [done|]. by exists ts'.
  - intros ts (_ & _ & ts' & -> & Hg)%Hcons. destruct (Hfin ts' Hg) as (Hok & Hs & ->). cbn [length]. split; [done|]. split; [lia|].
    unfold leaf_total. cbn [map concat snd]. rewrite length_app. unfold sat_add32. lia.
Qed.
End freelist.

(** What the check demands of the freelist: the chain of trunks that the
    header names is free of cycles, its trunks and leaves lie within the file
    and their number is the header's. *)
Definition freelist_clean `{PageSource Src} (src : Src) (header : DatabaseHeader) : Prop :=
  ∃ ts, freelist_good src (page_count header) ∅ (freelist_trunk_page header) ts ∧ zlen (free_pages ts) = freelist_page_count header.

Lemma check_freelist_ok `{PageSource Src} (src : Src) (header : DatabaseHeader) problems :
  (∀ n b, source_read_page src n = Ok b → bytes_ok b) → source_page_size src ≤ 65536 → u32_ok (page_count header) →
  u32_ok (freelist_trunk_page header) → 0 ≤ freelist_page_count header < U32_MAX →
  ∃ extra, check_freelist src header problems = Some (problems ++ extra) ∧ (extra = [] ↔ freelist_clean src header).
Proof.
  intros Hb Hps Hpc Htr Hfc. unfold check_freelist, freelist_clean.
  destruct (decide (freelist_trunk_page header = 0)) as [H0|H0].
  { rewrite H0. assert (Hts : ∀ ts, freelist_good src (page_count header) ∅ 0 ts → ts = []).
    { intros [|[t ls] ts] (Hc & _); [done|]. cbn [chain] in Hc. destruct Hc as (<- & next & buf & Hr & _).
      by rewrite source_read_zero in Hr. }
    case_decide as Hc.
    - exists [NoTrunkPage (freelist_page_count header)]. split; [done|]. split; [done|].
      intros (ts & Hg & Hl). rewrite (Hts ts Hg) in Hl. cbn in Hl. lia.
    - exists []. rewrite app_nil_r. split; [done|]. split; [|done]. intros _. exists []. cbn. split; [|lia].
      split; [done|]. split; [apply NoDup_nil_2|done]. }
  destruct (check_trunks_ok src (page_count header) Hb Hps Hpc (Z.to_nat (page_count header + 2)) (freelist_trunk_page header) ∅ 0 problems)
    as (seen & total & ex & Heq & Hex & Hfin); [by intros ?|done|unfold U32_MAX; lia|rewrite size_empty; unfold u32_ok in Hpc; lia|].
  rewrite size_empty in Heq. change (Z.of_nat 0) with 0 in Heq. rewrite Heq.
  assert (Htot : ∀ ts, freelist_good src (page_count header) ∅ (freelist_trunk_page header) ts →
    sat_add32 total (wrap32 (Z.of_nat (size seen))) = freelist_page_count header ↔ zlen (free_pages ts) = freelist_page_count header).
  { intros ts Hg. destruct (Hfin ts Hg) as (Hok & Hs & ->). rewrite size_empty in Hs. rewrite free_pages_length.
    pose proof (seen_size (page_count header) Hpc seen Hok) as Hn.
    unfold wrap32. rewrite Z.mod_small by (unfold u32_ok in Hpc; lia). unfold sat_add32, U32_MAX in *. lia. }
  case_decide as Hc.
  - exists (ex ++ [WrongFreelistCount (freelist_page_count header) (sat_add32 total (wrap32 (Z.of_nat (size seen))))]).
    rewrite app_assoc. split; [done|]. split; [by intros [_ ?]%app_nil|]. intros (ts & Hg & Hl). apply (Htot ts Hg) in Hl. done.
  - exists ex. split; [done|]. rewrite Hex. split; intros [ts Hg]; exists ts.
    + split; [done|]. by apply (Htot ts Hg).
    + by destruct Hg.
Qed.

(** ** The whole check, exactly *)

Section whole.
Context `{PageSource Src} (src : Src) (header : DatabaseHeader) (quick : bool) (fuel : nat).
Context (table_tree : TableSchema → tree) (index_tree : IndexSchema → itree) (index_payloads : IndexSchema → list bytes).
Let usable := usable_page_size header.

(** The pages of a table and of its indexes form b-trees; nothing is said of
    the order of their rows and entries. *)
Record laid_out (table : TableSchema) : Prop := {
  lo_tree : tree_at usable (source_read_page src) (table_tree table);
  lo_pages : zlen (pages (table_tree table)) ≤ MAX_PAGES_VISITED;
  lo_root : ts_root_page table = root_of (table_tree table);
  lo_rows : (length (rows (table_tree table)) < fuel)%nat;
  lo_indexes : Forall (λ i, itree_at usable (source_read_page src) (index_tree i) ∧ zlen (ipages (index_tree i)) ≤ MAX_PAGES_VISITED ∧
    is_root_page i = iroot (index_tree i) ∧
    Forall2 (entry_payload usable (source_read_page src)) (ientries (index_tree i)) (index_payloads i) ∧
    (length (index_payloads i) < fuel)%nat ∧ zlen (index_payloads i) ≤ USIZE_MAX) (ts_indexes table);
}.

Definition table_rowids (table : TableSchema) : list Z := map cell_rowid (rows (table_tree table)).

(** What the check demands of a table. *)
Definition table_clean (table : TableSchema) : Prop :=
  ascending (table_rowids table) ∧
  (quick = false → Forall (λ i, index_good header (list_to_set (table_rowids table)) (index_payloads i)) (ts_indexes table)).

Lemma check_indexes_ok table indexes rowids problems :
  Forall (λ i, itree_at usable (source_read_page src) (index_tree i) ∧ zlen (ipages (index_tree i)) ≤ MAX_PAGES_VISITED ∧
    is_root_page i = iroot (index_tree i) ∧
    Forall2 (entry_payload usable (source_read_page src)) (ientries (index_tree i)) (index_payloads i) ∧
    (length (index_payloads i) < fuel)%nat ∧ zlen (index_payloads i) ≤ USIZE_MAX) indexes →
  ∃ extra, check_indexes src fuel header table indexes rowids problems = Some (problems ++ extra) ∧
    (extra = [] ↔ Forall (λ i, index_good header rowids (index_payloads i)) indexes).
Proof.
  intros HF. revert problems. induction HF as [|i indexes (Ht & Hn & Hroot & Hp & Hf & Hm) HF IH]; intros problems; cbn [check_indexes].
  - exists []. by rewrite app_nil_r.
  - destruct (check_index_ok src header table i rowids _ _ fuel problems Ht Hn Hroot Hp Hf Hm) as (e1 & -> & H1). cbn.
    destruct (IH (problems ++ e1)) as (e2 & -> & H2). exists (e1 ++ e2). rewrite app_assoc. split; [done|].
    by rewrite app_nil, Forall_cons, H1, H2.
Qed.

Lemma check_tables_ok schemas problems :
  Forall (λ s, ts_is_virtual s = false → laid_out s) schemas →
  ∃ extra, check_tables src fuel header quick schemas problems = Some (problems ++ extra) ∧
    (extra = [] ↔ Forall (λ s, ts_is_virtual s = false → table_clean s) schemas).
Proof.
  intros HF. revert problems. induction HF as [|s schemas Hs HF IH]; intros problems; cbn [check_tables].
  { exists []. by rewrite app_nil_r. }
  destruct (ts_is_virtual s) eqn:Hv.
  { destruct (IH problems) as (e & -> & He). exists e. split; [done|]. rewrite He, Forall_cons, Hv. naive_solver. }
  destruct (Hs eq_refl) as [Ht Hn Hroot Hf Hi].
  rewrite (check_table_ok src fuel header s _ problems Ht Hn Hroot Hf). cbn.
  set (e1 := rowid_problems _ _ _ _). pose proof (rowid_problems_none (ts_name s) (table_rowids s) None ∅ ltac:(set_solver)) as H1.
  assert (∃ e2, (if quick then Some (problems ++ e1) else check_indexes src fuel header s (ts_indexes s) (list_to_set (table_rowids s)) (problems ++ e1)) =
    Some ((problems ++ e1) ++ e2) ∧
    (e2 = [] ↔ (quick = false → Forall (λ i, index_good header (list_to_set (table_rowids s)) (index_payloads i)) (ts_indexes s))))
    as (e2 & He2 & H2).
  { destruct quick; [exists []; rewrite app_nil_r; split; [done|]; split; [by intros _ ?|done]|].
    destruct (check_indexes_ok s (ts_indexes s) (list_to_set (table_rowids s)) (problems ++ e1) Hi) as (e2 & He & H2).
    exists e2. split; [done|]. rewrite H2. naive_solver. }
  unfold table_rowids in He2. rewrite He2. cbn.
  destruct (IH ((problems ++ e1) ++ e2)) as (e3 & -> & H3). exists (e1 ++ e2 ++ e3). rewrite <- !app_assoc. split; [done|].
  rewrite !app_nil, Forall_cons, H3, H2, Hv. unfold table_clean. change (e1 = [] ↔ ascending (table_rowids s)) in H1. rewrite H1. naive_solver.
Qed.
End whole.

(** ** Properties *)

(** C16: The integrity check is exact.  On a database whose schema table can be
    read and whose tables and indexes are b-trees of pages, with whatever
    rows, entries and freelist, the check ends and answers [ok] exactly when
    the database is not auto-vacuum, the rowids of every table ascend, the
    freelist chain is acyclic, within the file and as long as the header
    says, and, unless the check is the quick one, every index holds as many
    entries as its table has rows, each with a rowid of the table, in the
    order of their keys. *)
Theorem integrity_check_exact {Src} `{PageSource Src} (src : Src) (alias : TableSchema → TableSchema) (header : DatabaseHeader) (quick : bool)
    (fuel : nat) (schemas : list TableSchema) (table_tree : TableSchema → tree) (index_tree : IndexSchema → itree)
    (index_payloads : IndexSchema → list bytes) :
  read_schema alias src fuel (TableCursor_new header 1) (text_encoding header) = Ok schemas →
  Forall (λ s, ts_is_virtual s = false → laid_out src header fuel table_tree index_tree index_payloads s) schemas →
  (∀ n b, source_read_page src n = Ok b → bytes_ok b) → source_page_size src ≤ 65536 → u32_ok (page_count header) →
  u32_ok (freelist_trunk_page header) → 0 ≤ freelist_page_count header < U32_MAX →
  ∃ report, run_integrity_check src alias fuel header quick = Some report ∧
    (report = AllOk ↔
       largest_root_btree_page header = 0 ∧
       Forall (λ s, ts_is_virtual s = false → table_clean header quick table_tree index_payloads s) schemas ∧
       freelist_clean src header).
Proof.
  intros Hs HF Hb Hps Hpc Htr Hfc. unfold run_integrity_check. rewrite Hs. set (e0 := if decide _ then _ else _).
  destruct (check_tables_ok src header quick fuel table_tree index_tree index_payloads schemas e0 HF) as (e1 & -> & H1). cbn.
  destruct (check_freelist_ok src header (e0 ++ e1) Hb Hps Hpc Htr Hfc) as (e2 & -> & H2). cbn.
  eexists. split; [done|]. rewrite <- H1, <- H2.
  assert (H0 : e0 = [] ↔ largest_root_btree_page header = 0) by (unfold e0; case_decide; naive_solver).
  rewrite <- H0. rewrite <- (app_nil e1 e2), <- (app_nil e0 (e1 ++ e2)), <- app_assoc. by destruct (e0 ++ e1 ++ e2).
Qed.

(** A database with the schema of [Catalog], a table of two rows, its index
    and a freelist of one trunk. *)
Definition example_rows : list bytes :=
  imap (λ i vs, let bs := encode_record vs Utf8 in encode_varint (zlen bs) ++ [Z.of_nat i + 1] ++ bs)
    [[Integer 10; TextV [120]]; [Integer 20; TextV [121]]].

Definition example_index_entries : list (list Value) := [[TextV [120]; Integer 1]; [TextV [121]; Integer 2]].

Definition example_db (trunk : TrunkPage) : mem_source := {| ms_page_size := 512; ms_pages n :=
  if decide (n = 1) then Some (write_leaf_page 100 1 Catalog.schema_cells (zeros 512)).1
  else if decide (n = 2) then Some (write_leaf_page 0 2 example_rows (zeros 512)).1
  else if decide (n = 3) then Some (write_index_leaf_page 0 3 (map index_cell_of example_index_entries) (zeros 512)).1
  else if decide (n = 4) then Some (trunk_image trunk 512)
  else None |}.

Definition example_db_header (free : Z) : DatabaseHeader :=
  {| page_size := 512; write_version := 1; read_version := 1; reserved_space := 0; page_count := 5; freelist_trunk_page := 4;
     freelist_page_count := free; schema_cookie := 0; schema_format := 4; largest_root_btree_page := 0; text_encoding := Utf8;
     user_version := 0; application_id := 0 |}.

Definition example_trunk : TrunkPage := {| next_trunk := 0; leaves := [5] |}.

Lemma example_db_bytes trunk : forallb (λ z, (0 <=? z) && (z <? 256)) (trunk_image trunk 512) = true →
  ∀ n b, source_read_page (example_db trunk) n = Ok b → bytes_ok b.
Proof.
  intros Ht n b. cbn [source_read_page mem_source_pages]. destruct (ms_pages (example_db trunk) n) as [page|] eqn:Hp; [|done].
  case_decide; [|done]. intros [= <-]. apply bytes_ok_b. cbn [ms_pages example_db] in Hp.
  do 4 (case_decide; [apply (inj Some) in Hp as <-; first [exact Ht|vm_compute; reflexivity]|]). done.
Qed.

Lemma example_freelist_clean : freelist_clean (example_db example_trunk) (example_db_header 2).
Proof.
  exists [(4, [5])]. split; [|done]. split; [|split; [apply NoDup_singleton|]].
  - cbn [chain]. split; [done|]. exists 0, (trunk_image example_trunk 512). do 4 (split; [vm_compute; (reflexivity || congruence)|]). done.
  - apply Forall_singleton. split; [by intros ?|]. split; [cbn; lia|]. apply Forall_singleton. cbn. unfold leaf_ok. lia.
Qed.

Lemma integrity_check_exact_witness :
  run_integrity_check (example_db example_trunk) id 10 (example_db_header 2) false = Some AllOk.
Proof.
  destruct (read_schema id (example_db example_trunk) 10 (TableCursor_new (example_db_header 2) 1) Utf8) as [schemas|] eqn:Hs;
    [|vm_compute in Hs; discriminate Hs].
  destruct (integrity_check_exact (example_db example_trunk) id (example_db_header 2) false 10 schemas
    (λ _, Leaf 2 example_rows) (λ _, ILeaf 3 (map index_cell_of example_index_entries)) (λ _, map (λ k, encode_record k Utf8) example_index_entries))
    as (report & Hr & Hiff).
  - exact Hs.
  - vm_compute in Hs. injection Hs as <-. apply Forall_singleton. intros _. split.
    + apply mem_table_leaf; [done|done|reflexivity| |vm_compute; congruence]. apply table_cells_ok. vm_compute. reflexivity.
    + vm_compute. congruence.
    + reflexivity.
    + cbn. lia.
    + apply Forall_singleton. split; [|split; [|split; [|split; [|split]]]].
      * apply mem_index_leaf; [done|done|reflexivity| |vm_compute; congruence].
        apply Forall_cons. split; [apply (index_cell_b _ 4 1)|apply Forall_singleton, (index_cell_b _ 5 1)]; vm_compute; reflexivity.
      * vm_compute. congruence.
      * reflexivity.
      * repeat (apply Forall2_cons; split); [..|constructor]; apply (local_payload_b _ _ _ 1); first [lia|vm_compute; congruence].
      * cbn. lia.
      * vm_compute. congruence.
  - apply example_db_bytes. vm_compute. reflexivity.
  - vm_compute. congruence.
  - vm_compute. split; congruence.
  - vm_compute. split; congruence.
  - vm_compute. split; congruence.
  - rewrite Hr. f_equal. apply Hiff. split; [done|]. split; [|exact example_freelist_clean].
    vm_compute in Hs. injection Hs as <-. apply Forall_singleton. intros _. split.
    + vm_compute. repeat constructor.
    + intros _. apply Forall_singleton. split; [|vm_compute; reflexivity].
      exists [[TextV [120]]; [TextV [121]]]. split; [|repeat constructor; vm_compute; congruence].
      apply Forall2_cons. split; [exists 1|apply Forall2_cons; split; [exists 2|constructor]];
        (split; [vm_compute; reflexivity|apply (bool_decide_unpack _); vm_compute; exact I]).
Defined.

(** C40: What the check overlooks.  An index passes as soon as its entries are
    as many as the rows of its table, each names some row of it, and each key
    is not above the next one in the comparison of the check: which rows the
    entries name (all may name the same one) and what keys they hold does not
    matter.  That comparison takes a text and an integer for equal, which the
    b-tree keeps apart, so keys out of order across types pass.  And a trunk
    of the freelist passes whatever leaves of the file it lists, one of them
    twice for instance, although the comment promises that no page number
    repeats. *)
Theorem integrity_check_overlooks {Src} `{PageSource Src} (src : Src) (header : DatabaseHeader) (table : TableSchema) (index : IndexSchema)
    (rowids : gset Z) (t : itree) (bss : list bytes) (entries : list (list Value * Z)) (fuel : nat) (buf : bytes) (ls : list Z) (problems : list Problem) :
  itree_at (usable_page_size header) (source_read_page src) t → zlen (ipages t) ≤ MAX_PAGES_VISITED → is_root_page index = iroot t →
  Forall2 (entry_payload (usable_page_size header) (source_read_page src)) (ientries t) bss → (length bss < fuel)%nat → zlen bss ≤ USIZE_MAX →
  Forall2 (λ bs e, decode_record bs (text_encoding header) = Ok (e.1 ++ [Integer e.2])) bss entries →
  Forall (λ e, e.2 ∈ rowids) entries → Sorted (λ a b, compare_index_keys a b ≠ Gt) entries.*1 → length entries = size rowids →
  (∀ n b, source_read_page src n = Ok b → bytes_ok b) → source_page_size src ≤ 65536 → u32_ok (page_count header) →
  0 < freelist_trunk_page header ≤ page_count header → source_read_page src (freelist_trunk_page header) = Ok buf →
  TrunkPage_parse buf = Ok {| next_trunk := 0; leaves := ls |} →
  Forall (leaf_ok (page_count header)) ls → freelist_page_count header = 1 + zlen ls → freelist_page_count header < U32_MAX →
  check_index src fuel header table index rowids problems = Some problems ∧
  (∀ s n, compare_index_keys [TextV s] [Integer n] = Eq ∧ compare_keys [TextV s] [Integer n] = Gt) ∧
  check_freelist src header problems = Some problems.
Proof.
  intros Ht Hn Hroot HF Hf Hmax Hdec Hin Hsort Hlen Hb Hps Hpc Htr Hbuf Hparse Hls Hcount Hcmax.
  assert (H0 : ∀ extra P, check_index src fuel header table index rowids problems = Some (problems ++ extra) ∧ (extra = [] ↔ P) → P →
    check_index src fuel header table index rowids problems = Some problems).
  { intros extra P [-> Hiff] HP. apply Hiff in HP as ->. by rewrite app_nil_r. }
  split; [|split].
  - destruct (check_index_ok src header table index rowids t bss fuel problems Ht Hn Hroot HF Hf Hmax) as (extra & Hc).
    apply (H0 extra _ Hc). split; [|by rewrite (Forall2_length _ _ _ Hdec)].
    exists (entries.*1). split; [|done]. apply Forall2_fmap_r. clear -Hdec Hin. revert Hin.
    induction Hdec as [|bs e bss entries Hd _ IH]; [constructor|]. intros [He Hin]%Forall_cons. apply Forall2_cons. split; [|by apply IH].
    exists e.2. by split.
  - intros s n. split; reflexivity.
  - destruct (check_freelist_ok src header problems Hb Hps Hpc) as (extra & -> & Hiff); [unfold u32_ok in *; lia|unfold U32_MAX in *; lia|].
    assert (extra = []) as ->; [|by rewrite app_nil_r]. apply Hiff. exists [(freelist_trunk_page header, ls)].
    destruct (parse_ok src Hb Hps (freelist_trunk_page header) buf _ Hbuf Hparse) as (_ & _ & Hmax' & _).
    split; [|rewrite Hcount; cbn; rewrite app_nil_r; unfold zlen; destruct (length ls); lia]. split; [|split; [apply NoDup_singleton|]].
    + cbn [chain]. split; [done|]. exists 0, buf. split; [done|]. split; [by eapply source_read_length|]. split; [done|]. by split.
    + apply Forall_singleton. split; [by intros ?|]. split; [cbn; lia|done].
Qed.

(** The same database with an index that lists the first row twice, with an
    integer key after a text key, and a trunk that lists a page twice. *)
Definition bad_index_entries : list (list Value * Z) := [([TextV [120]], 1); ([Integer 7], 1)].

Definition bad_index_keys : list (list Value) := map (λ e, e.1 ++ [Integer e.2]) bad_index_entries.

Definition bad_trunk : TrunkPage := {| next_trunk := 0; leaves := [5; 5] |}.

Definition bad_db : mem_source := {| ms_page_size := 512; ms_pages n :=
  if decide (n = 3) then Some (write_index_leaf_page 0 3 (map index_cell_of bad_index_keys) (zeros 512)).1
  else ms_pages (example_db bad_trunk) n |}.

Lemma bad_db_bytes n b : source_read_page bad_db n = Ok b → bytes_ok b.
Proof.
  destruct (decide (n = 3)) as [->|Hn].
  - intros Hb. apply bytes_ok_b. revert Hb. vm_compute. intros [= <-]. reflexivity.
  - intros Hb. apply (example_db_bytes bad_trunk ltac:(vm_compute; reflexivity) n b). rewrite <- Hb.
    cbn [source_read_page mem_source_pages bad_db ms_pages ms_page_size]. by rewrite (decide_False (P := n = 3)) by done.
Qed.

Definition bad_index : IndexSchema := {| is_name := [120]; is_unique := false; is_columns := []; is_root_page := 3 |}.

Definition bad_table : TableSchema :=
  {| ts_name := [116]; ts_root_page := 2; ts_columns := [[97]; [98]]; ts_without_rowid := false; ts_strict := false; ts_column_types := [];
     ts_column_collations := []; ts_is_virtual := false; ts_sql := []; ts_indexes := [bad_index]; ts_rowid_alias := None |}.

Lemma integrity_check_overlooks_witness :
  (check_index bad_db 10 (example_db_header 3) bad_table bad_index {[1; 2]} [] = Some [] ∧
   check_freelist bad_db (example_db_header 3) [] = Some []) ∧
  run_integrity_check bad_db id 10 (example_db_header 3) false = Some AllOk.
Proof.
  split; [|vm_compute; reflexivity].
  destruct (integrity_check_overlooks bad_db (example_db_header 3) bad_table bad_index {[1; 2]} (ILeaf 3 (map index_cell_of bad_index_keys))
    (map (λ k, encode_record k Utf8) bad_index_keys) bad_index_entries 10 (trunk_image bad_trunk 512) [5; 5] []) as (H1 & _ & H3).
  - apply mem_index_leaf; [done|done|reflexivity| |vm_compute; congruence].
    apply Forall_cons. split; [apply (index_cell_b _ 4 1)|apply Forall_singleton, (index_cell_b _ 4 1)]; vm_compute; reflexivity.
  - vm_compute. congruence.
  - reflexivity.
  - repeat (apply Forall2_cons; split); [..|constructor]; apply (local_payload_b _ _ _ 1); first [lia|vm_compute; congruence].
  - cbn. lia.
  - vm_compute. congruence.
  - repeat (apply Forall2_cons; split); [..|constructor]; vm_compute; reflexivity.
  - repeat (apply Forall_cons; split); [..|constructor]; apply (bool_decide_unpack _); vm_compute; exact I.
  - repeat constructor; vm_compute; congruence.
  - vm_compute. reflexivity.
  - apply bad_db_bytes.
  - vm_compute. congruence.
  - vm_compute. split; congruence.
  - vm_compute. split; congruence.
  - vm_compute. reflexivity.
  - vm_compute. reflexivity.
  - repeat apply Forall_cons_2; [..|constructor]; cbn; unfold leaf_ok; lia.
  - vm_compute. reflexivity.
  - vm_compute. congruence.
  - split; [exact H1|exact H3].
Defined.
