(* ===== verification/BtreeLeaf.v ===== *)
(** * Scanning a leaf for an insertion or a deletion

    [scan_leaf_cells] finds where a new rowid goes and how much room the
    page's cells take; [find_leaf_cell] finds the cell of a rowid with the
    first page of its overflow chain. *)

From S2P Require Import Prelude Varint Record Vfs Header Freelist Pager BtreePage BtreeSplice BtreePayload.

(** Index of the first cell with a larger rowid. *)
Fixpoint first_gt (rowid : Z) (cells : list bytes) : nat :=
  match cells with
  | [] => 0
  | c :: cells => if decide (rowid < cell_rowid c) then 0 else S (first_gt rowid cells)
  end.

Lemma first_gt_le rowid cells : (first_gt rowid cells ≤ length cells)%nat.
Proof. induction cells as [|c cells IH]; cbn; [lia|]. case_decide; lia. Qed.

Lemma first_gt_split rowid cells :
  StronglySorted Z.lt (map cell_rowid cells) → rowid ∉ map cell_rowid cells →
  Forall (λ c, cell_rowid c < rowid) (take (first_gt rowid cells) cells) ∧
  Forall (λ c, rowid < cell_rowid c) (drop (first_gt rowid cells) cells).
Proof.
  induction cells as [|c cells IH]; cbn [map]; intros Hs Hn; [done|].
  apply StronglySorted_inv in Hs as [Hs Hlt]. rewrite elem_of_cons in Hn. cbn [first_gt]. case_decide as Hd.
  - cbn [take drop]. split; [constructor|]. constructor; [done|]. rewrite Forall_fmap in Hlt.
    eapply Forall_impl; [exact Hlt|]. cbn. intros; lia.
  - destruct IH as [H1 H2]; [done|tauto|]. cbn [take drop]. split; [|done]. constructor; [|done].
    assert (cell_rowid c ≠ rowid) by naive_solver. lia.
Qed.

Section scan.
Context (u : Z) (buf : bytes) (hs : Z) (cells : list bytes) (pn : Z).
Hypothesis (Hleaf : table_leaf u hs cells buf).

Lemma leaf_facts :
  ∃ offs, has_cells buf hs 8 cells offs ∧ 0 ≤ hs ≤ 100 ∧ zlen buf ≤ 65536 ∧ zlen cells ≤ 32768.
Proof.
  destruct Hleaf as (_ & _ & offs & cs & bl & Hlay). exists offs.
  pose proof (leaf_count _ _ _ _ _ _ Hlay) as [? _]. split_and!; try apply Hlay. lia.
Qed.

(** What the loops read of cell [i]. *)
Lemma scan_cell i c :
  cells !! i = Some c →
  ∃ off pl t, read_cell_pointer buf (cell_ptr_offset (sat_add hs 8) (Z.of_nat i)) pn (Z.of_nat i) = Ok off ∧
    decode_cell_head buf off pn = Ok (cell_rowid c, pl, off + t) ∧
    cell_end u pl (off + t) false = off + zlen c ∧ 0 ≤ off ∧ off + zlen c ≤ zlen buf ∧ 0 ≤ pl ∧ 0 ≤ t ∧
    decode_cell_head c 0 0 = Ok (cell_rowid c, pl, t) ∧ get_range buf off (off + zlen c) = Some c.
Proof.
  intros Hc. destruct leaf_facts as (offs & Hcells & Hhs & Hsz & Hn).
  destruct (hc_lookup _ _ _ _ _ _ _ Hcells Hc) as [off Ho].
  pose proof (hc_cell _ _ _ _ _ Hcells i off c Ho Hc) as Hg.
  pose proof (Forall_lookup_1 _ _ _ _ (proj1 (proj2 Hleaf)) Hc) as Hcell.
  destruct (table_cell_read u buf off c pn Hcell Hsz Hg) as (pl & t & Hd & He & Hp & Ht & Hd0).
  exists off, pl, (t - off). replace (off + (t - off)) with t by lia.
  pose proof Hg as (? & ? & _)%get_range_Some. split_and!; try done; try lia.
  by rewrite (hc_pointer _ _ _ _ _ _ _ pn Hcells) by (done || lia).
Qed.

Lemma scan_loop_ok rowid n i pos tot :
  rowid ∉ map cell_rowid cells → (i + n = length cells)%nat → 0 ≤ tot → tot + zlen (concat (drop i cells)) ≤ 1048576 →
  pos = zlen cells ∨ 0 ≤ pos < Z.of_nat i →
  scan_leaf_loop n (Z.of_nat i) buf (sat_add hs 8) pn u rowid (zlen cells) pos tot =
    Ok (if decide (pos = zlen cells) then Z.of_nat (i + first_gt rowid (drop i cells)) else pos,
        tot + zlen (concat (drop i cells))).
Proof.
  intros Hni. revert i pos tot. induction n as [|n IH]; intros i pos tot Hi Ht Hb Hpos; cbn [scan_leaf_loop].
  - rewrite drop_ge by lia. cbn [first_gt concat length]. rewrite !Z.add_0_r. do 2 f_equal. case_decide; lia.
  - destruct (lookup_lt_is_Some_2 cells i ltac:(lia)) as [c Hc].
    destruct (scan_cell i c Hc) as (off & pl & t & -> & -> & He & Hoff & Hend & _).
    rewrite decide_False.
    2:{ intros <-. apply Hni, list_elem_of_fmap_2. by eapply list_elem_of_lookup_2. }
    rewrite He, decide_False by lia. rewrite sat_sub_ge by lia. replace (off + zlen c - off) with (zlen c) by lia.
    rewrite (drop_S _ _ _ Hc) in *. cbn [concat first_gt] in *. rewrite length_app in *.
    rewrite (sat_add_page tot) by lia. replace (Z.of_nat i + 1) with (Z.of_nat (S i)) by lia.
    set (pos' := if decide (rowid < cell_rowid c ∧ pos = zlen cells) then Z.of_nat i else pos).
    assert (Hpos' : pos' = zlen cells ∨ 0 ≤ pos' < Z.of_nat (S i)) by (unfold pos'; case_decide; lia).
    rewrite IH by (done || lia). do 2 f_equal; [|lia]. unfold pos'. clear Hpos' IH.
    destruct (decide (pos = zlen cells)) as [->|Hne].
    + destruct (decide (rowid < cell_rowid c)) as [Hlt|Hge].
      * rewrite (decide_True (P := rowid < cell_rowid c ∧ zlen cells = zlen cells)) by done.
        rewrite decide_False by lia. lia.
      * rewrite (decide_False (P := rowid < cell_rowid c ∧ zlen cells = zlen cells)) by tauto.
        rewrite decide_True by done. lia.
    + rewrite (decide_False (P := rowid < cell_rowid c ∧ pos = zlen cells)) by tauto. by rewrite decide_False.
Qed.

Lemma scan_leaf_ok rowid :
  rowid ∉ map cell_rowid cells → zlen (concat cells) ≤ 65536 →
  scan_leaf_cells buf hs pn u rowid = Ok (Z.of_nat (first_gt rowid cells), zlen cells, zlen (concat cells)).
Proof.
  intros Hni Hb. destruct leaf_facts as (offs & Hcells & Hhs & Hsz & Hn). unfold scan_leaf_cells.
  rewrite read_num_cells_eq by lia. rewrite (hc_num _ _ _ _ _ Hcells). cbn [ok_or]. rewrite Nat2Z.id.
  pose proof (scan_loop_ok rowid (length cells) 0 (zlen cells) 0 Hni) as Hs. rewrite drop_0 in Hs.
  change (Z.of_nat 0) with 0 in Hs. rewrite Hs by lia. cbn [fst snd]. by rewrite decide_True.
Qed.

Lemma scan_loop_dup rowid n i pos tot :
  (i + n = length cells)%nat → 0 ≤ tot → rowid ∈ map cell_rowid (drop i cells) →
  scan_leaf_loop n (Z.of_nat i) buf (sat_add hs 8) pn u rowid (zlen cells) pos tot = Err (DuplicateRowid rowid).
Proof.
  revert i pos tot. induction n as [|n IH]; intros i pos tot Hi Ht Hin; cbn [scan_leaf_loop].
  - rewrite drop_ge in Hin by lia. by apply not_elem_of_nil in Hin.
  - destruct (lookup_lt_is_Some_2 cells i ltac:(lia)) as [c Hc].
    destruct (scan_cell i c Hc) as (off & pl & t & -> & -> & He & Hoff & Hend & _).
    case_decide as Hd; [done|]. rewrite He, decide_False by lia.
    rewrite (drop_S _ _ _ Hc) in Hin. cbn [map] in Hin. apply elem_of_cons in Hin as [?|Hin]; [congruence|].
    replace (Z.of_nat i + 1) with (Z.of_nat (S i)) by lia. apply IH; [lia| |done].
    apply sat_add_nonneg; [done|apply sat_sub_nonneg].
Qed.

Lemma scan_leaf_dup rowid :
  rowid ∈ map cell_rowid cells → scan_leaf_cells buf hs pn u rowid = Err (DuplicateRowid rowid).
Proof.
  intros Hin. destruct leaf_facts as (offs & Hcells & Hhs & Hsz & Hn). unfold scan_leaf_cells.
  rewrite read_num_cells_eq by lia. rewrite (hc_num _ _ _ _ _ Hcells). cbn [ok_or]. rewrite Nat2Z.id.
  pose proof (scan_loop_dup rowid (length cells) 0 (zlen cells) 0) as Hs. rewrite drop_0 in Hs.
  change (Z.of_nat 0) with 0 in Hs. by rewrite Hs.
Qed.

(** [find_leaf_cell]: [o] is the first overflow page of the cell found. *)
Definition overflow_ptr (c : bytes) (o : Z) : Prop :=
  ∀ pl t, decode_cell_head c 0 0 = Ok (cell_rowid c, pl, t) →
    if decide (local_payload_size u pl false < pl)
    then read_be 4 c (t + local_payload_size u pl false) = Some o else o = 0.

Lemma find_loop_ok rowid n i j c o :
  (i + n = length cells)%nat → (i ≤ j)%nat → cells !! j = Some c → cell_rowid c = rowid → overflow_ptr c o →
  (∀ j' c', (i ≤ j' < j)%nat → cells !! j' = Some c' → cell_rowid c' ≠ rowid) →
  find_leaf_loop n (Z.of_nat i) buf (sat_add hs 8) pn u rowid = Ok (Some (Z.of_nat j, o)).
Proof.
  intros Hi Hij Hj Hrow Ho. revert i Hi Hij. induction n as [|n IH]; intros i Hi Hij Hbefore; cbn [find_leaf_loop].
  { pose proof (lookup_lt_Some _ _ _ Hj). lia. }
  destruct (lookup_lt_is_Some_2 cells i ltac:(lia)) as [x Hx].
  destruct (scan_cell i x Hx) as (off & pl & t & -> & -> & He & Hoff & Hend & Hpl & Ht & Hd & Hg).
  destruct leaf_facts as (_ & _ & _ & Hsz & _).
  destruct (decide (i = j)) as [->|Hne].
  - rewrite Hx in Hj. injection Hj as ->. rewrite decide_False by tauto. specialize (Ho pl t Hd).
    pose proof (local_payload_size_nonneg u pl false Hpl) as Hnn. set (loc := local_payload_size u pl false) in *.
    unfold cell_end in He. cbv zeta in He. fold loc in He. case_decide as Hlt; [|by rewrite Ho].
    rewrite bool_decide_eq_true_2 in He by done.
    assert (HU : 200000 ≤ USIZE_MAX) by done. unfold sat_add in He.
    assert (Hb : off + t + loc + 4 ≤ 65536) by lia.
    rewrite sat_add_page by lia. unfold read_u32. rewrite <- Z.add_assoc. by rewrite (read_be_in 4 _ _ _ _ _ Hg Ho) by (cbn; lia).
  - assert (cell_rowid x ≠ rowid) by (apply (Hbefore i); [lia|done]). rewrite decide_True by done.
    replace (Z.of_nat i + 1) with (Z.of_nat (S i)) by lia. apply IH; [lia|lia|]. intros j' c' Hj'. apply Hbefore. lia.
Qed.

Lemma find_leaf_ok j c o :
  cells !! j = Some c → overflow_ptr c o → NoDup (map cell_rowid cells) →
  find_leaf_cell buf hs pn u (cell_rowid c) = Ok (Some (Z.of_nat j, zlen cells, o)).
Proof.
  intros Hj Ho Hnd. destruct leaf_facts as (offs & Hcells & Hhs & Hsz & Hn). unfold find_leaf_cell.
  rewrite read_num_cells_eq by lia. rewrite (hc_num _ _ _ _ _ Hcells). cbn [ok_or]. rewrite Nat2Z.id.
  pose proof (find_loop_ok (cell_rowid c) (length cells) 0 j c o) as Hf. change (Z.of_nat 0) with 0 in Hf.
  rewrite Hf; [done|lia|lia|done|done|done|]. intros j' c' Hlt Hc' Heq.
  assert (j' = j); [|lia]. eapply (NoDup_lookup _ _ _ (cell_rowid c) Hnd); rewrite list_lookup_fmap.
  - by rewrite Hc', <- Heq.
  - by rewrite Hj.
Qed.

Lemma find_leaf_none rowid :
  rowid ∉ map cell_rowid cells → find_leaf_cell buf hs pn u rowid = Ok None.
Proof.
  intros Hni. destruct leaf_facts as (offs & Hcells & Hhs & Hsz & Hn). unfold find_leaf_cell.
  rewrite read_num_cells_eq by lia. rewrite (hc_num _ _ _ _ _ Hcells). cbn [ok_or]. rewrite Nat2Z.id.
  enough (∀ n i, (i + n = length cells)%nat →
    find_leaf_loop n (Z.of_nat i) buf (sat_add hs 8) pn u rowid = Ok None) as Hl.
  { change 0 with (Z.of_nat 0). by rewrite Hl. }
  intros n. induction n as [|n IH]; intros i Hi; [done|]. cbn [find_leaf_loop].
  destruct (lookup_lt_is_Some_2 cells i ltac:(lia)) as [x Hx].
  destruct (scan_cell i x Hx) as (off & pl & t & -> & -> & _). rewrite decide_True.
  2:{ intros <-. apply Hni, list_elem_of_fmap_2. by eapply list_elem_of_lookup_2. }
  replace (Z.of_nat i + 1) with (Z.of_nat (S i)) by lia. apply IH. lia.
Qed.
End scan.
