(* ===== verification/BtreeStore.v ===== *)
(** * The page store under a b-tree

    What the b-tree code uses of the pager ([read_page], [get_page_mut],
    [allocate_page], [deallocate_page]) as an interface: [PageStore] has the
    operations, [PageStoreSpec] what they promise to a client that owns a set
    of pages.  The b-tree's theorems are proved against the interface, with a
    small total-correctness logic ([runs]); [pager_store] discharges it with
    the allocator's theorems. *)

From S2P Require Import Prelude Vfs Header Freelist PageCache Lock Pager Commit Allocator BtreePage.

(** ** Operations *)

Class PageStore (St : Type) : Type := {
  st_read : Z → St → result PageError bytes * St;
  st_get_mut : Z → St → result PagerError bytes * St;
  st_put : Z → bytes → St → St;
  st_alloc : St → result PagerError Z * St;
  st_free : Z → St → result PagerError () * St;
}.

(** Client computations: the store afterwards and the result. *)
Definition BM (St A : Type) : Type := St → result BtreeError A * St.

Section monad.
Context `{PageStore St}.

Definition bm_ok {A} (a : A) : BM St A := λ s, (Ok a, s).
Definition bm_lift {A} (r : result BtreeError A) : BM St A := λ s, (r, s).
Definition bm_bind {A B} (m : BM St A) (k : A → BM St B) : BM St B := λ s,
  match m s with
  | (Ok a, s) => k a s
  | (Err e, s) => (Err e, s)
  end.

(** [pager.read_page(n)] with its error mapped to [BtreeError::PageSource]. *)
Definition bm_read (n : Z) : BM St bytes := λ s,
  let '(r, s) := st_read n s in (map_err (BPageSource n) r, s).

(** [pager.get_page_mut(n)?] and an operation on the borrowed buffer, which
    is kept also when the operation fails part-way. *)
Definition bm_edit {A} (n : Z) (op : buf_op A) : BM St A := λ s,
  match st_get_mut n s with
  | (Err e, s) => (Err (BPager e), s)
  | (Ok buf, s) => let '(buf, r) := op buf in (r, st_put n buf s)
  end.

Definition bm_alloc : BM St Z := λ s, let '(r, s) := st_alloc s in (map_err BPager r, s).
Definition bm_free (n : Z) : BM St () := λ s, let '(r, s) := st_free n s in (map_err BPager r, s).
End monad.

Notation "'let+' p := m 'in' k" := (bm_bind m (λ p, k))
  (at level 10, p strict pattern, m at level 100, k at level 200,
   format "'[v' 'let+'  p  :=  m  'in' '/' k ']'") : dbs_scope.

(** ** Promises

    [st_own s ps m k]: the client owns the pages of [m], of [ps] bytes each,
    with those contents, and at least [k] more allocations will succeed. *)

Class PageStoreSpec (St : Type) `{PageStore St} : Type := {
  st_own : St → Z → gmap Z bytes → nat → Prop;
  own_size s ps m k : st_own s ps m k → 512 ≤ ps ≤ 65536;
  own_page s ps m k n b : st_own s ps m k → m !! n = Some b → 2 ≤ n < 4294967296 ∧ zlen b = ps;
  own_less s ps m k k' : st_own s ps m k → (k' ≤ k)%nat → st_own s ps m k';
  own_read s ps m k n b : st_own s ps m k → m !! n = Some b →
    ∃ s', st_read n s = (Ok b, s') ∧ st_own s' ps m k;
  own_edit s ps m k n b : st_own s ps m k → m !! n = Some b →
    ∃ s1, st_get_mut n s = (Ok b, s1) ∧
      ∀ b', zlen b' = ps → st_own (st_put n b' s1) ps (<[n := b']> m) k;
  own_alloc s ps m k : st_own s ps m (S k) →
    ∃ n b s', st_alloc s = (Ok n, s') ∧ m !! n = None ∧ st_own s' ps (<[n := b]> m) k;
  own_free s ps m k n b : st_own s ps m k → m !! n = Some b →
    ∃ s', st_free n s = (Ok (), s') ∧ st_own s' ps (delete n m) k;
}.

(** ** A total-correctness logic *)

Section runs.
Context `{PageStoreSpec St} (ps : Z).
Implicit Types (m : gmap Z bytes) (k : nat).

(** From any store that owns [m] and [k] allocations, [c] succeeds. *)
Definition runs {A} (c : BM St A) m k (Q : A → gmap Z bytes → nat → Prop) : Prop :=
  ∀ s, st_own s ps m k → ∃ a m' k' s', c s = (Ok a, s') ∧ st_own s' ps m' k' ∧ Q a m' k'.

Lemma runs_mono {A} (c : BM St A) m k (Q Q' : A → gmap Z bytes → nat → Prop) :
  runs c m k Q → (∀ a m' k', Q a m' k' → Q' a m' k') → runs c m k Q'.
Proof. intros Hc HQ s Hs. destruct (Hc s Hs) as (a & m' & k' & s' & ? & ? & ?). exists a, m', k', s'. auto. Qed.

Lemma runs_ok {A} (a : A) m k (Q : A → gmap Z bytes → nat → Prop) : Q a m k → runs (bm_ok a) m k Q.
Proof. intros HQ s Hs. by exists a, m, k, s. Qed.

Lemma runs_lift {A} (r : result BtreeError A) a m k (Q : A → gmap Z bytes → nat → Prop) :
  r = Ok a → Q a m k → runs (bm_lift r) m k Q.
Proof. intros -> HQ s Hs. by exists a, m, k, s. Qed.

Lemma runs_bind {A B} (c : BM St A) (f : A → BM St B) m k (Q : B → gmap Z bytes → nat → Prop) :
  runs c m k (λ a m' k', runs (f a) m' k' Q) → runs (bm_bind c f) m k Q.
Proof.
  intros Hc s Hs. destruct (Hc s Hs) as (a & m' & k' & s' & Heq & Hs' & Hf).
  destruct (Hf s' Hs') as (b & m2 & k2 & s2 & Heq2 & Hs2 & HQ). exists b, m2, k2, s2.
  unfold bm_bind. by rewrite Heq.
Qed.

Lemma runs_less {A} (c : BM St A) m k k' (Q : A → gmap Z bytes → nat → Prop) :
  (k' ≤ k)%nat → runs c m k' Q → runs c m k Q.
Proof. intros Hk Hc s Hs. apply Hc. by eapply own_less. Qed.

Lemma runs_read n b m k (Q : bytes → gmap Z bytes → nat → Prop) :
  m !! n = Some b → Q b m k → runs (bm_read n) m k Q.
Proof.
  intros Hn HQ s Hs. destruct (own_read s ps m k n b Hs Hn) as (s' & Hr & Hs').
  exists b, m, k, s'. unfold bm_read. by rewrite Hr.
Qed.

Lemma runs_edit {A} n (op : buf_op A) b b' a m k (Q : A → gmap Z bytes → nat → Prop) :
  m !! n = Some b → op b = (b', Ok a) → length b' = length b → Q a (<[n := b']> m) k →
  runs (bm_edit n op) m k Q.
Proof.
  intros Hn Hop Hl HQ s Hs. destruct (own_edit s ps m k n b Hs Hn) as (s1 & Hg & Hput).
  destruct (own_page s ps m k n b Hs Hn) as [_ Hb].
  exists a, (<[n := b']> m), k, (st_put n b' s1). unfold bm_edit. rewrite Hg, Hop.
  split_and!; [done|apply Hput; lia|done].
Qed.

(** Reading a borrowed buffer changes nothing. *)
Lemma runs_peek {A} n (f : bytes → result BtreeError A) b a m k (Q : A → gmap Z bytes → nat → Prop) :
  m !! n = Some b → f b = Ok a → Q a m k → runs (bm_edit n (b_get f)) m k Q.
Proof.
  intros Hn Hf HQ. eapply runs_edit; [done|unfold b_get; by rewrite Hf|done|].
  by rewrite insert_id by done.
Qed.

Lemma runs_alloc m k (Q : Z → gmap Z bytes → nat → Prop) :
  (∀ n b, m !! n = None → 2 ≤ n < 4294967296 → zlen b = ps → Q n (<[n := b]> m) k) →
  runs bm_alloc m (S k) Q.
Proof.
  intros HQ s Hs. destruct (own_alloc s ps m k Hs) as (n & b & s' & Ha & Hn & Hs').
  destruct (own_page s' ps _ k n b Hs') as [Hr Hb]; [by rewrite lookup_insert_eq|].
  exists n, (<[n := b]> m), k, s'. unfold bm_alloc. rewrite Ha. split_and!; [done|done|by apply HQ].
Qed.

Lemma runs_free n b m k (Q : () → gmap Z bytes → nat → Prop) :
  m !! n = Some b → Q () (delete n m) k → runs (bm_free n) m k Q.
Proof.
  intros Hn HQ s Hs. destruct (own_free s ps m k n b Hs Hn) as (s' & Hf & Hs').
  exists (), (delete n m), k, s'. unfold bm_free. by rewrite Hf.
Qed.

(** From any such store [c] fails with [e]. *)
Definition raises {A} (c : BM St A) m k (e : BtreeError) (Q : gmap Z bytes → nat → Prop) : Prop :=
  ∀ s, st_own s ps m k → ∃ m' k' s', c s = (Err e, s') ∧ st_own s' ps m' k' ∧ Q m' k'.

Lemma raises_lift {A} (r : result BtreeError A) e m k (Q : gmap Z bytes → nat → Prop) :
  r = Err e → Q m k → raises (bm_lift r) m k e Q.
Proof. intros -> HQ s Hs. by exists m, k, s. Qed.

Lemma raises_first {A B} (c : BM St A) (f : A → BM St B) m k e (Q : gmap Z bytes → nat → Prop) :
  raises c m k e Q → raises (bm_bind c f) m k e Q.
Proof.
  intros Hc s Hs. destruct (Hc s Hs) as (m' & k' & s' & Heq & Hs' & HQ). exists m', k', s'.
  unfold bm_bind. by rewrite Heq.
Qed.

Lemma raises_then {A B} (c : BM St A) (f : A → BM St B) m k e (Q : gmap Z bytes → nat → Prop) :
  runs c m k (λ a m' k', raises (f a) m' k' e Q) → raises (bm_bind c f) m k e Q.
Proof.
  intros Hc s Hs. destruct (Hc s Hs) as (a & m' & k' & s' & Heq & Hs' & Hf).
  destruct (Hf s' Hs') as (m2 & k2 & s2 & Heq2 & Hs2 & HQ). exists m2, k2, s2.
  unfold bm_bind. by rewrite Heq.
Qed.

(** A failing operation that leaves the buffer as it was. *)
Lemma raises_edit {A} n (op : buf_op A) b e m k (Q : gmap Z bytes → nat → Prop) :
  m !! n = Some b → op b = (b, Err e) → Q m k → raises (bm_edit n op) m k e Q.
Proof.
  intros Hn Hop HQ s Hs. destruct (own_edit s ps m k n b Hs Hn) as (s1 & Hg & Hput).
  destruct (own_page s ps m k n b Hs Hn) as [_ Hb]. specialize (Hput b Hb). rewrite insert_id in Hput by done.
  exists m, k, (st_put n b s1). unfold bm_edit. by rewrite Hg, Hop.
Qed.

(** Facts about the owned pages may be used in a run. *)
Lemma runs_facts {A} (c : BM St A) m k (Q : A → gmap Z bytes → nat → Prop) :
  (512 ≤ ps ≤ 65536 → (∀ n b, m !! n = Some b → 2 ≤ n < 4294967296 ∧ zlen b = ps) → runs c m k Q) →
  runs c m k Q.
Proof.
  intros Hc s Hs. apply Hc; [by eapply own_size| |done]. intros n b. by eapply own_page.
Qed.
End runs.

(** ** The pager is a page store *)

Record pager_client (L : Type) `{FileLock L} : Type := { pc_pager : Pager (L := L); pc_fs : fs }.
Arguments pc_pager {_ _} _.
Arguments pc_fs {_ _} _.

Section pager.
Context `{FileLock L}.

Definition with_pager (c : pager_client L) (p : Pager (L := L)) : pager_client L :=
  {| pc_pager := p; pc_fs := pc_fs c |}.

#[export] Instance pager_store : PageStore (pager_client L) := {
  st_read n c := let '(r, p) := Pager_read_page (pc_pager c) (pc_fs c) n in (r, with_pager c p);
  st_get_mut n c := let '(r, p) := get_page_mut (pc_pager c) (pc_fs c) n in (r, with_pager c p);
  st_put n b c := with_pager c (write_dirty (pc_pager c) n b);
  st_alloc c := let '(r, p) := allocate_page (pc_pager c) (pc_fs c) in (r, with_pager c p);
  st_free n c := let '(r, p) := deallocate_page n (pc_pager c) (pc_fs c) in (r, with_pager c p);
}.

(** No operation changes the page size. *)
Definition keeps_size {A} (c : PM (L := L) A) : Prop := ∀ p d, pg_page_size (c p d).2 = pg_page_size p.

Lemma ks_ok {A} (a : A) : keeps_size (pm_ok a).
Proof. done. Qed.
Lemma ks_lift {A} (r : result PagerError A) : keeps_size (pm_lift r).
Proof. done. Qed.
Lemma ks_bind {A B} (c : PM (L := L) A) (f : A → PM (L := L) B) :
  keeps_size c → (∀ a, keeps_size (f a)) → keeps_size (pm_bind c f).
Proof.
  intros Hc Hf p d. unfold pm_bind. specialize (Hc p d). destruct (c p d) as [[a|e] p']; [|done].
  cbn in Hc. rewrite <- Hc. apply Hf.
Qed.
Lemma ks_read n : keeps_size (pm_read n).
Proof.
  intros p d. unfold pm_read, Pager_read_page. repeat case_match; simplify_eq; done.
Qed.
Lemma ks_edit n e : keeps_size (pm_edit n e).
Proof. intros p d. unfold pm_edit, get_page_mut. repeat case_match; simplify_eq; done. Qed.
Lemma ks_zeros n : keeps_size (pm_insert_zeros n).
Proof. done. Qed.
Lemma ks_size : keeps_size pm_page_size.
Proof. done. Qed.

Create HintDb keeps_size.
#[local] Hint Resolve ks_ok ks_lift ks_read ks_edit ks_zeros ks_size : keeps_size.

Ltac keeps_size := repeat first [solve [auto with keeps_size]|apply ks_bind; [|intros ?]|case_match].

Lemma allocate_page_size : keeps_size allocate_page.
Proof. unfold allocate_page. keeps_size. Qed.
Lemma deallocate_page_size n : keeps_size (deallocate_page n).
Proof. unfold deallocate_page. keeps_size. Qed.

Definition pager_own (c : pager_client L) (ps : Z) (m : gmap Z bytes) (k : nat) : Prop :=
  pg_page_size (pc_pager c) = ps ∧
  ∃ count ts, owns (pc_pager c) (pc_fs c) count ts m ∧ count + Z.of_nat k + 1 < U32_MAX.

Lemma pager_own_view c ps m k n b :
  pager_own c ps m k → m !! n = Some b → view (pc_pager c) (pc_fs c) n = Ok b.
Proof. intros (_ & count & ts & [_ Ho] & _) Hn. by apply Ho. Qed.

Lemma pager_own_page c ps m k n b :
  pager_own c ps m k → m !! n = Some b → 2 ≤ n < 4294967296 ∧ zlen b = ps.
Proof.
  intros (Hps & count & ts & [I Ho] & Hk) Hn. destruct (Ho n b Hn) as [[Hr _] Hv]. cbn in Hr.
  unfold U32_MAX in Hk. split; [lia|].
  destruct (ai_pages _ _ _ _ I n) as (b' & Hv' & Hl); [lia|]. congruence.
Qed.

Lemma pager_own_read c ps m k n b :
  pager_own c ps m k → m !! n = Some b → ∃ c', st_read n c = (Ok b, c') ∧ pager_own c' ps m k.
Proof.
  intros Hown Hn. pose proof (pager_own_view _ _ _ _ _ _ Hown Hn) as Hv.
  destruct Hown as (Hps & count & ts & [I Ho] & Hk).
  destruct (Pager_read_page_spec (pc_pager c) (pc_fs c) n (ai_coherent _ _ _ _ I)) as (p' & Hr & Hs & Hco).
  cbn [st_read pager_store]. rewrite Hr, Hv. eexists. split; [done|].
  assert (M : moved (pc_pager c) (pc_fs c) p' (view (pc_pager c) (pc_fs c))) by (rewrite Hs in Hco |- *; by split).
  split; [cbn; by rewrite (mv_ps _ _ _ _ M)|]. exists count, ts. split; [|done]. split.
  - by eapply inv_read.
  - intros x y Hx. cbn. rewrite (mv_view _ _ _ _ M). by apply Ho.
Qed.

Lemma pager_own_edit c ps m k n b :
  pager_own c ps m k → m !! n = Some b →
  ∃ c1, st_get_mut n c = (Ok b, c1) ∧ ∀ b', zlen b' = ps → pager_own (st_put n b' c1) ps (<[n := b']> m) k.
Proof.
  intros Hown Hn. pose proof (pager_own_view _ _ _ _ _ _ Hown Hn) as Hv.
  destruct Hown as (Hps & count & ts & Ho & Hk). pose proof Ho as [I _].
  destruct (get_page_mut_spec (pc_pager c) (pc_fs c) n (ai_coherent _ _ _ _ I)) as (p1 & Hg & Hco1 & Hv1 & _ & _ & Hp1).
  cbn [st_get_mut pager_store]. rewrite Hg, Hv. cbn [p_page map_err]. eexists. split; [done|].
  intros b' Hb'.
  assert (He : pm_edit n (λ _, (b', Ok ())) (pc_pager c) (pc_fs c) = (Ok (), write_dirty p1 n b')).
  { unfold pm_edit. rewrite Hg, Hv. done. }
  split; [cbn; rewrite Hp1; exact Hps|]. exists count, ts. split; [|done].
  eapply owns_write; [exact Ho|by rewrite Hn|by rewrite Hps|exact He].
Qed.

Lemma pager_own_alloc c ps m k :
  pager_own c ps m (S k) →
  ∃ n b c', st_alloc c = (Ok n, c') ∧ m !! n = None ∧ pager_own c' ps (<[n := b]> m) k.
Proof.
  intros (Hps & count & ts & Ho & Hk). pose proof Ho as [I Hown].
  destruct (allocate_page_ok (pc_pager c) (pc_fs c) count ts I) as (n & p' & c' & ts' & Ha & I' & Hsp & Hu & _); [lia|].
  destruct (alloc_spec_live _ _ _ Hsp) as (Hnl & Hn1 & Hl & Hcc);
    [apply (ai_count _ _ _ _ I)|intros x; by apply (free_set_range _ _ _ _ _ I)|].
  assert (Hlive : live (abstract c' ts') n) by (apply Hl; by left).
  destruct (ai_pages _ _ _ _ I' n) as (b & Hv & Hb); [destruct Hlive as [Hr _]; cbn in Hr; lia|].
  assert (Hs : client_step (pc_fs c) (pc_pager c, m) (p', <[n := b]> m)) by (by eapply cs_alloc).
  destruct (owns_step _ _ _ _ _ _ _ Hs Ho) as (c2 & ts2 & Ho2 & Hc2); [lia|].
  exists n, b, (with_pager c p'). cbn [st_alloc pager_store]. rewrite Ha. split_and!; [done| |].
  - destruct (m !! n) as [x|] eqn:E; [|done]. by destruct (Hown n x E).
  - split; [|exists c2, ts2; split; [done|lia]].
    cbn. rewrite <- Hps. pose proof (allocate_page_size (pc_pager c) (pc_fs c)) as Hsz. by rewrite Ha in Hsz.
Qed.

Lemma pager_own_free c ps m k n b :
  pager_own c ps m k → m !! n = Some b → ∃ c', st_free n c = (Ok (), c') ∧ pager_own c' ps (delete n m) k.
Proof.
  intros (Hps & count & ts & Ho & Hk) Hn. pose proof Ho as [I Hown]. destruct (Hown n b Hn) as [Hlive _].
  destruct (deallocate_page_ok (pc_pager c) (pc_fs c) count ts n I Hlive) as (p' & ts' & Hd & I' & _).
  destruct (owns_free _ _ _ _ _ n _ Ho (ex_intro _ b Hn) Hd) as [ts2 Ho2].
  exists (with_pager c p'). cbn [st_free pager_store]. rewrite Hd. split; [done|]. split.
  - cbn. rewrite <- Hps. pose proof (deallocate_page_size n (pc_pager c) (pc_fs c)) as Hsz. by rewrite Hd in Hsz.
  - by exists count, ts2.
Qed.

Lemma pager_own_size c ps m k : pager_own c ps m k → 512 ≤ ps ≤ 65536.
Proof. intros (<- & count & ts & [I _] & _). apply (ai_ps _ _ _ _ I). Qed.

Lemma pager_own_less c ps m k k' : pager_own c ps m k → (k' ≤ k)%nat → pager_own c ps m k'.
Proof. intros (Hps & count & ts & Ho & Hk) Hle. split; [done|]. exists count, ts. split; [done|lia]. Qed.

#[export] Instance pager_store_spec : PageStoreSpec (pager_client L) := {
  st_own := pager_own;
  own_size := pager_own_size;
  own_page := pager_own_page;
  own_less := pager_own_less;
  own_read := pager_own_read;
  own_edit := pager_own_edit;
  own_alloc := pager_own_alloc;
  own_free := pager_own_free;
}.
End pager.
