(* ===== verification/BtreeInsert.v ===== *)
(** * Inserting into a table b-tree ([row/btree/table/insert.rs])

    [insert_row] with its overflow chain, the leaf split by bytes, the
    cascade of interior splits and the root split, over the page store
    interface.  The correctness proofs are in [BtreeSplit] and
    [BtreeInsertProof]. *)

From S2P Require Import Prelude Varint Record Vfs Header Freelist Pager BtreePage BtreeSplice BtreePayload BtreeStore.

(** ** Splitting by bytes *)

(** The balanced two-way cut: [best] is [(max side, cut)]. *)
Fixpoint best_cut (total i acc : Z) (weights : list Z) (best : option (Z * Z)) : option (Z * Z) :=
  match weights with
  | [] => best
  | w :: weights =>
      let acc := sat_add acc w in
      let worst := Z.max acc (sat_sub total acc) in
      let best :=
        match best with
        | None => Some (worst, i + 1)
        | Some (m, cut) => if decide (worst < m) then Some (worst, i + 1) else Some (m, cut)
        end in
      best_cut total (i + 1) acc weights best
  end.

(** First-fit packing: the group ends before the last one. *)
Fixpoint first_fit (capacity i acc : Z) (weights : list Z) : list Z :=
  match weights with
  | [] => []
  | w :: weights =>
      if decide (0 < acc ∧ capacity < sat_add acc w)
      then i :: first_fit capacity (i + 1) (sat_add 0 w) weights
      else first_fit capacity (i + 1) (sat_add acc w) weights
  end.

Definition split_groups_by_bytes (sizes : list Z) (capacity : Z) : list Z :=
  let n := zlen sizes in
  let weights := map (λ s, sat_add s 2) sizes in
  let total := foldr Z.add 0 weights in
  match best_cut total 0 0 (take (length sizes - 1) weights) None with
  | Some (worst, cut) =>
      if decide (worst ≤ capacity) then [cut; n] else first_fit capacity 0 0 weights ++ [n]
  | None => first_fit capacity 0 0 weights ++ [n]
  end.

(** [i.clamp(1, n.saturating_sub(2).max(1))]. *)
Definition clamp_mid (i n : Z) : Z := Z.max 1 (Z.min i (Z.max (sat_sub n 2) 1)).

Fixpoint median_loop (total n i acc : Z) (cells : list bytes) : Z :=
  match cells with
  | [] => clamp_mid (n / 2) n
  | c :: cells =>
      let acc := sat_add acc (zlen c) in
      if decide (total ≤ sat_mul acc 2) then clamp_mid i n else median_loop total n (i + 1) acc cells
  end.

Definition interior_median_by_bytes (cells : list bytes) : Z :=
  median_loop (foldr Z.add 0 (map (λ c : bytes, zlen c) cells)) (zlen cells) 0 0 cells.

(** [rest.split_off(end - taken)] for each group end. *)
Fixpoint cut_groups {A} (taken : Z) (ends : list Z) (rest : list A) : list (list A) :=
  match ends with
  | [] => []
  | e :: ends => let n := Z.to_nat (sat_sub e taken) in take n rest :: cut_groups e ends (drop n rest)
  end.

(** The entries of a parent after a child [old_page] was split. *)
Definition split_entries (parent_page : Z) (entries : list (Z * Z)) (rightmost old_page new_page divider : Z)
  : result BtreeError (list (Z * Z) * Z) :=
  match list_find (λ e : Z * Z, e.1 = old_page) entries with
  | Some (idx, _) =>
      let entries := insert_at idx (old_page, divider) entries in
      let? successor := ok_or (entries !! S idx)
        (BInternal "split successor entry must exist right after insertion") in
      Ok (<[S idx := (new_page, successor.2)]> entries, rightmost)
  | None =>
      if decide (rightmost = old_page) then Ok (entries ++ [(old_page, divider)], new_page)
      else Err (MissingChildRoute parent_page old_page)
  end.

(** The overflow chunks of [data]; [fuel] is the length of [data]. *)
Fixpoint chunks_of (fuel : nat) (available : Z) (rest : bytes) : list bytes :=
  match fuel, rest with
  | S fuel, _ :: _ =>
      let take_ := Z.to_nat (Z.min (zlen rest) available) in
      take take_ rest :: chunks_of fuel available (drop take_ rest)
  | _, _ => []
  end.

(** The child a descent to [rowid] takes. *)
Fixpoint pick_child (rowid : Z) (entries : list (Z * Z)) (rightmost : Z) : Z :=
  match entries with
  | [] => rightmost
  | (child, key) :: entries => if decide (rowid ≤ key) then child else pick_child rowid entries rightmost
  end.

Section insert.
Context `{PageStore St}.

(** [find_leaf_page]; [fuel] is the page budget. *)
Fixpoint find_page_loop (fuel : nat) (ancestors : list Z) (page_num rowid : Z) : BM St (list Z * Z) :=
  match fuel with
  | O => bm_lift (Err (TraversalTooLong MAX_PAGES_VISITED))
  | S fuel =>
      let+ page := bm_read page_num in
      let header_start := page1_header_start page_num in
      let+ page_type := bm_lift (read_page_type page header_start page_num) in
      if decide (page_type = LEAF_TABLE) then bm_ok (ancestors, page_num)
      else if decide (page_type = INTERIOR_TABLE) then
        let+ er := bm_lift (collect_interior_entries page header_start page_num) in
        find_page_loop fuel (ancestors ++ [page_num]) (pick_child rowid er.1 er.2) rowid
      else bm_lift (Err (UnexpectedPageType page_num page_type))
  end.

Definition find_leaf_page (page_num rowid : Z) : BM St (list Z * Z) :=
  find_page_loop (Z.to_nat MAX_PAGES_VISITED) [] page_num rowid.

Fixpoint alloc_pages {A} (chunks : list A) : BM St (list Z) :=
  match chunks with
  | [] => bm_ok []
  | _ :: chunks =>
      let+ n := bm_alloc in
      let+ ns := alloc_pages chunks in
      bm_ok (n :: ns)
  end.

Fixpoint write_chunks (page_nums : list Z) (i : nat) (chunks : list bytes) : BM St () :=
  match chunks with
  | [] => bm_ok ()
  | chunk :: chunks =>
      let next := default 0 (page_nums !! S i) in
      let+ page_num := bm_lift (ok_or (page_nums !! i) (BInternal "overflow chain page index out of bounds")) in
      let+ _ := bm_edit page_num
        (let& _ := bt_put 0 (be_bytes 4 next) page_num in bt_put 4 chunk page_num) in
      write_chunks page_nums (S i) chunks
  end.

Definition write_overflow_chain (usable_size : Z) (data : bytes) : BM St Z :=
  let available := Z.max (sat_sub usable_size 4) 1 in
  let chunks := chunks_of (length data) available data in
  let+ page_nums := alloc_pages chunks in
  let+ _ := write_chunks page_nums 0 chunks in
  bm_ok (hd 0 page_nums).

Definition encode_leaf_cell (usable_size rowid : Z) (payload : bytes) : BM St bytes :=
  let payload_len := zlen payload in
  let local_size := Z.min (local_payload_size usable_size payload_len false) (zlen payload) in
  let local_bytes := take (Z.to_nat local_size) payload in
  let overflow_bytes := drop (Z.to_nat local_size) payload in
  let cell := encode_varint payload_len ++ encode_varint (wrap64 rowid) ++ local_bytes in
  if decide (overflow_bytes = []) then bm_ok cell
  else
    let+ overflow_first := write_overflow_chain usable_size overflow_bytes in
    bm_ok (cell ++ be_bytes 4 overflow_first).

(** The [match page_type] of [root_split] (and of [collapse_root]): the cells
    of [content] are written to page [dest]. *)
Definition copy_content (usable_size : Z) (content : bytes) (src_start src dest_start dest page_type : Z) : BM St () :=
  if decide (page_type = LEAF_TABLE) then
    let+ cells := bm_lift (collect_leaf_cells content src_start src usable_size) in
    bm_edit dest (write_leaf_page dest_start dest (cell_bytes cells))
  else if decide (page_type = INTERIOR_TABLE) then
    let+ er := bm_lift (collect_interior_entries content src_start src) in
    bm_edit dest (write_interior_page dest_start dest (interior_cells er.1) er.2)
  else bm_lift (Err (UnexpectedPageType src page_type)).

(** The root keeps its page number: its content moves to a new page. *)
Definition root_split (usable_size root_page new_right divider : Z) : BM St () :=
  let header_start_root := page1_header_start root_page in
  let+ content := bm_edit root_page (b_get (λ buf, Ok buf)) in
  let+ page_type := bm_lift (read_page_type content header_start_root root_page) in
  let+ relocated := bm_alloc in
  let+ _ := copy_content usable_size content header_start_root root_page 0 relocated page_type in
  bm_edit root_page (write_interior_page header_start_root root_page
                       [build_interior_cell relocated divider] new_right).

(** [insert_into_parent], on the ancestors from the parent up. *)
Fixpoint insert_into_parent_up (usable_size page_len : Z) (ancestors_up : list Z)
    (root_page old_page new_page divider : Z) : BM St () :=
  match ancestors_up with
  | [] => root_split usable_size root_page new_page divider
  | parent_page :: rest =>
      let header_start := page1_header_start parent_page in
      let+ er := bm_edit parent_page (b_get (λ buf, collect_interior_entries buf header_start parent_page)) in
      let+ er := bm_lift (split_entries parent_page er.1 er.2 old_page new_page divider) in
      let '(entries, rightmost) := er in
      let cells := interior_cells entries in
      let total_bytes := foldr Z.add 0 (map (λ c : bytes, zlen c) cells) in
      let needed := sat_add (sat_add (sat_add header_start 12) (sat_mul (zlen cells) 2)) total_bytes in
      if decide (needed ≤ page_len) then
        bm_edit parent_page (write_interior_page header_start parent_page cells rightmost)
      else
        let mid := Z.to_nat (interior_median_by_bytes cells) in
        let+ promoted := bm_lift (ok_or (entries !! mid)
          (BInternal "median entry index out of bounds during interior split")) in
        let+ right_page_num := bm_alloc in
        let+ _ := bm_edit parent_page
          (write_interior_page header_start parent_page (interior_cells (take mid entries)) promoted.1) in
        let+ _ := bm_edit right_page_num
          (write_interior_page 0 right_page_num (interior_cells (drop (S mid) entries)) rightmost) in
        insert_into_parent_up usable_size page_len rest root_page parent_page right_page_num promoted.2
  end.

Definition insert_into_parent (usable_size page_len : Z) (ancestors : list Z)
    (root_page old_page new_page divider : Z) : BM St () :=
  insert_into_parent_up usable_size page_len (rev ancestors) root_page old_page new_page divider.

(** One page per group; [first] is the leaf being split. *)
Fixpoint write_groups (first : option (Z * Z)) (groups : list (list (Z * bytes))) : BM St (list (Z * Z)) :=
  match groups with
  | [] => bm_ok []
  | group :: groups =>
      let+ divider := bm_lift (ok_or (fst <$> last group) (BInternal "split group must not be empty")) in
      let+ ph :=
        (match first with
         | Some ph => bm_ok ph
         | None => let+ page := bm_alloc in bm_ok (page, 0)
         end) in
      let+ _ := bm_edit ph.1 (write_leaf_page ph.2 ph.1 (cell_bytes group)) in
      let+ pages := write_groups None groups in
      bm_ok ((ph.1, divider) :: pages)
  end.

(** [for pair in pages.windows(2)]. *)
Fixpoint route_groups (usable_size page_len leaf_page root_page : Z) (route : list Z) (pages : list (Z * Z))
  : BM St () :=
  match pages with
  | (old_page, divider) :: (((new_page, _) :: _) as rest) =>
      let+ route :=
        (if decide (old_page ≠ leaf_page) then
           let+ af := find_leaf_page root_page divider in
           if decide (af.2 ≠ old_page)
           then bm_lift (Err (BInternal "re-descent after a three-way split did not reach the middle leaf"))
           else bm_ok af.1
         else bm_ok route) in
      let+ _ := insert_into_parent usable_size page_len route root_page old_page new_page divider in
      route_groups usable_size page_len leaf_page root_page route rest
  | _ => bm_ok ()
  end.

(** The work on the leaf itself, in one borrow: the cell is placed, or the
    cells that have to be split are returned. *)
Definition place_in_leaf (usable_size page_len header_start leaf_page rowid : Z) (cell : bytes)
  : buf_op (option (list (Z * bytes))) :=
  let& scan := b_get (λ buf, scan_leaf_cells buf header_start leaf_page usable_size rowid) in
  let '(insert_pos, num_cells, existing_bytes) := scan in
  let needed := sat_add (sat_add (sat_add (sat_add header_start 8) (sat_mul (sat_add num_cells 1) 2))
                  existing_bytes) (zlen cell) in
  if decide (needed ≤ page_len) then
    let& _ := insert_fitting header_start leaf_page usable_size insert_pos rowid cell in
    b_ok None
  else
    let& cells := b_get (λ buf, collect_leaf_cells buf header_start leaf_page usable_size) in
    b_ok (Some (insert_at (Z.to_nat insert_pos) (rowid, cell) cells)).

Definition insert_into_leaf (usable_size page_len leaf_page root_page : Z) (ancestors : list Z) (rowid : Z)
    (cell : bytes) : BM St () :=
  let header_start := page1_header_start leaf_page in
  let+ placed := bm_edit leaf_page (place_in_leaf usable_size page_len header_start leaf_page rowid cell) in
  match placed with
  | None => bm_ok ()
  | Some cells =>
      let capacity := sat_sub page_len (sat_add header_start 8) in
      let ends := split_groups_by_bytes (map (λ c : Z * bytes, zlen c.2) cells) capacity in
      let+ pages := write_groups (Some (leaf_page, header_start)) (cut_groups 0 ends cells) in
      route_groups usable_size page_len leaf_page root_page ancestors pages
  end.

Definition insert_row (header : DatabaseHeader) (root_page rowid : Z) (payload : bytes) : BM St () :=
  let usable_size := usable_page_size header in
  let+ cell := encode_leaf_cell usable_size rowid payload in
  let+ al := find_leaf_page root_page rowid in
  let+ page_len := bm_edit al.2 (b_get (λ buf, Ok (zlen buf))) in
  insert_into_leaf usable_size page_len al.2 root_page al.1 rowid cell.
End insert.
