(* ===== verification/BtreeSplit.v ===== *)
(** * Splitting pages by bytes: the pure part

    The groups [split_groups_by_bytes] cuts a leaf into (each fits a page, no
    row is lost, at most three of them), the median that splits an interior
    page, and the entries of a parent after a child was split. *)

From S2P Require Import Prelude Varint Record Vfs Header Freelist Pager BtreePage BtreeSplice BtreePayload BtreeStore BtreeInsert.

(** ** Leaf groups *)

Definition weight (c : Z * bytes) : Z := zlen c.2 + 2.
Definition wsum (cs : list (Z * bytes)) : Z := foldr Z.add 0 (map weight cs).

Lemma weight_pos c : 2 ≤ weight c.
Proof. unfold weight. lia. Qed.

Lemma wsum_app cs ds : wsum (cs ++ ds) = wsum cs + wsum ds.
Proof. unfold wsum. induction cs as [|c cs IH]; cbn [app map foldr] in *; lia. Qed.

Lemma wsum_cut n cs : wsum cs = wsum (take n cs) + wsum (drop n cs).
Proof. by rewrite <- wsum_app, take_drop. Qed.

Lemma wsum_nonneg cs : 0 ≤ wsum cs.
Proof. unfold wsum. induction cs as [|c cs IH]; cbn [map foldr] in *; [done|]. pose proof (weight_pos c). lia. Qed.

Lemma wsum_pos cs : cs ≠ [] → 2 ≤ wsum cs.
Proof. destruct cs as [|c cs]; [done|]. intros _. pose proof (wsum_nonneg cs). unfold wsum in *. cbn [map foldr]. pose proof (weight_pos c). lia. Qed.

Lemma wsum_need cs : wsum cs = cells_need (cell_bytes cs).
Proof.
  unfold wsum, cells_need, cell_bytes. induction cs as [|c cs IH]; [done|]. cbn [map foldr concat length]. rewrite length_app.
  unfold weight at 1. lia.
Qed.

(** What the groups have to be. *)
Record groups_ok (C : Z) (cells : list (Z * bytes)) (gs : list (list (Z * bytes))) : Prop := {
  go_concat : concat gs = cells;
  go_fit : Forall (λ g, g ≠ [] ∧ wsum g ≤ C) gs;
}.

Fixpoint crowded (C : Z) (gs : list (list (Z * bytes))) : Prop :=
  match gs with
  | g :: ((h :: _) as gs') => C < wsum g + wsum h ∧ crowded C gs'
  | _ => True
  end.

Lemma crowded_three C gs cells :
  groups_ok C cells gs → crowded C gs → wsum cells ≤ 2 * C → (length gs ≤ 3)%nat.
Proof.
  intros [<- _] Hc Hw. destruct gs as [|g1 [|g2 [|g3 [|g4 gs]]]]; cbn [concat crowded length] in *; try lia.
  rewrite !wsum_app in Hw. pose proof (wsum_nonneg (concat gs)). lia.
Qed.

(** The packing loop, with [cur] the group being filled. *)
Lemma first_fit_ok C cur xs taken :
  0 < C ≤ 65536 → Forall (λ c, weight c ≤ C) xs → wsum cur ≤ C → cur ++ xs ≠ [] → 0 ≤ taken →
  taken + zlen cur + zlen xs ≤ 65536 →
  let gs := cut_groups taken (first_fit C (taken + zlen cur) (wsum cur) (map weight xs) ++
                                [taken + zlen cur + zlen xs]) (cur ++ xs) in
  groups_ok C (cur ++ xs) gs ∧ crowded C gs ∧ (∃ g gs', gs = g :: gs' ∧ wsum cur ≤ wsum g).
Proof.
  intros HC Hxs. revert cur taken. induction Hxs as [|x xs Hx Hxs IH]; intros cur taken Hcur Hne Ht Hlen; cbn zeta.
  - cbn [first_fit map app cut_groups length]. rewrite !app_nil_r in *. rewrite sat_sub_ge by lia.
    replace (Z.to_nat (taken + zlen cur + Z.of_nat 0 - taken)) with (length cur) by lia. rewrite firstn_all.
    split_and!; [split; [cbn; by rewrite app_nil_r|]|done|by exists cur, []].
    constructor; [done|constructor].
  - cbn [map first_fit]. pose proof (wsum_nonneg cur). assert (Hw : 2 ≤ weight x) by (unfold weight; lia).
    rewrite !sat_add_page by lia. cbn [length] in *. case_decide as Hd.
    + destruct (IH [x] (taken + zlen cur)) as (Hg & Hcr & g & gs' & Hgs & Hge); [unfold wsum; cbn [map foldr]; lia|done|lia|cbn [length]; lia|].
      cbn [app cut_groups]. rewrite sat_sub_ge by lia.
      replace (Z.to_nat (taken + zlen cur - taken)) with (length cur) by lia.
      rewrite take_app_length, drop_app_length.
      change (x :: xs) with ([x] ++ xs). 
      replace (wsum [x]) with (0 + weight x) in * by (unfold wsum; cbn [map foldr]; lia).
      cbn [length] in *. replace (taken + zlen cur + Z.of_nat (S (length xs))) with (taken + zlen cur + Z.of_nat 1 + zlen xs) by lia.
      replace (taken + zlen cur + 1) with (taken + zlen cur + Z.of_nat 1) by lia.
      set (rest := cut_groups _ _ _) in *.
      assert (Hcur' : cur ≠ []) by (intros ->; unfold wsum in Hd; cbn in Hd; lia).
      split_and!.
      * destruct Hg as [Hcon Hfit]. split; [cbn; by rewrite Hcon|]. constructor; [done|done].
      * cbn [crowded]. rewrite Hgs in *. split; [|done]. lia.
      * eexists _, _. split; [done|lia].
    + assert (Hcur2 : wsum (cur ++ [x]) = wsum cur + weight x) by (rewrite wsum_app; unfold wsum; cbn [map foldr]; lia).
      destruct (IH (cur ++ [x]) taken) as (Hg & Hcr & g & gs' & Hgs & Hge).
      * rewrite Hcur2. destruct (decide (wsum cur = 0)); [lia|]. lia.
      * by destruct cur.
      * done.
      * rewrite length_app. cbn. lia.
      * rewrite <- (assoc_L (++)) in *. cbn [app] in *. rewrite length_app, Hcur2 in *. cbn [length] in *.
        replace (taken + Z.of_nat (length cur + 1)) with (taken + zlen cur + 1) in * by lia.
        replace (taken + zlen cur + 1 + zlen xs) with (taken + zlen cur + Z.of_nat (S (length xs))) in * by lia.
        split_and!; [done|done|]. exists g, gs'. split; [done|lia].
Qed.

Lemma best_cut_spec total i acc ws best worst cut :
  0 ≤ acc ≤ total → 0 ≤ i → Forall (λ w, 0 ≤ w) ws → acc + foldr Z.add 0 ws ≤ total → total ≤ 1048576 →
  best_cut total i acc ws best = Some (worst, cut) →
  best = Some (worst, cut) ∨
  ∃ j, (j < length ws)%nat ∧ cut = i + Z.of_nat j + 1 ∧
       worst = Z.max (acc + foldr Z.add 0 (take (S j) ws)) (total - (acc + foldr Z.add 0 (take (S j) ws))).
Proof.
  intros Ha Hi Hws. revert i acc best Ha Hi. induction Hws as [|w ws Hw Hws IH]; intros i acc best Ha Hi Hs Ht; cbn; [by left|].
  assert (Hsum : 0 ≤ foldr Z.add 0 ws) by (clear -Hws; induction Hws; cbn; lia). cbn in Hs.
  rewrite sat_add_page, sat_sub_ge by lia. intros Hb. apply IH in Hb as [Hb|(j & Hj & -> & ->)]; [| |lia..].
  - assert (best = Some (worst, cut) ∨ (worst, cut) = (Z.max (acc + w) (total - (acc + w)), i + 1)) as [Hx|[= -> ->]].
    { destruct best as [[m c]|]; [case_decide|]; naive_solver. }
    + by left.
    + right. exists 0%nat. cbn. split_and!; [lia|lia|]. rewrite Z.add_0_r. done.
  - right. exists (S j). cbn [take foldr]. split_and!; [lia|lia|]. f_equal; lia.
Qed.

Lemma weights_eq (cells : list (Z * bytes)) :
  Forall (λ c, weight c ≤ 65536) cells → map (λ s, sat_add s 2) (map (λ c : Z * bytes, zlen c.2) cells) = map weight cells.
Proof.
  intros Hc. rewrite map_map. induction Hc as [|c cells Hc _ IH]; [done|]. cbn. f_equal; [|done].
  unfold weight in *. rewrite sat_add_page by lia. done.
Qed.

Lemma foldr_wsum_take cells n : foldr Z.add 0 (take n (map weight cells)) = wsum (take n cells).
Proof. unfold wsum. by rewrite firstn_map. Qed.

(** The groups of a leaf that has outgrown its page by one cell. *)
Lemma split_groups_ok C cells :
  0 < C ≤ 65536 → Forall (λ c, weight c ≤ C) cells → cells ≠ [] → C < wsum cells ≤ 2 * C →
  let gs := cut_groups 0 (split_groups_by_bytes (map (λ c : Z * bytes, zlen c.2) cells) C) cells in
  groups_ok C cells gs ∧ (2 ≤ length gs ≤ 3)%nat.
Proof.
  intros HC Hc Hne Hw. cbn zeta. unfold split_groups_by_bytes.
  assert (Hc' : Forall (λ c, weight c ≤ 65536) cells) by (eapply Forall_impl; [exact Hc|]; cbn; intros; lia).
  rewrite weights_eq by done. rewrite !length_map. fold (wsum cells).
  assert (Hn : 2 * zlen cells ≤ wsum cells).
  { clear. unfold wsum. induction cells as [|c cells IH]; cbn [map foldr length] in *; [done|]. pose proof (weight_pos c). lia. }
  pose proof (first_fit_ok C [] cells 0 HC Hc ltac:(cbn; lia) Hne ltac:(lia) ltac:(cbn; lia)) as (Hg & Hcr & _).
  cbn [app length] in Hg, Hcr. rewrite Z.add_0_l in Hg, Hcr.
  assert (Hff : groups_ok C cells (cut_groups 0 (first_fit C 0 0 (map weight cells) ++ [zlen cells]) cells) ∧
    (2 ≤ length (cut_groups 0 (first_fit C 0 0 (map weight cells) ++ [zlen cells]) cells) ≤ 3)%nat).
  { split; [exact Hg|]. split; [|by eapply crowded_three; [exact Hg|exact Hcr|lia]].
    destruct Hg as [Hcon Hfit]. change (wsum []) with 0 in *. set (gs := cut_groups _ _ _) in *.
    destruct gs as [|g [|h gs]]; cbn; [by destruct cells| |lia].
    cbn in Hcon. rewrite app_nil_r in Hcon. subst g. apply Forall_cons in Hfit as [[_ ?] _]. lia. }
  destruct (best_cut _ _ _ _ _) as [[worst cut]|] eqn:Hb; [|exact Hff]. case_decide as Hwc; [|exact Hff].
  apply best_cut_spec in Hb as [Hb|(j & Hj & -> & ->)]; try done.
  - rewrite length_take, length_map in Hj. rewrite Z.add_0_l in Hwc.
    rewrite take_take, Nat.min_l, foldr_wsum_take in Hwc by lia.
    cbn [cut_groups]. rewrite !sat_sub_ge by lia. rewrite Z.sub_0_r.
    replace (Z.to_nat (0 + Z.of_nat j + 1)) with (S j) by lia.
    replace (Z.to_nat (zlen cells - (0 + Z.of_nat j + 1))) with (length (drop (S j) cells)) by (rewrite length_drop; lia).
    rewrite firstn_all. pose proof (wsum_cut (S j) cells).
    split; [split|cbn; lia].
    + cbn. by rewrite app_nil_r, take_drop.
    + assert (Hlt : ∀ (l : list (Z * bytes)), (0 < length l)%nat → l ≠ []) by (intros [|]; cbn; [lia|done]).
      constructor; [|constructor; [|constructor]].
      * split; [apply Hlt; rewrite length_take; lia|lia].
      * split; [apply Hlt; rewrite length_drop; lia|lia].
  - lia.
  - apply Forall_take, Forall_forall. intros w (c & -> & _)%list_elem_of_fmap. pose proof (weight_pos c). lia.
  - rewrite foldr_wsum_take. pose proof (wsum_cut (length cells - 1) cells).
    pose proof (wsum_nonneg (drop (length cells - 1) cells)). lia.
  - lia.
Qed.

(** ** Interior pages *)

Definition bsum (cs : list bytes) : Z := foldr Z.add 0 (map (λ c : bytes, zlen c) cs).

Lemma bsum_app cs ds : bsum (cs ++ ds) = bsum cs + bsum ds.
Proof. unfold bsum. induction cs as [|c cs IH]; cbn [app map foldr] in *; lia. Qed.

Lemma bsum_need cs : cells_need cs = 2 * zlen cs + bsum cs.
Proof.
  unfold cells_need, bsum. induction cs as [|c cs IH]; [done|]. cbn [concat map foldr length]. rewrite length_app. lia.
Qed.

Lemma bsum_bounds cs : Forall (λ c : bytes, 5 ≤ zlen c ≤ 13) cs → 5 * zlen cs ≤ bsum cs ≤ 13 * zlen cs.
Proof. unfold bsum. induction 1; cbn [map foldr length] in *; lia. Qed.

Lemma median_loop_ok total n cs acc i :
  Forall (λ c : bytes, 5 ≤ zlen c ≤ 13) cs → 0 ≤ acc → 2 * acc < total → total = acc + bsum cs → total ≤ 500000 →
  ∃ j, (j < length cs)%nat ∧ median_loop total n i acc cs = clamp_mid (i + Z.of_nat j) n ∧
    2 * (acc + bsum (take j cs)) < total ∧ 2 * bsum (drop (S j) cs) ≤ total.
Proof.
  intros Hc. revert acc i. induction Hc as [|c cs Hc Hcs IH]; intros acc i Ha Ht He Hb; [unfold bsum in He; cbn in He; lia|].
  assert (Hs : bsum (c :: cs) = zlen c + bsum cs) by done. pose proof (bsum_bounds cs Hcs).
  cbn [median_loop]. rewrite sat_add_page by lia. rewrite sat_mul_page by lia. case_decide as Hd.
  - exists 0%nat. cbn [take drop length]. change (bsum []) with 0. split_and!; [lia|f_equal; lia|lia|rewrite drop_0; lia].
  - destruct (IH (acc + zlen c) (i + 1)) as (j & Hj & Hm & H1 & H2); [lia..|].
    exists (S j). cbn [take drop length]. assert (bsum (c :: take j cs) = zlen c + bsum (take j cs)) by done.
    split_and!; [lia| |lia|done]. rewrite Hm. f_equal. lia.
Qed.

(** The median of an interior page that has outgrown its page. *)
Lemma interior_median_ok cs :
  Forall (λ c : bytes, 5 ≤ zlen c ≤ 13) cs → 34 ≤ zlen cs ≤ 32768 →
  ∃ mid : nat, interior_median_by_bytes cs = Z.of_nat mid ∧ (1 ≤ mid)%nat ∧ (mid + 2 ≤ length cs)%nat ∧
    2 * bsum (take mid cs) < bsum cs ∧ 2 * bsum (drop (S mid) cs) ≤ bsum cs.
Proof.
  intros Hc Hn. pose proof (bsum_bounds cs Hc) as Hb. unfold interior_median_by_bytes. fold (bsum cs).
  destruct (median_loop_ok (bsum cs) (zlen cs) cs 0 0) as (j & Hj & -> & H1 & H2); [done|lia..|].
  rewrite Z.add_0_l in *. exists j.
  assert (Hj1 : (1 ≤ j)%nat).
  { destruct j as [|j]; [|lia]. destruct cs as [|c cs]; [done|]. cbn [drop] in H2. rewrite drop_0 in H2.
    assert (bsum (c :: cs) = zlen c + bsum cs) by done. apply Forall_cons in Hc as [Hc _]. lia. }
  assert (Hj2 : (j + 2 ≤ length cs)%nat).
  { destruct (decide (S j = length cs)) as [He|]; [|lia]. destruct (lookup_lt_is_Some_2 cs j Hj) as [c Hcj].
    pose proof (Forall_lookup_1 _ _ _ _ Hc Hcj) as Hcb. cbn in Hcb.
    assert (Hsum : bsum cs = bsum (take j cs) + zlen c).
    { rewrite <- (take_drop_middle _ _ _ Hcj) at 1. rewrite bsum_app, (drop_ge _ (S j)) by lia.
      change (bsum [c]) with (zlen c + 0). lia. }
    lia. }
  split_and!; [|done..]. unfold clamp_mid. rewrite sat_sub_ge by lia. lia.
Qed.
