(* ===== verification/BtreeZip.v ===== *)
(** * Trees in a page map, and paths into them

    The abstract side of the b-tree's modifications: a tree lies in a map of
    owned pages, its shape is well formed, its rows and separator keys are in
    order, and a path (a zipper) singles out a subtree whose page the
    modification changes. *)

From S2P Require Import Prelude Varint Record Vfs Header Freelist Pager BtreePage BtreeSplice BtreePayload BtreeCursor.

(** ** Page maps *)

Definition in_map (m : gmap Z bytes) (n : Z) : result PageError bytes :=
  match m !! n with Some b => Ok b | None => Err InvalidPageNumber end.

Lemma in_map_Ok m n b : in_map m n = Ok b ↔ m !! n = Some b.
Proof. unfold in_map. destruct (m !! n); naive_solver. Qed.

(** [m'] keeps the pages of [m] outside [l]. *)
Definition agree_off (l : list Z) (m m' : gmap Z bytes) : Prop :=
  ∀ n b, n ∉ l → m !! n = Some b → m' !! n = Some b.

Lemma agree_refl l m : agree_off l m m.
Proof. by intros n b. Qed.

Lemma agree_trans l1 l2 l m1 m2 m3 :
  agree_off l1 m1 m2 → agree_off l2 m2 m3 → (∀ n, n ∈ l1 → n ∈ l) →
  (∀ n, n ∈ l2 → n ∈ l ∨ m1 !! n = None) → agree_off l m1 m3.
Proof.
  intros H1 H2 Hs1 Hs2 n b Hn Hm. apply H2; [|apply H1; [|done]].
  - intros Hn2. destruct (Hs2 n Hn2) as [|Hx]; [done|congruence].
  - intros Hn1. by apply Hn, Hs1.
Qed.

Lemma agree_insert l m n b : n ∈ l ∨ m !! n = None → agree_off l m (<[n := b]> m).
Proof.
  intros Hn x y Hx Hm. rewrite lookup_insert_ne; [done|]. intros ->. destruct Hn; [done|congruence].
Qed.

(** Nothing but the pages of [l] differs, also in whether it is there. *)
Definition same_off (l : list Z) (m m' : gmap Z bytes) : Prop := ∀ n, n ∉ l → m' !! n = m !! n.

Lemma same_refl l m : same_off l m m.
Proof. by intros n. Qed.

Lemma same_insert l m n b : n ∈ l → same_off l m (<[n := b]> m).
Proof. intros Hn x Hx. rewrite lookup_insert_ne; [done|]. by intros ->. Qed.

Lemma same_trans l1 l2 l m1 m2 m3 :
  same_off l1 m1 m2 → same_off l2 m2 m3 → (∀ n, n ∈ l1 → n ∈ l) → (∀ n, n ∈ l2 → n ∈ l) → same_off l m1 m3.
Proof. intros H1 H2 Hs1 Hs2 n Hn. rewrite H2, H1; [done|auto|auto]. Qed.

Lemma same_agree l l' m m' : same_off l m m' → (∀ n, n ∈ l → n ∈ l' ∨ m !! n = None) → agree_off l' m m'.
Proof.
  intros Hs Hl n b Hn Hm. rewrite Hs; [done|]. intros Hin. destruct (Hl n Hin); [done|congruence].
Qed.

(** Both see their pages only as a set. *)
#[export] Instance agree_off_perm : Proper (Permutation ==> eq ==> eq ==> iff) agree_off.
Proof. intros l l' Hl m ? <- m' ? <-. unfold agree_off. split; intros Ha n b Hn; apply Ha; by rewrite ?Hl, <- ?Hl in *. Qed.

#[export] Instance same_off_perm : Proper (Permutation ==> eq ==> eq ==> iff) same_off.
Proof. intros l l' Hl m ? <- m' ? <-. unfold same_off. split; intros Ha n Hn; apply Ha; by rewrite ?Hl, <- ?Hl in *. Qed.

(** ** Trees in a map *)

Lemma tree_at_ext u rd rd' t :
  (∀ n, n ∈ pages t → rd' n = rd n) → tree_at u rd t → tree_at u rd' t.
Proof.
  induction t as [pn cells|pn kids rt Hk IHr] using tree_rect'; cbn [tree_at pages]; intros Hext.
  - intros (buf & Hb & Hl). exists buf. rewrite Hext by apply list_elem_of_here. split; assumption.
  - intros ((buf & Hb & Hi) & Hks & Hr). split_and!.
    + exists buf. rewrite Hext by apply list_elem_of_here. split; assumption.
    + apply tree_at_kids. apply tree_at_kids in Hks.
      assert (He : ∀ n, n ∈ concat (map (λ k, pages k.2) kids) → rd' n = rd n).
      { intros n Hn. apply Hext. right. by apply elem_of_app; left. }
      clear Hext Hr IHr Hb Hi. induction Hk as [|k kids Hk1 Hk IH]; [constructor|]. cbn in He.
      apply Forall_cons in Hks as [Hks1 Hks]. constructor.
      * apply Hk1; [|done]. intros n Hn. apply He, elem_of_app. by left.
      * apply IH; [done|]. intros n Hn. apply He, elem_of_app. by right.
    + apply IHr; [|done]. intros n Hn. apply Hext. right. apply elem_of_app. by right.
Qed.

Lemma tree_at_pages u m t n : tree_at u (in_map m) t → n ∈ pages t → is_Some (m !! n).
Proof.
  induction t as [pn cells|pn kids rt Hk IHr] using tree_rect'; cbn [tree_at pages].
  - intros (buf & Hb%in_map_Ok & _) ->%list_elem_of_singleton. eauto.
  - intros ((buf & Hb%in_map_Ok & _) & Hks%tree_at_kids & Hr). rewrite elem_of_cons, elem_of_app.
    intros [->|[Hn|Hn]]; [eauto| |by apply IHr].
    clear Hr IHr Hb. induction Hk as [|k kids Hk1 Hk IH]; cbn in Hn; [by apply not_elem_of_nil in Hn|].
    apply Forall_cons in Hks as [Hks1 Hks]. apply elem_of_app in Hn as [Hn|Hn]; [by apply Hk1|by apply IH].
Qed.

Lemma tree_at_agree u l m m' t :
  agree_off l m m' → (∀ n, n ∈ pages t → n ∉ l) → tree_at u (in_map m) t → tree_at u (in_map m') t.
Proof.
  intros Ha Hl Ht. eapply tree_at_ext; [|exact Ht]. intros n Hn.
  destruct (tree_at_pages _ _ _ _ Ht Hn) as [b Hb]. rewrite (proj2 (in_map_Ok m n b) Hb).
  apply in_map_Ok. apply Ha; [by apply Hl|done].
Qed.

(** ** Shape *)

Definition node_ok (ps : Z) (kids : list (Z * tree)) : Prop :=
  kids ≠ [] ∧ 12 + cells_need (interior_cells (entries kids)) ≤ ps ∧ Forall (λ k : Z * tree, i64_ok k.1) kids.

Fixpoint wf (ps : Z) (t : tree) : Prop :=
  match t with
  | Leaf _ cells => 8 + cells_need cells ≤ ps
  | Node _ kids rt => node_ok ps kids ∧ foldr (λ k P, wf ps k.2 ∧ P) True kids ∧ wf ps rt
  end.

Lemma wf_kids ps kids : foldr (λ k P, wf ps k.2 ∧ P) True kids ↔ Forall (λ k : Z * tree, wf ps k.2) kids.
Proof. induction kids as [|k kids IH]; cbn; [by rewrite Forall_nil|]. by rewrite Forall_cons, IH. Qed.

(** ** Order

    Rows and separator keys in one in-order sequence: row [r] as [2r], key
    [k] as [2k + 1]. *)
Fixpoint codes (t : tree) : list Z :=
  match t with
  | Leaf _ cells => map (λ c, 2 * cell_rowid c) cells
  | Node _ kids rt => concat (map (λ k, codes k.2 ++ [2 * k.1 + 1]) kids) ++ codes rt
  end.

Abbreviation kcodes := (λ kids : list (Z * tree), concat (map (λ k, codes k.2 ++ [2 * k.1 + 1]) kids)).
Abbreviation sorted := (StronglySorted Z.lt).

(** The leaves, left to right: page and cells. *)
Fixpoint leaves_of (t : tree) : list (Z * list bytes) :=
  match t with
  | Leaf pn cells => [(pn, cells)]
  | Node _ kids rt => concat (map (λ k, leaves_of k.2) kids) ++ leaves_of rt
  end.

Lemma rows_leaves t : rows t = concat (leaves_of t).*2.
Proof.
  induction t as [pn cells|pn kids rt Hk IHr] using tree_rect'; cbn; [by rewrite app_nil_r|].
  rewrite fmap_app, concat_app, <- IHr. f_equal. clear IHr rt.
  induction Hk as [|k kids Hk1 Hk IH]; [done|]. cbn. rewrite fmap_app, concat_app, <- Hk1, <- IH. done.
Qed.

Lemma codes_rows t r : r ∈ rows t → 2 * cell_rowid r ∈ codes t.
Proof.
  induction t as [pn cells|pn kids rt Hk IHr] using tree_rect'; cbn [rows codes].
  - intros Hr. by apply (list_elem_of_fmap_2 (λ c, 2 * cell_rowid c)).
  - rewrite !elem_of_app. intros [Hr|Hr]; [left|by right; apply IHr]. clear IHr.
    induction Hk as [|k kids Hk1 Hk IH]; cbn in *; [by apply not_elem_of_nil in Hr|].
    apply elem_of_app in Hr as [Hr|Hr]; apply elem_of_app; [left; apply elem_of_app; left; by apply Hk1|right; by apply IH].
Qed.

(** ** Paths *)

Inductive hole : Type :=
| InKid (ks1 : list (Z * tree)) (k : Z) (ks2 : list (Z * tree)) (rt : tree)
| InRight (ks : list (Z * tree)).

Record zframe : Type := { zf_page : Z; zf_hole : hole }.

Definition plug1 (f : zframe) (t : tree) : tree :=
  match zf_hole f with
  | InKid ks1 k ks2 rt => Node (zf_page f) (ks1 ++ (k, t) :: ks2) rt
  | InRight ks => Node (zf_page f) ks t
  end.

(** [z] lists the frames from the parent up to the root. *)
Fixpoint plug (z : list zframe) (t : tree) : tree :=
  match z with [] => t | f :: z => plug z (plug1 f t) end.

(** Rows, codes, leaves and pages left and right of a hole. *)
Definition lcodes1 (f : zframe) : list Z :=
  match zf_hole f with InKid ks1 _ _ _ => kcodes ks1 | InRight ks => kcodes ks end.
Definition rcodes1 (f : zframe) : list Z :=
  match zf_hole f with InKid _ k ks2 rt => 2 * k + 1 :: kcodes ks2 ++ codes rt | InRight _ => [] end.
Fixpoint lcodes (z : list zframe) : list Z :=
  match z with [] => [] | f :: z => lcodes z ++ lcodes1 f end.
Fixpoint rcodes (z : list zframe) : list Z :=
  match z with [] => [] | f :: z => rcodes1 f ++ rcodes z end.

Abbreviation kleaves := (λ kids : list (Z * tree), concat (map (λ k, leaves_of k.2) kids)).
Definition lleaves1 (f : zframe) : list (Z * list bytes) :=
  match zf_hole f with InKid ks1 _ _ _ => kleaves ks1 | InRight ks => kleaves ks end.
Definition rleaves1 (f : zframe) : list (Z * list bytes) :=
  match zf_hole f with InKid _ _ ks2 rt => kleaves ks2 ++ leaves_of rt | InRight _ => [] end.
Fixpoint lleaves (z : list zframe) : list (Z * list bytes) :=
  match z with [] => [] | f :: z => lleaves z ++ lleaves1 f end.
Fixpoint rleaves (z : list zframe) : list (Z * list bytes) :=
  match z with [] => [] | f :: z => rleaves1 f ++ rleaves z end.

Abbreviation kpages := (λ kids : list (Z * tree), concat (map (λ k, pages k.2) kids)).
Definition fpages (f : zframe) : list Z :=
  zf_page f :: match zf_hole f with InKid ks1 _ ks2 rt => kpages ks1 ++ kpages ks2 ++ pages rt | InRight ks => kpages ks end.
Definition zpages (z : list zframe) : list Z := concat (map fpages z).

Lemma concat_map_mid {A B} (f : A → list B) l1 x l2 :
  concat (map f (l1 ++ x :: l2)) = concat (map f l1) ++ f x ++ concat (map f l2).
Proof. rewrite map_app, concat_app. done. Qed.

Lemma codes_plug1 f t : codes (plug1 f t) = lcodes1 f ++ codes t ++ rcodes1 f.
Proof.
  unfold plug1, lcodes1, rcodes1. destruct (zf_hole f) as [ks1 k ks2 rt|ks]; cbn [codes].
  - rewrite concat_map_mid. cbn. by rewrite <- !(assoc_L (++)).
  - by rewrite app_nil_r.
Qed.

Lemma codes_plug z t : codes (plug z t) = lcodes z ++ codes t ++ rcodes z.
Proof.
  revert t. induction z as [|f z IH]; intros t; cbn; [by rewrite app_nil_r|].
  rewrite IH, codes_plug1. by rewrite <- !(assoc_L (++)).
Qed.

Lemma leaves_plug1 f t : leaves_of (plug1 f t) = lleaves1 f ++ leaves_of t ++ rleaves1 f.
Proof.
  unfold plug1, lleaves1, rleaves1. destruct (zf_hole f) as [ks1 k ks2 rt|ks]; cbn [leaves_of].
  - rewrite concat_map_mid. cbn. by rewrite <- !(assoc_L (++)).
  - by rewrite app_nil_r.
Qed.

Lemma leaves_plug z t : leaves_of (plug z t) = lleaves z ++ leaves_of t ++ rleaves z.
Proof.
  revert t. induction z as [|f z IH]; intros t; cbn; [by rewrite app_nil_r|].
  rewrite IH, leaves_plug1. by rewrite <- !(assoc_L (++)).
Qed.

Lemma pages_plug1 f t : pages (plug1 f t) ≡ₚ fpages f ++ pages t.
Proof.
  unfold plug1, fpages. destruct (zf_hole f) as [ks1 k ks2 rt|ks]; cbn [pages]; [|done].
  rewrite concat_map_mid. cbn. constructor. solve_Permutation.
Qed.

Lemma pages_plug z t : pages (plug z t) ≡ₚ zpages z ++ pages t.
Proof.
  revert t. induction z as [|f z IH]; intros t; cbn; [done|]. rewrite IH, pages_plug1. unfold zpages. cbn. solve_Permutation.
Qed.

Lemma path_le_pages z t : (length z ≤ length (pages (plug z t)))%nat.
Proof.
  rewrite pages_plug, length_app. unfold zpages. assert (length z ≤ length (concat (map fpages z)))%nat; [|lia].
  induction z as [|f z IH]; cbn; [lia|]. rewrite length_app. lia.
Qed.

Lemma root_of_plug1 f t : root_of (plug1 f t) = zf_page f.
Proof. unfold plug1. by destruct (zf_hole f). Qed.

Lemma root_of_plug z l t : root_of l = root_of t → root_of (plug z l) = root_of (plug z t).
Proof.
  revert l t. induction z as [|f z IH]; intros l t Hr; [done|]. cbn. apply IH. by rewrite !root_of_plug1.
Qed.

(** ** Nodes around a hole *)

Definition hole_kids (f : zframe) (t : tree) : list (Z * tree) :=
  match zf_hole f with InKid ks1 k ks2 _ => ks1 ++ (k, t) :: ks2 | InRight ks => ks end.
Definition hole_rt (f : zframe) (t : tree) : tree :=
  match zf_hole f with InKid _ _ _ rt => rt | InRight _ => t end.
Definition siblings (f : zframe) : list tree :=
  match zf_hole f with InKid ks1 _ ks2 rt => rt :: ks1.*2 ++ ks2.*2 | InRight ks => ks.*2 end.

Lemma plug1_node f t : plug1 f t = Node (zf_page f) (hole_kids f t) (hole_rt f t).
Proof. unfold plug1, hole_kids, hole_rt. by destruct (zf_hole f). Qed.

Definition node_page (rd : Z → result PageError bytes) (pn : Z) (es : list (Z * Z)) (right : Z) : Prop :=
  ∃ buf, rd pn = Ok buf ∧ zlen buf ≤ 65536 ∧ bytes_ok buf ∧ interior_page buf (page1_header_start pn) es right.

Lemma tree_at_node u rd pn kids rt :
  tree_at u rd (Node pn kids rt) ↔
  node_page rd pn (entries kids) (root_of rt) ∧ Forall (λ k : Z * tree, tree_at u rd k.2) kids ∧ tree_at u rd rt.
Proof. cbn [tree_at]. by rewrite tree_at_kids. Qed.

Lemma wf_node ps pn kids rt :
  wf ps (Node pn kids rt) ↔ node_ok ps kids ∧ Forall (λ k : Z * tree, wf ps k.2) kids ∧ wf ps rt.
Proof. cbn [wf]. by rewrite wf_kids. Qed.

(** A property of every child, split at the hole. *)
Lemma hole_children (P : tree → Prop) f t :
  (Forall (λ k : Z * tree, P k.2) (hole_kids f t) ∧ P (hole_rt f t)) ↔ (Forall P (siblings f) ∧ P t).
Proof.
  unfold hole_kids, hole_rt, siblings. destruct (zf_hole f) as [ks1 k ks2 rt|ks].
  - rewrite Forall_app, !Forall_cons, Forall_app, !Forall_fmap. cbn. unfold compose. tauto.
  - rewrite Forall_fmap. tauto.
Qed.

Lemma tree_at_plug1 u rd f t :
  tree_at u rd (plug1 f t) ↔
  node_page rd (zf_page f) (entries (hole_kids f t)) (root_of (hole_rt f t)) ∧
  Forall (tree_at u rd) (siblings f) ∧ tree_at u rd t.
Proof. rewrite plug1_node, tree_at_node, <- (hole_children (tree_at u rd) f t). tauto. Qed.

Lemma wf_plug1 ps f t :
  wf ps (plug1 f t) ↔ node_ok ps (hole_kids f t) ∧ Forall (wf ps) (siblings f) ∧ wf ps t.
Proof. rewrite plug1_node, wf_node, <- (hole_children (wf ps) f t). tauto. Qed.

Lemma entries_app ks1 ks2 : entries (ks1 ++ ks2) = entries ks1 ++ entries ks2.
Proof. apply map_app. Qed.

Lemma entries_cons x ks : entries (x :: ks) = (root_of x.2, x.1) :: entries ks.
Proof. done. Qed.

(** Only the root page number of the plugged tree shows in the node. *)
Lemma hole_entries f t t' :
  root_of t' = root_of t → entries (hole_kids f t') = entries (hole_kids f t) ∧ root_of (hole_rt f t') = root_of (hole_rt f t).
Proof.
  intros Hr. unfold hole_kids, hole_rt. destruct (zf_hole f) as [ks1 k ks2 rt|ks]; [|done].
  rewrite !entries_app. cbn. by rewrite Hr.
Qed.

Lemma hole_keys f t t' : (hole_kids f t').*1 = (hole_kids f t).*1.
Proof. unfold hole_kids. destruct (zf_hole f) as [ks1 k ks2 rt|ks]; [|done]. by rewrite !fmap_app. Qed.

Lemma node_ok_same ps kids kids' :
  entries kids' = entries kids → node_ok ps kids → node_ok ps kids'.
Proof.
  intros He (Hne & Hn & Hk). unfold node_ok. rewrite He. split_and!; [|done|].
  - intros ->. by destruct kids.
  - assert (Hk1 : Forall i64_ok (entries kids).*2) by (unfold entries; rewrite !Forall_fmap; exact Hk).
    rewrite <- He in Hk1. unfold entries in Hk1. rewrite !Forall_fmap in Hk1. exact Hk1.
Qed.

Lemma fpages_page f : zf_page f ∈ fpages f.
Proof. left. Qed.

Lemma fpages_tail f : Forall (λ t, ∀ n, n ∈ pages t → n ∈ tail (fpages f)) (siblings f).
Proof.
  assert (Hk : ∀ ks : list (Z * tree), Forall (λ t, ∀ n, n ∈ pages t → n ∈ kpages ks) ks.*2).
  { intros ks. induction ks as [|k ks IH]; [constructor|]. cbn. constructor.
    - intros n Hn. apply elem_of_app. by left.
    - eapply Forall_impl; [exact IH|]. intros t Ht n Hn. apply elem_of_app. right. by apply Ht. }
  unfold siblings, fpages. destruct (zf_hole f) as [ks1 k ks2 rt|ks]; cbn [tail]; [|exact (Hk ks)].
  constructor; [|apply Forall_app; split].
  - intros n Hn. rewrite !elem_of_app. tauto.
  - eapply Forall_impl; [exact (Hk ks1)|]. cbn. intros t Ht n Hn. rewrite !elem_of_app. left. by apply Ht.
  - eapply Forall_impl; [exact (Hk ks2)|]. cbn. intros t Ht n Hn. rewrite !elem_of_app. right. left. by apply Ht.
Qed.

Lemma fpages_siblings f : Forall (λ t, ∀ n, n ∈ pages t → n ∈ fpages f) (siblings f).
Proof. eapply Forall_impl; [apply fpages_tail|]. cbn. intros t Ht n Hn. right. by apply Ht. Qed.

Lemma tree_at_sub u rd z t : tree_at u rd (plug z t) → tree_at u rd t.
Proof.
  revert t. induction z as [|f z IH]; intros t; [done|]. cbn. intros Ht%IH. by apply tree_at_plug1 in Ht as (_ & _ & ?).
Qed.

Lemma zpages_cons f z : zpages (f :: z) = fpages f ++ zpages z.
Proof. done. Qed.

(** Replacing the plugged tree by one with the same root page. *)
Lemma tree_at_replace u rd rd' z t t' :
  tree_at u rd (plug z t) → root_of t' = root_of t → (∀ n, n ∈ zpages z → rd' n = rd n) →
  tree_at u rd' t' → tree_at u rd' (plug z t').
Proof.
  revert t t'. induction z as [|f z IH]; intros t t' Ht Hr Hext Ht'; [done|]. cbn [plug] in *.
  rewrite zpages_cons in Hext. setoid_rewrite elem_of_app in Hext.
  assert (Hf : ∀ n, n ∈ fpages f → rd' n = rd n) by (intros; apply Hext; by left).
  apply (IH (plug1 f t)); [done|by rewrite !root_of_plug1|by intros; apply Hext; right|].
  apply tree_at_sub in Ht as Htf.
  apply tree_at_plug1 in Htf as ((buf & Hb & Hpg) & Hsib & _). apply tree_at_plug1.
  destruct (hole_entries f t t' Hr) as [-> ->]. split_and!; [|clear -Hsib Hf|done].
  - exists buf. rewrite Hf by apply fpages_page. split; assumption.
  - pose proof (fpages_siblings f) as Hs. induction Hsib as [|s l Hs1 Hsib IH]; [constructor|].
    apply Forall_cons in Hs as [Hs0 Hs]. constructor; [|by apply IH].
    eapply tree_at_ext; [|exact Hs1]. intros n Hn. by apply Hf, Hs0.
Qed.

Lemma wf_sub ps z t : wf ps (plug z t) → wf ps t.
Proof.
  revert t. induction z as [|f z IH]; intros t; [done|]. cbn. intros Ht%IH. by apply wf_plug1 in Ht as (_ & _ & ?).
Qed.

Lemma wf_replace ps z t t' : wf ps (plug z t) → root_of t' = root_of t → wf ps t' → wf ps (plug z t').
Proof.
  revert t t'. induction z as [|f z IH]; intros t t' Ht Hr Ht'; [done|]. cbn [plug] in *.
  apply (IH (plug1 f t)); [done|by rewrite !root_of_plug1|].
  apply wf_sub, wf_plug1 in Ht as (Hn & Hs & _). apply wf_plug1. split_and!; [|done|done].
  eapply node_ok_same; [|exact Hn]. by apply hole_entries.
Qed.

(** ** Descending *)

Lemma root_in_pages t : root_of t ∈ pages t.
Proof. destruct t; left. Qed.

(** The path a descent to [rowid] takes through one node. *)
Lemma route_frame rowid pn kids rt :
  ∃ f, zf_page f = pn ∧ Node pn kids rt = plug1 f (route rowid kids rt) ∧
    Forall (λ k : Z * tree, k.1 < rowid) (match zf_hole f with InKid ks1 _ _ _ => ks1 | InRight ks => ks end) ∧
    match zf_hole f with InKid _ k _ _ => rowid ≤ k | InRight _ => True end.
Proof.
  assert (Hk : ∀ ks2 ks1, Forall (λ k : Z * tree, k.1 < rowid) ks1 →
    ∃ f, zf_page f = pn ∧ Node pn (ks1 ++ ks2) rt = plug1 f (route rowid ks2 rt) ∧
      Forall (λ k : Z * tree, k.1 < rowid) (match zf_hole f with InKid ks1 _ _ _ => ks1 | InRight ks => ks end) ∧
      match zf_hole f with InKid _ k _ _ => rowid ≤ k | InRight _ => True end).
  { intros ks2. induction ks2 as [|k ks2 IH]; intros ks1 Hks1; cbn [route].
    - exists {| zf_page := pn; zf_hole := InRight ks1 |}. cbn. by rewrite app_nil_r.
    - case_decide as Hd.
      + exists {| zf_page := pn; zf_hole := InKid ks1 k.1 ks2 rt |}. cbn. unfold plug1. cbn.
        split_and!; [done|by destruct k|done|done].
      + destruct (IH (ks1 ++ [k])) as (f & Hp & Hn & Hl & Hr).
        * apply Forall_app. split; [done|]. constructor; [lia|constructor].
        * exists f. split_and!; [done| |done|done]. by rewrite <- Hn, <- (assoc_L (++)). }
  apply (Hk kids []). constructor.
Qed.

Lemma sorted_app (l k : list Z) :
  sorted (l ++ k) ↔ sorted l ∧ sorted k ∧ ∀ x y, x ∈ l → y ∈ k → x < y.
Proof.
  split.
  - induction l as [|a l IH]; cbn; intros Hs.
    + split_and!; [constructor|done|]. by intros x y ?%not_elem_of_nil.
    + apply StronglySorted_inv in Hs as [Hs Ha]. destruct (IH Hs) as (Hl & Hk & Hlk).
      apply Forall_app in Ha as [Ha1 Ha2]. split_and!; [by constructor|done|].
      intros x y [->|Hx]%elem_of_cons Hy; [by eapply Forall_forall in Ha2|by apply Hlk].
  - intros (Hl & Hk & Hlk). by apply ss_app.
Qed.

(** Codes on either side of a frame the descent takes. *)
Lemma frame_codes rowid f t :
  sorted (codes (plug1 f t)) →
  Forall (λ k : Z * tree, k.1 < rowid) (match zf_hole f with InKid ks1 _ _ _ => ks1 | InRight ks => ks end) →
  match zf_hole f with InKid _ k _ _ => rowid ≤ k | InRight _ => True end →
  Forall (λ x, x < 2 * rowid) (lcodes1 f) ∧ Forall (λ x, 2 * rowid < x) (rcodes1 f).
Proof.
  rewrite codes_plug1, sorted_app. intros (Hl & Hr & _) Hks Hk.
  apply sorted_app in Hr as (_ & Hr & _). unfold lcodes1, rcodes1 in *. 
  assert (Hleft : ∀ ks, sorted (kcodes ks) → Forall (λ k : Z * tree, k.1 < rowid) ks → Forall (λ x, x < 2 * rowid) (kcodes ks)).
  { clear. intros ks. induction ks as [|k ks IH] using rev_ind; intros Hs Hks; [constructor|].
    rewrite concat_map_mid in *. cbn [map concat] in *. rewrite app_nil_r in *.
    apply Forall_app in Hks as [_ Hk]. apply Forall_cons in Hk as [Hk _].
    rewrite (assoc_L (++)) in Hs |- *. apply sorted_app in Hs as (_ & _ & Hlt).
    apply Forall_app. split; [|constructor; [lia|constructor]].
    apply Forall_forall. intros x Hx. specialize (Hlt x (2 * k.1 + 1) Hx ltac:(left)). lia. }
  destruct (zf_hole f) as [ks1 k ks2 rt|ks]; (split; [by apply Hleft|]); [|constructor].
  constructor; [lia|]. apply StronglySorted_inv in Hr as [_ Hr].
  eapply Forall_impl; [exact Hr|]. cbn. intros x Hx. lia.
Qed.

Lemma zcodes_sorted z t : sorted (codes (plug z t)) → sorted (codes t).
Proof. rewrite codes_plug, !sorted_app. tauto. Qed.

(** The pages of a path, root first. *)
Definition zpath (z : list zframe) : list Z := rev (map zf_page z).

Lemma plug_app z1 z2 t : plug (z1 ++ z2) t = plug z2 (plug z1 t).
Proof. revert t. induction z1 as [|f z1 IH]; intros t; [done|]. cbn. apply IH. Qed.

Lemma lcodes_app z1 z2 : lcodes (z1 ++ z2) = lcodes z2 ++ lcodes z1.
Proof. induction z1 as [|f z1 IH]; cbn; [by rewrite app_nil_r|]. by rewrite IH, (assoc_L (++)). Qed.

Lemma rcodes_app z1 z2 : rcodes (z1 ++ z2) = rcodes z1 ++ rcodes z2.
Proof. induction z1 as [|f z1 IH]; cbn; [done|]. by rewrite IH, (assoc_L (++)). Qed.

(** The leaf a descent to [rowid] ends in. *)
Definition leads_to (rowid : Z) (t : tree) (z : list zframe) (pn : Z) (cells : list bytes) : Prop :=
  t = plug z (Leaf pn cells) ∧ Forall (λ x, x < 2 * rowid) (lcodes z) ∧ Forall (λ x, 2 * rowid < x) (rcodes z).

Lemma leads_to_leaf rowid pn cells : leads_to rowid (Leaf pn cells) [] pn cells.
Proof. split_and!; [done|constructor|constructor]. Qed.

Lemma leads_to_node rowid pn kids rt z lpn cells :
  sorted (codes (Node pn kids rt)) → leads_to rowid (route rowid kids rt) z lpn cells →
  ∃ f, zf_page f = pn ∧ leads_to rowid (Node pn kids rt) (z ++ [f]) lpn cells.
Proof.
  intros Hs (Ht & Hl & Hr). destruct (route_frame rowid pn kids rt) as (f & Hp & Hn & Hk1 & Hk2).
  exists f. split; [done|]. rewrite Hn in Hs. destruct (frame_codes rowid f _ Hs Hk1 Hk2) as [Hf1 Hf2].
  split_and!.
  - rewrite Hn, plug_app. cbn. by rewrite <- Ht.
  - rewrite lcodes_app. cbn. by apply Forall_app.
  - rewrite rcodes_app. cbn. rewrite app_nil_r. by apply Forall_app.
Qed.

Lemma route_sorted rowid pn kids rt : sorted (codes (Node pn kids rt)) → sorted (codes (route rowid kids rt)).
Proof.
  destruct (route_frame rowid pn kids rt) as (f & _ & -> & _). by intros Hs%(zcodes_sorted [f]).
Qed.

(** A sequence is cut in one way at an element. *)
Lemma cut_unique {A} (l l' k k' : list A) x :
  NoDup (l ++ x :: k) → l ++ x :: k = l' ++ x :: k' → l = l' ∧ k = k'.
Proof.
  revert l'. induction l as [|a l IH]; intros [|a' l'] Hnd He; cbn in *; simplify_eq; [done| | |].
  - apply NoDup_cons in Hnd as [Hx _]. exfalso. apply Hx. rewrite elem_of_app, elem_of_cons. tauto.
  - apply NoDup_cons in Hnd as [Hx _]. exfalso. apply Hx. rewrite elem_of_app, elem_of_cons. tauto.
  - apply NoDup_cons in Hnd as [_ Hnd]. destruct (IH l' Hnd) as [-> ->]; [done|]. done.
Qed.

Lemma sorted_nodup l : sorted l → NoDup l.
Proof.
  induction 1 as [|a l Hs IH Ha]; constructor; [|done]. intros Hin. eapply Forall_forall in Ha; [|done]. lia.
Qed.

Lemma sorted_sublist l k : l `sublist_of` k → sorted k → sorted l.
Proof.
  induction 1 as [|x l k Hl IH|x l k Hl IH]; [done| |]; intros [Hs Ha]%StronglySorted_inv; [|by apply IH].
  constructor; [by apply IH|]. rewrite Forall_forall in Ha |- *. intros y Hy. apply Ha.
  eapply sublist_subseteq; [exact Hl|exact Hy].
Qed.

(** ** A child split in two *)

Definition split_kids (f : zframe) (l : tree) (d : Z) (r : tree) : list (Z * tree) :=
  match zf_hole f with InKid ks1 k ks2 _ => ks1 ++ (d, l) :: (k, r) :: ks2 | InRight ks => ks ++ [(d, l)] end.
Definition split_rt (f : zframe) (r : tree) : tree :=
  match zf_hole f with InKid _ _ _ rt => rt | InRight _ => r end.

Lemma split_codes f l d r :
  kcodes (split_kids f l d r) ++ codes (split_rt f r) = lcodes1 f ++ codes l ++ [2 * d + 1] ++ codes r ++ rcodes1 f.
Proof.
  unfold split_kids, split_rt, lcodes1, rcodes1. destruct (zf_hole f) as [ks1 k ks2 rt|ks].
  - rewrite concat_map_mid. cbn. by rewrite <- !(assoc_L (++)).
  - rewrite concat_map_mid. cbn. rewrite !app_nil_r. by rewrite <- !(assoc_L (++)).
Qed.

Lemma split_leaves f l d r :
  kleaves (split_kids f l d r) ++ leaves_of (split_rt f r) = lleaves1 f ++ leaves_of l ++ leaves_of r ++ rleaves1 f.
Proof.
  unfold split_kids, split_rt, lleaves1, rleaves1. destruct (zf_hole f) as [ks1 k ks2 rt|ks].
  - rewrite concat_map_mid. cbn. by rewrite <- !(assoc_L (++)).
  - rewrite concat_map_mid. cbn. rewrite !app_nil_r. by rewrite <- !(assoc_L (++)).
Qed.

Lemma split_pages f l d r :
  zf_page f :: kpages (split_kids f l d r) ++ pages (split_rt f r) ≡ₚ fpages f ++ pages l ++ pages r.
Proof.
  unfold split_kids, split_rt, fpages. destruct (zf_hole f) as [ks1 k ks2 rt|ks].
  - rewrite concat_map_mid. cbn. constructor. solve_Permutation.
  - rewrite concat_map_mid. cbn. rewrite !app_nil_r. constructor. solve_Permutation.
Qed.

Lemma split_children (P : tree → Prop) f l d r :
  Forall P (siblings f) → P l → P r → Forall (λ k : Z * tree, P k.2) (split_kids f l d r) ∧ P (split_rt f r).
Proof.
  unfold split_kids, split_rt, siblings. destruct (zf_hole f) as [ks1 k ks2 rt|ks].
  - rewrite Forall_cons, !Forall_app, !Forall_cons, !Forall_fmap. unfold compose. cbn. tauto.
  - rewrite Forall_app, Forall_cons, !Forall_fmap, Forall_nil. unfold compose. cbn. tauto.
Qed.

Lemma split_keys f l d r t :
  Forall (λ k : Z * tree, i64_ok k.1) (hole_kids f t) → i64_ok d →
  Forall (λ k : Z * tree, i64_ok k.1) (split_kids f l d r).
Proof.
  unfold split_kids, hole_kids. destruct (zf_hole f) as [ks1 k ks2 rt|ks].
  - rewrite !Forall_app, !Forall_cons. cbn. tauto.
  - rewrite !Forall_app, !Forall_cons, Forall_nil. cbn. tauto.
Qed.

(** The size of a node depends on its keys only. *)
Definition key_size (k : Z) : Z := 6 + zlen (encode_varint (wrap64 k)).

Lemma key_size_bounds k : 7 ≤ key_size k ≤ 15.
Proof.
  unfold key_size. pose proof (build_interior_cell_length (0, k)) as Hb. unfold build_interior_cell in Hb.
  rewrite length_app, be_bytes_length in Hb. cbn [fst snd] in Hb. lia.
Qed.

Lemma node_need kids : cells_need (interior_cells (entries kids)) = foldr Z.add 0 (map (λ k : Z * tree, key_size k.1) kids).
Proof.
  unfold cells_need, interior_cells, entries. induction kids as [|k kids IH]; [done|]. cbn [map concat foldr length].
  rewrite length_app. unfold key_size at 1, build_interior_cell at 1. rewrite length_app, be_bytes_length. cbn [fst snd]. lia.
Qed.

Lemma keysum_app (l k : list Z) : foldr Z.add 0 (l ++ k) = foldr Z.add 0 l + foldr Z.add 0 k.
Proof. induction l; cbn [app foldr]; lia. Qed.

(** The new node has one more cell. *)
Lemma split_need f l d r t :
  cells_need (interior_cells (entries (split_kids f l d r))) =
    cells_need (interior_cells (entries (hole_kids f t))) + key_size d.
Proof.
  rewrite !node_need. unfold split_kids, hole_kids. destruct (zf_hole f) as [ks1 k ks2 rt|ks].
  - rewrite !map_app, !keysum_app. cbn [map foldr fst]. lia.
  - rewrite !map_app, !keysum_app. cbn [map foldr fst]. lia.
Qed.

(** Page numbers of a node's children. *)
Definition child_pages (kids : list (Z * tree)) : list Z := (entries kids).*1.

Lemma child_page_in kids n : n ∈ child_pages kids → n ∈ kpages kids.
Proof.
  unfold child_pages, entries. induction kids as [|k kids IH]; cbn; [by intros ?%not_elem_of_nil|].
  rewrite elem_of_cons, elem_of_app. intros [->|Hn]; [left; apply root_in_pages|right; by apply IH].
Qed.

(** The entry of the hole is found by its child page. *)
Lemma hole_find f l :
  NoDup (pages (plug1 f l)) →
  list_find (λ e : Z * Z, e.1 = root_of l) (entries (hole_kids f l)) =
    match zf_hole f with InKid ks1 k _ _ => Some (length ks1, (root_of l, k)) | InRight _ => None end.
Proof.
  rewrite pages_plug1. intros (_ & Hdis & _)%NoDup_app.
  assert (Hno : ∀ ks, (∀ n, n ∈ kpages ks → n ∈ fpages f) → ∀ i e, entries ks !! i = Some e → e.1 ≠ root_of l).
  { intros ks Hks i e He Heq. apply (Hdis (root_of l)); [|apply root_in_pages]. rewrite <- Heq. apply Hks, child_page_in.
    unfold child_pages. apply list_elem_of_fmap_2. by eapply list_elem_of_lookup_2. }
  unfold hole_kids, fpages in *. destruct (zf_hole f) as [ks1 k ks2 rt|ks].
  - rewrite entries_app, entries_cons. cbn [fst snd]. apply list_find_Some.
    assert (Hl : length ks1 = length (entries ks1)) by (unfold entries; by rewrite length_map).
    rewrite Hl. split_and!; [by rewrite list_lookup_middle|done|].
    intros j y Hj Hlt. rewrite lookup_app_l in Hj by done. eapply Hno; [|exact Hj].
    intros n Hn. right. rewrite !elem_of_app. tauto.
  - apply list_find_None, Forall_forall. intros e [i He]%list_elem_of_lookup. eapply Hno; [|exact He].
    intros n Hn. by right.
Qed.

Lemma node_page_ext rd rd' pn es right : rd' pn = rd pn → node_page rd pn es right → node_page rd' pn es right.
Proof. intros Hr (buf & Hb & Hp). exists buf. rewrite Hr. by split. Qed.

(** A node cut at one of its children. *)
Lemma cut_node P n (ks1 ks2 : list (Z * tree)) (x : Z * tree) rt :
  let l := Node P ks1 x.2 in let r := Node n ks2 rt in
  let ks := ks1 ++ x :: ks2 in
  pages l ++ pages r ≡ₚ n :: P :: kpages ks ++ pages rt ∧
  codes l ++ [2 * x.1 + 1] ++ codes r = kcodes ks ++ codes rt ∧
  leaves_of l ++ leaves_of r = kleaves ks ++ leaves_of rt.
Proof.
  cbn [pages codes leaves_of]. rewrite !concat_map_mid. cbn beta. split_and!.
  - solve_Permutation.
  - by rewrite <- !(assoc_L (++)).
  - by rewrite <- !(assoc_L (++)).
Qed.

Lemma kpages_in (ks : list (Z * tree)) y n : y ∈ ks → n ∈ pages y.2 → n ∈ kpages ks.
Proof.
  induction ks as [|k ks IH]; [by intros ?%not_elem_of_nil|]. cbn. rewrite elem_of_cons, elem_of_app.
  intros [->|Hy] Hn; [by left|right; by apply IH].
Qed.

(** ** Leaves and their codes *)

Lemma leaf_codes t p g c : (p, g) ∈ leaves_of t → c ∈ g → 2 * cell_rowid c ∈ codes t.
Proof.
  intros Hl Hc. apply codes_rows. rewrite rows_leaves. apply list_elem_of_In, in_concat.
  exists g. split; apply list_elem_of_In; [|done]. by apply (list_elem_of_fmap_2 snd _ (p, g)).
Qed.

Lemma kleaf_codes (ks : list (Z * tree)) p g c : (p, g) ∈ kleaves ks → c ∈ g → 2 * cell_rowid c ∈ kcodes ks.
Proof.
  intros Hl Hc. induction ks as [|k ks IH]; cbn in *; [by apply not_elem_of_nil in Hl|].
  apply elem_of_app in Hl as [Hl|Hl]; apply elem_of_app; [left|right; by apply IH].
  apply elem_of_app. left. by eapply leaf_codes.
Qed.

Lemma lleaf_codes z p g c : (p, g) ∈ lleaves z → c ∈ g → 2 * cell_rowid c ∈ lcodes z.
Proof.
  intros Hl Hc. induction z as [|f z IH]; cbn in *; [by apply not_elem_of_nil in Hl|].
  apply elem_of_app in Hl as [Hl|Hl]; apply elem_of_app; [left; by apply IH|right].
  unfold lleaves1, lcodes1 in *. destruct (zf_hole f); by eapply kleaf_codes.
Qed.

Lemma rleaf_codes z p g c : (p, g) ∈ rleaves z → c ∈ g → 2 * cell_rowid c ∈ rcodes z.
Proof.
  intros Hl Hc. induction z as [|f z IH]; cbn in *; [by apply not_elem_of_nil in Hl|].
  apply elem_of_app in Hl as [Hl|Hl]; apply elem_of_app; [left|right; by apply IH].
  unfold rleaves1, rcodes1 in *. destruct (zf_hole f); [|by apply not_elem_of_nil in Hl].
  right. apply elem_of_app in Hl as [Hl|Hl]; apply elem_of_app; [left; by eapply kleaf_codes|right; by eapply leaf_codes].
Qed.

(** The leaf that holds [rowid] is the one a descent ends in. *)
Lemma leads_to_unique rowid t z pn cells A p g B c :
  leads_to rowid t z pn cells → leaves_of t = A ++ (p, g) :: B → c ∈ g → cell_rowid c = rowid →
  A = lleaves z ∧ p = pn ∧ g = cells ∧ B = rleaves z.
Proof.
  intros (-> & Hl & Hr) Hlv Hc Hrow. rewrite leaves_plug in Hlv. cbn [leaves_of app] in Hlv.
  rewrite Forall_forall in Hl, Hr.
  assert (Hi : (lleaves z ++ (pn, cells) :: rleaves z) !! length A = Some (p, g)).
  { rewrite Hlv. by rewrite list_lookup_middle. }
  destruct (Nat.lt_trichotomy (length A) (length (lleaves z))) as [Hlt|[Heq|Hgt]].
  - rewrite lookup_app_l in Hi by done. apply list_elem_of_lookup_2 in Hi.
    pose proof (Hl _ (lleaf_codes z p g c Hi Hc)). lia.
  - apply app_inj_1 in Hlv as [-> He]; [|done]. by simplify_eq.
  - rewrite lookup_app_r in Hi by lia. destruct (length A - length (lleaves z))%nat as [|j] eqn:E; [lia|].
    cbn in Hi. apply list_elem_of_lookup_2 in Hi. pose proof (Hr _ (rleaf_codes z p g c Hi Hc)). lia.
Qed.

(** Codes of a leaf are even. *)
Definition leaf_code (g : list bytes) : list Z := map (λ c, 2 * cell_rowid c) g.

Lemma sorted_drop_mid X Y Z : sorted (X ++ Y ++ Z) → sorted (X ++ Z).
Proof.
  rewrite !sorted_app. intros (HX & (HY & HZ & _) & Hd). split_and!; [done|done|].
  intros x y Hx Hy. apply Hd; [done|]. apply elem_of_app. by right.
Qed.

(** A separator goes between two groups of rows. *)
Lemma sorted_divider X (g h : list bytes) c Y :
  last g = Some c → h ≠ [] → sorted (X ++ leaf_code g ++ leaf_code h ++ Y) →
  sorted (X ++ leaf_code g ++ [2 * cell_rowid c + 1] ++ leaf_code h ++ Y).
Proof.
  intros Hc Hh Hs. rewrite !sorted_app in Hs |- *. destruct Hs as (HX & (Hg & (Hh' & HY & Hhy) & Hgh) & Hxg).
  assert (Hcg : 2 * cell_rowid c ∈ leaf_code g).
  { apply (list_elem_of_fmap_2 (λ c, 2 * cell_rowid c)). by apply last_Some_elem_of. }
  assert (Hlast : ∀ x, x ∈ leaf_code g → x ≤ 2 * cell_rowid c).
  { destruct g as [|c0 g] using rev_ind; [done|]. rewrite last_snoc in Hc. injection Hc as ->.
    unfold leaf_code in *. rewrite map_app in *. cbn [map] in *. apply sorted_app in Hg as (_ & _ & Hg).
    intros x [Hx|Hx]%elem_of_app; [|apply list_elem_of_singleton in Hx; lia].
    specialize (Hg x (2 * cell_rowid c) Hx ltac:(left)). lia. }
  assert (Hafter : ∀ y, y ∈ leaf_code h ++ Y → 2 * cell_rowid c + 1 < y).
  { destruct h as [|e h]; [done|]. cbn [leaf_code map] in *.
    assert (He : 2 * cell_rowid c < 2 * cell_rowid e) by (apply Hgh; [done|left]).
    intros y [->|Hy]%elem_of_cons; [lia|].
    assert (2 * cell_rowid e < y); [|lia]. apply elem_of_app in Hy as [Hy|Hy].
    - apply StronglySorted_inv in Hh' as [_ Ha]. by eapply Forall_forall in Ha.
    - apply Hhy; [left|done]. }
  split_and!; try done.
  - constructor; [constructor|constructor].
  - by apply sorted_app.
  - intros x y ->%list_elem_of_singleton. apply Hafter.
  - intros x y Hx Hy. apply elem_of_cons in Hy as [->|Hy]; [|by apply Hgh].
    pose proof (Hlast x Hx). lia.
  - intros x y Hx Hy. apply elem_of_app in Hy as [Hy|Hy]; [apply Hxg; [done|by apply elem_of_app; left]|].
    apply elem_of_cons in Hy as [->|Hy]; [|apply Hxg; [done|by apply elem_of_app; right]].
    pose proof (Hxg x (2 * cell_rowid c) Hx ltac:(by apply elem_of_app; left)). lia.
Qed.
