(* ===== verification/BtreeInsertProof.v ===== *)
(** * Insertion is correct

    The cascade of page splits against the abstract tree: every step writes
    well-formed pages, keeps the rows and their order, and changes no page
    outside the tree. *)

From S2P Require Import Prelude Varint Record Vfs Header Freelist Pager BtreePage BtreeSplice BtreePayload BtreeCursor BtreeLeaf BtreeStore BtreeInsert BtreeSplit BtreeZip.

Lemma header_start_0 n : 2 ≤ n → page1_header_start n = 0.
Proof. intros. unfold page1_header_start. rewrite decide_False by lia. done. Qed.

(** ** Descending to a leaf *)

Lemma pick_child_route rowid kids rt :
  pick_child rowid (entries kids) (root_of rt) = root_of (route rowid kids rt).
Proof. induction kids as [|k kids IH]; cbn; [done|]. by case_decide. Qed.

Section proof.
Context `{PageStoreSpec St} (ps u : Z).
Implicit Types (m : gmap Z bytes) (k : nat).

Abbreviation at_ m := (tree_at u (in_map m)).
Abbreviation runs c m k Q := (BtreeStore.runs ps c m k Q).

Lemma leaf_type m pn cells :
  at_ m (Leaf pn cells) → ∃ buf, m !! pn = Some buf ∧ table_leaf u (page1_header_start pn) cells buf ∧
    read_page_type buf (page1_header_start pn) pn = Ok LEAF_TABLE.
Proof.
  intros (buf & Hb%in_map_Ok & Hl). exists buf. split_and!; [done|done|]. unfold read_page_type. by rewrite (proj1 Hl).
Qed.

Lemma node_type m pn kids rt :
  at_ m (Node pn kids rt) → ∃ buf, m !! pn = Some buf ∧ zlen buf ≤ 65536 ∧
    read_page_type buf (page1_header_start pn) pn = Ok INTERIOR_TABLE ∧
    collect_interior_entries buf (page1_header_start pn) pn = Ok (entries kids, root_of rt).
Proof.
  intros ((buf & Hb%in_map_Ok & Hsz & _ & Hi) & _). exists buf. pose proof (hs_bounds pn). split_and!; [done|done| |].
  - unfold read_page_type. by rewrite (proj1 Hi).
  - by apply interior_page_collect.
Qed.

Lemma find_page_ok fuel anc t rowid m k :
  at_ m t → sorted (codes t) → zlen (pages t) ≤ Z.of_nat fuel →
  runs (find_page_loop fuel anc (root_of t) rowid) m k
    (λ r m' k', m' = m ∧ k' = k ∧ ∃ z pn cells, leads_to rowid t z pn cells ∧ r = (anc ++ zpath z, pn)).
Proof.
  revert anc t. induction fuel as [|fuel IH]; intros anc t Ht Hs Hf.
  { pose proof (pages_pos t). lia. }
  cbn [find_page_loop]. apply runs_bind. destruct t as [pn cells|pn kids rt]; cbn [root_of] in *.
  - destruct (leaf_type m pn cells Ht) as (buf & Hb & _ & Hty). eapply runs_read; [exact Hb|].
    apply runs_bind. eapply runs_lift; [exact Hty|]. rewrite decide_True by done. apply runs_ok.
    split_and!; [done|done|]. exists [], pn, cells. split; [apply leads_to_leaf|]. by rewrite app_nil_r.
  - destruct (node_type m pn kids rt Ht) as (buf & Hb & _ & Hty & Hcol). eapply runs_read; [exact Hb|].
    apply runs_bind. eapply runs_lift; [exact Hty|]. rewrite decide_False, decide_True by done.
    apply runs_bind. eapply runs_lift; [exact Hcol|]. cbn [fst snd]. rewrite pick_child_route.
    destruct (route_at_pages _ _ rowid kids rt pn Ht) as [Hat Hpg].
    eapply runs_mono; [apply IH; [exact Hat|by eapply route_sorted|lia]|].
    intros r m' k' (-> & -> & z & lpn & cells & Hz & ->). split_and!; [done|done|].
    destruct (leads_to_node _ _ _ _ _ _ _ Hs Hz) as (f & Hfp & Hl). exists (z ++ [f]), lpn, cells. split; [done|].
    unfold zpath. rewrite map_app, rev_app_distr. cbn. by rewrite Hfp, <- (assoc_L (++)).
Qed.

Lemma find_leaf_page_ok t rowid m k :
  at_ m t → sorted (codes t) → zlen (pages t) ≤ MAX_PAGES_VISITED →
  runs (find_leaf_page (root_of t) rowid) m k
    (λ r m' k', m' = m ∧ k' = k ∧ ∃ z pn cells, leads_to rowid t z pn cells ∧ r = (zpath z, pn)).
Proof. intros Ht Hs Hn. apply (find_page_ok _ [] t); [done|done|lia]. Qed.

(** ** Writing pages *)

(** Every owned page is a table page of [ps] bytes. *)
Definition owned m : Prop := ∀ n b, m !! n = Some b → 2 ≤ n < 4294967296 ∧ zlen b = ps.

Hypothesis (Hps : 512 ≤ ps ≤ 65536).

Lemma owned_root m t : owned m → at_ m t → 2 ≤ root_of t ∧ u32_ok (root_of t).
Proof.
  intros Ho Ht. destruct (tree_at_pages _ _ _ _ Ht (root_in_pages t)) as [b Hb]. destruct (Ho _ _ Hb). unfold u32_ok. lia.
Qed.

Lemma owned_entries m kids :
  owned m → Forall (λ x : Z * tree, at_ m x.2) kids → Forall (λ x : Z * tree, i64_ok x.1) kids → Forall entry_ok (entries kids).
Proof.
  intros Ho Hk Hi. unfold entries. rewrite Forall_fmap. rewrite Forall_forall in Hk, Hi |- *. intros x Hx. split; cbn; [|by apply Hi].
  by apply (owned_root m x.2 Ho), Hk.
Qed.

Lemma runs_write_node pn b kids rt m k (Q : () → gmap Z bytes → nat → Prop) :
  m !! pn = Some b → 2 ≤ pn → zlen b = ps → node_ok ps kids → Forall entry_ok (entries kids) → u32_ok (root_of rt) →
  (∀ b', zlen b' = ps → node_page (in_map (<[pn := b']> m)) pn (entries kids) (root_of rt) → Q () (<[pn := b']> m) k) →
  runs (bm_edit pn (write_interior_page 0 pn (interior_cells (entries kids)) (root_of rt))) m k Q.
Proof.
  intros Hm Hpn Hb (_ & Hfit & _) He Hr HQ.
  destruct (write_interior_page_ok 0 pn (root_of rt) (entries kids) b) as (b' & Hw & Hi & Hl & Hok & _);
    [lia|lia|done|done|constructor|lia|].
  eapply runs_edit; [exact Hm|exact Hw|lia|]. apply HQ; [lia|]. exists b'.
  rewrite header_start_0 by done. split_and!; [|lia|done|done]. apply in_map_Ok. by rewrite lookup_insert_eq.
Qed.

Lemma runs_write_leaf pn b cells m k (Q : () → gmap Z bytes → nat → Prop) :
  m !! pn = Some b → 2 ≤ pn → zlen b = ps → Forall (table_cell u) cells → 8 + cells_need cells ≤ ps →
  (∀ b', zlen b' = ps → at_ (<[pn := b']> m) (Leaf pn cells) → Q () (<[pn := b']> m) k) →
  runs (bm_edit pn (write_leaf_page 0 pn cells)) m k Q.
Proof.
  intros Hm Hpn Hb Hc Hfit HQ.
  destruct (write_leaf_page_ok u 0 pn cells b) as (b' & Hw & Hl & Hlen & _); [lia|lia|constructor|done|lia|].
  eapply runs_edit; [exact Hm|exact Hw|done|]. apply HQ; [lia|]. exists b'.
  rewrite header_start_0 by done. split; [|done]. apply in_map_Ok. by rewrite lookup_insert_eq.
Qed.

Lemma owned_insert m n b : owned m → 2 ≤ n < 4294967296 → zlen b = ps → owned (<[n := b]> m).
Proof.
  intros Ho Hn Hb x y Hx. destruct (decide (x = n)) as [->|].
  - rewrite lookup_insert_eq in Hx. injection Hx as <-. done.
  - rewrite lookup_insert_ne in Hx by done. by apply Ho.
Qed.

Lemma at_insert m n b t : n ∉ pages t → at_ m t → at_ (<[n := b]> m) t.
Proof.
  intros Hn. apply tree_at_ext. intros x Hx. unfold in_map. rewrite lookup_insert_ne; [done|]. by intros <-.
Qed.

Lemma fresh_not_in m n t : m !! n = None → at_ m t → n ∉ pages t.
Proof. intros Hn Ht Hin. destruct (tree_at_pages _ _ _ _ Ht Hin) as [b Hb]. congruence. Qed.

Lemma cell_bytes_map cells : cell_bytes (map keyed cells) = cells.
Proof. unfold cell_bytes. rewrite map_map. cbn. by rewrite map_id. Qed.

(** The tree [t] with its root page renamed. *)
Definition reroot (n : Z) (t : tree) : tree :=
  match t with Leaf _ cells => Leaf n cells | Node _ kids rt => Node n kids rt end.

Definition tree_type (t : tree) : Z := match t with Leaf _ _ => LEAF_TABLE | Node _ _ _ => INTERIOR_TABLE end.

Lemma tree_type_ok l buf m :
  at_ m l → m !! root_of l = Some buf → 2 ≤ root_of l → read_page_type buf 0 (root_of l) = Ok (tree_type l).
Proof.
  intros Hl Hb H2. destruct l as [pn cells|pn kids rt]; cbn [root_of tree_type] in *.
  - destruct (leaf_type m pn cells Hl) as (buf' & Hb' & _ & Hty). rewrite header_start_0 in Hty by done. congruence.
  - destruct (node_type m pn kids rt Hl) as (buf' & Hb' & _ & Hty & _). rewrite header_start_0 in Hty by done. congruence.
Qed.

Lemma kid_pages kids (x : Z * tree) n : x ∈ kids → n ∈ pages x.2 → n ∈ kpages kids.
Proof.
  intros (k1 & k2 & ->)%list_elem_of_split Hn. rewrite concat_map_mid, !elem_of_app. tauto.
Qed.

(** The content of [l]'s root page, written to page [n]. *)
Lemma copy_content_ok l n b buf m k (Q : () → gmap Z bytes → nat → Prop) :
  owned m → at_ m l → wf ps l → m !! root_of l = Some buf → m !! n = Some b → n ∉ tail (pages l) →
  (∀ b', zlen b' = ps → at_ (<[n := b']> m) (reroot n l) → Q () (<[n := b']> m) k) →
  runs (copy_content u buf 0 (root_of l) 0 n (tree_type l)) m k Q.
Proof.
  intros Ho Hl Hwl Hb Hn Hnl HQ. destruct (Ho _ _ Hb) as [Hl2 _]. destruct (Ho _ _ Hn) as [Hn2 Hbl].
  unfold copy_content. destruct l as [pn cells|pn kids rt]; cbn [root_of pages tail tree_type] in *.
  - destruct (leaf_type m pn cells Hl) as (buf' & Hb' & Htl & _). rewrite Hb in Hb'. injection Hb' as <-.
    rewrite header_start_0 in Htl by lia. rewrite decide_True by done.
    apply runs_bind. eapply runs_lift; [by apply table_leaf_collect|]. rewrite cell_bytes_map.
    eapply runs_write_leaf; [exact Hn|lia|done|apply Htl|done|exact HQ].
  - destruct (node_type m pn kids rt Hl) as (buf' & Hb' & _ & _ & Hcol). rewrite Hb in Hb'. injection Hb' as <-.
    rewrite header_start_0 in Hcol by lia. rewrite decide_False, decide_True by done.
    apply runs_bind. eapply runs_lift; [exact Hcol|]. cbn [fst snd].
    apply tree_at_node in Hl as (_ & Hks & Hrt). apply wf_node in Hwl as (Hnok & _ & _). rewrite elem_of_app in Hnl.
    eapply runs_write_node; [exact Hn|lia|done|done|eapply owned_entries; [exact Ho|done|apply Hnok]|by apply (owned_root m)|].
    intros b' Hb' Hnp. apply HQ; [done|]. cbn [reroot]. apply tree_at_node. split_and!; [done| |].
    + rewrite Forall_forall in Hks |- *. intros x Hx. apply at_insert; [|by apply Hks]. intros Hin. apply Hnl. left.
      by eapply kid_pages.
    + apply at_insert; [tauto|done].
Qed.

(** ** The root split *)

(** What a split leaves behind: the tree now has the rows of [l] and [r] in
    place, separated by [d]. *)
Definition is_node (t : tree) : Prop := match t with Leaf _ _ => False | Node _ _ _ => True end.

Record spliced m m' (new : nat) (old : list Z) (t' : tree) (root : Z) (cs : list Z) (exact_ : Prop)
    (left right : list (Z * list bytes)) : Prop := {
  sp_at : at_ m' t';
  sp_wf : wf ps t';
  sp_root : root_of t' = root;
  sp_nodup : NoDup (pages t');
  sp_count : length (pages t') = (length old + new)%nat;
  sp_pages : ∀ n, n ∈ pages t' → n ∈ old ∨ m !! n = None;
  sp_old : ∀ n, n ∈ old → n ∈ pages t';
  sp_same : same_off (pages t') m m';
  sp_owned : owned m';
  sp_codes : codes t' = cs;
  sp_leaves : ∃ ll, leaves_of t' = ll ++ right ∧ ll.*2 = left.*2 ∧ (exact_ → ll = left);
}.

Lemma root_split_ok l r d m k :
  at_ m l → at_ m r → NoDup (pages l ++ pages r) → wf ps l → wf ps r → owned m → i64_ok d →
  runs (root_split u (root_of l) (root_of r) d) m (S k)
    (λ _ m' k', k' = k ∧ ∃ t', spliced m m' 1 (pages l ++ pages r) t' (root_of l)
       (codes l ++ [2 * d + 1] ++ codes r) (is_node l) (leaves_of l) (leaves_of r)).
Proof.
  intros Hl Hr Hnd Hwl Hwr Ho Hd. unfold root_split.
  destruct (owned_root m l Ho Hl) as [Hl2 Hlu]. destruct (owned_root m r Ho Hr) as [Hr2 Hru].
  destruct (tree_at_pages _ _ _ _ Hl (root_in_pages l)) as [buf Hb]. destruct (Ho _ _ Hb) as [_ Hbl].
  rewrite header_start_0 by done.
  apply runs_bind. eapply (runs_peek ps); [exact Hb|reflexivity|].
  apply NoDup_app in Hnd as (Hndl & Hdis & Hndr).
  (* the relocated subtree, once written *)
  assert (Hmain : ∀ n b1 m1, m !! n = None → 2 ≤ n < 4294967296 → zlen b1 = ps → m1 = <[n := b1]> m →
    at_ m1 (reroot n l) →
    runs (bm_edit (root_of l) (write_interior_page 0 (root_of l) [build_interior_cell n d] (root_of r))) m1 k
    (λ _ m' k', k' = k ∧ ∃ t', spliced m m' 1 (pages l ++ pages r) t' (root_of l)
       (codes l ++ [2 * d + 1] ++ codes r) (is_node l) (leaves_of l) (leaves_of r))).
  { intros n b1 m1 Hn Hn2 Hb1 -> Hre.
    assert (Hnl : root_of l ≠ n) by (intros <-; congruence).
    assert (Hrr : root_of (reroot n l) = n) by (by destruct l).
    assert (Ho1 : owned (<[n := b1]> m)) by (by apply owned_insert).
    assert (Hwre : wf ps (reroot n l)) by (by destruct l).
    change [build_interior_cell n d] with (interior_cells [(n, d)]).
    assert (Hent : [(n, d)] = entries [(d, reroot n l)]) by (unfold entries; cbn; by rewrite Hrr). rewrite Hent.
    assert (Hnok : node_ok ps [(d, reroot n l)]).
    { split_and!; [done| |constructor; [done|constructor]]. rewrite <- Hent. unfold interior_cells. cbn [map].
      pose proof (build_interior_cell_length (n, d)) as Hbc. rewrite bsum_need. unfold bsum. cbn [map foldr length fst snd] in *. lia. }
    assert (Hm1 : <[n := b1]> m !! root_of l = Some buf) by (by rewrite lookup_insert_ne).
    assert (Hpre : pages (reroot n l) ≡ₚ n :: tail (pages l)) by (by destruct l).
    assert (Hptl : pages l = root_of l :: tail (pages l)) by (by destruct l).
    assert (Hn_r : n ∉ pages r) by (by eapply fresh_not_in).
    assert (Hn_l : n ∉ pages l) by (by eapply fresh_not_in).
    eapply runs_write_node; [exact Hm1|done|done|done| |done|].
    { rewrite <- Hent. constructor; [split; [unfold u32_ok; cbn; lia|done]|constructor]. }
    intros b' Hb' Hnp. split; [done|]. exists (Node (root_of l) [(d, reroot n l)] r).
    rewrite Hptl in Hndl, Hdis. apply NoDup_cons in Hndl as [Hrl Hndt].
    assert (Hroot_re : root_of l ∉ pages (reroot n l)).
    { rewrite Hpre, elem_of_cons. intros [?|?]; [congruence|done]. }
    assert (Hroot_r : root_of l ∉ pages r) by (apply Hdis; left).
    split.
    - apply tree_at_node. split_and!; [done| |].
      + constructor; [|constructor]. cbn. by apply at_insert.
      + apply at_insert; [done|]. by apply at_insert.
    - apply wf_node. split_and!; [done|constructor; [done|constructor]|done].
    - done.
    - cbn [pages map concat]. rewrite app_nil_r. constructor.
      + rewrite elem_of_app. tauto.
      + rewrite Hpre. apply NoDup_app. split_and!.
        * constructor; [|done]. intros Hx. apply Hn_l. rewrite Hptl. by right.
        * intros x [->|Hx]%elem_of_cons; [done|]. apply Hdis. by right.
        * done.
    - cbn [pages map concat length]. rewrite app_nil_r, !length_app, Hpre. rewrite Hptl. cbn [length tail]. lia.
    - intros x. cbn [pages map concat]. rewrite app_nil_r, elem_of_cons, elem_of_app, Hpre, elem_of_cons, elem_of_app.
      rewrite Hptl, elem_of_cons. naive_solver.
    - intros x Hx. cbn [pages map concat]. rewrite app_nil_r, elem_of_cons, elem_of_app, Hpre, elem_of_cons.
      rewrite Hptl, elem_of_app, elem_of_cons in Hx. tauto.
    - intros x. cbn [pages map concat]. rewrite app_nil_r, elem_of_cons, elem_of_app, Hpre, elem_of_cons. intros Hx.
      rewrite !lookup_insert_ne; [done| |]; intros <-; tauto.
    - apply owned_insert; [done|destruct (Ho _ _ Hb); lia|done].
    - cbn. rewrite app_nil_r, <- (assoc_L (++)). f_equal. by destruct l.
    - exists (leaves_of (reroot n l)). split_and!; [cbn; by rewrite app_nil_r|by destruct l|by destruct l]. }
  apply runs_bind. eapply runs_lift; [by apply (tree_type_ok l buf m)|]. apply runs_bind, runs_alloc. intros n b Hn Hn2 Hbn.
  assert (Hnl : n ∉ pages l) by (by eapply fresh_not_in).
  apply runs_bind. eapply (copy_content_ok l n b buf); [by apply owned_insert|by apply at_insert|done| | | |].
  - rewrite lookup_insert_ne; [done|]. intros ->. apply Hnl, root_in_pages.
  - by rewrite lookup_insert_eq.
  - intros Hin. apply Hnl. destruct l; by right.
  - intros b' Hb' Hat. rewrite insert_insert_eq in Hat |- *. by eapply (Hmain n b').
Qed.

(** ** The parent after a split *)

Lemma split_entries_ok parent f l d r :
  NoDup (pages (plug1 f l)) →
  split_entries parent (entries (hole_kids f l)) (root_of (hole_rt f l)) (root_of l) (root_of r) d =
    Ok (entries (split_kids f l d r), root_of (split_rt f r)).
Proof.
  intros Hf%hole_find. unfold split_entries. rewrite Hf. unfold hole_kids, hole_rt, split_kids, split_rt in *.
  destruct (zf_hole f) as [ks1 k ks2 rt|ks]; [|by rewrite decide_True, entries_app].
  rewrite !entries_app, !entries_cons. cbn [fst snd].
  assert (Hl : length ks1 = length (entries ks1)) by (unfold entries; by rewrite length_map). rewrite Hl.
  unfold insert_at. rewrite take_app_length, drop_app_length.
  rewrite lookup_app_r by lia. rewrite Nat.sub_succ_l, Nat.sub_diag by lia. cbn [lookup list_lookup ok_or].
  rewrite insert_app_r_alt by lia. rewrite Nat.sub_succ_l, Nat.sub_diag by lia. done.
Qed.

Lemma node_need_bounds kids : 7 * zlen kids ≤ cells_need (interior_cells (entries kids)) ≤ 15 * zlen kids.
Proof.
  rewrite node_need. induction kids as [|x kids IH]; cbn [map foldr length]; [lia|]. pose proof (key_size_bounds x.1). lia.
Qed.

Lemma interior_needed kids :
  cells_need (interior_cells (entries kids)) ≤ 70000 →
  sat_add (sat_add (sat_add 0 12) (sat_mul (zlen (interior_cells (entries kids))) 2))
    (foldr Z.add 0 (map (λ c : bytes, zlen c) (interior_cells (entries kids)))) =
  12 + cells_need (interior_cells (entries kids)).
Proof.
  intros Hn. pose proof (node_need_bounds kids) as Hb. fold (bsum (interior_cells (entries kids))). rewrite bsum_need in *.
  assert (Hl : length (interior_cells (entries kids)) = length kids) by (unfold interior_cells, entries; by rewrite !length_map).
  rewrite Hl in *.
  assert (0 ≤ bsum (interior_cells (entries kids))).
  { unfold bsum. generalize (interior_cells (entries kids)). clear. induction l; cbn [map foldr]; lia. }
  rewrite sat_mul_page by lia. rewrite (sat_add_page 0 12), (sat_add_page (0 + 12)), sat_add_page by lia. lia.
Qed.

(** An interior page too large by one cell, cut at its median. *)
Lemma median_ok kids :
  ps < 12 + cells_need (interior_cells (entries kids)) ≤ ps + 15 → Forall (λ x : Z * tree, i64_ok x.1) kids →
  ∃ (mid : nat) x, interior_median_by_bytes (interior_cells (entries kids)) = Z.of_nat mid ∧ kids !! mid = Some x ∧
    node_ok ps (take mid kids) ∧ node_ok ps (drop (S mid) kids).
Proof.
  intros Hn Hk. pose proof (node_need_bounds kids) as Hb.
  assert (Hl : length (interior_cells (entries kids)) = length kids) by (unfold interior_cells, entries; by rewrite !length_map).
  assert (Hc : Forall (λ c : bytes, 5 ≤ zlen c ≤ 13) (interior_cells (entries kids))).
  { unfold interior_cells. apply Forall_fmap, Forall_forall. intros e _. apply build_interior_cell_length. }
  destruct (interior_median_ok (interior_cells (entries kids)) Hc) as (mid & Hm & H1 & H2 & Ht & Hd); [lia|].
  destruct (lookup_lt_is_Some_2 kids mid ltac:(lia)) as [x Hx]. exists mid, x.
  pose proof (bsum_bounds _ Hc) as Hbs. rewrite bsum_need in Hn. rewrite Hl in *.
  assert (Htk : take mid (interior_cells (entries kids)) = interior_cells (entries (take mid kids)))
    by (unfold interior_cells, entries; by rewrite !firstn_map).
  assert (Hdk : drop (S mid) (interior_cells (entries kids)) = interior_cells (entries (drop (S mid) kids)))
    by (unfold interior_cells, entries; by rewrite !skipn_map).
  rewrite Htk in Ht. rewrite Hdk in Hd.
  assert (Hlt : length (interior_cells (entries (take mid kids))) = mid).
  { unfold interior_cells, entries. rewrite !length_map, length_take. lia. }
  assert (Hld : length (interior_cells (entries (drop (S mid) kids))) = (length kids - S mid)%nat).
  { unfold interior_cells, entries. rewrite !length_map, length_drop. lia. }
  split_and!; [done|done|split_and!|split_and!].
  - intros He. apply (f_equal length) in He. rewrite length_take in He. cbn in He. lia.
  - rewrite bsum_need, Hlt. lia.
  - by apply Forall_take.
  - intros He. apply (f_equal length) in He. rewrite length_drop in He. cbn in He. lia.
  - rewrite bsum_need, Hld. lia.
  - by apply Forall_drop.
Qed.

Lemma at_children m P b (ts : list tree) :
  (∀ t, t ∈ ts → P ∉ pages t) → Forall (at_ m) ts → Forall (at_ (<[P := b]> m)) ts.
Proof. rewrite !Forall_forall. intros Hn Ht t Hin. apply at_insert; [by apply Hn|by apply Ht]. Qed.

(** Everything about the node of a frame whose child was split. *)
Record split_node m (f : zframe) (l : tree) (d : Z) (r : tree) : Prop := {
  sn_at : ∀ b, Forall (λ x : Z * tree, at_ (<[zf_page f := b]> m) x.2) (split_kids f l d r) ∧
               at_ (<[zf_page f := b]> m) (split_rt f r);
  sn_wf : Forall (λ x : Z * tree, wf ps x.2) (split_kids f l d r) ∧ wf ps (split_rt f r);
  sn_keys : Forall (λ x : Z * tree, i64_ok x.1) (split_kids f l d r);
  sn_entries : Forall entry_ok (entries (split_kids f l d r)) ∧ u32_ok (root_of (split_rt f r));
}.

Lemma split_node_ok m f l d r :
  at_ m (plug1 f l) → at_ m r → NoDup (pages (plug1 f l) ++ pages r) → wf ps (plug1 f l) → wf ps r → owned m → i64_ok d →
  split_node m f l d r.
Proof.
  intros Hl Hr Hnd Hwl Hwr Ho Hd. apply tree_at_plug1 in Hl as (_ & Hsib & Hl). apply wf_plug1 in Hwl as (Hnok & Hwsib & Hwl).
  rewrite pages_plug1, <- (assoc_L (++)), <- (split_pages f l d r) in Hnd. apply NoDup_cons in Hnd as [HP Hnd].
  destruct (split_children (at_ m) f l d r Hsib Hl Hr) as [Hk Hrt].
  assert (Hkeys : Forall (λ x : Z * tree, i64_ok x.1) (split_kids f l d r)).
  { eapply split_keys; [|done]. apply Hnok. }
  rewrite elem_of_app in HP. split.
  - intros b. split.
    + assert (HPk : zf_page f ∉ kpages (split_kids f l d r)) by tauto. clear -Hk HPk.
      induction Hk as [|x ks Hx Hk IH]; [constructor|]. cbn in HPk. rewrite elem_of_app in HPk.
      constructor; [apply at_insert; [tauto|done]|apply IH; tauto].
    + apply at_insert; [tauto|done].
  - by apply split_children.
  - done.
  - split; [by eapply owned_entries|by apply (owned_root m)].
Qed.

(** One step up: the parent [f] of [l] after [l] was split into [l] and [r]. *)
Section step.
Context (f : zframe) (z : list zframe) (l r : tree) (d : Z) (m : gmap Z bytes).
Abbreviation P := (zf_page f).
Abbreviation ks := (split_kids f l d r).
Abbreviation rt := (split_rt f r).
Abbreviation t0 := (plug z (plug1 f l)).
Hypotheses (Hl : at_ m t0) (Hr : at_ m r) (Hnd : NoDup (pages t0 ++ pages r)) (Hwl : wf ps t0) (Hwr : wf ps r)
  (Ho : owned m) (Hd : i64_ok d).

Lemma step_nodup : NoDup (zpages z ++ pages (plug1 f l) ++ pages r).
Proof. by rewrite pages_plug, <- (assoc_L (++)) in Hnd. Qed.

Lemma step_node : split_node m f l d r.
Proof.
  pose proof step_nodup as (_ & _ & ?)%NoDup_app. apply split_node_ok; try done; [by eapply tree_at_sub|by eapply wf_sub].
Qed.

Lemma step_page_z : P ∉ zpages z.
Proof.
  pose proof step_nodup as (_ & Hdis & _)%NoDup_app. intros HP. apply (Hdis P HP). rewrite pages_plug1, !elem_of_app.
  left. left. apply fpages_page.
Qed.

Lemma step_page_in : P ∈ pages t0 ++ pages r.
Proof. rewrite pages_plug, pages_plug1, !elem_of_app. left. right. left. apply fpages_page. Qed.

(** What the step reads of the parent, and the room its entries need. *)
Lemma step_read :
  ∃ buf, m !! P = Some buf ∧ 2 ≤ P < 4294967296 ∧ zlen buf = ps ∧
    collect_interior_entries buf 0 P = Ok (entries (hole_kids f l), root_of (hole_rt f l)) ∧
    split_entries P (entries (hole_kids f l)) (root_of (hole_rt f l)) (root_of l) (root_of r) d = Ok (entries ks, root_of rt).
Proof.
  pose proof (tree_at_sub _ _ _ _ Hl) as Hlf. rewrite plug1_node in Hlf.
  destruct (node_type m _ _ _ Hlf) as (buf & Hb & Hsz & _ & Hcol). exists buf. destruct (Ho _ _ Hb) as [HP2 Hbl].
  rewrite header_start_0 in Hcol by lia. split_and!; try done; try lia. apply split_entries_ok.
  pose proof step_nodup as (_ & _ & (? & _)%NoDup_app)%NoDup_app. done.
Qed.

Lemma step_need : cells_need (interior_cells (entries ks)) ≤ ps + 15 - 12 ∧ ks ≠ [].
Proof.
  pose proof (wf_sub _ _ _ Hwl) as ((_ & Hfit & _) & _ & _)%wf_plug1. pose proof (split_need f l d r l). pose proof (key_size_bounds d).
  split; [lia|]. unfold split_kids. by destruct (zf_hole f) as [[|]|[|]].
Qed.

(** The tree above, once the page of the parent is the root of [t1]. *)
Lemma step_replace m' t1 :
  root_of t1 = P → at_ m' t1 → wf ps t1 → (∀ n, n ∈ zpages z → m' !! n = m !! n) →
  at_ m' (plug z t1) ∧ wf ps (plug z t1) ∧ root_of (plug z t1) = root_of t0.
Proof.
  intros Hr1 Ht1 Hw1 Hext. split_and!.
  - eapply tree_at_replace; [exact Hl|by rewrite root_of_plug1| |done]. intros n Hn. unfold in_map. by rewrite Hext.
  - eapply wf_replace; [exact Hwl| |done]. by rewrite root_of_plug1.
  - apply root_of_plug. by rewrite root_of_plug1.
Qed.

(** The entries fit: the cascade ends here. *)
Lemma step_fits k :
  12 + cells_need (interior_cells (entries ks)) ≤ ps →
  runs (bm_edit P (write_interior_page 0 P (interior_cells (entries ks)) (root_of rt))) m k
    (λ _ m' k', k' = k ∧ ∃ t', spliced m m' 0 (pages t0 ++ pages r) t' (root_of t0)
       (lcodes (f :: z) ++ codes l ++ [2 * d + 1] ++ codes r ++ rcodes (f :: z))
       True (lleaves (f :: z) ++ leaves_of l) (leaves_of r ++ rleaves (f :: z))).
Proof.
  intros Hok. destruct step_node as [Hsat Hswf Hskeys [Hse Hsr]]. destruct step_read as (buf & Hb & HP2 & Hbl & _).
  assert (Hnok : node_ok ps ks) by (split_and!; [apply step_need|done|done]).
  eapply runs_write_node; [exact Hb|lia|done|done|done|done|]. intros b' Hb' Hnp. split; [done|].
  set (t1 := Node P ks rt). exists (plug z t1).
  destruct (step_replace (<[P := b']> m) t1) as (Hat & Hw & Hrt); [done| | | |].
  { apply tree_at_node. split; [done|apply Hsat]. }
  { apply wf_node. by split. }
  { intros n Hn. rewrite lookup_insert_ne; [done|]. intros Heq. apply step_page_z. by rewrite Heq. }
  assert (Hpg : pages (plug z t1) ≡ₚ pages t0 ++ pages r).
  { rewrite !pages_plug. cbn [pages t1]. rewrite split_pages, pages_plug1. solve_Permutation. }
  split; [done|done|done| | | |..].
  - by rewrite Hpg.
  - rewrite Hpg. lia.
  - intros n Hn. left. by rewrite <- Hpg.
  - intros n. by rewrite Hpg.
  - apply same_insert. rewrite Hpg. apply step_page_in.
  - by apply owned_insert.
  - rewrite codes_plug. cbn [codes t1]. rewrite split_codes. cbn [lcodes rcodes]. by rewrite <- !(assoc_L (++)).
  - exists (lleaves (f :: z) ++ leaves_of l). split_and!; [|done|done].
    rewrite leaves_plug. cbn [leaves_of t1]. rewrite split_leaves. cbn [rleaves lleaves]. by rewrite <- !(assoc_L (++)).
Qed.

(** The entries do not fit: the node is cut at [x], its right half going to
    the fresh page [n]. *)
Section cut.
Context (mid : nat) (x : Z * tree) (n : Z) (b b1 b2 : bytes).
Abbreviation l1 := (Node P (take mid ks) x.2).
Abbreviation r1 := (Node n (drop (S mid) ks) rt).
Abbreviation m3 := (<[n := b2]> (<[P := b1]> (<[n := b]> m))).
Hypotheses (Hx : ks !! mid = Some x) (Hn1 : node_ok ps (take mid ks)) (Hn2 : node_ok ps (drop (S mid) ks))
  (Hnf : m !! n = None) (Hn : 2 ≤ n < 4294967296) (Hb1 : zlen b1 = ps) (Hb2 : zlen b2 = ps) (Hb : zlen b = ps)
  (Hnp1 : node_page (in_map (<[P := b1]> (<[n := b]> m))) P (entries (take mid ks)) (root_of x.2))
  (Hnp2 : node_page (in_map m3) n (entries (drop (S mid) ks)) (root_of rt)).

Lemma cut_fresh : n ∉ pages t0 ++ pages r.
Proof.
  rewrite elem_of_app. intros [Hi|Hi]; [by apply (fresh_not_in _ _ _ Hnf Hl)|by apply (fresh_not_in _ _ _ Hnf Hr)].
Qed.

Lemma cut_page_ne : P ≠ n.
Proof. intros Heq. apply cut_fresh. rewrite <- Heq. apply step_page_in. Qed.

Lemma cut_lookup y : y ≠ n → m3 !! y = <[P := b1]> m !! y.
Proof.
  intros Hy. rewrite lookup_insert_ne by done. destruct (decide (y = P)) as [->|].
  - by rewrite !lookup_insert_eq.
  - by rewrite !lookup_insert_ne by done.
Qed.

Lemma cut_kids t : n ∉ pages t → at_ (<[P := b1]> m) t → at_ m3 t.
Proof. intros Hnt. apply tree_at_ext. intros y Hy. unfold in_map. rewrite cut_lookup; [done|]. by intros ->. Qed.

Lemma cut_fresh_kids : n ∉ kpages ks ∧ n ∉ pages rt.
Proof.
  pose proof cut_fresh as Hf. pose proof (split_pages f l d r) as Hs.
  rewrite pages_plug, pages_plug1, <- !(assoc_L (++)), <- Hs, elem_of_app, elem_of_cons, elem_of_app in Hf. tauto.
Qed.

Lemma cut_at : at_ m3 l1 ∧ at_ m3 r1.
Proof.
  destruct step_node as [Hsat _ _ _]. destruct (Hsat b1) as [Hsk Hsrt]. destruct cut_fresh_kids as [Hnk Hnr].
  assert (Hall : Forall (λ y : Z * tree, at_ m3 y.2) ks).
  { rewrite Forall_forall in Hsk |- *. intros y Hy. apply cut_kids; [|by apply Hsk]. intros Hny. apply Hnk. by eapply kpages_in. }
  split; apply tree_at_node; split_and!.
  - eapply node_page_ext; [|exact Hnp1]. unfold in_map. rewrite lookup_insert_ne; [done|]. apply not_eq_sym, cut_page_ne.
  - by apply Forall_take.
  - by eapply Forall_lookup_1 in Hall.
  - done.
  - by apply Forall_drop.
  - by apply cut_kids.
Qed.

Lemma cut_wf : wf ps l1 ∧ wf ps r1.
Proof.
  destruct step_node as [_ [Hwk Hwrt] _ _]. split; apply wf_node; split_and!; try done.
  - by apply Forall_take.
  - by eapply Forall_lookup_1 in Hwk.
  - by apply Forall_drop.
Qed.

Lemma cut_shape :
  pages (plug z l1) ++ pages r1 ≡ₚ n :: pages t0 ++ pages r ∧
  codes l1 ++ [2 * x.1 + 1] ++ codes r1 = lcodes1 f ++ codes l ++ [2 * d + 1] ++ codes r ++ rcodes1 f ∧
  leaves_of l1 ++ leaves_of r1 = lleaves1 f ++ leaves_of l ++ leaves_of r ++ rleaves1 f.
Proof.
  pose proof (take_drop_middle _ _ _ Hx) as Hcut.
  destruct (cut_node P n (take mid ks) (drop (S mid) ks) x rt) as (Hcp & Hcc & Hcl). rewrite Hcut in Hcp, Hcc, Hcl.
  rewrite split_pages in Hcp. rewrite split_codes in Hcc. rewrite split_leaves in Hcl. split_and!; [|done|done].
  rewrite !pages_plug, pages_plug1, <- (assoc_L (++)), Hcp. solve_Permutation.
Qed.

Lemma cut_same : same_off (n :: pages t0 ++ pages r) m m3.
Proof.
  intros y. rewrite elem_of_cons. intros Hy. rewrite cut_lookup by tauto. rewrite lookup_insert_ne; [done|].
  intros <-. apply Hy. right. apply step_page_in.
Qed.

Lemma cut_owned : owned m3.
Proof. destruct step_read as (buf & _ & ? & _). repeat apply owned_insert; done. Qed.

Lemma cut_above : at_ m3 (plug z l1) ∧ wf ps (plug z l1) ∧ root_of (plug z l1) = root_of t0.
Proof.
  apply step_replace; [done|apply cut_at|apply cut_wf|]. intros y Hy. rewrite cut_lookup.
  - rewrite lookup_insert_ne; [done|]. intros <-. by apply step_page_z.
  - intros ->. apply cut_fresh. rewrite pages_plug, !elem_of_app. tauto.
Qed.

(** What the rest of the cascade leaves is right for this step too. *)
Lemma cut_spliced m' new t' :
  spliced m3 m' new (pages (plug z l1) ++ pages r1) t' (root_of (plug z l1))
    (lcodes z ++ codes l1 ++ [2 * x.1 + 1] ++ codes r1 ++ rcodes z)
    (z ≠ [] ∨ is_node l1) (lleaves z ++ leaves_of l1) (leaves_of r1 ++ rleaves z) →
  spliced m m' (S new) (pages t0 ++ pages r) t' (root_of t0)
    (lcodes (f :: z) ++ codes l ++ [2 * d + 1] ++ codes r ++ rcodes (f :: z))
    True (lleaves (f :: z) ++ leaves_of l) (leaves_of r ++ rleaves (f :: z)).
Proof.
  destruct cut_shape as (Hold & Hcc & Hcl). destruct cut_above as (_ & _ & Hroot). intros []. split; try done.
  - by rewrite <- Hroot.
  - rewrite sp_count0, Hold. cbn [length]. lia.
  - intros y Hy. destruct (sp_pages0 y Hy) as [Hin|Hnone].
    + rewrite Hold, elem_of_cons in Hin. destruct Hin as [->|?]; [by right|by left].
    + destruct (decide (y ∈ n :: pages t0 ++ pages r)) as [Hin|Hni].
      * apply elem_of_cons in Hin as [->|?]; [by right|by left].
      * right. by rewrite cut_same in Hnone.
  - intros y Hy. apply sp_old0. rewrite Hold. by right.
  - eapply same_trans; [apply cut_same|exact sp_same0| |done]. intros y Hy. apply sp_old0. by rewrite Hold.
  - rewrite sp_codes0. cbn [lcodes rcodes].
    transitivity (lcodes z ++ (codes l1 ++ [2 * x.1 + 1] ++ codes r1) ++ rcodes z); [by rewrite <- !(assoc_L (++))|].
    rewrite Hcc. by rewrite <- !(assoc_L (++)).
  - destruct sp_leaves0 as (ll & Hll & _ & Hex'). rewrite Hex' in Hll by (by right).
    exists (lleaves (f :: z) ++ leaves_of l). split_and!; [|done|done]. rewrite Hll. cbn [lleaves rleaves].
    transitivity (lleaves z ++ (leaves_of l1 ++ leaves_of r1) ++ rleaves z); [by rewrite <- !(assoc_L (++))|].
    rewrite Hcl. by rewrite <- !(assoc_L (++)).
Qed.
End cut.
End step.

Lemma spliced_exact m m' new old t' root cs (P Q : Prop) left right :
  spliced m m' new old t' root cs P left right → (Q → P) → spliced m m' new old t' root cs Q left right.
Proof. intros [] HQ. split; try done. destruct sp_leaves0 as (ll & ? & ? & ?). exists ll. split_and!; auto. Qed.

Lemma insert_up_ok z l r d m k :
  at_ m (plug z l) → at_ m r → NoDup (pages (plug z l) ++ pages r) → wf ps (plug z l) → wf ps r → owned m → i64_ok d →
  runs (insert_into_parent_up u ps (map zf_page z) (root_of (plug z l)) (root_of l) (root_of r) d) m (S (length z) + k)
    (λ _ m' k', (k ≤ k' ≤ S (length z) + k)%nat ∧ ∃ t', spliced m m' (S (length z) + k - k') (pages (plug z l) ++ pages r) t' (root_of (plug z l))
       (lcodes z ++ codes l ++ [2 * d + 1] ++ codes r ++ rcodes z)
       (z ≠ [] ∨ is_node l) (lleaves z ++ leaves_of l) (leaves_of r ++ rleaves z)).
Proof.
  revert l r d m k. induction z as [|f z IH]; intros l r d m k Hl Hr Hnd Hwl Hwr Ho Hd.
  { cbn [plug map insert_into_parent_up length lcodes rcodes lleaves rleaves app]. rewrite !app_nil_r.
    eapply runs_mono; [by apply root_split_ok|]. intros _ m' k' (-> & t' & Hs). split; [cbn; lia|]. exists t'.
    replace (1 + k - k)%nat with 1%nat by lia. eapply spliced_exact; [exact Hs|tauto]. }
  cbn [plug map insert_into_parent_up] in *. destruct (step_read f z l r d m) as (buf & Hb & HP2 & Hbl & Hcol & Hse); [done..|].
  rewrite header_start_0 by lia. apply runs_bind. eapply (runs_peek ps); [exact Hb|exact Hcol|]. cbn [fst snd].
  apply runs_bind. eapply runs_lift; [exact Hse|]. destruct (step_need f z l r d) as [Hneed Hne]; [done|].
  cbv zeta. rewrite interior_needed by lia.
  destruct (decide (12 + cells_need (interior_cells (entries (split_kids f l d r))) ≤ ps)) as [Hok|Hover].
  - eapply runs_mono; [by apply (step_fits f z)|]. intros _ m' k' (-> & t' & Hs). split; [lia|]. exists t'.
    rewrite Nat.sub_diag. eapply spliced_exact; [exact Hs|done].
  - destruct (step_node f z l r d m) as [_ _ Hkeys [Hent Hrt]]; [done..|].
    destruct (median_ok (split_kids f l d r)) as (mid & x & -> & Hx & Hn1 & Hn2); [lia|done|]. rewrite Nat2Z.id.
    apply runs_bind. eapply (runs_lift ps _ (root_of x.2, x.1)); [unfold entries; by rewrite list_lookup_fmap, Hx|]. cbn [fst snd length].
    rewrite Nat.add_succ_l. apply runs_bind, runs_alloc. intros n b Hnf Hn2' Hnb.
    replace (take mid (entries _)) with (entries (take mid (split_kids f l d r))) by (unfold entries; by rewrite firstn_map).
    replace (drop (S mid) (entries _)) with (entries (drop (S mid) (split_kids f l d r))) by (unfold entries; by rewrite skipn_map).
    assert (HPn : zf_page f ≠ n) by (intros Heq; congruence).
    rewrite <- (take_drop_middle _ _ _ Hx), entries_app, entries_cons in Hent.
    apply Forall_app in Hent as [He1 [[Hex _] He2]%Forall_cons].
    apply runs_bind. eapply runs_write_node; [by rewrite lookup_insert_ne|lia|done|done|done|done|].
    intros b1 Hb1 Hnp1. apply runs_bind.
    eapply runs_write_node; [by rewrite lookup_insert_ne, lookup_insert_eq|lia|done|done|done|done|]. intros b2 Hb2 Hnp2.
    destruct (cut_above f z l r d m) with mid x n b b1 b2 as (Ha1 & Ha2 & Ha3); [done..|]. rewrite <- Ha3.
    eapply runs_mono.
    { eapply (IH (Node (zf_page f) (take mid (split_kids f l d r)) x.2) (Node n (drop (S mid) (split_kids f l d r)) (split_rt f r)) x.1);
        [exact Ha1|by eapply (cut_at f z l r d m)| |exact Ha2|by eapply (cut_wf f z l r d m)|by eapply (cut_owned f z l r d m)|].
      - destruct (cut_shape f z l r d mid x n Hx) as [-> _]. constructor; [by apply (cut_fresh f z l r m)|done].
      - by eapply Forall_lookup_1 in Hkeys. }
    intros _ m' k' (Hk & t' & Hs). split; [lia|]. exists t'.
    replace (S (S (length z) + k) - k')%nat with (S (S (length z) + k - k')) by lia. rewrite Ha3 in Hs |- *.
    eapply spliced_exact; [eapply (cut_spliced f z l r d m) with mid x n b b1 b2; try done|done]. by rewrite Ha3.
Qed.

(** ** The leaf *)

Hypothesis (Hu : 35 ≤ u ≤ ps).

Lemma local_max pl : local_payload_size u pl false ≤ u - 35.
Proof.
  unfold local_payload_size. rewrite (sat_sub_ge u 35) by lia. case_decide; [done|]. case_decide; [done|].
  rewrite (sat_sub_ge u 12) by lia. rewrite (sat_mul_small (u - 12) 32).
  - assert ((u - 12) * 32 / 255 ≤ u - 12) by (apply Z.div_le_upper_bound; lia). unfold sat_sub. lia.
  - assert (HU : 4000000 ≤ USIZE_MAX) by done. lia.
Qed.

(** Any one cell fits an empty page. *)
Lemma cell_fits c : table_cell u c → zlen c ≤ 65536 → zlen c + 2 ≤ ps - 8.
Proof.
  intros (Hok & r & pl & t & Hd & He) Hl.
  apply decode_cell_head_Ok in Hd as (n1 & n2 & v2 & _ & _ & _ & _ & ? & ? & ? & [? _] & ?); [|done|done].
  pose proof (local_max pl). pose proof (local_payload_size_nonneg u pl false ltac:(lia)).
  unfold cell_end in He. rewrite (sat_add_page t) in He by lia. rewrite sat_add_page in He; [case_bool_decide; lia|lia|case_bool_decide; lia].
Qed.

Section leaf.
Context (pn : Z) (cells : list bytes) (buf : bytes) (rowid : Z) (cell : bytes).
Hypotheses (Hleaf : table_leaf u 0 cells buf) (Hbuf : zlen buf = ps) (Hwfl : 8 + cells_need cells ≤ ps)
  (Hnew : rowid ∉ map cell_rowid cells) (Hcell : table_cell u cell) (Hrow : cell_rowid cell = rowid) (Hcl : zlen cell ≤ 65536).

Abbreviation cells' := (insert_at (first_gt rowid cells) cell cells).

Lemma place_in_leaf_ok :
  if decide (8 + cells_need cells' ≤ ps) then
    ∃ buf', place_in_leaf u ps 0 pn rowid cell buf = (buf', Ok None) ∧ table_leaf u 0 cells' buf' ∧ length buf' = length buf
  else place_in_leaf u ps 0 pn rowid cell buf = (buf, Ok (Some (map keyed cells'))).
Proof.
  pose proof (cells_need_insert (first_gt rowid cells) cell cells) as Hneed.
  assert (Hscan := scan_leaf_ok u buf 0 cells pn Hleaf rowid Hnew). unfold cells_need in *. specialize (Hscan ltac:(lia)).
  assert (Hs : sat_add (sat_add (sat_add (sat_add 0 8) (sat_mul (sat_add (zlen cells) 1) 2)) (zlen (concat cells))) (zlen cell)
    = 8 + (zlen (concat cells') + 2 * zlen cells')).
  { rewrite (sat_add_page (zlen cells)), sat_mul_page, (sat_add_page 0 8), (sat_add_page (0 + 8)),
      (sat_add_page _ (zlen (concat cells))), sat_add_page by lia. lia. }
  case_decide as Hd; unfold place_in_leaf, b_bind at 1, b_get at 1; rewrite Hscan; cbv iota beta; rewrite Hs.
  - destruct (insert_fitting_ok u 0 cells buf pn (first_gt rowid cells) cell) as (b' & Hb & Hl & Hlen & _); [done| |].
    { split_and!; [apply first_gt_le|done|]. cbn. unfold cells_need. lia. }
    rewrite decide_True by done. rewrite Hrow in Hb. unfold b_bind. rewrite Hb. by exists b'.
  - rewrite decide_False by done. unfold b_bind, b_get. rewrite (table_leaf_collect _ _ _ _ pn Hleaf). rewrite Nat2Z.id.
    unfold b_ok. do 3 f_equal. unfold insert_at. rewrite map_app, <- firstn_map. cbn [map]. rewrite <- skipn_map.
    do 2 f_equal. unfold keyed. by rewrite Hrow.
Qed.
End leaf.
End proof.
