(* ===== verification/BtreeInsertRow.v ===== *)
(** * Inserting a row

    The leaf, its split into two or three pages, the routing of the new
    pages, and the whole of [insert_row] with its overflow chain. *)

From S2P Require Import Prelude Varint Record Vfs Header Freelist Pager BtreePage BtreeSplice BtreePayload BtreeCursor BtreeLeaf BtreeStore BtreeInsert BtreeSplit BtreeZip BtreeInsertProof.

Section row.
Context `{PageStoreSpec St} (ps u : Z).
Implicit Types (m : gmap Z bytes) (k : nat).

Abbreviation at_ m := (tree_at u (in_map m)).
Abbreviation runs c m k Q := (BtreeStore.runs ps c m k Q).
Abbreviation owned m := (BtreeInsertProof.owned ps m).

Hypotheses (Hps : 512 ≤ ps ≤ 65536) (Hu : 35 ≤ u ≤ ps).

(** ** Writing the groups *)

Definition group_ok (g : list (Z * bytes)) : Prop :=
  g ≠ [] ∧ wsum g ≤ ps - 8 ∧ Forall (table_cell u) (cell_bytes g).

Lemma group_last {A} (g : list A) : g ≠ [] → ∃ e, last g = Some e.
Proof. destruct g as [|e g] using rev_ind; [done|]. intros _. exists e. apply last_snoc. Qed.

Lemma write_rest_ok gs m k :
  owned m → Forall group_ok gs →
  runs (write_groups None gs) m (length gs + k) (λ pgs m' k', k' = k ∧ owned m' ∧ same_off pgs.*1 m m' ∧ NoDup pgs.*1 ∧
    (∀ n, n ∈ pgs.*1 → m !! n = None) ∧
    Forall2 (λ p g, at_ m' (Leaf p.1 (cell_bytes g)) ∧ fst <$> last g = Some p.2) pgs gs).
Proof.
  intros Ho Hg. revert m Ho. induction Hg as [|g gs (Hne & Hw & Hc) Hgs IH]; intros m Ho; cbn [write_groups length].
  { apply runs_ok. split_and!; [done|done|apply same_refl|constructor| |constructor].
    intros n Hn. by apply not_elem_of_nil in Hn. }
  destruct (group_last g Hne) as [e He]. apply runs_bind. eapply runs_lift; [by rewrite He|].
  apply runs_bind, runs_bind, runs_alloc. intros n b Hn Hn2 Hb. apply runs_ok. cbn [fst snd].
  apply runs_bind. eapply runs_write_leaf; [done|by rewrite lookup_insert_eq|lia|done|done|rewrite wsum_need in Hw; lia|].
  intros b' Hb' Hat. rewrite insert_insert_eq in Hat |- *. apply runs_bind.
  eapply runs_mono; [apply IH; by apply owned_insert|].
  intros pgs m' k' (-> & Ho' & Hag & Hnd & Hfr & Hall). apply runs_ok.
  assert (Hn' : <[n := b']> m !! n = Some b') by (by rewrite lookup_insert_eq).
  split_and!; [done|done| | | |].
  - cbn. eapply same_trans; [apply (same_insert [n]); left|exact Hag| |by right]. intros x ->%list_elem_of_singleton. left.
  - cbn. constructor; [|done]. intros Hin. specialize (Hfr n Hin). congruence.
  - intros x. cbn. intros [->|Hx]%elem_of_cons; [done|]. specialize (Hfr x Hx). by apply lookup_insert_None in Hfr as [? _].
  - constructor; [|done]. cbn [fst snd]. split; [|by rewrite He]. eapply (tree_at_agree _ []); [|intros x _; apply not_elem_of_nil|exact Hat].
    eapply same_agree; [exact Hag|]. intros x Hx. right. by apply Hfr.
Qed.

(** ** Order *)

Lemma sorted_insert A x B :
  sorted (A ++ B) → Forall (λ y, y < x) A → Forall (λ y, x < y) B → sorted (A ++ [x] ++ B).
Proof.
  rewrite !sorted_app, !Forall_forall. intros (HA & HB & HAB) Ha Hb. split_and!; [done|repeat constructor|done| |].
  - intros z y ->%list_elem_of_singleton Hy. by apply Hb.
  - intros z y Hz [->|Hy]%elem_of_cons; [by apply Ha|by apply HAB].
Qed.

Lemma codes_rowids (cells : list bytes) : sorted (leaf_code cells) → StronglySorted Z.lt (map cell_rowid cells).
Proof.
  unfold leaf_code. induction cells as [|c cells IH]; cbn; [constructor|]. intros [Hs Ha]%StronglySorted_inv.
  constructor; [by apply IH|]. rewrite Forall_fmap in Ha |- *. eapply Forall_impl; [exact Ha|]. cbn. intros; lia.
Qed.

Lemma insert_codes z pn cells rowid cell :
  sorted (codes (plug z (Leaf pn cells))) → leads_to rowid (plug z (Leaf pn cells)) z pn cells →
  rowid ∉ map cell_rowid cells → cell_rowid cell = rowid →
  sorted (lcodes z ++ leaf_code (insert_at (first_gt rowid cells) cell cells) ++ rcodes z).
Proof.
  rewrite codes_plug. cbn [codes]. fold (leaf_code cells). intros Hs (_ & Hl & Hr) Hn Hc.
  assert (Hss : StronglySorted Z.lt (map cell_rowid cells)) by (apply codes_rowids; rewrite !sorted_app in Hs; tauto).
  destruct (first_gt_split rowid cells Hss Hn) as [H1 H2]. set (i := first_gt rowid cells) in *.
  unfold insert_at, leaf_code in *. rewrite map_app. cbn [map]. rewrite Hc.
  rewrite <- (take_drop i cells), map_app, <- (assoc_L (++)), (assoc_L (++) (lcodes z)) in Hs.
  apply (sorted_insert _ (2 * rowid)) in Hs; [by rewrite <- !(assoc_L (++)) in *| |].
  - apply Forall_app. split; [done|]. rewrite Forall_fmap. eapply Forall_impl; [exact H1|]. cbn. intros; lia.
  - apply Forall_app. split; [|done]. rewrite Forall_fmap. eapply Forall_impl; [exact H2|]. cbn. intros; lia.
Qed.

(** ** Linking the new leaves *)

Lemma agree_none l m m' n : agree_off l m m' → m' !! n = None → n ∈ l ∨ m !! n = None.
Proof.
  intros Ha Hn. destruct (decide (n ∈ l)); [by left|]. right. destruct (m !! n) as [b|] eqn:E; [|done].
  specialize (Ha n b n0 E). congruence.
Qed.

(** [t'] is a tree of the map with the given root page, over pages of [old]
    and fresh pages, which are all that was written. *)
Record updated m m' (old : list Z) (root : Z) (t' : tree) : Prop := {
  up_at : at_ m' t';
  up_wf : wf ps t';
  up_root : root_of t' = root;
  up_nodup : NoDup (pages t');
  up_sorted : sorted (codes t');
  up_pages : ∀ n, n ∈ pages t' → n ∈ old ∨ m !! n = None;
  up_old : ∀ n, n ∈ old → n ∈ pages t';
  up_same : same_off (pages t') m m';
  up_owned : owned m';
}.

Lemma up_agree m m' old root t' : updated m m' old root t' → agree_off old m m'.
Proof. intros []. by eapply same_agree. Qed.

Lemma updated_from m m1 m' old old1 root t' :
  same_off old1 m m1 → (∀ n, n ∈ old1 → n ∈ old ∨ m !! n = None) → (∀ n, n ∈ old → n ∈ old1) →
  updated m1 m' old1 root t' → updated m m' old root t'.
Proof.
  intros Ha Hnew Hold []. split; try done.
  - intros n Hn. destruct (decide (n ∈ old1)) as [Hin|Hin]; [by apply Hnew|].
    destruct (up_pages0 n Hn) as [|Hn']; [done|]. right. by rewrite <- Ha.
  - intros n Hn. by apply up_old0, Hold.
  - by eapply same_trans.
Qed.

(** The leaves by their cells, whole and around a hole. *)
Definition groups (t : tree) : list (list bytes) := (leaves_of t).*2.
Definition lgroups (z : list zframe) : list (list bytes) := (lleaves z).*2.
Definition rgroups (z : list zframe) : list (list bytes) := (rleaves z).*2.
Definition lrows (z : list zframe) : list bytes := concat (lgroups z).
Definition rrows (z : list zframe) : list bytes := concat (rgroups z).

Lemma rows_groups t : rows t = concat (groups t).
Proof. apply rows_leaves. Qed.

Lemma groups_plug z t : groups (plug z t) = lgroups z ++ groups t ++ rgroups z.
Proof. unfold groups, lgroups, rgroups. by rewrite leaves_plug, !fmap_app. Qed.

Lemma zpath_rev z : rev (zpath z) = map zf_page z.
Proof. apply rev_involutive. Qed.

(** One routing step: [Leaf p g] keeps its page, [Leaf p1 g1] becomes its
    right neighbour. *)
Lemma link_ok z p g p1 g1 d m k :
  at_ m (plug z (Leaf p g)) → at_ m (Leaf p1 g1) → NoDup (pages (plug z (Leaf p g)) ++ [p1]) → wf ps (plug z (Leaf p g)) →
  8 + cells_need g1 ≤ ps → owned m → i64_ok d →
  runs (insert_into_parent u ps (zpath z) (root_of (plug z (Leaf p g))) p p1 d) m (S (length z) + k)
    (λ _ m' k', (k ≤ k')%nat ∧ ∃ t' ll, at_ m' t' ∧ wf ps t' ∧ root_of t' = root_of (plug z (Leaf p g)) ∧ NoDup (pages t') ∧
       (length (pages t') ≤ length (pages (plug z (Leaf p g))) + length z + 2)%nat ∧
       (∀ n, n ∈ pages t' → n ∈ pages (plug z (Leaf p g)) ++ [p1] ∨ m !! n = None) ∧
       (∀ n, n ∈ pages (plug z (Leaf p g)) ++ [p1] → n ∈ pages t') ∧ same_off (pages t') m m' ∧ owned m' ∧
       codes t' = lcodes z ++ leaf_code g ++ [2 * d + 1] ++ leaf_code g1 ++ rcodes z ∧
       leaves_of t' = ll ++ (p1, g1) :: rleaves z ∧ ll.*2 = lgroups z ++ [g]).
Proof.
  intros Ht Hl1 Hnd Hw Hw1 Ho Hd. unfold insert_into_parent. rewrite zpath_rev.
  eapply runs_mono; [apply (insert_up_ok ps u Hps z (Leaf p g) (Leaf p1 g1) d m k); done|].
  intros _ m' k' (Hk & t' & []). split; [lia|]. destruct sp_leaves as (ll & Hll & H2 & _). exists t', ll.
  split_and!; try done.
  - rewrite sp_count, length_app. cbn. lia.
  - by rewrite H2, fmap_app.
Qed.

Lemma groups_cells (gs : list (list (Z * bytes))) cells :
  concat gs = map keyed cells → concat (map cell_bytes gs) = cells ∧ gs = map (map keyed) (map cell_bytes gs).
Proof.
  revert cells. induction gs as [|g gs IH]; intros cells Hc; cbn in *; [by destruct cells|].
  symmetry in Hc. apply fmap_app_inv in Hc as (c1 & c2 & Hg & Hgs & ->).
  destruct (IH c2) as [Hi1 Hi2]; [exact Hgs|]. subst g. change (keyed <$> c1) with (map keyed c1). rewrite cell_bytes_map. split; [by rewrite Hi1|]. by rewrite <- Hi2.
Qed.

Lemma sorted_keep_left X Y Z W : sorted (X ++ Y ++ Z ++ W) → sorted (X ++ Y ++ W).
Proof. rewrite !(assoc_L (++) X). intros Hs. by apply sorted_drop_mid in Hs. Qed.

Lemma leaf_code_app g h : leaf_code (g ++ h) = leaf_code g ++ leaf_code h.
Proof. apply map_app. Qed.

Section route.
Context (z : list zframe) (p root : Z) (g0 g1 : list bytes) (c0 : bytes) (p1 : Z).
Abbreviation t0 := (plug z (Leaf p g0)).
Hypotheses (Hg0 : last g0 = Some c0) (Hg1 : g1 ≠ []) (Hfit : 8 + cells_need g1 ≤ ps) (Hd : i64_ok (cell_rowid c0))
  (Hroot : root = root_of t0).

Lemma route_two d1 m k :
  owned m → at_ m t0 → at_ m (Leaf p1 g1) → NoDup (pages t0 ++ [p1]) → wf ps t0 →
  sorted (lcodes z ++ leaf_code (g0 ++ g1) ++ rcodes z) →
  runs (route_groups u ps p root (zpath z) [(p, cell_rowid c0); (p1, d1)]) m (S (length z) + k)
    (λ _ m' k', (k ≤ k')%nat ∧ ∃ t', updated m m' (pages t0 ++ [p1]) root t' ∧ groups t' = lgroups z ++ [g0; g1] ++ rgroups z).
Proof.
  intros Ho Ht Hl1 Hnd Hw Hs. cbn [route_groups]. rewrite decide_False by tauto. apply runs_bind, runs_ok. apply runs_bind.
  rewrite Hroot. eapply runs_mono; [by apply link_ok|].
  intros _ m' k' (Hk & t' & ll & ? & ? & ? & ? & Hcnt & ? & ? & ? & ? & Hc & Hlv & Hll). apply runs_ok. split; [done|]. exists t'.
  split.
  - split; try done. rewrite Hc. apply sorted_divider; [done|done|]. by rewrite leaf_code_app, <- (assoc_L (++)) in Hs.
  - unfold groups. rewrite Hlv, fmap_app, Hll. cbn. by rewrite <- !(assoc_L (++)).
Qed.

Lemma route_three d2 (g2 : list bytes) c1 p2 m k :
  owned m → at_ m t0 → at_ m (Leaf p1 g1) → at_ m (Leaf p2 g2) → NoDup (pages t0 ++ [p1; p2]) → wf ps t0 →
  last g1 = Some c1 → i64_ok (cell_rowid c1) → g2 ≠ [] → 8 + cells_need g2 ≤ ps →
  2 * zlen (pages t0) + 2 ≤ MAX_PAGES_VISITED →
  sorted (lcodes z ++ leaf_code (g0 ++ g1 ++ g2) ++ rcodes z) →
  runs (route_groups u ps p root (zpath z) [(p, cell_rowid c0); (p1, cell_rowid c1); (p2, d2)]) m
    (3 * length (pages t0) + 4 + k)
    (λ _ m' k', (k ≤ k')%nat ∧ ∃ t', updated m m' (pages t0 ++ [p1; p2]) root t' ∧
       groups t' = lgroups z ++ [g0; g1; g2] ++ rgroups z).
Proof.
  intros Ho Ht Hl1 Hl2 Hnd Hw Hg1l Hd1 Hg2 Hfit2 Hmax Hs.
  pose proof (path_le_pages z (Leaf p g0)) as Hz.
  cbn [route_groups]. rewrite decide_False by tauto. apply runs_bind, runs_ok. apply runs_bind.
  change [p1; p2] with ([p1] ++ [p2]) in *. rewrite (assoc_L (++)) in Hnd.
  apply NoDup_app in Hnd as (Hnd1 & Hp2 & _). pose proof Hnd1 as (_ & Hp1 & _)%NoDup_app.
  rewrite !leaf_code_app, <- !(assoc_L (++)) in Hs.
  rewrite Hroot. eapply (runs_less ps _ _ _ (S (length z) + (2 * length (pages t0) + 3 + k))); [lia|].
  eapply runs_mono; [by apply link_ok|]. clear Ht Hw.
  intros _ m1 k1 (Hk1 & t1 & ll & Ht1 & Hw1 & Hr1 & Hndt1 & Hcnt & Hpg1 & Hold1 & Hsm1 & Ho1 & Hc1 & Hlv1 & Hll1).
  assert (Hag1 : agree_off (pages t0 ++ [p1]) m m1) by (by eapply same_agree).
  assert (Hs1 : sorted (codes t1)).
  { rewrite Hc1. apply sorted_divider; [done|done|]. rewrite !(assoc_L (++)) in *. rewrite <- (assoc_L (++) _ (leaf_code g2)) in Hs.
    by apply sorted_drop_mid in Hs. }
  assert (Hp1p : p1 ≠ p).
  { intros ->. apply (Hp1 p); [|left]. rewrite pages_plug. apply elem_of_app. right. left. }
  rewrite decide_True by done. apply runs_bind, runs_bind. rewrite <- Hr1.
  eapply runs_mono; [apply (find_leaf_page_ok ps u t1); [done|done|lia]|].
  intros r m2 k2 (-> & -> & z1 & q & qcells & Hlead & ->). cbn [fst snd].
  destruct (leads_to_unique _ _ _ _ _ _ _ _ _ c1 Hlead Hlv1) as (Hll & <- & <- & Hrl);
    [by apply last_Some_elem_of|done|].
  rewrite decide_False by tauto. apply runs_ok. apply runs_bind. pose proof Hlead as (Heq & _ & _).
  assert (Hcodes : lcodes z1 = lcodes z ++ leaf_code g0 ++ [2 * cell_rowid c0 + 1] ∧ rcodes z1 = rcodes z).
  { destruct g1 as [|c g1']; [done|]. pose proof (sorted_nodup _ Hs1) as Hndc. rewrite Heq, codes_plug in Hc1, Hndc.
    assert (Hx : lcodes z1 ++ 2 * cell_rowid c :: (leaf_code g1' ++ rcodes z1) =
      (lcodes z ++ leaf_code g0 ++ [2 * cell_rowid c0 + 1]) ++ 2 * cell_rowid c :: (leaf_code g1' ++ rcodes z)).
    { etransitivity; [exact Hc1|]. by rewrite <- !(assoc_L (++)). }
    apply cut_unique in Hx as [-> Hx]; [|exact Hndc]. by apply app_inv_head in Hx. }
  destruct Hcodes as [Hlc Hrc].
  pose proof (path_le_pages z1 (Leaf p1 g1)) as Hz1. rewrite <- Heq in Hz1.
  assert (Hp2t1 : p2 ∉ pages t1).
  { intros Hin. destruct (Hpg1 p2 Hin) as [Hin'|Hno]; [by apply (Hp2 p2); [|left]|].
    destruct Hl2 as (b2 & Hb2%in_map_Ok & _). congruence. }
  rewrite Heq in Ht1, Hw1, Hndt1, Hp2t1 |- *.
  eapply (runs_less ps _ _ _ (S (length z1) + k)); [lia|].
  eapply runs_mono; [apply (link_ok z1 p1 g1 p2 g2); try done|].
  - eapply tree_at_agree; [exact Hag1| |exact Hl2]. cbn. intros n ->%list_elem_of_singleton Hin. apply (Hp2 p2 Hin). left.
  - apply NoDup_app. split_and!; [done| |apply NoDup_singleton]. intros n Hn ->%list_elem_of_singleton. done.
  - intros _ m' k' (Hk & t' & ll' & ? & ? & Hr' & ? & Hcnt' & Hpg' & Hold' & Hsm' & ? & Hc & Hlv & Hll'). apply runs_ok. split; [lia|]. exists t'.
    rewrite <- Heq in *. split.
    + apply (updated_from m m1 m' _ (pages t1 ++ [p2])).
      * intros n Hn. apply Hsm1. rewrite elem_of_app in Hn. tauto.
      * intros n [Hn|Hn]%elem_of_app; [|left; rewrite !elem_of_app; tauto].
        destruct (Hpg1 n Hn) as [Hn'|]; [left; rewrite !elem_of_app in *; tauto|by right].
      * intros n. rewrite (assoc_L (++)), !(elem_of_app _ [p2]). intros [Hn|Hn]; [left; by apply Hold1|by right].
      * split; try done. rewrite Hc, Hlc, Hrc. apply sorted_divider; [done|done|].
        rewrite <- !(assoc_L (++)). by apply (sorted_divider (lcodes z) g0 g1 c0).
    + unfold groups. rewrite Hlv, fmap_app, Hll'. cbn. unfold lgroups, rgroups in *. rewrite <- Hll, <- Hrl, Hll1.
      by rewrite <- !(assoc_L (++)).
Qed.
End route.

(** ** Splitting the leaf *)

Lemma cell_rowid_ok c : i64_ok (cell_rowid c).
Proof.
  unfold cell_rowid, decode_cell_head. destruct (get_from c 0) as [c1|]; cbn; [|by vm_compute].
  destruct (decode_varint c1) as [[pl n1]|]; cbn; [|done]. destruct (get_from c1 n1) as [c2|]; cbn; [|by vm_compute].
  destruct (decode_varint c2) as [[r n2]|]; cbn; [apply as_i64_ok|by vm_compute].
Qed.

Lemma keyed_last h c : last h = Some c → fst <$> last (map keyed h) = Some (cell_rowid c).
Proof.
  destruct h as [|x h] using rev_ind; [done|]. rewrite map_app. cbn [map]. rewrite !last_snoc. by intros [= ->].
Qed.

Lemma plug_pages_same z pn cells h : pages (plug z (Leaf pn h)) ≡ₚ pages (plug z (Leaf pn cells)).
Proof. by rewrite !pages_plug. Qed.

(** The first group stays on the page of the leaf. *)
Lemma write_first_ok z pn cells h0 c0 hs m k :
  owned m → at_ m (plug z (Leaf pn cells)) → NoDup (pages (plug z (Leaf pn cells))) → wf ps (plug z (Leaf pn cells)) →
  Forall group_ok (map (map keyed) (h0 :: hs)) → last h0 = Some c0 →
  runs (write_groups (Some (pn, 0)) (map (map keyed) (h0 :: hs))) m (length hs + k)
    (λ pgs m' k', k' = k ∧ owned m' ∧ at_ m' (plug z (Leaf pn h0)) ∧ wf ps (plug z (Leaf pn h0)) ∧
       ∃ pgs', pgs = (pn, cell_rowid c0) :: pgs' ∧ NoDup pgs'.*1 ∧ same_off (pages (plug z (Leaf pn cells)) ++ pgs'.*1) m m' ∧
       (∀ n, n ∈ pgs'.*1 → m !! n = None) ∧
       Forall2 (λ p h, at_ m' (Leaf p.1 h) ∧ fst <$> last (map keyed h) = Some p.2) pgs' hs).
Proof.
  intros Ho Ht Hnd Hw [(_ & Hg0 & Hc0) Hgs]%Forall_cons Hlast. cbn [map write_groups].
  pose proof (tree_at_sub _ _ _ _ Ht) as (buf & Hb%in_map_Ok & _). destruct (Ho pn buf Hb) as [Hpn Hbl].
  rewrite wsum_need, cell_bytes_map in *. rewrite (keyed_last h0 c0 Hlast). apply runs_bind, runs_lift with (cell_rowid c0); [done|].
  apply runs_bind, runs_ok. cbn [fst snd]. apply runs_bind.
  eapply runs_write_leaf; [done|exact Hb|lia|done|done|lia|]. intros b' Hb' Hat. apply runs_bind.
  assert (Hzn : pn ∉ zpages z).
  { rewrite pages_plug in Hnd. apply NoDup_app in Hnd as (_ & Hdis & _). intros Hin. apply (Hdis pn Hin). left. }
  assert (Ht' : at_ (<[pn := b']> m) (plug z (Leaf pn h0))).
  { eapply tree_at_replace; [exact Ht|done| |exact Hat]. intros n Hn. unfold in_map. rewrite lookup_insert_ne; [done|]. by intros <-. }
  rewrite <- (length_map (map keyed) hs).
  eapply runs_mono; [apply (write_rest_ok (map (map keyed) hs)); [by apply owned_insert|done]|].
  - intros pgs m' k' (-> & Ho' & Hag & Hndp & Hfr & Hall). apply runs_ok.
    split_and!; [done|done| |eapply wf_replace; [exact Hw|done|cbn; lia]|].
    + eapply (tree_at_agree _ []); [|intros n _; apply not_elem_of_nil|exact Ht'].
      eapply same_agree; [exact Hag|]. intros n Hn. right. by apply Hfr.
    + exists pgs. split_and!; [done|done| | |].
      * eapply same_trans; [apply (same_insert [pn]); left|exact Hag| |intros n Hn; apply elem_of_app; by right].
        intros n ->%list_elem_of_singleton. rewrite pages_plug, !elem_of_app. left. right. left.
      * intros n Hn. by apply Hfr, lookup_insert_None in Hn as [? _].
      * apply Forall2_fmap_r in Hall. eapply Forall2_impl; [exact Hall|]. intros p h [Hp Hl]. by rewrite cell_bytes_map in Hp.
Qed.

Section leaf_split.
Context (z : list zframe) (pn : Z) (cells cells' : list bytes) (m : gmap Z bytes).
Abbreviation t0 := (plug z (Leaf pn cells)).
Hypotheses (Ho : owned m) (Ht : at_ m t0) (Hnd : NoDup (pages t0)) (Hw : wf ps t0)
  (Hs : sorted (lcodes z ++ leaf_code cells' ++ rcodes z)) (Hmax : 2 * zlen (pages t0) + 2 ≤ MAX_PAGES_VISITED).

Lemma old_pages h n : n ∈ pages (plug z (Leaf pn h)) → n ∈ pages t0.
Proof. by rewrite (plug_pages_same z pn cells h). Qed.

(** The tree is the old one with the leaf cut into [h0] and [hs]. *)
Lemma split_pages_ok h0 hs k :
  cells' = concat (h0 :: hs) → (1 ≤ length hs ≤ 2)%nat → Forall group_ok (map (map keyed) (h0 :: hs)) →
  runs (let+ pgs := write_groups (Some (pn, 0)) (map (map keyed) (h0 :: hs)) in
        route_groups u ps pn (root_of t0) (zpath z) pgs) m (3 * length (pages t0) + 6 + k)
    (λ _ m' k', (k ≤ k')%nat ∧ ∃ t', updated m m' (pages t0) (root_of t0) t' ∧ groups t' = lgroups z ++ (h0 :: hs) ++ rgroups z).
Proof.
  intros Hcells Hn Hg. assert (Hne : Forall (λ h : list bytes, h ≠ [] ∧ cells_need h ≤ ps - 8) (h0 :: hs)).
  { rewrite Forall_fmap in Hg. eapply Forall_impl; [exact Hg|]. intros h (Hne & Hwg & _). cbn in Hne, Hwg.
    rewrite wsum_need, cell_bytes_map in Hwg. split; [by intros ->|done]. }
  pose proof Hne as [[Hne0 _] Hner]%Forall_cons. destruct (group_last h0 Hne0) as [c0 Hc0].
  apply runs_bind. eapply (runs_less ps _ _ _ (length hs + (3 * length (pages t0) + 4 + k))); [lia|].
  eapply runs_mono; [by apply (write_first_ok z pn cells h0 c0 hs)|].
  intros pgs m1 k1 (-> & Ho1 & Ht1 & Hw1 & pgs' & -> & Hndp & Hsm1 & Hfr & Hall).
  pose proof (plug_pages_same z pn cells h0) as Hpp. pose proof (Permutation_length Hpp) as Hpl.
  assert (Hroot : root_of t0 = root_of (plug z (Leaf pn h0))) by (by apply root_of_plug).
  pose proof (path_le_pages z (Leaf pn h0)) as Hz.
  assert (Hdis : NoDup (pages (plug z (Leaf pn h0)) ++ pgs'.*1)).
  { apply NoDup_app. split_and!; [by rewrite Hpp| |done]. intros n Hn1 Hn2.
    destruct (tree_at_pages _ _ _ _ Ht (old_pages h0 n Hn1)) as [b Hb]. rewrite (Hfr n Hn2) in Hb. done. }
  assert (Hold : ∀ n, n ∈ pages (plug z (Leaf pn h0)) ++ pgs'.*1 → n ∈ pages t0 ∨ m !! n = None).
  { intros n [Hn'|Hn']%elem_of_app; [left; by eapply old_pages|right; by apply Hfr]. }
  rewrite <- Hpp in Hsm1. assert (Hnew : ∀ n, n ∈ pages t0 → n ∈ pages (plug z (Leaf pn h0)) ++ pgs'.*1).
  { intros n Hn1. rewrite Hpp. apply elem_of_app. by left. }
  destruct hs as [|h1 [|h2 [|? ?]]]; cbn in Hn; [lia| | |lia].
  - apply Forall2_cons_inv_r in Hall as ([p1 d1] & ? & [Hp1 _] & Hnil & ->). apply Forall2_nil_inv_r in Hnil as ->. cbn in Hp1, Hdis, Hold, Hsm1, Hnew.
    apply Forall_cons in Hner as [[Hne1 Hf1] _]. rewrite Hcells in Hs. cbn [concat] in Hs. rewrite app_nil_r in Hs.
    eapply (runs_less ps _ _ _ (S (length z) + k)); [lia|]. eapply runs_mono.
    { eapply (route_two z pn (root_of t0) h0 h1 c0 p1); try done; [lia|apply cell_rowid_ok]. }
    intros _ m' k' (Hk & t' & Hup & Hrows). split; [done|]. exists t'. by split; [eapply updated_from|].
  - apply Forall2_cons_inv_r in Hall as ([p1 d1] & ? & [Hp1 Hl1] & Hall & ->).
    apply Forall2_cons_inv_r in Hall as ([p2 d2] & ? & [Hp2 _] & Hnil & ->). apply Forall2_nil_inv_r in Hnil as ->. cbn in Hp1, Hp2, Hl1, Hdis, Hold, Hsm1, Hnew.
    apply Forall_cons in Hner as [[Hne1 Hf1] [[Hne2 Hf2] _]%Forall_cons]. rewrite Hcells in Hs. cbn [concat] in Hs. rewrite app_nil_r in Hs.
    destruct (group_last h1 Hne1) as [c1 Hc1]. rewrite (keyed_last h1 c1 Hc1) in Hl1. injection Hl1 as <-.
    rewrite <- Hpl in *. eapply runs_mono.
    { eapply (route_three z pn (root_of t0) h0 h1 c0 p1); try done; [lia|apply cell_rowid_ok|apply cell_rowid_ok|lia]. }
    intros _ m' k' (Hk & t' & Hup & Hrows). split; [done|]. exists t'. by split; [eapply updated_from|].
Qed.
End leaf_split.

Section leaf_insert.
Context (z : list zframe) (pn : Z) (cells : list bytes) (rowid : Z) (cell : bytes) (m : gmap Z bytes).
Abbreviation t0 := (plug z (Leaf pn cells)).
Abbreviation cells' := (insert_at (first_gt rowid cells) cell cells).
Hypotheses (Ho : owned m) (Ht : at_ m t0) (Hnd : NoDup (pages t0)) (Hw : wf ps t0)
  (Hs : sorted (codes t0)) (Hmax : 2 * zlen (pages t0) + 2 ≤ MAX_PAGES_VISITED)
  (Hlead : leads_to rowid t0 z pn cells) (Hnew : rowid ∉ map cell_rowid cells)
  (Hcell : table_cell u cell) (Hrow : cell_rowid cell = rowid) (Hcl : zlen cell ≤ 65536).

Lemma insert_into_leaf_ok k :
  runs (insert_into_leaf u ps pn (root_of t0) (zpath z) rowid cell) m (3 * length (pages t0) + 6 + k)
    (λ _ m' k', (k ≤ k')%nat ∧ ∃ t' hs, updated m m' (pages t0) (root_of t0) t' ∧
       groups t' = lgroups z ++ hs ++ rgroups z ∧ concat hs = cells' ∧ Forall (λ h, h ≠ []) hs).
Proof.
  pose proof (tree_at_sub _ _ _ _ Ht) as (buf & Hb%in_map_Ok & Hleaf). destruct (Ho pn buf Hb) as [Hpn Hbl].
  pose proof (wf_sub _ _ _ Hw) as Hwl. cbn in Hwl. rewrite header_start_0 in Hleaf by lia.
  pose proof (insert_codes z pn cells rowid cell Hs Hlead Hnew Hrow) as Hs'.
  pose proof (cells_need_insert (first_gt rowid cells) cell cells) as Hneed. pose proof (cell_fits ps u Hps Hu cell Hcell Hcl) as Hfit.
  pose proof (place_in_leaf_ok ps u Hps pn cells buf rowid cell Hleaf Hbl Hwl Hnew Hcell Hrow Hcl) as Hplace.
  unfold insert_into_leaf. rewrite header_start_0 by lia. apply runs_bind. case_decide as Hd.
  - destruct Hplace as (buf' & Hp & Hl' & Hlen). eapply runs_edit; [exact Hb|exact Hp|done|]. apply runs_ok. split; [lia|].
    exists (plug z (Leaf pn cells')), [cells']. split_and!; [split| | |].
    + eapply tree_at_replace; [exact Ht|done| |].
      * intros n Hn. unfold in_map. rewrite lookup_insert_ne; [done|]. rewrite pages_plug in Hnd.
        apply NoDup_app in Hnd as (_ & Hdis & _). intros <-. apply (Hdis pn Hn). left.
      * exists buf'. rewrite in_map_Ok, lookup_insert_eq, header_start_0 by lia. done.
    + by eapply wf_replace.
    + by apply root_of_plug.
    + by rewrite (plug_pages_same z pn cells).
    + by rewrite codes_plug.
    + intros n Hn. left. by rewrite (plug_pages_same z pn cells) in Hn.
    + intros n Hn. by rewrite (plug_pages_same z pn cells).
    + apply same_insert. rewrite pages_plug. apply elem_of_app. right. left.
    + apply owned_insert; [done|done|lia].
    + by rewrite groups_plug.
    + cbn. by rewrite app_nil_r.
    + constructor; [|constructor]. intros Hnil. apply (f_equal length) in Hnil. by rewrite length_insert_at in Hnil.
  - eapply runs_edit; [exact Hb|exact Hplace|done|]. cbv iota beta. rewrite insert_id by done.
    rewrite (sat_add_page 0 8), sat_sub_ge by lia. change (0 + 8) with 8.
    assert (Hall : Forall (table_cell u) cells').
    { apply Forall_forall. intros c Hc. rewrite insert_at_perm in Hc. destruct Hleaf as (_ & Hf & _).
      apply elem_of_cons in Hc as [->|Hc]; [done|]. rewrite Forall_forall in Hf. by apply Hf. }
    destruct (split_groups_ok (ps - 8) (map keyed cells')) as [[Hcat Hgf] Hn].
    + lia.
    + rewrite Forall_fmap. rewrite Forall_forall in Hall |- *. intros c Hc. cbn. unfold weight. cbn.
      apply (cell_fits ps u Hps Hu c (Hall c Hc)). rewrite insert_at_perm in Hc. apply elem_of_cons in Hc as [->|Hc]; [done|].
      pose proof (cells_need_elem c cells Hc). lia.
    + intros Hnil. apply (f_equal length) in Hnil. by rewrite length_map, length_insert_at in Hnil.
    + rewrite wsum_need, cell_bytes_map. lia.
    + set (gs := cut_groups _ _ _) in *. destruct (groups_cells gs cells' Hcat) as [Hc1 Hc2]. rewrite Hc2.
      destruct (map cell_bytes gs) as [|h0 hs] eqn:Hgs; [by rewrite Hc2 in Hn; cbn in Hn; lia|].
      assert (Hn' : (1 ≤ length hs ≤ 2)%nat) by (rewrite Hc2, length_map in Hn; cbn in Hn; lia).
      eapply runs_mono; [apply (split_pages_ok z pn cells cells'); try done|].
      2:{ intros _ m' k' (Hk & t' & Hup & Hg). split; [done|]. exists t', (h0 :: hs). split_and!; [done|done|done|].
          rewrite Hc2, Forall_fmap in Hgf. eapply Forall_impl; [exact Hgf|]. cbn. intros h [Hne _] ->. done. }
      rewrite <- Hc2. rewrite Forall_forall in Hgf |- *. intros g Hg.
      destruct (Hgf g Hg) as [Hne Hwg]. split_and!; [done|done|]. rewrite <- Hc1, <- Hgs in Hall.
      rewrite Forall_concat, Forall_fmap, Forall_forall in Hall. by apply Hall.
Qed.
End leaf_insert.
End row.
