(* ===== verification/BtreeOverflow.v ===== *)
(** * Writing the cell of a row

    [encode_leaf_cell] and [write_overflow_chain] against the reader: the cell
    that is built frames the row, and the chain that is written holds the part
    of the payload that does not fit the leaf. *)

From S2P Require Import Prelude Varint Record Vfs Header Freelist Pager BtreePage BtreeSplice BtreePayload BtreeCursor BtreeLeaf BtreeStore BtreeInsert BtreeZip BtreeInsertProof.

(** ** A row in its cell

    [payload_at] with the overflow pages named. *)

Definition payload_in (rd : Z → result PageError bytes) (usable : Z) (buf : bytes) (tail : Z) (bs : bytes)
    (pgs : list Z) : Prop :=
  let loc := local_payload_size usable (zlen bs) false in
  zlen bs ≤ MAX_PAYLOAD_LEN ∧ NoDup pgs ∧ zlen pgs ≤ MAX_PAGES_VISITED ∧
  get_range buf tail (tail + loc) = Some (take (Z.to_nat loc) bs) ∧
  (if decide (loc < zlen bs)
   then read_be 4 buf (tail + loc) = Some (hd 0 pgs) ∧
        chain_at rd (Z.max (sat_sub usable 4) 1) pgs (drop (Z.to_nat loc) bs)
   else pgs = []).

(** The cell [c] holds the row [r], its overflow on the pages [pgs]. *)
Definition row_in (rd : Z → result PageError bytes) (usable : Z) (c : bytes) (r : Z * bytes) (pgs : list Z) : Prop :=
  ∃ n, decode_cell_head c 0 0 = Ok (r.1, zlen r.2, n) ∧ 0 ≤ n ∧ payload_in rd usable c n r.2 pgs.

Lemma row_in_rowid rd u c r pgs : row_in rd u c r pgs → cell_rowid c = r.1.
Proof. intros (n & Hd & _). unfold cell_rowid. by rewrite Hd. Qed.

Lemma chain_at_ext rd rd' avail pgs data :
  (∀ n, n ∈ pgs → rd' n = rd n) → chain_at rd avail pgs data → chain_at rd' avail pgs data.
Proof.
  revert data. induction pgs as [|p pgs IH]; intros data Hrd; cbn [chain_at]; [done|].
  intros (Hne & Hp & buf & Hb & Hn & Hg & Hc). split_and!; [done|done|]. exists buf. split_and!; [|done|done|].
  - rewrite Hrd; [done|left].
  - apply IH; [|done]. intros n Hin. apply Hrd. by right.
Qed.

Lemma row_in_ext rd rd' u c r pgs :
  (∀ n, n ∈ pgs → rd' n = rd n) → row_in rd u c r pgs → row_in rd' u c r pgs.
Proof.
  intros Hrd (n & Hd & Hn & Hm & Hnd & Hl & Hg & Hc). exists n. split_and!; [done|done|]. unfold payload_in.
  split_and!; try done. case_decide; [|done]. destruct Hc as [Hr Hc]. split; [done|]. by eapply chain_at_ext.
Qed.

Lemma row_in_agree m m' l u c r pgs :
  agree_off l m m' → (∀ n, n ∈ pgs → n ∉ l ∧ is_Some (m !! n)) → row_in (in_map m) u c r pgs → row_in (in_map m') u c r pgs.
Proof.
  intros Ha Hl. apply row_in_ext. intros n Hn. destruct (Hl n Hn) as [Hnl [b Hb]]. unfold in_map.
  by rewrite (Ha n b Hnl Hb), Hb.
Qed.

Lemma chain_pages m avail pgs data n : chain_at (in_map m) avail pgs data → n ∈ pgs → is_Some (m !! n).
Proof.
  revert data. induction pgs as [|p pgs IH]; intros data; cbn [chain_at]; [intros _ Hn; by apply not_elem_of_nil in Hn|].
  intros (_ & _ & buf & Hb%in_map_Ok & _ & _ & Hc) [->|Hn]%elem_of_cons; [by exists buf|by eapply IH].
Qed.

Lemma row_in_pages m u c r pgs n : row_in (in_map m) u c r pgs → n ∈ pgs → is_Some (m !! n).
Proof.
  intros (x & _ & _ & _ & _ & _ & _ & Hc) Hn. case_decide; [|subst; by apply not_elem_of_nil in Hn].
  destruct Hc as [_ Hc]. by eapply chain_pages.
Qed.

(** ** Chunks *)

Lemma chunks_of_cons fuel avail (data : bytes) :
  data ≠ [] → (length data ≤ fuel)%nat → 0 < avail →
  let n := Z.to_nat (Z.min (zlen data) avail) in
  ∃ fuel', chunks_of fuel avail data = take n data :: chunks_of fuel' avail (drop n data) ∧ (length (drop n data) ≤ fuel')%nat.
Proof.
  intros Hne Hf Ha n. destruct fuel as [|fuel]; [destruct data; cbn in Hf; [done|lia]|]. exists fuel. destruct data as [|b data]; [done|].
  split; [done|]. rewrite length_drop. unfold n. cbn [length] in *. lia.
Qed.

Lemma chunks_of_nil fuel avail : chunks_of fuel avail [] = [].
Proof. by destruct fuel. Qed.

Section overflow.
Context `{PageStoreSpec St} (ps u : Z).
Implicit Types (m : gmap Z bytes) (k : nat).

Abbreviation runs c m k Q := (BtreeStore.runs ps c m k Q).
Abbreviation owned m := (BtreeInsertProof.owned ps m).
Abbreviation avail := (Z.max (sat_sub u 4) 1).

Hypotheses (Hps : 512 ≤ ps ≤ 65536) (Hu : 35 ≤ u ≤ ps).

Lemma alloc_pages_ok {A} (cs : list A) m k :
  owned m →
  runs (alloc_pages cs) m (length cs + k) (λ ns m' k', k' = k ∧ owned m' ∧ same_off ns m m' ∧ length ns = length cs ∧
    NoDup ns ∧ ∀ n, n ∈ ns → m !! n = None ∧ is_Some (m' !! n)).
Proof.
  revert m. induction cs as [|c cs IH]; intros m Ho; cbn [alloc_pages length].
  { apply runs_ok. split_and!; [done|done|apply same_refl|done|constructor|]. intros n Hn. by apply not_elem_of_nil in Hn. }
  apply runs_bind, runs_alloc. intros n b Hn Hn2 Hb. apply runs_bind.
  eapply runs_mono; [apply IH; by apply owned_insert|]. intros ns m' k' (-> & Ho' & Hag & Hl & Hnd & Hns). apply runs_ok.
  assert (Hnn : n ∉ ns) by (intros Hin; destruct (Hns n Hin) as [Hx _]; by rewrite lookup_insert_eq in Hx).
  assert (Hn' : m' !! n = Some b) by (rewrite Hag by done; by rewrite lookup_insert_eq).
  split_and!; [done|done| |cbn; lia|by constructor|].
  - eapply same_trans; [apply (same_insert [n]); left|exact Hag| |by right]. intros x ->%list_elem_of_singleton. left.
  - intros x [->|Hx]%elem_of_cons; [by split; [|exists b]|]. destruct (Hns x Hx) as [Hno ?].
    by apply lookup_insert_None in Hno as [? _].
Qed.

(** One overflow page. *)
Lemma overflow_page_ok n next (chunk b : bytes) :
  zlen b = ps → u32_ok next → 4 + zlen chunk ≤ ps →
  ∃ b', (let& _ := bt_put 0 (be_bytes 4 next) n in bt_put 4 chunk n) b = (b', Ok ()) ∧ length b' = length b ∧
    read_be 4 b' 0 = Some next ∧ get_range b' 4 (4 + zlen chunk) = Some chunk.
Proof.
  intros Hb Hn Hc. assert (HU : 400000 ≤ USIZE_MAX) by done.
  destruct (put_range_is_Some b 0 (be_bytes 4 next)) as [b1 H1]; [lia|rewrite be_bytes_length; lia|].
  pose proof (put_range_length _ _ _ _ H1) as L1.
  destruct (put_range_is_Some b1 4 chunk) as [b2 H2]; [lia|lia|]. pose proof (put_range_length _ _ _ _ H2) as L2.
  exists b2. unfold b_bind, bt_put. rewrite H1, H2. split_and!; [done|lia| |].
  - rewrite (read_be_put_disjoint 4 _ _ _ _ 0 H2) by lia. by apply (read_be_put_same 4 _ _ _ _ H1); [lia|].
  - by apply (get_put_same _ _ _ _ _ H2).
Qed.

Lemma write_chunks_ok fuel pre ns (data : bytes) m k :
  owned m → (length data ≤ fuel)%nat → length ns = length (chunks_of fuel avail data) → NoDup ns →
  (∀ n, n ∈ ns → is_Some (m !! n)) →
  runs (write_chunks (pre ++ ns) (length pre) (chunks_of fuel avail data)) m k
    (λ _ m' k', k' = k ∧ owned m' ∧ same_off ns m m' ∧ chain_at (in_map m') avail ns data).
Proof.
  revert fuel pre data m. induction ns as [|n ns IH]; intros fuel pre data m Ho Hf Hl Hnd Hin.
  { destruct data as [|b data]; [rewrite chunks_of_nil in *|].
    - apply runs_ok. split_and!; [done|done|apply same_refl|done].
    - destruct (chunks_of_cons fuel avail (b :: data)) as (f' & Hc & _); [done|done|lia|]. by rewrite Hc in Hl. }
  destruct (decide (data = [])) as [->|Hne]; [by rewrite chunks_of_nil in Hl|].
  destruct (chunks_of_cons fuel avail data) as (f' & Hc & Hf'); [done|done|lia|]. rewrite Hc in Hl |- *.
  set (i := Z.to_nat (Z.min (zlen data) avail)) in *.
  cbn [write_chunks]. apply NoDup_cons in Hnd as [Hn Hnd].
  assert (Hnext : default 0 ((pre ++ n :: ns) !! S (length pre)) = hd 0 ns).
  { rewrite lookup_app_r by lia. replace (S (length pre) - length pre)%nat with 1%nat by lia. by destruct ns. }
  rewrite Hnext. apply runs_bind. eapply runs_lift.
  { rewrite lookup_app_r by lia. by rewrite Nat.sub_diag. }
  destruct (Hin n ltac:(left)) as [b Hb]. destruct (Ho n b Hb) as [Hn2 Hbl].
  assert (Hnx : u32_ok (hd 0 ns)).
  { destruct ns as [|x ns]; [by vm_compute|]. destruct (Hin x ltac:(right; left)) as [y Hy]. destruct (Ho x y Hy). unfold u32_ok. cbn. lia. }
  assert (Hcl : zlen (take i data) = Z.min (zlen data) avail) by (rewrite length_take; unfold i; lia).
  destruct (overflow_page_ok n (hd 0 ns) (take i data) b) as (b' & Hop & Hbl' & Hrd & Hgt); [done|done| |].
  { rewrite Hcl. unfold sat_sub. lia. }
  apply runs_bind. eapply runs_edit; [exact Hb|exact Hop|done|].
  replace (pre ++ n :: ns) with ((pre ++ [n]) ++ ns) by (by rewrite <- (assoc_L (++))).
  replace (S (length pre)) with (length (pre ++ [n])) by (rewrite length_app; cbn; lia).
  eapply runs_mono; [apply (IH f'); [apply owned_insert; [done|lia|lia]|done|by injection Hl|done|]|].
  { intros x Hx. rewrite lookup_insert_ne; [apply Hin; by right|by intros ->]. }
  intros _ m' k' (-> & Ho' & Hag & Hch). split_and!; [done|done| |].
  - eapply same_trans; [apply (same_insert (n :: ns) m n b'); left|exact Hag|done|by right].
  - cbn [chain_at]. split_and!; [done|lia|]. exists b'. split_and!; [|done| |done].
    + apply in_map_Ok. rewrite Hag by done. by rewrite lookup_insert_eq.
    + rewrite Hcl in Hgt. exact Hgt.
Qed.

(** Overflow pages of a payload. *)
Definition overflow_chunks (bs : bytes) : list bytes :=
  let data := drop (Z.to_nat (local_payload_size u (zlen bs) false)) bs in chunks_of (length data) avail data.

Lemma write_overflow_chain_ok (data : bytes) m k :
  owned m →
  runs (write_overflow_chain u data) m (length (chunks_of (length data) avail data) + k)
    (λ first m' k', k' = k ∧ owned m' ∧ u32_ok first ∧ ∃ ns, first = hd 0 ns ∧ NoDup ns ∧ same_off ns m m' ∧
       length ns = length (chunks_of (length data) avail data) ∧
       (∀ n, n ∈ ns → m !! n = None) ∧ chain_at (in_map m') avail ns data).
Proof.
  intros Ho. unfold write_overflow_chain. apply runs_bind. eapply runs_mono; [by apply alloc_pages_ok|].
  intros ns m1 k1 (-> & Ho1 & Hag1 & Hl & Hnd & Hns). apply runs_bind.
  eapply runs_mono; [apply (write_chunks_ok (length data) [] ns data); try done|].
  { intros n Hn. by apply Hns. }
  intros _ m' k' (-> & Ho' & Hag & Hch). apply runs_ok. split_and!; [done|done| |].
  - destruct ns as [|n ns]; [by vm_compute|]. destruct (chain_pages m' _ _ _ n Hch ltac:(left)) as [b Hb].
    destruct (Ho' n b Hb). unfold u32_ok. cbn. lia.
  - exists ns. split_and!; try done; [by eapply same_trans|]. intros n Hn. by apply Hns.
Qed.

Definition row_ok (r : Z * bytes) : Prop :=
  i64_ok r.1 ∧ bytes_ok r.2 ∧ zlen r.2 ≤ MAX_PAYLOAD_LEN ∧ zlen (overflow_chunks r.2) ≤ MAX_PAGES_VISITED.

Lemma encode_leaf_cell_ok rowid (payload : bytes) m k :
  owned m → row_ok (rowid, payload) →
  runs (encode_leaf_cell u rowid payload) m (length (overflow_chunks payload) + k)
    (λ cell m' k', k' = k ∧ owned m' ∧ table_cell u cell ∧ cell_rowid cell = rowid ∧ zlen cell ≤ 65536 ∧
       ∃ pgs, length pgs = length (overflow_chunks payload) ∧ (∀ n, n ∈ pgs → m !! n = None) ∧ same_off pgs m m' ∧ row_in (in_map m') u cell (rowid, payload) pgs).
Proof.
  intros Ho (Hr & Hok & Hmax & Hovf). cbn in Hr, Hok, Hmax, Hovf. unfold encode_leaf_cell.
  assert (HU : 9000000000 ≤ USIZE_MAX) by done. assert (HM : MAX_PAYLOAD_LEN = 2147483647) by done.
  pose proof (local_payload_size_le u (zlen payload) false ltac:(lia)) as Hle.
  pose proof (local_payload_size_nonneg u (zlen payload) false ltac:(lia)) as Hnn.
  pose proof (local_max ps u Hps Hu (zlen payload)) as Hlm. rewrite Z.min_l by done.
  unfold overflow_chunks in *. set (loc := local_payload_size u (zlen payload) false) in *.
  assert (Hpl : u64_ok (zlen payload)) by (unfold u64_ok; lia).
  pose proof (encode_varint_length (zlen payload)) as L1. pose proof (varint_len_bounds (zlen payload)).
  pose proof (encode_varint_length (wrap64 rowid)) as L2. pose proof (varint_len_bounds (wrap64 rowid)).
  assert (Hlt : zlen (take (Z.to_nat loc) payload) = loc) by (rewrite length_take; lia).
  assert (Htok : bytes_ok (take (Z.to_nat loc) payload)) by (by apply Forall_take).
  assert (Hce : cell_end u (zlen payload) 0 false = loc + (if bool_decide (loc < zlen payload) then 4 else 0)).
  { unfold cell_end. fold loc. rewrite (sat_add_page 0 loc) by lia. destruct (bool_decide _); rewrite sat_add_page by lia; lia. }
  destruct (decide (drop (Z.to_nat loc) payload = [])) as [Hnil|Hnil].
  - assert (Hloc : loc = zlen payload).
    { apply (f_equal length) in Hnil. rewrite length_drop in Hnil. cbn in Hnil. lia. }
    rewrite bool_decide_eq_false_2 in Hce by lia. apply runs_less with k; [lia|]. apply runs_ok.
    set (tail := take (Z.to_nat loc) payload) in *.
    destruct (table_cell_intro u rowid (zlen payload) tail) as [Htc Hrow]; [done|done|done|lia|lia|].
    split_and!; try done; [rewrite !length_app; lia|]. exists []. split_and!; [by rewrite Hnil|intros n Hn; by apply not_elem_of_nil in Hn|apply same_refl|].
    exists (varint_len (zlen payload) + varint_len (wrap64 rowid)). split; [by apply cell_head_intro|]. cbn [snd]. split; [lia|]. unfold payload_in. fold loc.
    split_and!; [lia|constructor|by vm_compute| |by rewrite decide_False by lia]. fold tail. rewrite (assoc_L (++)), <- (app_nil_r tail) at 1.
    apply get_range_app3; rewrite length_app; lia.
  - assert (Hloc : loc < zlen payload).
    { destruct (decide (loc < zlen payload)); [done|]. destruct Hnil. apply drop_ge. lia. }
    rewrite bool_decide_eq_true_2 in Hce by lia. apply runs_bind. eapply runs_mono; [by apply write_overflow_chain_ok|].
    intros first m' k' (-> & Ho' & Hfst & ns & -> & Hnd & Hag & Hlen & Hfr & Hch). apply runs_ok.
    rewrite <- !(assoc_L (++)). set (tail := take (Z.to_nat loc) payload) in *. pose proof (be_bytes_length 4 (hd 0 ns)) as L4.
    destruct (table_cell_intro u rowid (zlen payload) (tail ++ be_bytes 4 (hd 0 ns))) as [Htc Hrow]; [done|done| | | |].
    { rewrite bytes_ok_app. split; [done|apply be_bytes_ok]. }
    { rewrite length_app. lia. }
    { rewrite length_app. lia. }
    split_and!; try done; [rewrite !length_app; lia|]. exists ns. split_and!; [done|done|done|].
    exists (varint_len (zlen payload) + varint_len (wrap64 rowid)). split; [by apply cell_head_intro|]. cbn [snd]. split; [lia|]. unfold payload_in. fold loc tail.
    split_and!; [lia|done|lia| |rewrite decide_True by lia; split; [|done]].
    + rewrite (assoc_L (++)). apply get_range_app3; rewrite length_app; lia.
    + rewrite !(assoc_L (++)), <- (app_nil_r (be_bytes 4 _)). apply read_be_app; [rewrite !length_app; lia|lia|done].
Qed.
End overflow.
