(* ===== verification/BtreeDelete.v ===== *)
(** * Deleting from a table b-tree ([row/btree/table/delete.rs])

    [delete_row] with the freeing of the overflow chain and the collapse of an
    emptied leaf, over the page store interface. *)

From S2P Require Import Prelude Varint Record Vfs Header Freelist Pager BtreePage BtreeSplice BtreePayload BtreeStore BtreeInsert.

Section loop.
Context `{PageStore St}.

(** A [while] loop of at most [2 ^ n] rounds; [inl] goes round again. *)
Fixpoint bm_loop {A B} (n : nat) (step : A → BM St (A + B)) (a : A) : BM St (A + B) :=
  match n with
  | O => step a
  | S n =>
      let+ r := bm_loop n step a in
      match r with inl a => bm_loop n step a | inr b => bm_ok (inr b) end
  end.

(** The same with its rounds counted in [nat]. *)
Fixpoint bm_iter {A B} (fuel : nat) (step : A → BM St (A + B)) (a : A) : BM St (A + B) :=
  match fuel with
  | O => bm_ok (inl a)
  | S fuel =>
      let+ r := step a in
      match r with inl a => bm_iter fuel step a | inr b => bm_ok (inr b) end
  end.

Lemma bm_iter_add {A B} f g (step : A → BM St (A + B)) a s :
  bm_iter (f + g) step a s =
    bm_bind (bm_iter f step a) (λ r, match r with inl a => bm_iter g step a | inr b => bm_ok (inr b) end) s.
Proof.
  revert a s. induction f as [|f IH]; intros a s; [done|]. cbn. unfold bm_bind in *.
  destruct (step a s) as [[[a'|b]|e] s']; [apply IH|done|done].
Qed.

Lemma bm_loop_iter {A B} n (step : A → BM St (A + B)) a s : bm_loop n step a s = bm_iter (2 ^ n) step a s.
Proof.
  revert a s. induction n as [|n IH]; intros a s.
  { cbn. unfold bm_bind. by destruct (step a s) as [[[?|?]|?] ?]. }
  cbn [bm_loop]. rewrite Nat.pow_succ_r', <- Nat.double_twice. unfold Nat.double. rewrite bm_iter_add.
  unfold bm_bind. rewrite IH. destruct (bm_iter _ step a s) as [[[a'|b]|e] s']; [apply IH|done|done].
Qed.
End loop.

Section delete.
Context `{PageStore St}.

(** One round of the walk; the state is the next page and the [HashSet] of
    pages seen. *)
Definition free_chain_step (first_page : Z) (st : Z * gset Z) : BM St ((Z * gset Z) + ()) :=
  let '(page_num, visited) := st in
  if decide (page_num = 0) then bm_ok (inr ())
  else if decide (page_num ∈ visited) then bm_lift (Err (OverflowChainCycle first_page page_num))
  else
    let+ next := bm_edit page_num (b_get (λ buf, read_u32 buf 0 page_num)) in
    let+ _ := bm_free page_num in
    bm_ok (inl (next, {[page_num]} ∪ visited)).

(** Page numbers are [u32] and every round sees a new one, so [2 ^ 32] rounds
    are enough. *)
Definition free_overflow_chain (first_page : Z) : BM St () :=
  let+ r := bm_loop 32 (free_chain_step first_page) (first_page, ∅) in
  match r with
  | inr _ => bm_ok ()
  | inl _ => bm_lift (Err (BInternal "free_overflow_chain: out of fuel"))
  end.

(** The entries of a parent without the emptied child. *)
Definition remove_child (parent_page : Z) (entries : list (Z * Z)) (rightmost emptied_page : Z)
  : result BtreeError (list (Z * Z) * Z) :=
  match list_find (λ e : Z * Z, e.1 = emptied_page) entries with
  | Some (idx, _) => Ok (delete idx entries, rightmost)
  | None =>
      if decide (rightmost = emptied_page) then
        match last entries with
        | Some (last_child, _) => Ok (removelast entries, last_child)
        | None => Err (BInternal
            "interior page's rightmost pointer was emptied but it has no routing entries to promote")
        end
      else Err (MissingChildRoute parent_page emptied_page)
  end.

Definition replace_child (parent_page : Z) (entries : list (Z * Z)) (rightmost old_child new_child : Z)
  : result BtreeError (list (Z * Z) * Z) :=
  match list_find (λ e : Z * Z, e.1 = old_child) entries with
  | Some (idx, e) => Ok (<[idx := (new_child, e.2)]> entries, rightmost)
  | None =>
      if decide (rightmost = old_child) then Ok (entries, new_child)
      else Err (MissingChildRoute parent_page old_child)
  end.

Definition collapse_root (usable_size root_page only_child : Z) : BM St () :=
  let child_header_start := page1_header_start only_child in
  let+ content := bm_edit only_child (b_get (λ buf, Ok buf)) in
  let+ page_type := bm_lift (read_page_type content child_header_start only_child) in
  let root_header_start := page1_header_start root_page in
  let+ _ := copy_content usable_size content child_header_start only_child root_header_start root_page page_type in
  bm_free only_child.

(** Both on the ancestors from the parent up. *)
Definition splice_child (ancestors_up : list Z) (old_child new_child : Z) : BM St () :=
  match ancestors_up with
  | [] => bm_lift (Err (BInternal
      "splice_child called with no ancestors — old_child's parent must always exist here (it's never the root)"))
  | parent_page :: _ =>
      let header_start := page1_header_start parent_page in
      let+ er := bm_edit parent_page (b_get (λ buf, collect_interior_entries buf header_start parent_page)) in
      let+ er := bm_lift (replace_child parent_page er.1 er.2 old_child new_child) in
      bm_edit parent_page (write_interior_page header_start parent_page (interior_cells er.1) er.2)
  end.

Definition collapse_into_ancestors (usable_size root_page : Z) (ancestors_up : list Z) (emptied_page : Z) : BM St () :=
  match ancestors_up with
  | [] => bm_lift (Err (BInternal "collapse_into_ancestors called with no ancestors"))
  | parent_page :: rest =>
      let header_start := page1_header_start parent_page in
      let+ er := bm_edit parent_page (b_get (λ buf, collect_interior_entries buf header_start parent_page)) in
      let+ er := bm_lift (remove_child parent_page er.1 er.2 emptied_page) in
      let '(entries, rightmost) := er in
      if decide (entries ≠ [])
      then bm_edit parent_page (write_interior_page header_start parent_page (interior_cells entries) rightmost)
      else if decide (parent_page = root_page) then collapse_root usable_size root_page rightmost
      else
        let+ _ := bm_free parent_page in
        splice_child rest parent_page rightmost
  end.

(** The work on the leaf itself, in one borrow: the overflow page of the
    deleted cell and whether the leaf has to go. *)
Definition delete_from_leaf (usable_size header_start leaf_page rowid : Z) (is_root : bool) : buf_op (Z * bool) :=
  let& found := b_get (λ buf, find_leaf_cell buf header_start leaf_page usable_size rowid) in
  match found with
  | None => b_get (λ _, Err (RowidNotFound rowid))
  | Some (pos, num_cells, overflow_page) =>
      if decide (1 < num_cells ∨ is_root = true) then
        let& _ := splice_delete_cell header_start leaf_page usable_size pos true in
        b_ok (overflow_page, false)
      else
        let& _ := write_leaf_page header_start leaf_page [] in
        b_ok (overflow_page, true)
  end.

Definition delete_row (header : DatabaseHeader) (root_page rowid : Z) : BM St () :=
  let usable_size := usable_page_size header in
  let+ al := find_leaf_page root_page rowid in
  let '(ancestors, leaf_page) := al in
  let header_start := page1_header_start leaf_page in
  let+ r := bm_edit leaf_page
    (delete_from_leaf usable_size header_start leaf_page rowid (bool_decide (ancestors = []))) in
  let '(overflow_page, emptied) := r in
  if emptied then
    let+ _ := bm_free leaf_page in
    let+ _ := free_overflow_chain overflow_page in
    collapse_into_ancestors usable_size root_page (rev ancestors) leaf_page
  else free_overflow_chain overflow_page.
End delete.
