(* ===== verification/IndexWrite.v ===== *)
(** * Writing index b-trees ([row/btree/index.rs], [index/insert.rs],
      [index/delete.rs])

    Insertion and deletion of index entries in the page-store monad.  The
    code reads keys through the pager it is about to modify, so the payload
    reader is written out here on the store. *)

From S2P Require Import Prelude Varint Text Record Vfs Header Freelist Pager BtreePage BtreeSplice BtreePayload.
From S2P Require Import BtreeStore BtreeInsert BtreeDelete IndexKey.

Section write.
Context `{PageStore St}.

(** ** Reading entries through the store *)

(** [reassemble_payload] with the pager as its source; [fuel] as there. *)
Fixpoint store_overflow_loop (fuel : nat) (page_num available overflow_page remaining hops : Z)
    (visited : list Z) (acc : bytes) : BM St bytes :=
  if decide (remaining ≤ 0) then bm_ok acc
  else
    match fuel with
    | O => bm_lift (Err (BInternal "overflow_loop: out of fuel"))
    | S fuel =>
        if decide (overflow_page = 0) then bm_lift (Err (OverflowChainTruncated page_num))
        else if decide (overflow_page ∈ visited)
        then bm_lift (Err (OverflowChainCycle page_num overflow_page))
        else
          let hops := sat_add hops 1 in
          if decide (MAX_PAGES_VISITED < hops)
          then bm_lift (Err (OverflowChainTooLong page_num MAX_PAGES_VISITED))
          else
            let+ page := bm_read overflow_page in
            let+ next := bm_lift (read_u32 page 0 overflow_page) in
            let take := Z.min remaining available in
            let+ chunk := bm_lift (ok_or (get_range page 4 (sat_add 4 take))
                                         (BPageTooShort overflow_page (zlen page))) in
            store_overflow_loop fuel page_num available next (sat_sub remaining take) hops
              (overflow_page :: visited) (acc ++ chunk)
    end.

Definition store_reassemble_payload (usable_size page_num : Z) (page : bytes) (tail_start payload_len : Z)
    (is_index : bool) : BM St Payload :=
  if decide (MAX_PAYLOAD_LEN < payload_len) then bm_lift (Err (PayloadTooLarge page_num payload_len))
  else
    let+ cell_tail := bm_lift (ok_or (get_from page tail_start) (PayloadTooShort page_num)) in
    let local_size := local_payload_size usable_size payload_len is_index in
    let+ local_bytes := bm_lift (ok_or (get_range cell_tail 0 local_size) (PayloadTooShort page_num)) in
    if decide (local_size = payload_len) then bm_ok (PayloadLocal page tail_start local_size)
    else
      let+ overflow_bytes := bm_lift (ok_or (get_range cell_tail local_size (sat_add local_size 4))
                                            (PayloadTooShort page_num)) in
      let remaining := sat_sub payload_len local_size in
      let available := Z.max (sat_sub usable_size 4) 1 in
      let+ bs := store_overflow_loop (Z.to_nat remaining) page_num available (be_val overflow_bytes)
                   remaining 0 [] local_bytes in
      bm_ok (PayloadOwned bs).

Definition decode_value_cell (buf : bytes) (value_start page_num usable_size : Z) (encoding : TextEncoding)
  : BM St (list Value * bytes) :=
  let+ pt := bm_lift (decode_payload_len buf value_start page_num) in
  let '(payload_len, tail_start) := pt in
  let+ cell_bytes := bm_lift (ok_or (get_range buf value_start (cell_end usable_size payload_len tail_start true))
                                    (PayloadTooShort page_num)) in
  let+ payload := store_reassemble_payload usable_size page_num buf tail_start payload_len true in
  let+ key := bm_lift (map_err InvalidKeyRecord (decode_record (payload_bytes payload) encoding)) in
  bm_ok (key, cell_bytes).

Fixpoint collect_index_leaf_loop (n : nat) (i : Z) (buf : bytes) (ptr_base page_num usable_size : Z)
    (encoding : TextEncoding) : BM St (list (list Value * bytes)) :=
  match n with
  | O => bm_ok []
  | S n =>
      let+ cell_start := bm_lift (read_cell_pointer buf (cell_ptr_offset ptr_base i) page_num i) in
      let+ kc := decode_value_cell buf cell_start page_num usable_size encoding in
      let+ rest := collect_index_leaf_loop n (i + 1) buf ptr_base page_num usable_size encoding in
      bm_ok (kc :: rest)
  end.

Definition collect_index_leaf_cells (buf : bytes) (header_start page_num usable_size : Z) (encoding : TextEncoding)
  : BM St (list (list Value * bytes)) :=
  let+ num_cells := bm_lift (read_num_cells buf header_start page_num) in
  collect_index_leaf_loop (Z.to_nat num_cells) 0 buf (sat_add header_start 8) page_num usable_size encoding.

(** An interior entry: its child, its key and its value cell. *)
Record IndexInteriorEntry : Type := { ie_child : Z; ie_key : list Value; ie_cell : bytes }.

Fixpoint collect_index_interior_loop (n : nat) (i : Z) (buf : bytes) (ptr_base page_num usable_size : Z)
    (encoding : TextEncoding) : BM St (list IndexInteriorEntry) :=
  match n with
  | O => bm_ok []
  | S n =>
      let+ cell_start := bm_lift (read_cell_pointer buf (cell_ptr_offset ptr_base i) page_num i) in
      let+ child := bm_lift (read_u32 buf cell_start page_num) in
      let+ kc := decode_value_cell buf (sat_add cell_start 4) page_num usable_size encoding in
      let+ rest := collect_index_interior_loop n (i + 1) buf ptr_base page_num usable_size encoding in
      bm_ok ({| ie_child := child; ie_key := kc.1; ie_cell := kc.2 |} :: rest)
  end.

Definition collect_index_interior_entries (buf : bytes) (header_start page_num usable_size : Z)
    (encoding : TextEncoding) : BM St (list IndexInteriorEntry * Z) :=
  let+ num_cells := bm_lift (read_num_cells buf header_start page_num) in
  let+ out := collect_index_interior_loop (Z.to_nat num_cells) 0 buf (sat_add header_start 12) page_num usable_size encoding in
  let+ rightmost := bm_lift (read_u32 buf (sat_add header_start 8) page_num) in
  bm_ok (out, rightmost).

Definition value_cell_len (buf : bytes) (cell_start page_num usable_size : Z) : result BtreeError Z :=
  let? pt := decode_payload_len buf cell_start page_num in
  Ok (sat_sub (cell_end usable_size pt.1 pt.2 true) cell_start).

Inductive LeafSearch : Type :=
| Found (pos : Z) (cell : list Value * bytes)
| NotFound (pos : Z).

(** [fuel] exceeds the width of the interval, which every round shrinks. *)
Fixpoint search_leaf_loop (fuel : nat) (buf : bytes) (ptr_base page_num usable_size : Z) (encoding : TextEncoding)
    (key : list Value) (lo hi : Z) : BM St LeafSearch :=
  match fuel with
  | O => bm_ok (NotFound lo)
  | S fuel =>
      if decide (lo < hi) then
        let mid := sat_add lo (sat_sub hi lo / 2) in
        let+ cell_start := bm_lift (read_cell_pointer buf (cell_ptr_offset ptr_base mid) page_num mid) in
        let+ decoded := decode_value_cell buf cell_start page_num usable_size encoding in
        match compare_keys key decoded.1 with
        | Eq => bm_ok (Found mid decoded)
        | Lt => search_leaf_loop fuel buf ptr_base page_num usable_size encoding key lo mid
        | Gt => search_leaf_loop fuel buf ptr_base page_num usable_size encoding key (sat_add mid 1) hi
        end
      else bm_ok (NotFound lo)
  end.

Definition search_index_leaf (buf : bytes) (header_start page_num usable_size : Z) (encoding : TextEncoding)
    (key : list Value) : BM St LeafSearch :=
  let+ num_cells := bm_lift (read_num_cells buf header_start page_num) in
  search_leaf_loop (S (Z.to_nat num_cells)) buf (sat_add header_start 8) page_num usable_size encoding key 0 num_cells.

(** ** Descent *)

Inductive IndexDescent : Type :=
| DescentLeaf (ancestors : list Z) (leaf_page : Z)
| InteriorMatch (interior_page entry_child : Z).

(** The child into which a descent to [key] goes. *)
Fixpoint pick_index_child (key : list Value) (entries : list IndexInteriorEntry) (rightmost : Z) : Z :=
  match entries with
  | [] => rightmost
  | e :: entries => if decide (compare_keys key (ie_key e) = Lt) then ie_child e else pick_index_child key entries rightmost
  end.

(** [fuel] is the page budget. *)
Fixpoint descend_loop (fuel : nat) (ancestors : list Z) (page_num usable_size : Z) (key : list Value)
    (encoding : TextEncoding) : BM St IndexDescent :=
  match fuel with
  | O => bm_lift (Err (TraversalTooLong MAX_PAGES_VISITED))
  | S fuel =>
      let+ page := bm_read page_num in
      let header_start := page1_header_start page_num in
      let+ page_type := bm_lift (read_page_type page header_start page_num) in
      if decide (page_type = LEAF_INDEX) then bm_ok (DescentLeaf ancestors page_num)
      else if decide (page_type = INTERIOR_INDEX) then
        let+ er := collect_index_interior_entries page header_start page_num usable_size encoding in
        match list_find (λ e, compare_keys key (ie_key e) = Eq) er.1 with
        | Some (_, e) => bm_ok (InteriorMatch page_num (ie_child e))
        | None =>
            descend_loop fuel (ancestors ++ [page_num]) (pick_index_child key er.1 er.2) usable_size key encoding
        end
      else bm_lift (Err (UnexpectedPageType page_num page_type))
  end.

Definition descend_index_tree (page_num usable_size : Z) (key : list Value) (encoding : TextEncoding)
  : BM St IndexDescent :=
  descend_loop (Z.to_nat MAX_PAGES_VISITED) [] page_num usable_size key encoding.

(** ** Insertion *)

(** The index module has its own copy of [write_overflow_chain]. *)
Definition index_write_overflow_chain (usable_size : Z) (data : bytes) : BM St Z :=
  write_overflow_chain usable_size data.

Definition encode_index_cell (usable_size : Z) (payload : bytes) : BM St bytes :=
  let payload_len := zlen payload in
  let local_size := Z.min (local_payload_size usable_size payload_len true) (zlen payload) in
  let local_bytes := take (Z.to_nat local_size) payload in
  let overflow_bytes := drop (Z.to_nat local_size) payload in
  let cell := encode_varint payload_len ++ local_bytes in
  if decide (overflow_bytes = []) then bm_ok cell
  else
    let+ overflow_first := index_write_overflow_chain usable_size overflow_bytes in
    bm_ok (cell ++ be_bytes 4 overflow_first).

(** The cells an interior page is rewritten from. *)
Definition entry_cells (entries : list IndexInteriorEntry) : list bytes :=
  map (λ e, build_index_interior_cell (ie_child e) (ie_cell e)) entries.

(** [root_split] of the index module. *)
Definition index_root_split (usable_size root_page new_right : Z) (promoted_bytes : bytes) (encoding : TextEncoding)
  : BM St () :=
  let header_start_root := page1_header_start root_page in
  let+ content := bm_edit root_page (b_get (λ buf, Ok buf)) in
  let+ page_type := bm_lift (read_page_type content header_start_root root_page) in
  let+ relocated := bm_alloc in
  let+ _ :=
    (if decide (page_type = LEAF_INDEX) then
       let+ cells := collect_index_leaf_cells content header_start_root root_page usable_size encoding in
       bm_edit relocated (write_index_leaf_page 0 relocated (cell_bytes cells))
     else if decide (page_type = INTERIOR_INDEX) then
       let+ er := collect_index_interior_entries content header_start_root root_page usable_size encoding in
       bm_edit relocated (write_index_interior_page 0 relocated (entry_cells er.1) er.2)
     else bm_lift (Err (UnexpectedPageType root_page page_type))) in
  let cell := build_index_interior_cell relocated promoted_bytes in
  bm_edit root_page (write_index_interior_page header_start_root root_page [cell] new_right).

(** The entries of a parent after one of its children was split. *)
Definition split_index_entries (parent_page : Z) (entries : list IndexInteriorEntry) (rightmost old_page new_page : Z)
    (promoted_key : list Value) (promoted_bytes : bytes) : result BtreeError (list IndexInteriorEntry * Z) :=
  let promoted := {| ie_child := old_page; ie_key := promoted_key; ie_cell := promoted_bytes |} in
  match list_find (λ e, ie_child e = old_page) entries with
  | Some (idx, _) =>
      let entries := insert_at idx promoted entries in
      let? successor := ok_or (entries !! S idx)
        (BInternal "split successor entry must exist right after insertion") in
      Ok (<[S idx := {| ie_child := new_page; ie_key := ie_key successor; ie_cell := ie_cell successor |}]> entries, rightmost)
  | None =>
      if decide (rightmost = old_page) then Ok (entries ++ [promoted], new_page)
      else Err (MissingChildRoute parent_page old_page)
  end.

(** [insert_into_index_parent], on the ancestors from the parent up. *)
Fixpoint insert_into_index_parent (usable_size page_len : Z) (ancestors_up : list Z)
    (root_page old_page new_page : Z) (promoted_key : list Value) (promoted_bytes : bytes)
    (encoding : TextEncoding) : BM St () :=
  match ancestors_up with
  | [] => index_root_split usable_size root_page new_page promoted_bytes encoding
  | parent_page :: rest =>
      let header_start := page1_header_start parent_page in
      let+ buf := bm_edit parent_page (b_get (λ buf, Ok buf)) in
      let+ er := collect_index_interior_entries buf header_start parent_page usable_size encoding in
      let+ er := bm_lift (split_index_entries parent_page er.1 er.2 old_page new_page promoted_key promoted_bytes) in
      let '(entries, rightmost) := er in
      let cell_bytes := entry_cells entries in
      let total_bytes := zlen (concat cell_bytes) in
      let needed := sat_add (sat_add (sat_add header_start 12) (sat_mul (zlen cell_bytes) 2)) total_bytes in
      if decide (needed ≤ page_len) then
        bm_edit parent_page (write_index_interior_page header_start parent_page cell_bytes rightmost)
      else
        let mid := (length entries / 2)%nat in
        let+ promoted := bm_lift (ok_or (entries !! mid)
          (BInternal "median entry index out of bounds during index interior split")) in
        let left_entries := take mid entries in
        let right_entries := drop (S mid) entries in
        let+ right_page_num := bm_alloc in
        let+ _ := bm_edit parent_page
          (write_index_interior_page header_start parent_page (entry_cells left_entries) (ie_child promoted)) in
        let+ _ := bm_edit right_page_num
          (write_index_interior_page 0 right_page_num (entry_cells right_entries) rightmost) in
        insert_into_index_parent usable_size page_len rest root_page parent_page right_page_num
          (ie_key promoted) (ie_cell promoted) encoding
  end.

(** The bytes the cells of a leaf take. *)
Fixpoint sum_value_cells (n : nat) (i total_bytes : Z) (buf : bytes) (ptr_base page_num usable_size : Z)
  : result BtreeError Z :=
  match n with
  | O => Ok total_bytes
  | S n =>
      let? cell_start := read_cell_pointer buf (cell_ptr_offset ptr_base i) page_num i in
      let? len := value_cell_len buf cell_start page_num usable_size in
      sum_value_cells n (i + 1) (sat_add total_bytes len) buf ptr_base page_num usable_size
  end.

Definition insert_into_index_leaf (usable_size page_len leaf_page root_page : Z) (ancestors : list Z)
    (key : list Value) (payload : bytes) (encoding : TextEncoding) : BM St () :=
  let header_start := page1_header_start leaf_page in
  let+ buf := bm_edit leaf_page (b_get (λ buf, Ok buf)) in
  let+ found := search_index_leaf buf header_start leaf_page usable_size encoding key in
  match found with
  | Found _ _ => bm_lift (Err DuplicateKey)
  | NotFound insert_pos =>
      let+ cell := encode_index_cell usable_size payload in
      let+ num_cells := bm_lift (read_num_cells buf header_start leaf_page) in
      let ptr_base := sat_add header_start 8 in
      let+ total_bytes := bm_lift (sum_value_cells (Z.to_nat num_cells) 0 (zlen cell) buf ptr_base leaf_page usable_size) in
      let needed := sat_add (sat_add (sat_add header_start 8) (sat_mul (sat_add num_cells 1) 2)) total_bytes in
      if decide (needed ≤ page_len) then
        let+ spliced := bm_edit leaf_page (splice_insert_cell header_start leaf_page insert_pos cell) in
        if spliced : bool then bm_ok ()
        else
          let+ cells := collect_index_leaf_cells buf header_start leaf_page usable_size encoding in
          bm_edit leaf_page (write_index_leaf_page header_start leaf_page
            (cell_bytes (insert_at (Z.to_nat insert_pos) (key, cell) cells)))
      else
        let+ cells := collect_index_leaf_cells buf header_start leaf_page usable_size encoding in
        let cells := insert_at (Z.to_nat insert_pos) (key, cell) cells in
        let mid := (length cells / 2)%nat in
        let+ promoted := bm_lift (ok_or (cells !! mid)
          (BInternal "median entry index out of bounds during index leaf split")) in
        let+ right_page := bm_alloc in
        let+ _ := bm_edit leaf_page (write_index_leaf_page header_start leaf_page (cell_bytes (take mid cells))) in
        let+ _ := bm_edit right_page (write_index_leaf_page 0 right_page (cell_bytes (drop (S mid) cells))) in
        insert_into_index_parent usable_size page_len (rev ancestors) root_page leaf_page right_page
          promoted.1 promoted.2 encoding
  end.

Definition insert_entry (header : DatabaseHeader) (root_page : Z) (key : list Value) (encoding : TextEncoding)
  : BM St () :=
  let usable_size := usable_page_size header in
  let+ d := descend_index_tree root_page usable_size key encoding in
  match d with
  | InteriorMatch _ _ => bm_lift (Err DuplicateKey)
  | DescentLeaf ancestors leaf_page =>
      let payload := encode_record key encoding in
      let+ page_len := bm_edit leaf_page (b_get (λ buf, Ok (zlen buf))) in
      insert_into_index_leaf usable_size page_len leaf_page root_page ancestors key payload encoding
  end.

(** ** Deletion *)

Definition overflow_page_of (value_bytes : bytes) (usable_size : Z) : result BtreeError Z :=
  let? pt := decode_payload_len value_bytes 0 0 in
  let '(payload_len, tail_start) := pt in
  let local_size := local_payload_size usable_size payload_len true in
  if decide (local_size < payload_len) then read_u32 value_bytes (sat_add tail_start local_size) 0 else Ok 0.

(** The index module has its own copy of [free_overflow_chain]. *)
Definition index_free_overflow_chain (first_page : Z) : BM St () := free_overflow_chain first_page.

(** [delete_from_leaf] of the index module. *)
Definition delete_entry_from_leaf (usable_size leaf_page : Z) (key : list Value) (encoding : TextEncoding) : BM St () :=
  let header_start := page1_header_start leaf_page in
  let+ buf := bm_edit leaf_page (b_get (λ buf, Ok buf)) in
  let+ found := search_index_leaf buf header_start leaf_page usable_size encoding key in
  match found with
  | NotFound _ => bm_lift (Err KeyNotFound)
  | Found pos matched_cell =>
      let+ overflow_page := bm_lift (overflow_page_of matched_cell.2 usable_size) in
      let+ _ := bm_edit leaf_page (splice_delete_cell header_start leaf_page usable_size pos false) in
      index_free_overflow_chain overflow_page
  end.

(** [fuel] is the depth left: a page at a depth over [MAX_PAGES_VISITED] is
    refused. *)
Fixpoint extract_max_entry (fuel : nat) (usable_size page_num : Z) (encoding : TextEncoding) : BM St (option bytes) :=
  match fuel with
  | O => bm_lift (Err (TraversalTooLong MAX_PAGES_VISITED))
  | S fuel =>
      let header_start := page1_header_start page_num in
      let+ buf := bm_edit page_num (b_get (λ buf, Ok buf)) in
      let+ page_type := bm_lift (read_page_type buf header_start page_num) in
      if decide (page_type = LEAF_INDEX) then
        let+ cells := collect_index_leaf_cells buf header_start page_num usable_size encoding in
        match last cells with
        | None => bm_ok None
        | Some (_, max_bytes) =>
            let last_idx := sat_sub (zlen cells) 1 in
            let+ _ := bm_edit page_num (splice_delete_cell header_start page_num usable_size last_idx false) in
            bm_ok (Some max_bytes)
        end
      else if decide (page_type ≠ INTERIOR_INDEX) then bm_lift (Err (UnexpectedPageType page_num page_type))
      else
        let+ er := collect_index_interior_entries buf header_start page_num usable_size encoding in
        let '(entries, rightmost) := er in
        let+ found := extract_max_entry fuel usable_size rightmost encoding in
        match found with
        | Some max_bytes => bm_ok (Some max_bytes)
        | None =>
            match last entries with
            | None =>
                let+ _ := bm_free rightmost in
                bm_ok None
            | Some e =>
                let+ _ := bm_free rightmost in
                let+ _ := bm_edit page_num
                  (write_index_interior_page header_start page_num (entry_cells (removelast entries)) (ie_child e)) in
                bm_ok (Some (ie_cell e))
            end
        end
  end.

Definition remove_entry_by_child (usable_size page_num child_to_remove : Z) (encoding : TextEncoding) : BM St () :=
  let header_start := page1_header_start page_num in
  let+ buf := bm_edit page_num (b_get (λ buf, Ok buf)) in
  let+ er := collect_index_interior_entries buf header_start page_num usable_size encoding in
  let '(entries, rightmost) := er in
  let+ found := bm_lift (ok_or (list_find (λ e, ie_child e = child_to_remove) entries)
    (MissingChildRoute page_num child_to_remove)) in
  let+ overflow_page := bm_lift (overflow_page_of (ie_cell found.2) usable_size) in
  let+ _ := bm_edit page_num
    (write_index_interior_page header_start page_num (entry_cells (delete found.1 entries)) rightmost) in
  index_free_overflow_chain overflow_page.

Definition delete_via_predecessor_swap (usable_size interior_page entry_child : Z) (encoding : TextEncoding) : BM St () :=
  let+ found := extract_max_entry (S (Z.to_nat MAX_PAGES_VISITED)) usable_size entry_child encoding in
  match found with
  | Some predecessor_bytes =>
      let header_start := page1_header_start interior_page in
      let+ buf := bm_edit interior_page (b_get (λ buf, Ok buf)) in
      let+ er := collect_index_interior_entries buf header_start interior_page usable_size encoding in
      let '(entries, rightmost) := er in
      let+ f := bm_lift (ok_or (list_find (λ e, ie_child e = entry_child) entries)
        (BInternal "entry_child's routing entry must still exist in interior_page")) in
      let entries := <[f.1 := {| ie_child := ie_child f.2; ie_key := ie_key f.2; ie_cell := predecessor_bytes |}]> entries in
      bm_edit interior_page (write_index_interior_page header_start interior_page (entry_cells entries) rightmost)
  | None =>
      let+ _ := bm_free entry_child in
      remove_entry_by_child usable_size interior_page entry_child encoding
  end.

Definition delete_entry (header : DatabaseHeader) (root_page : Z) (key : list Value) (encoding : TextEncoding) : BM St () :=
  let usable_size := usable_page_size header in
  let+ d := descend_index_tree root_page usable_size key encoding in
  match d with
  | DescentLeaf _ leaf_page => delete_entry_from_leaf usable_size leaf_page key encoding
  | InteriorMatch interior_page entry_child =>
      delete_via_predecessor_swap usable_size interior_page entry_child encoding
  end.
End write.
