(* ===== verification/BtreeDeleteProof.v ===== *)
(** * Deletion from a table b-tree is correct

    The overflow chain is given back whole; an emptied leaf is taken out of
    its parent, which goes too when it has one child left. *)

From S2P Require Import Prelude Varint Record Vfs Header Freelist Pager BtreePage BtreeSplice BtreePayload BtreeCursor BtreeLeaf BtreeStore BtreeInsert BtreeSplit BtreeZip BtreeInsertProof BtreeInsertRow BtreeOverflow BtreeDelete.

Section proof.
Context `{PageStoreSpec St} (ps u : Z).
Implicit Types (m : gmap Z bytes) (k : nat).

Abbreviation at_ m := (tree_at u (in_map m)).
Abbreviation runs c m k Q := (BtreeStore.runs ps c m k Q).
Abbreviation owned m := (BtreeInsertProof.owned ps m).

(** ** Giving back pages *)

(** [m'] is [m] without the pages of [l]. *)
Definition without (l : list Z) m m' : Prop := ∀ n, m' !! n = if decide (n ∈ l) then None else m !! n.

Lemma without_nil m : without [] m m.
Proof. intros n. rewrite decide_False; [done|apply not_elem_of_nil]. Qed.

Lemma without_delete n l m m' : without l (delete n m) m' → without (n :: l) m m'.
Proof.
  intros Hw x. rewrite Hw. destruct (decide (x = n)) as [->|Hne].
  - rewrite (decide_True (P := n ∈ n :: l)) by left. case_decide; [done|]. by rewrite lookup_delete_eq.
  - rewrite lookup_delete_ne by done. destruct (decide (x ∈ l)) as [Hin|Hin].
    + rewrite decide_True; [done|by right].
    + rewrite decide_False; [done|]. by intros [?|?]%elem_of_cons.
Qed.

Lemma without_other l m m' n : without l m m' → n ∉ l → m' !! n = m !! n.
Proof. intros Hw Hn. rewrite Hw. by rewrite decide_False. Qed.

Lemma without_owned l m m' : without l m m' → owned m → owned m'.
Proof. intros Hw Ho n b Hn. rewrite Hw in Hn. case_decide; [done|]. by apply Ho. Qed.

Lemma owned_delete n m : owned m → owned (delete n m).
Proof. intros Ho x b Hx. apply lookup_delete_Some in Hx as [_ Hx]. by apply Ho. Qed.

Lemma runs_ext {A} (c c' : BM St A) m k Q : (∀ s, c s = c' s) → runs c' m k Q → runs c m k Q.
Proof. intros Hc Hr s Hs. destruct (Hr s Hs) as (a & m' & k' & s' & ? & ?). exists a, m', k', s'. by rewrite Hc. Qed.

Lemma free_chain_iter fuel first pgs (data : bytes) avail vis m k :
  chain_at (in_map m) avail pgs data → NoDup pgs → (∀ n, n ∈ pgs → n ∉ vis) → (length pgs < fuel)%nat →
  runs (bm_iter fuel (free_chain_step first) (hd 0 pgs, vis)) m k (λ r m' k', k' = k ∧ r = inr () ∧ without pgs m m').
Proof.
  revert fuel data vis m. induction pgs as [|p pgs IH]; intros fuel data vis m Hc Hnd Hv Hf;
    (destruct fuel as [|fuel]; [cbn in Hf; lia|]); cbn [bm_iter hd free_chain_step].
  { rewrite decide_True by done. apply runs_bind, runs_ok, runs_ok. split_and!; [done|done|apply without_nil]. }
  destruct Hc as (_ & Hp0 & buf & Hb%in_map_Ok & Hr & _ & Hc). apply NoDup_cons in Hnd as [Hp Hnd].
  rewrite decide_False by done. rewrite decide_False by (apply Hv; left). apply runs_bind, runs_bind.
  eapply runs_peek; [exact Hb|unfold read_u32; by rewrite Hr|]. apply runs_bind. eapply runs_free; [exact Hb|]. apply runs_ok.
  eapply runs_mono; [eapply (IH fuel); [|done| |cbn in Hf; lia]|].
  - eapply chain_at_ext; [|exact Hc]. intros n Hn. unfold in_map. rewrite lookup_delete_ne; [done|]. by intros ->.
  - intros n Hn [->%elem_of_singleton|Hin]%elem_of_union; [done|]. apply (Hv n); [by right|done].
  - intros r m' k' (-> & -> & Hw). split_and!; [done|done|]. by apply without_delete.
Qed.

Lemma free_overflow_chain_ok pgs (data : bytes) avail m k :
  chain_at (in_map m) avail pgs data → NoDup pgs → zlen pgs ≤ MAX_PAGES_VISITED →
  runs (free_overflow_chain (hd 0 pgs)) m k (λ _ m' k', k' = k ∧ without pgs m m').
Proof.
  intros Hc Hnd Hl. unfold free_overflow_chain. apply runs_bind.
  eapply runs_ext; [intros s; apply bm_loop_iter|]. eapply runs_mono; [eapply free_chain_iter; [exact Hc|done| |]|].
  - intros n _. apply not_elem_of_empty.
  - assert (HM : MAX_PAGES_VISITED = 1000000) by done. apply Nat2Z.inj_lt. rewrite Nat2Z.inj_pow.
    change (Z.of_nat 2 ^ Z.of_nat 32) with 4294967296. lia.
  - intros r m' k' (-> & -> & Hw). by apply runs_ok.
Qed.

(** The chain of a row. *)
Lemma free_row_ok c r pgs m k :
  row_in (in_map m) u c r pgs →
  runs (free_overflow_chain (hd 0 pgs)) m k (λ _ m' k', k' = k ∧ without pgs m m').
Proof.
  intros (n & _ & _ & _ & Hnd & Hl & _ & Hc). case_decide.
  - destruct Hc as [_ Hc]. by eapply free_overflow_chain_ok.
  - subst pgs. by apply (free_overflow_chain_ok [] [] 1).
Qed.

Lemma row_overflow_ptr rd c r pgs : row_in rd u c r pgs → overflow_ptr u c (hd 0 pgs).
Proof.
  intros Hr pl t Hd. pose proof (row_in_rowid _ _ _ _ _ Hr) as Hk. destruct Hr as (n & Hd' & _ & _ & _ & _ & _ & Hc).
  rewrite Hk, Hd' in Hd. injection Hd as <- <-. case_decide; [apply Hc|by subst].
Qed.

(** ** The leaf *)

Lemma delete_from_leaf_ok pn cells buf j c o is_root :
  table_leaf u 0 cells buf → zlen buf ≤ 32768 → 512 ≤ zlen buf → cells !! j = Some c → overflow_ptr u c o →
  NoDup (map cell_rowid cells) →
  ∃ buf', length buf' = length buf ∧
    if decide (1 < zlen cells ∨ is_root = true)
    then delete_from_leaf u 0 pn (cell_rowid c) is_root buf = (buf', Ok (o, false)) ∧ table_leaf u 0 (delete j cells) buf'
    else delete_from_leaf u 0 pn (cell_rowid c) is_root buf = (buf', Ok (o, true)).
Proof.
  intros Hl Hsz Hps Hj Ho Hnd. pose proof (find_leaf_ok u buf 0 cells pn Hl j c o Hj Ho Hnd) as Hf.
  unfold delete_from_leaf, b_bind, b_get. rewrite Hf. case_decide as Hd.
  - destruct (run_edit_ok u 0 cells buf pn (DeleteCell j)) as (buf' & He & Hl' & Hlen & _); [done|done|by eapply lookup_lt_Some|].
    cbn [run_edit] in He. rewrite He. by exists buf'.
  - destruct (write_leaf_page_ok u 0 pn [] buf) as (buf' & Hw & _ & Hlen & _);
      [lia|lia|constructor|apply Forall_nil_2|unfold cells_need; cbn; lia|].
    rewrite Hw. by exists buf'.
Qed.

Lemma delete_from_leaf_none pn cells buf rowid is_root :
  table_leaf u 0 cells buf → rowid ∉ map cell_rowid cells →
  delete_from_leaf u 0 pn rowid is_root buf = (buf, Err (RowidNotFound rowid)).
Proof.
  intros Hl Hn. unfold delete_from_leaf, b_bind, b_get. by rewrite (find_leaf_none u buf 0 cells pn Hl rowid Hn).
Qed.

(** ** The node around an emptied child *)

(** [kids] and [rt] are the children of [f] without the hole. *)
Record pruned (f : zframe) (l : tree) (kids : list (Z * tree)) (rt : tree) : Prop := {
  pr_remove : remove_child (zf_page f) (entries (hole_kids f l)) (root_of (hole_rt f l)) (root_of l) = Ok (entries kids, root_of rt);
  pr_codes : kcodes kids ++ codes rt `sublist_of` lcodes1 f ++ rcodes1 f;
  pr_leaves : kleaves kids ++ leaves_of rt = lleaves1 f ++ rleaves1 f;
  pr_pages : fpages f ≡ₚ zf_page f :: kpages kids ++ pages rt;
  pr_sub : kids.*1 `sublist_of` (hole_kids f l).*1;
  pr_sibs : ∀ P : tree → Prop, Forall P (siblings f) → Forall (λ x : Z * tree, P x.2) kids ∧ P rt;
}.

Lemma prune_ok f l :
  NoDup (pages (plug1 f l)) → hole_kids f l ≠ [] → ∃ kids rt, pruned f l kids rt.
Proof.
  intros Hf%hole_find Hne. unfold hole_kids in Hne. destruct (zf_hole f) as [ks1 k ks2 rt|ks] eqn:Hh.
  - exists (ks1 ++ ks2), rt. split; unfold remove_child, lcodes1, rcodes1, lleaves1, rleaves1, fpages, siblings in *; rewrite ?Hf, ?Hh.
    + unfold hole_kids, hole_rt. rewrite Hh, !entries_app, entries_cons.
      replace (length ks1) with (length (entries ks1)) by (unfold entries; by rewrite length_map). by rewrite delete_app.
    + rewrite map_app, concat_app, <- (assoc_L (++)). apply sublist_app; [done|]. by apply sublist_cons.
    + by rewrite map_app, concat_app, <- (assoc_L (++)).
    + rewrite map_app, concat_app, <- (assoc_L (++)). done.
    + unfold hole_kids. rewrite Hh, !fmap_app. apply sublist_app; [done|]. cbn. by apply sublist_cons.
    + intros P [Hrt [H1 H2]%Forall_app]%Forall_cons. rewrite Forall_fmap in H1, H2. split; [by apply Forall_app|done].
  - destruct ks as [|[k t] ks _] using rev_ind; [done|]. exists ks, t.
    split; unfold remove_child, lcodes1, rcodes1, lleaves1, rleaves1, fpages, siblings in *; rewrite ?Hf, ?Hh.
    + unfold hole_kids, hole_rt. rewrite Hh, decide_True, entries_app by done. cbn [entries map].
      by rewrite last_snoc, removelast_last.
    + rewrite map_app, concat_app, !app_nil_r. cbn. rewrite app_nil_r. apply sublist_app; [done|]. by apply sublist_inserts_r.
    + rewrite map_app, concat_app, app_nil_r. cbn. by rewrite app_nil_r.
    + rewrite map_app, concat_app. cbn. by rewrite app_nil_r.
    + unfold hole_kids. rewrite Hh, fmap_app. by apply sublist_inserts_r.
    + intros P. rewrite fmap_app. intros [H1 [H2 _]%Forall_cons]%Forall_app. by rewrite Forall_fmap in H1.
Qed.

Lemma replace_child_ok f l r :
  NoDup (pages (plug1 f l)) →
  replace_child (zf_page f) (entries (hole_kids f l)) (root_of (hole_rt f l)) (root_of l) (root_of r) =
    Ok (entries (hole_kids f r), root_of (hole_rt f r)).
Proof.
  intros Hf%hole_find. unfold replace_child. rewrite Hf. unfold hole_kids, hole_rt.
  destruct (zf_hole f) as [ks1 k ks2 rt|ks]; [|by rewrite decide_True].
  rewrite !entries_app, !entries_cons. cbn [fst snd].
  replace (length ks1) with (length (entries ks1) + 0)%nat by (unfold entries; rewrite length_map; lia).
  by rewrite insert_app_r.
Qed.

Lemma keys_ok kids kids' :
  kids'.*1 `sublist_of` kids.*1 → node_ok ps kids → kids' ≠ [] → node_ok ps kids'.
Proof.
  intros Hs (_ & Hn & Hk) Hne. split_and!; [done| |].
  - etrans; [|exact Hn]. apply Z.add_le_mono_l. rewrite !node_need.
    rewrite <- !(map_map (@fst Z tree) key_size).
    change (map fst kids) with kids.*1. change (map fst kids') with kids'.*1. clear -Hs.
    induction Hs as [|x l k _ IH|x l k _ IH]; cbn; [done|lia|]. pose proof (key_size_bounds x). lia.
  - assert (Hk' : Forall i64_ok kids.*1) by (by rewrite Forall_fmap).
    assert (Hk2 : Forall i64_ok kids'.*1) by (rewrite Forall_forall in Hk' |- *; intros x Hx; apply Hk'; by eapply elem_of_sublist).
    by rewrite Forall_fmap in Hk2.
Qed.

(** ** Collapsing *)

Hypothesis (Hps : 512 ≤ ps ≤ 65536).

(** [t'] is what is left of a tree on the pages [old]; the others of them are
    given back. *)
Record collapsed m m' (old : list Z) (root : Z) (cs : list Z) (gs : list (list bytes)) (t' : tree) : Prop := {
  co_at : at_ m' t';
  co_wf : wf ps t';
  co_root : root_of t' = root;
  co_nodup : NoDup (pages t');
  co_codes : codes t' `sublist_of` cs;
  co_groups : groups t' = gs;
  co_pages : ∀ n, n ∈ pages t' → n ∈ old;
  co_keep : ∀ n, n ∉ old → m' !! n = m !! n;
  co_gone : ∀ n, n ∈ old → n ∉ pages t' → m' !! n = None;
  co_owned : owned m';
}.

Lemma at_delete m n t : n ∉ pages t → at_ m t → at_ (delete n m) t.
Proof.
  intros Hn. apply tree_at_ext. intros x Hx. unfold in_map. rewrite lookup_delete_ne; [done|]. by intros <-.
Qed.

Lemma collapse_root_ok rt P b m k :
  owned m → at_ m rt → wf ps rt → m !! P = Some b → NoDup (P :: pages rt) →
  runs (collapse_root u P (root_of rt)) m k
    (λ _ m' k', k' = k ∧ collapsed m m' (P :: pages rt) P (codes rt) (groups rt) (reroot P rt)).
Proof.
  intros Ho Hrt Hwf HP [HPn Hnd]%NoDup_cons. unfold collapse_root.
  destruct (tree_at_pages _ _ _ _ Hrt (root_in_pages rt)) as [buf Hb]. destruct (Ho _ _ Hb) as [H2 _]. destruct (Ho _ _ HP) as [HP2 _].
  assert (Hptl : pages rt = root_of rt :: tail (pages rt)) by (by destruct rt).
  assert (Hpre : pages (reroot P rt) = P :: tail (pages rt)) by (by destruct rt).
  assert (HPr : P ≠ root_of rt) by (intros ->; apply HPn, root_in_pages).
  rewrite Hptl in Hnd. apply NoDup_cons in Hnd as [Hrn Hnd].
  rewrite !header_start_0 by lia. apply runs_bind. eapply runs_peek; [exact Hb|done|].
  apply runs_bind. eapply runs_lift; [apply (tree_type_ok u rt buf m); [done|done|lia]|]. apply runs_bind.
  eapply (copy_content_ok ps u Hps rt P b buf); [done|done|done|done|done| |].
  { intros Hin. apply HPn. rewrite Hptl. by right. }
  intros b' Hb' Hat. eapply runs_free; [by rewrite lookup_insert_ne|]. split; [done|]. split.
  - apply at_delete; [|done]. rewrite Hpre, elem_of_cons. by intros [?|?].
  - by destruct rt.
  - by destruct rt.
  - rewrite Hpre. constructor; [|done]. intros Hin. apply HPn. rewrite Hptl. by right.
  - by destruct rt.
  - by destruct rt.
  - intros n. rewrite Hpre, Hptl, !elem_of_cons. tauto.
  - intros n. rewrite Hptl, !elem_of_cons. intros Hn. assert (n ≠ P ∧ n ≠ root_of rt) as [? ?] by tauto.
    by rewrite lookup_delete_ne, lookup_insert_ne by congruence.
  - intros n. rewrite Hpre, Hptl, !elem_of_cons. intros Hin Hn. assert (n = root_of rt) as -> by tauto. by rewrite lookup_delete_eq.
  - apply owned_delete, owned_insert; [done|lia|done].
Qed.

Section collapse.
Context (f : zframe) (z : list zframe) (l : tree) (m m0 : gmap Z bytes) (k : nat).
Abbreviation t0 := (plug z (plug1 f l)).
Hypotheses (Ht : at_ m t0) (Hw : wf ps t0) (Hnd : NoDup (pages t0)) (Ho : owned m0)
  (Hsame : ∀ n, n ∈ fpages f ++ zpages z → m0 !! n = m !! n).

Lemma collapse_pages : NoDup (zpages z ++ fpages f ++ pages l).
Proof. by rewrite pages_plug, pages_plug1 in Hnd. Qed.

Lemma same_at t : (∀ n, n ∈ pages t → n ∈ fpages f ++ zpages z) → at_ m t → at_ m0 t.
Proof. intros Hp. apply tree_at_ext. intros n Hn. unfold in_map. by rewrite Hsame by (by apply Hp). Qed.

Lemma parent_read :
  ∃ buf, m0 !! zf_page f = Some buf ∧ zlen buf = ps ∧ 2 ≤ zf_page f ∧
    collect_interior_entries buf 0 (zf_page f) = Ok (entries (hole_kids f l), root_of (hole_rt f l)).
Proof.
  pose proof (tree_at_sub _ _ _ _ Ht) as Hf. rewrite plug1_node in Hf.
  destruct (node_type u m _ _ _ Hf) as (buf & Hb & _ & _ & Hcol). exists buf.
  assert (Hb0 : m0 !! zf_page f = Some buf) by (rewrite Hsame; [done|apply elem_of_app; left; apply fpages_page]).
  destruct (Ho _ _ Hb0) as [H2 Hl]. rewrite header_start_0 in Hcol by lia. split_and!; [done|done|lia|done].
Qed.

Lemma sibling_pages t n : t ∈ siblings f → n ∈ pages t → n ∈ fpages f.
Proof. intros Hin. pose proof (fpages_siblings f) as Hs. rewrite Forall_forall in Hs. by apply Hs. Qed.

(** The parent keeps at least one entry. *)
Lemma shrink_parent kids rt :
  pruned f l kids rt → kids ≠ [] →
  runs (bm_edit (zf_page f) (write_interior_page 0 (zf_page f) (interior_cells (entries kids)) (root_of rt))) m0 k
    (λ _ m' k', k' = k ∧ ∃ t', collapsed m0 m' (fpages f ++ zpages z) (root_of t0)
       (lcodes (f :: z) ++ rcodes (f :: z)) (lgroups (f :: z) ++ rgroups (f :: z)) t').
Proof.
  intros [_ Hcodes Hrows Hpages Hsub Hsibs] Hne. destruct parent_read as (buf & Hb & Hbl & HP & _).
  pose proof (tree_at_sub _ _ _ _ Ht) as (_ & Hsib & _)%tree_at_plug1. pose proof (wf_sub _ _ _ Hw) as (Hnok & Hwsib & _)%wf_plug1.
  pose proof collapse_pages as (Hndz & Hdis & (Hndf & _ & _)%NoDup_app)%NoDup_app.
  destruct (Hsibs (λ t, at_ m0 t ∧ ∀ n, n ∈ pages t → n ∈ fpages f)) as [Hk [Hr Hrp]].
  { rewrite Forall_forall in Hsib |- *. intros t Hin. split; [|intros n Hn; by eapply sibling_pages].
    apply same_at; [|by apply Hsib]. intros n Hn. apply elem_of_app. left. by eapply sibling_pages. }
  destruct (Hsibs (wf ps) Hwsib) as [Hwk Hwr].
  assert (Hnk : node_ok ps kids) by (by eapply keys_ok).
  assert (Hka : Forall (λ x : Z * tree, at_ m0 x.2) kids) by (eapply Forall_impl; [exact Hk|]; by intros ? [? _]).
  rewrite Hpages in Hndf. pose proof Hndf as [HPn _]%NoDup_cons. rewrite elem_of_app in HPn.
  eapply runs_write_node; [done|exact Hb|done|done|done|eapply owned_entries; [exact Ho|done|apply Hnk]|by apply (owned_root ps u m0)|].
  intros b' Hb' Hnp. split; [done|]. exists (plug z (Node (zf_page f) kids rt)).
  assert (Hpp : pages (plug z (Node (zf_page f) kids rt)) ≡ₚ fpages f ++ zpages z).
  { rewrite pages_plug, Hpages. cbn [pages]. by rewrite (comm (++)). }
  assert (HPz : zf_page f ∉ zpages z) by (intros Hin; apply (Hdis _ Hin), elem_of_app; left; apply fpages_page).
  split.
  - eapply tree_at_replace; [exact Ht|by rewrite root_of_plug1| |].
    + intros n Hn. unfold in_map. rewrite lookup_insert_ne by (intros Heq; by rewrite Heq in HPz). rewrite Hsame; [done|]. apply elem_of_app. by right.
    + apply tree_at_node. split_and!; [done| |apply at_insert; tauto].
      rewrite Forall_forall in Hka |- *. intros x Hx. apply at_insert; [|by apply Hka]. intros Hin. apply HPn. left. by eapply kid_pages.
  - eapply wf_replace; [exact Hw|by rewrite root_of_plug1|]. by apply wf_node.
  - apply root_of_plug. by rewrite root_of_plug1.
  - rewrite Hpp, Hpages, (comm (++)). apply NoDup_app. split_and!; [done| |done].
    intros n Hn Hin. apply (Hdis n Hn), elem_of_app. left. by rewrite Hpages.
  - rewrite codes_plug. cbn [lcodes rcodes codes]. rewrite <- !(assoc_L (++)). apply sublist_app; [done|].
    rewrite !(assoc_L (++)). apply sublist_app; [by rewrite <- ?(assoc_L (++))|done].
  - rewrite groups_plug. unfold lgroups, rgroups, groups. cbn [lleaves rleaves leaves_of]. rewrite Hrows, !fmap_app.
    by rewrite <- !(assoc_L (++)).
  - intros n. by rewrite Hpp.
  - intros n Hn. rewrite lookup_insert_ne; [done|]. intros <-. apply Hn, elem_of_app. left. apply fpages_page.
  - intros n Hn. by rewrite Hpp.
  - apply owned_insert; [done|by apply Ho in Hb as [? _]|done].
Qed.

Lemma root_in_zpages g z' t : root_of (plug (g :: z') t) ∈ zpages (g :: z').
Proof.
  revert g t. induction z' as [|h z' IH]; intros g t; cbn [plug].
  - rewrite root_of_plug1. apply elem_of_app. left. apply fpages_page.
  - rewrite zpages_cons. apply elem_of_app. right. apply IH.
Qed.

(** The last child takes the place of the parent in the grandparent. *)
Lemma splice_parent g z' rt :
  z = g :: z' → pruned f l [] rt →
  runs (let+ _ := bm_free (zf_page f) in splice_child (map zf_page z) (zf_page f) (root_of rt)) m0 k
    (λ _ m' k', k' = k ∧ ∃ t', collapsed m0 m' (fpages f ++ zpages z) (root_of t0)
       (lcodes (f :: z) ++ rcodes (f :: z)) (lgroups (f :: z) ++ rgroups (f :: z)) t').
Proof.
  intros Hz [_ Hcodes Hrows Hpages _ Hsibs]. cbn [map concat app] in Hcodes, Hrows, Hpages.
  destruct parent_read as (buf & Hb & _). rewrite Hz in *. cbn [plug map splice_child] in *.
  pose proof (tree_at_sub _ _ _ _ Ht) as Hg. rewrite plug1_node in Hg. destruct (node_type u m _ _ _ Hg) as (gb & Hgb & _ & _ & Hcol).
  rewrite <- plug1_node in Hg. apply tree_at_plug1 in Hg as (_ & Hgsib & (_ & Hsib & _)%tree_at_plug1).
  pose proof (wf_sub _ _ _ Hw) as (Hgok & Hgw & (_ & Hwsib & _)%wf_plug1)%wf_plug1.
  destruct (Hsibs (at_ m) Hsib) as [_ Hrt]. destruct (Hsibs (wf ps) Hwsib) as [_ Hwrt].
  pose proof Hnd as Hndg. rewrite pages_plug in Hndg. apply NoDup_app in Hndg as (_ & _ & Hndg).
  rewrite pages_plug, !pages_plug1 in Hnd.
  assert (Hperm : zpages z' ++ fpages g ++ fpages f ++ pages l ≡ₚ zf_page f :: pages rt ++ fpages g ++ zpages z' ++ pages l).
  { rewrite Hpages. cbn [app]. solve_Permutation. }
  rewrite Hperm in Hnd. apply NoDup_cons in Hnd as [HPn Hndall].
  pose proof Hndall as (Hndr & Hdr & (Hndfg & Hdg & _)%NoDup_app)%NoDup_app.
  assert (Hin : ∀ n, n ∈ pages rt ++ fpages g ++ zpages z' → n ∈ fpages f ++ zpages (g :: z')).
  { intros n. rewrite Hpages, zpages_cons, !elem_of_app, elem_of_cons. tauto. }
  assert (HPn' : ∀ n, n ∈ pages rt ++ fpages g ++ zpages z' → n ≠ zf_page f).
  { intros n Hn ->. apply HPn. rewrite !elem_of_app in *. tauto. }
  set (m1 := delete (zf_page f) m0).
  assert (Hm1 : ∀ n, n ∈ pages rt ++ fpages g ++ zpages z' → m1 !! n = m !! n).
  { intros n Hn. unfold m1. rewrite lookup_delete_ne by (apply not_eq_sym, HPn', Hn). by apply Hsame, Hin. }
  assert (Hgp : zf_page g ∈ pages rt ++ fpages g ++ zpages z').
  { rewrite !elem_of_app. right. left. apply fpages_page. }
  apply runs_bind. eapply runs_free; [exact Hb|]. fold m1. assert (Ho1 : owned m1) by (by apply owned_delete).
  assert (Hgb1 : m1 !! zf_page g = Some gb) by (by rewrite Hm1). destruct (Ho1 _ _ Hgb1) as [Hg2 Hgl].
  rewrite header_start_0 in Hcol |- * by lia. apply runs_bind. eapply runs_peek; [exact Hgb1|exact Hcol|]. cbn [fst snd].
  rewrite <- (root_of_plug1 f l). apply runs_bind. eapply runs_lift; [by apply replace_child_ok|]. cbn [fst snd].
  assert (Hat1 : ∀ t, (∀ n, n ∈ pages t → n ∈ pages rt ++ fpages g ++ zpages z') → at_ m t → at_ m1 t).
  { intros t Hp. apply tree_at_ext. intros n Hn. unfold in_map. by rewrite Hm1 by (by apply Hp). }
  assert (Hfgt : fpages g = zf_page g :: tail (fpages g)) by done. rewrite Hfgt in Hndfg. apply NoDup_cons in Hndfg as [Hgt _].
  pose proof (fpages_tail g) as Htl. rewrite Forall_forall in Htl.
  assert (Hgs : Forall (at_ m1) (siblings g)).
  { rewrite Forall_forall in Hgsib |- *. intros t Ht'. apply Hat1; [|by apply Hgsib].
    intros n Hn. rewrite !elem_of_app. right. left. rewrite Hfgt. right. by eapply Htl. }
  assert (Hrt1 : at_ m1 rt) by (apply Hat1; [|done]; intros n Hn; apply elem_of_app; by left).
  assert (Hnk : node_ok ps (hole_kids g rt)).
  { eapply keys_ok; [|exact Hgok|]; [by rewrite (hole_keys g (plug1 f l) rt)|].
    intros Hnil. apply (proj1 Hgok). apply (f_equal (fmap fst)) in Hnil. rewrite (hole_keys g (plug1 f l) rt) in Hnil. by apply fmap_nil_inv in Hnil. }
  destruct (proj2 (hole_children (at_ m1) g rt) (conj Hgs Hrt1)) as [Hka Hra].
  eapply runs_write_node; [done|exact Hgb1|lia|done|done|eapply owned_entries; [exact Ho1|done|apply Hnk]|by apply (owned_root ps u m1)|].
  intros b' Hb' Hnp. split; [done|]. exists (plug z' (plug1 g rt)).
  assert (Hpp : pages (plug z' (plug1 g rt)) ≡ₚ pages rt ++ fpages g ++ zpages z').
  { rewrite pages_plug, pages_plug1. solve_Permutation. }
  split.
  - eapply tree_at_replace; [exact Ht|by rewrite !root_of_plug1| |].
    + intros n Hn. unfold in_map. rewrite lookup_insert_ne, Hm1; [done| |].
      * rewrite !elem_of_app. tauto.
      * intros <-. apply (Hdg (zf_page g)); [apply fpages_page|]. rewrite elem_of_app. by left.
    + apply tree_at_plug1. split_and!; [done| |].
      * apply at_children; [|done]. intros t Ht' Hn. apply Hgt. by eapply Htl.
      * apply at_insert; [|done]. intros Hn. apply (Hdr _ Hn). rewrite elem_of_app. left. apply fpages_page.
  - eapply wf_replace; [exact Hw|by rewrite !root_of_plug1|]. by apply wf_plug1.
  - apply root_of_plug. by rewrite !root_of_plug1.
  - rewrite Hpp. clear -Hndall. rewrite !(assoc_L (++)) in Hndall. rewrite (assoc_L (++)). apply NoDup_app in Hndall as [Hx _]. exact Hx.
  - rewrite codes_plug, codes_plug1. cbn [lcodes rcodes].
    transitivity ((lcodes z' ++ lcodes1 g) ++ codes rt ++ rcodes1 g ++ rcodes z'); [by rewrite <- !(assoc_L (++))|].
    rewrite <- (assoc_L (++) _ (lcodes1 f)). apply sublist_app; [done|]. rewrite (assoc_L (++) (lcodes1 f)). by apply sublist_app.
  - rewrite groups_plug. unfold lgroups, rgroups, groups. rewrite leaves_plug1. cbn [lleaves rleaves].
    rewrite Hrows, !fmap_app. by rewrite <- !(assoc_L (++)).
  - intros n. rewrite Hpp. apply Hin.
  - intros n Hn. unfold m1. rewrite lookup_insert_ne, lookup_delete_ne; [done| |].
    + intros <-. apply Hn, elem_of_app. left. apply fpages_page.
    + intros <-. by apply Hn, Hin.
  - intros n Hn Hno. rewrite Hpp in Hno. rewrite Hpages, zpages_cons, !elem_of_app, elem_of_cons in Hn. rewrite !elem_of_app in Hno.
    assert (n = zf_page f) as -> by tauto. rewrite lookup_insert_ne by (by apply HPn'). apply lookup_delete_eq.
  - apply owned_insert; [done|lia|done].
Qed.

Lemma collapsed_sub m1 m' old root cs cs' rs t' :
  collapsed m1 m' old root cs rs t' → cs `sublist_of` cs' → collapsed m1 m' old root cs' rs t'.
Proof. intros [] Hs. split; try done. by etrans. Qed.

Lemma collapsed_perm m1 m' old old' root cs rs t' :
  collapsed m1 m' old root cs rs t' → old ≡ₚ old' → collapsed m1 m' old' root cs rs t'.
Proof. intros [] Hp. split; try done; intros n; rewrite <- Hp; auto. Qed.

Lemma collapse_ok :
  runs (collapse_into_ancestors u (root_of t0) (map zf_page (f :: z)) (root_of l)) m0 k
    (λ _ m' k', k' = k ∧ ∃ t', collapsed m0 m' (fpages f ++ zpages z) (root_of t0)
       (lcodes (f :: z) ++ rcodes (f :: z)) (lgroups (f :: z) ++ rgroups (f :: z)) t').
Proof.
  destruct parent_read as (buf & Hb & Hbl & HP & Hcol). cbn [map collapse_into_ancestors].
  rewrite header_start_0 by done. apply runs_bind. eapply runs_peek; [exact Hb|exact Hcol|]. cbn [fst snd].
  pose proof collapse_pages as Hndp.
  pose proof (tree_at_sub _ _ _ _ Ht) as (_ & Hsib & _)%tree_at_plug1. pose proof (wf_sub _ _ _ Hw) as (Hnok & Hwsib & _)%wf_plug1.
  assert (Hndf : NoDup (pages (plug1 f l))) by (rewrite pages_plug1; by apply NoDup_app in Hndp as (_ & _ & ?)).
  destruct (prune_ok f l Hndf (proj1 Hnok)) as (kids & rt & Hpr). pose proof Hpr as [Hrem Hcodes Hrows Hpages _ Hsibs].
  apply runs_bind. eapply runs_lift; [exact Hrem|]. cbv iota beta.
  destruct (decide (kids = [])) as [->|Hne]; [|rewrite decide_True; [by apply shrink_parent|by destruct kids]].
  rewrite decide_False by tauto. cbn [map concat app] in Hcodes, Hrows, Hpages. 
  assert (Hz : z = [] ∨ ∃ g z', z = g :: z') by (destruct z; [by left|right; eauto]). destruct Hz as [Hz|(g & z' & Hz)].
  - destruct (Hsibs (wf ps) Hwsib) as [_ Hwrt]. destruct (Hsibs (λ t, at_ m0 t)) as [_ Hrt].
    { rewrite Forall_forall in Hsib |- *. intros t Hin. apply same_at; [|by apply Hsib].
      intros n Hn. apply elem_of_app. left. by eapply sibling_pages. }
    rewrite Hz in Hndp |- *. cbn [plug]. rewrite root_of_plug1, decide_True by done.
    eapply runs_mono; [apply (collapse_root_ok rt (zf_page f) buf); [done|done|done|done|]|].
    + rewrite <- Hpages. by apply NoDup_app in Hndp as (_ & _ & (? & _)%NoDup_app).
    + intros _ m' k' [-> Hco]. split; [done|]. exists (reroot (zf_page f) rt). cbn [lcodes rcodes]. rewrite app_nil_r.
      unfold lgroups, rgroups. cbn [lleaves rleaves]. rewrite ?app_nil_r, ?app_nil_l, <- fmap_app, <- Hrows.
      eapply collapsed_sub; [|exact Hcodes]. eapply collapsed_perm; [exact Hco|]. by rewrite Hpages.
  - rewrite decide_False; [by eapply splice_parent|]. intros Heq. apply NoDup_app in Hndp as (_ & Hdis & _).
    apply (Hdis (zf_page f)); [|apply elem_of_app; left; apply fpages_page]. rewrite Heq, Hz. apply root_in_zpages.
Qed.
End collapse.
End proof.
