(* ===== verification/BtreeTable.v ===== *)
(** * A table b-tree as a finite map

    The abstract table is a finite map from rowids to payloads; [table_of]
    says which trees, with their overflow chains, represent it in a set of
    pages.  [create_empty_table_root] and [insert_row] refine the empty map and
    insertion. *)

From S2P Require Import Prelude Varint Record Vfs Header Freelist PageCache Lock Pager Commit Allocator BtreePage BtreeSplice BtreePayload BtreeCursor BtreeLeaf BtreeStore BtreeInsert BtreeSplit BtreeZip BtreeInsertProof BtreeInsertRow BtreeOverflow BtreeDelete BtreeDeleteProof.

Section create.
Context `{PageStore St}.

Definition create_empty_table_root : BM St Z :=
  let+ root_page := bm_alloc in
  let header_start := page1_header_start root_page in
  let+ _ := bm_edit root_page (write_leaf_page header_start root_page []) in
  bm_ok root_page.
End create.

(** ** Representation *)

(** Only a tree of one page may have an empty leaf. *)
Definition filled (t : tree) : Prop := (∃ pn cells, t = Leaf pn cells) ∨ Forall (λ g, g ≠ []) (groups t).

Lemma filled_around z pn cells :
  filled (plug z (Leaf pn cells)) → Forall (λ g, g ≠ []) (lgroups z) ∧ Forall (λ g, g ≠ []) (rgroups z).
Proof.
  intros [(p & c & Heq)|Hall]; [|rewrite groups_plug, !Forall_app in Hall; tauto]. destruct z as [|f z]; [by split; constructor|].
  exfalso. clear -Heq. cbn [plug] in Heq. rewrite plug1_node in Heq. revert Heq. generalize (zf_page f), (hole_kids f (Leaf pn cells)), (hole_rt f (Leaf pn cells)).
  induction z as [|g z IH]; intros x ks rt; cbn [plug]; [done|]. rewrite plug1_node. apply IH.
Qed.

(** Interior pages have two children at least. *)
Lemma pages_leaves ps t : wf ps t → (length (pages t) + 1 ≤ 2 * length (leaves_of t))%nat.
Proof.
  induction t as [pn cells|pn kids rt Hk IHr] using tree_rect'; cbn [pages leaves_of length]; [lia|].
  intros ((Hne & _ & _) & Hks & Hr)%wf_node. specialize (IHr Hr). rewrite !length_app.
  enough (length kids + length (kpages kids) ≤ 2 * length (kleaves kids))%nat by (destruct kids; [done|cbn in *; lia]).
  clear Hne IHr Hr. induction Hks as [|x kids Hx _ IH]; [done|]. apply Forall_cons in Hk as [Hk0 Hk]. specialize (IH Hk).
  specialize (Hk0 Hx). cbn. rewrite !length_app. lia.
Qed.

Lemma filled_pages ps t : wf ps t → filled t → (length (pages t) ≤ 2 * length (rows t) + 1)%nat.
Proof.
  intros Hw [(p & c & ->)|Hall]; [cbn; lia|]. pose proof (pages_leaves ps t Hw) as Hp. rewrite rows_groups.
  enough (length (groups t) ≤ length (concat (groups t)))%nat as Hg by (unfold groups at 1 in Hg; rewrite length_fmap in Hg; lia).
  induction Hall as [|g gs Hg _ IH]; [done|]. cbn. rewrite length_app. destruct g; [done|cbn; lia].
Qed.

Section represent.
Context (ps u : Z).
Implicit Types (m T : gmap Z bytes) (t : tree).

(** Rows [rs] of the tree, in order, and their overflow pages. *)
Record rows_of m t (rs : list (Z * bytes)) (ovf : list (list Z)) : Prop := {
  ro_at : tree_at u (in_map m) t;
  ro_wf : wf ps t;
  ro_sorted : sorted (codes t);
  ro_rows : Forall3 (row_in (in_map m) u) (rows t) rs ovf;
  ro_nodup : NoDup (pages t ++ concat ovf);
  ro_filled : filled t;
}.

(** The table [T] on the pages [P], overflow pages included. *)
Definition table_of m t T (P : gset Z) : Prop :=
  ∃ rs ovf, rows_of m t rs ovf ∧ T = list_to_map rs ∧ P = list_to_set (pages t ++ concat ovf).

Lemma rows_codes t : sorted (codes t) → sorted (map cell_rowid (rows t)).
Proof.
  enough (map (λ c, 2 * cell_rowid c) (rows t) `sublist_of` codes t) as Hsub.
  { intros Hs. apply codes_rowids. by eapply sorted_sublist. }
  induction t as [pn cells|pn kids rt Hk IHr] using tree_rect'; cbn [rows codes]; [done|].
  rewrite map_app. apply sublist_app; [|done]. clear IHr rt. induction Hk as [|k kids Hk1 _ IH]; [done|]. cbn [map concat].
  rewrite map_app. apply sublist_app; [|done]. by apply sublist_inserts_r.
Qed.

Lemma rows_keys rd cs rs ovf : Forall3 (row_in rd u) cs rs ovf → rs.*1 = map cell_rowid cs.
Proof.
  induction 1 as [|c r o cs rs ovf Hr _ IH]; [done|]. cbn. f_equal; [|done]. by erewrite row_in_rowid.
Qed.

Lemma rows_of_keys m t rs ovf : rows_of m t rs ovf → NoDup rs.*1.
Proof. intros []. erewrite rows_keys by done. by apply sorted_nodup, rows_codes. Qed.

Lemma table_of_keys m t T P rowid :
  table_of m t T P → T !! rowid = None ↔ rowid ∉ map cell_rowid (rows t).
Proof.
  intros (rs & ovf & [? ? ? Hr ? ?] & -> & _). rewrite <- (rows_keys _ _ _ _ Hr).
  symmetry. apply not_elem_of_list_to_map.
Qed.

(** A table of [n] rows has at most [2 n + 1] tree pages. *)
Lemma table_of_pages m t T P : table_of m t T P → (length (pages t) ≤ 2 * size T + 1)%nat.
Proof.
  intros (rs & ovf & Hro & -> & _). pose proof (rows_of_keys _ _ _ _ Hro) as Hnd. destruct Hro as [_ Hw _ Hr _ Hf].
  rewrite map_size_list_to_map by done. rewrite <- (Forall3_length_lm _ _ _ _ Hr). by eapply filled_pages.
Qed.

(** The pages that are not the table's. *)
Definition outside (P : gset Z) m : gmap Z bytes := filter (λ x, x.1 ∉ P) m.

Lemma outside_lookup P m n : outside P m !! n = if decide (n ∈ P) then None else m !! n.
Proof.
  unfold outside. destruct (m !! n) as [b|] eqn:E; case_decide as Hn.
  - apply map_lookup_filter_None. right. intros x _ Hx. by apply Hx.
  - by apply map_lookup_filter_Some.
  - apply map_lookup_filter_None. by left.
  - apply map_lookup_filter_None. by left.
Qed.
End represent.

Lemma Forall3_impl {A B C} (P Q : A → B → C → Prop) l k o :
  Forall3 P l k o → (∀ x y w, x ∈ l → w ∈ o → P x y w → Q x y w) → Forall3 Q l k o.
Proof.
  induction 1 as [|x y w l k o HP _ IH]; intros HQ; constructor; [apply HQ; [left|left|done]|].
  apply IH. intros x' y' w' Hx Hw. apply HQ; by right.
Qed.

Lemma rows_pages m u cs rs ovf n :
  Forall3 (row_in (in_map m) u) cs rs ovf → n ∈ concat ovf → is_Some (m !! n).
Proof.
  induction 1 as [|c r o cs rs ovf Hr _ IH]; cbn; [by intros ?%not_elem_of_nil|].
  intros [Hn|Hn]%elem_of_app; [by eapply row_in_pages|by apply IH].
Qed.

(** Rows are kept while their overflow pages are. *)
Lemma rows_agree m m' l u cs rs ovf :
  agree_off l m m' → (∀ n, n ∈ concat ovf → n ∉ l) →
  Forall3 (row_in (in_map m) u) cs rs ovf → Forall3 (row_in (in_map m') u) cs rs ovf.
Proof.
  intros Ha Hl Hf. induction Hf as [|c r o cs rs ovf Hr _ IH]; [constructor|]. cbn in *. constructor; [|set_solver].
  eapply row_in_agree; [exact Ha| |exact Hr]. intros n Hn. split; [set_solver|by eapply row_in_pages].
Qed.

Lemma table_of_owned ps u m t T P n : table_of ps u m t T P → n ∈ P → is_Some (m !! n).
Proof.
  intros (rs & ovf & [Hat _ _ Hr _ _] & _ & ->) Hn. rewrite elem_of_list_to_set, elem_of_app in Hn.
  destruct Hn as [Hn|Hn]; [|by eapply rows_pages]. destruct (tree_at_pages _ _ _ _ Hat Hn) as [b Hb]. by exists b.
Qed.

(** ** Insertion *)

Section insertion.
Context `{PageStoreSpec St} (ps : Z) (header : DatabaseHeader).
Abbreviation u := (usable_page_size header).
Implicit Types (m T : gmap Z bytes) (k : nat) (t : tree).

Abbreviation runs c m k Q := (BtreeStore.runs ps c m k Q).
Abbreviation owned m := (BtreeInsertProof.owned ps m).

Hypotheses (Hps : 512 ≤ ps ≤ 65536) (Hu : 35 ≤ u ≤ ps).

Lemma create_runs m k :
  owned m →
  runs create_empty_table_root m (S k) (λ root m' k', k' = k ∧ m !! root = None ∧ owned m' ∧
    table_of ps u m' (Leaf root []) ∅ {[root]} ∧ outside {[root]} m' = m).
Proof.
  intros Ho. unfold create_empty_table_root. apply runs_bind, runs_alloc. intros n b Hn Hn2 Hb.
  rewrite header_start_0 by lia. apply runs_bind.
  eapply (runs_write_leaf ps u Hps); [by rewrite lookup_insert_eq|lia|done|apply Forall_nil_2|unfold cells_need; cbn; lia|].
  intros b' Hb' Hat. rewrite insert_insert_eq in Hat |- *. apply runs_ok. split_and!; [done|done|by apply owned_insert| |].
  - exists [], []. split_and!; [|done|cbn; set_solver]. split; [done|cbn; unfold cells_need; cbn; lia|constructor|constructor|apply NoDup_singleton|left; eauto].
  - apply map_eq. intros x. rewrite outside_lookup. case_decide as Hx.
    + by apply elem_of_singleton in Hx as ->.
    + rewrite lookup_insert_ne; [done|]. intros ->. by apply Hx, elem_of_singleton.
Qed.

(** The rows of the tree after the new cell went in at its place. *)
Lemma rows_of_insert m m1 m' t t' rs ovf rowid payload cell pgs A B :
  rows_of ps u m t rs ovf → same_off pgs m m1 → updated ps u m1 m' (pages t) (root_of t) t' →
  (∀ n, n ∈ pgs → m !! n = None) → row_in (in_map m1) u cell (rowid, payload) pgs →
  rows t = A ++ B → rows t' = A ++ cell :: B → filled t' →
  ∃ rs' ovf', rows_of ps u m' t' rs' ovf' ∧ rs' ≡ₚ (rowid, payload) :: rs ∧ concat ovf' ≡ₚ pgs ++ concat ovf.
Proof.
  intros [Hat Hwf Hs Hr Hnd _] Hsm1 Hup Hfr Hcell HA HB Hfill. rewrite HA in Hr. pose proof (up_agree _ _ _ _ _ _ _ Hup) as up_agree. destruct Hup.
  assert (Hag1 : agree_off [] m m1) by (eapply same_agree; [exact Hsm1|]; intros n Hn; right; by apply Hfr).
  apply Forall3_app_inv_l in Hr as (rsA & rsB & ovA & ovB & -> & -> & HrA & HrB).
  assert (Hpg : ∀ n, n ∈ concat (ovA ++ ovB) → is_Some (m !! n)).
  { intros n. rewrite concat_app, elem_of_app. intros [H2|H2]; [exact (rows_pages _ _ _ _ _ _ HrA H2)|exact (rows_pages _ _ _ _ _ _ HrB H2)]. }
  apply NoDup_app in Hnd as (Hnd1 & Hdis & Hnd2).
  assert (Hag : agree_off (pages t) m m').
  { eapply agree_trans; [exact Hag1|exact up_agree|by intros n ?%not_elem_of_nil|intros n Hn; by left]. }
  assert (Hpgs : ∀ n, n ∈ pgs → n ∉ pages t).
  { intros n Hn Hin. destruct (tree_at_pages _ _ _ _ Hat Hin) as [b Hb]. rewrite (Hfr n Hn) in Hb. done. }
  assert (Hperm : concat (ovA ++ pgs :: ovB) ≡ₚ pgs ++ concat (ovA ++ ovB)).
  { rewrite !concat_app. cbn. solve_Permutation. }
  exists (rsA ++ (rowid, payload) :: rsB), (ovA ++ pgs :: ovB). split_and!; [|symmetry; apply Permutation_middle|done].
  split; try done.
  - rewrite HB. apply Forall3_app; [|constructor].
    + eapply rows_agree; [exact Hag| |exact HrA]. intros n Hn Hin. apply (Hdis n Hin). rewrite concat_app. by apply elem_of_app; left.
    + eapply row_in_agree; [exact up_agree| |exact Hcell]. intros n Hn. split; [by apply Hpgs|by eapply row_in_pages].
    + eapply rows_agree; [exact Hag| |exact HrB]. intros n Hn Hin. apply (Hdis n Hin). rewrite concat_app. by apply elem_of_app; right.
  - rewrite Hperm. pose proof Hcell as (x & _ & _ & _ & Hndp & _). apply NoDup_app. split_and!; [done| |apply NoDup_app; split_and!; [done| |done]].
    + intros n Hn Hin. assert (Hm1 : is_Some (m1 !! n)).
      { apply elem_of_app in Hin as [Hin|Hin]; [by eapply row_in_pages|]. destruct (Hpg n Hin) as [b Hb]. exists b. apply Hag1; [apply not_elem_of_nil|done]. }
      destruct (up_pages n Hn) as [Ht|Hno]; [|by rewrite Hno in Hm1; destruct Hm1].
      apply elem_of_app in Hin as [Hin|Hin]; [by apply (Hpgs n)|by apply (Hdis n)].
    + intros n Hn Hin. destruct (Hpg n Hin) as [b Hb]. rewrite (Hfr n Hn) in Hb. done.
Qed.

Lemma leads_rows rowid t z pn cells : leads_to rowid t z pn cells → rows t = lrows z ++ cells ++ rrows z.
Proof.
  intros (-> & _). rewrite rows_groups, groups_plug, !concat_app. cbn. by rewrite app_nil_r.
Qed.

Lemma leaf_rowids rowid (ls : list (Z * list bytes)) :
  rowid ∈ map cell_rowid (concat ls.*2) → ∃ p g c, (p, g) ∈ ls ∧ c ∈ g ∧ cell_rowid c = rowid.
Proof.
  intros (c & -> & Hc)%list_elem_of_fmap. apply list_elem_of_In, in_concat in Hc as (g & Hg & Hc).
  apply list_elem_of_In, list_elem_of_fmap in Hg as ([p g'] & -> & Hp). exists p, g', c. split_and!; [done|by apply list_elem_of_In|done].
Qed.

(** The rowid is in the tree exactly when it is in the leaf the descent ends in. *)
Lemma leads_member rowid t z pn cells :
  leads_to rowid t z pn cells → rowid ∈ map cell_rowid (rows t) ↔ rowid ∈ map cell_rowid cells.
Proof.
  intros Hl. rewrite (leads_rows _ _ _ _ _ Hl). rewrite !map_app, !elem_of_app. split; [|by right; left].
  destruct Hl as (-> & Hlt & Hgt). rewrite Forall_forall in Hlt, Hgt.
  intros [Hin|[Hin|Hin]]; [exfalso|done|exfalso]; apply leaf_rowids in Hin as (p & g & c & Hp & Hc & <-).
  - pose proof (Hlt _ (lleaf_codes _ _ _ _ Hp Hc)). lia.
  - pose proof (Hgt _ (rleaf_codes _ _ _ _ Hp Hc)). lia.
Qed.

Abbreviation ovf_count bs := (length (overflow_chunks u bs)).

(** The pages of the new table are the old ones and fresh ones. *)
Lemma insert_outside m m1 m' t t' pgs (ovf ovf' : list (list Z)) :
  tree_at u (in_map m) t → same_off pgs m m1 → (∀ n, n ∈ pgs → m !! n = None ∧ is_Some (m1 !! n)) →
  updated ps u m1 m' (pages t) (root_of t) t' → concat ovf' ≡ₚ pgs ++ concat ovf →
  outside (list_to_set (pages t' ++ concat ovf')) m' = outside (list_to_set (pages t ++ concat ovf)) m.
Proof.
  intros Ht Hs1 Hfr [] Hp. apply map_eq. intros n. rewrite !outside_lookup.
  set (P := list_to_set (pages t ++ concat ovf) : gset Z). set (P' := list_to_set (pages t' ++ concat ovf') : gset Z).
  assert (HP : n ∈ P ↔ n ∈ pages t ∨ n ∈ concat ovf) by (unfold P; by rewrite elem_of_list_to_set, elem_of_app).
  assert (HP' : n ∈ P' ↔ n ∈ pages t' ∨ n ∈ pgs ∨ n ∈ concat ovf) by (unfold P'; by rewrite elem_of_list_to_set, elem_of_app, Hp, elem_of_app).
  specialize (up_old n). specialize (up_pages n). destruct (decide (n ∈ pgs)) as [Hin|Hin].
  { rewrite decide_True by tauto. destruct (Hfr n Hin) as [-> _]. by case_decide. }
  destruct (decide (n ∈ P)) as [Ho|Ho]; [by rewrite decide_True by tauto|].
  rewrite <- (Hs1 n Hin). case_decide as Hn'; [|apply up_same; tauto].
  destruct up_pages as [?|?]; [tauto|tauto|done].
Qed.

Section row.
Context (m T : gmap Z bytes) (t : tree) (P : gset Z) (rowid : Z) (payload : bytes).
Hypotheses (Ho : owned m) (Ht : table_of ps u m t T P) (Hmax : 4 * Z.of_nat (size T) + 4 ≤ MAX_PAGES_VISITED)
  (Hrow : row_ok u (rowid, payload)).

Lemma insert_runs k :
  T !! rowid = None →
  runs (insert_row header (root_of t) rowid payload) m (ovf_count payload + (6 * size T + 9 + k))
    (λ _ m' k', (k ≤ k')%nat ∧ owned m' ∧ ∃ t' P', root_of t' = root_of t ∧
         table_of ps u m' t' (<[rowid := payload]> T) P' ∧ outside P' m' = outside P m).
Proof.
  intros Hnew. apply (table_of_keys _ _ _ _ _ _ _ Ht) in Hnew. pose proof (table_of_pages _ _ _ _ _ _ Ht) as Hpgs.
  pose proof Ht as (rs & ovf & Hro & -> & ->). pose proof Hro as [Hat Hwf Hs Hr Hndp Hfill].
  unfold insert_row. apply runs_bind. eapply runs_mono; [by apply (encode_leaf_cell_ok ps u Hps Hu)|].
  intros cell m1 k1 (-> & Ho1 & Htc & Hcr & Hcl & pgs & _ & Hfr & Hsm1 & Hin).
  assert (Hag1 : agree_off [] m m1) by (eapply same_agree; [exact Hsm1|]; intros n Hn; right; by apply Hfr).
  assert (Hat1 : tree_at u (in_map m1) t) by (eapply tree_at_agree; [exact Hag1|intros n _; apply not_elem_of_nil|exact Hat]).
  apply runs_bind. eapply runs_mono; [apply (find_leaf_page_ok ps u t rowid); [done|done|lia]|].
  intros r m2 k2 (-> & -> & z & pn & cells & Hlead & ->). cbn [fst snd].
  rewrite (leads_member _ _ _ _ _ Hlead) in Hnew. pose proof (leads_rows _ _ _ _ _ Hlead) as Hrows.
  pose proof Hlead as (Heq & _). pose proof Hndp as (Hndt & _)%NoDup_app.
  rewrite Heq in Hat1, Hlead, Hs, Hwf, Hndt, Hpgs, Hfill |- *. destruct (filled_around _ _ _ Hfill) as [Hfl Hfr'].
  pose proof (tree_at_sub _ _ _ _ Hat1) as (buf & Hb%in_map_Ok & _). destruct (Ho1 pn buf Hb) as [_ Hbl].
  apply runs_bind. eapply runs_peek; [exact Hb|done|]. rewrite Hbl.
  eapply (runs_less ps _ _ _ (3 * length (pages (plug z (Leaf pn cells))) + 6 + k)); [lia|].
  eapply runs_mono; [apply insert_into_leaf_ok; try done; lia|]. rewrite <- Heq in *.
  intros _ m' k' (Hk & t' & hs & Hup & Hgs & Hcat & Hhs). split_and!; [done|by apply Hup|].
  assert (Hrows' : rows t' = lrows z ++ concat hs ++ rrows z) by (by rewrite rows_groups, Hgs, !concat_app).
  rewrite Hcat in Hrows'. unfold insert_at in Hrows'.
  destruct (rows_of_insert m m1 m' t t' rs ovf rowid payload cell pgs (lrows z ++ take (first_gt rowid cells) cells)
    (drop (first_gt rowid cells) cells ++ rrows z)) as (rs' & ovf' & Hro' & Hperm & Hperm'); try done.
  - rewrite Hrows, <- !(assoc_L (++)), (assoc_L (++) (take _ _)), take_drop. done.
  - by rewrite Hrows', <- !(assoc_L (++)).
  - right. rewrite Hgs, !Forall_app. tauto.
  - exists t', (list_to_set (pages t' ++ concat ovf')). split_and!; [apply Hup| |].
    + exists rs', ovf'. split_and!; [done| |done]. rewrite <- list_to_map_cons. symmetry. apply list_to_map_proper; [|done].
      apply (rows_of_keys _ _ _ _ _ _ Hro').
    + eapply insert_outside; [exact Hat|exact Hsm1| |exact Hup|exact Hperm']. intros n Hn. split; [by apply Hfr|by eapply row_in_pages].
Qed.

(** A duplicate is refused, but the overflow pages stay allocated. *)
Lemma insert_raises k old :
  T !! rowid = Some old →
  raises ps (insert_row header (root_of t) rowid payload) m (ovf_count payload + k) (DuplicateRowid rowid)
    (λ m' k', k' = k ∧ owned m' ∧ table_of ps u m' t T P ∧
       ∃ pgs, length pgs = ovf_count payload ∧ NoDup pgs ∧ (∀ n, n ∈ pgs → m !! n = None ∧ is_Some (m' !! n)) ∧ same_off pgs m m').
Proof.
  intros Hold. assert (Hin : rowid ∈ map cell_rowid (rows t)).
  { destruct (decide (rowid ∈ map cell_rowid (rows t))) as [|Hno]; [done|].
    apply (table_of_keys _ _ _ _ _ _ _ Ht) in Hno. congruence. }
  pose proof (table_of_pages _ _ _ _ _ _ Ht) as Hpgs. pose proof Ht as (rs & ovf & Hro & -> & ->). pose proof Hro as [Hat Hwf Hs Hr Hndp Hfill].
  unfold insert_row. apply raises_then. eapply runs_mono; [by apply (encode_leaf_cell_ok ps u Hps Hu)|].
  intros cell m1 k1 (-> & Ho1 & Htc & Hcr & Hcl & pgs & Hlen & Hfr & Hsm1 & Hri).
  assert (Hag1 : agree_off [] m m1) by (eapply same_agree; [exact Hsm1|]; intros n Hn; right; by apply Hfr).
  assert (Hat1 : tree_at u (in_map m1) t) by (eapply tree_at_agree; [exact Hag1|intros n _; apply not_elem_of_nil|exact Hat]).
  apply raises_then. eapply runs_mono; [apply (find_leaf_page_ok ps u t rowid); [done|done|lia]|].
  intros r m2 k2 (-> & -> & z & pn & cells & Hlead & ->). cbn [fst snd]. rewrite (leads_member _ _ _ _ _ Hlead) in Hin.
  pose proof Hlead as (Heq & _). pose proof Hat1 as Hatz. rewrite Heq in Hatz.
  pose proof (tree_at_sub _ _ _ _ Hatz) as (buf & Hb%in_map_Ok & Hleaf).
  apply raises_then. eapply runs_peek; [exact Hb|done|]. unfold insert_into_leaf. apply raises_first.
  eapply raises_edit; [exact Hb| |].
  { unfold place_in_leaf, b_bind, b_get. by rewrite (scan_leaf_dup u buf _ cells pn Hleaf rowid Hin). }
  split_and!; [done|done| |].
  - exists rs, ovf. split_and!; [|done|done]. split; try done. eapply rows_agree; [exact Hag1|intros n _; apply not_elem_of_nil|done].
  - exists pgs. pose proof Hri as (x & _ & _ & _ & Hndpg & _). split_and!; try done.
    intros n Hn. split; [by apply Hfr|by eapply row_in_pages].
Qed.
End row.
End insertion.

(** ** Deletion *)

Section deletion.
Context `{PageStoreSpec St} (ps : Z) (header : DatabaseHeader).
Abbreviation u := (usable_page_size header).
Implicit Types (m T : gmap Z bytes) (k : nat) (t : tree).

Abbreviation runs c m k Q := (BtreeStore.runs ps c m k Q).
Abbreviation owned m := (BtreeInsertProof.owned ps m).

(** [t'] is [t] without a cell whose overflow was on [pgs], and what it does
    not need any more is given back. *)
Record shrunk m m' t (pgs : list Z) t' : Prop := {
  sh_at : tree_at u (in_map m') t';
  sh_wf : wf ps t';
  sh_nodup : NoDup (pages t');
  sh_codes : codes t' `sublist_of` codes t;
  sh_pages : ∀ n, n ∈ pages t' → n ∈ pages t;
  sh_same : same_off (pages t ++ pgs) m m';
  sh_gone : ∀ n, n ∈ pages t ++ pgs → n ∉ pages t' → m' !! n = None;
  sh_filled : filled t';
}.

Lemma shrunk_outside m m' t t' pgs (ovf ovf' : list (list Z)) :
  shrunk m m' t pgs t' → concat ovf ≡ₚ pgs ++ concat ovf' → NoDup (pages t ++ concat ovf) →
  outside (list_to_set (pages t' ++ concat ovf')) m' = outside (list_to_set (pages t ++ concat ovf)) m.
Proof.
  intros [] Hp Hnd. rewrite Hp in Hnd. apply NoDup_app in Hnd as (_ & Hdis & (_ & Hdo & _)%NoDup_app).
  apply map_eq. intros n. rewrite !outside_lookup. specialize (sh_pages0 n). specialize (sh_gone0 n). specialize (sh_same0 n).
  set (P := list_to_set (pages t ++ concat ovf) : gset Z). set (P' := list_to_set (pages t' ++ concat ovf') : gset Z).
  assert (HP : n ∈ P ↔ n ∈ pages t ∨ n ∈ pgs ∨ n ∈ concat ovf') by (unfold P; by rewrite elem_of_list_to_set, elem_of_app, Hp, elem_of_app).
  assert (HP' : n ∈ P' ↔ n ∈ pages t' ∨ n ∈ concat ovf') by (unfold P'; by rewrite elem_of_list_to_set, elem_of_app).
  rewrite elem_of_app in sh_gone0, sh_same0. destruct (decide (n ∈ P)) as [Hn|Hn]; case_decide as Hn'; try done; [|tauto|].
  - apply sh_gone0; tauto.
  - apply sh_same0. tauto.
Qed.

Lemma shrunk_table m m' t t' rs ovf A B c r pgs rsA rsB ovA ovB :
  rows_of ps u m t rs ovf → shrunk m m' t pgs t' → rows t = A ++ c :: B → rows t' = A ++ B →
  rs = rsA ++ r :: rsB → ovf = ovA ++ pgs :: ovB → length A = length rsA → length A = length ovA →
  table_of ps u m' t' (delete r.1 (list_to_map rs)) (list_to_set (pages t' ++ concat (ovA ++ ovB))) ∧
  outside (list_to_set (pages t' ++ concat (ovA ++ ovB))) m' = outside (list_to_set (pages t ++ concat ovf)) m.
Proof.
  intros Hro Hsh HA HB -> -> HlA HlO. pose proof (rows_of_keys _ _ _ _ _ _ Hro) as Hk. destruct Hro as [Hat Hwf Hs Hr Hnd _].
  assert (Hp : concat (ovA ++ pgs :: ovB) ≡ₚ pgs ++ concat (ovA ++ ovB)) by (rewrite !concat_app; cbn; solve_Permutation).
  split; [|by eapply shrunk_outside]. pose proof Hsh as []. rewrite HA in Hr.
  apply Forall3_app_inv_l in Hr as (rsA' & rsB' & ovA' & ovB' & Hrs & Hov & HrA & HrB).
  pose proof (Forall3_length_lm _ _ _ _ HrA) as HlA'. pose proof (Forall3_length_lr _ _ _ _ HrA) as HlO'.
  apply app_inj_1 in Hrs as [<- <-]; [|lia]. apply app_inj_1 in Hov as [<- <-]; [|lia].
  apply Forall3_cons_inv_l in HrB as (r' & rsB' & pgs' & ovB' & [= <- <-] & [= <- <-] & _ & HrB).
  pose proof Hnd as Hnd0. rewrite Hp, (assoc_L (++)) in Hnd0. apply NoDup_app in Hnd0 as (_ & Hdis & Hndo).
  assert (Hkeep : Forall3 (row_in (in_map m') u) (A ++ B) (rsA ++ rsB) (ovA ++ ovB)).
  { eapply rows_agree; [by eapply (same_agree _ (pages t ++ pgs)); [|left]| |by apply Forall3_app].
    intros n Hn Hin. by apply (Hdis n). }
  exists (rsA ++ rsB), (ovA ++ ovB). split_and!; [split| |done].
  - done.
  - done.
  - by eapply sorted_sublist.
  - by rewrite HB.
  - apply NoDup_app. split_and!; [done| |done]. intros n Hn Hin. apply (Hdis n); [apply elem_of_app; left; by apply sh_pages0|done].
  - done.
  - rewrite fmap_app in Hk. cbn in Hk. rewrite <- Permutation_middle in Hk. apply NoDup_cons in Hk as [Hk1 Hk2].
    rewrite (list_to_map_proper (rsA ++ r :: rsB) ((r.1, r.2) :: rsA ++ rsB)).
    + rewrite list_to_map_cons, delete_insert_id; [done|]. apply not_elem_of_list_to_map. by rewrite fmap_app.
    + rewrite fmap_app. cbn. rewrite <- Permutation_middle. by constructor.
    + destruct r. by rewrite <- Permutation_middle.
Qed.

Hypotheses (Hps : 512 ≤ ps ≤ 32768) (Hu : 35 ≤ u ≤ ps).

Section row.
Context (z : list zframe) (pn : Z) (cells : list bytes) (j : nat) (c : bytes) (r : Z * bytes) (pgs : list Z) (m : gmap Z bytes) (buf : bytes).
Abbreviation t0 := (plug z (Leaf pn cells)).
Hypotheses (Ho : owned m) (Ht : tree_at u (in_map m) t0) (Hw : wf ps t0) (Hnd : NoDup (pages t0 ++ pgs))
  (Hb : m !! pn = Some buf) (Hj : cells !! j = Some c) (Hri : row_in (in_map m) u c r pgs) (Hfill : filled t0).

(** The leaf keeps its page: the cell is spliced out. *)
Lemma shrink_leaf buf' m' :
  table_leaf u 0 (delete j cells) buf' → zlen buf' = ps → without pgs (<[pn := buf']> m) m' → (1 < length cells)%nat ∨ z = [] →
  shrunk m m' t0 pgs (plug z (Leaf pn (delete j cells))).
Proof.
  intros Hl Hlb Hwo Hbig. pose proof Hnd as (Hndt & Hdis & _)%NoDup_app. destruct (Ho pn buf Hb) as [Hpn _].
  pose proof Hndt as Hndt'. rewrite pages_plug in Hndt'. apply NoDup_app in Hndt' as (_ & Hzd & _).
  assert (Hp0 : pn ∈ pages t0) by (rewrite pages_plug; apply elem_of_app; right; left).
  pose proof (wf_sub _ _ _ Hw) as Hwl. cbn in Hwl. pose proof (plug_pages_same z pn cells (delete j cells)) as Hpp. split.
  - eapply tree_at_replace; [exact Ht|done| |].
    + intros n Hn. unfold in_map. assert (Hn0 : n ∈ pages t0) by (rewrite pages_plug; apply elem_of_app; by left).
      rewrite (without_other _ _ _ n Hwo) by (by apply Hdis). rewrite lookup_insert_ne; [done|]. intros <-. apply (Hzd pn Hn). left.
    + exists buf'. rewrite header_start_0 by lia. split; [|done]. apply in_map_Ok.
      rewrite (without_other _ _ _ pn Hwo) by (by apply Hdis). apply lookup_insert_eq.
  - eapply wf_replace; [exact Hw|done|]. cbn. rewrite delete_take_drop, cells_need_app.
    rewrite <- (take_drop_middle cells j c Hj), cells_need_app, cells_need_cons in Hwl. lia.
  - by rewrite Hpp.
  - rewrite !codes_plug. cbn [codes]. apply sublist_app; [done|]. apply sublist_app; [|done].
    rewrite delete_take_drop. rewrite <- (take_drop_middle cells j c Hj) at 3. rewrite !map_app.
    apply sublist_app; [done|]. by apply sublist_cons.
  - intros n. by rewrite Hpp.
  - intros n. rewrite elem_of_app. intros Hn. rewrite (without_other _ _ _ n Hwo) by tauto.
    rewrite lookup_insert_ne; [done|]. intros <-. tauto.
  - intros n. rewrite Hpp, elem_of_app. intros Hn Hn'. rewrite (Hwo n). rewrite decide_True; [done|tauto].
  - destruct Hbig as [Hbig|Hz]; [right|left; rewrite Hz; cbn; eauto]. rewrite groups_plug, !Forall_app.
    destruct (filled_around _ _ _ Hfill) as [? ?]. split_and!; [done| |done]. constructor; [|constructor].
    cbn. intros Hnil. apply (f_equal length) in Hnil. rewrite length_delete in Hnil by eauto. cbn in Hnil. lia.
Qed.

(** The leaf goes, and its parent with it if that has one child left. *)
Lemma shrink_collapse f z' m1 m' t' :
  z = f :: z' → without (pn :: pgs) m m1 →
  collapsed ps u m1 m' (fpages f ++ zpages z') (root_of t0) (lcodes z ++ rcodes z) (lgroups z ++ rgroups z) t' →
  shrunk m m' t0 pgs t'.
Proof.
  intros Hz Hwo [].
  assert (Hzp : zpages z = fpages f ++ zpages z') by (by rewrite Hz).
  split; try done.
  - rewrite codes_plug. etrans; [exact co_codes|]. apply sublist_app; [done|]. by apply sublist_inserts_l.
  - intros n Hn. rewrite pages_plug. apply elem_of_app. left. rewrite Hzp. by apply co_pages.
  - intros n. rewrite pages_plug, !elem_of_app. cbn [pages]. intros Hn.
    rewrite co_keep by (rewrite <- Hzp; tauto). apply (without_other _ _ _ n Hwo). rewrite elem_of_cons. intros [->|?]; [|tauto].
    apply Hn. left. right. left.
  - intros n Hn Hn'. rewrite pages_plug in Hn. cbn [pages] in Hn. destruct (decide (n ∈ zpages z)) as [Hin|Hin].
    + apply co_gone; [by rewrite <- Hzp|done].
    + rewrite co_keep by (by rewrite <- Hzp). rewrite (Hwo n), decide_True; [done|].
      rewrite !elem_of_app, list_elem_of_singleton in Hn. rewrite elem_of_cons. tauto.
  - right. rewrite co_groups, Forall_app. by eapply filled_around.
Qed.

(** The whole of the work below the root: either case of [delete_row]. *)
Lemma delete_below k :
  NoDup (map cell_rowid cells) → r.1 = cell_rowid c →
  runs (let+ x := bm_edit pn (delete_from_leaf u 0 pn r.1 (bool_decide (zpath z = []))) in
        let '(overflow_page, emptied) := x in
        if (emptied : bool) then
          let+ _ := bm_free pn in
          let+ _ := free_overflow_chain overflow_page in
          collapse_into_ancestors u (root_of t0) (rev (zpath z)) pn
        else free_overflow_chain overflow_page) m k
    (λ _ m' k', k' = k ∧ owned m' ∧ ∃ t', root_of t' = root_of t0 ∧ shrunk m m' t0 pgs t' ∧
       rows t' = (lrows z ++ take j cells) ++ drop (S j) cells ++ rrows z).
Proof.
  intros Hndc Hrow. destruct (Ho pn buf Hb) as [Hpn Hbl]. pose proof (tree_at_sub _ _ _ _ Ht) as (buf0 & Hb0%in_map_Ok & Hleaf).
  rewrite Hb in Hb0. injection Hb0 as <-. rewrite header_start_0 in Hleaf by lia. pose proof Hnd as (Hndt & Hdis & Hndp)%NoDup_app.
  assert (Hp0 : pn ∈ pages t0) by (rewrite pages_plug; apply elem_of_app; right; left).
  destruct (delete_from_leaf_ok u pn cells buf j c (hd 0 pgs) (bool_decide (zpath z = []))) as (buf' & Hlb & Hdel);
    [done|lia|lia|done|by eapply row_overflow_ptr|done|]. rewrite Hrow. apply runs_bind.
  assert (Hri' : row_in (in_map (<[pn := buf']> m)) u c r pgs).
  { eapply row_in_ext; [|exact Hri]. intros n Hn. unfold in_map. rewrite lookup_insert_ne; [done|]. intros <-. by apply (Hdis pn). }
  case_decide as Hd.
  - destruct Hdel as [Hdel Hl']. eapply runs_edit; [exact Hb|exact Hdel|done|]. cbv iota beta.
    eapply runs_mono; [by apply (free_row_ok ps u c r pgs)|]. intros _ m' k' [-> Hwo]. split_and!; [done| |].
    + eapply without_owned; [exact Hwo|]. apply owned_insert; [done|done|lia].
    + exists (plug z (Leaf pn (delete j cells))). split_and!; [by apply root_of_plug|apply (shrink_leaf buf'); [done|lia|done|]|].
      * destruct Hd as [Hd|Hd%bool_decide_eq_true_1]; [left; lia|right].
        unfold zpath in Hd. apply (f_equal length) in Hd. rewrite length_rev, length_map in Hd. by apply nil_length_inv.
      * rewrite rows_groups, groups_plug, !concat_app. cbn. rewrite delete_take_drop, app_nil_r. by rewrite <- !(assoc_L (++)).
  - eapply runs_edit; [exact Hb|exact Hdel|done|]. cbv iota beta.
    assert (Hcells : cells = [c] ∧ j = 0%nat).
    { pose proof (lookup_lt_Some _ _ _ Hj). destruct cells as [|c0 [|]]; cbn in *; [lia| |lia]. destruct j; [by simplify_eq/=|done]. }
    destruct Hcells as [Hcells Hj0].
    apply runs_bind. eapply runs_free; [by rewrite lookup_insert_eq|]. rewrite delete_insert_eq. apply runs_bind.
    eapply runs_mono; [apply (free_row_ok ps u c r pgs); eapply row_in_ext; [|exact Hri]|].
    { intros n Hn. unfold in_map. rewrite lookup_delete_ne; [done|]. intros <-. by apply (Hdis pn). }
    intros _ m1 k1 [-> Hwo%without_delete].
    assert (Ho1 : owned m1) by (by eapply without_owned).
    rewrite zpath_rev. assert (Hz : z = [] ∨ ∃ f z', z = f :: z') by (destruct z; [by left|right; eauto]).
    destruct Hz as [Hz|(f & z' & Hz)]; [exfalso; apply Hd; right; rewrite Hz; by apply bool_decide_eq_true_2|].
    assert (Hzp : zpages z = fpages f ++ zpages z') by (by rewrite Hz).
    eapply runs_mono.
    { rewrite Hz. eapply (collapse_ok ps u ltac:(lia) f z' (Leaf pn cells) m m1).
      - by rewrite Hz in Ht.
      - by rewrite Hz in Hw.
      - by rewrite Hz in Hndt.
      - done.
      - rewrite <- Hzp. intros n Hn. apply (without_other _ _ _ n Hwo). rewrite elem_of_cons. pose proof Hndt as Hx.
        rewrite pages_plug in Hx. apply NoDup_app in Hx as (_ & Hzd & _). intros [->|Hin]; [apply (Hzd pn Hn); left|].
        apply (Hdis n); [|done]. rewrite pages_plug. apply elem_of_app. by left. }
    intros _ m' k' (-> & t' & Hco). split_and!; [done|by destruct Hco|]. exists t'.
    change (plug z' (plug1 f (Leaf pn cells))) with (plug (f :: z') (Leaf pn cells)) in Hco. rewrite <- Hz in Hco.
    split_and!; [by destruct Hco|by eapply shrink_collapse|]. rewrite rows_groups, (co_groups _ _ _ _ _ _ _ _ _ Hco), concat_app, Hcells, Hj0. cbn. by rewrite app_nil_r.
Qed.
End row.

Section table_row.
Context (m T : gmap Z bytes) (t : tree) (P : gset Z) (rowid : Z).
Hypotheses (Ho : owned m) (Ht : table_of ps u m t T P) (Hmax : 2 * Z.of_nat (size T) + 1 ≤ MAX_PAGES_VISITED).

Lemma delete_runs k old :
  T !! rowid = Some old →
  runs (delete_row header (root_of t) rowid) m k
    (λ _ m' k', k' = k ∧ owned m' ∧ ∃ t' P', root_of t' = root_of t ∧
       table_of ps u m' t' (delete rowid T) P' ∧ outside P' m' = outside P m).
Proof.
  intros Hold. assert (Hin : rowid ∈ map cell_rowid (rows t)).
  { destruct (decide (rowid ∈ map cell_rowid (rows t))) as [|Hno]; [done|].
    apply (table_of_keys _ _ _ _ _ _ _ Ht) in Hno. congruence. }
  pose proof (table_of_pages _ _ _ _ _ _ Ht) as Hpgs. pose proof Ht as (rs & ovf & Hro & -> & ->). pose proof Hro as [Hat Hwf Hs Hr Hndp Hfill].
  unfold delete_row. apply runs_bind. eapply runs_mono; [apply (find_leaf_page_ok ps u t rowid); [done|done|lia]|].
  intros x m2 k2 (-> & -> & z & pn & cells & Hlead & ->). cbv iota beta.
  rewrite (leads_member _ _ _ _ _ Hlead) in Hin. pose proof (leads_rows _ _ _ _ _ Hlead) as Hrows. pose proof Hlead as (Heq & _).
  apply list_elem_of_fmap in Hin as (c & Hrow & (j & Hj)%list_elem_of_lookup).
  rewrite <- (take_drop_middle cells j c Hj) in Hrows.
  assert (Hrows' : rows t = (lrows z ++ take j cells) ++ c :: drop (S j) cells ++ rrows z) by (rewrite Hrows; by rewrite <- !(assoc_L (++))).
  pose proof Hr as Hr0. rewrite Hrows' in Hr0. apply Forall3_app_inv_l in Hr0 as (rsA & rsB & ovA & ovB & Hrs & Hov & HrA & HrB).
  apply Forall3_cons_inv_l in HrB as (r & rsB' & pgs & ovB' & -> & -> & Hri & _).
  pose proof (row_in_rowid _ _ _ _ _ Hri) as Hrr. rewrite Hrr in Hrow. subst rowid.
  assert (Hndt : NoDup (pages t ++ pgs)).
  { rewrite Hov, concat_app in Hndp. cbn in Hndp. rewrite (Permutation_app_swap_app (concat ovA)), (assoc_L (++)) in Hndp.
    by apply NoDup_app in Hndp as (? & _). }
  rewrite Heq in Hat, Hwf, Hndt, Hfill |- *. pose proof (tree_at_sub _ _ _ _ Hat) as (buf & Hb%in_map_Ok & _). destruct (Ho pn buf Hb) as [Hpn _].
  assert (Hndc : NoDup (map cell_rowid cells)).
  { apply sorted_nodup, codes_rowids. rewrite Heq, codes_plug in Hs. rewrite !sorted_app in Hs. tauto. }
  rewrite header_start_0 by lia. eapply runs_mono; [by apply (delete_below z pn cells j c r pgs m buf)|].
  intros _ m' k' (-> & Ho' & t' & Hroot & Hsh & Hrt). rewrite <- Heq in *. split_and!; [done|done|].
  destruct (shrunk_table m m' t t' rs ovf _ _ c r pgs rsA rsB' ovA ovB' Hro Hsh Hrows' Hrt) as [Htab Hout];
    [done|done|by eapply Forall3_length_lm|by eapply Forall3_length_lr|].
  exists t', (list_to_set (pages t' ++ concat (ovA ++ ovB'))). done.
Qed.

Lemma delete_raises k :
  T !! rowid = None →
  raises ps (delete_row header (root_of t) rowid) m k (RowidNotFound rowid) (λ m' k', m' = m ∧ k' = k).
Proof.
  intros Hno%(table_of_keys _ _ _ _ _ _ _ Ht). pose proof (table_of_pages _ _ _ _ _ _ Ht) as Hpgs.
  pose proof Ht as (rs & ovf & [Hat Hwf Hs Hr Hndp _] & _).
  unfold delete_row. apply raises_then. eapply runs_mono; [apply (find_leaf_page_ok ps u t rowid); [done|done|lia]|].
  intros x m2 k2 (-> & -> & z & pn & cells & Hlead & ->). cbv iota beta. rewrite (leads_member _ _ _ _ _ Hlead) in Hno.
  destruct Hlead as (Heq & _). rewrite Heq in Hat. pose proof (tree_at_sub _ _ _ _ Hat) as (buf & Hb%in_map_Ok & Hleaf).
  destruct (Ho pn buf Hb) as [Hpn _]. rewrite header_start_0 in Hleaf |- * by lia. apply raises_first.
  eapply raises_edit; [exact Hb|by apply (delete_from_leaf_none u pn cells)|done].
Qed.
End table_row.
End deletion.

(** ** Reading a table *)

Lemma codes_bounded (l : list Z) : ∃ lo hi, lo ≤ hi ∧ Forall (λ x, 2 * lo + 1 ≤ x ≤ 2 * hi + 1) l.
Proof.
  induction l as [|x l (lo & hi & Hle & Hall)]; [by exists 0, 0|]. exists (Z.min lo (x - Z.abs x - 1)), (Z.max hi (Z.abs x)).
  split; [lia|]. constructor; [lia|]. eapply Forall_impl; [exact Hall|]. cbn. intros; lia.
Qed.

(** Strictly increasing codes are what the search relies on. *)
Lemma codes_ordered lo hi t :
  sorted (codes t) → lo ≤ hi → Forall (λ x, 2 * lo + 1 ≤ x ≤ 2 * hi + 1) (codes t) → ordered lo hi t.
Proof.
  revert lo hi. induction t as [pn cells|pn kids rt Hk IHr] using tree_rect'; intros lo hi Hs Hlh Hb.
  - cbn [codes] in *. split; [by apply codes_rowids|]. rewrite Forall_fmap in Hb. eapply Forall_impl; [exact Hb|].
    cbn beta. unfold compose. intros; lia.
  - apply ordered_node. cbn [codes] in *. revert lo Hlh Hs Hb.
    induction Hk as [|k kids Hk1 _ IH]; intros lo Hlh Hs Hb; cbn [ordered_kids map concat app] in *; [by split; [|apply IHr]|].
    rewrite <- !(assoc_L (++)) in *. apply sorted_app in Hs as (Hs1 & Hs & H12). cbn [app] in *.
    apply StronglySorted_inv in Hs as [Hs Hgt]. apply Forall_app in Hb as [Hb1 [Hbk Hb2]%Forall_cons]. split_and!; [lia| |].
    + apply Hk1; [done|lia|]. rewrite Forall_forall in Hb1 |- *. intros x Hx. specialize (Hb1 x Hx).
      assert (x < 2 * k.1 + 1); [|lia]. apply H12; [done|left].
    + apply IH; [lia|done|]. rewrite Forall_forall in Hgt, Hb2 |- *. intros x Hx. specialize (Hgt x Hx). specialize (Hb2 x Hx). lia.
Qed.

Section reading.
Context `{PageSource Src} (src : Src) (ps : Z) (header : DatabaseHeader).
Abbreviation u := (usable_page_size header).
Implicit Types (m T : gmap Z bytes) (t : tree).

(** The source serves the pages of [m]. *)
Definition serves m : Prop := ∀ n b, m !! n = Some b → source_read_page src n = Ok b.

Lemma serves_tree m t : serves m → tree_at u (in_map m) t → tree_at u (source_read_page src) t.
Proof.
  intros Hm Ht. eapply tree_at_ext; [|exact Ht]. intros n Hn. destruct (tree_at_pages _ _ _ _ Ht Hn) as [b Hb].
  rewrite (Hm n b Hb). symmetry. by apply in_map_Ok.
Qed.

Lemma serves_row m c r pgs : serves m → row_in (in_map m) u c r pgs → row_payload src u c r.2.
Proof.
  intros Hm Hr. pose proof (row_in_rowid _ _ _ _ _ Hr) as Hk.
  apply (row_in_ext _ (source_read_page src)) in Hr as (n & Hd & Hn & Hmax & Hnd & Hl & Hg & Hc).
  - exists n. rewrite Hk. split_and!; [done|done|]. split_and!; [done|done|]. intros Hlt. rewrite decide_True in Hc by done.
    destruct Hc as [Hrd Hch]. by exists pgs.
  - intros x Hx. destruct (row_in_pages _ _ _ _ _ _ Hr Hx) as [b Hb]. rewrite (Hm x b Hb). symmetry. by apply in_map_Ok.
Qed.

Lemma serves_rows m cs rs ovf :
  serves m → Forall3 (row_in (in_map m) u) cs rs ovf → Forall2 (row_payload src u) cs rs.*2 ∧ row_pairs cs rs.*2 = rs.
Proof.
  intros Hm. induction 1 as [|c r o cs rs ovf Hr _ [IH1 IH2]]; [by split|]. cbn. split.
  - constructor; [by eapply serves_row|done].
  - unfold row_pairs in *. cbn. rewrite IH2. rewrite (row_in_rowid _ _ _ _ _ Hr). by destruct r.
Qed.

Lemma seek_refines m t T P rowid :
  table_of ps u m t T P → serves m → zlen (pages t) ≤ MAX_PAGES_VISITED →
  match T !! rowid with
  | Some bs => ∃ p, (seek_row src (TableCursor_new header (root_of t)) rowid).1 =
                 Ok (Some {| tr_rowid := rowid; tr_payload := p |}) ∧ payload_bytes p = bs
  | None => (seek_row src (TableCursor_new header (root_of t)) rowid).1 = Ok None
  end.
Proof.
  intros (rs & ovf & Hro & -> & _) Hm Hmax. pose proof (rows_of_keys _ _ _ _ _ _ Hro) as Hnd. destruct Hro as [Hat _ Hs Hr _ _].
  destruct (codes_bounded (codes t)) as (lo & hi & Hlh & Hb). destruct (serves_rows m _ _ _ Hm Hr) as [Hp Hrp].
  destruct (seek_row_ok src (TableCursor_new header (root_of t)) t rs.*2 lo hi rowid) as [Hnone Hsome]; try done.
  { by apply (serves_tree m). }
  { by apply codes_ordered. }
  rewrite Hrp in Hnone, Hsome. destruct (list_to_map rs !! rowid) as [bs|] eqn:E.
  - apply Hsome. by apply elem_of_list_to_map.
  - apply Hnone. by apply not_elem_of_list_to_map.
Qed.

Lemma scan_refines m t T P :
  table_of ps u m t T P → serves m → zlen (pages t) ≤ MAX_PAGES_VISITED →
  let c := TableCursor_new header (root_of t) in
  ∃ rs, sorted rs.*1 ∧ list_to_map rs = T ∧
    drain (next_row src) (S (size T)) (first_row src c) = Ok rs ∧
    drain (prev_row src) (S (size T)) (last_row src c) = Ok (rev rs).
Proof.
  intros (rs & ovf & Hro & -> & _) Hm Hmax c. pose proof (rows_of_keys _ _ _ _ _ _ Hro) as Hnd. destruct Hro as [Hat _ Hs Hr _ _].
  destruct (serves_rows m _ _ _ Hm Hr) as [Hp Hrp]. pose proof (serves_tree m t Hm Hat) as Ht.
  assert (Hsz : size (list_to_map rs : gmap Z bytes) = length (rows t)).
  { rewrite map_size_list_to_map by done. rewrite (Forall2_length _ _ _ Hp). by rewrite length_fmap. }
  exists rs. rewrite Hsz. split_and!; [rewrite (rows_keys _ _ _ _ _ Hr); by apply rows_codes|done| |]; rewrite <- Hrp at 1.
  - by apply (drain_fwd src u (rows t) rs.*2 (reset c false)); [apply first_ok|..].
  - by apply (drain_rev src u (rows t) rs.*2 (reset c true)); [apply last_ok|..].
Qed.
End reading.
