(* ===== verification/TableSession.v ===== *)
(** * Sessions on a table

    A client of a table b-tree inserts and deletes rows and looks them up.
    The abstract table is a finite map; every sequence of operations gives the
    results the map gives, also through the pager, and no page is lost. *)

From S2P Require Import Prelude Varint Record Vfs Header Freelist PageCache Lock Pager Commit Allocator BtreePage BtreeSplice BtreePayload BtreeCursor BtreeLeaf BtreeStore BtreeInsert BtreeSplit BtreeZip BtreeInsertProof BtreeInsertRow BtreeOverflow BtreeDelete BtreeDeleteProof BtreeTable.

(** ** Operations and their specification *)

Inductive table_op : Type :=
| TInsert (rowid : Z) (payload : bytes)
| TDelete (rowid : Z).

Definition spec_op (op : table_op) (T : gmap Z bytes) : result BtreeError () * gmap Z bytes :=
  match op with
  | TInsert rowid payload =>
      match T !! rowid with Some _ => (Err (DuplicateRowid rowid), T) | None => (Ok (), <[rowid := payload]> T) end
  | TDelete rowid =>
      match T !! rowid with Some _ => (Ok (), delete rowid T) | None => (Err (RowidNotFound rowid), T) end
  end.

Fixpoint spec_ops (ops : list table_op) (T : gmap Z bytes) : list (result BtreeError ()) * gmap Z bytes :=
  match ops with
  | [] => ([], T)
  | op :: ops => let '(r, T) := spec_op op T in let '(rs, T) := spec_ops ops T in (r :: rs, T)
  end.

Section run.
Context `{PageStore St} (header : DatabaseHeader) (root : Z).

Definition run_op (op : table_op) : BM St () :=
  match op with
  | TInsert rowid payload => insert_row header root rowid payload
  | TDelete rowid => delete_row header root rowid
  end.

(** A failed operation does not end the session. *)
Fixpoint run_ops (ops : list table_op) (s : St) : list (result BtreeError ()) * St :=
  match ops with
  | [] => ([], s)
  | op :: ops => let '(r, s) := run_op op s in let '(rs, s) := run_ops ops s in (r :: rs, s)
  end.
End run.

(** ** Budgets

    Pages an operation may ask for on a table of at most [n] rows. *)

Definition op_cost (u : Z) (n : nat) (op : table_op) : nat :=
  match op with TInsert _ payload => length (overflow_chunks u payload) + (6 * n + 9) | TDelete _ => 0 end.

Fixpoint ops_cost (u : Z) (n : nat) (ops : list table_op) : nat :=
  match ops with [] => 0 | op :: ops => op_cost u n op + ops_cost u (S n) ops end.

Definition op_ok (u : Z) (op : table_op) : Prop :=
  match op with TInsert rowid payload => row_ok u (rowid, payload) | TDelete _ => True end.

Lemma spec_op_size op T : (size (spec_op op T).2 ≤ S (size T))%nat.
Proof.
  destruct op as [r bs|r]; cbn; destruct (T !! r) as [x|] eqn:E; cbn; [lia| | |lia].
  - rewrite map_size_insert_None by done. lia.
  - rewrite map_size_delete, E. cbn. lia.
Qed.

(** ** One operation *)

Section session.
Context `{PageStoreSpec St} (ps : Z) (header : DatabaseHeader).
Abbreviation u := (usable_page_size header).
Implicit Types (m T : gmap Z bytes) (k : nat) (t : tree).

Hypotheses (Hps : 512 ≤ ps ≤ 32768) (Hu : 35 ≤ u ≤ ps).

(** What holds between operations. *)
Record session_at (s : St) m k t T (P : gset Z) : Prop := {
  sa_own : st_own s ps m k;
  sa_table : table_of ps u m t T P;
}.

Lemma session_owned s m k t T P : session_at s m k t T P → owned ps m.
Proof. intros [Hs _] n b Hn. by eapply own_page. Qed.

Lemma op_refines op s m k t T P n :
  session_at s m (op_cost u n op + k) t T P → (size T ≤ n)%nat → 4 * Z.of_nat n + 4 ≤ MAX_PAGES_VISITED → op_ok u op →
  ∃ s' m' k' t' P', run_op header (root_of t) op s = ((spec_op op T).1, s') ∧ (k ≤ k')%nat ∧
    session_at s' m' k' t' (spec_op op T).2 P' ∧ root_of t' = root_of t ∧ outside P m ⊆ outside P' m' ∧
    ((spec_op op T).1 = Ok () → outside P' m' = outside P m).
Proof.
  intros Hsa Hn Hmax Hok. pose proof (session_owned _ _ _ _ _ _ Hsa) as Ho. destruct Hsa as [Hs Ht].
  destruct op as [rowid payload|rowid]; cbn [run_op spec_op op_cost op_ok] in *; destruct (T !! rowid) as [old|] eqn:E; cbn [fst snd].
  - destruct (insert_raises ps header ltac:(lia) Hu m T t P rowid payload Ho Ht ltac:(lia) Hok (6 * n + 9 + k) old E s)
      as (m' & k' & s' & Hr & Hs' & -> & Ho' & Ht' & pgs & _ & _ & Hfr & Hsm); [eapply own_less; [exact Hs|lia]|].
    exists s', m', (6 * n + 9 + k)%nat, t, P. split_and!; [done|lia|done|done| |done].
    apply map_subseteq_spec. intros x b. rewrite !outside_lookup. case_decide; [done|]. intros Hx. rewrite Hsm; [done|].
    intros Hin. destruct (Hfr x Hin). congruence.
  - destruct (insert_runs ps header ltac:(lia) Hu m T t P rowid payload Ho Ht ltac:(lia) Hok k E s)
      as ([] & m' & k' & s' & Hr & Hs' & Hk & Ho' & t' & P' & Hroot & Ht' & Hout); [eapply own_less; [exact Hs|lia]|].
    exists s', m', k', t', P'. split_and!; [done|lia|done|done|by rewrite Hout|done].
  - destruct (delete_runs ps header Hps Hu m T t P rowid Ho Ht ltac:(lia) k old E s)
      as ([] & m' & k' & s' & Hr & Hs' & -> & Ho' & t' & P' & Hroot & Ht' & Hout); [done|].
    exists s', m', k, t', P'. split_and!; [done|lia|done|done|by rewrite Hout|done].
  - destruct (delete_raises ps header m T t P rowid Ho Ht ltac:(lia) k E s)
      as (m' & k' & s' & Hr & Hs' & -> & ->); [done|].
    exists s', m, k, t, P. split_and!; [done|lia|done|done|done|done].
Qed.

Lemma ops_refine ops s m k t T P n :
  session_at s m (ops_cost u n ops + k) t T P → (size T ≤ n)%nat →
  4 * Z.of_nat (n + length ops) ≤ MAX_PAGES_VISITED → Forall (op_ok u) ops →
  ∃ s' m' k' t' P', run_ops header (root_of t) ops s = ((spec_ops ops T).1, s') ∧ (k ≤ k')%nat ∧
    session_at s' m' k' t' (spec_ops ops T).2 P' ∧ root_of t' = root_of t ∧ outside P m ⊆ outside P' m' ∧
    (Forall (λ r, r = Ok ()) (spec_ops ops T).1 → outside P' m' = outside P m).
Proof.
  intros Hsa Hn Hmax Hok. revert s m t T P n Hsa Hn Hmax. induction Hok as [|op ops Hop _ IH]; intros s m t T P n Hsa Hn Hmax.
  { cbn. exists s, m, k, t, P. split_and!; try done. }
  cbn [ops_cost length] in *. rewrite <- Nat.add_assoc in Hsa.
  destruct (op_refines op s m (ops_cost u (S n) ops + k) t T P n) as (s1 & m1 & k1 & t1 & P1 & Hr1 & Hk1 & Hsa1 & Hroot1 & Hsub1 & Hout1);
    [done|done|lia|done|]. pose proof (spec_op_size op T) as Hsz.
  destruct (IH s1 m1 t1 (spec_op op T).2 P1 (S n)) as (s2 & m2 & k2 & t2 & P2 & Hr2 & Hk2 & Hsa2 & Hroot2 & Hsub2 & Hout2); [|lia|lia|].
  { destruct Hsa1 as [Hs1 ?]. split; [|done]. by eapply own_less. }
  exists s2, m2, k2, t2, P2. cbn [run_ops spec_ops]. rewrite Hr1. destruct (spec_op op T) as [r T1]. cbn [fst snd] in *.
  rewrite <- Hroot1, Hr2. destruct (spec_ops ops T1) as [rs T2]. cbn [fst snd] in *.
  split_and!; [done|lia|done|congruence|by etrans|]. intros [Hr Hrs]%Forall_cons. rewrite Hout2, Hout1; done.
Qed.
End session.

(** ** An example database

    One page, then a table on it. *)

Definition example_client : pager_client () := {| pc_pager := example_pager SyncFull ∅; pc_fs := example_fs |}.
Definition example_header : DatabaseHeader := page1_header 512.

Lemma example_usable : 35 ≤ usable_page_size example_header ≤ 512.
Proof. split; apply (bool_decide_unpack _); vm_compute; exact I. Qed.

Definition row_okb (u : Z) (r : Z * bytes) : bool :=
  bool_decide (i64_ok r.1) && forallb (λ b, bool_decide (0 ≤ b < 256)) r.2 && bool_decide (zlen r.2 ≤ MAX_PAYLOAD_LEN) &&
  bool_decide (zlen (overflow_chunks u r.2) ≤ MAX_PAGES_VISITED).

Lemma row_okb_ok u r : row_okb u r = true → row_ok u r.
Proof.
  unfold row_okb. rewrite !andb_true_iff, !bool_decide_eq_true. intros (((H1 & H2) & H3) & H4). split_and!; try done.
  rewrite forallb_forall in H2. apply Forall_forall. intros b Hb. apply list_elem_of_In in Hb. specialize (H2 b Hb).
  by apply bool_decide_eq_true_1 in H2.
Qed.

Definition op_okb (u : Z) (op : table_op) : bool :=
  match op with TInsert rowid payload => row_okb u (rowid, payload) | TDelete _ => true end.

Lemma ops_okb_ok u ops : forallb (op_okb u) ops = true → Forall (op_ok u) ops.
Proof.
  rewrite forallb_forall. intros Hall. apply Forall_forall. intros op Hop%list_elem_of_In%Hall.
  destruct op; [by apply row_okb_ok|done].
Qed.

(** The database after some operations on a new table. *)
Lemma example_session ops :
  Forall (op_ok (usable_page_size example_header)) ops → 4 * Z.of_nat (length ops) ≤ MAX_PAGES_VISITED →
  (ops_cost (usable_page_size example_header) 0 ops ≤ 1000)%nat →
  ∃ (c : pager_client ()) m t P, st_own c 512 m 1000 ∧ table_of 512 (usable_page_size example_header) m t (spec_ops ops ∅).2 P.
Proof.
  intros Hok Hl Hc.
  assert (Hown : st_own example_client 512 ∅ (S (ops_cost (usable_page_size example_header) 0 ops + 1000))).
  { split; [done|]. exists 1, []. split; [|unfold U32_MAX; lia]. split; [exact example_alloc_inv|]. intros n b Hn. by rewrite lookup_empty in Hn. }
  destruct (create_runs 512 example_header ltac:(lia) example_usable ∅ (ops_cost (usable_page_size example_header) 0 ops + 1000)%nat
    ltac:(intros ? ? Hn; by rewrite lookup_empty in Hn) _ Hown) as (root & m1 & k1 & c1 & Hcr & Hs1 & -> & _ & _ & Ht1 & _).
  destruct (ops_refine 512 example_header ltac:(lia) example_usable ops c1 m1 1000%nat (Leaf root []) ∅ {[root]} 0%nat)
    as (c2 & m2 & k2 & t2 & P2 & Hr & Hk & [Hs2 Ht2] & _); [by split|by rewrite map_size_empty|lia|done|].
  exists c2, m2, t2, P2. split; [by eapply own_less|done].
Qed.

(** Rows in rowid order are determined by their map. *)
Lemma sorted_rows_unique (rs rs' : list (Z * bytes)) :
  sorted rs.*1 → sorted rs'.*1 → (list_to_map rs : gmap Z bytes) = list_to_map rs' → rs = rs'.
Proof.
  intros Hs Hs' Hm. assert (Hp : rs ≡ₚ rs') by (apply list_to_map_inj; [by apply sorted_nodup|by apply sorted_nodup|done]).
  clear Hm. revert rs' Hs Hs' Hp. induction rs as [|r rs IH]; intros rs' Hs Hs' Hp; [by apply Permutation_nil in Hp|].
  destruct rs' as [|r' rs']; [by apply Permutation_nil_r in Hp|]. cbn in Hs, Hs'.
  apply StronglySorted_inv in Hs as [Hs Ha], Hs' as [Hs' Ha']. rewrite Forall_fmap, Forall_forall in Ha. rewrite Forall_fmap, Forall_forall in Ha'.
  assert (r = r') as <-.
  { assert (H1 : r ∈ r' :: rs') by (rewrite <- Hp; left). assert (H2 : r' ∈ r :: rs) by (rewrite Hp; left).
    apply elem_of_cons in H1. apply elem_of_cons in H2. destruct H1 as [?|H1]; [done|]. destruct H2 as [?|H2]; [done|]. specialize (Ha _ H2). specialize (Ha' _ H1). cbn in *. lia. }
  f_equal. apply IH; [done|done|]. by apply Permutation_cons_inv in Hp.
Qed.

Definition example_big : bytes := repeat 7 1200.

Lemma example_ops_ok : Forall (op_ok (usable_page_size example_header)) [TInsert 7 [1; 2; 3]; TInsert 9 example_big].
Proof. apply ops_okb_ok. vm_compute. reflexivity. Qed.

Lemma example_rows : (spec_ops [TInsert 7 [1; 2; 3]; TInsert 9 example_big] ∅).2 = <[9 := example_big]> (<[7 := [1; 2; 3]]> ∅).
Proof. reflexivity. Qed.

Lemma example_two_rows :
  ∃ (c : pager_client ()) m t P, st_own c 512 m 1000 ∧
    table_of 512 (usable_page_size example_header) m t (<[9 := example_big]> (<[7 := [1; 2; 3]]> ∅)) P.
Proof.
  rewrite <- example_rows. apply example_session; [exact example_ops_ok|vm_compute; discriminate|apply (bool_decide_unpack _); vm_compute; exact I].
Qed.

(** ** Properties *)

(** C6: Inserting refines insertion into a finite map.  On a table of fewer
    than 250000 rows, over any page store that keeps its promises,
    [insert_row] of a new rowid succeeds: the same root page then holds a
    table with exactly the new row added, whatever leaf, interior and root
    splits and overflow pages that took, and outside the pages of the table
    the store is as it was, so no page is lost or shared. *)
Theorem insert_row_refines {St} `{PageStoreSpec St} (s : St) (ps : Z) (m T : gmap Z bytes) (k : nat)
    (header : DatabaseHeader) (t : tree) (P : gset Z) (rowid : Z) (payload : bytes) :
  let u := usable_page_size header in
  35 ≤ u ≤ ps → st_own s ps m k → table_of ps u m t T P → 4 * Z.of_nat (size T) + 4 ≤ MAX_PAGES_VISITED →
  row_ok u (rowid, payload) → (length (overflow_chunks u payload) + 6 * size T + 9 ≤ k)%nat → T !! rowid = None →
  ∃ s' m' k' t' P', insert_row header (root_of t) rowid payload s = (Ok (), s') ∧ st_own s' ps m' k' ∧
    root_of t' = root_of t ∧ table_of ps u m' t' (<[rowid := payload]> T) P' ∧ outside P' m' = outside P m.
Proof.
  intros u Hu Hs Ht Hmax Hrow Hk Hnew. pose proof (own_size _ _ _ _ Hs) as Hps.
  destruct (insert_runs ps header Hps Hu m T t P rowid payload ltac:(intros ???; by eapply own_page) Ht Hmax Hrow 0%nat Hnew s)
    as ([] & m' & k' & s' & Hr & Hs' & _ & _ & t' & P' & ?); [eapply own_less; [exact Hs|unfold u in *; lia]|].
  by exists s', m', k', t', P'.
Qed.

Lemma insert_row_refines_witness :
  ∃ (c c' : pager_client ()) m t t' P, table_of 512 (usable_page_size example_header) m t' (<[8 := example_big]> (<[9 := example_big]> (<[7 := [1; 2; 3]]> ∅))) P ∧
    insert_row example_header (root_of t) 8 example_big c = (Ok (), c') ∧ root_of t' = root_of t.
Proof.
  destruct example_two_rows as (c & m & t & P & Hs & Ht).
  destruct (insert_row_refines c 512 m (<[9 := example_big]> (<[7 := [1; 2; 3]]> ∅)) 1000%nat example_header t P 8 example_big)
    as (c' & m' & k' & t' & P' & Hr & _ & Hroot & Ht' & _).
  - exact example_usable.
  - exact Hs.
  - exact Ht.
  - vm_compute. discriminate.
  - apply row_okb_ok. vm_compute. reflexivity.
  - apply (bool_decide_unpack _). vm_compute. exact I.
  - reflexivity.
  - exists c, c', m', t, t', P'. done.
Defined.

(** C7: Deleting refines deletion from a finite map.  On pages of at most
    32768 bytes, [delete_row] of a rowid of the table succeeds: the same root
    page holds the table without that row, and every page the tree or the
    row's overflow chain no longer needs is given back to the store, which is
    otherwise as it was.  A rowid that is not in the table is refused with
    [RowidNotFound] and changes nothing. *)
Theorem delete_row_refines {St} `{PageStoreSpec St} (s : St) (ps : Z) (m T : gmap Z bytes) (k : nat)
    (header : DatabaseHeader) (t : tree) (P : gset Z) (rowid : Z) :
  let u := usable_page_size header in
  35 ≤ u ≤ ps → ps ≤ 32768 → st_own s ps m k → table_of ps u m t T P → 2 * Z.of_nat (size T) + 1 ≤ MAX_PAGES_VISITED →
  match T !! rowid with
  | Some _ => ∃ s' m' t' P', delete_row header (root_of t) rowid s = (Ok (), s') ∧ st_own s' ps m' k ∧
      root_of t' = root_of t ∧ table_of ps u m' t' (delete rowid T) P' ∧ outside P' m' = outside P m
  | None => ∃ s', delete_row header (root_of t) rowid s = (Err (RowidNotFound rowid), s') ∧ st_own s' ps m k
  end.
Proof.
  intros u Hu Hps Hs Ht Hmax. pose proof (own_size _ _ _ _ Hs) as Hps'. assert (Ho : owned ps m) by (intros ???; by eapply own_page).
  destruct (T !! rowid) as [old|] eqn:E.
  - destruct (delete_runs ps header ltac:(lia) Hu m T t P rowid Ho Ht Hmax k old E s Hs)
      as ([] & m' & k' & s' & Hr & Hs' & -> & _ & t' & P' & ?). by exists s', m', t', P'.
  - destruct (delete_raises ps header m T t P rowid Ho Ht Hmax k E s Hs) as (m' & k' & s' & Hr & Hs' & -> & ->). by exists s'.
Qed.

Lemma delete_row_refines_witness :
  ∃ (c c1 c2 : pager_client ()) m t P, st_own c1 512 m 1000 ∧ table_of 512 (usable_page_size example_header) m t (<[7 := [1; 2; 3]]> ∅) P ∧
    delete_row example_header (root_of t) 9 c = (Ok (), c1) ∧ delete_row example_header (root_of t) 8 c = (Err (RowidNotFound 8), c2).
Proof.
  destruct example_two_rows as (c & m & t & P & Hs & Ht).
  pose proof (delete_row_refines c 512 m (<[9 := example_big]> (<[7 := [1; 2; 3]]> ∅)) 1000%nat example_header t P 9
    example_usable ltac:(lia) Hs Ht ltac:(vm_compute; discriminate)) as Hdel.
  pose proof (delete_row_refines c 512 m (<[9 := example_big]> (<[7 := [1; 2; 3]]> ∅)) 1000%nat example_header t P 8
    example_usable ltac:(lia) Hs Ht ltac:(vm_compute; discriminate)) as Hno.
  destruct Hdel as (c1 & m' & t' & P' & Hr & Hs' & Hroot & Ht' & _). destruct Hno as (c2 & Hr2 & _).
  exists c, c1, c2, m', t', P'. rewrite Hroot. split_and!; [exact Hs'|exact Ht'|exact Hr|exact Hr2].
Defined.

(** C37: A refused duplicate leaks its overflow pages.  Inserting a rowid that
    is in the table fails with [DuplicateRowid] and leaves the table as it
    was, but the overflow pages of the refused payload, which [insert_row]
    writes before it looks for the rowid, stay allocated. *)
Theorem insert_duplicate_leaks {St} `{PageStoreSpec St} (s : St) (ps : Z) (m T : gmap Z bytes) (k : nat)
    (header : DatabaseHeader) (t : tree) (P : gset Z) (rowid : Z) (payload old : bytes) :
  let u := usable_page_size header in
  35 ≤ u ≤ ps → st_own s ps m k → table_of ps u m t T P → 4 * Z.of_nat (size T) + 4 ≤ MAX_PAGES_VISITED →
  row_ok u (rowid, payload) → (length (overflow_chunks u payload) ≤ k)%nat → T !! rowid = Some old →
  ∃ s' m' k' pgs, insert_row header (root_of t) rowid payload s = (Err (DuplicateRowid rowid), s') ∧ st_own s' ps m' k' ∧
    table_of ps u m' t T P ∧ length pgs = length (overflow_chunks u payload) ∧ NoDup pgs ∧
    ∀ n, n ∈ pgs → m !! n = None ∧ is_Some (m' !! n) ∧ n ∉ P.
Proof.
  intros u Hu Hs Ht Hmax Hrow Hk Hold. pose proof (own_size _ _ _ _ Hs) as Hps.
  assert (Ho : owned ps m) by (intros ???; by eapply own_page).
  destruct (insert_raises ps header Hps Hu m T t P rowid payload Ho Ht Hmax Hrow 0%nat old Hold s)
    as (m' & k' & s' & Hr & Hs' & _ & _ & Ht' & pgs & Hl & Hnd & Hfr & _); [eapply own_less; [exact Hs|unfold u in *; lia]|].
  exists s', m', k', pgs. split_and!; try done. intros n Hn. destruct (Hfr n Hn) as [Hno ?]. split_and!; [done|done|].
  intros Hin. destruct (table_of_owned ps u m t T P n Ht Hin) as [b Hb]. congruence.
Qed.

Lemma insert_duplicate_leaks_witness :
  ∃ (c c' : pager_client ()) (m m' : gmap Z bytes) t (pgs : list Z), insert_row example_header (root_of t) 7 example_big c = (Err (DuplicateRowid 7), c') ∧
    length pgs = 2%nat ∧ ∀ n, n ∈ pgs → m !! n = None ∧ is_Some (m' !! n).
Proof.
  destruct example_two_rows as (c & m & t & P & Hs & Ht).
  destruct (insert_duplicate_leaks c 512 m (<[9 := example_big]> (<[7 := [1; 2; 3]]> ∅)) 1000%nat example_header t P 7 example_big [1; 2; 3])
    as (c' & m' & k' & pgs & Hr & _ & _ & Hl & _ & Hfr).
  - exact example_usable.
  - exact Hs.
  - exact Ht.
  - vm_compute. discriminate.
  - apply row_okb_ok. vm_compute. reflexivity.
  - apply (bool_decide_unpack _). vm_compute. exact I.
  - reflexivity.
  - exists c, c', m, m', t, pgs. split_and!; [exact Hr|rewrite Hl; vm_compute; reflexivity|]. intros n Hn. destruct (Hfr n Hn) as (? & ? & _). done.
Defined.

(** C5: Sessions on a table through the pager.  On a well-formed database,
    [create_empty_table_root] succeeds, and then every sequence of insertions
    and deletions of rows through the pager's cache, its dirty pages and the
    freelist allocator returns, operation by operation, what the finite map
    from rowids to payloads returns ([DuplicateRowid] and [RowidNotFound]
    included); afterwards the pages the pager serves hold a table with
    exactly the rows of that map, and the database is well formed. *)
Theorem pager_table_session {L} `{FileLock L} (p : Pager (L := L)) (d : fs) (count : Z) (ts : list (Z * list Z))
    (header : DatabaseHeader) (ops : list table_op) :
  let ps := pg_page_size p in let u := usable_page_size header in
  alloc_inv p d count ts → ps ≤ 32768 → 35 ≤ u ≤ ps → Forall (op_ok u) ops →
  4 * Z.of_nat (length ops) ≤ MAX_PAGES_VISITED → count + Z.of_nat (ops_cost u 0 ops) + 2 < U32_MAX →
  ∃ root c1 c2 m t P, create_empty_table_root {| pc_pager := p; pc_fs := d |} = (Ok root, c1) ∧
    run_ops header root ops c1 = ((spec_ops ops ∅).1, c2) ∧ root_of t = root ∧
    table_of ps u m t (spec_ops ops ∅).2 P ∧ (∀ n b, m !! n = Some b → view (pc_pager c2) (pc_fs c2) n = Ok b) ∧
    ∃ count' ts', alloc_inv (pc_pager c2) (pc_fs c2) count' ts'.
Proof.
  intros ps u I Hps Hu Hops Hlen Hroom. pose proof (ai_ps _ _ _ _ I) as Hp. fold ps in Hp.
  assert (Hown : st_own {| pc_pager := p; pc_fs := d |} ps ∅ (S (ops_cost u 0 ops + 0))).
  { split; [done|]. exists count, ts. split; [|lia]. split; [exact I|]. intros n b Hn. by rewrite lookup_empty in Hn. }
  destruct (create_runs ps header ltac:(lia) Hu ∅ (ops_cost u 0 ops + 0)%nat ltac:(intros ? ? Hn; by rewrite lookup_empty in Hn) _ Hown)
    as (root & m1 & k1 & c1 & Hc & Hs1 & -> & _ & _ & Ht1 & _).
  destruct (ops_refine ps header ltac:(lia) Hu ops c1 m1 0%nat (Leaf root []) ∅ {[root]} 0%nat) as (c2 & m2 & k2 & t2 & P2 & Hr & _ & [Hs2 Ht2] & Hroot & _);
    [by split|by rewrite map_size_empty|lia|done|].
  exists root, c1, c2, m2, t2, P2. split_and!; try done.
  - intros n b Hn. exact (pager_own_view c2 ps m2 k2 n b Hs2 Hn).
  - destruct Hs2 as (_ & count' & ts' & [I' _] & _). by exists count', ts'.
Qed.

Lemma pager_table_session_witness :
  ∃ root c1 c2, create_empty_table_root example_client = (Ok root, c1) ∧
    run_ops example_header root [TInsert 7 [1; 2; 3]; TInsert 9 example_big; TInsert 7 [9]; TDelete 9; TDelete 9] c1 =
      ([Ok (); Ok (); Err (DuplicateRowid 7); Ok (); Err (RowidNotFound 9)], c2).
Proof.
  destruct (pager_table_session (example_pager SyncFull ∅) example_fs 1 [] example_header
    [TInsert 7 [1; 2; 3]; TInsert 9 example_big; TInsert 7 [9]; TDelete 9; TDelete 9])
    as (root & c1 & c2 & m & t & P & Hc & Hr & _).
  - exact example_alloc_inv.
  - cbn. lia.
  - exact example_usable.
  - apply ops_okb_ok. vm_compute. reflexivity.
  - vm_compute. discriminate.
  - apply (bool_decide_unpack _). vm_compute. exact I.
  - exists root, c1, c2. split; [exact Hc|exact Hr].
Defined.

(** C8: Reading a table agrees with its finite map.  From any page source
    that serves the pages of a table, [seek_row] returns the payload the map
    has for the rowid and nothing for other rowids, and the forward and
    backward scans return the rows of the map, each once, in order. *)
Theorem table_reads_refine {Src} `{PageSource Src} (src : Src) (ps : Z) (header : DatabaseHeader) (m T : gmap Z bytes)
    (t : tree) (P : gset Z) :
  table_of ps (usable_page_size header) m t T P → serves src m → 2 * Z.of_nat (size T) + 1 ≤ MAX_PAGES_VISITED →
  let c := TableCursor_new header (root_of t) in
  (∀ rowid, match T !! rowid with
            | Some bs => ∃ pl, (seek_row src c rowid).1 = Ok (Some {| tr_rowid := rowid; tr_payload := pl |}) ∧ payload_bytes pl = bs
            | None => (seek_row src c rowid).1 = Ok None
            end) ∧
  ∃ rs, sorted rs.*1 ∧ list_to_map rs = T ∧
    drain (next_row src) (S (size T)) (first_row src c) = Ok rs ∧
    drain (prev_row src) (S (size T)) (last_row src c) = Ok (rev rs).
Proof.
  intros Ht Hm Hmax c. pose proof (table_of_pages _ _ _ _ _ _ Ht) as Hpg. split.
  - intros rowid. apply (seek_refines src ps header m t T P rowid Ht Hm). lia.
  - apply (scan_refines src ps header m t T P Ht Hm). lia.
Qed.

Lemma table_reads_refine_witness :
  ∃ (src : mem_source) t, let c := TableCursor_new example_header (root_of t) in
    (seek_row src c 8).1 = Ok None ∧ (∃ pl, (seek_row src c 9).1 = Ok (Some {| tr_rowid := 9; tr_payload := pl |}) ∧ payload_bytes pl = example_big) ∧
    drain (next_row src) 3 (first_row src c) = Ok [(7, [1; 2; 3]); (9, example_big)].
Proof.
  destruct example_two_rows as (cl & m & t & P & Hs & Ht).
  exists {| ms_page_size := 512; ms_pages := λ n, m !! n |}, t. intros c.
  destruct (table_reads_refine ({| ms_page_size := 512; ms_pages := λ n, m !! n |} : mem_source) 512 example_header m
    (<[9 := example_big]> (<[7 := [1; 2; 3]]> ∅)) t P) as [Hseek (rs & Hsort & Hmap & Hscan & _)].
  - exact Ht.
  - intros n b Hn. destruct (own_page _ _ _ _ n b Hs Hn) as [Hr Hl]. cbn. rewrite Hn. by rewrite decide_True by (split; lia).
  - vm_compute. discriminate.
  - split_and!; [exact (Hseek 8)|exact (Hseek 9)|]. etrans; [exact Hscan|]. f_equal.
    apply (sorted_rows_unique rs); [done| |done]. repeat constructor; lia.
Defined.
