(* ===== verification/Master.v ===== *)
(** * Writing the schema table ([row/btree/master.rs], [row/btree/schema.rs])

    The rows of [sqlite_master], [sqlite_sequence] and [sqlite_stat1]: the
    schema cookie, looking rows up by name, inserting and deleting them, and
    the roots of new tables and indexes.  The tables that live on pages of
    their own are shown to refine what they stand for: [sqlite_sequence] a
    map from names to the largest rowid given out, [sqlite_stat1] the
    statistics of each table. *)

From S2P Require Import Prelude Varint Text Record Vfs Header Freelist PageCache Lock Pager Commit Allocator BtreePage BtreeSplice BtreePayload IndexKey BtreeCursor Ddl BtreeLeaf BtreeStore BtreeInsert BtreeSplit BtreeZip BtreeInsertProof BtreeInsertRow BtreeOverflow BtreeDelete IndexWrite BtreeDeleteProof BtreeTable TableSession.
From Stdlib Require String Ascii.

(** ** A store as a page source

    The cursor of the source borrows the pager and reads through it.  A read
    leaves the pages as they are, so the cursor is given the pages of the
    store at the moment it is built; the cache it warms is left out.  A page
    that has not the length of a page, which a pager does not return, is an
    error. *)
Record store_view : Type := { sv_page_size : Z; sv_read : Z → result PageError bytes }.

#[export] Program Instance store_view_source : PageSource store_view := {
  source_page_size := sv_page_size;
  source_read_page v n :=
    if decide (n = 0) then Err InvalidPageNumber
    else match sv_read v n with
         | Err e => Err e
         | Ok b => if decide (zlen b = sv_page_size v) then Ok b else Err (WrongLength n (sv_page_size v) (zlen b))
         end;
}.
Next Obligation. intros v n bs. cbn. case_decide; [done|]. destruct (sv_read v n); [case_decide|]; naive_solver. Qed.
Next Obligation. done. Qed.

Definition SQLITE_MASTER_ROOT_PAGE : Z := 1.
Definition SCHEMA_COOKIE_OFFSET : Z := 40.

(** [i64::saturating_add]. *)
Definition sat_add_i64 (a b : Z) : Z := Z.max (-9223372036854775808) (Z.min (a + b) 9223372036854775807).

(** Strings are lists of characters. *)
Record MasterEntry : Type := {
  me_kind : list Z;
  me_name : list Z;
  me_tbl_name : list Z;
  me_rootpage : Z;
  me_sql : list Z;
}.

Definition SQLITE_SEQUENCE_SQL : list Z := lit "CREATE TABLE sqlite_sequence(name,seq)".
Definition SQLITE_STAT1_SQL : list Z := lit "CREATE TABLE sqlite_stat1(tbl,idx,stat)".

(** ** Scans

    Loops over rows have fuel. *)

Section scans.
Context `{PageSource Src} (src : Src).

Fixpoint max_rowid_loop (fuel : nat) (rc : result BtreeError (option Z) * TableCursor) (max : option Z) : result BtreeError (option Z) :=
  match fuel with
  | O => Err (BInternal "scan: out of fuel")
  | S fuel =>
      let? row := rc.1 in
      match row with
      | None => Ok max
      | Some rowid => max_rowid_loop fuel (cursor_next src rc.2) (Some (match max with Some m => Z.max m rowid | None => rowid end))
      end
  end.

(** [while let Some(r) = row { let values = decode_record(..)?; body;
    row = cursor.next_row()? }].  The body goes on with a new state, or ends
    the loop with a result. *)
Inductive flow (A B : Type) : Type :=
| Continue (a : A)
| Return (r : result BtreeError B).
Arguments Continue {A B} _.
Arguments Return {A B} _.

Fixpoint scan_rows {A B} (body : Z → list Value → A → flow A B) (finish : A → B) (encoding : TextEncoding) (fuel : nat)
    (rc : result BtreeError (option TableRow) * TableCursor) (a : A) : result BtreeError B :=
  match fuel with
  | O => Err (BInternal "scan: out of fuel")
  | S fuel =>
      let? row := rc.1 in
      match row with
      | None => Ok (finish a)
      | Some r =>
          let? values := map_err InvalidKeyRecord (decode_record (payload_bytes (tr_payload r)) encoding) in
          match body (tr_rowid r) values a with
          | Continue a => scan_rows body finish encoding fuel (next_row src rc.2) a
          | Return r => r
          end
      end
  end.
End scans.
Arguments Continue {A B} _.
Arguments Return {A B} _.

(** The row whose column [key_column] is the text [key]. *)
Definition rowid_body (key_column : nat) (key : list Z) (rowid : Z) (values : list Value) (_ : ()) : flow () (option Z) :=
  match values !! key_column with
  | Some (TextV s) => if decide (s = key) then Return (Ok (Some rowid)) else Continue ()
  | _ => Continue ()
  end.

(** The root page of the entry [name]. *)
Definition rootpage_body (name : list Z) (rowid : Z) (values : list Value) (_ : ()) : flow () (option Z) :=
  match values !! 1%nat, values !! 3%nat with
  | Some (TextV n), Some (Integer rp) =>
      if decide (n = name) then
        if decide (rp < 0 ∨ U32_MAX < rp) then Return (Err (InvalidRootPage name rp))
        else if decide (rp = 0) then Return (Err (InvalidRootPage name rp))
        else Return (Ok (Some rp))
      else Continue ()
  | _, _ => Continue ()
  end.

(** The row of [sqlite_sequence] for a table: its rowid and the sequence. *)
Definition sequence_body (table_name : list Z) (rowid : Z) (values : list Value) (_ : ()) : flow () (option (Z * Z)) :=
  match values !! 0%nat, values !! 1%nat with
  | Some (TextV n), Some (Integer seq) => if decide (n = table_name) then Return (Ok (Some (rowid, seq))) else Continue ()
  | _, _ => Continue ()
  end.

(** The rows of [sqlite_stat1] for a table. *)
Definition stale_body (table_name : list Z) (rowid : Z) (values : list Value) (stale : list Z) : flow (list Z) (list Z) :=
  match values !! 0%nat with
  | Some (TextV tbl) => Continue (if decide (tbl = table_name) then stale ++ [rowid] else stale)
  | _ => Continue stale
  end.

(** The key of an index entry for a row. *)
Definition key_body (column_indices : list nat) (rowid : Z) (values : list Value) (keys : list (list Value))
  : flow (list (list Value)) (list (list Value)) :=
  Continue (keys ++ [map (λ idx, default Null (values !! idx)) column_indices ++ [Integer rowid]]).

Section master.
Context `{PageStore St}.

(** A computation on the pages the store holds now. *)
Definition bm_view {A} (header : DatabaseHeader) (f : store_view → result BtreeError A) : BM St A := λ s,
  (f {| sv_page_size := page_size header; sv_read n := (st_read n s).1 |}, s).

(** ** The schema cookie *)

Definition read_schema_cookie : BM St Z :=
  bm_edit SQLITE_MASTER_ROOT_PAGE (b_get (λ page1,
    ok_or (read_be 4 page1 SCHEMA_COOKIE_OFFSET) (BPageTooShort SQLITE_MASTER_ROOT_PAGE (zlen page1)))).

Definition write_cookie (new_cookie : Z) : buf_op () := λ page1,
  match put_range page1 SCHEMA_COOKIE_OFFSET (be_bytes 4 new_cookie) with
  | Some page1 => (page1, Ok ())
  | None => (page1, Err (BPageTooShort SQLITE_MASTER_ROOT_PAGE (zlen page1)))
  end.

Definition bump_schema_cookie : BM St Z :=
  let+ cookie := read_schema_cookie in
  let new_cookie := wrap32 (cookie + 1) in
  let+ _ := bm_edit SQLITE_MASTER_ROOT_PAGE (write_cookie new_cookie) in
  bm_ok new_cookie.

(** ** Rows of the schema table *)

Section fuel.
Context (fuel : nat) (header : DatabaseHeader).

Definition max_rowid (root_page : Z) : BM St (option Z) :=
  bm_view header (λ v, max_rowid_loop v fuel (cursor_first v (TableCursor_new header root_page)) None).

Definition scan {A B} (root_page : Z) (encoding : TextEncoding) (body : Z → list Value → A → flow A B) (finish : A → B) (a : A) : BM St B :=
  bm_view header (λ v, scan_rows v body finish encoding fuel (first_row v (TableCursor_new header root_page)) a).

Definition find_rowid_by_text_column (root_page : Z) (key_column : nat) (key : list Z) (encoding : TextEncoding) : BM St (option Z) :=
  scan root_page encoding (rowid_body key_column key) (λ _, None) ().

Definition next_rowid_of (max : option Z) : Z := sat_add_i64 (default 0 max) 1.

Definition insert_master_row (entry : MasterEntry) : BM St () :=
  let+ max := max_rowid SQLITE_MASTER_ROOT_PAGE in
  let values := [TextV (me_kind entry); TextV (me_name entry); TextV (me_tbl_name entry); Integer (me_rootpage entry); TextV (me_sql entry)] in
  let payload := encode_record values (text_encoding header) in
  insert_row header SQLITE_MASTER_ROOT_PAGE (next_rowid_of max) payload.

Definition delete_master_row (name : list Z) : BM St () :=
  let+ found := find_rowid_by_text_column SQLITE_MASTER_ROOT_PAGE 1 name (text_encoding header) in
  let+ rowid := bm_lift (ok_or found (MasterEntryNotFound name)) in
  delete_row header SQLITE_MASTER_ROOT_PAGE rowid.

Definition find_master_rootpage (name : list Z) : BM St (option Z) :=
  scan SQLITE_MASTER_ROOT_PAGE (text_encoding header) (rootpage_body name) (λ _, None) ().

(** The common part of [ensure_sqlite_sequence_table] and
    [ensure_sqlite_stat1_table], written out in each. *)
Definition create_system_table (name sql : list Z) : BM St Z :=
  let+ root_page := bm_alloc in
  let header_start := page1_header_start root_page in
  let+ _ := bm_edit root_page (write_leaf_page header_start root_page []) in
  let+ _ := insert_master_row {| me_kind := lit "table"; me_name := name; me_tbl_name := name; me_rootpage := root_page; me_sql := sql |} in
  let+ _ := bump_schema_cookie in
  bm_ok root_page.

Definition ensure_sqlite_sequence_table : BM St Z :=
  let+ found := find_master_rootpage (lit "sqlite_sequence") in
  match found with
  | Some existing => bm_ok existing
  | None => create_system_table (lit "sqlite_sequence") SQLITE_SEQUENCE_SQL
  end.

Definition ensure_sqlite_stat1_table : BM St Z :=
  let+ found := find_master_rootpage (lit "sqlite_stat1") in
  match found with
  | Some existing => bm_ok existing
  | None => create_system_table (lit "sqlite_stat1") SQLITE_STAT1_SQL
  end.

(** ** [sqlite_sequence] *)

Definition sequence_payload (table_name : list Z) (rowid : Z) : bytes :=
  encode_record [TextV table_name; Integer rowid] (text_encoding header).

Definition update_sequence (table_name : list Z) (rowid : Z) : BM St () :=
  let+ seq_root := ensure_sqlite_sequence_table in
  let+ existing := scan seq_root (text_encoding header) (sequence_body table_name) (λ _, None) () in
  match existing with
  | None =>
      let+ max := max_rowid seq_root in
      insert_row header seq_root (next_rowid_of max) (sequence_payload table_name rowid)
  | Some (row_rowid, current_seq) =>
      if decide (current_seq < rowid) then
        let+ _ := delete_row header seq_root row_rowid in
        insert_row header seq_root row_rowid (sequence_payload table_name rowid)
      else bm_ok ()
  end.

(** ** [sqlite_stat1] *)

Fixpoint delete_rows (root_page : Z) (rowids : list Z) : BM St () :=
  match rowids with
  | [] => bm_ok ()
  | rowid :: rowids => let+ _ := delete_row header root_page rowid in delete_rows root_page rowids
  end.

Definition delete_stat1_rows_for_table (stat1_root : Z) (table_name : list Z) : BM St () :=
  let+ stale_rowids := scan stat1_root (text_encoding header) (stale_body table_name) id [] in
  delete_rows stat1_root stale_rowids.

Definition insert_stat1_row (stat1_root : Z) (tbl : list Z) (idx : option (list Z)) (stat : list Z) : BM St () :=
  let+ max := max_rowid stat1_root in
  let idx_value := match idx with Some name => TextV name | None => Null end in
  let payload := encode_record [TextV tbl; idx_value; TextV stat] (text_encoding header) in
  insert_row header stat1_root (next_rowid_of max) payload.

(** ** Roots of new indexes ([row/btree/schema.rs]) *)

Definition create_empty_index_root : BM St Z :=
  let+ root_page := bm_alloc in
  let header_start := page1_header_start root_page in
  let+ _ := bm_edit root_page (write_index_leaf_page header_start root_page []) in
  bm_ok root_page.

Fixpoint insert_entries (index_root_page : Z) (keys : list (list Value)) : BM St () :=
  match keys with
  | [] => bm_ok ()
  | key :: keys => let+ _ := insert_entry header index_root_page key (text_encoding header) in insert_entries index_root_page keys
  end.

Definition populate_index_from_table (table_root_page index_root_page : Z) (column_indices : list nat) : BM St () :=
  let+ keys := scan table_root_page (text_encoding header) (key_body column_indices) id [] in
  insert_entries index_root_page keys.
End fuel.
End master.

(** ** Scans of a table *)

(** The scan of a list of rows. *)
Fixpoint scan_list {A B} (body : Z → list Value → A → flow A B) (finish : A → B) (encoding : TextEncoding) (rs : list (Z * bytes)) (a : A)
  : result BtreeError B :=
  match rs with
  | [] => Ok (finish a)
  | (rowid, bs) :: rs =>
      let? values := map_err InvalidKeyRecord (decode_record bs encoding) in
      match body rowid values a with
      | Continue a => scan_list body finish encoding rs a
      | Return r => r
      end
  end.

Lemma scan_rows_list `{PageSource Src} (src : Src) {A B} (body : Z → list Value → A → flow A B) finish enc fuel rc a rs :
  drain (next_row src) fuel rc = Ok rs → scan_rows src body finish enc fuel rc a = scan_list body finish enc rs a.
Proof.
  revert a rc rs. induction fuel as [|fuel IH]; intros a [r c] rs Hd; [done|]. cbn in Hd |- *.
  destruct r as [[row|]|e]; [| |done].
  - destruct (drain _ fuel _) as [rest|] eqn:Hr; [|done]. injection Hd as <-. cbn.
    destruct (decode_record _ enc) as [values|]; [|done]. cbn. destruct (body _ _ _); [by apply IH|done].
  - by injection Hd as <-.
Qed.

Lemma drain_more step fuel fuel' rc rs : drain step fuel rc = Ok rs → (fuel ≤ fuel')%nat → drain step fuel' rc = Ok rs.
Proof.
  revert fuel' rc rs. induction fuel as [|fuel IH]; intros [|fuel'] rc rs; cbn; [done..|lia|]. intros Hd Hle.
  destruct rc.1 as [[row|]|e]; [| |done]; [|done]. destruct (drain step fuel _) as [rest|] eqn:Hr; [|done].
  rewrite (IH fuel' _ rest Hr); [done|lia].
Qed.

(** The largest rowid of a table. *)
Definition is_max (T : gmap Z bytes) (r : option Z) : Prop :=
  match r with None => T = ∅ | Some x => is_Some (T !! x) ∧ ∀ y, is_Some (T !! y) → y ≤ x end.

Definition fold_max (ids : list Z) (a : option Z) : option Z :=
  foldl (λ a i, Some (match a with Some m => Z.max m i | None => i end)) a ids.

Lemma fold_max_Some ids a : ∃ x, fold_max ids (Some a) = Some x ∧ x ∈ a :: ids ∧ Forall (λ y, y ≤ x) (a :: ids).
Proof.
  revert a. induction ids as [|i ids IH]; intros a; cbn.
  - exists a. split; [done|]. split; [left|]. by apply Forall_singleton.
  - destruct (IH (Z.max a i)) as (x & Hx & Hin & HF). exists x. split; [done|]. apply Forall_cons in HF as [Hm HF]. split.
    + apply elem_of_cons in Hin as [->|Hin]; [|by do 2 right]. destruct (Z.max_spec a i) as [[_ ->]|[_ ->]]; [right; left|left].
    + repeat (apply Forall_cons; split); [lia..|done].
Qed.

Lemma max_rowid_loop_ok `{PageSource Src} (src : Src) usable rs fuel c0 rc a :
  advances usable (stack_fwd src usable) uncons c0 rc rs MAX_PAGES_VISITED → (length rs < fuel)%nat →
  max_rowid_loop src fuel rc a = Ok (fold_max (map cell_rowid rs) a).
Proof.
  revert c0 rc a fuel. induction rs as [|r rs IH]; intros c0 [o c] a [|fuel] (Hs & Hm) Hf; cbn [length] in Hf; try lia; cbn [max_rowid_loop fst snd].
  - cbn in Hm. by destruct Hm as (-> & _).
  - cbn [uncons] in Hm. destruct Hm as (-> & Hcur & n & Hst & Hv0 & Hv). cbn [map fold_max foldl].
    apply (IH c); [|lia]. apply (advance_loop_ok src usable (advance_fuel c) c rs n); try done. by apply advance_fuel_enough.
Qed.

Section reading.
Context `{PageStoreSpec St} (ps : Z) (header : DatabaseHeader) (fuel : nat).
Abbreviation u := (usable_page_size header).
Implicit Types (m T : gmap Z bytes) (k : nat) (t : tree).
Abbreviation runs c m k Q := (BtreeStore.runs ps c m k Q).
Hypotheses (Hsize : page_size header = ps).

Lemma runs_view {A} (f : store_view → result BtreeError A) a m k (Q : A → gmap Z bytes → nat → Prop) :
  (∀ v, serves v m → f v = Ok a) → Q a m k → runs (bm_view header f) m k Q.
Proof.
  intros Hf HQ s Hs. exists a, m, k, s. unfold bm_view. rewrite Hf; [done|]. intros n b Hn.
  destruct (own_page _ _ _ _ _ _ Hs Hn) as [Hr Hl]. destruct (own_read _ _ _ _ _ _ Hs Hn) as (s' & Hrd & _). cbn.
  rewrite decide_False by lia. rewrite Hrd. cbn. by rewrite decide_True by congruence.
Qed.

Lemma table_rows m t T P :
  table_of ps u m t T P → zlen (pages t) ≤ MAX_PAGES_VISITED →
  ∃ rs, sorted rs.*1 ∧ list_to_map rs = T ∧ rs.*1 = map cell_rowid (rows t) ∧
    ∀ v : store_view, serves v m → tree_at u (source_read_page v) t ∧
      drain (next_row v) (S (size T)) (first_row v (TableCursor_new header (root_of t))) = Ok rs.
Proof.
  intros Ht Hmax. pose proof Ht as (rs & ovf & Hro & HT & _). pose proof Hro as [Hat _ Hs Hr _ _].
  pose proof (rows_keys _ _ _ _ _ Hr) as Hk. exists rs.
  assert (Hsort : sorted rs.*1) by (rewrite Hk; by apply rows_codes).
  split; [done|]. split; [done|]. split; [done|]. intros v Hv. split; [by eapply serves_tree|].
  destruct (scan_refines v ps header m t T P Ht Hv Hmax) as (rs' & Hs' & HT' & Hd & _).
  rewrite Hd. f_equal. apply sorted_rows_unique; [done|done|congruence].
Qed.
Lemma runs_max m k t T P (Q : option Z → gmap Z bytes → nat → Prop) :
  table_of ps u m t T P → zlen (pages t) ≤ MAX_PAGES_VISITED → (size T < fuel)%nat →
  (∀ r, is_max T r → Q r m k) → runs (max_rowid fuel header (root_of t)) m k Q.
Proof.
  intros Ht Hmax Hf HQ. destruct (table_rows _ _ _ _ Ht Hmax) as (rs & Hs & HT & Hk & Hv).
  assert (Hlen : length (rows t) = size T).
  { rewrite <- HT, map_size_list_to_map by by apply sorted_nodup. rewrite <- (length_fmap fst rs), Hk. by rewrite length_map. }
  eapply (runs_view _ (fold_max (map cell_rowid (rows t)) None)).
  - intros v Hsv. destruct (Hv v Hsv) as [Hat _].
    apply (max_rowid_loop_ok v u _ _ (reset (TableCursor_new header (root_of t)) false)); [by apply first_ok|lia].
  - apply HQ. rewrite <- Hk. destruct rs as [|[r bs] rs]; [by subst T|]. cbn [fmap list_fmap fold_max foldl fst].
    destruct (fold_max_Some rs.*1 r) as (x & Hx & Hin & HF). unfold fold_max in Hx. rewrite Hx. cbn. subst T.
    assert (Hdom : ∀ y, is_Some ((list_to_map ((r, bs) :: rs) : gmap Z bytes) !! y) ↔ y ∈ r :: rs.*1).
    { intros y. rewrite <- not_eq_None_Some. rewrite <- (not_elem_of_list_to_map (M := gmap Z) ((r, bs) :: rs)). cbn [fmap list_fmap fst].
      split; [apply dec_stable|intros ? ?; done]. }
    split; [by apply Hdom|]. intros y Hy%Hdom. rewrite Forall_forall in HF. by apply HF.
Qed.

Lemma runs_scan {A B} (body : Z → list Value → A → flow A B) finish enc a m k t T P (Q : B → gmap Z bytes → nat → Prop) :
  table_of ps u m t T P → zlen (pages t) ≤ MAX_PAGES_VISITED → (size T < fuel)%nat →
  (∀ rs, sorted rs.*1 → list_to_map rs = T → ∃ b, scan_list body finish enc rs a = Ok b ∧ Q b m k) →
  runs (scan fuel header (root_of t) enc body finish a) m k Q.
Proof.
  intros Ht Hmax Hf HQ. destruct (table_rows _ _ _ _ Ht Hmax) as (rs & Hs & HT & Hk & Hv).
  destruct (HQ rs Hs HT) as (b & Hb & HQb). eapply (runs_view _ b); [|done].
  intros v Hsv. destruct (Hv v Hsv) as [_ Hd]. rewrite (scan_rows_list v body finish enc fuel _ a rs); [done|].
  eapply drain_more; [exact Hd|lia].
Qed.

(** ** Deleting and inserting *)

Hypotheses (Hps : 512 ≤ ps ≤ 32768) (Hu : 35 ≤ u ≤ ps).

(** A table on [m], with nothing else changed since [m0]. *)
Definition now m0 P0 root T m (k k' : nat) : Prop :=
  (k ≤ k')%nat ∧ owned ps m ∧ ∃ t P, root_of t = root ∧ table_of ps u m t T P ∧ outside P m = outside P0 m0.

Lemma runs_delete_rows ids m t T P k :
  owned ps m → table_of ps u m t T P → 2 * Z.of_nat (size T) + 1 ≤ MAX_PAGES_VISITED → NoDup ids → (∀ i, i ∈ ids → is_Some (T !! i)) →
  runs (delete_rows header (root_of t) ids) m k (λ _ m' k', now m P (root_of t) (filter (λ x, x.1 ∉ ids) T) m' k k').
Proof.
  revert m t T P k. induction ids as [|i ids IH]; intros m t T P k Ho Ht Hmax Hnd Hin; cbn [delete_rows].
  - apply runs_ok. split; [lia|]. split; [done|]. exists t, P. split; [done|]. split; [|done].
    rewrite map_filter_id; [done|]. intros ? ? _. apply not_elem_of_nil.
  - apply NoDup_cons in Hnd as [Hni Hnd]. destruct (Hin i ltac:(left)) as [old Hold].
    apply runs_bind. eapply runs_mono; [by apply (delete_runs ps header Hps Hu m T t P i Ho Ht ltac:(lia) k old)|].
    intros _ m1 k1 (-> & Ho1 & t1 & P1 & Hroot1 & Ht1 & Hout1). cbv beta. rewrite <- Hroot1.
    eapply runs_mono; [apply (IH m1 t1 (delete i T) P1 k Ho1 Ht1)|].
    + pose proof (map_size_delete i T) as Hsz. rewrite Hold in Hsz. cbn in Hsz. lia.
    + done.
    + intros j Hj. rewrite lookup_delete_ne; [apply Hin; by right|]. intros ->. done.
    + intros _ m' k' (Hk & Ho' & t' & P' & Hroot & Ht' & Hout). split; [done|]. split; [done|]. exists t', P'. split; [done|].
      split; [|congruence]. replace (filter (λ x, x.1 ∉ i :: ids) T) with (filter (λ x, x.1 ∉ ids) (delete i T)); [done|].
      apply map_eq. intros j. rewrite !map_lookup_filter. destruct (decide (j = i)) as [->|Hne].
      * rewrite lookup_delete_eq. destruct (T !! i); [|done]. cbn. rewrite option_guard_False; [done|]. intros Hn. apply Hn. left.
      * rewrite lookup_delete_ne by done. destruct (T !! j); [|done]. cbn.
        repeat case_guard; set_solver.
Qed.

Lemma runs_insert rowid payload m t T P k :
  owned ps m → table_of ps u m t T P → 4 * Z.of_nat (size T) + 4 ≤ MAX_PAGES_VISITED → row_ok u (rowid, payload) → T !! rowid = None →
  (length (overflow_chunks u payload) + 6 * size T + 9 ≤ k)%nat →
  runs (insert_row header (root_of t) rowid payload) m k
    (λ _ m' k', now m P (root_of t) (<[rowid := payload]> T) m' 0 k').
Proof.
  intros Ho Ht Hmax Hrow Hnew Hk.
  eapply (runs_less ps _ _ _ (length (overflow_chunks u payload) + (6 * size T + 9 + 0))); [lia|].
  eapply runs_mono; [by apply (insert_runs ps header ltac:(lia) Hu m T t P rowid payload Ho Ht Hmax Hrow 0 Hnew)|].
  intros _ m' k' (? & Ho' & t' & P' & Hroot & Ht' & Hout). split; [lia|]. split; [done|]. by exists t', P'.
Qed.
End reading.

(** ** [sqlite_sequence] as a map *)

(** A row that says [name] has reached [seq]. *)
Definition sequence_row (enc : TextEncoding) (bs : bytes) (name : list Z) (seq : Z) : Prop :=
  ∃ vs, decode_record bs enc = Ok vs ∧ vs !! 0%nat = Some (TextV name) ∧ vs !! 1%nat = Some (Integer seq).

(** The table [T] holds one row for each name of [M], with its sequence. *)
Record sequence_is (enc : TextEncoding) (T : gmap Z bytes) (M : gmap (list Z) Z) : Prop := {
  sq_rows : ∀ r bs, T !! r = Some bs → ∃ name seq, sequence_row enc bs name seq ∧ M !! name = Some seq;
  sq_once : ∀ r r' bs bs' name seq seq', T !! r = Some bs → T !! r' = Some bs' →
    sequence_row enc bs name seq → sequence_row enc bs' name seq' → r = r';
  sq_names : ∀ name seq, M !! name = Some seq → ∃ r bs, T !! r = Some bs ∧ sequence_row enc bs name seq;
}.

(** What an insertion with [rowid] into [name] makes of the map: a sequence
    only grows. *)
Definition sequence_update (M : gmap (list Z) Z) (name : list Z) (rowid : Z) : gmap (list Z) Z :=
  <[name := match M !! name with Some seq => Z.max seq rowid | None => rowid end]> M.

Lemma sequence_row_inj enc bs name seq name' seq' :
  sequence_row enc bs name seq → sequence_row enc bs name' seq' → name = name' ∧ seq = seq'.
Proof. intros (vs & Hd & Hn & Hs) (vs' & Hd' & Hn' & Hs'). split; congruence. Qed.

Lemma sequence_payload_row header name rowid :
  str_ok name → i64_ok rowid → zlen (sequence_payload header name rowid) < 2 ^ 62 →
  sequence_row (text_encoding header) (sequence_payload header name rowid) name rowid.
Proof.
  intros Hn Hr Hl. exists [TextV name; Integer rowid]. split; [|done]. unfold sequence_payload.
  rewrite record_roundtrip_lemma; [done| |done]. repeat (apply Forall_cons; split); [done|done|by apply Forall_nil_2].
Qed.

Lemma scan_sequence enc name rs :
  (∀ r bs, (r, bs) ∈ rs → ∃ n seq, sequence_row enc bs n seq) →
  ∃ o, scan_list (sequence_body name) (λ _, None) enc rs () = Ok o ∧
    match o with
    | Some (r, seq) => ∃ bs, (r, bs) ∈ rs ∧ sequence_row enc bs name seq
    | None => ∀ r bs seq, (r, bs) ∈ rs → ¬ sequence_row enc bs name seq
    end.
Proof.
  induction rs as [|[r bs] rs IH]; intros Hrs; cbn [scan_list].
  { exists None. split; [done|]. by intros ? ? ? ?%elem_of_nil. }
  destruct (Hrs r bs ltac:(left)) as (n & seq & Hrow). pose proof Hrow as (vs & Hd & H0 & H1). rewrite Hd. cbn [map_err].
  unfold sequence_body at 1. rewrite H0, H1. destruct (decide (n = name)) as [->|Hne].
  - exists (Some (r, seq)). split; [done|]. exists bs. split; [left|done].
  - destruct IH as (o & -> & Ho); [intros r' bs' Hin; apply (Hrs r' bs'); by right|]. exists o. split; [done|].
    destruct o as [[r' seq']|].
    + destruct Ho as (bs' & Hin & Hrow'). exists bs'. split; [by right|done].
    + intros r' bs' seq' [[= -> ->]|Hin]%elem_of_cons; [|by eapply Ho].
      intros Hrow'. by destruct (sequence_row_inj _ _ _ _ _ _ Hrow Hrow').
Qed.

(** A new row for a new name, or in place of the row of its name. *)
Lemma sequence_insert enc T M r bs name seq :
  sequence_is enc T M → sequence_row enc bs name seq →
  (∀ r' bs' seq', T !! r' = Some bs' → sequence_row enc bs' name seq' → r' = r) →
  (∀ bs', T !! r = Some bs' → ∃ seq', sequence_row enc bs' name seq') →
  sequence_is enc (<[r := bs]> T) (<[name := seq]> M).
Proof.
  intros [Hrows Honce Hnames] Hrow Hown Hold. split.
  - intros r' bs'. destruct (decide (r' = r)) as [->|Hne].
    + rewrite lookup_insert_eq. intros [= <-]. exists name, seq. by rewrite lookup_insert_eq.
    + rewrite lookup_insert_ne by done. intros Hb. destruct (Hrows r' bs' Hb) as (n & s & Hr & Hm). exists n, s. split; [done|].
      rewrite lookup_insert_ne; [done|]. intros ->. by apply Hne, (Hown r' bs' s).
  - intros r1 r2 b1 b2 n s1 s2. destruct (decide (r1 = r)) as [->|H1], (decide (r2 = r)) as [->|H2]; [done|..].
    + rewrite lookup_insert_eq, lookup_insert_ne by done. intros [= <-] Hb2 Hr1 Hr2.
      destruct (sequence_row_inj _ _ _ _ _ _ Hrow Hr1) as [-> _]. exfalso. apply H2. by eapply Hown.
    + rewrite lookup_insert_eq, lookup_insert_ne by done. intros Hb1 [= <-] Hr1 Hr2.
      destruct (sequence_row_inj _ _ _ _ _ _ Hrow Hr2) as [-> _]. exfalso. apply H1. by eapply Hown.
    + rewrite !lookup_insert_ne by done. apply Honce.
  - intros n s. destruct (decide (n = name)) as [->|Hne].
    + rewrite lookup_insert_eq. intros [= <-]. exists r, bs. by rewrite lookup_insert_eq.
    + rewrite lookup_insert_ne by done. intros Hm. destruct (Hnames n s Hm) as (r' & bs' & Hb & Hr). exists r', bs'. split; [|done].
      rewrite lookup_insert_ne; [done|]. intros <-. destruct (Hold bs' Hb) as (s' & Hr').
      by destruct (sequence_row_inj _ _ _ _ _ _ Hr Hr').
Qed.

Lemma sat_add_i64_succ z : -9223372036854775808 ≤ z < 9223372036854775807 → sat_add_i64 z 1 = z + 1.
Proof. unfold sat_add_i64. lia. Qed.

(** The rowid after the largest is free. *)
Lemma next_rowid_free T r :
  is_max T r → (∀ x, is_Some (T !! x) → -9223372036854775808 ≤ x < 9223372036854775807) →
  T !! next_rowid_of r = None ∧ i64_ok (next_rowid_of r).
Proof.
  unfold next_rowid_of, i64_ok. destruct r as [x|]; cbn [default is_max].
  - intros [Hx Hmax] Hb. pose proof (Hb x Hx). unfold id. rewrite sat_add_i64_succ by done. split; [|lia].
    destruct (T !! (x + 1)) eqn:E; [|done]. pose proof (Hmax (x + 1) ltac:(eauto)). lia.
  - intros -> _. vm_compute. repeat split; congruence.
Qed.

(** The part of [update_sequence] after the table was found. *)
Section sequence.
Context `{PageStoreSpec St} (ps : Z) (header : DatabaseHeader) (fuel : nat) (m T : gmap Z bytes) (t : tree) (P : gset Z)
  (M : gmap (list Z) Z) (name : list Z) (rowid : Z).
Abbreviation u := (usable_page_size header).
Abbreviation enc := (text_encoding header).
Abbreviation payload := (sequence_payload header name rowid).
Hypotheses (Hsize : page_size header = ps) (Hps : 512 ≤ ps ≤ 32768) (Hu : 35 ≤ u ≤ ps) (Ho : owned ps m) (Ht : table_of ps u m t T P)
  (Hseq : sequence_is enc T M) (Hids : ∀ x, is_Some (T !! x) → -9223372036854775808 ≤ x < 9223372036854775807)
  (Hmax : 4 * Z.of_nat (size T) + 4 ≤ MAX_PAGES_VISITED) (Hfuel : (size T < fuel)%nat)
  (Hname : str_ok name) (Hrowid : i64_ok rowid) (Hrow : row_ok u (rowid, payload)).

(** What the update leaves. *)
Definition sequence_updated (_ : ()) (m' : gmap Z bytes) (_ : nat) : Prop := ∃ t' T' P', root_of t' = root_of t ∧ table_of ps u m' t' T' P' ∧
  sequence_is enc T' (sequence_update M name rowid) ∧ outside P' m' = outside P m.

Lemma sequence_put r (m1 T1 : gmap Z bytes) t1 P1 (k1 : nat) :
  owned ps m1 → table_of ps u m1 t1 T1 P1 → root_of t1 = root_of t → outside P1 m1 = outside P m →
  T1 !! r = None → i64_ok r → (size T1 ≤ size T)%nat → (length (overflow_chunks u payload) + 6 * size T + 9 ≤ k1)%nat →
  sequence_is enc (<[r := payload]> T1) (sequence_update M name rowid) →
  runs ps (insert_row header (root_of t) r payload) m1 k1 sequence_updated.
Proof.
  intros Ho1 Ht1 Hr1 Hout1 Hnew Hr Hsz Hk1 His. rewrite <- Hr1.
  eapply runs_mono; [apply (runs_insert ps header Hps Hu r payload m1 t1 T1 P1 k1); try done; [etrans; [|exact Hmax]; lia| |lia]|].
  - destruct Hrow as (_ & ? & ? & ?). by split_and!.
  - intros [] m' k' (_ & _ & t' & P' & Hr' & Ht' & Hout'). exists t', (<[r := payload]> T1), P'. split_and!; [congruence|done|done|congruence].
Qed.

Lemma payload_row : sequence_row enc payload name rowid.
Proof.
  apply sequence_payload_row; [done|done|]. destruct Hrow as (_ & _ & Hl & _). eapply Z.le_lt_trans; [exact Hl|reflexivity].
Qed.

(** The row of the name is there: it is replaced when its sequence is less. *)
Lemma sequence_found r bs seq k :
  T !! r = Some bs → sequence_row enc bs name seq → (length (overflow_chunks u payload) + 6 * size T + 9 ≤ k)%nat →
  runs ps (if decide (seq < rowid) then
             let+ _ := delete_row header (root_of t) r in insert_row header (root_of t) r payload
           else bm_ok ()) m k sequence_updated.
Proof.
  intros Hb Hr Hk. pose proof (table_of_pages _ _ _ _ _ _ Ht) as Hpg. destruct (sq_rows _ _ _ Hseq r bs Hb) as (n & q & Hr' & HM).
  destruct (sequence_row_inj _ _ _ _ _ _ Hr Hr') as [<- <-].
  assert (Hupd : sequence_update M name rowid = <[name := Z.max seq rowid]> M) by (unfold sequence_update; by rewrite HM).
  destruct (decide (seq < rowid)) as [Hlt|Hge].
  - apply runs_bind. eapply runs_mono; [by apply (delete_runs ps header Hps Hu m T t P r Ho Ht ltac:(lia) k bs)|].
    intros _ m1 k1 (-> & Ho1 & t1 & P1 & Hroot1 & Ht1 & Hout1). cbv beta.
    apply (sequence_put r m1 (delete r T) t1 P1 k); try done; [by rewrite lookup_delete_eq|pose proof (Hids r ltac:(eauto)); unfold i64_ok; lia| |].
    + rewrite map_size_delete, Hb. cbn. lia.
    + rewrite insert_delete_eq, Hupd, Z.max_r by lia. apply sequence_insert; [done|exact payload_row| |].
      * intros r' bs' q' Hb' Hr''. by eapply (sq_once _ _ _ Hseq r' r bs' bs name q' seq).
      * intros bs' Hb'. rewrite Hb in Hb'. injection Hb' as <-. by exists seq.
  - apply runs_ok. exists t, T, P. split_and!; [done|done| |done]. by rewrite Hupd, Z.max_l, insert_id by (done || lia).
Qed.

(** The name is new. *)
Lemma sequence_new k :
  M !! name = None → (length (overflow_chunks u payload) + 6 * size T + 9 ≤ k)%nat →
  runs ps (let+ max := max_rowid fuel header (root_of t) in insert_row header (root_of t) (next_rowid_of max) payload) m k sequence_updated.
Proof.
  intros HM Hk. pose proof (table_of_pages _ _ _ _ _ _ Ht) as Hpg.
  apply runs_bind. apply (runs_max ps header fuel Hsize m k t T P); [done|lia|done|]. intros mx Hmx. cbv beta.
  destruct (next_rowid_free T mx Hmx Hids) as [Hfree Hok].
  apply (sequence_put (next_rowid_of mx) m T t P k); try done. unfold sequence_update. rewrite HM.
  apply sequence_insert; [done|exact payload_row| |by rewrite Hfree]. intros r' bs' q' Hb' Hr'.
  destruct (sq_rows _ _ _ Hseq r' bs' Hb') as (n & q & Hr & HM'). destruct (sequence_row_inj _ _ _ _ _ _ Hr Hr') as [-> _]. congruence.
Qed.
End sequence.

(** ** Properties *)

(** C10: AUTOINCREMENT sequences only grow.  On a [sqlite_sequence] table that
    holds one row per name, [update_sequence] succeeds and leaves a table that
    holds the same map with the name's entry raised to the rowid, or added;
    the entry keeps its value when it is larger already.  Every page outside
    the table is as it was, and no page is lost or shared. *)
Theorem update_sequence_refines {St} `{PageStoreSpec St} (s : St) (ps : Z) (m T : gmap Z bytes) (k fuel : nat)
    (header : DatabaseHeader) (t : tree) (P : gset Z) (M : gmap (list Z) Z) (name : list Z) (rowid : Z) :
  let u := usable_page_size header in
  let payload := sequence_payload header name rowid in
  page_size header = ps → ps ≤ 32768 → 35 ≤ u ≤ ps → st_own s ps m k → table_of ps u m t T P →
  find_master_rootpage fuel header (lit "sqlite_sequence") s = (Ok (Some (root_of t)), s) →
  sequence_is (text_encoding header) T M → (∀ x, is_Some (T !! x) → -9223372036854775808 ≤ x < 9223372036854775807) →
  4 * Z.of_nat (size T) + 4 ≤ MAX_PAGES_VISITED → (size T < fuel)%nat →
  str_ok name → i64_ok rowid → row_ok u (rowid, payload) → (length (overflow_chunks u payload) + 6 * size T + 9 ≤ k)%nat →
  ∃ s' m' k' t' T' P', update_sequence fuel header name rowid s = (Ok (), s') ∧ st_own s' ps m' k' ∧ root_of t' = root_of t ∧
    table_of ps u m' t' T' P' ∧ sequence_is (text_encoding header) T' (sequence_update M name rowid) ∧ outside P' m' = outside P m.
Proof.
  intros u payload Hsize Hps32 Hu Hs Ht Hroot Hseq Hids Hmax Hfuel Hname Hrowid Hrow Hk.
  pose proof (own_size _ _ _ _ Hs) as Hps. assert (Ho : owned ps m) by (intros n b; by eapply own_page).
  pose proof (table_of_pages _ _ _ _ _ _ Ht) as Hpg.
  assert (Hrun : runs ps (let+ existing := scan fuel header (root_of t) (text_encoding header) (sequence_body name) (λ _, None) () in
    match existing with
    | None => let+ max := max_rowid fuel header (root_of t) in insert_row header (root_of t) (next_rowid_of max) payload
    | Some (row_rowid, current_seq) =>
        if decide (current_seq < rowid) then
          let+ _ := delete_row header (root_of t) row_rowid in insert_row header (root_of t) row_rowid payload
        else bm_ok ()
    end) m k (sequence_updated ps header m t P M name rowid)).
  { apply runs_bind. apply (runs_scan ps header fuel Hsize _ _ _ _ m k t T P); [done|lia|done|]. intros rs Hsort HT.
    assert (Hin : ∀ r bs, (r, bs) ∈ rs ↔ T !! r = Some bs).
    { intros r bs. rewrite <- HT. apply elem_of_list_to_map. by apply sorted_nodup. }
    destruct (scan_sequence (text_encoding header) name rs) as (o & Hscan & Ho').
    { intros r bs Hb%Hin. destruct (sq_rows _ _ _ Hseq r bs Hb) as (n & q & Hr & _). by exists n, q. }
    exists o. split; [done|]. destruct o as [[r seq]|].
    - destruct Ho' as (bs & Hb%Hin & Hr). eapply sequence_found; [..|exact Hb|exact Hr|exact Hk]; first [done|lia].
    - assert (HM : M !! name = None).
      { destruct (M !! name) as [q|] eqn:E; [|done]. destruct (sq_names _ _ _ Hseq name q E) as (r & bs & Hb & Hr).
        exfalso. apply Hin in Hb. by eapply Ho'. }
      eapply sequence_new; [..|exact HM|exact Hk]; first [done|lia]. }
  destruct (Hrun s Hs) as ([] & m' & k' & s' & Hr & Hs' & t' & T' & P' & ?). exists s', m', k', t', T', P'. split; [|naive_solver].
  unfold update_sequence, ensure_sqlite_sequence_table. unfold bm_bind at 1 2. rewrite Hroot. exact Hr.
Qed.

(** Statistics of a table: the first column of a row of [sqlite_stat1]. *)
Definition stat_table (enc : TextEncoding) (bs : bytes) : option (list Z) :=
  match decode_record bs enc with
  | Ok vs => match vs !! 0%nat with Some (TextV tbl) => Some tbl | _ => None end
  | Err _ => None
  end.

Lemma scan_stale enc name rs acc :
  Forall (λ r : Z * bytes, is_ok (decode_record r.2 enc) = true) rs →
  scan_list (stale_body name) id enc rs acc = Ok (acc ++ (List.filter (λ r, bool_decide (stat_table enc r.2 = Some name)) rs).*1).
Proof.
  intros HF. revert acc. induction HF as [|[r bs] rs Hd HF IH]; intros acc; cbn [scan_list List.filter].
  { cbn. by rewrite app_nil_r. }
  cbn [snd] in Hd |- *. destruct (decode_record bs enc) as [vs|] eqn:Hvs; [|done]. cbn [map_err].
  assert (Hst : stat_table enc bs = match vs !! 0%nat with Some (TextV tbl) => Some tbl | _ => None end) by (unfold stat_table; by rewrite Hvs).
  unfold stale_body at 1. destruct (vs !! 0%nat) as [[]|]; try (rewrite bool_decide_eq_false_2 by congruence; apply IH).
  destruct (decide (s = name)) as [->|Hne].
  - rewrite bool_decide_eq_true_2 by done. rewrite IH. cbn [fmap list_fmap fst]. by rewrite <- (assoc_L (++)).
  - rewrite bool_decide_eq_false_2 by congruence. apply IH.
Qed.

(** ANALYZE starts over: after [delete_stat1_rows_for_table] the table holds
    exactly the rows of other tables, and every page outside it is as it
    was. *)
Theorem stat1_delete_refines {St} `{PageStoreSpec St} (s : St) (ps : Z) (m T : gmap Z bytes) (k fuel : nat)
    (header : DatabaseHeader) (t : tree) (P : gset Z) (name : list Z) :
  let u := usable_page_size header in
  page_size header = ps → ps ≤ 32768 → 35 ≤ u ≤ ps → st_own s ps m k → table_of ps u m t T P →
  map_Forall (λ _ bs, is_ok (decode_record bs (text_encoding header)) = true) T →
  2 * Z.of_nat (size T) + 1 ≤ MAX_PAGES_VISITED → (size T < fuel)%nat →
  ∃ s' m' k' t' P', delete_stat1_rows_for_table fuel header (root_of t) name s = (Ok (), s') ∧ st_own s' ps m' k' ∧ root_of t' = root_of t ∧
    table_of ps u m' t' (filter (λ x, stat_table (text_encoding header) x.2 ≠ Some name) T) P' ∧ outside P' m' = outside P m.
Proof.
  intros u Hsize Hps32 Hu Hs Ht Hdec Hmax Hfuel. pose proof (own_size _ _ _ _ Hs) as Hps.
  assert (Ho : owned ps m) by (intros n b; by eapply own_page). pose proof (table_of_pages _ _ _ _ _ _ Ht) as Hpg.
  assert (Hrun : runs ps (delete_stat1_rows_for_table fuel header (root_of t) name) m k (λ _ m' k',
    now ps header m P (root_of t) (filter (λ x, stat_table (text_encoding header) x.2 ≠ Some name) T) m' k k')).
  { apply runs_bind. apply (runs_scan ps header fuel Hsize _ _ _ _ m k t T P); [done|lia|done|]. intros rs Hsort HT.
    assert (Hnd : NoDup rs.*1) by by apply sorted_nodup.
    assert (Hin : ∀ r bs, (r, bs) ∈ rs ↔ T !! r = Some bs) by (intros r bs; rewrite <- HT; by apply elem_of_list_to_map).
    set (stale := List.filter (λ r, bool_decide (stat_table (text_encoding header) r.2 = Some name)) rs).
    assert (Hstale : ∀ r, r ∈ stale.*1 ↔ ∃ bs, T !! r = Some bs ∧ stat_table (text_encoding header) bs = Some name).
    { intros r. unfold stale. rewrite list_elem_of_fmap. setoid_rewrite list_elem_of_In. setoid_rewrite filter_In. split.
      - intros ([r' bs] & -> & Hr & Hb). exists bs. split; [by apply Hin, list_elem_of_In|]. by apply bool_decide_eq_true in Hb.
      - intros (bs & Hr & Hb). exists (r, bs). split; [done|]. split; [by apply list_elem_of_In, Hin|]. by apply bool_decide_eq_true. }
    exists stale.*1. split.
    - apply scan_stale. apply Forall_forall. intros [r bs] Hr%Hin. by apply (Hdec r).
    - eapply runs_mono; [eapply runs_delete_rows; [done|lia|done|done|exact Ht|exact Hmax|..]|].
      + unfold stale. clear -Hnd. induction rs as [|[r bs] rs IH]; [constructor|]. cbn in Hnd. apply NoDup_cons in Hnd as [Hr Hnd].
        cbn [List.filter]. case_bool_decide; [|by apply IH]. cbn. apply NoDup_cons. split; [|by apply IH].
        intros (x & Hx & Hxi)%list_elem_of_fmap. apply Hr. apply list_elem_of_fmap. exists x. split; [done|].
        apply list_elem_of_In in Hxi. apply filter_In in Hxi as [Hxi _]. by apply list_elem_of_In.
      + intros r (bs & Hr & _)%Hstale. eauto.
      + intros [] m' k' Hnow. replace (filter (λ x, stat_table (text_encoding header) x.2 ≠ Some name) T) with (filter (λ x, x.1 ∉ stale.*1) T); [done|].
        apply map_filter_ext. intros r bs Hr. cbn. rewrite Hstale. split; [|naive_solver].
        intros Hno Hst. apply Hno. by exists bs. }
  destruct (Hrun s Hs) as ([] & m' & k' & s' & Hr & Hs' & _ & _ & t' & P' & ?). exists s', m', k', t', P'. naive_solver.
Qed.

(** ** A store in memory

    Pages of 512 bytes, handed out in order and not used again: the smallest
    store that keeps the promises of [PageStoreSpec]. *)
Record mem_store : Type := { mst_pages : gmap Z bytes; mst_next : Z }.

Definition mem_missing (n : Z) : PageError := ShortRead n 512 0.

#[export] Instance mem_page_store : PageStore mem_store := {
  st_read n s := (match mst_pages s !! n with Some b => Ok b | None => Err (mem_missing n) end, s);
  st_get_mut n s := (match mst_pages s !! n with Some b => Ok b | None => Err (PPage (mem_missing n)) end, s);
  st_put n b s := {| mst_pages := <[n := b]> (mst_pages s); mst_next := mst_next s |};
  st_alloc s := (Ok (mst_next s), {| mst_pages := <[mst_next s := zeros 512]> (mst_pages s); mst_next := mst_next s + 1 |});
  st_free n s := (Ok (), {| mst_pages := delete n (mst_pages s); mst_next := mst_next s |});
}.

Definition mem_own (s : mem_store) (ps : Z) (m : gmap Z bytes) (k : nat) : Prop :=
  ps = 512 ∧ m ⊆ mst_pages s ∧ (∀ n b, m !! n = Some b → 2 ≤ n < mst_next s ∧ zlen b = 512) ∧ 2 ≤ mst_next s ∧
  mst_next s + Z.of_nat k < 4294967296.

#[export] Program Instance mem_page_store_spec : PageStoreSpec mem_store := { st_own := mem_own }.
Next Obligation. intros s ps m k (-> & _). lia. Qed.
Next Obligation. intros s ps m k n b (-> & _ & Hm & _ & Hk) Hn. destruct (Hm n b Hn). split; [lia|done]. Qed.
Next Obligation. intros s ps m k k' (-> & Hsub & Hm & H2 & Hk) Hle. split_and!; try done. lia. Qed.
Next Obligation.
  intros s ps m k n b Ho Hn. pose proof Ho as (-> & Hsub & _). exists s. cbn. by rewrite (lookup_weaken _ _ _ _ Hn Hsub).
Qed.
Next Obligation.
  intros s ps m k n b (-> & Hsub & Hm & H2 & Hk) Hn. exists s. cbn. rewrite (lookup_weaken _ _ _ _ Hn Hsub). split; [done|].
  intros b' Hb'. split_and!; [done|by apply insert_mono| |done|done]. intros n' b2. cbn. rewrite lookup_insert_Some.
  intros [[<- <-]|[_ Hn']]; [split; [by apply (Hm n b)|done]|by apply Hm].
Qed.
Next Obligation.
  intros s ps m k (-> & Hsub & Hm & H2 & Hk). exists (mst_next s), (zeros 512). eexists. split; [done|].
  assert (Hnew : m !! mst_next s = None).
  { destruct (m !! mst_next s) as [b|] eqn:E; [|done]. destruct (Hm _ _ E). lia. }
  split; [done|]. split_and!; [done|by apply insert_mono| |cbn; lia|cbn; lia]. intros n b. cbn. rewrite lookup_insert_Some.
  intros [[<- <-]|[_ Hn]]; [split; [lia|exact (length_zeros 512 ltac:(lia))]|]. destruct (Hm n b Hn). split; [lia|done].
Qed.
Next Obligation.
  intros s ps m k n b (-> & Hsub & Hm & H2 & Hk) Hn. eexists. split; [done|]. split_and!; [done|by apply delete_mono| |done|done].
  intros n' b'. cbn. rewrite lookup_delete_Some. intros [_ Hn']. by apply Hm.
Qed.

(** Page 1 names a [sqlite_sequence] at page 2. *)
Definition example_master_cell : bytes :=
  let bs := encode_record [TextV (lit "table"); TextV (lit "sqlite_sequence"); TextV (lit "sqlite_sequence"); Integer 2; TextV SQLITE_SEQUENCE_SQL] Utf8 in
  encode_varint (zlen bs) ++ [1] ++ bs.

Definition example_mem : mem_store :=
  {| mst_pages := {[1 := (write_leaf_page 100 1 [example_master_cell] (zeros 512)).1]}; mst_next := 2 |}.

Lemma update_sequence_refines_witness :
  ∃ s s' T', create_empty_table_root example_mem = (Ok 2, s) ∧
    update_sequence 5 example_header (lit "users") 7 s = (Ok (), s') ∧
    sequence_is Utf8 T' {[lit "users" := 7]}.
Proof.
  assert (Hown : st_own example_mem 512 ∅ 101).
  { split_and!; [done|apply map_empty_subseteq|by intros ? ? ?|done|done]. }
  destruct (create_runs 512 example_header ltac:(lia) example_usable ∅ 100 ltac:(by intros ???) example_mem Hown)
    as (root & m & k & s & Hc & Hs & -> & _ & _ & Ht & _).
  assert (root = 2 ∧ find_master_rootpage 5 example_header (lit "sqlite_sequence") s = (Ok (Some 2), s)) as [-> Hroot].
  { vm_compute in Hc. injection Hc as <- <-. split; [done|]. vm_compute. reflexivity. }
  destruct (update_sequence_refines s 512 m ∅ 100 5 example_header (Leaf 2 []) {[2]} ∅ (lit "users") 7)
    as (s' & m' & k' & t' & T' & P' & Hr & _ & _ & _ & Hseq & _).
  - reflexivity.
  - lia.
  - exact example_usable.
  - exact Hs.
  - exact Ht.
  - exact Hroot.
  - by split.
  - intros x [? Hx]. done.
  - vm_compute. congruence.
  - vm_compute. lia.
  - apply (bool_decide_unpack _). vm_compute. exact I.
  - vm_compute. split; congruence.
  - apply row_okb_ok. vm_compute. reflexivity.
  - vm_compute. lia.
  - exists s, s', T'. split; [exact Hc|]. split; [exact Hr|]. exact Hseq.
Defined.
