(* ===== verification/BtreeFree.v ===== *)
(** * Freeing a whole b-tree ([row/btree/mod.rs])

    [free_btree_pages] gives back the pages of a dropped table or index:
    children before parents, and the overflow chain of every cell.  On a
    table it frees exactly the pages of the table, whatever its shape. *)

From S2P Require Import Prelude Varint Text Record Vfs Header Freelist PageCache Lock Pager Commit Allocator BtreePage BtreeSplice BtreePayload IndexKey BtreeCursor BtreeLeaf BtreeStore BtreeInsert BtreeSplit BtreeZip BtreeInsertProof BtreeInsertRow BtreeOverflow BtreeDelete IndexWrite BtreeDeleteProof BtreeTable TableSession Master.

Section free.
Context `{PageStore St}.

(** ** Overflow chains

    [free_overflow_chain] of [mod.rs], which counts the pages it visits;
    the one of [table/delete.rs] is in [BtreeDelete]. *)
Fixpoint free_chain_counted (fuel : nat) (owner_page_num overflow_page : Z) (seen : gset Z) (visited : Z) : BM St Z :=
  match fuel with
  | O => bm_lift (Err (BInternal "free_overflow_chain: out of fuel"))
  | S fuel =>
      if decide (overflow_page = 0) then bm_ok visited
      else
        let visited := sat_add visited 1 in
        if decide (MAX_PAGES_VISITED < visited) then bm_lift (Err (TraversalTooLong MAX_PAGES_VISITED))
        else if decide (overflow_page ∈ seen) then bm_lift (Err (OverflowChainCycle owner_page_num overflow_page))
        else
          let+ page := bm_read overflow_page in
          let+ next := bm_lift (read_u32 page 0 overflow_page) in
          let+ _ := bm_free overflow_page in
          free_chain_counted fuel owner_page_num next ({[overflow_page]} ∪ seen) visited
  end.

(** Every round counts a page. *)
Definition chain_fuel (visited : Z) : nat := Z.to_nat (MAX_PAGES_VISITED - visited + 2).

Definition free_first_chain (owner_page_num : Z) (first : option Z) (visited : Z) : BM St Z :=
  match first with
  | Some overflow_page => free_chain_counted (chain_fuel visited) owner_page_num overflow_page ∅ visited
  | None => bm_ok visited
  end.

(** The loop over the cells of a page; [head] decodes the payload length of
    the cell at an offset and where its payload starts. *)
Fixpoint free_cell_chains (n : nat) (i : Z) (head : Z → result BtreeError (Z * Z)) (buf : bytes) (ptr_base page_num usable_size : Z)
    (is_index : bool) (visited : Z) : BM St Z :=
  match n with
  | O => bm_ok visited
  | S n =>
      let+ cell_start := bm_lift (read_cell_pointer buf (cell_ptr_offset ptr_base i) page_num i) in
      let+ pt := bm_lift (head cell_start) in
      let+ first := bm_lift (first_overflow_page buf pt.2 pt.1 usable_size page_num is_index) in
      let+ visited := free_first_chain page_num first visited in
      free_cell_chains n (i + 1) head buf ptr_base page_num usable_size is_index visited
  end.

(** ** The tree *)

Fixpoint free_each (free : Z → Z → BM St Z) (children : list Z) (visited : Z) : BM St Z :=
  match children with
  | [] => bm_ok visited
  | child :: children => let+ visited := free child visited in free_each free children visited
  end.

(** [fuel] bounds the depth, which the pages visited bound. *)
Fixpoint free_btree_pages_inner (fuel : nat) (usable_size : Z) (encoding : TextEncoding) (page_num visited : Z) : BM St Z :=
  match fuel with
  | O => bm_lift (Err (BInternal "free_btree_pages: out of fuel"))
  | S fuel =>
      let free := free_btree_pages_inner fuel usable_size encoding in
      let visited := sat_add visited 1 in
      if decide (MAX_PAGES_VISITED < visited) then bm_lift (Err (TraversalTooLong MAX_PAGES_VISITED))
      else
        let+ buf := bm_read page_num in
        let header_start := page1_header_start page_num in
        let+ page_type := bm_lift (read_page_type buf header_start page_num) in
        let+ visited :=
          (if decide (page_type = LEAF_TABLE) then
             let+ num_cells := bm_lift (read_num_cells buf header_start page_num) in
             free_cell_chains (Z.to_nat num_cells) 0 (λ cell_start, let? h := decode_cell_head buf cell_start page_num in Ok (h.1.2, h.2))
               buf (sat_add header_start 8) page_num usable_size false visited
           else if decide (page_type = INTERIOR_TABLE) then
             let+ er := bm_lift (collect_interior_entries buf header_start page_num) in
             let+ visited := free_each free er.1.*1 visited in
             free er.2 visited
           else if decide (page_type = LEAF_INDEX) then
             let+ num_cells := bm_lift (read_num_cells buf header_start page_num) in
             free_cell_chains (Z.to_nat num_cells) 0 (λ cell_start, decode_payload_len buf cell_start page_num)
               buf (sat_add header_start 8) page_num usable_size true visited
           else if decide (page_type = INTERIOR_INDEX) then
             let+ num_cells := bm_lift (read_num_cells buf header_start page_num) in
             let+ visited := free_cell_chains (Z.to_nat num_cells) 0 (λ cell_start, decode_payload_len buf (sat_add cell_start 4) page_num)
                               buf (sat_add header_start 12) page_num usable_size true visited in
             let+ er := collect_index_interior_entries buf header_start page_num usable_size encoding in
             let+ visited := free_each free (map ie_child er.1) visited in
             free er.2 visited
           else bm_lift (Err (UnexpectedPageType page_num page_type))) in
        let+ _ := bm_free page_num in
        bm_ok visited
  end.

Definition free_btree_pages (header : DatabaseHeader) (root_page : Z) : BM St () :=
  let+ _ := free_btree_pages_inner (Z.to_nat (MAX_PAGES_VISITED + 1)) (usable_page_size header) (text_encoding header) root_page 0 in
  bm_ok ().
End free.

(** ** A table goes as a whole *)

Section proof.
Context `{PageStoreSpec St} (ps u : Z).
Implicit Types (m : gmap Z bytes) (k : nat).

Abbreviation at_ m := (tree_at u (in_map m)).
Abbreviation runs c m k Q := (BtreeStore.runs ps c m k Q).

Lemma without_app l1 l2 m m1 m' : without l1 m m1 → without l2 m1 m' → without (l1 ++ l2) m m'.
Proof.
  intros H1 H2 n. rewrite H2, H1. repeat case_decide; try done; rewrite elem_of_app in *; tauto.
Qed.

Lemma free_chain_ok fuel owner pgs (data : bytes) avail seen visited m k :
  chain_at (in_map m) avail pgs data → NoDup pgs → (∀ n, n ∈ pgs → n ∉ seen) → (length pgs < fuel)%nat →
  0 ≤ visited → visited + zlen pgs ≤ MAX_PAGES_VISITED →
  runs (free_chain_counted fuel owner (hd 0 pgs) seen visited) m k (λ v m' k', k' = k ∧ v = visited + zlen pgs ∧ without pgs m m').
Proof.
  assert (HM : MAX_PAGES_VISITED = 1000000) by done. assert (HU : 9000000000 ≤ USIZE_MAX) by done.
  revert fuel data seen visited m k. induction pgs as [|p pgs IH]; intros fuel data seen visited m k Hc Hnd Hs Hf Hv0 Hv;
    (destruct fuel as [|fuel]; [cbn in Hf; lia|]); cbn [free_chain_counted hd].
  { rewrite decide_True by done. apply runs_ok. split_and!; [done|cbn; lia|apply without_nil]. }
  destruct Hc as (_ & Hp0 & buf & Hb%in_map_Ok & Hr & _ & Hc). apply NoDup_cons in Hnd as [Hp Hnd]. cbn [length] in Hv, Hf.
  assert (Hsa : sat_add visited 1 = visited + 1) by (unfold sat_add; lia).
  rewrite decide_False by done. rewrite Hsa, decide_False by lia. rewrite decide_False by (apply Hs; left).
  apply runs_bind. eapply runs_read; [exact Hb|]. apply runs_bind. eapply runs_lift; [unfold read_u32; by rewrite Hr|].
  apply runs_bind. eapply runs_free; [exact Hb|]. eapply runs_mono; [eapply IH; [|done| |lia|lia|lia]|].
  - eapply chain_at_ext; [|exact Hc]. intros n Hn. unfold in_map. rewrite lookup_delete_ne; [done|]. by intros ->.
  - intros n Hn [->%elem_of_singleton|Hin]%elem_of_union; [done|]. apply (Hs n); [by right|done].
  - intros v m' k' (-> & -> & Hw). split_and!; [done|cbn [length]; lia|]. by apply without_delete.
Qed.

(** The chain of the cell of a row. *)
Lemma free_row_chain_ok buf off c r pgs owner visited m k :
  row_in (in_map m) u c r pgs → table_cell u c → get_range buf off (off + zlen c) = Some c → zlen buf ≤ 65536 →
  0 ≤ visited → visited + zlen pgs ≤ MAX_PAGES_VISITED →
  ∃ pt first, (let? h := decode_cell_head buf off owner in Ok (h.1.2, h.2)) = Ok pt ∧
    first_overflow_page buf pt.2 pt.1 u owner false = Ok first ∧
    runs (free_first_chain owner first visited) m k (λ v m' k', k' = k ∧ v = visited + zlen pgs ∧ without pgs m m').
Proof.
  intros (n & Hd & Hn & Hmax & Hnd & Hl & Hg & Hc) Hcell Hget Hsz Hv0 Hv.
  assert (HM : MAX_PAGES_VISITED = 1000000) by done.
  destruct (table_cell_read u buf off c owner Hcell Hsz Hget) as (pl & t & Hhead & _ & _ & Ht & Hd0).
  rewrite Hd in Hd0. injection Hd0 as Hr Hpl Hnt. pose proof Hget as (? & ? & _)%get_range_Some.
  assert (HMP : MAX_PAYLOAD_LEN = 2147483647) by done. assert (HU : 9000000000 ≤ USIZE_MAX) by done.
  pose proof (local_payload_size_nonneg u (zlen r.2) false ltac:(lia)) as Hnn. exists (pl, t). rewrite Hhead. unfold first_overflow_page. cbn [fst snd]. rewrite <- Hpl.
  case_decide as Hov.
  - destruct Hc as [Hrd Hch]. pose proof (read_be_sub 4 buf off c (n + local_payload_size u (zlen r.2) false) _ Hget Hsz ltac:(lia) Hrd) as Hrd'.
    exists (Some (hd 0 pgs)). split; [done|]. split.
    + unfold read_u32. replace (sat_add t _) with (off + (n + local_payload_size u (zlen r.2) false)); [by rewrite Hrd'|].
      unfold sat_add. lia.
    + cbn [free_first_chain]. eapply free_chain_ok; [exact Hch|done|intros ? _; apply not_elem_of_empty| |done|done].
      unfold chain_fuel. lia.
  - subst pgs. exists None. split; [done|]. split; [done|]. apply runs_ok. split_and!; [done|cbn; lia|apply without_nil].
Qed.

Lemma rows_without l m m' cs rs ovf :
  without l m m' → (∀ n, n ∈ concat ovf → n ∉ l) → Forall3 (row_in (in_map m) u) cs rs ovf → Forall3 (row_in (in_map m') u) cs rs ovf.
Proof.
  intros Hw Hd HF. induction HF as [|c r pgs cs rs ovf Hr HF IH]; constructor.
  - eapply row_in_ext; [|exact Hr]. intros n Hn. unfold in_map. rewrite (without_other l m m' n Hw); [done|].
    apply Hd. cbn. apply elem_of_app. by left.
  - apply IH. intros n Hn. apply Hd. cbn. apply elem_of_app. by right.
Qed.

Lemma tree_without l m m' t : without l m m' → (∀ n, n ∈ pages t → n ∉ l) → at_ m t → at_ m' t.
Proof. intros Hw Hd. apply tree_at_ext. intros n Hn. unfold in_map. by rewrite (without_other l m m' n Hw) by (by apply Hd). Qed.

Lemma free_cells_ok buf pn cells cs rs ovf j visited m k :
  table_leaf u (page1_header_start pn) cells buf → drop j cells = cs → Forall3 (row_in (in_map m) u) cs rs ovf → NoDup (concat ovf) →
  0 ≤ visited → visited + zlen (concat ovf) ≤ MAX_PAGES_VISITED →
  runs (free_cell_chains (length cs) (Z.of_nat j) (λ cell_start, let? h := decode_cell_head buf cell_start pn in Ok (h.1.2, h.2))
          buf (sat_add (page1_header_start pn) 8) pn u false visited) m k
    (λ v m' k', k' = k ∧ v = visited + zlen (concat ovf) ∧ without (concat ovf) m m').
Proof.
  intros Hleaf. revert rs ovf j visited m k. induction cs as [|c cs IH]; intros rs ovf j visited m k Hcs HF Hnd Hv0 Hv;
    inversion HF as [|? r pgs ? rs' ovf' Hr HF']; subst; cbn [free_cell_chains length concat].
  { apply runs_ok. split_and!; [done|cbn; lia|apply without_nil]. }
  cbn [concat] in Hnd, Hv. rewrite length_app in Hv. apply NoDup_app in Hnd as (_ & Hdis & Hnd).
  assert (Hj : cells !! j = Some c) by (rewrite <- (Nat.add_0_r j), <- lookup_drop, Hcs; done).
  assert (Hcs' : drop (S j) cells = cs) by (rewrite <- Nat.add_1_r, <- drop_drop, Hcs; done).
  pose proof Hleaf as (_ & Hw & offs & csz & bl & Hlay). pose proof (ll_cells _ _ _ _ _ _ Hlay) as Hc.
  pose proof (leaf_count _ _ _ _ _ _ Hlay) as [Hn _]. pose proof (ll_size _ _ _ _ _ _ Hlay) as Hsz.
  destruct (hc_lookup _ _ _ _ _ _ _ Hc Hj) as [off Ho]. pose proof (hc_cell _ _ _ _ _ Hc j off c Ho Hj) as Hg.
  pose proof (Forall_lookup_1 _ _ _ _ Hw Hj) as Hcell. pose proof (hs_bounds pn) as Hhs.
  destruct (free_row_chain_ok buf off c r pgs pn visited m k Hr Hcell Hg ltac:(lia) Hv0 ltac:(lia)) as (pt & first & Hpt & Hfirst & Hrun).
  apply runs_bind. eapply runs_lift; [by apply (hc_pointer _ _ _ _ _ _ _ pn Hc); (done || lia)|].
  apply runs_bind. eapply runs_lift; [exact Hpt|]. apply runs_bind. eapply runs_lift; [exact Hfirst|].
  apply runs_bind. eapply runs_mono; [exact Hrun|]. intros v m1 k1 (-> & -> & Hw1). cbv beta.
  replace (Z.of_nat j + 1) with (Z.of_nat (S j)) by lia.
  eapply runs_mono; [apply (IH rs' ovf' (S j)); [done| |done|lia|lia]|].
  - eapply rows_without; [exact Hw1| |exact HF']. intros n Hn' Hin. by apply (Hdis n Hin).
  - intros v m' k' (-> & -> & Hw2). split_and!; [done|rewrite length_app; lia|]. by eapply without_app.
Qed.
Abbreviation freed l visited m k := (λ v m' k', k' = k ∧ v = visited + zlen l ∧ without l m m') (only parsing).

Lemma zlen_perm (l1 l2 : list Z) : l1 ≡ₚ l2 → zlen l1 = zlen l2.
Proof. intros Hp. by rewrite Hp. Qed.

Lemma without_perm l1 l2 m m' : l1 ≡ₚ l2 → without l1 m m' → without l2 m m'.
Proof. intros Hp Hw n. rewrite Hw. by rewrite (decide_ext (n ∈ l1) (n ∈ l2)) by (by rewrite Hp). Qed.

(** What freeing a tree does, for any of its subtrees. *)
Definition frees (fuel : nat) (enc : TextEncoding) (t : tree) : Prop := ∀ rs ovf visited m k,
  at_ m t → Forall3 (row_in (in_map m) u) (rows t) rs ovf → NoDup (pages t ++ concat ovf) →
  0 ≤ visited → visited + zlen (pages t ++ concat ovf) ≤ MAX_PAGES_VISITED →
  runs (free_btree_pages_inner fuel u enc (root_of t) visited) m k (freed (pages t ++ concat ovf) visited m k).

Definition kid_pages (ts : list tree) : list Z := concat (map pages ts).

Lemma kid_pages_elem t ts n : t ∈ ts → n ∈ pages t → n ∈ kid_pages ts.
Proof.
  intros Ht Hn. apply list_elem_of_In, in_concat. exists (pages t).
  split; apply list_elem_of_In; [by apply list_elem_of_fmap_2|done].
Qed.

Lemma free_each_ok fuel enc ts rs ovf visited m k :
  Forall (frees fuel enc) ts → Forall (at_ m) ts → Forall3 (row_in (in_map m) u) (concat (map rows ts)) rs ovf →
  NoDup (kid_pages ts ++ concat ovf) → 0 ≤ visited → visited + zlen (kid_pages ts ++ concat ovf) ≤ MAX_PAGES_VISITED →
  runs (free_each (free_btree_pages_inner fuel u enc) (map root_of ts) visited) m k (freed (kid_pages ts ++ concat ovf) visited m k).
Proof.
  intros HF. revert rs ovf visited m k. induction HF as [|t ts Ht HF IH]; intros rs ovf visited m k Hat HR Hnd Hv0 Hv; cbn [map free_each concat] in *.
  { inversion HR; subst. apply runs_ok. split_and!; [done|cbn; lia|apply without_nil]. }
  apply Forall_cons in Hat as [Hat1 Hat]. apply Forall3_app_inv_l in HR as (rs1 & rs2 & ovf1 & ovf2 & -> & -> & HR1 & HR2).
  rewrite concat_app in Hnd, Hv |- *.
  assert (Hp : kid_pages (t :: ts) ++ concat ovf1 ++ concat ovf2 ≡ₚ (pages t ++ concat ovf1) ++ (kid_pages ts ++ concat ovf2)).
  { unfold kid_pages. cbn [map concat]. solve_Permutation. }
  rewrite Hp in Hnd. rewrite (zlen_perm _ _ Hp) in Hv. apply NoDup_app in Hnd as (Hnd1 & Hdis & Hnd2). rewrite length_app in Hv.
  apply runs_bind. eapply runs_mono; [apply (Ht rs1 ovf1 visited m k Hat1 HR1 Hnd1 Hv0); lia|].
  intros v m1 k1 (-> & -> & Hw1). cbv beta. eapply runs_mono; [apply (IH rs2 ovf2 _ m1 k)|].
  - apply Forall_forall. intros t' Ht'. eapply tree_without; [exact Hw1| |by eapply Forall_forall]. intros n Hn Hin.
    apply (Hdis n Hin), elem_of_app. left. by eapply kid_pages_elem.
  - eapply rows_without; [exact Hw1| |exact HR2]. intros n Hn Hin. apply (Hdis n Hin), elem_of_app. by right.
  - done.
  - lia.
  - lia.
  - intros v m' k' (-> & -> & Hw2). split_and!; [done|rewrite (zlen_perm _ _ Hp), !length_app; lia|].
    eapply without_perm; [symmetry; exact Hp|]. by eapply without_app.
Qed.

(** The end of a visit: the page itself goes after what hangs below it. *)
Lemma free_last_ok pn buf l v visited m k m1 :
  m !! pn = Some buf → without l m m1 → pn ∉ l → v = visited + 1 + zlen l →
  runs (let+ _ := bm_free pn in bm_ok v) m1 k (freed (pn :: l) visited m k).
Proof.
  intros Hb Hw Hn ->. apply runs_bind. eapply runs_free; [by rewrite (without_other l m m1)|].
  apply runs_ok. split_and!; [done|cbn [length]; lia|]. eapply without_perm; [symmetry; apply Permutation_cons_append|].
  eapply without_app; [exact Hw|]. apply without_delete, without_nil.
Qed.

Lemma free_tree_ok fuel enc t : (length (pages t) ≤ fuel)%nat → frees fuel enc t.
Proof.
  assert (HM : MAX_PAGES_VISITED = 1000000) by done.
  revert t. induction fuel as [|fuel IH]; intros t Hf; [pose proof (pages_pos t); lia|].
  intros rs ovf visited m k Hat HR Hnd Hv0 Hv. cbn [free_btree_pages_inner].
  pose proof (hs_bounds (root_of t)) as Hhs. pose proof (pages_pos t) as Hpos. rewrite length_app in Hv.
  rewrite sat_add_page, decide_False by lia. destruct t as [pn cells|pn kids rt]; cbn [root_of pages] in *.
  - destruct Hat as (buf & Hb%in_map_Ok & Hleaf). pose proof Hleaf as (Hty & _ & offs & cs & bl & Hlay).
    pose proof (leaf_count _ _ _ _ _ _ Hlay) as [Hn _]. cbn [app length rows] in *. apply NoDup_cons in Hnd as [Hpn Hnd].
    apply runs_bind. eapply runs_read; [exact Hb|]. apply runs_bind.
    eapply runs_lift; [unfold read_page_type; by rewrite Hty|]. rewrite decide_True by done. apply runs_bind. apply runs_bind.
    eapply runs_lift; [rewrite read_num_cells_eq by lia; by rewrite (hc_num _ _ _ _ _ (ll_cells _ _ _ _ _ _ Hlay))|].
    rewrite Nat2Z.id. eapply runs_mono; [eapply (free_cells_ok buf pn cells cells rs ovf 0); (done || lia)|].
    intros v m1 k1 (-> & -> & Hw). cbv beta. by eapply free_last_ok.
  - destruct Hat as ((buf & Hb%in_map_Ok & Hsz & Hok & Hpage) & Hks%tree_at_kids & Hr). pose proof Hpage as (Hty & _).
    apply runs_bind. eapply runs_read; [exact Hb|]. apply runs_bind.
    eapply runs_lift; [unfold read_page_type; by rewrite Hty|]. rewrite decide_False, decide_True by done. apply runs_bind. apply runs_bind.
    eapply runs_lift; [by apply (interior_page_collect _ _ _ _ pn Hpage); lia|]. cbn [fst snd].
    set (ts := map snd kids).
    assert (He : (entries kids).*1 = map root_of ts) by (unfold entries, ts; by rewrite <- list_fmap_compose, !map_map).
    assert (Hkp : concat (map (λ k : Z * tree, pages k.2) kids) = kid_pages ts) by (unfold kid_pages, ts; by rewrite map_map).
    assert (Hkr : concat (map (λ k : Z * tree, rows k.2) kids) = concat (map rows ts)) by (unfold ts; by rewrite map_map).
    rewrite Hkp in *. cbn [rows] in HR. rewrite Hkr in HR.
    apply Forall3_app_inv_l in HR as (rs1 & rs2 & ovf1 & ovf2 & -> & -> & HR1 & HR2). rewrite concat_app in *.
    assert (Hp : (kid_pages ts ++ pages rt) ++ concat ovf1 ++ concat ovf2 ≡ₚ
                 (kid_pages ts ++ concat ovf1) ++ (pages rt ++ concat ovf2)) by solve_Permutation.
    cbn [app length] in *. apply NoDup_cons in Hnd as [Hpn Hnd]. rewrite Hp in Hnd, Hpn.
    apply NoDup_app in Hnd as (Hnd1 & Hdis & Hnd2). rewrite !length_app in *.
    apply runs_bind. rewrite He. eapply runs_mono; [apply (free_each_ok fuel enc ts rs1 ovf1)|].
    + apply Forall_forall. intros t' Ht'. apply IH.
      assert (length (pages t') ≤ length (kid_pages ts))%nat; [|lia].
      unfold kid_pages. apply list_elem_of_split in Ht' as (l1 & l2 & ->). rewrite map_app. cbn. rewrite concat_app. cbn. rewrite !length_app. lia.
    + unfold ts. by apply (Forall_fmap snd).
    + done.
    + done.
    + lia.
    + rewrite length_app. lia.
    + intros v m1 k1 (-> & -> & Hw1). cbv beta. rewrite length_app.
      eapply runs_mono; [apply (IH rt ltac:(lia) rs2 ovf2)|].
      * eapply tree_without; [exact Hw1| |exact Hr]. intros n Hn Hin. apply (Hdis n Hin), elem_of_app. by left.
      * eapply rows_without; [exact Hw1| |exact HR2]. intros n Hn Hin. apply (Hdis n Hin), elem_of_app. by right.
      * done.
      * lia.
      * rewrite length_app. lia.
      * intros v m' k' (-> & -> & Hw2). cbv beta.
        eapply runs_mono; [eapply (free_last_ok pn buf _ _ visited m k); [exact Hb|by eapply without_app|done|rewrite !length_app; lia]|].
        intros v m2 k2 (-> & -> & Hw). split_and!; [done|cbn [length]; rewrite !length_app; lia|].
        eapply without_perm; [|exact Hw]. apply perm_skip. by symmetry.
Qed.

(** C9: [free_btree_pages] on a table gives back the pages of its tree and of
    every overflow chain of its rows, each exactly once, leaves every other
    page the client owns as it was, and does so in whatever shape the tree
    is; the only limit is the million pages a walk may visit. *)
Theorem free_btree_pages_refines s header m t T P k :
  usable_page_size header = u → st_own s ps m k → table_of ps u m t T P → Z.of_nat (size P) ≤ MAX_PAGES_VISITED →
  ∃ s' m', free_btree_pages header (root_of t) s = (Ok (), s') ∧ st_own s' ps m' k ∧
    ∀ n, m' !! n = if decide (n ∈ P) then None else m !! n.
Proof.
  intros Hu Hs (rs & ovf & [Hat _ _ HR Hnd _] & _ & ->) Hsz. rewrite size_list_to_set in Hsz by done.
  assert (HM : MAX_PAGES_VISITED = 1000000) by done. unfold free_btree_pages. rewrite Hu.
  assert (Hrun : runs (free_btree_pages_inner (Z.to_nat (MAX_PAGES_VISITED + 1)) u (text_encoding header) (root_of t) 0) m k
                   (freed (pages t ++ concat ovf) 0 m k)).
  { apply (free_tree_ok _ _ t) with (rs := rs); [rewrite length_app in Hsz; lia|done..|lia]. }
  destruct (Hrun s Hs) as (v & m' & k' & s' & Heq & Hs' & -> & _ & Hw). exists s', m'. split_and!; [|done|].
  - unfold bm_bind. by rewrite Heq.
  - intros n. rewrite Hw. apply decide_ext. by rewrite elem_of_list_to_set.
Qed.
End proof.

(** A table of one empty page, in a store of two pages. *)
Lemma free_btree_pages_refines_witness :
  ∃ s s', create_empty_table_root example_mem = (Ok 2, s) ∧ free_btree_pages example_header 2 s = (Ok (), s').
Proof.
  assert (Hown : st_own example_mem 512 ∅ 101).
  { split_and!; [done|apply map_empty_subseteq|by intros ? ? ?|done|done]. }
  destruct (create_runs 512 example_header ltac:(lia) example_usable ∅ 100 ltac:(by intros ???) example_mem Hown)
    as (root & m & k & s & Hc & Hs & -> & _ & _ & Ht & _).
  assert (root = 2) as -> by (vm_compute in Hc; by injection Hc as <- <-).
  destruct (free_btree_pages_refines 512 (usable_page_size example_header) s example_header m (Leaf 2 []) ∅ {[2]} 100) as (s' & m' & Hf & _ & _).
  - reflexivity.
  - exact Hs.
  - exact Ht.
  - vm_compute. congruence.
  - exists s, s'. split; [exact Hc|exact Hf].
Defined.

(** ** An index whose separator keys overflow

    The overflow chains of an interior index page are freed before its
    entries are collected, and collecting an entry reads its chain: by then
    the first page freed may be a trunk of the freelist. *)
Definition wide_key (i : Z) : list Value := [TextV (repeat (97 + i) 900); Integer i].

Fixpoint insert_keys {St} `{PageStore St} (root : Z) (keys : list (list Value)) : BM St () :=
  match keys with
  | [] => bm_ok ()
  | key :: keys => let+ _ := insert_entry example_header root key Utf8 in insert_keys root keys
  end.

Definition wide_keys : list (list Value) := map (λ i, wide_key (Z.of_nat i)) (seq 0 11).

Definition wide_index : pager_client () := (insert_keys 2 wide_keys (create_empty_index_root example_client).2).2.

(** Eleven keys of 900 characters make an index of 512-byte pages whose root
    is an interior page; every key is found in it ([insert_entry] answers
    [DuplicateKey]), and it cannot be freed: the walk ends in
    [OverflowChainTruncated] on a chain it has just freed itself. *)
Theorem overflowing_index_not_freed :
  ∃ c1 c2 c3 : pager_client (), create_empty_index_root example_client = (Ok 2, c1) ∧
    insert_keys 2 wide_keys c1 = (Ok (), c2) ∧
    Forall (λ key, (insert_entry example_header 2 key Utf8 c2).1 = Err DuplicateKey) wide_keys ∧
    free_btree_pages example_header 2 c2 = (Err (OverflowChainTruncated 2), c3).
Proof.
  assert (Hrun : ∀ A (r : result BtreeError A) (f : result BtreeError A * pager_client ()), f.1 = r → f = (r, f.2)) by (by intros A r [] <-).
  exists (create_empty_index_root example_client).2, wide_index, (free_btree_pages example_header 2 wide_index).2. split; [apply Hrun; vm_compute; reflexivity|]. split; [apply Hrun; vm_compute; reflexivity|].
  split; [|apply Hrun; vm_compute; reflexivity].
  assert (Hall : forallb (λ key, match (insert_entry example_header 2 key Utf8 wide_index).1 with Err DuplicateKey => true | _ => false end) wide_keys = true)
    by (vm_compute; reflexivity).
  apply Forall_forall. intros key Hkey%list_elem_of_In. rewrite forallb_forall in Hall. specialize (Hall key Hkey).
  change ((insert_entry example_header 2 key Utf8 wide_index).1 = Err DuplicateKey).
  destruct (insert_entry example_header 2 key Utf8 wide_index).1 as [|[]]; done.
Qed.
