(* ===== verification/ColumnVfs.v ===== *)
(** * The files of the column store ([column/vfs.rs], [column/memory.rs])

    The column engines see a file as its size, positioned reads and a map of
    the whole of it.  The class states the three operations, its laws what an
    engine relies on: they all speak of the same bytes.  The in-memory
    backend keeps the laws; the POSIX one is system calls. *)

From S2P Require Import Prelude Vfs.

(** ** The trait *)

Class ColumnFile (F : Type) := {
  cf_size : F → result VfsError Z;
  (** The number of bytes read, and the buffer afterwards. *)
  cf_read_at : F → Z → bytes → result VfsError (Z * bytes);
  cf_mmap : F → result VfsError bytes;
}.

Class ColumnFileSpec (F : Type) `{ColumnFile F} := {
  cf_bytes : F → bytes;
  cf_size_ok f : cf_size f = Ok (zlen (cf_bytes f));
  cf_mmap_ok f : cf_mmap f = Ok (cf_bytes f);
  (** A read may be short only where the file ends. *)
  cf_read_ok f offset buf : 0 ≤ offset → ∃ n, 
    n = Z.max 0 (Z.min (zlen (cf_bytes f) - offset) (zlen buf)) ∧
    cf_read_at f offset buf = Ok (n, take (Z.to_nat n) (drop (Z.to_nat offset) (cf_bytes f)) ++ drop (Z.to_nat n) buf);
}.

(** ** [MemoryVfs] *)

Record MemoryVfs : Type := { files : gmap string bytes }.

Definition MemoryVfs_new : MemoryVfs := {| files := ∅ |}.

Definition MemoryVfs_insert (path : string) (contents : bytes) (vfs : MemoryVfs) : MemoryVfs := {| files := <[path := contents]> (files vfs) |}.

Record MemoryFile : Type := { contents : bytes }.

(** The file shares the bytes it was opened with: replacing the entry of the
    table does not change it. *)
Definition MemoryVfs_open (vfs : MemoryVfs) (path : string) : result VfsError MemoryFile :=
  let? bs := ok_or (files vfs !! path) (NotFound path) in
  Ok {| contents := bs |}.

Definition MemoryFile_size (f : MemoryFile) : result VfsError Z := Ok (zlen (contents f)).

Definition MemoryFile_read_at (f : MemoryFile) (offset : Z) (buf : bytes) : result VfsError (Z * bytes) :=
  if decide (zlen (contents f) ≤ offset) then Ok (0, buf)
  else
    let available := drop (Z.to_nat offset) (contents f) in
    let n := Z.min (zlen available) (zlen buf) in
    Ok (n, take (Z.to_nat n) available ++ drop (Z.to_nat n) buf).

Definition MemoryFile_mmap (f : MemoryFile) : result VfsError bytes := Ok (contents f).

#[export] Instance memory_column_file : ColumnFile MemoryFile := { cf_size := MemoryFile_size; cf_read_at := MemoryFile_read_at; cf_mmap := MemoryFile_mmap }.

#[export] Program Instance memory_column_file_spec : ColumnFileSpec MemoryFile := { cf_bytes := contents }.
Next Obligation. done. Qed.
Next Obligation. done. Qed.
Next Obligation.
  intros f offset buf Ho. eexists. split; [reflexivity|]. cbn [cf_read_at memory_column_file]. unfold MemoryFile_read_at. case_decide as Hle.
  - rewrite Z.max_l by lia. by rewrite drop_ge, take_nil by lia.
  - cbv zeta. rewrite length_drop. rewrite Z.max_r by lia. do 3 f_equal; [lia|f_equal; lia|f_equal; lia].
Qed.

Lemma open_insert path bs vfs : MemoryVfs_open (MemoryVfs_insert path bs vfs) path = Ok {| contents := bs |}.
Proof. unfold MemoryVfs_open, MemoryVfs_insert. cbn [files]. by rewrite lookup_insert_eq. Qed.

Lemma open_insert_ne path path' bs vfs : path' ≠ path → MemoryVfs_open (MemoryVfs_insert path bs vfs) path' = MemoryVfs_open vfs path'.
Proof. intros Hne. unfold MemoryVfs_open, MemoryVfs_insert. cbn [files]. by rewrite lookup_insert_ne by done. Qed.

Lemma open_missing path : MemoryVfs_open MemoryVfs_new path = Err (NotFound path).
Proof. unfold MemoryVfs_open, MemoryVfs_new. cbn [files]. by rewrite lookup_empty. Qed.

(** ** Reading a file piece by piece

    An engine that reads with [read_at] sees what one that maps the file
    sees: pieces of any positive size, up to the first empty one, make up
    the mapped bytes. *)
Section pieces.
Context `{ColumnFileSpec F} (f : F) (piece : nat).

Fixpoint read_pieces (fuel : nat) (offset : Z) : result VfsError bytes :=
  match fuel with
  | O => Ok []
  | S fuel =>
      let? nb := cf_read_at f offset (zeros (Z.of_nat piece)) in
      if decide (nb.1 = 0) then Ok []
      else let? rest := read_pieces fuel (offset + nb.1) in Ok (take (Z.to_nat nb.1) nb.2 ++ rest)
  end.

Lemma read_pieces_from fuel offset :
  (0 < piece)%nat → 0 ≤ offset → zlen (cf_bytes f) - offset < Z.of_nat fuel →
  read_pieces fuel offset = Ok (drop (Z.to_nat offset) (cf_bytes f)).
Proof.
  intros Hp. revert offset. induction fuel as [|fuel IH]; intros offset Ho Hf; cbn [read_pieces].
  { by rewrite drop_ge by lia. }
  destruct (cf_read_ok f offset (zeros (Z.of_nat piece)) Ho) as (n & Hn & ->). rewrite length_zeros in Hn by lia. cbn [fst snd].
  case_decide as Hz; [rewrite drop_ge; [done|lia]|].
  rewrite (IH (offset + n)) by lia. f_equal.
  assert (Hl : length (take (Z.to_nat n) (drop (Z.to_nat offset) (cf_bytes f))) = Z.to_nat n) by (rewrite length_take, length_drop; lia).
  rewrite take_app_le, take_ge by lia. replace (Z.to_nat (offset + n)) with (Z.to_nat offset + Z.to_nat n)%nat by lia.
  rewrite <- drop_drop. apply take_drop.
Qed.

Theorem read_pieces_mmap fuel :
  (0 < piece)%nat → zlen (cf_bytes f) < Z.of_nat fuel → read_pieces fuel 0 = cf_mmap f.
Proof. intros Hp Hf. rewrite read_pieces_from, cf_mmap_ok by lia. done. Qed.
End pieces.
