(* ===== verification/Machine.v ===== *)
(** * Panics, unchecked arithmetic and LEB128 varints

    The columnar reader uses the operators [+], [*] and [<<] and direct
    indexing where the row store uses saturating and checked forms.  What
    these do on overflow depends on how the crate is built: with overflow
    checks (a debug build) the operation panics, without them (a release
    build) it wraps.  [Build] is that choice, and every definition that needs
    it takes it as a parameter, so that a theorem holds for both builds.

    A run of a function ends with a value, an error of the source, a panic,
    or, for a loop given too little fuel, [OutOfFuel], which the totality
    theorems exclude. *)

From S2P Require Import Prelude.

Inductive fault (E : Type) : Type :=
| Fails (e : E)
| Panics
| OutOfFuel.
Arguments Fails {E} _.
Arguments Panics {E}.
Arguments OutOfFuel {E}.

Abbreviation run E A := (result (fault E) A).

(** [?] with a [From] conversion of the error. *)
Definition lift_err {E F A} (f : E → F) (r : run E A) : run F A :=
  match r with
  | Ok a => Ok a
  | Err (Fails e) => Err (Fails (f e))
  | Err Panics => Err Panics
  | Err OutOfFuel => Err OutOfFuel
  end.

Definition fails_with {E A} (o : option A) (e : E) : run E A := ok_or o (Fails e).

(** An index or slice expression out of bounds panics. *)
Definition index {E A} (o : option A) : run E A := ok_or o Panics.

(** ** Arithmetic *)

Class Build : Type := overflow_checks : bool.

Definition release : Build := false.
Definition debug : Build := true.

Section arithmetic.
Context `{Build} {E : Type}.

(** The exact result when the type can hold it, else a panic or the wrapped one. *)
Definition arith (wrapped exact : Z) : run E Z :=
  if decide (wrapped = exact) then Ok exact else if overflow_checks then Err Panics else Ok wrapped.

Definition u_add (a b : Z) : run E Z := arith (wrap64 (a + b)) (a + b).
Definition u_mul (a b : Z) : run E Z := arith (wrap64 (a * b)) (a * b).
Definition i16_add (a b : Z) : run E Z := arith (to_signed 16 (a + b)) (a + b).
Definition i64_add (a b : Z) : run E Z := arith (as_i64 (a + b)) (a + b).
Definition i64_mul (a b : Z) : run E Z := arith (as_i64 (a * b)) (a * b).

(** [x << n] on a [w]-bit unsigned type: the bits that leave the type are
    lost; a shift by [w] or more panics or uses the low bits of [n]. *)
Definition u_shl (w x n : Z) : run E Z :=
  if decide (n < w) then Ok (Z.shiftl x n mod 2 ^ w)
  else if overflow_checks then Err Panics
  else Ok (Z.shiftl x (n mod w) mod 2 ^ w).
End arithmetic.

(** [Vec::with_capacity(n)] for elements of [size] bytes: more than
    [isize::MAX] bytes panic.  Running out of memory is not modelled. *)
Definition with_capacity {E} (size n : Z) : run E () :=
  if decide (size * n ≤ ISIZE_MAX) then Ok () else Err Panics.

(** [x as i32], [x as i16], [x as i8], [x as usize] and [x as u32]. *)
Definition as_i32 (x : Z) : Z := to_signed 32 x.
Definition as_i16 (x : Z) : Z := to_signed 16 x.
Definition as_i8 (x : Z) : Z := to_signed 8 x.
Definition as_usize (x : Z) : Z := wrap64 x.

Definition i32_ok (z : Z) : Prop := -2147483648 ≤ z < 2147483648.
Definition i16_ok (z : Z) : Prop := -32768 ≤ z < 32768.
Definition i8_ok (z : Z) : Prop := -128 ≤ z < 128.

#[global] Hint Unfold i32_ok i16_ok i8_ok : machine.

(** ** LEB128

    Three modules of the source have the same loop, with their own error
    type and their own limit on the shift. *)

Section leb128.
Context {E : Type} (eof too_long : E) (limit : Z).

Fixpoint leb128_loop (fuel : nat) (data : bytes) (pos result shift : Z) : run E (Z * Z) :=
  match fuel with
  | O => Err OutOfFuel
  | S fuel =>
      if decide (limit ≤ shift) then Err (Fails too_long)
      else
        let? b := fails_with (get_byte data pos) eof in
        let pos := pos + 1 in
        let result := Z.lor result (wrap64 (Z.shiftl (Z.land b 0x7f) shift)) in
        if decide (Z.land b 0x80 = 0) then Ok (result, pos) else leb128_loop fuel data pos result (shift + 7)
  end.

Definition leb128 (data : bytes) (pos : Z) : run E (Z * Z) := leb128_loop 11 data pos 0 0.
End leb128.

(** ((v >> 1) as iN) ^ -((v & 1) as iN) on a [w]-bit unsigned [v]. *)
Definition zigzag (w v : Z) : Z :=
  Z.lxor (to_signed w (Z.shiftr v 1)) (- to_signed w (Z.land v 1)).

(** ** What is left to read

    [left_at data pos rest]: the bytes of [data] from [pos] on are [rest]. *)

Definition left_at (data : bytes) (pos : Z) (rest : bytes) : Prop :=
  0 ≤ pos ∧ pos + zlen rest = zlen data ∧ drop (Z.to_nat pos) data = rest.

Lemma left_start data : left_at data 0 data.
Proof. split_and!; [lia..|done]. Qed.

Lemma left_here data pos : 0 ≤ pos ≤ zlen data → left_at data pos (drop (Z.to_nat pos) data).
Proof. intros Hp. split_and!; [lia| |done]. rewrite length_drop. lia. Qed.

Lemma left_app data pos s r : left_at data pos (s ++ r) → left_at data (pos + zlen s) r.
Proof.
  intros (Hp & Hl & Hd). rewrite length_app in Hl. split_and!; [lia..|].
  replace (Z.to_nat (pos + zlen s)) with (Z.to_nat pos + length s)%nat by lia.
  by rewrite <- drop_drop, Hd, drop_app_length.
Qed.

Lemma left_byte data pos b r :
  left_at data pos (b :: r) → get_byte data pos = Some b ∧ left_at data (pos + 1) r.
Proof.
  intros Hl. split; [|by apply (left_app data pos [b])].
  destruct Hl as (Hp & Hl & Hd). cbn [length] in Hl. apply get_byte_Some. split; [done|].
  by rewrite <- (Nat.add_0_r (Z.to_nat pos)), <- lookup_drop, Hd.
Qed.

Lemma left_end data pos : left_at data pos [] → get_byte data pos = None.
Proof. intros (? & Hl & ?). apply get_byte_None. cbn in Hl. lia. Qed.

Lemma left_range data pos s r :
  left_at data pos (s ++ r) → get_range data pos (pos + zlen s) = Some s.
Proof.
  intros (Hp & Hl & Hd). rewrite length_app in Hl. apply get_range_Some. split_and!; [lia..|].
  rewrite Hd. by replace (Z.to_nat (pos + zlen s - pos)) with (length s) by lia; rewrite take_app_length.
Qed.

Lemma left_short data pos r n : left_at data pos r → zlen r < n → get_range data pos (pos + n) = None.
Proof. intros (Hp & Hl & _) Hn. apply get_range_None. lia. Qed.

Lemma left_get_range data pos n s :
  get_range data pos (pos + n) = Some s → ∃ r, left_at data pos (s ++ r) ∧ zlen s = n.
Proof.
  intros Hg. pose proof (get_range_length _ _ _ _ Hg) as Hn. apply get_range_Some in Hg as (? & ? & ->).
  exists (drop (Z.to_nat n) (drop (Z.to_nat pos) data)).
  replace (pos + n - pos) with n in Hn |- * by lia. split; [|done]. rewrite take_drop. apply left_here. lia.
Qed.

(** ** Arithmetic that does not overflow *)

Section exact.
Context `{Build} {E : Type}.

Lemma arith_exact z : arith (E := E) z z = Ok z.
Proof. unfold arith. by rewrite decide_True. Qed.

Lemma u_add_ok a b : u64_ok (a + b) → u_add (E := E) a b = Ok (a + b).
Proof. intros. unfold u_add. rewrite wrap64_small by done. apply arith_exact. Qed.

Lemma u_mul_ok a b : u64_ok (a * b) → u_mul (E := E) a b = Ok (a * b).
Proof. intros. unfold u_mul. rewrite wrap64_small by done. apply arith_exact. Qed.

Lemma to_signed_small w z : 0 < w → - 2 ^ (w - 1) ≤ z < 2 ^ (w - 1) → to_signed w z = z.
Proof.
  intros Hw Hz. transitivity (to_signed w (z mod 2 ^ w)); [|by apply to_signed_unsigned].
  unfold to_signed. by rewrite Z.mod_mod by lia.
Qed.

Lemma i16_add_ok a b : i16_ok (a + b) → i16_add (E := E) a b = Ok (a + b).
Proof. intros. unfold i16_add. rewrite to_signed_small; [apply arith_exact|lia|]. simpl. mlia. Qed.

Lemma u_shl_ok w x n : 0 ≤ n < w → 0 ≤ x * 2 ^ n < 2 ^ w → u_shl (E := E) w x n = Ok (x * 2 ^ n).
Proof.
  intros Hn Hx. unfold u_shl. rewrite decide_True by lia. rewrite Z.shiftl_mul_pow2 by lia.
  by rewrite Z.mod_small.
Qed.
End exact.

Lemma with_capacity_ok {E} size n : size * n ≤ ISIZE_MAX → with_capacity (E := E) size n = Ok ().
Proof. intros. unfold with_capacity. by rewrite decide_True. Qed.

(** ** LEB128: the writer, the round trip and totality *)

Fixpoint leb128_bytes_loop (fuel : nat) (v : Z) : bytes :=
  match fuel with
  | O => []
  | S fuel => if decide (v < 128) then [v] else 128 + v mod 128 :: leb128_bytes_loop fuel (v / 128)
  end.

Definition leb128_bytes (v : Z) : bytes := leb128_bytes_loop 10 v.

Lemma leb128_bytes_ok fuel v : 0 ≤ v → bytes_ok (leb128_bytes_loop fuel v).
Proof.
  revert v. induction fuel as [|fuel IH]; intros v Hv; [constructor|]. cbn [leb128_bytes_loop]. case_decide.
  - repeat constructor; mlia.
  - constructor; [|apply IH; by apply Z.div_pos]. pose proof (Z.mod_pos_bound v 128). mlia.
Qed.

Lemma leb128_bytes_pos v : (0 < length (leb128_bytes v))%nat.
Proof. unfold leb128_bytes. cbn [leb128_bytes_loop]. case_decide; cbn; lia. Qed.

Lemma le_val_cons b l : le_val (b :: l) = b + 256 * le_val l.
Proof. unfold le_val. rewrite reverse_cons, be_val_app. lia. Qed.

Lemma lor_above r x s : 0 ≤ s → 0 ≤ r < 2 ^ s → Z.lor r (x * 2 ^ s) = r + x * 2 ^ s.
Proof.
  intros Hs Hr. rewrite <- Z.shiftl_mul_pow2, Z.lor_comm, lor_shiftl_add by lia. rewrite Z.shiftl_mul_pow2 by lia. lia.
Qed.

Section leb128_facts.
Context {E : Type} (eof too_long : E) (limit : Z).

Lemma leb128_loop_roundtrip (fuel : nat) data pos r v res s :
  left_at data pos (leb128_bytes_loop fuel v ++ r) → 0 ≤ v → 0 ≤ s < limit → 0 ≤ res < 2 ^ s →
  v < 2 ^ (7 * Z.of_nat fuel) → v < 2 ^ (limit - s) → v * 2 ^ s < 2 ^ 64 → (0 < fuel)%nat →
  leb128_loop eof too_long limit (S fuel) data pos res s =
    Ok (res + v * 2 ^ s, pos + zlen (leb128_bytes_loop fuel v)).
Proof.
  revert data pos v res s. induction fuel as [|fuel IH]; intros data pos v res s Hl Hv Hs Hr Hf Hlim H64 H0; [lia|].
  remember (S fuel) as f eqn:Ef. cbn [leb128_loop]. subst f. cbn [leb128_bytes_loop] in Hl |- *.
  rewrite decide_False by lia. pose proof (Z.pow_pos_nonneg 2 s ltac:(lia) ltac:(lia)) as Hps.
  destruct (decide (v < 128)) as [Hv1|Hv1].
  - apply left_byte in Hl as [-> _]. cbn [fails_with ok_or].
    rewrite land_7f, Z.mod_small by lia. rewrite decide_True by (apply land_80; mlia).
    rewrite Z.shiftl_mul_pow2 by lia. rewrite wrap64_small by (change (2 ^ 64) with 18446744073709551616 in H64; unfold u64_ok; nia).
    by rewrite lor_above by lia.
  - pose proof (Z.mod_pos_bound v 128 ltac:(lia)) as Hm. pose proof (Z.div_mod v 128 ltac:(lia)) as Hdm.
    cbn [app] in Hl. apply left_byte in Hl as [-> Hl]. cbn [fails_with ok_or].
    rewrite land_7f. replace ((128 + v mod 128) mod 128) with (v mod 128) by (Z.div_mod_to_equations; lia).
    rewrite decide_False by (rewrite land_80 by mlia; lia).
    rewrite Z.shiftl_mul_pow2 by lia. rewrite wrap64_small by (change (2 ^ 64) with 18446744073709551616 in H64; unfold u64_ok; nia).
    rewrite lor_above by lia.
    assert (Hp7 : 2 ^ (s + 7) = 128 * 2 ^ s) by (rewrite Z.pow_add_r by lia; lia).
    assert (Hp8 : 2 ^ (7 * Z.of_nat (S fuel)) = 128 * 2 ^ (7 * Z.of_nat fuel))
      by (replace (7 * Z.of_nat (S fuel)) with (7 + 7 * Z.of_nat fuel) by lia; rewrite Z.pow_add_r by lia; lia).
    assert (Hfz : (0 < fuel)%nat) by (destruct fuel; [|lia]; cbn in Hf; lia).
    assert (Hls : s + 7 < limit).
    { apply Z.nle_gt. intros Hle. assert (2 ^ (limit - s) ≤ 2 ^ 7) by (apply Z.pow_le_mono_r; lia). lia. }
    assert (Hp9 : 2 ^ (limit - s) = 128 * 2 ^ (limit - (s + 7)))
      by (replace (limit - s) with (7 + (limit - (s + 7))) by lia; rewrite Z.pow_add_r by lia; lia).
    rewrite (IH data (pos + 1) (v / 128) (res + v mod 128 * 2 ^ s) (s + 7)); [|done|by apply Z.div_pos|lia| |nia|nia|nia|done].
    + cbn [length]. do 2 f_equal; [rewrite Hp7; nia|lia].
    + rewrite Hp7. nia.
Qed.

(** What the writer wrote is read back, within the limit of the reader. *)
Lemma leb128_roundtrip data pos r v :
  left_at data pos (leb128_bytes v ++ r) → u64_ok v → v < 2 ^ limit → 0 < limit →
  leb128 eof too_long limit data pos = Ok (v, pos + zlen (leb128_bytes v)).
Proof.
  intros Hl Hv Hlim H0. unfold leb128, leb128_bytes in *.
  rewrite (leb128_loop_roundtrip 10 data pos r v 0 0); [do 2 f_equal; lia|done|mlia|lia|lia| | | |lia].
  - change (2 ^ (7 * Z.of_nat 10)) with (2 ^ 70). mlia.
  - by rewrite Z.sub_0_r.
  - change (2 ^ 64) with 18446744073709551616. mlia.
Qed.

Lemma lor_u64 a b : u64_ok a → u64_ok b → u64_ok (Z.lor a b).
Proof.
  intros Ha Hb. split; [apply Z.lor_nonneg; mlia|].
  change 18446744073709551616 with (2 ^ 64). destruct (decide (Z.lor a b = 0)) as [->|]; [done|].
  assert (0 ≤ Z.lor a b) by (apply Z.lor_nonneg; mlia).
  apply Z.log2_lt_pow2; [lia|]. rewrite Z.log2_lor by mlia.
  apply Z.max_lub_lt; [destruct (decide (a = 0)) as [->|]|destruct (decide (b = 0)) as [->|]];
    try (cbn; lia); apply Z.log2_lt_pow2; mlia.
Qed.

(** The loop returns: a value and a later position within the data, or one of
    its two errors. *)
Definition leb128_result (data : bytes) (pos : Z) (r : run E (Z * Z)) : Prop :=
  match r with
  | Ok (v, p) => u64_ok v ∧ pos < p ≤ zlen data
  | Err (Fails e) => e = eof ∨ e = too_long
  | _ => False
  end.

Lemma leb128_loop_total (fuel : nat) data pos res s :
  0 ≤ pos → 0 ≤ s → limit ≤ s + 7 * (Z.of_nat fuel - 1) → (0 < fuel)%nat → u64_ok res →
  leb128_result data pos (leb128_loop eof too_long limit fuel data pos res s).
Proof.
  revert pos res s. induction fuel as [|fuel IH]; intros pos res s Hp Hs Hf H0 Hr; [lia|]. cbn [leb128_loop].
  case_decide; [cbn; auto|]. destruct (get_byte data pos) as [b|] eqn:Hb; cbn [fails_with ok_or]; [|cbn; auto].
  assert (pos < zlen data). { unfold get_byte in Hb. case_decide; [lia|done]. }
  assert (u64_ok (Z.lor res (wrap64 (Z.shiftl (Z.land b 0x7f) s)))) by (apply lor_u64; [done|apply wrap64_ok]).
  case_decide; [cbn; split; [done|lia]|].
  specialize (IH (pos + 1) (Z.lor res (wrap64 (Z.shiftl (Z.land b 0x7f) s))) (s + 7)).
  destruct (leb128_loop _ _ _ _ _ _ _ _) as [[v p]|[]]; cbn in IH |- *; try (apply IH; [lia..|done]).
  destruct IH; [lia..|done|]. split; [done|lia].
Qed.

Lemma leb128_total data pos : 0 ≤ pos → limit ≤ 70 →
  leb128_result data pos (leb128 eof too_long limit data pos).
Proof. intros. apply leb128_loop_total; [lia..|mlia]. Qed.

Lemma leb128_loop_small (fuel : nat) data pos res s v p :
  0 ≤ s → 0 ≤ res < 2 ^ s → leb128_loop eof too_long limit fuel data pos res s = Ok (v, p) → 0 ≤ v < 2 ^ (limit + 7).
Proof.
  revert pos res s. induction fuel as [|fuel IH]; intros pos res s Hs Hr Hl; cbn [leb128_loop] in Hl; [done|].
  case_decide; [done|]. destruct (get_byte data pos) as [b|]; cbn [fails_with ok_or] in Hl; [|done].
  set (x := Z.shiftl (Z.land b 0x7f) s) in *.
  assert (Hx : 0 ≤ wrap64 x ≤ x ∧ x < 2 ^ (s + 7)).
  { pose proof (Z.mod_pos_bound b 128 ltac:(lia)). pose proof (Z.pow_pos_nonneg 2 s ltac:(lia) Hs).
    assert (x = b mod 128 * 2 ^ s) as -> by (unfold x; by rewrite land_7f, Z.shiftl_mul_pow2).
    rewrite Z.pow_add_r by lia. change (2 ^ 7) with 128. unfold wrap64. split; [|nia].
    split; [apply Z.mod_pos_bound; lia|apply Z.mod_le; nia]. }
  assert (Hlor : 0 ≤ Z.lor res (wrap64 x) < 2 ^ (s + 7)).
  { assert (Hm : 2 ^ s ≤ 2 ^ (s + 7)) by (apply Z.pow_le_mono_r; lia).
    assert (Hn : 0 ≤ Z.lor res (wrap64 x)) by (apply Z.lor_nonneg; lia). split; [done|].
    destruct (decide (Z.lor res (wrap64 x) = 0)) as [->|]; [lia|]. apply Z.log2_lt_pow2; [lia|].
    rewrite Z.log2_lor by lia. apply Z.max_lub_lt;
      [destruct (decide (res = 0)) as [->|]|destruct (decide (wrap64 x = 0)) as [->|]]; try (cbn; lia); apply Z.log2_lt_pow2; lia. }
  case_decide; [|by eapply (IH _ _ (s + 7)); [lia| |exact Hl]].
  simplify_eq. split; [lia|]. eapply Z.lt_le_trans; [apply Hlor|]. apply Z.pow_le_mono_r; lia.
Qed.
End leb128_facts.

(** ** Bit fields *)

Lemma land_low x k : 0 ≤ k → Z.land x (2 ^ k - 1) = x mod 2 ^ k.
Proof. intros. rewrite <- Z.land_ones by done. f_equal. rewrite Z.ones_equiv. lia. Qed.

(** ** Zigzag *)

Definition zigzag_bits (z : Z) : Z := if decide (0 ≤ z) then 2 * z else - 2 * z - 1.

Lemma zigzag_value w v : 1 < w → 0 ≤ v < 2 ^ w →
  zigzag w v = if decide (v mod 2 = 0) then v / 2 else - (v / 2) - 1.
Proof.
  intros Hw Hv. unfold zigzag. rewrite Z.shiftr_div_pow2 by lia. change (2 ^ 1) with 2.
  change (Z.land v 1) with (Z.land v (Z.ones 1)). rewrite Z.land_ones by lia. change (2 ^ 1) with 2.
  assert (Hp : 2 ^ w = 2 * 2 ^ (w - 1)) by (rewrite <- Z.pow_succ_r by lia; f_equal; lia).
  assert (2 ≤ 2 ^ (w - 1)) by (change 2 with (2 ^ 1) at 1; apply Z.pow_le_mono_r; lia).
  pose proof (Z.mod_pos_bound v 2 ltac:(lia)). pose proof (Z.div_mod v 2 ltac:(lia)).
  rewrite to_signed_small by lia. rewrite (to_signed_small w (v mod 2)) by lia. case_decide as Hm.
  - rewrite Hm. cbn [Z.opp]. apply Z.lxor_0_r.
  - replace (v mod 2) with 1 by lia. rewrite Z.lxor_m1_r. unfold Z.lnot. lia.
Qed.

Lemma zigzag_roundtrip w z : 1 < w → - 2 ^ (w - 1) ≤ z < 2 ^ (w - 1) →
  0 ≤ zigzag_bits z < 2 ^ w ∧ zigzag w (zigzag_bits z) = z.
Proof.
  intros Hw Hz. assert (Hp : 2 ^ w = 2 * 2 ^ (w - 1)) by (rewrite <- Z.pow_succ_r by lia; f_equal; lia).
  assert (Hb : 0 ≤ zigzag_bits z < 2 ^ w) by (unfold zigzag_bits; case_decide; lia).
  split; [done|]. rewrite zigzag_value by done. unfold zigzag_bits.
  destruct (decide (0 ≤ z)); case_decide; Z.div_mod_to_equations; lia.
Qed.

Lemma zigzag_range w v : 1 < w → 0 ≤ v < 2 ^ w → - 2 ^ (w - 1) ≤ zigzag w v < 2 ^ (w - 1).
Proof.
  intros Hw Hv. assert (Hp : 2 ^ w = 2 * 2 ^ (w - 1)) by (rewrite <- Z.pow_succ_r by lia; f_equal; lia).
  rewrite zigzag_value by done. case_decide; Z.div_mod_to_equations; lia.
Qed.
