(* ===== verification/Thrift.v ===== *)
(** * Thrift compact protocol ([column/parquet/thrift.rs])

    The schema-less decoder of the parquet footer and page headers.  A
    [Decoder] is its buffer, a section variable, and its position, which the
    readers thread.  Doubles are their 64 bits.  [value_size] is
    [size_of::<Value>()], whose layout the language leaves open. *)

From S2P Require Import Prelude Text Machine.

Definition CTYPE_STOP : Z := 0x00.
Definition CTYPE_BOOLEAN_TRUE : Z := 0x01.
Definition CTYPE_BOOLEAN_FALSE : Z := 0x02.
Definition CTYPE_BYTE : Z := 0x03.
Definition CTYPE_I16 : Z := 0x04.
Definition CTYPE_I32 : Z := 0x05.
Definition CTYPE_I64 : Z := 0x06.
Definition CTYPE_DOUBLE : Z := 0x07.
Definition CTYPE_BINARY : Z := 0x08.
Definition CTYPE_LIST : Z := 0x09.
Definition CTYPE_SET : Z := 0x0a.
Definition CTYPE_MAP : Z := 0x0b.
Definition CTYPE_STRUCT : Z := 0x0c.

Inductive ThriftError : Type :=
| ThriftUnexpectedEof
| ThriftInvalidVarint
| UnknownType (t : Z).

(** [thrift::Value]. *)
Inductive TValue : Type :=
| TBool (b : bool)
| TByte (v : Z)
| TI16 (v : Z)
| TI32 (v : Z)
| TI64 (v : Z)
| TDouble (bits : Z)
| TBinary (b : bytes)
| TList (l : list TValue)
| TMap (l : list (TValue * TValue))
| TStruct (fields : list (Z * TValue)).

(** ** Accessors *)

Definition t_as_i32 (v : TValue) : option Z :=
  match v with
  | TI16 v => Some v
  | TI32 v => Some v
  | TI64 v => Some (as_i32 v)
  | TByte v => Some v
  | _ => None
  end.

Definition t_as_i64 (v : TValue) : option Z :=
  match v with
  | TI16 v => Some v
  | TI32 v => Some v
  | TI64 v => Some v
  | TByte v => Some v
  | _ => None
  end.

Definition t_as_str (v : TValue) : option (list Z) :=
  match v with TBinary b => from_utf8 b | _ => None end.

Definition t_as_binary (v : TValue) : option bytes :=
  match v with TBinary b => Some b | _ => None end.

Definition t_as_list (v : TValue) : option (list TValue) :=
  match v with TList l => Some l | _ => None end.

Definition t_as_struct (v : TValue) : option (list (Z * TValue)) :=
  match v with TStruct fields => Some fields | _ => None end.

(** The first field with the given id. *)
Definition find_field (fields : list (Z * TValue)) (id : Z) : option TValue :=
  (λ p, p.2.2) <$> list_find (λ f, f.1 = id) fields.

Definition t_field (v : TValue) (id : Z) : option TValue :=
  fields ← t_as_struct v; find_field fields id.

(** ** The decoder *)

Definition decode_element_type (nibble : Z) : run ThriftError Z :=
  if decide (nibble = 0x01) then Ok CTYPE_BOOLEAN_TRUE
  else if decide (nibble ∈ [CTYPE_BYTE; CTYPE_I16; CTYPE_I32; CTYPE_I64; CTYPE_DOUBLE; CTYPE_BINARY;
                            CTYPE_LIST; CTYPE_SET; CTYPE_MAP; CTYPE_STRUCT]) then Ok nibble
  else Err (Fails (UnknownType nibble)).

(** A reader at a position: the value read and the position after it. *)
Definition D (A : Type) : Type := Z → run ThriftError (A * Z).

Definition d_ok {A} (a : A) : D A := λ pos, Ok (a, pos).
Definition d_lift {A} (r : run ThriftError A) : D A := λ pos, let? a := r in Ok (a, pos).

Notation "'let@' p := m 'in' k" :=
  (λ pos, match m pos with Ok (p, pos') => k pos' | Err e => Err e end)
  (at level 10, p strict pattern, m at level 100, k at level 200,
   format "'[v' 'let@'  p  :=  m  'in' '/' k ']'") : dbs_scope.

Section decoder.
Context `{Build} (value_size : Z) (buf : bytes).

Definition read_byte : D Z := λ pos,
  let? b := fails_with (get_byte buf pos) ThriftUnexpectedEof in
  Ok (b, pos + 1).

Definition read_bytes (n : Z) : D bytes := λ pos,
  if decide (USIZE_MAX < pos + n) then Err (Fails ThriftUnexpectedEof)
  else
    let? slice := fails_with (get_range buf pos (pos + n)) ThriftUnexpectedEof in
    Ok (slice, pos + n).

Definition read_varint : D Z := leb128 ThriftUnexpectedEof ThriftInvalidVarint 70 buf.

Definition read_zigzag_i32 : D Z :=
  let@ v := read_varint in
  d_ok (zigzag 32 (wrap32 v)).

Definition read_zigzag_i64 : D Z :=
  let@ v := read_varint in
  d_ok (zigzag 64 v).

Definition read_double : D Z :=
  let@ bytes := read_bytes 8 in
  d_ok (le_val bytes).

Definition read_binary : D bytes :=
  let@ len := read_varint in
  read_bytes len.

(** The readers of nested values call each other; [fuel] bounds the depth of
    the calls, loop iterations included. *)
Fixpoint read_value (fuel : nat) (ctype : Z) (bool_value : option bool) : D TValue :=
  match fuel with
  | O => λ _, Err OutOfFuel
  | S fuel =>
      if decide (ctype = CTYPE_BOOLEAN_TRUE) then
        match bool_value with
        | Some v => d_ok (TBool v)
        | None => let@ b := read_byte in d_ok (TBool (bool_decide (b = CTYPE_BOOLEAN_TRUE)))
        end
      else if decide (ctype = CTYPE_BOOLEAN_FALSE) then d_ok (TBool (default false bool_value))
      else if decide (ctype = CTYPE_BYTE) then let@ b := read_byte in d_ok (TByte (as_i8 b))
      else if decide (ctype = CTYPE_I16) then let@ v := read_zigzag_i32 in d_ok (TI16 (as_i16 v))
      else if decide (ctype = CTYPE_I32) then let@ v := read_zigzag_i32 in d_ok (TI32 v)
      else if decide (ctype = CTYPE_I64) then let@ v := read_zigzag_i64 in d_ok (TI64 v)
      else if decide (ctype = CTYPE_DOUBLE) then let@ v := read_double in d_ok (TDouble v)
      else if decide (ctype = CTYPE_BINARY) then let@ b := read_binary in d_ok (TBinary b)
      else if decide (ctype = CTYPE_LIST ∨ ctype = CTYPE_SET) then read_list fuel
      else if decide (ctype = CTYPE_MAP) then read_map fuel
      else if decide (ctype = CTYPE_STRUCT) then let@ fields := read_struct fuel 0 in d_ok (TStruct fields)
      else d_lift (Err (Fails (UnknownType ctype)))
  end

with read_list (fuel : nat) : D TValue :=
  match fuel with
  | O => λ _, Err OutOfFuel
  | S fuel =>
      let@ header := read_byte in
      let size := Z.shiftr header 4 in
      let@ elem_type := d_lift (decode_element_type (Z.land header 0x0f)) in
      let@ size := (if decide (size = 15) then read_varint else d_ok size) in
      let@ _ := d_lift (with_capacity value_size size) in
      let@ items := read_items fuel elem_type size in
      d_ok (TList items)
  end

with read_items (fuel : nat) (elem_type size : Z) : D (list TValue) :=
  match fuel with
  | O => λ _, Err OutOfFuel
  | S fuel =>
      if decide (size ≤ 0) then d_ok []
      else
        let@ v := read_value fuel elem_type None in
        let@ items := read_items fuel elem_type (size - 1) in
        d_ok (v :: items)
  end

with read_map (fuel : nat) : D TValue :=
  match fuel with
  | O => λ _, Err OutOfFuel
  | S fuel =>
      let@ size := read_varint in
      if decide (size = 0) then d_ok (TMap [])
      else
        let@ types := read_byte in
        let@ key_type := d_lift (decode_element_type (Z.shiftr types 4)) in
        let@ val_type := d_lift (decode_element_type (Z.land types 0x0f)) in
        let@ _ := d_lift (with_capacity (2 * value_size) size) in
        let@ items := read_pairs fuel key_type val_type size in
        d_ok (TMap items)
  end

with read_pairs (fuel : nat) (key_type val_type size : Z) : D (list (TValue * TValue)) :=
  match fuel with
  | O => λ _, Err OutOfFuel
  | S fuel =>
      if decide (size ≤ 0) then d_ok []
      else
        let@ k := read_value fuel key_type None in
        let@ v := read_value fuel val_type None in
        let@ items := read_pairs fuel key_type val_type (size - 1) in
        d_ok ((k, v) :: items)
  end

with read_struct (fuel : nat) (last_field_id : Z) : D (list (Z * TValue)) :=
  match fuel with
  | O => λ _, Err OutOfFuel
  | S fuel =>
      let@ header := read_byte in
      if decide (header = CTYPE_STOP) then d_ok []
      else
        let delta := Z.land (Z.shiftr header 4) 0x0f in
        let ctype := Z.land header 0x0f in
        let@ field_id :=
          (if decide (delta = 0) then let@ v := read_zigzag_i32 in d_ok (as_i16 v)
           else d_lift (i16_add last_field_id delta)) in
        let bool_value :=
          if decide (ctype = CTYPE_BOOLEAN_TRUE) then Some true
          else if decide (ctype = CTYPE_BOOLEAN_FALSE) then Some false
          else None in
        let@ value := read_value fuel ctype bool_value in
        let@ fields := read_struct fuel field_id in
        d_ok ((field_id, value) :: fields)
  end.

Definition decode_struct : run ThriftError (list (Z * TValue) * Z) :=
  read_struct (4 * length buf + 4) 0 0.
End decoder.

(** The unfolding equations of the readers. *)

Section equations.
Context `{Build} (value_size : Z) (buf : bytes).

Lemma read_value_S (fuel : nat) (ctype : Z) (bool_value : option bool) :
  read_value value_size buf (S fuel) ctype bool_value =
    if decide (ctype = CTYPE_BOOLEAN_TRUE) then
      match bool_value with
      | Some v => d_ok (TBool v)
      | None => let@ b := read_byte buf in d_ok (TBool (bool_decide (b = CTYPE_BOOLEAN_TRUE)))
      end
    else if decide (ctype = CTYPE_BOOLEAN_FALSE) then d_ok (TBool (default false bool_value))
    else if decide (ctype = CTYPE_BYTE) then let@ b := read_byte buf in d_ok (TByte (as_i8 b))
    else if decide (ctype = CTYPE_I16) then let@ v := read_zigzag_i32 buf in d_ok (TI16 (as_i16 v))
    else if decide (ctype = CTYPE_I32) then let@ v := read_zigzag_i32 buf in d_ok (TI32 v)
    else if decide (ctype = CTYPE_I64) then let@ v := read_zigzag_i64 buf in d_ok (TI64 v)
    else if decide (ctype = CTYPE_DOUBLE) then let@ v := read_double buf in d_ok (TDouble v)
    else if decide (ctype = CTYPE_BINARY) then let@ b := read_binary buf in d_ok (TBinary b)
    else if decide (ctype = CTYPE_LIST ∨ ctype = CTYPE_SET) then read_list value_size buf fuel
    else if decide (ctype = CTYPE_MAP) then read_map value_size buf fuel
    else if decide (ctype = CTYPE_STRUCT) then let@ fields := read_struct value_size buf fuel 0 in d_ok (TStruct fields)
    else d_lift (Err (Fails (UnknownType ctype))).
Proof. reflexivity. Qed.

Lemma read_list_S (fuel : nat)  :
  read_list value_size buf (S fuel) =
    let@ header := read_byte buf in
    let size := Z.shiftr header 4 in
    let@ elem_type := d_lift (decode_element_type (Z.land header 0x0f)) in
    let@ size := (if decide (size = 15) then read_varint buf else d_ok size) in
    let@ _ := d_lift (with_capacity value_size size) in
    let@ items := read_items value_size buf fuel elem_type size in
    d_ok (TList items).
Proof. reflexivity. Qed.

Lemma read_items_S (fuel : nat) (elem_type size : Z) :
  read_items value_size buf (S fuel) elem_type size =
    if decide (size ≤ 0) then d_ok []
    else
      let@ v := read_value value_size buf fuel elem_type None in
      let@ items := read_items value_size buf fuel elem_type (size - 1) in
      d_ok (v :: items).
Proof. reflexivity. Qed.

Lemma read_map_S (fuel : nat)  :
  read_map value_size buf (S fuel) =
    let@ size := read_varint buf in
    if decide (size = 0) then d_ok (TMap [])
    else
      let@ types := read_byte buf in
      let@ key_type := d_lift (decode_element_type (Z.shiftr types 4)) in
      let@ val_type := d_lift (decode_element_type (Z.land types 0x0f)) in
      let@ _ := d_lift (with_capacity (2 * value_size) size) in
      let@ items := read_pairs value_size buf fuel key_type val_type size in
      d_ok (TMap items).
Proof. reflexivity. Qed.

Lemma read_pairs_S (fuel : nat) (key_type val_type size : Z) :
  read_pairs value_size buf (S fuel) key_type val_type size =
    if decide (size ≤ 0) then d_ok []
    else
      let@ k := read_value value_size buf fuel key_type None in
      let@ v := read_value value_size buf fuel val_type None in
      let@ items := read_pairs value_size buf fuel key_type val_type (size - 1) in
      d_ok ((k, v) :: items).
Proof. reflexivity. Qed.

Lemma read_struct_S (fuel : nat) (last_field_id : Z) :
  read_struct value_size buf (S fuel) last_field_id =
    let@ header := read_byte buf in
    if decide (header = CTYPE_STOP) then d_ok []
    else
      let delta := Z.land (Z.shiftr header 4) 0x0f in
      let ctype := Z.land header 0x0f in
      let@ field_id :=
        (if decide (delta = 0) then let@ v := read_zigzag_i32 buf in d_ok (as_i16 v)
         else d_lift (i16_add last_field_id delta)) in
      let bool_value :=
        if decide (ctype = CTYPE_BOOLEAN_TRUE) then Some true
        else if decide (ctype = CTYPE_BOOLEAN_FALSE) then Some false
        else None in
      let@ value := read_value value_size buf fuel ctype bool_value in
      let@ fields := read_struct value_size buf fuel field_id in
      d_ok ((field_id, value) :: fields).
Proof. reflexivity. Qed.

End equations.

(** ** Totality and typing *)

(** The wire type of a value; sets are read as lists. *)
Definition t_ctype (v : TValue) : Z :=
  match v with
  | TBool _ => CTYPE_BOOLEAN_TRUE
  | TByte _ => CTYPE_BYTE
  | TI16 _ => CTYPE_I16
  | TI32 _ => CTYPE_I32
  | TI64 _ => CTYPE_I64
  | TDouble _ => CTYPE_DOUBLE
  | TBinary _ => CTYPE_BINARY
  | TList _ => CTYPE_LIST
  | TMap _ => CTYPE_MAP
  | TStruct _ => CTYPE_STRUCT
  end.

(** Every number fits its declared width, and the elements of a list and the
    keys and values of a map have one type each. *)
Fixpoint t_typed (v : TValue) : Prop :=
  match v with
  | TBool _ => True
  | TByte v => i8_ok v
  | TI16 v => i16_ok v
  | TI32 v => i32_ok v
  | TI64 v => i64_ok v
  | TDouble bits => u64_ok bits
  | TBinary b => bytes_ok b
  | TList l => foldr (λ v P, t_typed v ∧ P) True l ∧ ∃ ct, Forall (λ v, t_ctype v = ct) l
  | TMap l => foldr (λ kv P, (t_typed kv.1 ∧ t_typed kv.2) ∧ P) True l ∧
      ∃ kt vt, Forall (λ kv, t_ctype kv.1 = kt ∧ t_ctype kv.2 = vt) l
  | TStruct fields => foldr (λ f P, (i16_ok f.1 ∧ t_typed f.2) ∧ P) True fields
  end.

Definition fields_typed (fields : list (Z * TValue)) : Prop := t_typed (TStruct fields).

(** A run that ends, and whose value satisfies [post]. *)
Definition settles {A} (post : A → Z → Prop) (r : run ThriftError (A * Z)) : Prop :=
  match r with
  | Ok (a, p) => post a p
  | Err OutOfFuel => False
  | Err _ => True
  end.

Lemma settles_bind {A B} (m : D A) (k : A → D B) (P : A → Z → Prop) (Q : B → Z → Prop) pos :
  settles P (m pos) → (∀ a p, P a p → settles Q (k a p)) →
  settles Q ((let@ x := m in k x) pos).
Proof. intros Hm Hk. cbv beta. destruct (m pos) as [[a p]|[e| |]]; cbn in *; [by apply Hk|done..]. Qed.

Lemma settles_mono {A} (P Q : A → Z → Prop) r : settles P r → (∀ a p, P a p → Q a p) → settles Q r.
Proof. intros Hr HPQ. destruct r as [[a p]|[e| |]]; cbn in *; [by apply HPQ|done..]. Qed.

Lemma settles_lift {A} (r : run ThriftError A) (Q : A → Z → Prop) pos :
  r ≠ Err OutOfFuel → (∀ a, r = Ok a → Q a pos) → settles Q (d_lift r pos).
Proof. intros Hr HQ. unfold d_lift. destruct r as [a|[]]; cbn; auto; done. Qed.

Section totality.
Context `{Build} (value_size : Z) (buf : bytes).
Hypothesis Hbuf : bytes_ok buf.

Lemma read_byte_total pos : 0 ≤ pos → settles (λ b p, u8_ok b ∧ p = pos + 1 ∧ p ≤ zlen buf) (read_byte buf pos).
Proof using Hbuf.
  intros Hp. unfold read_byte. destruct (get_byte buf pos) as [b|] eqn:Hb; [|done]. cbn.
  split_and!; [by eapply bytes_ok_get_byte|done|]. unfold get_byte in Hb. case_decide; [lia|done].
Qed.

Lemma read_bytes_total n pos : 0 ≤ pos → 0 ≤ n →
  settles (λ s p, bytes_ok s ∧ zlen s = n ∧ p = pos + n ∧ p ≤ zlen buf) (read_bytes buf n pos).
Proof using Hbuf.
  intros Hp Hn. unfold read_bytes. case_decide; [done|].
  destruct (get_range buf pos (pos + n)) as [s|] eqn:Hs; [|done]. cbn.
  pose proof (get_range_length _ _ _ _ Hs). pose proof Hs as (? & ? & _)%get_range_Some.
  split_and!; [by eapply bytes_ok_get_range|lia..].
Qed.

Lemma read_varint_total pos : 0 ≤ pos → settles (λ v p, u64_ok v ∧ pos < p ≤ zlen buf) (read_varint buf pos).
Proof using.
  clear. intros Hp. pose proof (leb128_total ThriftUnexpectedEof ThriftInvalidVarint 70 buf pos Hp ltac:(lia)) as Ht.
  unfold read_varint. destruct (leb128 _ _ _ _ _) as [[v p]|[]]; cbn in *; auto; done.
Qed.

Lemma as_i16_ok z : i16_ok (as_i16 z).
Proof using. clear. apply (to_signed_range 16 z). lia. Qed.
Lemma as_i8_ok z : i8_ok (as_i8 z).
Proof using. clear. apply (to_signed_range 8 z). lia. Qed.

Lemma read_i32_total pos : 0 ≤ pos → settles (λ v p, i32_ok v ∧ pos < p ≤ zlen buf) (read_zigzag_i32 buf pos).
Proof using.
  clear. intros Hp. unfold read_zigzag_i32. eapply settles_bind; [by apply read_varint_total|]. cbn.
  intros v p [_ Hr]. split; [|done]. apply (zigzag_range 32); [lia|]. apply wrap32_ok.
Qed.

Lemma read_i64_total pos : 0 ≤ pos → settles (λ v p, i64_ok v ∧ pos < p ≤ zlen buf) (read_zigzag_i64 buf pos).
Proof using.
  clear. intros Hp. unfold read_zigzag_i64. eapply settles_bind; [by apply read_varint_total|]. cbn.
  intros v p [Hv Hr]. split; [|done]. apply (zigzag_range 64); [lia|]. exact Hv.
Qed.

Lemma read_double_total pos : 0 ≤ pos → settles (λ v p, u64_ok v ∧ pos < p ≤ zlen buf) (read_double buf pos).
Proof using Hbuf.
  intros Hp. unfold read_double. eapply settles_bind; [by apply read_bytes_total|]. cbn.
  intros s p (Hs & Hl & -> & Hr). split; [|lia]. pose proof (le_val_bound s Hs) as Hb. rewrite Hl in Hb. exact Hb.
Qed.

Lemma read_binary_total pos : 0 ≤ pos → settles (λ v p, bytes_ok v ∧ pos < p ≤ zlen buf) (read_binary buf pos).
Proof using Hbuf.
  intros Hp. unfold read_binary. eapply settles_bind; [by apply read_varint_total|].
  intros n p [Hn Hr]. eapply settles_mono; [apply read_bytes_total; [lia|mlia]|].
  cbn. intros s q (Hs & Hl & -> & Hq). split; [done|]. mlia.
Qed.

(** The type an element type stands for. *)
Definition wire_type (ctype : Z) : Z :=
  if decide (ctype = CTYPE_SET) then CTYPE_LIST
  else if decide (ctype = CTYPE_BOOLEAN_FALSE) then CTYPE_BOOLEAN_TRUE else ctype.

Lemma element_type_total nibble pos :
  settles (λ ct p, p = pos ∧ ct ≠ CTYPE_BOOLEAN_FALSE) (d_lift (decode_element_type nibble) pos).
Proof using.
  clear. apply settles_lift; unfold decode_element_type; repeat case_decide; try done.
  - intros ct [= <-]. done.
  - intros ct [= <-]. split; [done|]. intros ->. set_solver.
Qed.

Lemma capacity_total size n pos : settles (λ _ p, p = pos) (d_lift (with_capacity size n) pos).
Proof using. clear. apply settles_lift; unfold with_capacity; by case_decide. Qed.

Lemma i16_add_total a b pos : settles (λ v p, p = pos ∧ i16_ok v) (d_lift (i16_add a b) pos).
Proof using.
  clear Hbuf. apply settles_lift; unfold i16_add, arith; repeat case_match; try done.
  - intros z [= <-]. split; [done|]. rewrite <- e. apply as_i16_ok.
  - intros z [= <-]. split; [done|]. apply as_i16_ok.
Qed.

(** What each reader of nested values leaves, with [fuel] in terms of the
    bytes left. *)
Definition value_total (fuel : nat) : Prop := ∀ ctype ob pos,
  0 ≤ pos ≤ zlen buf → 4 * (zlen buf - pos) + 2 ≤ Z.of_nat fuel →
  settles (λ v p, pos ≤ p ≤ zlen buf ∧ t_typed v ∧ t_ctype v = wire_type ctype ∧
    (ob = None → ctype ≠ CTYPE_BOOLEAN_FALSE → pos < p)) (read_value value_size buf fuel ctype ob pos).

Definition list_total (fuel : nat) : Prop := ∀ pos,
  0 ≤ pos ≤ zlen buf → 4 * (zlen buf - pos) + 1 ≤ Z.of_nat fuel →
  settles (λ v p, pos < p ≤ zlen buf ∧ t_typed v ∧ t_ctype v = CTYPE_LIST) (read_list value_size buf fuel pos).

Definition items_total (fuel : nat) : Prop := ∀ ct size pos,
  0 ≤ pos ≤ zlen buf → 4 * (zlen buf - pos) + 3 ≤ Z.of_nat fuel → ct ≠ CTYPE_BOOLEAN_FALSE →
  settles (λ l p, pos ≤ p ≤ zlen buf ∧ foldr (λ v P, t_typed v ∧ P) True l ∧ Forall (λ v, t_ctype v = wire_type ct) l)
    (read_items value_size buf fuel ct size pos).

Definition map_total (fuel : nat) : Prop := ∀ pos,
  0 ≤ pos ≤ zlen buf → 4 * (zlen buf - pos) + 1 ≤ Z.of_nat fuel →
  settles (λ v p, pos < p ≤ zlen buf ∧ t_typed v ∧ t_ctype v = CTYPE_MAP) (read_map value_size buf fuel pos).

Definition pairs_total (fuel : nat) : Prop := ∀ kt vt size pos,
  0 ≤ pos ≤ zlen buf → 4 * (zlen buf - pos) + 3 ≤ Z.of_nat fuel → kt ≠ CTYPE_BOOLEAN_FALSE → vt ≠ CTYPE_BOOLEAN_FALSE →
  settles (λ l p, pos ≤ p ≤ zlen buf ∧ foldr (λ kv P, (t_typed kv.1 ∧ t_typed kv.2) ∧ P) True l ∧
      Forall (λ kv, t_ctype kv.1 = wire_type kt ∧ t_ctype kv.2 = wire_type vt) l)
    (read_pairs value_size buf fuel kt vt size pos).

Definition struct_total (fuel : nat) : Prop := ∀ last pos,
  0 ≤ pos ≤ zlen buf → 4 * (zlen buf - pos) + 1 ≤ Z.of_nat fuel →
  settles (λ fs p, pos < p ≤ zlen buf ∧ fields_typed fs) (read_struct value_size buf fuel last pos).

Lemma value_total_S fuel : list_total fuel → map_total fuel → struct_total fuel → value_total (S fuel).
Proof using Hbuf.
  intros HL HM HS ctype ob pos Hp Hf. rewrite read_value_S.
  destruct (decide (ctype = CTYPE_BOOLEAN_TRUE)) as [->|?].
  { destruct ob as [b|]; [cbn; split_and!; [lia|lia|done|done|done]|].
    eapply settles_bind; [apply read_byte_total; lia|]. cbn. intros b p (? & -> & ?). split_and!; [lia..|done|done|lia]. }
  destruct (decide (ctype = CTYPE_BOOLEAN_FALSE)) as [->|?]; [cbn; split_and!; [lia..|done|done|done]|].
  assert (Hwt : ctype ≠ CTYPE_SET → wire_type ctype = ctype).
  { intros ?. unfold wire_type. by rewrite !decide_False by done. }
  repeat lazymatch goal with |- settles _ ((if decide (ctype = ?c) then _ else _) _) =>
    destruct (decide (ctype = c)) as [->|?] end.
  - eapply settles_bind; [apply read_byte_total; lia|]. cbn. intros b p (? & -> & ?).
    split_and!; [lia..|apply as_i8_ok|done|lia].
  - eapply settles_bind; [apply read_i32_total; lia|]. cbn. intros v p (? & ?).
    split_and!; [lia..|apply as_i16_ok|done|lia].
  - eapply settles_bind; [apply read_i32_total; lia|]. cbn. intros v p (? & ?). split_and!; [lia..|done|done|lia].
  - eapply settles_bind; [apply read_i64_total; lia|]. cbn. intros v p (? & ?). split_and!; [lia..|done|done|lia].
  - eapply settles_bind; [apply read_double_total; lia|]. cbn. intros v p (? & ?). split_and!; [lia..|done|done|lia].
  - eapply settles_bind; [apply read_binary_total; lia|]. cbn. intros v p (? & ?). split_and!; [lia..|done|done|lia].
  - destruct (decide (ctype = CTYPE_LIST ∨ ctype = CTYPE_SET)) as [Hc|?].
    { eapply settles_mono; [apply HL; lia|]. cbn. intros v p (? & ? & ->). split_and!; [lia..|done| |lia].
      by destruct Hc as [-> | ->]. }
    destruct (decide (ctype = CTYPE_MAP)) as [->|?].
    { eapply settles_mono; [apply HM; lia|]. cbn. intros v p (? & ? & ->). split_and!; [lia..|done|done|lia]. }
    destruct (decide (ctype = CTYPE_STRUCT)) as [->|?]; [|done].
    eapply settles_bind; [apply HS; lia|]. cbn. intros fs p (? & ?). split_and!; [lia..|done|done|lia].
Qed.

Lemma list_total_S fuel : items_total fuel → list_total (S fuel).
Proof using Hbuf.
  intros HI pos Hp Hf. rewrite read_list_S. eapply settles_bind; [apply read_byte_total; lia|].
  intros h p1 (Hh & -> & Hp1). eapply settles_bind; [apply element_type_total|].
  intros ct p2 [-> Hct]. eapply (settles_bind _ _ (λ _ p, pos < p ≤ zlen buf)).
  { case_decide; [|cbn; lia]. eapply settles_mono; [apply read_varint_total; lia|]. cbn. lia. }
  intros size p3 Hp3. eapply settles_bind; [apply capacity_total|]. intros [] p4 ->.
  eapply settles_bind; [apply HI; [lia|lia|done]|]. cbn. intros l p5 (? & ? & ?).
  split_and!; [lia..|done|eauto|done].
Qed.

Lemma items_total_S fuel : value_total fuel → items_total fuel → items_total (S fuel).
Proof using Hbuf.
  intros HV HI ct size pos Hp Hf Hct. rewrite read_items_S. case_decide; [cbn; split_and!; [lia..|done|constructor]|].
  eapply settles_bind; [apply HV; lia|]. cbn beta. intros v p1 (? & ? & ? & Hlt). specialize (Hlt eq_refl Hct).
  eapply settles_bind; [apply HI; [lia|lia|done]|]. cbn. intros l p2 (? & ? & ?).
  split_and!; [lia..|done|done|by constructor].
Qed.

Lemma map_total_S fuel : pairs_total fuel → map_total (S fuel).
Proof using Hbuf.
  intros HI pos Hp Hf. rewrite read_map_S. eapply settles_bind; [apply read_varint_total; lia|].
  intros size p1 (Hs & Hp1). case_decide.
  { cbn. split_and!; [lia..|done| |done]. exists 0, 0. constructor. }
  eapply settles_bind; [apply read_byte_total; lia|]. intros ty p2 (_ & -> & ?).
  eapply settles_bind; [apply element_type_total|]. intros kt p3 [-> Hkt].
  eapply settles_bind; [apply element_type_total|]. intros vt p4 [-> Hvt].
  eapply settles_bind; [apply capacity_total|]. intros [] p5 ->.
  eapply settles_bind; [apply HI; [lia|lia|done|done]|]. cbn. intros l p6 (? & ? & ?).
  split_and!; [lia..|done|eauto|done].
Qed.

Lemma pairs_total_S fuel : value_total fuel → pairs_total fuel → pairs_total (S fuel).
Proof using Hbuf.
  intros HV HI kt vt size pos Hp Hf Hkt Hvt. rewrite read_pairs_S. case_decide; [cbn; split_and!; [lia..|done|constructor]|].
  eapply settles_bind; [apply HV; lia|]. cbn beta. intros k p1 (? & ? & ? & Hlt). specialize (Hlt eq_refl Hkt).
  eapply settles_bind; [apply HV; lia|]. cbn beta. intros v p2 (? & ? & ? & _).
  eapply settles_bind; [apply HI; [lia|lia|done|done]|]. cbn. intros l p3 (? & ? & ?).
  split_and!; [lia..|done|done|done|by constructor].
Qed.

Lemma struct_total_S fuel : value_total fuel → struct_total fuel → struct_total (S fuel).
Proof using Hbuf.
  intros HV HS last pos Hp Hf. rewrite read_struct_S. eapply settles_bind; [apply read_byte_total; lia|].
  intros h p1 (Hh & -> & Hp1). case_decide; [cbn; split_and!; [lia..|done]|].
  eapply (settles_bind _ _ (λ v p, i16_ok v ∧ pos < p ≤ zlen buf)).
  { case_decide.
    - eapply settles_bind; [apply read_i32_total; lia|]. cbn. intros v p ?. split; [apply as_i16_ok|lia].
    - eapply settles_mono; [apply i16_add_total|]. cbn. intros v p [-> ?]. split; [done|lia]. }
  intros id p2 [Hid Hp2]. eapply settles_bind; [apply HV; lia|]. cbn beta. intros v p3 (? & ? & ? & _).
  eapply settles_bind; [apply HS; lia|]. cbn. intros fs p4 (? & ?). split_and!; [lia..|done|done|done].
Qed.

Lemma readers_total fuel :
  value_total fuel ∧ list_total fuel ∧ items_total fuel ∧ map_total fuel ∧ pairs_total fuel ∧ struct_total fuel.
Proof using Hbuf.
  induction fuel as [|fuel (HV & HL & HI & HM & HP & HS)].
  { split_and!; red; intros; lia. }
  split_and!; [by apply value_total_S|by apply list_total_S|by apply items_total_S|by apply map_total_S
    |by apply pairs_total_S|by apply struct_total_S].
Qed.
End totality.

(** ** A writer, and the round trip *)

Section induction.
Context (P : TValue → Prop).
Hypothesis Hbool : ∀ b, P (TBool b).
Hypothesis Hbyte : ∀ z, P (TByte z).
Hypothesis Hi16 : ∀ z, P (TI16 z).
Hypothesis Hi32 : ∀ z, P (TI32 z).
Hypothesis Hi64 : ∀ z, P (TI64 z).
Hypothesis Hdouble : ∀ z, P (TDouble z).
Hypothesis Hbinary : ∀ s, P (TBinary s).
Hypothesis Hlist : ∀ l, Forall P l → P (TList l).
Hypothesis Hmap : ∀ l, Forall (λ kv, P kv.1 ∧ P kv.2) l → P (TMap l).
Hypothesis Hstruct : ∀ fs, Forall (λ f, P f.2) fs → P (TStruct fs).

Fixpoint t_ind (v : TValue) : P v :=
  match v with
  | TBool b => Hbool b
  | TByte z => Hbyte z
  | TI16 z => Hi16 z
  | TI32 z => Hi32 z
  | TI64 z => Hi64 z
  | TDouble z => Hdouble z
  | TBinary s => Hbinary s
  | TList l => Hlist l ((fix go l : Forall P l :=
      match l with [] => Forall_nil_2 P | v :: l => Forall_cons_2 P v l (t_ind v) (go l) end) l)
  | TMap l => Hmap l ((fix go l : Forall (λ kv, P kv.1 ∧ P kv.2) l :=
      match l with
      | [] => Forall_nil_2 _
      | kv :: l => Forall_cons_2 _ kv l (conj (t_ind kv.1) (t_ind kv.2)) (go l)
      end) l)
  | TStruct fs => Hstruct fs ((fix go l : Forall (λ f, P f.2) l :=
      match l with [] => Forall_nil_2 _ | f :: l => Forall_cons_2 _ f l (t_ind f.2) (go l) end) fs)
  end.
End induction.

(** The compact protocol, as a writer produces it: the short field header
    when the id grows by at most 15, the long one otherwise. *)
Definition list_header (ctype size : Z) : bytes :=
  if decide (size < 15) then [size * 16 + ctype] else (15 * 16 + ctype) :: leb128_bytes size.

Definition field_ctype (v : TValue) : Z :=
  match v with TBool false => CTYPE_BOOLEAN_FALSE | _ => t_ctype v end.

Definition field_header (last id : Z) (v : TValue) : bytes :=
  if decide (0 < id - last ≤ 15) then [(id - last) * 16 + field_ctype v]
  else field_ctype v :: leb128_bytes (zigzag_bits id).

Definition elem_ctype (l : list TValue) : Z := match l with [] => CTYPE_BYTE | v :: _ => t_ctype v end.

Fixpoint t_bytes (v : TValue) : bytes :=
  match v with
  | TBool b => [if b then 1 else 2]
  | TByte z => [z mod 256]
  | TI16 z | TI32 z | TI64 z => leb128_bytes (zigzag_bits z)
  | TDouble bits => le_bytes 8 bits
  | TBinary s => leb128_bytes (zlen s) ++ s
  | TList l => list_header (elem_ctype l) (zlen l) ++ concat (map t_bytes l)
  | TMap [] => [0]
  | TMap (((k, v) :: _) as l) =>
      leb128_bytes (zlen l) ++ (t_ctype k * 16 + t_ctype v) :: concat (map (λ kv, t_bytes kv.1 ++ t_bytes kv.2) l)
  | TStruct fs =>
      (fix go (last : Z) (fs : list (Z * TValue)) : bytes :=
         match fs with
         | [] => [CTYPE_STOP]
         | (id, v) :: fs =>
             field_header last id v ++ (match v with TBool _ => [] | _ => t_bytes v end) ++ go id fs
         end) 0 fs
  end.

Definition field_body (v : TValue) : bytes := match v with TBool _ => [] | _ => t_bytes v end.

Fixpoint fields_bytes (last : Z) (fs : list (Z * TValue)) : bytes :=
  match fs with
  | [] => [CTYPE_STOP]
  | (id, v) :: fs => field_header last id v ++ field_body v ++ fields_bytes id fs
  end.

Lemma t_bytes_struct fs : t_bytes (TStruct fs) = fields_bytes 0 fs.
Proof.
  cbn [t_bytes]. generalize 0. induction fs as [|[id v] fs IH]; intros last; [done|]. cbn [fields_bytes].
  specialize (IH id). destruct v; cbn [field_body]; by rewrite <- IH.
Qed.

Lemma t_bytes_pos v : (0 < length (t_bytes v))%nat.
Proof.
  destruct v as [| | | | | | |l|l|fs]; try (cbn; lia); cbn [t_bytes];
    try (match goal with |- context [leb128_bytes ?x] => pose proof (leb128_bytes_pos x) end; rewrite ?length_app; lia).
  - rewrite length_app. unfold list_header. case_decide; cbn [length]; lia.
  - destruct l as [|[]]; [cbn; lia|]. rewrite length_app. cbn [length]. lia.
  - change (0 < length (t_bytes (TStruct fs)))%nat. rewrite t_bytes_struct.
    destruct fs as [|[id v] fs]; cbn [fields_bytes]; [cbn; lia|].
    rewrite length_app. unfold field_header. case_decide; cbn; lia.
Qed.

Lemma t_ctype_cases v : 1 ≤ t_ctype v ≤ 12 ∧ t_ctype v ≠ 2 ∧ decode_element_type (t_ctype v) = Ok (t_ctype v).
Proof. destruct v; cbn; split_and!; (lia || done). Qed.

Lemma nibbles a b : 0 ≤ b < 16 → Z.shiftr (a * 16 + b) 4 = a ∧ Z.land (a * 16 + b) 0x0f = b.
Proof.
  intros Hb. rewrite Z.shiftr_div_pow2 by lia. change (2 ^ 4) with 16.
  change 0x0f with (Z.ones 4). rewrite Z.land_ones by lia. change (2 ^ 4) with 16.
  split; [rewrite Z.div_add_l by lia; rewrite Z.div_small by lia; lia|].
  rewrite Z.add_comm, Z.mod_add by lia. by apply Z.mod_small.
Qed.

Ltac read_with H := cbv beta; rewrite H; cbv beta iota.

Section roundtrip.
Context `{Build} (value_size : Z) (buf : bytes).
Hypothesis Hlen : zlen buf ≤ ISIZE_MAX.
Hypothesis Hsize : 0 < value_size.
Hypothesis Hcap : 2 * value_size * zlen buf ≤ ISIZE_MAX.

Lemma rt_byte pos b r : left_at buf pos (b :: r) → read_byte buf pos = Ok (b, pos + 1).
Proof using. clear. intros [Hb _]%left_byte. unfold read_byte. by rewrite Hb. Qed.

Lemma rt_bytes pos s r n : left_at buf pos (s ++ r) → n = zlen s → read_bytes buf n pos = Ok (s, pos + n).
Proof using Hlen.
  intros Hl ->. unfold read_bytes. rewrite decide_False; [by rewrite (left_range _ _ _ _ Hl)|].
  destruct Hl as (? & Hl & _). rewrite length_app in Hl. mlia.
Qed.

Lemma rt_varint pos v r :
  left_at buf pos (leb128_bytes v ++ r) → u64_ok v → read_varint buf pos = Ok (v, pos + zlen (leb128_bytes v)).
Proof using.
  clear. intros Hl Hv. apply (leb128_roundtrip _ _ 70 buf pos r v Hl Hv); [|lia].
  change (2 ^ 70) with 1180591620717411303424. mlia.
Qed.

Lemma rt_i32 pos z r :
  left_at buf pos (leb128_bytes (zigzag_bits z) ++ r) → i32_ok z →
  read_zigzag_i32 buf pos = Ok (z, pos + zlen (leb128_bytes (zigzag_bits z))).
Proof using.
  clear. intros Hl Hz. destruct (zigzag_roundtrip 32 z) as [Hb Hr]; [lia|exact Hz|].
  unfold read_zigzag_i32. rewrite (rt_varint _ _ _ Hl) by (change (2 ^ 32) with 4294967296 in Hb; mlia).
  cbv beta iota. unfold d_ok. rewrite wrap32_small by exact Hb. by rewrite Hr.
Qed.

Lemma rt_i64 pos z r :
  left_at buf pos (leb128_bytes (zigzag_bits z) ++ r) → i64_ok z →
  read_zigzag_i64 buf pos = Ok (z, pos + zlen (leb128_bytes (zigzag_bits z))).
Proof using.
  clear. intros Hl Hz. destruct (zigzag_roundtrip 64 z) as [Hb Hr]; [lia|exact Hz|].
  unfold read_zigzag_i64. rewrite (rt_varint _ _ _ Hl) by exact Hb. cbv beta iota. unfold d_ok. by rewrite Hr.
Qed.

(** A value is read back from its bytes, whatever follows. *)
Definition reads_back (v : TValue) : Prop := ∀ (fuel : nat) pos r,
  left_at buf pos (t_bytes v ++ r) → t_typed v → 4 * zlen (t_bytes v) + 2 ≤ Z.of_nat fuel →
  read_value value_size buf fuel (t_ctype v) None pos = Ok (v, pos + zlen (t_bytes v)).

Lemma rt_items l ct (fuel : nat) pos r :
  Forall reads_back l → left_at buf pos (concat (map t_bytes l) ++ r) → foldr (λ v P, t_typed v ∧ P) True l →
  Forall (λ v, t_ctype v = ct) l → 4 * zlen (concat (map t_bytes l)) + 3 ≤ Z.of_nat fuel →
  read_items value_size buf fuel ct (zlen l) pos = Ok (l, pos + zlen (concat (map t_bytes l))).
Proof using.
  clear Hlen Hsize Hcap. intros HF. revert fuel pos. induction HF as [|v l Hv HF IH]; intros fuel pos Hl Ht Hc Hf.
  { destruct fuel; [cbn in Hf; lia|]. rewrite read_items_S. rewrite decide_True by (cbn [length]; lia).
    unfold d_ok. cbn [map concat length]. by rewrite Z.add_0_r. }
  destruct fuel; [cbn in Hf; lia|]. rewrite read_items_S. rewrite decide_False by (cbn [length]; lia).
  cbn [map concat] in Hl, Hf |- *. cbn [foldr] in Ht. destruct Ht as [Htv Ht]. inversion_clear Hc as [|?? Hcv Hc'].
  rewrite length_app in Hf. rewrite <- (assoc_L (++)) in Hl. pose proof (t_bytes_pos v). subst ct.
  read_with (Hv fuel pos _ Hl Htv ltac:(lia)).
  replace (zlen (v :: l) - 1) with (zlen l) by (cbn [length]; lia).
  read_with (IH fuel (pos + zlen (t_bytes v)) (left_app _ _ _ _ Hl) Ht Hc' ltac:(lia)).
  unfold d_ok. rewrite length_app. do 2 f_equal. lia.
Qed.

Lemma rt_pairs l kt vt (fuel : nat) pos r :
  Forall (λ kv, reads_back kv.1 ∧ reads_back kv.2) l →
  left_at buf pos (concat (map (λ kv, t_bytes kv.1 ++ t_bytes kv.2) l) ++ r) →
  foldr (λ kv P, (t_typed kv.1 ∧ t_typed kv.2) ∧ P) True l →
  Forall (λ kv, t_ctype kv.1 = kt ∧ t_ctype kv.2 = vt) l →
  4 * zlen (concat (map (λ kv, t_bytes kv.1 ++ t_bytes kv.2) l)) + 3 ≤ Z.of_nat fuel →
  read_pairs value_size buf fuel kt vt (zlen l) pos =
    Ok (l, pos + zlen (concat (map (λ kv, t_bytes kv.1 ++ t_bytes kv.2) l))).
Proof using.
  clear Hlen Hsize Hcap. intros HF. revert fuel pos. induction HF as [|[k v] l [Hk Hv] HF IH]; intros fuel pos Hl Ht Hc Hf.
  { destruct fuel; [cbn in Hf; lia|]. rewrite read_pairs_S. rewrite decide_True by (cbn [length]; lia).
    unfold d_ok. cbn [map concat length]. by rewrite Z.add_0_r. }
  destruct fuel; [cbn in Hf; lia|]. rewrite read_pairs_S. rewrite decide_False by (cbn [length]; lia).
  cbn [map concat fst snd] in Hl, Hf, Hk, Hv |- *. cbn [foldr fst snd] in Ht. destruct Ht as [[Htk Htv] Ht].
  inversion_clear Hc as [|?? [Hck Hcv] Hc']. cbn [fst snd] in Hck, Hcv.
  rewrite !length_app in Hf. rewrite <- !(assoc_L (++)) in Hl. pose proof (t_bytes_pos v). pose proof (t_bytes_pos k).
  subst kt vt. read_with (Hk fuel pos _ Hl Htk ltac:(lia)). apply left_app in Hl.
  read_with (Hv fuel _ _ Hl Htv ltac:(lia)). apply left_app in Hl.
  replace (zlen ((k, v) :: l) - 1) with (zlen l) by (cbn [length]; lia).
  read_with (IH fuel _ Hl Ht Hc' ltac:(lia)).
  unfold d_ok. rewrite !length_app. do 2 f_equal. lia.
Qed.

(** What is left in the buffer bounds the sizes and capacities. *)
Lemma left_cap pos s r n k :
  left_at buf pos (s ++ r) → 0 ≤ n ≤ zlen s → 1 ≤ k ≤ 2 → u64_ok n ∧ with_capacity (E := ThriftError) (k * value_size) n = Ok ().
Proof using Hlen Hsize Hcap.
  intros (? & Hl & _) Hn Hk. rewrite length_app in Hl. split; [mlia|]. apply with_capacity_ok.
  etransitivity; [|exact Hcap]. apply Z.mul_le_mono_nonneg; [lia|nia|lia..].
Qed.

Lemma concat_bytes_ge l : zlen l ≤ zlen (concat (map t_bytes l)).
Proof using.
  clear. induction l as [|v l IH]; [done|]. cbn [map concat length]. rewrite length_app.
  pose proof (t_bytes_pos v). lia.
Qed.

Lemma concat_pairs_ge l : zlen l ≤ zlen (concat (map (λ kv, t_bytes kv.1 ++ t_bytes kv.2) l)).
Proof using.
  clear. induction l as [|[k v] l IH]; [done|]. cbn [map concat length fst snd]. rewrite !length_app.
  pose proof (t_bytes_pos v). lia.
Qed.

Lemma elem_ctype_eq l ct : Forall (λ v, t_ctype v = ct) l →
  Forall (λ v, t_ctype v = elem_ctype l) l ∧ 0 ≤ elem_ctype l < 16 ∧ decode_element_type (elem_ctype l) = Ok (elem_ctype l).
Proof using.
  clear. intros HF. destruct l as [|v l]; [split_and!; [constructor|done..]|]. cbn [elem_ctype].
  destruct (t_ctype_cases v) as (? & ? & ?). split_and!; [|lia|lia|done].
  inversion_clear HF as [|?? Hv HF']. constructor; [done|]. eapply Forall_impl; [exact HF'|]. cbn. congruence.
Qed.

Lemma rt_list l (fuel : nat) pos r :
  Forall reads_back l → left_at buf pos (t_bytes (TList l) ++ r) → t_typed (TList l) →
  4 * zlen (t_bytes (TList l)) + 1 ≤ Z.of_nat fuel →
  read_list value_size buf fuel pos = Ok (TList l, pos + zlen (t_bytes (TList l))).
Proof using Hlen Hsize Hcap.
  intros HF Hl [Ht [ct Hc]] Hf. destruct fuel; [cbn in Hf; lia|]. rewrite read_list_S.
  destruct (elem_ctype_eq l ct Hc) as (Hc' & He & Hd). cbn [t_bytes] in Hl, Hf |- *.
  rewrite <- (assoc_L (++)) in Hl. rewrite length_app in Hf |- *. unfold list_header in *.
  pose proof (concat_bytes_ge l) as Hge.
  destruct (decide (zlen l < 15)) as [Hs|Hs].
  - cbn [app length] in Hl, Hf |- *. destruct (nibbles (zlen l) (elem_ctype l) He) as [Hn1 Hn2].
    read_with (rt_byte _ _ _ Hl). apply left_byte in Hl as [_ Hl]. rewrite Hn1, Hn2, Hd. unfold d_lift at 1. cbv beta iota.
    rewrite decide_False by lia. unfold d_ok at 1. cbv beta iota.
    destruct (left_cap _ _ _ (zlen l) 1 Hl ltac:(lia) ltac:(lia)) as [_ Hw]. rewrite Z.mul_1_l in Hw. rewrite Hw.
    unfold d_lift at 1. cbv beta iota. read_with (rt_items l _ fuel _ r HF Hl Ht Hc' ltac:(lia)).
    unfold d_ok. do 2 f_equal. lia.
  - cbn [app length] in Hl, Hf |- *. destruct (nibbles 15 (elem_ctype l) He) as [Hn1 Hn2].
    read_with (rt_byte _ _ _ Hl). apply left_byte in Hl as [_ Hl]. rewrite Hn1, Hn2, Hd. unfold d_lift at 1. cbv beta iota.
    rewrite decide_True by done. pose proof (left_app _ _ _ _ Hl) as Hl2.
    destruct (left_cap _ _ _ (zlen l) 1 Hl2 ltac:(lia) ltac:(lia)) as [Hu Hw]. rewrite Z.mul_1_l in Hw.
    read_with (rt_varint _ _ _ Hl Hu). rewrite Hw. unfold d_lift at 1. cbv beta iota.
    read_with (rt_items l _ fuel _ r HF Hl2 Ht Hc' ltac:(lia)). unfold d_ok. do 2 f_equal. lia.
Qed.

Lemma rt_map l (fuel : nat) pos r :
  Forall (λ kv, reads_back kv.1 ∧ reads_back kv.2) l → left_at buf pos (t_bytes (TMap l) ++ r) → t_typed (TMap l) →
  4 * zlen (t_bytes (TMap l)) + 1 ≤ Z.of_nat fuel →
  read_map value_size buf fuel pos = Ok (TMap l, pos + zlen (t_bytes (TMap l))).
Proof using Hlen Hsize Hcap.
  intros HF Hl [Ht (kt & vt & Hc)] Hf. destruct fuel; [cbn in Hf; lia|]. rewrite read_map_S.
  destruct l as [|[k v] l].
  { assert (Hv : read_varint buf pos = Ok (0, pos + 1)) by exact (rt_varint pos 0 r Hl ltac:(mlia)).
    read_with Hv. by rewrite decide_True. }
  assert (kt = t_ctype k ∧ vt = t_ctype v) as [-> ->] 
    by (apply Forall_cons in Hc as [[Hk Hv] _]; by split; symmetry).
  remember ((k, v) :: l) as kvs eqn:Ekvs.
  assert (Eb : t_bytes (TMap kvs) = leb128_bytes (zlen kvs) ++ (t_ctype k * 16 + t_ctype v) ::
    concat (map (λ kv, t_bytes kv.1 ++ t_bytes kv.2) kvs)) by (subst kvs; reflexivity).
  rewrite Eb in Hl, Hf |- *. rewrite <- (assoc_L (++)) in Hl. rewrite length_app in Hf |- *. cbn [length app] in Hl, Hf |- *.
  pose proof (concat_pairs_ge kvs) as Hge. pose proof (left_app _ _ _ _ Hl) as Hl2.
  destruct (left_byte _ _ _ _ Hl2) as [_ Hl3].
  destruct (left_cap _ _ _ (zlen kvs) 2 Hl3 ltac:(lia) ltac:(lia)) as [Hu Hw].
  read_with (rt_varint _ _ _ Hl Hu). rewrite decide_False by (subst kvs; cbn [length]; lia).
  read_with (rt_byte _ _ _ Hl2). destruct (t_ctype_cases v) as (Hv1 & _ & Hv2).
  destruct (t_ctype_cases k) as (Hk1 & _ & Hk2). destruct (nibbles (t_ctype k) (t_ctype v) ltac:(lia)) as [-> ->].
  rewrite Hk2, Hv2. unfold d_lift. cbv beta iota. rewrite Hw. cbv beta iota.
  read_with (rt_pairs kvs _ _ fuel _ r HF Hl3 Ht Hc ltac:(lia)). unfold d_ok. do 2 f_equal. lia.
Qed.

Lemma field_ctype_cases v : 1 ≤ field_ctype v ≤ 12.
Proof using. clear. destruct v as [[]| | | | | | | | |]; split; vm_compute; congruence. Qed.

Lemma field_header_first last id v : ∃ h t, field_header last id v = h :: t ∧ 0 < h.
Proof using.
  clear. pose proof (field_ctype_cases v). unfold field_header. case_decide; eexists _, _; (split; [done|lia]).
Qed.

(** The value of a field, booleans folded into the header. *)
Lemma rt_field_value v (fuel : nat) pos r :
  reads_back v → left_at buf pos (field_body v ++ r) → t_typed v → 4 * zlen (field_body v) + 2 ≤ Z.of_nat fuel →
  read_value value_size buf fuel (field_ctype v)
    (if decide (field_ctype v = CTYPE_BOOLEAN_TRUE) then Some true
     else if decide (field_ctype v = CTYPE_BOOLEAN_FALSE) then Some false else None) pos =
    Ok (v, pos + zlen (field_body v)).
Proof using.
  clear Hlen Hsize Hcap. intros Hv Hl Ht Hf. destruct v as [b| | | | | | | | |]; try exact (Hv fuel pos r Hl Ht Hf).
  destruct fuel; [lia|]. rewrite read_value_S. cbn [field_body length]. rewrite Z.add_0_r. by destruct b.
Qed.

(** The id of a field, in either form of its header. *)
Lemma rt_field_id last id v pos r :
  left_at buf pos (field_header last id v ++ r) → i16_ok id → i16_ok last →
  ∃ h, read_byte buf pos = Ok (h, pos + 1) ∧ h ≠ CTYPE_STOP ∧ Z.land h 0x0f = field_ctype v ∧
    (if decide (Z.land (Z.shiftr h 4) 0x0f = 0) then (λ pos, let? (v, pos') := read_zigzag_i32 buf pos in d_ok (as_i16 v) pos')
     else d_lift (i16_add last (Z.land (Z.shiftr h 4) 0x0f))) (pos + 1) = Ok (id, pos + zlen (field_header last id v)).
Proof using.
  clear Hlen Hsize Hcap. intros Hl Hid Hla. pose proof (field_ctype_cases v) as Hc.
  unfold field_header in *. destruct (decide (0 < id - last ≤ 15)) as [Hd|Hd].
  - cbn [app] in Hl. exists ((id - last) * 16 + field_ctype v).
    destruct (nibbles (id - last) (field_ctype v) ltac:(lia)) as [Hn1 Hn2].
    split_and!; [by apply (rt_byte _ _ r)|unfold CTYPE_STOP; lia|done|]. rewrite Hn1.
    change 0x0f with (Z.ones 4). rewrite Z.land_ones, Z.mod_small by (change (2 ^ 4) with 16; lia).
    rewrite decide_False by lia. unfold d_lift. rewrite i16_add_ok by (replace (last + (id - last)) with id by lia; done).
    do 2 f_equal. lia.
  - cbn [app] in Hl. exists (field_ctype v).
    destruct (nibbles 0 (field_ctype v) ltac:(lia)) as [Hn1 Hn2]. rewrite Z.add_0_l in Hn1, Hn2.
    split_and!; [by apply (rt_byte _ _ (leb128_bytes (zigzag_bits id) ++ r))|unfold CTYPE_STOP; lia|done|].
    rewrite Hn1. rewrite decide_True by done. apply left_byte in Hl as [_ Hl]. read_with (rt_i32 _ _ _ Hl ltac:(mlia)).
    unfold d_ok, as_i16. rewrite to_signed_small by (simpl; mlia). cbn [length]. do 2 f_equal. lia.
Qed.

Lemma rt_struct fs last (fuel : nat) pos r :
  Forall (λ f, reads_back f.2) fs → left_at buf pos (fields_bytes last fs ++ r) → fields_typed fs → i16_ok last →
  4 * zlen (fields_bytes last fs) + 1 ≤ Z.of_nat fuel →
  read_struct value_size buf fuel last pos = Ok (fs, pos + zlen (fields_bytes last fs)).
Proof using Hlen Hsize Hcap.
  intros HF. revert last fuel pos. induction HF as [|[id v] fs Hv HF IH]; intros last fuel pos Hl Ht Hla Hf.
  { destruct fuel; [cbn in Hf; lia|]. rewrite read_struct_S. read_with (rt_byte _ _ _ Hl). by rewrite decide_True. }
  destruct fuel; [lia|]. rewrite read_struct_S. cbn [fields_bytes] in Hl, Hf |- *. cbn [snd] in Hv.
  destruct Ht as [[Hid Htv] Ht]. cbn [fst snd] in Hid, Htv.
  rewrite !length_app in Hf |- *. rewrite <- !(assoc_L (++)) in Hl.
  destruct (rt_field_id last id v pos _ Hl Hid Hla) as (h & Hh & Hs & Hct & Hi). read_with Hh.
  rewrite decide_False by done. cbv zeta beta. rewrite Hi. cbv beta iota. rewrite Hct.
  destruct (field_header_first last id v) as (h' & t' & Eh & _). assert (1 ≤ zlen (field_header last id v)) by (rewrite Eh; cbn [length]; lia).
  apply left_app in Hl. read_with (rt_field_value v fuel _ _ Hv Hl Htv ltac:(lia)). apply left_app in Hl.
  read_with (IH id fuel _ Hl Ht Hid ltac:(lia)). unfold d_ok. do 2 f_equal. lia.
Qed.

Lemma rt_value v : reads_back v.
Proof using Hlen Hsize Hcap.
  induction v using t_ind; intros fuel pos r Hl Ht Hf; (destruct fuel as [|fuel]; [lia|]); rewrite read_value_S; cbn [t_ctype].
  - cbn [t_bytes app] in Hl. rewrite decide_True by done. read_with (rt_byte _ _ _ Hl). by destruct b.
  - cbn [t_bytes app] in Hl. rewrite 2 decide_False, decide_True by done. read_with (rt_byte _ _ _ Hl).
    unfold d_ok, as_i8. by rewrite (to_signed_unsigned 8).
  - cbn [t_bytes] in Hl. rewrite 3 decide_False, decide_True by done. read_with (rt_i32 _ _ _ Hl ltac:(cbn in Ht; mlia)).
    unfold d_ok, as_i16. by rewrite to_signed_small by (cbn in Ht; simpl; mlia).
  - cbn [t_bytes] in Hl. rewrite 4 decide_False, decide_True by done. by read_with (rt_i32 _ _ _ Hl Ht).
  - cbn [t_bytes] in Hl. rewrite 5 decide_False, decide_True by done. by read_with (rt_i64 _ _ _ Hl Ht).
  - cbn [t_bytes] in Hl. rewrite 6 decide_False, decide_True by done. unfold read_double.
    read_with (rt_bytes _ _ _ 8 Hl ltac:(by rewrite le_bytes_length)). unfold d_ok. cbn [t_bytes].
    rewrite le_val_le_bytes, le_bytes_length. rewrite Z.mod_small by exact Ht. done.
  - cbn [t_bytes] in Hl |- *. rewrite 7 decide_False, decide_True by done. rewrite <- (assoc_L (++)) in Hl.
    pose proof (left_app _ _ _ _ Hl) as Hl2. destruct (left_cap _ _ _ (zlen s) 1 Hl2 ltac:(lia) ltac:(lia)) as [Hu _].
    unfold read_binary. read_with (rt_varint _ _ _ Hl Hu). read_with (rt_bytes _ _ _ _ Hl2 eq_refl).
    unfold d_ok. rewrite length_app. do 2 f_equal. lia.
  - rewrite 8 decide_False, decide_True by (done || auto). apply (rt_list l fuel pos r); [done|done|done|lia].
  - rewrite 9 decide_False, decide_True by (done || naive_solver). apply (rt_map l fuel pos r); [done|done|done|lia].
  - rewrite 10 decide_False, decide_True by (done || naive_solver). rewrite t_bytes_struct in *.
    by read_with (rt_struct fs 0 fuel pos r H0 Hl Ht ltac:(mlia) ltac:(lia)).
Qed.
End roundtrip.

Lemma decode_fields `{Build} value_size fs rest :
  fields_typed fs → 0 < value_size → 2 * value_size * zlen (fields_bytes 0 fs ++ rest) ≤ ISIZE_MAX →
  decode_struct value_size (fields_bytes 0 fs ++ rest) = Ok (fs, zlen (fields_bytes 0 fs)).
Proof.
  intros Ht Hs Hc. unfold decode_struct.
  assert (Hl : zlen (fields_bytes 0 fs ++ rest) ≤ ISIZE_MAX) by nia.
  rewrite (rt_struct value_size _ Hl Hs Hc fs 0 _ 0 rest).
  - done.
  - apply Forall_true. intros f. by apply rt_value.
  - apply left_start.
  - done.
  - mlia.
  - rewrite length_app. lia.
Qed.

(** ** Properties *)

(** C29: The decoder inverts the compact protocol.  Every struct whose values
    are within their types, written with short or long field headers, folded
    booleans, lists of any length, maps and nested structs, is decoded to
    itself, and exactly its bytes are consumed, whatever follows; in debug
    and in release builds. *)
Theorem thrift_roundtrip `{Build} (value_size : Z) (fs : list (Z * TValue)) (rest : bytes) :
  fields_typed fs → 0 < value_size → 2 * value_size * zlen (fields_bytes 0 fs ++ rest) ≤ ISIZE_MAX →
  decode_struct value_size (fields_bytes 0 fs ++ rest) = Ok (fs, zlen (fields_bytes 0 fs)).
Proof. apply decode_fields. Qed.

Definition example_struct : list (Z * TValue) :=
  [(1, TI32 2); (2, TList [TStruct [(4, TBinary [115; 99; 104]); (5, TI32 (-3))]; TStruct []]); (3, TI64 (2 ^ 40));
   (4, TBool false); (30, TMap [(TBinary [97], TDouble 0x3ff0000000000000)]); (-7, TList (repeat (TBool true) 20))].

Lemma thrift_roundtrip_witness :
  decode_struct (H := debug) 32 (fields_bytes 0 example_struct ++ [1; 2; 3]) =
    Ok (example_struct, zlen (fields_bytes 0 example_struct)).
Proof.
  apply (thrift_roundtrip (H := debug) 32 example_struct [1; 2; 3]).
  - unfold fields_typed, example_struct. cbn [t_typed foldr fst snd repeat]. unfold bytes_ok.
    repeat lazymatch goal with
    | |- _ ∧ _ => split
    | |- True => exact I
    | |- Forall _ [] => apply Forall_nil_2
    | |- Forall _ (_ :: _) => apply Forall_cons_2
    | |- ∃ kt vt : Z, _ => exists CTYPE_BINARY, CTYPE_DOUBLE
    | |- ∃ ct : Z, Forall _ (TStruct _ :: _) => exists CTYPE_STRUCT
    | |- ∃ ct : Z, _ => exists CTYPE_BOOLEAN_TRUE
    | |- _ = _ => reflexivity
    | |- _ => split; vm_compute; congruence
    end.
  - lia.
  - vm_compute. congruence.
Defined.

(** C30: On every byte string the decoder returns, with an error, a panic or
    a struct: no input makes its loops and its recursion go on.  A decoded
    struct is well-typed, every number within the width its wire type
    announces and every collection of one element type, and was read from
    within the buffer. *)
Theorem thrift_decode_typed `{Build} (value_size : Z) (buf : bytes) :
  bytes_ok buf →
  match decode_struct value_size buf with
  | Ok (fs, n) => fields_typed fs ∧ 0 < n ≤ zlen buf
  | Err OutOfFuel => False
  | Err _ => True
  end.
Proof.
  intros Hb. unfold decode_struct.
  destruct (readers_total value_size buf Hb (4 * length buf + 4)) as (_ & _ & _ & _ & _ & HS).
  specialize (HS 0 0 ltac:(lia) ltac:(lia)). destruct (read_struct _ _ _ _ _) as [[fs n]|[]]; cbn in HS; [|done..].
  split; [apply HS|lia].
Qed.

Lemma thrift_decode_typed_witness :
  decode_struct (H := release) 32 [0x15; 0x04; 0x2c; 0x13; 0x80; 0x00; 0x00] =
    Ok ([(1, TI32 2); (3, TStruct [(1, TByte (-128))])], 7) ∧
  fields_typed [(1, TI32 2); (3, TStruct [(1, TByte (-128))])].
Proof.
  split; [vm_compute; reflexivity|].
  pose proof (thrift_decode_typed (H := release) 32 [0x15; 0x04; 0x2c; 0x13; 0x80; 0x00; 0x00]
    ltac:(repeat constructor; vm_compute; congruence)) as Ht.
  vm_compute in Ht |- *. exact (proj1 Ht).
Defined.
