(* ===== verification/ParquetEncoding.v ===== *)
(** * Parquet encodings ([column/parquet/encoding.rs])

    The RLE/bit-packed hybrid of levels and dictionary indices, and the
    DELTA_BINARY_PACKED stream.  Sizes read from the data go through the
    wrapping or checked multiplications of the source; positions within a
    slice are exact, since no slice has [2 ^ 61] bytes. *)

From S2P Require Import Prelude Machine.

Inductive EncodingError : Type :=
| EncUnexpectedEof
| EncInvalidVarint.

Definition read_unsigned_varint : bytes → Z → run EncodingError (Z * Z) :=
  leb128 EncUnexpectedEof EncInvalidVarint 70.

Definition div_ceil (a b : Z) : Z := (a + b - 1) / b.

Section encoding.
Context `{Build}.

(** [n] bits from [bit_pos + bit] on, each or-ed into a [w]-bit value. *)
Fixpoint unpack_bits (w : Z) (bytes : bytes) (bit_pos : Z) (n : nat) (bit value : Z) : run EncodingError Z :=
  match n with
  | O => Ok value
  | S n =>
      let global_bit := bit_pos + bit in
      let? byte := index (get_byte bytes (global_bit / 8)) in
      let b := Z.land (Z.shiftr byte (global_bit mod 8)) 1 in
      let? shifted := u_shl w b bit in
      unpack_bits w bytes bit_pos n (bit + 1) (Z.lor value shifted)
  end.

(** [count] consecutive values of [bit_width] bits. *)
Fixpoint unpack_values (w : Z) (bytes : bytes) (bit_width : Z) (count : nat) (bit_pos : Z)
  : run EncodingError (list Z) :=
  match count with
  | O => Ok []
  | S count =>
      let? value := unpack_bits w bytes bit_pos (Z.to_nat bit_width) 0 0 in
      let? values := unpack_values w bytes bit_width count (bit_pos + bit_width) in
      Ok (value :: values)
  end.

(** The value of an RLE run: its bytes, little-endian. *)
Fixpoint rle_value (bytes : bytes) (i value : Z) : run EncodingError Z :=
  match bytes with
  | [] => Ok value
  | b :: bytes =>
      let? shifted := u_shl 32 b (8 * i) in
      rle_value bytes (i + 1) (Z.lor value shifted)
  end.

(** The loop over the runs.  The inner loop of a bit-packed run stops when
    [num_values] values are there. *)
Fixpoint hybrid_loop (fuel : nat) (data : bytes) (bit_width num_values pos : Z) (out : list Z)
  : run EncodingError (list Z) :=
  if decide (num_values ≤ zlen out) then Ok out
  else
    match fuel with
    | O => Err OutOfFuel
    | S fuel =>
        let? hp := read_unsigned_varint data pos in
        let '(header, pos) := hp in
        let run_len := Z.shiftr header 1 in
        if decide (Z.land header 1 = 1) then
          let num_groups := run_len in
          let? byte_count := u_mul num_groups bit_width in
          let? page_end := u_add pos byte_count in
          let? bytes := fails_with (get_range data pos page_end) EncUnexpectedEof in
          let? values := u_mul num_groups 8 in
          let? unpacked := unpack_values 32 bytes bit_width (Z.to_nat (Z.min values (num_values - zlen out))) 0 in
          hybrid_loop fuel data bit_width num_values page_end (out ++ unpacked)
        else
          let value_byte_count := div_ceil bit_width 8 in
          let? bytes := fails_with (get_range data pos (pos + value_byte_count)) EncUnexpectedEof in
          let? value := rle_value bytes 0 0 in
          let take := Z.min run_len (num_values - zlen out) in
          hybrid_loop fuel data bit_width num_values (pos + value_byte_count) (out ++ replicate (Z.to_nat take) value)
    end.

Definition decode_hybrid_rle_bitpacked (data : bytes) (bit_width num_values : Z) : run EncodingError (list Z) :=
  let? _ := with_capacity 4 num_values in
  if decide (bit_width = 0) then Ok (replicate (Z.to_nat num_values) 0)
  else
    let? out := hybrid_loop (S (length data)) data bit_width num_values 0 [] in
    Ok (take (Z.to_nat num_values) out).

Definition read_zigzag_varint (data : bytes) (pos : Z) : run EncodingError (Z * Z) :=
  let? rp := read_unsigned_varint data pos in
  Ok (zigzag 64 rp.1, rp.2).

Definition unpack_bit_packed (data : bytes) (bit_width count : Z) : run EncodingError (list Z) :=
  if decide (bit_width = 0) then
    let? _ := with_capacity 8 count in
    Ok (replicate (Z.to_nat count) 0)
  else
    let? bits := u_mul count bit_width in
    let byte_count := div_ceil bits 8 in
    let? bytes := fails_with (get_range data 0 byte_count) EncUnexpectedEof in
    let? _ := with_capacity 8 count in
    unpack_values 64 bytes bit_width (Z.to_nat count) 0.

(** [for raw in packed { ... }]: running sums of the deltas, until
    [total_count] values are there. *)
Fixpoint delta_values (packed : list Z) (total_count min_delta prev : Z) (out : list Z)
  : run EncodingError (Z * list Z) :=
  match packed with
  | [] => Ok (prev, out)
  | raw :: packed =>
      if decide (total_count ≤ zlen out) then Ok (prev, out)
      else
        let? delta := i64_add min_delta (as_i64 raw) in
        let? prev := i64_add prev delta in
        delta_values packed total_count min_delta prev (out ++ [prev])
  end.

(** The miniblocks of one block. *)
Fixpoint delta_miniblocks (data : bytes) (bit_widths : list Z) (values_per_miniblock total_count min_delta pos prev : Z)
    (out : list Z) : run EncodingError (Z * Z * list Z) :=
  match bit_widths with
  | [] => Ok (pos, prev, out)
  | bit_width :: bit_widths =>
      if decide (total_count ≤ zlen out) then Ok (pos, prev, out)
      else
        let? rest := index (get_from data pos) in
        let? packed := unpack_bit_packed rest bit_width values_per_miniblock in
        let? bits := u_mul values_per_miniblock bit_width in
        let? po := delta_values packed total_count min_delta prev out in
        delta_miniblocks data bit_widths values_per_miniblock total_count min_delta (pos + div_ceil bits 8) po.1 po.2
  end.

(** The loop over the blocks.  The widths of a block are read one byte at a
    time, which fails as one read of all of them does. *)
Fixpoint delta_blocks (fuel : nat) (data : bytes) (miniblocks_per_block values_per_miniblock total_count pos prev : Z)
    (out : list Z) : run EncodingError (list Z) :=
  if decide (total_count ≤ zlen out) then Ok out
  else
    match fuel with
    | O => Err OutOfFuel
    | S fuel =>
        let? mp := read_zigzag_varint data pos in
        let '(min_delta, pos) := mp in
        let? _ := with_capacity 4 miniblocks_per_block in
        let? bit_widths := fails_with (get_range data pos (pos + miniblocks_per_block)) EncUnexpectedEof in
        let pos := pos + miniblocks_per_block in
        let? ppo := delta_miniblocks data bit_widths values_per_miniblock total_count min_delta pos prev out in
        let '(pos, prev, out) := ppo in
        delta_blocks fuel data miniblocks_per_block values_per_miniblock total_count pos prev out
    end.

Definition decode_delta_binary_packed (data : bytes) : run EncodingError (list Z) :=
  let? bp := read_unsigned_varint data 0 in
  let '(block_size, pos) := bp in
  let? mp := read_unsigned_varint data pos in
  let '(miniblocks_per_block, pos) := mp in
  let? tp := read_unsigned_varint data pos in
  let '(total_count, pos) := tp in
  let? fp := read_zigzag_varint data pos in
  let '(first_value, pos) := fp in
  let? _ := with_capacity 8 total_count in
  if decide (total_count = 0) then Ok []
  else
    let values_per_miniblock := if decide (miniblocks_per_block = 0) then 0 else block_size / miniblocks_per_block in
    delta_blocks (S (length data)) data miniblocks_per_block values_per_miniblock total_count pos first_value [first_value].
End encoding.

(** [32 - max_level.leading_zeros()]. *)
Definition bit_width_for_max_level (max_level : Z) : Z :=
  if decide (max_level = 0) then 0 else Z.log2 max_level + 1.

Definition null_mask (levels : list Z) (max_def_level : Z) : list bool :=
  map (λ level, bool_decide (level = max_def_level)) levels.

(** ** Bit packing as arithmetic *)

Lemma le_val_byte l (q : nat) b : bytes_ok l → l !! q = Some b → b = (le_val l / 2 ^ (8 * Z.of_nat q)) mod 256.
Proof.
  intros Hl. revert q. induction Hl as [|x l Hx Hl IH]; intros q Hq; [done|]. rewrite le_val_cons.
  destruct q as [|q]; simplify_eq/=.
  - rewrite Z.div_1_r. rewrite Z.mul_comm, Z.mod_add by lia. rewrite Z.mod_small by mlia. done.
  - rewrite (IH q Hq) at 1. f_equal. replace (8 * Z.of_nat (S q)) with (8 + 8 * Z.of_nat q) by lia.
    rewrite Z.pow_add_r, <- Z.div_div by lia. f_equal. change (2 ^ 8) with 256.
    rewrite Z.mul_comm, Z.div_add by lia. rewrite Z.div_small by mlia. lia.
Qed.

Lemma mod_pow2_bit n k : 0 ≤ k → n mod 2 ^ (k + 1) = n mod 2 ^ k + (n / 2 ^ k) mod 2 * 2 ^ k.
Proof. intros. rewrite Z.pow_add_r by lia. change (2 ^ 1) with 2. rewrite Z.rem_mul_r by lia. lia. Qed.

(** Bit [p] of the bytes, as the code extracts it. *)
Lemma extract_bit l p : bytes_ok l → 0 ≤ p < 8 * zlen l →
  ∃ byte, get_byte l (p / 8) = Some byte ∧ Z.land (Z.shiftr byte (p mod 8)) 1 = (le_val l / 2 ^ p) mod 2.
Proof.
  intros Hl Hp. pose proof (Z.div_mod p 8 ltac:(lia)) as Hdm. pose proof (Z.mod_pos_bound p 8 ltac:(lia)) as Hm.
  destruct (lookup_lt_is_Some_2 l (Z.to_nat (p / 8))) as [byte Hb]; [Z.div_mod_to_equations; lia|].
  exists byte. split; [apply get_byte_Some; split; [Z.div_mod_to_equations; lia|done]|].
  rewrite (le_val_byte l _ _ Hl Hb). rewrite Z2Nat.id by (apply Z.div_pos; lia).
  set (n := le_val l). set (q := p / 8) in *. set (j := p mod 8) in *.
  change 1 with (Z.ones 1). rewrite Z.land_ones by lia. rewrite Z.shiftr_div_pow2 by lia. change (2 ^ 1) with 2.
  rewrite <- !Z.testbit_spec' by lia. f_equal. change 256 with (2 ^ 8).
  rewrite Z.mod_pow2_bits_low by lia. rewrite Z.div_pow2_bits by lia. f_equal. lia.
Qed.

Section unpack.
Context `{Build}.

Lemma unpack_bits_ok w l p (n : nat) k :
  bytes_ok l → 0 ≤ p → 0 ≤ k → k + Z.of_nat n ≤ w → p + k + Z.of_nat n ≤ 8 * zlen l →
  unpack_bits w l p n k ((le_val l / 2 ^ p) mod 2 ^ k) = Ok ((le_val l / 2 ^ p) mod 2 ^ (k + Z.of_nat n)).
Proof.
  intros Hl Hp. revert k. induction n as [|n IH]; intros k Hk Hw Hb.
  { cbn [unpack_bits]. by rewrite Z.add_0_r. }
  cbn [unpack_bits]. destruct (extract_bit l (p + k) Hl ltac:(lia)) as (byte & Hg & Hx).
  cbv zeta. rewrite Hg. cbn [index ok_or]. rewrite Hx.
  assert (Hbit : (le_val l / 2 ^ (p + k)) mod 2 = (le_val l / 2 ^ p / 2 ^ k) mod 2).
  { f_equal. rewrite Z.pow_add_r by lia. rewrite Z.div_div by lia. done. }
  rewrite Hbit. set (m := le_val l / 2 ^ p). pose proof (Z.mod_pos_bound (m / 2 ^ k) 2 ltac:(lia)) as Hm.
  pose proof (Z.pow_pos_nonneg 2 k ltac:(lia) Hk). assert (Hpw : 2 ^ (k + 1) ≤ 2 ^ w) by (apply Z.pow_le_mono_r; lia).
  rewrite Z.pow_add_r in Hpw by lia.
  rewrite u_shl_ok by (first [lia | change (2 ^ 1) with 2 in Hpw; nia]).
  rewrite lor_above by (first [done | by apply Z.mod_pos_bound]). rewrite <- mod_pow2_bit by done.
  rewrite IH by lia. do 2 f_equal. f_equal. lia.
Qed.

Lemma unpack_values_ok w l bw (count : nat) p :
  bytes_ok l → 0 ≤ p → 0 ≤ bw ≤ w → p + bw * Z.of_nat count ≤ 8 * zlen l →
  unpack_values w l bw count p =
    Ok (map (λ i, (le_val l / 2 ^ (p + bw * i)) mod 2 ^ bw) (seqZ 0 (Z.of_nat count))).
Proof.
  intros Hl. revert p. induction count as [|count IH]; intros p Hp Hbw Hb; [done|]. cbn [unpack_values].
  pose proof (unpack_bits_ok w l p (Z.to_nat bw) 0 Hl Hp ltac:(lia) ltac:(lia) ltac:(nia)) as Hu.
  assert (p + bw + bw * Z.of_nat count ≤ 8 * zlen l) by (rewrite Nat2Z.inj_succ in Hb; lia).
  rewrite Z.pow_0_r, Z.mod_1_r in Hu. rewrite Hu. rewrite IH by lia.
  rewrite (seqZ_cons 0 (Z.of_nat (S count))) by lia. cbn [map].
  f_equal. f_equal.
  - rewrite Z.mul_0_r, !Z.add_0_r, Z.add_0_l. by rewrite Z2Nat.id by lia.
  - replace (Z.pred (Z.of_nat (S count))) with (Z.of_nat count) by lia.
    change (Z.succ 0) with (1 + 0). rewrite <- fmap_add_seqZ.
    change (map ?f) with (fmap (M := list) f). rewrite <- list_fmap_compose. apply list_fmap_ext.
    intros i x _. cbn [compose]. f_equal. f_equal. f_equal. lia.
Qed.
End unpack.

(** The number packed from values of [w] bits, the first lowest. *)
Definition packed_val (w : Z) (vs : list Z) : Z := foldr (λ v acc, v + 2 ^ w * acc) 0 vs.

Lemma packed_val_bound w vs : 0 ≤ w → Forall (λ v, 0 ≤ v < 2 ^ w) vs → 0 ≤ packed_val w vs < 2 ^ (w * zlen vs).
Proof.
  intros Hw. induction 1 as [|v vs Hv Hvs IH]; [cbn; by rewrite Z.mul_0_r|]. cbn [packed_val foldr length].
  fold (packed_val w vs). replace (w * Z.of_nat (S (length vs))) with (w + w * zlen vs) by lia.
  rewrite Z.pow_add_r by lia. nia.
Qed.

Lemma packed_val_nth w vs (i : nat) v :
  0 ≤ w → Forall (λ v, 0 ≤ v < 2 ^ w) vs → vs !! i = Some v → (packed_val w vs / 2 ^ (w * Z.of_nat i)) mod 2 ^ w = v.
Proof.
  intros Hw HF. revert i. induction HF as [|x vs Hx HF IH]; intros i Hi; [done|].
  cbn [packed_val foldr]. fold (packed_val w vs). destruct i as [|i]; simplify_eq/=.
  - rewrite Z.mul_0_r, Z.pow_0_r, Z.div_1_r. rewrite Z.mul_comm, Z.mod_add by lia. by apply Z.mod_small.
  - rewrite <- (IH i Hi). f_equal. replace (w * Z.of_nat (S i)) with (w + w * Z.of_nat i) by lia.
    rewrite Z.pow_add_r, <- Z.div_div by lia. f_equal. rewrite Z.mul_comm, Z.div_add by lia. rewrite Z.div_small by lia. lia.
Qed.

Definition pack (w : Z) (vs : list Z) : bytes := le_bytes (Z.to_nat (div_ceil (w * zlen vs) 8)) (packed_val w vs).

Lemma div_ceil_8 a : 0 ≤ a → 0 ≤ div_ceil a 8 ∧ a ≤ 8 * div_ceil a 8 < a + 8.
Proof. intros. unfold div_ceil. Z.div_mod_to_equations. lia. Qed.

Lemma pack_length w vs : 0 ≤ w → zlen (pack w vs) = div_ceil (w * zlen vs) 8.
Proof. intros. unfold pack. rewrite le_bytes_length. pose proof (div_ceil_8 (w * zlen vs)). lia. Qed.

Lemma pack_val w vs : 0 ≤ w → Forall (λ v, 0 ≤ v < 2 ^ w) vs → le_val (pack w vs) = packed_val w vs.
Proof.
  intros Hw HF. unfold pack. rewrite le_val_le_bytes. pose proof (packed_val_bound w vs Hw HF).
  destruct (div_ceil_8 (w * zlen vs)) as [? ?]; [lia|]. apply Z.mod_small. split; [lia|].
  eapply Z.lt_le_trans; [apply H|]. apply Z.pow_le_mono_r; lia.
Qed.

Lemma unpack_pack `{Build} w bw vs (n : nat) :
  0 ≤ bw ≤ w → Forall (λ v, 0 ≤ v < 2 ^ bw) vs → (n ≤ length vs)%nat →
  unpack_values w (pack bw vs) bw n 0 = Ok (take n vs).
Proof.
  intros Hbw HF Hn. pose proof (div_ceil_8 (bw * zlen vs) ltac:(nia)).
  rewrite unpack_values_ok; [|apply le_bytes_ok|lia|lia|rewrite pack_length by lia; nia].
  f_equal. rewrite pack_val by (done || lia). apply list_eq. intros i.
  change (map ?f) with (fmap (M := list) f). rewrite list_lookup_fmap.
  destruct (decide (i < n)%nat) as [Hi|Hi].
  - rewrite lookup_seqZ_lt by lia. cbn. rewrite lookup_take_lt by done.
    destruct (lookup_lt_is_Some_2 vs i ltac:(lia)) as [v Hv]. rewrite Hv. f_equal.
    rewrite <- (packed_val_nth bw vs i v) by (done || lia). by rewrite !Z.add_0_l.
  - rewrite lookup_seqZ_ge by lia. cbn. symmetry. apply lookup_ge_None_2. rewrite length_take. lia.
Qed.

(** ** The hybrid stream and its decoder *)

Inductive hybrid_run : Type :=
| RleRun (n v : Z)
| PackedRun (vs : list Z).

Definition run_values (r : hybrid_run) : list Z :=
  match r with RleRun n v => replicate (Z.to_nat n) v | PackedRun vs => vs end.

Definition run_bytes (w : Z) (r : hybrid_run) : bytes :=
  match r with
  | RleRun n v => leb128_bytes (2 * n) ++ le_bytes (Z.to_nat (div_ceil w 8)) v
  | PackedRun vs => leb128_bytes (2 * (zlen vs / 8) + 1) ++ pack w vs
  end.

Definition run_ok (w : Z) (r : hybrid_run) : Prop :=
  match r with
  | RleRun n v => 0 ≤ n < 2 ^ 63 ∧ 0 ≤ v < 2 ^ w
  | PackedRun vs => zlen vs mod 8 = 0 ∧ Forall (λ v, 0 ≤ v < 2 ^ w) vs
  end.

Definition hybrid_bytes (w : Z) (runs : list hybrid_run) : bytes := concat (map (run_bytes w) runs).
Definition hybrid_values (runs : list hybrid_run) : list Z := concat (map run_values runs).

Lemma run_bytes_pos w r : (0 < length (run_bytes w r))%nat.
Proof. destruct r; cbn [run_bytes]; rewrite length_app; match goal with |- context [leb128_bytes ?x] => pose proof (leb128_bytes_pos x) end; lia. Qed.

Lemma hybrid_bytes_ge w runs : (length runs ≤ length (hybrid_bytes w runs))%nat.
Proof.
  induction runs as [|r runs IH]; [done|]. unfold hybrid_bytes in *. cbn [map concat length]. rewrite length_app.
  pose proof (run_bytes_pos w r). lia.
Qed.

Section hybrid.
Context `{Build}.

Lemma rle_value_ok l i acc : bytes_ok l → 0 ≤ i → 8 * (i + zlen l) ≤ 32 → 0 ≤ acc < 2 ^ (8 * i) →
  rle_value l i acc = Ok (acc + le_val l * 2 ^ (8 * i)).
Proof.
  intros Hl. revert i acc. induction Hl as [|b l Hb Hl IH]; intros i acc Hi Hw Ha.
  { cbn. f_equal. lia. }
  cbn [rle_value]. cbn [length] in Hw. pose proof (Z.pow_pos_nonneg 2 (8 * i) ltac:(lia) ltac:(lia)).
  assert (Hp : 2 ^ (8 * (i + 1)) = 256 * 2 ^ (8 * i)).
  { replace (8 * (i + 1)) with (8 + 8 * i) by lia. by rewrite Z.pow_add_r by lia. }
  assert (2 ^ (8 * (i + 1)) ≤ 2 ^ 32) by (apply Z.pow_le_mono_r; lia).
  unfold u8_ok in Hb. rewrite u_shl_ok by (first [lia | nia]). rewrite lor_above by lia.
  rewrite IH; [|lia|lia|nia]. f_equal. rewrite le_val_cons, Hp. nia.
Qed.

Lemma header_split n : 0 ≤ n →
  Z.shiftr (2 * n) 1 = n ∧ Z.land (2 * n) 1 = 0 ∧ Z.shiftr (2 * n + 1) 1 = n ∧ Z.land (2 * n + 1) 1 = 1.
Proof.
  intros. assert (H1 : ∀ x, Z.land x 1 = x mod 2) by (intros x; exact (Z.land_ones x 1 ltac:(lia))).
  rewrite !H1, !Z.shiftr_div_pow2 by lia. change (2 ^ 1) with 2. Z.div_mod_to_equations. lia.
Qed.

Lemma take_more {A} (l k r : list A) (n : nat) :
  (length l ≤ n)%nat → take n (l ++ k ++ r) = take n ((l ++ take (n - length l) k) ++ r).
Proof.
  intros Hl. rewrite <- (assoc_L (++)). rewrite !take_app. rewrite !(take_ge l) by done. f_equal.
  rewrite take_take, Nat.min_id. f_equal. rewrite length_take.
  destruct (decide (n - length l ≤ length k)%nat); [|do 2 f_equal; lia].
  by replace (n - length l - length k)%nat with 0%nat by lia;
    replace (n - length l - (n - length l) `min` length k)%nat with 0%nat by lia.
Qed.

Lemma hybrid_loop_ok w runs (fuel : nat) data num pos rest out :
  1 ≤ w ≤ 32 → zlen data ≤ 2 ^ 60 → Forall (run_ok w) runs →
  left_at data pos (hybrid_bytes w runs ++ rest) → (length runs ≤ fuel)%nat →
  zlen out ≤ num ≤ zlen (out ++ hybrid_values runs) →
  hybrid_loop fuel data w num pos out = Ok (take (Z.to_nat num) (out ++ hybrid_values runs)).
Proof.
  intros Hw Hd HF. revert fuel pos out.
  induction HF as [|r runs Hr HF IH]; intros fuel pos out Hl Hf Hn; unfold hybrid_bytes, hybrid_values in *; cbn [map concat] in *.
  { rewrite app_nil_r in Hn |- *. rewrite take_ge by lia. destruct fuel; cbn [hybrid_loop]; by rewrite decide_True by lia. }
  destruct fuel as [|fuel]; [cbn in Hf; lia|]. cbn [hybrid_loop]. cbn [length] in Hf.
  destruct (decide (num ≤ zlen out)) as [Hdone|Hmore].
  { rewrite take_app_le by lia. by rewrite take_ge by lia. }
  rewrite <- (assoc_L (++)) in Hl.
  assert (Hcont : ∀ p, left_at data p (concat (map (run_bytes w) runs) ++ rest) →
    hybrid_loop fuel data w num p (out ++ take (Z.to_nat num - length out) (run_values r)) =
      Ok (take (Z.to_nat num) (out ++ run_values r ++ concat (map run_values runs)))).
  { intros p Hp. rewrite (IH fuel p); [f_equal; symmetry; apply take_more; lia|done|lia|].
    rewrite !length_app, length_take. rewrite !length_app in Hn. lia. }
  destruct r as [n v|vs]; cbn [run_bytes run_values run_ok] in *.
  - destruct Hr as [Hn0 Hv]. rewrite <- (assoc_L (++)) in Hl. pose proof (left_app _ _ _ _ Hl) as Hl2.
    destruct (header_split n ltac:(lia)) as (Hh1 & Hh2 & _ & _).
    change (2 ^ 63) with 9223372036854775808 in Hn0.
    unfold read_unsigned_varint. rewrite (leb128_roundtrip _ _ 70 data pos _ _ Hl) by (first [lia | mlia]).
    rewrite Hh1, Hh2. rewrite decide_False by lia.
    set (k := div_ceil w 8) in *. assert (Hk : 0 ≤ k ∧ w ≤ 8 * k ∧ k ≤ 4) by (unfold k, div_ceil; Z.div_mod_to_equations; lia).
    assert (Hlen : zlen (le_bytes (Z.to_nat k) v) = k) by (rewrite le_bytes_length; lia).
    pose proof (left_range _ _ _ _ Hl2) as Hg. rewrite Hlen in Hg. rewrite Hg. cbn [fails_with ok_or].
    rewrite rle_value_ok; [|apply le_bytes_ok|lia|lia|cbn; lia].
    rewrite le_val_le_bytes, Z2Nat.id by lia. rewrite Z.mod_small.
    2: { split; [lia|]. eapply Z.lt_le_trans; [apply Hv|]. apply Z.pow_le_mono_r; lia. }
    rewrite Z.mul_0_r, Z.pow_0_r, Z.mul_1_r, Z.add_0_l. rewrite <- Hlen at 1.
    rewrite <- (Hcont _ (left_app _ _ _ _ Hl2)). rewrite take_replicate. do 3 f_equal. lia.
  - destruct Hr as [Hm Hv]. rewrite <- (assoc_L (++)) in Hl. pose proof (left_app _ _ _ _ Hl) as Hl2.
    set (g := zlen vs / 8) in *. assert (Hg8 : zlen vs = 8 * g) by (unfold g; Z.div_mod_to_equations; lia).
    destruct (header_split g ltac:(lia)) as (_ & _ & Hh1 & Hh2).
    assert (Hpl : zlen (pack w vs) = g * w).
    { rewrite pack_length by lia. unfold div_ceil. rewrite Hg8. replace (w * (8 * g) + 8 - 1) with (7 + g * w * 8) by lia.
      rewrite Z.div_add by lia. done. }
    assert (Hfit : pos + zlen (leb128_bytes (2 * g + 1)) + g * w ≤ 2 ^ 60).
    { destruct Hl2 as (? & Hl2 & _). rewrite length_app, Nat2Z.inj_add, Hpl in Hl2. lia. }
    change (2 ^ 60) with 1152921504606846976 in *. assert (Hp0 : 0 ≤ pos) by apply Hl. assert (g ≤ g * w) by nia.
    unfold read_unsigned_varint. rewrite (leb128_roundtrip _ _ 70 data pos _ _ Hl) by (first [lia | mlia]).
    rewrite Hh1, Hh2. rewrite decide_True by done. rewrite u_mul_ok by mlia. rewrite u_add_ok by mlia.
    pose proof (left_range _ _ _ _ Hl2) as Hg. rewrite Hpl in Hg. rewrite Hg. cbn [fails_with ok_or].
    rewrite u_mul_ok by mlia. rewrite unpack_pack; [|lia|done|lia].
    rewrite <- Hpl at 1. rewrite <- (Hcont _ (left_app _ _ _ _ Hl2)). do 2 f_equal.
    destruct (decide (g * 8 ≤ num - zlen out)).
    + rewrite Z.min_l by lia. rewrite !take_ge by lia. done.
    + rewrite Z.min_r by lia. f_equal. lia.
Qed.
End hybrid.

(** ** The delta stream and its decoder *)

(** A block: its minimal delta and its miniblocks, each a bit width and the
    values packed in it. *)
Record delta_block : Type := { db_min : Z; db_minis : list (Z * list Z) }.

Definition minis_bytes (minis : list (Z * list Z)) : bytes := concat (map (λ m, pack m.1 m.2) minis).

Definition block_bytes (b : delta_block) : bytes :=
  leb128_bytes (zigzag_bits (db_min b)) ++ map fst (db_minis b) ++ minis_bytes (db_minis b).

Definition delta_bytes (mpb vpm total first : Z) (blocks : list delta_block) : bytes :=
  leb128_bytes (vpm * mpb) ++ leb128_bytes mpb ++ leb128_bytes total ++ leb128_bytes (zigzag_bits first) ++
  concat (map block_bytes blocks).

(** The deltas of a block, and the values they make: sums modulo [2 ^ 64]. *)
Definition minis_deltas (m : Z) (minis : list (Z * list Z)) : list Z := concat (map (λ x, map (Z.add m) x.2) minis).
Definition block_deltas (b : delta_block) : list Z := minis_deltas (db_min b) (db_minis b).

Fixpoint delta_sums (prev : Z) (ds : list Z) : list Z :=
  match ds with
  | [] => []
  | d :: ds => as_i64 (prev + d) :: delta_sums (as_i64 (prev + d)) ds
  end.

Definition delta_end (prev : Z) (ds : list Z) : Z := default prev (last (delta_sums prev ds)).

Definition mini_ok (vpm : Z) (x : Z * list Z) : Prop :=
  0 ≤ x.1 ≤ 64 ∧ zlen x.2 = vpm ∧ Forall (λ v, 0 ≤ v < 2 ^ x.1) x.2.

Definition block_ok (mpb vpm : Z) (b : delta_block) : Prop :=
  i64_ok (db_min b) ∧ zlen (db_minis b) = mpb ∧ Forall (mini_ok vpm) (db_minis b).

(** With overflow checks the sums must not leave [i64] on the way. *)
Fixpoint raws_fit (m prev : Z) (raws : list Z) : Prop :=
  match raws with
  | [] => True
  | raw :: raws => i64_ok (m + as_i64 raw) ∧ i64_ok (prev + as_i64 (m + as_i64 raw)) ∧ raws_fit m (as_i64 (prev + (m + raw))) raws
  end.

Fixpoint minis_fit (m prev : Z) (minis : list (Z * list Z)) : Prop :=
  match minis with
  | [] => True
  | x :: minis => raws_fit m prev x.2 ∧ minis_fit m (delta_end prev (map (Z.add m) x.2)) minis
  end.

Fixpoint blocks_fit (prev : Z) (blocks : list delta_block) : Prop :=
  match blocks with
  | [] => True
  | b :: blocks => minis_fit (db_min b) prev (db_minis b) ∧ blocks_fit (delta_end prev (block_deltas b)) blocks
  end.

Lemma as_i64_mod a b : a mod 2 ^ 64 = b mod 2 ^ 64 → as_i64 a = as_i64 b.
Proof. intros E. unfold as_i64, to_signed. by rewrite E. Qed.

Lemma as_i64_repr a : ∃ k, as_i64 a = a + k * 2 ^ 64.
Proof.
  unfold as_i64, to_signed. pose proof (Z.div_mod a (2 ^ 64) ltac:(lia)).
  case_decide; [exists (- (a / 2 ^ 64))|exists (- (a / 2 ^ 64) - 1)]; lia.
Qed.

Lemma as_i64_nested prev m raw : as_i64 (prev + as_i64 (m + as_i64 raw)) = as_i64 (prev + (m + raw)).
Proof.
  apply as_i64_mod. destruct (as_i64_repr raw) as [k ->]. destruct (as_i64_repr (m + (raw + k * 2 ^ 64))) as [j ->].
  replace (prev + (m + (raw + k * 2 ^ 64) + j * 2 ^ 64)) with (prev + (m + raw) + (k + j) * 2 ^ 64) by lia.
  by rewrite Z.mod_add by lia.
Qed.

Lemma delta_end_cons prev d ds : delta_end prev (d :: ds) = delta_end (as_i64 (prev + d)) ds.
Proof. unfold delta_end. cbn [delta_sums]. rewrite last_cons. by destruct (last _). Qed.

Lemma delta_sums_app prev d1 d2 : delta_sums prev (d1 ++ d2) = delta_sums prev d1 ++ delta_sums (delta_end prev d1) d2.
Proof.
  revert prev. induction d1 as [|d d1 IH]; intros prev; [done|]. cbn [app delta_sums]. by rewrite IH, delta_end_cons.
Qed.

Lemma delta_end_app prev d1 d2 : delta_end prev (d1 ++ d2) = delta_end (delta_end prev d1) d2.
Proof. revert prev. induction d1 as [|d d1 IH]; intros prev; [done|]. cbn [app]. by rewrite !delta_end_cons, IH. Qed.

Lemma delta_sums_length prev ds : length (delta_sums prev ds) = length ds.
Proof. revert prev. induction ds; intros; cbn; auto. Qed.

Section delta.
Context `{Build}.

Lemma i64_add_wrap a b : (overflow_checks = true → i64_ok (a + b)) → i64_add (E := EncodingError) a b = Ok (as_i64 (a + b)).
Proof.
  intros Hc. unfold i64_add, arith. case_decide as E; [by rewrite E|]. destruct overflow_checks; [|done].
  destruct E. apply (to_signed_small 64); [lia|]. by apply Hc.
Qed.

Lemma delta_values_ok m raws total prev out :
  zlen out ≤ total → (overflow_checks = true → raws_fit m prev raws) →
  ∃ prev', delta_values raws total m prev out =
      Ok (prev', take (Z.to_nat total) (out ++ delta_sums prev (map (Z.add m) raws))) ∧
    (zlen out + zlen raws ≤ total → prev' = delta_end prev (map (Z.add m) raws)).
Proof.
  revert prev out. induction raws as [|raw raws IH]; intros prev out Ho Hfit; cbn [delta_values map delta_sums].
  { exists prev. rewrite app_nil_r, take_ge by lia. done. }
  case_decide.
  { exists prev. rewrite take_app_le, take_ge by lia. split; [done|]. cbn [length]. lia. }
  rewrite i64_add_wrap by (intros Ht; apply Hfit in Ht; apply Ht).
  rewrite i64_add_wrap by (intros Ht; apply Hfit in Ht; apply Ht). rewrite as_i64_nested.
  destruct (IH (as_i64 (prev + (m + raw))) (out ++ [as_i64 (prev + (m + raw))])) as (prev' & -> & Hp).
  { rewrite length_app. cbn [length]. lia. }
  { intros Ht. apply Hfit in Ht. apply Ht. }
  exists prev'. rewrite <- (assoc_L (++)). split; [done|]. intros Hl. rewrite delta_end_cons. apply Hp.
  rewrite length_app. cbn [length] in *. lia.
Qed.

Lemma unpack_bit_packed_ok bw vs rest :
  0 ≤ bw ≤ 64 → Forall (λ v, 0 ≤ v < 2 ^ bw) vs → 8 * zlen vs ≤ ISIZE_MAX → zlen (pack bw vs) ≤ 2 ^ 60 →
  unpack_bit_packed (pack bw vs ++ rest) bw (zlen vs) = Ok vs.
Proof.
  intros Hbw HF Hc Hp. unfold unpack_bit_packed. rewrite !with_capacity_ok by lia. case_decide as E.
  - subst bw. f_equal. apply list_eq. intros i. rewrite Nat2Z.id. destruct (vs !! i) as [v|] eqn:Hv.
    + apply lookup_replicate. split; [|by eapply lookup_lt_Some]. rewrite Forall_lookup in HF. apply HF in Hv. cbn in Hv. lia.
    + apply lookup_ge_None in Hv. apply lookup_ge_None_2. by rewrite length_replicate.
  - pose proof (pack_length bw vs ltac:(lia)) as Hpl. destruct (div_ceil_8 (bw * zlen vs)) as [? ?]; [lia|].
    change (2 ^ 60) with 1152921504606846976 in Hp. rewrite u_mul_ok by mlia. rewrite (Z.mul_comm (zlen vs)).
    pose proof (get_range_app3 [] (pack bw vs) rest 0 (div_ceil (bw * zlen vs) 8) eq_refl ltac:(cbn [length]; lia)) as Hg.
    cbn [app] in Hg. rewrite Hg. cbn [fails_with ok_or]. rewrite unpack_pack by (done || lia). by rewrite take_ge by lia.
Qed.

Lemma minis_deltas_cons m x minis : minis_deltas m (x :: minis) = map (Z.add m) x.2 ++ minis_deltas m minis.
Proof. done. Qed.

Lemma minis_length m vpm minis : Forall (mini_ok vpm) minis → zlen (minis_deltas m minis) = vpm * zlen minis.
Proof.
  induction 1 as [|x minis (_ & Hx & _) HF IH]; [cbn; lia|]. rewrite minis_deltas_cons, length_app, length_map.
  cbn [length]. lia.
Qed.

Lemma delta_miniblocks_ok data m vpm total minis pos prev out rest :
  zlen data ≤ 2 ^ 60 → 1 ≤ vpm → 8 * vpm ≤ ISIZE_MAX → Forall (mini_ok vpm) minis →
  left_at data pos (minis_bytes minis ++ rest) → zlen out ≤ total → (overflow_checks = true → minis_fit m prev minis) →
  ∃ pos' prev', delta_miniblocks data (map fst minis) vpm total m pos prev out =
      Ok (pos', prev', take (Z.to_nat total) (out ++ delta_sums prev (minis_deltas m minis))) ∧
    (zlen out + zlen (minis_deltas m minis) ≤ total →
       pos' = pos + zlen (minis_bytes minis) ∧ prev' = delta_end prev (minis_deltas m minis)).
Proof.
  intros Hd Hv Hc HF. revert pos prev out.
  induction HF as [|[bw vs] minis (Hbw & Hlen & Hr) HF IH]; intros pos prev out Hl Ho Hfit; cbn [map delta_miniblocks].
  { exists pos, prev. cbn. rewrite app_nil_r, take_ge by lia. split; [done|]. intros _. split; [lia|done]. }
  cbn [fst snd] in *. subst vpm. rewrite minis_deltas_cons. cbn [snd].
  case_decide.
  { exists pos, prev. rewrite take_app_le, take_ge by lia. split; [done|]. rewrite length_app, length_map. lia. }
  unfold minis_bytes in Hl |- *. cbn [map concat fst snd] in Hl |- *. rewrite <- (assoc_L (++)) in Hl.
  pose proof Hl as (Hp0 & Hpl & Hdrop). rewrite length_app in Hpl.
  assert (Hg : get_from data pos = Some (pack bw vs ++ minis_bytes minis ++ rest)) by (apply get_from_Some; split; [lia|done]).
  rewrite Hg. cbn [index ok_or]. rewrite unpack_bit_packed_ok by (done || lia).
  pose proof (pack_length bw vs ltac:(lia)) as Hpk. destruct (div_ceil_8 (bw * zlen vs)) as [? ?]; [lia|].
  change (2 ^ 60) with 1152921504606846976 in Hd. rewrite u_mul_ok by (rewrite Z.mul_comm; mlia).
  destruct (delta_values_ok m vs total prev out Ho) as (prev1 & -> & Hp1); [by intros Ht; apply Hfit in Ht; destruct Ht|].
  cbn [fst snd]. rewrite (Z.mul_comm (zlen vs)), <- Hpk. apply left_app in Hl.
  set (out1 := take (Z.to_nat total) (out ++ delta_sums prev (map (Z.add m) vs))).
  assert (Ho1 : zlen out1 = Z.min total (zlen out + zlen vs)).
  { unfold out1. rewrite length_take, length_app, delta_sums_length, length_map. lia. }
  destruct (decide (zlen out + zlen vs ≤ total)) as [Hroom|Hfull].
  - specialize (Hp1 Hroom) as ->. destruct (IH _ (delta_end prev (map (Z.add m) vs)) out1 Hl) as (pos' & prev' & -> & Hend).
    { lia. }
    { intros Ht. apply Hfit in Ht. apply Ht. }
    exists pos', prev'. assert (E1 : out1 = out ++ delta_sums prev (map (Z.add m) vs)).
    { unfold out1. apply take_ge. rewrite length_app, delta_sums_length, length_map. lia. }
    split.
    + rewrite E1, delta_sums_app, (assoc_L (++)). done.
    + rewrite !length_app, length_map. intros Hall. destruct Hend as [-> ->]; [lia|]. rewrite delta_end_app. split; [|done].
      unfold minis_bytes. lia.
  - assert (Hstop : ∃ pos', delta_miniblocks data (map fst minis) (zlen vs) total m (pos + zlen (pack bw vs)) prev1 out1 =
      Ok (pos', prev1, out1)).
    { destruct minis; cbn [map delta_miniblocks]; [eauto|]. rewrite decide_True by lia. eauto. }
    destruct Hstop as [pos' ->]. exists pos', prev1. split.
    + do 2 f_equal. unfold out1. rewrite delta_sums_app, (assoc_L (++)), (take_app_le (out ++ _)); [done|].
      rewrite length_app, delta_sums_length, length_map. lia.
    + rewrite !length_app, length_map. lia.
Qed.

Lemma zigzag_varint_ok data pos z r :
  left_at data pos (leb128_bytes (zigzag_bits z) ++ r) → i64_ok z →
  read_zigzag_varint data pos = Ok (z, pos + zlen (leb128_bytes (zigzag_bits z))).
Proof using.
  clear. intros Hl Hz. destruct (zigzag_roundtrip 64 z) as [Hb Hr]; [lia|exact Hz|].
  unfold read_zigzag_varint, read_unsigned_varint. change (2 ^ 64) with 18446744073709551616 in Hb.
  rewrite (leb128_roundtrip _ _ 70 data pos r _ Hl) by (first [lia | mlia]). cbn [fst snd]. by rewrite Hr.
Qed.

Lemma delta_blocks_ok data mpb vpm total blocks (fuel : nat) pos prev out rest :
  zlen data ≤ 2 ^ 60 → 1 ≤ vpm → 8 * vpm ≤ ISIZE_MAX → 1 ≤ mpb → Forall (block_ok mpb vpm) blocks →
  left_at data pos (concat (map block_bytes blocks) ++ rest) → (length blocks ≤ fuel)%nat →
  zlen out ≤ total ≤ zlen out + vpm * mpb * zlen blocks → (overflow_checks = true → blocks_fit prev blocks) →
  delta_blocks fuel data mpb vpm total pos prev out =
    Ok (take (Z.to_nat total) (out ++ delta_sums prev (concat (map block_deltas blocks)))).
Proof.
  intros Hd Hv Hc Hm HF. revert fuel pos prev out.
  induction HF as [|b blocks (Hmin & Hlen & Hr) HF IH]; intros fuel pos prev out Hl Hf Ho Hfit; cbn [map concat] in *.
  { cbn [length] in Ho. rewrite app_nil_r, take_ge by lia. destruct fuel; cbn [delta_blocks]; by rewrite decide_True by lia. }
  cbn [length] in Hf, Ho. destruct fuel as [|fuel]; [lia|]. cbn [delta_blocks]. case_decide.
  { rewrite take_app_le, take_ge by lia. done. }
  rewrite <- (assoc_L (++)) in Hl. unfold block_bytes in Hl at 1. rewrite <- !(assoc_L (++)) in Hl.
  rewrite (zigzag_varint_ok data pos _ _ Hl Hmin). apply left_app in Hl.
  assert (Hml : zlen (map fst (db_minis b)) = mpb) by (by rewrite length_map).
  assert (Hmd : mpb ≤ 2 ^ 60) by (destruct Hl as (? & Hl & _); rewrite length_app, Nat2Z.inj_add, Hml in Hl; lia).
  change (2 ^ 60) with 1152921504606846976 in *. rewrite with_capacity_ok by mlia.
  pose proof (left_range _ _ _ _ Hl) as Hg. rewrite Hml in Hg. rewrite Hg. cbn [fails_with ok_or].
  apply left_app in Hl. rewrite Hml in Hl. fold (minis_bytes (db_minis b)) in Hl.
  pose proof (minis_length (db_min b) vpm _ Hr) as Hdl. rewrite Hlen in Hdl. fold (block_deltas b) in Hdl.
  destruct (delta_miniblocks_ok data (db_min b) vpm total (db_minis b) _ prev out _ Hd Hv Hc Hr Hl ltac:(lia))
    as (pos' & prev' & -> & Hend); [by intros Ht; apply Hfit in Ht; destruct Ht|].
  fold (block_deltas b) in *. rewrite delta_sums_app, (assoc_L (++)).
  set (out1 := out ++ delta_sums prev (block_deltas b)) in *.
  assert (Ho1 : zlen out1 = zlen out + vpm * mpb) by (unfold out1; rewrite length_app, delta_sums_length; lia).
  destruct (decide (zlen out + vpm * mpb ≤ total)) as [Hroom|Hfull].
  - destruct Hend as [-> ->]; [lia|]. rewrite (take_ge out1) by lia. apply IH; [by apply left_app|lia|lia|].
    intros Ht. apply Hfit in Ht. apply Ht.
  - rewrite (take_app_le out1) by lia. assert (zlen (take (Z.to_nat total) out1) = total) by (rewrite length_take; lia).
    destruct fuel; cbn [delta_blocks]; by rewrite decide_True by lia.
Qed.

Lemma block_bytes_pos b : (0 < length (block_bytes b))%nat.
Proof using. clear. unfold block_bytes. rewrite length_app. pose proof (leb128_bytes_pos (zigzag_bits (db_min b))). lia. Qed.

Lemma blocks_bytes_ge blocks : (length blocks ≤ length (concat (map block_bytes blocks)))%nat.
Proof using.
  clear. induction blocks as [|b blocks IH]; [done|]. cbn [map concat length]. rewrite length_app.
  pose proof (block_bytes_pos b). lia.
Qed.
End delta.

Lemma decode_hybrid `{Build} (w num_values : Z) (runs : list hybrid_run) (rest : bytes) :
  0 < w ≤ 32 → Forall (run_ok w) runs → 0 ≤ num_values ≤ zlen (hybrid_values runs) → 4 * num_values ≤ ISIZE_MAX →
  zlen (hybrid_bytes w runs ++ rest) ≤ 2 ^ 60 →
  decode_hybrid_rle_bitpacked (hybrid_bytes w runs ++ rest) w num_values =
    Ok (take (Z.to_nat num_values) (hybrid_values runs)).
Proof.
  intros Hw Hr Hn Hc Hd. unfold decode_hybrid_rle_bitpacked. rewrite with_capacity_ok by lia.
  rewrite decide_False by lia. pose proof (hybrid_bytes_ge w runs).
  rewrite (hybrid_loop_ok w runs _ _ num_values 0 rest []); [|lia|done|done|apply left_start|rewrite length_app; lia|cbn; lia].
  cbn [app]. by rewrite take_take, Nat.min_id.
Qed.

Lemma decode_delta `{Build} (mpb vpm total first : Z) (blocks : list delta_block) (rest : bytes) :
  1 ≤ vpm → 1 ≤ mpb → 8 * (vpm * mpb) ≤ ISIZE_MAX → i64_ok first → Forall (block_ok mpb vpm) blocks →
  1 ≤ total ≤ 1 + vpm * mpb * zlen blocks → 8 * total ≤ ISIZE_MAX →
  zlen (delta_bytes mpb vpm total first blocks ++ rest) ≤ 2 ^ 60 → (overflow_checks = true → blocks_fit first blocks) →
  decode_delta_binary_packed (delta_bytes mpb vpm total first blocks ++ rest) =
    Ok (take (Z.to_nat total) (first :: delta_sums first (concat (map block_deltas blocks)))).
Proof.
  intros Hv Hm Hc Hfirst HF Ht Hct Hd Hfit. unfold decode_delta_binary_packed.
  set (data := delta_bytes mpb vpm total first blocks ++ rest) in *.
  pose proof (left_start data) as Hl. unfold data in Hl at 2. unfold delta_bytes in Hl. rewrite <- !(assoc_L (++)) in Hl.
  assert (vpm ≤ vpm * mpb ∧ mpb ≤ vpm * mpb) as [? ?] by nia.
  unfold read_unsigned_varint. rewrite (leb128_roundtrip _ _ 70 data _ _ _ Hl) by (first [lia | mlia]). apply left_app in Hl.
  rewrite (leb128_roundtrip _ _ 70 data _ _ _ Hl) by (first [lia | mlia]). apply left_app in Hl.
  rewrite (leb128_roundtrip _ _ 70 data _ _ _ Hl) by (first [lia | mlia]). apply left_app in Hl.
  rewrite (zigzag_varint_ok data _ _ _ Hl Hfirst). apply left_app in Hl.
  rewrite with_capacity_ok by lia. rewrite !decide_False by lia. rewrite Z.div_mul by lia.
  rewrite (delta_blocks_ok data mpb vpm total blocks _ _ first [first] rest); [done|done|lia|lia|lia|done|done| |cbn [length]; lia|done].
  pose proof (blocks_bytes_ge blocks). destruct Hl as (_ & Hl & _). rewrite length_app in Hl. lia.
Qed.

(** ** Properties *)

(** The hybrid decoder inverts the RLE/bit-packed hybrid.  A stream of
    runs, repeated values and bit-packed groups in any order, of values of at
    most 32 bits, decodes to the first [num_values] of the values its runs
    stand for; in debug and in release builds. *)
Theorem hybrid_roundtrip `{Build} (w num_values : Z) (runs : list hybrid_run) (rest : bytes) :
  0 < w ≤ 32 → Forall (run_ok w) runs → 0 ≤ num_values ≤ zlen (hybrid_values runs) → 4 * num_values ≤ ISIZE_MAX →
  zlen (hybrid_bytes w runs ++ rest) ≤ 2 ^ 60 →
  decode_hybrid_rle_bitpacked (hybrid_bytes w runs ++ rest) w num_values =
    Ok (take (Z.to_nat num_values) (hybrid_values runs)).
Proof. apply decode_hybrid. Qed.

(** The delta decoder inverts DELTA_BINARY_PACKED.  From the stream of a
    first value and blocks of bit-packed miniblocks, whatever their minimal
    deltas and bit widths up to 64, it returns the first value and the
    running sums of the deltas modulo [2 ^ 64], cut at the announced count; a
    build with overflow checks needs the sums to stay within [i64]. *)
Theorem delta_roundtrip `{Build} (mpb vpm total first : Z) (blocks : list delta_block) (rest : bytes) :
  1 ≤ vpm → 1 ≤ mpb → 8 * (vpm * mpb) ≤ ISIZE_MAX → i64_ok first → Forall (block_ok mpb vpm) blocks →
  1 ≤ total ≤ 1 + vpm * mpb * zlen blocks → 8 * total ≤ ISIZE_MAX →
  zlen (delta_bytes mpb vpm total first blocks ++ rest) ≤ 2 ^ 60 → (overflow_checks = true → blocks_fit first blocks) →
  decode_delta_binary_packed (delta_bytes mpb vpm total first blocks ++ rest) =
    Ok (take (Z.to_nat total) (first :: delta_sums first (concat (map block_deltas blocks)))).
Proof. apply decode_delta. Qed.

Definition example_blocks : list delta_block :=
  [{| db_min := -2; db_minis := [(3, [1; 2; 3; 4; 5; 6; 7; 0]); (0, [0; 0; 0; 0; 0; 0; 0; 0])] |}].

