(* ===== verification/Snappy.v ===== *)
(** * Snappy block decompression ([column/parquet/compression/snappy.rs])

    The raw block format: a varint with the length of the output, then
    literals and back-references.  No value the decoder computes leaves
    [usize], so neither build checks nor wraps anything here: tags give
    lengths of at most [2 ^ 32] and positions stay near the input. *)

From S2P Require Import Prelude Machine.

Inductive SnappyError : Type :=
| SnappyUnexpectedEof
| SnappyInvalidVarint
| InvalidCopyOffset
| SnappySizeMismatch (expected actual : Z).

Definition snappy_read_varint : bytes → Z → run SnappyError (Z * Z) :=
  leb128 SnappyUnexpectedEof SnappyInvalidVarint 35.

(** [for i in 0..len { out.push(out[start + i]) }]: the source bytes may have
    been pushed by the same loop. *)
Fixpoint copy_loop (n : nat) (start i : Z) (out : bytes) : run SnappyError bytes :=
  match n with
  | O => Ok out
  | S n =>
      let? byte := index (get_byte out (start + i)) in
      copy_loop n start (i + 1) (out ++ [byte])
  end.

Definition copy_from_offset (out : bytes) (offset len : Z) : run SnappyError bytes :=
  if decide (offset = 0 ∨ zlen out < offset) then Err (Fails InvalidCopyOffset)
  else copy_loop (Z.to_nat len) (zlen out - offset) 0 out.

(** The little-endian length of a long literal. *)
Fixpoint literal_len (n : nat) (data : bytes) (pos i len : Z) : run SnappyError Z :=
  match n with
  | O => Ok len
  | S n =>
      let? b := fails_with (get_byte data (pos + i)) SnappyUnexpectedEof in
      literal_len n data pos (i + 1) (Z.lor len (Z.shiftl b (8 * i)))
  end.

Fixpoint snappy_loop (fuel : nat) (data : bytes) (pos : Z) (out : bytes) : run SnappyError bytes :=
  if decide (zlen data ≤ pos) then Ok out
  else
    match fuel with
    | O => Err OutOfFuel
    | S fuel =>
        let? tag := fails_with (get_byte data pos) SnappyUnexpectedEof in
        let pos := pos + 1 in
        let kind := Z.land tag 0x03 in
        if decide (kind = 0) then
          let len_tag := Z.shiftr tag 2 in
          let? lp :=
            (if decide (len_tag < 60) then Ok (len_tag + 1, pos)
             else
               let extra_bytes := len_tag - 59 in
               let? len := literal_len (Z.to_nat extra_bytes) data pos 0 0 in
               Ok (len + 1, pos + extra_bytes)) in
          let '(len, pos) := lp in
          let? bytes := fails_with (get_range data pos (pos + len)) SnappyUnexpectedEof in
          snappy_loop fuel data (pos + len) (out ++ bytes)
        else if decide (kind = 1) then
          let len := Z.land (Z.shiftr tag 2) 0x07 + 4 in
          let offset_hi := Z.land (Z.shiftr tag 5) 0x07 in
          let? offset_lo := fails_with (get_byte data pos) SnappyUnexpectedEof in
          let offset := Z.lor (Z.shiftl offset_hi 8) offset_lo in
          let? out := copy_from_offset out offset len in
          snappy_loop fuel data (pos + 1) out
        else if decide (kind = 2) then
          let len := Z.shiftr tag 2 + 1 in
          let? lo := fails_with (get_byte data pos) SnappyUnexpectedEof in
          let? hi := fails_with (get_byte data (pos + 1)) SnappyUnexpectedEof in
          let offset := Z.lor lo (Z.shiftl hi 8) in
          let? out := copy_from_offset out offset len in
          snappy_loop fuel data (pos + 2) out
        else
          let len := Z.shiftr tag 2 + 1 in
          let? bytes := fails_with (get_range data pos (pos + 4)) SnappyUnexpectedEof in
          let offset := le_val bytes in
          let? out := copy_from_offset out offset len in
          snappy_loop fuel data (pos + 4) out
    end.

Definition snappy_decompress (data : bytes) (uncompressed_size : Z) : run SnappyError bytes :=
  let? dp := snappy_read_varint data 0 in
  let '(declared_len, pos) := dp in
  let? _ := with_capacity 1 (Z.max declared_len uncompressed_size) in
  let? out := snappy_loop (length data) data pos [] in
  if decide (zlen out ≠ declared_len) then Err (Fails (SnappySizeMismatch declared_len (zlen out)))
  else Ok out.

(** ** What a block means *)

(** The last [offset] bytes, repeated until [len] bytes are there. *)
Fixpoint repeat_bytes (n : nat) (pat cur : bytes) : bytes :=
  match n with
  | O => []
  | S n =>
      match cur with
      | b :: cur => b :: repeat_bytes n pat cur
      | [] => match pat with b :: cur => b :: repeat_bytes n pat cur | [] => [] end
      end
  end.

(** The elements of a block with the form they are written in: a literal with
    [extra] length bytes, and copies with one, two or four offset bytes. *)
Inductive snappy_elem : Type :=
| Literal (extra : nat) (s : bytes)
| Copy1 (offset len : Z)
| Copy2 (offset len : Z)
| Copy4 (offset len : Z).

Definition elem_ok (e : snappy_elem) : Prop :=
  match e with
  | Literal O s => 1 ≤ zlen s ≤ 60 ∧ bytes_ok s
  | Literal extra s => (extra ≤ 4)%nat ∧ 1 ≤ zlen s ≤ 2 ^ (8 * Z.of_nat extra) ∧ bytes_ok s
  | Copy1 offset len => 0 < offset < 2048 ∧ 4 ≤ len ≤ 11
  | Copy2 offset len => 0 < offset < 65536 ∧ 1 ≤ len ≤ 64
  | Copy4 offset len => 0 < offset < 4294967296 ∧ 1 ≤ len ≤ 64
  end.

Definition elem_bytes (e : snappy_elem) : bytes :=
  match e with
  | Literal O s => (zlen s - 1) * 4 :: s
  | Literal extra s => (59 + Z.of_nat extra) * 4 :: le_bytes extra (zlen s - 1) ++ s
  | Copy1 offset len => [(offset / 256) * 32 + (len - 4) * 4 + 1; offset mod 256]
  | Copy2 offset len => (len - 1) * 4 + 2 :: le_bytes 2 offset
  | Copy4 offset len => (len - 1) * 4 + 3 :: le_bytes 4 offset
  end.

(** The output after an element; [None] when it refers before the start. *)
Definition copy_back (out : bytes) (offset len : Z) : option bytes :=
  if decide (offset ≤ zlen out) then
    let pat := drop (Z.to_nat (zlen out - offset)) out in
    Some (out ++ repeat_bytes (Z.to_nat len) pat pat)
  else None.

Definition elem_out (out : bytes) (e : snappy_elem) : option bytes :=
  match e with
  | Literal _ s => Some (out ++ s)
  | Copy1 offset len | Copy2 offset len | Copy4 offset len => copy_back out offset len
  end.

Fixpoint elems_out (out : bytes) (es : list snappy_elem) : option bytes :=
  match es with
  | [] => Some out
  | e :: es => out ← elem_out out e; elems_out out es
  end.

Example overlapping_copy : repeat_bytes 7 [1; 2; 3] [1; 2; 3] = [1; 2; 3; 1; 2; 3; 1].
Proof. reflexivity. Qed.

(** ** The decoder computes it *)

(** The loop reads a queue: the byte at its head is pushed back at its end. *)
Fixpoint rotate_bytes (n : nat) (q : bytes) : bytes :=
  match n, q with
  | S n, b :: q => b :: rotate_bytes n (q ++ [b])
  | _, _ => []
  end.

Lemma rotate_repeat n pre cur : cur ++ pre ≠ [] → rotate_bytes n (cur ++ pre) = repeat_bytes n (pre ++ cur) cur.
Proof.
  revert pre cur. induction n as [|n IH]; intros pre cur Hne; [done|]. destruct cur as [|b cur].
  - rewrite app_nil_r. destruct pre as [|b pre]; [done|]. cbn [app rotate_bytes repeat_bytes]. f_equal.
    rewrite (IH [b] pre); [done|]. intros [? ?]%app_eq_nil. done.
  - cbn [app rotate_bytes repeat_bytes]. f_equal. rewrite <- (assoc_L (++)), (IH (pre ++ [b]) cur).
    + by rewrite <- (assoc_L (++)).
    + intros [_ [_ ?]%app_eq_nil]%app_eq_nil. done.
Qed.

Lemma copy_loop_ok n start i out q :
  0 ≤ start + i → drop (Z.to_nat (start + i)) out = q → q ≠ [] → copy_loop n start i out = Ok (out ++ rotate_bytes n q).
Proof.
  revert i out q. induction n as [|n IH]; intros i out q Hi Hq Hne; cbn [copy_loop].
  { by rewrite app_nil_r. }
  destruct q as [|b q]; [done|].
  assert (Hb : out !! Z.to_nat (start + i) = Some b) by (by rewrite <- (Nat.add_0_r (Z.to_nat _)), <- lookup_drop, Hq).
  assert (Hg : get_byte out (start + i) = Some b) by (by apply get_byte_Some). rewrite Hg. cbn [index ok_or rotate_bytes].
  apply lookup_lt_Some in Hb. rewrite (IH (i + 1) (out ++ [b]) (q ++ [b])).
  - by rewrite <- (assoc_L (++)).
  - lia.
  - replace (Z.to_nat (start + (i + 1))) with (S (Z.to_nat (start + i))) by lia.
    rewrite drop_app_le by lia. rewrite <- Nat.add_1_r, <- drop_drop, Hq. done.
  - by intros [_ ?]%app_eq_nil.
Qed.

Lemma copy_from_offset_ok out offset len out' :
  0 < offset → copy_back out offset len = Some out' → copy_from_offset out offset len = Ok out'.
Proof.
  intros Ho Hc. unfold copy_back in Hc. case_decide; simplify_eq. unfold copy_from_offset. rewrite decide_False by lia.
  set (pat := drop (Z.to_nat (zlen out - offset)) out).
  assert (Hne : pat ≠ []) by (intros E; apply (f_equal length) in E; unfold pat in E; rewrite length_drop in E; cbn in E; lia).
  rewrite (copy_loop_ok _ _ _ _ pat); [|lia|by rewrite Z.add_0_r|done].
  pose proof (rotate_repeat (Z.to_nat len) [] pat) as Hr. rewrite app_nil_r in Hr. by rewrite Hr.
Qed.

Lemma literal_len_ok l data pos i len r :
  bytes_ok l → left_at data (pos + i) (l ++ r) → 0 ≤ i → 0 ≤ len < 2 ^ (8 * i) →
  literal_len (length l) data pos i len = Ok (len + le_val l * 2 ^ (8 * i)).
Proof.
  intros Hl. revert i len. induction Hl as [|b l Hb Hl IH]; intros i len Hp Hi Hlen; cbn [length literal_len].
  { change (le_val []) with 0. f_equal. lia. }
  apply left_byte in Hp as [-> Hp]. cbn [fails_with ok_or].
  assert (Hpow : 2 ^ (8 * (i + 1)) = 256 * 2 ^ (8 * i)).
  { replace (8 * (i + 1)) with (8 + 8 * i) by lia. by rewrite Z.pow_add_r by lia. }
  unfold u8_ok in Hb. rewrite Z.shiftl_mul_pow2, lor_above by lia. rewrite IH.
  - f_equal. rewrite le_val_cons, Hpow. nia.
  - by rewrite (Z.add_assoc pos i 1).
  - lia.
  - rewrite Hpow. nia.
Qed.

(** The fields of a tag byte. *)
Lemma tag_fields a k : 0 ≤ k < 4 → Z.land (a * 4 + k) 0x03 = k ∧ Z.shiftr (a * 4 + k) 2 = a.
Proof.
  intros Hk. change 0x03 with (2 ^ 2 - 1). rewrite land_low by lia. rewrite Z.shiftr_div_pow2 by lia.
  change (2 ^ 2) with 4. Z.div_mod_to_equations. lia.
Qed.

Lemma copy1_fields offset len : 0 < offset < 2048 → 4 ≤ len ≤ 11 →
  let tag := (offset / 256) * 32 + (len - 4) * 4 + 1 in
  Z.land tag 0x03 = 1 ∧ Z.land (Z.shiftr tag 2) 0x07 + 4 = len ∧
  Z.lor (Z.shiftl (Z.land (Z.shiftr tag 5) 0x07) 8) (offset mod 256) = offset.
Proof.
  intros Ho Hl tag. change 0x03 with (2 ^ 2 - 1). change 0x07 with (2 ^ 3 - 1). rewrite !land_low, !Z.shiftr_div_pow2 by lia.
  rewrite lor_shiftl_add by (first [lia | apply Z.mod_pos_bound; lia]).
  change (2 ^ 2) with 4. change (2 ^ 3) with 8. change (2 ^ 5) with 32. change (2 ^ 8) with 256. unfold tag.
  Z.div_mod_to_equations. lia.
Qed.

Lemma le_bytes_2 z : le_bytes 2 z = [z mod 256; z / 256 mod 256].
Proof. unfold le_bytes. cbn. by rewrite Z.div_1_r. Qed.

(** One element. *)
Definition steps (e : snappy_elem) : Prop := ∀ (fuel : nat) data pos out out' r,
  left_at data pos (elem_bytes e ++ r) → elem_ok e → elem_out out e = Some out' →
  snappy_loop (S fuel) data pos out = snappy_loop fuel data (pos + zlen (elem_bytes e)) out'.

Lemma elem_starts e data pos r : left_at data pos (elem_bytes e ++ r) → ¬ zlen data ≤ pos.
Proof.
  assert (Hne : ∃ t ts, elem_bytes e = t :: ts) by (destruct e as [[]| | |]; cbn; eauto).
  destruct Hne as (t & ts & Et). intros (_ & Hl & _). rewrite Et in Hl. cbn [app length] in Hl. lia.
Qed.

Lemma literal_steps extra s : steps (Literal extra s).
Proof.
  intros fuel data pos out out' r Hl Hok Hout. cbn [snappy_loop]. rewrite decide_False by (by eapply elem_starts).
  cbn [elem_out elem_ok] in *.
  simplify_eq. destruct extra as [|x].
  + cbn [elem_bytes app] in Hl |- *. destruct Hok as [Hs Hb]. apply left_byte in Hl as [-> Hl]. cbn [fails_with ok_or].
    destruct (tag_fields (zlen s - 1) 0 ltac:(lia)) as [E1 E2]. rewrite Z.add_0_r in E1, E2. rewrite E1, E2.
    rewrite decide_True by done. rewrite decide_True by lia.
    replace (zlen s - 1 + 1) with (zlen s) by lia. rewrite (left_range _ _ _ _ Hl). cbn [fails_with ok_or length].
    f_equal. lia.
  + remember (S x) as extra eqn:Ex. replace (elem_bytes (Literal extra s)) with ((59 + Z.of_nat extra) * 4 :: le_bytes extra (zlen s - 1) ++ s) in *
      by (by subst). destruct Hok as (He & Hs & Hb). cbn [app] in Hl. apply left_byte in Hl as [-> Hl]. cbn [fails_with ok_or].
    destruct (tag_fields (59 + Z.of_nat extra) 0 ltac:(lia)) as [E1 E2]. rewrite Z.add_0_r in E1, E2. rewrite E1, E2.
    rewrite decide_True by done. rewrite decide_False by lia. rewrite <- (assoc_L (++)) in Hl.
    replace (59 + Z.of_nat extra - 59) with (Z.of_nat extra) by lia. rewrite Nat2Z.id.
    pose proof (literal_len_ok (le_bytes extra (zlen s - 1)) data (pos + 1) 0 0 (s ++ r)) as Hll.
    rewrite le_bytes_length in Hll. rewrite Hll; [|apply le_bytes_ok|by rewrite Z.add_0_r|lia|cbn; lia].
    rewrite le_val_le_bytes, Z.mod_small by lia. rewrite Z.mul_0_r, Z.pow_0_r, Z.mul_1_r, Z.add_0_l.
    replace (zlen s - 1 + 1) with (zlen s) by lia. apply left_app in Hl. rewrite le_bytes_length in Hl.
    rewrite (left_range _ _ _ _ Hl). cbn [fails_with ok_or length]. rewrite length_app, le_bytes_length. f_equal. lia.
Qed.

Lemma copy1_steps offset len : steps (Copy1 offset len).
Proof.
  intros fuel data pos out out' r Hl Hok Hout. cbn [snappy_loop]. rewrite decide_False by (by eapply elem_starts).
  cbn [elem_out elem_ok] in *.
  cbn [elem_bytes app] in Hl |- *. apply left_byte in Hl as [-> Hl]. cbn [fails_with ok_or].
  destruct (copy1_fields offset len) as (E1 & E2 & E3); [lia..|]. rewrite E1. rewrite decide_False by lia. rewrite decide_True by done.
  apply left_byte in Hl as [-> _]. cbn [fails_with ok_or]. rewrite E2, E3. rewrite (copy_from_offset_ok out offset len out' ltac:(lia) Hout).
  cbn [length]. f_equal. lia.
Qed.

Lemma copy2_steps offset len : steps (Copy2 offset len).
Proof.
  intros fuel data pos out out' r Hl Hok Hout. cbn [snappy_loop]. rewrite decide_False by (by eapply elem_starts).
  cbn [elem_out elem_ok] in *.
  cbn [elem_bytes] in Hl |- *. rewrite le_bytes_2 in Hl |- *. cbn [app] in Hl. apply left_byte in Hl as [-> Hl]. cbn [fails_with ok_or].
  destruct (tag_fields (len - 1) 2 ltac:(lia)) as [E1 E2]. rewrite E1, E2. rewrite 2 decide_False by lia. rewrite decide_True by done.
  apply left_byte in Hl as [-> Hl]. cbn [fails_with ok_or]. apply left_byte in Hl as [-> _]. cbn [fails_with ok_or].
  rewrite Z.lor_comm, lor_shiftl_add by (first [lia | apply Z.mod_pos_bound; lia]). change (2 ^ 8) with 256.
  replace (offset / 256 mod 256 * 256 + offset mod 256) with offset by (Z.div_mod_to_equations; lia).
  replace (len - 1 + 1) with len by lia. rewrite (copy_from_offset_ok out offset len out' ltac:(lia) Hout). cbn [length]. f_equal. lia.
Qed.

Lemma copy4_steps offset len : steps (Copy4 offset len).
Proof.
  intros fuel data pos out out' r Hl Hok Hout. cbn [snappy_loop]. rewrite decide_False by (by eapply elem_starts).
  cbn [elem_out elem_ok] in *.
  cbn [elem_bytes app] in Hl |- *. apply left_byte in Hl as [-> Hl]. cbn [fails_with ok_or].
  destruct (tag_fields (len - 1) 3 ltac:(lia)) as [E1 E2]. rewrite E1, E2. rewrite !decide_False by lia.
  pose proof (left_range _ _ _ _ Hl) as Hg. rewrite le_bytes_length in Hg. change (Z.of_nat 4) with 4 in Hg. rewrite Hg. cbn [fails_with ok_or].
  rewrite le_val_le_bytes, Z.mod_small by (change (2 ^ (8 * Z.of_nat 4)) with 4294967296; lia).
  replace (len - 1 + 1) with len by lia. rewrite (copy_from_offset_ok out offset len out' ltac:(lia) Hout).
  cbn [length]. rewrite le_bytes_length. f_equal. lia.
Qed.

Lemma elem_steps e : steps e.
Proof. destruct e; [apply literal_steps|apply copy1_steps|apply copy2_steps|apply copy4_steps]. Qed.

Lemma snappy_loop_ok es (fuel : nat) data pos out out' :
  left_at data pos (concat (map elem_bytes es)) → Forall elem_ok es → elems_out out es = Some out' →
  (length es ≤ fuel)%nat → snappy_loop fuel data pos out = Ok out'.
Proof.
  intros Hl HF. revert fuel pos out Hl. induction HF as [|e es He HF IH]; intros fuel pos out Hl Ho Hf; cbn [map concat elems_out] in *.
  { simplify_eq. destruct Hl as (_ & Hl & _). cbn in Hl. destruct fuel; cbn [snappy_loop]; by rewrite decide_True by lia. }
  destruct (elem_out out e) as [out1|] eqn:E1; [|done]. cbn in Ho. destruct fuel as [|fuel]; [cbn in Hf; lia|].
  rewrite (elem_steps e fuel data pos out out1 _ Hl He E1). cbn [length] in Hf.
  apply IH; [by apply left_app|done|lia].
Qed.

Lemma elems_bytes_ge es : (length es ≤ length (concat (map elem_bytes es)))%nat.
Proof.
  induction es as [|e es IH]; [done|]. cbn [map concat length]. rewrite length_app.
  assert (0 < length (elem_bytes e))%nat by (destruct e as [[]| | |]; cbn; lia). lia.
Qed.

(** ** Safety *)

(** A result, or an error of the source: neither a panic nor a loop that does
    not end. *)
Definition regular {E A} (r : run E A) : Prop := match r with Err Panics | Err OutOfFuel => False | _ => True end.

Lemma copy_regular out offset len : 0 ≤ offset → regular (copy_from_offset out offset len).
Proof.
  intros Ho. destruct (decide (offset = 0 ∨ zlen out < offset)) as [Hd|Hd].
  - unfold copy_from_offset. by rewrite decide_True.
  - destruct (copy_back out offset len) as [out'|] eqn:E.
    + rewrite (copy_from_offset_ok out offset len out' ltac:(lia) E). done.
    + unfold copy_back in E. case_decide; [done|lia].
Qed.

Lemma literal_len_total n data pos i len :
  bytes_ok data → 0 ≤ i → 0 ≤ len →
  match literal_len n data pos i len with Ok v => 0 ≤ v | Err (Fails _) => True | _ => False end.
Proof.
  intros Hb. revert i len. induction n as [|n IH]; intros i len Hi Hl; cbn [literal_len]; [done|].
  destruct (get_byte data (pos + i)) as [b|] eqn:E; cbn [fails_with ok_or]; [|done].
  apply IH; [lia|]. apply Z.lor_nonneg. split; [done|]. apply Z.shiftl_nonneg.
  pose proof (bytes_ok_get_byte _ _ _ Hb E). mlia.
Qed.

Lemma get_byte_lt data pos b : get_byte data pos = Some b → 0 ≤ pos < zlen data.
Proof. unfold get_byte. by case_decide. Qed.

Lemma snappy_loop_regular (fuel : nat) data pos out :
  bytes_ok data → 0 ≤ pos → zlen data - pos ≤ Z.of_nat fuel → regular (snappy_loop fuel data pos out).
Proof.
  intros Hb. revert pos out. induction fuel as [|fuel IH]; intros pos out Hp Hf; cbn [snappy_loop]; case_decide; [done|lia|done|].
  destruct (get_byte data pos) as [tag|] eqn:Htag; cbn [fails_with ok_or]; [|done].
  pose proof (bytes_ok_get_byte _ _ _ Hb Htag) as Htb.
  assert (Hsh : 0 ≤ Z.shiftr tag 2) by (apply Z.shiftr_nonneg; mlia). cbv zeta.
  assert (Hcopy : ∀ offset len k, 0 ≤ offset → 0 ≤ k →
    regular (let? out := copy_from_offset out offset len in snappy_loop fuel data (pos + 1 + k) out)).
  { intros offset len k Ho Hk. pose proof (copy_regular out offset len Ho) as Hc.
    destruct (copy_from_offset out offset len) as [out'|[]]; try done. apply IH; lia. }
  repeat case_decide.
  - cbn [fails_with ok_or]. destruct (get_range data (pos + 1) _) as [s|]; [|done]. cbn. apply IH; lia.
  - pose proof (literal_len_total (Z.to_nat (Z.shiftr tag 2 - 59)) data (pos + 1) 0 0 Hb ltac:(lia) ltac:(lia)) as Hl.
    destruct (literal_len _ _ _ _ _) as [len|[]]; try done.
    destruct (get_range data (pos + 1 + (Z.shiftr tag 2 - 59)) _) as [s|]; [|done]. cbn. apply IH; lia.
  - destruct (get_byte data (pos + 1)) as [lo|] eqn:Elo; [|done]. cbn [fails_with ok_or].
    pose proof (bytes_ok_get_byte _ _ _ Hb Elo). apply Hcopy; [|lia]. apply Z.lor_nonneg. split; [|mlia].
    apply Z.shiftl_nonneg, Z.land_nonneg. lia.
  - destruct (get_byte data (pos + 1)) as [lo|] eqn:Elo; [|done]. cbn [fails_with ok_or].
    destruct (get_byte data (pos + 1 + 1)) as [hi|] eqn:Ehi; [|done]. cbn [fails_with ok_or].
    pose proof (bytes_ok_get_byte _ _ _ Hb Elo). pose proof (bytes_ok_get_byte _ _ _ Hb Ehi).
    apply Hcopy; [|lia]. apply Z.lor_nonneg. split; [mlia|]. apply Z.shiftl_nonneg. mlia.
  - destruct (get_range data (pos + 1) (pos + 1 + 4)) as [s|] eqn:Es; [|done]. cbn [fails_with ok_or].
    apply Hcopy; [|lia]. pose proof (le_val_bound s (bytes_ok_get_range _ _ _ _ Hb Es)). lia.
Qed.

(** ** Properties *)

(** Decompression computes what the block means.  From the varint of the
    output length and any sequence of literals and copies, in every form the
    format has and with copies that overlap their own output, the decoder
    returns the output of the elements in order. *)
Theorem snappy_roundtrip (es : list snappy_elem) (out : bytes) (uncompressed_size : Z) :
  Forall elem_ok es → elems_out [] es = Some out → zlen out < 2 ^ 35 → uncompressed_size ≤ ISIZE_MAX →
  snappy_decompress (leb128_bytes (zlen out) ++ concat (map elem_bytes es)) uncompressed_size = Ok out.
Proof.
  intros HF Ho Hlen Hs. unfold snappy_decompress, snappy_read_varint.
  set (data := leb128_bytes (zlen out) ++ concat (map elem_bytes es)).
  pose proof (left_start data) as Hl. change (2 ^ 35) with 34359738368 in Hlen.
  rewrite (leb128_roundtrip _ _ 35 data 0 _ _ Hl) by (first [lia | mlia]). rewrite with_capacity_ok by mlia.
  pose proof (elems_bytes_ge es).
  rewrite (snappy_loop_ok es (length data) data _ [] out); [|by apply left_app|done|done|unfold data; rewrite length_app; lia].
  by rewrite decide_False by (intros E; by apply E).
Qed.

Definition example_elems : list snappy_elem :=
  [Literal 0 [104; 101; 108; 108; 111]; Copy1 5 8; Literal 1 (repeat 120 70); Copy2 83 64; Copy4 1 10].

(** On every input the decompressor returns the announced number of bytes
    or one of its errors: it never indexes out of bounds and its loop always
    ends, as long as the size the page header asks for is one a vector can
    have. *)
Theorem snappy_regular (data : bytes) (uncompressed_size : Z) :
  bytes_ok data → uncompressed_size ≤ ISIZE_MAX →
  match snappy_decompress data uncompressed_size with
  | Ok out => ∃ p, snappy_read_varint data 0 = Ok (zlen out, p)
  | Err (Fails _) => True
  | Err Panics | Err OutOfFuel => False
  end.
Proof.
  intros Hb Hs. unfold snappy_decompress.
  pose proof (leb128_total SnappyUnexpectedEof SnappyInvalidVarint 35 data 0 ltac:(lia) ltac:(lia)) as Ht.
  pose proof (λ v p, leb128_loop_small SnappyUnexpectedEof SnappyInvalidVarint 35 11 data 0 0 0 v p ltac:(lia) ltac:(cbn; lia)) as Hsm.
  fold (leb128 SnappyUnexpectedEof SnappyInvalidVarint 35 data 0) in Hsm. unfold snappy_read_varint in *. destruct (leb128 _ _ _ _ _) as [[n p]|[]]; cbn in Ht; try done.
  specialize (Hsm n p eq_refl). change (2 ^ (35 + 7)) with 4398046511104 in Hsm.
  rewrite with_capacity_ok by (rewrite Z.mul_1_l; apply Z.max_lub; [mlia|done]).
  pose proof (snappy_loop_regular (length data) data p [] Hb ltac:(lia) ltac:(lia)) as Hr.
  destruct (snappy_loop _ _ _ _) as [out|[]]; try done. case_decide as E; [done|].
  exists p. destruct (decide (zlen out = n)) as [->|]; [done|by destruct E].
Qed.

