(* ===== verification/ParquetMeta.v ===== *)
(** * Parquet metadata ([column/parquet/footer.rs], [column/parquet/page.rs])

    The footer at the end of a file and the headers of its pages: thrift
    structs interpreted field by field.  Strings are lists of Unicode scalar
    values. *)

From S2P Require Import Prelude Text Machine Thrift.

(** [b"PAR1"]. *)
Definition MAGIC : bytes := [80; 65; 82; 49].
Definition FOOTER_LEN : Z := 8.

Inductive FooterError : Type :=
| FileTooShort
| BadMagic
| FooterThrift (e : ThriftError).

Inductive PhysicalType : Type :=
| PBoolean | PInt32 | PInt64 | PInt96 | PFloat | PDouble | PByteArray | PFixedLenByteArray
| PUnknown (v : Z).

Definition PhysicalType_from (v : Z) : PhysicalType :=
  if decide (v = 0) then PBoolean
  else if decide (v = 1) then PInt32
  else if decide (v = 2) then PInt64
  else if decide (v = 3) then PInt96
  else if decide (v = 4) then PFloat
  else if decide (v = 5) then PDouble
  else if decide (v = 6) then PByteArray
  else if decide (v = 7) then PFixedLenByteArray
  else PUnknown v.

Inductive Repetition : Type := Required | Optional | Repeated | RUnknown (v : Z).

Definition Repetition_from (v : Z) : Repetition :=
  if decide (v = 0) then Required
  else if decide (v = 1) then Optional
  else if decide (v = 2) then Repeated
  else RUnknown v.

Inductive ConvertedType : Type := CDecimal | TimestampMillis | TimestampMicros | COther (v : Z).

Definition ConvertedType_from (v : Z) : ConvertedType :=
  if decide (v = 5) then CDecimal
  else if decide (v = 9) then TimestampMillis
  else if decide (v = 10) then TimestampMicros
  else COther v.

Inductive Codec : Type := Uncompressed | CSnappy | CZstd | CodecOther (v : Z).

Definition Codec_from (v : Z) : Codec :=
  if decide (v = 0) then Uncompressed
  else if decide (v = 1) then CSnappy
  else if decide (v = 6) then CZstd
  else CodecOther v.

#[global] Instance PhysicalType_eq_dec : EqDecision PhysicalType.
Proof. solve_decision. Defined.
#[global] Instance Repetition_eq_dec : EqDecision Repetition.
Proof. solve_decision. Defined.
#[global] Instance ConvertedType_eq_dec : EqDecision ConvertedType.
Proof. solve_decision. Defined.

Record SchemaElement : Type := {
  se_name : list Z;
  se_physical_type : option PhysicalType;
  se_repetition : option Repetition;
  se_num_children : option Z;
  se_type_length : option Z;
  se_converted_type : option ConvertedType;
  se_scale : option Z;
  se_precision : option Z;
}.

Record ColumnMetaData : Type := {
  cm_physical_type : PhysicalType;
  cm_codec : Codec;
  cm_path_in_schema : list (list Z);
  cm_num_values : Z;
  cm_total_uncompressed_size : Z;
  cm_total_compressed_size : Z;
  cm_data_page_offset : Z;
  cm_dictionary_page_offset : option Z;
}.

Record ColumnChunk : Type := { cc_file_offset : Z; cc_meta_data : option ColumnMetaData }.

Record RowGroup : Type := { rg_columns : list ColumnChunk; rg_total_byte_size : Z; rg_num_rows : Z }.

Record FileMetaData : Type := {
  fm_version : Z;
  fm_schema : list SchemaElement;
  fm_num_rows : Z;
  fm_row_groups : list RowGroup;
  fm_created_by : option (list Z);
}.

(** ** Interpreting the thrift structs *)

(** [o.map(f).unwrap_or(d)]. *)
Definition map_or {A B} (d : B) (f : A → B) (o : option A) : B := match o with Some a => f a | None => d end.

Definition i32_field (v : TValue) (id : Z) : option Z := t_field v id ≫= t_as_i32.
Definition i64_field (v : TValue) (id : Z) : option Z := t_field v id ≫= t_as_i64.

Definition parse_column_meta_data (v : TValue) : ColumnMetaData := {|
  cm_physical_type := map_or (PUnknown (-1)) PhysicalType_from (i32_field v 1);
  cm_codec := map_or Uncompressed Codec_from (i32_field v 4);
  cm_path_in_schema := map_or [] (omap t_as_str) (t_field v 3 ≫= t_as_list);
  cm_num_values := default 0 (i64_field v 5);
  cm_total_uncompressed_size := default 0 (i64_field v 6);
  cm_total_compressed_size := default 0 (i64_field v 7);
  cm_data_page_offset := default 0 (i64_field v 9);
  cm_dictionary_page_offset := i64_field v 11;
|}.

Definition parse_column_chunk (v : TValue) : ColumnChunk := {|
  cc_file_offset := default 0 (i64_field v 2);
  cc_meta_data := parse_column_meta_data <$> t_field v 3;
|}.

Definition parse_row_group (v : TValue) : RowGroup := {|
  rg_columns := map_or [] (map parse_column_chunk) (t_field v 1 ≫= t_as_list);
  rg_total_byte_size := default 0 (i64_field v 2);
  rg_num_rows := default 0 (i64_field v 3);
|}.

Definition parse_schema_element (v : TValue) : SchemaElement := {|
  se_name := default [] (t_field v 4 ≫= t_as_str);
  se_physical_type := PhysicalType_from <$> i32_field v 1;
  se_type_length := i32_field v 2;
  se_repetition := Repetition_from <$> i32_field v 3;
  se_num_children := i32_field v 5;
  se_converted_type := ConvertedType_from <$> i32_field v 6;
  se_scale := i32_field v 7;
  se_precision := i32_field v 8;
|}.

Definition parse_file_meta_data (fields : list (Z * TValue)) : FileMetaData :=
  let get := find_field fields in
  {|
    fm_version := default 0 (get 1 ≫= t_as_i32);
    fm_schema := map_or [] (map parse_schema_element) (get 2 ≫= t_as_list);
    fm_num_rows := default 0 (get 3 ≫= t_as_i64);
    fm_row_groups := map_or [] (map parse_row_group) (get 4 ≫= t_as_list);
    fm_created_by := get 6 ≫= t_as_str;
  |}.

Definition parse_footer `{Build} (value_size : Z) (file : bytes) : run FooterError FileMetaData :=
  if decide (zlen file < FOOTER_LEN) then Err (Fails FileTooShort)
  else
    let? tail := index (get_from file (zlen file - FOOTER_LEN)) in
    if decide (drop 4 tail ≠ MAGIC) then Err (Fails BadMagic)
    else
      let metadata_len := le_val (take 4 tail) in
      if decide (zlen file - (FOOTER_LEN + metadata_len) < 0) then Err (Fails FileTooShort)
      else
        let metadata_start := zlen file - (FOOTER_LEN + metadata_len) in
        let? metadata_bytes := index (get_range file metadata_start (zlen file - FOOTER_LEN)) in
        let? fn := lift_err FooterThrift (decode_struct value_size metadata_bytes) in
        Ok (parse_file_meta_data fn.1).

(** ** Page headers *)

Inductive PageError : Type :=
| PageThrift (e : ThriftError)
| UnsupportedPageType (t : Z)
| MissingDataPageHeader.

Inductive Encoding : Type :=
| EPlain | EPlainDictionary | ERle | EDeltaBinaryPacked | ERleDictionary | EOther (v : Z).

#[global] Instance Encoding_eq_dec : EqDecision Encoding.
Proof. solve_decision. Defined.

Definition Encoding_from (v : Z) : Encoding :=
  if decide (v = 0) then EPlain
  else if decide (v = 2) then EPlainDictionary
  else if decide (v = 3) then ERle
  else if decide (v = 5) then EDeltaBinaryPacked
  else if decide (v = 8) then ERleDictionary
  else EOther v.

Record DataPageHeader : Type := {
  dp_num_values : Z;
  dp_encoding : Encoding;
  dp_definition_level_encoding : Encoding;
  dp_repetition_level_encoding : Encoding;
}.

Record DictionaryPageHeader : Type := { dict_num_values : Z; dict_encoding : Encoding }.

Inductive PageType : Type :=
| DataPage (h : DataPageHeader)
| DictionaryPage (h : DictionaryPageHeader).

Record PageHeader : Type := {
  ph_uncompressed_page_size : Z;
  ph_compressed_page_size : Z;
  ph_page_type : PageType;
}.

Definition PAGE_TYPE_DATA_PAGE : Z := 0.
Definition PAGE_TYPE_DICTIONARY_PAGE : Z := 2.

Definition encoding_field (v : TValue) (id : Z) : Encoding := map_or (EOther (-1)) Encoding_from (i32_field v id).

Definition decode_page_header `{Build} (value_size : Z) (buf : bytes) : run PageError (PageHeader * Z) :=
  let? fc := lift_err PageThrift (decode_struct value_size buf) in
  let '(fields, consumed) := fc in
  let root := TStruct fields in
  let page_type := default (-1) (i32_field root 1) in
  let uncompressed_page_size := default 0 (i32_field root 2) in
  let compressed_page_size := default 0 (i32_field root 3) in
  let? page_type :=
    (if decide (page_type = PAGE_TYPE_DATA_PAGE) then
       let? dph := fails_with (t_field root 5) MissingDataPageHeader in
       Ok (DataPage {|
         dp_num_values := default 0 (i32_field dph 1);
         dp_encoding := encoding_field dph 2;
         dp_definition_level_encoding := encoding_field dph 3;
         dp_repetition_level_encoding := encoding_field dph 4;
       |})
     else if decide (page_type = PAGE_TYPE_DICTIONARY_PAGE) then
       let? dph := fails_with (t_field root 7) MissingDataPageHeader in
       Ok (DictionaryPage {| dict_num_values := default 0 (i32_field dph 1); dict_encoding := encoding_field dph 2 |})
     else Err (Fails (UnsupportedPageType page_type))) in
  Ok ({| ph_uncompressed_page_size := uncompressed_page_size; ph_compressed_page_size := compressed_page_size;
         ph_page_type := page_type |}, consumed).

(** ** A writer of the metadata *)

(** The struct of the fields that are there. *)
Definition fields_of (l : list (Z * option TValue)) : list (Z * TValue) := omap (λ p, pair p.1 <$> p.2) l.

Lemma find_cons i o l id :
  find_field (fields_of ((i, o) :: l)) id =
    if decide (i = id) then match o with Some v => Some v | None => find_field (fields_of l) id end
    else find_field (fields_of l) id.
Proof.
  unfold find_field, fields_of. cbn [omap list_omap fst snd]. destruct o as [v|]; cbn [fmap option_fmap option_map]; [|by case_decide].
  cbn [list_find]. cbn [fst]. case_decide; [done|].
  by destruct (list_find (λ f, f.1 = id) (omap (λ p, pair p.1 <$> p.2) l)) as [[]|].
Qed.

Lemma find_nil id : find_field (fields_of []) id = None.
Proof. done. Qed.

Lemma fields_of_typed l : Forall (λ p, i16_ok p.1 ∧ match p.2 with Some v => t_typed v | None => True end) l →
  fields_typed (fields_of l).
Proof.
  unfold fields_typed, fields_of. cbn [t_typed]. induction 1 as [|[i [v|]] l [Hi Hv] HF IH]; [done|..]; cbn in *; done.
Qed.

Lemma list_typed {A} (f : A → TValue) (ct : Z) l :
  Forall (λ a, t_typed (f a)) l → (∀ a, t_ctype (f a) = ct) → t_typed (TList (map f l)).
Proof.
  intros HF Hc. cbn [t_typed]. split.
  - induction HF; cbn; auto.
  - exists ct. by apply Forall_fmap, Forall_true.
Qed.

Ltac find_fields := repeat (rewrite ?find_nil; rewrite find_cons; first [rewrite decide_True by done | rewrite decide_False by done]); rewrite ?find_nil.

Definition type_code (t : PhysicalType) : Z :=
  match t with
  | PBoolean => 0 | PInt32 => 1 | PInt64 => 2 | PInt96 => 3 | PFloat => 4 | PDouble => 5 | PByteArray => 6
  | PFixedLenByteArray => 7 | PUnknown v => v
  end.
Definition repetition_code (r : Repetition) : Z :=
  match r with Required => 0 | Optional => 1 | Repeated => 2 | RUnknown v => v end.
Definition converted_code (c : ConvertedType) : Z :=
  match c with CDecimal => 5 | TimestampMillis => 9 | TimestampMicros => 10 | COther v => v end.
Definition codec_code (c : Codec) : Z := match c with Uncompressed => 0 | CSnappy => 1 | CZstd => 6 | CodecOther v => v end.
Definition encoding_code (e : Encoding) : Z :=
  match e with EPlain => 0 | EPlainDictionary => 2 | ERle => 3 | EDeltaBinaryPacked => 5 | ERleDictionary => 8 | EOther v => v end.

(** A code is faithful when the reader maps it back to its constructor. *)
Definition type_ok (t : PhysicalType) : Prop := i32_ok (type_code t) ∧ PhysicalType_from (type_code t) = t.
Definition repetition_ok (r : Repetition) : Prop := i32_ok (repetition_code r) ∧ Repetition_from (repetition_code r) = r.
Definition converted_ok (c : ConvertedType) : Prop := i32_ok (converted_code c) ∧ ConvertedType_from (converted_code c) = c.
Definition codec_ok (c : Codec) : Prop := i32_ok (codec_code c) ∧ Codec_from (codec_code c) = c.
Definition encoding_ok (e : Encoding) : Prop := i32_ok (encoding_code e) ∧ Encoding_from (encoding_code e) = e.

Definition opt_ok {A} (P : A → Prop) (o : option A) : Prop := match o with Some a => P a | None => True end.

Definition schema_value (e : SchemaElement) : TValue :=
  TStruct (fields_of [
    (1, TI32 ∘ type_code <$> se_physical_type e); (2, TI32 <$> se_type_length e);
    (3, TI32 ∘ repetition_code <$> se_repetition e); (4, Some (TBinary (as_bytes (se_name e))));
    (5, TI32 <$> se_num_children e); (6, TI32 ∘ converted_code <$> se_converted_type e);
    (7, TI32 <$> se_scale e); (8, TI32 <$> se_precision e)]).

Definition schema_ok (e : SchemaElement) : Prop :=
  str_ok (se_name e) ∧ opt_ok type_ok (se_physical_type e) ∧ opt_ok repetition_ok (se_repetition e) ∧
  opt_ok i32_ok (se_num_children e) ∧ opt_ok i32_ok (se_type_length e) ∧ opt_ok converted_ok (se_converted_type e) ∧
  opt_ok i32_ok (se_scale e) ∧ opt_ok i32_ok (se_precision e).

Definition column_meta_value (m : ColumnMetaData) : TValue :=
  TStruct (fields_of [
    (1, Some (TI32 (type_code (cm_physical_type m)))); (3, Some (TList (map (TBinary ∘ as_bytes) (cm_path_in_schema m))));
    (4, Some (TI32 (codec_code (cm_codec m)))); (5, Some (TI64 (cm_num_values m)));
    (6, Some (TI64 (cm_total_uncompressed_size m))); (7, Some (TI64 (cm_total_compressed_size m)));
    (9, Some (TI64 (cm_data_page_offset m))); (11, TI64 <$> cm_dictionary_page_offset m)]).

Definition column_meta_ok (m : ColumnMetaData) : Prop :=
  type_ok (cm_physical_type m) ∧ codec_ok (cm_codec m) ∧ Forall str_ok (cm_path_in_schema m) ∧
  i64_ok (cm_num_values m) ∧ i64_ok (cm_total_uncompressed_size m) ∧ i64_ok (cm_total_compressed_size m) ∧
  i64_ok (cm_data_page_offset m) ∧ opt_ok i64_ok (cm_dictionary_page_offset m).

Definition chunk_value (c : ColumnChunk) : TValue :=
  TStruct (fields_of [(2, Some (TI64 (cc_file_offset c))); (3, column_meta_value <$> cc_meta_data c)]).

Definition chunk_ok (c : ColumnChunk) : Prop := i64_ok (cc_file_offset c) ∧ opt_ok column_meta_ok (cc_meta_data c).

Definition row_group_value (g : RowGroup) : TValue :=
  TStruct (fields_of [
    (1, Some (TList (map chunk_value (rg_columns g)))); (2, Some (TI64 (rg_total_byte_size g)));
    (3, Some (TI64 (rg_num_rows g)))]).

Definition row_group_ok (g : RowGroup) : Prop :=
  Forall chunk_ok (rg_columns g) ∧ i64_ok (rg_total_byte_size g) ∧ i64_ok (rg_num_rows g).

Definition file_meta_fields (m : FileMetaData) : list (Z * TValue) :=
  fields_of [
    (1, Some (TI32 (fm_version m))); (2, Some (TList (map schema_value (fm_schema m)))); (3, Some (TI64 (fm_num_rows m)));
    (4, Some (TList (map row_group_value (fm_row_groups m)))); (6, TBinary ∘ as_bytes <$> fm_created_by m)].

Definition file_meta_ok (m : FileMetaData) : Prop :=
  i32_ok (fm_version m) ∧ Forall schema_ok (fm_schema m) ∧ i64_ok (fm_num_rows m) ∧
  Forall row_group_ok (fm_row_groups m) ∧ opt_ok str_ok (fm_created_by m).

(** ** The reader inverts it *)

#[local] Arguments as_bytes _ : simpl never.
#[local] Arguments from_utf8 _ : simpl never.
#[local] Arguments Encoding_from _ : simpl never.
#[local] Arguments encoding_code _ : simpl never.

Lemma map_parse {A} (f : A → TValue) (parse : TValue → A) (P : A → Prop) l :
  (∀ a, P a → parse (f a) = a) → Forall P l → map parse (map f l) = l.
Proof. intros Hp. induction 1 as [|a l Ha HF IH]; [done|]. cbn. by rewrite Hp, IH. Qed.

Lemma omap_strings l : Forall str_ok l → omap t_as_str (map (TBinary ∘ as_bytes) l) = l.
Proof. induction 1 as [|s l Hs HF IH]; [done|]. cbn. by rewrite from_utf8_as_bytes, IH. Qed.

Lemma parse_schema_value e : schema_ok e → parse_schema_element (schema_value e) = e.
Proof.
  destruct e as [name ty rep nc tl conv sc pr]. intros (Hn & Ht & Hr & _ & _ & Hc & _ & _). cbn in *.
  unfold parse_schema_element, i32_field, t_field, schema_value. cbn [t_as_struct mbind option_bind]. find_fields. cbn.
  rewrite from_utf8_as_bytes by done. cbn.
  destruct ty as [ty|], rep as [rep|], conv as [conv|]; destruct nc, tl, sc, pr; cbn in *; repeat f_equal; first [apply Ht|apply Hr|apply Hc].
Qed.

Lemma parse_column_meta_value m : column_meta_ok m → parse_column_meta_data (column_meta_value m) = m.
Proof.
  destruct m as [ty co path nv us cs off dict]. intros (Ht & Hc & Hp & _). cbn in *.
  unfold parse_column_meta_data, i32_field, i64_field, t_field, column_meta_value. cbn [t_as_struct mbind option_bind].
  find_fields. cbn [map_or t_as_i32 t_as_i64 t_as_list default mbind option_bind]. rewrite omap_strings by done.
  cbn. rewrite (proj2 Ht), (proj2 Hc). by destruct dict.
Qed.

Lemma parse_chunk_value c : chunk_ok c → parse_column_chunk (chunk_value c) = c.
Proof.
  destruct c as [off m]. intros [_ Hm]. unfold parse_column_chunk, i64_field, t_field, chunk_value.
  cbn [t_as_struct mbind option_bind]. find_fields. cbn. destruct m as [m|]; [|done]. cbn in *. by rewrite parse_column_meta_value.
Qed.

Lemma parse_row_group_value g : row_group_ok g → parse_row_group (row_group_value g) = g.
Proof.
  destruct g as [cols bs n]. intros [Hc _]. unfold parse_row_group, i64_field, t_field, row_group_value.
  cbn [t_as_struct mbind option_bind]. find_fields. cbn.
  by rewrite (map_parse _ _ chunk_ok) by (done || apply parse_chunk_value).
Qed.

Lemma parse_file_meta_fields m : file_meta_ok m → parse_file_meta_data (file_meta_fields m) = m.
Proof.
  destruct m as [v sch n gs cb]. intros (_ & Hs & _ & Hg & Hcb). unfold parse_file_meta_data, file_meta_fields.
  find_fields. cbn. rewrite (map_parse _ _ schema_ok) by (done || apply parse_schema_value).
  rewrite (map_parse _ _ row_group_ok) by (done || apply parse_row_group_value).
  destruct cb as [cb|]; [|done]. cbn in *. by rewrite from_utf8_as_bytes.
Qed.

(** The written structs are typed. *)
Ltac typed_fields := apply fields_of_typed; repeat (apply Forall_cons_2; [split; [cbn; mlia|]; cbn [snd]|]); try apply Forall_nil_2.

Lemma opt_typed {A} (f : A → TValue) (P : A → Prop) o :
  opt_ok P o → (∀ a, P a → t_typed (f a)) → match f <$> o with Some v => t_typed v | None => True end.
Proof. intros Ho Hf. destruct o; cbn in *; [by apply Hf|done]. Qed.

Lemma schema_typed e : schema_ok e → t_typed (schema_value e).
Proof.
  intros (Hn & Ht & Hr & Hnc & Htl & Hc & Hs & Hp). unfold schema_value. typed_fields.
  - eapply opt_typed; [exact Ht|]. intros a Ha. apply Ha.
  - eapply opt_typed; [exact Htl|done].
  - eapply opt_typed; [exact Hr|]. intros a Ha. apply Ha.
  - by apply as_bytes_ok.
  - eapply opt_typed; [exact Hnc|done].
  - eapply opt_typed; [exact Hc|]. intros a Ha. apply Ha.
  - eapply opt_typed; [exact Hs|done].
  - eapply opt_typed; [exact Hp|done].
Qed.

Lemma column_meta_typed m : column_meta_ok m → t_typed (column_meta_value m).
Proof.
  intros (Ht & Hc & Hp & ? & ? & ? & ? & Hd). unfold column_meta_value. typed_fields; try done.
  - apply Ht.
  - apply (list_typed _ CTYPE_BINARY); [|done]. eapply Forall_impl; [exact Hp|]. intros s Hs. by apply as_bytes_ok.
  - apply Hc.
  - eapply opt_typed; [exact Hd|done].
Qed.

Lemma chunk_typed c : chunk_ok c → t_typed (chunk_value c).
Proof.
  intros [? Hm]. unfold chunk_value. typed_fields; [done|]. eapply opt_typed; [exact Hm|apply column_meta_typed].
Qed.

Lemma row_group_typed g : row_group_ok g → t_typed (row_group_value g).
Proof.
  intros (Hc & ? & ?). unfold row_group_value. typed_fields; try done.
  apply (list_typed _ CTYPE_STRUCT); [|done]. eapply Forall_impl; [exact Hc|apply chunk_typed].
Qed.

Lemma file_meta_typed m : file_meta_ok m → fields_typed (file_meta_fields m).
Proof.
  intros (? & Hs & ? & Hg & Hcb). unfold file_meta_fields. typed_fields; try done.
  - apply (list_typed _ CTYPE_STRUCT); [|done]. eapply Forall_impl; [exact Hs|apply schema_typed].
  - apply (list_typed _ CTYPE_STRUCT); [|done]. eapply Forall_impl; [exact Hg|apply row_group_typed].
  - eapply opt_typed; [exact Hcb|]. intros s Hs'. by apply as_bytes_ok.
Qed.

(** ** Page headers *)

Definition page_fields (h : PageHeader) : list (Z * TValue) :=
  fields_of [
    (1, Some (TI32 (match ph_page_type h with DataPage _ => 0 | DictionaryPage _ => 2 end)));
    (2, Some (TI32 (ph_uncompressed_page_size h))); (3, Some (TI32 (ph_compressed_page_size h)));
    (5, match ph_page_type h with
        | DataPage d => Some (TStruct (fields_of [
            (1, Some (TI32 (dp_num_values d))); (2, Some (TI32 (encoding_code (dp_encoding d))));
            (3, Some (TI32 (encoding_code (dp_definition_level_encoding d))));
            (4, Some (TI32 (encoding_code (dp_repetition_level_encoding d))))]))
        | DictionaryPage _ => None
        end);
    (7, match ph_page_type h with
        | DataPage _ => None
        | DictionaryPage d => Some (TStruct (fields_of [
            (1, Some (TI32 (dict_num_values d))); (2, Some (TI32 (encoding_code (dict_encoding d))))]))
        end)].

Definition page_header_ok (h : PageHeader) : Prop :=
  i32_ok (ph_uncompressed_page_size h) ∧ i32_ok (ph_compressed_page_size h) ∧
  match ph_page_type h with
  | DataPage d => i32_ok (dp_num_values d) ∧ encoding_ok (dp_encoding d) ∧
      encoding_ok (dp_definition_level_encoding d) ∧ encoding_ok (dp_repetition_level_encoding d)
  | DictionaryPage d => i32_ok (dict_num_values d) ∧ encoding_ok (dict_encoding d)
  end.

Definition page_header_bytes (h : PageHeader) : bytes := fields_bytes 0 (page_fields h).

Lemma page_fields_typed h : page_header_ok h → fields_typed (page_fields h).
Proof.
  destruct h as [us cs [d|d]]; intros (? & ? & Hd); cbn in Hd; unfold page_fields; cbn [ph_page_type]; typed_fields; try done.
  - destruct Hd as (? & He & Hdl & Hrl). typed_fields; [done|apply He|apply Hdl|apply Hrl].
  - destruct Hd as (? & He). typed_fields; [done|apply He].
Qed.

#[local] Arguments fields_of _ : simpl never.
#[local] Arguments find_field _ _ : simpl never.

Section roundtrip.
Context `{Build} (value_size : Z).
Hypothesis Hsize : 0 < value_size.

Lemma page_header_roundtrip h rest :
  page_header_ok h → 2 * value_size * zlen (page_header_bytes h ++ rest) ≤ ISIZE_MAX →
  decode_page_header value_size (page_header_bytes h ++ rest) = Ok (h, zlen (page_header_bytes h)).
Proof using Hsize.
  intros Hh Hc. unfold decode_page_header, page_header_bytes in *.
  rewrite (decode_fields value_size (page_fields h) rest) by (done || by apply page_fields_typed). cbn [lift_err].
  generalize (zlen (fields_bytes 0 (page_fields h))). intros n. clear Hc.
  destruct h as [us cs [d|d]]; destruct Hh as (_ & _ & Hd); cbn [ph_page_type] in Hd; unfold page_fields, i32_field, t_field; cbn [ph_page_type ph_uncompressed_page_size ph_compressed_page_size].
  - destruct d as [nv e dl rl]. destruct Hd as (_ & [_ He] & [_ Hdl] & [_ Hrl]). cbn in *. find_fields. cbn.
    unfold encoding_field, i32_field, t_field. cbn [t_as_struct mbind option_bind]. find_fields. cbn.
    by rewrite He, Hdl, Hrl.
  - destruct d as [nv e]. destruct Hd as (_ & [_ He]). cbn in *. find_fields. cbn.
    unfold encoding_field, i32_field, t_field. cbn [t_as_struct mbind option_bind]. find_fields. cbn.
    by rewrite He.
Qed.
End roundtrip.

(** A file: its body, the metadata, its length and the magic bytes. *)
Definition file_bytes (body : bytes) (m : FileMetaData) : bytes :=
  body ++ fields_bytes 0 (file_meta_fields m) ++ le_bytes 4 (zlen (fields_bytes 0 (file_meta_fields m))) ++ MAGIC.

(** The footer of a file is parsed to the metadata it was written from. *)
Lemma parse_footer_ok `{Build} (value_size : Z) (body : bytes) (m : FileMetaData) :
  0 < value_size → file_meta_ok m → zlen (fields_bytes 0 (file_meta_fields m)) < 2 ^ 32 →
  2 * value_size * zlen (fields_bytes 0 (file_meta_fields m)) ≤ ISIZE_MAX →
  parse_footer value_size (file_bytes body m) = Ok m.
Proof.
  intros Hs Hm Hlen Hc. unfold parse_footer, file_bytes. set (meta := fields_bytes 0 (file_meta_fields m)) in *.
  set (n := le_bytes 4 (zlen meta)). assert (Hn : zlen n = 4) by (unfold n; by rewrite le_bytes_length).
  assert (Hl : zlen (body ++ meta ++ n ++ MAGIC) = zlen body + zlen meta + 8) by (rewrite !length_app; cbn [length MAGIC]; lia).
  rewrite Hl. unfold FOOTER_LEN. rewrite decide_False by lia.
  rewrite (assoc_L (++)), (get_from_app (body ++ meta) (n ++ MAGIC)) by (rewrite length_app; lia). cbn [index ok_or].
  assert (Hn4 : length n = 4%nat) by lia. rewrite drop_app_length' by done. rewrite decide_False by (intros E; by apply E).
  rewrite take_app_length' by done.
  assert (Hv : le_val n = zlen meta) by (unfold n; rewrite le_val_le_bytes; apply Z.mod_small; split; [lia|exact Hlen]).
  rewrite !Hv.
  rewrite decide_False by lia. rewrite <- (assoc_L (++)).
  rewrite (get_range_app3 body meta (n ++ MAGIC)) by lia. cbn [index ok_or].
  pose proof (decode_fields value_size (file_meta_fields m) [] (file_meta_typed m Hm) Hs) as Hd.
  rewrite app_nil_r in Hd. fold meta in Hd. rewrite Hd by done. cbn [lift_err fst]. by rewrite parse_file_meta_fields.
Qed.
