(* ===== verification/ParquetReader.v ===== *)
(** * Column values of a data page ([column/parquet/reader.rs])

    PLAIN, DELTA_BINARY_PACKED and dictionary-encoded values with their
    definition levels.  A [&mut &[u8]] that a reader advances is the slice it
    leaves.  Floats are their bits.  [num_values as usize] is below [2 ^ 31]
    or, for a negative count, near [2 ^ 64], so that the capacity of a vector
    of values overflows in the second case whatever the size of a value. *)

From S2P Require Import Prelude Text Machine Thrift ParquetMeta ParquetEncoding.

Inductive ReadError : Type :=
| ReadEncoding (e : EncodingError)
| ReadUnexpectedEof
| ReadInvalidUtf8
| DictionaryIndexOutOfRange (i : Z)
| UnsupportedNestedPhysicalType (t : PhysicalType).

Inductive LeafScalar : Type :=
| LInt32 (v : Z)
| LInt64 (v : Z)
| LFloat (bits : Z)
| LDouble (bits : Z)
| LBool (b : bool)
| LStr (s : list Z).

Record Int96 : Type := { i96_julian_day : Z; i96_time_nanos : Z }.

(** ** PLAIN values *)

Definition take_bytes (buf : bytes) (n : Z) : run ReadError (bytes * bytes) :=
  if decide (zlen buf < n) then Err (Fails ReadUnexpectedEof)
  else Ok (take (Z.to_nat n) buf, drop (Z.to_nat n) buf).

(** [take] of a fixed-width field has the width of the array. *)
Definition take_array (n : Z) (buf : bytes) : run ReadError (bytes * bytes) := take_bytes buf n.

Definition read_plain_i64 (buf : bytes) : run ReadError (Z * bytes) :=
  let? hr := take_array 8 buf in Ok (as_i64 (le_val hr.1), hr.2).

Definition read_plain_f64 (buf : bytes) : run ReadError (Z * bytes) :=
  let? hr := take_array 8 buf in Ok (le_val hr.1, hr.2).

Definition read_plain_string (buf : bytes) : run ReadError (list Z * bytes) :=
  let? hr := take_array 4 buf in
  let len := le_val hr.1 in
  let? br := take_bytes hr.2 len in
  let? s := fails_with (from_utf8 br.1) ReadInvalidUtf8 in
  Ok (s, br.2).

Definition read_plain_i32 (buf : bytes) : run ReadError (Z * bytes) :=
  let? hr := take_array 4 buf in Ok (as_i32 (le_val hr.1), hr.2).

Definition read_plain_f32 (buf : bytes) : run ReadError (Z * bytes) :=
  let? hr := take_array 4 buf in Ok (le_val hr.1, hr.2).

Definition read_plain_fixed_len_byte_array (len : Z) (buf : bytes) : run ReadError (bytes * bytes) := take_bytes buf len.

Definition read_plain_int96 (buf : bytes) : run ReadError (Int96 * bytes) :=
  let? nr := take_array 8 buf in
  let time_nanos := as_i64 (le_val nr.1) in
  let? jr := take_array 4 nr.2 in
  let julian_day := as_i32 (le_val jr.1) in
  Ok ({| i96_julian_day := julian_day; i96_time_nanos := time_nanos |}, jr.2).

(** ** Nested scalars: the slice and the bit cursor of booleans *)

Definition read_plain_scalar (buf : bytes) (physical_type : PhysicalType) (bit_pos : Z)
  : run ReadError (LeafScalar * (bytes * Z)) :=
  match physical_type with
  | PInt32 => let? vb := read_plain_i32 buf in Ok (LInt32 vb.1, (vb.2, bit_pos))
  | PInt64 => let? vb := read_plain_i64 buf in Ok (LInt64 vb.1, (vb.2, bit_pos))
  | PFloat => let? vb := read_plain_f32 buf in Ok (LFloat vb.1, (vb.2, bit_pos))
  | PDouble => let? vb := read_plain_f64 buf in Ok (LDouble vb.1, (vb.2, bit_pos))
  | PByteArray => let? vb := read_plain_string buf in Ok (LStr vb.1, (vb.2, bit_pos))
  | PBoolean =>
      let? byte := fails_with (head buf) ReadUnexpectedEof in
      let bit := Z.land (Z.shiftr byte (bit_pos mod 8)) 1 in
      let bit_pos := bit_pos + 1 in
      let buf := if decide (bit_pos mod 8 = 0) then drop 1 buf else buf in
      Ok (LBool (bool_decide (bit = 1)), (buf, bit_pos))
  | other => Err (Fails (UnsupportedNestedPhysicalType other))
  end.

(** [(0..n).map(read).collect()] over a reader with state. *)
Fixpoint read_n {St T} (read : St → run ReadError (T * St)) (n : nat) (st : St) : run ReadError (list T * St) :=
  match n with
  | O => Ok ([], st)
  | S n =>
      let? vs := read st in
      let? ls := read_n read n vs.2 in
      Ok (vs.1 :: ls.1, ls.2)
  end.

(** Bit [i] of a bit-packed boolean section. *)
Definition read_bit (values : bytes) (bit_pos : Z) : run ReadError (bool * Z) :=
  let? byte := fails_with (get_byte values (bit_pos / 8)) ReadUnexpectedEof in
  let bit := Z.land (Z.shiftr byte (bit_pos mod 8)) 1 in
  Ok (bool_decide (bit = 1), bit_pos + 1).

(** ** Dictionary pages *)

Definition decode_dictionary_int64 (dictionary_body : bytes) (num_values : Z) : run ReadError (list Z) :=
  let? r := read_n read_plain_i64 (Z.to_nat num_values) dictionary_body in Ok r.1.
Definition decode_dictionary_double (dictionary_body : bytes) (num_values : Z) : run ReadError (list Z) :=
  let? r := read_n read_plain_f64 (Z.to_nat num_values) dictionary_body in Ok r.1.
Definition decode_dictionary_boolean (dictionary_body : bytes) (num_values : Z) : run ReadError (list bool) :=
  let? r := read_n (read_bit dictionary_body) (Z.to_nat (as_usize num_values)) 0 in Ok r.1.
Definition decode_dictionary_string (dictionary_body : bytes) (num_values : Z) : run ReadError (list (list Z)) :=
  let? r := read_n read_plain_string (Z.to_nat num_values) dictionary_body in Ok r.1.
Definition decode_dictionary_int32 (dictionary_body : bytes) (num_values : Z) : run ReadError (list Z) :=
  let? r := read_n read_plain_i32 (Z.to_nat num_values) dictionary_body in Ok r.1.
Definition decode_dictionary_float (dictionary_body : bytes) (num_values : Z) : run ReadError (list Z) :=
  let? r := read_n read_plain_f32 (Z.to_nat num_values) dictionary_body in Ok r.1.
Definition decode_dictionary_fixed_len_byte_array (type_length : Z) (dictionary_body : bytes) (num_values : Z)
  : run ReadError (list bytes) :=
  let? r := read_n (read_plain_fixed_len_byte_array type_length) (Z.to_nat num_values) dictionary_body in Ok r.1.
Definition decode_dictionary_int96 (dictionary_body : bytes) (num_values : Z) : run ReadError (list Int96) :=
  let? r := read_n read_plain_int96 (Z.to_nat num_values) dictionary_body in Ok r.1.

(** ** Levels *)

Section reader.
Context `{Build}.

Definition read_level_section (buf : bytes) (max_level num_values : Z) : run ReadError (list Z * bytes) :=
  let? len_bytes := fails_with (get_range buf 0 4) ReadUnexpectedEof in
  let len := le_val len_bytes in
  let? levels_bytes := fails_with (get_range buf 4 (4 + len)) ReadUnexpectedEof in
  let bit_width := bit_width_for_max_level max_level in
  let? levels := lift_err ReadEncoding (decode_hybrid_rle_bitpacked levels_bytes bit_width num_values) in
  let? rest := index (get_from buf (4 + len)) in
  Ok (levels, rest).

Definition split_definition_levels (page_body : bytes) (header : DataPageHeader) (max_def_level : Z)
  : run ReadError (list Z * bytes) :=
  if decide (max_def_level = 0) then Ok ([], page_body)
  else read_level_section page_body max_def_level (as_usize (dp_num_values header)).

Definition split_rep_def_levels (page_body : bytes) (header : DataPageHeader) (max_rep_level max_def_level : Z)
  : run ReadError (list Z * list Z * bytes) :=
  let num_values := as_usize (dp_num_values header) in
  let? rb := (if decide (max_rep_level = 0) then Ok ([], page_body)
              else read_level_section page_body max_rep_level num_values) in
  let '(rep_levels, buf) := rb in
  let? db := (if decide (max_def_level = 0) then Ok ([], buf)
              else read_level_section buf max_def_level num_values) in
  let '(def_levels, buf) := db in
  Ok (rep_levels, def_levels, buf).

(** [present] for every slot of the page: [vec![true; n]] or the mask. *)
Definition presents (header : DataPageHeader) (levels : list Z) (max_def_level : Z) : run ReadError (list bool) :=
  let num_values := as_usize (dp_num_values header) in
  if decide (levels = []) then
    let? _ := with_capacity 1 num_values in
    Ok (replicate (Z.to_nat num_values) true)
  else Ok (null_mask levels max_def_level).

(** One value for each present slot. *)
Fixpoint fill {St T} (read : St → run ReadError (T * St)) (mask : list bool) (st : St) : run ReadError (list (option T)) :=
  match mask with
  | [] => Ok []
  | true :: mask =>
      let? vs := read st in
      let? out := fill read mask vs.2 in
      Ok (Some vs.1 :: out)
  | false :: mask =>
      let? out := fill read mask st in
      Ok (None :: out)
  end.

Definition assemble {St T} (header : DataPageHeader) (definition_levels : list Z) (max_def_level : Z) (values : St)
    (read_value : St → run ReadError (T * St)) : run ReadError (list (option T)) :=
  let num_values := as_usize (dp_num_values header) in
  let? _ := with_capacity 1 num_values in
  if decide (definition_levels = []) then fill read_value (replicate (Z.to_nat num_values) true) values
  else fill read_value (null_mask definition_levels max_def_level) values.

(** ** Dictionary indices *)

Definition read_dictionary_indices (data : bytes) (num_indices : Z) : run ReadError (list Z) :=
  let? bit_width := fails_with (head data) ReadUnexpectedEof in
  let? rest := fails_with (get_from data 1) ReadUnexpectedEof in
  lift_err ReadEncoding (decode_hybrid_rle_bitpacked rest bit_width num_indices).

(** [idx_iter.next()]. *)
Definition next_of {T} (l : list T) : run ReadError (T * list T) :=
  match l with [] => Err (Fails ReadUnexpectedEof) | x :: l => Ok (x, l) end.

(** The next index, resolved against the dictionary. *)
Definition next_entry {T} (dictionary : list T) (indices : list Z) : run ReadError (T * list Z) :=
  let? il := next_of indices in
  let? value := fails_with (dictionary !! Z.to_nat il.1) (DictionaryIndexOutOfRange il.1) in
  Ok (value, il.2).

Definition assemble_dictionary {T} (header : DataPageHeader) (definition_levels : list Z) (max_def_level : Z)
    (indices : list Z) (dictionary : list T) : run ReadError (list (option T)) :=
  let num_values := as_usize (dp_num_values header) in
  let? _ := with_capacity 1 num_values in
  let? mask := presents header definition_levels max_def_level in
  fill (next_entry dictionary) mask indices.

Definition present_count (header : DataPageHeader) (definition_levels : list Z) (max_def_level : Z) : Z :=
  if decide (definition_levels = []) then as_usize (dp_num_values header)
  else zlen (filter (λ p, p = true) (null_mask definition_levels max_def_level)).

Definition read_dictionary_index_column (page_body : bytes) (header : DataPageHeader) (max_def_level : Z)
  : run ReadError (list (option Z)) :=
  if decide (dp_num_values header = 0) then Ok []
  else
    let? li := split_definition_levels page_body header max_def_level in
    let '(levels, index_bytes) := li in
    let? indices := read_dictionary_indices index_bytes (present_count header levels max_def_level) in
    let? mask := presents header levels max_def_level in
    fill next_of mask indices.

(** ** The typed readers *)

(** Levels, then PLAIN values: the body of every [read_*_column]. *)
Definition plain_column {T} (read_value : bytes → run ReadError (T * bytes))
    (page_body : bytes) (header : DataPageHeader) (max_def_level : Z) : run ReadError (list (option T)) :=
  if decide (dp_num_values header = 0) then Ok []
  else
    let? lv := split_definition_levels page_body header max_def_level in
    assemble header lv.1 max_def_level lv.2 read_value.

(** Levels, then indices: the body of every [read_*_column_dictionary]. *)
Definition dictionary_column {T} (page_body : bytes) (header : DataPageHeader) (max_def_level : Z) (dictionary : list T)
  : run ReadError (list (option T)) :=
  if decide (dp_num_values header = 0) then Ok []
  else
    let? li := split_definition_levels page_body header max_def_level in
    let '(levels, index_bytes) := li in
    let? indices := read_dictionary_indices index_bytes (present_count header levels max_def_level) in
    assemble_dictionary header levels max_def_level indices dictionary.

Definition read_int64_column (page_body : bytes) (header : DataPageHeader) (max_def_level : Z)
  : run ReadError (list (option Z)) :=
  if decide (dp_num_values header = 0) then Ok []
  else
    let? lv := split_definition_levels page_body header max_def_level in
    let '(levels, values) := lv in
    if decide (dp_encoding header = EDeltaBinaryPacked) then
      let? decoded := lift_err ReadEncoding (decode_delta_binary_packed values) in
      let? mask := presents header levels max_def_level in
      fill next_of mask decoded
    else assemble header levels max_def_level values read_plain_i64.

Definition read_int64_column_dictionary := dictionary_column (T := Z).
Definition read_double_column := plain_column read_plain_f64.
Definition read_double_column_dictionary := dictionary_column (T := Z).

Definition read_boolean_column (page_body : bytes) (header : DataPageHeader) (max_def_level : Z)
  : run ReadError (list (option bool)) :=
  if decide (dp_num_values header = 0) then Ok []
  else
    let? lv := split_definition_levels page_body header max_def_level in
    assemble header lv.1 max_def_level 0 (read_bit lv.2).

Definition read_boolean_column_dictionary := dictionary_column (T := bool).
Definition read_string_column := plain_column read_plain_string.
Definition read_string_column_dictionary := dictionary_column (T := list Z).
Definition read_int32_column := plain_column read_plain_i32.
Definition read_int32_column_dictionary := dictionary_column (T := Z).
Definition read_float_column := plain_column read_plain_f32.
Definition read_float_column_dictionary := dictionary_column (T := Z).
Definition read_fixed_len_byte_array_column (type_length : Z) := plain_column (read_plain_fixed_len_byte_array type_length).
Definition read_fixed_len_byte_array_column_dictionary := dictionary_column (T := bytes).
Definition read_int96_column := plain_column read_plain_int96.
Definition read_int96_column_dictionary := dictionary_column (T := Int96).
End reader.

(** ** PLAIN codecs *)

(** What a PLAIN reader promises about the bytes of a value. *)
Class PlainCodec {T} (read : bytes → run ReadError (T * bytes)) (write : T → bytes) (ok : T → Prop) : Prop :=
  plain_read : ∀ t r, ok t → read (write t ++ r) = Ok (t, r).

Lemma plain_take_app s r n : n = zlen s → take_bytes (s ++ r) n = Ok (s, r).
Proof.
  intros ->. unfold take_bytes. rewrite decide_False by (rewrite length_app; lia).
  by rewrite Nat2Z.id, take_app_length, drop_app_length.
Qed.

Lemma take_le n k v r : k = Z.of_nat n → take_array k (le_bytes n v ++ r) = Ok (le_bytes n v, r).
Proof. intros ->. apply plain_take_app. by rewrite le_bytes_length. Qed.

Lemma le_mod n v : le_val (le_bytes n v) = v mod 2 ^ (8 * Z.of_nat n).
Proof. apply le_val_le_bytes. Qed.

#[global] Instance plain_i64 : PlainCodec read_plain_i64 (le_bytes 8) i64_ok.
Proof.
  intros v r Hv. unfold read_plain_i64. rewrite (take_le 8 8 v r eq_refl). cbn [fst snd]. rewrite le_mod.
  unfold as_i64. change (2 ^ (8 * Z.of_nat 8)) with (2 ^ 64). rewrite to_signed_unsigned; [done|lia|exact Hv].
Qed.

#[global] Instance plain_i32 : PlainCodec read_plain_i32 (le_bytes 4) i32_ok.
Proof.
  intros v r Hv. unfold read_plain_i32. rewrite (take_le 4 4 v r eq_refl). cbn [fst snd]. rewrite le_mod.
  unfold as_i32. change (2 ^ (8 * Z.of_nat 4)) with (2 ^ 32). rewrite to_signed_unsigned; [done|lia|exact Hv].
Qed.

#[global] Instance plain_f64 : PlainCodec read_plain_f64 (le_bytes 8) u64_ok.
Proof.
  intros v r Hv. unfold read_plain_f64. rewrite (take_le 8 8 v r eq_refl). cbn [fst snd]. rewrite le_mod.
  by rewrite Z.mod_small by exact Hv.
Qed.

#[global] Instance plain_f32 : PlainCodec read_plain_f32 (le_bytes 4) u32_ok.
Proof.
  intros v r Hv. unfold read_plain_f32. rewrite (take_le 4 4 v r eq_refl). cbn [fst snd]. rewrite le_mod.
  by rewrite Z.mod_small by exact Hv.
Qed.

Definition write_string (s : list Z) : bytes := le_bytes 4 (zlen (as_bytes s)) ++ as_bytes s.

#[global] Instance plain_string : PlainCodec read_plain_string write_string (λ s, str_ok s ∧ zlen (as_bytes s) < 2 ^ 32).
Proof.
  intros s r [Hs Hl]. unfold read_plain_string, write_string. rewrite <- (assoc_L (++)), (take_le 4 4) by done. cbn [fst snd]. rewrite le_mod.
  rewrite Z.mod_small by (split; [lia|exact Hl]). rewrite plain_take_app by done. cbn [fst snd].
  by rewrite from_utf8_as_bytes.
Qed.

#[global] Instance plain_fixed len : PlainCodec (read_plain_fixed_len_byte_array len) id (λ s, zlen s = len).
Proof. intros s r Hs. by apply plain_take_app. Qed.

Definition write_int96 (v : Int96) : bytes := le_bytes 8 (i96_time_nanos v) ++ le_bytes 4 (i96_julian_day v).

#[global] Instance plain_int96 : PlainCodec read_plain_int96 write_int96 (λ v, i64_ok (i96_time_nanos v) ∧ i32_ok (i96_julian_day v)).
Proof.
  intros [jd ns] r [Hn Hj]. unfold read_plain_int96, write_int96. cbn [i96_time_nanos i96_julian_day] in *.
  rewrite <- (assoc_L (++)), (take_le 8 8) by done. cbn [fst snd]. rewrite (take_le 4 4) by done. cbn [fst snd]. rewrite !le_mod.
  unfold as_i64, as_i32. change (2 ^ (8 * Z.of_nat 8)) with (2 ^ 64). change (2 ^ (8 * Z.of_nat 4)) with (2 ^ 32).
  rewrite !to_signed_unsigned; [done|lia|exact Hn|lia|exact Hj].
Qed.

(** ** Reading a sequence *)

(** The state yields these values one after the other. *)
Inductive reads {St T} (read : St → run ReadError (T * St)) : St → list T → Prop :=
| reads_nil st : reads read st []
| reads_cons st v st' vs : read st = Ok (v, st') → reads read st' vs → reads read st (v :: vs).

Definition somes {T} (vs : list (option T)) : list T := omap id vs.
Definition mask_of {T} (vs : list (option T)) : list bool := map (λ o, match o with Some _ => true | None => false end) vs.

Lemma fill_ok {St T} (read : St → run ReadError (T * St)) vs st :
  reads read st (somes vs) → fill read (mask_of vs) st = Ok vs.
Proof.
  unfold somes, mask_of. revert st. induction vs as [|[v|] vs IH]; intros st Hr; cbn in *; [done|..].
  - inversion Hr as [|? ? st' ? Hv Hr']; subst. rewrite Hv. cbn. by rewrite IH.
  - by rewrite IH.
Qed.

Lemma read_n_ok {St T} (read : St → run ReadError (T * St)) vs st :
  reads read st vs → ∃ st', read_n read (length vs) st = Ok (vs, st').
Proof.
  induction 1 as [|st v st' vs Hv Hr [st'' IH]]; cbn; [eauto|]. rewrite Hv. cbn. rewrite IH. eauto.
Qed.

Lemma reads_plain {T} (read : bytes → run ReadError (T * bytes)) write ok `{!PlainCodec read write ok} vs r :
  Forall ok vs → reads read (concat (map write vs) ++ r) vs.
Proof.
  induction 1 as [|v vs Hv HF IH]; cbn; [constructor|]. rewrite <- (assoc_L (++)).
  econstructor; [by apply (plain_read v)|done].
Qed.

Lemma reads_next {T} (vs : list T) r : reads next_of (vs ++ r) vs.
Proof. induction vs as [|v vs IH]; cbn; [constructor|]. by econstructor. Qed.

Lemma reads_entries {T} (dict : list T) idx vs r :
  Forall2 (λ i v, 0 ≤ i ∧ dict !! Z.to_nat i = Some v) idx vs → reads (next_entry dict) (idx ++ r) vs.
Proof.
  induction 1 as [|i v idx vs [Hi Hv] HF IH]; cbn; [constructor|]. econstructor; [|exact IH].
  unfold next_entry. cbn. by rewrite Hv.
Qed.

Lemma reads_bits bs vs (p : Z) :
  bytes_ok bs → 0 ≤ p → p + zlen vs ≤ 8 * zlen bs →
  (∀ i : nat, (i < length vs)%nat → vs !! i = Some (bool_decide ((le_val bs / 2 ^ (p + Z.of_nat i)) mod 2 = 1))) →
  reads (read_bit bs) p vs.
Proof.
  intros Hb. revert p. induction vs as [|v vs IH]; intros p Hp Hl Hv; [constructor|]. cbn [length] in Hl.
  destruct (extract_bit bs p Hb ltac:(lia)) as (byte & Hg & Hx).
  econstructor.
  - unfold read_bit. rewrite Hg. cbn [fails_with ok_or]. rewrite Hx. specialize (Hv 0%nat ltac:(cbn; lia)).
    cbn in Hv. rewrite Z.add_0_r in Hv. injection Hv as ->. done.
  - apply IH; [lia|lia|]. intros i Hi. specialize (Hv (S i) ltac:(cbn; lia)). change ((v :: vs) !! S i) with (vs !! i) in Hv.
    rewrite Hv. by replace (p + Z.of_nat (S i)) with (p + 1 + Z.of_nat i) by lia.
Qed.

Lemma reads_bits_app bs p vs rest : reads (read_bit bs) p vs → reads (read_bit (bs ++ rest)) p vs.
Proof.
  induction 1 as [|p b p' vs Hb Hr IH]; [constructor|]. unfold read_bit in Hb.
  destruct (get_byte bs (p / 8)) as [byte|] eqn:Hg; cbn [fails_with ok_or] in Hb; simplify_eq.
  econstructor; [|exact IH]. unfold read_bit. rewrite get_byte_app_l, Hg; [done|].
  unfold get_byte in Hg. case_decide; [lia|done].
Qed.

(** Packed booleans are read back one by one. *)
Lemma packed_bits_read bools rest : reads (read_bit (pack 1 (map Z.b2z bools) ++ rest)) 0 bools.
Proof.
  set (bits := map Z.b2z bools). set (packed := pack 1 bits).
  assert (Hbits : Forall (λ v, 0 ≤ v < 2 ^ 1) bits) by (apply Forall_fmap, Forall_true; intros []; cbn; lia).
  assert (Hpl : zlen packed = div_ceil (zlen bools) 8).
  { unfold packed. rewrite pack_length by lia. unfold bits. rewrite length_map. by rewrite Z.mul_1_l. }
  destruct (div_ceil_8 (zlen bools)) as [? ?]; [lia|].
  apply reads_bits_app, reads_bits; [apply le_bytes_ok|lia|lia|]. intros i Hi. unfold packed. rewrite pack_val by (done || lia).
  destruct (lookup_lt_is_Some_2 bools i Hi) as [b Hb]. rewrite Hb. f_equal.
  assert (Hbi : bits !! i = Some (Z.b2z b)) by (unfold bits; change (map ?f) with (fmap (M := list) f); by rewrite list_lookup_fmap, Hb).
  pose proof (packed_val_nth 1 bits i _ ltac:(lia) Hbits Hbi) as Hv. rewrite Z.mul_1_l in Hv. change (2 ^ 1) with 2 in Hv.
  rewrite Z.add_0_l, Hv. by destruct b.
Qed.

(** ** Pages *)

(** The level section of a page with [n] slots: nothing when the column is
    required, else a hybrid stream of [n] levels with its length. *)
Definition level_bytes (max_level n : Z) (levels : list Z) (bs : bytes) : Prop :=
  if decide (max_level = 0) then levels = [] ∧ bs = []
  else
    let w := bit_width_for_max_level max_level in
    ∃ runs rest, Forall (run_ok w) runs ∧ n ≤ zlen (hybrid_values runs) ∧ levels = take (Z.to_nat n) (hybrid_values runs) ∧
      zlen (hybrid_bytes w runs ++ rest) < 2 ^ 32 ∧
      bs = le_bytes 4 (zlen (hybrid_bytes w runs ++ rest)) ++ hybrid_bytes w runs ++ rest.

(** The level of each slot says whether it has a value. *)
Definition slots {T} (max_level : Z) (levels : list Z) (vs : list (option T)) : Prop :=
  if decide (max_level = 0) then Forall is_Some vs
  else Forall2 (λ l o, l = max_level ↔ is_Some o) levels vs.

Lemma bit_width_bounds m : 0 < m < 2 ^ 32 → 0 < bit_width_for_max_level m ≤ 32.
Proof.
  intros Hm. unfold bit_width_for_max_level. rewrite decide_False by lia. pose proof (Z.log2_nonneg m).
  assert (Z.log2 m < 32) by (apply Z.log2_lt_pow2; lia). lia.
Qed.

Lemma usize_small n : 0 ≤ n < 2 ^ 31 → as_usize n = n.
Proof. intros. unfold as_usize. apply wrap64_small. change (2 ^ 31) with 2147483648 in *. mlia. Qed.

Section pages.
Context `{Build}.

Lemma level_section_ok m n levels bs rest :
  m ≠ 0 → 0 ≤ m < 2 ^ 32 → 0 ≤ n < 2 ^ 31 → level_bytes m n levels bs → read_level_section (bs ++ rest) m n = Ok (levels, rest).
Proof.
  intros Hm0 Hm Hn Hl. unfold level_bytes in Hl. rewrite decide_False in Hl by done.
  destruct Hl as (runs & tl & Hr & Hlen & -> & Hsz & ->). set (w := bit_width_for_max_level m) in *. set (lv := hybrid_bytes w runs ++ tl) in *.
  unfold read_level_section. rewrite <- (assoc_L (++)).
  pose proof (get_range_app3 [] (le_bytes 4 (zlen lv)) (lv ++ rest) 0 4 eq_refl ltac:(by rewrite le_bytes_length)) as Hg.
  cbn [app] in Hg. rewrite Hg. cbn [fails_with ok_or]. rewrite le_mod. rewrite Z.mod_small by (split; [lia|exact Hsz]).
  rewrite (get_range_app3 (le_bytes 4 (zlen lv)) lv rest) by (rewrite le_bytes_length; lia). cbn [fails_with ok_or].
  fold w. change (2 ^ 31) with 2147483648 in *. change (2 ^ 32) with 4294967296 in Hsz.
  rewrite (decode_hybrid w n runs tl); [|apply bit_width_bounds; lia|done|lia|mlia|fold lv; change (2 ^ 60) with 1152921504606846976; lia].
  cbn [lift_err]. rewrite (assoc_L (++)), get_from_app by (rewrite length_app, le_bytes_length; lia). done.
Qed.

Lemma split_levels_ok m levels bs rest header :
  0 ≤ m < 2 ^ 32 → 0 ≤ dp_num_values header < 2 ^ 31 → level_bytes m (dp_num_values header) levels bs →
  split_definition_levels (bs ++ rest) header m = Ok (levels, rest).
Proof.
  intros Hm Hn Hl. unfold split_definition_levels. case_decide as E.
  - unfold level_bytes in Hl. rewrite decide_True in Hl by done. by destruct Hl as [-> ->].
  - rewrite usize_small by done. by apply level_section_ok.
Qed.

Lemma slots_mask {T} m levels (vs : list (option T)) : m ≠ 0 → slots m levels vs → null_mask levels m = mask_of vs.
Proof.
  intros Hm. unfold slots. rewrite decide_False by done. unfold null_mask, mask_of.
  induction 1 as [|l o levels vs Hlo HF IH]; [done|]. cbn. rewrite IH. f_equal.
  destruct o; [rewrite bool_decide_eq_true_2; [done|naive_solver]|].
  rewrite bool_decide_eq_false_2; [done|]. intros E. apply Hlo in E. by destruct E.
Qed.

Lemma all_present {T} (vs : list (option T)) : Forall is_Some vs → replicate (length vs) true = mask_of vs.
Proof. unfold mask_of. induction 1 as [|o vs [v ->] HF IH]; [done|]. cbn. by rewrite IH. Qed.

Lemma slots_levels {T} m n levels bs (vs : list (option T)) :
  0 < n → zlen vs = n → level_bytes m n levels bs → slots m levels vs →
  (m = 0 ∧ levels = [] ∧ Forall is_Some vs) ∨ (m ≠ 0 ∧ levels ≠ []).
Proof.
  intros Hn Hvs Hl Hs. unfold level_bytes, slots in *. case_decide as E; [left; naive_solver|]. right. split; [done|].
  apply Forall2_length in Hs. intros ->. cbn in Hs. lia.
Qed.

Lemma presents_ok {T} m levels bs (vs : list (option T)) header :
  0 < dp_num_values header < 2 ^ 31 → zlen vs = dp_num_values header → level_bytes m (dp_num_values header) levels bs →
  slots m levels vs → presents header levels m = Ok (mask_of vs).
Proof.
  intros Hn Hvs Hl Hs. unfold presents. rewrite usize_small by lia. change (2 ^ 31) with 2147483648 in *.
  destruct (slots_levels _ _ _ _ _ (proj1 Hn) Hvs Hl Hs) as [(-> & -> & HF)|[Hm Hne]].
  - rewrite decide_True by done. rewrite with_capacity_ok by mlia. rewrite <- Hvs, Nat2Z.id. by rewrite all_present.
  - rewrite decide_False by done. by rewrite (slots_mask m levels vs).
Qed.

Lemma assemble_ok {St T} m levels bs (vs : list (option T)) header (read : St → run ReadError (T * St)) st :
  0 < dp_num_values header < 2 ^ 31 → zlen vs = dp_num_values header → level_bytes m (dp_num_values header) levels bs →
  slots m levels vs → reads read st (somes vs) → assemble header levels m st read = Ok vs.
Proof.
  intros Hn Hvs Hl Hs Hr. unfold assemble. rewrite usize_small by lia. change (2 ^ 31) with 2147483648 in *.
  rewrite with_capacity_ok by mlia.
  destruct (slots_levels _ _ _ _ _ (proj1 Hn) Hvs Hl Hs) as [(-> & -> & HF)|[Hm Hne]].
  - rewrite decide_True by done. rewrite <- Hvs, Nat2Z.id. rewrite all_present by done. by apply fill_ok.
  - rewrite decide_False by done. rewrite (slots_mask m levels vs) by done. by apply fill_ok.
Qed.

Lemma count_present {T} m levels bs (vs : list (option T)) header :
  0 < dp_num_values header < 2 ^ 31 → zlen vs = dp_num_values header → level_bytes m (dp_num_values header) levels bs →
  slots m levels vs → present_count header levels m = zlen (somes vs).
Proof.
  intros Hn Hvs Hl Hs. unfold present_count. rewrite usize_small by lia.
  destruct (slots_levels _ _ _ _ _ (proj1 Hn) Hvs Hl Hs) as [(-> & -> & HF)|[Hm Hne]].
  - rewrite decide_True by done. rewrite <- Hvs. f_equal. clear -HF. unfold somes. induction HF as [|o vs [v ->] HF IH]; [done|]. cbn. by rewrite IH.
  - rewrite decide_False by done. rewrite (slots_mask m levels vs) by done. f_equal. clear.
    unfold mask_of, somes. induction vs as [|[v|] vs IH]; [done|..]; cbn [map omap list_omap id].
    + rewrite filter_cons_True by done. cbn. by rewrite IH.
    + by rewrite filter_cons_False by done.
Qed.
End pages.

Section columns.
Context `{Build}.
Context {T : Type} (m : Z) (header : DataPageHeader) (levels : list Z) (bs : bytes) (vs : list (option T)).
Hypothesis Hm : 0 ≤ m < 2 ^ 32.
Hypothesis Hn : 0 ≤ dp_num_values header < 2 ^ 31.
Hypothesis Hlen : zlen vs = dp_num_values header.
Hypothesis Hlevels : level_bytes m (dp_num_values header) levels bs.
Hypothesis Hslots : slots m levels vs.

Lemma empty_page : dp_num_values header = 0 → vs = [].
Proof using Hlen. clear -Hlen. intros E. rewrite E in Hlen. destruct vs; [done|cbn in Hlen; lia]. Qed.

(** Levels and a section the state of the reader starts at. *)
Lemma column_ok {St} (read : bytes → St → run ReadError (T * St)) (start : bytes → St) section :
  reads (read section) (start section) (somes vs) →
  (if decide (dp_num_values header = 0) then Ok []
   else
     let? lv := split_definition_levels (bs ++ section) header m in
     assemble header lv.1 m (start lv.2) (read lv.2)) = Ok vs.
Proof using All.
  intros Hr. case_decide as E; [by rewrite empty_page|]. rewrite (split_levels_ok m levels bs section) by done. cbn [fst snd].
  apply (assemble_ok m levels bs); [lia|done..].
Qed.

Lemma plain_column_ok (read : bytes → run ReadError (T * bytes)) write ok `{!PlainCodec read write ok} rest :
  Forall ok (somes vs) → plain_column read (bs ++ concat (map write (somes vs)) ++ rest) header m = Ok vs.
Proof using All.
  intros Hok. apply (column_ok (λ _, read) id). by eapply reads_plain.
Qed.

(** The indices of the present slots, after the byte of their width; width
    zero stands for a dictionary of one value. *)
Definition index_bytes (idx : list Z) (section : bytes) : Prop :=
  (∃ rest, section = 0 :: rest ∧ Forall (λ i, i = 0) idx) ∨
  ∃ w runs rest, section = w :: hybrid_bytes w runs ++ rest ∧ 0 < w ≤ 32 ∧ Forall (run_ok w) runs ∧
    zlen idx ≤ zlen (hybrid_values runs) ∧ idx = take (length idx) (hybrid_values runs) ∧ zlen section ≤ 2 ^ 60.

Lemma read_indices_ok idx section :
  index_bytes idx section → zlen idx < 2 ^ 31 → read_dictionary_indices section (zlen idx) = Ok idx.
Proof using.
  clear. intros Hi Hl. change (2 ^ 31) with 2147483648 in Hl. unfold read_dictionary_indices.
  assert (Hfrom : ∀ b r, get_from (b :: r) 1 = Some r) by (intros b r; apply (get_from_app [b] r 1); done).
  destruct Hi as [(rest & -> & Hz)|(w & runs & rest & -> & Hw & Hr & Hn & He & Hsz)]; rewrite Hfrom; cbn [head fails_with ok_or].
  - unfold decode_hybrid_rle_bitpacked. rewrite with_capacity_ok by mlia. rewrite decide_True by done. cbn [lift_err].
    f_equal. rewrite Nat2Z.id. clear -Hz. induction Hz as [|i idx -> Hz IH]; [done|]. cbn. by rewrite IH.
  - rewrite (decode_hybrid w (zlen idx) runs rest); [|done|done|lia|mlia|cbn [length] in Hsz; lia].
    cbn [lift_err]. rewrite Nat2Z.id. by rewrite <- He.
Qed.

Lemma somes_length : (length (somes vs) ≤ length vs)%nat.
Proof using. clear. unfold somes. induction vs as [|[v|] l IH]; cbn; lia. Qed.

Lemma dictionary_column_ok (dict : list T) idx section :
  index_bytes idx section → Forall2 (λ i v, 0 ≤ i ∧ dict !! Z.to_nat i = Some v) idx (somes vs) →
  dictionary_column (bs ++ section) header m dict = Ok vs.
Proof using All.
  intros Hi Hd. unfold dictionary_column. case_decide as E; [by rewrite empty_page|].
  rewrite (split_levels_ok m levels bs section) by done. rewrite (count_present m levels bs vs) by (done || lia).
  pose proof (Forall2_length _ _ _ Hd) as Hl. pose proof somes_length as Hsl. rewrite <- Hl.
  rewrite (read_indices_ok idx section) by (done || lia). unfold assemble_dictionary.
  rewrite usize_small by lia. change (2 ^ 31) with 2147483648 in *. rewrite with_capacity_ok by mlia.
  rewrite (presents_ok m levels bs vs) by (done || (change (2 ^ 31) with 2147483648; lia)).
  apply fill_ok. rewrite <- (app_nil_r idx). by apply reads_entries.
Qed.
End columns.

Section typed_columns.
Context `{Build}.
Context (m : Z) (header : DataPageHeader) (levels : list Z) (bs : bytes).
Hypothesis Hm : 0 ≤ m < 2 ^ 32.
Hypothesis Hn : 0 ≤ dp_num_values header < 2 ^ 31.
Hypothesis Hlevels : level_bytes m (dp_num_values header) levels bs.

Lemma boolean_column_ok (vs : list (option bool)) rest :
  zlen vs = dp_num_values header → slots m levels vs →
  read_boolean_column (bs ++ pack 1 (map Z.b2z (somes vs)) ++ rest) header m = Ok vs.
Proof using Hm Hn Hlevels.
  intros Hlen Hs. apply (column_ok m header levels bs vs Hm Hn Hlen Hlevels Hs (λ section, read_bit section) (λ _, 0)).
  apply packed_bits_read.
Qed.

Lemma delta_column_ok (vs : list (option Z)) mpb vpm total first blocks rest :
  zlen vs = dp_num_values header → slots m levels vs → dp_encoding header = EDeltaBinaryPacked →
  1 ≤ vpm → 1 ≤ mpb → 8 * (vpm * mpb) ≤ ISIZE_MAX → i64_ok first → Forall (block_ok mpb vpm) blocks →
  1 ≤ total ≤ 1 + vpm * mpb * zlen blocks → 8 * total ≤ ISIZE_MAX →
  zlen (delta_bytes mpb vpm total first blocks ++ rest) ≤ 2 ^ 60 → (overflow_checks = true → blocks_fit first blocks) →
  somes vs = take (length (somes vs)) (take (Z.to_nat total) (first :: delta_sums first (concat (map block_deltas blocks)))) →
  read_int64_column (bs ++ delta_bytes mpb vpm total first blocks ++ rest) header m = Ok vs.
Proof using Hm Hn Hlevels.
  intros Hlen Hs He ? ? ? ? ? ? ? ? ? Hvs. unfold read_int64_column. case_decide as E; [by rewrite (empty_page header vs Hlen E)|].
  rewrite (split_levels_ok m levels bs) by done. rewrite decide_True by done.
  rewrite decode_delta by done. cbn [lift_err]. rewrite (presents_ok m levels bs vs) by (done || lia).
  apply fill_ok. set (all := take (Z.to_nat total) _) in *.
  rewrite <- (take_drop (length (somes vs)) all), <- Hvs. apply reads_next.
Qed.

Lemma int64_plain_ok (vs : list (option Z)) rest :
  zlen vs = dp_num_values header → slots m levels vs → dp_encoding header ≠ EDeltaBinaryPacked → Forall i64_ok (somes vs) →
  read_int64_column (bs ++ concat (map (le_bytes 8) (somes vs)) ++ rest) header m = Ok vs.
Proof using Hm Hn Hlevels.
  intros Hlen Hs He Hok. pose proof (plain_column_ok m header levels bs vs Hm Hn Hlen Hlevels Hs read_plain_i64 (le_bytes 8) i64_ok rest Hok) as Hp.
  unfold read_int64_column. unfold plain_column in Hp. case_decide; [done|].
  rewrite (split_levels_ok m levels bs) in Hp |- * by done. by rewrite decide_False.
Qed.
End typed_columns.
