(* ===== verification/SchemaTree.v ===== *)
(** * The schema tree ([column/parquet/schema_tree.rs])

    The flattened schema list of the footer turned into a tree with the
    definition and repetition levels of every node. *)

From S2P Require Import Prelude Text Machine Thrift ParquetMeta.

Inductive SchemaNode : Type :=
| Node (name : list Z) (element : SchemaElement) (children : list SchemaNode) (max_def_level max_rep_level : Z).

Definition sn_name (n : SchemaNode) : list Z := let 'Node a _ _ _ _ := n in a.
Definition sn_element (n : SchemaNode) : SchemaElement := let 'Node _ e _ _ _ := n in e.
Definition sn_children (n : SchemaNode) : list SchemaNode := let 'Node _ _ c _ _ := n in c.
Definition sn_max_def_level (n : SchemaNode) : Z := let 'Node _ _ _ d _ := n in d.
Definition sn_max_rep_level (n : SchemaNode) : Z := let 'Node _ _ _ _ r := n in r.

Definition is_leaf (n : SchemaNode) : bool := match sn_children n with [] => true | _ => false end.

(** [collect_leaves]: the leaves in column order. *)
Fixpoint leaves (n : SchemaNode) : list SchemaNode :=
  match n with
  | Node _ _ [] _ _ => [n]
  | Node _ _ children _ _ => concat (map leaves children)
  end.

(** [format!("{path}.{name}")]. *)
Definition join_path (path name : list Z) : list Z := path ++ 46 :: name.

Fixpoint collect_paths (n : SchemaNode) (path : list Z) : list (list Z) :=
  match n with
  | Node _ _ [] _ _ => [path]
  | Node _ _ children _ _ => concat (map (λ c, collect_paths c (join_path path (sn_name c))) children)
  end.

Definition leaf_paths (root : SchemaNode) : list (list Z) :=
  concat (map (λ c, collect_paths c (sn_name c)) (sn_children root)).

(** [build_node] and its loop over the children; the position in the schema
    list is threaded.  [schema[*idx]] panics past the end, and so does the
    capacity of a negative number of children. *)
Fixpoint build_node (fuel : nat) (schema : list SchemaElement) (idx parent_def parent_rep : Z) (is_root : bool)
  : run () (SchemaNode * Z) :=
  match fuel with
  | O => Err OutOfFuel
  | S fuel =>
      let? element := index (schema !! Z.to_nat idx) in
      let idx := idx + 1 in
      let '(def_level, rep_level) :=
        (if is_root then (0, 0)
         else (parent_def + (if decide (se_repetition element ≠ Some Required) then 1 else 0),
               parent_rep + (if decide (se_repetition element = Some Repeated) then 1 else 0))) in
      let num_children := as_usize (default 0 (se_num_children element)) in
      let? _ := with_capacity 1 num_children in
      let? ci := build_children fuel schema num_children idx def_level rep_level in
      let '(children, idx) := ci in
      Ok (Node (se_name element) element children def_level rep_level, idx)
  end
with build_children (fuel : nat) (schema : list SchemaElement) (n idx def_level rep_level : Z)
  : run () (list SchemaNode * Z) :=
  match fuel with
  | O => Err OutOfFuel
  | S fuel =>
      if decide (n ≤ 0) then Ok ([], idx)
      else
        let? ni := build_node fuel schema idx def_level rep_level false in
        let? ci := build_children fuel schema (n - 1) ni.2 def_level rep_level in
        Ok (ni.1 :: ci.1, ci.2)
  end.

Definition build_schema_tree (schema : list SchemaElement) : run () SchemaNode :=
  let? ni := build_node (2 * length schema + 2) schema 0 0 0 true in
  Ok ni.1.

(** The unfolding equations of the builders. *)
Lemma build_node_S (fuel : nat) schema idx parent_def parent_rep is_root :
  build_node (S fuel) schema idx parent_def parent_rep is_root =
    let? element := index (schema !! Z.to_nat idx) in
    let idx := idx + 1 in
    let '(def_level, rep_level) :=
      (if is_root then (0, 0)
       else (parent_def + (if decide (se_repetition element ≠ Some Required) then 1 else 0),
             parent_rep + (if decide (se_repetition element = Some Repeated) then 1 else 0))) in
    let num_children := as_usize (default 0 (se_num_children element)) in
    let? _ := with_capacity 1 num_children in
    let? ci := build_children fuel schema num_children idx def_level rep_level in
    let '(children, idx) := ci in
    Ok (Node (se_name element) element children def_level rep_level, idx).
Proof. reflexivity. Qed.

Lemma build_children_S (fuel : nat) schema n idx def_level rep_level :
  build_children (S fuel) schema n idx def_level rep_level =
    if decide (n ≤ 0) then Ok ([], idx)
    else
      let? ni := build_node fuel schema idx def_level rep_level false in
      let? ci := build_children fuel schema (n - 1) ni.2 def_level rep_level in
      Ok (ni.1 :: ci.1, ci.2).
Proof. reflexivity. Qed.

(** ** Schemas as trees *)

(** A schema before its levels are computed: an element and its children. *)
Inductive schema : Type := SElem (element : SchemaElement) (children : list schema).

Definition s_element (s : schema) : SchemaElement := let 'SElem e _ := s in e.
Definition s_children (s : schema) : list schema := let 'SElem _ c := s in c.

Section schema_ind.
Context (P : schema → Prop) (HS : ∀ e cs, Forall P cs → P (SElem e cs)).
Fixpoint schema_ind' (s : schema) : P s :=
  match s with
  | SElem e cs => HS e cs ((fix go l : Forall P l :=
      match l with [] => Forall_nil_2 P | c :: l => Forall_cons_2 P c l (schema_ind' c) (go l) end) cs)
  end.
End schema_ind.

(** The list the footer holds: depth first, each group before its children. *)
Fixpoint flatten (s : schema) : list SchemaElement :=
  match s with SElem e cs => e :: concat (map flatten cs) end.

(** Every element states how many children it has. *)
Fixpoint counts_ok (s : schema) : Prop :=
  match s with
  | SElem e cs => default 0 (se_num_children e) = zlen cs ∧ zlen cs < 2 ^ 31 ∧ foldr (λ c P, counts_ok c ∧ P) True cs
  end.

Definition optional_step (e : SchemaElement) : Z := if decide (se_repetition e ≠ Some Required) then 1 else 0.
Definition repeated_step (e : SchemaElement) : Z := if decide (se_repetition e = Some Repeated) then 1 else 0.

(** The tree with the levels of each node below a parent with levels [d]
    and [r]. *)
Fixpoint with_levels (s : schema) (d r : Z) : SchemaNode :=
  match s with
  | SElem e cs =>
      Node (se_name e) e (map (λ c, with_levels c (d + optional_step (s_element c)) (r + repeated_step (s_element c))) cs) d r
  end.

(** The elements on the way to each leaf, the root left out. *)
Fixpoint chains (s : schema) : list (list SchemaElement) :=
  match s with
  | SElem e [] => [[]]
  | SElem e cs => concat (map (λ c, map (cons (s_element c)) (chains c)) cs)
  end.

Definition level_sum (f : SchemaElement → Z) (l : list SchemaElement) : Z := foldr (λ e n, f e + n) 0 l.

Lemma flatten_length s : (0 < length (flatten s))%nat.
Proof. destruct s; cbn; lia. Qed.

(** The builder follows the list of a tree. *)
Definition builds (s : schema) : Prop := ∀ (fuel : nat) pre post pd pr (root : bool),
  counts_ok s → (2 * length (flatten s) ≤ fuel)%nat →
  build_node fuel (pre ++ flatten s ++ post) (zlen pre) pd pr root =
    Ok (with_levels s (if root then 0 else pd + optional_step (s_element s)) (if root then 0 else pr + repeated_step (s_element s)),
        zlen pre + zlen (flatten s)).

Lemma build_children_ok cs (fuel : nat) pre post d r :
  Forall builds cs → foldr (λ c P, counts_ok c ∧ P) True cs → (2 * length (concat (map flatten cs)) + 1 ≤ fuel)%nat →
  build_children fuel (pre ++ concat (map flatten cs) ++ post) (zlen cs) (zlen pre) d r =
    Ok (map (λ c, with_levels c (d + optional_step (s_element c)) (r + repeated_step (s_element c))) cs,
        zlen pre + zlen (concat (map flatten cs))).
Proof.
  intros HF. revert fuel pre. induction HF as [|c cs Hc HF IH]; intros fuel pre Hok Hf; (destruct fuel as [|fuel]; [lia|]); rewrite build_children_S.
  { rewrite decide_True by (cbn [length]; lia). cbn [map concat length]. by rewrite Z.add_0_r. }
  rewrite decide_False by (cbn [length]; lia). cbn [map concat foldr] in Hok, Hf |- *. destruct Hok as [Hc1 Hok].
  rewrite length_app in Hf. pose proof (flatten_length c). rewrite <- (assoc_L (++)).
  rewrite (Hc fuel pre _ d r false) by (done || lia). cbn [fst snd].
  replace (zlen (c :: cs) - 1) with (zlen cs) by (cbn [length]; lia).
  replace (zlen pre + zlen (flatten c)) with (zlen (pre ++ flatten c)) by (rewrite length_app; lia).
  rewrite (assoc_L (++)). rewrite (IH fuel (pre ++ flatten c)) by (done || lia). cbn [fst snd].
  do 2 f_equal. rewrite !length_app. lia.
Qed.

Lemma build_node_ok s : builds s.
Proof.
  induction s as [e cs HF] using schema_ind'. intros fuel pre post pd pr root (Hn & Hb & Hok) Hf.
  destruct fuel as [|fuel]; [cbn in Hf; lia|]. rewrite build_node_S. cbn [flatten s_element app] in *.
  assert (Hel : (pre ++ e :: concat (map flatten cs) ++ post) !! Z.to_nat (zlen pre) = Some e) by (rewrite Nat2Z.id; by apply list_lookup_middle).
  rewrite Hel. cbn [index ok_or]. cbn [length] in Hf |- *.
  assert (Hus : as_usize (default 0 (se_num_children e)) = zlen cs).
  { rewrite Hn. unfold as_usize. apply wrap64_small. change (2 ^ 31) with 2147483648 in Hb. mlia. }
  rewrite Hus. change (2 ^ 31) with 2147483648 in Hb.
  replace (pre ++ e :: concat (map flatten cs) ++ post) with ((pre ++ [e]) ++ concat (map flatten cs) ++ post) by (by rewrite <- (assoc_L (++))).
  replace (zlen pre + 1) with (zlen (pre ++ [e])) by (rewrite length_app; cbn; lia).
  assert (Hfin : zlen (pre ++ [e]) + zlen (concat (map flatten cs)) = zlen pre + Z.of_nat (S (length (concat (map flatten cs)))))
    by (rewrite length_app; cbn [length]; lia).
  destruct root; rewrite with_capacity_ok by mlia; rewrite build_children_ok by (done || lia);
    unfold optional_step, repeated_step; cbn [with_levels]; by rewrite Hfin.
Qed.

(** ** Levels along the way to a leaf *)

Lemma leaves_inner name e c cs d r : leaves (Node name e (c :: cs) d r) = concat (map leaves (c :: cs)).
Proof. done. Qed.

Lemma leaf_levels s d r :
  Forall2 (λ leaf chain, sn_max_def_level leaf = d + level_sum optional_step chain ∧
                         sn_max_rep_level leaf = r + level_sum repeated_step chain)
    (leaves (with_levels s d r)) (chains s).
Proof.
  revert d r. induction s as [e cs HF] using schema_ind'. intros d r. destruct cs as [|c cs].
  { cbn. constructor; [|constructor]. cbn. lia. }
  change (chains (SElem e (c :: cs))) with (concat (map (λ c, map (cons (s_element c)) (chains c)) (c :: cs))).
  change (leaves (with_levels (SElem e (c :: cs)) d r)) with (concat (map leaves (map (λ c, with_levels c (d + optional_step (s_element c)) (r + repeated_step (s_element c))) (c :: cs)))).
  remember (c :: cs) as l eqn:El. clear El c cs.
  induction HF as [|c l Hc HF IH]; [constructor|]. cbn [map concat]. apply Forall2_app; [|exact IH].
  apply Forall2_fmap_r. eapply Forall2_impl; [apply Hc|]. intros leaf chain [-> ->]. unfold level_sum. cbn [compose foldr]. lia.
Qed.

(** ** Totality *)

Lemma builders_total schema (fuel : nat) :
  (∀ idx pd pr root, 0 ≤ idx → 2 * (zlen schema - idx) + 1 ≤ Z.of_nat fuel → (1 ≤ fuel)%nat →
    match build_node fuel schema idx pd pr root with Ok (_, i) => idx < i ≤ zlen schema | Err OutOfFuel => False | Err _ => True end) ∧
  (∀ n idx d r, 0 ≤ idx ≤ zlen schema → 2 * (zlen schema - idx) + 2 ≤ Z.of_nat fuel →
    match build_children fuel schema n idx d r with Ok (_, i) => idx ≤ i ≤ zlen schema | Err OutOfFuel => False | Err _ => True end).
Proof.
  induction fuel as [|fuel [IHn IHc]]; [split; intros; lia|]. split.
  - intros idx pd pr root Hi Hf _. rewrite build_node_S. destruct (schema !! Z.to_nat idx) as [e|] eqn:He; [|done].
    apply lookup_lt_Some in He. cbn [index ok_or].
    destruct (if root then _ else _) as [dl rl]. unfold with_capacity. case_decide; [|done].
    specialize (IHc (as_usize (default 0 (se_num_children e))) (idx + 1) dl rl ltac:(lia) ltac:(lia)).
    destruct (build_children _ _ _ _ _ _) as [[cs i]|[]]; try done. lia.
  - intros n idx d r Hi Hf. rewrite build_children_S. case_decide; [lia|].
    specialize (IHn idx d r false ltac:(lia) ltac:(lia)).
    destruct fuel as [|fuel]; [lia|]. specialize (IHn ltac:(lia)).
    destruct (build_node _ _ _ _ _ _) as [[nd i]|[]]; try done. cbn [fst snd].
    specialize (IHc (n - 1) i d r ltac:(lia) ltac:(lia)). destruct (build_children _ _ _ _ _ _) as [[cs j]|[]]; try done. cbn. lia.
Qed.

(** The tree the writer flattened. *)
Lemma schema_tree_ok (s : schema) (rest : list SchemaElement) :
  counts_ok s → build_schema_tree (flatten s ++ rest) = Ok (with_levels s 0 0).
Proof.
  intros Hok. unfold build_schema_tree. rewrite (build_node_ok s _ [] rest 0 0 true); [done|done|]. rewrite length_app. lia.
Qed.

(** ** Properties *)

(** The schema tree is the one the writer flattened.  From the
    depth-first list of any schema, followed by anything, the builder
    recovers the tree, and every leaf carries as its definition level the
    number of elements above and at it that are not required, and as its
    repetition level the number that are repeated. *)
Theorem schema_tree_roundtrip (s : schema) (rest : list SchemaElement) :
  counts_ok s →
  build_schema_tree (flatten s ++ rest) = Ok (with_levels s 0 0) ∧
  Forall2 (λ leaf chain, sn_max_def_level leaf = level_sum optional_step chain ∧
                         sn_max_rep_level leaf = level_sum repeated_step chain)
    (leaves (with_levels s 0 0)) (chains s).
Proof.
  intros Hok. split; [by apply schema_tree_ok|exact (leaf_levels s 0 0)].
Qed.

Definition example_element (name : Z) (rep : option Repetition) (n : option Z) : SchemaElement :=
  {| se_name := [name]; se_physical_type := if n then None else Some PInt32; se_repetition := rep; se_num_children := n;
     se_type_length := None; se_converted_type := None; se_scale := None; se_precision := None |}.

Definition example_schema : schema :=
  SElem (example_element 114 None (Some 2))
    [SElem (example_element 97 (Some Required) None) [];
     SElem (example_element 98 (Some Optional) (Some 1))
       [SElem (example_element 99 (Some Repeated) (Some 1)) [SElem (example_element 100 (Some Optional) None) []]]].

