(* ===== verification/Nested.v ===== *)
(** * Nested values ([column/parquet/nested.rs])

    Rows of structs, lists and maps put together again from the levels and
    values of their leaf columns (Dremel encoding). *)

From S2P Require Import Prelude Text Machine Thrift ParquetMeta ParquetEncoding ParquetReader SchemaTree.

Inductive NestedValue : Type :=
| NNull
| NScalar (s : LeafScalar)
| NList (l : list NestedValue)
| NStruct (fields : list (list Z * NestedValue)).

Record LeafEntries : Type := {
  le_rep_levels : list Z;
  le_def_levels : list Z;
  le_values : list (option LeafScalar);
}.

Inductive NestedError : Type :=
| MissingLeafData (path : list Z)
| UnsupportedListElement (path : list Z)
| UnsupportedMapShape (path : list Z).

Abbreviation LeafData := (gmap (list Z) LeafEntries).

(** [v.map_or(Null, Scalar)]. *)
Definition nested_of (v : option LeafScalar) : NestedValue :=
  match v with Some s => NScalar s | None => NNull end.

Definition is_map (node : SchemaNode) : bool :=
  bool_decide (se_converted_type (sn_element node) = Some (COther 1)) && bool_decide (length (sn_children node) = 1%nat).

(** A group whose only child is repeated. *)
Definition has_repeated_child (node : SchemaNode) : bool :=
  match sn_children node with
  | [c] => bool_decide (se_repetition (sn_element c) = Some Repeated)
  | _ => false
  end.

Fixpoint first_leaf_path (node : SchemaNode) (path : list Z) : list Z :=
  match node with
  | Node _ _ [] _ _ => path
  | Node _ _ (child :: _) _ _ => first_leaf_path child (join_path path (sn_name child))
  end.

(** The elements of one row: entries up to the next one that starts a row. *)
Fixpoint row_elements (fuel : nat) (rep_levels : list Z) (element_at : Z → run NestedError NestedValue) (i : Z)
  : run NestedError (list NestedValue * Z) :=
  match fuel with
  | O => Err OutOfFuel
  | S fuel =>
      let? elem := element_at i in
      let i := i + 1 in
      match get_byte rep_levels i with
      | None => Ok ([elem], i)
      | Some 0 => Ok ([elem], i)
      | Some _ =>
          let? ei := row_elements fuel rep_levels element_at i in
          Ok (elem :: ei.1, ei.2)
      end
  end.

Fixpoint build_rows (num_rows : nat) (wrapper_def repeated_def : Z) (rep_levels def_levels : list Z)
    (element_at : Z → run NestedError NestedValue) (i : Z) : run NestedError (list NestedValue) :=
  match num_rows with
  | O => Ok []
  | S num_rows =>
      let? d := index (get_byte def_levels i) in
      let? ri :=
        (if decide (d < wrapper_def) then Ok (NNull, i + 1)
         else if decide (d < repeated_def) then Ok (NList [], i + 1)
         else
           let? ei := row_elements (S (length rep_levels)) rep_levels element_at i in
           Ok (NList ei.1, ei.2)) in
      let? out := build_rows num_rows wrapper_def repeated_def rep_levels def_levels element_at ri.2 in
      Ok (ri.1 :: out)
  end.

Definition build_repeated (wrapper repeated : SchemaNode) (num_rows : Z) (rep_levels def_levels : list Z)
    (element_at : Z → run NestedError NestedValue) : run NestedError (list NestedValue) :=
  let? _ := with_capacity 1 num_rows in
  build_rows (Z.to_nat num_rows) (sn_max_def_level wrapper) (sn_max_def_level repeated) rep_levels def_levels element_at 0.

(** [values[i]]: past the end it panics. *)
Definition value_at (entries : LeafEntries) (i : Z) : run NestedError NestedValue :=
  let? v := index (le_values entries !! Z.to_nat i) in
  Ok (nested_of v).

Definition get_leaf (leaf_data : LeafData) (path : list Z) : run NestedError LeafEntries :=
  fails_with (leaf_data !! path) (MissingLeafData path).

(** The strings [key] and [value]. *)
Definition KEY : list Z := [107; 101; 121].
Definition VALUE : list Z := [118; 97; 108; 117; 101].

Definition build_map_field (node : SchemaNode) (path : list Z) (num_rows : Z) (leaf_data : LeafData)
  : run NestedError (list NestedValue) :=
  let? key_value := index (head (sn_children node)) in
  match sn_children key_value with
  | [key_node; value_node] =>
      if negb (is_leaf key_node) || negb (is_leaf value_node) then Err (Fails (UnsupportedMapShape path))
      else
        let key_path := join_path (join_path path (sn_name key_value)) (sn_name key_node) in
        let value_path := join_path (join_path path (sn_name key_value)) (sn_name value_node) in
        let? keys := get_leaf leaf_data key_path in
        let? values := get_leaf leaf_data value_path in
        build_repeated node key_value num_rows (le_rep_levels keys) (le_def_levels keys) (λ i,
          let? k := value_at keys i in
          let? v := value_at values i in
          Ok (NStruct [(KEY, k); (VALUE, v)]))
  | _ => Err (Fails (UnsupportedMapShape path))
  end.

Definition build_list_field (node : SchemaNode) (path : list Z) (num_rows : Z) (leaf_data : LeafData)
  : run NestedError (list NestedValue) :=
  let? repeated := index (head (sn_children node)) in
  let element := match sn_children repeated with [] => repeated | c :: _ => c end in
  if negb (is_leaf element) then Err (Fails (UnsupportedListElement path))
  else
    let element_path :=
      if is_leaf repeated then join_path path (sn_name repeated)
      else join_path (join_path path (sn_name repeated)) (sn_name element) in
    let? entries := get_leaf leaf_data element_path in
    build_repeated node repeated num_rows (le_rep_levels entries) (le_def_levels entries) (value_at entries).

(** One row of a struct from the columns of its fields. *)
Definition struct_row (node_def : Z) (driver : LeafEntries) (children_values : list (list Z * list NestedValue)) (row : nat)
  : run NestedError NestedValue :=
  let? d := index (le_def_levels driver !! row) in
  if decide (d < node_def) then Ok NNull
  else
    let? fields := index (mapM (λ c, pair c.1 <$> (c.2 : list NestedValue) !! row) children_values) in
    Ok (NStruct fields).

Fixpoint struct_rows (n : nat) (row : nat) (node_def : Z) (driver : LeafEntries)
    (children_values : list (list Z * list NestedValue)) : run NestedError (list NestedValue) :=
  match n with
  | O => Ok []
  | S n =>
      let? v := struct_row node_def driver children_values row in
      let? out := struct_rows n (S row) node_def driver children_values in
      Ok (v :: out)
  end.

Fixpoint build_field (node : SchemaNode) (path : list Z) (num_rows : Z) (leaf_data : LeafData)
  : run NestedError (list NestedValue) :=
  match node with
  | Node _ element children max_def_level _ =>
      if is_leaf node then
        let? entries := get_leaf leaf_data path in
        Ok (map nested_of (le_values entries))
      else if decide (se_repetition element = Some Repeated) then build_list_field node path num_rows leaf_data
      else if is_map node then build_map_field node path num_rows leaf_data
      else if has_repeated_child node then build_list_field node path num_rows leaf_data
      else
        let? driver := get_leaf leaf_data (first_leaf_path node path) in
        let? children_values :=
          (fix go (cs : list SchemaNode) : run NestedError (list (list Z * list NestedValue)) :=
             match cs with
             | [] => Ok []
             | c :: cs =>
                 let? vals := build_field c (join_path path (sn_name c)) num_rows leaf_data in
                 let? rest := go cs in
                 Ok ((sn_name c, vals) :: rest)
             end) children in
        let? _ := with_capacity 1 num_rows in
        struct_rows (Z.to_nat num_rows) 0 max_def_level driver children_values
  end.

Fixpoint reconstruct_fields (fields : list SchemaNode) (num_rows : Z) (leaf_data : LeafData)
  : run NestedError (list (list Z * list NestedValue)) :=
  match fields with
  | [] => Ok []
  | field :: fields =>
      let? vals := build_field field (sn_name field) num_rows leaf_data in
      let? rest := reconstruct_fields fields num_rows leaf_data in
      Ok ((sn_name field, vals) :: rest)
  end.

Definition reconstruct_row_group (root : SchemaNode) (num_rows : Z) (leaf_data : LeafData)
  : run NestedError (list (list Z * list NestedValue)) :=
  reconstruct_fields (sn_children root) num_rows leaf_data.

(** The loop over the fields of a struct. *)
Fixpoint build_children_fields (cs : list SchemaNode) (path : list Z) (num_rows : Z) (leaf_data : LeafData)
  : run NestedError (list (list Z * list NestedValue)) :=
  match cs with
  | [] => Ok []
  | c :: cs =>
      let? vals := build_field c (join_path path (sn_name c)) num_rows leaf_data in
      let? rest := build_children_fields cs path num_rows leaf_data in
      Ok ((sn_name c, vals) :: rest)
  end.

(** ** Shredding rows into leaf columns *)

(** A row of a node, or the definition level at which one of its ancestors is
    null. *)
Abbreviation cell := (Z + NestedValue)%type.

Definition cell_value (c : cell) : NestedValue := match c with inl _ => NNull | inr v => v end.

(** The entry of a leaf in a row. *)
Definition scalar_def (md : Z) (v : NestedValue) : Z := match v with NScalar _ => md | _ => md - 1 end.
Definition scalar_of (v : NestedValue) : option LeafScalar := match v with NScalar s => Some s | _ => None end.

Record entry : Type := { en_rep : Z; en_def : Z; en_val : option LeafScalar }.

Definition leaf_entries (es : list entry) : LeafEntries :=
  {| le_rep_levels := map en_rep es; le_def_levels := map en_def es; le_values := map en_val es |}.

Definition leaf_entry (md : Z) (c : cell) : entry :=
  match c with
  | inl d => {| en_rep := 0; en_def := d; en_val := None |}
  | inr v => {| en_rep := 0; en_def := scalar_def md v; en_val := scalar_of v |}
  end.

Definition element_entry (md : Z) (proj : NestedValue → NestedValue) (rep : Z) (x : NestedValue) : entry :=
  {| en_rep := rep; en_def := scalar_def md (proj x); en_val := scalar_of (proj x) |}.

(** The entries of a repeated leaf in a row: a marker for a null or an empty
    list, else one entry per element, the first starting the row. *)
Definition list_entries (w md : Z) (proj : NestedValue → NestedValue) (c : cell) : list entry :=
  match c with
  | inl d => [{| en_rep := 0; en_def := d; en_val := None |}]
  | inr (NList (x :: xs)) => element_entry md proj 0 x :: map (element_entry md proj 1) xs
  | inr (NList []) => [{| en_rep := 0; en_def := w; en_val := None |}]
  | inr _ => [{| en_rep := 0; en_def := w - 1; en_val := None |}]
  end.

(** The field of a map entry. *)
Definition map_part (j : nat) (v : NestedValue) : NestedValue :=
  match v with NStruct fs => default NNull (snd <$> fs !! j) | _ => NNull end.

(** A struct row as the values of its fields. *)
Definition fields_cell (md : Z) (c : cell) : Z + list NestedValue :=
  match c with
  | inl d => inl d
  | inr (NStruct fs) => inr (map snd fs)
  | inr _ => inl (md - 1)
  end.

Definition head_cell (c : Z + list NestedValue) : cell :=
  match c with inl d => inl d | inr [] => inr NNull | inr (v :: _) => inr v end.
Definition tail_cell (c : Z + list NestedValue) : Z + list NestedValue :=
  match c with inl d => inl d | inr vs => inr (tail vs) end.

Fixpoint shred (node : SchemaNode) (path : list Z) (cells : list cell) : list (list Z * LeafEntries) :=
  match node with
  | Node _ _ [] md _ => [(path, leaf_entries (map (leaf_entry md) cells))]
  | Node _ _ ((c :: _) as children) md _ =>
      if is_map node then
        match sn_children c with
        | [k; v] =>
            let kv_path := join_path path (sn_name c) in
            [(join_path kv_path (sn_name k),
              leaf_entries (concat (map (list_entries md (sn_max_def_level k) (map_part 0)) cells)));
             (join_path kv_path (sn_name v),
              leaf_entries (concat (map (list_entries md (sn_max_def_level v) (map_part 1)) cells)))]
        | _ => []
        end
      else if has_repeated_child node then
        match sn_children c with
        | [] => [(join_path path (sn_name c), leaf_entries (concat (map (list_entries md (sn_max_def_level c) id) cells)))]
        | el :: _ =>
            [(join_path (join_path path (sn_name c)) (sn_name el),
              leaf_entries (concat (map (list_entries md (sn_max_def_level el) id) cells)))]
        end
      else
        (fix go (cs : list SchemaNode) (fcs : list (Z + list NestedValue)) : list (list Z * LeafEntries) :=
           match cs with
           | [] => []
           | c :: cs => shred c (join_path path (sn_name c)) (map head_cell fcs) ++ go cs (map tail_cell fcs)
           end) children (map (fields_cell md) cells)
  end.

(** ** Schemas and values in scope *)

Definition optional (e : SchemaElement) : Prop := optional_step e = 1.

(** The first leaf below is reached through structs only. *)
Fixpoint flat_first (node : SchemaNode) : Prop :=
  match node with
  | Node _ _ [] _ _ => True
  | Node _ _ (c :: _) _ _ => is_map node = false ∧ has_repeated_child node = false ∧ flat_first c
  end.

Definition list_shape (md : Z) (c : SchemaNode) : Prop :=
  sn_max_def_level c = md + 1 ∧
  match sn_children c with
  | [] => True
  | el :: _ => is_leaf el = true ∧ sn_max_def_level el = md + 1 + optional_step (sn_element el)
  end.

Definition map_shape (md : Z) (c : SchemaNode) : Prop :=
  sn_max_def_level c = md + 1 ∧
  match sn_children c with
  | [k; v] => is_leaf k = true ∧ is_leaf v = true ∧ sn_max_def_level k = md + 1 ∧
      sn_max_def_level v = md + 1 + optional_step (sn_element v)
  | _ => False
  end.

(** A field below a node with definition level [d]: a scalar, a struct of
    such fields whose first leaf is not in a list, a list of scalars in two
    or three levels, or a map of scalars. *)
Fixpoint shape_ok (node : SchemaNode) (d : Z) : Prop :=
  match node with
  | Node _ e children md _ =>
      md = d + optional_step e ∧ se_repetition e ≠ Some Repeated ∧
      match children with
      | [] => True
      | c :: _ =>
          if is_map node then map_shape md c
          else if has_repeated_child node then list_shape md c
          else flat_first c ∧ foldr (λ c P, shape_ok c md ∧ P) True children
      end
  end.

Definition scalar_fits (e : SchemaElement) (v : NestedValue) : Prop :=
  match v with NNull => optional e | NScalar _ => True | _ => False end.

Definition element_fits (c : SchemaNode) (v : NestedValue) : Prop :=
  match sn_children c with
  | [] => ∃ s, v = NScalar s
  | el :: _ => scalar_fits (sn_element el) v
  end.

Definition entry_fits (c : SchemaNode) (x : NestedValue) : Prop :=
  ∃ k v, x = NStruct [(KEY, NScalar k); (VALUE, v)] ∧
    match sn_children c with [_; vn] => scalar_fits (sn_element vn) v | _ => False end.

Fixpoint fits (node : SchemaNode) (v : NestedValue) : Prop :=
  match node with
  | Node _ e [] _ _ => scalar_fits e v
  | Node _ e ((c :: _) as children) _ _ =>
      if is_map node then match v with NNull => optional e | NList l => Forall (entry_fits c) l | _ => False end
      else if has_repeated_child node then
        match v with NNull => optional e | NList l => Forall (element_fits c) l | _ => False end
      else
        match v with
        | NNull => optional e
        | NStruct fs =>
            (fix go (cs : list SchemaNode) (fs : list (list Z * NestedValue)) : Prop :=
               match cs, fs with
               | [], [] => True
               | c :: cs, (name, v) :: fs => name = sn_name c ∧ fits c v ∧ go cs fs
               | _, _ => False
               end) children fs
        | _ => False
        end
  end.

Definition cell_ok (node : SchemaNode) (d : Z) (c : cell) : Prop :=
  match c with inl k => k < d | inr v => fits node v end.

Definition holds (leaf_data : LeafData) (columns : list (list Z * LeafEntries)) : Prop :=
  Forall (λ pe, leaf_data !! pe.1 = Some pe.2) columns.

(** ** Lists and maps: the repetition walk *)

(** The elements behind the entries of a row; the markers have none. *)
Definition row_items (c : cell) : list (option NestedValue) :=
  match c with inr (NList (x :: xs)) => map Some (x :: xs) | _ => [None] end.

Lemma list_entries_items w md proj c : length (list_entries w md proj c) = length (row_items c).
Proof. destruct c as [d|[| |[|x xs]|]]; try done. cbn. by rewrite !length_map. Qed.

Lemma row_items_pos c : (0 < length (row_items c))%nat.
Proof. destruct c as [d|[| |[|x xs]|]]; cbn; lia. Qed.

Section walk.
Context (w md : Z) (proj : NestedValue → NestedValue) (element_at : Z → run NestedError NestedValue).

Definition walk_entries (cells : list cell) : list entry := concat (map (list_entries w md proj) cells).
Definition walk_items (cells : list cell) : list (option NestedValue) := concat (map row_items cells).

Lemma walk_length cells : length (walk_entries cells) = length (walk_items cells).
Proof using.
  clear. unfold walk_entries, walk_items. induction cells as [|c cells IH]; [done|]. cbn [map concat].
  by rewrite !length_app, IH, list_entries_items.
Qed.

(** The entry after a row starts a row. *)
Lemma next_row_rep pre cells :
  match get_byte (map en_rep (pre ++ walk_entries cells)) (zlen pre) with Some 0 | None => True | _ => False end.
Proof using.
  clear. rewrite map_app. unfold walk_entries. destruct cells as [|c cells]; cbn [map concat].
  - rewrite app_nil_r. destruct (get_byte _ _) eqn:E; [|done]. apply get_byte_Some in E as [_ E%lookup_lt_Some].
    rewrite length_map in E. lia.
  - rewrite get_byte_app_r by (rewrite length_map; lia). rewrite length_map, Z.sub_diag.
    by destruct c as [d|[| |[|x xs]|]].
Qed.

Lemma row_elements_ok (fuel : nat) pre rep x xs cells :
  let es := pre ++ (element_entry md proj rep x :: map (element_entry md proj 1) xs) ++ walk_entries cells in
  (∀ j y, (x :: xs) !! j = Some y → element_at (zlen pre + Z.of_nat j) = Ok y) → (length xs < fuel)%nat →
  row_elements fuel (map en_rep es) element_at (zlen pre) = Ok (x :: xs, zlen pre + zlen (x :: xs)).
Proof using.
  revert fuel pre rep x. induction xs as [|y xs IH]; intros fuel pre rep x es Hat Hf; (destruct fuel as [|fuel]; [lia|]); cbn [row_elements].
  - pose proof (Hat 0%nat x eq_refl) as H0. rewrite Z.add_0_r in H0. rewrite H0.
    pose proof (next_row_rep (pre ++ [element_entry md proj rep x]) cells) as Hn.
    unfold es. cbn [map app length] in Hn |- *. rewrite <- (assoc_L (++)) in Hn. cbn [app] in Hn.
    rewrite length_app in Hn. cbn [length] in Hn. replace (Z.of_nat (length pre + 1)) with (zlen pre + 1) in Hn by lia.
    destruct (get_byte _ _) as [[|p|p]|]; try done.
  - pose proof (Hat 0%nat x eq_refl) as H0. rewrite Z.add_0_r in H0. rewrite H0.
    set (e0 := element_entry md proj rep x) in *.
    assert (Ees : es = (pre ++ [e0]) ++ (element_entry md proj 1 y :: map (element_entry md proj 1) xs) ++ walk_entries cells).
    { unfold es. by rewrite <- (assoc_L (++)). }
    assert (Hz : zlen (pre ++ [e0]) = zlen pre + 1) by (rewrite length_app; cbn [length]; lia).
    assert (Hg : get_byte (map en_rep es) (zlen pre + 1) = Some 1).
    { rewrite Ees, map_app, get_byte_app_r by (rewrite length_map; lia). rewrite length_map, Hz, Z.sub_diag. done. }
    rewrite Hg. rewrite Ees, <- Hz. rewrite (IH fuel (pre ++ [e0]) 1 y); [|..|cbn [length] in Hf; lia].
    + cbn [fst snd length]. rewrite Hz. do 2 f_equal. lia.
    + intros j z Hj. specialize (Hat (S j) z Hj). rewrite <- Hat. f_equal. lia.
Qed.

Lemma build_rows_ok pre cells :
  (∀ j y, walk_items cells !! j = Some (Some y) → element_at (zlen pre + Z.of_nat j) = Ok y) →
  Forall (λ c, match c with
    | inl k => k < w
    | inr NNull => True
    | inr (NList l) => Forall (λ y, w + 1 ≤ scalar_def md (proj y)) l
    | _ => False
    end) cells →
  build_rows (length cells) w (w + 1) (map en_rep (pre ++ walk_entries cells)) (map en_def (pre ++ walk_entries cells))
    element_at (zlen pre) = Ok (map cell_value cells).
Proof using.
  intros Hat HF. revert pre Hat. induction HF as [|c cells Hc HF IH]; intros pre Hat; [done|]. cbn [length build_rows map].
  assert (Ew : walk_entries (c :: cells) = list_entries w md proj c ++ walk_entries cells) by done.
  assert (Ei : walk_items (c :: cells) = row_items c ++ walk_items cells) by done. rewrite Ei in Hat.
  assert (Hcont : build_rows (length cells) w (w + 1) (map en_rep (pre ++ walk_entries (c :: cells)))
      (map en_def (pre ++ walk_entries (c :: cells))) element_at (zlen pre + zlen (row_items c)) = Ok (map cell_value cells)).
  { rewrite Ew, (assoc_L (++)). replace (zlen pre + zlen (row_items c)) with (zlen (pre ++ list_entries w md proj c))
      by (rewrite length_app, list_entries_items; lia).
    apply IH. intros j y Hj. rewrite length_app, list_entries_items.
    rewrite <- (Hat (length (row_items c) + j)%nat y); [f_equal; lia|]. rewrite lookup_app_r by lia. rewrite <- Hj. f_equal. lia. }
  assert (Hd : ∀ e l, list_entries w md proj c = e :: l → get_byte (map en_def (pre ++ walk_entries (c :: cells))) (zlen pre) = Some (en_def e)).
  { intros e l El. rewrite Ew, El, map_app, get_byte_app_r by (rewrite length_map; lia). rewrite length_map, Z.sub_diag. done. }
  destruct c as [k|[|s|[|x xs]|fs]]; try done; cbn [list_entries] in Hd; rewrite (Hd _ _ eq_refl); cbn [index ok_or en_def].
  - rewrite decide_True by lia. cbn [fst snd]. cbn [row_items length] in Hcont.
    change (Z.of_nat 1) with 1 in Hcont. by rewrite Hcont.
  - rewrite decide_True by lia. cbn [fst snd]. cbn [row_items length] in Hcont.
    change (Z.of_nat 1) with 1 in Hcont. by rewrite Hcont.
  - rewrite decide_False by lia. rewrite decide_True by lia. cbn [fst snd]. cbn [row_items length] in Hcont.
    change (Z.of_nat 1) with 1 in Hcont. by rewrite Hcont.
  - apply Forall_cons in Hc as [Hx _].
    change (en_def (element_entry md proj 0 x)) with (scalar_def md (proj x)). rewrite !decide_False by lia. rewrite Ew. cbn [list_entries].
    rewrite row_elements_ok.
    + cbn [fst snd]. cbn [row_items] in Hcont. rewrite length_map in Hcont. rewrite Ew in Hcont. cbn [list_entries] in Hcont.
      rewrite Hcont. done.
    + intros j y Hj. apply Hat. cbn [row_items]. rewrite lookup_app_l by (rewrite length_map; by eapply lookup_lt_Some).
      change (map Some (x :: xs)) with (Some <$> (x :: xs)). by rewrite list_lookup_fmap, Hj.
    + rewrite length_map, !length_app. cbn [length]. rewrite length_map. lia.
Qed.
End walk.

(** What the entries of a walk hold. *)
Lemma walk_values w md proj cells :
  Forall2 (λ it e, match it with Some y => en_val e = scalar_of (proj y) | None => True end)
    (walk_items cells) (walk_entries w md proj cells).
Proof.
  unfold walk_items, walk_entries. induction cells as [|c cells IH]; [constructor|]. cbn [map concat].
  apply Forall2_app; [|exact IH]. destruct c as [d|[| |[|x xs]|]]; cbn; try (by repeat constructor).
  constructor; [done|]. apply Forall2_fmap. induction xs; constructor; done.
Qed.

Lemma walk_items_in cells j y :
  walk_items cells !! j = Some (Some y) → ∃ l, inr (NList l) ∈ cells ∧ y ∈ l.
Proof.
  intros Hj%list_elem_of_lookup_2. unfold walk_items in Hj. apply list_elem_of_In, in_concat in Hj as (its & Hits & Hy).
  apply in_map_iff in Hits as (c & <- & Hc). apply list_elem_of_In in Hc, Hy.
  destruct c as [d|[| |[|x xs]|]]; cbn in Hy; try set_solver.
  exists (x :: xs). split; [done|]. change (Some y ∈ Some <$> (x :: xs)) in Hy. apply list_elem_of_fmap in Hy as (z & [= ->] & Hz). done.
Qed.

Lemma value_at_ok w md proj cells j y :
  walk_items cells !! j = Some (Some y) → nested_of (scalar_of (proj y)) = proj y →
  value_at (leaf_entries (walk_entries w md proj cells)) (Z.of_nat j) = Ok (proj y).
Proof.
  intros Hj Hn. pose proof (walk_values w md proj cells) as HF.
  destruct (Forall2_lookup_l _ _ _ _ _ HF Hj) as (e & He & Hv). unfold value_at, leaf_entries. cbn [le_values].
  rewrite Nat2Z.id. change (map en_val ?l) with (en_val <$> l). rewrite list_lookup_fmap, He. cbn. by rewrite Hv, Hn.
Qed.

Lemma scalar_nested e v : scalar_fits e v → nested_of (scalar_of v) = v.
Proof. by destruct v. Qed.

Lemma scalar_def_ge e md v : scalar_fits e v → md ≤ scalar_def (md + optional_step e) v.
Proof.
  intros Hf. unfold scalar_def, scalar_fits, optional in *. unfold optional_step in *. destruct v; try done; case_decide; lia.
Qed.

(** The rows of a repeated field, as cells. *)
Definition repeated_cells (w : Z) (P : NestedValue → Prop) (cells : list cell) : Prop :=
  Forall (λ c, match c with inl k => k < w | inr NNull => True | inr (NList l) => Forall P l | _ => False end) cells.

Lemma repeated_in w P cells l y : repeated_cells w P cells → inr (NList l) ∈ cells → y ∈ l → P y.
Proof. intros HF Hl Hy. unfold repeated_cells in HF. rewrite Forall_forall in HF. specialize (HF _ Hl). cbn in HF. rewrite Forall_forall in HF. by apply HF. Qed.

Lemma list_field_ok node path cells leaf_data c cs :
  sn_children node = c :: cs → list_shape (sn_max_def_level node) c → zlen cells ≤ ISIZE_MAX →
  repeated_cells (sn_max_def_level node) (element_fits c) cells →
  holds leaf_data (match sn_children c with
    | [] => [(join_path path (sn_name c), leaf_entries (walk_entries (sn_max_def_level node) (sn_max_def_level c) id cells))]
    | el :: _ => [(join_path (join_path path (sn_name c)) (sn_name el),
                   leaf_entries (walk_entries (sn_max_def_level node) (sn_max_def_level el) id cells))]
    end) →
  build_list_field node path (zlen cells) leaf_data = Ok (map cell_value cells).
Proof.
  intros Hch [Hc Hel] Hcap HF Hh. unfold build_list_field. rewrite Hch. cbn [head index ok_or].
  set (w := sn_max_def_level node) in *.
  set (el := match sn_children c with [] => c | x :: _ => x end).
  assert (Hleaf : is_leaf el = true) by (unfold el, is_leaf in *; destruct (sn_children c) eqn:E; [by rewrite E|apply Hel]).
  rewrite Hleaf. cbn [negb].
  assert (Hget : get_leaf leaf_data (if is_leaf c then join_path path (sn_name c) else join_path (join_path path (sn_name c)) (sn_name el)) =
    Ok (leaf_entries (walk_entries w (sn_max_def_level el) id cells))).
  { unfold get_leaf, el, is_leaf. destruct (sn_children c); apply Forall_cons in Hh as [Hh _]; cbn [fst snd] in Hh; by rewrite Hh. }
  rewrite Hget. unfold build_repeated. rewrite with_capacity_ok by lia. rewrite Nat2Z.id, Hc. fold w.
  apply (build_rows_ok w (sn_max_def_level el) id _ []).
  - intros j y Hj. rewrite Z.add_0_l. apply (value_at_ok w _ id); [done|]. destruct (walk_items_in _ _ _ Hj) as (l & Hl & Hy).
    pose proof (repeated_in _ _ _ _ _ HF Hl Hy) as Hf. unfold element_fits in Hf.
    destruct (sn_children c); [by destruct Hf as [s ->]|by eapply scalar_nested].
  - eapply Forall_impl; [exact HF|]. intros [k|[| |l|]]; try done. intros HFl. eapply Forall_impl; [exact HFl|].
    intros y Hy. unfold element_fits in Hy. unfold el. destruct (sn_children c); cbn [id].
    + destruct Hy as [s ->]. cbn. lia.
    + destruct Hel as [_ ->]. by apply scalar_def_ge.
Qed.

Lemma map_field_ok node path cells leaf_data c k v :
  head (sn_children node) = Some c → sn_children c = [k; v] → map_shape (sn_max_def_level node) c → zlen cells ≤ ISIZE_MAX →
  repeated_cells (sn_max_def_level node) (entry_fits c) cells →
  holds leaf_data
    [(join_path (join_path path (sn_name c)) (sn_name k),
      leaf_entries (walk_entries (sn_max_def_level node) (sn_max_def_level k) (map_part 0) cells));
     (join_path (join_path path (sn_name c)) (sn_name v),
      leaf_entries (walk_entries (sn_max_def_level node) (sn_max_def_level v) (map_part 1) cells))] →
  build_map_field node path (zlen cells) leaf_data = Ok (map cell_value cells).
Proof.
  intros Hch Hkv [Hc Hs] Hcap HF Hh. unfold build_map_field. rewrite Hch. cbn [index ok_or]. rewrite Hkv in Hs |- *.
  destruct Hs as (Hk & Hv & Hkd & Hvd). rewrite Hk, Hv. cbn [negb orb]. set (w := sn_max_def_level node) in *.
  apply Forall_cons in Hh as [Hh1 Hh2]. apply Forall_cons in Hh2 as [Hh2 _]. cbn [fst snd] in Hh1, Hh2.
  unfold get_leaf. rewrite Hh1, Hh2. cbn [fails_with ok_or]. unfold build_repeated. rewrite with_capacity_ok by lia.
  rewrite Nat2Z.id, Hc. fold w. apply (build_rows_ok w (sn_max_def_level k) (map_part 0) _ []).
  - intros j y Hj. rewrite Z.add_0_l. destruct (walk_items_in _ _ _ Hj) as (l & Hl & Hy).
    pose proof (repeated_in _ _ _ _ _ HF Hl Hy) as (a & b & -> & Hb). rewrite Hkv in Hb.
    rewrite (value_at_ok _ _ _ _ _ _ Hj eq_refl). rewrite (value_at_ok _ _ _ _ _ _ Hj) by (by eapply scalar_nested). done.
  - eapply Forall_impl; [exact HF|]. intros [x|[| |l|]]; try done. intros HFl. eapply Forall_impl; [exact HFl|].
    intros y (a & b & -> & _). cbn. lia.
Qed.

(** ** Structs *)

Section node_ind.
Context (P : SchemaNode → Prop) (HN : ∀ name e cs d r, Forall P cs → P (Node name e cs d r)).
Fixpoint node_ind' (n : SchemaNode) : P n :=
  match n with
  | Node name e cs d r => HN name e cs d r ((fix go l : Forall P l :=
      match l with [] => Forall_nil_2 P | c :: l => Forall_cons_2 P c l (node_ind' c) (go l) end) cs)
  end.
End node_ind.

(** The columns of the fields of a struct, and its shredding. *)
Fixpoint field_columns (cs : list SchemaNode) (fcs : list (Z + list NestedValue)) : list (list Z * list NestedValue) :=
  match cs with
  | [] => []
  | c :: cs => (sn_name c, map cell_value (map head_cell fcs)) :: field_columns cs (map tail_cell fcs)
  end.

Fixpoint shred_fields (cs : list SchemaNode) (path : list Z) (fcs : list (Z + list NestedValue)) : list (list Z * LeafEntries) :=
  match cs with
  | [] => []
  | c :: cs => shred c (join_path path (sn_name c)) (map head_cell fcs) ++ shred_fields cs path (map tail_cell fcs)
  end.

Fixpoint fields_fit (cs : list SchemaNode) (fs : list (list Z * NestedValue)) : Prop :=
  match cs, fs with
  | [], [] => True
  | c :: cs, (name, v) :: fs => name = sn_name c ∧ fits c v ∧ fields_fit cs fs
  | _, _ => False
  end.

Definition is_struct (node : SchemaNode) : Prop :=
  is_leaf node = false ∧ is_map node = false ∧ has_repeated_child node = false ∧ se_repetition (sn_element node) ≠ Some Repeated.

Lemma shred_struct node path cells : is_struct node →
  shred node path cells = shred_fields (sn_children node) path (map (fields_cell (sn_max_def_level node)) cells).
Proof.
  destruct node as [name e [|c cs] md r]; intros (Hl & Hm & Hr & _); [discriminate Hl|]. cbn [shred]. rewrite Hm, Hr. cbn [sn_children sn_max_def_level].
  assert (E : ∀ l fcs, (fix go (cs : list SchemaNode) (fcs : list (Z + list NestedValue)) : list (list Z * LeafEntries) :=
           match cs with
           | [] => []
           | c :: cs => shred c (join_path path (sn_name c)) (map head_cell fcs) ++ go cs (map tail_cell fcs)
           end) l fcs = shred_fields l path fcs).
  { intros l. induction l as [|x l IH]; intros fcs; [done|]. cbn [shred_fields]. by rewrite <- IH. }
  exact (E (c :: cs) _).
Qed.

Lemma fits_struct node v : is_struct node →
  fits node v = match v with NNull => optional (sn_element node) | NStruct fs => fields_fit (sn_children node) fs | _ => False end.
Proof.
  destruct node as [name e [|c cs] md r]; intros (Hl & Hm & Hr & _); [discriminate Hl|]. cbn [fits]. rewrite Hm, Hr. cbn [sn_children sn_element].
  by destruct v.
Qed.

Lemma build_struct node path n leaf_data : is_struct node →
  build_field node path n leaf_data =
    let? driver := get_leaf leaf_data (first_leaf_path node path) in
    let? children_values := build_children_fields (sn_children node) path n leaf_data in
    let? _ := with_capacity 1 n in
    struct_rows (Z.to_nat n) 0 (sn_max_def_level node) driver children_values.
Proof.
  destruct node as [name e cs md r]; intros (Hl & Hm & Hr & Hrep). cbn [build_field sn_children sn_max_def_level].
  rewrite Hl, Hm, Hr. rewrite decide_False by done.
  assert (E : ∀ cs, (fix go (cs : list SchemaNode) : run NestedError (list (list Z * list NestedValue)) :=
             match cs with
             | [] => Ok []
             | c :: cs =>
                 let? vals := build_field c (join_path path (sn_name c)) n leaf_data in
                 let? rest := go cs in
                 Ok ((sn_name c, vals) :: rest)
             end) cs = build_children_fields cs path n leaf_data).
  { intros l. induction l as [|c l IH]; [done|]. cbn [build_children_fields]. by rewrite <- IH. }
  by rewrite E.
Qed.

(** Rows of a struct are present exactly where the first leaf says so. *)
Definition driver_ok (md : Z) (cells : list cell) (e : LeafEntries) : Prop :=
  Forall2 (λ c k, match c with inl j => k = j | inr NNull => k = md - 1 | inr _ => md ≤ k end) cells (le_def_levels e).

Lemma optional_step_range e : 0 ≤ optional_step e ≤ 1.
Proof. unfold optional_step. case_decide; lia. Qed.

Lemma first_leaf_ok node path d cells :
  flat_first node → shape_ok node d → Forall (cell_ok node d) cells →
  ∃ e, (first_leaf_path node path, e) ∈ shred node path cells ∧ driver_ok (sn_max_def_level node) cells e.
Proof.
  revert path d cells. induction node as [name e cs md r HF] using node_ind'. intros path d cells Hfl Hs Hc.
  destruct cs as [|c cs].
  - exists (leaf_entries (map (leaf_entry md) cells)). split; [cbn; set_solver|]. unfold driver_ok, leaf_entries. cbn [le_def_levels sn_max_def_level].
    induction Hc as [|x cells Hx Hc IH]; [constructor|]. cbn. constructor; [|exact IH].
    destruct x as [k|[| | |]]; cbn in *; done || lia.
  - destruct Hfl as (Hm & Hr & Hfl). destruct Hs as (Hmd & Hrep & Hs). rewrite Hm, Hr in Hs. destruct Hs as (_ & Hsc & _).
    assert (Hstr : is_struct (Node name e (c :: cs) md r)) by (repeat split; done).
    rewrite (shred_struct _ _ _ Hstr). cbn [sn_children sn_max_def_level shred_fields first_leaf_path].
    apply Forall_cons in HF as [IH _].
    destruct (IH (join_path path (sn_name c)) md (map head_cell (map (fields_cell md) cells)) Hfl Hsc) as (en & Hin & Hd).
    { apply Forall_fmap, Forall_fmap. eapply Forall_impl; [exact Hc|]. intros x Hx. cbn [compose].
      pose proof (optional_step_range e). destruct x as [k|v]; cbn in Hx |- *; [lia|].
      change (fits (Node name e (c :: cs) md r) v) in Hx. rewrite (fits_struct _ _ Hstr) in Hx.
      destruct v as [| | |fs]; try done; cbn; [lia|]. cbn [sn_children] in Hx. destruct fs as [|[n v] fs]; [done|]. apply Hx. }
    exists en. split; [set_solver|]. unfold driver_ok in *. rewrite !Forall2_fmap_l in Hd.
    pose proof Hc as Hc'. apply Forall2_length in Hd as Hlen.
    revert Hd. generalize (le_def_levels en). intros ks Hd. clear Hin Hlen.
    induction Hd as [|x k cells ks Hk Hd IHd]; [constructor|]. apply Forall_cons in Hc as [Hx Hc]. constructor; [|by apply IHd].
    destruct x as [j|v]; [exact Hk|]. cbn [cell_ok] in Hx. rewrite (fits_struct _ _ Hstr) in Hx.
    destruct v as [| | |fs]; try done. cbn [sn_children] in Hx. destruct fs as [|[n v] fs]; [done|]. destruct Hx as (_ & Hv & _).
    cbn in Hk. destruct c as [cn ce ccs cmd cr]. cbn [sn_max_def_level] in Hk. destruct Hsc as (Hcmd & _).
    pose proof (optional_step_range ce). destruct v; try lia.
    assert (optional ce). { destruct ccs; cbn [fits] in Hv; [exact Hv|]. repeat case_match; done. }
    unfold optional in *. lia.
Qed.

Lemma fields_at cs fcs row fs :
  fcs !! row = Some (inr (map snd fs)) → fields_fit cs fs →
  mapM (λ c, pair c.1 <$> (c.2 : list NestedValue) !! row) (field_columns cs fcs) = Some fs.
Proof.
  revert fcs fs. induction cs as [|c cs IH]; intros fcs [|[n v] fs] Hr Hf; try done.
  destruct Hf as (-> & _ & Hf). cbn [field_columns mapM fst snd]. rewrite (IH (map tail_cell fcs) fs); [..|done].
  - change (map ?f) with (fmap (M := list) f). rewrite !list_lookup_fmap, Hr. done.
  - change (map ?f) with (fmap (M := list) f). rewrite list_lookup_fmap, Hr. done.
Qed.

Lemma struct_row_ok node d cells e row c :
  is_struct node → shape_ok node d → Forall (cell_ok node d) cells → driver_ok (sn_max_def_level node) cells e → cells !! row = Some c →
  struct_row (sn_max_def_level node) e (field_columns (sn_children node) (map (fields_cell (sn_max_def_level node)) cells)) row
    = Ok (cell_value c).
Proof.
  intros Hstr Hs Hc Hd Hr. destruct (Forall2_lookup_l _ _ _ _ _ Hd Hr) as (k & Hk & Hck). rewrite Forall_forall in Hc.
  specialize (Hc c (list_elem_of_lookup_2 _ _ _ Hr)). unfold struct_row. rewrite Hk. cbn [index ok_or].
  assert (Hmd : d ≤ sn_max_def_level node).
  { destruct node as [n el cs md r]. destruct Hs as [Hmd _]. pose proof (optional_step_range el). cbn. lia. }
  destruct c as [j|v]; [cbn in Hc; rewrite decide_True by lia; done|]. cbn [cell_ok] in Hc. rewrite (fits_struct _ _ Hstr) in Hc.
  destruct v as [| | |fs]; try done; [rewrite decide_True by lia; done|]. rewrite decide_False by lia.
  rewrite (fields_at _ _ _ fs); [done| |done]. change (map (fields_cell ?m)) with (fmap (M := list) (fields_cell m)).
  rewrite list_lookup_fmap, Hr. done.
Qed.

Lemma struct_rows_ok md driver cv vals n row :
  (∀ j v, vals !! j = Some v → struct_row md driver cv (row + j) = Ok v) → n = length vals →
  struct_rows n row md driver cv = Ok vals.
Proof.
  intros H ->. revert row H. induction vals as [|v vals IH]; intros row H; [done|]. cbn [length struct_rows].
  pose proof (H 0%nat v eq_refl) as H0. rewrite Nat.add_0_r in H0. rewrite H0. rewrite IH; [done|].
  intros j w Hj. rewrite <- (H (S j) w Hj). f_equal. lia.
Qed.

(** The rows of a field below a struct. *)
Lemma fields_cells_ok cs d md fcs :
  Forall (λ c, match c with inl k => k < d | inr vs => ∃ fs, vs = map snd fs ∧ fields_fit cs fs end) fcs →
  match cs with
  | [] => True
  | c :: cs' => d ≤ md → Forall (cell_ok c md) (map head_cell fcs) ∧
      Forall (λ c, match c with inl k => k < d | inr vs => ∃ fs, vs = map snd fs ∧ fields_fit cs' fs end) (map tail_cell fcs)
  end.
Proof.
  intros HF. destruct cs as [|c cs]; [done|]. intros Hd. split; apply Forall_fmap; (eapply Forall_impl; [exact HF|]); intros [k|vs]; cbn;
    try lia; intros (fs & -> & Hf); destruct fs as [|[n v] fs]; try done; destruct Hf as (_ & Hv & Hf); [done|by exists fs].
Qed.

Lemma holds_app leaf_data l1 l2 : holds leaf_data (l1 ++ l2) ↔ holds leaf_data l1 ∧ holds leaf_data l2.
Proof. apply Forall_app. Qed.

(** The cells of a repeated field of a group. *)
Lemma repeated_of_cells node d P cells :
  Forall (cell_ok node d) cells → d ≤ sn_max_def_level node →
  (∀ v, fits node v → match v with NNull => True | NList l => Forall P l | _ => False end) →
  repeated_cells (sn_max_def_level node) P cells.
Proof.
  intros HF Hd Hv. eapply Forall_impl; [exact HF|]. intros [k|v] Hc; cbn in Hc; [lia|]. by apply Hv in Hc.
Qed.

Definition field_ok_at (node : SchemaNode) : Prop := ∀ path d cells leaf_data,
  shape_ok node d → Forall (cell_ok node d) cells → zlen cells ≤ ISIZE_MAX → holds leaf_data (shred node path cells) →
  build_field node path (zlen cells) leaf_data = Ok (map cell_value cells).

Lemma children_ok cs path d md fcs leaf_data :
  Forall field_ok_at cs → d ≤ md → foldr (λ c P, shape_ok c md ∧ P) True cs →
  Forall (λ c, match c with inl k => k < md | inr vs => ∃ fs, vs = map snd fs ∧ fields_fit cs fs end) fcs →
  zlen fcs ≤ ISIZE_MAX → holds leaf_data (shred_fields cs path fcs) →
  build_children_fields cs path (zlen fcs) leaf_data = Ok (field_columns cs fcs).
Proof.
  intros HF Hd. revert fcs. induction HF as [|c cs Hc HF IH]; intros fcs Hs Hf Hcap Hh; [done|]. cbn [build_children_fields shred_fields field_columns] in *.
  destruct Hs as [Hsc Hs]. apply holds_app in Hh as [Hh1 Hh2]. destruct (fields_cells_ok (c :: cs) md md fcs Hf ltac:(lia)) as [Hf1 Hf2].
  pose proof (Hc (join_path path (sn_name c)) md (map head_cell fcs) leaf_data Hsc Hf1) as E. rewrite length_map in E. rewrite E by done.
  specialize (IH (map tail_cell fcs) Hs Hf2). rewrite length_map in IH. by rewrite IH.
Qed.

Lemma struct_field_ok node : Forall field_ok_at (sn_children node) → is_struct node → 
  (∀ d, shape_ok node d → flat_first node ∧ d ≤ sn_max_def_level node ∧ foldr (λ c P, shape_ok c (sn_max_def_level node) ∧ P) True (sn_children node)) →
  field_ok_at node.
Proof.
  intros HF Hstr Hsh path d cells leaf_data Hs Hc Hcap Hh. destruct (Hsh d Hs) as (Hfl & Hd & Hs').
  destruct (first_leaf_ok node path d cells Hfl Hs Hc) as (e & Hin & Hdr).
  rewrite (build_struct _ _ _ _ Hstr). unfold get_leaf. pose proof Hh as Hh'. unfold holds in Hh'. rewrite Forall_forall in Hh'. pose proof (Hh' _ Hin) as He. cbn [fst snd] in He.
  rewrite He. cbn [fails_with ok_or]. rewrite (shred_struct _ _ _ Hstr) in Hh.
  set (md := sn_max_def_level node) in *.
  pose proof (children_ok (sn_children node) path d md (map (fields_cell md) cells) leaf_data HF Hd Hs') as E.
  rewrite length_map in E. rewrite E; [|..|done|done].
  - rewrite with_capacity_ok by lia. rewrite Nat2Z.id. apply struct_rows_ok; [|by rewrite length_map].
    intros j v Hj. change (map cell_value) with (fmap (M := list) cell_value) in Hj. rewrite list_lookup_fmap in Hj.
    destruct (cells !! j) as [c|] eqn:Ec; [|done]. cbn in Hj. injection Hj as <-. by eapply struct_row_ok.
  - apply Forall_fmap. eapply Forall_impl; [exact Hc|]. intros [k|v] Hx; cbn [cell_ok] in Hx; cbn; [lia|].
    rewrite (fits_struct _ _ Hstr) in Hx. destruct v as [| | |fs]; try done; [lia|]. by exists fs.
Qed.

Lemma field_ok node : field_ok_at node.
Proof.
  induction node as [name e cs md r HF] using node_ind'. destruct cs as [|c cs].
  { intros path d cells leaf_data Hs Hc Hcap Hh. apply Forall_cons in Hh as [Hh _]. cbn [fst snd] in Hh. cbn [build_field is_leaf sn_children].
    unfold get_leaf. rewrite Hh. cbn [fails_with ok_or]. f_equal. unfold leaf_entries. cbn [le_values]. rewrite !map_map.
    clear Hh Hcap. induction Hc as [|x cells Hx Hc IH]; [done|]. cbn [map]. f_equal; [|exact IH].
    destruct x as [k|v]; [done|]. cbn. by eapply scalar_nested. }
  set (node := Node name e (c :: cs) md r) in *.
  destruct (is_map node) eqn:Hm; [|destruct (has_repeated_child node) eqn:Hr].
  - intros path d cells leaf_data Hs Hc Hcap Hh. pose proof (optional_step_range e) as Ho. unfold node in Hs. cbn [shape_ok] in Hs. fold node in Hs. rewrite Hm in Hs.
    destruct Hs as (Hmd & Hrep & Hs). pose proof Hs as [_ Hkv]. destruct (sn_children c) as [|k [|v [|]]] eqn:Ek; try done.
    unfold node. cbn [build_field is_leaf sn_children]. fold node. rewrite decide_False by done. rewrite Hm.
    apply (map_field_ok node path cells leaf_data c k v); try done.
    + apply (repeated_of_cells node d); [done|cbn; lia|]. intros v0. unfold node. cbn [fits]. fold node. rewrite Hm. by destruct v0.
    + unfold node in Hh. cbn [shred] in Hh. fold node in Hh. rewrite Hm, Ek in Hh. exact Hh.
  - intros path d cells leaf_data Hs Hc Hcap Hh. pose proof (optional_step_range e) as Ho. unfold node in Hs. cbn [shape_ok] in Hs. fold node in Hs. rewrite Hm, Hr in Hs.
    destruct Hs as (Hmd & Hrep & Hs). unfold node. cbn [build_field is_leaf sn_children]. fold node. rewrite decide_False by done. rewrite Hm, Hr.
    apply (list_field_ok node path cells leaf_data c cs); try done.
    + apply (repeated_of_cells node d); [done|cbn; lia|]. intros v0. unfold node. cbn [fits]. fold node. rewrite Hm, Hr. by destruct v0.
    + unfold node in Hh. cbn [shred] in Hh. fold node in Hh. rewrite Hm, Hr in Hh. exact Hh.
  - destruct (decide (se_repetition e = Some Repeated)) as [Hrep|Hrep].
    { intros path d cells leaf_data Hs. unfold node in Hs. cbn [shape_ok] in Hs. by destruct Hs as (_ & ? & _). }
    apply struct_field_ok; [exact HF|done|]. intros d Hs. pose proof (optional_step_range e) as Ho.
    unfold node in Hs. cbn [shape_ok] in Hs. fold node in Hs. rewrite Hm, Hr in Hs. destruct Hs as (Hmd & _ & Hfl & Hs).
    split; [done|split; [cbn; lia|exact Hs]].
Qed.

(** A table: one column of rows per top-level field. *)
Fixpoint shred_table (fields : list SchemaNode) (columns : list (list NestedValue)) : list (list Z * LeafEntries) :=
  match fields, columns with
  | f :: fields, col :: columns => shred f (sn_name f) (map inr col) ++ shred_table fields columns
  | _, _ => []
  end.

(** Rows shredded into leaf columns are put together again, for every schema of
    scalars, structs, lists of scalars and maps of scalars. *)
Lemma reconstruct_ok root columns num_rows leaf_data :
  0 ≤ num_rows ≤ ISIZE_MAX →
  Forall2 (λ f col, shape_ok f 0 ∧ Forall (fits f) col ∧ zlen col = num_rows) (sn_children root) columns →
  holds leaf_data (shred_table (sn_children root) columns) →
  reconstruct_row_group root num_rows leaf_data = Ok (zip (map sn_name (sn_children root)) columns).
Proof.
  intros Hn HF. unfold reconstruct_row_group. induction HF as [|f col fields columns (Hs & Hf & Hl) HF IH]; intros Hh; [done|].
  cbn [shred_table] in Hh. apply holds_app in Hh as [Hh1 Hh2]. cbn [reconstruct_fields map zip].
  pose proof (field_ok f (sn_name f) 0 (map inr col) leaf_data Hs) as E. rewrite length_map, Hl in E. rewrite E; [|..|done].
  - rewrite (IH Hh2). cbn. do 3 f_equal. rewrite map_map. cbn. apply map_id.
  - apply Forall_fmap. exact Hf.
  - lia.
Qed.


Definition nested_element (name : list Z) (rep : Repetition) (ct : option ConvertedType) : SchemaElement :=
  {| se_name := name; se_physical_type := None; se_repetition := Some rep; se_num_children := None; se_type_length := None;
     se_converted_type := ct; se_scale := None; se_precision := None |}.

(** A list [l] of optional scalars and a struct [s] of a scalar [x] and a map [m]. *)
Definition nested_schema : SchemaNode :=
  let leaf name rep d r := Node name (nested_element name rep None) [] d r in
  Node [] (nested_element [] Required None)
    [Node [108] (nested_element [108] Optional None)
       [Node [114] (nested_element [114] Repeated None) [leaf [101] Optional 3 1] 2 1] 1 0;
     Node [115] (nested_element [115] Optional None)
       [leaf [120] Optional 2 0;
        Node [109] (nested_element [109] Optional (Some (COther 1)))
          [Node [107; 118] (nested_element [107; 118] Repeated None) [leaf KEY Required 3 1; leaf VALUE Optional 4 1] 3 1] 2 0] 1 0] 0 0.

Definition example_columns : list (list NestedValue) :=
  let int z := NScalar (LInt32 z) in
  [[NList [int 1; NNull; int 2]; NNull; NList []];
   [NNull; NStruct [([120], NNull); ([109], NList [])];
    NStruct [([120], int 7); ([109], NList [NStruct [(KEY, int 1); (VALUE, NNull)]; NStruct [(KEY, int 2); (VALUE, int 9)]])]]].

Definition example_leaves : LeafData := list_to_map (shred_table (sn_children nested_schema) example_columns).

Example nested_example :
  reconstruct_row_group nested_schema 3 example_leaves = Ok (zip (map sn_name (sn_children nested_schema)) example_columns).
Proof. vm_compute. reflexivity. Qed.
