(* ===== verification/Decimal.v ===== *)
(** * Decimals ([column/parquet/decimal.rs])

    A fixed-point number as an [i128] and a scale, its big-endian bytes and
    its text.  A text is the list of its characters.  [to_f64] is not
    modelled. *)

From S2P Require Import Prelude Digits Machine.

Record Decimal : Type := { unscaled : Z; scale : Z }.

Definition i128_ok (z : Z) : Prop := - 2 ^ 127 ≤ z < 2 ^ 127.

Section decimal.
Context `{Build}.

Definition i128_mul (a b : Z) : run () Z := arith (to_signed 128 (a * b)) (a * b).
Definition i128_pow10 (n : Z) : run () Z := arith (to_signed 128 (10 ^ n)) (10 ^ n).
Definition i32_neg (a : Z) : run () Z := arith (as_i32 (- a)) (- a).

Definition decimal_fmt (d : Decimal) : run () (list Z) :=
  if decide (scale d ≤ 0) then
    let? n := i32_neg (scale d) in
    let? p := i128_pow10 (n mod 2 ^ 32) in
    let? v := i128_mul (unscaled d) p in
    Ok (show_i128 v)
  else
    let? divisor := i128_pow10 (scale d) in
    let sign := if decide (unscaled d < 0) then [MINUS] else [] in
    let magnitude := Z.abs (unscaled d) in
    let divisor := divisor mod 2 ^ 128 in
    if decide (divisor = 0) then Err Panics
    else
      let whole := magnitude / divisor in
      let frac := magnitude mod divisor in
      Ok (sign ++ show_u128 whole ++ [DOT] ++ pad_left (scale d) (show_u128 frac)).
End decimal.

(** [value << 8] on an [i128] loses the bits that leave the type. *)
Definition from_be_bytes (bs : bytes) : Z :=
  let negative := match head bs with Some b => negb (bool_decide (Z.land b 0x80 = 0)) | None => false end in
  foldl (λ value byte, Z.lor (to_signed 128 (Z.shiftl value 8)) byte) (if negative then -1 else 0) bs.

(** ** Reading a decimal text *)

(** Digits up to the first other character. *)
Fixpoint span_digits (s : list Z) : list Z * list Z :=
  match s with
  | c :: s' => if is_digit c then let '(a, b) := span_digits s' in (c :: a, b) else ([], s)
  | [] => ([], [])
  end.

Definition read_unsigned (s : list Z) : option (Z * Z) :=
  let '(whole, rest) := span_digits s in
  match whole, rest with
  | [], _ => None
  | _, [] => Some (digits_val whole, 0)
  | _, c :: frac =>
      if decide (c = DOT ∧ frac ≠ [] ∧ forallb is_digit frac = true) then Some (digits_val (whole ++ frac), zlen frac) else None
  end.

(** A sign, digits, and a fraction whose length is the scale. *)
Definition read_decimal (s : list Z) : option Decimal :=
  match s with
  | c :: s' =>
      if decide (c = MINUS) then (λ '(v, n), {| unscaled := - v; scale := n |}) <$> read_unsigned s'
      else (λ '(v, n), {| unscaled := v; scale := n |}) <$> read_unsigned s
  | [] => None
  end.

(** ** Big-endian bytes *)

Lemma be_fold l acc :
  bytes_ok l → i128_ok (acc * 2 ^ (8 * zlen l) + be_val l) →
  foldl (λ value byte, Z.lor (to_signed 128 (Z.shiftl value 8)) byte) acc l = acc * 2 ^ (8 * zlen l) + be_val l.
Proof.
  intros Hl. revert acc. induction Hl as [|b l Hb Hl IH]; intros acc Hv; [cbn; lia|].
  rewrite be_val_cons in *. cbn [foldl length] in *. rewrite pow_8_S in *. pose proof (be_val_bound l Hl) as Hbl.
  set (p := 2 ^ (8 * zlen l)) in *. assert (Hp : 0 < p) by (apply Z.pow_pos_nonneg; lia).
  assert (Hstep : Z.lor (to_signed 128 (Z.shiftl acc 8)) b = acc * 256 + b).
  { unfold u8_ok in Hb. unfold i128_ok in Hv. assert (Hacc : - 2 ^ 119 ≤ acc < 2 ^ 119).
    { change (2 ^ 127) with (2 ^ 119 * 256) in Hv. change (2 ^ 119) with 664613997892457936451903530140172288 in *. nia. }
    rewrite Z.shiftl_mul_pow2 by lia. change (2 ^ 8) with 256. change (2 ^ 119) with 664613997892457936451903530140172288 in *.
    rewrite to_signed_small by (first [lia | change (2 ^ (128 - 1)) with 170141183460469231731687303715884105728; lia]).
    rewrite Z.lor_comm. change 256 with (2 ^ 8). rewrite (lor_above b acc 8) by lia. lia. }
  rewrite Hstep, IH; [lia|]. replace ((acc * 256 + b) * p + be_val l) with (acc * (256 * p) + (b * p + be_val l)) by lia. done.
Qed.

(** The [n] low bytes of a number, most significant first, read back. *)
Lemma from_be_bytes_twos (n : nat) v :
  (1 ≤ n ≤ 16)%nat → - 2 ^ (8 * Z.of_nat n - 1) ≤ v < 2 ^ (8 * Z.of_nat n - 1) → from_be_bytes (be_bytes n v) = v.
Proof.
  intros Hn Hv. destruct n as [|m]; [lia|]. set (q := 2 ^ (8 * Z.of_nat m)).
  assert (Hq : 0 < q) by (apply Z.pow_pos_nonneg; lia).
  assert (Hhalf : 2 ^ (8 * Z.of_nat (S m) - 1) = 128 * q).
  { replace (8 * Z.of_nat (S m) - 1) with (7 + 8 * Z.of_nat m) by lia. rewrite Z.pow_add_r by lia. done. }
  rewrite Hhalf in Hv. unfold from_be_bytes.
  match goal with |- foldl _ ?a _ = _ => set (acc := a) end.
  assert (Hacc : acc = if decide (v < 0) then -1 else 0).
  { unfold acc. cbn [be_bytes head]. fold q. pose proof (Z.mod_pos_bound (v / q) 256 ltac:(lia)) as Hm.
    assert (-128 ≤ v / q < 128) as Hd by (split; [apply Z.div_le_lower_bound|apply Z.div_lt_upper_bound]; lia).
    pose proof (Z.div_mod v q ltac:(lia)). pose proof (Z.mod_pos_bound v q Hq).
    assert (Hl := land_80 ((v / q) mod 256) Hm). case_decide as Hneg.
    - rewrite bool_decide_eq_false_2; [done|]. rewrite Hl. assert (v / q < 0) by nia. Z.div_mod_to_equations. lia.
    - rewrite bool_decide_eq_true_2; [done|]. apply Hl. assert (0 ≤ v / q) by (apply Z.div_pos; lia). rewrite Z.mod_small; lia. }
  assert (Ev : acc * 2 ^ (8 * zlen (be_bytes (S m) v)) + be_val (be_bytes (S m) v) = v).
  { rewrite be_bytes_length, be_val_be_bytes, pow_8_S. fold q. rewrite Hacc. case_decide.
    - rewrite <- (Z.mod_add v 1) by lia. rewrite Z.mod_small; lia.
    - rewrite Z.mod_small; lia. }
  rewrite be_fold; [done|apply be_bytes_ok|]. rewrite Ev. unfold i128_ok.
  assert (q ≤ 2 ^ 120) by (apply Z.pow_le_mono_r; lia). change (2 ^ 127) with (128 * 2 ^ 120). lia.
Qed.

(** ** Digits *)

Lemma span_digits_app s r :
  forallb is_digit s = true → match r with c :: _ => is_digit c = false | [] => True end → span_digits (s ++ r) = (s, r).
Proof.
  intros Hs Hr. induction s as [|c s IH]; cbn in *.
  - destruct r as [|c r]; [done|]. cbn. by rewrite Hr.
  - apply andb_prop in Hs as [-> Hs]. by rewrite IH.
Qed.

(** A sign before an unsigned text. *)
Lemma read_signed v n s (neg : bool) :
  read_unsigned s = Some (v, n) → read_decimal ((if neg then [MINUS] else []) ++ s) = Some {| unscaled := if neg then - v else v; scale := n |}.
Proof.
  intros Hs. destruct neg; cbn [app]; unfold read_decimal.
  - rewrite decide_True by done. by rewrite Hs.
  - destruct s as [|c s]; [done|]. rewrite decide_False; [by rewrite Hs|]. intros ->. cbn in Hs. done.
Qed.

Section text.
Context `{Build} (v : Z).
Hypothesis Hv : i128_ok v.

Lemma abs_u128 : 0 ≤ Z.abs v < 2 ^ 128.
Proof using Hv. unfold i128_ok in Hv. change (2 ^ 127) with 170141183460469231731687303715884105728 in Hv. change (2 ^ 128) with 340282366920938463463374607431768211456. lia. Qed.

Lemma pow10_ok s : 0 ≤ s ≤ 38 → i128_pow10 s = Ok (10 ^ s) ∧ 0 < 10 ^ s < 2 ^ 128.
Proof using.
  intros Hs. assert (Hpow : 0 < 10 ^ s ≤ 10 ^ 38) by (split; [apply Z.pow_pos_nonneg|apply Z.pow_le_mono_r]; lia).
  change (10 ^ 38) with 100000000000000000000000000000000000000 in Hpow. unfold i128_pow10.
  change (2 ^ 128) with 340282366920938463463374607431768211456. split; [|lia].
  rewrite to_signed_small; [apply arith_exact|lia|]. change (2 ^ (128 - 1)) with 170141183460469231731687303715884105728. lia.
Qed.

(** The sign is written for a negative number. *)
Lemma read_abs n s :
  read_unsigned s = Some (Z.abs v, n) → read_decimal ((if decide (v < 0) then [MINUS] else []) ++ s) = Some {| unscaled := v; scale := n |}.
Proof using.
  clear. intros Hr. pose proof (read_signed _ _ _ (bool_decide (v < 0)) Hr) as Hrd. case_decide as Hneg.
  - rewrite bool_decide_eq_true_2 in Hrd by done. etransitivity; [exact Hrd|]. do 2 f_equal. lia.
  - rewrite bool_decide_eq_false_2 in Hrd by done. etransitivity; [exact Hrd|]. do 2 f_equal. lia.
Qed.

Lemma fmt_integer : ∃ text, decimal_fmt {| unscaled := v; scale := 0 |} = Ok text ∧ read_decimal text = Some {| unscaled := v; scale := 0 |}.
Proof using Hv.
  exists ((if decide (v < 0) then [MINUS] else []) ++ show_u128 (Z.abs v)). split.
  - unfold decimal_fmt. cbn [scale unscaled]. rewrite decide_True by lia.
    assert (Hn0 : i32_neg 0 = Ok 0) by reflexivity. rewrite Hn0. change (0 mod 2 ^ 32) with 0.
    rewrite (proj1 (pow10_ok 0 ltac:(lia))). change (10 ^ 0) with 1. unfold i128_mul. rewrite Z.mul_1_r, to_signed_small by (exact Hv || lia).
    rewrite arith_exact. f_equal. unfold show_i128. case_decide; cbn [app]; repeat f_equal; lia.
  - apply read_abs. destruct (show_u128_ok _ abs_u128) as (Hd & Hall & Hne & _). unfold read_unsigned.
    rewrite <- (app_nil_r (show_u128 (Z.abs v))) at 1. rewrite span_digits_app by done.
    destruct (show_u128 (Z.abs v)) eqn:E; [done|]. by rewrite Hd.
Qed.

Lemma fmt_fraction s : 1 ≤ s ≤ 38 → ∃ text, decimal_fmt {| unscaled := v; scale := s |} = Ok text ∧ read_decimal text = Some {| unscaled := v; scale := s |}.
Proof using Hv.
  intros Hs. destruct (pow10_ok s ltac:(lia)) as [Hp Hb]. pose proof abs_u128 as Hm. unfold decimal_fmt. cbn [scale unscaled].
  rewrite decide_False, Hp by lia. rewrite Z.mod_small by lia. rewrite decide_False by lia. eexists. split; [done|]. apply read_abs.
  set (m := Z.abs v) in *. pose proof (Z.div_mod m (10 ^ s) ltac:(lia)) as Hdm. pose proof (Z.mod_pos_bound m (10 ^ s) ltac:(lia)) as Hmb.
  assert (Hdb : 0 ≤ m / 10 ^ s ≤ m) by (split; [apply Z.div_pos; lia|apply Z.div_le_upper_bound; nia]).
  destruct (show_u128_ok (m / 10 ^ s)) as (Hd & Hall & Hne & _); [lia|].
  destruct (show_u128_ok (m mod 10 ^ s)) as (Hdf & Hallf & _ & Hk); [lia|].
  destruct (pad_left_ok s (show_u128 (m mod 10 ^ s)) (Hk s ltac:(lia) ltac:(lia)) Hallf) as (Hpl & Hpv & Hpa).
  set (w := show_u128 (m / 10 ^ s)) in *. set (f := pad_left s _) in *. unfold read_unsigned. rewrite span_digits_app by done.
  cbn [app]. destruct w eqn:Ew; [done|]. rewrite <- Ew in *.
  rewrite decide_True by (split_and!; [done|intros E; rewrite E in Hpl; cbn in Hpl; lia|done]). rewrite digits_val_app, Hd, Hpv, Hdf, Hpl. do 2 f_equal. lia.
Qed.
End text.

(** ** Properties *)

(** A decimal is exact from its bytes to its text.  The big-endian
    two's-complement bytes of a number, one to sixteen of them, are read as
    that number; and for every scale from 0 to 38 the text of the decimal
    denotes the same number with the same scale, in a release and in a debug
    build. *)
Theorem decimal_exact `{Build} (n : nat) (v s : Z) :
  (1 ≤ n ≤ 16)%nat → - 2 ^ (8 * Z.of_nat n - 1) ≤ v < 2 ^ (8 * Z.of_nat n - 1) → 0 ≤ s ≤ 38 →
  from_be_bytes (be_bytes n v) = v ∧
  ∃ text, decimal_fmt {| unscaled := v; scale := s |} = Ok text ∧ read_decimal text = Some {| unscaled := v; scale := s |}.
Proof.
  intros Hn Hv Hs. split; [by apply from_be_bytes_twos|].
  assert (H128 : i128_ok v).
  { unfold i128_ok. assert (2 ^ (8 * Z.of_nat n - 1) ≤ 2 ^ 127) by (apply Z.pow_le_mono_r; lia). lia. }
  destruct (decide (s = 0)) as [->|]; [by apply fmt_integer|apply fmt_fraction; [done|lia]].
Qed.

(** The text of [-0.105]. *)
Example decimal_fmt_ex : decimal_fmt (H := debug) {| unscaled := -105; scale := 3 |} = Ok [45; 48; 46; 49; 48; 53].
Proof. reflexivity. Qed.
