(* ===== verification/ParquetFile.v ===== *)
(** * The Parquet file reader ([column/parquet/parquet_file.rs], [compression/mod.rs], [compression/zstd.rs])

    A file is opened by parsing its footer; a column chunk is then read page
    by page: header, decompression, and the decoder of the column's type,
    against the dictionary once a dictionary page has been seen.  The [ruzstd]
    decoder is a parameter.  Sizes and offsets of the metadata are cast to
    [usize] as the source does, so a negative one is a very large one. *)

From S2P Require Import Prelude Text Machine Thrift ParquetMeta ParquetEncoding Snappy ParquetReader SchemaTree Nested Decimal.

(** ** Decompression *)

Inductive ZstdError : Type :=
| ZFrame (e : list Z)
| ZRead (e : list Z)
| ZSizeMismatch (expected actual : Z).

Inductive CompressionError : Type :=
| UnsupportedCodec (c : Z)
| CompSnappy (e : SnappyError)
| CompZstd (e : ZstdError).

(** The streaming decoder of [ruzstd]: its constructor and [read_to_end],
    with the text of their errors. *)
Class Ruzstd : Type := {
  decoder : Type;
  new_decoder : bytes → result (list Z) decoder;
  read_to_end : decoder → result (list Z) bytes;
}.

Section file.
Context `{Build} `{Ruzstd} (value_size : Z).

Definition zstd_decompress (data : bytes) (uncompressed_size : Z) : run ZstdError bytes :=
  let? dec := (match new_decoder data with Ok d => Ok d | Err e => Err (Fails (ZFrame e)) end) in
  let? _ := with_capacity 1 uncompressed_size in
  let? out := (match read_to_end dec with Ok o => Ok o | Err e => Err (Fails (ZRead e)) end) in
  if decide (zlen out ≠ uncompressed_size) then Err (Fails (ZSizeMismatch uncompressed_size (zlen out)))
  else Ok out.

Definition decompress (codec : Codec) (compressed : bytes) (uncompressed_size : Z) : run CompressionError bytes :=
  match codec with
  | Uncompressed => Ok compressed
  | CSnappy => lift_err CompSnappy (snappy_decompress compressed uncompressed_size)
  | CZstd => lift_err CompZstd (zstd_decompress compressed uncompressed_size)
  | CodecOther c => Err (Fails (UnsupportedCodec c))
  end.

(** ** Files *)

Inductive FileError : Type :=
| FFooter (e : FooterError)
| FPage (e : PageError)
| FRead (e : ReadError)
| FCompression (e : CompressionError)
| ColumnIndexOutOfRange (i : Z)
| ChunkOutOfBounds
| MissingColumnMetadata
| UnexpectedDictionaryPage
| MissingDictionaryPage
| MissingTypeLength
| MissingDecimalScale
| UnsupportedTimestampPhysicalType (t : PhysicalType)
| UnsupportedDecimalPhysicalType (t : PhysicalType)
| UnsupportedNestedDictionary
| UnsupportedNestedEncoding (e : Encoding)
| FNested (e : NestedError).

Record ParquetFile : Type := {
  pf_metadata : FileMetaData;
  pf_data : bytes;
  pf_schema_tree : SchemaNode;
  pf_is_flat : bool;
}.

Definition is_flat_schema {E} (schema : list SchemaElement) : run E bool :=
  match schema with
  | [] => Ok true
  | root :: rest =>
      let expected_leaves := as_usize (default 0 (se_num_children root)) in
      let? n := u_add expected_leaves 1 in
      Ok (bool_decide (zlen schema = n) &&
          forallb (λ s, bool_decide (is_Some (se_physical_type s)) && bool_decide (se_repetition s ≠ Some Repeated)) rest)
  end.


Definition open (data : bytes) : run FileError ParquetFile :=
  let? metadata := lift_err FFooter (parse_footer value_size data) in
  let? is_flat := is_flat_schema (fm_schema metadata) in
  let? tree := (match build_schema_tree (fm_schema metadata) with
                | Ok t => Ok t | Err OutOfFuel => Err OutOfFuel | Err _ => Err Panics end) in
  Ok {| pf_metadata := metadata; pf_data := data; pf_schema_tree := tree; pf_is_flat := is_flat |}.

Definition row_group (file : ParquetFile) (index : Z) : option RowGroup :=
  fm_row_groups (pf_metadata file) !! Z.to_nat index.

(** [schema.get(column_index + 1)]. *)
Definition leaf_element (file : ParquetFile) (column_index : Z) : option SchemaElement :=
  fm_schema (pf_metadata file) !! Z.to_nat (column_index + 1).

Definition max_definition_level (file : ParquetFile) (column_index : Z) : Z :=
  match leaf_element file column_index ≫= se_repetition with Some Optional => 1 | _ => 0 end.

Definition type_length (file : ParquetFile) (column_index : Z) : run FileError Z :=
  fails_with (as_usize <$> (leaf_element file column_index ≫= se_type_length)) MissingTypeLength.

Definition converted_type (file : ParquetFile) (column_index : Z) : option ConvertedType :=
  leaf_element file column_index ≫= se_converted_type.

Definition decimal_scale (file : ParquetFile) (column_index : Z) : run FileError Z :=
  fails_with (leaf_element file column_index ≫= se_scale) MissingDecimalScale.

(** ** Column chunks *)

Definition column_meta (group : RowGroup) (column_index : Z) : run FileError ColumnMetaData :=
  let? chunk := fails_with (rg_columns group !! Z.to_nat column_index) (ColumnIndexOutOfRange column_index) in
  fails_with (cc_meta_data chunk) MissingColumnMetadata.

Definition column_chunk_bytes (file : ParquetFile) (group : RowGroup) (column_index : Z) : run FileError bytes :=
  let? meta := column_meta group column_index in
  let start := as_usize (default (cm_data_page_offset meta) (cm_dictionary_page_offset meta)) in
  let? end_ := u_add start (as_usize (cm_total_compressed_size meta)) in
  fails_with (get_range (pf_data file) start end_) ChunkOutOfBounds.

(** The head of every loop over pages: the header at [pos], the stored bytes
    of the page and where the next one starts. *)
Definition next_page (chunk_bytes : bytes) (pos : Z) : run FileError (PageHeader * bytes * Z) :=
  let? rest := index (get_from chunk_bytes pos) in
  let? hc := lift_err FPage (decode_page_header value_size rest) in
  let '(header, consumed) := hc in
  let? page_start := u_add pos consumed in
  let? page_end := u_add page_start (as_usize (ph_compressed_page_size header)) in
  let? compressed := fails_with (get_range chunk_bytes page_start page_end) ChunkOutOfBounds in
  Ok (header, compressed, page_end).

Definition page_body (codec : Codec) (header : PageHeader) (compressed : bytes) : run FileError bytes :=
  lift_err FCompression (decompress codec compressed (as_usize (ph_uncompressed_page_size header))).

Definition is_dictionary_encoded (e : Encoding) : bool :=
  match e with EPlainDictionary | ERleDictionary => true | _ => false end.

Section read_column.
Context {T : Type}.
Context (decode_plain : bytes → DataPageHeader → Z → run ReadError (list (option T))).
Context (decode_dictionary : bytes → Z → run ReadError (list T)).
Context (decode_data : bytes → DataPageHeader → Z → list T → run ReadError (list (option T))).
Context (codec : Codec) (chunk_bytes : bytes) (max_def_level : Z).

Definition page_values (page_body : bytes) (h : DataPageHeader) (dictionary : option (list T)) : run FileError (list (option T)) :=
  match is_dictionary_encoded (dp_encoding h), dictionary with
  | true, Some dict => lift_err FRead (decode_data page_body h max_def_level dict)
  | true, None => Err (Fails MissingDictionaryPage)
  | false, _ => lift_err FRead (decode_plain page_body h max_def_level)
  end.

Fixpoint read_pages (fuel : nat) (pos : Z) (dictionary : option (list T)) (out : list (option T))
  : run FileError (list (option T)) :=
  if decide (zlen chunk_bytes ≤ pos) then Ok out
  else
    match fuel with
    | O => Err OutOfFuel
    | S fuel =>
        let? hcp := next_page chunk_bytes pos in
        let '(header, compressed, page_end) := hcp in
        match ph_page_type header with
        | DataPage h =>
            let? body := page_body codec header compressed in
            let? values := page_values body h dictionary in
            read_pages fuel page_end dictionary (out ++ values)
        | DictionaryPage h =>
            match dictionary with
            | Some _ => Err (Fails UnexpectedDictionaryPage)
            | None =>
                let? body := page_body codec header compressed in
                let? dict := lift_err FRead (decode_dictionary body (dict_num_values h)) in
                read_pages fuel page_end (Some dict) out
            end
        end
    end.

Fixpoint read_index_pages (fuel : nat) (pos : Z) (dictionary : option (list T)) (indices : list (option Z))
  : run FileError (option (list T * list (option Z))) :=
  if decide (zlen chunk_bytes ≤ pos) then Ok ((λ dict, (dict, indices)) <$> dictionary)
  else
    match fuel with
    | O => Err OutOfFuel
    | S fuel =>
        let? hcp := next_page chunk_bytes pos in
        let '(header, compressed, page_end) := hcp in
        match ph_page_type header with
        | DataPage h =>
            if match dictionary with None => true | Some _ => negb (is_dictionary_encoded (dp_encoding h)) end then Ok None
            else
              let? body := page_body codec header compressed in
              let? values := lift_err FRead (read_dictionary_index_column body h max_def_level) in
              read_index_pages fuel page_end dictionary (indices ++ values)
        | DictionaryPage h =>
            match dictionary with
            | Some _ => Err (Fails UnexpectedDictionaryPage)
            | None =>
                let? body := page_body codec header compressed in
                let? dict := lift_err FRead (decode_dictionary body (dict_num_values h)) in
                read_index_pages fuel page_end (Some dict) indices
            end
        end
    end.
End read_column.

Definition read_column {T} (decode_plain : bytes → DataPageHeader → Z → run ReadError (list (option T)))
    (decode_dictionary : bytes → Z → run ReadError (list T))
    (decode_data : bytes → DataPageHeader → Z → list T → run ReadError (list (option T)))
    (file : ParquetFile) (group : RowGroup) (column_index : Z) : run FileError (list (option T)) :=
  let? meta := column_meta group column_index in
  let? chunk_bytes := column_chunk_bytes file group column_index in
  let max_def_level := max_definition_level file column_index in
  read_pages decode_plain decode_dictionary decode_data (cm_codec meta) chunk_bytes max_def_level (length chunk_bytes) 0 None [].

Definition read_column_dictionary_indices {T} (decode_dictionary : bytes → Z → run ReadError (list T))
    (file : ParquetFile) (group : RowGroup) (column_index : Z) : run FileError (option (list T * list (option Z))) :=
  let? meta := column_meta group column_index in
  let? chunk_bytes := column_chunk_bytes file group column_index in
  let max_def_level := max_definition_level file column_index in
  read_index_pages decode_dictionary (cm_codec meta) chunk_bytes max_def_level (length chunk_bytes) 0 None [].

(** ** Nested leaves *)

(** [for i in 0..num_values]: a scalar where the definition level is the maximum. *)
Fixpoint leaf_values (n : nat) (i : Z) (def_levels : list Z) (max_def_level : Z) (physical_type : PhysicalType)
    (value_bytes : bytes) (bit_pos : Z) : run ReadError (list (option LeafScalar)) :=
  match n with
  | O => Ok []
  | S n =>
      let def := default max_def_level (get_byte def_levels i) in
      if decide (def = max_def_level) then
        let? sb := read_plain_scalar value_bytes physical_type bit_pos in
        let? out := leaf_values n (i + 1) def_levels max_def_level physical_type sb.2.1 sb.2.2 in
        Ok (Some sb.1 :: out)
      else
        let? out := leaf_values n (i + 1) def_levels max_def_level physical_type value_bytes bit_pos in
        Ok (None :: out)
  end.

(** One data page of a leaf column. *)
Definition leaf_page (leaf : SchemaNode) (physical_type : PhysicalType) (body : bytes) (h : DataPageHeader)
  : run ReadError LeafEntries :=
  let? rdv := split_rep_def_levels body h (sn_max_rep_level leaf) (sn_max_def_level leaf) in
  let '(rep_levels, def_levels, value_bytes) := rdv in
  let num_values := Z.to_nat (as_usize (dp_num_values h)) in
  let? values := leaf_values num_values 0 def_levels (sn_max_def_level leaf) physical_type value_bytes 0 in
  Ok {|
    le_rep_levels := if decide (rep_levels = []) then replicate num_values 0 else rep_levels;
    le_def_levels := if decide (def_levels = []) then replicate num_values (sn_max_def_level leaf) else def_levels;
    le_values := values;
  |}.

Definition extend_entries (a b : LeafEntries) : LeafEntries := {|
  le_rep_levels := le_rep_levels a ++ le_rep_levels b;
  le_def_levels := le_def_levels a ++ le_def_levels b;
  le_values := le_values a ++ le_values b;
|}.

Definition no_entries : LeafEntries := {| le_rep_levels := []; le_def_levels := []; le_values := [] |}.

Fixpoint read_leaf_pages (codec : Codec) (chunk_bytes : bytes) (leaf : SchemaNode) (physical_type : PhysicalType)
    (fuel : nat) (pos : Z) (out : LeafEntries) : run FileError LeafEntries :=
  if decide (zlen chunk_bytes ≤ pos) then Ok out
  else
    match fuel with
    | O => Err OutOfFuel
    | S fuel =>
        let? hcp := next_page chunk_bytes pos in
        let '(header, compressed, page_end) := hcp in
        match ph_page_type header with
        | DictionaryPage _ => Err (Fails UnsupportedNestedDictionary)
        | DataPage h =>
            if decide (dp_encoding h ≠ EPlain) then Err (Fails (UnsupportedNestedEncoding (dp_encoding h)))
            else
              let? body := page_body codec header compressed in
              let? entries := lift_err FRead (leaf_page leaf physical_type body h) in
              read_leaf_pages codec chunk_bytes leaf physical_type fuel page_end (extend_entries out entries)
        end
    end.

Definition read_leaf_entries (file : ParquetFile) (group : RowGroup) (column_index : Z) (leaf : SchemaNode)
  : run FileError LeafEntries :=
  let? meta := column_meta group column_index in
  let? chunk_bytes := column_chunk_bytes file group column_index in
  let? physical_type := fails_with (se_physical_type (sn_element leaf)) MissingColumnMetadata in
  read_leaf_pages (cm_codec meta) chunk_bytes leaf physical_type (length chunk_bytes) 0 no_entries.

(** Every leaf column of the row group, keyed by its path. *)
Fixpoint read_leaves (file : ParquetFile) (group : RowGroup) (column_index : Z) (lps : list (SchemaNode * list Z))
    (leaf_data : LeafData) : run FileError LeafData :=
  match lps with
  | [] => Ok leaf_data
  | (leaf, path) :: lps =>
      let? entries := read_leaf_entries file group column_index leaf in
      read_leaves file group (column_index + 1) lps (<[path := entries]> leaf_data)
  end.

Definition read_nested_column (file : ParquetFile) (row_group_index : Z) (field_name : list Z)
  : run FileError (list NestedValue) :=
  let? group := fails_with (row_group file row_group_index) (ColumnIndexOutOfRange row_group_index) in
  if negb (existsb (λ c, bool_decide (sn_name c = field_name)) (sn_children (pf_schema_tree file))) then
    Err (Fails (ColumnIndexOutOfRange row_group_index))
  else
    let lps := zip (leaves (pf_schema_tree file)) (leaf_paths (pf_schema_tree file)) in
    let? leaf_data := read_leaves file group 0 lps ∅ in
    let num_rows := as_usize (rg_num_rows group) in
    let? columns := lift_err FNested (reconstruct_row_group (pf_schema_tree file) num_rows leaf_data) in
    let? ic := fails_with (list_find (λ c : list Z * list NestedValue, c.1 = field_name) columns) (ColumnIndexOutOfRange row_group_index) in
    Ok ic.2.2.

(** ** The typed readers *)

Definition read_int64_column_dictionary_indices := read_column_dictionary_indices decode_dictionary_int64.
Definition read_double_column_dictionary_indices := read_column_dictionary_indices decode_dictionary_double.
Definition read_boolean_column_dictionary_indices := read_column_dictionary_indices decode_dictionary_boolean.
Definition read_string_column_dictionary_indices := read_column_dictionary_indices decode_dictionary_string.

Definition file_int64_column := read_column read_int64_column decode_dictionary_int64 read_int64_column_dictionary.
Definition file_double_column := read_column read_double_column decode_dictionary_double read_double_column_dictionary.
Definition file_boolean_column := read_column read_boolean_column decode_dictionary_boolean read_boolean_column_dictionary.
Definition file_string_column := read_column read_string_column decode_dictionary_string read_string_column_dictionary.
Definition file_int32_column := read_column read_int32_column decode_dictionary_int32 read_int32_column_dictionary.
Definition file_float_column := read_column read_float_column decode_dictionary_float read_float_column_dictionary.

Definition file_fixed_len_byte_array_column (file : ParquetFile) (group : RowGroup) (column_index : Z)
  : run FileError (list (option bytes)) :=
  let? type_length := type_length file column_index in
  read_column (read_fixed_len_byte_array_column type_length) (decode_dictionary_fixed_len_byte_array type_length)
    read_fixed_len_byte_array_column_dictionary file group column_index.

Definition file_int96_column := read_column read_int96_column decode_dictionary_int96 read_int96_column_dictionary.

(** ** Timestamps and decimals *)

Definition JULIAN_DAY_UNIX_EPOCH : Z := 2440588.

Definition int96_to_epoch_micros {E} (v : Int96) : run E Z :=
  let days_since_epoch := i96_julian_day v - JULIAN_DAY_UNIX_EPOCH in
  let? micros := i64_mul days_since_epoch 86400000000 in
  i64_add micros (Z.quot (i96_time_nanos v) 1000).

(** [raw.into_iter().map(|v| v.map(f)).collect()] where [f] may panic. *)
Fixpoint map_values {A B} (f : A → run FileError B) (raw : list (option A)) : run FileError (list (option B)) :=
  match raw with
  | [] => Ok []
  | None :: raw => let? out := map_values f raw in Ok (None :: out)
  | Some v :: raw =>
      let? w := f v in
      let? out := map_values f raw in
      Ok (Some w :: out)
  end.

Definition read_timestamp_column (file : ParquetFile) (group : RowGroup) (column_index : Z) : run FileError (list (option Z)) :=
  let? meta := column_meta group column_index in
  match cm_physical_type meta with
  | PInt64 =>
      let is_millis := bool_decide (converted_type file column_index = Some TimestampMillis) in
      let? raw := file_int64_column file group column_index in
      map_values (λ v, if is_millis then i64_mul v 1000 else Ok v) raw
  | PInt96 =>
      let? raw := file_int96_column file group column_index in
      map_values int96_to_epoch_micros raw
  | other => Err (Fails (UnsupportedTimestampPhysicalType other))
  end.

Definition read_decimal_column (file : ParquetFile) (group : RowGroup) (column_index : Z) : run FileError (list (option Decimal)) :=
  let? s := decimal_scale file column_index in
  let? meta := column_meta group column_index in
  match cm_physical_type meta with
  | PInt32 =>
      let? raw := file_int32_column file group column_index in
      Ok (map (fmap (λ v, {| unscaled := v; scale := s |})) raw)
  | PInt64 =>
      let? raw := file_int64_column file group column_index in
      Ok (map (fmap (λ v, {| unscaled := v; scale := s |})) raw)
  | PFixedLenByteArray =>
      let? raw := file_fixed_len_byte_array_column file group column_index in
      Ok (map (fmap (λ bs, {| unscaled := from_be_bytes bs; scale := s |})) raw)
  | other => Err (Fails (UnsupportedDecimalPhysicalType other))
  end.
End file.

(** ** What the decoders of a column type promise *)

(** The bytes of a column of [T]: how a writer lays out its values in a page. *)
Class ColumnCodec `{Build} {T} (decode_plain : bytes → DataPageHeader → Z → run ReadError (list (option T)))
    (decode_dictionary : bytes → Z → run ReadError (list T))
    (decode_data : bytes → DataPageHeader → Z → list T → run ReadError (list (option T)))
    (write : list T → bytes) (ok : T → Prop) : Prop := {
  codec_plain m header levels bs vs rest :
    0 ≤ m < 2 ^ 32 → 0 ≤ dp_num_values header < 2 ^ 31 → zlen vs = dp_num_values header →
    level_bytes m (dp_num_values header) levels bs → slots m levels vs → dp_encoding header = EPlain → Forall ok (somes vs) →
    decode_plain (bs ++ write (somes vs) ++ rest) header m = Ok vs;
  codec_dictionary ds rest : Forall ok ds → zlen ds < 2 ^ 31 → decode_dictionary (write ds ++ rest) (zlen ds) = Ok ds;
  codec_data : decode_data = dictionary_column;
}.

Lemma read_n_codec {T} (read : bytes → run ReadError (T * bytes)) write ok `{!PlainCodec read write ok} ds rest :
  Forall ok ds → (let? r := read_n read (Z.to_nat (zlen ds)) (concat (map write ds) ++ rest) in Ok r.1) = Ok ds.
Proof. intros Hok. rewrite Nat2Z.id. destruct (read_n_ok read ds _ (reads_plain read write ok ds rest Hok)) as [st ->]. done. Qed.

Ltac by_read_n := intros; eapply read_n_codec; [apply _|eassumption].

Section codecs.
Context `{Build}.

#[global] Instance int64_codec :
  ColumnCodec read_int64_column decode_dictionary_int64 read_int64_column_dictionary (λ vs, concat (map (le_bytes 8) vs)) i64_ok.
Proof.
  split; [|by_read_n|done].
  intros m header levels bs vs rest Hm Hn Hl Hlv Hs He Hok. apply (int64_plain_ok m header levels bs); try done. by rewrite He.
Qed.

Lemma plain_codec {T} (read : bytes → run ReadError (T * bytes)) write ok dd `{!PlainCodec read write ok} :
  (∀ ds rest, Forall ok ds → dd (concat (map write ds) ++ rest) (zlen ds) = Ok ds) →
  ColumnCodec (plain_column read) dd dictionary_column (λ vs, concat (map write vs)) ok.
Proof.
  intros Hd. split; [|by intros; apply Hd|done].
  intros m header levels bs vs rest Hm Hn Hl Hlv Hs He Hok. by apply (plain_column_ok m header levels bs vs Hm Hn Hl Hlv Hs read write ok).
Qed.

#[global] Instance double_codec :
  ColumnCodec read_double_column decode_dictionary_double read_double_column_dictionary (λ vs, concat (map (le_bytes 8) vs)) u64_ok.
Proof. apply plain_codec; [apply _|]. by_read_n. Qed.
#[global] Instance string_codec :
  ColumnCodec read_string_column decode_dictionary_string read_string_column_dictionary (λ vs, concat (map write_string vs))
    (λ s, str_ok s ∧ zlen (as_bytes s) < 2 ^ 32).
Proof. apply plain_codec; [apply _|]. by_read_n. Qed.
#[global] Instance int32_codec :
  ColumnCodec read_int32_column decode_dictionary_int32 read_int32_column_dictionary (λ vs, concat (map (le_bytes 4) vs)) i32_ok.
Proof. apply plain_codec; [apply _|]. by_read_n. Qed.
#[global] Instance float_codec :
  ColumnCodec read_float_column decode_dictionary_float read_float_column_dictionary (λ vs, concat (map (le_bytes 4) vs)) u32_ok.
Proof. apply plain_codec; [apply _|]. by_read_n. Qed.
#[global] Instance fixed_codec len :
  ColumnCodec (read_fixed_len_byte_array_column len) (decode_dictionary_fixed_len_byte_array len)
    read_fixed_len_byte_array_column_dictionary (λ vs, concat (map id vs)) (λ s, zlen s = len).
Proof. apply plain_codec; [apply _|]. by_read_n. Qed.
#[global] Instance int96_codec :
  ColumnCodec read_int96_column decode_dictionary_int96 read_int96_column_dictionary (λ vs, concat (map write_int96 vs))
    (λ v, i64_ok (i96_time_nanos v) ∧ i32_ok (i96_julian_day v)).
Proof. apply plain_codec; [apply _|]. by_read_n. Qed.

#[global] Instance boolean_codec :
  ColumnCodec read_boolean_column decode_dictionary_boolean read_boolean_column_dictionary (λ vs, pack 1 (map Z.b2z vs)) (λ _, True).
Proof.
  split; [| |done].
  - intros m header levels bs vs rest Hm Hn Hl Hlv Hs He _. by apply (boolean_column_ok m header levels bs Hm Hn Hlv).
  - intros ds rest _ Hl. unfold decode_dictionary_boolean. rewrite usize_small by lia. rewrite Nat2Z.id.
    destruct (read_n_ok (read_bit (pack 1 (map Z.b2z ds) ++ rest)) ds 0) as [st ->]; [|done]. apply packed_bits_read.
Qed.
End codecs.

(** ** Column chunks as a writer lays them out *)

(** A page as stored: its header and its bytes, compressed or not. *)
Abbreviation stored_page := (PageHeader * bytes)%type.

Definition stored_bytes (p : stored_page) : bytes := page_header_bytes p.1 ++ p.2.

Lemma fields_bytes_pos last fs : (0 < length (fields_bytes last fs))%nat.
Proof. revert last. induction fs as [|[id v] fs IH]; intros last; cbn [fields_bytes]; [cbn; lia|]. rewrite !length_app. specialize (IH id). lia. Qed.

Section chunk.
Context `{Build} `{Ruzstd} (value_size : Z) (codec : Codec) (m : Z).
Hypothesis Hsize : 0 < value_size.

(** The header is well formed, counts the stored bytes, and these decompress
    to the body. *)
Definition stores (p : stored_page) (body : bytes) : Prop :=
  page_header_ok p.1 ∧ ph_compressed_page_size p.1 = zlen p.2 ∧
  decompress codec p.2 (as_usize (ph_uncompressed_page_size p.1)) = Ok body.

Section values.
Context {T : Type} (write : list T → bytes) (ok : T → Prop).

(** The body of a data page with these values: its levels, then the values
    themselves or their indices in the dictionary. *)
Definition holds_values (dict : option (list T)) (h : DataPageHeader) (body : bytes) (vs : list (option T)) : Prop :=
  zlen vs = dp_num_values h ∧
  ∃ levels bs section, level_bytes m (dp_num_values h) levels bs ∧ slots m levels vs ∧ body = bs ++ section ∧
    if is_dictionary_encoded (dp_encoding h) then
      ∃ ds idx, dict = Some ds ∧ index_bytes idx section ∧ Forall2 (λ i v, 0 ≤ i ∧ ds !! Z.to_nat i = Some v) idx (somes vs)
    else dp_encoding h = EPlain ∧ Forall ok (somes vs) ∧ ∃ rest, section = write (somes vs) ++ rest.

(** A chunk: at most one dictionary page, before the data pages that use it. *)
Inductive chunk_holds : option (list T) → list stored_page → list (option T) → Prop :=
| chunk_end dict : chunk_holds dict [] []
| chunk_data dict p ps h body vs vs' :
    ph_page_type p.1 = DataPage h → stores p body → holds_values dict h body vs → chunk_holds dict ps vs' →
    chunk_holds dict (p :: ps) (vs ++ vs')
| chunk_dictionary p ps h body ds rest vs :
    ph_page_type p.1 = DictionaryPage h → stores p body → dict_num_values h = zlen ds → Forall ok ds → body = write ds ++ rest →
    chunk_holds (Some ds) ps vs → chunk_holds None (p :: ps) vs.
End values.

Lemma stored_bytes_length p : (0 < length (stored_bytes p))%nat.
Proof using. unfold stored_bytes, page_header_bytes. rewrite length_app. pose proof (fields_bytes_pos 0 (page_fields p.1)). lia. Qed.

Lemma next_page_ok chunk pos p body rest :
  stores p body → left_at chunk pos (stored_bytes p ++ rest) → 2 * value_size * zlen chunk ≤ ISIZE_MAX →
  next_page value_size chunk pos = Ok (p.1, p.2, pos + zlen (stored_bytes p)).
Proof using Hsize.
  intros (Hh & Hc & _) Hl Hcap. pose proof Hl as (Hp & Hlen & Hd). rewrite length_app in Hlen. unfold stored_bytes in Hl, Hlen, Hd |- *. rewrite length_app in Hlen.
  assert (zlen chunk ≤ ISIZE_MAX) by nia. unfold next_page.
  assert (Hfrom : get_from chunk pos = Some (drop (Z.to_nat pos) chunk)) by (apply get_from_Some; split; [lia|done]).
  rewrite Hfrom, Hd, <- (assoc_L (++)). cbn [index ok_or].
  rewrite page_header_roundtrip; [|done|done|]. 2: { rewrite !length_app. nia. }
  cbn [lift_err]. rewrite u_add_ok by mlia. rewrite Hc. assert (as_usize (zlen p.2) = zlen p.2) as -> by (apply wrap64_small; mlia).
  rewrite u_add_ok by mlia. rewrite <- (assoc_L (++)) in Hl. apply left_app in Hl. rewrite (left_range _ _ _ _ Hl). cbn [fails_with ok_or].
  rewrite length_app. do 2 f_equal. lia.
Qed.

Context {T : Type}.
Context {decode_plain : bytes → DataPageHeader → Z → run ReadError (list (option T))}.
Context {decode_dictionary : bytes → Z → run ReadError (list T)}.
Context {decode_data : bytes → DataPageHeader → Z → list T → run ReadError (list (option T))}.
Context {write : list T → bytes} {ok : T → Prop}.
Context `{!ColumnCodec decode_plain decode_dictionary decode_data write ok}.
Hypothesis Hm : 0 ≤ m < 2 ^ 32.

Lemma page_values_ok dict h body vs :
  i32_ok (dp_num_values h) → holds_values write ok dict h body vs →
  page_values decode_plain decode_data m body h dict = Ok vs.
Proof using All.
  intros Hi (Hn & levels & bs & section & Hl & Hs & -> & He).
  assert (Hb : 0 ≤ dp_num_values h < 2 ^ 31) by (change (2 ^ 31) with 2147483648; unfold i32_ok in Hi; lia). unfold page_values.
  destruct (is_dictionary_encoded (dp_encoding h)).
  - destruct He as (ds & idx & -> & Hx & HF). rewrite codec_data. by rewrite (dictionary_column_ok m h levels bs vs Hm Hb Hn Hl Hs ds idx section Hx HF).
  - destruct He as (He & Hok & rest & ->). by rewrite (codec_plain m h levels bs vs rest Hm Hb Hn Hl Hs He Hok).
Qed.

Lemma read_pages_ok chunk dict ps vs (fuel : nat) pos out :
  chunk_holds write ok dict ps vs → left_at chunk pos (concat (map stored_bytes ps)) → (length ps ≤ fuel)%nat →
  2 * value_size * zlen chunk ≤ ISIZE_MAX →
  read_pages value_size decode_plain decode_dictionary decode_data codec chunk m fuel pos dict out = Ok (out ++ vs).
Proof using All.
  intros Hc. revert fuel pos out. induction Hc as [dict|dict p ps h body vs vs' Ht Hst Hv Hc IH|p ps h body ds rest vs Ht Hst Hd Hok Hb Hc IH];
    intros fuel pos out Hl Hf Hcap.
  - destruct Hl as (_ & Hl & _). cbn in Hl. unfold read_pages. destruct fuel; rewrite decide_True by lia; by rewrite app_nil_r.
  - destruct fuel as [|fuel]; [cbn in Hf; lia|]. cbn [map concat] in Hl. cbn [read_pages]. pose proof (stored_bytes_length p). pose proof Hl as (Hp & Hlen & _).
    rewrite length_app in Hlen. rewrite decide_False by lia. rewrite (next_page_ok _ _ _ _ _ Hst Hl Hcap), Ht. pose proof Hst as ((_ & _ & Hh) & _ & Hdec). rewrite Ht in Hh.
    unfold page_body. rewrite Hdec. cbn [lift_err]. rewrite (page_values_ok dict h body vs (proj1 Hh) Hv). apply left_app in Hl.
    rewrite IH; [by rewrite (assoc_L (++))|done|cbn in Hf; lia|done].
  - destruct fuel as [|fuel]; [cbn in Hf; lia|]. cbn [map concat] in Hl. cbn [read_pages]. pose proof (stored_bytes_length p). pose proof Hl as (Hp & Hlen & _).
    rewrite length_app in Hlen. rewrite decide_False by lia. rewrite (next_page_ok _ _ _ _ _ Hst Hl Hcap), Ht. pose proof Hst as ((_ & _ & Hh) & _ & Hdec). rewrite Ht in Hh.
    unfold page_body. rewrite Hdec. cbn [lift_err]. rewrite Hd, Hb in *. rewrite (codec_dictionary ds rest Hok); [|destruct Hh as [Hi _]; unfold i32_ok in Hi; change (2 ^ 31) with 2147483648; lia].
    cbn [lift_err]. apply left_app in Hl. by apply IH; [|cbn in Hf; lia|].
Qed.
End chunk.

(** ** Whole files *)

Section files.
Context `{Build} `{Ruzstd} (value_size : Z).
Hypothesis Hsize : 0 < value_size.

Lemma flat_schema_ok {E} s : counts_ok s → ∃ b, is_flat_schema (E := E) (flatten s) = Ok b.
Proof using.
  clear. destruct s as [e cs]. intros (Hn & Hc & _). unfold is_flat_schema. cbn [flatten]. rewrite Hn.
  rewrite usize_small by lia. change (2 ^ 31) with 2147483648 in Hc. rewrite u_add_ok by mlia. eauto.
Qed.

Lemma open_ok body m s :
  file_meta_ok m → zlen (fields_bytes 0 (file_meta_fields m)) < 2 ^ 32 →
  2 * value_size * zlen (fields_bytes 0 (file_meta_fields m)) ≤ ISIZE_MAX → fm_schema m = flatten s → counts_ok s →
  ∃ flat, open value_size (file_bytes body m) =
    Ok {| pf_metadata := m; pf_data := file_bytes body m; pf_schema_tree := with_levels s 0 0; pf_is_flat := flat |}.
Proof using Hsize.
  intros Hm Hl Hc Hs Hok. unfold open. rewrite parse_footer_ok by done. cbn [lift_err]. rewrite Hs.
  destruct (flat_schema_ok (E := FileError) s Hok) as [b ->]. pose proof (schema_tree_ok s [] Hok) as Ht. rewrite app_nil_r in Ht. rewrite Ht. eauto.
Qed.

(** Where the footer says the chunk of a column is. *)
Definition chunk_at (data : bytes) (meta : ColumnMetaData) (chunk : bytes) : Prop :=
  ∃ pre post, data = pre ++ chunk ++ post ∧ default (cm_data_page_offset meta) (cm_dictionary_page_offset meta) = zlen pre ∧
    cm_total_compressed_size meta = zlen chunk.

Lemma chunk_bytes_ok file group c cc meta chunk :
  rg_columns group !! Z.to_nat c = Some cc → cc_meta_data cc = Some meta → chunk_at (pf_data file) meta chunk →
  zlen (pf_data file) ≤ ISIZE_MAX → column_chunk_bytes file group c = Ok chunk.
Proof using.
  clear. intros Hcc Hmeta (pre & post & Hd & Hpre & Hsz) Hcap. rewrite Hd, !length_app in Hcap. unfold column_chunk_bytes, column_meta. rewrite Hcc. cbn [fails_with ok_or]. rewrite Hmeta. cbn [fails_with ok_or].
  rewrite Hpre, Hsz. unfold as_usize. rewrite !wrap64_small by mlia. rewrite u_add_ok by mlia.
  rewrite Hd, (get_range_app3 pre chunk post) by lia. done.
Qed.

Context {T : Type}.
Context {decode_plain : bytes → DataPageHeader → Z → run ReadError (list (option T))}.
Context {decode_dictionary : bytes → Z → run ReadError (list T)}.
Context {decode_data : bytes → DataPageHeader → Z → list T → run ReadError (list (option T))}.
Context {write : list T → bytes} {ok : T → Prop}.
Context `{!ColumnCodec decode_plain decode_dictionary decode_data write ok}.

Lemma pages_le ps : (length ps ≤ length (concat (map stored_bytes ps)))%nat.
Proof using. induction ps as [|p ps IH]; [done|]. cbn [map concat length]. rewrite length_app. pose proof (stored_bytes_length p). lia. Qed.

Lemma level_range file c : 0 ≤ max_definition_level file c < 2 ^ 32.
Proof using. unfold max_definition_level. destruct (_ ≫= _) as [[]|]; lia. Qed.

Lemma read_column_ok file group c cc meta ps vs :
  rg_columns group !! Z.to_nat c = Some cc → cc_meta_data cc = Some meta →
  chunk_at (pf_data file) meta (concat (map stored_bytes ps)) → 2 * value_size * zlen (pf_data file) ≤ ISIZE_MAX →
  chunk_holds (cm_codec meta) (max_definition_level file c) write ok None ps vs →
  read_column value_size decode_plain decode_dictionary decode_data file group c = Ok vs.
Proof using All.
  intros Hcc Hmeta Hat Hcap Hps. unfold read_column. rewrite (chunk_bytes_ok _ _ _ _ _ _ Hcc Hmeta Hat) by nia.
  unfold column_meta. rewrite Hcc. cbn [fails_with ok_or]. rewrite Hmeta. cbn [fails_with ok_or].
  apply (read_pages_ok value_size (cm_codec meta) (max_definition_level file c) Hsize (level_range file c) _ None ps vs);
    [done|apply left_start|apply pages_le|]. destruct Hat as (pre & post & Hd & _ & _). rewrite Hd, !length_app in Hcap. nia.
Qed.
End files.

(** ** Properties *)

(** C18: A column comes back from the file.  Take any file whose footer
    describes its schema and row groups, and a column chunk laid out as the
    format has it: an optional dictionary page, then data pages, each plain
    or dictionary-encoded, with the levels of its nulls, stored under any
    codec whose decompression gives the page back.  Then [open] succeeds, and
    the reader of the column's type returns the values of its pages in order,
    nulls included.  The theorem is stated for every column type at once: its
    hypothesis on the decoders has an instance for each of the eight. *)
Theorem parquet_column_roundtrip `{Build} `{Ruzstd} (value_size : Z) {T : Type}
    (decode_plain : bytes → DataPageHeader → Z → run ReadError (list (option T)))
    (decode_dictionary : bytes → Z → run ReadError (list T))
    (decode_data : bytes → DataPageHeader → Z → list T → run ReadError (list (option T)))
    (write : list T → bytes) (ok : T → Prop) (body : bytes) (m : FileMetaData) (s : schema) :
  ColumnCodec decode_plain decode_dictionary decode_data write ok →
  0 < value_size → file_meta_ok m → fm_schema m = flatten s → counts_ok s →
  zlen (fields_bytes 0 (file_meta_fields m)) < 2 ^ 32 → 2 * value_size * zlen (file_bytes body m) ≤ ISIZE_MAX →
  ∃ file, open value_size (file_bytes body m) = Ok file ∧ pf_metadata file = m ∧ pf_schema_tree file = with_levels s 0 0 ∧
    ∀ g group c cc meta ps vs,
      row_group file g = Some group → rg_columns group !! Z.to_nat c = Some cc → cc_meta_data cc = Some meta →
      chunk_at body meta (concat (map stored_bytes ps)) →
      chunk_holds (cm_codec meta) (max_definition_level file c) write ok None ps vs →
      read_column value_size decode_plain decode_dictionary decode_data file group c = Ok vs.
Proof.
  intros Hcodec Hs Hm Hsch Hok Hlen Hcap. assert (Hb : zlen (file_bytes body m) = zlen body + zlen (fields_bytes 0 (file_meta_fields m)) + 8).
  { unfold file_bytes. rewrite !length_app, le_bytes_length. cbn [length MAGIC]. lia. }
  destruct (open_ok value_size Hs body m s Hm Hlen ltac:(nia) Hsch Hok) as [flat Ho]. rewrite Ho. eexists. split_and!; [done..|].
  intros g group c cc meta ps vs _ Hcc Hmeta (pre & post & -> & Hp & Hsz) Hps.
  apply (read_column_ok value_size Hs _ _ _ cc meta ps vs); try done. exists pre. unfold file_bytes. cbn [pf_data].
  eexists. split_and!; [by rewrite <- !(assoc_L (++))|done..].
Qed.

(** A file with one optional INT64 column in a Snappy chunk of three pages: a
    dictionary, a page of indices with a null, and a plain page. *)
Definition example_ruzstd : Ruzstd := {| decoder := bytes; new_decoder := Ok; read_to_end := Ok |}.

Definition example_stored (ty : PageType) (body : bytes) : stored_page :=
  let stored := leb128_bytes (zlen body) ++ elem_bytes (Literal 0 body) in
  ({| ph_uncompressed_page_size := zlen body; ph_compressed_page_size := zlen stored; ph_page_type := ty |}, stored).

Definition example_page_header (n : Z) (e : Encoding) : DataPageHeader :=
  {| dp_num_values := n; dp_encoding := e; dp_definition_level_encoding := ERle; dp_repetition_level_encoding := ERle |}.

Definition example_levels (runs : list hybrid_run) : bytes :=
  le_bytes 4 (zlen (hybrid_bytes 1 runs)) ++ hybrid_bytes 1 runs.

Definition example_pages : list stored_page :=
  [example_stored (DictionaryPage {| dict_num_values := 2; dict_encoding := EPlainDictionary |}) (le_bytes 8 7 ++ le_bytes 8 (-1));
   example_stored (DataPage (example_page_header 3 ERleDictionary))
     (example_levels [PackedRun [1; 0; 1; 0; 0; 0; 0; 0]] ++ 1 :: hybrid_bytes 1 [RleRun 1 0; RleRun 1 1]);
   example_stored (DataPage (example_page_header 1 EPlain)) (example_levels [RleRun 1 1] ++ le_bytes 8 5)].

Definition example_chunk : ColumnChunk := {| cc_file_offset := 4; cc_meta_data := Some {|
  cm_physical_type := PInt64; cm_codec := CSnappy; cm_path_in_schema := [[99]]; cm_num_values := 4;
  cm_total_uncompressed_size := 100; cm_total_compressed_size := zlen (concat (map stored_bytes example_pages));
  cm_data_page_offset := 60; cm_dictionary_page_offset := Some 4 |} |}.

Definition example_group : RowGroup := {| rg_columns := [example_chunk]; rg_total_byte_size := 100; rg_num_rows := 4 |}.

Definition example_flat : schema :=
  SElem (SchemaTree.example_element 114 None (Some 1)) [SElem (SchemaTree.example_element 99 (Some Optional) None) []].

Definition example_file_meta : FileMetaData := {|
  fm_version := 1; fm_schema := flatten example_flat; fm_num_rows := 4; fm_row_groups := [example_group]; fm_created_by := None |}.

Lemma example_file_meta_ok : file_meta_ok example_file_meta.
Proof.
  assert (Hs : ∀ c, 0 ≤ c < 0xD800 → str_ok [c]) by (intros c Hc; apply Forall_cons_2; [left; lia|apply Forall_nil_2]).
  repeat first [apply Hs; lia | exact I | split | apply Forall_nil_2 | apply Forall_cons_2]; vm_compute; (reflexivity || congruence).
Qed.

Lemma example_chunk_holds :
  chunk_holds (H0 := example_ruzstd) CSnappy 1 (λ vs, concat (map (le_bytes 8) vs)) i64_ok None example_pages
    [Some 7; None; Some (-1); Some 5].
Proof.
  unfold example_pages. eapply (chunk_dictionary _ _ _ _ _ _ _ _ [7; -1] []); [done| |done| |done|].
  - split_and!; [repeat split; vm_compute; congruence|done|by vm_compute].
  - repeat constructor; vm_compute; congruence.
  - eapply (chunk_data _ _ _ _ _ _ _ _ _ [Some 7; None; Some (-1)] [Some 5]); [done| | |].
    + split_and!; [repeat split; vm_compute; congruence|done|by vm_compute].
    + split; [done|]. exists [1; 0; 1], (example_levels [PackedRun [1; 0; 1; 0; 0; 0; 0; 0]]). eexists. split_and!; [|..|done|].
      * exists [PackedRun [1; 0; 1; 0; 0; 0; 0; 0]], []. split_and!; [by repeat constructor|done..].
      * repeat constructor; naive_solver.
      * exists [7; -1], [0; 1]. split_and!; [done| |repeat constructor; done].
        right. exists 1, [RleRun 1 0; RleRun 1 1], []. split_and!; try done. repeat constructor; done.
    + rewrite <- (app_nil_r [Some 5]). eapply chunk_data; [done| | |constructor].
      * split_and!; [repeat split; vm_compute; congruence|done|by vm_compute].
      * split; [done|]. exists [1], (example_levels [RleRun 1 1]). eexists. split_and!; [|..|done|].
        -- exists [RleRun 1 1], []. split_and!; [repeat constructor; done|done..].
        -- repeat constructor; naive_solver.
        -- split_and!; [done|repeat constructor; vm_compute; congruence|by exists []].
Qed.

Lemma parquet_column_roundtrip_witness :
  ∃ file, open (H := release) 32 (file_bytes (MAGIC ++ concat (map stored_bytes example_pages)) example_file_meta) = Ok file ∧
    file_int64_column (H := release) (H0 := example_ruzstd) 32 file example_group 0 = Ok [Some 7; None; Some (-1); Some 5].
Proof.
  destruct (parquet_column_roundtrip (H := release) (H0 := example_ruzstd) 32 _ _ _ _ _ (MAGIC ++ concat (map stored_bytes example_pages))
    example_file_meta example_flat (int64_codec (H := release))) as (file & Ho & Hm & Ht & Hread).
  - lia.
  - exact example_file_meta_ok.
  - reflexivity.
  - repeat split.
  - vm_compute. reflexivity.
  - vm_compute. congruence.
  - exists file. split; [exact Ho|]. eapply (Hread 0 example_group 0 example_chunk _ example_pages).
    + unfold row_group. rewrite Hm. reflexivity.
    + reflexivity.
    + reflexivity.
    + exists MAGIC, []. rewrite app_nil_r. repeat split.
    + unfold max_definition_level, leaf_element. rewrite Hm. exact example_chunk_holds.
Defined.

(** C39: Malformed input that makes the reader panic instead of returning its
    error, in release and debug builds alike.  [open] panics on a file whose
    footer has an empty schema list; and the PLAIN reader of a required
    column (definition level 0, so no level section) panics on a data page
    whose count of values is negative, whatever its body and the type of its
    values. *)
Theorem malformed_file_panics `{Build} (value_size : Z) (body : bytes) (m : FileMetaData) :
  0 < value_size → file_meta_ok m → fm_schema m = [] →
  zlen (fields_bytes 0 (file_meta_fields m)) < 2 ^ 32 → 2 * value_size * zlen (fields_bytes 0 (file_meta_fields m)) ≤ ISIZE_MAX →
  open value_size (file_bytes body m) = Err Panics ∧
  ∀ T (read : bytes → run ReadError (T * bytes)) page h,
    - 2 ^ 31 ≤ dp_num_values h < 0 → plain_column read page h 0 = Err Panics.
Proof.
  intros Hs Hm Hsch Hl Hc. split.
  - unfold open. rewrite parse_footer_ok by done. cbn [lift_err]. by rewrite Hsch.
  - intros T read page h Hn. unfold plain_column. rewrite decide_False by lia. unfold split_definition_levels. rewrite decide_True by done.
    cbn [fst snd]. unfold assemble, with_capacity, as_usize. rewrite decide_False; [done|].
    change (2 ^ 31) with 2147483648 in Hn. unfold wrap64, ISIZE_MAX. Z.div_mod_to_equations. lia.
Qed.

Lemma malformed_file_panics_witness :
  let m := {| fm_version := 1; fm_schema := []; fm_num_rows := 0; fm_row_groups := []; fm_created_by := None |} in
  open (H := release) 32 (file_bytes [] m) = Err Panics ∧
  plain_column (H := release) read_plain_i64 [] (example_page_header (-1) EPlain) 0 = Err Panics.
Proof.
  intros m. destruct (malformed_file_panics (H := release) 32 [] m) as [Ho Hp].
  - lia.
  - repeat first [exact I | apply Forall_nil_2 | split]; vm_compute; (reflexivity || congruence).
  - reflexivity.
  - vm_compute. reflexivity.
  - vm_compute. congruence.
  - split; [exact Ho|]. apply Hp. vm_compute. split; congruence.
Defined.
