(* ===== verification/NestedFile.v ===== *)
(** * Nested columns of a file ([RowGroupReader::read_leaf_entries], [ParquetFile::read_nested_column])

    The pages of the leaf columns decoded into levels and scalars, and the
    rows put together from them. *)

From S2P Require Import Prelude Text Machine Thrift ParquetMeta ParquetEncoding Snappy ParquetReader SchemaTree Nested ParquetFile.

(** ** The scalars of a page *)

(** The value has the physical type of its column, and what a writer stores for it. *)
Definition scalar_typed (ty : PhysicalType) (s : LeafScalar) : Prop :=
  match ty, s with
  | PInt32, LInt32 v => i32_ok v
  | PInt64, LInt64 v => i64_ok v
  | PFloat, LFloat v => u32_ok v
  | PDouble, LDouble v => u64_ok v
  | PByteArray, LStr s => str_ok s ∧ zlen (as_bytes s) < 2 ^ 32
  | PBoolean, LBool _ => True
  | _, _ => False
  end.

Definition write_scalar (s : LeafScalar) : bytes :=
  match s with
  | LInt32 v => le_bytes 4 v
  | LInt64 v => le_bytes 8 v
  | LFloat v => le_bytes 4 v
  | LDouble v => le_bytes 8 v
  | LStr s => write_string s
  | LBool _ => []
  end.

Definition bool_of (s : LeafScalar) : bool := match s with LBool b => b | _ => false end.

(** Booleans are packed, everything else is one value after the other. *)
Definition scalars_bytes (ty : PhysicalType) (ss : list LeafScalar) : bytes :=
  match ty with
  | PBoolean => pack 1 (map Z.b2z (map bool_of ss))
  | _ => concat (map write_scalar ss)
  end.

Definition scalar_reader (ty : PhysicalType) (st : bytes * Z) : run ReadError (LeafScalar * (bytes * Z)) :=
  read_plain_scalar st.1 ty st.2.

Lemma read_scalar_ok ty s r p : scalar_typed ty s → ty ≠ PBoolean → read_plain_scalar (write_scalar s ++ r) ty p = Ok (s, (r, p)).
Proof.
  destruct ty, s; try done; intros Hok _; cbn [read_plain_scalar write_scalar].
  - by rewrite (plain_read (read := read_plain_i32) _ r Hok).
  - by rewrite (plain_read (read := read_plain_i64) _ r Hok).
  - by rewrite (plain_read (read := read_plain_f32) _ r Hok).
  - by rewrite (plain_read (read := read_plain_f64) _ r Hok).
  - by rewrite (plain_read (read := read_plain_string) _ r Hok).
Qed.

(** The boolean reader drops a byte once its eight bits are used. *)
Lemma scalar_bits bs p bools :
  0 ≤ p → reads (read_bit bs) p bools → reads (scalar_reader PBoolean) (drop (Z.to_nat (p / 8)) bs, p) (map LBool bools).
Proof.
  intros Hp Hr. revert Hp. induction Hr as [|p b p' bools Hb Hr IH]; intros Hp; [constructor|]. unfold read_bit in Hb.
  destruct (get_byte bs (p / 8)) as [byte|] eqn:Hg; [|done]. cbn [fails_with ok_or] in Hb. injection Hb as <- <-.
  apply get_byte_Some in Hg as [_ Hg]. specialize (IH ltac:(lia)). cbn [map].
  assert (Hh : head (drop (Z.to_nat (p / 8)) bs) = Some byte).
  { pose proof (lookup_drop bs (Z.to_nat (p / 8)) 0) as Hd. rewrite Nat.add_0_r, Hg in Hd. rewrite <- Hd. destruct (drop (Z.to_nat (p / 8)) bs); reflexivity. }
  econstructor; [|exact IH]. unfold scalar_reader. cbn [fst snd read_plain_scalar]. rewrite Hh. cbn [fails_with ok_or]. do 3 f_equal.
  case_decide as E.
  - rewrite drop_drop. f_equal. Z.div_mod_to_equations. lia.
  - f_equal. Z.div_mod_to_equations. lia.
Qed.

Lemma scalars_read ty ss rest : Forall (scalar_typed ty) ss → reads (scalar_reader ty) (scalars_bytes ty ss ++ rest, 0) ss.
Proof.
  intros HF. destruct (decide (ty = PBoolean)) as [->|Hty].
  - assert (Hss : ss = map LBool (map bool_of ss)).
    { induction HF as [|s ss Hs HF IH]; [done|]. cbn. rewrite <- IH. by destruct s. }
    rewrite Hss at 2. apply (scalar_bits (scalars_bytes PBoolean ss ++ rest) 0); [lia|]. apply packed_bits_read.
  - replace (scalars_bytes ty ss) with (concat (map write_scalar ss)) by (by destruct ty).
    induction HF as [|s ss Hs HF IH]; [constructor|]. cbn [map concat]. rewrite <- (assoc_L (++)).
    econstructor; [by apply read_scalar_ok|exact IH].
Qed.

(** ** A page of a leaf column *)

Definition level_mask (defs : list Z) (md : Z) (n : nat) (i : Z) : list bool :=
  map (λ k, bool_decide (default md (get_byte defs (i + Z.of_nat k)) = md)) (seq 0 n).

Lemma leaf_values_fill n i defs md ty vb bp :
  leaf_values n i defs md ty vb bp = fill (scalar_reader ty) (level_mask defs md n i) (vb, bp).
Proof.
  revert i vb bp. induction n as [|n IH]; intros i vb bp; [done|]. cbn [leaf_values level_mask seq map fill]. rewrite Z.add_0_r.
  assert (Hm : map (λ k, bool_decide (default md (get_byte defs (i + Z.of_nat k)) = md)) (seq 1 n) = level_mask defs md n (i + 1)).
  { unfold level_mask. rewrite <- seq_shift, map_map. apply map_ext. intros k. by replace (i + Z.of_nat (S k)) with (i + 1 + Z.of_nat k) by lia. }
  rewrite Hm. case_decide as E.
  - rewrite bool_decide_eq_true_2 by done. unfold scalar_reader at 1. cbn [fst snd].
    destruct (read_plain_scalar vb ty bp) as [[s [vb' bp']]|]; [|done]. cbn [fst snd]. by rewrite IH.
  - rewrite bool_decide_eq_false_2 by done. by rewrite IH.
Qed.

(** The entries of a leaf in a page: a value exactly at the maximal level. *)
Definition entry_at (md mr : Z) (e : entry) : Prop :=
  (en_def e = md ↔ is_Some (en_val e)) ∧ (mr = 0 → en_rep e = 0) ∧ (md = 0 → en_def e = 0).

(** The level section for one kind of level: absent when the maximum is 0. *)
Definition levels_of (m : Z) (f : entry → Z) (es : list entry) : list Z := if decide (m = 0) then [] else map f es.

Definition holds_entries (leaf : SchemaNode) (ty : PhysicalType) (h : DataPageHeader) (body : bytes) (es : list entry) : Prop :=
  zlen es = dp_num_values h ∧ Forall (entry_at (sn_max_def_level leaf) (sn_max_rep_level leaf)) es ∧
  Forall (scalar_typed ty) (somes (map en_val es)) ∧
  ∃ bs1 bs2 rest,
    level_bytes (sn_max_rep_level leaf) (zlen es) (levels_of (sn_max_rep_level leaf) en_rep es) bs1 ∧
    level_bytes (sn_max_def_level leaf) (zlen es) (levels_of (sn_max_def_level leaf) en_def es) bs2 ∧
    body = bs1 ++ bs2 ++ scalars_bytes ty (somes (map en_val es)) ++ rest.

Section pages.
Context `{Build}.

Lemma section_ok m n levels bs rest :
  0 ≤ m < 2 ^ 32 → 0 ≤ n < 2 ^ 31 → level_bytes m n levels bs →
  (if decide (m = 0) then Ok ([], bs ++ rest) else read_level_section (bs ++ rest) m n) = Ok (levels, rest).
Proof.
  intros Hm Hn Hl. case_decide as E; [|by apply level_section_ok].
  unfold level_bytes in Hl. rewrite decide_True in Hl by done. by destruct Hl as [-> ->].
Qed.

Lemma level_mask_ok md mr es :
  Forall (entry_at md mr) es → level_mask (levels_of md en_def es) md (length es) 0 = mask_of (map en_val es).
Proof.
  intros HF. unfold level_mask, mask_of. rewrite map_map. apply list_eq. intros i.
  change (map ?f) with (fmap (M := list) f). rewrite !list_lookup_fmap.
  destruct (es !! i) as [e|] eqn:He.
  - rewrite lookup_seq_lt by (by eapply lookup_lt_Some). cbn [fmap option_fmap option_map]. f_equal. rewrite Forall_forall in HF.
    destruct (HF e (list_elem_of_lookup_2 _ _ _ He)) as (Hd & _ & H0).
    assert (Hv : default md (get_byte (levels_of md en_def es) (Z.of_nat i)) = en_def e).
    { unfold levels_of. case_decide as E; [rewrite (H0 E); by destruct (Z.of_nat i)|].
      rewrite (proj2 (get_byte_Some _ _ (en_def e))); [done|]. split; [lia|]. rewrite Nat2Z.id.
      change (map en_def es) with (en_def <$> es). by rewrite list_lookup_fmap, He. }
    rewrite Z.add_0_l. cbn [Nat.add]. rewrite Hv. destruct (en_val e); [rewrite bool_decide_eq_true_2; [done|naive_solver]|].
    rewrite bool_decide_eq_false_2; [done|]. intros E. apply Hd in E. by destruct E.
  - rewrite lookup_seq_ge by (by apply lookup_ge_None). done.
Qed.

Lemma levels_back m x f es :
  (m = 0 → x = 0) → Forall (λ e, m = 0 → f e = 0) es →
  (if decide (levels_of m f es = []) then replicate (length es) x else levels_of m f es) = map f es.
Proof.
  intros Hx HF. unfold levels_of. destruct (decide (m = 0)) as [E|E].
  - rewrite decide_True by done. rewrite (Hx E). induction HF as [|e es He HF IH]; [done|]. cbn. by rewrite (He E), IH.
  - case_decide as E'; [|done]. by destruct es.
Qed.

Lemma leaf_page_ok leaf ty h body es :
  0 ≤ sn_max_rep_level leaf < 2 ^ 32 → 0 ≤ sn_max_def_level leaf < 2 ^ 32 → i32_ok (dp_num_values h) →
  holds_entries leaf ty h body es → leaf_page leaf ty body h = Ok (leaf_entries es).
Proof.
  intros Hr Hd Hi (Hn & HF & Hok & bs1 & bs2 & rest & Hl1 & Hl2 & ->). rewrite Hn in Hl1, Hl2.
  assert (Hb : 0 ≤ dp_num_values h < 2 ^ 31) by (change (2 ^ 31) with 2147483648; unfold i32_ok in Hi; lia).
  unfold leaf_page, split_rep_def_levels. rewrite usize_small by done.
  rewrite (section_ok _ _ _ _ _ Hr Hb Hl1), (section_ok _ _ _ _ _ Hd Hb Hl2).
  rewrite <- Hn, Nat2Z.id, leaf_values_fill, (level_mask_ok _ _ _ HF).
  rewrite (fill_ok _ _ _ (scalars_read ty _ rest Hok)). unfold leaf_entries. do 2 f_equal.
  - apply levels_back; [done|]. eapply Forall_impl; [exact HF|]. intros e (_ & He & _). exact He.
  - apply levels_back; [done|]. eapply Forall_impl; [exact HF|]. intros e (_ & _ & He). exact He.
Qed.
End pages.

(** ** A leaf column *)

Section leaves.
Context `{Build} `{Ruzstd} (value_size : Z).
Hypothesis Hsize : 0 < value_size.

(** Plain data pages, one after the other. *)
Inductive leaf_chunk (codec : Codec) (leaf : SchemaNode) (ty : PhysicalType) : list stored_page → list entry → Prop :=
| leaf_end : leaf_chunk codec leaf ty [] []
| leaf_data p ps h body es es' :
    ph_page_type p.1 = DataPage h → dp_encoding h = EPlain → stores codec p body → holds_entries leaf ty h body es →
    leaf_chunk codec leaf ty ps es' → leaf_chunk codec leaf ty (p :: ps) (es ++ es').

Lemma extend_leaf a es es' : extend_entries (extend_entries a (leaf_entries es)) (leaf_entries es') = extend_entries a (leaf_entries (es ++ es')).
Proof using. clear. unfold extend_entries, leaf_entries. cbn. by rewrite !map_app, !(assoc_L (++)). Qed.

Lemma read_leaf_pages_ok codec chunk leaf ty ps es (fuel : nat) pos out :
  0 ≤ sn_max_rep_level leaf < 2 ^ 32 → 0 ≤ sn_max_def_level leaf < 2 ^ 32 →
  leaf_chunk codec leaf ty ps es → left_at chunk pos (concat (map stored_bytes ps)) → (length ps ≤ fuel)%nat →
  2 * value_size * zlen chunk ≤ ISIZE_MAX →
  read_leaf_pages value_size codec chunk leaf ty fuel pos out = Ok (extend_entries out (leaf_entries es)).
Proof using Hsize.
  intros Hmr Hmd Hc. revert fuel pos out. induction Hc as [|p ps h body es es' Ht He Hst Hv Hc IH]; intros fuel pos out Hl Hf Hcap.
  - destruct Hl as (_ & Hl & _). cbn in Hl. unfold read_leaf_pages. destruct out. unfold extend_entries, leaf_entries.
    destruct fuel; rewrite decide_True by lia; cbn; by rewrite !app_nil_r.
  - destruct fuel as [|fuel]; [cbn in Hf; lia|]. cbn [map concat] in Hl. cbn [read_leaf_pages]. pose proof (stored_bytes_length p). pose proof Hl as (Hp & Hlen & _).
    rewrite length_app in Hlen. rewrite decide_False by lia. rewrite (next_page_ok value_size codec Hsize _ _ _ _ _ Hst Hl Hcap), Ht.
    rewrite decide_False by (intros E; by apply E). pose proof Hst as ((_ & _ & Hh) & _ & Hdec). rewrite Ht in Hh.
    unfold page_body. rewrite Hdec. cbn [lift_err]. rewrite (leaf_page_ok leaf ty h body es Hmr Hmd (proj1 Hh) Hv). cbn [lift_err]. apply left_app in Hl.
    rewrite IH; [by rewrite extend_leaf|done|cbn in Hf; lia|done].
Qed.

(** The chunk of column [c] holds the entries of the leaf. *)
Definition leaf_stored (body : bytes) (group : RowGroup) (c : Z) (leaf : SchemaNode) (es : list entry) : Prop :=
  ∃ cc meta ty ps, rg_columns group !! Z.to_nat c = Some cc ∧ cc_meta_data cc = Some meta ∧
    se_physical_type (sn_element leaf) = Some ty ∧ 0 ≤ sn_max_rep_level leaf < 2 ^ 32 ∧ 0 ≤ sn_max_def_level leaf < 2 ^ 32 ∧
    chunk_at body meta (concat (map stored_bytes ps)) ∧ leaf_chunk (cm_codec meta) leaf ty ps es.

Lemma read_leaf_entries_ok file group c leaf es :
  2 * value_size * zlen (pf_data file) ≤ ISIZE_MAX → leaf_stored (pf_data file) group c leaf es →
  read_leaf_entries value_size file group c leaf = Ok (leaf_entries es).
Proof using Hsize.
  intros Hcap (cc & meta & ty & ps & Hcc & Hmeta & Hty & Hr & Hd & Hat & Hps). unfold read_leaf_entries.
  rewrite (chunk_bytes_ok _ _ _ _ _ _ Hcc Hmeta Hat) by nia.
  unfold column_meta. rewrite Hcc. cbn [fails_with ok_or]. rewrite Hmeta, Hty. cbn [fails_with ok_or].
  rewrite (read_leaf_pages_ok (cm_codec meta) _ leaf ty ps es); [|done|done|done|apply left_start|apply pages_le|].
  - unfold extend_entries, no_entries, leaf_entries. done.
  - destruct Hat as (pre & post & Hdt & _ & _). rewrite Hdt, !length_app in Hcap. nia.
Qed.

Lemma read_leaves_ok file group c lps ess leaf_data :
  2 * value_size * zlen (pf_data file) ≤ ISIZE_MAX → length lps = length ess →
  (∀ i leaf path es, lps !! i = Some (leaf, path) → ess !! i = Some es → leaf_stored (pf_data file) group (c + Z.of_nat i) leaf es) →
  read_leaves value_size file group c lps leaf_data =
    Ok (foldl (λ d pe, <[pe.1 := leaf_entries pe.2]> d) leaf_data (zip (map snd lps) ess)).
Proof using Hsize.
  intros Hcap. revert c ess leaf_data. induction lps as [|[leaf path] lps IH]; intros c [|es ess] ld Hlen Hst; try done.
  cbn [read_leaves map zip foldl fst snd]. pose proof (Hst 0%nat leaf path es eq_refl eq_refl) as Hhd. rewrite Z.add_0_r in Hhd.
  rewrite (read_leaf_entries_ok file group c leaf es Hcap Hhd). apply IH; [by injection Hlen|].
  intros i l p e Hi He. specialize (Hst (S i) l p e Hi He). by replace (c + 1 + Z.of_nat i) with (c + Z.of_nat (S i)) by lia.
Qed.
End leaves.

Lemma foldl_insert_lookup (l : list (list Z * list entry)) (d : LeafData) p es :
  NoDup (map fst l) → (p, es) ∈ l → foldl (λ d pe, <[pe.1 := leaf_entries pe.2]> d) d l !! p = Some (leaf_entries es).
Proof.
  revert d. induction l as [|[q fs] l IH] using rev_ind; intros d Hnd Hin; [set_solver|]. rewrite foldl_app. cbn.
  rewrite map_app in Hnd. apply NoDup_app in Hnd as (Hnd & Hq & _). apply elem_of_app in Hin as [Hin|Hin].
  - rewrite lookup_insert_ne; [by apply IH|]. intros ->. apply (Hq p); [|cbn; set_solver].
    change (map fst l) with (fst <$> l). apply list_elem_of_fmap. by exists (p, es).
  - apply list_elem_of_singleton in Hin as [= -> ->]. by rewrite lookup_insert_eq.
Qed.

Lemma chunk_at_file body m meta chunk : chunk_at body meta chunk → chunk_at (file_bytes body m) meta chunk.
Proof.
  intros (pre & post & -> & Hp & Hsz). exists pre. unfold file_bytes. eexists. split_and!; [by rewrite <- !(assoc_L (++))|done..].
Qed.

Lemma leaf_stored_file `{Ruzstd} body m group c leaf es : leaf_stored body group c leaf es → leaf_stored (file_bytes body m) group c leaf es.
Proof.
  intros (cc & meta & ty & ps & ? & ? & ? & ? & ? & Hat & ?). exists cc, meta, ty, ps. do 5 (split; [done|]). split; [by apply chunk_at_file|done].
Qed.

Lemma row_group_rows m g group : file_meta_ok m → fm_row_groups m !! g = Some group → i64_ok (rg_num_rows group).
Proof.
  intros (_ & _ & _ & HF & _) Hg. rewrite Forall_forall in HF. apply HF. by eapply list_elem_of_lookup_2.
Qed.

(** The column of a field among the columns of the row group. *)
Lemma find_column (names : list (list Z)) (columns : list (list NestedValue)) i name col :
  NoDup names → names !! i = Some name → columns !! i = Some col →
  list_find (λ c : list Z * list NestedValue, c.1 = name) (zip names columns) = Some (i, (name, col)).
Proof.
  intros Hnd Hn Hc. apply list_find_Some. split_and!; [|done|].
  - rewrite lookup_zip_with, Hn. cbn. by rewrite Hc.
  - intros j [n c] Hj Hlt. cbn. intros ->. rewrite lookup_zip_with in Hj.
    destruct (names !! j) as [n|] eqn:Ej; [|done]. destruct (columns !! j); [|done]. cbn in Hj. injection Hj as -> <-.
    pose proof (NoDup_lookup _ _ _ _ Hnd Hn Ej). lia.
Qed.

(** ** Properties *)

(** C28: A nested field comes back from the file.  Take a file whose footer
    describes its schema, made of scalars, lists of scalars, maps from scalars
    to scalars, and structs of such fields, in structs again, whose first
    leaf is not within a list or a map; rows that fit the schema; and leaf
    columns whose plain pages, under any codec, hold the levels and values
    the rows are shredded into.  Then [open] succeeds and
    [read_nested_column] returns, for the name of each field, its rows. *)
Theorem parquet_nested_roundtrip `{Build} `{Ruzstd} (value_size : Z) (body : bytes) (m : FileMetaData) (s : schema)
    (g : Z) (group : RowGroup) (columns : list (list NestedValue)) (ess : list (list entry)) :
  let root := with_levels s 0 0 in
  0 < value_size → file_meta_ok m → fm_schema m = flatten s → counts_ok s →
  zlen (fields_bytes 0 (file_meta_fields m)) < 2 ^ 32 → 2 * value_size * zlen (file_bytes body m) ≤ ISIZE_MAX →
  fm_row_groups m !! Z.to_nat g = Some group → 0 ≤ rg_num_rows group →
  Forall2 (λ f col, shape_ok f 0 ∧ Forall (fits f) col ∧ zlen col = rg_num_rows group) (sn_children root) columns →
  NoDup (map sn_name (sn_children root)) → NoDup (leaf_paths root) →
  length (leaves root) = length ess → length (leaf_paths root) = length ess →
  Forall (λ pe, ∃ es, (pe.1, es) ∈ zip (leaf_paths root) ess ∧ pe.2 = leaf_entries es) (shred_table (sn_children root) columns) →
  (∀ i leaf es, leaves root !! i = Some leaf → ess !! i = Some es → leaf_stored body group (Z.of_nat i) leaf es) →
  ∃ file, open value_size (file_bytes body m) = Ok file ∧
    ∀ i f col, sn_children root !! i = Some f → columns !! i = Some col →
      read_nested_column value_size file g (sn_name f) = Ok col.
Proof.
  intros root Hs Hm Hsch Hok Hlen Hcap Hg Hn0 HF Hnd Hndp Hl1 Hl2 Hshred Hst.
  assert (Hb : zlen (file_bytes body m) = zlen body + zlen (fields_bytes 0 (file_meta_fields m)) + 8).
  { unfold file_bytes. rewrite !length_app, le_bytes_length. cbn [length MAGIC]. lia. }
  destruct (open_ok value_size Hs body m s Hm Hlen ltac:(nia) Hsch Hok) as [flat Ho]. rewrite Ho. eexists. split; [done|].
  intros i f col Hf Hcol. unfold read_nested_column, row_group. cbn [pf_metadata pf_schema_tree]. rewrite Hg. cbn [fails_with ok_or]. fold root.
  rewrite (proj2 (existsb_exists _ _)).
  2: { exists f. split; [by eapply list_elem_of_In, list_elem_of_lookup_2|by apply bool_decide_eq_true_2]. }
  cbn [negb].
  rewrite (read_leaves_ok value_size Hs _ group 0 _ ess ∅); [|done|rewrite length_zip_with; lia|].
  2: { intros j leaf path es Hj He. cbn [pf_data]. apply leaf_stored_file, Hst; [|done]. rewrite lookup_zip_with in Hj.
       destruct (leaves root !! j); [|done]. cbn in Hj. destruct (leaf_paths root !! j); [|done]. cbn in Hj. by injection Hj as ->. }
  assert (Hsnd : map snd (zip (leaves root) (leaf_paths root)) = leaf_paths root) by (apply snd_zip; lia).
  rewrite Hsnd. assert (Hrows : i64_ok (rg_num_rows group)) by (by eapply row_group_rows).
  assert (as_usize (rg_num_rows group) = rg_num_rows group) as -> by (apply wrap64_small; mlia).
  rewrite (reconstruct_ok root columns); [|mlia|done|].
  - cbn [lift_err]. rewrite (find_column _ columns i (sn_name f) col); [done|done|by rewrite (list_lookup_fmap sn_name), Hf|done].
  - eapply Forall_impl; [exact Hshred|]. intros [p e] (es & Hin & ->). cbn [fst snd] in *.
    apply foldl_insert_lookup; [|done]. assert (Hfst : map fst (zip (leaf_paths root) ess) = leaf_paths root) by (apply fst_zip; lia). by rewrite Hfst.
Qed.

(** A file with one optional list of INT32 in three rows. *)
Definition list_schema : schema :=
  SElem (SchemaTree.example_element 114 None (Some 1))
    [SElem (SchemaTree.example_element 108 (Some Optional) (Some 1)) [SElem (SchemaTree.example_element 101 (Some Repeated) None) []]].

Definition list_rows : list NestedValue := [NList [NScalar (LInt32 7); NScalar (LInt32 (-1))]; NNull; NList []].

Definition level_section (w : Z) (runs : list hybrid_run) : bytes := le_bytes 4 (zlen (hybrid_bytes w runs)) ++ hybrid_bytes w runs.
Definition list_reps : list hybrid_run := [PackedRun [0; 1; 0; 0; 0; 0; 0; 0]].
Definition list_defs : list hybrid_run := [PackedRun [2; 2; 0; 1; 0; 0; 0; 0]].

Definition list_page : stored_page :=
  let body := level_section 1 list_reps ++ level_section 2 list_defs ++ le_bytes 4 7 ++ le_bytes 4 (-1) in
  ({| ph_uncompressed_page_size := zlen body; ph_compressed_page_size := zlen body; ph_page_type := DataPage (example_page_header 4 EPlain) |}, body).

Definition list_chunk : ColumnChunk := {| cc_file_offset := 4; cc_meta_data := Some {|
  cm_physical_type := PInt32; cm_codec := Uncompressed; cm_path_in_schema := [[108]; [101]]; cm_num_values := 4;
  cm_total_uncompressed_size := 60; cm_total_compressed_size := zlen (concat (map stored_bytes [list_page]));
  cm_data_page_offset := 4; cm_dictionary_page_offset := None |} |}.

Definition list_group : RowGroup := {| rg_columns := [list_chunk]; rg_total_byte_size := 60; rg_num_rows := 3 |}.

Definition list_meta : FileMetaData := {|
  fm_version := 1; fm_schema := flatten list_schema; fm_num_rows := 3; fm_row_groups := [list_group]; fm_created_by := None |}.

Definition list_entries_of : list entry :=
  walk_entries 1 2 id (map inr list_rows).

Lemma list_meta_ok : file_meta_ok list_meta.
Proof.
  assert (Hs : ∀ c, 0 ≤ c < 0xD800 → str_ok [c]) by (intros c Hc; apply Forall_cons_2; [left; lia|apply Forall_nil_2]).
  repeat first [apply Hs; lia | exact I | split | apply Forall_nil_2 | apply Forall_cons_2]; vm_compute; (reflexivity || congruence).
Qed.

Lemma list_leaf_stored :
  leaf_stored (H0 := example_ruzstd) (MAGIC ++ concat (map stored_bytes [list_page])) list_group 0
    (Node [101] (SchemaTree.example_element 101 (Some Repeated) None) [] 2 1) list_entries_of.
Proof.
  exists list_chunk. eexists _, PInt32, [list_page]. do 3 (split; [done|]). do 2 (split; [cbn; lia|]). split.
  { exists MAGIC, []. by rewrite app_nil_r. }
  rewrite <- (app_nil_r list_entries_of). eapply leaf_data; [done|done| | |constructor].
  - split; [|split; [done|by vm_compute]]. repeat split; vm_compute; congruence.
  - split; [done|]. split; [repeat constructor; cbn; naive_solver|]. split; [repeat constructor; vm_compute; congruence|].
    exists (level_section 1 list_reps), (level_section 2 list_defs), []. split; [|split]; [| |reflexivity].
    + exists list_reps, []. split_and!; [by repeat constructor|done..].
    + exists list_defs, []. split_and!; [repeat constructor; cbn; lia|done..].
Qed.

Lemma parquet_nested_roundtrip_witness :
  ∃ file, open (H := release) 32 (file_bytes (MAGIC ++ concat (map stored_bytes [list_page])) list_meta) = Ok file ∧
    read_nested_column (H := release) (H0 := example_ruzstd) 32 file 0 [108] = Ok list_rows.
Proof.
  destruct (parquet_nested_roundtrip (H := release) (H0 := example_ruzstd) 32 (MAGIC ++ concat (map stored_bytes [list_page]))
    list_meta list_schema 0 list_group [list_rows] [list_entries_of]) as (file & Ho & Hread).
  - lia.
  - exact list_meta_ok.
  - reflexivity.
  - repeat split.
  - vm_compute. reflexivity.
  - vm_compute. congruence.
  - reflexivity.
  - cbn. lia.
  - apply Forall2_cons. split; [|apply Forall2_nil_2]. split; [repeat split; discriminate|]. split; [|reflexivity].
    repeat constructor; cbn; eauto.
  - apply NoDup_singleton.
  - apply NoDup_singleton.
  - reflexivity.
  - reflexivity.
  - apply Forall_cons_2; [|apply Forall_nil_2]. exists list_entries_of. split; [left|reflexivity].
  - intros [|i] leaf es Hl He; [|destruct i; discriminate He]. injection Hl as <-. injection He as <-. exact list_leaf_stored.
  - exists file. split; [exact Ho|]. apply (Hread 0%nat _ list_rows eq_refl eq_refl).
Defined.
